(* ===== verification/_CoqProject ===== *)
-Q . S2P
Prelude.v
DllmReq.v
Denoise.v
JointThreshold.v
LowConfidence.v
SoloDecode.v
Sampling.v
Generate.v
GenerateFacts.v
GenerateProps.v
PrefillAdder.v
DllmScheduler.v
DllmLoop.v
DllmDrain.v
Allocator.v
AllocKernels.v
PagedAllocator.v
MemoryPool.v
RadixCache.v
RadixTree.v
RadixPath.v
RadixInv.v
RadixOps.v
RadixLock.v
RadixMatch.v
RadixInsert.v
RadixEvict.v
RadixReq.v
RadixReach.v
RadixProps.v
Tensor.v
RealOps.v
Moe.v
MoeKernel.v
MoeConfig.v
FusedExperts.v
ServedMoe.v
ServedMoeProps.v
ServedMoeThm.v
LinearAttention.v
HybridAttention.v
HybridKernel.v
KernelFacts.v
KernelDriver.v
Backend.v
Decoder.v
DecoderFacts.v
DecoderCache.v
ModelConfig.v
LinearLayer.v
ServedLayer.v
Adapter.v
AdapterFacts.v
AdapterProps.v
BaseLoad.v
BaseNames.v
BasePlaces.v
BaseLayer.v
BaseProps.v
BaseExperts.v
BaseThm.v
ExtendKernel.v
ExtendFacts.v
ExtendProps.v
TritonBackend.v
TritonProps.v
SoftmaxLayer.v
ServedModel.v
ServedModelFacts.v
ServedPass.v
ServedStack.v
ServedModelProps.v
ServedModelThm.v
ServedDecode.v
ServerArgs.v
LayerPlan.v
