(* ===== verification/Prelude.v ===== *)
(** A verification of the inference path of LLaDA-Hybrid: block diffusion decoding
    on the SGLang server, and the hybrid attention of the model it serves.

    * The program

    A diffusion language model fills blocks of mask tokens.  The server keeps
    requests in queues; in each turn of its event loop the scheduler picks a batch
    of requests that are all in the same phase, cuts each of them to one block, and
    hands the batch to a decoding algorithm.  The algorithm runs the model on the
    blocks again and again and replaces masks by tokens until the blocks are done.
    The model's attention mixes softmax attention inside the block with linear
    attention over everything before it; the linear part lives in a recurrent state
    of fixed size, kept in a slot of a state pool, while the softmax part needs the
    slots of the key-value cache.  When the block is final its tokens go to the
    request, its state is committed, and the request waits for its next turn.

    The same model exists for PyTorch alone, with its own generation loop: it denoises
    block after block, either by passes over everything so far or by passes over one
    block behind a prefix cache of keys, values and recurrent states.  A served model is
    the public base checkpoint plus an adapter file with the trained feature maps and
    LoRA factors.

    * The files

    In dependency order, with the source each one models.  Paths starting with
    [srt/] are under [src/sglang/python/sglang/], the others under [src/].

    - [Prelude]: the result type of fallible Python code with its bind notation,
      Python slices on lists, and shared lemmas.
    - [DllmReq]: [Config] is [srt/dllm/config.py] and the algorithm registry; [Req]
      is the request, its phase machine ([srt/dllm/mixin/req.py],
      [Req.init_next_round_input]) and how it ends ([Req.check_finished], both in
      [srt/managers/schedule_batch.py]).
    - [Denoise]: what the decoding algorithms share, and [DecodeSpec], the interface
      that the scheduler's theorems use of them.
    - [JointThreshold], [LowConfidence]: the two algorithms of [srt/dllm/algorithm];
      each is an instance of [DecodeSpec].
    - [Sampling], [Generate]: sampling and the generation loop of the PyTorch model,
      [generate] and [_generate_with_kv_cache]
      ([llada_hybrid/modeling_llada2_moe.py]), over an abstract network [CausalLM].
    - [GenerateFacts], [GenerateProps]: what the loop relies on of the network
      ([LMShape], [LMCache], [LMVocab]), the loop's invariants and its theorems.
    - [PrefillAdder]: the token budget of a round ([srt/managers/schedule_policy.py]).
    - [DllmScheduler]: [DllmManager] and [SchedulerDllmMixin]
      ([srt/dllm/mixin/scheduler.py]), [ChunkCache] ([srt/mem_cache/chunk_cache.py]),
      and the diffusion path of [get_next_batch_to_run], [prepare_for_extend] and
      [event_loop_normal] ([srt/managers]).
    - [DllmLoop]: theorems on whole turns of the loop, and a small running server.
    - [DllmDrain]: the loop over many turns finishes every request.
    - [Allocator], [AllocKernels], [PagedAllocator]: the key-value slot allocators of
      [srt/mem_cache/allocator.py], with the Triton kernels of the paged one.
    - [MemoryPool]: the request table, the state pool and the hybrid pool that pairs
      them ([srt/mem_cache/memory_pool.py]).
    - [RadixCache]: the radix tree of cached prefixes ([srt/mem_cache/radix_cache.py]) with
      the eviction policies ([srt/mem_cache/evict_policy.py]) and the KV events; the nodes
      live in a store, so that the tree, the leaves and the requests share them.
    - [RadixTree], [RadixPath]: the shape of the tree under splits, new leaves and
      deletions, and what is stored on its paths.
    - [RadixInv], [RadixOps], [RadixLock], [RadixMatch], [RadixInsert], [RadixEvict]: the
      invariant of the cache and what each operation does to it.
    - [RadixReq]: [cache_unfinished_req] and [cache_finished_req], with [AllocOwner], what
      they rely on of the slot allocator; the token allocator is an instance.
    - [RadixReach], [RadixProps]: the cache as a state machine, and its theorems.
    - [Tensor]: tensors as functions and the scalars the attention code computes on.
    - [RealOps]: the real numbers as scalars of sampling and routing.
    - [Moe]: gate, experts and both dispatch paths of [llada_hybrid/moe.py].
    - [MoeKernel]: the fused kernel of the served experts and the alignment of tokens to
      its tiles; [MoeConfig]: its tile configurations; [FusedExperts]: [fused_experts_impl]
      around it, with activation, reduction and chunks
      ([srt/layers/moe/fused_moe_triton]).
    - [ServedMoe]: routing ([srt/layers/moe/topk.py]), the sparse block of
      [srt/models/llada2.py] and the expert-parallel dispatch; [ServedMoeProps] and
      [ServedMoeThm] relate them to [Moe].
    - [LinearAttention], [HybridAttention]: the PyTorch modules of
      [llada_hybrid/linear_attention.py] and [llada_hybrid/hybrid_attention.py].
    - [HybridKernel]: the served kernels and their driver
      ([srt/layers/attention/llada_fast_hybrid_kernel.py]) and the Python reference
      ([kernel/reference.py], [kernel/state.py], [kernel/production.py]).
    - [KernelFacts], [KernelDriver]: the kernels against the reference, and the
      driver against the PyTorch module.
    - [Backend]: the attention backend that builds the kernels' plans and keeps the
      committed and working states ([srt/layers/attention/llada_fast_backend.py], the
      promotion in [Scheduler.stash_chunked_request]).
    - [Decoder]: norm, rotary embedding, attention, prefix cache, decoder layer and the
      stack of layers ([llada_hybrid/norm.py], [rotary.py], [attention.py], [cache.py],
      [decoder.py], [modeling_llada2_moe.py]).
    - [DecoderFacts], [DecoderCache]: passes row by row, and the prefix cache against
      the pass over the whole window; [network] is the [CausalLM] of the loop,
      [network_shape], [network_cache] and [network_vocab] discharge what the loop relies
      on, and generation with the whole model is compared with and without the cache.
    - [ModelConfig]: [LLaDA2MoeConfig] and the constructors that build the network from it;
      [fits] is what a configuration must satisfy for the theorems on the network.
    - [LinearLayer]: layers with linear attention only, on windows of one and of several
      blocks.
    - [ServedLayer]: the served hybrid layer [LLaDAFastHybridAttention]
      ([srt/models/llada_fast.py]) with the norm, rotary embedding and projections of the
      server, against the attention of [Decoder].
    - [Adapter], [AdapterFacts], [AdapterProps]: the adapter file, from
      [scripts/build_adapter.py] to [load_weights] of [srt/models/llada_fast.py], beside
      the stock loaders of the sharded projections ([srt/layers/linear.py]).
    - [BaseLoad]: the loading of the base checkpoint: [load_weights] of
      [srt/models/llada2.py] with its name tables, and the loaders of the fused experts
      ([srt/layers/moe/fused_moe_triton/layer.py]), of merged and row-parallel projections,
      of the embeddings ([srt/layers/vocab_parallel_embedding.py]) and of everything else
      ([srt/model_loader/weight_utils.py]).
    - [BaseNames], [BasePlaces], [BaseLayer]: which parameter, expert and shard a name
      selects, where a loader writes, and the parameters of a whole sparse layer;
      [BaseProps], [BaseExperts], [BaseThm] compose them with [ServedMoeThm].
    - [ExtendKernel]: the attention kernels of the softmax layers over new tokens, with
      their launchers and the kernels that gather slots
      ([srt/layers/attention/triton_ops/extend_attention.py], [utils.py]); [ExtendFacts],
      [ExtendProps]: the invariant of a row under rescaling, and softmax attention.
    - [TritonBackend], [TritonProps]: the softmax backend, its key-value pool and the
      dispatch to softmax and hybrid layers ([srt/layers/attention/triton_backend.py],
      [hybrid_linear_attn_backend.py], [srt/layers/radix_attention.py],
      [srt/mem_cache/memory_pool.py]).
    - [SoftmaxLayer]: the served softmax layer [LLaDA2MoeAttention] of
      [srt/models/llada2.py] against the attention of [Decoder].
    - [ServedModel]: block, model and logits of [srt/models/llada2.py], the norms with a
      residual ([srt/layers/layernorm.py], [communicator.py]), positions
      ([srt/model_executor/forward_batch_info.py]), and the passes and promotions that the
      server runs.  [ServedModelFacts], [ServedPass], [ServedStack], [ServedModelProps] and
      [ServedModelThm] follow a request through them: one layer, one block, the stack
      against the interface [FfnServed] of the feed-forward blocks, many passes, and the
      instance of the interface.
    - [SoloDecode]: [BatchAlgorithm], what a denoising algorithm promises to the model it
      runs on, with both algorithms and the configured one as instances
      ([DllmAlgorithm.from_server_args]); [ServedDecode]: the served model as their runner
      ([ModelRunner.forward], [TpModelWorker._forward_batch_generation_dllm]) over the
      turns of many requests.
    - [ServerArgs]: the arguments that diffusion inference changes
      ([ServerArgs._handle_dllm_inference], [srt/server_args.py]).
    - [LayerPlan]: the hybrid layers in [scripts/prepare_model.py],
      [srt/configs/llada_fast.py] and the constructor of the served model.

    * State and operations

    A Python function that may raise returns [res]; a method that mutates its object
    takes and returns the object's record.  An exception is handed on: by the generation
    loop from the passes of the network (a token outside the embedding), from the
    repetition penalty and from [torch.multinomial], and by the denoising algorithms on
    the served model from its passes.  Requests are shared by several queues, so
    the scheduler holds identities and a heap of requests.  Token tensors are lists
    of integers; machine widths play no role for them, since every index is bounded by
    a length.  Model runner, scalar type, sorting order of the waiting queue, memory
    sizes and the rows of the request table are parameters; so are the library functions
    [torch.topk], [torch.sort], [torch.argsort] and [torch.multinomial], with laws that
    leave open how ties are broken, and the files the adapter code reads.  A kernel launch is a list
    of program instances that write a shared memory, run in any order.

    * What the theorems show

    - Decoding (C1-C5): the algorithms return, keep every token that was not a mask,
      leave no mask when the model never predicts one (with or without the
      repetition penalty of [JointThreshold]), return exactly the tokens behind
      each unmasked prefix, and end with a pass over the tokens they return, so that
      caches and state are those of the final block.
    - Memory (C7, C9, C10, C14): under every operation of the allocators and pools, backups,
      restores, retractions and [clear] included, no slot, page, request row or state slot
      is given to two owners or lost; the paged allocator is followed through the slots
      that its kernels return; the allocation kernel agrees with the naive loop for every
      order of its programs.
    - Radix cache (C8, C12, C17, C20, C27, C30): the tree, the lock counts and the size
      counters are consistent in every reachable state and no call raises; a lookup finds
      the longest cached prefix, and what was inserted is found again; eviction frees enough,
      in the order of the policy, and nothing that is held; caching a finished or unfinished
      request conserves the KV slots.
    - Attention (C15, C21): recurrent linear attention is block-causal
      attention; the training variant does not leak the clean block, for any length and
      any key padding mask.
    - Served model (C6): whatever else the server does in between, the last pass over each
      block of a request returns the logits that one forward pass of the PyTorch model over
      the whole sequence has at the block, through every stack of softmax and hybrid
      layers with dense and sparse feed-forward blocks; up to the same term of the experts
      as below.
    - Softmax kernels (C24, C36): the attention kernel, which sees the keys tile by tile,
      is softmax attention over the cached prefix and the new tokens; the deterministic
      path of the backend gives the same outputs as the normal one.
    - Served experts (C11, C16, C18): the fused experts compute the weighted sum of
      the chosen experts for every configuration and order of the machine, except for a
      single choice with a scaling factor, where the down projections are lost
      ([top1_ignores_down]).  From the
      tensors of a checkpoint, in any order and between any others, the loaded block is the
      PyTorch block of these tensors, but for a term of [1e-20] in a denominator, and the
      outputs of the ranks of an expert- and tensor-parallel server, each with its part of
      the loaded experts, add up to the PyTorch experts.
    - Adapter (C19, C13): the trained tensors arrive in the served parameters through the
      adapter file; on several ranks the output projection is merged correctly and the
      fused projection is not: which rows get their own delta is determined exactly.
    - Kernels (C22, C23): the kernels leave what the reference leaves, cell by cell, and
      the served layer gives every request of a batch the output and state of the
      PyTorch module run on its own tokens.  The kernels read a state apart from the one
      they write; in place the two launches differ from the reference.
    - Scheduling (C25, C26): the adder hands out
      whole blocks; a turn of the loop raises nothing, loses no request and gives each
      request of the batch the open positions of its block, as long as there is memory for
      a block of every running request.
    - Progress (C28, C29): once its requests are admitted the loop finishes all of them
      within a number of turns known in advance; before that it can stop for ever: in every
      state with the full flag set and no batch, as a refused request leaves it, no later
      turn or arrival starts a batch again.
    - Decoding on the served model (C31, C32): over any turns of the server a request gets
      in each block what the algorithm makes of the block alone with logits of one pass over
      its whole sequence so far, and no pass of any turn raises; the row used for padded requests of a graph replay can
      belong to a real one, and that is outside of these turns.
    - Generation (C33-C35, C40): the cached and the uncached loop of the whole model give
      the same answer or the same error; answers have the requested length and hold
      vocabulary tokens; with enough steps no mask is left for a single prompt or without
      early stopping, while in a batch the end of one row leaves masks in the others
      ([early_stop_leaves_masks]); exactly when an exception is raised, and which: a zero
      divisor, no mask id, a token outside the vocabulary, a [top_k] beyond it.
    - Routing (C37, C38): bounds of the gate's choice and weights; both dispatch paths
      compute the mixture of the chosen experts for every token.
    - Prefix cache (C39): a pass over a block that reads the cache returns the logits of
      the pass over the whole window, through every stack of softmax and hybrid layers whose
      hybrid block size divides the block.

    * Fuel and bounds

    Loops that the code bounds itself (the denoising iterations, the steps of [generate],
    the block loop of the driver) are structural recursions on that bound, and the theorems prove that the
    bound suffices.  The loops of the radix cache carry fuel: the length of the key for a
    descent, the number of stored nodes for a climb, an eviction or a traversal; the
    theorems prove that they return, so the fuel suffices.  The event loop is taken a finite number of turns at a time;
    [DllmDrain] says how many are enough.

    * What is not modelled

    Floating-point rounding and casts, the CUDA kernels of compiled packages ([sgl_kernel],
    flashinfer, aiter), which enter with what they document, strides and warps of the kernels, the other prefix
    caches (hierarchical, sliding-window and state caches) and the scheduler on top of the
    radix cache, which the engine of the repository disables, priority preemption, aborts and timeouts,
    overlap scheduling, speculative decoding, disaggregation and metrics; CUDA graph
    capture; of the PyTorch model, dropout, returned attention weights, the cache class of
    the transformers library, and weight initialisation; of the base
    checkpoint, reading the files, quantised and packed formats and experts that were
    relocated; the fused device kernels of norm and rotary embedding; of the softmax layers,
    decode, speculative and sliding-window passes, quantised caches, the kernel that fuses
    rotation and cache writes, and the other attention backends; pipeline and data
    parallelism of the served model; of its experts, quantised weights, tensor descriptors, the fused
    all-reduce, activations other than silu and the DeepEP path; evaluation scripts. *)
From stdpp Require Import base list gmap strings sorting.
From Stdlib Require Import ZArith Lia.

(** * Notations, scopes and automation *)

Declare Scope py_scope.
Delimit Scope py_scope with py.

Create HintDb llada.
Create Rewrite HintDb llada.

(** Errors a modelled Python function can raise. *)
Inductive py_error : Type :=
| AssertionError
| ValueError
| RuntimeError
| IndexError
| KeyError
| TypeError
| NameError
| NotImplementedError
| ZeroDivisionError
| FileNotFoundError
| AttributeError.

#[export] Instance py_error_eq_dec : EqDecision py_error.
Proof. solve_decision. Defined.

(** Result of a Python call: a value or a raised exception. *)
Inductive res (A : Type) : Type :=
| Ok (a : A)
| Raise (e : py_error).
Arguments Ok {A} a.
Arguments Raise {A} e.

Definition rbind {A B} (m : res A) (k : A -> res B) : res B :=
  match m with
  | Ok a => k a
  | Raise e => Raise e
  end.

(** [assert c; k] of Python: raises [AssertionError] when [c] is false. *)
Definition passert {A} (c : bool) (k : res A) : res A :=
  if c then k else Raise AssertionError.

Notation "'let!' x ':=' m 'in' k" := (rbind m (fun x => k))
  (at level 10, x name, m at level 100, k at level 200) : py_scope.
Notation "'let!' ' p ':=' m 'in' k" := (rbind m (fun x => match x with p => k end))
  (at level 10, p pattern, m at level 100, k at level 200) : py_scope.

(** Case analysis on the boolean tests the models branch on. *)
Ltac case_bool :=
  match goal with
  | |- context [if ?b then _ else _] => let E := fresh "E" in destruct b eqn:E
  | H : context [if ?b then _ else _] |- _ => let E := fresh "E" in destruct b eqn:E
  end.

(** Turns boolean comparisons into propositions and calls [lia]. *)
Ltac blia :=
  repeat match goal with
  | H : (_ && _)%bool = true |- _ => apply andb_prop in H; destruct H
  | H : (_ && _)%bool = false |- _ => apply andb_false_iff in H
  | H : (_ || _)%bool = true |- _ => apply orb_true_iff in H
  | H : (_ || _)%bool = false |- _ => apply orb_false_iff in H; destruct H
  | H : negb _ = true |- _ => apply negb_true_iff in H
  | H : negb _ = false |- _ => apply negb_false_iff in H
  end; lia.

(** * Python list primitives *)

Section PyList.
Context {A : Type}.
Implicit Types (l v : list A) (i a b k n : nat).

(** [l[a:b]] for non-negative bounds: out-of-range bounds are clamped. *)
Definition py_slice (a b : nat) (l : list A) : list A := take (b - a) (drop a l).

(** [l[-k:]] for [k > 0]. *)
Definition py_last (k : nat) (l : list A) : list A := drop (length l - k) l.

(** [l[-k:] = v] for [k > 0]. *)
Definition py_set_last (k : nat) (v l : list A) : list A := take (length l - k) l ++ v.

(** [l[a:a+len(v)] = v] on a tensor: an in-place write of a contiguous range. *)
Definition py_splice (a : nat) (v l : list A) : list A :=
  take a l ++ v ++ drop (a + length v) l.

Lemma length_py_slice a b l : b <= length l -> length (py_slice a b l) = b - a.
Proof. intros. unfold py_slice. rewrite length_take, length_drop. lia. Qed.

Lemma lookup_py_slice a b l i :
  i < b - a -> py_slice a b l !! i = l !! (a + i).
Proof. intros. unfold py_slice. rewrite lookup_take_lt by lia. apply lookup_drop. Qed.

Lemma length_py_splice a v l :
  a + length v <= length l -> length (py_splice a v l) = length l.
Proof. intros. unfold py_splice. rewrite !length_app, length_take, length_drop. lia. Qed.

Lemma lookup_py_splice_in a v l i :
  a + length v <= length l -> a <= i -> i < a + length v ->
  py_splice a v l !! i = v !! (i - a).
Proof.
  intros. unfold py_splice.
  rewrite lookup_app_r; rewrite length_take, Nat.min_l by lia; [|lia].
  rewrite lookup_app_l by lia. done.
Qed.

Lemma lookup_py_splice_out a v l i :
  a + length v <= length l -> i < a \/ a + length v <= i ->
  py_splice a v l !! i = l !! i.
Proof.
  intros Hl [Hi|Hi]; unfold py_splice.
  - rewrite lookup_app_l by (rewrite length_take; lia). by rewrite lookup_take_lt.
  - rewrite lookup_app_r by (rewrite length_take; lia).
    rewrite length_take, Nat.min_l by lia.
    rewrite lookup_app_r by lia. rewrite lookup_drop. f_equal. lia.
Qed.

Lemma py_slice_splice_same a v l :
  a + length v <= length l -> py_slice a (a + length v) (py_splice a v l) = v.
Proof.
  intros. unfold py_slice, py_splice.
  rewrite drop_app_length' by (rewrite length_take; lia).
  rewrite take_app_length' by lia. done.
Qed.

Lemma py_slice_splice_other a v l b c :
  a + length v <= length l -> (c <= a \/ a + length v <= b) ->
  py_slice b c (py_splice a v l) = py_slice b c l.
Proof.
  intros Hl Hd. apply list_eq. intros i.
  destruct (decide (i < c - b)).
  - rewrite !lookup_py_slice by lia. apply lookup_py_splice_out; lia.
  - unfold py_slice. rewrite !lookup_take_ge by lia. done.
Qed.

End PyList.

#[export] Hint Rewrite @length_py_splice using lia : llada.

(** * Integer helpers *)

(** [(a + b - 1) // b]: the ceiling division the code spells out. *)
Definition cdiv (a b : nat) : nat := (a + b - 1) / b.

Lemma cdiv_mul_ge a b : 0 < b -> a <= cdiv a b * b.
Proof.
  intros. unfold cdiv. pose proof (Nat.div_mod_eq (a + b - 1) b).
  pose proof (Nat.mod_upper_bound (a + b - 1) b). nia.
Qed.

Lemma cdiv_mul_lt a b : 0 < b -> cdiv a b * b < a + b.
Proof.
  intros. unfold cdiv. pose proof (Nat.div_mod_eq (a + b - 1) b).
  pose proof (Nat.mod_upper_bound (a + b - 1) b). nia.
Qed.

(** * Rectangular lists of rows *)

Definition rect {T} (n : nat) (x : list (list T)) : Prop := Forall (fun r => length r = n) x.

Lemma rect_lookup {T} n (x : list (list T)) b row : rect n x -> x !! b = Some row -> length row = n.
Proof. intros Hx Hb. by apply (Forall_lookup_1 _ _ _ _ Hx Hb). Qed.

Lemma length_concat_rect {T} n (x : list (list T)) : rect n x -> length (concat x) = length x * n.
Proof. induction 1 as [|r x Hr _ IH]; simpl; [done|]. rewrite length_app, Hr, IH. lia. Qed.

(** Position [k] of row [t] in the flattened tensor. *)
Lemma lookup_concat_rect {T} n (x : list (list T)) t row k :
  rect n x -> x !! t = Some row -> k < n -> concat x !! (t * n + k) = row !! k.
Proof.
  intros Hx. revert t. induction Hx as [|r x Hr Hx IH]; intros t Ht Hk; [done|].
  destruct t as [|t]; simplify_eq/=.
  - by rewrite lookup_app_l by lia.
  - rewrite lookup_app_r by lia. rewrite <- (IH t Ht Hk). f_equal. lia.
Qed.
