(* ===== verification/DllmReq.v ===== *)
(** The diffusion-LLM configuration and the request-side state machine.

    [Module Config] models [srt/dllm/config.py] and the algorithm registry of
    [srt/dllm/algorithm]; [Module Req] models the part of a request that the
    dLLM scheduler reads and writes ([srt/dllm/mixin/req.py] and
    [Req.init_next_round_input] of [srt/managers/schedule_batch.py]).
    [Section Finish] models [Req.check_finished] and shows how a block of accepted
    tokens ends a request. *)
From stdpp Require Import base list strings.
From Stdlib Require Import ZArith QArith Lia.
From S2P Require Import Prelude.
Local Open Scope py_scope.
Local Open Scope nat_scope.

Module Config.

(** The YAML dictionary of [--dllm-algorithm-config], by the keys the code
    looks up: [d.get(k, v)] is [default v (ac_k d)]. *)
Record algorithm_config (Sc : Type) : Type := {
  ac_block_size : option nat;
  ac_threshold : option Sc;
  ac_edit_threshold : option Sc;
  ac_max_post_edit_steps : option nat;
  ac_penalty_lambda : option Sc;
}.
Arguments ac_block_size {Sc}.
Arguments ac_threshold {Sc}.
Arguments ac_edit_threshold {Sc}.
Arguments ac_max_post_edit_steps {Sc}.
Arguments ac_penalty_lambda {Sc}.

Definition empty_algorithm_config {Sc} : algorithm_config Sc :=
  {| ac_block_size := None; ac_threshold := None; ac_edit_threshold := None;
     ac_max_post_edit_steps := None; ac_penalty_lambda := None |}.

Record DllmConfig (Sc : Type) : Type := {
  algorithm : string;
  cfg_algorithm_config : algorithm_config Sc;
  block_size : nat;
  mask_id : Z;
  max_running_requests : nat;
}.
Arguments algorithm {Sc}.
Arguments cfg_algorithm_config {Sc}.
Arguments block_size {Sc}.
Arguments mask_id {Sc}.
Arguments max_running_requests {Sc}.

(** The server arguments [from_server_args] reads. *)
Record ServerArgs : Type := {
  sa_dllm_algorithm : option string;
  sa_dllm_algorithm_config : option string;
  sa_max_running_requests : option nat;
}.

(** The literal [DLLM_PARAMS] table: architecture, block size, mask id. *)
Definition DLLM_PARAMS : list (string * (nat * Z)) :=
  [ ("LLaDA2MoeModelLM", (32, 156895%Z));
    ("LLaDAFastForCausalLM", (32, 156895%Z));
    ("SDARForCausalLM", (4, 151669%Z));
    ("SDARMoeForCausalLM", (4, 151669%Z)) ]%string.

Definition assoc_lookup {A} (k : string) (l : list (string * A)) : option A :=
  snd <$> find (fun p => String.eqb (fst p) k) l.

(** [DllmConfig.from_server_args].  [architectures] is the list the loaded
    model configuration carries and [yaml_load] the parsed configuration
    file; both come from outside this code. *)
Definition from_server_args {Sc}
    (architectures : list string) (yaml_load : string -> algorithm_config Sc)
    (sa : ServerArgs) : res (option (DllmConfig Sc)) :=
  match sa_dllm_algorithm sa with
  | None => Ok None
  | Some alg =>
    match architectures !! 0 with
    | None => Raise IndexError
    | Some arch =>
      match assoc_lookup arch DLLM_PARAMS with
      | None => Raise RuntimeError
      | Some (bs0, mid) =>
        let mrr := match sa_max_running_requests sa with None => 1 | Some n => n end in
        let ac := match sa_dllm_algorithm_config sa with
                  | None => empty_algorithm_config
                  | Some path => yaml_load path
                  end in
        let bs := match sa_dllm_algorithm_config sa with
                  | None => bs0
                  | Some _ => default bs0 (ac_block_size ac)
                  end in
        Ok (Some {| algorithm := alg; cfg_algorithm_config := ac; block_size := bs;
                    mask_id := mid; max_running_requests := mrr |})
      end
    end
  end.

(** The classes [import_algorithms] registers: one per module of the package
    that defines [Algorithm]. *)
Inductive algo_class : Type := JointThresholdCls | LowConfidenceCls.

Definition algo_name_to_cls : list (string * algo_class) :=
  [ ("JointThreshold", JointThresholdCls); ("LowConfidence", LowConfidenceCls) ]%string.

(** [get_algorithm]: any failure of the lookup is a [RuntimeError]. *)
Definition get_algorithm {Sc} (config : DllmConfig Sc) : res algo_class :=
  match assoc_lookup (algorithm config) algo_name_to_cls with
  | Some c => Ok c
  | None => Raise RuntimeError
  end.

End Config.

Module Req.
Import Config.

Inductive DllmReqPhase : Type :=
| STAGING_PREFILL | STAGING_DECODE | INCOMING_PREFILL | INCOMING_DECODE.

#[export] Instance DllmReqPhase_eq_dec : EqDecision DllmReqPhase.
Proof. solve_decision. Defined.

(** The fields of a request the dLLM path reads or writes.
    [finished_reason] and [to_finish] record whether the field is set,
    [logprob_start] is [logprob_start_len] when [return_logprob] holds and it is
    not negative, [last_node] is the identity of a cache node, and
    [tokenizer_stops] holds [eos_token_id] and [additional_stop_token_ids] of the
    tokenizer when there is one. *)
Record req (Sc : Type) : Type := mkReq {
  rid : string;
  origin_input_ids : list Z;
  output_ids : list Z;
  fill_ids : list Z;
  prefix_indices : list Z;
  dllm_phase : option DllmReqPhase;
  dllm_block_offset : nat;
  dllm_config : option (DllmConfig Sc);
  extend_input_len : Z;
  is_chunked : nat;
  finished_reason : bool;
  finished_len : option Z;
  to_finish : bool;
  logprob_start : option nat;
  last_node : option nat;
  cache_protected_len : nat;
  host_hit_length : nat;
  req_pool_idx : option nat;
  max_new_tokens : Z;
  ignore_eos : bool;
  stop_token_ids : list Z;
  eos_token_ids : list Z;
  tokenizer_stops : option (Z * list Z);
  vocab_size : Z;
}.
Arguments mkReq {Sc}.
Arguments rid {Sc}.
Arguments origin_input_ids {Sc}.
Arguments output_ids {Sc}.
Arguments fill_ids {Sc}.
Arguments prefix_indices {Sc}.
Arguments dllm_phase {Sc}.
Arguments dllm_block_offset {Sc}.
Arguments dllm_config {Sc}.
Arguments extend_input_len {Sc}.
Arguments is_chunked {Sc}.
Arguments finished_reason {Sc}.
Arguments finished_len {Sc}.
Arguments to_finish {Sc}.
Arguments logprob_start {Sc}.
Arguments last_node {Sc}.
Arguments cache_protected_len {Sc}.
Arguments host_hit_length {Sc}.
Arguments req_pool_idx {Sc}.
Arguments max_new_tokens {Sc}.
Arguments ignore_eos {Sc}.
Arguments stop_token_ids {Sc}.
Arguments eos_token_ids {Sc}.
Arguments tokenizer_stops {Sc}.
Arguments vocab_size {Sc}.

Section Setters.
Context {Sc : Type}.
Implicit Types r : req Sc.

Definition set_output_ids (x : list Z) r : req Sc :=
  mkReq (rid r) (origin_input_ids r) x (fill_ids r) (prefix_indices r) (dllm_phase r)
    (dllm_block_offset r) (dllm_config r) (extend_input_len r) (is_chunked r)
    (finished_reason r) (finished_len r) (to_finish r) (logprob_start r) (last_node r)
    (cache_protected_len r) (host_hit_length r) (req_pool_idx r) (max_new_tokens r)
    (ignore_eos r) (stop_token_ids r) (eos_token_ids r) (tokenizer_stops r) (vocab_size r).
Definition set_fill_ids (x : list Z) r : req Sc :=
  mkReq (rid r) (origin_input_ids r) (output_ids r) x (prefix_indices r) (dllm_phase r)
    (dllm_block_offset r) (dllm_config r) (extend_input_len r) (is_chunked r)
    (finished_reason r) (finished_len r) (to_finish r) (logprob_start r) (last_node r)
    (cache_protected_len r) (host_hit_length r) (req_pool_idx r) (max_new_tokens r)
    (ignore_eos r) (stop_token_ids r) (eos_token_ids r) (tokenizer_stops r) (vocab_size r).
Definition set_prefix_indices (x : list Z) r : req Sc :=
  mkReq (rid r) (origin_input_ids r) (output_ids r) (fill_ids r) x (dllm_phase r)
    (dllm_block_offset r) (dllm_config r) (extend_input_len r) (is_chunked r)
    (finished_reason r) (finished_len r) (to_finish r) (logprob_start r) (last_node r)
    (cache_protected_len r) (host_hit_length r) (req_pool_idx r) (max_new_tokens r)
    (ignore_eos r) (stop_token_ids r) (eos_token_ids r) (tokenizer_stops r) (vocab_size r).
Definition set_dllm_phase (x : option DllmReqPhase) r : req Sc :=
  mkReq (rid r) (origin_input_ids r) (output_ids r) (fill_ids r) (prefix_indices r) x
    (dllm_block_offset r) (dllm_config r) (extend_input_len r) (is_chunked r)
    (finished_reason r) (finished_len r) (to_finish r) (logprob_start r) (last_node r)
    (cache_protected_len r) (host_hit_length r) (req_pool_idx r) (max_new_tokens r)
    (ignore_eos r) (stop_token_ids r) (eos_token_ids r) (tokenizer_stops r) (vocab_size r).
Definition set_dllm_block_offset (x : nat) r : req Sc :=
  mkReq (rid r) (origin_input_ids r) (output_ids r) (fill_ids r) (prefix_indices r)
    (dllm_phase r) x (dllm_config r) (extend_input_len r) (is_chunked r) (finished_reason r)
    (finished_len r) (to_finish r) (logprob_start r) (last_node r) (cache_protected_len r)
    (host_hit_length r) (req_pool_idx r) (max_new_tokens r) (ignore_eos r)
    (stop_token_ids r) (eos_token_ids r) (tokenizer_stops r) (vocab_size r).
Definition set_dllm_config (x : option (DllmConfig Sc)) r : req Sc :=
  mkReq (rid r) (origin_input_ids r) (output_ids r) (fill_ids r) (prefix_indices r)
    (dllm_phase r) (dllm_block_offset r) x (extend_input_len r) (is_chunked r)
    (finished_reason r) (finished_len r) (to_finish r) (logprob_start r) (last_node r)
    (cache_protected_len r) (host_hit_length r) (req_pool_idx r) (max_new_tokens r)
    (ignore_eos r) (stop_token_ids r) (eos_token_ids r) (tokenizer_stops r) (vocab_size r).
Definition set_extend_input_len (x : Z) r : req Sc :=
  mkReq (rid r) (origin_input_ids r) (output_ids r) (fill_ids r) (prefix_indices r)
    (dllm_phase r) (dllm_block_offset r) (dllm_config r) x (is_chunked r)
    (finished_reason r) (finished_len r) (to_finish r) (logprob_start r) (last_node r)
    (cache_protected_len r) (host_hit_length r) (req_pool_idx r) (max_new_tokens r)
    (ignore_eos r) (stop_token_ids r) (eos_token_ids r) (tokenizer_stops r) (vocab_size r).
Definition set_is_chunked (x : nat) r : req Sc :=
  mkReq (rid r) (origin_input_ids r) (output_ids r) (fill_ids r) (prefix_indices r)
    (dllm_phase r) (dllm_block_offset r) (dllm_config r) (extend_input_len r) x
    (finished_reason r) (finished_len r) (to_finish r) (logprob_start r) (last_node r)
    (cache_protected_len r) (host_hit_length r) (req_pool_idx r) (max_new_tokens r)
    (ignore_eos r) (stop_token_ids r) (eos_token_ids r) (tokenizer_stops r) (vocab_size r).
Definition set_finished_reason (x : bool) r : req Sc :=
  mkReq (rid r) (origin_input_ids r) (output_ids r) (fill_ids r) (prefix_indices r)
    (dllm_phase r) (dllm_block_offset r) (dllm_config r) (extend_input_len r) (is_chunked r)
    x (finished_len r) (to_finish r) (logprob_start r) (last_node r) (cache_protected_len r)
    (host_hit_length r) (req_pool_idx r) (max_new_tokens r) (ignore_eos r)
    (stop_token_ids r) (eos_token_ids r) (tokenizer_stops r) (vocab_size r).
Definition set_finished_len (x : option Z) r : req Sc :=
  mkReq (rid r) (origin_input_ids r) (output_ids r) (fill_ids r) (prefix_indices r)
    (dllm_phase r) (dllm_block_offset r) (dllm_config r) (extend_input_len r) (is_chunked r)
    (finished_reason r) x (to_finish r) (logprob_start r) (last_node r)
    (cache_protected_len r) (host_hit_length r) (req_pool_idx r) (max_new_tokens r)
    (ignore_eos r) (stop_token_ids r) (eos_token_ids r) (tokenizer_stops r) (vocab_size r).
Definition set_to_finish (x : bool) r : req Sc :=
  mkReq (rid r) (origin_input_ids r) (output_ids r) (fill_ids r) (prefix_indices r)
    (dllm_phase r) (dllm_block_offset r) (dllm_config r) (extend_input_len r) (is_chunked r)
    (finished_reason r) (finished_len r) x (logprob_start r) (last_node r)
    (cache_protected_len r) (host_hit_length r) (req_pool_idx r) (max_new_tokens r)
    (ignore_eos r) (stop_token_ids r) (eos_token_ids r) (tokenizer_stops r) (vocab_size r).
Definition set_last_node (x : option nat) r : req Sc :=
  mkReq (rid r) (origin_input_ids r) (output_ids r) (fill_ids r) (prefix_indices r)
    (dllm_phase r) (dllm_block_offset r) (dllm_config r) (extend_input_len r) (is_chunked r)
    (finished_reason r) (finished_len r) (to_finish r) (logprob_start r) x
    (cache_protected_len r) (host_hit_length r) (req_pool_idx r) (max_new_tokens r)
    (ignore_eos r) (stop_token_ids r) (eos_token_ids r) (tokenizer_stops r) (vocab_size r).
Definition set_cache_protected_len (x : nat) r : req Sc :=
  mkReq (rid r) (origin_input_ids r) (output_ids r) (fill_ids r) (prefix_indices r)
    (dllm_phase r) (dllm_block_offset r) (dllm_config r) (extend_input_len r) (is_chunked r)
    (finished_reason r) (finished_len r) (to_finish r) (logprob_start r) (last_node r) x
    (host_hit_length r) (req_pool_idx r) (max_new_tokens r) (ignore_eos r)
    (stop_token_ids r) (eos_token_ids r) (tokenizer_stops r) (vocab_size r).
Definition set_host_hit_length (x : nat) r : req Sc :=
  mkReq (rid r) (origin_input_ids r) (output_ids r) (fill_ids r) (prefix_indices r)
    (dllm_phase r) (dllm_block_offset r) (dllm_config r) (extend_input_len r) (is_chunked r)
    (finished_reason r) (finished_len r) (to_finish r) (logprob_start r) (last_node r)
    (cache_protected_len r) x (req_pool_idx r) (max_new_tokens r) (ignore_eos r)
    (stop_token_ids r) (eos_token_ids r) (tokenizer_stops r) (vocab_size r).
Definition set_req_pool_idx (x : option nat) r : req Sc :=
  mkReq (rid r) (origin_input_ids r) (output_ids r) (fill_ids r) (prefix_indices r)
    (dllm_phase r) (dllm_block_offset r) (dllm_config r) (extend_input_len r) (is_chunked r)
    (finished_reason r) (finished_len r) (to_finish r) (logprob_start r) (last_node r)
    (cache_protected_len r) (host_hit_length r) x (max_new_tokens r) (ignore_eos r)
    (stop_token_ids r) (eos_token_ids r) (tokenizer_stops r) (vocab_size r).
End Setters.

Section Operations.
Context {Sc : Type}.
Implicit Types r : req Sc.

(** [ReqDllmMixin.init_diffusion_llm]. *)
Definition init_diffusion_llm (cfg : option (DllmConfig Sc)) r : req Sc :=
  let r := set_dllm_phase None r in
  let r := set_dllm_block_offset 0 r in
  let r := set_dllm_config cfg r in
  match cfg with
  | None => r
  | Some c =>
    if length (origin_input_ids r) <? block_size c
    then set_dllm_phase (Some INCOMING_DECODE) r
    else set_dllm_phase (Some INCOMING_PREFILL) r
  end.

Definition is_dllm r : bool :=
  match dllm_config r with Some _ => true | None => false end.

Definition is_dllm_prefill r : bool :=
  match dllm_phase r with
  | Some STAGING_PREFILL | Some INCOMING_PREFILL => true
  | _ => false
  end.

(** [m not in block]. *)
Definition not_in (m : Z) (l : list Z) : bool := forallb (fun x => negb (Z.eqb x m)) l.

(** [ReqDllmMixin.determine_dllm_phase]. *)
Definition determine_dllm_phase (c : DllmConfig Sc) r : req Sc :=
  let prefix_length := length (prefix_indices r) in
  let min_required_length := prefix_length + block_size c in
  if length (fill_ids r) <? min_required_length then r
  else
    let input_block := py_slice prefix_length min_required_length (fill_ids r) in
    if not_in (mask_id c) input_block
    then set_dllm_phase (Some STAGING_PREFILL) r
    else set_dllm_phase (Some STAGING_DECODE) r.

(** [ReqDllmMixin._init_fill_ids_for_dllm]. *)
Definition _init_fill_ids_for_dllm (c : DllmConfig Sc) r : req Sc :=
  let r := set_dllm_block_offset
             (match fill_ids r with
              | [] => 0
              | _ => dllm_block_offset r + block_size c
              end) r in
  set_fill_ids (origin_input_ids r ++ output_ids r
                  ++ replicate (block_size c) (mask_id c)) r.

(** [ReqDllmMixin._update_block_offset_for_dllm]: the prefix must be a whole
    number of blocks. *)
Definition _update_block_offset_for_dllm (c : DllmConfig Sc) r : res (req Sc) :=
  let prefix_len := length (prefix_indices r) in
  passert (prefix_len mod block_size c =? 0)
    (Ok (if dllm_block_offset r <? prefix_len
         then set_dllm_block_offset prefix_len r else r)).

(** What a prefix cache returns for a lookup ([MatchResult]). *)
Record match_result : Type := {
  mr_device_indices : list Z;
  mr_last_device_node : option nat;
  mr_host_hit_length : nat;
  mr_cache_protected_len : option nat;
}.

(** [Req.init_next_round_input], for a request with no streaming session and
    no multimodal input.  [match_prefix] is the prefix lookup of the tree
    cache when one is passed. *)
Definition init_next_round_input (match_prefix : option (list Z -> match_result)) r
    : res (req Sc) :=
  let r := match dllm_config r with
           | Some c => determine_dllm_phase c (_init_fill_ids_for_dllm c r)
           | None => set_fill_ids (origin_input_ids r ++ output_ids r) r
           end in
  let input_len := length (fill_ids r) in
  let max_prefix_len := input_len - 1 in
  let max_prefix_len := match logprob_start r with
                        | Some s => Nat.min max_prefix_len s
                        | None => max_prefix_len
                        end in
  let token_ids := take max_prefix_len (fill_ids r) in
  let! r := match match_prefix with
            | None => Ok r
            | Some f =>
              let m := f token_ids in
              let r := set_prefix_indices (mr_device_indices m) r in
              let r := set_last_node (mr_last_device_node m) r in
              let r := set_host_hit_length (mr_host_hit_length m) r in
              let r := set_cache_protected_len
                         (default (length (prefix_indices r)) (mr_cache_protected_len m)) r in
              match dllm_config r with
              | Some c => _update_block_offset_for_dllm c r
              | None => Ok r
              end
            end in
  Ok (set_extend_input_len
        (Z.of_nat (length (fill_ids r)) - Z.of_nat (length (prefix_indices r))) r).

End Operations.

(** ** When a request is finished *)

Section Finish.
Context {Sc : Type}.
Implicit Types r : req Sc.

Definition finished r : bool := finished_reason r.

(** One of the stop, end-of-sequence or tokenizer stop tokens. *)
Definition is_stop r (t : Z) : bool :=
  existsb (Z.eqb t) (stop_token_ids r) || existsb (Z.eqb t) (eos_token_ids r) ||
  match tokenizer_stops r with
  | Some (eos, more) => Z.eqb t eos || existsb (Z.eqb t) more
  | None => false
  end.

(** Index of the first element that satisfies [f]. *)
Fixpoint first_index (f : Z -> bool) (l : list Z) : option nat :=
  match l with
  | [] => None
  | t :: l => if f t then Some 0 else S <$> first_index f l
  end.

(** [len(self.output_ids) - len(new_accepted_tokens) + i]. *)
Definition new_pos (new : list Z) (i : nat) r : Z :=
  (Z.of_nat (length (output_ids r)) - Z.of_nat (length new) + Z.of_nat i)%Z.

(** [_check_token_based_finish]: the updated request when it returns [True]. *)
Definition _check_token_based_finish (new : list Z) r : option (req Sc) :=
  if ignore_eos r then None
  else (fun i => set_finished_len (Some (new_pos new i r + 1)%Z) (set_finished_reason true r))
         <$> first_index (is_stop r) new.

(** [_check_vocab_boundary_finish]: the offending token is replaced by a stop
    token when there is one, an end-of-sequence token taking precedence. *)
Definition _check_vocab_boundary_finish (new : list Z) r : option (req Sc) :=
  (fun i =>
     let offset := new_pos new i r in
     let put := fun l out => match l with t :: _ => <[Z.to_nat offset := t]> out | [] => out end in
     let r' := set_output_ids (put (eos_token_ids r) (put (stop_token_ids r) (output_ids r))) r in
     set_finished_len (Some (offset + 1)%Z) (set_finished_reason true r'))
    <$> first_index (fun t => (vocab_size r <? t)%Z || (t <? 0)%Z) new.

(** [output_ids[-n:]]; a zero length selects everything. *)
Definition accepted (n : nat) r : list Z :=
  if n =? 0 then output_ids r else py_last n (output_ids r).

(** [check_finished]; [grammar] is [grammar.is_terminated()] when there is a
    grammar, [str_finish] the verdict of the stop strings and patterns. *)
Definition check_finished (grammar : option bool) (str_finish : req Sc -> bool) (n : nat) r : req Sc :=
  if finished r then r
  else if to_finish r then set_to_finish false (set_finished_reason true r)
  else if (max_new_tokens r <=? Z.of_nat (length (output_ids r)))%Z
  then set_finished_len (Some (max_new_tokens r)) (set_finished_reason true r)
  else match grammar with
  | Some true => set_finished_reason true r
  | _ =>
    let new := accepted n r in
    match _check_token_based_finish new r with
    | Some r' => r'
    | None =>
      match _check_vocab_boundary_finish new r with
      | Some r' => r'
      | None => if str_finish r then set_finished_reason true r else r
      end
    end
  end.

(** [output_ids_through_stop]. *)
Definition output_ids_through_stop r : list Z :=
  match finished_len r with
  | Some n => take (Z.to_nat n) (output_ids r)
  | None => output_ids r
  end.

End Finish.

Section FinishFacts.
Context {Sc : Type}.
Implicit Types r : req Sc.

Lemma first_index_Some f l i :
  first_index f l = Some i <->
  (exists t, l !! i = Some t /\ f t = true) /\ forall j t, j < i -> l !! j = Some t -> f t = false.
Proof.
  revert i. induction l as [|x l IH]; intros i; simpl.
  { split; [done|]. intros [(t & Ht & _) _]. done. }
  destruct (f x) eqn:E.
  - split.
    + intros [= <-]. split; [by exists x|]. intros; lia.
    + intros [(t & Ht & Hf) Hj]. destruct i as [|i]; [done|].
      specialize (Hj 0 x ltac:(lia) eq_refl). congruence.
  - destruct i as [|i].
    + split; [by destruct (first_index f l)|]. intros [(t & [= <-] & Hf) _]. congruence.
    + rewrite fmap_Some. split.
      * intros (k & Hk & [= <-]). apply IH in Hk as [Ht Hj]. split; [done|].
        intros [|j] t Hlt Hl; [by simplify_eq/=|]. eapply Hj; [|exact Hl]. lia.
      * intros [Ht Hj]. exists i. split; [|done]. apply IH. split; [done|].
        intros j t Hlt Hl. apply (Hj (S j) t); [lia|done].
Qed.

Lemma first_index_None f l : (forall t, t ∈ l -> f t = false) -> first_index f l = None.
Proof.
  intros Hf. destruct (first_index f l) as [i|] eqn:E; [|done].
  apply first_index_Some in E as [(t & Ht & E) _]. apply list_elem_of_lookup_2, Hf in Ht. congruence.
Qed.

(** The accepted tokens are the last [n] of the output. *)
Lemma accepted_eq n r : 0 < n <= length (output_ids r) ->
  length (accepted n r) = n /\
  forall i, i < n -> accepted n r !! i = output_ids r !! (length (output_ids r) - n + i).
Proof.
  intros Hn. unfold accepted. destruct (Nat.eqb_spec n 0); [lia|].
  unfold py_last. rewrite length_drop. split; [lia|]. intros i Hi. apply lookup_drop.
Qed.

End FinishFacts.

(** How a block of accepted tokens ends a request that nobody aborted: at the
    length limit the visible output is cut to [max_new_tokens]; below it, the
    visible output ends with the first stop token of the block and holds nothing
    behind it; with no stop token, every token in the vocabulary and no stop
    string, the request is left running and unchanged. *)
Lemma finish_cuts_output {Sc : Type} (grammar : option bool) (str_finish : req Sc -> bool) (n : nat)
    (r : req Sc) :
  finished r = false -> to_finish r = false -> grammar <> Some true ->
  0 < n <= length (output_ids r) ->
  let r' := check_finished grammar str_finish n r in
  let len := Z.of_nat (length (output_ids r)) in
  ((max_new_tokens r <= len)%Z ->
     finished r' = true /\ output_ids_through_stop r' = take (Z.to_nat (max_new_tokens r)) (output_ids r)) /\
  (forall i t, (len < max_new_tokens r)%Z -> ignore_eos r = false ->
     accepted n r !! i = Some t -> is_stop r t = true ->
     (forall j u, j < i -> accepted n r !! j = Some u -> is_stop r u = false) ->
     finished r' = true /\
     output_ids_through_stop r' = take (length (output_ids r) - n + i) (output_ids r) ++ [t]) /\
  ((len < max_new_tokens r)%Z -> (ignore_eos r = false -> forall t, t ∈ accepted n r -> is_stop r t = false) ->
     (forall t, t ∈ accepted n r -> 0 <= t <= vocab_size r)%Z -> str_finish r = false -> r' = r).
Proof.
  intros Hf Hto Hg Hn r' len. unfold r', check_finished. rewrite Hf, Hto.
  destruct (accepted_eq n r Hn) as [La Ha]. split; [|split].
  - intros Hl. destruct (Z.leb_spec (max_new_tokens r) (Z.of_nat (length (output_ids r)))); [done|lia].
  - intros i t Hl Hi Ht Hs Hj.
    destruct (Z.leb_spec (max_new_tokens r) (Z.of_nat (length (output_ids r)))); [lia|].
    assert (E : _check_token_based_finish (accepted n r) r
      = Some (set_finished_len (Some (new_pos (accepted n r) i r + 1)%Z) (set_finished_reason true r))).
    { unfold _check_token_based_finish. rewrite Hi.
      assert (E : first_index (is_stop r) (accepted n r) = Some i)
        by (apply first_index_Some; split; [by exists t|exact Hj]). by rewrite E. }
    apply lookup_lt_Some in Ht as Hlt. rewrite La in Hlt. rewrite (Ha i Hlt) in Ht.
    destruct grammar as [[]|]; [done| |]; rewrite E; (split; [done|]);
      unfold output_ids_through_stop; simpl; unfold new_pos; rewrite La;
      rewrite <- (take_S_r _ _ _ Ht); f_equal; lia.
  - intros Hl Hs Hv Hstr.
    destruct (Z.leb_spec (max_new_tokens r) (Z.of_nat (length (output_ids r)))); [lia|].
    assert (E1 : _check_token_based_finish (accepted n r) r = None).
    { unfold _check_token_based_finish. destruct (ignore_eos r); [done|].
      by rewrite first_index_None by auto. }
    assert (E2 : _check_vocab_boundary_finish (accepted n r) r = None).
    { unfold _check_vocab_boundary_finish. rewrite first_index_None; [done|].
      intros t Ht%Hv. destruct (Z.ltb_spec (vocab_size r) t), (Z.ltb_spec t 0); (done || lia). }
    destruct grammar as [[]|]; [done| |]; by rewrite E1, E2, Hstr.
Qed.

(** ** A concrete request *)

Definition demo_req (out : list Z) (limit : Z) : req Z :=
  mkReq "r" [1; 2]%Z out [] [] None 0 None 0 0 false None false None None 0 0 None limit false
    [9]%Z [] None 100.

Lemma finish_cuts_output_witness :
  finished (check_finished None (fun _ => false) 4 (demo_req [3; 4; 5; 9; 6; 9]%Z 64)) = true /\
  output_ids_through_stop (check_finished None (fun _ => false) 4 (demo_req [3; 4; 5; 9; 6; 9]%Z 64))
  = [3; 4; 5; 9]%Z.
Proof.
  apply (finish_cuts_output None (fun _ => false) 4 (demo_req [3; 4; 5; 9; 6; 9]%Z 64))
    with (i := 1) (t := 9%Z); try reflexivity; try done; [simpl; lia|].
  intros [|j] u Hj Hu; [|lia]. injection Hu as <-. reflexivity.
Defined.

(** At the length limit a stop token inside the block does not cut the output. *)
Example stop_hidden_by_limit :
  output_ids_through_stop (check_finished None (fun _ => false) 4 (demo_req [3; 4; 5; 9; 6; 7]%Z 6))
  = [3; 4; 5; 9; 6; 7]%Z.
Proof. reflexivity. Qed.

End Req.
