(* ===== verification/Denoise.v ===== *)
(** What the two dLLM decoding algorithms share: the scalar and tensor
    operations they call, the model runner they drive, the per-block views of
    the flat token tensor, and the choice of the positions to unmask.

    The tensor library and the model runner are outside the repository's own
    code: [DenoiseOps] names the operations used of them and [DenoiseLaws]
    the documented facts the proofs rely on. *)
From stdpp Require Import base list.
From Stdlib Require Import ZArith QArith Lia.
From S2P Require Import Prelude.
Local Open Scope nat_scope.

(** Scalars of the logits and the tensor operations applied to them.
    [t_topk1] is the index that [torch.topk(_, k=1)] returns; [None] is the
    confidence [-inf]. *)
Class DenoiseOps (Sc : Type) : Type := {
  sc_of_Q : Q -> Sc;
  sc_gtb : Sc -> Sc -> bool;
  sc_add : Sc -> Sc -> Sc;
  sc_opp : Sc -> Sc;
  t_argmax : list Sc -> nat;
  t_softmax : list Sc -> list Sc;
  t_topk1 : list (option Sc) -> nat;
}.

Section Confidence.
Context {Sc : Type} `{DenoiseOps Sc}.

(** [a <= b] on confidences, where [None] is minus infinity. *)
Definition conf_leb (a b : option Sc) : bool :=
  match a, b with
  | None, _ => true
  | Some _, None => false
  | Some x, Some y => negb (sc_gtb x y)
  end.

(** [confidence > threshold] for a finite threshold. *)
Definition conf_gtb (a : option Sc) (t : Sc) : bool :=
  match a with Some x => sc_gtb x t | None => false end.

End Confidence.

(** [torch.topk(c, k=1)] returns the position of a largest element. *)
Class DenoiseLaws (Sc : Type) `{DenoiseOps Sc} : Prop := {
  topk1_max : forall c : list (option Sc), c <> [] ->
    exists m, c !! t_topk1 c = Some m /\ forall y, y ∈ c -> conf_leb y m = true;
}.

(** What [model_runner.forward] returns to the algorithms. *)
Record fwd_out (Sc : Type) : Type := mkOut {
  full_logits : list (list Sc);
  can_run_graph : bool;
}.
Arguments mkOut {Sc}.
Arguments full_logits {Sc}.
Arguments can_run_graph {Sc}.

(** [model_runner.forward]: state passing over the runner's caches [ST]; the
    flag is [forward_batch.dllm_skip_kv_cache]. *)
Definition runner (ST Sc : Type) : Type := ST -> list Z -> bool -> ST * fwd_out Sc.

(** The model returns one row of logits per input token. *)
Class RunnerShape {ST Sc : Type} (forward : runner ST Sc) : Prop :=
  runner_shape : forall kv ids skip,
    length (full_logits (snd (forward kv ids skip))) = length ids.

(** What an algorithm's [run] returns, with the runner state, the token tensor
    and the pass counter it leaves behind. *)
Record decode_result (ST Sc : Type) : Type := mkResult {
  r_logits : fwd_out Sc;
  r_next : list (list Z);
  r_kv : ST;
  r_ids : list Z;
  r_passes : nat;
}.
Arguments mkResult {ST Sc}.
Arguments r_logits {ST Sc}.
Arguments r_next {ST Sc}.
Arguments r_kv {ST Sc}.
Arguments r_ids {ST Sc}.
Arguments r_passes {ST Sc}.

Section Select.
Context {Sc : Type} `{DenoiseOps Sc}.

(** [ids == mask_id]. *)
Definition mask_of (mask_id : Z) (ids : list Z) : list bool :=
  map (fun v => Z.eqb v mask_id) ids.

Definition any (l : list bool) : bool := existsb id l.

(** [torch.sum(l).item()]. *)
Fixpoint count_true (l : list bool) : nat :=
  match l with
  | [] => 0
  | b :: l => (if b then 1 else 0) + count_true l
  end.

Definition masks (mask_id : Z) (ids : list Z) : nat := count_true (mask_of mask_id ids).

(** [torch.argmax(logits, dim=-1)] as token ids. *)
Definition row_tokens (rows : list (list Sc)) : list Z :=
  map (fun row => Z.of_nat (t_argmax row)) rows.

(** [gather(softmax(logits), argmax(logits))]. *)
Definition row_probs (rows : list (list Sc)) : list Sc :=
  map (fun row => nth (t_argmax row) (t_softmax row) (sc_of_Q 0)) rows.

(** [torch.where(mask_index, p, -inf)]. *)
Definition confidence_of (mask_index : list bool) (p : list Sc) : list (option Sc) :=
  zip_with (fun (m : bool) v => if m then Some v else None) mask_index p.

(** The positions to unmask: above the threshold, or else the single most
    confident one. *)
Definition select_transfer (threshold : Sc) (confidence : list (option Sc)) : list bool :=
  let t := map (fun c => conf_gtb c threshold) confidence in
  if any t then t else <[t_topk1 confidence := true]> t.

(** [ids[transfer] = x[transfer]]. *)
Definition apply_transfer (transfer : list bool) (x ids : list Z) : list Z :=
  zip_with (fun (tx : bool * Z) v => if fst tx then snd tx else v)
           (zip_with pair transfer x) ids.

End Select.

(** * Block views of the flat token tensor *)

Section Blocks.
Context (bs : nat).

(** [ids[i*bs : (i+1)*bs]]. *)
Definition blk {A} (i : nat) (ids : list A) : list A := py_slice (i * bs) (i * bs + bs) ids.

(** In-place update of that view. *)
Definition set_blk {A} (i : nat) (b ids : list A) : list A := py_splice (i * bs) b ids.

(** Rows of [reshape(ids, (n, -1))]. *)
Definition reshape_rows {A} (n : nat) (ids : list A) : list (list A) :=
  map (fun i => blk i ids) (seq 0 n).

Lemma length_blk {A} n i (ids : list A) :
  length ids = n * bs -> i < n -> length (blk i ids) = bs.
Proof. intros. unfold blk. rewrite length_py_slice; nia. Qed.

Lemma length_set_blk {A} n i (b ids : list A) :
  length ids = n * bs -> i < n -> length b = bs -> length (set_blk i b ids) = length ids.
Proof. intros. unfold set_blk. apply length_py_splice. nia. Qed.

Lemma blk_set_blk_same {A} n i (b ids : list A) :
  length ids = n * bs -> i < n -> length b = bs -> blk i (set_blk i b ids) = b.
Proof.
  intros Hl Hi Hb. unfold blk, set_blk.
  pose proof (py_slice_splice_same (i * bs) b ids ltac:(nia)) as E.
  by rewrite Hb in E.
Qed.

Lemma blk_set_blk_other {A} n i j (b ids : list A) :
  length ids = n * bs -> i < n -> j <> i -> length b = bs ->
  blk j (set_blk i b ids) = blk j ids.
Proof.
  intros Hl Hi Hij Hb. unfold blk, set_blk. apply py_slice_splice_other; nia.
Qed.

(** Position [k] of block [i] is position [i*bs + k] of the flat tensor. *)
Lemma lookup_blk {A} i k (ids : list A) : k < bs -> blk i ids !! k = ids !! (i * bs + k).
Proof. intros. unfold blk. apply lookup_py_slice. lia. Qed.

Lemma flat_pos n t : t < n * bs -> t / bs < n /\ t = t / bs * bs + t mod bs /\ t mod bs < bs.
Proof.
  intros. assert (0 < bs) by (destruct bs; lia).
  pose proof (Nat.div_mod_eq t bs). pose proof (Nat.mod_upper_bound t bs ltac:(lia)).
  repeat split; try lia. apply Nat.Div0.div_lt_upper_bound; lia.
Qed.

End Blocks.

(** * Facts about the selection *)

Section SelectFacts.
Context {Sc : Type} `{DenoiseOps Sc}.
Context (mask_id : Z).

Lemma any_true (l : list bool) : any l = true <-> exists k, l !! k = Some true.
Proof.
  unfold any. rewrite existsb_exists. split.
  - intros (b & Hin & Hb). unfold id in Hb. subst.
    apply list_elem_of_In, list_elem_of_lookup in Hin. done.
  - intros (k & Hk). exists true. split; [|done].
    apply list_elem_of_In, list_elem_of_lookup. eauto.
Qed.

Lemma any_false (l : list bool) k b : any l = false -> l !! k = Some b -> b = false.
Proof.
  intros Ha Hk. destruct b; [|done].
  assert (any l = true) by (apply any_true; eauto). congruence.
Qed.

Lemma lookup_mask_of ids k :
  mask_of mask_id ids !! k = (fun v => Z.eqb v mask_id) <$> ids !! k.
Proof. unfold mask_of. apply list_lookup_fmap. Qed.

Lemma length_mask_of ids : length (mask_of mask_id ids) = length ids.
Proof. apply length_map. Qed.

Lemma count_true_le (l : list bool) : count_true l <= length l.
Proof. induction l as [|[] l IH]; simpl; lia. Qed.

Lemma masks_le ids : masks mask_id ids <= length ids.
Proof. unfold masks. rewrite <- length_mask_of. apply count_true_le. Qed.

Lemma masks_cons v ids :
  masks mask_id (v :: ids) = (if Z.eqb v mask_id then 1 else 0) + masks mask_id ids.
Proof. done. Qed.

Lemma masks_0 ids : masks mask_id ids = 0 <-> mask_id ∉ ids.
Proof.
  induction ids as [|v ids IH].
  - split; [intros _; apply not_elem_of_nil|done].
  - rewrite masks_cons, not_elem_of_cons, <- IH.
    destruct (Z.eqb_spec v mask_id); split; lia.
Qed.

Lemma any_mask_of ids : any (mask_of mask_id ids) = false <-> mask_id ∉ ids.
Proof.
  split.
  - intros Ha Hin. apply list_elem_of_lookup in Hin as [k Hk].
    assert (true = false) by (eapply any_false; [exact Ha|]; rewrite lookup_mask_of, Hk; simpl; by rewrite Z.eqb_refl).
    done.
  - intros Hn. destruct (any _) eqn:Ea; [|done]. exfalso.
    apply any_true in Ea as [k Hk]. rewrite lookup_mask_of in Hk.
    destruct (ids !! k) as [v|] eqn:Ev; simplify_eq/=.
    apply Hn. apply list_elem_of_lookup. exists k. rewrite Ev. f_equal. lia.
Qed.

(** [apply_transfer] position by position. *)
Lemma length_apply_transfer t x ids :
  length t = length ids -> length x = length ids ->
  length (apply_transfer t x ids) = length ids.
Proof. intros. unfold apply_transfer. rewrite !length_zip_with. lia. Qed.

Lemma lookup_apply_transfer (t : list bool) (x ids : list Z) k (tv : bool) xv v :
  t !! k = Some tv -> x !! k = Some xv -> ids !! k = Some v ->
  apply_transfer t x ids !! k = Some (if tv then xv else v).
Proof.
  intros Ht Hx Hv. unfold apply_transfer.
  rewrite lookup_zip_with, lookup_zip_with, Ht, Hx, Hv. done.
Qed.

(** Number of masks after replacing elements, position by position. *)
Lemma masks_mono (ids ids' : list Z) :
  length ids = length ids' ->
  (forall k v v', ids !! k = Some v -> ids' !! k = Some v' -> v' = mask_id -> v = mask_id) ->
  masks mask_id ids' <= masks mask_id ids.
Proof.
  revert ids'. induction ids as [|v ids IH]; intros [|v' ids'] Hl Hk; simpl in *; try lia.
  rewrite !masks_cons.
  specialize (IH ids' ltac:(lia) (fun k => Hk (S k))).
  destruct (Z.eqb_spec v' mask_id) as [E|]; [|lia].
  rewrite (Hk 0 v v' eq_refl eq_refl E), Z.eqb_refl. lia.
Qed.

Lemma masks_strict (ids ids' : list Z) j :
  length ids = length ids' ->
  (forall k v v', ids !! k = Some v -> ids' !! k = Some v' -> v' = mask_id -> v = mask_id) ->
  ids !! j = Some mask_id -> (exists v', ids' !! j = Some v' /\ v' <> mask_id) ->
  masks mask_id ids' < masks mask_id ids.
Proof.
  revert ids' j.
  induction ids as [|v ids IH]; intros [|v' ids'] j Hl Hk Hj (w & Hw & Hne); simpl in *; try done.
  rewrite !masks_cons. destruct j as [|j]; simplify_eq/=.
  - rewrite Z.eqb_refl. destruct (Z.eqb_spec w mask_id); [done|].
    pose proof (masks_mono ids ids' ltac:(lia) (fun k => Hk (S k))). lia.
  - pose proof (IH ids' j ltac:(lia) (fun k => Hk (S k)) Hj ltac:(eauto)).
    destruct (Z.eqb_spec v' mask_id) as [E|]; [|lia].
    rewrite (Hk 0 v v' eq_refl eq_refl E), Z.eqb_refl. lia.
Qed.

(** The tokens of [b0] that are not masks are still in place in [b]. *)
Definition keeps (b0 b : list Z) : Prop :=
  length b = length b0 /\
  forall k v, b0 !! k = Some v -> v <> mask_id -> b !! k = Some v.

Lemma keeps_refl b : keeps b b.
Proof. by split. Qed.

Lemma keeps_prefix p m b :
  keeps (p ++ replicate m mask_id) b -> mask_id ∉ p ->
  b = p ++ drop (length p) b /\ length (drop (length p) b) = m.
Proof.
  intros [Hl Hk] Hp. rewrite length_app, length_replicate in Hl.
  split; [|rewrite length_drop; lia].
  rewrite <- (take_drop (length p) b) at 1. f_equal. apply list_eq. intros k.
  destruct (decide (k < length p)) as [Hlt|Hge].
  - rewrite lookup_take_lt by done.
    destruct (lookup_lt_is_Some_2 p k Hlt) as [v Hv]. rewrite Hv.
    apply Hk; [by rewrite lookup_app_l|].
    intros ->. apply Hp. by apply list_elem_of_lookup_2 in Hv.
  - rewrite lookup_take_ge by lia. symmetry. apply lookup_ge_None. lia.
Qed.

(** The start offset of a block whose unmasked tokens form a prefix. *)
Lemma count_prompt p m :
  mask_id ∉ p -> count_true (map negb (mask_of mask_id (p ++ replicate m mask_id))) = length p.
Proof.
  intros Hp. induction p as [|v p IH]; simpl.
  - induction m as [|m IH]; simpl; [done|]. rewrite Z.eqb_refl. done.
  - apply not_elem_of_cons in Hp as [Hne Hp].
    destruct (Z.eqb_spec v mask_id); [done|]. simpl. by rewrite IH.
Qed.

Lemma count_negb (l : list bool) : count_true (map negb l) = length l - count_true l.
Proof.
  pose proof (count_true_le l). induction l as [|[] l IH]; simpl in *; [done| |].
  - apply IH. lia.
  - rewrite IH by apply count_true_le. pose proof (count_true_le l). lia.
Qed.

Context `{!DenoiseLaws Sc}.

Lemma lookup_confidence (mi : list bool) (p : list Sc) k (m : bool) v :
  mi !! k = Some m -> p !! k = Some v ->
  confidence_of mi p !! k = Some (if m : bool then Some v else None).
Proof. intros Hm Hv. unfold confidence_of. by rewrite lookup_zip_with, Hm, Hv. Qed.

Lemma length_select_transfer th c : length (select_transfer th c) = length c.
Proof.
  unfold select_transfer. destruct (any _); [apply length_map|].
  by rewrite length_insert, length_map.
Qed.

(** Only masked positions are selected. *)
Lemma select_transfer_masked th (mi : list bool) (p : list Sc) k :
  length p = length mi -> any mi = true ->
  select_transfer th (confidence_of mi p) !! k = Some true -> mi !! k = Some true.
Proof.
  intros Hlen Ha Hk. unfold select_transfer in Hk.
  assert (Hdir : forall i, map (fun c => conf_gtb c th) (confidence_of mi p) !! i = Some true ->
                      mi !! i = Some true).
  { intros i Hi. rewrite list_lookup_fmap in Hi.
    destruct (mi !! i) as [m|] eqn:Em.
    - destruct (p !! i) as [v|] eqn:Ev; [|apply lookup_ge_None in Ev; apply lookup_lt_Some in Em; lia].
      rewrite (lookup_confidence _ _ _ _ _ Em Ev) in Hi. destruct m; simplify_eq/=. done.
    - unfold confidence_of in Hi. rewrite lookup_zip_with, Em in Hi. done. }
  destruct (any (map _ _)) eqn:Et; [by apply Hdir|].
  destruct (decide (t_topk1 (confidence_of mi p) = k)) as [<-|Hne].
  2: { rewrite list_lookup_insert_ne in Hk by done. by apply Hdir. }
  apply any_true in Ha as [j Hj].
  destruct (p !! j) as [v|] eqn:Ev; [|apply lookup_ge_None in Ev; apply lookup_lt_Some in Hj; lia].
  pose proof (lookup_confidence _ _ _ _ _ Hj Ev) as Hc. simpl in Hc.
  destruct (topk1_max (confidence_of mi p)) as (m & Hm & Hmax).
  { intros Hn. by rewrite Hn in Hc. }
  specialize (Hmax (Some v) ltac:(apply list_elem_of_lookup; eauto)).
  destruct m as [w|]; [|done].
  unfold confidence_of in Hm. rewrite lookup_zip_with in Hm.
  destruct (mi !! t_topk1 _) as [[]|] eqn:E; simpl in Hm; [done| |done].
  destruct (p !! t_topk1 _); simplify_eq/=.
Qed.

(** When a position is masked, at least one is selected. *)
Lemma select_transfer_progress th (mi : list bool) (p : list Sc) :
  length p = length mi -> any mi = true ->
  exists k, select_transfer th (confidence_of mi p) !! k = Some true.
Proof.
  intros Hlen Ha. unfold select_transfer. destruct (any (map _ _)) eqn:Et.
  - by apply any_true.
  - exists (t_topk1 (confidence_of mi p)).
    assert (Hlc : length (confidence_of mi p) = length mi)
      by (unfold confidence_of; rewrite length_zip_with; lia).
    apply any_true in Ha as [j Hj]. apply lookup_lt_Some in Hj.
    destruct (topk1_max (confidence_of mi p)) as (m & Hm & _).
    { intros Hn. rewrite Hn in Hlc. simpl in Hlc. lia. }
    apply lookup_lt_Some in Hm. apply list_lookup_insert_eq. by rewrite length_map.
Qed.

End SelectFacts.

(** * The interface of a decoding algorithm *)

(** What the scheduler relies on of [dllm_algorithm.run] for a batch of [n]
    blocks of [bs] tokens: it returns, it leaves the tokens that were not
    masked in place, it leaves no mask when the model never predicts one
    ([NP]), its last forward pass saw the tokens it returns, and for every
    request it returns the tokens behind the unmasked prefix of its block. *)
Class DecodeSpec {ST Sc : Type} (mask_id : Z) (bs : nat) (forward : runner ST Sc)
    (NP : Prop) (run : ST -> nat -> list Z -> res (decode_result ST Sc)) : Prop := {
  decode_total : forall kv n ids, length ids = n * bs ->
    exists r, run kv n ids = Ok r /\ length (r_ids r) = length ids;
  decode_keeps : forall kv n ids r t v, length ids = n * bs -> run kv n ids = Ok r ->
    ids !! t = Some v -> v <> mask_id -> r_ids r !! t = Some v;
  decode_clean : forall kv n ids r, length ids = n * bs -> NP -> run kv n ids = Ok r ->
    mask_id ∉ r_ids r;
  decode_commits : forall kv n ids r, length ids = n * bs -> run kv n ids = Ok r ->
    exists kv', r_kv r = fst (forward kv' (r_ids r) false);
  decode_next : forall kv n ids r i p m,
    length ids = n * bs -> run kv n ids = Ok r -> i < n ->
    blk bs i ids = p ++ replicate m mask_id -> mask_id ∉ p ->
    (mask_id ∉ ids /\ r_next r = []) \/
    exists gen, r_next r !! i = Some gen /\ blk bs i (r_ids r) = p ++ gen /\ length gen = m;
}.

(** * An executable instance, for evaluating the models *)

Module ZOps.

(** Position and value of the first largest element. *)
Fixpoint amax (l : list Z) : option (nat * Z) :=
  match l with
  | [] => None
  | v :: l =>
    match amax l with
    | Some (i, w) => if Z.gtb w v then Some (S i, w) else Some (0, v)
    | None => Some (0, v)
    end
  end.

Definition argmax (l : list Z) : nat := default 0 (fst <$> amax l).

(** A value below every confidence of the list. *)
Fixpoint floor_of (l : list (option Z)) : Z :=
  match l with
  | [] => 0%Z
  | Some v :: l => Z.min (v - 1) (floor_of l)
  | None :: l => floor_of l
  end.

#[export] Instance ops : DenoiseOps Z := {|
  sc_of_Q := fun q => (Qnum q / Zpos (Qden q))%Z;
  sc_gtb := Z.gtb;
  sc_add := Z.add;
  sc_opp := Z.opp;
  t_argmax := argmax;
  t_softmax := fun l => l;
  t_topk1 := fun c => argmax (map (default (floor_of c)) c);
|}.

Lemma amax_spec l i w :
  amax l = Some (i, w) -> l !! i = Some w /\ forall y, y ∈ l -> (y <= w)%Z.
Proof.
  revert i w. induction l as [|v l IH]; intros i w; simpl; [done|].
  destruct (amax l) as [[j u]|] eqn:E.
  - destruct (IH j u eq_refl) as [Hl Hm]. destruct (Z.gtb_spec u v); intros ?; simplify_eq/=;
      (split; [done|]); intros y [->|Hy]%elem_of_cons; try lia; specialize (Hm y Hy); lia.
  - intros ?. simplify_eq/=. split; [done|]. destruct l as [|u l].
    + intros y [->|[]%not_elem_of_nil]%elem_of_cons. lia.
    + simpl in E. destruct (amax l) as [[]|]; [destruct (Z.gtb _ _)|]; done.
Qed.

Lemma amax_is_Some l : l <> [] -> is_Some (amax l).
Proof.
  destruct l as [|v l]; [done|]. simpl. intros _.
  destruct (amax l) as [[]|]; [destruct (Z.gtb _ _)|]; eauto.
Qed.

Lemma floor_of_lt c v : Some v ∈ c -> (floor_of c < v)%Z.
Proof.
  induction c as [|[w|] c IH]; simpl.
  - intros ?%not_elem_of_nil. done.
  - intros [?|Hv]%elem_of_cons; simplify_eq; [lia|]. specialize (IH Hv). lia.
  - intros [?|Hv]%elem_of_cons; [done|auto].
Qed.

#[export] Instance laws : DenoiseLaws Z.
Proof.
  constructor. intros c Hc.
  destruct (amax_is_Some (map (default (floor_of c)) c)) as [[i w] Hi]; [by destruct c|].
  destruct (amax_spec _ _ _ Hi) as [Hl Hm].
  rewrite list_lookup_fmap in Hl. destruct (c !! i) as [m|] eqn:Em; [|done].
  exists m. simpl. unfold argmax. rewrite Hi. simpl. split; [done|].
  intros y Hy. specialize (Hm (default (floor_of c) y)
    ltac:(apply list_elem_of_fmap; eauto)). simplify_eq/=.
  destruct y as [v|]; [|done]. destruct m as [u|]; simpl in *.
  - apply negb_true_iff. destruct (Z.gtb_spec v u); lia.
  - pose proof (floor_of_lt c v Hy). lia.
Qed.

End ZOps.
