(* ===== verification/JointThreshold.v ===== *)
(** The [JointThreshold] decoding algorithm
    ([srt/dllm/algorithm/joint_threshold.py]): mask-to-token unmasking and
    token-to-token editing of one block per request, iterated until every
    block is finished.

    [block_pass] is the body of the loop over requests, [iterate] the bounded
    loop over forward passes and [run] the whole method.  The proofs show that
    the loop never touches a prompt token, removes every mask within its
    iteration bound, and that the last forward pass saw the final tokens. *)
From stdpp Require Import base list.
From Stdlib Require Import ZArith QArith Lia.
From S2P Require Import Prelude.
From S2P Require Import DllmReq.
From S2P Require Import Denoise.
Local Open Scope nat_scope.

Module Joint.
Import Config.

Section Model.
Context {Sc : Type} `{DenoiseOps Sc}.

(** Attributes set by [JointThreshold.__init__]. *)
Record params : Type := {
  jt_block_size : nat;
  jt_mask_id : Z;
  threshold : Sc;
  edit_threshold : Sc;
  max_post_edit_steps : nat;
  penalty_lambda : Sc;
}.

(** [JointThreshold.__init__] with its defaults. *)
Definition init (config : DllmConfig Sc) : params :=
  let ac := cfg_algorithm_config config in
  {| jt_block_size := block_size config;
     jt_mask_id := mask_id config;
     threshold := default (sc_of_Q (1#2)) (ac_threshold ac);
     edit_threshold := default (sc_of_Q 0) (ac_edit_threshold ac);
     max_post_edit_steps := default 16 (ac_max_post_edit_steps ac);
     penalty_lambda := default (sc_of_Q 0) (ac_penalty_lambda ac) |}.

Variable P : params.

(** Repetition penalty: row [j+1] loses [penalty_lambda] at token [ids[j]].
    [scatter_] would refuse an index outside the vocabulary; the ids are the ones
    [model_runner.forward] has just embedded, so that a pass over such an id has already
    raised there and the loop body is only reached with ids the rows have. *)
Definition penalise_row (prev : Z) (row : list Sc) : list Sc :=
  alter (fun v => sc_add v (sc_opp (penalty_lambda P))) (Z.to_nat prev) row.

Definition penalise (ids : list Z) (rows : list (list Sc)) : list (list Sc) :=
  if sc_gtb (penalty_lambda P) (sc_of_Q 0)
  then take 1 rows ++ zip_with penalise_row (take (length ids - 1) ids) (drop 1 rows)
  else rows.

(** Token-to-token edits: confident, different, neither masked nor prompt. *)
Definition edit_transfer (p : list Sc) (ids x : list Z)
    (mask_index prompt_mask : list bool) : list bool :=
  zip_with andb
    (zip_with andb (map (fun v => sc_gtb v (edit_threshold P)) p)
                   (zip_with (fun a b => negb (Z.eqb a b)) ids x))
    (zip_with (fun m q => negb m && negb q) mask_index prompt_mask).

(** What one pass does to one request's block. *)
Record outcome : Type := {
  o_ids : list Z;
  o_rows : list (list Sc);
  o_post : nat;
  o_finished : bool;
  o_changed : bool;
}.

(** [mask_transfer_index | edit_transfer_index]. *)
Definition transfer_index (ids : list Z) (rows : list (list Sc)) (prompt_mask : list bool)
    : list bool :=
  let x := row_tokens rows in
  let p := row_probs rows in
  let mask_index := mask_of (jt_mask_id P) ids in
  let mask_transfer :=
    if any mask_index
    then select_transfer (threshold P) (confidence_of mask_index p)
    else replicate (length mask_index) false in
  zip_with orb mask_transfer (edit_transfer p ids x mask_index prompt_mask).

(** The loop body for one unfinished request: [ids] and [rows] are its views
    of the token and logits tensors, [prompt_mask] the positions that were not
    masked on entry, [post] its post-edit counter. *)
Definition block_pass (ids : list Z) (rows : list (list Sc))
    (prompt_mask : list bool) (post : nat) : outcome :=
  let rows := penalise ids rows in
  let has_mask := any (mask_of (jt_mask_id P) ids) in
  let post := if has_mask then post else S post in
  if negb has_mask && (max_post_edit_steps P <? post)
  then {| o_ids := ids; o_rows := rows; o_post := post; o_finished := true;
          o_changed := false |}
  else
    let transfer := transfer_index ids rows prompt_mask in
    if any transfer
    then {| o_ids := apply_transfer transfer (row_tokens rows) ids; o_rows := rows;
            o_post := post; o_finished := false; o_changed := true |}
    else {| o_ids := ids; o_rows := rows; o_post := post; o_finished := true;
            o_changed := false |}.

(** Local variables of [run] that the loops update; [ls_out] is [None] while
    [logits_output] is unbound. *)
Record loop_state (ST : Type) : Type := mkLS {
  ls_kv : ST;
  ls_ids : list Z;
  ls_post : list nat;
  ls_finished : list bool;
  ls_changed : bool;
  ls_out : option (fwd_out Sc);
  ls_passes : nat;
}.
Arguments mkLS {ST}.
Arguments ls_kv {ST}.
Arguments ls_ids {ST}.
Arguments ls_post {ST}.
Arguments ls_finished {ST}.
Arguments ls_changed {ST}.
Arguments ls_out {ST}.
Arguments ls_passes {ST}.

Section Run.
Context {ST : Type}.
Variable forward : runner ST Sc.
#[local] Abbreviation bs := (jt_block_size P).

(** One iteration of the inner [for i in range(batch_size)]. *)
Definition inner_step (prompt_masks : list (list bool)) (s : loop_state ST) (i : nat)
    : loop_state ST :=
  if nth i (ls_finished s) false then s
  else match ls_out s with
  | None => s
  | Some out =>
    let o := block_pass (blk bs i (ls_ids s)) (blk bs i (full_logits out))
                        (nth i prompt_masks []) (nth i (ls_post s) 0) in
    mkLS (ls_kv s) (set_blk bs i (o_ids o) (ls_ids s))
         (<[i := o_post o]> (ls_post s))
         (if o_finished o then <[i := true]> (ls_finished s) else ls_finished s)
         (if o_changed o then true else ls_changed s)
         (Some (mkOut (set_blk bs i (o_rows o) (full_logits out)) (can_run_graph out)))
         (ls_passes s)
  end.

(** One forward pass followed by the loop over the batch. *)
Definition pass (batch_size : nat) (prompt_masks : list (list bool)) (s : loop_state ST)
    : loop_state ST :=
  let '(kv, out) := forward (ls_kv s) (ls_ids s) false in
  fold_left (inner_step prompt_masks) (seq 0 batch_size)
    (mkLS kv (ls_ids s) (ls_post s) (ls_finished s) false (Some out) (S (ls_passes s))).

(** [for _ in range(fuel): if finished.all(): break; ...]. *)
Fixpoint iterate (batch_size : nat) (prompt_masks : list (list bool)) (fuel : nat)
    (s : loop_state ST) : loop_state ST :=
  match fuel with
  | 0 => s
  | S fuel =>
    if forallb id (ls_finished s) then s
    else iterate batch_size prompt_masks fuel (pass batch_size prompt_masks s)
  end.

(** [prompt_masks[i] = (block_i != mask_id)]. *)
Definition prompt_masks_of (batch_size : nat) (ids : list Z) : list (list bool) :=
  map (fun i => map negb (mask_of (jt_mask_id P) (blk bs i ids))) (seq 0 batch_size).

(** The state before the denoising loop. *)
Definition initial (kv : ST) (batch_size : nat) (ids : list Z) : loop_state ST :=
  mkLS kv ids (replicate batch_size 0) (replicate batch_size false) false None 0.

(** The denoising loop and the extra pass that writes the caches when the last
    iteration still changed a token. *)
Definition denoise (kv : ST) (batch_size : nat) (ids : list Z) : loop_state ST :=
  let s := iterate batch_size (prompt_masks_of batch_size ids)
             (bs + max_post_edit_steps P) (initial kv batch_size ids) in
  if ls_changed s
  then let '(kv', out) := forward (ls_kv s) (ls_ids s) false in
       mkLS kv' (ls_ids s) (ls_post s) (ls_finished s) (ls_changed s) (Some out)
            (S (ls_passes s))
  else s.

(** [JointThreshold.run].  Returning an unbound [logits_output] is a
    [NameError]. *)
Definition run (kv : ST) (batch_size : nat) (ids : list Z)
    : res (decode_result ST Sc) :=
  if negb (any (mask_of (jt_mask_id P) ids))
  then let '(kv', out) := forward kv ids false in
       Ok {| r_logits := out; r_next := []; r_kv := kv'; r_ids := ids; r_passes := 1 |}
  else
    let start_list := map count_true (prompt_masks_of batch_size ids) in
    let s := denoise kv batch_size ids in
    match ls_out s with
    | None => Raise NameError
    | Some out =>
      Ok {| r_logits := out;
            r_next := zip_with (fun start row => drop start row)
                        start_list (reshape_rows bs batch_size (ls_ids s));
            r_kv := ls_kv s; r_ids := ls_ids s; r_passes := ls_passes s |}
    end.

End Run.
End Model.
Arguments params : clear implicits.
Arguments outcome : clear implicits.
Arguments loop_state : clear implicits.
Arguments mkLS {Sc ST}.
Arguments ls_kv {Sc ST}.
Arguments ls_ids {Sc ST}.
Arguments ls_post {Sc ST}.
Arguments ls_finished {Sc ST}.
Arguments ls_changed {Sc ST}.
Arguments ls_out {Sc ST}.
Arguments ls_passes {Sc ST}.

(** * One pass over one block *)

Section BlockFacts.
Context {Sc : Type} `{DenoiseOps Sc} `{!DenoiseLaws Sc}.
Variable P : params Sc.
#[local] Abbreviation mid := (jt_mask_id P).

Lemma length_penalise (ids : list Z) (rows : list (list Sc)) :
  length rows = length ids -> length (penalise P ids rows) = length rows.
Proof.
  intros Hl. unfold penalise. destruct (sc_gtb _ _); [|done].
  rewrite length_app, length_zip_with, !length_take, length_drop. lia.
Qed.

Lemma length_row_tokens (rows : list (list Sc)) : length (row_tokens rows) = length rows.
Proof. apply length_map. Qed.

Lemma length_row_probs (rows : list (list Sc)) : length (row_probs rows) = length rows.
Proof. apply length_map. Qed.

Lemma length_edit_transfer p ids x mi pm :
  length p = length ids -> length x = length ids -> length mi = length ids ->
  length pm = length ids -> length (edit_transfer P p ids x mi pm) = length ids.
Proof. intros. unfold edit_transfer. rewrite !length_zip_with, length_map. lia. Qed.

Lemma length_transfer_index ids rows pm :
  length rows = length ids -> length pm = length ids ->
  length (transfer_index P ids rows pm) = length ids.
Proof.
  intros Hr Hp. unfold transfer_index. rewrite length_zip_with, length_edit_transfer
    by (rewrite ?length_row_probs, ?length_row_tokens, ?length_mask_of; lia).
  destruct (any _).
  - rewrite length_select_transfer. unfold confidence_of.
    rewrite length_zip_with, length_row_probs, length_mask_of. lia.
  - rewrite length_replicate, length_mask_of. lia.
Qed.

Lemma length_block_pass ids rows pm post :
  length rows = length ids -> length pm = length ids ->
  length (o_ids (block_pass P ids rows pm post)) = length ids /\
  length (o_rows (block_pass P ids rows pm post)) = length ids.
Proof.
  intros Hr Hp. pose proof (length_penalise ids rows Hr) as Hpen.
  unfold block_pass. repeat case_bool; simpl; (split; [|lia]); try lia.
  all: apply length_apply_transfer; [apply length_transfer_index|rewrite length_row_tokens]; lia.
Qed.

(** A position is transferred only if it is masked or outside the prompt. *)
Lemma transfer_index_pos ids rows pm k v :
  length rows = length ids -> length pm = length ids ->
  transfer_index P ids rows pm !! k = Some true -> ids !! k = Some v ->
  v = mid \/ pm !! k = Some false.
Proof.
  intros Hr Hp Ht Hv. unfold transfer_index in Ht. rewrite lookup_zip_with in Ht.
  set (mt := if any _ then _ else _) in Ht.
  destruct (mt !! k) as [a|] eqn:Ea; [|done]. simpl in Ht.
  destruct (edit_transfer _ _ _ _ _ _ !! k) as [e|] eqn:Ee; [|done]. simplify_eq/=.
  destruct a.
  - left. subst mt. destruct (any (mask_of mid ids)) eqn:Em.
    + apply select_transfer_masked in Ea;
        [|rewrite length_row_probs, length_mask_of; lia|done].
      rewrite lookup_mask_of, Hv in Ea. simplify_eq/=. lia.
    + by apply lookup_replicate in Ea as [? _].
  - simpl in *. subst e. right. unfold edit_transfer in Ee.
    rewrite lookup_zip_with in Ee.
    destruct (zip_with andb (map _ _) _ !! k) as [e|]; [|done]. simpl in Ee.
    rewrite lookup_zip_with in Ee.
    destruct (mask_of mid ids !! k) as [m|]; [|done]. simpl in Ee.
    destruct (pm !! k) as [q|]; [|done]. simplify_eq/=. by destruct e, m, q.
Qed.

(** A masked block always has a masked position to transfer. *)
Lemma transfer_index_progress ids rows pm :
  length rows = length ids -> length pm = length ids -> mid ∈ ids ->
  exists k, transfer_index P ids rows pm !! k = Some true /\ ids !! k = Some mid.
Proof.
  intros Hr Hp Hin.
  assert (Ha : any (mask_of mid ids) = true).
  { destruct (any _) eqn:E; [done|]. by apply any_mask_of in E. }
  destruct (select_transfer_progress (threshold P) (mask_of mid ids) (row_probs rows))
    as [k Hk]; [rewrite length_row_probs, length_mask_of; lia|done|].
  pose proof Hk as Hm. apply select_transfer_masked in Hm;
    [|rewrite length_row_probs, length_mask_of; lia|done].
  exists k. rewrite lookup_mask_of in Hm.
  destruct (ids !! k) as [v|] eqn:Ev; simplify_eq/=.
  assert (v = mid) as -> by lia. split; [|done].
  pose proof (length_edit_transfer (row_probs rows) ids (row_tokens rows) (mask_of mid ids) pm)
    as He. rewrite length_row_probs, length_row_tokens, length_mask_of in He.
  apply lookup_lt_Some in Ev.
  destruct (lookup_lt_is_Some_2 (edit_transfer P (row_probs rows) ids (row_tokens rows)
             (mask_of mid ids) pm) k) as [e Hee]; [rewrite He; lia|].
  unfold transfer_index. rewrite Ha, lookup_zip_with, Hk, Hee. done.
Qed.

(** Position by position: a pass keeps a token or replaces a masked or
    editable one by the argmax of its (penalised) row. *)
Lemma block_pass_pos ids rows pm post k v :
  length rows = length ids -> length pm = length ids -> ids !! k = Some v ->
  exists v', o_ids (block_pass P ids rows pm post) !! k = Some v' /\
    (v' = v \/
     ((v = mid \/ pm !! k = Some false) /\
      exists row, penalise P ids rows !! k = Some row /\ v' = Z.of_nat (t_argmax row))).
Proof.
  intros Hr Hp Hv. pose proof (length_penalise ids rows Hr) as Hpen.
  unfold block_pass. case_bool; [eauto|]. case_bool; simpl; [|eauto].
  pose proof (lookup_lt_Some _ _ _ Hv) as Hlt.
  destruct (lookup_lt_is_Some_2 (transfer_index P ids (penalise P ids rows) pm) k) as [t Ht].
  { rewrite length_transfer_index; lia. }
  destruct (lookup_lt_is_Some_2 (penalise P ids rows) k) as [row Hrow]; [lia|].
  assert (Hx : row_tokens (penalise P ids rows) !! k = Some (Z.of_nat (t_argmax row))).
  { unfold row_tokens. by rewrite list_lookup_fmap, Hrow. }
  rewrite (lookup_apply_transfer _ _ _ _ _ _ _ Ht Hx Hv).
  destruct t; eexists; (split; [done|]); [|by left].
  right. split; [|eauto]. eapply transfer_index_pos; [| |exact Ht|exact Hv]; lia.
Qed.

(** A block that still has a mask is changed, stays unfinished, and one of its
    masked positions receives an argmax. *)
Lemma block_pass_progress ids rows pm post :
  length rows = length ids -> length pm = length ids -> mid ∈ ids ->
  o_finished (block_pass P ids rows pm post) = false /\
  o_changed (block_pass P ids rows pm post) = true /\
  exists k row, ids !! k = Some mid /\ penalise P ids rows !! k = Some row /\
    o_ids (block_pass P ids rows pm post) !! k = Some (Z.of_nat (t_argmax row)).
Proof.
  intros Hr Hp Hin. pose proof (length_penalise ids rows Hr) as Hpen.
  destruct (transfer_index_progress ids (penalise P ids rows) pm) as (k & Hk & Hv);
    [lia|lia|done|].
  assert (Ha : any (mask_of mid ids) = true).
  { destruct (any _) eqn:E; [done|]. by apply any_mask_of in E. }
  assert (Ht : any (transfer_index P ids (penalise P ids rows) pm) = true)
    by (apply any_true; eauto).
  unfold block_pass. rewrite Ha, Ht. simpl. split; [done|split; [done|]].
  destruct (lookup_lt_is_Some_2 (penalise P ids rows) k) as [row Hrow].
  { apply lookup_lt_Some in Hv. lia. }
  exists k, row. split; [done|split; [done|]].
  assert (Hx : row_tokens (penalise P ids rows) !! k = Some (Z.of_nat (t_argmax row))).
  { unfold row_tokens. by rewrite list_lookup_fmap, Hrow. }
  by rewrite (lookup_apply_transfer _ _ _ _ _ _ _ Hk Hx Hv).
Qed.

(** A pass that reports no change left the tokens alone. *)
Lemma block_pass_unchanged ids rows pm post :
  o_changed (block_pass P ids rows pm post) = false ->
  o_ids (block_pass P ids rows pm post) = ids.
Proof. unfold block_pass. by repeat case_bool. Qed.

End BlockFacts.

(** * A pass treats the blocks of the batch independently *)

(** What the loops know of one request: its block of tokens, its block of
    logits rows, its counter and its finished flag. *)
Record bview (Sc : Type) : Type := mkView {
  v_ids : list Z;
  v_rows : list (list Sc);
  v_post : nat;
  v_fin : bool;
}.
Arguments mkView {Sc}.
Arguments v_ids {Sc}.
Arguments v_rows {Sc}.
Arguments v_post {Sc}.
Arguments v_fin {Sc}.

Section BatchFacts.
Context {Sc : Type} `{DenoiseOps Sc} `{!DenoiseLaws Sc}.
Context {ST : Type}.
Variable P : params Sc.
Variable forward : runner ST Sc.
Variable n : nat.
#[local] Abbreviation mid := (jt_mask_id P).
#[local] Abbreviation bs := (jt_block_size P).

Hypothesis forward_shape : RunnerShape forward.

Definition rows_of (s : loop_state Sc ST) : list (list Sc) :=
  match ls_out s with Some out => full_logits out | None => [] end.

Definition view (j : nat) (s : loop_state Sc ST) : bview Sc :=
  mkView (blk bs j (ls_ids s)) (blk bs j (rows_of s))
         (nth j (ls_post s) 0) (nth j (ls_finished s) false).

Definition vstep (pm : list bool) (v : bview Sc) : bview Sc :=
  if v_fin v then v
  else let o := block_pass P (v_ids v) (v_rows v) pm (v_post v) in
       mkView (o_ids o) (o_rows o) (o_post o) (o_finished o).

(** Shape invariant of the loop state during a pass. *)
Record shape (s : loop_state Sc ST) : Prop := {
  sh_ids : length (ls_ids s) = n * bs;
  sh_post : length (ls_post s) = n;
  sh_fin : length (ls_finished s) = n;
}.

Record shape_out (s : loop_state Sc ST) : Prop := {
  so_shape : shape s;
  so_out : is_Some (ls_out s);
  so_rows : length (rows_of s) = n * bs;
}.

Variable pms : list (list bool).
Hypothesis pms_shape : forall i, i < n -> length (nth i pms []) = bs.

Lemma nth_insert_same {A} i (x d : A) (l : list A) :
  i < length l -> nth i (<[i:=x]> l) d = x.
Proof. intros. erewrite nth_lookup_Some; [done|]. by apply list_lookup_insert_eq. Qed.

Lemma nth_insert_other {A} i j (x d : A) (l : list A) :
  i <> j -> nth j (<[i:=x]> l) d = nth j l d.
Proof. intros. rewrite !nth_lookup. by rewrite list_lookup_insert_ne. Qed.

Lemma inner_step_view s i j :
  shape_out s -> i < n -> j < n ->
  view j (inner_step P pms s i) =
    if decide (i = j) then vstep (nth j pms []) (view j s) else view j s.
Proof.
  intros [[Hi Hp Hf] [out Ho] Hr] Hin Hjn. unfold inner_step, view, vstep, rows_of in *.
  rewrite Ho in *. simpl.
  destruct (nth i (ls_finished s) false) eqn:Ef.
  { case_decide; subst; rewrite Ho; [by rewrite Ef|done]. }
  set (o := block_pass _ _ _ _ _).
  destruct (length_block_pass P (blk bs i (ls_ids s)) (blk bs i (full_logits out))
              (nth i pms []) (nth i (ls_post s) 0)) as [Ho1 Ho2];
    [by rewrite !(length_blk bs n)|by rewrite (length_blk bs n), pms_shape|].
  fold o in Ho1, Ho2. rewrite (length_blk bs n) in Ho1, Ho2 by done. simpl.
  case_decide as Hd; [subst j|].
  - rewrite !(blk_set_blk_same bs n), nth_insert_same, Ef by (done || lia).
    fold o. f_equal. destruct (o_finished o); [by rewrite nth_insert_same by lia|done].
  - rewrite !(blk_set_blk_other bs n) by (done || lia).
    rewrite nth_insert_other by done. f_equal.
    destruct (o_finished o); [by rewrite nth_insert_other|done].
Qed.

Lemma inner_step_shape s i : shape_out s -> i < n -> shape_out (inner_step P pms s i).
Proof.
  intros Hs Hin. pose proof Hs as [[Hi Hp Hf] [out Ho] Hr]. unfold inner_step.
  destruct (nth i (ls_finished s) false); [done|]. rewrite Ho.
  unfold rows_of in Hr. rewrite Ho in Hr.
  set (o := block_pass _ _ _ _ _).
  destruct (length_block_pass P (blk bs i (ls_ids s)) (blk bs i (full_logits out))
              (nth i pms []) (nth i (ls_post s) 0)) as [Ho1 Ho2];
    [by rewrite !(length_blk bs n)|by rewrite (length_blk bs n), pms_shape|].
  fold o in Ho1, Ho2. rewrite (length_blk bs n) in Ho1, Ho2 by done.
  split; [split; simpl| |]; simpl.
  - by rewrite (length_set_blk bs n).
  - by rewrite length_insert.
  - destruct (o_finished o); [by rewrite length_insert|done].
  - eauto.
  - unfold rows_of. simpl. by rewrite (length_set_blk bs n).
Qed.

(** Cache, pass counter and change flag across one inner step. *)
Lemma inner_step_frame (s : loop_state Sc ST) i :
  ls_kv (inner_step P pms s i) = ls_kv s /\
  ls_passes (inner_step P pms s i) = ls_passes s /\
  (ls_changed s = true -> ls_changed (inner_step P pms s i) = true).
Proof.
  unfold inner_step. destruct (nth i _ _); [done|]. destruct (ls_out s); [|done].
  simpl. repeat split. by intros ->; destruct (o_changed _).
Qed.

Lemma inner_step_unchanged s i :
  shape_out s -> i < n -> ls_changed (inner_step P pms s i) = false ->
  ls_ids (inner_step P pms s i) = ls_ids s.
Proof.
  intros [[Hi Hp Hf] [out Ho] Hr] Hin. unfold inner_step.
  destruct (nth i (ls_finished s) false); [done|]. rewrite Ho. simpl.
  set (o := block_pass _ _ _ _ _). destruct (o_changed o) eqn:Ec; [done|]. intros _.
  unfold o in *. rewrite (block_pass_unchanged _ _ _ _ _ Ec).
  unfold set_blk, py_splice. rewrite (length_blk bs n) by done.
  unfold blk, py_slice. replace (i * bs + bs - i * bs) with bs by lia.
  rewrite <- drop_drop, take_drop, take_drop. done.
Qed.

(** The loop over the batch applies [block_pass] once to every block. *)
Lemma fold_inner_view m s :
  shape_out s -> m <= n ->
  let s' := fold_left (inner_step P pms) (seq 0 m) s in
  shape_out s' /\ ls_kv s' = ls_kv s /\ ls_passes s' = ls_passes s /\
  (ls_changed s' = false -> ls_ids s' = ls_ids s) /\
  forall j, j < n -> view j s' =
    if decide (j < m) then vstep (nth j pms []) (view j s) else view j s.
Proof.
  intros Hs. induction m as [|m IH]; intros Hm; cbn zeta.
  - cbn [seq fold_left]. repeat (split; [done|]). intros j Hj. by rewrite decide_False by lia.
  - rewrite seq_S, fold_left_app. cbn [fold_left Nat.add].
    destruct (IH ltac:(lia)) as (Hs' & Hkv & Hps & Hch & Hv). clear IH.
    set (s' := fold_left _ _ s) in *.
    destruct (inner_step_frame s' m) as (Fkv & Fps & Fch).
    split; [apply inner_step_shape; [done|lia]|].
    split; [congruence|]. split; [congruence|]. split.
    + intros Hc. rewrite inner_step_unchanged by (done || lia). apply Hch.
      destruct (ls_changed s'); [|done]. by rewrite Fch in Hc.
    + intros j Hj. rewrite inner_step_view by (done || lia). case_decide as Hd.
      * subst j. rewrite Hv by lia. rewrite decide_False by lia.
        by rewrite decide_True by lia.
      * rewrite Hv by done. destruct (decide (j < m)).
        -- by rewrite decide_True by lia.
        -- by rewrite decide_False by lia.
Qed.

(** State right after the forward pass of an iteration. *)
Definition after_forward (s : loop_state Sc ST) : loop_state Sc ST :=
  let '(kv, out) := forward (ls_kv s) (ls_ids s) false in
  mkLS kv (ls_ids s) (ls_post s) (ls_finished s) false (Some out) (S (ls_passes s)).

Lemma after_forward_shape s : shape s -> shape_out (after_forward s).
Proof.
  intros [Hi Hp Hf]. unfold after_forward.
  pose proof (forward_shape (ls_kv s) (ls_ids s) false) as Hfs.
  destruct (forward _ _ _) as [kv out]. simpl in Hfs.
  split; [by split|by eexists|]. unfold rows_of. simpl. lia.
Qed.

Lemma pass_view s :
  shape s ->
  let s' := pass P forward n pms s in
  shape_out s' /\ ls_kv s' = fst (forward (ls_kv s) (ls_ids s) false) /\
  ls_passes s' = S (ls_passes s) /\
  (ls_changed s' = false -> ls_ids s' = ls_ids s) /\
  forall j, j < n -> view j s' = vstep (nth j pms []) (view j (after_forward s)).
Proof.
  intros Hs. pose proof (after_forward_shape s Hs) as Ha. unfold pass.
  unfold after_forward in *. destruct (forward _ _ _) as [kv out] eqn:Ef. simpl.
  destruct (fold_inner_view n _ Ha ltac:(lia)) as (H1 & H2 & H3 & H4 & H5).
  simpl in *. repeat (split; [done|]). intros j Hj. rewrite H5 by done.
  by rewrite decide_True.
Qed.

(** * Invariants of the loop *)

Lemma vstep_keeps b0 v :
  length b0 = bs -> length (v_rows v) = bs -> keeps mid b0 (v_ids v) ->
  keeps mid b0 (v_ids (vstep (map negb (mask_of mid b0)) v)).
Proof.
  intros Hb Hr [Hl Hk]. unfold vstep. destruct (v_fin v); [done|]. simpl.
  assert (Hpm : length (map negb (mask_of mid b0)) = length (v_ids v))
    by (rewrite length_map, length_mask_of; lia).
  assert (Hrv : length (v_rows v) = length (v_ids v)) by lia.
  split; [by rewrite (proj1 (length_block_pass P _ _ _ (v_post v) Hrv Hpm))|].
  intros k w Hw Hne. pose proof (Hk k w Hw Hne) as Hv.
  destruct (block_pass_pos P _ (v_rows v) _ (v_post v) k w Hrv Hpm Hv)
    as (w' & Hw' & [->|[[?|Hq] _]]); [done|done|].
  rewrite list_lookup_fmap, lookup_mask_of, Hw in Hq. simplify_eq/=. lia.
Qed.

(** No logits row of the model, penalised or not, has the mask token on top. *)
Definition never_predicts_mask : Prop :=
  forall kv ids skip row prev,
    row ∈ full_logits (snd (forward kv ids skip)) ->
    Z.of_nat (t_argmax row) <> mid /\ Z.of_nat (t_argmax (penalise_row P prev row)) <> mid.

Lemma penalise_lookup ids rows k row :
  penalise P ids rows !! k = Some row ->
  exists row0, row0 ∈ rows /\ (row = row0 \/ exists prev, row = penalise_row P prev row0).
Proof.
  unfold penalise. destruct (sc_gtb _ _).
  2: { intros Hk. exists row. split; [apply list_elem_of_lookup; eauto|by left]. }
  intros Hk. apply lookup_app_Some in Hk as [Hk|[_ Hk]].
  - exists row. apply list_elem_of_lookup_2 in Hk. split; [|by left].
    by apply elem_of_take in Hk as (? & ?%list_elem_of_lookup_2 & _).
  - apply lookup_zip_with_Some in Hk as (prev & row0 & -> & _ & Hr).
    rewrite lookup_drop in Hr. apply list_elem_of_lookup_2 in Hr. eauto.
Qed.

(** One step removes a mask from a block that has one, and only finishes
    blocks without masks. *)
Lemma vstep_masks pm v :
  length pm = length (v_ids v) -> length (v_rows v) = length (v_ids v) ->
  (forall k row, penalise P (v_ids v) (v_rows v) !! k = Some row -> Z.of_nat (t_argmax row) <> mid) ->
  (v_fin v = true -> mid ∉ v_ids v) ->
  masks mid (v_ids (vstep pm v)) <= masks mid (v_ids v) - 1 /\
  (v_fin (vstep pm v) = true -> mid ∉ v_ids (vstep pm v)).
Proof.
  intros Hp Hr Hnp Hfin. unfold vstep. destruct (v_fin v) eqn:Ef.
  { pose proof (proj2 (masks_0 mid _) (Hfin eq_refl)). rewrite Ef. split; [lia|auto]. }
  simpl. set (ids := v_ids v) in *. set (o := block_pass _ _ _ _ _).
  assert (Hmono : forall k w w', ids !! k = Some w -> o_ids o !! k = Some w' -> w' = mid -> w = mid).
  { intros k w w' Hw Hw' ->.
    destruct (block_pass_pos P ids (v_rows v) pm (v_post v) k w Hr Hp Hw)
      as (u & Hu & [->|(_ & row & Hrow & ->)]); fold o in Hu; simplify_eq; [done|].
    exfalso. by eapply Hnp. }
  assert (Hlen : length ids = length (o_ids o))
    by (symmetry; apply (length_block_pass P); done).
  destruct (decide (mid ∈ ids)) as [Hin|Hin].
  - destruct (block_pass_progress P ids (v_rows v) pm (v_post v) Hr Hp Hin)
      as (Hf & _ & k & row & Hk & Hrow & Hk'). fold o in Hf, Hk'. rewrite Hf.
    split; [|done].
    enough (masks mid (o_ids o) < masks mid ids) by lia.
    apply (masks_strict mid ids (o_ids o) k); eauto.
  - pose proof (proj2 (masks_0 mid _) Hin) as H0.
    pose proof (masks_mono mid ids (o_ids o) Hlen Hmono).
    split; [lia|]. intros _. apply masks_0. lia.
Qed.

Lemma iterate_inv (I : loop_state Sc ST -> Prop) fuel s :
  (forall s, I s -> I (pass P forward n pms s)) -> I s ->
  I (iterate P forward n pms fuel s).
Proof.
  intros Hstep. revert s. induction fuel as [|fuel IH]; intros s Hs; simpl; [done|].
  destruct (forallb _ _); auto.
Qed.

(** The last forward pass saw the current tokens, unless the change flag is
    set. *)
Definition synced (s : loop_state Sc ST) : Prop :=
  exists kv0 ids0, ls_kv s = fst (forward kv0 ids0 false) /\
    (ls_changed s = false -> ls_ids s = ids0).

Lemma pass_synced s : shape s -> synced (pass P forward n pms s).
Proof.
  intros Hs. destruct (pass_view s Hs) as (_ & Hkv & _ & Hch & _).
  exists (ls_kv s), (ls_ids s). auto.
Qed.

Lemma iterate_synced fuel s :
  shape s -> (fuel = 0 -> synced s) -> (forallb id (ls_finished s) = true -> synced s) ->
  synced (iterate P forward n pms fuel s).
Proof.
  revert s. induction fuel as [|fuel IH]; intros s Hs H0 Hf; simpl; [auto|].
  destruct (forallb _ _) eqn:E; [auto|].
  pose proof (pass_synced s Hs) as Hy.
  apply IH; auto. by destruct (pass_view s Hs) as ([? _ _] & _).
Qed.

(** The number of passes is bounded by the fuel. *)
Lemma iterate_passes fuel s :
  shape s -> ls_passes (iterate P forward n pms fuel s) <= ls_passes s + fuel.
Proof.
  revert s. induction fuel as [|fuel IH]; intros s Hs; simpl; [lia|].
  destruct (forallb _ _); [lia|].
  destruct (pass_view s Hs) as ([Hs' _ _] & _ & Hp & _).
  specialize (IH _ Hs'). lia.
Qed.

End BatchFacts.

(** * The whole method *)

Section RunFacts.
Context {Sc : Type} `{DenoiseOps Sc} `{!DenoiseLaws Sc}.
Context {ST : Type}.
Variable P : params Sc.
Variable forward : runner ST Sc.
Variable n : nat.
#[local] Abbreviation mid := (jt_mask_id P).
#[local] Abbreviation bs := (jt_block_size P).
Hypothesis forward_shape : RunnerShape forward.
Variable kv0 : ST.
Variable ids0 : list Z.
Hypothesis ids0_shape : length ids0 = n * bs.
#[local] Abbreviation pms := (prompt_masks_of P n ids0).
#[local] Abbreviation Shape := (shape P n).

Lemma pms_nth i : i < n -> nth i pms [] = map negb (mask_of mid (blk bs i ids0)).
Proof.
  intros Hi. unfold prompt_masks_of.
  erewrite nth_lookup_Some; [done|].
  by rewrite list_lookup_fmap, lookup_seq_lt.
Qed.

Lemma pms_length i : i < n -> length (nth i pms []) = bs.
Proof. intros. rewrite pms_nth, length_map, length_mask_of by done. by apply (length_blk bs n). Qed.
#[local] Hint Resolve pms_length : core.

Lemma initial_shape : Shape (initial (Sc := Sc) kv0 n ids0).
Proof. split; simpl; rewrite ?length_replicate; auto. Qed.

Lemma pass_blk s j :
  Shape s -> j < n ->
  blk bs j (ls_ids (pass P forward n pms s)) =
    v_ids (vstep P (nth j pms []) (view P j (after_forward forward s))) /\
  nth j (ls_finished (pass P forward n pms s)) false =
    v_fin (vstep P (nth j pms []) (view P j (after_forward forward s))).
Proof.
  intros Hs Hj. destruct (pass_view P forward n forward_shape pms pms_length s Hs)
    as (_ & _ & _ & _ & Hv). rewrite <- Hv by done. done.
Qed.

Lemma view_after s j :
  Shape s -> j < n ->
  v_ids (view P j (after_forward forward s)) = blk bs j (ls_ids s) /\
  v_fin (view P j (after_forward forward s)) = nth j (ls_finished s) false /\
  v_rows (view P j (after_forward forward s)) =
    blk bs j (full_logits (snd (forward (ls_kv s) (ls_ids s) false))) /\
  length (v_rows (view P j (after_forward forward s))) = bs.
Proof.
  intros [Hi _ _] Hj. unfold after_forward.
  pose proof (forward_shape (ls_kv s) (ls_ids s) false) as Hf.
  destruct (forward _ _ _) as [kv out]. simpl in *. repeat split.
  unfold rows_of. simpl. apply (length_blk bs n); lia.
Qed.

Definition good (s : loop_state Sc ST) : Prop :=
  Shape s /\ forall j, j < n -> keeps mid (blk bs j ids0) (blk bs j (ls_ids s)).

Lemma pass_good s : good s -> good (pass P forward n pms s).
Proof.
  intros [Hs Hk]. split.
  - by destruct (pass_view P forward n forward_shape pms pms_length s Hs) as ([? _ _] & _).
  - intros j Hj. destruct (view_after s j Hs Hj) as (Hv & _ & _ & Hr).
    rewrite (proj1 (pass_blk s j Hs Hj)), pms_nth by done.
    apply vstep_keeps; [by apply (length_blk bs n)|done|]. rewrite Hv. auto.
Qed.

Lemma initial_good : good (initial kv0 n ids0).
Proof. split; [apply initial_shape|]. intros. apply keeps_refl. Qed.

(** Finished blocks have no mask left. *)
Definition fin_clean (s : loop_state Sc ST) : Prop :=
  forall j, j < n -> nth j (ls_finished s) false = true -> mid ∉ blk bs j (ls_ids s).

Lemma elem_of_blk {A} (x : A) j ids : x ∈ blk bs j ids -> x ∈ ids.
Proof.
  unfold blk, py_slice. intros (i & Hi & _)%elem_of_take.
  rewrite lookup_drop in Hi. by apply list_elem_of_lookup_2 in Hi.
Qed.

Lemma pass_masks s :
  never_predicts_mask P forward -> Shape s -> fin_clean s ->
  fin_clean (pass P forward n pms s) /\
  forall j, j < n -> masks mid (blk bs j (ls_ids (pass P forward n pms s)))
                     <= masks mid (blk bs j (ls_ids s)) - 1.
Proof.
  intros Hnp Hs Hc.
  assert (Hv : forall j, j < n ->
     masks mid (v_ids (vstep P (nth j pms []) (view P j (after_forward forward s))))
       <= masks mid (blk bs j (ls_ids s)) - 1 /\
     (v_fin (vstep P (nth j pms []) (view P j (after_forward forward s))) = true ->
      mid ∉ v_ids (vstep P (nth j pms []) (view P j (after_forward forward s))))).
  { intros j Hj. destruct (view_after s j Hs Hj) as (Hvi & Hvf & Hvr & Hvl).
    assert (Hbl : length (blk bs j (ls_ids s)) = bs)
      by (apply (length_blk bs n); [apply Hs|done]).
    rewrite <- Hvi. apply (vstep_masks P).
    - rewrite Hvi, pms_length; auto.
    - congruence.
    - intros k row Hk. apply penalise_lookup in Hk as (row0 & Hin & Hrow).
      rewrite Hvr in Hin. apply elem_of_blk in Hin.
      destruct Hrow as [->|[prev ->]]; [apply (Hnp _ _ _ _ 0%Z Hin)|apply (Hnp _ _ _ _ _ Hin)].
    - rewrite Hvf, Hvi. auto. }
  split; [intros j Hj|intros j Hj];
    destruct (pass_blk s j Hs Hj) as [-> E]; [rewrite E|]; by apply Hv.
Qed.

Lemma iterate_clean fuel s :
  never_predicts_mask P forward -> good s -> fin_clean s ->
  (forall j, j < n -> masks mid (blk bs j (ls_ids s)) <= fuel) ->
  forall j, j < n -> mid ∉ blk bs j (ls_ids (iterate P forward n pms fuel s)).
Proof.
  intros Hnp. revert s. induction fuel as [|fuel IH]; intros s Hg Hc Hm j Hj; simpl.
  - apply masks_0. specialize (Hm j Hj). lia.
  - destruct (forallb _ _) eqn:E.
    + apply Hc; [done|]. rewrite forallb_forall in E. apply E.
      apply nth_In. destruct Hg as [[_ _ ->] _]. done.
    + destruct (pass_masks s Hnp (proj1 Hg) Hc) as [Hc' Hm'].
      apply IH; [by apply pass_good|done| |done].
      intros i Hi. specialize (Hm' i Hi). specialize (Hm i Hi). lia.
Qed.

Lemma not_in_flat ids :
  length ids = n * bs -> (forall j, j < n -> mid ∉ blk bs j ids) -> mid ∉ ids.
Proof.
  intros Hl Hb (t & Ht)%list_elem_of_lookup.
  pose proof (lookup_lt_Some _ _ _ Ht) as Hlt. rewrite Hl in Hlt.
  destruct (flat_pos bs n t Hlt) as (H1 & H2 & H3).
  apply (Hb (t / bs) H1). apply list_elem_of_lookup. exists (t mod bs).
  by rewrite lookup_blk, <- H2.
Qed.

(** The denoising loop with its commit pass. *)
Lemma denoise_ids :
  ls_ids (denoise P forward kv0 n ids0) =
  ls_ids (iterate P forward n pms (bs + max_post_edit_steps P) (initial kv0 n ids0)).
Proof. unfold denoise. destruct (ls_changed _); [|done]. by destruct (forward _ _ _). Qed.

Lemma denoise_good : good (denoise P forward kv0 n ids0).
Proof.
  assert (Hg : good (iterate P forward n pms (bs + max_post_edit_steps P) (initial kv0 n ids0)))
    by (apply iterate_inv; [apply pass_good|apply initial_good]).
  unfold denoise. destruct (ls_changed _); [|done].
  destruct Hg as [[? ? ?] ?]. destruct (forward _ _ _). by split.
Qed.

Lemma initial_not_finished : 0 < n -> forallb id (ls_finished (initial (Sc := Sc) kv0 n ids0)) = false.
Proof. destruct n; [lia|done]. Qed.

Lemma iterate_out fuel s :
  Shape s -> is_Some (ls_out s) \/ (0 < fuel /\ forallb id (ls_finished s) = false) ->
  is_Some (ls_out (iterate P forward n pms fuel s)).
Proof.
  revert s. induction fuel as [|fuel IH]; intros s Hs Ho; simpl; [destruct Ho; [done|lia]|].
  destruct (forallb _ _) eqn:E; [by destruct Ho as [?|[_ ?]]|].
  destruct (pass_view P forward n forward_shape pms pms_length s Hs) as ([Hs' Ho' _] & _).
  apply IH; auto.
Qed.

Lemma denoise_out : 0 < n * bs -> is_Some (ls_out (denoise P forward kv0 n ids0)).
Proof.
  intros Hn. unfold denoise.
  assert (is_Some (ls_out (iterate P forward n pms (bs + max_post_edit_steps P)
            (initial kv0 n ids0)))).
  { apply iterate_out; [apply initial_shape|]. right.
    split; [nia|apply initial_not_finished; nia]. }
  destruct (ls_changed _); [|done]. destruct (forward _ _ _). by eexists.
Qed.

Lemma denoise_synced :
  0 < n * bs ->
  exists kv, ls_kv (denoise P forward kv0 n ids0)
             = fst (forward kv (ls_ids (denoise P forward kv0 n ids0)) false).
Proof.
  intros Hn. unfold denoise. set (s := iterate _ _ _ _ _ _).
  destruct (ls_changed s) eqn:Ec.
  - exists (ls_kv s). destruct (forward (ls_kv s) (ls_ids s) false) eqn:Ef. simpl.
    by rewrite Ef.
  - assert (Hy : synced forward s).
    { apply (iterate_synced P forward n forward_shape pms pms_length);
        [apply initial_shape|nia|]. rewrite initial_not_finished by nia. done. }
    destruct Hy as (kv & ids & Hkv & Hids). exists kv. by rewrite Hids.
Qed.

Lemma denoise_passes :
  ls_passes (denoise P forward kv0 n ids0) <= bs + max_post_edit_steps P + 1.
Proof.
  pose proof (iterate_passes P forward n forward_shape pms pms_length
    (bs + max_post_edit_steps P) _ initial_shape) as Hp.
  unfold denoise. destruct (ls_changed _); [|simpl in Hp; lia].
  destruct (forward _ _ _). simpl in *. lia.
Qed.

Lemma run_masked :
  mid ∈ ids0 ->
  exists out, ls_out (denoise P forward kv0 n ids0) = Some out /\
    run P forward kv0 n ids0 =
      Ok {| r_logits := out;
            r_next := zip_with (fun start row => drop start row)
                        (map count_true pms)
                        (reshape_rows bs n (ls_ids (denoise P forward kv0 n ids0)));
            r_kv := ls_kv (denoise P forward kv0 n ids0);
            r_ids := ls_ids (denoise P forward kv0 n ids0);
            r_passes := ls_passes (denoise P forward kv0 n ids0) |}.
Proof.
  intros Hin. unfold run.
  destruct (any (mask_of mid ids0)) eqn:Ea; [|by apply any_mask_of in Ea].
  destruct denoise_out as [out Ho].
  { apply list_elem_of_lookup in Hin as [t Ht]. apply lookup_lt_Some in Ht. lia. }
  exists out. split; [done|]. simpl. by rewrite Ho.
Qed.

Lemma run_clear :
  mid ∉ ids0 ->
  run P forward kv0 n ids0 =
    Ok {| r_logits := snd (forward kv0 ids0 false); r_next := [];
          r_kv := fst (forward kv0 ids0 false); r_ids := ids0; r_passes := 1 |}.
Proof.
  intros Hn. unfold run. rewrite (proj2 (any_mask_of mid ids0) Hn). simpl.
  by destruct (forward _ _ _).
Qed.

(** What the masked case returns for one request. *)
Lemma denoise_next i p m :
  i < n -> blk bs i ids0 = p ++ replicate m mid -> mid ∉ p ->
  exists gen,
    zip_with (fun start row => drop start row) (map count_true pms)
      (reshape_rows bs n (ls_ids (denoise P forward kv0 n ids0))) !! i = Some gen /\
    blk bs i (ls_ids (denoise P forward kv0 n ids0)) = p ++ gen /\ length gen = m.
Proof.
  intros Hi Hb Hp. destruct denoise_good as [_ Hk]. specialize (Hk i Hi).
  rewrite Hb in Hk. destruct (keeps_prefix mid p m _ Hk Hp) as [E1 E2].
  eexists. split; [|split; [exact E1|exact E2]].
  rewrite lookup_zip_with, list_lookup_fmap. unfold prompt_masks_of, reshape_rows.
  rewrite !list_lookup_fmap, !lookup_seq_lt by done. simpl.
  by rewrite Hb, count_prompt.
Qed.

(** The two ways [run] returns. *)
Lemma run_cases r :
  run P forward kv0 n ids0 = Ok r ->
  (mid ∉ ids0 /\ r = mkResult (snd (forward kv0 ids0 false)) []
                       (fst (forward kv0 ids0 false)) ids0 1) \/
  (mid ∈ ids0 /\ 0 < n * bs /\ r_ids r = ls_ids (denoise P forward kv0 n ids0) /\
   r_kv r = ls_kv (denoise P forward kv0 n ids0) /\
   r_passes r = ls_passes (denoise P forward kv0 n ids0) /\
   r_next r = zip_with (fun start row => drop start row) (map count_true pms)
     (reshape_rows bs n (ls_ids (denoise P forward kv0 n ids0)))).
Proof.
  intros Hr. destruct (decide (mid ∈ ids0)) as [Hin|Hin].
  - right. destruct (run_masked Hin) as (out & _ & E). rewrite E in Hr. simplify_eq/=.
    repeat (split; [done|]). split; [|done].
    apply list_elem_of_lookup in Hin as [t Ht]. apply lookup_lt_Some in Ht. lia.
  - left. rewrite (run_clear Hin) in Hr. by simplify_eq/=.
Qed.

Lemma run_total : exists r, run P forward kv0 n ids0 = Ok r /\ length (r_ids r) = length ids0.
Proof.
  destruct (decide (mid ∈ ids0)) as [Hin|Hin].
  - destruct (run_masked Hin) as (out & _ & E). rewrite E. eexists. split; [done|]. simpl.
    destruct denoise_good as [[-> _ _] _]. lia.
  - rewrite (run_clear Hin). eauto.
Qed.

Lemma denoise_keeps t v :
  ids0 !! t = Some v -> v <> mid -> ls_ids (denoise P forward kv0 n ids0) !! t = Some v.
Proof.
  intros Ht Hv. pose proof (lookup_lt_Some _ _ _ Ht) as Hlt. rewrite ids0_shape in Hlt.
  destruct (flat_pos _ _ _ Hlt) as (H1 & H2 & H3).
  destruct denoise_good as [_ Hk]. destruct (Hk _ H1) as [_ Hk'].
  rewrite H2, <- lookup_blk by done. apply Hk'; [|done]. by rewrite lookup_blk, <- H2.
Qed.

Lemma denoise_clean :
  never_predicts_mask P forward -> mid ∉ ls_ids (denoise P forward kv0 n ids0).
Proof.
  intros Hnp. destruct denoise_good as [[Hl' _ _] _].
  apply not_in_flat; [done|]. rewrite denoise_ids.
  apply iterate_clean; [done|by apply initial_good| |].
  - intros j Hj. unfold initial. simpl. rewrite nth_lookup, lookup_replicate_2; done.
  - intros j Hj. simpl. pose proof (masks_le mid (blk bs j ids0)).
    rewrite (length_blk _ n) in * by done. lia.
Qed.

End RunFacts.

(** [JointThreshold.run] implements the interface of a decoding algorithm. *)
#[export] Instance run_decode_spec {Sc ST : Type} `{DenoiseOps Sc} `{!DenoiseLaws Sc}
    (P : params Sc) (forward : runner ST Sc) `{forward_shape : !RunnerShape forward} :
  DecodeSpec (jt_mask_id P) (jt_block_size P) forward (never_predicts_mask P forward)
    (run P forward).
Proof.
  split.
  - intros. by apply run_total.
  - intros kv n ids r t v Hl Hr Ht Hv.
    destruct (run_cases P forward n forward_shape kv ids Hl r Hr) as [[_ ->]|(_ & _ & -> & _)];
      [done|]. by apply denoise_keeps.
  - intros kv n ids r Hl Hnp Hr.
    destruct (run_cases P forward n forward_shape kv ids Hl r Hr) as [[? ->]|(_ & _ & -> & _)];
      [done|]. by apply denoise_clean.
  - intros kv n ids r Hl Hr.
    destruct (run_cases P forward n forward_shape kv ids Hl r Hr)
      as [[? ->]|(_ & Hn & -> & -> & _)]; [by eexists|]. by apply denoise_synced.
  - intros kv n ids r i p m Hl Hr Hi Hb Hp.
    destruct (run_cases P forward n forward_shape kv ids Hl r Hr)
      as [[? ->]|(_ & _ & -> & _ & _ & ->)]; [by left|right]. by apply denoise_next.
Qed.

(** * Properties of [JointThreshold.run] *)

Section Properties.
Context {Sc ST : Type} `{DenoiseOps Sc} `{!DenoiseLaws Sc}.
Variable P : params Sc.
Variable forward : runner ST Sc.

(** C1. [JointThreshold.run] on a batch of [n] blocks always returns, and every
    token that was not a mask on entry (the prompt part of the block) is still
    at its position in the token tensor, whatever the model predicts and
    however many editing passes run. *)
Theorem joint_keeps_prompt `{!RunnerShape forward} (kv : ST) (n : nat) (ids : list Z) :
  length ids = n * jt_block_size P ->
  exists r, run P forward kv n ids = Ok r /\ length (r_ids r) = length ids /\
    forall t v, ids !! t = Some v -> v <> jt_mask_id P -> r_ids r !! t = Some v.
Proof.
  intros Hl. destruct (decode_total kv n ids Hl) as (r & Hr & Hlen).
  exists r. split; [done|split; [done|]]. intros t v. by eapply decode_keeps.
Qed.

(** C2. If no row of the model has the mask token on top, neither as the model gives it
    nor after the repetition penalty was subtracted at whatever previous token,
    [JointThreshold.run] leaves no mask token in any block: its bounded number of
    iterations is enough to unmask every position. *)
Theorem joint_mask_free `{!RunnerShape forward} (kv : ST) (n : nat) (ids : list Z) :
  length ids = n * jt_block_size P -> never_predicts_mask P forward ->
  exists r, run P forward kv n ids = Ok r /\ jt_mask_id P ∉ r_ids r.
Proof.
  intros Hl Hnp. destruct (decode_total kv n ids Hl) as (r & Hr & _).
  exists r. split; [done|]. by eapply decode_clean.
Qed.

(** C3. The caches [JointThreshold.run] leaves behind were written by a forward
    pass over exactly the tokens it returns, and it makes at most
    [block_size + max_post_edit_steps + 1] forward passes. *)
Theorem joint_commits_final `{!RunnerShape forward} (kv : ST) (n : nat) (ids : list Z) :
  length ids = n * jt_block_size P -> 0 < jt_block_size P ->
  exists r kv', run P forward kv n ids = Ok r /\
    r_kv r = fst (forward kv' (r_ids r) false) /\
    r_passes r <= jt_block_size P + max_post_edit_steps P + 1.
Proof.
  intros Hl Hb. destruct (decode_total kv n ids Hl) as (r & Hr & _).
  destruct (decode_commits kv n ids r Hl Hr) as [kv' Hkv]. exists r, kv'.
  split; [done|split; [done|]].
  destruct (run_cases P forward n _ kv ids Hl r Hr) as [[_ ->]|(_ & _ & _ & _ & -> & _)];
    [simpl; lia|]. by apply denoise_passes.
Qed.

(** C4. For a request whose block is an unmasked prefix [p] followed by [m]
    masks, [JointThreshold.run] returns exactly the [m] tokens it wrote behind
    [p] (or nothing at all when the whole batch had no mask). *)
Theorem joint_next_tokens `{!RunnerShape forward} (kv : ST) (n : nat) (ids : list Z)
    (i : nat) (p : list Z) (m : nat) :
  length ids = n * jt_block_size P -> i < n ->
  blk (jt_block_size P) i ids = p ++ replicate m (jt_mask_id P) -> jt_mask_id P ∉ p ->
  exists r, run P forward kv n ids = Ok r /\
    ((jt_mask_id P ∉ ids /\ r_next r = []) \/
     exists gen, r_next r !! i = Some gen /\ length gen = m /\
       blk (jt_block_size P) i (r_ids r) = p ++ gen).
Proof.
  intros Hl Hi Hb Hp. destruct (decode_total kv n ids Hl) as (r & Hr & _).
  exists r. split; [done|].
  destruct (decode_next kv n ids r i p m Hl Hr Hi Hb Hp) as [?|(gen & ? & ? & ?)]; eauto 10.
Qed.

End Properties.

(** * A concrete run *)

Module Example_.
Export ZOps.

(** A model that always ranks token 1 first; the runner state counts passes. *)
Definition toy_forward : runner nat Z :=
  fun kv ids _ => (S kv, mkOut (map (fun _ => [3; 5; 1]%Z) ids) true).

Definition toy_params : params Z :=
  {| jt_block_size := 4; jt_mask_id := 7%Z; threshold := 9%Z; edit_threshold := 9%Z;
     max_post_edit_steps := 2; penalty_lambda := 0%Z |}.

#[export] Instance toy_shape : RunnerShape toy_forward.
Proof. intros kv ids skip. apply length_map. Qed.

Definition toy_ids : list Z := [4; 7; 7; 7; 2; 6; 7; 7]%Z.

Lemma toy_run :
  (fun r => (r_next r, r_ids r, r_passes r)) <$>
    (match run toy_params toy_forward 0 2 toy_ids with Ok r => Some r | Raise _ => None end)
  = Some ([[1; 1; 1]; [1; 1]]%Z, [4; 1; 1; 1; 2; 6; 1; 1]%Z, 4).
Proof. vm_compute. done. Qed.

Lemma toy_never : never_predicts_mask toy_params toy_forward.
Proof.
  intros kv ids skip row prev Hin. simpl in Hin.
  apply list_elem_of_fmap in Hin as (x & -> & _). split; [done|].
  unfold penalise_row. simpl.
  destruct (Z.to_nat prev) as [|[|[|k]]]; vm_compute; done.
Qed.

End Example_.
Import Example_.

Lemma joint_keeps_prompt_witness :
  exists r, run toy_params toy_forward 0 2 toy_ids = Ok r /\ length (r_ids r) = 8 /\
    forall t v, toy_ids !! t = Some v -> v <> 7%Z -> r_ids r !! t = Some v.
Proof. apply (joint_keeps_prompt toy_params toy_forward 0 2 toy_ids). reflexivity. Defined.

Lemma joint_mask_free_witness :
  exists r, run toy_params toy_forward 0 2 toy_ids = Ok r /\ 7%Z ∉ r_ids r.
Proof.
  apply (joint_mask_free toy_params toy_forward 0 2 toy_ids); [reflexivity|apply toy_never].
Defined.

Lemma joint_commits_final_witness :
  exists r kv', run toy_params toy_forward 0 2 toy_ids = Ok r /\
    r_kv r = fst (toy_forward kv' (r_ids r) false) /\ r_passes r <= 7.
Proof.
  apply (joint_commits_final toy_params toy_forward 0 2 toy_ids); [reflexivity|].
  vm_compute. lia.
Defined.

Lemma joint_next_tokens_witness :
  exists r, run toy_params toy_forward 0 2 toy_ids = Ok r /\
    ((7%Z ∉ toy_ids /\ r_next r = []) \/
     exists gen, r_next r !! 1 = Some gen /\ length gen = 2 /\
       blk 4 1 (r_ids r) = [2; 6]%Z ++ gen).
Proof.
  apply (joint_next_tokens toy_params toy_forward 0 2 toy_ids 1 [2; 6]%Z 2);
    [reflexivity|lia|reflexivity|].
  apply not_elem_of_cons; split; [done|]. apply not_elem_of_cons; split; [done|].
  apply not_elem_of_nil.
Defined.

End Joint.
