(* ===== verification/LowConfidence.v ===== *)
(** The [LowConfidence] decoding algorithm
    ([srt/dllm/algorithm/low_confidence.py]): at most [block_size] denoising
    passes that only ever fill masked positions, then one commit pass. *)
From stdpp Require Import base list.
From Stdlib Require Import ZArith QArith Lia.
From S2P Require Import Prelude.
From S2P Require Import DllmReq.
From S2P Require Import Denoise.
Local Open Scope nat_scope.

Module Low.
Import Config.
Local Open Scope py_scope.

Section Model.
Context {Sc : Type} `{DenoiseOps Sc}.

(** Attributes set by [LowConfidence.__init__]. *)
Record params : Type := {
  lc_block_size : nat;
  lc_mask_id : Z;
  threshold : Sc;
}.

Definition init (config : DllmConfig Sc) : params :=
  {| lc_block_size := block_size config;
     lc_mask_id := mask_id config;
     threshold := default (sc_of_Q (95#100)) (ac_threshold (cfg_algorithm_config config)) |}.

Variable P : params.
#[local] Abbreviation mid := (lc_mask_id P).
#[local] Abbreviation bs := (lc_block_size P).

(** [torch.where(mask, x, ids)]. *)
Definition where_tokens (mask : list bool) (x ids : list Z) : list Z :=
  apply_transfer mask x ids.

(** The loop body for one request: fill the confident masked positions, or the
    single most confident one. *)
Definition block_fill (ids : list Z) (rows : list (list Sc)) : list Z :=
  let mask := mask_of mid ids in
  if count_true mask =? 0 then ids
  else
    let x := where_tokens mask (row_tokens rows) ids in
    let confidence := confidence_of mask (row_probs rows) in
    apply_transfer (select_transfer (threshold P) confidence) x ids.

Section Run.
Context {ST : Type}.
Variable forward : runner ST Sc.

(** [for batch_id in range(batch_size)] over the views of the token tensor. *)
Definition fill_all (batch_size : nat) (logits : list (list Sc)) (ids : list Z) : list Z :=
  fold_left (fun ids i => set_blk bs i (block_fill (blk bs i ids) (blk bs i logits)) ids)
    (seq 0 batch_size) ids.

(** The bounded denoising loop: runner state, tokens and pass counter. *)
Fixpoint loop (batch_size fuel : nat) (kv : ST) (ids : list Z) (passes : nat)
    : res (ST * list Z * nat) :=
  match fuel with
  | 0 => Ok (kv, ids, passes)
  | S fuel =>
    if count_true (mask_of mid ids) =? 0 then Ok (kv, ids, passes)
    else
      let '(kv', out) := forward kv ids true in
      passert (batch_size =? length ids / bs)
        (loop batch_size fuel kv' (fill_all batch_size (full_logits out) ids) (S passes))
  end.

(** [start_list[i] = block_size - sum(block_i == mask_id)]. *)
Definition start_of (ids : list Z) (i : nat) : nat :=
  bs - count_true (mask_of mid (blk bs i ids)).

(** [LowConfidence.run]. *)
Definition run (kv : ST) (batch_size : nat) (ids : list Z) : res (decode_result ST Sc) :=
  if count_true (mask_of mid ids) =? 0
  then let '(kv', out) := forward kv ids false in
       Ok (mkResult out [] kv' ids 1)
  else
    let start_list := map (start_of ids) (seq 0 batch_size) in
    let! '(kv', ids', passes) := loop batch_size bs kv ids 0 in
    let '(kv'', out) := forward kv' ids' false in
    Ok (mkResult out
          (zip_with (fun start row => drop start row) start_list
             (reshape_rows bs batch_size ids'))
          kv'' ids' (S passes)).

End Run.
End Model.
Arguments params : clear implicits.

Section Facts.
Context {Sc : Type} `{DenoiseOps Sc} `{!DenoiseLaws Sc}.
Variable P : params Sc.
#[local] Abbreviation mid := (lc_mask_id P).
#[local] Abbreviation bs := (lc_block_size P).

Lemma count_any (l : list bool) : (count_true l =? 0) = negb (any l).
Proof. unfold any. induction l as [|[] l IH]; simpl; auto. Qed.

(** Position by position: a filled block keeps every token that is not a mask,
    and a masked position keeps its mask or receives the argmax of its row. *)
Lemma block_fill_pos ids rows k v :
  length rows = length ids -> ids !! k = Some v ->
  exists v', block_fill P ids rows !! k = Some v' /\
    (v' = v \/ (v = mid /\ exists row, rows !! k = Some row /\ v' = Z.of_nat (t_argmax row))).
Proof.
  intros Hr Hv. unfold block_fill. rewrite count_any.
  destruct (any _) eqn:Ea; simpl; [|eauto].
  pose proof (lookup_lt_Some _ _ _ Hv) as Hlt.
  destruct (lookup_lt_is_Some_2 rows k ltac:(lia)) as [row Hrow].
  assert (Hp : length (row_probs rows) = length (mask_of mid ids))
    by (unfold row_probs; rewrite length_map, length_mask_of; lia).
  set (t := select_transfer _ _).
  destruct (lookup_lt_is_Some_2 t k) as [tv Ht].
  { unfold t. rewrite length_select_transfer. unfold confidence_of.
    rewrite length_zip_with, Hp, length_mask_of. lia. }
  assert (Hm : mask_of mid ids !! k = Some (Z.eqb v mid)) by (by rewrite lookup_mask_of, Hv).
  assert (Hx : row_tokens rows !! k = Some (Z.of_nat (t_argmax row)))
    by (unfold row_tokens; by rewrite list_lookup_fmap, Hrow).
  assert (Hw : where_tokens (mask_of mid ids) (row_tokens rows) ids !! k
               = Some (if Z.eqb v mid then Z.of_nat (t_argmax row) else v))
    by (apply lookup_apply_transfer; done).
  rewrite (lookup_apply_transfer _ _ _ _ _ _ _ Ht Hw Hv).
  eexists. split; [done|]. destruct tv; [|by left].
  apply select_transfer_masked in Ht; [|done|done].
  rewrite lookup_mask_of, Hv in Ht. simplify_eq/=. rewrite Ht. right.
  split; [lia|eauto].
Qed.

Lemma length_block_fill ids rows :
  length rows = length ids -> length (block_fill P ids rows) = length ids.
Proof.
  intros Hr. unfold block_fill. destruct (_ =? 0); [done|].
  assert (Hx : length (row_tokens rows) = length ids) by (unfold row_tokens; by rewrite length_map).
  assert (Hp : length (row_probs rows) = length ids) by (unfold row_probs; by rewrite length_map).
  apply length_apply_transfer.
  - rewrite length_select_transfer. unfold confidence_of.
    rewrite length_zip_with, Hp, length_mask_of. lia.
  - unfold where_tokens. apply length_apply_transfer; [apply length_mask_of|done].
Qed.

Lemma block_fill_keeps b0 ids rows :
  length rows = length ids -> keeps mid b0 ids -> keeps mid b0 (block_fill P ids rows).
Proof.
  intros Hr [Hl Hk]. split; [by rewrite length_block_fill|].
  intros k v Hv Hne.
  destruct (block_fill_pos ids rows k v Hr (Hk k v Hv Hne)) as (v' & Hv' & [->|[-> _]]); done.
Qed.

(** A filled block loses at least one mask when the argmaxes are not masks. *)
Lemma block_fill_masks ids rows :
  length rows = length ids ->
  (forall row, row ∈ rows -> Z.of_nat (t_argmax row) <> mid) ->
  masks mid (block_fill P ids rows) <= masks mid ids - 1.
Proof.
  intros Hr Hnp.
  assert (Hmono : forall k v v', ids !! k = Some v -> block_fill P ids rows !! k = Some v' ->
                    v' = mid -> v = mid).
  { intros k v v' Hv Hv' ->.
    destruct (block_fill_pos ids rows k v Hr Hv) as (w & Hw & [->|(-> & _)]); [|done].
    by simplify_eq. }
  pose proof (length_block_fill ids rows Hr) as Hlen.
  destruct (any (mask_of mid ids)) eqn:Ea.
  2: { pose proof (masks_mono mid _ _ (eq_sym Hlen) Hmono).
       apply any_mask_of, masks_0 in Ea. lia. }
  enough (masks mid (block_fill P ids rows) < masks mid ids) by lia.
  assert (Hp : length (row_probs rows) = length (mask_of mid ids))
    by (unfold row_probs; rewrite length_map, length_mask_of; lia).
  destruct (select_transfer_progress (threshold P) _ _ Hp Ea) as [k Hk].
  pose proof (select_transfer_masked _ _ _ _ Hp Ea Hk) as Hm.
  rewrite lookup_mask_of in Hm. destruct (ids !! k) as [v|] eqn:Ev; [|done].
  simplify_eq/=. assert (v = mid) as -> by lia.
  apply (masks_strict mid ids _ k); [done|exact Hmono|done|].
  pose proof (lookup_lt_Some _ _ _ Ev) as Hlt.
  destruct (lookup_lt_is_Some_2 rows k ltac:(lia)) as [row Hrow].
  exists (Z.of_nat (t_argmax row)).
  split; [|apply Hnp; by apply list_elem_of_lookup_2 in Hrow].
  unfold block_fill. rewrite count_any, Ea. simpl.
  assert (Hx : row_tokens rows !! k = Some (Z.of_nat (t_argmax row)))
    by (unfold row_tokens; by rewrite list_lookup_fmap, Hrow).
  assert (Hw : where_tokens (mask_of mid ids) (row_tokens rows) ids !! k
               = Some (Z.of_nat (t_argmax row))).
  { unfold where_tokens. erewrite lookup_apply_transfer; [|rewrite lookup_mask_of, Ev; done|done|done].
    by rewrite Z.eqb_refl. }
  by rewrite (lookup_apply_transfer _ _ _ _ _ _ _ Hk Hw Ev).
Qed.

End Facts.
(** * The batch *)

Section BatchFacts.
Context {Sc : Type} `{DenoiseOps Sc} `{!DenoiseLaws Sc}.
Variable P : params Sc.
Variable n : nat.
#[local] Abbreviation mid := (lc_mask_id P).
#[local] Abbreviation bs := (lc_block_size P).

(** The views of different requests do not overlap: each block is filled from
    its own rows, and from the tokens it had before the loop. *)
Lemma fill_prefix (logits : list (list Sc)) (ids : list Z) m :
  length ids = n * bs -> length logits = length ids -> m <= n ->
  length (fill_all P m logits ids) = length ids /\
  forall j, j < n -> blk bs j (fill_all P m logits ids) =
    if j <? m then block_fill P (blk bs j ids) (blk bs j logits) else blk bs j ids.
Proof.
  intros Hl Hr. unfold fill_all. induction m as [|m IH]; intros Hm; [done|].
  destruct (IH ltac:(lia)) as [IHl IHb]. rewrite seq_S, fold_left_app. cbn [fold_left plus].
  set (g := fold_left _ (seq 0 m) ids) in *.
  assert (Hb : blk bs m g = blk bs m ids).
  { rewrite IHb by lia. destruct (Nat.ltb_spec m m); [lia|done]. }
  assert (Hbl : length (block_fill P (blk bs m g) (blk bs m logits)) = bs).
  { rewrite Hb, length_block_fill; [by apply (length_blk _ n)|].
    rewrite !(length_blk _ n) by lia. done. }
  split; [rewrite (length_set_blk _ n) by lia; done|].
  intros j Hj. destruct (decide (j = m)) as [->|Hne].
  - rewrite (blk_set_blk_same _ n) by lia. rewrite Hb.
    destruct (Nat.ltb_spec m (S m)); [done|lia].
  - rewrite (blk_set_blk_other _ n) by lia. rewrite IHb by done.
    destruct (Nat.ltb_spec j m), (Nat.ltb_spec j (S m)); (done || lia).
Qed.

Lemma fill_all_blk (logits : list (list Sc)) (ids : list Z) j :
  length ids = n * bs -> length logits = length ids -> j < n ->
  blk bs j (fill_all P n logits ids) = block_fill P (blk bs j ids) (blk bs j logits).
Proof.
  intros Hl Hr Hj. rewrite (proj2 (fill_prefix logits ids n Hl Hr (le_n n)) j Hj).
  destruct (Nat.ltb_spec j n); [done|lia].
Qed.

(** The rows of a block are rows of the tensor. *)
Lemma elem_of_rows (logits : list (list Sc)) j row : row ∈ blk bs j logits -> row ∈ logits.
Proof.
  unfold blk, py_slice. intros Hx. apply elem_of_take in Hx as (i & Hi & _).
  rewrite lookup_drop in Hi. by apply list_elem_of_lookup_2 in Hi.
Qed.

End BatchFacts.

(** The model never ranks the mask token first. *)
Definition never_predicts_mask {Sc ST : Type} `{DenoiseOps Sc} (P : params Sc)
    (forward : runner ST Sc) : Prop :=
  forall kv ids skip row, row ∈ full_logits (snd (forward kv ids skip)) ->
    Z.of_nat (t_argmax row) <> lc_mask_id P.

Section LoopFacts.
Context {Sc ST : Type} `{DenoiseOps Sc} `{!DenoiseLaws Sc}.
Variable P : params Sc.
Variable forward : runner ST Sc.
Variable n : nat.
Context `{forward_shape : !RunnerShape forward}.
#[local] Abbreviation mid := (lc_mask_id P).
#[local] Abbreviation bs := (lc_block_size P).

(** What holds of the tokens after every pass: the shape, and each block still
    has the unmasked tokens of the initial one. *)
Definition kept (ids0 ids : list Z) : Prop :=
  length ids = n * bs /\ forall j, j < n -> keeps mid (blk bs j ids0) (blk bs j ids).

Lemma kept_refl ids : length ids = n * bs -> kept ids ids.
Proof. split; [done|]. intros. apply keeps_refl. Qed.

Lemma fill_all_kept ids0 ids kv :
  kept ids0 ids ->
  kept ids0 (fill_all P n (full_logits (snd (forward kv ids true))) ids).
Proof.
  intros [Hl Hk]. pose proof (runner_shape kv ids true) as Hr. split.
  - by rewrite (proj1 (fill_prefix P n _ ids n Hl Hr (le_n n))).
  - intros j Hj. rewrite (fill_all_blk P n) by done.
    apply block_fill_keeps; [|by apply Hk]. rewrite !(length_blk _ n) by lia. done.
Qed.

Lemma batch_assert ids : length ids = n * bs -> mid ∈ ids -> (n =? length ids / bs) = true.
Proof.
  intros Hl Hin. apply Nat.eqb_eq. rewrite Hl, Nat.div_mul; [done|].
  apply list_elem_of_lookup in Hin as [t Ht]. apply lookup_lt_Some in Ht. nia.
Qed.

Lemma some_mask ids : (count_true (mask_of mid ids) =? 0) = false <-> mid ∈ ids.
Proof.
  rewrite count_any, negb_false_iff. split.
  - intros Ha. destruct (decide (mid ∈ ids)) as [|Hn]; [done|].
    apply any_mask_of in Hn. congruence.
  - intros Hin. destruct (any _) eqn:E; [done|]. by apply any_mask_of in E.
Qed.

Lemma no_mask ids : (count_true (mask_of mid ids) =? 0) = true <-> mid ∉ ids.
Proof. rewrite <- some_mask. by destruct (_ =? 0). Qed.

(** The loop returns, uses at most one pass per unit of fuel, and keeps the
    unmasked tokens. *)
Lemma loop_total fuel kv ids0 ids passes :
  kept ids0 ids ->
  exists kv' ids' p, loop P forward n fuel kv ids passes = Ok (kv', ids', p) /\
    kept ids0 ids' /\ p <= passes + fuel.
Proof.
  revert kv ids passes. induction fuel as [|fuel IH]; intros kv ids passes Hk; simpl.
  - exists kv, ids, passes. split; [done|]. split; [done|lia].
  - destruct (_ =? 0) eqn:E; [exists kv, ids, passes; split; [done|]; split; [done|lia]|].
    apply some_mask in E. pose proof (fill_all_kept ids0 ids kv Hk) as Hk'.
    rewrite (surjective_pairing (forward kv ids true)), batch_assert by (apply Hk || done).
    unfold passert.
    destruct (IH (fst (forward kv ids true)) _ (S passes) Hk') as (kv' & ids' & p & -> & ? & ?).
    exists kv', ids', p. split; [done|]. split; [done|lia].
Qed.

Lemma loop_kept fuel kv ids0 ids passes kv' ids' p :
  kept ids0 ids -> loop P forward n fuel kv ids passes = Ok (kv', ids', p) ->
  kept ids0 ids' /\ p <= passes + fuel.
Proof.
  intros Hk E. destruct (loop_total fuel kv ids0 ids passes Hk) as (? & ? & ? & E' & ?).
  rewrite E in E'. by simplify_eq.
Qed.

(** With one unit of fuel per mask of the fullest block, no mask is left. *)
Lemma loop_clean fuel kv ids passes kv' ids' p :
  never_predicts_mask P forward -> length ids = n * bs ->
  (forall j, j < n -> masks mid (blk bs j ids) <= fuel) ->
  loop P forward n fuel kv ids passes = Ok (kv', ids', p) -> mid ∉ ids'.
Proof.
  intros Hnp. revert kv ids passes.
  induction fuel as [|fuel IH]; intros kv ids passes Hl Hm; simpl.
  - intros ?; simplify_eq. intros (t & Ht)%list_elem_of_lookup.
    pose proof (lookup_lt_Some _ _ _ Ht) as Hlt. rewrite Hl in Hlt.
    destruct (flat_pos bs n t Hlt) as (H1 & H2 & H3).
    assert (mid ∉ blk bs (t / bs) ids') as Hb by (apply masks_0; specialize (Hm _ H1); lia).
    apply Hb, list_elem_of_lookup. exists (t mod bs). by rewrite lookup_blk, <- H2.
  - destruct (_ =? 0) eqn:E; [intros ?; simplify_eq; by apply no_mask|].
    apply some_mask in E. rewrite (surjective_pairing (forward kv ids true)), batch_assert by done.
    unfold passert. pose proof (runner_shape kv ids true) as Hr. apply IH.
    + by rewrite (proj1 (fill_prefix P n _ ids n Hl Hr (le_n n))).
    + intros j Hj. rewrite (fill_all_blk P n) by done.
      pose proof (block_fill_masks P (blk bs j ids)
        (blk bs j (full_logits (snd (forward kv ids true))))) as Hd.
      specialize (Hm j Hj). etrans; [apply Hd|lia].
      * rewrite !(length_blk _ n) by lia. done.
      * intros row Hrow. apply elem_of_rows in Hrow. by eapply Hnp.
Qed.

(** The two ways [run] returns. *)
Lemma low_run_cases kv ids r :
  length ids = n * bs -> run P forward kv n ids = Ok r ->
  (mid ∉ ids /\ r = mkResult (snd (forward kv ids false)) [] (fst (forward kv ids false)) ids 1) \/
  exists kv' p, mid ∈ ids /\ loop P forward n bs kv ids 0 = Ok (kv', r_ids r, p) /\
    kept ids (r_ids r) /\ r_kv r = fst (forward kv' (r_ids r) false) /\
    r_passes r = S p /\ p <= bs /\
    r_next r = zip_with (fun start row => drop start row) (map (start_of P ids) (seq 0 n))
                 (reshape_rows bs n (r_ids r)).
Proof.
  intros Hl. unfold run. destruct (_ =? 0) eqn:E.
  - rewrite (surjective_pairing (forward kv ids false)). intros ?; simplify_eq.
    left. by apply no_mask in E.
  - apply some_mask in E.
    destruct (loop_total bs kv ids ids 0 (kept_refl ids Hl)) as (kv' & ids' & p & -> & Hk & Hp).
    simpl. rewrite (surjective_pairing (forward kv' ids' false)). intros ?; simplify_eq/=.
    right. exists kv', p. done.
Qed.

Lemma low_run_total kv ids :
  length ids = n * bs -> exists r, run P forward kv n ids = Ok r /\ length (r_ids r) = length ids.
Proof.
  intros Hl. unfold run. destruct (_ =? 0) eqn:E.
  - rewrite (surjective_pairing (forward kv ids false)). by eexists.
  - destruct (loop_total bs kv ids ids 0 (kept_refl ids Hl)) as (kv' & ids' & p & -> & Hk & Hp).
    simpl. rewrite (surjective_pairing (forward kv' ids' false)). eexists. split; [done|].
    simpl. by rewrite Hl, (proj1 Hk).
Qed.

Lemma start_of_prompt ids i p m :
  length ids = n * bs -> i < n -> blk bs i ids = p ++ replicate m mid -> mid ∉ p ->
  start_of P ids i = length p.
Proof.
  intros Hl Hi Hb Hp. unfold start_of. rewrite <- (count_prompt mid p m Hp), count_negb, <- Hb.
  by rewrite length_mask_of, (length_blk _ n).
Qed.

End LoopFacts.

(** [LowConfidence.run] implements the interface of a decoding algorithm. *)
#[export] Instance run_decode_spec {Sc ST : Type} `{DenoiseOps Sc} `{!DenoiseLaws Sc}
    (P : params Sc) (forward : runner ST Sc) `{!RunnerShape forward} :
  DecodeSpec (lc_mask_id P) (lc_block_size P) forward (never_predicts_mask P forward)
    (run P forward).
Proof.
  split.
  - intros. by apply low_run_total.
  - intros kv n ids r t v Hl Hr Ht Hv.
    destruct (low_run_cases P forward n kv ids r Hl Hr) as [[_ ->]|(kv' & p & _ & _ & [_ Hk] & _)];
      [done|].
    pose proof (lookup_lt_Some _ _ _ Ht) as Hlt. rewrite Hl in Hlt.
    destruct (flat_pos _ _ _ Hlt) as (H1 & H2 & H3). destruct (Hk _ H1) as [_ Hk'].
    rewrite H2, <- lookup_blk by done. apply Hk'; [|done]. by rewrite lookup_blk, <- H2.
  - intros kv n ids r Hl Hnp Hr.
    destruct (low_run_cases P forward n kv ids r Hl Hr) as [[? ->]|(kv' & p & _ & El & _)]; [done|].
    eapply (loop_clean P forward n _ _ _ _ _ _ _ Hnp Hl); [|exact El].
    intros j Hj. etrans; [apply masks_le|]. by rewrite (length_blk _ n).
  - intros kv n ids r Hl Hr.
    destruct (low_run_cases P forward n kv ids r Hl Hr)
      as [[? ->]|(kv' & p & _ & _ & _ & -> & _)]; by eexists.
  - intros kv n ids r i p m Hl Hr Hi Hb Hp.
    destruct (low_run_cases P forward n kv ids r Hl Hr)
      as [[? ->]|(kv' & q & _ & _ & [_ Hk] & _ & _ & _ & ->)]; [by left|right].
    specialize (Hk i Hi). rewrite Hb in Hk.
    destruct (keeps_prefix _ p m _ Hk Hp) as [E1 E2].
    eexists. split; [|split; [exact E1|exact E2]].
    unfold reshape_rows. rewrite lookup_zip_with, !list_lookup_fmap, !lookup_seq_lt by done. simpl.
    by rewrite (start_of_prompt P n ids i p m Hl Hi Hb Hp).
Qed.

(** The last pass commits the tokens that are returned. *)
Lemma low_commits {Sc ST : Type} `{DenoiseOps Sc} `{!DenoiseLaws Sc}
    (P : params Sc) (forward : runner ST Sc) `{!RunnerShape forward} n kv ids r :
  length ids = n * lc_block_size P -> run P forward kv n ids = Ok r ->
  exists kv', r_kv r = fst (forward kv' (r_ids r) false) /\ r_passes r <= lc_block_size P + 1.
Proof.
  intros Hl Hr. destruct (low_run_cases P forward n kv ids r Hl Hr)
    as [[_ ->]|(kv' & p & _ & _ & _ & Hkv & Hp & Hle & _)].
  - exists kv. split; [done|]. simpl. lia.
  - exists kv'. split; [done|]. lia.
Qed.

(** * Properties of [LowConfidence.run] *)

Section Properties.
Context {Sc ST : Type} `{DenoiseOps Sc} `{!DenoiseLaws Sc}.
Variable P : params Sc.
Variable forward : runner ST Sc.

(** C5. On every batch of whole blocks [LowConfidence.run] returns after at most
    [block_size] denoising passes and one more, the last of which runs over exactly the
    tokens it returns and writes the caches; every token that is not a mask on entry is
    in the result; and when the model never ranks the mask token first in a row, no mask
    is left. *)
Theorem low_fills_block `{!RunnerShape forward} (kv : ST) (n : nat) (ids : list Z) :
  length ids = n * lc_block_size P ->
  exists r kv', run P forward kv n ids = Ok r /\
    r_passes r <= lc_block_size P + 1 /\ r_kv r = fst (forward kv' (r_ids r) false) /\
    (forall t v, ids !! t = Some v -> v <> lc_mask_id P -> r_ids r !! t = Some v) /\
    (never_predicts_mask P forward -> lc_mask_id P ∉ r_ids r).
Proof.
  intros Hl. destruct (decode_total kv n ids Hl) as (r & Hr & _).
  destruct (low_commits P forward n kv ids r Hl Hr) as (kv' & Hkv & Hp). exists r, kv'.
  split; [done|]. split; [done|]. split; [done|].
  split; [intros t v; by eapply decode_keeps|intros Hnp; by eapply decode_clean].
Qed.

End Properties.

Module Example_.
Export ZOps.

Definition toy_forward : runner nat Z :=
  fun kv ids _ => (S kv, mkOut (map (fun _ => [3; 5; 1]%Z) ids) true).

Definition toy_params : params Z :=
  {| lc_block_size := 4; lc_mask_id := 7%Z; threshold := 9%Z |}.

#[export] Instance toy_shape : RunnerShape toy_forward.
Proof. intros kv ids skip. apply length_map. Qed.

Definition toy_ids : list Z := [4; 7; 7; 7; 2; 6; 7; 7]%Z.

Lemma low_toy_run :
  (fun r => (r_next r, r_ids r, r_passes r)) <$>
    (match run toy_params toy_forward 0 2 toy_ids with Ok r => Some r | Raise _ => None end)
  = Some ([[1; 1; 1]; [1; 1]]%Z, [4; 1; 1; 1; 2; 6; 1; 1]%Z, 4).
Proof. vm_compute. done. Qed.

Lemma low_toy_never : never_predicts_mask toy_params toy_forward.
Proof.
  intros kv ids skip row Hin. simpl in Hin. by apply list_elem_of_fmap in Hin as (x & -> & _).
Qed.

End Example_.
Import Example_.

Lemma low_fills_block_witness :
  exists r kv', run toy_params toy_forward 0 2 toy_ids = Ok r /\
    r_passes r <= 5 /\ r_kv r = fst (toy_forward kv' (r_ids r) false) /\
    (forall t v, toy_ids !! t = Some v -> v <> 7%Z -> r_ids r !! t = Some v) /\
    7%Z ∉ r_ids r.
Proof.
  destruct (low_fills_block toy_params toy_forward 0 2 toy_ids eq_refl) as (r & kv' & H1 & H2 & H3 & H4 & H5).
  exists r, kv'. repeat (split; [assumption|]). exact (H5 low_toy_never).
Defined.

End Low.
