(* ===== verification/SoloDecode.v ===== *)
(** The denoising algorithms on a batch and on one request of it.  [BatchAlgorithm] is
    what an algorithm promises to the model it runs on: it decodes each request of a
    batch as it would alone, every pass it makes is a pass of the model, and the last
    one sees the final tokens.  [LowConfidence.run] and [JointThreshold.run] are
    instances, and so is the algorithm that a configuration selects. *)
From stdpp Require Import base list strings.
From Stdlib Require Import ZArith QArith Lia.
From S2P Require Import Prelude DllmReq Denoise JointThreshold LowConfidence.
Local Open Scope nat_scope.

Module Solo.

Section Interface.
Context {Sc : Type} `{DenoiseOps Sc}.

(** [DllmAlgorithm.run], on any model runner. *)
Definition method : Type := forall ST, runner ST Sc -> ST -> nat -> list Z -> res (decode_result ST Sc).

(** A model that only sees the block of the request. *)
Definition solo_runner (solo : list Z -> list (list Sc)) : runner unit Sc := fun _ ids _ => (tt, mkOut (solo ids) false).

Section Runs.
Context {ST : Type}.
Variables (bs : nat) (forward : runner ST Sc) (n r : nat) (I : ST -> Prop) (solo : list Z -> list (list Sc)).

(** Every pass keeps an invariant of the runner. *)
Record preserves : Prop := {
  pv_pos : 0 < bs;
  pv_shape : RunnerShape forward;
  pv_step : forall s ids skip, I s -> length ids = n * bs -> I (fst (forward s ids skip));
}.

(** Every pass of the batch gives the request the rows it gets alone. *)
Record isolates : Prop := {
  is_keeps : preserves;
  is_in : r < n;
  is_rows : forall b, length (solo b) = length b;
  is_block : forall s ids skip, I s -> length ids = n * bs ->
    blk bs r (full_logits (snd (forward s ids skip))) = solo (blk bs r ids);
}.

End Runs.

Class BatchAlgorithm (bs : nat) (run : method) : Prop := {
  ba_keeps {ST} (forward : runner ST Sc) n (I : ST -> Prop) s ids :
    preserves bs forward n I -> I s -> length ids = n * bs ->
    exists out s1, run ST forward s n ids = Ok out /\ length (r_ids out) = n * bs /\ I s1 /\
      r_kv out = fst (forward s1 (r_ids out) false);
  ba_solo {ST} (forward : runner ST Sc) n r (I : ST -> Prop) solo s ids out :
    isolates bs forward n r I solo -> I s -> length ids = n * bs -> run ST forward s n ids = Ok out ->
    exists ref, run unit (solo_runner solo) tt 1 (blk bs r ids) = Ok ref /\
      r_ids ref = blk bs r (r_ids out) /\ nth r (r_next out) [] = nth 0 (r_next ref) [];
}.

(** What the model left is what a pass over the final tokens left. *)
Lemma ba_invariant bs run `{!BatchAlgorithm bs run} {ST} (forward : runner ST Sc) n (I : ST -> Prop) s ids :
  preserves bs forward n I -> I s -> length ids = n * bs -> exists out, run ST forward s n ids = Ok out /\ I (r_kv out).
Proof.
  intros Hp Hs Hl. destruct (ba_keeps forward n I s ids Hp Hs Hl) as (out & s1 & E & Hl' & Hs1 & Ek).
  exists out. split; [done|]. rewrite Ek. by apply (pv_step _ _ _ _ Hp).
Qed.

Lemma blk_whole {A} bs (b : list A) : length b = bs -> blk bs 0 b = b.
Proof. intros Hb. unfold blk, py_slice. simpl. rewrite drop_0. apply take_ge. lia. Qed.

Lemma blk_clean bs k (mid : Z) ids : mid ∉ ids -> mid ∉ blk bs k ids.
Proof.
  intros Hn Hin. apply Hn. unfold blk, py_slice in Hin. apply elem_of_take in Hin as (i & Hl & _).
  rewrite lookup_drop in Hl. by apply list_elem_of_lookup_2 in Hl.
Qed.

(** [next_token_ids[k]] of a run that denoised. *)
Lemma nth_answer bs m (starts : list nat) (ids : list Z) k : k < m -> length starts = m ->
  nth k (zip_with (fun start row => drop start row) starts (reshape_rows bs m ids)) [] = drop (nth k starts 0) (blk bs k ids).
Proof.
  intros Hk Hs. destruct (lookup_lt_is_Some_2 starts k ltac:(lia)) as [a Ha]. rewrite (nth_lookup_Some _ _ _ _ Ha).
  apply nth_lookup_Some. unfold reshape_rows. by rewrite lookup_zip_with, Ha, list_lookup_fmap, lookup_seq_lt.
Qed.

Lemma solo_shape solo : (forall b, length (solo b) = length b) -> RunnerShape (solo_runner solo).
Proof. intros Hs kv ids skip. apply Hs. Qed.

End Interface.
Arguments method : clear implicits.

(** ** [LowConfidence] *)

Section Confidence.
Import Low.
Context {Sc : Type} `{DenoiseOps Sc}.
Variable P : params Sc.
#[local] Abbreviation bs := (lc_block_size P).
#[local] Abbreviation mid := (lc_mask_id P).

Section Keeps.
Context {ST : Type}.
Variables (forward : runner ST Sc) (n : nat) (I : ST -> Prop).
Hypothesis Hp : preserves bs forward n I.

Lemma low_loop_keeps fuel s ids p : I s -> length ids = n * bs ->
  exists s' ids' p', loop P forward n fuel s ids p = Ok (s', ids', p') /\ I s' /\ length ids' = n * bs.
Proof.
  revert s ids p. induction fuel as [|fuel IH]; intros s ids p Hs Hl; [by exists s, ids, p|]. cbn [loop].
  destruct (count_true _ =? 0); [by exists s, ids, p|].
  pose proof (pv_step _ _ _ _ Hp s ids true Hs Hl) as Hs'. pose proof (pv_shape _ _ _ _ Hp s ids true) as Hll.
  destruct (forward s ids true) as [s1 out]. cbn [fst snd] in *. pose proof (pv_pos _ _ _ _ Hp) as Hbs.
  rewrite (proj2 (Nat.eqb_eq n (length ids / bs))) by (rewrite Hl, Nat.div_mul by lia; done). cbn [passert].
  apply IH; [done|]. rewrite (proj1 (fill_prefix P n (full_logits out) ids n Hl Hll (le_n n))). done.
Qed.

Lemma low_run_keeps s ids : I s -> length ids = n * bs ->
  exists out s1, run P forward s n ids = Ok out /\ length (r_ids out) = n * bs /\ I s1 /\ r_kv out = fst (forward s1 (r_ids out) false).
Proof.
  intros Hs Hl. unfold run. destruct (count_true _ =? 0).
  - destruct (forward s ids false) as [s1 out] eqn:E. eexists _, s. split; [done|]. cbn. by rewrite E.
  - destruct (low_loop_keeps bs s ids 0 Hs Hl) as (s1 & ids' & p & -> & Hs1 & Hl'). cbn [rbind].
    destruct (forward s1 ids' false) as [s2 out] eqn:E. eexists _, s1. split; [done|]. cbn. by rewrite E.
Qed.

End Keeps.

Section Alone.
Context {ST : Type}.
Variables (forward : runner ST Sc) (n r : nat) (I : ST -> Prop) (solo : list Z -> list (list Sc)).
Hypothesis Hi : isolates bs forward n r I solo.

Lemma solo_fill b : length b = bs -> fill_all P 1 (solo b) b = block_fill P b (solo b).
Proof.
  intros Hb. pose proof (is_rows _ _ _ _ _ _ Hi b) as Hr. rewrite <- (blk_whole bs (fill_all P 1 (solo b) b)).
  - rewrite (fill_all_blk P 1) by lia. by rewrite !blk_whole by lia.
  - rewrite (proj1 (fill_prefix P 1 (solo b) b 1 ltac:(lia) ltac:(lia) ltac:(lia))). done.
Qed.

Lemma solo_stops fuel b q : (count_true (mask_of mid b) =? 0) = true -> loop P (solo_runner solo) 1 fuel tt b q = Ok (tt, b, q).
Proof. intros E. destruct fuel; simpl; [done|]. by rewrite E. Qed.

Lemma low_block_clean ids : (count_true (mask_of mid ids) =? 0) = true -> (count_true (mask_of mid (blk bs r ids)) =? 0) = true.
Proof. rewrite !no_mask. apply blk_clean. Qed.

(** The loop on the batch is the loop on the block. *)
Lemma loop_solo fuel s ids p q s' ids' p' : I s -> length ids = n * bs -> loop P forward n fuel s ids p = Ok (s', ids', p') ->
  length ids' = n * bs /\ exists q', loop P (solo_runner solo) 1 fuel tt (blk bs r ids) q = Ok (tt, blk bs r ids', q').
Proof.
  revert s ids p q. induction fuel as [|fuel IH]; intros s ids p q Hs Hl; [intros [= <- <- <-]; eauto|]. cbn [loop].
  destruct (count_true (mask_of mid ids) =? 0) eqn:Ec.
  { intros [= <- <- <-]. rewrite (low_block_clean ids Ec). eauto. }
  pose proof (is_keeps _ _ _ _ _ _ Hi) as Hp. pose proof (pv_step _ _ _ _ Hp s ids true Hs Hl) as Hs'.
  pose proof (pv_shape _ _ _ _ Hp s ids true) as Hll. pose proof (is_block _ _ _ _ _ _ Hi s ids true Hs Hl) as Hb.
  destruct (forward s ids true) as [s1 out]. cbn [fst snd] in *. pose proof (pv_pos _ _ _ _ Hp) as Hbs.
  rewrite (proj2 (Nat.eqb_eq n (length ids / bs))) by (rewrite Hl, Nat.div_mul by lia; done). cbn [passert]. intros E.
  destruct (fill_prefix P n (full_logits out) ids n Hl Hll (le_n n)) as [Hfl _]. pose proof (is_in _ _ _ _ _ _ Hi) as Hr.
  destruct (IH s1 (fill_all P n (full_logits out) ids) (S p) (S q) Hs' ltac:(lia) E) as (Hl' & q' & E2).
  assert (Hbl : length (blk bs r ids) = bs) by (by apply (length_blk bs n)).
  split; [done|]. rewrite (fill_all_blk P n) in E2 by done. rewrite Hb in E2.
  destruct (count_true (mask_of mid (blk bs r ids)) =? 0) eqn:Eb.
  - assert (Ef : block_fill P (blk bs r ids) (solo (blk bs r ids)) = blk bs r ids) by (unfold block_fill; by rewrite Eb).
    rewrite Ef, solo_stops in E2 by done. injection E2 as E3 _. exists q. by rewrite <- E3.
  - exists q'. cbn [solo_runner]. rewrite Hbl, Nat.div_same by lia. cbn [Nat.eqb passert full_logits]. by rewrite solo_fill.
Qed.

Lemma low_run_solo s ids out : I s -> length ids = n * bs -> run P forward s n ids = Ok out ->
  exists ref, run P (solo_runner solo) tt 1 (blk bs r ids) = Ok ref /\
    r_ids ref = blk bs r (r_ids out) /\ nth r (r_next out) [] = nth 0 (r_next ref) [].
Proof.
  intros Hs Hl. pose proof (is_in _ _ _ _ _ _ Hi) as Hr. assert (Hbl : length (blk bs r ids) = bs) by (by apply (length_blk bs n)).
  unfold run. destruct (count_true (mask_of mid ids) =? 0) eqn:Ec.
  { rewrite (low_block_clean ids Ec). destruct (forward s ids false) as [s1 fo]. intros [= <-].
    eexists. split; [reflexivity|]. cbn. split; [done|]. by destruct r. }
  destruct (loop P forward n bs s ids 0) as [[[s1 ids'] p]|] eqn:El; [|done]. cbn [rbind].
  destruct (loop_solo bs s ids 0 0 s1 ids' p Hs Hl El) as (Hl' & q & E2).
  destruct (forward s1 ids' false) as [s2 fo]. intros [= <-]. cbn [r_ids r_next].
  rewrite nth_answer by (rewrite ?length_map, ?length_seq; done). rewrite (nth_lookup_Some _ r _ (start_of P ids r))
    by (by rewrite list_lookup_fmap, lookup_seq_lt).
  destruct (count_true (mask_of mid (blk bs r ids)) =? 0) eqn:Eb.
  - rewrite solo_stops in E2 by done. injection E2 as E2 _.
    eexists. split; [reflexivity|]. cbn. rewrite E2. split; [done|]. unfold start_of. apply Nat.eqb_eq in Eb. rewrite Eb. apply drop_ge.
    rewrite (length_blk bs n) by done. lia.
  - rewrite E2. cbn [rbind solo_runner]. eexists. split; [reflexivity|]. cbn [r_ids r_next]. split; [done|].
    rewrite nth_answer by (rewrite ?length_map, ?length_seq; lia). cbn [seq map nth]. unfold start_of.
    rewrite (blk_whole bs (blk bs r ids)), (blk_whole bs (blk bs r ids')) by (by apply (length_blk bs n)). done.
Qed.

End Alone.

#[export] Instance low_batch : BatchAlgorithm bs (fun ST => run P (ST := ST)).
Proof. split; intros; [by eapply low_run_keeps|by eapply low_run_solo]. Qed.

End Confidence.

(** ** [JointThreshold] *)

Section Threshold.
Import Joint.
Context {Sc : Type} `{DenoiseOps Sc} `{!DenoiseLaws Sc}.
Variable P : params Sc.
#[local] Abbreviation bs := (jt_block_size P).
#[local] Abbreviation mid := (jt_mask_id P).

Section Keeps.
Context {ST : Type}.
Variables (forward : runner ST Sc) (n : nat) (I : ST -> Prop) (ids0 : list Z).
Hypothesis Hp : preserves bs forward n I.
Hypothesis Hl : length ids0 = n * bs.
#[local] Abbreviation pms := (prompt_masks_of P n ids0).

(** The model holds the invariant; [last] is a pass over the current tokens. *)
Definition last (s : loop_state Sc ST) : Prop := exists kv, I kv /\ ls_kv s = fst (forward kv (ls_ids s) false).

Lemma pass_last s : shape P n s -> I (ls_kv s) ->
  let s' := pass P forward n pms s in shape P n s' /\ I (ls_kv s') /\ (ls_changed s' = false -> last s').
Proof.
  intros Hs HI. destruct (pass_view P forward n (pv_shape _ _ _ _ Hp) pms (pms_length P n ids0 Hl) s Hs) as ([Hs' _ _] & Ek & _ & Hc & _).
  split; [done|]. rewrite Ek. split; [apply (pv_step _ _ _ _ Hp); [done|apply Hs]|].
  intros E. exists (ls_kv s). by rewrite Ek, (Hc E).
Qed.

Lemma iterate_last fuel s : shape P n s -> I (ls_kv s) ->
  (0 < fuel /\ forallb id (ls_finished s) = false) \/ (ls_changed s = false -> last s) ->
  let s' := iterate P forward n pms fuel s in shape P n s' /\ I (ls_kv s') /\ (ls_changed s' = false -> last s').
Proof.
  revert s. induction fuel as [|fuel IH]; intros s Hs HI Ho; cbn [iterate].
  - destruct Ho as [[? _]|Ho]; [lia|done].
  - destruct (forallb _ _) eqn:E.
    + destruct Ho as [[_ ?]|Ho]; [done|done].
    + destruct (pass_last s Hs HI) as (Hs' & HI' & Hc). apply IH; [done|done|by right].
Qed.

Lemma denoise_last s : 0 < n * bs -> I s ->
  length (ls_ids (denoise P forward s n ids0)) = n * bs /\ last (denoise P forward s n ids0).
Proof.
  intros Hn HI. pose proof (pv_shape _ _ _ _ Hp) as Hsh.
  destruct (iterate_last (bs + max_post_edit_steps P) (initial s n ids0)) as (Hs' & HI' & Hc).
  - by apply initial_shape.
  - done.
  - left. split; [nia|]. destruct n; [lia|done].
  - unfold denoise. destruct (ls_changed _) eqn:E; [|split; [apply Hs'|by apply Hc]].
    destruct (forward _ _ false) as [kv out] eqn:Ef. split; [apply Hs'|]. eexists. split; [exact HI'|]. cbn. by rewrite Ef.
Qed.

Lemma joint_run_keeps s : I s -> exists out s1, run P forward s n ids0 = Ok out /\ length (r_ids out) = n * bs /\ I s1 /\
  r_kv out = fst (forward s1 (r_ids out) false).
Proof.
  intros HI. destruct (run_total P forward n (pv_shape _ _ _ _ Hp) s ids0 Hl) as (out & E & Hlen).
  exists out. destruct (run_cases P forward n (pv_shape _ _ _ _ Hp) s ids0 Hl out E) as [[_ ->]|(_ & Hn & Ei & Ek & _)].
  - by exists s.
  - destruct (denoise_last s Hn HI) as (Hl' & s1 & HI1 & E1). exists s1. rewrite Ei, Ek. done.
Qed.

End Keeps.

Section Alone.
Context {ST : Type}.
Variables (forward : runner ST Sc) (n r : nat) (I : ST -> Prop) (solo : list Z -> list (list Sc)) (ids0 : list Z).
Hypothesis Hi : isolates bs forward n r I solo.
Hypothesis Hl : length ids0 = n * bs.
#[local] Abbreviation pms := (prompt_masks_of P n ids0).
#[local] Abbreviation qms := (prompt_masks_of P 1 (blk bs r ids0)).
#[local] Abbreviation alone := (solo_runner solo).

(** The loop on the batch and the loop on the block, in step. *)
Record alike (s : loop_state Sc ST) (q : loop_state Sc unit) : Prop := {
  al_batch : shape P n s;
  al_solo : shape P 1 q;
  al_inv : I (ls_kv s);
  al_ids : blk bs 0 (ls_ids q) = blk bs r (ls_ids s);
  al_post : nth 0 (ls_post q) 0 = nth r (ls_post s) 0;
  al_fin : nth 0 (ls_finished q) false = nth r (ls_finished s) false;
}.

Lemma block_length : length (blk bs r ids0) = 1 * bs.
Proof. rewrite (length_blk bs n); [lia|done|apply Hi]. Qed.

Lemma same_prompt : nth 0 qms [] = nth r pms [].
Proof. 
  rewrite (pms_nth P n) by apply Hi. rewrite (pms_nth P 1) by lia. rewrite (blk_whole bs (blk bs r ids0)); [done|]. rewrite block_length. lia.
Qed.

Lemma solo_finished (q : loop_state Sc unit) : shape P 1 q -> forallb id (ls_finished q) = nth 0 (ls_finished q) false.
Proof. clear. intros [_ _ Hf]. destruct (ls_finished q) as [|b [|]]; try done. simpl. apply andb_true_r. Qed.

Lemma view_alike s q : alike s q -> view P 0 (after_forward alone q) = view P r (after_forward forward s).
Proof.
  intros [[Hb _ _] [Hq _ _] HI Ei Ep Ef]. pose proof (is_block _ _ _ _ _ _ Hi (ls_kv s) (ls_ids s) false HI Hb) as Hrow.
  unfold view, after_forward. destruct (forward (ls_kv s) (ls_ids s) false) as [kv out].
  cbn [solo_runner ls_ids ls_post ls_finished rows_of ls_out full_logits snd] in *. rewrite Ep, Ef, Ei, Hrow. f_equal.
  rewrite <- Ei, (blk_whole bs (ls_ids q)) by lia. apply blk_whole. rewrite (is_rows _ _ _ _ _ _ Hi). lia.
Qed.

Lemma views_alike s q : view P 0 q = view P r s -> shape P n s -> shape P 1 q -> I (ls_kv s) -> alike s q.
Proof. intros [= E1 E2 E3 E4] Hs Hq HI. by split. Qed.

Lemma pass_alike s q : alike s q -> alike (pass P forward n pms s) (pass P alone 1 qms q).
Proof.
  intros Ha. pose proof (is_keeps _ _ _ _ _ _ Hi) as Hp. pose proof (solo_shape _ (is_rows _ _ _ _ _ _ Hi)) as Hsh.
  destruct (pass_view P forward n (pv_shape _ _ _ _ Hp) pms (pms_length P n ids0 Hl) s (al_batch _ _ Ha)) as ([Hs' _ _] & Ek & _ & _ & Hv).
  destruct (pass_view P alone 1 Hsh qms (pms_length P 1 _ block_length) q (al_solo _ _ Ha)) as ([Hq' _ _] & _ & _ & _ & Hw).
  apply views_alike; [|done|done|].
  - rewrite Hv by apply Hi. rewrite Hw by lia. by rewrite same_prompt, (view_alike s q).
  - rewrite Ek. apply (pv_step _ _ _ _ Hp); apply Ha.
Qed.

(** A finished request is left alone. *)
Lemma pass_idle s q : alike s q -> nth r (ls_finished s) false = true -> alike (pass P forward n pms s) q.
Proof.
  intros Ha Hf. pose proof (is_keeps _ _ _ _ _ _ Hi) as Hp. pose proof (is_in _ _ _ _ _ _ Hi) as Hr.
  destruct (pass_view P forward n (pv_shape _ _ _ _ Hp) pms (pms_length P n ids0 Hl) s (al_batch _ _ Ha)) as ([Hs' _ _] & Ek & _ & _ & Hv).
  specialize (Hv r Hr). destruct (view_after P forward n (pv_shape _ _ _ _ Hp) ids0 Hl s r (al_batch _ _ Ha) Hr) as (Vi & Vf & _).
  assert (Vp : v_post (view P r (after_forward forward s)) = nth r (ls_post s) 0)
    by (unfold after_forward; by destruct (forward _ _ _)).
  unfold vstep in Hv. rewrite Vf, Hf in Hv. destruct Ha as [A1 A2 A3 A4 A5 A6].
  rewrite <- Hv in Vi, Vf, Vp. cbn in Vi, Vf, Vp. split; try done; [|congruence..].
  rewrite Ek. apply (pv_step _ _ _ _ Hp); [done|apply A1].
Qed.

Lemma iterate_alike fuel s q : alike s q -> alike (iterate P forward n pms fuel s) (iterate P alone 1 qms fuel q).
Proof.
  revert s q. induction fuel as [|fuel IH]; intros s q Ha; [done|]. cbn [iterate]. rewrite (solo_finished q), (al_fin _ _ Ha) by apply Ha.
  destruct (forallb id (ls_finished s)) eqn:E.
  - rewrite forallb_forall in E. specialize (E (nth r (ls_finished s) false)). cbn in E. rewrite E; [done|]. apply nth_In. rewrite (sh_fin _ _ _ (al_batch _ _ Ha)). apply Hi.
  - destruct (nth r (ls_finished s) false) eqn:Ef; [|by apply IH, pass_alike].
    specialize (IH _ q (pass_idle s q Ha Ef)). destruct fuel; [done|]. cbn [iterate] in IH |- *.
    by rewrite (solo_finished q), (al_fin _ _ Ha), Ef in IH by apply Ha.
Qed.

Lemma denoise_alike s : I s ->
  blk bs 0 (ls_ids (denoise P alone tt 1 (blk bs r ids0))) = blk bs r (ls_ids (denoise P forward s n ids0)).
Proof.
  intros HI. rewrite !denoise_ids. apply iterate_alike. pose proof (is_in _ _ _ _ _ _ Hi) as Hr. split; try done.
  - by apply initial_shape.
  - apply initial_shape, block_length.
  - apply blk_whole. cbn. rewrite block_length. lia.
  - cbn. symmetry. by apply nth_lookup_Some, lookup_replicate_2.
  - cbn. symmetry. by apply nth_lookup_Some, lookup_replicate_2.
Qed.

(** A block without a mask is not edited: all of it is prompt. *)
Lemma clean_kept s : mid ∉ blk bs r ids0 -> blk bs r (ls_ids (denoise P forward s n ids0)) = blk bs r ids0.
Proof.
  intros Hn. pose proof (is_keeps _ _ _ _ _ _ Hi) as Hp. pose proof (is_in _ _ _ _ _ _ Hi) as Hr.
  destruct (denoise_good P forward n (pv_shape _ _ _ _ Hp) s ids0 Hl) as [[Hlen _ _] Hk]. specialize (Hk r Hr) as [Hkl Hk].
  apply list_eq_same_length with (n := bs); [by apply (length_blk bs n)|by apply (length_blk bs n)|].
  intros t x y Ht Hx Hy. rewrite (Hk t y Hy) in Hx by (intros ->; apply Hn; by eapply list_elem_of_lookup_2). by injection Hx.
Qed.

Lemma joint_run_solo s out : I s -> run P forward s n ids0 = Ok out ->
  exists ref, run P alone tt 1 (blk bs r ids0) = Ok ref /\
    r_ids ref = blk bs r (r_ids out) /\ nth r (r_next out) [] = nth 0 (r_next ref) [].
Proof.
  intros HI E. pose proof (is_keeps _ _ _ _ _ _ Hi) as Hp. pose proof (is_in _ _ _ _ _ _ Hi) as Hr.
  pose proof (solo_shape _ (is_rows _ _ _ _ _ _ Hi)) as Hsh. pose proof block_length as Hbl.
  destruct (run_cases P forward n (pv_shape _ _ _ _ Hp) s ids0 Hl out E) as [[Hn ->]|(Hin & Hpos & Ei & _ & _ & En)].
  { eexists. split; [apply run_clear; by apply blk_clean|]. cbn. split; [done|]. by destruct r. }
  rewrite Ei, En, nth_answer by (rewrite ?length_map; unfold prompt_masks_of; rewrite ?length_map, ?length_seq; done).
  rewrite (nth_lookup_Some _ r _ (count_true (map negb (mask_of mid (blk bs r ids0)))))
    by (unfold prompt_masks_of; by rewrite !list_lookup_fmap, lookup_seq_lt).
  destruct (decide (mid ∈ blk bs r ids0)) as [Hm|Hm].
  - destruct (run_masked P alone 1 Hsh tt (blk bs r ids0) Hbl Hm) as (fo & _ & ->). eexists. split; [reflexivity|]. cbn [r_ids r_next].
    pose proof (denoise_alike s HI) as Hd. destruct (denoise_good P alone 1 Hsh tt (blk bs r ids0) Hbl) as [[Hq _ _] _].
    rewrite <- Hd. split; [symmetry; apply blk_whole; lia|].
    rewrite nth_answer by (rewrite ?length_map; unfold prompt_masks_of; rewrite ?length_map, ?length_seq; lia).
    unfold prompt_masks_of. cbn [seq map nth]. by rewrite (blk_whole bs (blk bs r ids0)) by lia.
  - eexists. split; [by apply run_clear|]. cbn [r_ids r_next]. rewrite clean_kept by done. split; [done|]. cbn. apply drop_ge.
    pose proof (count_prompt mid (blk bs r ids0) 0 Hm) as Hc. rewrite app_nil_r in Hc. by rewrite Hc.
Qed.

End Alone.

#[export] Instance joint_batch : BatchAlgorithm bs (fun ST => run P (ST := ST)).
Proof. split; intros; [by eapply joint_run_keeps|by eapply joint_run_solo]. Qed.

End Threshold.

(** ** The algorithm of a configuration *)

Section Configured.
Import Config.
Context {Sc : Type} `{DenoiseOps Sc}.

(** [DllmAlgorithm.from_server_args(...).run]: the class that the configuration names,
    constructed from it. *)
Definition run_configured (config : DllmConfig Sc) : method Sc := fun ST forward kv batch_size ids =>
  (let! cls := get_algorithm config in
   match cls with
   | JointThresholdCls => Joint.run (Joint.init config) forward kv batch_size ids
   | LowConfidenceCls => Low.run (Low.init config) forward kv batch_size ids
   end)%py.

Lemma configured_batch `{!DenoiseLaws Sc} config cls : get_algorithm config = Ok cls ->
  BatchAlgorithm (block_size config) (run_configured config).
Proof.
  intros E. destruct cls; [pose proof (joint_batch (Joint.init config)) as [K S]|pose proof (low_batch (Low.init config)) as [K S]];
    (split; unfold run_configured; rewrite E; [exact K|exact S]).
Qed.

End Configured.

End Solo.
