(* ===== verification/Sampling.v ===== *)
(** Token sampling of the Hugging Face model
    ([src/llada_hybrid/modeling_llada2_moe.py]: [_top_k_logits],
    [_top_p_logits], [_sample_with_temperature_topk_topp]).

    The tensor library's selection, sorting and random sampling are operations
    of [SampleOps], with what their documentation promises in [SampleLaws]; the
    random generator is a state that is passed along.  Logits are scalars of any
    type; rows are lists over the vocabulary. *)
From stdpp Require Import base list sorting.
From Stdlib Require Import ZArith QArith Lia.
From S2P Require Import Prelude Denoise.
Local Open Scope nat_scope.

(** [t_topk k c]: indices [torch.topk(c, k)] returns, in its order. *)
Class TopkOps (Sc : Type) : Type := t_topk : nat -> list (option Sc) -> list nat.

(** [t_sort_desc]: indices of [torch.sort(_, descending=True)].
    [t_accepts]: the check of [torch.multinomial] on a row, no infinite, NaN or negative
    entry and a positive sum.  [t_multinomial]: what it draws from a batch of rows that
    pass, with [num_samples=1]. *)
Class SampleOps (Sc RS : Type) : Type := {
  sc_mul : Sc -> Sc -> Sc;
  sc_div : Sc -> Sc -> Sc;
  sc_ninf : Sc;
  t_sort_desc : list Sc -> list nat;
  t_accepts : list Sc -> bool;
  t_multinomial : RS -> list (list Sc) -> RS * list nat;
}.

(** The indices [idx] hold [k] largest entries of [c], best first. *)
Record is_topk {Sc : Type} `{DenoiseOps Sc} (k : nat) (c : list (option Sc)) (idx : list nat)
    : Prop := {
  topk_length : length idx = k;
  topk_nodup : NoDup idx;
  topk_range : forall i, i ∈ idx -> i < length c;
  topk_largest : forall i j u v, i ∈ idx -> j ∉ idx ->
    c !! i = Some u -> c !! j = Some v -> conf_leb v u = true;
  topk_sorted : forall a b i j u v, a <= b -> idx !! a = Some i -> idx !! b = Some j ->
    c !! i = Some u -> c !! j = Some v -> conf_leb v u = true;
}.

Class TopkLaws (Sc : Type) `{DenoiseOps Sc} `{TopkOps Sc} : Prop :=
  topk_spec : forall k (c : list (option Sc)), k <= length c -> is_topk k c (t_topk k c).

Class SampleLaws (Sc RS : Type) `{DenoiseOps Sc} `{SampleOps Sc RS} : Prop := {
  sort_perm : forall l : list Sc, t_sort_desc l ≡ₚ seq 0 (length l);
  argmax_range : forall l : list Sc, l <> [] -> t_argmax l < length l;
  softmax_length : forall l : list Sc, length (t_softmax l) = length l;
  multinomial_length : forall rs rows, length (snd (t_multinomial rs rows)) = length rows;
  multinomial_range : forall rs (rows : list (list Sc)) i row t,
    rows !! i = Some row -> row <> [] -> snd (t_multinomial rs rows) !! i = Some t ->
    t < length row;
}.

(** ** Positions of a mask *)

(** [zeros; m[idx] = True]. *)
Definition index_mask (n : nat) (idx : list nat) : list bool :=
  foldl (fun m i => <[i := true]> m) (replicate n false) idx.


(** The positions where the list holds, counted from [a]. *)
Fixpoint positions_from (a : nat) (l : list bool) : list nat :=
  match l with
  | [] => []
  | b :: l => if b then a :: positions_from (S a) l else positions_from (S a) l
  end.

Definition positions : list bool -> list nat := positions_from 0.

Lemma elem_of_positions_from a l i :
  i ∈ positions_from a l <-> a <= i /\ l !! (i - a) = Some true.
Proof.
  revert a. induction l as [|b l IH]; intros a; simpl.
  - split; [by intros ?%not_elem_of_nil|by intros []].
  - assert (E : (i ∈ (if b then a :: positions_from (S a) l else positions_from (S a) l)) <->
                (i = a /\ b = true) \/ (S a <= i /\ l !! (i - S a) = Some true)).
    { destruct b; rewrite ?elem_of_cons, IH; naive_solver. }
    rewrite E. destruct (decide (a < i)).
    + replace (i - a) with (S (i - S a)) by lia. simpl. split; [intros [[? ?]|[? ?]]|intros [? ?]]; (lia || auto with lia).
    + split; [intros [[-> ->]|[? ?]]; [|lia]|intros [? Hb]]; [by rewrite Nat.sub_diag|].
      left. replace i with a in * by lia. rewrite Nat.sub_diag in Hb. by simplify_eq/=.
Qed.

Lemma positions_length l : length (positions l) = count_true l.
Proof.
  unfold positions. generalize 0 as a. induction l as [|[] l IH]; intros a; simpl; [done| |]; by rewrite IH.
Qed.

Lemma elem_of_positions l i : i ∈ positions l <-> l !! i = Some true.
Proof. unfold positions. rewrite elem_of_positions_from, Nat.sub_0_r. split; [by intros []|]. intros; split; [lia|done]. Qed.

Lemma positions_nodup l : NoDup (positions l).
Proof.
  unfold positions. generalize 0 as a. induction l as [|[] l IH]; intros a; simpl; [constructor| |done].
  constructor; [|done]. rewrite elem_of_positions_from. lia.
Qed.

Lemma count_true_pos (l : list bool) : 0 < count_true l <-> exists k, l !! k = Some true.
Proof.
  rewrite <- positions_length. split.
  - destruct (positions l) as [|i p] eqn:E; simpl; [lia|]. intros _. exists i.
    apply elem_of_positions. rewrite E. by left.
  - intros [k Hk%elem_of_positions]. destruct (positions l); [by apply not_elem_of_nil in Hk|simpl; lia].
Qed.

(** [zeros; m[idx] = True] holds exactly at the indices. *)
Lemma index_mask_length n idx : length (index_mask n idx) = n.
Proof.
  unfold index_mask. rewrite <- (length_replicate n false) at 2. generalize (replicate n false).
  induction idx as [|i idx IH]; intros m; simpl; [done|]. by rewrite IH, length_insert.
Qed.

Lemma index_mask_true n idx i : index_mask n idx !! i = Some true <-> i ∈ idx /\ i < n.
Proof.
  unfold index_mask. assert (G : forall m, foldl (fun m i => <[i := true]> m) m idx !! i = Some true
      <-> (i ∈ idx /\ i < length m) \/ m !! i = Some true).
  { induction idx as [|j idx IH]; intros m; simpl.
    - split; [by right|]. intros [[[]%not_elem_of_nil _]|]; done.
    - rewrite IH, length_insert, elem_of_cons. destruct (decide (i = j)) as [->|Hne].
      + destruct (decide (j < length m)).
        * rewrite list_lookup_insert_eq by done. naive_solver.
        * rewrite list_insert_ge by lia. naive_solver lia.
      + rewrite list_lookup_insert_ne by done. naive_solver. }
  rewrite G, length_replicate. split; [|by left].
  intros [?|[? _]%lookup_replicate]; [done|congruence].
Qed.

Lemma lookup_and_true (a b : list bool) k :
  zip_with andb a b !! k = Some true -> a !! k = Some true /\ b !! k = Some true.
Proof.
  rewrite lookup_zip_with. destruct (a !! k) as [[]|], (b !! k) as [[]|]; simpl; by intros ?; simplify_eq.
Qed.

Lemma lookup_negb_true (a : list bool) k : map negb a !! k = Some true -> a !! k = Some false.
Proof. rewrite list_lookup_fmap. by destruct (a !! k) as [[]|]. Qed.

(** As many entries as distinct indices. *)
Lemma index_mask_count n idx : NoDup idx -> Forall (fun i => i < n) idx ->
  count_true (index_mask n idx) = length idx.
Proof.
  intros Hn Hr. rewrite <- positions_length. apply Permutation_length, NoDup_Permutation;
    [apply positions_nodup|done|]. intros i. rewrite elem_of_positions, index_mask_true.
  rewrite Forall_forall in Hr. naive_solver.
Qed.

(** The entries that are not minus infinity. *)
Definition finite {Sc} (c : list (option Sc)) : list bool :=
  map (fun o => match o with Some _ => true | None => false end) c.

(** The largest entries are finite, when there are enough of those. *)
Lemma topk_finite {Sc} `{DenoiseOps Sc} k (c : list (option Sc)) idx i :
  is_topk k c idx -> k <= count_true (finite c) -> i ∈ idx -> exists v, c !! i = Some (Some v).
Proof.
  intros [TL TN TR TG _] Hk Hi.
  pose proof (TR i Hi) as Hlt. destruct (lookup_lt_is_Some_2 _ _ Hlt) as [[v|] Hv]; [eauto|].
  assert (Hfin : forall j, finite c !! j = Some true -> exists w, c !! j = Some (Some w)).
  { intros j. unfold finite. rewrite list_lookup_fmap. destruct (c !! j) as [[w|]|]; simpl; by eauto. }
  assert (Hall : positions (finite c) ⊆ idx).
  { intros j Hj%elem_of_positions. destruct (Hfin j Hj) as [w Hw].
    destruct (decide (j ∈ idx)) as [|Hn]; [done|]. by pose proof (TG i j _ _ Hi Hn Hv Hw). }
  assert (Hni : i ∉ positions (finite c)).
  { intros Hp%elem_of_positions. destruct (Hfin i Hp) as [w Hw]. congruence. }
  assert (Hsub : i :: positions (finite c) ⊆+ idx).
  { apply NoDup_submseteq; [constructor; [done|apply positions_nodup]|].
    intros j [->|Hj]%elem_of_cons; [done|by apply Hall]. }
  apply submseteq_length in Hsub. simpl in Hsub. rewrite positions_length in Hsub. lia.
Qed.

Module Sampler.

Section Model.
Context {Sc RS : Type} `{DenoiseOps Sc} `{!TopkOps Sc} `{!SampleOps Sc RS}.

Definition zero : Sc := sc_of_Q 0.

(** [_top_k_logits] of one row: entries below the [k]-th largest become minus
    infinity; [torch.topk] raises when the row is shorter than [k]. *)
Definition _top_k_logits (k : option Z) (row : list Sc) : res (list Sc) :=
  match k with
  | None => Ok row
  | Some k =>
    if (k <=? 0)%Z then Ok row
    else if length row <? Z.to_nat k then Raise RuntimeError
    else
      let values := map (fun i => nth i row zero) (t_topk (Z.to_nat k) (map Some row)) in
      let min_value := List.last values zero in
      Ok (map (fun v => if sc_gtb min_value v then sc_ninf else v) row)
  end.

(** [torch.cumsum]. *)
Fixpoint cumsum (acc : Sc) (l : list Sc) : list Sc :=
  match l with
  | [] => []
  | v :: l => let acc := sc_add acc v in acc :: cumsum acc l
  end.

(** [scatter(full_like(_, False), -1, idx, m)]. *)
Definition scatter_mask (n : nat) (idx : list nat) (m : list bool) : list bool :=
  foldl (fun acc (im : nat * bool) => <[fst im := snd im]> acc) (replicate n false) (zip idx m).

(** [_top_p_logits] of one row: the mask is shifted by one, so that the first
    entry that exceeds [p] is kept. *)
Definition _top_p_logits (p : option Q) (row : list Sc) : list Sc :=
  match p with
  | None => row
  | Some p =>
    if Qle_bool 1 p then row
    else
      let sorted_indices := t_sort_desc row in
      let sorted_logits := map (fun i => nth i row zero) sorted_indices in
      let cumulative_probs := cumsum zero (t_softmax sorted_logits) in
      let sorted_mask := map (fun c => sc_gtb c (sc_of_Q p)) cumulative_probs in
      let sorted_mask := match sorted_mask with [] => [] | _ => false :: removelast sorted_mask end in
      let mask_indices := scatter_mask (length row) sorted_indices sorted_mask in
      zip_with (fun (m : bool) v => if m then sc_ninf else v) mask_indices row
  end.

(** Map of a function that may raise. *)
Fixpoint rmap {A B} (f : A -> res B) (l : list A) : res (list B) :=
  match l with
  | [] => Ok []
  | a :: l => (let! b := f a in let! bs := rmap f l in Ok (b :: bs))%py
  end.

(** [torch.multinomial]: raises unless every row passes its check. *)
Definition multinomial (rs : RS) (probs : list (list Sc)) : res (RS * list nat) :=
  if forallb t_accepts probs then Ok (t_multinomial rs probs) else Raise RuntimeError.

(** [_sample_with_temperature_topk_topp] on the rows of [logits.reshape(-1, V)]:
    a token and its probability for every row. *)
Definition _sample_with_temperature_topk_topp (rs : RS) (logits : list (list Sc))
    (temperature : Q) (top_k : option Z) (top_p : option Q) : res (RS * list (Z * Sc)) :=
  if Qeq_bool temperature 0 then Ok (rs, zip (row_tokens logits) (row_probs logits))
  else
    let logits :=
      if negb (Qle_bool temperature 0) && negb (Qeq_bool temperature 1)
      then map (map (fun v => sc_div v (sc_of_Q temperature))) logits
      else logits in
    (let! logits := rmap (_top_k_logits top_k) logits in
     let logits := map (_top_p_logits top_p) logits in
     let probs := map t_softmax logits in
     let! '(rs, token) := multinomial rs probs in
     Ok (rs, zip_with (fun t row => (Z.of_nat t, nth t row zero)) token probs))%py.

End Model.

(** ** Shape and range of what is sampled *)

Section Facts.
Context {Sc RS : Type} `{DenoiseOps Sc} `{!TopkOps Sc} `{!SampleOps Sc RS} `{!TopkLaws Sc} `{!SampleLaws Sc RS}.
Implicit Types (rows logits : list (list Sc)) (row : list Sc).

Lemma rmap_Ok {A B} (f : A -> res B) l l' :
  rmap f l = Ok l' <-> Forall2 (fun a b => f a = Ok b) l l'.
Proof.
  revert l'. induction l as [|a l IH]; intros l'; simpl.
  - split; [intros [= <-]; constructor|by intros ->%Forall2_nil_inv_l].
  - split.
    + destruct (f a) eqn:Ea; simpl; [|done]. destruct (rmap f l) eqn:El; simpl; [|done].
      intros [= <-]. constructor; [done|]. by apply IH.
    + intros (b & bs & Hb & Hbs & ->)%Forall2_cons_inv_l. rewrite Hb. simpl.
      apply IH in Hbs. by rewrite Hbs.
Qed.

Lemma top_k_length k row row' : _top_k_logits k row = Ok row' -> length row' = length row.
Proof.
  unfold _top_k_logits. destruct k as [k|]; [|by intros [= ->]].
  destruct (k <=? 0)%Z; [by intros [= ->]|]. destruct (_ <? _); [done|].
  intros [= <-]. apply length_map.
Qed.

Lemma scatter_length n idx m : length (scatter_mask n idx m) = n.
Proof.
  unfold scatter_mask. rewrite <- (length_replicate n false) at 2.
  generalize (replicate n false). induction (zip idx m) as [|im l IH]; intros acc; simpl; [done|].
  by rewrite IH, length_insert.
Qed.

Lemma top_p_length p row : length (_top_p_logits p row) = length row.
Proof.
  unfold _top_p_logits. destruct p as [p|]; [|done]. destruct (Qle_bool 1 p); [done|].
  by rewrite length_zip_with, scatter_length, Nat.min_id.
Qed.

(** [torch.topk] raises on a row shorter than [k]. *)
Definition top_k_fits (temperature : Q) (top_k : option Z) (V : nat) : bool :=
  Qeq_bool temperature 0 ||
  match top_k with Some k => ((k <=? 0) || (k <=? Z.of_nat V))%Z | None => true end.

Lemma top_k_total V temperature k row :
  Qeq_bool temperature 0 = false -> top_k_fits temperature k V = true -> length row = V ->
  exists row', _top_k_logits k row = Ok row'.
Proof.
  intros Ht Hf Hl. unfold top_k_fits in Hf. rewrite Ht in Hf. unfold _top_k_logits.
  destruct k as [k|]; [|by eexists]. destruct (k <=? 0)%Z eqn:Ek; [by eexists|]. simpl in Hf.
  destruct (Nat.ltb_spec (length row) (Z.to_nat k)); [lia|by eexists].
Qed.

(** The rows the probabilities are taken from keep their number and length. *)
Lemma filtered_rows V top_k top_p (c : bool) t logits l :
  Forall (fun row => length row = V) logits ->
  rmap (_top_k_logits top_k)
    (if c then map (map (fun v => sc_div v t)) logits else logits) = Ok l ->
  length l = length logits /\
  Forall (fun row => length row = V) (map t_softmax (map (_top_p_logits top_p) l)).
Proof.
  intros Hv Hl%rmap_Ok.
  assert (Hlen : length (if c then map (map (fun v => sc_div v t)) logits else logits) = length logits)
    by (destruct c; [apply length_map|done]).
  assert (Hv' : Forall (fun row => length row = V)
                  (if c then map (map (fun v => sc_div v t)) logits else logits)).
  { destruct c; [|done]. apply Forall_map. eapply Forall_impl; [exact Hv|]. intros r Hr.
    by rewrite length_map. }
  split; [by rewrite <- (Forall2_length _ _ _ Hl)|].
  rewrite !Forall_map. apply Forall_lookup. intros i r Hr.
  destruct (Forall2_lookup_r _ _ _ _ _ Hl Hr) as (r0 & Hr0 & E%top_k_length).
  pose proof (Forall_lookup_1 _ _ _ _ Hv' Hr0) as Hv0. simpl in Hv0. rewrite softmax_length, top_p_length. lia.
Qed.

Lemma sample_shape rs logits temperature top_k top_p rs' out V :
  Forall (fun row => length row = V) logits ->
  _sample_with_temperature_topk_topp rs logits temperature top_k top_p = Ok (rs', out) ->
  length out = length logits.
Proof.
  intros Hv. unfold _sample_with_temperature_topk_topp. destruct (Qeq_bool temperature 0).
  - intros [= _ <-]. unfold row_tokens, row_probs. rewrite length_zip_with, !length_map. lia.
  - destruct (rmap _ _) as [l|] eqn:El; cbn [rbind]; [|done].
    apply (filtered_rows V top_k top_p) in El as [El Ev]; [|done].
    unfold multinomial. destruct (forallb _ _); cbn [rbind]; [|done].
    destruct (t_multinomial _ _) as [rs1 tok] eqn:Em. intros [= _ <-].
    pose proof (multinomial_length rs (map t_softmax (map (_top_p_logits top_p) l))) as Hm.
    rewrite Em in Hm. simpl in Hm. rewrite !length_map in Hm.
    rewrite length_zip_with, !length_map. lia.
Qed.

(** Whatever the filters leave of a row of the vocabulary, [torch.multinomial] takes
    its softmax; nothing is drawn at temperature zero. *)
Definition drawable (temperature : Q) (V : nat) : Prop :=
  Qeq_bool temperature 0 = true \/ forall row : list Sc, length row = V -> t_accepts (t_softmax row) = true.

Lemma sample_total rs logits temperature top_k top_p V :
  Forall (fun row => length row = V) logits -> top_k_fits temperature top_k V = true -> drawable temperature V ->
  exists rs' out, _sample_with_temperature_topk_topp rs logits temperature top_k top_p = Ok (rs', out).
Proof.
  intros Hv Hf Hd. unfold _sample_with_temperature_topk_topp.
  destruct (Qeq_bool temperature 0) eqn:Et; [by eexists _, _|]. destruct Hd as [?|Hd]; [congruence|].
  set (c := negb _ && negb _). set (ls := if c then _ else _).
  assert (Hls : Forall (fun row => length row = V) ls).
  { unfold ls. destruct c; [|done]. apply Forall_map. eapply Forall_impl; [exact Hv|].
    intros r Hr. by rewrite length_map. }
  assert (exists l, rmap (_top_k_logits top_k) ls = Ok l) as [l El].
  { clear -Hls Hf Et. induction Hls as [|r ls Hr Hls [l IH]]; [by eexists|].
    destruct (top_k_total V _ _ _ Et Hf Hr) as [r' Hr']. exists (r' :: l). simpl.
    by rewrite Hr', IH. }
  assert (Ha : forallb t_accepts (map t_softmax (map (_top_p_logits top_p) l)) = true).
  { apply forallb_forall. intros q Hq. apply in_map_iff in Hq as (p & <- & Hp). apply in_map_iff in Hp as (r & <- & Hr).
    apply Hd. rewrite top_p_length. apply rmap_Ok in El. apply list_elem_of_In, list_elem_of_lookup in Hr as [i Hi].
    destruct (Forall2_lookup_r _ _ _ _ _ El Hi) as (r0 & Hr0 & E%top_k_length). rewrite E.
    by apply (Forall_lookup_1 _ _ _ _ Hls Hr0). }
  rewrite El. cbn [rbind]. unfold multinomial. rewrite Ha. cbn [rbind]. destruct (t_multinomial _ _) as [rs1 tok]. by eexists _, _.
Qed.

(** Otherwise it raises as soon as there is a row. *)
Lemma sample_raises rs logits temperature top_k top_p V :
  logits <> [] -> Forall (fun row => length row = V) logits -> top_k_fits temperature top_k V = false ->
  _sample_with_temperature_topk_topp rs logits temperature top_k top_p = Raise RuntimeError.
Proof.
  intros Hne Hv Hf. unfold top_k_fits in Hf. apply orb_false_iff in Hf as [Ht Hk].
  unfold _sample_with_temperature_topk_topp. rewrite Ht. destruct top_k as [k|]; [|done].
  apply orb_false_iff in Hk as [Hk1 Hk2].
  assert (E : forall row, length row = V -> _top_k_logits (Some k) row = Raise RuntimeError).
  { intros row Hr. unfold _top_k_logits. rewrite Hk1. destruct (Nat.ltb_spec (length row) (Z.to_nat k)); [done|lia]. }
  destruct Hv as [|row logits Hr _]; [done|].
  destruct (negb _ && negb _); cbn [map rmap]; rewrite E by (rewrite ?length_map; done); done.
Qed.

(** Sampled tokens index the vocabulary. *)
Lemma sample_range rs logits temperature top_k top_p rs' out V i t p :
  0 < V -> Forall (fun row => length row = V) logits ->
  _sample_with_temperature_topk_topp rs logits temperature top_k top_p = Ok (rs', out) ->
  out !! i = Some (t, p) -> (0 <= t < Z.of_nat V)%Z.
Proof.
  intros HV Hv. unfold _sample_with_temperature_topk_topp. destruct (Qeq_bool temperature 0).
  - intros [= _ <-] Hi. rewrite lookup_zip_with in Hi.
    unfold row_tokens in Hi. rewrite list_lookup_fmap in Hi.
    destruct (logits !! i) as [row|] eqn:Er; [|done].
    simpl in Hi. destruct (row_probs logits !! i); simplify_eq/=.
    pose proof (Forall_lookup_1 _ _ _ _ Hv Er) as Hr. simpl in Hr.
    assert (row <> []) by (intros ->; simpl in Hr; lia).
    pose proof (argmax_range row ltac:(done)). lia.
  - destruct (rmap _ _) as [l|] eqn:El; cbn [rbind]; [|done].
    apply (filtered_rows V top_k top_p) in El as [El Ev]; [|done].
    unfold multinomial. destruct (forallb _ _); cbn [rbind]; [|done].
    destruct (t_multinomial _ _) as [rs1 tok] eqn:Em. intros [= _ <-] Hi.
    rewrite lookup_zip_with in Hi. destruct (tok !! i) as [u|] eqn:Et; [|done]. simpl in Hi.
    destruct (map t_softmax _ !! i) as [row|] eqn:Er; simplify_eq/=.
    pose proof (Forall_lookup_1 _ _ _ _ Ev Er) as Hr. simpl in Hr.
    assert (row <> []) by (intros ->; simpl in Hr; lia).
    pose proof (multinomial_range rs _ i row u Er ltac:(done)) as Hm. rewrite Em in Hm.
    specialize (Hm Et). lia.
Qed.

End Facts.
End Sampler.

(** * Selection by sorting *)

(** Any total order of the scalars gives the operations: sort, and take the
    first entries. *)
Module SortTopk.
Section Sort.
Context {Sc : Type} `{DenoiseOps Sc}.
Implicit Types (c : list (option Sc)).

Class ConfOrder : Prop := {
  conf_leb_trans : forall a b d : option Sc,
    conf_leb a b = true -> conf_leb b d = true -> conf_leb a d = true;
  conf_leb_total : forall a b : option Sc, conf_leb a b = true \/ conf_leb b a = true;
}.

(** [i] comes before [j] in a sort by decreasing entries of [c]. *)
Definition before c (i j : nat) : Prop :=
  conf_leb (default None (c !! j)) (default None (c !! i)) = true.

#[export] Instance before_dec c i j : Decision (before c i j).
Proof. unfold before. apply _. Defined.

Definition order c : list nat := merge_sort (before c) (seq 0 (length c)).

Lemma order_perm c : order c ≡ₚ seq 0 (length c).
Proof. apply merge_sort_Permutation. Qed.

Lemma order_range c i : i ∈ order c -> i < length c.
Proof. rewrite order_perm, elem_of_seq. lia. Qed.

Context {HC : ConfOrder}.

#[export] Instance before_trans c : Transitive (before c).
Proof. intros i j k Hij Hjk. by apply (conf_leb_trans _ (default None (c !! j))). Qed.

#[export] Instance before_total c : Total (before c).
Proof. intros i j. destruct (conf_leb_total (default None (c !! i)) (default None (c !! j))); auto. Qed.

Lemma order_sorted c a b i j :
  a < b -> order c !! a = Some i -> order c !! b = Some j -> before c i j.
Proof.
  intros Hab Ha Hb.
  assert (Hs : StronglySorted (before c) (order c)) by (apply StronglySorted_merge_sort; apply _).
  revert a b i j Hab Ha Hb. induction Hs as [|x l Hs IH Hx]; intros a b i j Hab Ha Hb; [done|].
  destruct b as [|b]; [lia|]. destruct a as [|a]; simplify_eq/=.
  - by apply (Forall_lookup_1 _ _ _ _ Hx Hb).
  - apply (IH a b); (done || lia).
Qed.

Lemma topk_ok k c : k <= length c -> is_topk k c (take k (order c)).
Proof.
  intros Hk. assert (Hn : NoDup (order c)) by (rewrite order_perm; apply NoDup_seq).
  assert (Hlen : length (order c) = length c) by (rewrite order_perm; apply length_seq).
  assert (Hcmp : forall a b i j u v, a < b -> order c !! a = Some i -> order c !! b = Some j ->
            c !! i = Some u -> c !! j = Some v -> conf_leb v u = true).
  { intros a b i j u v Hab Ha Hb Hu Hv. pose proof (order_sorted c a b i j Hab Ha Hb) as Hbe.
    unfold before in Hbe. by rewrite Hu, Hv in Hbe. }
  split.
  - rewrite length_take. lia.
  - by apply (sublist_NoDup _ (order c)); [|apply sublist_take].
  - intros i Hi%elem_of_take. destruct Hi as (a & Ha & _).
    apply order_range. by eapply list_elem_of_lookup_2.
  - intros i j u v Hi Hj Hu Hv. apply elem_of_take in Hi as (a & Ha & Hak).
    assert (Hjo : j ∈ order c).
    { rewrite order_perm, elem_of_seq. apply lookup_lt_Some in Hv. lia. }
    apply list_elem_of_lookup in Hjo as [b Hb].
    destruct (decide (b < k)) as [Hbk|Hbk].
    { destruct Hj. apply elem_of_take. eauto. }
    apply (Hcmp a b i j); (done || lia).
  - intros a b i j u v Hab Ha Hb Hu Hv.
    apply lookup_take_Some in Ha as [Ha _]. apply lookup_take_Some in Hb as [Hb _].
    destruct (decide (a = b)) as [->|]; [|apply (Hcmp a b i j); (done || lia)].
    simplify_eq. by destruct (conf_leb_total u u).
Qed.

End Sort.
Arguments ConfOrder Sc {_}.
End SortTopk.

(** * An executable instance *)

Module ZSample.
Import ZOps SortTopk.

#[export] Instance conf_order_Z : ConfOrder Z.
Proof.
  split.
  - intros [x|] [y|] [z|]; simpl; rewrite ?negb_true_iff; try done.
    destruct (Z.gtb_spec x y), (Z.gtb_spec y z), (Z.gtb_spec x z); (done || lia).
  - intros [x|] [y|]; simpl; rewrite ?negb_true_iff; auto.
    destruct (Z.gtb_spec x y), (Z.gtb_spec y x); auto. lia.
Qed.

#[export] Instance topk_ops : TopkOps Z := fun k c => take k (order c).

#[export] Instance sample_ops : SampleOps Z nat := {|
  sc_mul := Z.mul;
  sc_div := Z.div;
  sc_ninf := (-1000000)%Z;
  t_sort_desc := fun l => order (map Some l);
  t_accepts := fun _ => true;
  t_multinomial := fun rs rows => (S rs, map (fun row => rs mod length row) rows);
|}.

#[export] Instance topk_laws : TopkLaws Z.
Proof. intros k c. apply topk_ok. Qed.

#[export] Instance sample_laws : SampleLaws Z nat.
Proof.
  split.
  - intros l. simpl. rewrite order_perm. by rewrite length_map.
  - intros l Hl. simpl. unfold argmax. destruct (amax_is_Some l Hl) as [[i w] Hi].
    rewrite Hi. simpl. by apply amax_spec in Hi as [Hi%lookup_lt_Some _].
  - done.
  - intros rs rows. simpl. apply length_map.
  - intros rs rows i row t Hi Hne. simpl. rewrite list_lookup_fmap, Hi. simpl. intros [= <-].
    apply Nat.mod_upper_bound. by destruct row.
Qed.

End ZSample.
