(* ===== verification/Generate.v ===== *)
(** Block-diffusion generation of the Hugging Face model
    ([src/llada_hybrid/modeling_llada2_moe.py]: [generate] and
    [_generate_with_kv_cache]).

    A batch is a list of rows of token ids.  [cur_x] is a view of [x] in the
    source, so that the loop has one tensor; a pass writes the block of the
    window it works on.  The network is behind [CausalLM]: a forward pass over
    whole windows, and the passes over one block that read the prefix cache or
    commit to it.  A pass may raise, and so may the operations behind it; every
    exception is passed on.  [LMShape], [LMCache] and [LMVocab] are what the theorems
    rely on; [DecoderCache] proves them of the layers of the model. *)
From stdpp Require Import base list sorting.
From Stdlib Require Import ZArith QArith Lia.
From S2P Require Import Prelude Denoise Sampling.
Local Open Scope nat_scope.

(** The network as [generate] calls it: logits for every position of the batch.
    [lm_read] and [lm_commit] take the position of the block's first token.  Each pass
    returns or raises. *)
Class CausalLM (Sc ST : Type) : Type := {
  lm_forward : list (list Z) -> res (list (list (list Sc)));
  lm_init_cache : nat -> ST;
  lm_read : ST -> nat -> list (list Z) -> res (list (list (list Sc)));
  lm_commit : ST -> nat -> list (list Z) -> res ST;
}.

Module Gen.
Import Sampler.

(** Arguments of [generate]. *)
Record gen_args : Type := mkArgs {
  temperature : Q;
  block_length : nat;
  steps : Z;
  gen_length : nat;
  top_p : option Q;
  top_k : option Z;
  eos_early_stop : bool;
  minimal_topk : Z;
  threshold : Q;
  editing_threshold : Q;
  max_post_steps : Z;
  eos_id : option Z;
  mask_id : option Z;
  num_to_transfer : Z;
  repetition_penalty : Q;
  use_kv_cache : bool;
}.

(** The attributes of the configuration that [generate] falls back to.  A missing
    [eos_token_id] is read as [None]; [mask_token_id] may be missing, [None] or a
    number. *)
Record lm_config : Type := mkLmConfig {
  eos_token_id : option Z;
  mask_token_id : option (option Z);
}.

Definition eos_of (A : gen_args) (C : lm_config) : option Z :=
  match eos_id A with Some e => Some e | None => eos_token_id C end.

(** [getattr(self.config, "mask_token_id", 156895)]. *)
Definition mask_id_of (A : gen_args) (C : lm_config) : option Z :=
  match mask_id A with Some v => Some v | None => default (Some 156895%Z) (mask_token_id C) end.

(** ** One denoising pass *)

Section Pass.
Context {Sc RS : Type} `{DenoiseOps Sc} `{!TopkOps Sc} `{!SampleOps Sc RS}.
Variables (A : gen_args) (mask : Z).
#[local] Abbreviation bl := (block_length A).

(** [prompt_mask_in_block] of the block that starts at [start]. *)
Definition prompt_mask_in_block (start prompt_length : nat) : list bool :=
  if start <? prompt_length
  then let prompt_end := Nat.min (prompt_length - start) bl in
       replicate prompt_end true ++ replicate (bl - prompt_end) false
  else replicate bl false.

(** [past_tokens[past_tokens != mask_id].unique()]: sorted. *)
Definition unique_tokens (past : list Z) : list Z :=
  merge_sort Z.le (remove_dups (filter (fun v => v <> mask) past)).

(** [torch.gather] and [scatter_] refuse an index outside the row. *)
Definition index_ok (n : nat) (t : Z) : bool := ((0 <=? t) && (t <? Z.of_nat n))%Z.

(** The repetition penalty on one row of the batch: [torch.gather] of the
    scores of the tokens, then [scatter_]. *)
Definition penalise_row (u_toks : list Z) (row : list Sc) : res (list Sc) :=
  let rp := sc_of_Q (repetition_penalty A) in
  if forallb (index_ok (length row)) u_toks
  then
    let scores := map (fun t => nth (Z.to_nat t) row zero) u_toks in
    let scores := map (fun s => if sc_gtb s zero then sc_div s rp else sc_mul s rp) scores in
    Ok (foldl (fun r (ts : Z * Sc) => <[Z.to_nat (fst ts) := snd ts]> r) row (zip u_toks scores))
  else Raise RuntimeError.

Definition penalise (past : list Z) (rows : list (list Sc)) : res (list (list Sc)) :=
  let u_toks := unique_tokens past in
  if 0 <? length u_toks then rmap (penalise_row u_toks) rows else Ok rows.

Definition penalise_batch (past : list (list Z)) (logits : list (list (list Sc)))
    : res (list (list (list Sc))) :=
  if Qeq_bool (repetition_penalty A) 1 then Ok logits
  else rmap (fun pl => penalise (fst pl) (snd pl)) (zip past logits).

(** [_sample_...(active_logits)]: the rows are flattened, and the result is
    viewed in the shape of the batch again. *)
Definition sample_batch (rs : RS) (logits : list (list (list Sc)))
    : res (RS * (list (list Z) * list (list Sc))) :=
  (let! '(rs, out) := _sample_with_temperature_topk_topp rs (concat logits)
      (temperature A) (top_k A) (top_p A) in
   Ok (rs, (reshape_rows bl (length logits) (map fst out),
            reshape_rows bl (length logits) (map snd out))))%py.

(** [mask_transfer_index[b]]. *)
Definition mask_transfer_row (ab : list bool) (x0_p : list Sc) : list bool :=
  if count_true ab =? 0 then replicate (length ab) false
  else
    let conf := confidence_of ab x0_p in
    let high_conf :=
      zip_with andb (map (fun c => conf_gtb c (sc_of_Q (threshold A))) conf) ab in
    if (num_to_transfer A <=? Z.of_nat (count_true high_conf))%Z then high_conf
    else
      let num_available := count_true ab in
      let k := Nat.min (Z.to_nat (num_to_transfer A)) num_available in
      index_mask (length ab) (t_topk k conf).

Definition mask_transfer (active : list (list bool)) (x0_p : list (list Sc)) : list (list bool) :=
  if existsb any active then zip_with mask_transfer_row active x0_p
  else map (fun ab => replicate (length ab) false) active.

(** [editing_transfer_index[b]]. *)
Definition editing_transfer_row (prompt_mask ab : list bool) (x0 old : list Z) (x0_p : list Sc)
    : list bool :=
  let editable := zip_with andb (map negb ab) (map negb prompt_mask) in
  let editing_confidence := confidence_of editable x0_p in
  let token_changed := zip_with (fun a b => negb (Z.eqb a b)) x0 old in
  zip_with andb
    (zip_with andb
       (map (fun c => conf_gtb c (sc_of_Q (editing_threshold A))) editing_confidence) editable)
    token_changed.

Definition editing_transfer (prompt_mask : list bool) (active : list (list bool))
    (x0 old : list (list Z)) (x0_p : list (list Sc)) : list (list bool) :=
  zip_with (fun (ab : list bool) (r : list Z * list Z * list Sc) =>
      editing_transfer_row prompt_mask ab (fst (fst r)) (snd (fst r)) (snd r))
    active (zip (zip x0 old) x0_p).

(** [cur_x[:, -block_length:][final] = x0[final]]. *)
Definition write_block (nb : nat) (final : list (list bool)) (x0 x : list (list Z)) : list (list Z) :=
  zip_with (fun (fx : list bool * list Z) row =>
      set_blk bl nb (apply_transfer (fst fx) (snd fx) (blk bl nb row)) row)
    (zip final x0) x.

(** The body of the loop behind the forward pass: the new tokens, and whether a
    token was edited. *)
Definition denoise_pass (nb prompt_length : nat) (logits : list (list (list Sc))) (rs : RS)
    (x : list (list Z)) : res (RS * (list (list Z) * bool)) :=
  let window_end := S nb * bl in
  let old := map (blk bl nb) x in
  let active := map (mask_of mask) old in
  let prompt_mask := prompt_mask_in_block (nb * bl) prompt_length in
  (let! active_logits := penalise_batch (map (take window_end) x) logits in
   let! '(rs, (x0, x0_p)) := sample_batch rs active_logits in
   let mask_t := mask_transfer active x0_p in
   let edit_t := editing_transfer prompt_mask active x0 old x0_p in
   let final := zip_with (zip_with orb) mask_t edit_t in
   let x := if existsb any final then write_block nb final x0 x else x in
   Ok (rs, (x, existsb any edit_t)))%py.

(** The [while True] loop of one block, at most [n] passes; [logits_of] is the
    forward pass on the current tokens. *)
Fixpoint denoise_block (logits_of : list (list Z) -> res (list (list (list Sc))))
    (nb prompt_length n : nat) (post_steps : Z) (rs : RS) (x : list (list Z))
    : res (RS * list (list Z)) :=
  match n with
  | O => Ok (rs, x)
  | S n =>
    let has_mask := existsb any (map (mask_of mask) (map (blk bl nb) x)) in
    let post_steps := (if has_mask then post_steps else post_steps + 1)%Z in
    if (max_post_steps A <? post_steps)%Z then Ok (rs, x)
    else
      (let! logits := logits_of x in
       let! '(rs, (x, edited)) := denoise_pass nb prompt_length logits rs x in
       if negb has_mask && negb edited then Ok (rs, x)
       else denoise_block logits_of nb prompt_length n post_steps rs x)%py
  end.

(** ** The loop over the blocks *)

Variable eos : option Z.

(** [eos_early_stop]: no mask is left in the generated part, and it holds an
    end-of-sequence token. *)
Definition stops_early (prompt_length nb : nat) (x : list (list Z)) : bool :=
  match eos with
  | Some e =>
    if eos_early_stop A
    then let generated := map (py_slice prompt_length (S nb * bl)) x in
         negb (existsb any (map (mask_of mask) generated)) &&
         existsb any (map (mask_of e) generated)
    else false
  | None => false
  end.

Context {ST : Type} `{!CausalLM Sc ST}.

(** Forward pass over the window, of which the last block is used. *)
Definition window_logits (nb : nat) (x : list (list Z)) : res (list (list (list Sc))) :=
  (let! logits := lm_forward (map (take (S nb * bl)) x) in Ok (map (py_last bl) logits))%py.

Fixpoint block_loop (prompt_length n : nat) (blocks : list nat) (rs : RS) (x : list (list Z))
    : res (RS * list (list Z)) :=
  match blocks with
  | [] => Ok (rs, x)
  | nb :: blocks =>
    (let! '(rs, x) := denoise_block (window_logits nb) nb prompt_length n 0 rs x in
     if stops_early prompt_length nb x then Ok (rs, x)
     else block_loop prompt_length n blocks rs x)%py
  end.

(** [_commit_block_to_cache] of block [nb]. *)
Definition _commit_block_to_cache (nb : nat) (x : list (list Z)) (cache : ST) : res ST :=
  lm_commit cache (nb * bl) (map (blk bl nb) x).

(** Forward pass over the block, behind the cached prefix. *)
Definition cached_logits (cache : ST) (nb : nat) (x : list (list Z)) : res (list (list (list Sc))) :=
  lm_read cache (nb * bl) (map (blk bl nb) x).

Fixpoint cached_block_loop (prompt_length n : nat) (blocks : list nat) (cache : ST) (rs : RS)
    (x : list (list Z)) : res (RS * list (list Z)) :=
  match blocks with
  | [] => Ok (rs, x)
  | nb :: blocks =>
    (let! '(rs, x) := denoise_block (cached_logits cache nb) nb prompt_length n 0 rs x in
     let! cache := _commit_block_to_cache nb x cache in
     if stops_early prompt_length nb x then Ok (rs, x)
     else cached_block_loop prompt_length n blocks cache rs x)%py
  end.

(** The prompt's full blocks enter the cache before generation. *)
Definition prefill_cache (prefill_blocks : nat) (x : list (list Z)) : res ST :=
  foldl (fun cache b => (let! cache := cache in _commit_block_to_cache b x cache)%py)
    (Ok (lm_init_cache (length x))) (seq 0 prefill_blocks).

(** ** What is returned *)

(** Everything behind the first end-of-sequence token is overwritten with it. *)
Definition trim_row (e : Z) (gen : list Z) : list Z :=
  match list_find (fun v => v = e) gen with
  | Some (i, _) =>
    let cut := S i in
    if cut <? gen_length A then take cut gen ++ replicate (length gen - cut) e else gen
  | None => gen
  end.

Definition answer (prompt_length : nat) (x : list (list Z)) : list (list Z) :=
  let generated := map (fun row => drop prompt_length (take (prompt_length + gen_length A) row)) x in
  if eos_early_stop A
  then match eos with Some e => map (trim_row e) generated | None => generated end
  else generated.

(** [inputs.shape[1]]. *)
Definition width (inputs : list (list Z)) : nat :=
  match inputs with [] => 0 | row :: _ => length row end.

(** [x]: the prompt, followed by masks up to a whole number of blocks. *)
Definition initial_x (num_blocks : nat) (inputs : list (list Z)) : list (list Z) :=
  map (fun row => py_splice 0 row (replicate (num_blocks * bl) mask)) inputs.

End Pass.

Section Generate.
Context {Sc RS ST : Type} `{DenoiseOps Sc} `{!TopkOps Sc} `{!SampleOps Sc RS} `{!CausalLM Sc ST}.
Variables (A : gen_args) (C : lm_config).
#[local] Abbreviation bl := (block_length A).

(** [min(int(steps), int(gen_length) // int(minimal_topk))]. *)
Definition total_steps : nat := Z.to_nat (Z.min (steps A) (Z.of_nat (gen_length A) / minimal_topk A)).

(** [torch.full] with [mask_id] [None] raises a [TypeError], after the divisions. *)
Definition _generate_with_kv_cache (rs : RS) (inputs : list (list Z)) : res (RS * list (list Z)) :=
  if (minimal_topk A =? 0)%Z then Raise ZeroDivisionError
  else if bl =? 0 then Raise ZeroDivisionError
  else
    match mask_id_of A C with
    | None => Raise TypeError
    | Some mask =>
      let eos := eos_of A C in
      let prompt_length := width inputs in
      let num_blocks := cdiv (prompt_length + gen_length A) bl in
      let x := initial_x A mask num_blocks inputs in
      let prefill_blocks := prompt_length / bl in
      (let! cache := prefill_cache A prefill_blocks x in
       let! '(rs, x) := cached_block_loop A mask eos prompt_length total_steps
          (seq prefill_blocks (num_blocks - prefill_blocks)) cache rs x in
       Ok (rs, answer A eos prompt_length x))%py
    end.

Definition generate (rs : RS) (inputs : list (list Z)) : res (RS * list (list Z)) :=
  if use_kv_cache A then _generate_with_kv_cache rs inputs
  else if (minimal_topk A =? 0)%Z then Raise ZeroDivisionError
  else if bl =? 0 then Raise ZeroDivisionError
  else
    match mask_id_of A C with
    | None => Raise TypeError
    | Some mask =>
      let eos := eos_of A C in
      let prompt_length := width inputs in
      let num_blocks := cdiv (prompt_length + gen_length A) bl in
      let x := initial_x A mask num_blocks inputs in
      let prefill_blocks := prompt_length / bl in
      (let! '(rs, x) := block_loop A mask eos prompt_length total_steps
          (seq prefill_blocks (num_blocks - prefill_blocks)) rs x in
       Ok (rs, answer A eos prompt_length x))%py
    end.

End Generate.
End Gen.
