(* ===== verification/GenerateFacts.v ===== *)
(** Facts about the generation loop of [Generate]: what one pass may write, that
    the loops keep the shape of the batch, the prompt and the finished blocks,
    and that every pass unmasks a position of every row that has one. *)
From stdpp Require Import base list sorting.
From Stdlib Require Import ZArith QArith Lia.
From S2P Require Import Prelude Denoise Sampling Generate.
Local Open Scope nat_scope.

(** Every token is in a vocabulary of [V]. *)
Definition vocab_ok (V : nat) (rows : list (list Z)) : bool := forallb (forallb (Gen.index_ok V)) rows.

Lemma vocab_ok_spec V rows : vocab_ok V rows = true <->
  forall row t, row ∈ rows -> t ∈ row -> (0 <= t < Z.of_nat V)%Z.
Proof.
  unfold vocab_ok. rewrite forallb_forall. setoid_rewrite forallb_forall. unfold Gen.index_ok.
  split.
  - intros Hv row t Hr Ht. specialize (Hv row ltac:(by apply list_elem_of_In) t ltac:(by apply list_elem_of_In)).
    apply andb_prop in Hv as [?%Z.leb_le ?%Z.ltb_lt]. done.
  - intros Hv row Hr t Ht. apply list_elem_of_In in Hr, Ht. destruct (Hv row t Hr Ht).
    apply andb_true_intro. split; [by apply Z.leb_le|by apply Z.ltb_lt].
Qed.

(** Parts of rows of the vocabulary. *)
Lemma vocab_ok_map V (f : list Z -> list Z) x : (forall row t, t ∈ f row -> t ∈ row) ->
  vocab_ok V x = true -> vocab_ok V (map f x) = true.
Proof.
  rewrite !vocab_ok_spec. intros Hf Hv row t (r & -> & Hr)%list_elem_of_fmap Ht. by apply (Hv r), Hf.
Qed.

Lemma elem_of_take_in {T} n (l : list T) t : t ∈ take n l -> t ∈ l.
Proof. intros (i & Hi & _)%elem_of_take. by eapply list_elem_of_lookup_2. Qed.

Lemma vocab_ok_take V n x : vocab_ok V x = true -> vocab_ok V (map (take n) x) = true.
Proof. apply vocab_ok_map. intros row t. apply elem_of_take_in. Qed.

(** A window of the vocabulary, block by block. *)
Lemma vocab_ok_window V bl nb x : vocab_ok V (map (take (S nb * bl)) x) =
  vocab_ok V (map (take (nb * bl)) x) && vocab_ok V (map (blk bl nb) x).
Proof.
  apply eq_true_iff_eq. rewrite andb_true_iff, !vocab_ok_spec.
  assert (Et : forall row, take (S nb * bl) row = take (nb * bl) row ++ blk bl nb row :> list Z).
  { intros row. unfold blk, py_slice. replace (S nb * bl) with (nb * bl + bl) by lia.
    replace (nb * bl + bl - nb * bl) with bl by lia. by rewrite take_take_drop. }
  split.
  - intros Hv. split; intros row t (r & -> & Hr)%list_elem_of_fmap Ht;
      (apply (Hv (take (S nb * bl) r)); [by apply list_elem_of_fmap_2|]; rewrite Et; apply elem_of_app); [by left|by right].
  - intros [H1 H2] row t (r & -> & Hr)%list_elem_of_fmap. rewrite Et. intros [Ht|Ht]%elem_of_app.
    + apply (H1 (take (nb * bl) r)); [by apply list_elem_of_fmap_2|done].
    + apply (H2 (blk bl nb r)); [by apply list_elem_of_fmap_2|done].
Qed.

(** The laws of the network that the loops rely on, for blocks of [bl] tokens and a
    vocabulary of [V].  A pass over rows of the vocabulary returns, and what a pass
    returns has the shape of its input. *)
Class LMShape (Sc ST : Type) `{CausalLM Sc ST} (V : nat) : Prop := {
  lm_shape : forall rows n logits, 0 < n -> Forall (fun r : list Z => length r = n) rows ->
    lm_forward rows = Ok logits -> length logits = length rows /\
    Forall (fun l : list (list Sc) => length l = n /\ Forall (fun r => length r = V) l) logits;
  lm_total : forall rows n, 0 < n -> Forall (fun r : list Z => length r = n) rows -> rows <> [] ->
    vocab_ok V rows = true -> exists logits : list (list (list Sc)), lm_forward rows = Ok logits;
}.

(** Blocks [0 .. nb - 1] committed in order. *)
Definition committed {Sc ST : Type} `{CausalLM Sc ST} (bl nb : nat) (x : list (list Z)) : res ST :=
  foldl (fun cache b => (let! cache := cache in lm_commit cache (b * bl) (map (blk bl b) x))%py)
    (Ok (lm_init_cache (length x))) (seq 0 nb).

Lemma committed_snoc {Sc ST : Type} `{CausalLM Sc ST} bl nb (x : list (list Z)) :
  committed bl (S nb) x = (let! c := committed bl nb x in lm_commit c (nb * bl) (map (blk bl nb) x))%py :> res ST.
Proof. unfold committed. by rewrite seq_S, foldl_app. Qed.

(** Blocks of the vocabulary can be committed, and the pass over a block behind the
    cache of the blocks before it returns the last rows of the pass over the whole
    window. *)
Class LMCache (Sc ST : Type) `{CausalLM Sc ST} (V bl : nat) : Prop := {
  lm_commits : forall nb total x, Forall (fun r : list Z => length r = total) x -> x <> [] ->
    nb * bl <= total -> vocab_ok V (map (take (nb * bl)) x) = true ->
    exists c : ST, committed bl nb x = Ok c;
  lm_read_exact : forall nb total x c, Forall (fun r : list Z => length r = total) x -> x <> [] ->
    S nb * bl <= total -> vocab_ok V (map (take (nb * bl)) x) = true -> committed bl nb x = Ok c ->
    lm_read c (nb * bl) (map (blk bl nb) x) =
    (let! logits := lm_forward (map (take (S nb * bl)) x) in Ok (map (py_last bl) logits))%py;
}.

(** A token outside the vocabulary is refused by the embedding, whatever the pass. *)
Class LMVocab (Sc ST : Type) `{CausalLM Sc ST} (V : nat) : Prop := {
  lm_forward_vocab : forall rows, vocab_ok V rows = false -> lm_forward rows = Raise IndexError;
  lm_read_vocab : forall (c : ST) p rows, vocab_ok V rows = false -> lm_read c p rows = Raise IndexError;
  lm_commit_vocab : forall (c : ST) p rows, vocab_ok V rows = false -> lm_commit c p rows = Raise IndexError;
}.

Module GenFacts.
Import Sampler Gen.

(** ** Selection of the positions of a row *)

Section Rows.
Context {Sc RS : Type} `{DenoiseOps Sc} `{!TopkOps Sc} `{!SampleOps Sc RS} `{!TopkLaws Sc} `{!SampleLaws Sc RS}.
Variables (A : gen_args) (mask : Z).
#[local] Abbreviation bl := (block_length A).
Implicit Types (ab pm : list bool) (p : list Sc).

Lemma conf_lookup (mi : list bool) p k v : length p = length mi ->
  confidence_of mi p !! k = Some (Some v) -> mi !! k = Some true.
Proof.
  intros Hl. unfold confidence_of. rewrite lookup_zip_with.
  destruct (mi !! k) as [[]|], (p !! k); simpl; by intros ?; simplify_eq.
Qed.

Lemma conf_active (mi : list bool) p k : length p = length mi -> mi !! k = Some true ->
  exists v, confidence_of mi p !! k = Some (Some v).
Proof.
  intros Hl Hk. destruct (lookup_lt_is_Some_2 p k) as [v Hv].
  { rewrite Hl. by eapply lookup_lt_Some. }
  exists v. by rewrite (lookup_confidence _ _ _ _ _ Hk Hv).
Qed.

Lemma conf_length (mi : list bool) p : length p = length mi -> length (confidence_of mi p) = length mi.
Proof. intros. unfold confidence_of. rewrite length_zip_with. lia. Qed.

Lemma finite_confidence ab p : length p = length ab -> finite (confidence_of ab p) = ab.
Proof.
  intros Hl. apply list_eq. intros k. unfold finite, confidence_of.
  rewrite list_lookup_fmap, lookup_zip_with. destruct (ab !! k) as [b|] eqn:Eb; [|done].
  destruct (lookup_lt_is_Some_2 p k) as [v ->]; [rewrite Hl; by eapply lookup_lt_Some|]. by destruct b.
Qed.

(** [torch.topk] with at most as many entries as there are masked positions
    returns masked positions only. *)
Lemma topk_active ab p k i : length p = length ab -> k <= count_true ab ->
  i ∈ t_topk k (confidence_of ab p) -> ab !! i = Some true.
Proof.
  intros Hl Hk Hi. pose proof (count_true_le ab).
  destruct (topk_finite k (confidence_of ab p) (t_topk k (confidence_of ab p)) i) as [v Hv]; [| |done|].
  - apply topk_spec. rewrite conf_length; lia.
  - rewrite (finite_confidence ab p Hl). lia.
  - by eapply conf_lookup.
Qed.

Lemma mask_transfer_length ab p : length p = length ab ->
  length (mask_transfer_row A ab p) = length ab.
Proof.
  intros Hl. unfold mask_transfer_row. case_bool; [apply length_replicate|]. cbv zeta.
  case_bool; [|apply index_mask_length].
  rewrite length_zip_with, length_map, conf_length by done. lia.
Qed.

(** Only masked positions are unmasked. *)
Lemma mask_transfer_masked ab p k : length p = length ab ->
  mask_transfer_row A ab p !! k = Some true -> ab !! k = Some true.
Proof.
  intros Hl. unfold mask_transfer_row. case_bool; [by intros [? _]%lookup_replicate|]. cbv zeta.
  case_bool.
  - by intros [_ ?]%lookup_and_true.
  - intros [Hi _]%index_mask_true. apply topk_active in Hi; [done|done|lia].
Qed.

(** A row with a masked position gets one unmasked. *)
Lemma mask_transfer_progress ab p : length p = length ab -> (1 <= num_to_transfer A)%Z ->
  0 < count_true ab -> exists k, mask_transfer_row A ab p !! k = Some true.
Proof.
  intros Hl Hn Hc. unfold mask_transfer_row. destruct (Nat.eqb_spec (count_true ab) 0); [lia|].
  cbv zeta. case_bool.
  - apply count_true_pos. lia.
  - pose proof (count_true_le ab).
    set (k := Nat.min _ _).
    destruct (topk_spec k (confidence_of ab p)) as [TL _ TR _ _]; [rewrite conf_length; lia|].
    destruct (t_topk k (confidence_of ab p)) as [|i idx] eqn:Ei; [simpl in TL; lia|].
    exists i. apply index_mask_true. split; [by left|].
    rewrite <- (conf_length ab p Hl). apply TR. by left.
Qed.

Lemma editing_transfer_length pm ab x0 old p :
  length pm = length ab -> length p = length ab -> length x0 = length ab -> length old = length ab ->
  length (editing_transfer_row A pm ab x0 old p) = length ab.
Proof.
  intros. unfold editing_transfer_row, confidence_of.
  repeat (rewrite length_zip_with || rewrite length_map). lia.
Qed.

(** Only positions that are neither masked nor prompt are edited. *)
Lemma editing_transfer_editable pm ab x0 old p k :
  editing_transfer_row A pm ab x0 old p !! k = Some true ->
  ab !! k = Some false /\ pm !! k = Some false.
Proof.
  unfold editing_transfer_row.
  intros [[_ [Ha Hp]%lookup_and_true]%lookup_and_true _]%lookup_and_true.
  by split; apply lookup_negb_true.
Qed.

(** What the pass writes in one row. *)
Definition row_final pm ab (x0 old : list Z) p : list bool :=
  zip_with orb (mask_transfer_row A ab p) (editing_transfer_row A pm ab x0 old p).

Lemma row_final_length pm ab x0 old p :
  length pm = length ab -> length p = length ab -> length x0 = length ab -> length old = length ab ->
  length (row_final pm ab x0 old p) = length ab.
Proof.
  intros. unfold row_final.
  rewrite length_zip_with, mask_transfer_length, editing_transfer_length by done. lia.
Qed.

Lemma row_final_true pm ab x0 old p k : length p = length ab ->
  row_final pm ab x0 old p !! k = Some true ->
  ab !! k = Some true \/ (ab !! k = Some false /\ pm !! k = Some false).
Proof.
  intros Hl. unfold row_final. rewrite lookup_zip_with.
  destruct (mask_transfer_row A ab p !! k) as [[]|] eqn:Em; simpl; [| |done].
  - intros _. left. by eapply mask_transfer_masked.
  - destruct (editing_transfer_row A pm ab x0 old p !! k) as [[]|] eqn:Ee; simpl; try done.
    intros _. right. by eapply editing_transfer_editable.
Qed.

Lemma row_final_progress pm ab x0 old p :
  length pm = length ab -> length p = length ab -> length x0 = length ab -> length old = length ab ->
  (1 <= num_to_transfer A)%Z -> 0 < count_true ab ->
  exists k, row_final pm ab x0 old p !! k = Some true /\ ab !! k = Some true.
Proof.
  intros Hpm Hp Hx Ho Hn Hc. destruct (mask_transfer_progress ab p Hp Hn Hc) as [k Hk].
  exists k. split; [|by eapply mask_transfer_masked].
  unfold row_final. rewrite lookup_zip_with, Hk. simpl.
  destruct (lookup_lt_is_Some_2 (editing_transfer_row A pm ab x0 old p) k) as [b Hb].
  { rewrite editing_transfer_length by done. apply lookup_lt_Some in Hk.
    by rewrite mask_transfer_length in Hk. }
  by rewrite Hb.
Qed.

End Rows.

(** ** One pass *)

Section Pass.
Context {Sc RS : Type} `{DenoiseOps Sc} `{!TopkOps Sc} `{!SampleOps Sc RS} `{!TopkLaws Sc} `{!SampleLaws Sc RS}.
Variables (A : gen_args) (mask : Z) (V : nat).
#[local] Abbreviation bl := (block_length A).
Implicit Types (x : list (list Z)) (logits : list (list (list Sc))).

(** One block of logits for every row of a batch of [n]. *)
Definition logits_ok (n : nat) logits : Prop :=
  length logits = n /\ Forall (fun l => length l = bl /\ rect V l) logits.

Lemma scatter_scores_length (row : list Sc) (l : list (Z * Sc)) :
  length (foldl (fun r (ts : Z * Sc) => <[Z.to_nat (fst ts) := snd ts]> r) row l) = length row.
Proof. revert row. induction l as [|ts l IH]; intros row; simpl; [done|]. by rewrite IH, length_insert. Qed.

Lemma penalise_row_length u (row row' : list Sc) : penalise_row A u row = Ok row' -> length row' = length row.
Proof. unfold penalise_row. destruct (forallb _ _); [|done]. intros [= <-]. apply scatter_scores_length. Qed.

Lemma rmap_rect (f : list Sc -> res (list Sc)) rows rows' :
  (forall r r', f r = Ok r' -> length r' = length r) -> rect V rows -> rmap f rows = Ok rows' ->
  length rows' = length rows /\ rect V rows'.
Proof.
  intros Hf Hr E%rmap_Ok. split; [by rewrite (Forall2_length _ _ _ E)|]. apply Forall_lookup. intros i r' Hi.
  destruct (Forall2_lookup_r _ _ _ _ _ E Hi) as (r & Hr0 & Ef). rewrite (Hf r r' Ef). by apply (rect_lookup _ _ _ _ Hr Hr0).
Qed.

Lemma penalise_one past rows rows' : rect V rows -> penalise A mask past rows = Ok rows' ->
  length rows' = length rows /\ rect V rows'.
Proof.
  intros Hr. unfold penalise. case_bool; [|by intros [= <-]]. apply rmap_rect; [|done]. apply penalise_row_length.
Qed.

Lemma penalise_ok n past logits logits' :
  length past = n -> logits_ok n logits -> penalise_batch A mask past logits = Ok logits' -> logits_ok n logits'.
Proof.
  intros Hp [Hl Hr]. unfold penalise_batch. case_bool; [by intros [= <-]|]. intros Em%rmap_Ok.
  split; [rewrite <- (Forall2_length _ _ _ Em), length_zip_with; lia|].
  apply Forall_lookup. intros b l Hb. destruct (Forall2_lookup_r _ _ _ _ _ Em Hb) as ([pa l0] & Hz & Ep).
  rewrite lookup_zip_with in Hz. destruct (past !! b) as [pa0|]; [|done]. simpl in Hz.
  destruct (logits !! b) as [l1|] eqn:E1; simplify_eq/=. destruct (Forall_lookup_1 _ _ _ _ Hr E1) as [H1 H2].
  destruct (penalise_one _ _ _ H2 Ep) as [H3 H4]. split; [lia|done].
Qed.

Lemma unique_tokens_in past t : t ∈ unique_tokens mask past -> t ∈ past.
Proof.
  unfold unique_tokens. rewrite merge_sort_Permutation, elem_of_remove_dups, list_elem_of_filter. by intros [_ ?].
Qed.

Lemma rmap_returns {T U} (f : T -> res U) (l : list T) : (forall a, a ∈ l -> exists b, f a = Ok b) -> exists l', rmap f l = Ok l'.
Proof.
  induction l as [|a l IH]; intros Hf; [by eexists|]. destruct (Hf a ltac:(left)) as [b Eb]. simpl. rewrite Eb. cbn [rbind].
  destruct IH as [l' ->]; [intros c Hc; apply Hf; by right|]. by eexists.
Qed.

(** Tokens of the vocabulary can be penalised. *)
Lemma penalise_total n past logits : logits_ok n logits -> vocab_ok V past = true ->
  exists logits', penalise_batch A mask past logits = Ok logits'.
Proof.
  intros [_ Hr] Hv. unfold penalise_batch. case_bool; [by eexists|]. apply rmap_returns. intros [pa l] Hin.
  rewrite vocab_ok_spec in Hv. apply elem_of_zip_l in Hin as Hpa. apply elem_of_zip_r in Hin as Hl. cbn [fst snd].
  unfold penalise. case_bool; [|by eexists]. apply rmap_returns. intros row Hrow. unfold penalise_row.
  rewrite Forall_forall in Hr. destruct (Hr l Hl) as [_ Hrect]. rewrite (proj1 (Forall_forall _ _) Hrect row Hrow).
  replace (forallb (index_ok V) (unique_tokens mask pa)) with true; [by eexists|]. symmetry. apply forallb_forall.
  intros t Ht. apply list_elem_of_In, unique_tokens_in in Ht. destruct (Hv pa t Hpa Ht).
  unfold index_ok. apply andb_true_intro. split; [by apply Z.leb_le|by apply Z.ltb_lt].
Qed.

Lemma concat_ok n logits : logits_ok n logits -> rect V (concat logits) /\ length (concat logits) = n * bl.
Proof.
  intros [<- Hr]. split.
  - apply Forall_concat. eapply Forall_impl; [exact Hr|]. by intros ? [].
  - apply length_concat_rect. eapply Forall_impl; [exact Hr|]. by intros ? [].
Qed.

Lemma reshape_lookup {T} n (l : list T) b :
  length l = n * bl -> b < n ->
  reshape_rows bl n l !! b = Some (blk bl b l) /\ length (blk bl b l) = bl.
Proof.
  intros Hl Hb. split; [|by apply (length_blk bl n)].
  unfold reshape_rows. rewrite list_lookup_fmap, lookup_seq_lt by done. done.
Qed.

Lemma elem_of_gen_blk {T} b (l : list T) t : t ∈ blk bl b l -> t ∈ l.
Proof.
  unfold blk, py_slice. intros Ht. rewrite <- (take_drop (b * bl) l), elem_of_app. right.
  rewrite <- (take_drop (b * bl + bl - b * bl) (drop (b * bl) l)), elem_of_app. by left.
Qed.

(** The sampled batch: one row of [bl] tokens and probabilities per request. *)
Lemma sample_batch_ok n rs logits rs' x0 p :
  logits_ok n logits -> sample_batch A rs logits = Ok (rs', (x0, p)) ->
  length x0 = n /\ length p = n /\
  exists out, _sample_with_temperature_topk_topp rs (concat logits) (temperature A) (top_k A) (top_p A)
      = Ok (rs', out) /\
    forall b, b < n -> exists toks ps, x0 !! b = Some toks /\ p !! b = Some ps /\
      length toks = bl /\ length ps = bl /\ forall t, t ∈ toks -> t ∈ map fst out.
Proof.
  intros Hok. destruct (concat_ok n logits Hok) as [Hv Hlen]. unfold sample_batch.
  destruct (_sample_with_temperature_topk_topp _ _ _ _ _) as [[rs1 out]|] eqn:Es; cbn [rbind]; [|done].
  pose proof (sample_shape _ _ _ _ _ _ _ _ Hv Es) as Ho.
  intros [= <- <- <-]. destruct Hok as [<- _].
  unfold reshape_rows at 1 2. rewrite !length_map, length_seq. split; [done|]. split; [done|].
  exists out. split; [done|]. intros b Hb.
  destruct (reshape_lookup (length logits) (map fst out) b) as [E1 L1]; [rewrite length_map; lia|done|].
  destruct (reshape_lookup (length logits) (map snd out) b) as [E2 L2]; [rewrite length_map; lia|done|].
  exists (blk bl b (map fst out)), (blk bl b (map snd out)). repeat split; try done.
  intros t. apply elem_of_gen_blk.
Qed.

(** The batch-level test of the source makes no difference. *)
Lemma mask_transfer_eq active (p : list (list Sc)) : length p = length active ->
  mask_transfer A active p = zip_with (mask_transfer_row A) active p.
Proof.
  intros Hl. unfold mask_transfer. case_bool; [done|]. apply list_eq. intros b.
  rewrite list_lookup_fmap, lookup_zip_with.
  destruct (active !! b) as [ab|] eqn:Ea; simpl; [|done].
  destruct (lookup_lt_is_Some_2 p b) as [pb ->]; [rewrite Hl; by eapply lookup_lt_Some|]. simpl.
  unfold mask_transfer_row. destruct (Nat.eqb_spec (count_true ab) 0); [done|].
  destruct (count_true_pos ab) as [[k Hk] _]; [lia|]. exfalso.
  assert (Ex : existsb any active = true); [|congruence].
  apply existsb_exists. exists ab. split; [by eapply list_elem_of_In, list_elem_of_lookup_2|].
  apply any_true. eauto.
Qed.

Lemma prompt_mask_length start plen : length (prompt_mask_in_block A start plen) = bl.
Proof.
  unfold prompt_mask_in_block. case_bool; [|apply length_replicate].
  rewrite length_app, !length_replicate. lia.
Qed.

Lemma prompt_mask_lookup nb plen k : k < bl ->
  prompt_mask_in_block A (nb * bl) plen !! k = Some (nb * bl + k <? plen).
Proof.
  intros Hk. unfold prompt_mask_in_block. destruct (Nat.ltb_spec (nb * bl) plen).
  - destruct (Nat.ltb_spec (nb * bl + k) plen).
    + rewrite lookup_app_l by (rewrite length_replicate; lia). apply lookup_replicate. split; [done|lia].
    + rewrite lookup_app_r; rewrite length_replicate; [|lia]. apply lookup_replicate. split; [done|lia].
  - destruct (Nat.ltb_spec (nb * bl + k) plen); [lia|]. by apply lookup_replicate.
Qed.

(** The block of a row after the pass. *)
Definition new_block (nb plen : nat) (row toks : list Z) (ps : list Sc) : list Z :=
  let old := blk bl nb row in
  apply_transfer
    (row_final A (prompt_mask_in_block A (nb * bl) plen) (mask_of mask old) toks old ps) toks old.

Lemma apply_transfer_false (f : list bool) toks old :
  length f = length old -> length toks = length old -> any f = false -> apply_transfer f toks old = old.
Proof.
  intros Hf Ht Ha. apply list_eq. intros k. destruct (old !! k) as [v|] eqn:Ev.
  - destruct (lookup_lt_is_Some_2 f k) as [fv Hfv]; [rewrite Hf; by eapply lookup_lt_Some|].
    destruct (lookup_lt_is_Some_2 toks k) as [tv Htv]; [rewrite Ht; by eapply lookup_lt_Some|].
    rewrite (lookup_apply_transfer _ _ _ _ _ _ _ Hfv Htv Ev).
    by rewrite (any_false f k fv Ha Hfv).
  - apply lookup_ge_None. rewrite length_apply_transfer by done. by apply lookup_ge_None.
Qed.

Lemma set_blk_self {T} nb (row : list T) : S nb * bl <= length row -> set_blk bl nb (blk bl nb row) row = row.
Proof.
  intros Hl. unfold set_blk, blk, py_splice. rewrite length_py_slice by lia.
  unfold py_slice. replace (nb * bl + bl - nb * bl) with bl by lia.
  rewrite <- (take_drop (nb * bl) row) at 4. f_equal.
  rewrite <- (take_drop bl (drop (nb * bl) row)) at 2. f_equal. rewrite drop_drop. done.
Qed.

(** What a pass does to every row. *)
Lemma pass_rows nb plen logits rs x rs' x' e total :
  rect total x -> S nb * bl <= total -> logits_ok (length x) logits ->
  denoise_pass A mask nb plen logits rs x = Ok (rs', (x', e)) ->
  length x' = length x /\
  exists lg out, penalise_batch A mask (map (take (S nb * bl)) x) logits = Ok lg /\
    _sample_with_temperature_topk_topp rs (concat lg) (temperature A) (top_k A) (top_p A) = Ok (rs', out) /\
    forall b row, x !! b = Some row -> exists toks ps,
      length toks = bl /\ length ps = bl /\ (forall t, t ∈ toks -> t ∈ map fst out) /\
      x' !! b = Some (set_blk bl nb (new_block nb plen row toks ps) row).
Proof.
  intros Hx Hnb Hlog. unfold denoise_pass.
  destruct (penalise_batch _ _ _ _) as [lg|] eqn:Elg; cbn [rbind]; [|done].
  assert (Hlg : logits_ok (length x) lg) by (eapply penalise_ok; [by rewrite length_map|done|done]).
  destruct (sample_batch A rs lg) as [[rs1 [x0 p]]|] eqn:Es; cbn [rbind]; [|done].
  destruct (sample_batch_ok _ _ _ _ _ _ Hlg Es) as (L1 & L2 & out & Hout & Hrows).
  rewrite mask_transfer_eq by (rewrite !length_map; lia).
  set (final := zip_with (zip_with orb) _ _). intros [= <- <- _].
  assert (Hw : forall b row, x !! b = Some row -> exists toks ps,
    length toks = bl /\ length ps = bl /\ (forall t, t ∈ toks -> t ∈ map fst out) /\
    x0 !! b = Some toks /\
    final !! b = Some (row_final A (prompt_mask_in_block A (nb * bl) plen)
                         (mask_of mask (blk bl nb row)) toks (blk bl nb row) ps)).
  { intros b row Hb. destruct (Hrows b) as (toks & ps & E1 & E2 & T1 & T2 & T3);
      [by eapply lookup_lt_Some|].
    exists toks, ps. repeat split; try done. unfold final, editing_transfer.
    rewrite !lookup_zip_with, !list_lookup_fmap, Hb, E1, E2. done. }
  assert (Hwl : length (write_block A nb final x0 x) = length x).
  { unfold write_block, final, editing_transfer.
    repeat (rewrite length_zip_with || rewrite length_map). lia. }
  split; [by destruct (existsb any final)|]. exists lg, out. split; [done|]. split; [done|].
  intros b row Hb. destruct (Hw b row Hb) as (toks & ps & T1 & T2 & T3 & Ex0 & Ef).
  exists toks, ps. repeat split; try done.
  assert (Hlb : length (blk bl nb row) = bl)
    by (unfold blk; rewrite length_py_slice; [lia|rewrite (rect_lookup _ _ _ _ Hx Hb); lia]).
  destruct (existsb any final) eqn:Ea.
  - unfold write_block. rewrite !lookup_zip_with, Ef, Ex0, Hb. done.
  - rewrite Hb. f_equal. symmetry. unfold new_block. rewrite apply_transfer_false.
    + apply set_blk_self. rewrite (rect_lookup _ _ _ _ Hx Hb). lia.
    + rewrite row_final_length; rewrite ?length_mask_of, ?prompt_mask_length; lia.
    + lia.
    + destruct (any _) eqn:Eaf; [|done]. exfalso.
      assert (existsb any final = true); [|congruence].
      apply existsb_exists. eexists. split; [by eapply list_elem_of_In, list_elem_of_lookup_2|done].
Qed.

End Pass.

(** ** What a pass may change in a row *)

Section RowStep.
Context {Sc RS : Type} `{DenoiseOps Sc} `{!TopkOps Sc} `{!SampleOps Sc RS} `{!TopkLaws Sc} `{!SampleLaws Sc RS}.
Variables (A : gen_args) (mask : Z) (nb plen : nat) (Q : Z -> Prop).
#[local] Abbreviation bl := (block_length A).
Implicit Types (row toks : list Z) (ps : list Sc).

(** [row'] differs from [row] only inside block [nb], not at unmasked prompt
    positions, and only by tokens that satisfy [Q]. *)
Record row_kept (row row' : list Z) : Prop := {
  rk_length : length row' = length row;
  rk_outside : forall t, t < nb * bl \/ S nb * bl <= t -> row' !! t = row !! t;
  rk_prompt : forall t v, t < plen -> row !! t = Some v -> v <> mask -> row' !! t = Some v;
  rk_values : forall t v, row' !! t = Some v -> row !! t = Some v \/ Q v;
}.

Lemma row_kept_refl row : row_kept row row.
Proof. split; auto. Qed.

Lemma row_kept_trans r1 r2 r3 : row_kept r1 r2 -> row_kept r2 r3 -> row_kept r1 r3.
Proof.
  intros [L1 O1 P1 V1] [L2 O2 P2 V2]. split; [congruence| |eauto|].
  - intros t Ht. by rewrite O2, O1.
  - intros t v [Hv|Hv]%V2; [by apply V1|by right].
Qed.

Section New.
Variables (row toks : list Z) (ps : list Sc).
Hypothesis row_long : S nb * bl <= length row.
Hypothesis toks_length : length toks = bl.
Hypothesis ps_length : length ps = bl.
#[local] Abbreviation old := (blk bl nb row).
#[local] Abbreviation new := (new_block A mask nb plen row toks ps).
#[local] Abbreviation sel :=
  (row_final A (prompt_mask_in_block A (nb * bl) plen) (mask_of mask old) toks old ps).

Lemma old_length : length old = bl.
Proof. unfold blk. rewrite length_py_slice; lia. Qed.

Lemma sel_length : length sel = bl.
Proof.
  pose proof old_length. rewrite row_final_length; rewrite ?length_mask_of, ?prompt_mask_length; lia.
Qed.

Lemma new_length : length new = bl.
Proof.
  pose proof old_length. pose proof sel_length. unfold new_block.
  rewrite length_apply_transfer; lia.
Qed.

Lemma new_lookup k : k < bl -> exists f t v, sel !! k = Some f /\ toks !! k = Some t /\
  old !! k = Some v /\ new !! k = Some (if f : bool then t else v).
Proof.
  intros Hk. destruct (lookup_lt_is_Some_2 sel k) as [f Hf]; [by rewrite sel_length|].
  destruct (lookup_lt_is_Some_2 toks k) as [t Ht]; [by rewrite toks_length|].
  destruct (lookup_lt_is_Some_2 old k) as [v Hv]; [by rewrite old_length|].
  exists f, t, v. repeat split; try done. by apply lookup_apply_transfer.
Qed.

Lemma sel_masked_or_free k : sel !! k = Some true ->
  old !! k = Some mask \/ plen <= nb * bl + k.
Proof.
  intros Hs. assert (Hk : k < bl) by (rewrite <- sel_length; by eapply lookup_lt_Some).
  pose proof old_length.
  apply row_final_true in Hs; [|by rewrite length_mask_of; lia]. rewrite lookup_mask_of in Hs.
  destruct (old !! k) as [v|] eqn:Ev; simpl in Hs; [|by destruct Hs as [|[]]].
  destruct Hs as [Hs|[_ Hs]].
  - left. injection Hs as Hs%Z.eqb_eq. by subst.
  - right. rewrite prompt_mask_lookup in Hs by done. injection Hs as Hs%Nat.ltb_ge. done.
Qed.

Lemma new_kept : (forall t, t ∈ toks -> Q t) -> row_kept row (set_blk bl nb new row).
Proof.
  intros HQ. pose proof new_length as Hn. unfold set_blk.
  assert (Hin : forall t, nb * bl <= t < S nb * bl ->
    py_splice (nb * bl) new row !! t = new !! (t - nb * bl)) by (intros; apply lookup_py_splice_in; lia).
  assert (Hout : forall t, t < nb * bl \/ S nb * bl <= t ->
    py_splice (nb * bl) new row !! t = row !! t) by (intros; apply lookup_py_splice_out; lia).
  assert (Hold : forall t, nb * bl <= t < S nb * bl -> old !! (t - nb * bl) = row !! t).
  { intros t Ht. rewrite lookup_blk by lia. f_equal. lia. }
  split.
  - apply length_py_splice. lia.
  - done.
  - intros t v Ht Hv Hm. destruct (decide (nb * bl <= t < S nb * bl)) as [Hr|Hr]; [|rewrite Hout; [done|lia]].
    rewrite Hin by done. destruct (new_lookup (t - nb * bl)) as (f & tk & w & Hf & _ & Hw & ->); [lia|].
    rewrite Hold, Hv in Hw by done. injection Hw as <-. destruct f; [|done]. exfalso.
    apply sel_masked_or_free in Hf as [Hf|Hf]; [|lia]. rewrite Hold, Hv in Hf by done. congruence.
  - intros t v. destruct (decide (nb * bl <= t < S nb * bl)) as [Hr|Hr]; [|rewrite Hout by lia; by left].
    rewrite Hin by done. destruct (new_lookup (t - nb * bl)) as (f & tk & w & Hf & Htk & Hw & ->); [lia|].
    rewrite Hold in Hw by done. intros [= <-]. destruct f; [|by left].
    right. apply HQ. by eapply list_elem_of_lookup_2.
Qed.

(** Every row with a mask in the block loses one, when the sampled tokens are
    not masks. *)
Lemma new_masks : (forall t, t ∈ toks -> t <> mask) ->
  masks mask new <= masks mask old /\
  ((1 <= num_to_transfer A)%Z -> 0 < masks mask old -> masks mask new < masks mask old).
Proof.
  intros Hm. pose proof old_length. pose proof new_length.
  assert (Hk : forall k v v', old !! k = Some v -> new !! k = Some v' -> v' = mask -> v = mask).
  { intros k v v' Hv Hv' ->. destruct (new_lookup k) as (f & t & w & _ & Ht & Hw & Hn).
    { rewrite <- old_length. by eapply lookup_lt_Some. }
    rewrite Hv in Hw. rewrite Hv' in Hn. simplify_eq. destruct f; [|by simplify_eq].
    exfalso. apply (Hm t); [by eapply list_elem_of_lookup_2|congruence]. }
  split; [by apply masks_mono; [lia|]|]. intros Hn Hp.
  destruct (row_final_progress A (prompt_mask_in_block A (nb * bl) plen) (mask_of mask old) toks old ps)
    as (k & Hs & Hab); rewrite ?length_mask_of, ?prompt_mask_length; try lia; try done.
  assert (Hkb : k < bl) by (rewrite <- sel_length; by eapply lookup_lt_Some).
  destruct (new_lookup k Hkb) as (f & t & w & Hf & Ht & Hw & Hnew).
  rewrite Hs in Hf. injection Hf as <-. rewrite lookup_mask_of, Hw in Hab. injection Hab as Hab%Z.eqb_eq.
  apply (masks_strict mask old new k); [lia|done|by subst|].
  exists t. split; [done|]. apply Hm. by eapply list_elem_of_lookup_2.
Qed.

End New.

Lemma blk_set_new row toks ps :
  S nb * bl <= length row -> length toks = bl -> length ps = bl ->
  blk bl nb (set_blk bl nb (new_block A mask nb plen row toks ps) row)
    = new_block A mask nb plen row toks ps.
Proof.
  intros Hr Ht Hp. pose proof (new_length row toks ps Hr Ht Hp) as Hn. unfold blk, set_blk.
  pose proof (py_slice_splice_same (nb * bl) (new_block A mask nb plen row toks ps) row) as E.
  rewrite Hn in E. apply E. lia.
Qed.

End RowStep.

(** ** The loop of one block *)

Section Block.
Context {Sc RS : Type} `{DenoiseOps Sc} `{!TopkOps Sc} `{!SampleOps Sc RS} `{!TopkLaws Sc} `{!SampleLaws Sc RS}.
Variables (A : gen_args) (mask : Z) (nb plen V total n : nat) (Q : Z -> Prop).
Variable logits_of : list (list Z) -> res (list (list (list Sc))).
#[local] Abbreviation bl := (block_length A).
Implicit Types (x : list (list Z)).

Hypothesis window_fits : S nb * bl <= total.
Hypothesis logits_shape : forall x lg, rect total x -> length x = n -> logits_of x = Ok lg -> logits_ok A V n lg.

(** Tokens that the sampler draws from the logits of the model satisfy [Q]. *)
Definition draws_ok : Prop := forall rs x lg lg' rs' out, rect total x -> length x = n ->
  logits_of x = Ok lg -> penalise_batch A mask (map (take (S nb * bl)) x) lg = Ok lg' ->
  _sample_with_temperature_topk_topp rs (concat lg') (temperature A) (top_k A) (top_p A) = Ok (rs', out) ->
  forall t, t ∈ map fst out -> Q t.

Definition kept x x' : Prop := Forall2 (row_kept A mask nb plen Q) x x'.

Lemma rows_kept_refl x : kept x x.
Proof. apply Forall_Forall2_diag, Forall_forall. intros. apply row_kept_refl. Qed.

Lemma kept_trans x1 x2 x3 : kept x1 x2 -> kept x2 x3 -> kept x1 x3.
Proof.
  apply Forall2_trans. intros r1 r2 r3. apply row_kept_trans.
Qed.

Lemma kept_rect x x' : kept x x' -> rect total x -> length x = n -> rect total x' /\ length x' = n.
Proof.
  intros Hk Hx Hn. split; [|by rewrite <- (Forall2_length _ _ _ Hk)].
  apply Forall_lookup. intros b r' Hr'. destruct (Forall2_lookup_r _ _ _ _ _ Hk Hr') as (r & Hr & K).
  rewrite (rk_length _ _ _ _ _ _ _ K). by apply (rect_lookup _ _ _ _ Hx Hr).
Qed.

(** Masks of the block of a row. *)
Definition block_masks (row : list Z) : nat := masks mask (blk bl nb row).

Lemma pass_kept rs x lg rs' x' e :
  draws_ok -> rect total x -> length x = n -> logits_of x = Ok lg ->
  denoise_pass A mask nb plen lg rs x = Ok (rs', (x', e)) ->
  kept x x' /\
  ((forall t, Q t -> t <> mask) -> (1 <= num_to_transfer A)%Z ->
   forall b r r', x !! b = Some r -> x' !! b = Some r' -> block_masks r' <= block_masks r - 1).
Proof.
  intros Hq Hx Hn Hlg Hp.
  destruct (pass_rows A mask V nb plen lg rs x rs' x' e total) as (Hl & lg' & out & Hpen & Hout & Hrows);
    [done|done|by rewrite Hn; apply (logits_shape x)|done|].
  specialize (Hq rs x lg lg' rs' out Hx Hn Hlg Hpen Hout). split.
  - apply Forall2_same_length_lookup_2; [done|]. intros b r r' Hr Hr'.
    destruct (Hrows b r Hr) as (toks & ps & T1 & T2 & T3 & E). rewrite Hr' in E. injection E as ->.
    apply new_kept; [by rewrite (rect_lookup _ _ _ _ Hx Hr)|done|done|]. intros t Ht. by apply Hq, T3.
  - intros Hmask Hnt b r r' Hr Hr'.
    destruct (Hrows b r Hr) as (toks & ps & T1 & T2 & T3 & E). rewrite Hr' in E. injection E as ->.
    assert (Hlr : S nb * bl <= length r) by (by rewrite (rect_lookup _ _ _ _ Hx Hr)).
    unfold block_masks. rewrite blk_set_new by done.
    destruct (new_masks A mask nb plen r toks ps Hlr T1 T2) as [M1 M2].
    { intros t Ht. by apply Hmask, Hq, T3. }
    destruct (decide (masks mask (blk bl nb r) = 0)); [lia|]. specialize (M2 Hnt ltac:(lia)). lia.
Qed.

Lemma denoise_kept m : draws_ok -> forall post rs x rs' x', rect total x -> length x = n ->
  denoise_block A mask logits_of nb plen m post rs x = Ok (rs', x') -> kept x x'.
Proof.
  intros Hq. induction m as [|m IH]; intros post rs x rs' x' Hx Hn; cbn [denoise_block].
  { intros [= _ <-]. apply rows_kept_refl. }
  case_bool; [intros [= _ <-]; apply rows_kept_refl|].
  destruct (logits_of x) as [lg|] eqn:El; cbn [rbind]; [|done].
  destruct (denoise_pass _ _ _ _ _ _ _) as [[rs1 [x1 e]]|] eqn:Ep; cbn [rbind]; [|done].
  destruct (pass_kept _ _ _ _ _ _ Hq Hx Hn El Ep) as [K _]. case_bool; [by intros [= _ <-]|].
  intros Hd. destruct (kept_rect _ _ K Hx Hn) as [Hx1 Hn1]. eapply kept_trans; [exact K|eauto].
Qed.

Definition has_mask x : bool := existsb any (map (mask_of mask) (map (blk bl nb) x)).

Lemma has_mask_false x : has_mask x = false <-> Forall (fun r => block_masks r = 0) x.
Proof.
  unfold has_mask. rewrite <- not_true_iff_false, existsb_exists, Forall_forall. split.
  - intros Hn r Hr. unfold block_masks. apply masks_0, any_mask_of.
    destruct (any _) eqn:Ea; [|done]. destruct Hn. exists (mask_of mask (blk bl nb r)). split; [|done].
    by apply in_map, in_map, list_elem_of_In.
  - intros Hall (m & Hm & Ha). apply in_map_iff in Hm as (o & <- & Ho).
    apply in_map_iff in Ho as (r & <- & Hr%list_elem_of_In).
    assert (any (mask_of mask (blk bl nb r)) = false); [|congruence].
    by apply any_mask_of, masks_0, Hall.
Qed.

(** With as many steps as a row has masks in the block, none is left. *)
Lemma denoise_block_clean m : draws_ok -> (forall t, Q t -> t <> mask) -> (1 <= num_to_transfer A)%Z ->
  forall post rs x rs' x', rect total x -> length x = n ->
  Forall (fun r => block_masks r <= m) x -> (has_mask x = true -> (post <= max_post_steps A)%Z) ->
  denoise_block A mask logits_of nb plen m post rs x = Ok (rs', x') ->
  Forall (fun r => block_masks r = 0) x'.
Proof.
  intros Hq Hm Hnt. induction m as [|m IH]; intros post rs x rs' x' Hx Hn Hms Hpost; cbn [denoise_block].
  { intros [= _ <-]. eapply Forall_impl; [exact Hms|]. intros; simpl in *; lia. }
  change (existsb any (map (mask_of mask) (map (blk bl nb) x))) with (has_mask x).
  assert (Hzero : has_mask x = false -> Forall (fun r => block_masks r = 0) x) by apply has_mask_false.
  case_bool.
  { intros [= _ <-]. apply Hzero. destruct (has_mask x); [|done]. specialize (Hpost eq_refl). blia. }
  destruct (logits_of x) as [lg|] eqn:El; cbn [rbind]; [|done].
  destruct (denoise_pass _ _ _ _ _ _ _) as [[rs1 [x1 e]]|] eqn:Ep; cbn [rbind]; [|done].
  destruct (pass_kept _ _ _ _ _ _ Hq Hx Hn El Ep) as [K Hdec]. specialize (Hdec Hm Hnt).
  destruct (kept_rect _ _ K Hx Hn) as [Hx1 Hn1].
  assert (Hms1 : forall c, Forall (fun r => block_masks r <= c) x -> Forall (fun r => block_masks r <= c - 1) x1).
  { intros c Hc. apply Forall_lookup. intros b r' Hr'. simpl.
    destruct (Forall2_lookup_r _ _ _ _ _ K Hr') as (r & Hr & _).
    pose proof (Forall_lookup_1 _ _ _ _ Hc Hr). pose proof (Hdec b r r' Hr Hr'). simpl in *. lia. }
  assert (Hz1 : has_mask x = false -> Forall (fun r => block_masks r = 0) x1).
  { intros Hf. eapply Forall_impl; [apply (Hms1 0)|intros; simpl in *; lia].
    eapply Forall_impl; [by apply Hzero|intros; simpl in *; lia]. }
  case_bool; [intros [= _ <-]; apply Hz1; destruct (has_mask x); [done|done]|].
  apply IH; [done|done| |].
  - eapply Forall_impl; [by apply (Hms1 (S m))|]. intros; simpl in *; lia.
  - intros Hh. destruct (has_mask x) eqn:Eh; [by apply Hpost|].
    apply has_mask_false in Hz1; [|done]. congruence.
Qed.

End Block.

(** ** Blocks of the vocabulary *)

Section Vocabulary.
Context {Sc RS : Type} `{DenoiseOps Sc} `{!TopkOps Sc} `{!SampleOps Sc RS} `{!TopkLaws Sc} `{!SampleLaws Sc RS}.
Variables (A : gen_args) (mask : Z) (nb plen V total n : nat).
Variable logits_of : list (list Z) -> res (list (list (list Sc))).
#[local] Abbreviation bl := (block_length A).
#[local] Abbreviation in_vocab := (fun t : Z => 0 <= t < Z.of_nat V)%Z.
Implicit Types (x : list (list Z)).

Hypothesis window_fits : S nb * bl <= total.
Hypothesis logits_shape : forall x lg, rect total x -> length x = n -> logits_of x = Ok lg -> logits_ok A V n lg.
Hypothesis V_pos : 0 < V.

(** Sampled tokens are of the vocabulary. *)
Lemma draws_vocab : draws_ok A mask nb total n in_vocab logits_of (RS := RS).
Proof.
  intros rs x lg lg' rs' out Hx Hn Hl Hp Hs t Ht. apply list_elem_of_fmap in Ht as ([t' p] & -> & Hin).
  apply list_elem_of_lookup in Hin as [i Hi]. eapply sample_range; [exact V_pos| |exact Hs|exact Hi].
  apply (concat_ok A V n). eapply penalise_ok; [by rewrite length_map|by apply (logits_shape x)|exact Hp].
Qed.

Lemma kept_vocab x x' : kept A mask nb plen in_vocab x x' -> vocab_ok V x = true -> vocab_ok V x' = true.
Proof.
  rewrite !vocab_ok_spec. intros K Hv row t [b Hb]%list_elem_of_lookup [i Hi]%list_elem_of_lookup.
  destruct (Forall2_lookup_r _ _ _ _ _ K Hb) as (r & Hr & Hk). destruct (rk_values _ _ _ _ _ _ _ Hk _ _ Hi) as [Ht|Ht]; [|done].
  apply (Hv r); by eapply list_elem_of_lookup_2.
Qed.

Lemma denoise_vocab m post rs x rs' x' : rect total x -> length x = n -> vocab_ok V x = true ->
  denoise_block A mask logits_of nb plen m post rs x = Ok (rs', x') ->
  rect total x' /\ length x' = n /\ vocab_ok V x' = true.
Proof.
  intros Hx Hn Hv E.
  pose proof (denoise_kept A mask nb plen V total n in_vocab logits_of window_fits logits_shape m draws_vocab _ _ _ _ _ Hx Hn E) as K.
  destruct (kept_rect _ _ _ _ _ _ _ _ _ K Hx Hn) as [H1 H2]. split; [done|]. split; [done|]. by eapply kept_vocab.
Qed.

(** A pass returns, and so does the loop. *)
Hypothesis logits_total : forall x, rect total x -> length x = n -> vocab_ok V x = true -> exists lg, logits_of x = Ok lg.
Hypothesis fits : top_k_fits (temperature A) (top_k A) V = true.
Hypothesis draws : drawable (temperature A) V (Sc := Sc) (RS := RS).

Lemma pass_total rs x lg : rect total x -> length x = n -> vocab_ok V x = true -> logits_of x = Ok lg ->
  exists rs' x' e, denoise_pass A mask nb plen lg rs x = Ok (rs', (x', e)).
Proof.
  intros Hx Hn Hv Hl. unfold denoise_pass. pose proof (logits_shape x lg Hx Hn Hl) as Hlg.
  destruct (penalise_total A mask V n (map (take (S nb * bl)) x) lg Hlg (vocab_ok_take _ _ _ Hv)) as [lg' Ep]. rewrite Ep. cbn [rbind].
  assert (Hok : logits_ok A V n lg') by (eapply penalise_ok; [by rewrite length_map|exact Hlg|exact Ep]).
  destruct (concat_ok _ _ _ _ Hok) as [Hvl _]. unfold sample_batch.
  destruct (sample_total rs _ (temperature A) (top_k A) (top_p A) V Hvl fits draws) as (rs' & out & ->).
  cbn [rbind]. by eexists _, _, _.
Qed.

Lemma denoise_total m : forall post rs x, rect total x -> length x = n -> vocab_ok V x = true ->
  exists rs' x', denoise_block A mask logits_of nb plen m post rs x = Ok (rs', x').
Proof.
  induction m as [|m IH]; intros post rs x Hx Hn Hv; cbn [denoise_block]; [by eexists _, _|].
  case_bool; [by eexists _, _|]. destruct (logits_total x Hx Hn Hv) as [lg El]. rewrite El. cbn [rbind].
  destruct (pass_total rs x lg Hx Hn Hv El) as (rs1 & x1 & e & Ep). rewrite Ep. cbn [rbind].
  case_bool; [by eexists _, _|].
  destruct (pass_kept A mask nb plen V total n in_vocab logits_of window_fits logits_shape _ _ _ _ _ _ draws_vocab Hx Hn El Ep) as [K _].
  destruct (kept_rect _ _ _ _ _ _ _ _ _ K Hx Hn) as [Hx1 Hn1]. apply IH; [done|done|by eapply kept_vocab].
Qed.

End Vocabulary.

(** The loop depends on the forward pass only at the tokens it reaches. *)
Lemma denoise_ext {Sc RS : Type} `{DenoiseOps Sc} `{!TopkOps Sc} `{!SampleOps Sc RS} `{!TopkLaws Sc} `{!SampleLaws Sc RS}
    (A : gen_args) mask nb plen V total (f g : list (list Z) -> res (list (list (list Sc)))) m post (rs : RS)
    (x0 x : list (list Z)) :
  let k := kept A mask nb plen (fun t => 0 <= t < Z.of_nat V)%Z in
  0 < V -> S nb * block_length A <= total ->
  (forall x lg, rect total x -> length x = length x0 -> f x = Ok lg -> logits_ok A V (length x0) lg) ->
  rect total x0 -> k x0 x -> (forall x, k x0 x -> f x = g x) ->
  denoise_block A mask f nb plen m post rs x = denoise_block A mask g nb plen m post rs x.
Proof.
  intros k HV Hw Hf Hx0 Hk Hfg. revert post rs x Hk.
  induction m as [|m IH]; intros post rs x Hk; cbn [denoise_block]; [done|].
  case_bool; [done|]. rewrite <- (Hfg x Hk). destruct (f x) as [lg|] eqn:El; cbn [rbind]; [|done].
  destruct (denoise_pass _ _ _ _ _ _ _) as [[rs1 [x1 e]]|] eqn:Ep; cbn [rbind]; [|done].
  case_bool; [done|]. apply IH. eapply kept_trans; [exact Hk|].
  destruct (kept_rect A mask nb plen total (length x0) _ x0 x Hk Hx0 eq_refl) as [Hx Hn].
  destruct (pass_kept A mask nb plen V total (length x0) _ f Hw Hf rs x lg rs1 x1 e
    (draws_vocab A mask nb V total (length x0) f Hf HV) Hx Hn El Ep) as [K _]. done.
Qed.

End GenFacts.
