(* ===== verification/GenerateProps.v ===== *)
(** Properties of the generation loop of the Hugging Face model: it returns,
    its result has the shape and the tokens it should have, the cached variant
    computes the same, and what the early stop leaves behind. *)
From stdpp Require Import base list sorting.
From Stdlib Require Import ZArith QArith Lia.
From S2P Require Import Prelude Denoise Sampling Generate GenerateFacts.
Local Open Scope nat_scope.

Module GenProps.
Import Sampler Gen GenFacts.

Section Loop.
Context {Sc RS ST : Type} `{DenoiseOps Sc} `{!TopkOps Sc} `{!SampleOps Sc RS} `{!TopkLaws Sc} `{!SampleLaws Sc RS}.
Context `{!CausalLM Sc ST} {V : nat} `{!LMShape Sc ST V}.
Variables (A : gen_args) (mask : Z) (eos : option Z) (plen total : nat).
#[local] Abbreviation bl := (block_length A).
Implicit Types (x : list (list Z)).

Lemma take_rect nb x : rect total x -> S nb * bl <= total -> rect (S nb * bl) (map (take (S nb * bl)) x).
Proof.
  intros Hx Hnb. apply Forall_map. eapply Forall_impl; [exact Hx|]. intros r Hr.
  simpl in Hr |- *. rewrite length_take. lia.
Qed.

Lemma window_logits_ok nb x lg : 0 < bl -> rect total x -> S nb * bl <= total ->
  window_logits A nb x = Ok lg -> logits_ok A V (length x) lg.
Proof.
  intros Hb Hx Hnb. assert (Hpos : 0 < S nb * bl) by nia. unfold window_logits.
  destruct (lm_forward _) as [l|] eqn:El; cbn [rbind]; [|done]. intros [= <-].
  destruct (lm_shape _ _ l Hpos (take_rect nb x Hx Hnb) El) as [L1 L2].
  split; [by rewrite length_map, L1, length_map|].
  apply Forall_map. eapply Forall_impl; [exact L2|]. intros r [Hl Hv]. unfold py_last.
  split; [rewrite length_drop; lia|]. by apply Forall_drop.
Qed.

Lemma window_total nb x : 0 < bl -> rect total x -> S nb * bl <= total -> x <> [] -> vocab_ok V x = true ->
  exists lg : list (list (list Sc)), window_logits A nb x = Ok lg.
Proof.
  intros Hb Hx Hnb Hne Hv. assert (Hpos : 0 < S nb * bl) by nia. unfold window_logits.
  destruct (lm_total _ _ Hpos (take_rect nb x Hx Hnb)) as [l ->]; [by destruct x|by apply vocab_ok_take|]. by eexists.
Qed.

(** Tokens drawn from the logits of a batch of [n] rows satisfy [Q]. *)
Definition lm_draws (n : nat) (Q : Z -> Prop) : Prop := forall nb, S nb * bl <= total ->
  draws_ok A mask nb total n Q (window_logits A nb) (RS := RS).

Lemma draws_in_vocab n : 0 < bl -> 0 < V -> lm_draws n (fun t => 0 <= t < Z.of_nat V)%Z.
Proof.
  intros Hb HV nb Hw. apply draws_vocab; [|done]. intros x lg Hx <-. by apply window_logits_ok.
Qed.

Variables (n : nat) (Q : Z -> Prop).
Hypothesis draws : lm_draws n Q.
Hypothesis n_pos : 0 < n.
Hypothesis V_pos : 0 < V.
Hypothesis fits : top_k_fits (temperature A) (top_k A) V = true.
Hypothesis drawn : drawable (temperature A) V (Sc := Sc) (RS := RS).

(** ** The loop over the blocks keeps the rows *)

(** Nothing before position [a] and nothing of the prompt has changed. *)
Record row_grown (a : nat) (row row' : list Z) : Prop := {
  rg_length : length row' = length row;
  rg_before : forall t, t < a -> row' !! t = row !! t;
  rg_prompt : forall t v, t < plen -> row !! t = Some v -> v <> mask -> row' !! t = Some v;
  rg_values : forall t v, row' !! t = Some v -> row !! t = Some v \/ Q v;
}.

Lemma row_grown_refl a row : row_grown a row row.
Proof. split; auto. Qed.

Lemma row_grown_step nb r1 r2 r3 :
  row_kept A mask nb plen Q r1 r2 -> row_grown (S nb * bl) r2 r3 -> row_grown (nb * bl) r1 r3.
Proof.
  intros [L1 O1 P1 V1] [L2 B2 P2 V2]. split; [congruence| |eauto|].
  - intros t Ht. rewrite B2, O1 by lia. done.
  - intros t v [Hv|Hv]%V2; [by apply V1|by right].
Qed.

Lemma row_kept_grown nb r r' : row_kept A mask nb plen Q r r' -> row_grown (nb * bl) r r'.
Proof. intros [L O P W]. split; auto. Qed.

Lemma window_fits N a c : N * bl <= total -> a + S c = N -> S a * bl <= total.
Proof. nia. Qed.

Lemma block_loop_spec m N c : 0 < bl -> N * bl <= total -> forall a rs x, a + c = N -> rect total x -> length x = n ->
  vocab_ok V x = true ->
  exists rs' x', block_loop A mask eos plen m (seq a c) rs x = Ok (rs', x') /\
    Forall2 (row_grown (a * bl)) x x'.
Proof.
  intros Hb HN. induction c as [|c IH]; intros a rs x Ha Hx Hn Hv; cbn [seq block_loop].
  { exists rs, x. split; [done|]. apply Forall_Forall2_diag, Forall_forall. intros. apply row_grown_refl. }
  pose proof (window_fits N a c HN Ha) as Hw.
  assert (Hlog : forall y lg, rect total y -> length y = n -> window_logits A a y = Ok lg -> logits_ok A V n lg)
    by (intros y lg Hy <-; by apply window_logits_ok).
  assert (Htot : forall y, rect total y -> length y = n -> vocab_ok V y = true -> exists lg, window_logits A a y = Ok lg).
  { intros y Hy Hl Hvy. apply window_total; try done. intros ->. simpl in Hl. lia. }
  destruct (denoise_total A mask a plen V total n (window_logits A a) Hw Hlog V_pos Htot fits drawn m 0 rs x Hx Hn Hv)
    as (rs1 & x1 & E1).
  pose proof (denoise_kept A mask a plen V total n Q (window_logits A a) Hw Hlog m (draws a Hw) _ _ _ _ _ Hx Hn E1) as K1.
  destruct (denoise_vocab A mask a plen V total n (window_logits A a) Hw Hlog V_pos _ _ _ _ _ _ Hx Hn Hv E1) as (Hx1 & Hn1 & Hv1).
  rewrite E1. cbn [rbind]. case_bool.
  - exists rs1, x1. split; [done|]. eapply Forall2_impl; [exact K1|]. intros. by apply row_kept_grown.
  - destruct (IH (S a) rs1 x1) as (rs2 & x2 & E2 & G2); [lia|done|done|done|].
    exists rs2, x2. split; [done|]. eapply Forall2_trans; [apply row_grown_step|exact K1|exact G2].
Qed.

(** ** No mask is left *)

Definition clean_below (p : nat) (row : list Z) : Prop := forall t, t < p -> row !! t <> Some mask.

Lemma clean_block a row : clean_below (a * bl) row -> block_masks A mask a row = 0 ->
  clean_below (S a * bl) row.
Proof.
  intros Hc Hb t Ht Hm. destruct (decide (t < a * bl)) as [Hlt|Hge]; [by apply (Hc t)|].
  unfold block_masks in Hb. apply masks_0 in Hb. apply Hb. apply list_elem_of_lookup.
  exists (t - a * bl). rewrite lookup_blk by lia. rewrite <- Hm. f_equal. lia.
Qed.

(** The block at which the loop stopped, and why. *)
Definition stopped_at (N E : nat) x : Prop :=
  E = N \/
  (E <= N /\ eos_early_stop A = true /\ exists e, eos = Some e /\
     exists row t, row ∈ x /\ plen <= t < E * bl /\ row !! t = Some e).

Lemma stops_early_true nb x : stops_early A mask eos plen nb x = true ->
  eos_early_stop A = true /\ exists e, eos = Some e /\
    exists row t, row ∈ x /\ plen <= t < S nb * bl /\ row !! t = Some e.
Proof.
  unfold stops_early. destruct eos as [e|]; [|done]. destruct (eos_early_stop A); [|done].
  intros [_ Hex]%andb_prop. split; [done|]. exists e. split; [done|].
  apply existsb_exists in Hex as (m & Hm & Ha). apply in_map_iff in Hm as (g & <- & Hg).
  apply in_map_iff in Hg as (row & <- & Hrow%list_elem_of_In).
  apply any_true in Ha as [k Hk]. rewrite lookup_mask_of in Hk.
  destruct (py_slice plen (S nb * bl) row !! k) as [v|] eqn:Ev; [|done].
  injection Hk as Hk%Z.eqb_eq. subst v.
  assert (k < S nb * bl - plen).
  { apply lookup_lt_Some in Ev. unfold py_slice in Ev. rewrite length_take in Ev. lia. }
  rewrite lookup_py_slice in Ev by done. exists row, (plen + k). split; [done|]. split; [lia|done].
Qed.

Lemma block_loop_clean m N c :
  (forall t, Q t -> t <> mask) -> (1 <= num_to_transfer A)%Z -> (0 <= max_post_steps A)%Z -> bl <= m ->
  0 < bl -> N * bl <= total -> forall a rs x rs' x', a + c = N -> rect total x -> length x = n ->
  Forall (clean_below (a * bl)) x ->
  block_loop A mask eos plen m (seq a c) rs x = Ok (rs', x') ->
  exists E, a <= E /\ Forall (clean_below (E * bl)) x' /\ stopped_at N E x'.
Proof.
  intros Hm Hnt Hpost Hbm Hb HN. induction c as [|c IH]; intros a rs x rs' x' Ha Hx Hn Hcl; cbn [seq block_loop].
  { intros [= _ <-]. exists a. split; [done|]. split; [done|]. left. lia. }
  pose proof (window_fits N a c HN Ha) as Hw.
  assert (Hlog : forall y lg, rect total y -> length y = n -> window_logits A a y = Ok lg -> logits_ok A V n lg)
    by (intros y lg Hy <-; by apply window_logits_ok).
  destruct (denoise_block _ _ _ _ _ _ _ _ _) as [[rs1 x1]|] eqn:E1; cbn [rbind]; [|done].
  pose proof (denoise_kept A mask a plen V total n Q (window_logits A a) Hw Hlog m (draws a Hw) _ _ _ _ _ Hx Hn E1) as K1.
  destruct (kept_rect _ _ _ _ _ _ _ _ _ K1 Hx Hn) as [Hx1 Hn1].
  assert (Hz : Forall (fun r => block_masks A mask a r = 0) x1).
  { eapply (denoise_block_clean A mask a plen V total n Q); [exact Hw|exact Hlog|by apply draws|done|done|exact Hx|exact Hn| |by intros _|exact E1].
    apply Forall_lookup. intros b r Hr. unfold block_masks. etransitivity; [apply masks_le|].
    unfold blk. rewrite length_py_slice; [lia|]. rewrite (rect_lookup _ _ _ _ Hx Hr). lia. }
  assert (Hcl1 : Forall (clean_below (S a * bl)) x1).
  { apply Forall_lookup. intros b r Hr. apply clean_block; [|by apply (Forall_lookup_1 _ _ _ _ Hz Hr)].
    destruct (Forall2_lookup_r _ _ _ _ _ K1 Hr) as (r0 & Hr0 & K). intros t Ht.
    rewrite (rk_outside _ _ _ _ _ _ _ K) by lia. by apply (Forall_lookup_1 _ _ _ _ Hcl Hr0). }
  destruct (stops_early A mask eos plen a x1) eqn:Es.
  - intros [= _ <-]. exists (S a). split; [lia|]. split; [done|]. right.
    split; [lia|]. by apply stops_early_true.
  - intros Hr. destruct (IH (S a) rs1 x1 rs' x') as (E & HE & Hc & Hs); try done; [lia|].
    exists E. split; [lia|done].
Qed.

End Loop.

(** ** The cached loop *)

Section Cached.
Context {Sc RS ST : Type} `{DenoiseOps Sc} `{!TopkOps Sc} `{!SampleOps Sc RS} `{!TopkLaws Sc} `{!SampleLaws Sc RS}.
Context `{!CausalLM Sc ST} {V : nat} `{!LMShape Sc ST V}.
Variables (A : gen_args).
Context `{!LMCache Sc ST V (block_length A)}.
Variables (mask : Z) (eos : option Z) (plen total : nat).
#[local] Abbreviation bl := (block_length A).
#[local] Abbreviation anyQ := (fun t : Z => 0 <= t < Z.of_nat V)%Z.
Implicit Types (x y : list (list Z)).

(** The cache depends on the committed blocks only. *)
Lemma committed_ext a x y : length x = length y ->
  (forall j, j < a -> map (blk bl j) x = map (blk bl j) y) ->
  committed bl a x = committed bl a y :> res ST.
Proof.
  intros Hl Hb. unfold committed. rewrite Hl. revert Hb. induction a as [|a IH]; intros Hb; [done|].
  rewrite !seq_S, !foldl_app. cbn [foldl Nat.add]. rewrite IH by (intros; apply Hb; lia).
  by rewrite (Hb a) by lia.
Qed.

Lemma kept_blocks nb x y j : kept A mask nb plen anyQ x y -> j < nb ->
  map (blk bl j) x = map (blk bl j) y.
Proof.
  intros HK Hj. induction HK as [|r r' x y Hr HK IH]; [done|]. simpl. f_equal; [|done].
  unfold blk, py_slice. apply list_eq. intros k. destruct (decide (k < j * bl + bl - j * bl)).
  - rewrite !lookup_take_lt, !lookup_drop by lia. symmetry. apply (rk_outside _ _ _ _ _ _ _ Hr). nia.
  - by rewrite !lookup_take_ge by lia.
Qed.

Hypothesis V_pos : 0 < V.

Lemma cached_logits_eq nb x y c : rect total x -> x <> [] -> vocab_ok V x = true -> S nb * bl <= total ->
  committed bl nb x = Ok c -> kept A mask nb plen anyQ x y -> cached_logits A c nb y = window_logits A nb y.
Proof.
  intros Hx Hne Hv Hw Hc HK. destruct (kept_rect _ _ _ _ _ _ _ _ _ HK Hx eq_refl) as [Hy Hn].
  unfold cached_logits, window_logits.
  rewrite (committed_ext nb x y) in Hc by (try done; intros; by apply (kept_blocks nb)).
  apply (lm_read_exact nb total); [done| |done| |done].
  - intros ->. by destruct x.
  - apply vocab_ok_take. by eapply kept_vocab.
Qed.

Lemma cached_loop_eq m N k : 0 < bl -> N * bl <= total -> forall a (rs : RS) x c, a + k = N -> rect total x -> x <> [] ->
  vocab_ok V x = true -> committed bl a x = Ok c ->
  cached_block_loop A mask eos plen m (seq a k) c rs x
  = block_loop A mask eos plen m (seq a k) rs x.
Proof.
  intros Hb HN. induction k as [|k IH]; intros a rs x c Ha Hx Hne Hv Hc; cbn [seq block_loop cached_block_loop]; [done|].
  assert (Hw : S a * bl <= total) by nia.
  assert (Hlog : forall y lg, rect total y -> length y = length x -> window_logits A a y = Ok lg ->
    logits_ok A V (length x) lg) by (intros y lg Hy <-; by apply (window_logits_ok A total)).
  rewrite <- (denoise_ext A mask a plen V total (window_logits A a)
     (cached_logits A c a) m 0 rs x x V_pos Hw Hlog Hx (rows_kept_refl _ _ _ _ _ _)).
  2: { intros y HK. symmetry. by apply (cached_logits_eq a x). }
  destruct (denoise_block _ _ _ _ _ _ _ _ _) as [[rs1 x1]|] eqn:E1; cbn [rbind]; [|done].
  pose proof (denoise_kept A mask a plen V total (length x) anyQ (window_logits A a) Hw Hlog m
    (draws_vocab A mask a V total (length x) _ Hlog V_pos) _ _ _ _ _ Hx eq_refl E1) as K1.
  destruct (denoise_vocab A mask a plen V total (length x) (window_logits A a) Hw Hlog V_pos _ _ _ _ _ _ Hx eq_refl Hv E1) as (Hx1 & Hn1 & Hv1).
  assert (Hne1 : x1 <> []) by (intros ->; by destruct x).
  destruct (lm_commits (S a) total x1 Hx1 Hne1 Hw (vocab_ok_take _ _ _ Hv1)) as [c1 Ec1]. pose proof Ec1 as Ec.
  rewrite committed_snoc, <- (committed_ext a x x1), Hc in Ec by (try done; intros; by apply (kept_blocks a)).
  cbn [rbind] in Ec. unfold _commit_block_to_cache. rewrite Ec. cbn [rbind]. case_bool; [done|]. by apply IH; [lia|..].
Qed.

End Cached.

(** ** What is returned *)

Lemma elem_of_short {T} (l : list T) a b : length l <= 1 -> a ∈ l -> b ∈ l -> a = b.
Proof.
  destruct l as [|c [|]]; simpl; [by intros _ ?%not_elem_of_nil| |lia].
  by intros _ ->%list_elem_of_singleton ->%list_elem_of_singleton.
Qed.

Section Answer.
Variables (A : gen_args) (e : Z) (gen : list Z).
Hypothesis gen_full : length gen = gen_length A.

Lemma trim_cases :
  (e ∉ gen /\ trim_row A e gen = gen) \/
  exists k, k < gen_length A /\ gen !! k = Some e /\ (forall i, i < k -> gen !! i <> Some e) /\
    trim_row A e gen = take (S k) gen ++ replicate (gen_length A - S k) e.
Proof.
  unfold trim_row. destruct (list_find _ gen) as [[k v]|] eqn:E.
  - right. apply list_find_Some in E as (Hk & -> & Hf). exists k.
    assert (k < gen_length A) by (rewrite <- gen_full; by eapply lookup_lt_Some).
    split; [done|]. split; [done|]. split; [intros i Hi Hg; by apply (Hf i e)|]. rewrite gen_full.
    destruct (Nat.ltb_spec (S k) (gen_length A)); [done|].
    rewrite take_ge by lia. replace (gen_length A - S k) with 0 by lia. simpl. by rewrite app_nil_r.
  - left. split; [|done]. apply list_find_None in E. rewrite Forall_forall in E. intros Hin. by apply (E e).
Qed.

Lemma trim_length : length (trim_row A e gen) = gen_length A.
Proof.
  destruct trim_cases as [[_ ->]|(k & Hk & _ & _ & ->)]; [done|].
  rewrite length_app, length_take, length_replicate. lia.
Qed.

Lemma trim_values v : v ∈ trim_row A e gen -> v ∈ gen \/ v = e.
Proof.
  destruct trim_cases as [[_ ->]|(k & Hk & _ & _ & ->)]; [by left|].
  intros [Hv|[-> _]%elem_of_replicate]%elem_of_app; [|by right]. left.
  apply elem_of_take in Hv as (i & Hi & _). by eapply list_elem_of_lookup_2.
Qed.

(** Behind an end-of-sequence token there are only such tokens. *)
Lemma trim_tail i j : trim_row A e gen !! i = Some e -> i <= j < gen_length A ->
  trim_row A e gen !! j = Some e.
Proof.
  destruct trim_cases as [[Hn ->]|(k & Hk & Hg & Hf & ->)].
  { intros Hi. destruct Hn. by eapply list_elem_of_lookup_2. }
  intros Hi Hj. destruct (decide (j < S k)).
  - rewrite lookup_app_l in Hi |- * by (rewrite length_take; lia).
    rewrite lookup_take_lt in Hi |- * by lia.
    destruct (decide (i < k)); [by destruct (Hf i)|]. replace j with k by lia. done.
  - rewrite lookup_app_r; rewrite length_take; [|lia]. apply lookup_replicate. split; [done|lia].
Qed.

(** A row that is clean up to its first end-of-sequence token is clean when
    trimmed. *)
Lemma trim_clean mask p t : e <> mask -> (forall i, i < p -> gen !! i <> Some mask) ->
  t < p -> gen !! t = Some e -> mask ∉ trim_row A e gen.
Proof.
  intros He Hc Ht Hg. destruct trim_cases as [[Hn ->]|(k & Hk & Hgk & Hf & ->)].
  { destruct Hn. by eapply list_elem_of_lookup_2. }
  assert (k <= t) by (destruct (decide (t < k)); [by destruct (Hf t)|lia]).
  intros [Hm|[Hm _]%elem_of_replicate]%elem_of_app; [|done].
  apply elem_of_take in Hm as (i & Hi & Hik). apply (Hc i); [lia|done].
Qed.

End Answer.

(** ** [generate] *)

Section Generate.
Context {Sc RS ST : Type} `{DenoiseOps Sc} `{!TopkOps Sc} `{!SampleOps Sc RS} `{!TopkLaws Sc} `{!SampleLaws Sc RS}.
Context `{!CausalLM Sc ST} {V : nat} `{!LMShape Sc ST V}.
Variables (A : gen_args) (C : lm_config).
Context `{!LMCache Sc ST V (block_length A)}.
#[local] Abbreviation bl := (block_length A).
#[local] Abbreviation eos := (eos_of A C).
Variables (mask : Z) (inputs : list (list Z)).
#[local] Abbreviation plen := (width inputs).
#[local] Abbreviation N := (cdiv (plen + gen_length A) bl).
#[local] Abbreviation a0 := (plen / bl).
Hypothesis inputs_rect : rect plen inputs.

(** Both variants, from the loop over full windows. *)
Definition generate_loop (rs : RS) : res (RS * list (list Z)) :=
  (let! '(rs, x) := block_loop A mask eos plen (total_steps A) (seq a0 (N - a0)) rs
      (initial_x A mask N inputs) in
   Ok (rs, answer A eos plen x))%py.

Lemma prompt_fits : 0 < bl -> plen + gen_length A <= N * bl /\ a0 <= N.
Proof.
  intros Hb. pose proof (cdiv_mul_ge (plen + gen_length A) bl Hb). split; [done|].
  pose proof (Nat.Div0.mul_div_le plen bl). nia.
Qed.

Lemma initial_lookup b : 0 < bl -> initial_x A mask N inputs !! b =
  (fun row => row ++ replicate (N * bl - plen) mask) <$> inputs !! b.
Proof.
  intros Hb. unfold initial_x. rewrite list_lookup_fmap. destruct (inputs !! b) as [row|] eqn:Er; [|done].
  simpl. f_equal. pose proof (rect_lookup _ _ _ _ inputs_rect Er) as Hr.
  unfold py_splice. simpl. f_equal. rewrite drop_replicate. f_equal. lia.
Qed.

Lemma initial_rect : 0 < bl -> rect (N * bl) (initial_x A mask N inputs).
Proof.
  intros Hb. destruct (prompt_fits Hb). apply Forall_lookup. intros b r. rewrite initial_lookup by done.
  destruct (inputs !! b) as [row|] eqn:Er; [|done]. intros [= <-].
  rewrite length_app, length_replicate, (rect_lookup _ _ _ _ inputs_rect Er). lia.
Qed.

(** The tokens of the call are in the vocabulary. *)
Record known : Prop := {
  kn_mask : mask_id_of A C = Some mask;
  kn_range : (0 <= mask < Z.of_nat V)%Z;
  kn_inputs : vocab_ok V inputs = true;
  kn_rows : inputs <> [];
}.

Lemma initial_vocab : 0 < bl -> (0 <= mask < Z.of_nat V)%Z -> vocab_ok V inputs = true ->
  vocab_ok V (initial_x A mask N inputs) = true.
Proof.
  intros Hb Hm. rewrite !vocab_ok_spec. intros Hv row t [b Hr]%list_elem_of_lookup Ht.
  rewrite initial_lookup in Hr by done. destruct (inputs !! b) as [r|] eqn:Er; [|done]. injection Hr as <-.
  apply elem_of_app in Ht as [Ht|[-> _]%elem_of_replicate]; [|done]. apply (Hv r); [by eapply list_elem_of_lookup_2|done].
Qed.

Lemma initial_nonempty : inputs <> [] -> initial_x A mask N inputs <> [].
Proof. intros Hne. by destruct inputs. Qed.

Lemma generate_is_loop rs : known -> generate A C rs inputs =
  if (minimal_topk A =? 0)%Z then Raise ZeroDivisionError
  else if bl =? 0 then Raise ZeroDivisionError else generate_loop rs.
Proof.
  intros [Hm Hr Hv Hne]. unfold generate, _generate_with_kv_cache, generate_loop. rewrite Hm. destruct (minimal_topk A =? 0)%Z;
    [by destruct (use_kv_cache A)|]. destruct (Nat.eqb_spec bl 0) as [|Hb]; [by destruct (use_kv_cache A)|].
  destruct (use_kv_cache A); [|done]. assert (Hb0 : 0 < bl) by lia.
  destruct (prompt_fits Hb0) as [_ Ha]. pose proof (initial_vocab Hb0 Hr Hv) as Hx.
  change (prefill_cache A a0 (initial_x A mask N inputs))
    with (committed (Sc := Sc) (ST := ST) bl a0 (initial_x A mask N inputs)).
  destruct (lm_commits a0 (N * bl) (initial_x A mask N inputs) (initial_rect Hb0) (initial_nonempty Hne)
    ltac:(by apply Nat.mul_le_mono_r) (vocab_ok_take _ _ _ Hx)) as [c Ec].
  rewrite Ec. cbn [rbind]. rewrite (cached_loop_eq A mask eos plen (N * bl) ltac:(lia) (total_steps A) N _ Hb0 ltac:(done) a0 rs _ c);
    [done|lia|by apply initial_rect|by apply initial_nonempty|done|done].
Qed.

Lemma total_ge : 0 < bl -> N * bl = plen + (N * bl - plen).
Proof. intros Hb. destruct (prompt_fits Hb). lia. Qed.

(** The generated part of a row. *)
Definition generated (row : list Z) : list Z := drop plen (take (plen + gen_length A) row).

Lemma generated_lookup row t : t < gen_length A -> generated row !! t = row !! (plen + t).
Proof. intros. unfold generated. rewrite lookup_drop, lookup_take_lt by lia. done. Qed.

Lemma generated_length row : length row = N * bl -> 0 < bl -> length (generated row) = gen_length A.
Proof.
  intros Hr Hb. destruct (prompt_fits Hb). unfold generated. rewrite length_drop, length_take. lia.
Qed.

(** The rows the loop ends with: the prompt, then [gen_length] tokens that are
    masks or satisfy [Q]. *)
Lemma loop_rows Q rs :
  0 < bl -> top_k_fits (temperature A) (top_k A) V = true -> drawable (temperature A) V (Sc := Sc) (RS := RS) -> known ->
  lm_draws A mask (N * bl) (length inputs) Q (RS := RS) ->
  exists rs' x, block_loop A mask eos plen (total_steps A) (seq a0 (N - a0)) rs
      (initial_x A mask N inputs) = Ok (rs', x) /\
    rect (N * bl) x /\ length x = length inputs /\
    forall row, row ∈ x -> forall t v, t < gen_length A -> generated row !! t = Some v -> v = mask \/ Q v.
Proof.
  intros Hb Hf Hdr [Hm Hrg Hvv Hne] Hd. destruct (prompt_fits Hb) as [Hp Ha].
  pose proof (initial_rect Hb) as Hi. assert (Hpos : 0 < length inputs) by (destruct inputs; [done|simpl; lia]).
  assert (Hn : length (initial_x A mask N inputs) = length inputs) by (unfold initial_x; apply length_map).
  destruct (block_loop_spec A mask eos plen (N * bl) (length inputs) Q Hd Hpos ltac:(lia) Hf Hdr (total_steps A) N (N - a0)
    Hb ltac:(lia) a0 rs (initial_x A mask N inputs) ltac:(lia) Hi Hn (initial_vocab Hb Hrg Hvv)) as (rs' & x & E & G).
  exists rs', x. split; [done|]. split; [|split].
  - apply Forall_lookup. intros b r Hr. destruct (Forall2_lookup_r _ _ _ _ _ G Hr) as (r0 & Hr0 & K).
    rewrite (rg_length _ _ _ _ _ _ K). by apply (rect_lookup _ _ _ _ Hi Hr0).
  - by rewrite <- (Forall2_length _ _ _ G).
  - intros row [b Hb']%list_elem_of_lookup t v Ht Hv. rewrite generated_lookup in Hv by done.
    destruct (Forall2_lookup_r _ _ _ _ _ G Hb') as (r0 & Hr0 & K).
    destruct (rg_values _ _ _ _ _ _ K _ _ Hv) as [Hv0|Hv0]; [|by right]. left.
    rewrite initial_lookup in Hr0 by done. destruct (inputs !! b) as [inp|] eqn:Einp; [|done].
    injection Hr0 as <-. pose proof (rect_lookup _ _ _ _ inputs_rect Einp) as Hlen.
    rewrite lookup_app_r in Hv0 by lia. by apply lookup_replicate in Hv0 as [-> _].
Qed.

Lemma answer_eq x : answer A eos plen x =
  match eos with
  | Some e => if eos_early_stop A then map (trim_row A e) (map generated x) else map generated x
  | None => map generated x
  end.
Proof. unfold answer. by destruct eos, (eos_early_stop A). Qed.

(** A returned row is the generated part of a row, trimmed or not. *)
Lemma answer_row x row : row ∈ answer A eos plen x -> exists r, r ∈ x /\
  ((row = generated r /\ (eos_early_stop A = false \/ eos = None)) \/
   (eos_early_stop A = true /\ exists e, eos = Some e /\ row = trim_row A e (generated r))).
Proof.
  rewrite answer_eq. destruct eos as [e|]; [destruct (eos_early_stop A)|].
  - intros (g & -> & (r & -> & Hr)%list_elem_of_fmap)%list_elem_of_fmap. eauto 8.
  - intros (r & -> & Hr)%list_elem_of_fmap. eauto 6.
  - intros (r & -> & Hr)%list_elem_of_fmap. eauto 6.
Qed.

Lemma answer_length x : length (answer A eos plen x) = length x.
Proof. rewrite answer_eq. by destruct eos, (eos_early_stop A); rewrite ?length_map. Qed.

(** Rows clean up to the block at which the loop stopped are returned clean,
    when the row that stopped it is the only one. *)
Section Clean.
Variables (x : list (list Z)) (B : nat).
Hypothesis bl_pos : 0 < bl.
Hypothesis x_rect : rect (N * bl) x.
Hypothesis x_clean : Forall (clean_below mask (B * bl)) x.
Hypothesis eos_not_mask : eos <> Some mask.

Lemma generated_full row : row ∈ x -> length (generated row) = gen_length A.
Proof.
  intros [b Hrow]%list_elem_of_lookup. apply generated_length; [|done].
  by apply (rect_lookup _ _ _ _ x_rect Hrow).
Qed.

Lemma generated_clean row t : row ∈ x -> t < B * bl - plen -> generated row !! t <> Some mask.
Proof.
  intros Hrow Ht Hm. pose proof (lookup_lt_Some _ _ _ Hm) as Hlt. rewrite generated_full in Hlt by done.
  rewrite generated_lookup in Hm by done. rewrite Forall_forall in x_clean.
  apply (x_clean row Hrow (plen + t)); [lia|done].
Qed.

Lemma generated_all row : row ∈ x -> plen + gen_length A <= B * bl -> mask ∉ generated row.
Proof.
  intros Hrow HB [t Ht]%list_elem_of_lookup. apply (generated_clean row t Hrow); [|done].
  apply lookup_lt_Some in Ht. rewrite generated_full in Ht by done. lia.
Qed.

Lemma trim_all e row : eos = Some e -> row ∈ x -> plen + gen_length A <= B * bl ->
  mask ∉ trim_row A e (generated row).
Proof.
  intros He Hrow HB [Hm|Hm]%trim_values; [by eapply generated_all|congruence|by apply generated_full].
Qed.

Lemma answer_clean : length x <= 1 \/ eos_early_stop A = false -> stopped_at A eos plen N B x ->
  forall row, row ∈ answer A eos plen x -> mask ∉ row.
Proof.
  intros Hone Hst row0 (r0 & Hr0 & Hrow0)%answer_row. destruct (prompt_fits bl_pos) as [Hp _].
  destruct Hst as [HB|(HBN & Hearly & e & He & row & t & Hrow & Ht & Hte)].
  { assert (plen + gen_length A <= B * bl) by (by rewrite HB). destruct Hrow0 as [[-> _]|(_ & e & He & ->)]; [by apply generated_all|by apply trim_all]. }
  destruct Hrow0 as [[_ [?|?]]|(_ & e' & He' & ->)]; [congruence|congruence|].
  destruct Hone as [Hone|]; [|congruence]. assert (e' = e) as -> by congruence.
  assert (r0 = row) as -> by (by eapply elem_of_short).
  destruct (decide (t < plen + gen_length A)) as [Hin|Hout]; [|apply trim_all; [done|done|lia]].
  apply (trim_clean A e _ (generated_full row Hrow) _ (B * bl - plen) (t - plen)).
  - congruence.
  - intros i. by apply generated_clean.
  - lia.
  - rewrite generated_lookup by lia. rewrite <- Hte. f_equal. lia.
Qed.

End Clean.
End Generate.

(** The same arguments, with or without the prefix cache. *)
Definition with_cache (b : bool) (A : gen_args) : gen_args :=
  mkArgs (temperature A) (block_length A) (steps A) (gen_length A) (top_p A) (top_k A)
    (eos_early_stop A) (minimal_topk A) (threshold A) (editing_threshold A) (max_post_steps A)
    (eos_id A) (mask_id A) (num_to_transfer A) (repetition_penalty A) b.

(** What the sampler needs beside a small enough [top_k]: probabilities that
    [torch.multinomial] takes, and no division by a zero penalty. *)
Record draw_ok (Sc RS : Type) `{DenoiseOps Sc} `{!SampleOps Sc RS} (A : gen_args) (V : nat) : Prop := {
  do_draw : drawable (temperature A) V (Sc := Sc) (RS := RS);
  do_penalty : Qeq_bool (repetition_penalty A) 0 = false;
}.

(** The arguments under which every mask can be replaced: at least a block of
    steps per block, at least one position per step, no mask in the prompt, and a
    model that never predicts the mask. *)
Record complete_args {Sc RS ST : Type} `{DenoiseOps Sc} `{!TopkOps Sc} `{!SampleOps Sc RS} `{!CausalLM Sc ST}
    (A : gen_args) (C : lm_config) (mask : Z) (inputs : list (list Z)) : Prop := {
  ca_rect : rect (width inputs) inputs;
  ca_block : 0 < block_length A;
  ca_topk : (0 < minimal_topk A)%Z;
  ca_steps : (Z.of_nat (block_length A) <= steps A)%Z;
  ca_budget : (Z.of_nat (block_length A) <= Z.of_nat (gen_length A) / minimal_topk A)%Z;
  ca_transfer : (1 <= num_to_transfer A)%Z;
  ca_post : (0 <= max_post_steps A)%Z;
  ca_prompt : Forall (fun row => mask ∉ row) inputs;
  ca_eos : eos_of A C <> Some mask;
  ca_draws : lm_draws A mask
    (cdiv (width inputs + gen_length A) (block_length A) * block_length A) (length inputs)
    (fun t => t <> mask) (RS := RS);
}.

(** ** When [generate] raises *)

(** The exception of [generate] on a batch with something to generate. *)
Definition expected_error (A : gen_args) (C : lm_config) (V : nat) (inputs : list (list Z)) : option py_error :=
  if (minimal_topk A =? 0)%Z || (block_length A =? 0) then Some ZeroDivisionError
  else
    match mask_id_of A C with
    | None => Some TypeError
    | Some mask =>
      if vocab_ok V ([mask] :: inputs)
      then if (0 <? total_steps A) && negb (top_k_fits (temperature A) (top_k A) V) then Some RuntimeError else None
      else if use_kv_cache A || (0 <? total_steps A) then Some IndexError else None
    end.

Section Errors.
Context {Sc RS ST : Type} `{DenoiseOps Sc} `{!TopkOps Sc} `{!SampleOps Sc RS} `{!TopkLaws Sc} `{!SampleLaws Sc RS}.
Context `{!CausalLM Sc ST} {V : nat} `{!LMShape Sc ST V}.
Variables (A : gen_args) (C : lm_config).
Context `{!LMCache Sc ST V (block_length A)} `{!LMVocab Sc ST V}.
#[local] Abbreviation bl := (block_length A).
Implicit Types (x inputs : list (list Z)).

(** A block with a mask whose logits cannot be sampled. *)
Lemma denoise_raises nb plen total m (rs : RS) x mask :
  rect total x -> S nb * bl <= total -> 0 < bl -> x <> [] -> vocab_ok V x = true ->
  has_mask A mask nb x = true -> (0 <= max_post_steps A)%Z ->
  top_k_fits (temperature A) (top_k A) V = false ->
  denoise_block A mask (window_logits A nb) nb plen (S m) 0 rs x = Raise RuntimeError.
Proof.
  intros Hx Hw Hb Hne Hvx Hm Hp Hf. cbn [denoise_block].
  change (existsb any (map (mask_of mask) (map (blk bl nb) x))) with (has_mask A mask nb x).
  rewrite Hm. destruct (Z.ltb_spec (max_post_steps A) 0); [lia|].
  destruct (window_total A total nb x Hb Hx Hw Hne Hvx) as [lg El]. rewrite El. cbn [rbind].
  pose proof (window_logits_ok A total nb x lg Hb Hx Hw El) as Hlg. unfold denoise_pass, sample_batch.
  destruct (penalise_total A mask V (length x) (map (take (S nb * bl)) x) lg Hlg (vocab_ok_take _ _ _ Hvx)) as [lg' Ep].
  rewrite Ep. cbn [rbind].
  destruct (concat_ok A V (length x) lg') as [Hv Hl]; [eapply penalise_ok; [by rewrite length_map|exact Hlg|exact Ep]|].
  rewrite (sample_raises rs _ _ _ _ V); [done| |done|done].
  intros Hnil. rewrite Hnil in Hl. simpl in Hl. destruct x; [done|]. simpl in Hl. lia.
Qed.

(** A pass that raises. *)
Lemma denoise_logits_raise (f : list (list Z) -> res (list (list (list Sc)))) nb plen m (rs : RS) x mask e :
  has_mask A mask nb x = true -> (0 <= max_post_steps A)%Z -> f x = Raise e ->
  denoise_block A mask f nb plen (S m) 0 rs x = Raise e.
Proof.
  intros Hm Hp Hf. cbn [denoise_block].
  change (existsb any (map (mask_of mask) (map (blk bl nb) x))) with (has_mask A mask nb x).
  rewrite Hm. destruct (Z.ltb_spec (max_post_steps A) 0); [lia|]. by rewrite Hf.
Qed.

(** Without steps no pass is made. *)
Lemma no_steps mask eos plen blocks (rs : RS) x :
  exists x', block_loop A mask eos plen 0 blocks rs x = Ok (rs, x').
Proof.
  revert x. induction blocks as [|b bs IH]; intros x; cbn [block_loop denoise_block rbind]; [by eexists|].
  case_bool; [by eexists|]. apply IH.
Qed.

(** Committing a block outside the vocabulary raises. *)
Lemma committed_raises total nb x : rect total x -> x <> [] -> nb * bl <= total ->
  vocab_ok V (map (take (nb * bl)) x) = false -> committed bl nb x = Raise IndexError :> res ST.
Proof.
  intros Hx Hne. induction nb as [|nb IH]; intros Hl Hv.
  { exfalso. apply not_true_iff_false in Hv. apply Hv, vocab_ok_spec.
    intros row t (r & -> & _)%list_elem_of_fmap Ht. by apply not_elem_of_nil in Ht. }
  rewrite committed_snoc. rewrite vocab_ok_window in Hv.
  destruct (vocab_ok V (map (take (nb * bl)) x)) eqn:Ev; cbn [andb] in Hv.
  - destruct (lm_commits nb total x Hx Hne ltac:(lia) Ev) as [c ->]. cbn [rbind]. by apply lm_commit_vocab.
  - by rewrite IH by (done || lia).
Qed.

Lemma first_block_masked inputs mask : rect (width inputs) inputs -> inputs <> [] -> 0 < bl -> 0 < gen_length A ->
  let N := cdiv (width inputs + gen_length A) bl in
  let a := width inputs / bl in
  a < N /\ has_mask A mask a (initial_x A mask N inputs) = true.
Proof.
  intros Hr Hne Hb Hg N a. destruct (prompt_fits A inputs Hb) as [Hp _]. fold N in Hp.
  pose proof (Nat.div_mod_eq (width inputs) bl) as Hd.
  pose proof (Nat.mod_upper_bound (width inputs) bl ltac:(lia)) as Hmod. fold a in Hd.
  split; [nia|]. destruct (has_mask _ _ _ _) eqn:E; [done|]. apply has_mask_false in E.
  destruct inputs as [|inp rest]; [done|].
  pose proof (initial_lookup A mask (inp :: rest) Hr 0 Hb) as H0. fold N in H0.
  change ((inp :: rest) !! 0) with (Some inp) in H0. cbn [fmap option_fmap option_map] in H0.
  pose proof (Forall_lookup_1 _ _ _ _ E H0) as Hz. unfold block_masks in Hz. apply masks_0 in Hz.
  destruct Hz. apply list_elem_of_lookup. exists (length inp mod bl).
  rewrite lookup_blk by done. simpl in *. rewrite lookup_app_r by lia.
  apply lookup_replicate. split; [done|nia].
Qed.

(** The first window holds the prompt and a mask. *)
Lemma first_window inputs mask : rect (width inputs) inputs -> inputs <> [] -> 0 < bl -> 0 < gen_length A ->
  let N := cdiv (width inputs + gen_length A) bl in
  vocab_ok V (map (take (S (width inputs / bl) * bl)) (initial_x A mask N inputs)) = true ->
  vocab_ok V ([mask] :: inputs) = true.
Proof.
  intros Hr Hne Hb Hg N. rewrite !vocab_ok_spec. intros Hv.
  destruct (prompt_fits A inputs Hb) as [Hp _]. fold N in Hp.
  pose proof (Nat.mul_succ_div_gt (width inputs) bl ltac:(lia)) as Hgt.
  assert (Hrow : forall inp t, inp ∈ inputs -> t ∈ inp \/ t = mask ->
    exists row, row ∈ map (take (S (width inputs / bl) * bl)) (initial_x A mask N inputs) /\ t ∈ row).
  { intros inp t [b Hbi]%list_elem_of_lookup Ht. pose proof (initial_lookup A mask inputs Hr b Hb) as Hl. rewrite Hbi in Hl.
    pose proof (rect_lookup _ _ _ _ Hr Hbi) as Hlen. eexists.
    split; [apply list_elem_of_fmap_2; by eapply list_elem_of_lookup_2|]. rewrite take_app. apply elem_of_app.
    destruct Ht as [Ht| ->]; [left; by rewrite take_ge by lia|right]. rewrite take_replicate, elem_of_replicate. split; [done|]. fold N. nia. }
  intros row t [->|Hin]%elem_of_cons Ht.
  - apply list_elem_of_singleton in Ht as ->. destruct inputs as [|inp rest]; [done|].
    destruct (Hrow inp mask) as (row & Hrw & Hm); [left|by right|]. by apply (Hv row).
  - destruct (Hrow row t Hin) as (row' & Hrw & Hm); [by left|]. by apply (Hv row').
Qed.

(** A token outside the vocabulary. *)
Lemma unknown_token inputs mask (rs : RS) : rect (width inputs) inputs -> inputs <> [] -> 0 < bl -> 0 < gen_length A ->
  (0 <= max_post_steps A)%Z -> minimal_topk A <> 0%Z -> mask_id_of A C = Some mask -> vocab_ok V ([mask] :: inputs) = false ->
  if use_kv_cache A || (0 <? total_steps A) then generate A C rs inputs = Raise IndexError
  else exists r, generate A C rs inputs = Ok r.
Proof.
  intros Hr Hne Hb Hg Hp Hk Hm Hv. destruct (first_block_masked inputs mask Hr Hne Hb Hg) as [Hlt Hmk].
  pose proof (initial_rect A mask inputs Hr Hb) as Hx. pose proof (initial_nonempty A mask inputs Hr Hne) as Hxne.
  set (N := cdiv (width inputs + gen_length A) bl) in *. set (a := width inputs / bl) in *. set (x := initial_x A mask N inputs) in *.
  assert (Hw : vocab_ok V (map (take (S a * bl)) x) = false).
  { apply not_true_iff_false. intros E. apply first_window in E; (done || congruence). }
  assert (Hab : S a * bl <= N * bl) by (apply Nat.mul_le_mono_r; lia).
  unfold generate, _generate_with_kv_cache. rewrite Hm.
  destruct (Z.eqb_spec (minimal_topk A) 0) as [|_]; [lia|]. destruct (Nat.eqb_spec bl 0) as [|_]; [lia|].
  fold N a x. destruct (N - a) as [|c] eqn:Ec; [lia|]. cbn [seq cached_block_loop block_loop].
  destruct (use_kv_cache A); cbn [orb].
  - change (prefill_cache A a x) with (committed (Sc := Sc) (ST := ST) bl a x). pose proof Hw as Hw'. rewrite vocab_ok_window in Hw'.
    destruct (vocab_ok V (map (take (a * bl)) x)) eqn:Ea; cbn [andb] in Hw'.
    2:{ by rewrite (committed_raises (N * bl)) by (done || lia). }
    destruct (lm_commits a (N * bl) x Hx Hxne ltac:(lia) Ea) as [c0 ->]. cbn [rbind].
    destruct (total_steps A) as [|m].
    + cbn [denoise_block rbind]. unfold _commit_block_to_cache. by rewrite lm_commit_vocab.
    + rewrite (denoise_logits_raise (cached_logits A c0 a) a _ m rs x mask IndexError); [done|done|done|]. by apply lm_read_vocab.
  - destruct (total_steps A) as [|m]; cbn [Nat.ltb Nat.leb].
    + destruct (no_steps mask (eos_of A C) (width inputs) (a :: seq (S a) c) rs x) as [x' E].
      cbn [block_loop] in E. rewrite E. cbn [rbind]. by eexists.
    + rewrite (denoise_logits_raise (window_logits A a) a _ m rs x mask IndexError); [done|done|done|].
      unfold window_logits. by rewrite lm_forward_vocab.
Qed.

(** All tokens are known. *)
Lemma known_tokens inputs mask (rs : RS) : rect (width inputs) inputs -> 0 < bl -> 0 < gen_length A ->
  (0 <= max_post_steps A)%Z -> minimal_topk A <> 0%Z -> known A C mask inputs (V := V) ->
  drawable (temperature A) V (Sc := Sc) (RS := RS) ->
  if (0 <? total_steps A) && negb (top_k_fits (temperature A) (top_k A) V) then generate A C rs inputs = Raise RuntimeError
  else exists r, generate A C rs inputs = Ok r.
Proof.
  intros Hr Hb Hg Hp Hk Hkn Hd. rewrite (generate_is_loop A C mask inputs Hr rs Hkn). pose proof Hkn as [Hm Hrg Hv Hne].
  destruct (Z.eqb_spec (minimal_topk A) 0) as [|_]; [lia|]. destruct (Nat.eqb_spec bl 0) as [|_]; [lia|]. unfold generate_loop.
  destruct (first_block_masked inputs mask Hr Hne Hb Hg) as [Hlt Hmk].
  destruct (top_k_fits _ _ V) eqn:Hf.
  { rewrite andb_false_r. destruct (loop_rows A C mask inputs Hr _ rs Hb Hf Hd Hkn
      (draws_in_vocab A mask _ (V := V) (length inputs) Hb ltac:(lia))) as (rs' & x & -> & _). by eexists. }
  rewrite andb_true_r. destruct (total_steps A) as [|m] eqn:Em; cbn [Nat.ltb Nat.leb].
  { destruct (no_steps mask (eos_of A C) (width inputs) (seq (width inputs / bl) (cdiv (width inputs + gen_length A) bl - width inputs / bl)) rs
      (initial_x A mask (cdiv (width inputs + gen_length A) bl) inputs)) as [x' ->]. by eexists. }
  destruct (_ - width inputs / bl) as [|c] eqn:Ec; [lia|]. cbn [seq block_loop].
  rewrite (denoise_raises _ _ (cdiv (width inputs + gen_length A) bl * bl));
    [done|by apply initial_rect|nia|done|by apply initial_nonempty|by apply initial_vocab|done|done|done].
Qed.

End Errors.

Section Theorems.
Context {Sc RS ST : Type} `{DenoiseOps Sc} `{!TopkOps Sc} `{!SampleOps Sc RS} `{!TopkLaws Sc} `{!SampleLaws Sc RS}.
Context `{!CausalLM Sc ST} {V : nat} `{!LMShape Sc ST V}.
Variables (A : gen_args) (C : lm_config).
Context `{!LMCache Sc ST V (block_length A)}.

(** The prefix cache changes nothing: when the prompt and the mask are in the
    vocabulary, generating with the cache and generating by passes over the whole
    window give the same tokens, the same state of the random generator and the same
    errors. *)
Lemma cache_modes_agree (mask : Z) (rs : RS) (inputs : list (list Z)) :
  rect (width inputs) inputs -> known A C mask inputs (V := V) ->
  generate (with_cache true A) C rs inputs = generate (with_cache false A) C rs inputs.
Proof.
  intros Hr [H1 H2 H3 H4]. rewrite (generate_is_loop (with_cache true A) C mask inputs Hr rs) by done.
  by rewrite (generate_is_loop (with_cache false A) C mask inputs Hr rs) by done.
Qed.

(** C34. What [generate] returns: with prompts and a mask of the vocabulary, a block
    length, a positive [minimal_topk], a [top_k] within the vocabulary and
    probabilities that can be drawn from, it returns one row of exactly [gen_length]
    tokens per prompt; every token is of the vocabulary or the end-of-sequence token;
    and with early stopping only end-of-sequence tokens follow the first one. *)
Theorem generate_typed (mask : Z) (rs : RS) (inputs : list (list Z)) :
  rect (width inputs) inputs -> known A C mask inputs (V := V) -> 0 < block_length A -> (0 < minimal_topk A)%Z ->
  top_k_fits (temperature A) (top_k A) V = true -> draw_ok Sc RS A V ->
  exists rs' out, generate A C rs inputs = Ok (rs', out) /\
    length out = length inputs /\ rect (gen_length A) out /\
    (forall row v, row ∈ out -> v ∈ row -> (0 <= v < Z.of_nat V)%Z \/ eos_of A C = Some v) /\
    (forall e row i j, eos_of A C = Some e -> eos_early_stop A = true -> row ∈ out ->
       row !! i = Some e -> i <= j < gen_length A -> row !! j = Some e).
Proof.
  intros Hr Hkn Hb Hk Hf [Hd _]. pose proof (kn_range _ _ _ _ Hkn) as Hrg. rewrite (generate_is_loop A C mask inputs Hr rs Hkn).
  destruct (Z.eqb_spec (minimal_topk A) 0); [lia|]. destruct (Nat.eqb_spec (block_length A) 0); [lia|].
  destruct (loop_rows A C mask inputs Hr (fun t => 0 <= t < Z.of_nat V)%Z rs Hb Hf Hd Hkn) as (rs' & x & E & Hx & Hn & Hv).
  { apply draws_in_vocab; [done|lia]. }
  exists rs', (answer A (eos_of A C) (width inputs) x). unfold generate_loop. rewrite E. cbn [rbind].
  split; [done|]. split; [by rewrite answer_length|].
  pose proof (generated_full A inputs x Hb Hx) as Hg.
  assert (Hgv : forall row v, row ∈ x -> v ∈ generated A inputs row -> (0 <= v < Z.of_nat V)%Z).
  { intros row v Hrow [t Ht]%list_elem_of_lookup.
    destruct (Hv row Hrow t v) as [->|?]; [|done|done|done].
    rewrite <- (Hg row Hrow). by eapply lookup_lt_Some. }
  split; [|split].
  - apply Forall_forall. intros row (r & Hrx & [[-> _]|(_ & e & _ & ->)])%answer_row;
      [by apply Hg|by apply trim_length, Hg].
  - intros row v (r & Hrx & [[-> _]|(_ & e & He & ->)])%answer_row Hvr.
    + left. by eapply Hgv.
    + apply trim_values in Hvr as [Hvr| ->]; [left; by eapply Hgv|by right|by apply Hg].
  - intros e row i j He Hearly (r & Hrx & [[-> [?|?]]|(_ & e' & He' & ->)])%answer_row; [congruence|congruence|].
    assert (e' = e) as -> by congruence. by apply trim_tail, Hg.
Qed.

Lemma initial_clean mask inputs : rect (width inputs) inputs -> 0 < block_length A ->
  Forall (fun row => mask ∉ row) inputs ->
  Forall (clean_below mask (width inputs / block_length A * block_length A))
    (initial_x A mask (cdiv (width inputs + gen_length A) (block_length A)) inputs).
Proof.
  intros Hr Hb Hm. apply Forall_lookup. intros b r. rewrite (initial_lookup A mask inputs Hr) by done.
  destruct (inputs !! b) as [inp|] eqn:Einp; [|done]. intros [= <-] t Ht Hmask.
  pose proof (rect_lookup _ _ _ _ Hr Einp). pose proof (Nat.Div0.mul_div_le (width inputs) (block_length A)).
  rewrite lookup_app_l in Hmask by lia. apply (Forall_lookup_1 _ _ _ _ Hm Einp).
  by eapply list_elem_of_lookup_2.
Qed.

(** C35. [generate] finishes its work: for a single prompt or without early stopping,
    with at least a block of steps per block and a position per step, prompts without
    masks, an end-of-sequence token other than the mask, a model that never samples the
    mask, and arguments under which nothing raises, every row that is returned is free of
    masks.  With several prompts the early stop leaves masks
    ([early_stop_leaves_masks]). *)
Theorem generate_mask_free (mask : Z) (rs : RS) (inputs : list (list Z)) :
  complete_args A C mask inputs (RS := RS) -> known A C mask inputs (V := V) ->
  top_k_fits (temperature A) (top_k A) V = true -> draw_ok Sc RS A V ->
  length inputs <= 1 \/ eos_early_stop A = false ->
  exists rs' out, generate A C rs inputs = Ok (rs', out) /\ length out = length inputs /\
    forall row, row ∈ out -> mask ∉ row.
Proof.
  intros [Hr Hb Hk Hs Hbud Hnt Hpost Hprompt Heos Hd] Hkn Hf [Hdr _] Hone.
  rewrite (generate_is_loop A C mask inputs Hr rs Hkn). unfold generate_loop.
  destruct (Z.eqb_spec (minimal_topk A) 0); [lia|]. destruct (Nat.eqb_spec (block_length A) 0); [lia|].
  destruct (loop_rows A C mask inputs Hr _ rs Hb Hf Hdr Hkn Hd) as (rs' & x & E & Hx & Hn & _).
  destruct (prompt_fits A inputs Hb) as [Hp Ha]. rewrite E. cbn [rbind].
  assert (Hpos : 0 < length inputs) by (pose proof (kn_rows _ _ _ _ Hkn); destruct inputs; [done|simpl; lia]).
  assert (HV : 0 < V) by (pose proof (kn_range _ _ _ _ Hkn); lia).
  exists rs', (answer A (eos_of A C) (width inputs) x). split; [done|].
  split; [rewrite answer_length; lia|].
  destruct (block_loop_clean A mask (eos_of A C) (width inputs) _ (length inputs) _ Hd
    Hpos HV (total_steps A) _ (cdiv (width inputs + gen_length A) (block_length A) - width inputs / block_length A)
    ltac:(done) Hnt Hpost ltac:(unfold total_steps; lia) Hb ltac:(done) (width inputs / block_length A)
    _ _ _ _ ltac:(lia) (initial_rect A mask inputs Hr Hb) ltac:(unfold initial_x; apply length_map)
    (initial_clean mask inputs Hr Hb Hprompt) E) as (B & HB & Hcl & Hst).
  rewrite <- Hn in Hone. by eapply answer_clean.
Qed.

Context `{!LMVocab Sc ST V}.

(** C40. When [generate] raises, and what: on a nonempty batch of equally long prompts,
    with something to generate, [max_post_steps] not negative, a penalty that is not zero
    and probabilities that can be drawn from, with the cache or without,
    - [ZeroDivisionError] when [minimal_topk] or [block_length] is zero;
    - else [TypeError] when [mask_id] is [None] in the call and in the configuration;
    - else [IndexError] when a token of a prompt, or the mask, is outside the
      vocabulary and a pass is made: with the cache always, without it when there is
      a step;
    - else [RuntimeError] when there is a step and sampling asks for more candidates
      than the vocabulary has;
    and in every other case it returns. *)
Theorem generate_error_exact (rs : RS) (inputs : list (list Z)) :
  rect (width inputs) inputs -> inputs <> [] -> 0 < gen_length A -> (0 <= max_post_steps A)%Z -> draw_ok Sc RS A V ->
  match expected_error A C V inputs with
  | Some err => generate A C rs inputs = Raise err
  | None => exists rs' out, generate A C rs inputs = Ok (rs', out)
  end.
Proof.
  intros Hr Hne Hg Hp [Hd _]. unfold expected_error.
  destruct (Z.eqb_spec (minimal_topk A) 0) as [Hk|Hk]; cbn [orb].
  { unfold generate, _generate_with_kv_cache. rewrite Hk. by destruct (use_kv_cache A). }
  destruct (Nat.eqb_spec (block_length A) 0) as [Hb|Hb].
  { unfold generate, _generate_with_kv_cache. rewrite Hb, (proj2 (Z.eqb_neq _ _) Hk). by destruct (use_kv_cache A). }
  destruct (mask_id_of A C) as [mask|] eqn:Hm.
  2:{ unfold generate, _generate_with_kv_cache. rewrite (proj2 (Z.eqb_neq _ _) Hk), (proj2 (Nat.eqb_neq _ _) Hb), Hm. by destruct (use_kv_cache A). }
  destruct (vocab_ok V ([mask] :: inputs)) eqn:Hv.
  - assert (Hkn : known A C mask inputs (V := V)).
    { rewrite vocab_ok_spec in Hv. split; [done|apply (Hv [mask]); by left| |done].
      apply vocab_ok_spec. intros row t Hrow Ht. apply (Hv row t); [by right|done]. }
    pose proof (known_tokens A C inputs mask rs Hr ltac:(lia) Hg Hp Hk Hkn Hd) as H1.
    destruct ((0 <? total_steps A) && _); [done|]. destruct H1 as [[rs' out] H1]. by exists rs', out.
  - pose proof (unknown_token A C inputs mask rs Hr Hne ltac:(lia) Hg Hp Hk Hm Hv) as H1.
    destruct (use_kv_cache A || _); [done|]. destruct H1 as [[rs' out] H1]. by exists rs', out.
Qed.

End Theorems.

(** ** A network on which the loop can be evaluated *)

Module Toy.
Export ZOps ZSample.

(** The logits of every position follow from the first token of the row. *)
Definition head (row : list Z) : Z := default 0%Z (row !! 0).

Definition logits_for (h : Z) : list Z := if Z.eqb h 1 then [0; 0; 5; 0]%Z else [5; 0; 0; 0]%Z.

(** The embedding knows four tokens. *)
Definition embedded {T} (rows : list (list Z)) (pass : T) : res T :=
  if vocab_ok 4 rows then Ok pass else Raise IndexError.

#[export] Instance lm : CausalLM Z (option (list Z)) := {|
  lm_forward := fun rows => embedded rows (map (fun row => replicate (length row) (logits_for (head row))) rows);
  lm_init_cache := fun _ => None;
  lm_read := fun c _ rows => embedded rows
    (zip_with (fun h (row : list Z) => replicate (length row) (logits_for h))
      (default (map head rows) c) rows);
  lm_commit := fun c _ rows => embedded rows (Some (default (map head rows) c));
|}.

#[export] Instance lm_shapes : LMShape Z (option (list Z)) 4.
Proof.
  split; intros rows n.
  - intros logits _ Hr. simpl. unfold embedded. destruct (vocab_ok 4 rows); [|done]. intros [= <-].
    split; [apply length_map|]. apply Forall_map. eapply Forall_impl; [exact Hr|]. intros r <-. simpl.
    split; [apply length_replicate|]. apply Forall_replicate. unfold logits_for. by destruct (Z.eqb _ _).
  - intros _ _ _ Hv. simpl. unfold embedded. rewrite Hv. by eexists.
Qed.

Lemma toy_committed bl nb x : vocab_ok 4 (map (take (nb * bl)) x) = true ->
  committed bl nb x = Ok (if nb =? 0 then None else Some (map head (map (blk bl 0) x))).
Proof.
  induction nb as [|nb IH]; intros Hv; [done|]. rewrite vocab_ok_window in Hv. apply andb_prop in Hv as [H1 H2].
  rewrite committed_snoc, IH by done. cbn [rbind]. simpl. unfold embedded. rewrite H2. by destruct nb.
Qed.

#[export] Instance lm_cached bl : LMCache Z (option (list Z)) 4 (S bl).
Proof.
  split; intros nb total x.
  { intros _ _ _ Hv. rewrite toy_committed by done. by eexists. }
  intros c Hx _ Hn Hv. rewrite toy_committed by done. intros [= <-]. simpl. unfold embedded.
  change (S (bl + nb * S bl)) with (S nb * S bl). rewrite vocab_ok_window, Hv. cbn [andb].
  destruct (vocab_ok 4 (map (blk (S bl) nb) x)); cbn [rbind]; [|done]. f_equal.
  apply list_eq. intros b. rewrite lookup_zip_with, !list_lookup_fmap.
  assert (E : default (map head (map (blk (S bl) nb) x)) (if nb =? 0 then None else Some (map head (map (blk (S bl) 0) x)))
              = map head (map (blk (S bl) 0) x)) by (by destruct nb).
  rewrite E, !list_lookup_fmap. destruct (x !! b) as [r|] eqn:Er; [|done]. simpl. f_equal.
  pose proof (rect_lookup _ _ _ _ Hx Er). unfold py_last. rewrite drop_replicate. f_equal.
  - unfold blk. rewrite length_py_slice, length_replicate, length_take by lia. lia.
  - unfold head, blk, py_slice. simpl. rewrite !lookup_take_lt by lia. done.
Qed.

#[export] Instance lm_vocab : LMVocab Z (option (list Z)) 4.
Proof. by split; intros; simpl; unfold embedded; case_match; congruence. Qed.

Definition args (b early : bool) (n : nat) : gen_args :=
  mkArgs 0 2 32 n None None early 1 (7 # 10) (5 # 10) 16 None None 1 1 b.

Definition config : lm_config := mkLmConfig (Some 2%Z) (Some (Some 3%Z)).

(** The prompts of two requests. *)
Definition prompts : list (list Z) := [[1; 0]; [0; 0]]%Z.

(** The network never predicts the mask. *)
Lemma toy_draws b early n total rows :
  lm_draws (args b early n) 3 total rows (fun t => t <> 3%Z) (RS := nat).
Proof.
  intros nb Hnb rs x lg lg' rs' out _ _ Hlg Hp Hs t Ht. injection Hp as <-. injection Hs as _ <-.
  unfold window_logits in Hlg. simpl in Hlg. unfold embedded in Hlg. destruct (vocab_ok _ _); [|done]. injection Hlg as <-.
  apply list_elem_of_fmap in Ht as ([t' p] & -> & Hin%elem_of_zip_l). simpl in Hin |- *.
  unfold row_tokens in Hin. apply list_elem_of_fmap in Hin as (row & -> & Hrow).
  apply list_elem_of_In, in_concat in Hrow as (rows' & Hr1 & Hr2).
  rewrite map_map in Hr1. apply in_map_iff in Hr1 as (r & <- & _). apply list_elem_of_In in Hr2.
  unfold py_last in Hr2. rewrite drop_replicate in Hr2. apply elem_of_replicate in Hr2 as [-> _].
  unfold logits_for. by destruct (Z.eqb _ _).
Qed.

Lemma complete b early (inputs : list (list Z)) :
  rect 2 inputs -> inputs <> [] -> Forall (fun row => 3%Z ∉ row) inputs ->
  complete_args (args b early 4) config 3 inputs (RS := nat).
Proof.
  intros Hr Hne Hm. assert (Hw : width inputs = 2) by (by destruct Hr).
  split; rewrite ?Hw; try exact Hr; try exact Hm; try (simpl; lia); try (vm_compute; discriminate).
  apply toy_draws.
Qed.

Lemma toy_known b early inputs : vocab_ok 4 inputs = true -> inputs <> [] ->
  known (args b early 4) config 3 inputs (V := 4).
Proof. intros Hv Hne. by split. Qed.

Lemma toy_draw_ok A : Qeq_bool (repetition_penalty A) 0 = false -> draw_ok Z nat A 4.
Proof. intros Hp. split; [by right|done]. Qed.

End Toy.

Section EarlyStop.
Import Toy.

(** With several prompts the early stop is wrong: the loop ends as soon as
    one row has an end-of-sequence token, and the rows that have none are
    returned with masks, although the arguments allow every mask to be replaced
    and the row, on its own, is generated in full. *)
Lemma early_stop_leaves_masks :
  complete_args (args false true 4) config 3 prompts (RS := nat) /\
  known (args false true 4) config 3 prompts (V := 4) /\
  generate (args false true 4) config 0 prompts = Ok (0, [[2; 2; 2; 2]; [0; 0; 3; 3]]%Z) /\
  generate (args false true 4) config 0 [[0; 0]%Z] = Ok (0, [[0; 0; 0; 0]]%Z).
Proof.
  split; [|split; [by apply toy_known|split; vm_compute; reflexivity]].
  apply complete; [by repeat constructor|done|].
  repeat constructor; by (rewrite !not_elem_of_cons; split_and!; try lia; apply not_elem_of_nil).
Qed.

Lemma generate_typed_witness :
  exists rs' out, generate (args true true 4) config 0 prompts = Ok (rs', out) /\ length out = 2.
Proof.
  destruct (generate_typed (V := 4) (args true true 4) config 3 0 prompts) as (rs' & out & E & L & _);
    [by repeat constructor|by apply toy_known|simpl; lia|done|reflexivity|by apply toy_draw_ok|].
  by exists rs', out.
Defined.

Lemma generate_mask_free_witness :
  exists rs' out, generate (args true true 4) config 0 [[1; 0]%Z] = Ok (rs', out) /\
    forall row, row ∈ out -> 3%Z ∉ row.
Proof.
  destruct (generate_mask_free (V := 4) (args true true 4) config 3 0 [[1; 0]%Z]) as (rs' & out & E & _ & Hc).
  - apply complete; [by repeat constructor|done|].
    repeat constructor; by (rewrite !not_elem_of_cons; split_and!; try lia; apply not_elem_of_nil).
  - by apply toy_known.
  - reflexivity.
  - by apply toy_draw_ok.
  - left. simpl. lia.
  - by exists rs', out.
Defined.

(** A [top_k] beyond the vocabulary, and a prompt outside it. *)
Lemma generate_error_exact_witness :
  generate (mkArgs 1 2 32 4 None (Some 7%Z) true 1 (7 # 10) (5 # 10) 16 None None 1 1 false) config 0 prompts
  = Raise RuntimeError /\
  generate (args true true 4) config 0 [[1; 9]%Z] = Raise IndexError /\
  exists rs' out, generate (args false true 4) config 0 prompts = Ok (rs', out).
Proof.
  split; [|split].
  - apply (generate_error_exact (V := 4) (mkArgs 1 2 32 4 None (Some 7%Z) true 1 (7 # 10) (5 # 10) 16 None None 1 1 false) config 0 prompts);
      [by repeat constructor|discriminate|simpl; lia|simpl; lia|by apply toy_draw_ok].
  - apply (generate_error_exact (V := 4) (args true true 4) config 0 [[1; 9]%Z]);
      [by repeat constructor|discriminate|simpl; lia|simpl; lia|by apply toy_draw_ok].
  - apply (generate_error_exact (V := 4) (args false true 4) config 0 prompts);
      [by repeat constructor|discriminate|simpl; lia|simpl; lia|by apply toy_draw_ok].
Defined.

End EarlyStop.
End GenProps.
