(* ===== verification/PrefillAdder.v ===== *)
(** [PrefillAdder] of [srt/managers/schedule_policy.py]: how many tokens each
    request may run in the next batch.

    The adder walks over candidate requests, truncates each to the tokens it may
    run and charges a budget.  With a dLLM configuration every request that is
    taken must get exactly one block; the theorems say when it does.

    The tree cache is a parameter, a record of the operations the adder calls
    ([BasePrefixCache]); the KV allocator is only read.  Token counts that the
    code scales by [new_token_ratio] are rationals.  Priority preemption, the
    prefill delayer and context parallelism are not modelled. *)
From stdpp Require Import base list relations strings.
From Stdlib Require Import ZArith QArith Lia Lqa.
From S2P Require Import Prelude.
From S2P Require Import DllmReq.
Local Open Scope py_scope.
Local Open Scope Z_scope.

(** [l[:n]]: a negative bound counts from the end. *)
Definition py_upto {A} (n : Z) (l : list A) : list A :=
  if n <? 0 then take (Z.to_nat (Z.of_nat (length l) + n)) l else take (Z.to_nat n) l.

(** [int(q)]: truncation towards zero. *)
Definition Qtrunc (q : Q) : Z := Z.quot (Qnum q) (Zpos (Qden q)).

Module Adder.
Import Config Req.

Inductive AddReqResult : Type := CONTINUE | NO_TOKEN | OTHER.

(** The default of [SGLANG_CLIP_MAX_NEW_TOKENS_ESTIMATION]. *)
Definition CLIP_MAX_NEW_TOKENS : Z := 4096.
Definition IGNORE_EOS_RESERVE_TOKENS : Z := 1.

(** What the adder calls of the tree cache. *)
Record PrefixCache (Sc TS : Type) : Type := {
  tc_disable : bool;
  tc_supports_mamba : bool;
  evictable_size : TS -> Z;
  full_evictable_size : TS -> Z;
  swa_evictable_size : TS -> Z;
  inc_lock_ref : option nat -> TS -> TS;
  dec_lock_ref : option nat -> TS -> TS;
  init_load_back : req Sc -> TS -> list Z * option nat * TS;
}.
Arguments tc_disable {Sc TS}.
Arguments tc_supports_mamba {Sc TS}.
Arguments evictable_size {Sc TS}.
Arguments full_evictable_size {Sc TS}.
Arguments swa_evictable_size {Sc TS}.
Arguments inc_lock_ref {Sc TS}.
Arguments dec_lock_ref {Sc TS}.
Arguments init_load_back {Sc TS}.

(** What the adder reads of the KV allocator. *)
Record kv_sizes : Type := {
  is_hybrid_swa : bool;
  available_size : Z;
  full_available_size : Z;
  swa_available_size : Z;
}.

(** The counters that [_update_prefill_budget] charges. *)
Record budget : Type := mkBudget {
  rem_input_tokens : Z;
  rem_chunk_tokens : option Z;
  rem_dllm_tokens : Z;
  rem_total_token_offset : Q;
  cur_rem_token_offset : Z;
  log_hit_tokens : Z;
  log_input_tokens : Z;
}.

Section Model.
Context {Sc TS : Type}.
Variable cache : PrefixCache Sc TS.

(** The attributes of the adder; [can_run_list] pairs the identity of a request
    with the request as the adder leaves it. *)
Record adder : Type := mkAdder {
  page_size : Z;
  kv : kv_sizes;
  tree : TS;
  running : list (req Sc);
  new_token_ratio : Q;
  a_dllm_config : option (DllmConfig Sc);
  prefill_max_requests : option nat;
  bud : budget;
  req_states : option (list (Q * Z));
  can_run_list : list (nat * req Sc);
  new_chunked_req : option nat;
}.

Definition with_bud (b : budget) (a : adder) : adder :=
  mkAdder (page_size a) (kv a) (tree a) (running a) (new_token_ratio a) (a_dllm_config a)
    (prefill_max_requests a) b (req_states a) (can_run_list a) (new_chunked_req a).
Definition with_tree (t : TS) (a : adder) : adder :=
  mkAdder (page_size a) (kv a) t (running a) (new_token_ratio a) (a_dllm_config a)
    (prefill_max_requests a) (bud a) (req_states a) (can_run_list a) (new_chunked_req a).
Definition with_states (s : list (Q * Z)) (a : adder) : adder :=
  mkAdder (page_size a) (kv a) (tree a) (running a) (new_token_ratio a) (a_dllm_config a)
    (prefill_max_requests a) (bud a) (Some s) (can_run_list a) (new_chunked_req a).
Definition can_run (o : nat) (r : req Sc) (a : adder) : adder :=
  mkAdder (page_size a) (kv a) (tree a) (running a) (new_token_ratio a) (a_dllm_config a)
    (prefill_max_requests a) (bud a) (req_states a) (can_run_list a ++ [(o, r)]) (new_chunked_req a).
Definition set_chunked (o : nat) (a : adder) : adder :=
  mkAdder (page_size a) (kv a) (tree a) (running a) (new_token_ratio a) (a_dllm_config a)
    (prefill_max_requests a) (bud a) (req_states a) (can_run_list a) (Some o).

(** [_get_running_request_total_token_offset]. *)
Definition _get_running_request_total_token_offset (ratio : Q) (r : req Sc) : Q :=
  (inject_Z (Z.min (max_new_tokens r - Z.of_nat (length (output_ids r))) CLIP_MAX_NEW_TOKENS) * ratio)%Q.

(** [__init__] with [_init_dllm_meta]; [mixed] is [mixed_with_decode_tokens]. *)
Definition init (ps : Z) (kvs : kv_sizes) (t : TS) (run : list (req Sc)) (ratio : Q)
    (rem_input : Z) (rem_chunk : option Z) (mixed : Z) (max_reqs : option nat)
    (cfg : option (DllmConfig Sc)) : adder :=
  let rem_dllm := match cfg with
                  | Some c => Z.of_nat (max_running_requests c) * Z.of_nat (block_size c)
                  | None => 0
                  end in
  let off := fold_left (fun acc r => (acc + _get_running_request_total_token_offset ratio r)%Q) run
               (inject_Z mixed) in
  mkAdder ps kvs t run ratio cfg max_reqs
    (mkBudget (rem_input - mixed) ((fun c => c - mixed) <$> rem_chunk) rem_dllm off mixed 0 0)
    None [] None.

Definition available_and_evictable (a : adder) : Z :=
  if is_hybrid_swa (kv a)
  then Z.min (full_available_size (kv a) + full_evictable_size cache (tree a))
             (swa_available_size (kv a) + swa_evictable_size cache (tree a))
  else if tc_supports_mamba cache
  then available_size (kv a) + full_evictable_size cache (tree a)
  else available_size (kv a) + evictable_size cache (tree a).

Definition rem_total_tokens (a : adder) : Q :=
  (inject_Z (available_and_evictable a) - rem_total_token_offset (bud a))%Q.

Definition cur_rem_tokens (a : adder) : Z :=
  available_and_evictable a - cur_rem_token_offset (bud a).

(** [-(-tokens // page_size) * page_size]. *)
Definition ceil_paged_tokens (tokens : Z) (a : adder) : Z :=
  - (- tokens / page_size a) * page_size a.

Definition Qleb0 (q : Q) : bool := Qle_bool q 0.

Definition budget_state (a : adder) : AddReqResult :=
  if Qleb0 (rem_total_tokens a) || (cur_rem_tokens a <=? 0) then NO_TOKEN
  else if rem_input_tokens (bud a) <=? 0 then OTHER
  else match a_dllm_config a with
  | Some _ => if rem_dllm_tokens (bud a) <=? 0 then OTHER else CONTINUE
  | None =>
    match rem_chunk_tokens (bud a) with
    | Some c => if c <=? 0 then OTHER else CONTINUE
    | None => CONTINUE
    end
  end.

Definition _update_prefill_budget (prefix_len extend_input_len max_new : Z) (a : adder) : adder :=
  let e := ceil_paged_tokens extend_input_len a in
  let page_overhead := page_size a in
  let b := bud a in
  with_bud
    (mkBudget (rem_input_tokens b - e)
       (match a_dllm_config a with
        | Some _ => rem_chunk_tokens b
        | None => (fun c => c - e) <$> rem_chunk_tokens b
        end)
       (match a_dllm_config a with
        | Some _ => rem_dllm_tokens b - e
        | None => rem_dllm_tokens b
        end)
       (rem_total_token_offset b + inject_Z (e + max_new + page_overhead))%Q
       (cur_rem_token_offset b + (e + page_overhead))
       (log_hit_tokens b + prefix_len)
       (log_input_tokens b + e)) a.

(** The block size, of a dLLM configuration. *)
Definition bsize (c : DllmConfig Sc) : Z := Z.of_nat (block_size c).

Definition _get_dllm_remain_tokens (c : DllmConfig Sc) (a : adder) : Z :=
  let t := Z.min (Z.min (rem_dllm_tokens (bud a)) (bsize c)) (Qtrunc (rem_total_tokens a)) in
  if t <=? 0 then rem_dllm_tokens (bud a) else t.

Definition _add_dllm_req (c : DllmConfig Sc) (o : nat) (r : req Sc) (prefix_len : Z) (a : adder)
    : req Sc * adder :=
  let trunc_len := Z.min (rem_dllm_tokens (bud a)) (bsize c) / page_size a * page_size a in
  let r := set_extend_input_len trunc_len r in
  let r := set_fill_ids (py_upto (prefix_len + trunc_len) (fill_ids r)) r in
  (r, _update_prefill_budget prefix_len trunc_len 0 (can_run o r a)).

(** Truncate a request that already holds resources to [rem] tokens. *)
Definition truncate_to (rem : Z) (r : req Sc) : bool * req Sc :=
  let truncated := rem <? extend_input_len r in
  let r := set_extend_input_len (Z.min (extend_input_len r) rem) r in
  (truncated,
   set_fill_ids (py_upto (Z.of_nat (length (prefix_indices r)) + extend_input_len r) (fill_ids r)) r).

Definition clipped_new_tokens (truncated : bool) (r : req Sc) : Z :=
  if truncated then 0 else Z.min (max_new_tokens r) CLIP_MAX_NEW_TOKENS.

Definition add_dllm_staging_req (o : nat) (r : req Sc) (a : adder) : res (AddReqResult * req Sc * adder) :=
  match a_dllm_config a with
  | None => Raise AssertionError
  | Some c =>
    let rem := _get_dllm_remain_tokens c a in
    if rem <=? 0 then Ok (NO_TOKEN, r, a)
    else
      let '(truncated, r) := truncate_to rem r in
      let a := can_run o r a in
      let a := _update_prefill_budget 0 (extend_input_len r) (clipped_new_tokens truncated r) a in
      Ok (if _get_dllm_remain_tokens c a <=? 0 then NO_TOKEN else CONTINUE, r, a)
  end.

(** [add_chunked_req]: the flag says whether the request is returned. *)
Definition add_chunked_req (o : nat) (r : req Sc) (a : adder) : res (bool * req Sc * adder) :=
  let rem := match a_dllm_config a with
             | Some c => Ok (_get_dllm_remain_tokens c a)
             | None =>
               match rem_chunk_tokens (bud a) with
               | None => Raise TypeError
               | Some chunk =>
                 let t := Z.min chunk (Qtrunc (rem_total_tokens a)) in
                 Ok (if t <=? 0 then chunk else t)
               end
             end in
  let! rem := rem in
  let '(truncated, r) := truncate_to rem r in
  let a := can_run o r a in
  Ok (truncated, r, _update_prefill_budget 0 (extend_input_len r) (clipped_new_tokens truncated r) a).

(** ** Admission with [ignore_eos] *)

Definition token_state (ratio : Q) (r : req Sc) : Q * Z :=
  let ratio := if ignore_eos r then 1%Q else ratio in
  ((inject_Z (max_new_tokens r) * ratio - inject_Z (Z.of_nat (length (output_ids r))))%Q,
   Z.of_nat (length (origin_input_ids r)) + Z.of_nat (length (output_ids r))).

(** The index at which the loop of [insert_sort] stops: the first entry that is
    not smaller, or the last index. *)
Fixpoint insert_index (x : Q) (i : nat) (l : list (Q * Z)) : nat :=
  match l with
  | [] => 0
  | [_] => i
  | y :: l => if Qle_bool x (fst y) then i else insert_index x (S i) l
  end.

Definition add_req_state (ratio : Q) (r : req Sc) (insert_sort : bool) (l : list (Q * Z))
    : list (Q * Z) :=
  let s := token_state ratio r in
  if Qleb0 (fst s) then l
  else if insert_sort
  then let i := insert_index (fst s) 0 l in take i l ++ [s] ++ drop i l
  else l ++ [s].

(** [req_states.sort(key=lambda x: x[0])]. *)
Fixpoint sort_insert (s : Q * Z) (l : list (Q * Z)) : list (Q * Z) :=
  match l with
  | [] => [s]
  | y :: l => if Qle_bool (fst s) (fst y) then s :: y :: l else y :: sort_insert s l
  end.
Definition sort_states (l : list (Q * Z)) : list (Q * Z) := foldr sort_insert [] l.

(** The loop over [req_states]: does every point in time leave free tokens? *)
Fixpoint leaves_tokens (cur freed : Z) (l : list (Q * Z)) : bool :=
  match l with
  | [] => true
  | (tokens_left, occupied) :: rest =>
    let bs := Z.of_nat (length l) in
    if Qle_bool (inject_Z (cur + freed) - tokens_left * inject_Z bs) (inject_Z (IGNORE_EOS_RESERVE_TOKENS * bs))
    then false
    else leaves_tokens cur (freed + occupied) rest
  end.

Definition add_one_req_ignore_eos (o : nat) (r : req Sc) (a : adder)
    : res (AddReqResult * req Sc * adder) :=
  let need := ceil_paged_tokens (extend_input_len r) a in
  if (cur_rem_tokens a <? need) || negb (Qle_bool (inject_Z need) (rem_total_tokens a))
  then Ok (NO_TOKEN, r, a)
  else
    let states := match req_states a with
                  | None =>
                    sort_states
                      (fold_left (fun l r => add_req_state (new_token_ratio a) r false l)
                         (r :: running a ++ map snd (can_run_list a)) [])
                  | Some l => add_req_state (new_token_ratio a) r true l
                  end in
    let a := with_states states a in
    if negb (is_hybrid_swa (kv a)) && negb (leaves_tokens (cur_rem_tokens a - need) 0 states)
    then Ok (NO_TOKEN, r, a)
    else
      match a_dllm_config a with
      | Some c =>
        if rem_dllm_tokens (bud a) <=? 0 then Ok (OTHER, r, a)
        else let '(r, a) := _add_dllm_req c o r 0 a in Ok (budget_state a, r, a)
      | None =>
        let whole := let a := _update_prefill_budget 0 (extend_input_len r)
                                (Z.min (max_new_tokens r) CLIP_MAX_NEW_TOKENS) (can_run o r a) in
                     Ok (budget_state a, r, a) in
        match rem_chunk_tokens (bud a) with
        | None => whole
        | Some chunk =>
          if extend_input_len r <=? chunk then whole
          else if chunk <=? 0 then Ok (OTHER, r, a)
          else
            let r := set_extend_input_len chunk r in
            let r := set_fill_ids (py_upto chunk (fill_ids r)) r in
            let a := _update_prefill_budget 0 chunk 0 (set_chunked o (can_run o r a)) in
            Ok (budget_state a, r, a)
        end
      end.

(** ** Admission of a new request *)

(** The part of [add_one_req] under the lock of the request's node. *)
Definition admit_locked (truncation_align_size : option Z) (total_tokens : Z) (o : nat) (r : req Sc)
    (a : adder) : res (AddReqResult * req Sc * adder) :=
  if Qle_bool (rem_total_tokens a) (inject_Z total_tokens) then Ok (NO_TOKEN, r, a)
  else
    let '(r, a) :=
      if (0 <? host_hit_length r)%nat
      then
        let '(new_indices, node, t) := init_load_back cache r (tree a) in
        let r := set_last_node node r in
        let r := set_prefix_indices (prefix_indices r ++ new_indices) r in
        let r := set_extend_input_len
                   (Z.of_nat (length (fill_ids r)) - Z.of_nat (length (prefix_indices r))) r in
        (set_cache_protected_len (length (prefix_indices r)) r, with_tree t a)
      else (r, a) in
    let prefix_len := Z.of_nat (length (prefix_indices r)) in
    let input_tokens := ceil_paged_tokens (extend_input_len r) a in
    let lock := fun r a => with_tree (inc_lock_ref cache (last_node r) (tree a)) a in
    if (rem_input_tokens (bud a) <=? input_tokens) && negb (length (can_run_list a) =? 0)%nat
    then Ok (OTHER, r, a)
    else
      match a_dllm_config a with
      | Some c =>
        if rem_dllm_tokens (bud a) <=? 0 then Ok (OTHER, r, a)
        else
          passert (match truncation_align_size with None => true | Some _ => false end)
            (let '(r, a) := _add_dllm_req c o r prefix_len a in
             Ok (CONTINUE, r, lock r a))
      | None =>
        let whole := Ok (CONTINUE, r,
          _update_prefill_budget prefix_len input_tokens (Z.min (max_new_tokens r) CLIP_MAX_NEW_TOKENS)
            (lock r (can_run o r a))) in
        match rem_chunk_tokens (bud a) with
        | None => whole
        | Some chunk =>
          if input_tokens <=? chunk then whole
          else
            let trunc_len := chunk / page_size a * page_size a in
            if trunc_len <=? 0 then Ok (OTHER, r, a)
            else
              let chunked := fun trunc_len =>
                let r := set_extend_input_len trunc_len r in
                let r := set_fill_ids (py_upto (prefix_len + trunc_len) (fill_ids r)) r in
                Ok (CONTINUE, r, _update_prefill_budget prefix_len trunc_len 0
                                   (lock r (set_chunked o (can_run o r a)))) in
              match truncation_align_size with
              | None => chunked trunc_len
              | Some n => if trunc_len <? n then Ok (OTHER, r, a) else chunked (n * (trunc_len / n))
              end
        end
      end.

(** [add_one_req].  A result other than [CONTINUE] of the locked part is the
    result of the call; otherwise the budget decides. *)
Definition add_one_req (truncation_align_size : option Z) (o : nat) (r : req Sc) (a : adder)
    : res (AddReqResult * req Sc * adder) :=
  if match prefill_max_requests a with
     | Some x => (x <=? length (can_run_list a))%nat
     | None => false
     end
  then Ok (OTHER, r, a)
  else if ignore_eos r && tc_disable cache then add_one_req_ignore_eos o r a
  else
    let total_tokens := extend_input_len r +
      Z.min (Z.max (max_new_tokens r - Z.of_nat (length (output_ids r))) 0) CLIP_MAX_NEW_TOKENS in
    let real_input_tokens := ceil_paged_tokens (extend_input_len r - Z.of_nat (host_hit_length r)) a in
    if Qle_bool (rem_total_tokens a) (inject_Z total_tokens) then Ok (NO_TOKEN, r, a)
    else if (rem_input_tokens (bud a) <=? real_input_tokens) && negb (length (can_run_list a) =? 0)%nat
    then Ok (OTHER, r, a)
    else
      let node := last_node r in
      let a := with_tree (inc_lock_ref cache node (tree a)) a in
      let! '(result, r, a) := admit_locked truncation_align_size total_tokens o r a in
      let a := with_tree (dec_lock_ref cache node (tree a)) a in
      Ok (match result with CONTINUE => budget_state a | _ => result end, r, a).

End Model.
Arguments adder : clear implicits.

(** * Whole blocks *)

Lemma Qtrunc_ge (b : Z) (q : Q) : (inject_Z b <= q)%Q -> b <= Qtrunc q.
Proof.
  unfold Qle, Qtrunc. simpl. rewrite Z.mul_1_r. intros Hb.
  apply Z.quot_le_lower_bound; lia.
Qed.

Lemma length_py_upto {A} (n : Z) (l : list A) :
  0 <= n <= Z.of_nat (length l) -> Z.of_nat (length (py_upto n l)) = n.
Proof.
  intros Hn. unfold py_upto. destruct (Z.ltb_spec n 0); [lia|]. rewrite length_take. lia.
Qed.

Section Blocks.
Context {Sc TS : Type}.
Variable cache : PrefixCache Sc TS.
Variable c : DllmConfig Sc.
Variable ps : Z.
#[local] Abbreviation bs := (bsize c).
Hypothesis ps_pos : 0 < ps.
Hypothesis bs_pos : 0 < bs.
Hypothesis ps_bs : (ps | bs).

(** A request as [init_next_round_input] leaves it, with at least a block to run;
    when the cache is disabled there is no cached prefix on admission. *)
Record ready (r : req Sc) : Prop := {
  rdy_extend : extend_input_len r = Z.of_nat (length (fill_ids r)) - Z.of_nat (length (prefix_indices r));
  rdy_block : Z.of_nat (length (prefix_indices r)) + bs <= Z.of_nat (length (fill_ids r));
  rdy_host : host_hit_length r = 0%nat;
}.

(** Exactly one block behind the committed prefix. *)
Definition one_block (r : req Sc) : Prop :=
  extend_input_len r = bs /\
  Z.of_nat (length (fill_ids r)) = Z.of_nat (length (prefix_indices r)) + bs.

Record good (a : adder Sc TS) : Prop := {
  gd_cfg : a_dllm_config a = Some c;
  gd_page : page_size a = ps;
  gd_rem : rem_dllm_tokens (bud a)
           = (Z.of_nat (max_running_requests c) - Z.of_nat (length (can_run_list a))) * bs;
  gd_count : (length (can_run_list a) <= max_running_requests c)%nat;
  gd_blocks : forall o r, (o, r) ∈ can_run_list a -> one_block r;
}.

Lemma ceil_block (a : adder Sc TS) : page_size a = ps -> ceil_paged_tokens bs a = bs.
Proof.
  intros E. unfold ceil_paged_tokens. rewrite E. destruct ps_bs as [k ->].
  rewrite <- Z.mul_opp_l, Z.div_mul by lia. lia.
Qed.

(** Taking one block keeps the budget in step with the list. *)
Lemma take_good (a : adder Sc TS) o r prefix_len new :
  good a -> (length (can_run_list a) < max_running_requests c)%nat -> one_block r ->
  good (_update_prefill_budget prefix_len bs new (can_run o r a)).
Proof.
  intros [Hc Hp Hr Hn Hb] Hlt Hr1. unfold _update_prefill_budget.
  rewrite ceil_block by done. split; simpl.
  - done.
  - done.
  - rewrite Hc, Hr, length_app. simpl. nia.
  - rewrite length_app. simpl. lia.
  - intros o' r' [Hin|Hin]%elem_of_app; [by eapply Hb|].
    apply list_elem_of_singleton in Hin. by simplify_eq.
Qed.

Lemma good_room (a : adder Sc TS) :
  good a -> 0 < rem_dllm_tokens (bud a) ->
  (length (can_run_list a) < max_running_requests c)%nat /\ bs <= rem_dllm_tokens (bud a).
Proof.
  intros [_ _ Hr _ _] Hp. rewrite Hr in *.
  assert (0 < Z.of_nat (max_running_requests c) - Z.of_nat (length (can_run_list a)))
    by (by apply (Z.mul_pos_cancel_r _ bs)). split; [lia|nia].
Qed.

(** A request cut to one block. *)
Definition block_of (r : req Sc) : req Sc :=
  set_fill_ids (py_upto (Z.of_nat (length (prefix_indices r)) + bs) (fill_ids r))
    (set_extend_input_len bs r).

Lemma cut_one_block (r : req Sc) : ready r -> one_block (block_of r).
Proof. intros [_ Hb _]. split; [done|]. simpl. apply length_py_upto. lia. Qed.

(** What a call that offers request [r] does: nothing, or take one block and charge
    it with at most [CLIP_MAX_NEW_TOKENS] tokens to come. *)
Inductive outcome (o : nat) (r : req Sc) (a : adder Sc TS) : req Sc -> adder Sc TS -> Prop :=
| rejected a' : can_run_list a' = can_run_list a -> bud a' = bud a -> kv a' = kv a ->
    outcome o r a r a'
| taken a' new : new <= CLIP_MAX_NEW_TOKENS ->
    can_run_list a' = can_run_list a ++ [(o, block_of r)] ->
    rem_total_token_offset (bud a')
      = (rem_total_token_offset (bud a) + inject_Z (bs + new + ps))%Q ->
    kv a' = kv a -> outcome o r a (block_of r) a'.

Lemma good_tree t (a : adder Sc TS) : good a -> good (with_tree t a).
Proof. intros [? ? ? ? ?]. by split. Qed.

Lemma outcome_from o r (a1 a : adder Sc TS) r' a' :
  can_run_list a1 = can_run_list a -> bud a1 = bud a -> kv a1 = kv a ->
  outcome o r a1 r' a' -> outcome o r a r' a'.
Proof.
  intros E1 E2 E3 [a'' H1 H2 H3|a'' new H1 H2 H3 H4]; [apply rejected|apply (taken _ _ _ _ new)]; congruence.
Qed.

Lemma outcome_to o r (a : adder Sc TS) r' a' t : outcome o r a r' a' -> outcome o r a r' (with_tree t a').
Proof.
  intros [a'' H1 H2 H3|a'' new H1 H2 H3 H4]; [by apply rejected|by apply (taken _ _ _ _ new)].
Qed.

Lemma take_outcome (a : adder Sc TS) o r p new :
  good a -> new <= CLIP_MAX_NEW_TOKENS ->
  outcome o r a (block_of r) (_update_prefill_budget p bs new (can_run o (block_of r) a)).
Proof.
  intros Hg Hn. eapply (taken _ _ _ _ new); try done. unfold _update_prefill_budget.
  rewrite ceil_block by apply Hg. simpl. by rewrite (gd_page a Hg).
Qed.

Lemma trunc_block (a : adder Sc TS) :
  good a -> 0 < rem_dllm_tokens (bud a) ->
  Z.min (rem_dllm_tokens (bud a)) bs / page_size a * page_size a = bs.
Proof.
  intros Hg Hp. destruct (good_room a Hg Hp) as [_ Hb]. rewrite Z.min_r by lia.
  rewrite (gd_page a Hg). destruct ps_bs as [k ->]. by rewrite Z.div_mul by lia.
Qed.

Lemma add_dllm_outcome (a : adder Sc TS) o r p :
  good a -> 0 < rem_dllm_tokens (bud a) -> ready r -> p = Z.of_nat (length (prefix_indices r)) ->
  exists a', _add_dllm_req c o r p a = (block_of r, a') /\ good a' /\ outcome o r a (block_of r) a'.
Proof.
  intros Hg Hp Hr ->. unfold _add_dllm_req. rewrite trunc_block by done. eexists. split; [done|].
  split; [apply take_good; [done|by apply good_room|exact (cut_one_block r Hr)]|].
  apply (take_outcome a o r); [done|]. unfold CLIP_MAX_NEW_TOKENS. lia.
Qed.

(** With a block of memory left, [_get_dllm_remain_tokens] is a block until
    [max_running_requests] requests are taken, and nothing then. *)
Lemma remain_block (a : adder Sc TS) :
  good a -> (inject_Z bs <= rem_total_tokens cache a)%Q ->
  _get_dllm_remain_tokens cache c a
  = (if (length (can_run_list a) <? max_running_requests c)%nat then bs else 0).
Proof.
  intros Hg Ht. pose proof (Qtrunc_ge bs _ Ht) as Hq. pose proof (gd_rem a Hg) as Er.
  pose proof (gd_count a Hg). unfold _get_dllm_remain_tokens.
  destruct (Nat.ltb_spec (length (can_run_list a)) (max_running_requests c)) as [Hlt|Hge].
  - rewrite (Z.min_r (rem_dllm_tokens _)) by nia.
    rewrite Z.min_l by lia. destruct (Z.leb_spec bs 0); lia.
  - assert (E0 : rem_dllm_tokens (bud a) = 0) by nia. rewrite E0.
    destruct (Z.leb_spec (Z.min (Z.min 0 bs) (Qtrunc (rem_total_tokens cache a))) 0); lia.
Qed.

(** A staged request is taken as long as requests may be. *)
Lemma staging_takes (a : adder Sc TS) o r :
  good a -> ready r -> (inject_Z bs <= rem_total_tokens cache a)%Q ->
  (length (can_run_list a) < max_running_requests c)%nat ->
  exists a', add_dllm_staging_req cache o r a
    = Ok (if _get_dllm_remain_tokens cache c a' <=? 0 then NO_TOKEN else CONTINUE, block_of r, a') /\
    good a' /\ outcome o r a (block_of r) a' /\ can_run_list a' = can_run_list a ++ [(o, block_of r)].
Proof.
  intros Hg Hr Ht Hlt. unfold add_dllm_staging_req. rewrite (gd_cfg a Hg), remain_block by done.
  apply Nat.ltb_lt in Hlt as Hb. rewrite Hb. destruct (Z.leb_spec bs 0); [lia|]. unfold truncate_to.
  pose proof (rdy_extend r Hr) as He. pose proof (rdy_block r Hr) as Hbl. rewrite Z.min_r by lia.
  eexists. split; [reflexivity|]. simpl. fold (block_of r).
  split; [apply take_good; [done|done|exact (cut_one_block r Hr)]|]. split; [|done].
  apply (take_outcome a o r); [done|]. unfold clipped_new_tokens, CLIP_MAX_NEW_TOKENS.
  destruct (_ <? _); lia.
Qed.

Lemma staging_outcome (a : adder Sc TS) o r :
  good a -> ready r -> (inject_Z bs <= rem_total_tokens cache a)%Q ->
  exists x r' a', add_dllm_staging_req cache o r a = Ok (x, r', a') /\ good a' /\ outcome o r a r' a'.
Proof.
  intros Hg Hr Ht. destruct (Nat.le_gt_cases (max_running_requests c) (length (can_run_list a))) as [Hge|Hlt].
  - unfold add_dllm_staging_req. rewrite (gd_cfg a Hg), remain_block by done.
    destruct (Nat.ltb_spec (length (can_run_list a)) (max_running_requests c)); [lia|].
    do 3 eexists. split; [done|]. split; [done|by apply rejected].
  - destruct (staging_takes a o r Hg Hr Ht Hlt) as (a' & E & Hg' & Ho & _). eauto 10.
Qed.

Lemma ignore_eos_outcome (a : adder Sc TS) o r :
  good a -> ready r -> prefix_indices r = [] ->
  exists x r' a', add_one_req_ignore_eos cache o r a = Ok (x, r', a') /\ good a' /\ outcome o r a r' a'.
Proof.
  intros Hg Hr Hn. unfold add_one_req_ignore_eos.
  destruct (_ || _); [do 3 eexists; split; [done|]; split; [done|by apply rejected]|].
  set (st := match req_states a with Some _ => _ | None => _ end).
  assert (Hg' : good (with_states st a)) by (destruct Hg; by split).
  destruct (_ && _); [do 3 eexists; split; [done|]; split; [done|by apply rejected]|].
  rewrite (gd_cfg _ Hg'). destruct (Z.leb_spec (rem_dllm_tokens (bud (with_states st a))) 0) as [H0|H0];
    [do 3 eexists; split; [done|]; split; [done|by apply rejected]|].
  destruct (add_dllm_outcome (with_states st a) o r 0 Hg' H0 Hr ltac:(by rewrite Hn)) as (a' & -> & Hg1 & Ho).
  do 3 eexists. split; [done|]. split; [done|]. by eapply outcome_from; [..|exact Ho].
Qed.

Lemma locked_outcome (b : adder Sc TS) tt o r :
  good b -> ready r ->
  exists x r' b', admit_locked cache None tt o r b = Ok (x, r', b') /\ good b' /\ outcome o r b r' b'.
Proof.
  intros Hg Hr. unfold admit_locked.
  destruct (Qle_bool _ _); [do 3 eexists; split; [done|]; split; [done|by apply rejected]|].
  rewrite (rdy_host r Hr). change (0 <? 0)%nat with false. cbv iota zeta beta.
  match goal with |- context [if ?x && ?y then _ else _] => destruct (x && y) end;
    [do 3 eexists; split; [done|]; split; [done|by apply rejected]|].
  rewrite (gd_cfg b Hg). destruct (Z.leb_spec (rem_dllm_tokens (bud b)) 0) as [H0|H0];
    [do 3 eexists; split; [done|]; split; [done|by apply rejected]|].
  destruct (add_dllm_outcome b o r _ Hg H0 Hr eq_refl) as (a' & -> & Hg1 & Ho). simpl.
  do 3 eexists. split; [done|]. split; [by apply good_tree|].
  by apply outcome_to.
Qed.

Lemma incoming_outcome (a : adder Sc TS) o r :
  good a -> ready r -> (ignore_eos r = true -> tc_disable cache = true -> prefix_indices r = []) ->
  exists x r' a', add_one_req cache None o r a = Ok (x, r', a') /\ good a' /\ outcome o r a r' a'.
Proof.
  intros Hg Hr Hd. unfold add_one_req.
  destruct (match prefill_max_requests a with Some _ => _ | None => _ end);
    [do 3 eexists; split; [done|]; split; [done|by apply rejected]|].
  destruct (ignore_eos r && tc_disable cache) eqn:Ei.
  { apply andb_true_iff in Ei as [E1 E2]. apply ignore_eos_outcome; auto. }
  cbv zeta. match goal with |- context [if Qle_bool ?x ?y then _ else _] => destruct (Qle_bool x y) end;
    [do 3 eexists; split; [done|]; split; [done|by apply rejected]|].
  match goal with |- context [if ?x && ?y then _ else _] => destruct (x && y) end;
    [do 3 eexists; split; [done|]; split; [done|by apply rejected]|].
  match goal with |- context [admit_locked cache None ?t o r ?b] =>
    destruct (locked_outcome b t o r) as (x & r' & a' & -> & Hg1 & Ho) end; [by apply good_tree|done|].
  simpl. do 3 eexists. split; [done|]. split; [by apply good_tree|]. apply outcome_to.
  by eapply outcome_from; [..|exact Ho].
Qed.

(** Candidates offered to the adder in one round: requests that already hold
    resources, while a block of memory is left, and new requests. *)
Inductive offer : adder Sc TS -> adder Sc TS -> Prop :=
| offer_staging a a' o r r' x : ready r -> (inject_Z bs <= rem_total_tokens cache a)%Q ->
    add_dllm_staging_req cache o r a = Ok (x, r', a') -> offer a a'
| offer_incoming a a' o r r' x : ready r ->
    (ignore_eos r = true -> tc_disable cache = true -> prefix_indices r = []) ->
    add_one_req cache None o r a = Ok (x, r', a') -> offer a a'.

Lemma offers_good a a' : good a -> rtc offer a a' -> good a'.
Proof.
  intros Hg H. revert Hg. induction H as [x|x y z Hs _ IH]; intros Hg; [done|]. apply IH.
  destruct Hs as [a a' o r r' x0 Hr Ht E|a a' o r r' x0 Hr Hd E].
  - destruct (staging_outcome a o r Hg Hr Ht) as (? & ? & ? & E' & Hg' & _). congruence.
  - destruct (incoming_outcome a o r Hg Hr Hd) as (? & ? & ? & E' & Hg' & _). congruence.
Qed.

Lemma init_good kvs t run ratio ri rc mixed mr :
  good (init ps kvs t run ratio ri rc mixed mr (Some c)).
Proof.
  split; simpl; [done|done|by rewrite Z.sub_0_r|lia|]. intros o r Hin. by apply not_elem_of_nil in Hin.
Qed.

End Blocks.

(** C25. When the page size divides the block size, the adder hands out whole
    blocks: whatever candidates one round offers (staged requests as long as a
    block of memory is left), every request it takes is cut to exactly one block
    behind its committed prefix, it takes at most [max_running_requests] requests,
    and the dLLM token budget is what the remaining requests may still use.  Without a
    block of memory a staged request is taken all the same, and with more than a block
    ([staging_overrun]). *)
Theorem adder_whole_blocks {Sc TS : Type} (cache : PrefixCache Sc TS) (c : DllmConfig Sc) (ps : Z)
    (kvs : kv_sizes) (t : TS) (run : list (req Sc)) (ratio : Q) (rem_input : Z) (rem_chunk : option Z)
    (mixed : Z) (max_reqs : option nat) (a : adder Sc TS) :
  0 < ps -> 0 < bsize c -> (ps | bsize c) ->
  rtc (offer cache c) (init ps kvs t run ratio rem_input rem_chunk mixed max_reqs (Some c)) a ->
  (length (can_run_list a) <= max_running_requests c)%nat /\
  (forall o r, (o, r) ∈ can_run_list a ->
     extend_input_len r = bsize c /\
     Z.of_nat (length (fill_ids r)) = Z.of_nat (length (prefix_indices r)) + bsize c) /\
  rem_dllm_tokens (bud a)
  = (Z.of_nat (max_running_requests c) - Z.of_nat (length (can_run_list a))) * bsize c.
Proof.
  intros Hp Hb Hd Hr.
  destruct (offers_good cache c ps Hp Hb Hd _ _ (init_good c ps kvs t run ratio rem_input rem_chunk
    mixed max_reqs) Hr) as [_ _ ? ? ?]. done.
Qed.

(** ** A concrete round *)

(** [ChunkCache] for the adder: nothing to evict, locks do nothing. *)
Definition no_cache : PrefixCache Z unit :=
  {| tc_disable := true; tc_supports_mamba := false; evictable_size := fun _ => 0;
     full_evictable_size := fun _ => 0; swa_evictable_size := fun _ => 0;
     inc_lock_ref := fun _ t => t; dec_lock_ref := fun _ t => t;
     init_load_back := fun _ t => ([], None, t) |}.

Definition demo_cfg : DllmConfig Z :=
  {| algorithm := "JointThreshold"%string; cfg_algorithm_config := empty_algorithm_config;
     block_size := 4; mask_id := 7; max_running_requests := 2 |}.

Definition kv_of (n : Z) : kv_sizes :=
  {| is_hybrid_swa := false; available_size := n; full_available_size := 0; swa_available_size := 0 |}.

(** A staged request: [done] tokens committed, [todo] to run, masks included. *)
Definition staged (done todo : list Z) : req Z :=
  mkReq "r"%string [] [] (done ++ todo) done (Some STAGING_PREFILL) 0 (Some demo_cfg)
    (Z.of_nat (length todo)) 1 false None false None None 0 0 (Some 0%nat) 8 false [] [] None 100.

Definition fresh (avail : Z) : adder Z unit :=
  init 2 (kv_of avail) tt [] (1 # 2) 1000 None 0 None (Some demo_cfg).

Definition after_staging (r : req Z) (a : adder Z unit) : adder Z unit :=
  match add_dllm_staging_req no_cache 0 r a with Ok (_, _, a) => a | Raise _ => a end.

Lemma adder_whole_blocks_witness :
  length (can_run_list (after_staging (staged [1; 2; 3; 4] [5; 6; 7; 7; 7; 7]) (fresh 100))) = 1%nat /\
  rem_dllm_tokens (bud (after_staging (staged [1; 2; 3; 4] [5; 6; 7; 7; 7; 7]) (fresh 100))) = 4.
Proof.
  split; [reflexivity|].
  apply (adder_whole_blocks no_cache demo_cfg 2 (kv_of 100) tt [] (1 # 2) 1000 None 0 None
    (after_staging (staged [1; 2; 3; 4] [5; 6; 7; 7; 7; 7]) (fresh 100)));
    [lia|reflexivity|by exists 2|].
  eapply rtc_l; [|apply rtc_refl].
  eapply (offer_staging _ _ _ _ 0%nat (staged [1; 2; 3; 4] [5; 6; 7; 7; 7; 7])); [..|reflexivity].
  - by split.
  - vm_compute. discriminate.
Defined.

(** Without memory for a block the fallback of [_get_dllm_remain_tokens] is the
    whole dLLM budget: a staged request then runs past its next block, into the
    masks behind its prompt. *)
Example staging_overrun :
  (fun x => (snd x).(extend_input_len)) <$>
    can_run_list (after_staging (staged [1; 2; 3; 4] [5; 6; 8; 9; 7; 7; 7; 7]) (fresh 0)) = [8].
Proof. reflexivity. Qed.

End Adder.
