(* ===== verification/DllmScheduler.v ===== *)
(** Scheduling of diffusion requests: [DllmManager] and [SchedulerDllmMixin] of
    [srt/dllm/mixin/scheduler.py], [ChunkCache] of [srt/mem_cache/chunk_cache.py],
    and the parts of [Scheduler.get_next_batch_to_run], [stash_chunked_request],
    [ScheduleBatch.prepare_for_extend] and [ForwardBatch] that a diffusion round
    goes through.

    Requests are shared objects: the queues, the adder and the batch hold
    identities, and [heap] maps an identity to the request's fields.  The model
    has priority preemption off and no running (autoregressive) requests, as a
    server with a dLLM algorithm runs. *)
From stdpp Require Import base list gmap strings relations.
From Stdlib Require Import ZArith QArith Lia Lqa.
From S2P Require Import Prelude.
From S2P Require Import DllmReq.
From S2P Require Import Denoise.
From S2P Require Import PrefillAdder.
Local Open Scope py_scope.
Local Open Scope nat_scope.

Module Sched.
Import Config Req Adder.

Section Model.
Context {Sc : Type}.

(** [ChunkCache]: no prefix is ever found, locks do nothing. *)
Definition chunk_match_prefix (token_ids : list Z) : match_result :=
  {| mr_device_indices := []; mr_last_device_node := None; mr_host_hit_length := 0;
     mr_cache_protected_len := None |}.

Definition ChunkCache : PrefixCache Sc unit :=
  {| tc_disable := true; tc_supports_mamba := false; evictable_size := fun _ => 0%Z;
     full_evictable_size := fun _ => 0%Z; swa_evictable_size := fun _ => 0%Z;
     inc_lock_ref := fun _ t => t; dec_lock_ref := fun _ t => t;
     init_load_back := fun _ t => ([], None, t) |}.

(** [cache_unfinished_req]: [row] is the request's row of [req_to_token]. *)
Definition cache_unfinished_req (row : list Z) (r : req Sc) : req Sc :=
  set_prefix_indices (take (length (fill_ids r)) row) r.

(** What a round reads and does not change. *)
Record env : Type := mkEnv {
  e_cfg : DllmConfig Sc;
  e_page_size : Z;
  e_kv : kv_sizes;
  e_ratio : Q;
  e_max_prefill_tokens : Z;
  e_chunked_prefill_size : option Z;
  e_prefill_max_requests : option nat;
  e_allocatable : nat;
  e_priority : list nat -> list nat;
  e_row : nat -> list Z;
}.

(** The scheduler: its own waiting queue and the queues of [DllmManager]. *)
Record sched : Type := mkSched {
  heap : gmap nat (req Sc);
  waiting_queue : list nat;
  mgr_waiting : list nat;
  mgr_staging : list nat;
  batch_is_full : bool;
  last_batch : option (list nat);
}.

Variable E : env.
#[local] Abbreviation c := (e_cfg E).

(** A predicate of the request behind an identity. *)
Definition req_sat (f : req Sc -> bool) (h : gmap nat (req Sc)) (o : nat) : bool :=
  match h !! o with Some r => f r | None => false end.

(** ** [DllmManager] *)

Definition get_prefill_requests (s : sched) : list nat :=
  filter (fun o => req_sat is_dllm_prefill (heap s) o = true) (mgr_waiting s).

Definition get_decode_requests (s : sched) : list nat :=
  filter (fun o => req_sat is_dllm_prefill (heap s) o = false) (mgr_waiting s).

Definition rid_at (h : gmap nat (req Sc)) (o : nat) : option string := rid <$> h !! o.

Definition _has_duplicate_reqs (reqs : list nat) (s : sched) : bool :=
  existsb (fun o => existsb (fun o' => bool_decide (rid_at (heap s) o = rid_at (heap s) o'))
                            (mgr_waiting s)) reqs.

Definition add_waiting_reqs (reqs : list nat) (s : sched) : res sched :=
  if _has_duplicate_reqs reqs s then Raise RuntimeError
  else Ok (mkSched (heap s) (waiting_queue s) (mgr_waiting s ++ reqs) (mgr_staging s) (batch_is_full s)
         (last_batch s)).

Definition add_staging_reqs (reqs : list nat) (s : sched) : sched :=
  mkSched (heap s) (waiting_queue s) (mgr_waiting s) (mgr_staging s ++ reqs) (batch_is_full s)
    (last_batch s).

Definition any_staging_reqs (s : sched) : bool := negb (length (mgr_staging s) =? 0).

Definition is_empty (s : sched) : bool := length (mgr_waiting s) =? 0.

Definition with_heap (h : gmap nat (req Sc)) (s : sched) : sched :=
  mkSched h (waiting_queue s) (mgr_waiting s) (mgr_staging s) (batch_is_full s) (last_batch s).
Definition set_full (b : bool) (s : sched) : sched :=
  mkSched (heap s) (waiting_queue s) (mgr_waiting s) (mgr_staging s) b (last_batch s).
Definition set_last (b : option (list nat)) (s : sched) : sched :=
  mkSched (heap s) (waiting_queue s) (mgr_waiting s) (mgr_staging s) (batch_is_full s) b.

(** [_add_request_to_queue] of a request that passed validation. *)
Definition _add_request_to_queue (o : nat) (r : req Sc) (s : sched) : sched :=
  mkSched (<[o := r]> (heap s)) (waiting_queue s ++ [o]) (mgr_waiting s) (mgr_staging s)
    (batch_is_full s) (last_batch s).

(** [for req in queue: f(req)] on the shared requests. *)
Definition for_reqs (f : req Sc -> req Sc) (queue : list nat) (h : gmap nat (req Sc))
    : gmap nat (req Sc) := fold_left (fun h o => alter f o h) queue h.

Definition increment_chunked_count (s : sched) : sched :=
  with_heap (for_reqs (fun r => set_is_chunked (S (is_chunked r)) r) (mgr_staging s) (heap s)) s.

Definition filter_finished_reqs (s : sched) : sched :=
  let live := filter (fun o => req_sat finished (heap s) o = false) in
  mkSched (heap s) (waiting_queue s) (live (mgr_waiting s)) (live (mgr_staging s)) (batch_is_full s)
    (last_batch s).

(** [req.init_next_round_input(tree_cache)] on a shared request. *)
Definition init_req (match_prefix : option (list Z -> match_result)) (o : nat)
    (h : gmap nat (req Sc)) : res (gmap nat (req Sc)) :=
  match h !! o with
  | None => Raise KeyError
  | Some r => let! r := init_next_round_input match_prefix r in Ok (<[o := r]> h)
  end.

Fixpoint init_all (queue : list nat) (h : gmap nat (req Sc)) : res (gmap nat (req Sc)) :=
  match queue with
  | [] => Ok h
  | o :: queue => let! h := init_req None o h in init_all queue h
  end.

Definition init_next_round (s : sched) : res sched :=
  let! h := init_all (mgr_staging s) (heap s) in
  Ok (mkSched h (waiting_queue s) (mgr_waiting s) [] (batch_is_full s) (last_batch s)).

(** ** [SchedulerDllmMixin] *)

Definition _fetch_waiting_reqs (s : sched) : res sched :=
  let max_dllm_capacity := max_running_requests c - length (mgr_waiting s) in
  let n := Nat.min max_dllm_capacity (length (waiting_queue s)) in
  if 0 <? n
  then
    let! s := add_waiting_reqs (take n (waiting_queue s)) s in
    Ok (mkSched (heap s) (drop n (waiting_queue s)) (mgr_waiting s) (mgr_staging s) (batch_is_full s)
          (last_batch s))
  else Ok s.

(** [_should_skip_prefill], with the flag it may set. *)
Definition _should_skip_prefill (s : sched) : bool * sched :=
  if (batch_is_full s || (length (waiting_queue s) =? 0)) && is_empty s then (true, s)
  else if (e_allocatable E <=? 0) && is_empty s then (true, set_full true s)
  else (false, s).

Definition _create_dllm_prefill_adder : adder Sc unit :=
  Adder.init (e_page_size E) (e_kv E) tt [] (e_ratio E) (e_max_prefill_tokens E)
    (e_chunked_prefill_size E) 0 (e_prefill_max_requests E) (Some c).

#[local] Abbreviation heap_t := (gmap nat (req Sc)).
#[local] Abbreviation adder_t := (adder Sc unit).

Fixpoint process_dllm_staging_reqs (reqs : list nat) (h : heap_t) (a : adder_t)
    : res (AddReqResult * heap_t * adder_t) :=
  match reqs with
  | [] => Ok (CONTINUE, h, a)
  | o :: reqs =>
    match h !! o with
    | None => Raise KeyError
    | Some r =>
      let! '(x, r, a) := add_dllm_staging_req ChunkCache o r a in
      let h := <[o := r]> h in
      match x with
      | NO_TOKEN => Ok (NO_TOKEN, h, a)
      | _ => process_dllm_staging_reqs reqs h a
      end
    end
  end.

(** The second component of the state is [running_batch.batch_is_full]. *)
Fixpoint process_dllm_incoming_reqs (reqs : list nat) (h : heap_t) (full : bool) (a : adder_t)
    : res (heap_t * bool * adder_t) :=
  match reqs with
  | [] => Ok (h, full, a)
  | o :: reqs =>
    let full := full || (e_allocatable E <=? length (can_run_list a)) in
    if full then Ok (h, full, a)
    else
      let! h := init_req (Some chunk_match_prefix) o h in
      match h !! o with
      | None => Raise KeyError
      | Some r =>
        let! '(x, r, a) := add_one_req ChunkCache None o r a in
        let h := <[o := r]> h in
        match x with
        | CONTINUE => process_dllm_incoming_reqs reqs h full a
        | NO_TOKEN => Ok (h, true, a)
        | OTHER => Ok (h, full, a)
        end
      end
  end.

Definition phase_is (p : DllmReqPhase) (r : req Sc) : bool := bool_decide (dllm_phase r = Some p).

Definition _process_batch_by_phase (batch : list nat) (staging_phase incoming_phase : DllmReqPhase)
    (h : heap_t) (full : bool) (a : adder_t) : res (heap_t * bool * adder_t) :=
  let staging_reqs := filter (fun o => req_sat (phase_is staging_phase) h o = true) batch in
  let! '(x, h, a) := process_dllm_staging_reqs staging_reqs h a in
  match x with
  | CONTINUE =>
    let incoming_reqs := filter (fun o => req_sat (phase_is incoming_phase) h o = true) batch in
    process_dllm_incoming_reqs incoming_reqs h full a
  | _ => Ok (h, full, a)
  end.

Definition _process_dllm_batches (s : sched) (a : adder_t) : res (heap_t * bool * adder_t) :=
  match get_prefill_requests s with
  | [] => _process_batch_by_phase (get_decode_requests s) STAGING_DECODE INCOMING_DECODE
            (heap s) (batch_is_full s) a
  | reqs => _process_batch_by_phase reqs STAGING_PREFILL INCOMING_PREFILL
              (heap s) (batch_is_full s) a
  end.

(** [get_new_batch_dllm]: the requests of the new batch. *)
Definition get_new_batch_dllm (s : sched) : res (option (list nat) * sched) :=
  let '(skip, s) := _should_skip_prefill s in
  if skip then Ok (None, s)
  else
    let s := mkSched (heap s) (e_priority E (waiting_queue s)) (mgr_waiting s) (mgr_staging s)
               (batch_is_full s) (last_batch s) in
    let! s := init_next_round s in
    let! s := _fetch_waiting_reqs s in
    let! '(h, full, a) := _process_dllm_batches s _create_dllm_prefill_adder in
    let s := set_full full (with_heap h s) in
    let can_run := map fst (can_run_list a) in
    match can_run with
    | [] => Ok (None, s)
    | _ => Ok (Some can_run, increment_chunked_count (add_staging_reqs can_run s))
    end.

(** [stash_chunked_request] of a request whose cache is the [ChunkCache]. *)
Definition stash_chunked_request (r : req Sc) : req Sc :=
  cache_unfinished_req (e_row E (default 0 (req_pool_idx r))) r.

(** The diffusion path of [get_next_batch_to_run].  Every request of the last batch
    is excluded from the merge, so the batch is emptied and [running_batch] has room
    again. *)
Definition get_next_batch_to_run (s : sched) : res (option (list nat) * sched) :=
  let s := filter_finished_reqs s in
  let s := if any_staging_reqs s
           then with_heap (for_reqs stash_chunked_request (mgr_staging s) (heap s)) s else s in
  let s := match last_batch s with
           | None | Some [] => s
           | Some _ => set_last (Some []) (set_full false s)
           end in
  get_new_batch_dllm s.

(** ** The batch *)

Fixpoint get_reqs (batch : list nat) (h : heap_t) : res (list (req Sc)) :=
  match batch with
  | [] => Ok []
  | o :: batch =>
    match h !! o with
    | None => Raise KeyError
    | Some r => let! rs := get_reqs batch h in Ok (r :: rs)
    end
  end.

Definition input_ids_of (r : req Sc) : list Z := drop (length (prefix_indices r)) (fill_ids r).

(** [prepare_for_extend]: the input tokens of the batch, given the pool indices
    [alloc_for_extend] returns. *)
Definition prepare_for_extend (pool_indices : list nat) (batch : list nat) (h : heap_t)
    : res (list Z * heap_t) :=
  let! rs := get_reqs batch h in
  passert (forallb (fun r => (Z.of_nat (length (fill_ids r)) - Z.of_nat (length (prefix_indices r))
                              =? extend_input_len r)%Z) rs)
    (Ok (concat (map input_ids_of rs),
         fold_left (fun h io => alter (set_req_pool_idx (Some (fst io))) (snd io) h)
           (zip pool_indices batch) h)).

(** Positions of a diffusion batch: a block from each request's block offset. *)
Definition positions_of (rs : list (req Sc)) : list nat :=
  concat (map (fun r => seq (dllm_block_offset r) (block_size c)) rs).

(** What [process_batch_result_dllm] does to one request of the batch; [stop] is
    [check_finished] with its grammar and stop strings. *)
Definition accept_tokens (stop : nat -> req Sc -> req Sc) (next : list Z) (r : req Sc) : req Sc :=
  let n := length next in
  if n =? 0 then r
  else
    let r := set_fill_ids (py_set_last n next (fill_ids r)) r in
    let r := set_output_ids (output_ids r ++ next) r in
    let r := stop n r in
    if finished r then set_req_pool_idx None r else r.

Fixpoint accept_all (stop : nat -> req Sc -> req Sc) (batch : list nat) (next : list (list Z)) (h : heap_t)
    : res heap_t :=
  match batch, next with
  | [], _ => Ok h
  | o :: batch, n :: next => accept_all stop batch next (alter (accept_tokens stop n) o h)
  | _ :: _, [] => Raise IndexError
  end.

Definition process_batch_result_dllm (stop : nat -> req Sc -> req Sc) (batch : list nat)
    (next_token_ids : list (list Z)) (s : sched) : res sched :=
  match next_token_ids with
  | [] => Ok s
  | _ => let! h := accept_all stop batch next_token_ids (heap s) in Ok (with_heap h s)
  end.

(** One turn of [event_loop_normal]; [run] is the decoding algorithm on the model
    state [kv], and [pool] the rows [alloc_for_extend] gives to a batch. *)
Definition event_loop {ST : Type} (run : ST -> nat -> list Z -> res (decode_result ST Sc))
    (stop : nat -> req Sc -> req Sc) (pool : list nat -> list nat) (kv : ST) (s : sched)
    : res (ST * sched) :=
  let! '(b, s) := get_next_batch_to_run s in
  match b with
  | None => Ok (kv, set_last None s)
  | Some batch =>
    let! '(ids, h) := prepare_for_extend (pool batch) batch (heap s) in
    let! d := run kv (length batch) ids in
    let! s := process_batch_result_dllm stop batch (r_next d) (with_heap h s) in
    Ok (r_kv d, set_last (Some batch) s)
  end.

End Model.
Arguments env : clear implicits.
Arguments sched : clear implicits.

(** * The life of a request *)

Section Life.
Context {Sc : Type}.
Variable c : DllmConfig Sc.
#[local] Abbreviation bs := (block_size c).
#[local] Abbreviation mask := (mask_id c).
Hypothesis bs_pos : 0 < bs.
Implicit Types r : req Sc.

(** The tokens of a request so far, and what a round fills in. *)
Definition total r : list Z := origin_input_ids r ++ output_ids r.
Definition masked r : list Z := total r ++ replicate bs mask.

(** [k] blocks are committed; a request that has generated tokens ends at a block
    boundary. *)
Record wf (k : nat) r : Prop := {
  wf_cfg : dllm_config r = Some c;
  wf_mask : mask ∉ total r;
  wf_prefix : length (prefix_indices r) = k * bs;
  wf_le : k * bs <= length (total r);
  wf_out : output_ids r <> [] -> length (total r) = k * bs;
  wf_host : host_hit_length r = 0;
}.

Definition staging_phase k r : DllmReqPhase :=
  if S k * bs <=? length (total r) then STAGING_PREFILL else STAGING_DECODE.

(** A request that waits for its first round. *)
Record fresh r : Prop := {
  fr_wf : wf 0 r;
  fr_out : output_ids r = [];
  fr_fill : fill_ids r = [];
  fr_phase : dllm_phase r
    = Some (if length (origin_input_ids r) <? bs then INCOMING_DECODE else INCOMING_PREFILL);
}.

(** Between its rounds, before and after [init_next_round_input]. *)
Record between k r : Prop := {
  bt_wf : wf k r;
  bt_fill : fill_ids r <> [];
  bt_off : dllm_block_offset r + bs = k * bs;
}.

Record parked k r : Prop := {
  pk_wf : wf k r;
  pk_fill : fill_ids r = masked r;
  pk_ext : extend_input_len r = (Z.of_nat (length (fill_ids r)) - Z.of_nat (length (prefix_indices r)))%Z;
  pk_off : dllm_block_offset r = k * bs;
  pk_phase : dllm_phase r = Some (staging_phase k r);
}.

(** In the batch: one block behind the committed prefix. *)
Record cut k r : Prop := {
  ct_wf : wf k r;
  ct_fill : fill_ids r = take (S k * bs) (masked r);
  ct_ext : extend_input_len r = Z.of_nat bs;
  ct_off : dllm_block_offset r = k * bs;
  ct_phase : dllm_phase r = Some (staging_phase k r);
}.

(** After the batch: the block is part of the request's tokens. *)
Record ran k r : Prop := {
  rn_cfg : dllm_config r = Some c;
  rn_mask : mask ∉ total r;
  rn_prefix : length (prefix_indices r) = k * bs;
  rn_le : S k * bs <= length (total r);
  rn_out : output_ids r <> [] -> length (total r) = S k * bs;
  rn_host : host_hit_length r = 0;
  rn_fill : fill_ids r = take (S k * bs) (total r);
  rn_off : dllm_block_offset r = k * bs;
}.

(** Waiting in the manager, with no block in flight. *)
Definition idle (h : gmap nat (req Sc)) (o : nat) : Prop :=
  exists r, h !! o = Some r /\ (fresh r \/ exists k, parked k r).

(** What scheduling never changes of a request. *)
Definition same r r' : Prop :=
  rid r' = rid r /\ origin_input_ids r' = origin_input_ids r /\ output_ids r' = output_ids r /\
  finished_reason r' = finished_reason r /\ max_new_tokens r' = max_new_tokens r.

(** Tokens of a request whose keys and values are committed. *)
Definition level (h : gmap nat (req Sc)) (o : nat) : nat :=
  match h !! o with Some r => length (prefix_indices r) | None => 0 end.

Lemma level_insert h o r r' : h !! o = Some r -> length (prefix_indices r') = length (prefix_indices r) ->
  forall o', level (<[o := r']> h) o' = level h o'.
Proof.
  intros Ho Hp o'. unfold level. destruct (decide (o' = o)) as [->|Hne].
  - by rewrite lookup_insert_eq, Ho.
  - by rewrite lookup_insert_ne.
Qed.

Lemma same_total r r' : same r r' -> total r' = total r /\ masked r' = masked r.
Proof. intros (_ & E1 & E2 & _). unfold masked, total. by rewrite E1, E2. Qed.

Lemma length_masked r : length (masked r) = length (total r) + bs.
Proof. unfold masked. by rewrite length_app, length_replicate. Qed.

Lemma not_in_spec (m : Z) l : not_in m l = true <-> m ∉ l.
Proof.
  unfold not_in. rewrite forallb_forall. split.
  - intros Hf Hin. apply list_elem_of_In, Hf in Hin. by rewrite Z.eqb_refl in Hin.
  - intros Hn x Hx%list_elem_of_In. destruct (Z.eqb_spec x m); [congruence|done].
Qed.

(** The next block has no mask exactly when the request's tokens cover it. *)
Lemma next_block_mask k r :
  mask ∉ total r -> k * bs <= length (total r) ->
  not_in mask (py_slice (k * bs) (k * bs + bs) (masked r)) = (S k * bs <=? length (total r)).
Proof.
  intros Hm Hk. apply eq_true_iff_eq. rewrite not_in_spec, Nat.leb_le. unfold masked. split.
  - intros Hn. destruct (Nat.le_gt_cases (S k * bs) (length (total r))) as [|Hlt]; [done|].
    exfalso. apply Hn. apply list_elem_of_lookup. exists (length (total r) - k * bs).
    rewrite lookup_py_slice by lia. rewrite lookup_app_r by lia.
    apply lookup_replicate. split; [done|lia].
  - intros Hle Hin. apply Hm. unfold py_slice in Hin.
    rewrite drop_app_le, take_app_le in Hin by (rewrite ?length_drop; lia).
    apply elem_of_take in Hin as (i & Hi & _). rewrite lookup_drop in Hi.
    by eapply list_elem_of_lookup_2.
Qed.

Lemma phase_after k r :
  mask ∉ total r -> k * bs <= length (total r) -> fill_ids r = masked r ->
  length (prefix_indices r) = k * bs ->
  determine_dllm_phase c r = set_dllm_phase (Some (staging_phase k r)) r.
Proof.
  intros Hm Hk Hf Hp. unfold determine_dllm_phase, staging_phase. rewrite Hp, Hf, length_masked.
  destruct (Nat.ltb_spec (length (total r) + bs) (k * bs + bs)); [lia|].
  rewrite next_block_mask by done. by destruct (S k * bs <=? length (total r)).
Qed.

(** [init_next_round_input()] of a request between rounds. *)
Lemma init_between k r :
  between k r -> exists r', init_next_round_input None r = Ok r' /\ parked k r' /\ same r r'.
Proof.
  intros [[Hc Hm Hp Hle Ho Hh] Hf Hoff]. unfold init_next_round_input. rewrite Hc.
  set (r1 := _init_fill_ids_for_dllm c r).
  assert (E1 : dllm_block_offset r1 = k * bs).
  { unfold r1, _init_fill_ids_for_dllm. simpl. by destruct (fill_ids r). }
  assert (E2 : fill_ids r1 = masked r1) by (unfold masked, total; simpl; by rewrite app_assoc).
  rewrite (phase_after k r1) by done. simpl. eexists. split; [reflexivity|].
  split; [|by repeat split]. split; try done.
Qed.

(** [init_next_round_input(tree_cache)] of a fresh request. *)
Lemma init_fresh r :
  fresh r -> exists r', init_next_round_input (Some chunk_match_prefix) r = Ok r' /\ parked 0 r' /\
    same r r' /\ prefix_indices r' = [] /\
    dllm_phase r' = Some (if length (origin_input_ids r) <? bs then STAGING_DECODE else STAGING_PREFILL).
Proof.
  intros [[Hc Hm Hp Hle Ho Hh] Hout Hf Hph]. unfold init_next_round_input. rewrite Hc.
  set (r1 := _init_fill_ids_for_dllm c r).
  assert (E1 : dllm_block_offset r1 = 0) by (unfold r1, _init_fill_ids_for_dllm; simpl; by rewrite Hf).
  assert (E2 : fill_ids r1 = masked r1) by (unfold masked, total; simpl; by rewrite app_assoc).
  rewrite (phase_after 0 r1) by (done || lia). simpl.
  unfold _update_block_offset_for_dllm. simpl. rewrite Hc. simpl. rewrite Nat.Div0.mod_0_l. simpl.
  eexists. split; [reflexivity|].
  assert (Et : length (total r1) = length (origin_input_ids r))
    by (unfold total; simpl; by rewrite Hout, app_nil_r).
  split; [|split; [by repeat split|split; [done|]]].
  - split; try done.
  - simpl. unfold staging_phase. rewrite Et.
    destruct (Nat.ltb_spec (length (origin_input_ids r)) bs), (Nat.leb_spec (1 * bs) (length (origin_input_ids r)));
      (done || lia).
Qed.

End Life.

(** * One round of the scheduler *)

Section Rounds.
Context {Sc : Type}.
Variable E : env Sc.
#[local] Abbreviation c := (e_cfg E).
#[local] Abbreviation bs := (block_size c).
#[local] Abbreviation ps := (e_page_size E).
#[local] Abbreviation adder_t := (adder Sc unit).
Implicit Types (r : req Sc) (h : gmap nat (req Sc)) (a : adder_t).

(** Tokens one request may charge to the memory budget in a round. *)
Definition charge : Z := (Z.of_nat bs + CLIP_MAX_NEW_TOKENS + ps)%Z.

(** The configuration of the round: pages divide blocks, and the memory left is
    enough for a block of every running request. *)
Record env_ok : Prop := {
  eo_bs : 0 < bs;
  eo_ps : (0 < ps)%Z;
  eo_div : (ps | bsize c)%Z;
  eo_mem : (bsize c + Z.of_nat (max_running_requests c) * charge
            <= available_and_evictable ChunkCache (_create_dllm_prefill_adder E))%Z;
  eo_prio : forall l, e_priority E l ≡ₚ l;
}.

Hypothesis ok : env_ok.

Lemma bsize_pos : (0 < bsize c)%Z.
Proof. pose proof (eo_bs ok). unfold bsize. lia. Qed.

(** Memory for the requests that may still be taken. *)
Definition room a : Prop :=
  (inject_Z (bsize c + (Z.of_nat (max_running_requests c) - Z.of_nat (length (can_run_list a))) * charge)
   <= rem_total_tokens ChunkCache a)%Q.

Lemma room_block a : good c ps a -> room a -> (inject_Z (bsize c) <= rem_total_tokens ChunkCache a)%Q.
Proof.
  intros Hg Hr. eapply Qle_trans; [|exact Hr]. rewrite <- Zle_Qle.
  pose proof (gd_count c ps a Hg). pose proof (eo_ps ok). unfold charge, CLIP_MAX_NEW_TOKENS. nia.
Qed.

Lemma avail_kv a a' : kv a' = kv a ->
  available_and_evictable (Sc := Sc) ChunkCache a' = available_and_evictable ChunkCache a.
Proof. unfold available_and_evictable. by intros ->. Qed.

Lemma room_outcome a o r r' a' : room a -> outcome c ps o r a r' a' -> room a'.
Proof.
  intros Hr [a'' H1 H2 H3|a'' new H1 H2 H3 H4]; unfold room, rem_total_tokens in *.
  - by rewrite (avail_kv _ _ H3), H1, H2.
  - rewrite (avail_kv _ _ H4), H2, H3, length_app. cbn [length].
    assert (Hc : (inject_Z (bsize c + new + ps) <= inject_Z charge)%Q).
    { rewrite <- Zle_Qle. unfold charge, bsize. lia. }
    replace (bsize c + (Z.of_nat (max_running_requests c) - Z.of_nat (length (can_run_list a) + 1)) * charge)%Z
      with (bsize c + (Z.of_nat (max_running_requests c) - Z.of_nat (length (can_run_list a))) * charge - charge)%Z
      by lia.
    unfold Zminus at 1. rewrite inject_Z_plus, inject_Z_opp. lra.
Qed.

Lemma parked_ready k r : parked c k r -> ready c r.
Proof.
  intros [[Hc Hm Hp Hle Ho Hh] Hf He _ _]. split; [done| |done].
  rewrite Hf, (length_masked c), Hp. unfold bsize. lia.
Qed.

Lemma block_cut k r : parked c k r -> cut c k (block_of c r) /\ same r (block_of c r).
Proof.
  intros [[Hc Hm Hp Hle Ho Hh] Hf He Hof Hph]. split; [|done]. split; try done.
  simpl. rewrite Hp, Hf. unfold py_upto, bsize, masked, total. simpl.
  destruct (Z.ltb_spec (Z.of_nat (k * bs) + Z.of_nat bs) 0); [lia|]. f_equal. lia.
Qed.

(** ** The loops over candidates *)

Variable W : list nat.
Variable h0 : gmap nat (req Sc).
Variable P : DllmReqPhase.

#[local] Abbreviation idle := (idle c).
#[local] Abbreviation ids a := (map fst (can_run_list a)).

(** While candidates are offered: requests in the batch are cut to a block, the
    others are idle, and nothing but scheduling fields has changed. *)
Record looping h a : Prop := {
  lp_good : good c ps a;
  lp_room : room a;
  lp_run : forall o r, (o, r) ∈ can_run_list a ->
    h !! o = Some r /\ dllm_phase r = Some P /\ exists k, cut c k r;
  lp_nodup : NoDup (ids a);
  lp_sub : forall o, o ∈ ids a -> o ∈ W;
  lp_idle : forall o, o ∈ W -> o ∉ ids a -> idle h o;
  lp_same : forall o r0, h0 !! o = Some r0 -> exists r, h !! o = Some r /\ same r0 r;
  lp_out : forall o, o ∉ W -> h !! o = h0 !! o;
  lp_level : forall o, level h o = level h0 o;
  lp_park : forall o r k, h0 !! o = Some r -> parked c k r -> o ∉ ids a -> h !! o = Some r;
}.

(** Offering an idle request that is ready to run. *)
Lemma looping_offer h a o r k r' a' :
  looping h a -> o ∈ W -> o ∉ ids a -> h !! o = Some r -> parked c k r -> dllm_phase r = Some P ->
  good c ps a' -> outcome c ps o r a r' a' -> looping (<[o := r']> h) a'.
Proof.
  intros [Hg Hr Hrun Hnd Hsub Hidle Hsame Hout Hlev Hpark] Hw Hno Ho Hp HP Hg' Hoc.
  pose proof (room_outcome _ _ _ _ _ Hr Hoc) as Hroom.
  assert (Hs : forall x, same r x -> forall o' r0, h0 !! o' = Some r0 ->
    exists y, <[o := x]> h !! o' = Some y /\ same r0 y).
  { intros x Hx o' r0 H0. destruct (Hsame o' r0 H0) as (y & Hy & Hsy).
    destruct (decide (o' = o)) as [->|Hne].
    - rewrite lookup_insert_eq. eexists. split; [done|]. rewrite Ho in Hy. injection Hy as <-.
      unfold same in *. intuition congruence.
    - rewrite lookup_insert_ne by done. eauto. }
  destruct Hoc as [a' H1 H2 H3|a' new H1 H2 H3 H4].
  - rewrite (insert_id h o r Ho). split; rewrite ?H1; try done.
  - destruct (block_cut k r Hp) as [Hcut Hsm]. split; rewrite ?H2, ?map_app; simpl.
    + done.
    + done.
    + intros o' x [Hin|Hin]%elem_of_app.
      * destruct (decide (o' = o)) as [->|Hne]; [|rewrite lookup_insert_ne by done; by apply Hrun].
        exfalso. apply Hno. apply list_elem_of_fmap. by exists (o, x).
      * apply list_elem_of_singleton in Hin. injection Hin as -> ->. rewrite lookup_insert_eq.
        split; [done|]. split; [done|by exists k].
    + apply NoDup_app. split; [done|]. split; [|apply NoDup_singleton].
      intros x Hx Hin. apply list_elem_of_singleton in Hin as ->. done.
    + intros o' [Hin|Hin]%elem_of_app; [by apply Hsub|]. by apply list_elem_of_singleton in Hin as ->.
    + intros o' Hw' Hno'. rewrite elem_of_app, list_elem_of_singleton in Hno'.
      destruct (Hidle o' Hw' ltac:(tauto)) as (x & Hx & Hst). exists x.
      rewrite lookup_insert_ne by (intros <-; tauto). done.
    + apply Hs. done.
    + intros o' Hw'. rewrite lookup_insert_ne by (intros <-; done). by apply Hout.
    + intros o'. by rewrite (level_insert h o r).
    + intros o' x k' Hx Hk' Hno'. rewrite elem_of_app, list_elem_of_singleton in Hno'.
      rewrite lookup_insert_ne by (intros <-; tauto). apply (Hpark o' x k'); tauto.
Qed.

Lemma outcome_ids o r a r' a' : outcome c ps o r a r' a' -> forall o', o' ∈ ids a' -> o' ∈ ids a \/ o' = o.
Proof.
  intros [a'' H1 _ _|a'' new _ H2 _ _] o' Hin; [left; by rewrite <- H1|].
  rewrite H2, map_app in Hin. apply elem_of_app in Hin as [?|Hin]; [by left|right].
  by apply list_elem_of_singleton in Hin.
Qed.

Lemma outcome_mono o r a r' a' : outcome c ps o r a r' a' -> forall o', o' ∈ ids a -> o' ∈ ids a'.
Proof.
  intros [a'' H1 _ _|a'' new _ H2 _ _] o' Hin; [by rewrite H1|].
  rewrite H2, map_app. apply elem_of_app. by left.
Qed.

(** Every staged request of the phase is taken. *)
Lemma staging_loop l h a :
  looping h a -> NoDup l -> length (can_run_list a) + length l <= max_running_requests c ->
  (forall o, o ∈ l -> o ∈ W /\ o ∉ ids a /\
     exists k r, h !! o = Some r /\ parked c k r /\ dllm_phase r = Some P) ->
  exists x h' a', process_dllm_staging_reqs l h a = Ok (x, h', a') /\ looping h' a' /\
    ids a' = ids a ++ l.
Proof.
  intros Hl Hnd. revert h a Hl. induction Hnd as [|o l Hol Hnd IH]; intros h a Hl Hn Hc; simpl.
  { exists CONTINUE, h, a. by rewrite app_nil_r. }
  simpl in Hn. destruct (Hc o ltac:(left)) as (Hw & Hno & k & r & Ho & Hp & HP). rewrite Ho.
  destruct (staging_takes ChunkCache c ps (eo_ps ok) bsize_pos (eo_div ok) a o r) as
    (a' & E1 & Hg' & Hoc & El);
    [apply Hl|by eapply parked_ready|by apply room_block; apply Hl|lia|]. rewrite E1. simpl.
  pose proof (looping_offer _ _ _ _ _ _ _ Hl Hw Hno Ho Hp HP Hg' Hoc) as Hl'.
  assert (Ei : ids a' = ids a ++ [o]) by (rewrite El, map_app; done).
  assert (En : length (can_run_list a') = S (length (can_run_list a)))
    by (rewrite El, length_app; simpl; lia).
  rewrite (remain_block ChunkCache c ps bsize_pos a' Hg' (room_block a' Hg' (lp_room _ _ Hl'))).
  destruct l as [|o2 l].
  { exists (if (length (can_run_list a') <? max_running_requests c) then CONTINUE else NO_TOKEN), (<[o := block_of c r]> h), a'.
    split; [|done]. pose proof bsize_pos. simpl.
    destruct (_ <? _); [destruct (Z.leb_spec (bsize c) 0); [lia|done]|done]. }
  simpl in Hn. destruct (Nat.ltb_spec (length (can_run_list a')) (max_running_requests c)); [|lia].
  pose proof bsize_pos. destruct (Z.leb_spec (bsize c) 0); [lia|].
  destruct (IH (<[o := block_of c r]> h) a' Hl') as (x' & h' & a'' & E' & Hl'' & Hi); [simpl; lia| |].
  { intros o' Hin. destruct (Hc o' ltac:(by right)) as (Hw' & Hno' & k' & r1 & Ho' & Hp' & HP').
    assert (o' <> o) by (by intros ->). split; [done|].
    split; [rewrite Ei, elem_of_app, list_elem_of_singleton; tauto|].
    exists k', r1. by rewrite lookup_insert_ne. }
  exists x', h', a''. split; [done|]. split; [done|]. by rewrite Hi, Ei, <- app_assoc.
Qed.

(** A new request is initialised before it is offered. *)
Lemma looping_init h a o r r' :
  looping h a -> o ∉ ids a -> h !! o = Some r -> o ∈ W -> fresh c r -> parked c 0 r' -> same r r' ->
  looping (<[o := r']> h) a.
Proof.
  intros [Hg Hr Hrun Hnd Hsub Hidle Hsame Hout Hlev Hpark] Hno Ho Hw Hfr Hp Hs. split; try done.
  - intros o' x Hin. rewrite lookup_insert_ne; [by apply Hrun|].
    intros ->. apply Hno, list_elem_of_fmap. by exists (o', x).
  - intros o' Hw' Hno'. destruct (decide (o' = o)) as [->|Hne].
    + exists r'. rewrite lookup_insert_eq. eauto.
    + destruct (Hidle o' Hw' Hno') as (x & Hx & Hst). exists x. by rewrite lookup_insert_ne.
  - intros o' r0 H0. destruct (Hsame o' r0 H0) as (y & Hy & Hsy).
    destruct (decide (o' = o)) as [->|Hne].
    + exists r'. rewrite lookup_insert_eq. split; [done|]. rewrite Ho in Hy. injection Hy as <-.
      unfold same in *. intuition congruence.
    + exists y. by rewrite lookup_insert_ne.
  - intros o' Hw'. rewrite lookup_insert_ne by (intros <-; done). by apply Hout.
  - intros o'. rewrite (level_insert h o r); [done..|].
    by rewrite (wf_prefix _ _ _ (fr_wf _ _ Hfr)), (wf_prefix _ _ _ (pk_wf _ _ _ Hp)).
  - intros o' x k' Hx Hk' Hno'. destruct (decide (o' = o)) as [->|Hne].
    + exfalso. rewrite (Hpark o x k') in Ho by done. injection Ho as ->.
      pose proof (fr_phase _ _ Hfr) as E1. rewrite (pk_phase _ _ _ Hk') in E1. injection E1 as E1.
      unfold staging_phase in E1. by destruct (_ <=? _), (_ <? _).
    + rewrite lookup_insert_ne by done. by apply (Hpark o' x k').
Qed.

Definition incoming_phase : DllmReqPhase :=
  match P with STAGING_PREFILL => INCOMING_PREFILL | _ => INCOMING_DECODE end.

Hypothesis P_staging : P = STAGING_PREFILL \/ P = STAGING_DECODE.

Lemma incoming_loop l h full a :
  looping h a -> NoDup l ->
  (forall o, o ∈ l -> o ∈ W /\ o ∉ ids a /\
     exists r, h !! o = Some r /\ fresh c r /\ dllm_phase r = Some incoming_phase) ->
  exists h' full' a', process_dllm_incoming_reqs E l h full a = Ok (h', full', a') /\ looping h' a' /\
    forall o, o ∈ ids a -> o ∈ ids a'.
Proof.
  intros Hl Hnd. revert h full a Hl. induction Hnd as [|o l Hol Hnd IH]; intros h full a Hl Hc; simpl.
  { by exists h, full, a. }
  destruct (full || _) eqn:Ef; [exists h, true, a; done|].
  destruct (Hc o ltac:(left)) as (Hw & Hno & r & Ho & Hf & HP). unfold init_req. rewrite Ho.
  destruct (init_fresh c (eo_bs ok) r Hf) as (r1 & -> & Hp & Hs & Hpre & Hph). simpl.
  rewrite lookup_insert_eq.
  assert (HP1 : dllm_phase r1 = Some P).
  { rewrite Hph. rewrite (fr_phase _ _ Hf) in HP. unfold incoming_phase in HP.
    destruct P_staging as [E0|E0]; rewrite E0 in *; by destruct (_ <? _). }
  pose proof (looping_init _ _ _ _ _ Hl Hno Ho Hw Hf Hp Hs) as Hl1.
  destruct (incoming_outcome ChunkCache c ps (eo_ps ok) bsize_pos (eo_div ok) a o r1) as
    (x & r' & a' & -> & Hg' & Hoc); [apply Hl|by eapply parked_ready|by intros|].
  simpl. pose proof (looping_offer _ _ _ _ _ _ _ Hl1 Hw Hno (lookup_insert_eq _ _ _) Hp HP1 Hg' Hoc) as Hl'.
  destruct x; [|do 3 eexists; split; [done|]; split; [done|by eapply outcome_mono]..].
  destruct (IH (<[o := r']> (<[o := r1]> h)) false a' Hl') as (h' & full' & a'' & E' & Hl'' & Hm).
  - intros o' Hin. destruct (Hc o' ltac:(by right)) as (Hw' & Hno' & r2 & Ho' & Hf' & HP').
    assert (o' <> o) by (by intros ->).
    split; [done|]. split; [intros [?|?]%(outcome_ids _ _ _ _ _ Hoc); done|].
    exists r2. by rewrite !lookup_insert_ne.
  - exists h', full', a''. split; [done|]. split; [done|]. intros o' Hin. apply Hm.
    by eapply outcome_mono.
Qed.

Lemma looping_start :
  (forall o, o ∈ W -> idle h0 o) -> looping h0 (_create_dllm_prefill_adder E).
Proof.
  intros Hidle. split; try done.
  - apply init_good.
  - unfold room. simpl. unfold rem_total_tokens. simpl. rewrite Z.sub_0_r.
    pose proof (eo_mem ok) as Hm. rewrite Zle_Qle in Hm.
    change (inject_Z 0) with 0%Q. lra.
  - intros o r Hin. by apply not_elem_of_nil in Hin.
  - apply NoDup_nil_2.
  - intros o Hin. by apply not_elem_of_nil in Hin.
  - intros o Hw _. by apply Hidle.
  - intros o r0 H0. exists r0. split; [done|]. by repeat split.
Qed.

Lemma idle_phase h o :
  idle h o -> req_sat (phase_is P) h o = true ->
  exists k r, h !! o = Some r /\ parked c k r /\ dllm_phase r = Some P.
Proof.
  intros (r & Ho & Hst) Hph. unfold req_sat, phase_is in Hph. rewrite Ho in Hph.
  apply bool_decide_eq_true in Hph. destruct Hst as [Hf|[k Hk]]; [|by exists k, r].
  exfalso. rewrite (fr_phase _ _ Hf) in Hph. injection Hph as Hph.
  destruct P_staging as [E0|E0]; rewrite E0 in Hph; by destruct (_ <? _).
Qed.

(** One phase: every staged request of it runs, new ones as the budget allows. *)
Lemma by_phase batch full :
  NoDup batch -> length batch <= max_running_requests c -> (forall o, o ∈ batch -> o ∈ W) ->
  (forall o, o ∈ W -> idle h0 o) ->
  exists h' full' a', _process_batch_by_phase E batch P incoming_phase h0 full (_create_dllm_prefill_adder E)
      = Ok (h', full', a') /\ looping h' a' /\
    forall o, o ∈ batch -> req_sat (phase_is P) h0 o = true -> o ∈ ids a'.
Proof.
  intros Hnd Hlen Hsub Hidle. unfold _process_batch_by_phase.
  set (l := filter (fun o => req_sat (phase_is P) h0 o = true) batch).
  assert (Hl0 : looping h0 (_create_dllm_prefill_adder E)) by (by apply looping_start).
  destruct (staging_loop l h0 (_create_dllm_prefill_adder E) Hl0) as (x & h' & a' & -> & Hl & Hids).
  { by apply NoDup_filter. }
  { transitivity (length batch); [apply length_filter|done]. }
  { intros o [Hph Hin]%list_elem_of_filter. split; [auto|]. split; [apply not_elem_of_nil|].
    apply (idle_phase h0 o); [auto|done]. }
  simpl in Hids. simpl.
  assert (Hall : forall o, o ∈ batch -> req_sat (phase_is P) h0 o = true -> o ∈ ids a')
    by (intros o Hin Hph; rewrite Hids; by apply list_elem_of_filter).
  destruct x; [|by exists h', full, a'..].
  destruct (incoming_loop (filter (fun o => req_sat (phase_is incoming_phase) h' o = true) batch) h' full a' Hl)
    as (h'' & full' & a'' & E' & Hl' & Hm).
  { by apply NoDup_filter. }
  { intros o [Hph Hin]%list_elem_of_filter. unfold req_sat, phase_is in Hph.
    destruct (h' !! o) as [r|] eqn:Ho; [|done]. apply bool_decide_eq_true in Hph.
    assert (Hno : o ∉ ids a').
    { intros ((o' & r') & -> & Hin')%list_elem_of_fmap. apply (lp_run _ _ Hl) in Hin' as (Hr & HP & _).
      simpl in Ho. rewrite Ho in Hr. injection Hr as ->. rewrite Hph in HP. injection HP as HP.
      unfold incoming_phase in HP. destruct P_staging as [E0|E0]; rewrite E0 in HP; done. }
    split; [auto|]. split; [done|]. exists r. split; [done|]. split; [|done].
    destruct (lp_idle _ _ Hl o (Hsub _ Hin) Hno) as (r2 & Hr2 & [Hf|[k Hk]]); [congruence|].
    exfalso. rewrite Ho in Hr2. injection Hr2 as <-. rewrite (pk_phase _ _ _ Hk) in Hph.
    injection Hph as Hph. unfold staging_phase, incoming_phase in Hph.
    destruct P_staging as [E0|E0]; rewrite E0 in Hph; by destruct (_ <=? _). }
  exists h'', full', a''. split; [done|]. split; [done|]. auto.
Qed.

End Rounds.

(** * A turn of the event loop *)

Section Turn.
Context {Sc : Type}.
Implicit Types (r : req Sc) (h : gmap nat (req Sc)) (s : sched Sc).

(** Scheduling fields may change, nothing else. *)
Definition keeps h h' : Prop :=
  forall o r, h !! o = Some r -> exists r', h' !! o = Some r' /\ same r r'.

Lemma keep_refl h : keeps h h.
Proof. intros o r Ho. exists r. split; [done|]. by repeat split. Qed.

Lemma keep_trans h1 h2 h3 : keeps h1 h2 -> keeps h2 h3 -> keeps h1 h3.
Proof.
  intros H1 H2 o r Ho. apply H1 in Ho as (r2 & Ho & Hs). apply H2 in Ho as (r3 & Ho & Hs').
  exists r3. split; [done|]. unfold same in *. intuition congruence.
Qed.

Definition all_in h (l : list nat) : Prop := forall o, o ∈ l -> is_Some (h !! o).

Lemma keeps_rids h h' l : keeps h h' -> all_in h l -> map (rid_at h') l = map (rid_at h) l.
Proof.
  intros Hk Hl. apply map_ext_in. intros o Ho%list_elem_of_In. apply Hl in Ho as [r Ho].
  unfold rid_at. rewrite Ho. apply Hk in Ho as (r' & -> & Hs). simpl. f_equal. apply Hs.
Qed.

Lemma keeps_in h h' l : keeps h h' -> all_in h l -> all_in h' l.
Proof. intros Hk Hl o Ho. apply Hl in Ho as [r Ho]. apply Hk in Ho as (r' & -> & _). by eexists. Qed.

(** A loop over distinct requests updates each of them once. *)
Lemma for_reqs_lookup f l h o : NoDup l ->
  for_reqs f l h !! o = if decide (o ∈ l) then f <$> h !! o else h !! o.
Proof.
  intros Hnd. revert h. induction Hnd as [|x l Hx Hnd IH]; intros h; [done|].
  unfold for_reqs in *. simpl. rewrite IH. destruct (decide (o = x)) as [->|Hne].
  - rewrite decide_False by done. rewrite decide_True by left. by rewrite lookup_alter_eq.
  - rewrite lookup_alter_ne by done.
    destruct (decide (o ∈ l)); [rewrite decide_True by (by right)|rewrite decide_False]; try done.
    by intros [?|?]%elem_of_cons.
Qed.

Lemma for_reqs_keeps f l h : NoDup l -> (forall r, same r (f r)) -> keeps h (for_reqs f l h).
Proof.
  intros Hnd Hf o r Ho. rewrite for_reqs_lookup by done. rewrite Ho.
  destruct (decide _); simpl; eexists; (split; [done|]); [apply Hf|by repeat split].
Qed.

Variable c : DllmConfig Sc.
#[local] Abbreviation bs := (block_size c).

(** The state between two turns: identities and request ids are distinct, the
    manager holds at most [max_running_requests] requests, those of the last batch
    are finished or have a block behind them, and the others are idle. *)
Record loop_inv s : Prop := {
  li_rids : NoDup (map (rid_at (heap s)) (mgr_waiting s ++ waiting_queue s));
  li_cap : length (mgr_waiting s) <= max_running_requests c;
  li_nodup : NoDup (mgr_staging s);
  li_sub : forall o, o ∈ mgr_staging s -> o ∈ mgr_waiting s;
  li_staged : forall o, o ∈ mgr_staging s ->
    exists r, heap s !! o = Some r /\ (finished r = true \/ exists k, ran c k r);
  li_idle : forall o, o ∈ mgr_waiting s -> o ∉ mgr_staging s -> idle c (heap s) o;
  li_new : forall o, o ∈ waiting_queue s -> exists r, heap s !! o = Some r /\ fresh c r;
}.

Lemma inv_in s : loop_inv s -> all_in (heap s) (mgr_waiting s ++ waiting_queue s).
Proof.
  intros Hi o [Ho|Ho]%elem_of_app; [|destruct (li_new _ Hi o Ho) as (r & -> & _); by eexists].
  destruct (decide (o ∈ mgr_staging s)) as [Hs|Hs]; [destruct (li_staged _ Hi o Hs) as (r & -> & _)|
    destruct (li_idle _ Hi o Ho Hs) as (r & -> & _)]; by eexists.
Qed.

(** A batch of one phase has been chosen. *)
Record planned (P : DllmReqPhase) (batch : list nat) s : Prop := {
  pl_rids : NoDup (map (rid_at (heap s)) (mgr_waiting s ++ waiting_queue s));
  pl_cap : length (mgr_waiting s) <= max_running_requests c;
  pl_staging : mgr_staging s = batch;
  pl_nodup : NoDup batch;
  pl_sub : forall o, o ∈ batch -> o ∈ mgr_waiting s;
  pl_cut : forall o, o ∈ batch -> exists r k, heap s !! o = Some r /\ cut c k r /\ dllm_phase r = Some P;
  pl_idle : forall o, o ∈ mgr_waiting s -> o ∉ batch -> idle c (heap s) o;
  pl_new : forall o, o ∈ waiting_queue s -> exists r, heap s !! o = Some r /\ fresh c r;
}.

(** Before the batch is chosen every request of the manager is idle. *)
Record settled s : Prop := {
  st_rids : NoDup (map (rid_at (heap s)) (mgr_waiting s ++ waiting_queue s));
  st_cap : length (mgr_waiting s) <= max_running_requests c;
  st_idle : forall o, o ∈ mgr_waiting s -> idle c (heap s) o;
  st_new : forall o, o ∈ waiting_queue s -> exists r, heap s !! o = Some r /\ fresh c r;
}.

(** Tokens of a request that are behind it, between two turns. *)
Definition progress s (o : nat) : nat :=
  level (heap s) o + (if decide (o ∈ mgr_staging s) then bs else 0).

(** Every request of the manager has been admitted. *)
Definition admitted s : Prop :=
  forall o, o ∈ mgr_waiting s -> o ∈ mgr_staging s \/ exists r k, heap s !! o = Some r /\ parked c k r.

Hypothesis bs_pos : 0 < bs.

Lemma rids_nodup h l : NoDup (map (rid_at h) l) -> NoDup l.
Proof. apply NoDup_fmap_1. Qed.

Lemma between_unique k k' r : between c k r -> between c k' r -> k = k'.
Proof. intros [_ _ H] [_ _ H']. nia. Qed.

Lemma init_all_ok l h :
  NoDup l -> (forall o, o ∈ l -> exists r k, h !! o = Some r /\ between c k r) ->
  exists h', init_all l h = Ok h' /\ keeps h h' /\ (forall o, o ∉ l -> h' !! o = h !! o) /\
    forall o r k, o ∈ l -> h !! o = Some r -> between c k r -> exists r', h' !! o = Some r' /\ parked c k r'.
Proof.
  intros Hnd. revert h. induction Hnd as [|x l Hx Hnd IH]; intros h Hb; simpl.
  { exists h. split; [done|]. split; [apply keep_refl|]. split; [done|].
    intros o r k Ho. by apply not_elem_of_nil in Ho. }
  destruct (Hb x ltac:(left)) as (r & k & Hr & Hk). unfold init_req. rewrite Hr.
  destruct (init_between c bs_pos k r Hk) as (r' & -> & Hp & Hs). simpl.
  destruct (IH (<[x := r']> h)) as (h' & -> & Hkp & Hout & Hin).
  { intros o Ho. rewrite lookup_insert_ne by (by intros ->). apply Hb. by right. }
  assert (Hh' : keeps h (<[x := r']> h)).
  { intros o r0 Ho. destruct (decide (o = x)) as [->|Hne].
    - rewrite lookup_insert_eq. eexists. split; [done|]. by rewrite Hr in Ho; injection Ho as <-.
    - rewrite lookup_insert_ne by done. by apply keep_refl. }
  exists h'. split; [done|]. split; [by eapply keep_trans|]. split.
  - intros o [Hne Ho]%not_elem_of_cons. rewrite Hout by done. by rewrite lookup_insert_ne.
  - intros o r0 k0 [->|Ho]%elem_of_cons Hr0 Hk0.
    + exists r'. rewrite Hout by done. rewrite lookup_insert_eq. split; [done|].
      rewrite Hr in Hr0. injection Hr0 as <-. by rewrite <- (between_unique k k0 r).
    + apply (Hin o r0 k0); [done| |done]. rewrite lookup_insert_ne; [done|]. by intros ->.
Qed.

Lemma no_duplicates reqs s :
  NoDup (map (rid_at (heap s)) (mgr_waiting s ++ reqs)) -> _has_duplicate_reqs reqs s = false.
Proof.
  rewrite map_app. intros (_ & Hd & _)%NoDup_app. unfold _has_duplicate_reqs.
  apply not_true_iff_false. intros (o & Ho & Hx)%existsb_exists.
  apply existsb_exists in Hx as (o' & Ho' & E%bool_decide_eq_true).
  apply (Hd (rid_at (heap s) o)); apply list_elem_of_fmap.
  - exists o'. split; [done|]. by apply list_elem_of_In.
  - exists o. split; [done|]. by apply list_elem_of_In.
Qed.

(** Requests are fetched up to the capacity of the manager. *)
Lemma fetch_ok (E : env Sc) s :
  e_cfg E = c -> settled s ->
  exists s', _fetch_waiting_reqs E s = Ok s' /\ settled s' /\ heap s' = heap s /\
    mgr_staging s' = mgr_staging s /\
    mgr_waiting s' ++ waiting_queue s' = mgr_waiting s ++ waiting_queue s /\
    (length (mgr_waiting s') = max_running_requests c \/ waiting_queue s' = []) /\
    (waiting_queue s = [] -> mgr_waiting s' = mgr_waiting s /\ waiting_queue s' = []).
Proof.
  intros Ec [Hr Hcap Hid Hnew]. unfold _fetch_waiting_reqs. rewrite Ec.
  set (n := Nat.min _ _). destruct (Nat.ltb_spec 0 n) as [Hn|Hn].
  2: { exists s. split; [done|]. split; [done|]. split; [done|]. split; [done|]. split; [done|].
       split; [|done]. unfold n in Hn. destruct (waiting_queue s) eqn:Ew; [by right|left]. simpl in Hn. lia. }
  unfold add_waiting_reqs. rewrite no_duplicates.
  2: { rewrite map_app. rewrite map_app in Hr. apply NoDup_app in Hr as (H1 & H2 & H3).
       rewrite <- firstn_map. apply NoDup_app. split; [done|]. split.
       - intros x Hx Hin. apply (H2 x Hx). by apply elem_of_take in Hin as (j & Hj & _); eapply list_elem_of_lookup_2.
       - eapply sublist_NoDup; [done|apply sublist_take]. }
  simpl. eexists. split; [reflexivity|].
  assert (Eq : (mgr_waiting s ++ take n (waiting_queue s)) ++ drop n (waiting_queue s)
               = mgr_waiting s ++ waiting_queue s) by (by rewrite <- app_assoc, take_drop).
  split; [|simpl; split; [done|]; split; [done|]; split; [done|]].
  - split; simpl.
    + by rewrite Eq.
    + rewrite length_app, length_take. lia.
    + intros o [Ho|Ho]%elem_of_app; [by apply Hid|]. apply elem_of_take in Ho as (j & Hj & _).
      destruct (Hnew o) as (r & Hr' & Hf); [by eapply list_elem_of_lookup_2|]. exists r. auto.
    + intros o Ho. apply Hnew. apply list_elem_of_lookup in Ho as [j Hj]. rewrite lookup_drop in Hj.
      by eapply list_elem_of_lookup_2.
  - split.
    + rewrite length_app, length_take. destruct (Nat.le_gt_cases (length (waiting_queue s)) n).
      * right. by apply drop_ge.
      * left. lia.
    + intros ->. by rewrite take_nil, drop_nil, app_nil_r.
Qed.

End Turn.

(** ** Choosing a batch *)

Section Plan.
Context {Sc : Type}.
Variable E : env Sc.
Hypothesis ok : env_ok E.
#[local] Abbreviation c := (e_cfg E).
#[local] Abbreviation bs := (block_size c).
#[local] Abbreviation ids a := (map fst (can_run_list a)).
Implicit Types (r : req Sc) (h : gmap nat (req Sc)) (s : sched Sc).

(** A chosen batch has one phase, and all the staged requests of that phase. *)
Lemma choose s :
  settled c s ->
  exists P h' full' a', _process_dllm_batches E s (_create_dllm_prefill_adder E) = Ok (h', full', a') /\
    looping E (mgr_waiting s) (heap s) P h' a' /\
    P = (match get_prefill_requests s with [] => STAGING_DECODE | _ => STAGING_PREFILL end) /\
    forall o, o ∈ mgr_waiting s -> req_sat (phase_is P) (heap s) o = true -> o ∈ ids a'.
Proof.
  intros [Hr Hcap Hid Hnew].
  assert (Hnd : NoDup (mgr_waiting s)).
  { rewrite map_app in Hr. apply NoDup_app in Hr as (H & _). by eapply rids_nodup. }
  assert (Hpart : forall (Q : nat -> Prop) `{forall o, Decision (Q o)},
    NoDup (filter Q (mgr_waiting s)) /\ length (filter Q (mgr_waiting s)) <= max_running_requests c /\
    forall o, o ∈ filter Q (mgr_waiting s) -> o ∈ mgr_waiting s).
  { intros Q HQ. split; [by apply NoDup_filter|].
    split; [etransitivity; [apply length_filter|done]|]. by intros o [_ ?]%list_elem_of_filter. }
  unfold _process_dllm_batches. destruct (get_prefill_requests s) as [|o1 l1] eqn:Ep.
  - destruct (Hpart (fun o => req_sat is_dllm_prefill (heap s) o = false) _) as (H1 & H2 & H3).
    destruct (by_phase E ok (mgr_waiting s) (heap s) STAGING_DECODE ltac:(by right)
      (get_decode_requests s) (batch_is_full s)) as (h' & full' & a' & E' & Hl & Ha); try done.
    exists STAGING_DECODE, h', full', a'. split; [exact E'|]. split; [done|]. split; [done|].
    intros o Ho Hph. apply Ha; [|done]. apply list_elem_of_filter. split; [|done].
    unfold req_sat, phase_is in *. destruct (heap s !! o) as [r|]; [|done].
    apply bool_decide_eq_true in Hph. unfold is_dllm_prefill. by rewrite Hph.
  - rewrite <- Ep. destruct (Hpart (fun o => req_sat is_dllm_prefill (heap s) o = true) _) as (H1 & H2 & H3).
    destruct (by_phase E ok (mgr_waiting s) (heap s) STAGING_PREFILL ltac:(by left)
      (get_prefill_requests s) (batch_is_full s)) as (h' & full' & a' & E' & Hl & Ha); try done.
    exists STAGING_PREFILL, h', full', a'. rewrite Ep in E' |- *.
    split; [exact E'|]. split; [done|]. split; [done|].
    intros o Ho Hph. apply Ha; [|done]. apply list_elem_of_filter. split; [|done].
    unfold req_sat, phase_is in *. destruct (heap s !! o) as [r|]; [|done].
    apply bool_decide_eq_true in Hph. unfold is_dllm_prefill. by rewrite Hph.
Qed.

Lemma looping_planned s P h' a' full lb :
  settled c s -> looping E (mgr_waiting s) (heap s) P h' a' ->
  planned c P (ids a') (mkSched h' (waiting_queue s) (mgr_waiting s) (ids a') full lb).
Proof.
  intros [Hr Hcap Hid Hnew] [Hg Hroom Hrun Hnd Hsub Hidle Hsame Hout Hlev Hpark].
  assert (Hin : all_in (heap s) (mgr_waiting s ++ waiting_queue s)).
  { intros o [Ho|Ho]%elem_of_app; [destruct (Hid o Ho) as (r & -> & _)|destruct (Hnew o Ho) as (r & -> & _)];
      by eexists. }
  split; simpl; try done.
  - by rewrite (keeps_rids (heap s) h').
  - intros o ((o' & r) & -> & Hi)%list_elem_of_fmap. destruct (Hrun o' r Hi) as (Ho & HP & k & Hk).
    by exists r, k.
  - intros o Ho. destruct (Hnew o Ho) as (r & Hr' & Hf). exists r. split; [|done].
    rewrite Hout; [done|]. intros Hw. apply rids_nodup, NoDup_app in Hr as (_ & Hd & _).
    by apply (Hd o).
Qed.

(** Fields a batch may still change without disturbing its plan. *)
Definition norm r : req Sc := set_is_chunked 0 (set_req_pool_idx None r).

Lemma cut_norm k r : cut c k (norm r) -> cut c k r.
Proof. intros [[Hc Hm Hp Hle Ho Hh] Hf He Hof Hph]. split; try done. Qed.

Lemma norm_cut k r : cut c k r -> cut c k (norm r).
Proof. intros [[Hc Hm Hp Hle Ho Hh] Hf He Hof Hph]. split; try done. Qed.

Lemma norm_same r r' : norm r' = norm r -> same r r' /\ dllm_phase r' = dllm_phase r.
Proof.
  intros En. repeat split.
  - by apply (f_equal rid) in En.
  - by apply (f_equal origin_input_ids) in En.
  - by apply (f_equal output_ids) in En.
  - by apply (f_equal finished_reason) in En.
  - by apply (f_equal max_new_tokens) in En.
  - by apply (f_equal dllm_phase) in En.
Qed.

(** [h'] differs from [h] in those fields of the batch only. *)
Definition touched (batch : list nat) h h' : Prop :=
  forall o, norm <$> h' !! o = norm <$> h !! o /\ (o ∉ batch -> h' !! o = h !! o).

Lemma touched_keeps batch h h' : touched batch h h' -> keeps h h'.
Proof.
  intros Ht o r Ho. destruct (Ht o) as [Hn _]. rewrite Ho in Hn.
  destruct (h' !! o) as [r'|]; [|done]. apply (inj Some) in Hn.
  exists r'. split; [done|]. exact (proj1 (norm_same _ _ Hn)).
Qed.

Lemma touched_level batch h h' o : touched batch h h' -> level h' o = level h o.
Proof.
  intros Ht. destruct (Ht o) as [Hn _]. unfold level.
  destruct (h' !! o) as [r'|], (h !! o) as [r|]; try done. apply (inj Some) in Hn.
  by apply (f_equal (fun r => length (prefix_indices r))) in Hn.
Qed.

Lemma touched_planned P batch s h' :
  planned c P batch s -> touched batch (heap s) h' -> planned c P batch (with_heap h' s).
Proof.
  intros [Hr Hcap Hst Hnd Hsub Hcut Hidle Hnew] Ht.
  assert (Hd : forall o, o ∈ waiting_queue s -> o ∉ batch).
  { intros o Ho Hb%Hsub. apply rids_nodup, NoDup_app in Hr as (_ & Hd & _). by apply (Hd o). }
  assert (Hin : all_in (heap s) (mgr_waiting s ++ waiting_queue s)).
  { intros o [Ho|Ho]%elem_of_app; [|destruct (Hnew o Ho) as (r & -> & _); by eexists].
    destruct (decide (o ∈ batch)) as [Hb|Hb]; [destruct (Hcut o Hb) as (r & k & -> & _)|
      destruct (Hidle o Ho Hb) as (r & -> & _)]; by eexists. }
  split; simpl; try done.
  - by rewrite (keeps_rids _ _ _ (touched_keeps _ _ _ Ht) Hin).
  - intros o Ho. destruct (Hcut o Ho) as (r & k & Er & Hk & HP). destruct (Ht o) as [Hn _].
    rewrite Er in Hn. destruct (h' !! o) as [r'|] eqn:Er'; [|done]. apply (inj Some) in Hn.
    exists r', k. split; [done|]. split; [apply cut_norm; rewrite Hn; by apply norm_cut|].
    by rewrite (proj2 (norm_same _ _ Hn)).
  - intros o Ho Hb. destruct (Hidle o Ho Hb) as (r & Er & Hst'). exists r.
    by rewrite (proj2 (Ht o) Hb).
  - intros o Ho. destruct (Hnew o Ho) as (r & Er & Hst'). exists r.
    by rewrite (proj2 (Ht o) (Hd o Ho)).
Qed.

Lemma touched_alter batch h o f :
  o ∈ batch -> (forall r, norm (f r) = norm r) -> touched batch h (alter f o h).
Proof.
  intros Ho Hf o'. destruct (decide (o' = o)) as [->|Hne].
  - rewrite lookup_alter_eq. split; [|done]. destruct (h !! o); simpl; [by rewrite Hf|done].
  - by rewrite lookup_alter_ne.
Qed.

Lemma touched_trans batch h1 h2 h3 : touched batch h1 h2 -> touched batch h2 h3 -> touched batch h1 h3.
Proof.
  intros H1 H2 o. destruct (H1 o) as [E1 F1], (H2 o) as [E2 F2]. split; [congruence|].
  intros Hb. by rewrite F2, F1.
Qed.

Lemma touched_refl batch h : touched batch h h.
Proof. by intros o. Qed.

(** Updating requests of the batch one after the other. *)
Lemma touched_fold {A} (key : A -> nat) (f : A -> req Sc -> req Sc) batch (l : list A) h :
  (forall x, x ∈ l -> key x ∈ batch) -> (forall x r, norm (f x r) = norm r) ->
  touched batch h (fold_left (fun h x => alter (f x) (key x) h) l h).
Proof.
  intros Hk Hf. revert h. induction l as [|x l IH]; intros h; [apply touched_refl|]. simpl.
  eapply touched_trans; [|apply IH; intros y Hy; apply Hk; by right].
  apply touched_alter; [apply Hk; left|apply Hf].
Qed.

(** The rows of [req_to_token] are long enough for the requests of the last batch. *)
Definition rows_ok s : Prop :=
  forall o r, o ∈ mgr_staging s -> heap s !! o = Some r -> finished r = false ->
  length (fill_ids r) <= length (e_row E (default 0 (req_pool_idx r))).

Lemma stash_between k r :
  ran c k r -> length (fill_ids r) <= length (e_row E (default 0 (req_pool_idx r))) ->
  between c (S k) (stash_chunked_request E r).
Proof.
  intros [Hc Hm Hp Hle Ho Hh Hf Hof] Hrow.
  assert (Lf : length (fill_ids r) = S k * bs) by (rewrite Hf, length_take; lia).
  pose proof (eo_bs _ ok). split; [split|..]; try done.
  - simpl. rewrite length_take. lia.
  - simpl. intros En. rewrite En in Lf. simpl in Lf. lia.
  - simpl. rewrite Hof. lia.
Qed.

#[local] Abbreviation progress := (progress c).
#[local] Abbreviation admitted := (admitted c).
#[local] Abbreviation live h := (filter (fun o => req_sat finished h o = false)).

(** Finished requests leave; those of the last batch get their committed prefix
    and the input of their next block. *)
Lemma settle s full lb :
  loop_inv c s -> rows_ok s ->
  exists h', init_all (live (heap s) (mgr_staging s))
               (for_reqs (stash_chunked_request E) (live (heap s) (mgr_staging s)) (heap s)) = Ok h' /\
    keeps (heap s) h' /\
    settled c (mkSched h' (waiting_queue s) (live (heap s) (mgr_waiting s)) [] full lb) /\
    (forall o, o ∈ live (heap s) (mgr_waiting s) -> level h' o = progress s o) /\
    (admitted s -> admitted (mkSched h' (waiting_queue s) (live (heap s) (mgr_waiting s)) [] full lb)).
Proof.
  intros Hinv Hrows. pose proof (inv_in c s Hinv) as Hin.
  destruct Hinv as [Hr Hcap Hnd Hsub Hstaged Hidle Hnew]. set (l := live (heap s) (mgr_staging s)).
  assert (Hl : NoDup l) by (by apply NoDup_filter).
  assert (Hran : forall o, o ∈ l -> exists r k, heap s !! o = Some r /\ finished r = false /\ ran c k r).
  { intros o [Hf Ho]%list_elem_of_filter. destruct (Hstaged o Ho) as (r & Er & Hst).
    unfold req_sat in Hf. rewrite Er in Hf. destruct Hst as [?|[k Hk]]; [congruence|]. by exists r, k. }
  destruct (init_all_ok c (eo_bs _ ok) l (for_reqs (stash_chunked_request E) l (heap s)) Hl)
    as (h' & Ei & Hkp & Hout & Hpk).
  { intros o Ho. destruct (Hran o Ho) as (r & k & Er & Hf & Hk).
    exists (stash_chunked_request E r), (S k). rewrite for_reqs_lookup, decide_True, Er by done.
    split; [done|]. apply stash_between; [done|]. apply (Hrows o); try done.
    by apply list_elem_of_filter in Ho as [_ ?]. }
  assert (Hk' : keeps (heap s) h').
  { eapply keep_trans; [|exact Hkp]. apply for_reqs_keeps; [done|]. intros r. by repeat split. }
  assert (Hstay : forall o, o ∉ l -> h' !! o = heap s !! o).
  { intros o Ho. by rewrite Hout, for_reqs_lookup, decide_False by done. }
  assert (Hpark : forall o, o ∈ l -> exists r r' k, heap s !! o = Some r /\ ran c k r /\ h' !! o = Some r' /\
    parked c (S k) r').
  { intros o Ho. destruct (Hran o Ho) as (r & k & Er & Hf & Hk).
    destruct (Hpk o (stash_chunked_request E r) (S k) Ho) as (r' & Er' & Hp').
    - by rewrite for_reqs_lookup, decide_True, Er.
    - apply stash_between; [done|]. apply (Hrows o); try done. by apply list_elem_of_filter in Ho as [_ ?].
    - by exists r, r', k. }
  assert (Hlive : forall o, o ∈ live (heap s) (mgr_waiting s) -> o ∉ l -> o ∉ mgr_staging s).
  { intros o [Hf Ho]%list_elem_of_filter Hol Hs. by apply Hol, list_elem_of_filter. }
  exists h'. split; [done|]. split; [done|].
  split; [split; simpl|split].
  - rewrite (keeps_rids _ _ _ Hk').
    + eapply sublist_NoDup; [exact Hr|]. apply (fmap_sublist (rid_at (heap s))).
      apply sublist_app; [apply sublist_filter|done].
    + intros o [Ho|Ho]%elem_of_app; apply Hin, elem_of_app; [left|by right].
      by apply list_elem_of_filter in Ho as [_ ?].
  - etransitivity; [apply length_filter|done].
  - intros o Ho. destruct (decide (o ∈ l)) as [Hol|Hol].
    + destruct (Hpark o Hol) as (_ & r & k & _ & _ & Er & Hk). exists r. eauto.
    + destruct (Hidle o) as (r & Er & Hst); [by apply list_elem_of_filter in Ho as [_ ?]|by apply Hlive|].
      exists r. by rewrite Hstay.
  - intros o Ho. destruct (Hnew o Ho) as (r & Er & Hst). exists r. rewrite Hstay; [done|].
    intros [_ Hs%Hsub]%list_elem_of_filter. apply rids_nodup, NoDup_app in Hr as (_ & Hd & _).
    by apply (Hd o).
  - intros o Ho. unfold progress. destruct (decide (o ∈ l)) as [Hol|Hol].
    + rewrite decide_True by (by apply list_elem_of_filter in Hol as [_ ?]).
      destruct (Hpark o Hol) as (r & r' & k & Er & Hk & Er' & Hp'). unfold level. rewrite Er, Er'.
      rewrite (wf_prefix _ _ _ (pk_wf _ _ _ Hp')), (rn_prefix _ _ _ Hk). lia.
    + rewrite decide_False by (by apply Hlive). unfold level. rewrite Hstay by done. lia.
  - intros Ha o Ho. right. simpl in *. destruct (decide (o ∈ l)) as [Hol|Hol].
    + destruct (Hpark o Hol) as (_ & r & k & _ & _ & Er & Hk). eauto.
    + rewrite Hstay by done.
      destruct (Ha o) as [?|?]; [by apply list_elem_of_filter in Ho as [_ ?]|by exfalso; apply (Hlive o)|done].
Qed.

Lemma settled_queue s q :
  settled c s -> q ≡ₚ waiting_queue s ->
  settled c (mkSched (heap s) q (mgr_waiting s) (mgr_staging s) (batch_is_full s) (last_batch s)).
Proof.
  intros [Hr Hcap Hid Hnew] Hq. split; simpl; try done.
  - by rewrite Hq.
  - intros o. rewrite Hq. apply Hnew.
Qed.

Lemma settled_idle s : settled c s -> mgr_staging s = [] -> loop_inv c s.
Proof.
  intros [Hr Hcap Hid Hnew] Es. split; rewrite ?Es; try done.
  - apply NoDup_nil_2.
  - intros o Ho. by apply not_elem_of_nil in Ho.
  - intros o Ho. by apply not_elem_of_nil in Ho.
  - intros o Ho _. by apply Hid.
Qed.

(** What a call of [get_next_batch_to_run] leaves: no batch, or a planned one. *)
Definition offered s (b : option (list nat)) s' : Prop :=
  keeps (heap s) (heap s') /\
  mgr_waiting s' ++ waiting_queue s' ≡ₚ live (heap s) (mgr_waiting s) ++ waiting_queue s /\
  (forall o, o ∈ live (heap s) (mgr_waiting s) -> level (heap s') o = progress s o) /\
  (waiting_queue s = [] -> admitted s -> admitted s' /\ waiting_queue s' = [] /\
     (live (heap s) (mgr_waiting s) <> [] -> b <> None)) /\
  match b with
  | None => loop_inv c s' /\ mgr_staging s' = []
  | Some batch => batch <> [] /\ exists P, planned c P batch s'
  end.

(** When every request has been admitted, the chosen phase has one to run. *)
Lemma admitted_taken s0 s1 P h' a' :
  admitted s0 -> mgr_staging s0 = [] -> heap s1 = heap s0 -> mgr_waiting s1 = mgr_waiting s0 ->
  looping E (mgr_waiting s1) (heap s1) P h' a' ->
  P = (match get_prefill_requests s1 with [] => STAGING_DECODE | _ => STAGING_PREFILL end) ->
  (forall o, o ∈ mgr_waiting s1 -> req_sat (phase_is P) (heap s1) o = true -> o ∈ ids a') ->
  (forall o, o ∈ mgr_waiting s1 -> o ∈ ids a' \/ exists r k, h' !! o = Some r /\ parked c k r) /\
  (mgr_waiting s0 <> [] -> ids a' <> []).
Proof.
  intros Ha Es Eh Em Hl EP Hall.
  assert (Hp : forall o, o ∈ mgr_waiting s1 -> exists r k, heap s1 !! o = Some r /\ parked c k r).
  { intros o Ho. rewrite Em in Ho. rewrite Eh.
    destruct (Ha o Ho) as [Hx|Hx]; [rewrite Es in Hx; by apply not_elem_of_nil in Hx|done]. }
  split.
  - intros o Ho. destruct (decide (o ∈ ids a')) as [?|Hno]; [by left|right].
    destruct (Hp o Ho) as (r & k & Er & Hk). exists r, k. split; [|done]. by eapply lp_park.
  - intros Hne Hnil. assert (Hx : exists o, o ∈ mgr_waiting s1 /\ req_sat (phase_is P) (heap s1) o = true).
    { destruct (get_prefill_requests s1) as [|o1 l1] eqn:Ep.
      - destruct (mgr_waiting s1) as [|o l] eqn:Ew; [congruence|]. exists o. split; [left|].
        destruct (Hp o ltac:(left)) as (r & k & Er & Hk). unfold req_sat, phase_is. rewrite Er, EP.
        apply bool_decide_eq_true. rewrite (pk_phase _ _ _ Hk). f_equal.
        assert (Hnp : o ∉ get_prefill_requests s1) by (rewrite Ep; apply not_elem_of_nil).
        unfold get_prefill_requests, req_sat in Hnp. rewrite list_elem_of_filter, Ew, Er in Hnp.
        unfold is_dllm_prefill in Hnp. rewrite (pk_phase _ _ _ Hk) in Hnp.
        unfold staging_phase in *. destruct (_ <=? _); [|done]. exfalso. apply Hnp. split; [done|left].
      - assert (Hin : o1 ∈ get_prefill_requests s1) by (rewrite Ep; left).
        apply list_elem_of_filter in Hin as [Hf Hin]. exists o1. split; [done|].
        destruct (Hp o1 Hin) as (r & k & Er & Hk). unfold req_sat, phase_is in *. rewrite Er in *. rewrite EP.
        apply bool_decide_eq_true. rewrite (pk_phase _ _ _ Hk). f_equal.
        unfold is_dllm_prefill in Hf. rewrite (pk_phase _ _ _ Hk) in Hf. by unfold staging_phase in *; destruct (_ <=? _). }
    destruct Hx as (o & Ho & Hph). specialize (Hall o Ho Hph). rewrite Hnil in Hall.
    by apply not_elem_of_nil in Hall.
Qed.

(** From settled requests on, [get_new_batch_dllm] finds a batch or none. *)
Lemma pick s0 :
  settled c s0 -> mgr_staging s0 = [] ->
  exists b s', (let! s := _fetch_waiting_reqs E s0 in
    let! '(h, full, a) := _process_dllm_batches E s (_create_dllm_prefill_adder E) in
    let s := set_full full (with_heap h s) in
    let can_run := map fst (can_run_list a) in
    match can_run with
    | [] => Ok (None, s)
    | _ => Ok (Some can_run, increment_chunked_count (add_staging_reqs can_run s))
    end) = Ok (b, s') /\
    keeps (heap s0) (heap s') /\
    mgr_waiting s' ++ waiting_queue s' = mgr_waiting s0 ++ waiting_queue s0 /\
    (forall o, level (heap s') o = level (heap s0) o) /\
    (waiting_queue s0 = [] -> admitted s0 -> admitted s' /\ waiting_queue s' = [] /\
      (mgr_waiting s0 <> [] -> b <> None)) /\
    match b with
    | None => loop_inv c s' /\ mgr_staging s' = []
    | Some batch => batch <> [] /\ exists P, planned c P batch s'
    end.
Proof.
  intros Hs0 Es. destruct (fetch_ok c (eo_bs _ ok) E s0 eq_refl Hs0) as (s1 & -> & Hs1 & Eh & Est & Eq & _ & Em).
  simpl. rewrite Es in Est.
  destruct (choose s1 Hs1) as (P & h' & full' & a' & -> & Hl & EP & Hall). simpl.
  assert (Hk : keeps (heap s0) h') by (rewrite <- Eh; exact (lp_same _ _ _ _ _ _ Hl)).
  assert (Hlv : forall o, level h' o = level (heap s0) o) by (rewrite <- Eh; exact (lp_level _ _ _ _ _ _ Hl)).
  pose proof (looping_planned s1 P h' a' full' (last_batch s1) Hs1 Hl) as Hpl.
  assert (Hadm : waiting_queue s0 = [] -> admitted s0 ->
    (forall o, o ∈ mgr_waiting s1 -> o ∈ ids a' \/ exists r k, h' !! o = Some r /\ parked c k r) /\
    (mgr_waiting s0 <> [] -> ids a' <> [])).
  { intros Ew Ha. apply (admitted_taken s0 s1 P h' a'); try done. by apply Em. }
  destruct (ids a') as [|o l] eqn:Ei.
  - exists None, (set_full full' (with_heap h' s1)). split; [done|]. split; [done|]. split; [done|].
    split; [done|]. split.
    { intros Ew Ha. destruct (Hadm Ew Ha) as [H1 H2].
      split; [|split; [by apply Em|intros Hne; by destruct (H2 Hne)]].
      intros o Ho. destruct (H1 o Ho) as [Hin|?]; [by apply not_elem_of_nil in Hin|by right]. }
    split; [|done]. destruct Hpl as [Hr Hcap Hst Hnd Hsub Hcut Hidle Hnew].
    apply settled_idle; [|done]. split; try done. simpl. intros o Ho. apply Hidle; [done|apply not_elem_of_nil].
  - set (s2 := mkSched h' (waiting_queue s1) (mgr_waiting s1) (o :: l) full' (last_batch s1)).
    exists (Some (o :: l)), (increment_chunked_count s2). rewrite <- Ei.
    assert (Ht : touched (o :: l) h' (heap (increment_chunked_count s2))).
    { apply (touched_fold id (fun _ r => set_is_chunked (S (is_chunked r)) r)); [done|]. by intros. }
    split.
    { rewrite Ei. unfold s2, add_staging_reqs, set_full, with_heap, increment_chunked_count. simpl.
      by rewrite Est. }
    split; [eapply keep_trans; [exact Hk|by eapply touched_keeps]|]. split; [done|].
    split; [intros x; by rewrite (touched_level _ _ _ x Ht)|]. split.
    { intros Ew Ha. destruct (Hadm Ew Ha) as [H1 _]. split; [|split; [by apply Em|done]].
      intros x Hx. destruct (decide (x ∈ o :: l)) as [Hin|Hin]; [by left|right].
      destruct (H1 x Hx) as [?|(r & k & Er & Hk')]; [done|]. exists r, k. split; [|done].
      rewrite (proj2 (Ht x) Hin). done. }
    rewrite Ei. split; [done|]. exists P. by apply (touched_planned P (o :: l) s2).
Qed.

Lemma next_batch s :
  loop_inv c s -> rows_ok s ->
  exists b s', get_next_batch_to_run E s = Ok (b, s') /\ offered s b s'.
Proof.
  intros Hinv Hrows. unfold get_next_batch_to_run.
  set (s1 := match last_batch _ with None | Some [] => _ | Some _ => _ end).
  set (l := live (heap s) (mgr_staging s)).
  assert (E1 : exists full lb, s1 = mkSched (for_reqs (stash_chunked_request E) l (heap s))
      (waiting_queue s) (live (heap s) (mgr_waiting s)) l full lb).
  { unfold s1, any_staging_reqs, filter_finished_reqs. cbn [mgr_staging heap]. fold l.
    destruct l as [|o l']; cbn [length Nat.eqb negb last_batch];
      destruct (last_batch s) as [[|o2 l2]|]; do 2 eexists; reflexivity. }
  destruct E1 as (full & lb & ->). unfold get_new_batch_dllm, _should_skip_prefill.
  cbn [is_empty batch_is_full waiting_queue mgr_waiting].
  destruct (settle s full lb Hinv Hrows) as (h' & Ei & Hk & Hs & Hlev & Hadm).
  fold l in Ei.
  assert (Hskip : forall f, is_empty (mkSched h' (waiting_queue s) (live (heap s) (mgr_waiting s)) l full lb) = true ->
    offered s None (mkSched (for_reqs (stash_chunked_request E) l (heap s)) (waiting_queue s)
                      (live (heap s) (mgr_waiting s)) l f lb)).
  { intros f He. unfold is_empty in He. cbn [mgr_waiting] in He. apply Nat.eqb_eq, length_zero_iff_nil in He.
    assert (Hl : l = []).
    { apply elem_of_nil_inv. intros o [Hf Ho]%list_elem_of_filter.
      eapply (not_elem_of_nil o). rewrite <- He. apply list_elem_of_filter. split; [done|].
      by apply (li_sub _ _ Hinv). }
    split; [rewrite Hl; apply keep_refl|]. split; [done|].
    split; [intros o Ho; rewrite He in Ho; by apply not_elem_of_nil in Ho|].
    split; [intros Ew _; split; [|split; [done|by rewrite He]]; intros o Ho; cbn [mgr_waiting] in Ho; rewrite He in Ho;
      by apply not_elem_of_nil in Ho|].
    split; [|done]. rewrite Hl. apply settled_idle; [|done].
    rewrite Hl in Ei. simpl in Ei. injection Ei as Ei. subst h'.
    destruct Hs as [Hr Hcap Hid Hnew]. by split. }
  destruct ((full || _) && _) eqn:Ea; [|destruct ((_ <=? 0) && _) eqn:Eb].
  - apply andb_true_iff in Ea as [_ Ea]. do 2 eexists. split; [reflexivity|]. by apply Hskip.
  - apply andb_true_iff in Eb as [_ Eb]. do 2 eexists. split; [reflexivity|]. by apply Hskip.
  - unfold init_next_round. cbn [mgr_staging heap]. rewrite Ei. cbn [rbind].
    pose proof (settled_queue _ (e_priority E (waiting_queue s)) Hs (eo_prio _ ok _)) as Hs'.
    destruct (pick _ Hs' eq_refl) as (b & s' & Ep & Hk' & Hq & Hlv' & Had' & Hb). exists b, s'.
    split; [exact Ep|]. split; [by eapply keep_trans|].
    split; [rewrite Hq; simpl; by rewrite (eo_prio _ ok)|].
    split; [intros o Ho; rewrite Hlv', <- Hlev by done; done|]. split; [|done].
    intros Ew Ha. destruct (Had' ltac:(simpl; rewrite Ew; apply Permutation_nil_r, (eo_prio _ ok)) (Hadm Ha))
      as (H1 & H2 & H3). done.
Qed.

End Plan.

End Sched.
