(* ===== verification/DllmLoop.v ===== *)
(** A turn of the event loop, end to end: the batch the scheduler plans is decoded
    by an algorithm that meets [DecodeSpec], and [process_batch_result_dllm] hands
    the tokens back to the requests.  The file shows that a turn never fails, that
    it keeps the scheduler's invariant, and that a request that goes on has gained
    exactly the open positions of its block. *)
From stdpp Require Import base list gmap strings relations.
From Stdlib Require Import ZArith QArith Lia.
From S2P Require Import Prelude.
From S2P Require Import DllmReq.
From S2P Require Import Denoise.
From S2P Require Import LowConfidence.
From S2P Require Import PrefillAdder.
From S2P Require Import DllmScheduler.
Local Open Scope py_scope.
Local Open Scope nat_scope.

Module Loop.
Import Config Req Adder Sched.

Section Block.
Context {Sc : Type}.
Variable c : DllmConfig Sc.
#[local] Abbreviation bs := (block_size c).
#[local] Abbreviation mask := (mask_id c).
Hypothesis bs_pos : 0 < bs.
Implicit Types r : req Sc.

(** The part of block [k] that a request already has, and its open positions. *)
Definition have k r : list Z := drop (k * bs) (take (S k * bs) (total r)).
Definition gap k r : nat := S k * bs - length (total r).

Lemma input_block k r : cut c k r -> input_ids_of r = have k r ++ replicate (gap k r) mask.
Proof.
  intros [[Hc Hm Hp Hle Ho Hh] Hf He Hof Hph]. unfold input_ids_of, have, gap.
  rewrite Hp, Hf. unfold masked.
  rewrite take_app, take_replicate, Nat.min_l by lia.
  rewrite drop_app_le by (rewrite length_take; lia). done.
Qed.






End Block.

(** ** Finishing *)

Section Stop.
Context {Sc : Type}.
Variables (grammar : option bool) (str_finish : req Sc -> bool).
#[local] Abbreviation stop := (check_finished grammar str_finish).
Implicit Types r : req Sc.





End Stop.

(** ** The batch *)

Lemma blk_concat {A} (bs i : nat) (ls : list (list A)) l :
  Forall (fun x => length x = bs) ls -> ls !! i = Some l -> blk bs i (concat ls) = l.
Proof.
  intros Hl. revert i. induction Hl as [|x ls Hx Hl IH]; intros i Hi; [done|].
  unfold blk, py_slice in *. destruct i as [|i]; simpl in *.
  - injection Hi as ->. rewrite drop_0, Nat.sub_0_r, take_app_le by lia. apply take_ge. lia.
  - rewrite drop_app_ge by lia. rewrite Hx. replace (bs + i * bs - bs) with (i * bs) by lia.
    replace (bs + i * bs + bs - (bs + i * bs)) with (i * bs + bs - i * bs) by lia. by apply IH.
Qed.


Section Serve.
Context {Sc : Type}.
Variable c : DllmConfig Sc.
#[local] Abbreviation bs := (block_size c).
#[local] Abbreviation mask := (mask_id c).
Hypothesis bs_pos : 0 < bs.
Implicit Types (r : req Sc) (h : gmap nat (req Sc)).

Lemma get_reqs_ok batch h :
  (forall o, o ∈ batch -> exists r k, h !! o = Some r /\ cut c k r) ->
  exists rs, get_reqs batch h = Ok rs /\ Forall2 (fun o r => h !! o = Some r /\ exists k, cut c k r) batch rs.
Proof.
  induction batch as [|o batch IH]; intros Hc; simpl; [by exists []|].
  destruct (Hc o ltac:(left)) as (r & k & Er & Hk). rewrite Er.
  destruct IH as (rs & -> & Hrs); [intros o' Ho'; apply Hc; by right|].
  exists (r :: rs). split; [done|]. constructor; eauto.
Qed.



End Serve.

(** ** A turn *)

Section Turn.
Context {ST Sc : Type}.
Variable E : env Sc.
#[local] Abbreviation c := (e_cfg E).
#[local] Abbreviation bs := (block_size c).
#[local] Abbreviation mask := (mask_id c).
Variables (grammar : option bool) (str_finish : req Sc -> bool).
#[local] Abbreviation stop := (check_finished grammar str_finish).
Implicit Types (r : req Sc) (h : gmap nat (req Sc)) (s : sched Sc).



Hypothesis bs_pos : 0 < bs.











End Turn.





(** A batch that [get_next_batch_to_run] returns holds one block per request,
    all in the same phase: at most [max_running_requests] requests; the input of each
    is the block behind its committed prefix, the tokens it has followed by masks;
    its positions are the absolute positions of that block; and its block is free of
    masks exactly when the batch is a prefill batch. *)
Lemma batch_is_uniform {Sc : Type} (E : env Sc) (s : sched Sc) :
  env_ok E -> loop_inv (e_cfg E) s -> rows_ok E s ->
  exists b s', get_next_batch_to_run E s = Ok (b, s') /\
    forall batch, b = Some batch -> batch <> [] /\ length batch <= max_running_requests (e_cfg E) /\
      exists P rs, get_reqs batch (heap s') = Ok rs /\
        forall i r, rs !! i = Some r -> exists k,
          dllm_phase r = Some P /\ length (prefix_indices r) = k * block_size (e_cfg E) /\
          input_ids_of r = have (e_cfg E) k r ++ replicate (gap (e_cfg E) k r) (mask_id (e_cfg E)) /\
          blk (block_size (e_cfg E)) i (positions_of E rs)
            = seq (length (prefix_indices r)) (block_size (e_cfg E)) /\
          (gap (e_cfg E) k r = 0 <-> P = STAGING_PREFILL).
Proof.
  intros Hok Hinv Hrows. destruct (next_batch E Hok s Hinv Hrows) as (b & s1 & Eb & Hk & Hq & _ & _ & Hb).
  exists b, s1. split; [done|]. intros batch ->. destruct Hb as (Hne & P & Hpl). split; [done|].
  split.
  { etransitivity; [|apply (pl_cap _ _ _ _ Hpl)]. apply submseteq_length, NoDup_submseteq; [apply Hpl|].
    intros o. apply Hpl. }
  destruct (get_reqs_ok (e_cfg E) batch (heap s1)) as (rs & Eg & Hrs).
  { intros o Ho. destruct (pl_cut _ _ _ _ Hpl o Ho) as (r & k & Er & Hkk & _). by exists r, k. }
  exists P, rs. split; [done|]. intros i r Hi.
  destruct (Forall2_lookup_r _ _ _ _ _ Hrs Hi) as (o & Ho & Er & k & Hkk). exists k.
  destruct (pl_cut _ _ _ _ Hpl o) as (r' & k' & Er' & _ & HP); [by eapply list_elem_of_lookup_2|].
  rewrite Er in Er'. injection Er' as <-. split; [done|].
  pose proof (wf_prefix _ _ _ (ct_wf _ _ _ Hkk)) as Hp. split; [done|].
  split; [by apply input_block; [apply Hok|]|]. split.
  - apply blk_concat; [apply Forall_forall; intros x (y & -> & _)%list_elem_of_fmap; apply length_seq|].
    rewrite list_lookup_fmap, Hi. simpl. by rewrite (ct_off _ _ _ Hkk), Hp.
  - rewrite (ct_phase _ _ _ Hkk) in HP. injection HP as <-. unfold staging_phase, gap.
    destruct (Nat.leb_spec (S k * block_size (e_cfg E)) (length (total r))); split; (done || lia).
Qed.

(** ** A small server *)

Module Demo.
Import Low Low.Example_.

Definition cfg : DllmConfig Z :=
  {| algorithm := "LowConfidence"; cfg_algorithm_config := empty_algorithm_config;
     block_size := 4; mask_id := 7%Z; max_running_requests := 2 |}.

Definition E : env Z :=
  mkEnv cfg 2 {| is_hybrid_swa := false; available_size := 20000; full_available_size := 0;
                 swa_available_size := 0 |} 1 4096 None None 8 id (fun _ => List.repeat 0%Z 64).

Definition arrive (name : string) (prompt : list Z) (limit : Z) : req Z :=
  init_diffusion_llm (Some cfg)
    (mkReq name prompt [] [] [] None 0 None 0 0 false None false None None 0 0 None limit false
       [9]%Z [] None 100).

(** Three requests have arrived, one with less than a block of prompt. *)
Definition s0 : sched Z :=
  mkSched (<[0 := arrive "a" [1; 2; 3; 4; 5; 6]%Z 6]> (<[1 := arrive "b" [1; 2]%Z 8]>
            (<[2 := arrive "c" [1; 2; 3]%Z 4]> ∅)))
    [0; 1; 2] [] [] false None.

#[local] Abbreviation turn E := (event_loop E (run toy_params toy_forward)
  (check_finished None (fun _ => false)) id).

Fixpoint turns (E : env Z) (n : nat) (kv : nat) (s : sched Z) : res (nat * sched Z) :=
  match n with
  | 0 => Ok (kv, s)
  | S n => let! '(kv, s) := turn E kv s in turns E n kv s
  end.

Definition view (x : res (nat * sched Z)) : option (list nat) * list nat * list (option (list Z)) :=
  match x with
  | Ok (_, s) => (last_batch s, mgr_waiting s,
                  map (fun o => output_ids_through_stop <$> heap s !! o) [0; 1; 2])
  | Raise _ => (None, [], [])
  end.

(** Five turns serve the three requests: prompts first, then block by block. *)
Example served_in_five :
  map (fun n => view (turns E n 0 s0)) [1; 2; 5; 6]
  = [ (Some [0], [0; 1], [Some []; Some []; Some []]);
      (Some [0; 1], [0; 1], [Some [1; 1]; Some [1; 1]; Some []]%Z);
      (Some [2], [2], [Some [1; 1; 1; 1; 1; 1]; Some [1; 1; 1; 1; 1; 1; 1; 1]; Some [1; 1; 1; 1]]%Z);
      (None, [], [Some [1; 1; 1; 1; 1; 1]; Some [1; 1; 1; 1; 1; 1; 1; 1]; Some [1; 1; 1; 1]]%Z) ].
Proof. vm_compute. reflexivity. Qed.

Lemma E_ok : env_ok E.
Proof. split; [simpl; lia|simpl; lia|by exists 2%Z|vm_compute; congruence|done]. Qed.

Lemma fresh_arrive name prompt limit : 7%Z ∉ prompt -> fresh cfg (arrive name prompt limit).
Proof.
  intros Hm. unfold arrive, init_diffusion_llm. simpl. destruct (_ <? 4) eqn:El; split; simpl.
  all: try (split; simpl; unfold total; simpl; rewrite ?app_nil_r; done || lia).
  all: try done. all: by rewrite El.
Qed.

Lemma s0_inv : loop_inv cfg s0.
Proof.
  split; try (simpl; lia || apply NoDup_nil_2 || (intros o Ho; by apply not_elem_of_nil in Ho)).
  - by apply (bool_decide_unpack _).
  - intros o Ho. simpl in Ho. rewrite !elem_of_cons, elem_of_nil in Ho.
    destruct Ho as [->|[->|[->|[]]]]; (eexists; split; [reflexivity|]); apply fresh_arrive;
      by apply (bool_decide_unpack _).
Qed.

Lemma s0_rows : rows_ok E s0.
Proof. intros o r Ho. by apply not_elem_of_nil in Ho. Qed.

End Demo.
Import Demo Low Low.Example_.


Lemma batch_is_uniform_witness :
  exists b s', get_next_batch_to_run E s0 = Ok (b, s') /\ b = Some [0] /\ [0] <> ([] : list nat) /\
    length [0] <= 2.
Proof.
  destruct (batch_is_uniform E s0 E_ok s0_inv s0_rows) as (b & s' & Eb & Hb).
  exists b, s'. split; [exact Eb|].
  assert (E0 : b = Some [0]).
  { assert (Ev : match get_next_batch_to_run E s0 with Ok (b, _) => b | Raise _ => None end = Some [0])
      by (vm_compute; reflexivity).
    rewrite Eb in Ev. exact Ev. }
  split; [exact E0|]. destruct (Hb [0] E0) as (H1 & H2 & _). split; [exact H1|exact H2].
Defined.

(** ** A server that stops *)

Section Stops.
Context {ST Sc : Type}.

(** [batch_is_full] is set, no batch was run, nothing is staged, and a request that
    waits in the manager has yet to start its prefill; no other one is within it. *)
Record stuck (s : sched Sc) : Prop := {
  sk_full : batch_is_full s = true;
  sk_last : last_batch s = None;
  sk_staging : mgr_staging s = [];
  sk_rids : NoDup (map (rid_at (heap s)) (mgr_waiting s ++ waiting_queue s));
  sk_new : forall o, o ∈ mgr_waiting s ++ waiting_queue s -> exists r, heap s !! o = Some r /\
    finished r = false /\ dllm_phase r <> Some STAGING_PREFILL;
  sk_prefill : exists o r, o ∈ mgr_waiting s /\ heap s !! o = Some r /\ dllm_phase r = Some INCOMING_PREFILL;
}.

(** What can happen to a server: a turn of the event loop, in some environment and
    with some decoding algorithm, or a request that arrives under a new id. *)
Inductive happens : ST * sched Sc -> ST * sched Sc -> Prop :=
| hp_turn E run stop pool kv s kv' s' :
    (forall l, e_priority E l ≡ₚ l) -> event_loop E run stop pool kv s = Ok (kv', s') ->
    happens (kv, s) (kv', s')
| hp_arrive kv s o r :
    heap s !! o = None -> finished r = false ->
    dllm_phase r <> Some STAGING_PREFILL ->
    Some (rid r) ∉ map (rid_at (heap s)) (mgr_waiting s ++ waiting_queue s) ->
    happens (kv, s) (kv, _add_request_to_queue o r s).

Lemma stuck_live s : stuck s -> filter_finished_reqs s = s.
Proof.
  intros Hs. assert (Hall : forall l : list nat, (forall o, o ∈ l -> o ∈ mgr_waiting s ++ waiting_queue s) ->
    filter (fun o => req_sat finished (heap s) o = false) l = l).
  { induction l as [|o l IH]; intros Hl; [done|].
    destruct (sk_new _ Hs o) as (r & Er & Hf & _); [apply Hl; left|].
    rewrite filter_cons_True by (unfold req_sat; by rewrite Er). f_equal. apply IH. intros; apply Hl. by right. }
  unfold filter_finished_reqs. rewrite (Hall (mgr_waiting s)) by (intros; apply elem_of_app; by left).
  pose proof (sk_staging _ Hs) as E. destruct s. simpl in *. by rewrite E.
Qed.

(** The manager takes requests from the queue. *)
Lemma stuck_fetch E s : stuck s ->
  exists s' n, _fetch_waiting_reqs E s = Ok s' /\ stuck s' /\ heap s' = heap s /\
    mgr_waiting s' = mgr_waiting s ++ take n (waiting_queue s).
Proof.
  intros Hs. unfold _fetch_waiting_reqs. set (n := Nat.min _ _). destruct (0 <? n).
  - unfold add_waiting_reqs. rewrite no_duplicates.
    2:{ pose proof (sk_rids _ Hs) as Hr. rewrite <- (take_drop n (waiting_queue s)), app_assoc, map_app in Hr.
        by apply NoDup_app in Hr as (? & _). }
    cbn [rbind]. eexists _, n. split; [done|]. split; [|done].
    assert (El : (mgr_waiting s ++ take n (waiting_queue s)) ++ drop n (waiting_queue s) = mgr_waiting s ++ waiting_queue s)
      by (by rewrite <- app_assoc, take_drop).
    split; simpl; rewrite ?El; try apply Hs. destruct (sk_prefill _ Hs) as (o & r & Ho & H). exists o, r.
    split; [apply elem_of_app; by left|done].
  - exists s, 0. split; [done|]. split; [done|]. split; [done|]. by rewrite take_0, app_nil_r.
Qed.

(** The prefill phase is chosen and gives up at once. *)
Lemma stuck_process E s a : stuck s -> _process_dllm_batches E s a = Ok (heap s, true, a).
Proof.
  intros Hs. destruct (sk_prefill _ Hs) as (o & r & Ho & Er & Hp). unfold _process_dllm_batches.
  assert (Hin : o ∈ get_prefill_requests s)
    by (apply list_elem_of_filter; split; [unfold req_sat, is_dllm_prefill; by rewrite Er, Hp|done]).
  destruct (get_prefill_requests s) as [|x l] eqn:El; [by apply not_elem_of_nil in Hin|]. rewrite <- El.
  unfold _process_batch_by_phase.
  destruct (filter (fun o => req_sat (phase_is STAGING_PREFILL) (heap s) o = true) (get_prefill_requests s)) as [|y ys] eqn:Ey.
  - cbn [process_dllm_staging_reqs rbind]. rewrite (sk_full _ Hs). match goal with |- process_dllm_incoming_reqs _ ?q _ _ _ = _ => by destruct q end.
  - exfalso. assert (Hy : y ∈ y :: ys) by left. rewrite <- Ey in Hy. apply list_elem_of_filter in Hy as [Hst Hy].
    apply list_elem_of_filter in Hy as [_ Hy].
    destruct (sk_new _ Hs y) as (ry & Er' & _ & Hph); [apply elem_of_app; by left|].
    unfold req_sat, phase_is in Hst. by rewrite Er', bool_decide_eq_true in Hst.
Qed.

(** A turn of a stopped server changes nothing but the two queues. *)
Lemma stuck_turn E (run : ST -> nat -> list Z -> res (decode_result ST Sc)) stop pool kv s :
  (forall l, e_priority E l ≡ₚ l) -> stuck s ->
  exists s' n, event_loop E run stop pool kv s = Ok (kv, s') /\ stuck s' /\ heap s' = heap s /\
    mgr_waiting s' = mgr_waiting s ++ take n (e_priority E (waiting_queue s)).
Proof.
  intros He Hs. unfold event_loop, get_next_batch_to_run. rewrite (stuck_live s Hs).
  assert (Hany : any_staging_reqs s = false) by (unfold any_staging_reqs; by rewrite (sk_staging _ Hs)).
  rewrite Hany. cbn zeta. rewrite (sk_last _ Hs). unfold get_new_batch_dllm, _should_skip_prefill.
  assert (Hne : is_empty s = false).
  { destruct (sk_prefill _ Hs) as (o & r & Ho & _). unfold is_empty. destruct (mgr_waiting s); [by apply not_elem_of_nil in Ho|done]. }
  rewrite Hne, !andb_false_r. unfold init_next_round. cbn [mgr_staging heap]. rewrite (sk_staging _ Hs). cbn [init_all rbind].
  set (s1 := mkSched _ _ _ _ _ _).
  assert (Hs1 : stuck s1).
  { destruct Hs as [H1 H2 H3 H4 H5 H6]. split; simpl; try done.
    - by rewrite He.
    - intros o Ho. apply H5. by rewrite He in Ho. }
  destruct (stuck_fetch E s1 Hs1) as (s2 & n & -> & Hs2 & Hh & Hw). cbn [rbind].
  rewrite (stuck_process E s2 _ Hs2). cbn [rbind map fst]. exists (set_last None (set_full true (with_heap (heap s2) s2))), n.
  split; [done|]. split; [|done]. destruct Hs2. by split.
Qed.

Lemma stuck_arrive s o r :
  stuck s -> heap s !! o = None -> finished r = false ->
  dllm_phase r <> Some STAGING_PREFILL ->
  Some (rid r) ∉ map (rid_at (heap s)) (mgr_waiting s ++ waiting_queue s) -> stuck (_add_request_to_queue o r s).
Proof.
  intros [H1 H2 H3 H4 H5 (o1 & r1 & Ho1 & Er1 & Hp1)] Ho Hf Hp Hn.
  assert (Hne : forall o', o' ∈ mgr_waiting s ++ waiting_queue s -> o' <> o)
    by (intros o' Ho' ->; destruct (H5 o Ho') as (? & ? & _); congruence).
  assert (Em : map (rid_at (<[o := r]> (heap s))) (mgr_waiting s ++ waiting_queue s) =
               map (rid_at (heap s)) (mgr_waiting s ++ waiting_queue s)).
  { apply map_ext_in. intros o' Ho'%list_elem_of_In. unfold rid_at. rewrite lookup_insert_ne; [done|]. intros E. by apply (Hne o'). }
  split; simpl; try done.
  - rewrite app_assoc, map_app, Em. apply NoDup_app. split; [done|]. split; [|apply NoDup_singleton].
    intros x Hx Hx'. cbn in Hx'. apply list_elem_of_singleton in Hx' as ->. unfold rid_at in Hx.
    rewrite lookup_insert_eq in Hx. done.
  - intros o'. rewrite app_assoc, elem_of_app, list_elem_of_singleton. intros [Ho'| ->].
    + rewrite lookup_insert_ne; [by apply H5|]. intros E. by apply (Hne o').
    + exists r. by rewrite lookup_insert_eq.
  - exists o1, r1. split; [done|]. rewrite lookup_insert_ne; [done|]. intros E.
    apply (Hne o1); [apply elem_of_app; by left|done].
Qed.

Lemma stuck_happens c c' : happens c c' -> stuck (snd c) ->
  stuck (snd c') /\ fst c' = fst c /\ heap (snd c) ⊆ heap (snd c') /\
  (forall o, o ∈ mgr_waiting (snd c) -> o ∈ mgr_waiting (snd c')).
Proof.
  intros Hc Hs. destruct Hc as [E run stop pool kv s kv' s' He Et|kv s o r Ho Hf Hp Hn]; simpl in *.
  - destruct (stuck_turn E run stop pool kv s He Hs) as (s1 & n & E1 & Hs1 & Hh & Hw).
    rewrite Et in E1. injection E1 as -> ->. rewrite Hh. split; [done|]. split; [done|]. split; [done|].
    intros o Ho. rewrite Hw. apply elem_of_app. by left.
  - split; [by apply stuck_arrive|]. split; [done|]. split; [by apply insert_subseteq|done].
Qed.

End Stops.

(** C28. The server can stop for ever.  Suppose [batch_is_full] is set although no batch
    was run, nothing is staged, and a request waits in the manager that has yet to start
    its prefill (none there is within it).  Then whatever happens, turns in any environments and with any decoding
    algorithm, and requests that arrive: no pass of the model is run, the record of
    every request stays as it is, the flag stays set and no batch is formed; and the
    next turn returns and is again one of these.  The prefill phase is chosen and gives
    up because of the flag, which only a batch resets. *)
Theorem stopped_for_ever {ST Sc : Type} (kv kv' : ST) (s s' : sched Sc) :
  stuck s -> rtc happens (kv, s) (kv', s') ->
  kv' = kv /\ heap s ⊆ heap s' /\ (forall o, o ∈ mgr_waiting s -> o ∈ mgr_waiting s') /\
  batch_is_full s' = true /\ last_batch s' = None /\
  forall E run stop pool, (forall l, e_priority E l ≡ₚ l) ->
    exists s'', event_loop E run stop pool kv' s' = Ok (kv', s'') /\ last_batch s'' = None /\ heap s'' = heap s'.
Proof.
  intros Hs Hr.
  assert (H : forall c c' : ST * sched Sc, rtc happens c c' -> stuck (snd c) ->
    stuck (snd c') /\ fst c' = fst c /\ heap (snd c) ⊆ heap (snd c') /\
    (forall o, o ∈ mgr_waiting (snd c) -> o ∈ mgr_waiting (snd c'))).
  { intros c c' Hc. induction Hc as [c|c c1 c2 Hc _ IH]; intros H0; [done|].
    destruct (stuck_happens c c1 Hc H0) as (H1 & H2 & H3 & H4). destruct (IH H1) as (J1 & J2 & J3 & J4).
    split; [done|]. split; [congruence|]. split; [by etransitivity|]. auto. }
  destruct (H _ _ Hr Hs) as (Hs' & Ek & Hh & Hw). simpl in *. subst kv'.
  split; [done|]. split; [done|]. split; [done|]. split; [apply Hs'|]. split; [apply Hs'|].
  intros E run stop pool He. destruct (stuck_turn E run stop pool kv s' He Hs') as (s2 & n & E2 & Hs2 & H2 & _).
  exists s2. split; [done|]. split; [apply Hs2|done].
Qed.

(** A pool too small for the first request and its token limit: the request is refused
    for lack of tokens in a turn without a batch, after which one with a longer prompt
    arrives. *)
Definition tight : env Z :=
  mkEnv cfg 2 (kv_of 100) 1 4096 None None 8 id (fun _ => List.repeat 0%Z 64).

Definition refused : sched Z :=
  match turns tight 1 0 (mkSched {[1 := arrive "b" [1; 2]%Z 96]} [1] [] [] false None) with
  | Ok (_, s) => _add_request_to_queue 0 (arrive "a" [1; 2; 3; 4; 5; 6]%Z 6) s
  | Raise _ => s0
  end.

Definition stopped : sched Z :=
  match turns tight 1 0 refused with Ok (_, s) => s | Raise _ => s0 end.

(** The turn that takes the second request into the manager; nothing runs from here. *)
Lemma refused_stops : turns tight 1 0 refused = Ok (0, stopped) /\ stuck stopped.
Proof.
  split; [vm_compute; reflexivity|]. split; try (vm_compute; reflexivity).
  - apply (bool_decide_unpack _). vm_compute. exact I.
  - intros o Ho. assert (Eo : mgr_waiting stopped ++ waiting_queue stopped = [1; 0]) by (vm_compute; reflexivity).
    rewrite Eo, !elem_of_cons, elem_of_nil in Ho.
    destruct Ho as [->|[->|[]]]; (eexists; split; [vm_compute; reflexivity|]); (split; [vm_compute; reflexivity|vm_compute; done]).
  - exists 0. eexists. split; [apply (bool_decide_unpack _); vm_compute; exact I|]. split; vm_compute; reflexivity.
Qed.

(** A larger pool does not help. *)
Lemma stopped_for_ever_witness :
  heap stopped ⊆ heap stopped /\
  exists s'', event_loop E (run toy_params toy_forward) (check_finished None (fun _ => false)) id 0 stopped = Ok (0, s'') /\
    last_batch s'' = None /\ heap s'' = heap stopped.
Proof.
  destruct (stopped_for_ever 0 0 stopped stopped (proj2 refused_stops) (rtc_refl _ _)) as (_ & H1 & _ & _ & _ & H2).
  split; [exact H1|]. apply H2. reflexivity.
Defined.

End Loop.
