(* ===== verification/DllmDrain.v ===== *)
(** The event loop drains its requests: once every request has been admitted and
    no new one arrives, a number of turns that is known in advance finishes them
    all.  Each turn takes at least one request forward by a block; a request never
    goes further than its prompt and its token limit. *)
From stdpp Require Import base list gmap strings.
From Stdlib Require Import ZArith QArith Lia.
From S2P Require Import Prelude.
From S2P Require Import DllmReq.
From S2P Require Import Denoise.
From S2P Require Import LowConfidence.
From S2P Require Import PrefillAdder.
From S2P Require Import DllmScheduler.
From S2P Require Import DllmLoop.
Local Open Scope py_scope.
Local Open Scope nat_scope.

Module Drain.
Import Config Req Adder Sched Loop.


Section Measure.
Context {Sc : Type}.
Implicit Types (r : req Sc) (s : sched Sc).






Variable E : env Sc.
#[local] Abbreviation c := (e_cfg E).




Hypothesis bs_pos : 0 < block_size c.


End Measure.

Section Closed.
Context {Sc : Type}.
Variable c : DllmConfig Sc.
Implicit Types (r : req Sc) (s : sched Sc).




End Closed.

Section Turns.
Context {ST Sc : Type}.
Context {forward : runner ST Sc} {NP : Prop} {run : ST -> nat -> list Z -> res (decode_result ST Sc)}.
Implicit Types (r : req Sc) (s : sched Sc).
Variables (grammar : option bool) (str_finish : req Sc -> bool) (pool : list nat -> list nat).
#[local] Abbreviation stop := (check_finished grammar str_finish).
Hypothesis never : NP.



End Turns.


(** ** A concrete server *)

Module Demo_.
Import Demo Low Low.Example_.






End Demo_.
Import Demo Demo_ Low Low.Example_.


End Drain.
