(* ===== verification/Allocator.v ===== *)
(** The KV-slot allocators of [srt/mem_cache/allocator.py].

    [Base] holds the state every allocator has and the operations of
    [BaseTokenToKVPoolAllocator]; [Token] is [TokenToKVPoolAllocator], which
    hands out single slots.  The paged allocator is in [PagedAllocator], its
    kernels in [AllocKernels].

    The abstract view of an allocator is the list of the slots (or pages) its
    clients hold: [Base.Owns] relates it to the concrete free and release lists.
    Every operation is shown to implement the corresponding change of the held
    list, so no slot is ever handed out twice or lost, and slot [0], the one
    that padded tokens write to, is never handed out. *)
From stdpp Require Import base list sorting relations.
From Stdlib Require Import ZArith Lia.
From S2P Require Import Prelude.
Local Open Scope nat_scope.

Module Base.

(** Attributes of an allocator.  [num_pages] is the number of units it
    manages; [free_group] is only meaningful while [is_not_in_free_group] is
    false, since [free_group_end] does not reset it. *)
Record allocator : Type := mkAlloc {
  size : nat;
  page_size : nat;
  num_pages : nat;
  need_sort : bool;
  debug_mode : bool;
  free_pages : list Z;
  release_pages : list Z;
  is_not_in_free_group : bool;
  free_group : list (list Z);
}.

Definition with_pages (fp rp : list Z) (a : allocator) : allocator :=
  mkAlloc (size a) (page_size a) (num_pages a) (need_sort a) (debug_mode a) fp rp
    (is_not_in_free_group a) (free_group a).

Definition with_group (b : bool) (g : list (list Z)) (a : allocator) : allocator :=
  mkAlloc (size a) (page_size a) (num_pages a) (need_sort a) (debug_mode a)
    (free_pages a) (release_pages a) b g.

(** [torch.arange(1, n + 1)]. *)
Definition arange1 (n : nat) : list Z := map Z.of_nat (seq 1 n).

(** [torch.sort], as values. *)
Definition torch_sort (l : list Z) : list Z := merge_sort Z.le l.

(** [torch.unique]: the distinct values in increasing order. *)
Definition torch_unique (l : list Z) : list Z := torch_sort (remove_dups l).

(** [BaseTokenToKVPoolAllocator.available_size]. *)
Definition available_size (a : allocator) : nat :=
  (length (free_pages a) + length (release_pages a)) * page_size a.

Definition backup_state (a : allocator) : list Z * list Z := (free_pages a, release_pages a).

Definition restore_state (st : list Z * list Z) (a : allocator) : allocator :=
  with_pages (fst st) (snd st) a.

Definition free_group_begin (a : allocator) : allocator := with_group false [] a.

(** [free_group_end], given the subclass's [free]. *)
Definition free_group_end (free : list Z -> allocator -> res allocator) (a : allocator)
    : res allocator :=
  let a := with_group true (free_group a) a in
  match free_group a with
  | [] => Ok a
  | g => free (concat g) a
  end.

Definition merge_and_sort_free (a : allocator) : allocator :=
  if 0 <? length (release_pages a)
  then with_pages (torch_sort (free_pages a ++ release_pages a)) [] a
  else a.

(** [clear] of both subclasses, over the units they manage. *)
Definition clear (a : allocator) : allocator :=
  with_group true [] (with_pages (arange1 (num_pages a)) [] a).

(** ** The abstract view *)

(** [held] is the list of units the clients hold: together with the free and
    the released ones they are exactly the units [1 .. num_pages]. *)
Record Owns (a : allocator) (held : list Z) : Prop := {
  owns_perm : free_pages a ++ release_pages a ++ held ≡ₚ arange1 (num_pages a);
  owns_release : need_sort a = false -> release_pages a = [];
}.

(** The part of the state no operation changes. *)
Definition same_config (a a' : allocator) : Prop :=
  size a' = size a /\ page_size a' = page_size a /\ num_pages a' = num_pages a /\
  need_sort a' = need_sort a /\ debug_mode a' = debug_mode a.

#[export] Instance same_config_refl : Reflexive same_config.
Proof. by repeat split. Qed.

#[export] Instance same_config_trans : Transitive same_config.
Proof. intros a b c (?&?&?&?&?) (?&?&?&?&?). repeat split; congruence. Qed.

Lemma arange1_NoDup n : NoDup (arange1 n).
Proof. apply NoDup_fmap_2; [intros ???; lia|apply NoDup_seq]. Qed.

Lemma elem_of_arange1 n x : x ∈ arange1 n <-> (1 <= x <= Z.of_nat n)%Z.
Proof.
  unfold arange1. rewrite list_elem_of_fmap. setoid_rewrite elem_of_seq. split.
  - intros (k & -> & ?). lia.
  - intros ?. exists (Z.to_nat x). lia.
Qed.

Lemma length_arange1 n : length (arange1 n) = n.
Proof. unfold arange1. by rewrite length_map, length_seq. Qed.

(** Unique values, each once. *)
Lemma torch_sort_perm l : torch_sort l ≡ₚ l.
Proof. apply merge_sort_Permutation. Qed.

Lemma torch_sort_sorted l : Sorted Z.le (torch_sort l).
Proof. apply Sorted_merge_sort. intros x y. lia. Qed.

Lemma torch_unique_NoDup l : NoDup (torch_unique l).
Proof. unfold torch_unique. rewrite torch_sort_perm. apply NoDup_remove_dups. Qed.

Lemma elem_of_torch_unique l x : x ∈ torch_unique l <-> x ∈ l.
Proof. unfold torch_unique. rewrite torch_sort_perm. apply elem_of_remove_dups. Qed.

(** A coarser equality of allocators: the order of the held list is irrelevant. *)
#[export] Instance Owns_proper a : Proper ((≡ₚ) ==> iff) (Owns a).
Proof.
  intros h h' Hh. split; intros [Hp Hr]; (split; [|done]).
  - by rewrite <- Hh.
  - by rewrite Hh.
Qed.

Section Owned.
Context (a : allocator) (held : list Z) (Ha : Owns a held).

Lemma owns_NoDup : NoDup (free_pages a ++ release_pages a ++ held).
Proof. rewrite (owns_perm _ _ Ha). apply arange1_NoDup. Qed.

Lemma held_range x : x ∈ held -> (1 <= x <= Z.of_nat (num_pages a))%Z.
Proof.
  intros Hx. apply elem_of_arange1. rewrite <- (owns_perm _ _ Ha).
  rewrite !elem_of_app. auto.
Qed.

Lemma held_NoDup : NoDup held.
Proof. pose proof owns_NoDup as Hn. rewrite !NoDup_app in Hn. apply Hn. Qed.

(** Conservation: free, released and held units add up. *)
Lemma owns_count :
  length (free_pages a) + length (release_pages a) + length held = num_pages a.
Proof.
  pose proof (Permutation_length (owns_perm _ _ Ha)) as Hl.
  rewrite !length_app, length_arange1 in Hl. lia.
Qed.

Lemma merge_owns : Owns (merge_and_sort_free a) held.
Proof.
  unfold merge_and_sort_free. destruct (0 <? _) eqn:E; [|done].
  split; [|done]. simpl. rewrite torch_sort_perm, <- app_assoc. apply Ha.
Qed.

(** Taking the first [k] free units. *)
Lemma take_owns k :
  Owns (with_pages (drop k (free_pages a)) (release_pages a) a)
       (take k (free_pages a) ++ held).
Proof.
  split; [|apply Ha]. simpl. rewrite <- (owns_perm _ _ Ha).
  rewrite <- (take_drop k (free_pages a)) at 3. solve_Permutation.
Qed.

(** Giving the units [l] back, to the free list or to the release list. *)
Lemma give_owns l held' fp rp :
  held ≡ₚ l ++ held' -> fp ++ rp ≡ₚ l ++ free_pages a ++ release_pages a ->
  (need_sort a = false -> rp = []) -> Owns (with_pages fp rp a) held'.
Proof.
  intros Hh Hp Hr. split; [|exact Hr]. simpl. rewrite <- (owns_perm _ _ Ha), Hh, app_assoc, Hp.
  solve_Permutation.
Qed.

End Owned.

Lemma clear_owns a : Owns (clear a) [].
Proof. split; simpl; [|done]. by rewrite !app_nil_r. Qed.

Lemma merge_config a : same_config a (merge_and_sort_free a).
Proof. unfold merge_and_sort_free. by destruct (0 <? _). Qed.

(** Restoring depends on the configuration only. *)
Lemma restore_owns a0 a st old : same_config a0 a -> Owns (restore_state st a0) old <-> Owns (restore_state st a) old.
Proof.
  intros (_ & _ & En & Es & _). split; intros [H1 H2]; (split; simpl in *; [by rewrite ?En, <- ?En in *|by rewrite ?Es, <- ?Es in *]).
Qed.

(** [merge_and_sort_free] leaves nothing to merge. *)
Lemma merge_release a : release_pages (merge_and_sort_free a) = [].
Proof.
  unfold merge_and_sort_free. destruct (0 <? _) eqn:E; [done|].
  apply Nat.ltb_ge in E. apply nil_length_inv. lia.
Qed.

Lemma merge_length a :
  length (free_pages (merge_and_sort_free a))
  = length (free_pages a) + length (release_pages a).
Proof.
  unfold merge_and_sort_free. destruct (0 <? _) eqn:E; simpl.
  - by rewrite torch_sort_perm, length_app.
  - apply Nat.ltb_ge in E. lia.
Qed.

(** Merging on demand, as every [alloc*] does: afterwards [k] units are free
    exactly when [k] were available, provided the threshold [t] is at least [k]. *)
Lemma merge_on_demand a held k t :
  Owns a held -> k <= t ->
  let a' := if need_sort a && (length (free_pages a) <? t) then merge_and_sort_free a else a in
  Owns a' held /\ same_config a a' /\
  (length (free_pages a') < k <-> length (free_pages a) + length (release_pages a) < k).
Proof.
  intros Ha Hkt. cbn zeta. destruct (need_sort a) eqn:Es; simpl.
  - destruct (Nat.ltb_spec (length (free_pages a)) t).
    + split; [by apply merge_owns|]. split; [apply merge_config|]. by rewrite merge_length.
    + split; [done|]. split; [done|]. lia.
  - split; [done|]. split; [done|]. rewrite (owns_release _ _ Ha Es). simpl. lia.
Qed.

End Base.

(** * Single slots *)

Module Token.
Import Base.

(** [TokenToKVPoolAllocator.__init__]. *)
Definition init (sz : nat) (sort : bool) : allocator :=
  clear (mkAlloc sz 1 sz sort false [] [] true []).

(** [TokenToKVPoolAllocator.available_size]. *)
Definition available_size (a : allocator) : nat :=
  length (free_pages a) + length (release_pages a).

(** [TokenToKVPoolAllocator.alloc]. *)
Definition alloc (need_size : nat) (a : allocator) : option (list Z) * allocator :=
  let a := if need_sort a && (length (free_pages a) <? need_size)
           then merge_and_sort_free a else a in
  if length (free_pages a) <? need_size then (None, a)
  else (Some (take need_size (free_pages a)),
        with_pages (drop need_size (free_pages a)) (release_pages a) a).

(** [TokenToKVPoolAllocator.free]. *)
Definition free (free_index : list Z) (a : allocator) : res allocator :=
  match free_index with
  | [] => Ok a
  | _ =>
    Ok (if is_not_in_free_group a
        then if need_sort a
             then with_pages (free_pages a) (release_pages a ++ free_index) a
             else with_pages (free_pages a ++ free_index) (release_pages a) a
        else with_group false (free_group a ++ [free_index]) a)
  end.

(** The slots waiting in an open group. *)
Definition pending (a : allocator) : list Z :=
  if is_not_in_free_group a then [] else concat (free_group a).

(** Clients free what they hold, and free it once: pending slots are still
    counted as held. *)
Record Inv (a : allocator) (held : list Z) : Prop := {
  inv_owns : Owns a held;
  inv_pending : pending a ⊆+ held;
}.

(** The free and released slots of a backup, with what the clients held then. *)
#[local] Abbreviation saved := ((list Z * list Z) * list Z)%type.

(** What clients do, with the list of slots they hold and the backups they keep.
    After [restore_state] they are left with what they held at the backup, after
    [clear] with nothing. *)
Inductive step : allocator * list Z * list saved -> allocator * list Z * list saved -> Prop :=
| s_alloc a held bk k sel a' :
    alloc k a = (Some sel, a') -> step (a, held, bk) (a', sel ++ held, bk)
| s_alloc_fail a held bk k a' :
    alloc k a = (None, a') -> step (a, held, bk) (a', held, bk)
| s_free a held bk idx held' a' :
    is_not_in_free_group a = true -> held ≡ₚ idx ++ held' ->
    free idx a = Ok a' -> step (a, held, bk) (a', held', bk)
| s_free_later a held bk idx a' :
    is_not_in_free_group a = false -> pending a ++ idx ⊆+ held ->
    free idx a = Ok a' -> step (a, held, bk) (a', held, bk)
| s_group_begin a held bk :
    is_not_in_free_group a = true -> step (a, held, bk) (free_group_begin a, held, bk)
| s_group_end a held bk held' a' :
    is_not_in_free_group a = false -> held ≡ₚ pending a ++ held' ->
    free_group_end free a = Ok a' -> step (a, held, bk) (a', held', bk)
| s_merge a held bk : step (a, held, bk) (merge_and_sort_free a, held, bk)
| s_backup a held bk : step (a, held, bk) (a, held, (backup_state a, held) :: bk)
| s_restore a held bk st old :
    (st, old) ∈ bk -> pending a ⊆+ old -> step (a, held, bk) (restore_state st a, old, bk)
| s_clear a held bk : step (a, held, bk) (clear a, [], bk).

Lemma alloc_spec a held k :
  Owns a held ->
  match alloc k a with
  | (Some sel, a') => Owns a' (sel ++ held) /\ length sel = k /\ k <= available_size a
  | (None, a') => Owns a' held /\ available_size a < k
  end.
Proof.
  intros Ha. unfold alloc.
  destruct (merge_on_demand a held k k Ha (le_n k)) as (Ho & _ & Hk).
  set (b := if _ && _ then _ else _) in *. unfold available_size.
  destruct (Nat.ltb_spec (length (free_pages b)) k); [split; [done|lia]|].
  split; [by apply take_owns|]. rewrite length_take. lia.
Qed.

Lemma alloc_group a k :
  is_not_in_free_group (snd (alloc k a)) = is_not_in_free_group a /\
  free_group (snd (alloc k a)) = free_group a /\ num_pages (snd (alloc k a)) = num_pages a.
Proof.
  unfold alloc. set (b := if _ && _ then _ else _).
  assert (Hb : is_not_in_free_group b = is_not_in_free_group a /\ free_group b = free_group a
               /\ num_pages b = num_pages a).
  { subst b. destruct (_ && _); [|done]. unfold merge_and_sort_free. by destruct (0 <? _). }
  clearbody b. destruct (_ <? _); exact Hb.
Qed.

Lemma alloc_pending a k : pending (snd (alloc k a)) = pending a.
Proof. unfold pending. destruct (alloc_group a k) as (-> & -> & _). done. Qed.

(** Freeing outside a group. *)
Lemma free_spec a held idx held' a' :
  Owns a held -> is_not_in_free_group a = true -> held ≡ₚ idx ++ held' ->
  free idx a = Ok a' ->
  Owns a' held' /\ is_not_in_free_group a' = true /\ num_pages a' = num_pages a.
Proof.
  intros Ho Hg Hp. unfold free. rewrite Hg. destruct idx as [|i idx].
  - intros ?; simplify_eq. split; [by rewrite <- Hp|done].
  - destruct (need_sort a) eqn:Es; intros ?; simplify_eq/=; (split; [|done]).
    + apply (give_owns _ _ Ho (i :: idx)); [exact Hp| |congruence]. solve_Permutation.
    + apply (give_owns _ _ Ho (i :: idx)); [exact Hp| |apply Ho]. solve_Permutation.
Qed.

(** What every step keeps: the invariant, the configuration, and that a backup can
    be restored. *)
Record Good (a0 : allocator) (c : allocator * list Z * list saved) : Prop := {
  gd_inv : Inv (fst (fst c)) (snd (fst c));
  gd_config : same_config a0 (fst (fst c));
  gd_saved : forall st old, (st, old) ∈ snd c -> Owns (restore_state st a0) old;
}.

Lemma alloc_config a k : same_config a (snd (alloc k a)).
Proof.
  unfold alloc. set (b := if _ && _ then _ else _).
  assert (Hb : same_config a b) by (subst b; destruct (_ && _); [apply merge_config|done]).
  clearbody b. by destruct (_ <? _).
Qed.

Lemma free_config idx a a' : free idx a = Ok a' -> same_config a a'.
Proof.
  unfold free. destruct idx; [by intros [= <-]|]. destruct (is_not_in_free_group a), (need_sort a) eqn:E; intros [= <-]; by repeat split.
Qed.

Lemma merge_pending a : pending (merge_and_sort_free a) = pending a.
Proof. unfold merge_and_sort_free. by destruct (0 <? _). Qed.

(** A step that keeps the backups. *)
Lemma good_step a0 a held bk a' held' :
  Good a0 (a, held, bk) -> same_config a a' -> Inv a' held' -> Good a0 (a', held', bk).
Proof. intros [_ Hc Hs] Hc' Hi. split; [done| |done]. by etransitivity. Qed.

Lemma alloc_inv a held k : Inv a held ->
  match alloc k a with (Some sel, a') => Inv a' (sel ++ held) | (None, a') => Inv a' held end.
Proof.
  intros [Ho Hp]. pose proof (alloc_spec a held k Ho) as Hs. pose proof (alloc_pending a k) as Hq.
  destruct (alloc k a) as [[sel|] a']; simpl in Hq; (split; [apply Hs|rewrite Hq]); [|done].
  transitivity held; [done|]. by apply submseteq_inserts_l.
Qed.

Lemma group_end_inv a held held' a' : Owns a held -> is_not_in_free_group a = false ->
  held ≡ₚ pending a ++ held' -> free_group_end free a = Ok a' -> Inv a' held' /\ same_config a a'.
Proof.
  intros Ho Hg Hh E. unfold free_group_end in E. unfold pending in Hh. rewrite Hg in Hh. simpl in E.
  destruct (free_group a) as [|g gs] eqn:Eg.
  - simplify_eq/=. split; [|by repeat split]. split; [|apply submseteq_nil_l]. rewrite <- Hh. destruct Ho. by split.
  - destruct (free_spec (with_group true (g :: gs) a) held (concat (g :: gs)) held' a') as (Ho' & Hg' & _);
      [destruct Ho; by split|done|exact Hh|exact E|].
    split; [|by apply free_config in E]. split; [done|]. unfold pending. rewrite Hg'. apply submseteq_nil_l.
Qed.

Lemma step_good a0 c c' : step c c' -> Good a0 c -> Good a0 c'.
Proof.
  intros Hstep HG. pose proof HG as [[Ho Hp] Hc Hs].
  destruct Hstep as [a held bk k sel a' E|a held bk k a' E|a held bk idx held' a' Hg Hh E|a held bk idx a' Hg Hh E
    |a held bk Hg|a held bk held' a' Hg Hh E|a held bk|a held bk|a held bk st old Hin Hpe|a held bk]; simpl in *.
  - pose proof (alloc_inv a held k ltac:(by split)) as Hi. pose proof (alloc_config a k) as Hk. rewrite E in *. by eapply good_step.
  - pose proof (alloc_inv a held k ltac:(by split)) as Hi. pose proof (alloc_config a k) as Hk. rewrite E in *. by eapply good_step.
  - destruct (free_spec a held idx held' a' Ho Hg Hh E) as (Ho' & Hg' & _).
    eapply good_step; [done|by eapply free_config|]. split; [done|]. unfold pending. rewrite Hg'. apply submseteq_nil_l.
  - eapply good_step; [done|by eapply free_config|]. unfold free in E. rewrite Hg in E.
    destruct idx as [|i idx]; simplify_eq/=; [by split|]. split; [destruct Ho; by split|]. unfold pending in *. simpl.
    rewrite Hg in Hh. rewrite concat_app. simpl. by rewrite app_nil_r.
  - eapply good_step; [done|by repeat split|]. split; [destruct Ho; by split|]. apply submseteq_nil_l.
  - destruct (group_end_inv a held held' a' Ho Hg Hh E) as [Hi Hk]. by eapply good_step.
  - eapply good_step; [done|apply merge_config|]. split; [by apply merge_owns|]. by rewrite merge_pending.
  - split; [by split|done|]. simpl. intros st old [[= -> ->]|Hin]%elem_of_cons; [|by apply Hs].
    apply (restore_owns a0 a); [done|]. destruct Ho. by split.
  - eapply good_step; [done|by repeat split|]. split; [apply (restore_owns a0 a); [done|by apply Hs]|done].
  - eapply good_step; [done|by repeat split|]. split; [apply clear_owns|apply submseteq_nil_l].
Qed.

Lemma reachable_good sz sort c : rtc step (init sz sort, [], []) c -> Good (init sz sort) c.
Proof.
  assert (H0 : Good (init sz sort) (init sz sort, [], [])).
  { split; [split; [apply clear_owns|done]|done|]. intros st old Hin. by apply not_elem_of_nil in Hin. }
  intros Hr. revert H0. generalize (init sz sort) at 1 3 as a0. intros a0.
  induction Hr as [|c0 c1 c2 Hs _ IH]; [done|]. intros H0. apply IH. by eapply step_good.
Qed.

(** C7. Whatever sequence of [alloc], [free], grouped frees, [merge_and_sort_free],
    [backup_state], [restore_state] and [clear] clients run on a fresh
    [TokenToKVPoolAllocator], as long as they free only what they hold and, after a
    restore or a clear, count only what they held at the backup, or nothing: the held
    slots are pairwise distinct, lie in [1 .. size] (slot [0] is never handed out), and
    held and available slots add up to [size]. *)
Theorem token_slots_unique sz sort a held bk :
  rtc step (init sz sort, [], []) (a, held, bk) ->
  NoDup held /\ (forall x, x ∈ held -> (1 <= x <= Z.of_nat sz)%Z) /\
  available_size a + length held = sz.
Proof.
  intros Hr. destruct (reachable_good _ _ _ Hr) as [[Ho _] (_ & _ & Hn & _) _]. simpl in *.
  split; [by eapply held_NoDup|]. split.
  - intros x Hx. rewrite <- Hn. by eapply held_range.
  - rewrite <- Hn. apply (owns_count _ _ Ho).
Qed.

(** In every reachable state [alloc] fails only when fewer than the
    requested slots are available, counting the ones waiting on the release
    list, and otherwise returns exactly as many slots as requested, none of
    them held by anybody. *)
Lemma token_alloc_complete sz sort a held bk k :
  rtc step (init sz sort, [], []) (a, held, bk) ->
  match fst (alloc k a) with
  | None => available_size a < k
  | Some sel => k <= available_size a /\ length sel = k /\ forall x, x ∈ sel -> x ∉ held
  end.
Proof.
  intros Hr. destruct (reachable_good _ _ _ Hr) as [[Ho _] _ _]. simpl in *.
  pose proof (alloc_spec a held k Ho) as Hs. destruct (alloc k a) as [[sel|] a']; simpl in *.
  - destruct Hs as (Ho' & Hl & Hk). split; [done|]. split; [done|].
    intros x Hx Hh. pose proof (held_NoDup _ _ Ho') as Hnd.
    apply NoDup_app in Hnd as (_ & Hd & _). by apply (Hd x).
  - apply Hs.
Qed.

(** A run: an allocation, a grouped free, a backup, an allocation that needs the
    released slots, and the restore that undoes it. *)
Definition demo0 := init 4 true.
Definition demo1 := snd (alloc 3 demo0).
Definition demo2 := free_group_begin demo1.
Definition demo3 := match free [1; 3]%Z demo2 with Ok a => a | Raise _ => demo2 end.
Definition demo4 := match free_group_end free demo3 with Ok a => a | Raise _ => demo3 end.
Definition demo5 := snd (alloc 3 demo4).
Definition demo6 := restore_state (backup_state demo4) demo5.

Lemma demo_reachable : rtc step (demo0, [], []) (demo6, [2]%Z, [(backup_state demo4, [2]%Z)]).
Proof.
  eapply rtc_l; [apply (s_alloc _ _ _ 3); vm_compute; reflexivity|].
  eapply rtc_l; [apply s_group_begin; reflexivity|].
  eapply rtc_l; [apply (s_free_later _ _ _ [1; 3]%Z demo3); [reflexivity| |reflexivity]|].
  { vm_compute. constructor. apply submseteq_cons. constructor. constructor. }
  eapply rtc_l; [apply (s_group_end _ _ _ [2]%Z demo4); [reflexivity| |reflexivity]|].
  { vm_compute. constructor. constructor. }
  eapply rtc_l; [apply s_backup|].
  eapply rtc_l; [apply (s_alloc _ _ _ 3); vm_compute; reflexivity|].
  eapply rtc_l; [apply (s_restore demo5 _ _ (backup_state demo4) [2]%Z); [left|apply submseteq_nil_l]|apply rtc_refl].
Qed.

Lemma token_slots_unique_witness :
  NoDup [2]%Z /\ (forall x, x ∈ [2]%Z -> (1 <= x <= Z.of_nat 4)%Z) /\
  available_size demo6 + length [2]%Z = 4.
Proof. apply (token_slots_unique 4 true demo6 [2]%Z [(backup_state demo4, [2]%Z)]). exact demo_reachable. Defined.

End Token.
