(* ===== verification/AllocKernels.v ===== *)
(** The slot-assignment kernels of [srt/mem_cache/allocator.py]: the Triton
    kernels [alloc_extend_kernel] and [alloc_decode_kernel] and the Python
    reference [alloc_extend_naive].

    A kernel launch is a list of program instances that update the output
    buffer in an arbitrary order.  Both the kernel and the naive routine are
    shown equal to [extend_spec], which says position by position where the new
    tokens of every request go. *)
From stdpp Require Import base list sorting relations.
From Stdlib Require Import ZArith Lia.
From S2P Require Import Prelude.
Local Open Scope nat_scope.

(** * Prefix sums and disjoint writes *)

Section Prefix.

Fixpoint prefix (f : nat -> nat) (i : nat) : nat :=
  match i with 0 => 0 | S i => prefix f i + f i end.

Lemma prefix_mono f i j : i <= j -> prefix f i <= prefix f j.
Proof. induction 1; simpl; lia. Qed.

Lemma prefix_unique f i j t :
  prefix f i <= t < prefix f i + f i -> prefix f j <= t < prefix f j + f j -> i = j.
Proof.
  intros Hi Hj. destruct (Nat.lt_trichotomy i j) as [H|[H|H]]; [|done|].
  - pose proof (prefix_mono f (S i) j H). simpl in *. lia.
  - pose proof (prefix_mono f (S j) i H). simpl in *. lia.
Qed.

Lemma prefix_find f n t : t < prefix f n -> exists i, i < n /\ prefix f i <= t < prefix f i + f i.
Proof.
  induction n as [|n IH]; simpl; [lia|]. intros Ht.
  destruct (decide (t < prefix f n)) as [H|H].
  - destruct (IH H) as (i & ? & ?). exists i. lia.
  - exists n. lia.
Qed.

(** Concatenation of one list per index, position by position. *)
Lemma length_concat_seq {A} (g : nat -> list A) n :
  length (concat (map g (seq 0 n))) = prefix (fun i => length (g i)) n.
Proof.
  induction n as [|n IH]; [done|]. rewrite seq_S, map_app, concat_app, length_app, IH. simpl.
  by rewrite app_nil_r.
Qed.

Lemma lookup_concat_seq {A} (g : nat -> list A) n i k :
  i < n -> k < length (g i) ->
  concat (map g (seq 0 n)) !! (prefix (fun i => length (g i)) i + k) = g i !! k.
Proof.
  induction n as [|n IH]; intros Hi Hk; [lia|].
  rewrite seq_S, map_app, concat_app. simpl. rewrite app_nil_r.
  destruct (decide (i = n)) as [->|Hne].
  - rewrite lookup_app_r; rewrite length_concat_seq; [|lia]. f_equal. lia.
  - rewrite lookup_app_l; [apply IH; lia|]. rewrite length_concat_seq.
    pose proof (prefix_mono (fun i => length (g i)) (S i) n ltac:(lia)). simpl in *. lia.
Qed.

(** Programs that each write one range of a buffer, the range of program [i]
    starting at the prefix sum of the lengths. *)
Context {A : Type} (prog : nat -> list A -> list A) (len : nat -> nat) (val : nat -> nat -> A).
Context (n L : nat).
Hypothesis prog_writes : forall i out t, i < n -> length out = L ->
  length (prog i out) = L /\
  prog i out !! t = if (prefix len i <=? t) && (t <? prefix len i + len i)
                    then Some (val i (t - prefix len i)) else out !! t.

Lemma in_range i t :
  (prefix len i <=? t) && (t <? prefix len i + len i) = true <->
  prefix len i <= t < prefix len i + len i.
Proof. rewrite andb_true_iff, Nat.leb_le, Nat.ltb_lt. done. Qed.

Lemma run_programs_keep order out t :
  (forall j, j ∈ order -> j < n) -> length out = L ->
  (forall j, j ∈ order -> ~ (prefix len j <= t < prefix len j + len j)) ->
  length (fold_left (fun out i => prog i out) order out) = L /\
  fold_left (fun out i => prog i out) order out !! t = out !! t.
Proof.
  revert out. induction order as [|j order IH]; intros out Hb Hl Hn; [done|]. simpl.
  destruct (prog_writes j out t (Hb j ltac:(left)) Hl) as [Hl' Hw].
  destruct (IH (prog j out)) as [H1 H2]; [intros; apply Hb; by right|done|intros; apply Hn; by right|].
  split; [done|]. rewrite H2, Hw.
  destruct (_ && _) eqn:E; [|done]. apply in_range in E. by destruct (Hn j ltac:(left)).
Qed.

Lemma run_programs_write order out i t :
  (forall j, j ∈ order -> j < n) -> length out = L ->
  i ∈ order -> prefix len i <= t < prefix len i + len i ->
  fold_left (fun out i => prog i out) order out !! t = Some (val i (t - prefix len i)).
Proof.
  revert out. induction order as [|j order IH]; intros out Hb Hl Hi Ht; simpl.
  { by apply not_elem_of_nil in Hi. }
  destruct (prog_writes j out t (Hb j ltac:(left)) Hl) as [Hl' Hw].
  destruct (decide (i ∈ order)) as [Hin|Hin].
  - apply IH; [intros; apply Hb; by right|done|done|done].
  - apply elem_of_cons in Hi as [->|Hi]; [|done].
    edestruct (run_programs_keep order (prog j out) t) as [_ ->];
      [intros; apply Hb; by right|done| |].
    + intros k Hk Hr. destruct (prefix_unique len j k t Ht Hr). done.
    + rewrite Hw. apply in_range in Ht. by rewrite Ht.
Qed.

(** Whatever the order in which the programs run, the buffer ends up as the
    concatenation of their ranges. *)
Lemma run_programs_concat order out :
  order ≡ₚ seq 0 n -> length out = L -> L = prefix len n ->
  fold_left (fun out i => prog i out) order out
  = concat (map (fun i => map (val i) (seq 0 (len i))) (seq 0 n)).
Proof.
  intros Ho Hl HL. assert (Hb : forall j, j ∈ order -> j < n).
  { intros j. rewrite Ho, elem_of_seq. lia. }
  set (g := fun i => map (val i) (seq 0 (len i))).
  assert (Hg : forall i, length (g i) = len i) by (intros; unfold g; by rewrite length_map, length_seq).
  assert (Hpg : forall i, prefix (fun i => length (g i)) i = prefix len i).
  { induction i; simpl; rewrite ?Hg; lia. }
  apply list_eq. intros t. destruct (decide (t < prefix len n)) as [Ht|Ht].
  - destruct (prefix_find len n t Ht) as (i & Hi & Hr).
    rewrite (run_programs_write order out i t Hb Hl); [|rewrite Ho, elem_of_seq; lia|done].
    replace t with (prefix (fun i => length (g i)) i + (t - prefix len i)) at 2
      by (rewrite Hpg; lia).
    rewrite lookup_concat_seq by (rewrite ?Hg; lia).
    unfold g. rewrite list_lookup_fmap, lookup_seq_lt by lia. done.
  - rewrite !lookup_ge_None_2; [done| |].
    + rewrite length_concat_seq, Hpg. lia.
    + rewrite (proj1 (run_programs_keep order out t Hb Hl ltac:(intros j Hj Hr;
        pose proof (prefix_mono len (S j) n (Hb j Hj)); simpl in *; lia))). lia.
Qed.

End Prefix.

(** * The kernels *)

Module Kernel.

(** [tl.store(out + addr, val, mask)] over a range of lanes. *)
Definition tl_store (lanes : list nat) (addr : nat -> nat) (val : nat -> Z)
    (mask : nat -> bool) (out : list Z) : list Z :=
  fold_left (fun out o => if mask o then <[addr o := val o]> out else out) lanes out.

Definition BLOCK_EXTEND : nat := 4096.

(** [next_power_of_2]. *)
Definition next_power_of_2 (n : nat) : nat := 2 ^ Nat.log2_up n.

Section Kernels.
Variable page_size : nat.
(** What a load past the end of the free list returns. *)
Variable oob : nat -> Z.
(** The lanes a masked load leaves out: Triton leaves them undefined without
    [other=].  The kernels rely on finding the same values in the two loads they
    subtract. *)
Variable masked : nat -> nat.

#[local] Abbreviation ps := page_size.

Definition tl_load (mem : list Z) (i : nat) : Z :=
  match mem !! i with Some v => v | None => oob i end.

(** [tl.load(ptr + arange(0, bs_upper), mask=arange <= pid)]. *)
Definition lanes_upto (bs_upper pid : nat) (lens : list nat) : list nat :=
  map (fun o => if o <=? pid then nth o lens 0 else masked o) (seq 0 bs_upper).

(** One program instance of [alloc_extend_kernel]. *)
Definition alloc_extend_kernel (prefix_lens seq_lens : list nat)
    (last_loc free_pages : list Z) (bs_upper : nat) (pid : nat) (out : list Z) : list Z :=
  let seqs := lanes_upto bs_upper pid seq_lens in
  let pres := lanes_upto bs_upper pid prefix_lens in
  let extend_lens := zip_with Nat.sub seqs pres in
  let seq_len := nth pid seq_lens 0 in
  let pre_len := nth pid prefix_lens 0 in
  let extend_len := seq_len - pre_len in
  let output_start_loc := sum_list extend_lens - extend_len in
  let num_new_pages := zip_with (fun s p => cdiv s ps - cdiv p ps) seqs pres in
  let num_page_start_loc_self := cdiv seq_len ps - cdiv pre_len ps in
  let new_page_start_loc := sum_list num_new_pages - num_page_start_loc_self in
  let ll := nth pid last_loc 0%Z in
  let num_part1 := Nat.min seq_len (cdiv pre_len ps * ps) - pre_len in
  let out := tl_store (seq 0 ps) (fun o => output_start_loc + o)
               (fun o => (ll + 1 + Z.of_nat o)%Z) (fun o => o <? num_part1) out in
  if pre_len + num_part1 =? seq_len then out
  else
    let num_part2 := seq_len / ps * ps - cdiv pre_len ps * ps in
    let num_blocks := cdiv num_part2 BLOCK_EXTEND in
    let out := fold_left (fun out block_id =>
        tl_store (map (fun o => block_id * BLOCK_EXTEND + o) (seq 0 BLOCK_EXTEND))
          (fun offset => output_start_loc + num_part1 + offset)
          (fun offset => (tl_load free_pages (new_page_start_loc + offset / ps) * Z.of_nat ps
                          + Z.of_nat (offset mod ps))%Z)
          (fun offset => offset <? num_part2) out) (seq 0 num_blocks) out in
    if pre_len + num_part1 + num_part2 =? seq_len then out
    else
      let num_part3 := seq_len - seq_len / ps * ps in
      let start_loc := tl_load free_pages (new_page_start_loc + num_page_start_loc_self - 1) in
      tl_store (seq 0 ps) (fun o => output_start_loc + num_part1 + num_part2 + o)
        (fun o => (start_loc * Z.of_nat ps + Z.of_nat o)%Z) (fun o => o <? num_part3) out.

(** One program instance of [alloc_decode_kernel]. *)
Definition alloc_decode_kernel (seq_lens : list nat) (last_loc free_pages : list Z)
    (bs_upper : nat) (pid : nat) (out : list Z) : list Z :=
  let seqs := lanes_upto bs_upper pid seq_lens in
  let pres := zip_with (fun o s => if o <=? pid then s - 1 else s) (seq 0 bs_upper) seqs in
  let seq_len := nth pid seq_lens 0 in
  let pre_len := seq_len - 1 in
  let num_new_pages := zip_with (fun s p => cdiv s ps - cdiv p ps) seqs pres in
  let num_page_start_loc_self := cdiv seq_len ps - cdiv pre_len ps in
  let new_page_start_loc := sum_list num_new_pages - num_page_start_loc_self in
  if num_page_start_loc_self =? 0
  then <[pid := (nth pid last_loc 0 + 1)%Z]> out
  else <[pid := (tl_load free_pages new_page_start_loc * Z.of_nat ps)%Z]> out.

(** A launch over a grid: the program instances in some order. *)
Definition launch (prog : nat -> list Z -> list Z) (order : list nat) (out : list Z) : list Z :=
  fold_left (fun out pid => prog pid out) order out.

(** ** The reference routine *)

(** [torch.cumsum(l, 0)[i]]. *)
Definition cumsum (l : list nat) (i : nat) : nat := sum_list (take (S i) l).

(** [buf[a:a+len(v)] = v] where the code sizes the slice as [n]. *)
Definition assign_slice (a n : nat) (v : list Z) (out : list Z) : res (list Z) :=
  if length v =? n then Ok (py_splice a v out) else Raise RuntimeError.

Local Open Scope py_scope.

(** The body of the loop of [alloc_extend_naive].  [num_full_new_pages] can be
    negative, so it and [need_page] are integers. *)
Definition naive_body (prefix_lens seq_lens : list nat) (last_loc free_pages : list Z)
    (i : nat) (out : list Z) : res (list Z) :=
  let extend_lens := zip_with Nat.sub seq_lens prefix_lens in
  let num_new := zip_with (fun s p => cdiv s ps - cdiv p ps) seq_lens prefix_lens in
  let sl := nth i seq_lens 0 in
  let pl := nth i prefix_lens 0 in
  let end_pos := cumsum extend_lens i in
  let start_pos := end_pos - nth i extend_lens 0 in
  let num_full_new_pages := (Z.of_nat (sl / ps) - Z.of_nat (cdiv pl ps))%Z in
  let need_page := (Z.of_nat (nth i num_new 0%nat) - num_full_new_pages)%Z in
  let end_new_pages := cumsum num_new i in
  let start_new_pages := end_new_pages - nth i num_new 0 in
  let num1 := Nat.min sl (cdiv pl ps * ps) - pl in
  let! out :=
    (if num1 =? 0 then Ok out
     else assign_slice start_pos num1
            (map (fun o => (nth i last_loc 0 + 1 + Z.of_nat o)%Z) (take num1 (seq 0 ps))) out) in
  if pl + num1 =? sl then Ok out
  else
    let num2 := (sl / ps - cdiv pl ps) * ps in
    let! out :=
      (if num2 =? 0 then Ok out
       else
         let pages := map (fun p => (p * Z.of_nat ps)%Z)
           (py_slice start_new_pages (Z.to_nat (Z.of_nat end_new_pages - need_page)) free_pages) in
         assign_slice (start_pos + num1) num2
           (concat (map (fun p => map (fun o => (p + Z.of_nat o)%Z) (seq 0 ps)) pages)) out) in
    if pl + num1 + num2 =? sl then Ok out
    else
      let num3 := sl - sl / ps * ps in
      if num3 =? 0 then Ok out
      else
        match free_pages !! (end_new_pages - 1) with
        | None => Raise IndexError
        | Some p =>
          assign_slice (end_pos - num3) num3
            (map (fun o => (p * Z.of_nat ps + Z.of_nat o)%Z) (take num3 (seq 0 ps))) out
        end.

(** [alloc_extend_naive]. *)
Definition alloc_extend_naive (prefix_lens seq_lens : list nat)
    (last_loc free_pages out_indices : list Z) : res (list Z) :=
  fold_left (fun acc i => let! out := acc in
               naive_body prefix_lens seq_lens last_loc free_pages i out)
    (seq 0 (length prefix_lens)) (Ok out_indices).

End Kernels.

(** ** Where the new tokens go *)

Section Spec.
Variable page_size : nat.
Variable oob : nat -> Z.
#[local] Abbreviation ps := page_size.

(** The slot of token [t] of a request with prefix [pre], whose last slot is
    [ll] and whose new pages start at [pg] in the free list: the rest of the
    last partial page first, then the new pages in order. *)
Definition loc_of (pre : nat) (ll : Z) (free_pages : list Z) (pg : nat) (t : nat) : Z :=
  if t <? cdiv pre ps * ps then (ll + 1 + Z.of_nat (t - pre))%Z
  else (tl_load oob free_pages (pg + (t / ps - cdiv pre ps)) * Z.of_nat ps
        + Z.of_nat (t mod ps))%Z.

(** Number of new tokens and of new pages of request [i]. *)
Definition ext_of (prefix_lens seq_lens : list nat) (i : nat) : nat :=
  nth i seq_lens 0 - nth i prefix_lens 0.

Definition new_of (prefix_lens seq_lens : list nat) (i : nat) : nat :=
  cdiv (nth i seq_lens 0) ps - cdiv (nth i prefix_lens 0) ps.

Definition extend_spec (prefix_lens seq_lens : list nat) (last_loc free_pages : list Z)
    : list Z :=
  concat (map (fun i =>
    map (fun k => loc_of (nth i prefix_lens 0) (nth i last_loc 0%Z) free_pages
                    (prefix (new_of prefix_lens seq_lens) i) (nth i prefix_lens 0 + k))
        (seq 0 (ext_of prefix_lens seq_lens i)))
    (seq 0 (length prefix_lens))).

(** The slots handed out to request [i] by a decode step. *)
Definition decode_spec (seq_lens : list nat) (last_loc free_pages : list Z) : list Z :=
  map (fun i =>
    let new := new_of (map pred seq_lens) seq_lens in
    if new i =? 0 then (nth i last_loc 0 + 1)%Z
    else (tl_load oob free_pages (prefix new i) * Z.of_nat ps)%Z)
    (seq 0 (length seq_lens)).

End Spec.

(** ** Stores *)

Section Stores.

Lemma length_tl_store lanes addr val mask out :
  length (tl_store lanes addr val mask out) = length out.
Proof.
  unfold tl_store. revert out. induction lanes as [|o lanes IH]; intros out; [done|]. simpl.
  rewrite IH. destruct (mask o); [apply length_insert|done].
Qed.

(** Stores to consecutive addresses [base + lo .. base + lo + n - 1]. *)
Lemma lookup_tl_store lo n base val mask out t :
  tl_store (map (fun o => lo + o) (seq 0 n)) (fun o => base + o) val mask out !! t =
  if (base + lo <=? t) && (t <? base + lo + n) && mask (t - base) && (t <? length out)
  then Some (val (t - base)) else out !! t.
Proof.
  unfold tl_store. revert out. induction n as [|n IH]; intros out.
  - simpl. destruct (Nat.leb_spec (base + lo) t), (Nat.ltb_spec t (base + lo + 0)); (done || lia).
  - rewrite seq_S, map_app, fold_left_app. cbn [map fold_left plus].
    pose proof (length_tl_store (map (fun o => lo + o) (seq 0 n)) (fun o => base + o) val mask out)
      as Hl. unfold tl_store in Hl.
    destruct (decide (t = base + (lo + n))) as [->|Hne].
    + replace (base + (lo + n) - base) with (lo + n) by lia.
      destruct (Nat.leb_spec (base + lo) (base + (lo + n))); [|lia].
      destruct (Nat.ltb_spec (base + (lo + n)) (base + lo + S n)); [|lia]. simpl.
      destruct (mask (lo + n)) eqn:Em.
      * destruct (Nat.ltb_spec (base + (lo + n)) (length out)).
        -- apply list_lookup_insert_eq. lia.
        -- rewrite !lookup_ge_None_2; [done|lia|rewrite length_insert; lia].
      * rewrite IH. destruct (Nat.ltb_spec (base + (lo + n)) (base + lo + n)); [lia|].
        rewrite andb_false_r. done.
    + assert (Hins : forall v, (if mask (lo + n) then <[base + (lo + n) := v]>
          (fold_left (fun out o => if mask o then <[base + o := val o]> out else out)
             (map (fun o => lo + o) (seq 0 n)) out)
          else fold_left (fun out o => if mask o then <[base + o := val o]> out else out)
             (map (fun o => lo + o) (seq 0 n)) out) !! t
        = fold_left (fun out o => if mask o then <[base + o := val o]> out else out)
             (map (fun o => lo + o) (seq 0 n)) out !! t).
      { intros v. destruct (mask (lo + n)); [by rewrite list_lookup_insert_ne|reflexivity]. }
      rewrite Hins, IH.
      replace (t <? base + lo + S n) with (t <? base + lo + n); [done|].
      destruct (Nat.ltb_spec t (base + lo + n)), (Nat.ltb_spec t (base + lo + S n)); (done || lia).
Qed.

(** A store of one page of lanes of which the first [k] are live. *)
Lemma lookup_tl_store_page n k base val out t :
  k <= n -> base + k <= length out ->
  tl_store (seq 0 n) (fun o => base + o) val (fun o => o <? k) out !! t =
  if (base <=? t) && (t <? base + k) then Some (val (t - base)) else out !! t.
Proof.
  intros Hk Hl. pose proof (lookup_tl_store 0 n base val (fun o => o <? k) out t) as E.
  rewrite map_id in E. rewrite E. rewrite Nat.add_0_r.
  destruct (Nat.leb_spec base t), (Nat.ltb_spec t (base + n)), (Nat.ltb_spec (t - base) k),
    (Nat.ltb_spec t (length out)), (Nat.ltb_spec t (base + k)); simpl; (done || lia).
Qed.

(** The blocked loop writes the same range as one store of [k] lanes. *)
Lemma lookup_blocked_store B m k base val out t :
  0 < B -> k <= m * B -> base + k <= length out ->
  fold_left (fun out b => tl_store (map (fun o => b * B + o) (seq 0 B)) (fun o => base + o)
                            val (fun o => o <? k) out) (seq 0 m) out !! t =
  if (base <=? t) && (t <? base + k) then Some (val (t - base)) else out !! t.
Proof.
  intros HB Hk Hl.
  assert (Hstep : forall m,
    length (fold_left (fun out b => tl_store (map (fun o => b * B + o) (seq 0 B))
              (fun o => base + o) val (fun o => o <? k) out) (seq 0 m) out) = length out /\
    fold_left (fun out b => tl_store (map (fun o => b * B + o) (seq 0 B)) (fun o => base + o)
                            val (fun o => o <? k) out) (seq 0 m) out !! t =
    if (base <=? t) && (t <? base + Nat.min k (m * B)) then Some (val (t - base)) else out !! t).
  { clear Hk m. induction m as [|m [IHl IH]].
    - split; [done|]. cbn [seq fold_left]. rewrite Nat.mul_0_l, Nat.min_0_r, Nat.add_0_r.
      destruct (Nat.leb_spec base t), (Nat.ltb_spec t base); (done || lia).
    - rewrite seq_S, fold_left_app. cbn [fold_left plus].
      split; [by rewrite length_tl_store|].
      rewrite lookup_tl_store, IH, IHl.
      destruct (Nat.leb_spec (base + m * B) t), (Nat.ltb_spec t (base + m * B + B)),
        (Nat.ltb_spec (t - base) k), (Nat.ltb_spec t (length out)), (Nat.leb_spec base t),
        (Nat.ltb_spec t (base + Nat.min k (m * B))), (Nat.ltb_spec t (base + Nat.min k (S m * B)));
        simpl; (done || nia). }
  rewrite (proj2 (Hstep m)). by rewrite Nat.min_l.
Qed.

Lemma length_blocked_store B l base val mask out :
  length (fold_left (fun out b => tl_store (map (fun o => b * B + o) (seq 0 B))
            (fun o => base + o) val mask out) l out) = length out.
Proof.
  revert out. induction l as [|b l IH]; intros out; [done|]. simpl.
  by rewrite IH, length_tl_store.
Qed.

End Stores.

(** ** Range writes *)

Section Writes.
Context {A : Type}.

(** [out'] is [out] with position [t] of the range [a .. b - 1] set to [f t]. *)
Definition writes (out out' : list A) (a b : nat) (f : nat -> A) : Prop :=
  length out' = length out /\
  forall t, out' !! t = if (a <=? t) && (t <? b) then Some (f t) else out !! t.

Lemma writes_nil out a b f : b <= a -> writes out out a b f.
Proof.
  intros Hab. split; [done|]. intros t.
  destruct (Nat.leb_spec a t), (Nat.ltb_spec t b); (done || lia).
Qed.

Lemma writes_app out out1 out2 a b c f :
  a <= b <= c -> writes out out1 a b f -> writes out1 out2 b c f -> writes out out2 a c f.
Proof.
  intros Hab [Hl1 H1] [Hl2 H2]. split; [by rewrite Hl2|]. intros t. rewrite H2, H1.
  destruct (Nat.leb_spec a t), (Nat.ltb_spec t b), (Nat.leb_spec b t), (Nat.ltb_spec t c);
    simpl; (done || lia).
Qed.

Lemma writes_splice a (v out : list A) b f :
  b = a + length v -> b <= length out -> (forall o, o < length v -> v !! o = Some (f (a + o))) ->
  writes out (py_splice a v out) a b f.
Proof.
  intros -> Hb Hv. split; [by apply length_py_splice|]. intros t.
  destruct (Nat.leb_spec a t); [destruct (Nat.ltb_spec t (a + length v))|]; simpl.
  - rewrite lookup_py_splice_in, Hv by lia. do 2 f_equal. lia.
  - apply lookup_py_splice_out; lia.
  - apply lookup_py_splice_out; lia.
Qed.

End Writes.

Lemma writes_page n k base val out b f :
  k <= n -> b = base + k -> b <= length out -> (forall o, o < k -> val o = f (base + o)) ->
  writes out (tl_store (seq 0 n) (fun o => base + o) val (fun o => o <? k) out) base b f.
Proof.
  intros Hk -> Hl Hv. split; [apply length_tl_store|]. intros t.
  rewrite lookup_tl_store_page by done.
  destruct (Nat.leb_spec base t), (Nat.ltb_spec t (base + k)); simpl; try done.
  rewrite Hv by lia. do 2 f_equal. lia.
Qed.

Lemma writes_blocked B m k base val out b f :
  0 < B -> k <= m * B -> b = base + k -> b <= length out ->
  (forall o, o < k -> val o = f (base + o)) ->
  writes out (fold_left (fun out b => tl_store (map (fun o => b * B + o) (seq 0 B))
                (fun o => base + o) val (fun o => o <? k) out) (seq 0 m) out) base b f.
Proof.
  intros HB Hk -> Hl Hv. split; [apply length_blocked_store|]. intros t.
  rewrite lookup_blocked_store by done.
  destruct (Nat.leb_spec base t), (Nat.ltb_spec t (base + k)); simpl; try done.
  rewrite Hv by lia. do 2 f_equal. lia.
Qed.

(** ** Prefix sums over lanes *)

Section Lanes.

Lemma sum_take_zip (f : nat -> nat -> nat) (a b : list nat) k :
  length a = length b -> k <= length a ->
  sum_list (take k (zip_with f a b)) = prefix (fun i => f (nth i a 0) (nth i b 0)) k.
Proof.
  intros Hl. induction k as [|k IH]; intros Hk; [done|].
  destruct (lookup_lt_is_Some_2 a k ltac:(lia)) as [x Hx].
  destruct (lookup_lt_is_Some_2 b k ltac:(lia)) as [y Hy].
  rewrite (take_S_r _ k (f x y)) by (by rewrite lookup_zip_with, Hx, Hy).
  rewrite sum_list_with_app, IH by lia. simpl.
  rewrite (nth_lookup_Some a k 0 x Hx), (nth_lookup_Some b k 0 y Hy). lia.
Qed.

Lemma lanes_upto_eq masked bs_upper pid lens :
  pid < length lens -> length lens <= bs_upper ->
  lanes_upto masked bs_upper pid lens
  = take (S pid) lens ++ map masked (seq (S pid) (bs_upper - S pid)).
Proof.
  intros Hp Hb. apply list_eq. intros t. unfold lanes_upto. rewrite list_lookup_fmap.
  destruct (decide (t < bs_upper)) as [Ht|Ht].
  - rewrite lookup_seq_lt by done. simpl. destruct (Nat.leb_spec t pid) as [Htp|Htp].
    + rewrite lookup_app_l by (rewrite length_take; lia). rewrite lookup_take_lt by lia.
      destruct (lookup_lt_is_Some_2 lens t ltac:(lia)) as [x Hx].
      by rewrite (nth_lookup_Some lens t 0 x Hx), Hx.
    + rewrite lookup_app_r by (rewrite length_take; lia).
      rewrite list_lookup_fmap, lookup_seq_lt by (rewrite length_take; lia). simpl. do 2 f_equal. rewrite length_take. lia.
  - rewrite lookup_seq_ge by lia. simpl. symmetry. apply lookup_ge_None.
    rewrite length_app, length_take, length_map, length_seq. lia.
Qed.

(** Lanes past the program's own index contribute nothing. *)
Lemma sum_lanes (f : nat -> nat -> nat) masked bs_upper pid (a b : list nat) :
  (forall x, f x x = 0) -> length a = length b -> pid < length a -> length a <= bs_upper ->
  sum_list (zip_with f (lanes_upto masked bs_upper pid a) (lanes_upto masked bs_upper pid b))
  = prefix (fun i => f (nth i a 0) (nth i b 0)) (S pid).
Proof.
  intros Hf Hl Hp Hb. rewrite !lanes_upto_eq by lia.
  rewrite zip_with_app by (rewrite !length_take; lia).
  rewrite sum_list_with_app, <- zip_with_take, sum_take_zip by lia.
  generalize (bs_upper - S pid). intros m. enough (E : forall k, sum_list (zip_with f (map masked (seq k m)) (map masked (seq k m))) = 0)
    by (rewrite E; lia).
  induction m as [|m IH]; intros k; [done|]. simpl. rewrite Hf. apply IH.
Qed.

Lemma cdiv_full ps s : 0 < ps -> cdiv s ps = s / ps + (if s mod ps =? 0 then 0 else 1).
Proof.
  intros Hp. unfold cdiv. pose proof (Nat.div_mod_eq s ps) as E.
  pose proof (Nat.mod_upper_bound s ps ltac:(lia)).
  destruct (Nat.eqb_spec (s mod ps) 0) as [E0|E0]; symmetry.
  - apply (Nat.div_unique _ _ _ (ps - 1)); nia.
  - apply (Nat.div_unique _ _ _ (s mod ps - 1)); nia.
Qed.

Lemma cdiv_mono ps a b : a <= b -> cdiv a ps <= cdiv b ps.
Proof. intros. unfold cdiv. apply Nat.Div0.div_le_mono. lia. Qed.

(** What the three parts of an extension are, when the prefix page overflows. *)
Lemma parts_overflow ps pre s :
  0 < ps -> pre <= s -> pre + (Nat.min s (cdiv pre ps * ps) - pre) <> s ->
  Nat.min s (cdiv pre ps * ps) - pre = cdiv pre ps * ps - pre /\ pre <= cdiv pre ps * ps /\
  cdiv pre ps <= s / ps /\ cdiv pre ps * ps < s /\ s / ps * ps <= s.
Proof.
  intros Hp Hle Hne. pose proof (cdiv_mul_ge pre ps Hp).
  assert (cdiv pre ps * ps < s) by lia.
  repeat split; [lia|lia| |lia|pose proof (Nat.Div0.mul_div_le s ps); lia].
  apply Nat.div_le_lower_bound; lia.
Qed.

End Lanes.

(** ** The kernel and the reference write what the specification says *)

Section ExtendFacts.
Variable page_size : nat.
Variable oob : nat -> Z.
Variable masked : nat -> nat.
#[local] Abbreviation ps := page_size.
Variables (prefix_lens seq_lens : list nat) (last_loc free_pages : list Z).
#[local] Abbreviation n := (length prefix_lens).
#[local] Abbreviation pre i := (nth i prefix_lens 0).
#[local] Abbreviation sq i := (nth i seq_lens 0).
#[local] Abbreviation ext := (ext_of prefix_lens seq_lens).
#[local] Abbreviation new := (new_of page_size prefix_lens seq_lens).

Hypothesis ps_pos : 0 < ps.
Hypothesis lens_len : length seq_lens = n.
Hypothesis lens_le : forall i, i < n -> pre i <= sq i.

Definition token_loc (i k : nat) : Z :=
  loc_of page_size oob (pre i) (nth i last_loc 0%Z) free_pages (prefix new i) (pre i + k).

Lemma loc_old i k : pre i + k < cdiv (pre i) ps * ps ->
  token_loc i k = (nth i last_loc 0 + 1 + Z.of_nat k)%Z.
Proof.
  intros Hk. unfold token_loc, loc_of.
  destruct (Nat.ltb_spec (pre i + k) (cdiv (pre i) ps * ps)); [|lia].
  by replace (pre i + k - pre i) with k by lia.
Qed.

Lemma loc_new i k o : pre i + k = cdiv (pre i) ps * ps + o ->
  token_loc i k = (tl_load oob free_pages (prefix new i + o / ps) * Z.of_nat ps
                   + Z.of_nat (o mod ps))%Z.
Proof.
  intros Hk. unfold token_loc, loc_of. rewrite Hk.
  destruct (Nat.ltb_spec (cdiv (pre i) ps * ps + o) (cdiv (pre i) ps * ps)); [lia|].
  rewrite Nat.div_add_l by lia.
  replace (cdiv (pre i) ps * ps + o) with (o + cdiv (pre i) ps * ps) by lia.
  rewrite Nat.Div0.mod_add. by replace (cdiv (pre i) ps + o / ps - cdiv (pre i) ps) with (o / ps) by lia.
Qed.

Lemma length_extend_spec :
  length (extend_spec page_size oob prefix_lens seq_lens last_loc free_pages) = prefix ext n.
Proof.
  unfold extend_spec. rewrite length_concat_seq.
  generalize (length prefix_lens). intros m.
  induction m as [|m IH]; [done|]. simpl. rewrite IH, length_map, length_seq. done.
Qed.

(** The last, partial page of a request is the last of its new pages. *)
Lemma loc_tail i k o :
  cdiv (pre i) ps <= sq i / ps -> sq i / ps * ps < sq i -> o < ps ->
  pre i + k = sq i / ps * ps + o ->
  token_loc i k = (tl_load oob free_pages (prefix new i + new i - 1) * Z.of_nat ps
                   + Z.of_nat o)%Z.
Proof.
  intros Hc Hq Ho Hk.
  assert (E0 : (sq i / ps - cdiv (pre i) ps) * ps = sq i / ps * ps - cdiv (pre i) ps * ps)
    by apply Nat.mul_sub_distr_r.
  pose proof (Nat.mul_le_mono_r _ _ ps Hc).
  rewrite (loc_new i k ((sq i / ps - cdiv (pre i) ps) * ps + o)) by lia.
  rewrite Nat.div_add_l, (Nat.div_small o ps), Nat.add_0_r by lia.
  rewrite (Nat.add_comm (_ * ps) o), Nat.Div0.mod_add, (Nat.mod_small o ps) by lia.
  do 4 f_equal. unfold new_of. rewrite (cdiv_full ps (sq i) ps_pos).
  pose proof (Nat.div_mod_eq (sq i) ps) as Edm.
  destruct (Nat.eqb_spec (sq i mod ps) 0); lia.
Qed.

(** A program writes exactly the slots of its own request. *)
Lemma kernel_writes bs_upper pid out :
  n <= bs_upper -> pid < n -> length out = prefix ext n ->
  writes out
    (alloc_extend_kernel page_size oob masked prefix_lens seq_lens last_loc free_pages
       bs_upper pid out)
    (prefix ext pid) (prefix ext pid + ext pid) (fun t => token_loc pid (t - prefix ext pid)).
Proof.
  intros Hb Hp Hl. unfold alloc_extend_kernel.
  rewrite !(sum_lanes _ masked) by (try (intros; lia); lia). simpl prefix.
  change (prefix (fun i => sq i - pre i) pid) with (prefix ext pid).
  change (prefix (fun i => cdiv (sq i) ps - cdiv (pre i) ps) pid) with (prefix new pid).
  rewrite !Nat.add_sub. pose proof (prefix_mono ext (S pid) n Hp) as Hfit. simpl in Hfit.
  rewrite <- Hl in Hfit. assert (He : ext pid = sq pid - pre pid) by done.
  assert (Hnew : cdiv (sq pid) ps - cdiv (pre pid) ps = new pid) by done.
  set (start := prefix ext pid) in *. pose proof (lens_le pid Hp) as Hle.
  pose proof (cdiv_mul_ge (pre pid) ps ps_pos). pose proof (cdiv_mul_lt (pre pid) ps ps_pos).
  set (num1 := sq pid `min` (cdiv (pre pid) ps * ps) - pre pid).
  set (out1 := tl_store _ _ _ _ out).
  assert (W1 : writes out out1 start (start + num1) (fun t => token_loc pid (t - start))).
  { apply (writes_page _ num1); [lia|done|lia|]. intros o Ho. rewrite loc_old by lia.
    do 3 f_equal. lia. }
  destruct (Nat.eqb_spec (pre pid + num1) (sq pid)) as [E1|E1].
  { replace (start + ext pid) with (start + num1) by lia. exact W1. }
  destruct (parts_overflow ps (pre pid) (sq pid) ps_pos Hle E1) as (H1 & H2 & H3 & H4 & H5).
  fold num1 in H1. set (num2 := sq pid / ps * ps - cdiv (pre pid) ps * ps).
  assert (Hl1 : length out1 = length out) by apply W1.
  pose proof (Nat.mul_le_mono_r _ _ ps H3).
  eapply (writes_app _ out1); [|exact W1|]; [lia|].
  match goal with |- context [fold_left ?g ?l out1] => set (out2 := fold_left g l out1) end.
  assert (W2 : writes out1 out2 (start + num1) (start + num1 + num2)
                 (fun t => token_loc pid (t - start))).
  { apply (writes_blocked BLOCK_EXTEND _ num2); [unfold BLOCK_EXTEND; lia|
      apply cdiv_mul_ge; unfold BLOCK_EXTEND; lia|done|lia|].
    intros o Ho. by rewrite (loc_new pid _ o) by lia. }
  destruct (Nat.eqb_spec (pre pid + num1 + num2) (sq pid)) as [E2|E2].
  { replace (start + ext pid) with (start + num1 + num2) by lia. exact W2. }
  eapply (writes_app _ out2); [|exact W2|]; [lia|].
  pose proof (Nat.div_mod_eq (sq pid) ps). pose proof (Nat.mod_upper_bound (sq pid) ps ltac:(lia)).
  apply (writes_page _ (sq pid - sq pid / ps * ps)); [lia|lia|rewrite (proj1 W2); lia|].
  intros o Ho. rewrite Hnew. by rewrite (loc_tail pid _ o) by lia.
Qed.

(** ** The reference routine *)

Lemma nth_zip (f : nat -> nat -> nat) i :
  i < n -> nth i (zip_with f seq_lens prefix_lens) 0 = f (sq i) (pre i).
Proof.
  intros Hi. destruct (lookup_lt_is_Some_2 seq_lens i ltac:(lia)) as [x Hx].
  destruct (lookup_lt_is_Some_2 prefix_lens i Hi) as [y Hy].
  rewrite (nth_lookup_Some seq_lens i 0 x Hx), (nth_lookup_Some prefix_lens i 0 y Hy).
  apply nth_lookup_Some. by rewrite lookup_zip_with, Hx, Hy.
Qed.

Lemma assign_writes a k v out b f :
  length v = k -> b = a + k -> b <= length out ->
  (forall o, o < k -> v !! o = Some (f (a + o))) ->
  exists out', assign_slice a k v out = Ok out' /\ writes out out' a b f.
Proof.
  intros Hv -> Hb Hf. unfold assign_slice. rewrite Hv, Nat.eqb_refl. eexists. split; [done|].
  apply writes_splice; [by rewrite Hv|done|by rewrite Hv].
Qed.

(** [pages.view(-1, 1) + pos_in_page.view(1, -1)], flattened. *)
Lemma lookup_page_grid (pages : list Z) o p :
  pages !! (o / ps) = Some p ->
  concat (map (fun p => map (fun o => (p + Z.of_nat o)%Z) (seq 0 ps)) pages) !! o
  = Some (p + Z.of_nat (o mod ps))%Z.
Proof.
  revert o. induction pages as [|q pages IH]; intros o Hp; [done|]. cbn [map concat].
  destruct (decide (o < ps)) as [Ho|Ho].
  - rewrite Nat.div_small in Hp by done. simplify_eq/=. rewrite Nat.mod_small by done.
    rewrite lookup_app_l by (rewrite length_map, length_seq; done).
    by rewrite list_lookup_fmap, lookup_seq_lt.
  - rewrite lookup_app_r; rewrite length_map, length_seq; [|lia].
    assert (Eo : o = (o - ps) + 1 * ps) by lia. rewrite Eo in Hp |- *. clear Eo.
    rewrite Nat.div_add, Nat.add_1_r in Hp by lia. simpl in Hp.
    rewrite Nat.Div0.mod_add. replace (o - ps + 1 * ps - ps) with (o - ps) by lia. by apply IH.
Qed.

Lemma length_page_grid (pages : list Z) :
  length (concat (map (fun p => map (fun o => (p + Z.of_nat o)%Z) (seq 0 ps)) pages))
  = length pages * ps.
Proof.
  induction pages as [|q pages IH]; [done|]. cbn [map concat].
  rewrite length_app, length_map, length_seq, IH. simpl. lia.
Qed.

Lemma tl_load_in i p : free_pages !! i = Some p -> tl_load oob free_pages i = p.
Proof. unfold tl_load. by intros ->. Qed.

Lemma naive_head i out :
  i < n -> prefix ext i + ext i <= length out ->
  exists out1, (let num1 := sq i `min` (cdiv (pre i) ps * ps) - pre i in
     if num1 =? 0 then Ok out
     else assign_slice (prefix ext i) num1
       (map (fun o => (nth i last_loc 0 + 1 + Z.of_nat o)%Z) (take num1 (seq 0 ps))) out)
    = Ok out1 /\
    writes out out1 (prefix ext i) (prefix ext i + (sq i `min` (cdiv (pre i) ps * ps) - pre i))
      (fun t => token_loc i (t - prefix ext i)).
Proof.
  intros Hi Hl. cbn zeta. pose proof (lens_le i Hi). unfold ext_of in Hl at 2.
  pose proof (cdiv_mul_ge (pre i) ps ps_pos). pose proof (cdiv_mul_lt (pre i) ps ps_pos).
  destruct (Nat.eqb_spec (sq i `min` (cdiv (pre i) ps * ps) - pre i) 0) as [E|E].
  - exists out. split; [done|]. apply writes_nil. lia.
  - apply assign_writes; [rewrite length_map, length_take, length_seq; lia|done|lia|].
    intros o Ho. rewrite list_lookup_fmap, lookup_take_lt, lookup_seq_lt by lia. simpl.
    rewrite loc_old by lia. do 4 f_equal. lia.
Qed.

Lemma naive_pages i out :
  i < n -> prefix new n <= length free_pages ->
  cdiv (pre i) ps <= sq i / ps -> cdiv (pre i) ps * ps < sq i ->
  let a := prefix ext i + (cdiv (pre i) ps * ps - pre i) in
  let num2 := (sq i / ps - cdiv (pre i) ps) * ps in
  let need := (Z.of_nat (new i) - (Z.of_nat (sq i / ps) - Z.of_nat (cdiv (pre i) ps)))%Z in
  a + num2 <= length out ->
  exists out2, (if num2 =? 0 then Ok out
     else assign_slice a num2 (concat (map (fun p => map (fun o => (p + Z.of_nat o)%Z) (seq 0 ps))
            (map (fun p => (p * Z.of_nat ps)%Z)
               (py_slice (prefix new i) (Z.to_nat (Z.of_nat (prefix new i + new i) - need))
                  free_pages)))) out) = Ok out2 /\
    writes out out2 a (a + num2) (fun t => token_loc i (t - prefix ext i)).
Proof.
  intros Hi Hfree Hq Hlt a num2 need Hl. destruct (Nat.eqb_spec num2 0) as [E|E].
  - exists out. split; [done|]. apply writes_nil. lia.
  - pose proof (prefix_mono new (S i) n Hi) as Hm. simpl in Hm.
    assert (Hnew : sq i / ps - cdiv (pre i) ps <= new i).
    { unfold new_of. rewrite (cdiv_full ps (sq i) ps_pos). lia. }
    replace (Z.to_nat (Z.of_nat (prefix new i + new i) - need))
      with (prefix new i + (sq i / ps - cdiv (pre i) ps)) by (unfold need; lia).
    pose proof (cdiv_mul_ge (pre i) ps ps_pos) as Hc.
    apply assign_writes; [|done|done|].
    { rewrite length_page_grid, length_map, length_py_slice by lia. unfold num2.
      by replace (prefix new i + (sq i / ps - cdiv (pre i) ps) - prefix new i)
        with (sq i / ps - cdiv (pre i) ps) by lia. }
    intros o Ho. assert (Hd : o / ps < sq i / ps - cdiv (pre i) ps)
      by (apply Nat.Div0.div_lt_upper_bound; unfold num2 in Ho; lia).
    destruct (lookup_lt_is_Some_2 free_pages (prefix new i + o / ps) ltac:(lia)) as [p Hp].
    rewrite (lookup_page_grid _ o (p * Z.of_nat ps)%Z).
    + rewrite (loc_new i _ o) by lia. by rewrite (tl_load_in _ p Hp).
    + rewrite list_lookup_fmap, lookup_py_slice by lia. by rewrite Hp.
Qed.

Lemma naive_writes i out :
  i < n -> length out = prefix ext n -> prefix new n <= length free_pages ->
  exists out', naive_body page_size prefix_lens seq_lens last_loc free_pages i out = Ok out' /\
    writes out out' (prefix ext i) (prefix ext i + ext i)
      (fun t => token_loc i (t - prefix ext i)).
Proof.
  intros Hi Hl Hfree. unfold naive_body, cumsum. rewrite !sum_take_zip, !nth_zip by lia.
  change (prefix (fun j => sq j - pre j) (S i)) with (prefix ext i + ext i).
  change (prefix (fun j => cdiv (sq j) ps - cdiv (pre j) ps) (S i)) with (prefix new i + new i).
  change (cdiv (sq i) ps - cdiv (pre i) ps) with (new i). change (sq i - pre i) with (ext i).
  rewrite !Nat.add_sub. pose proof (prefix_mono ext (S i) n Hi) as Hfit. simpl in Hfit.
  pose proof (prefix_mono new (S i) n Hi) as Hm. simpl in Hm.
  pose proof (lens_le i Hi) as Hle. assert (He : ext i = sq i - pre i) by done.
  destruct (naive_head i out Hi ltac:(lia)) as (out1 & E & W1). cbn zeta in E.
  rewrite E. cbn [rbind]. pose proof (proj1 W1) as Hl1.
  destruct (Nat.eqb_spec (pre i + (sq i `min` (cdiv (pre i) ps * ps) - pre i)) (sq i)) as [E1|E1].
  { exists out1. split; [done|]. by replace (ext i) with (sq i `min` (cdiv (pre i) ps * ps) - pre i) by lia. }
  destruct (parts_overflow ps (pre i) (sq i) ps_pos Hle E1) as (H1 & H2 & H3 & H4 & H5).
  rewrite H1 in *. pose proof (Nat.mul_le_mono_r _ _ ps H3).
  set (num2 := (sq i / ps - cdiv (pre i) ps) * ps).
  assert (Hn2 : num2 = sq i / ps * ps - cdiv (pre i) ps * ps) by apply Nat.mul_sub_distr_r.
  destruct (naive_pages i out1 Hi Hfree H3 H4) as (out2 & E2 & W2); [fold num2; lia|].
  fold num2 in E2, W2. rewrite E2. cbn [rbind]. pose proof (proj1 W2) as Hl2.
  destruct (Nat.eqb_spec (pre i + (cdiv (pre i) ps * ps - pre i) + num2) (sq i)) as [E3|E3].
  { exists out2. split; [done|]. eapply writes_app; [|exact W1|]; [lia|].
    by replace (prefix ext i + ext i) with (prefix ext i + (cdiv (pre i) ps * ps - pre i) + num2) by lia. }
  destruct (Nat.eqb_spec (sq i - sq i / ps * ps) 0); [lia|].
  assert (0 < new i).
  { unfold new_of. rewrite (cdiv_full ps (sq i) ps_pos).
    pose proof (Nat.div_mod_eq (sq i) ps). destruct (Nat.eqb_spec (sq i mod ps) 0); lia. }
  destruct (lookup_lt_is_Some_2 free_pages (prefix new i + new i - 1) ltac:(lia)) as [p Hp].
  rewrite Hp. pose proof (Nat.div_mod_eq (sq i) ps).
  pose proof (Nat.mod_upper_bound (sq i) ps ltac:(lia)).
  edestruct (assign_writes (prefix ext i + ext i - (sq i - sq i / ps * ps)) (sq i - sq i / ps * ps)
    (map (fun o => (p * Z.of_nat ps + Z.of_nat o)%Z) (take (sq i - sq i / ps * ps) (seq 0 ps))) out2
    (prefix ext i + ext i) (fun t => token_loc i (t - prefix ext i))) as (out3 & E4 & W3);
    [rewrite length_map, length_take, length_seq; lia|lia|lia| |].
  { intros o Ho. rewrite list_lookup_fmap, lookup_take_lt, lookup_seq_lt by lia. simpl.
    rewrite (loc_tail i _ o) by lia. by rewrite (tl_load_in _ p Hp). }
  exists out3. split; [done|]. eapply writes_app; [|exact W1|]; [lia|].
  eapply writes_app; [|exact W2|]; [lia|].
  by replace (prefix ext i + (cdiv (pre i) ps * ps - pre i) + num2)
    with (prefix ext i + ext i - (sq i - sq i / ps * ps)) by lia.
Qed.

(** Any order of the program instances produces the specified slots. *)
Lemma launch_extend bs_upper order out :
  n <= bs_upper -> order ≡ₚ seq 0 n -> length out = prefix ext n ->
  launch (alloc_extend_kernel page_size oob masked prefix_lens seq_lens last_loc free_pages
            bs_upper) order out
  = extend_spec page_size oob prefix_lens seq_lens last_loc free_pages.
Proof.
  intros Hb Ho Hl. unfold launch, extend_spec.
  rewrite (run_programs_concat _ ext token_loc n (prefix ext n)); [done| |done|done|done].
  intros i out' t Hi Hl'. destruct (kernel_writes bs_upper i out' Hb Hi Hl') as [H1 H2].
  split; [by rewrite H1|apply H2].
Qed.

Lemma naive_extend out :
  length out = prefix ext n -> prefix new n <= length free_pages ->
  alloc_extend_naive page_size prefix_lens seq_lens last_loc free_pages out
  = Ok (extend_spec page_size oob prefix_lens seq_lens last_loc free_pages).
Proof.
  intros Hl Hf.
  set (prog := fun i out =>
    match naive_body page_size prefix_lens seq_lens last_loc free_pages i out with
    | Ok o => o | Raise _ => out end).
  assert (Hprog : forall i out, i < n -> length out = prefix ext n ->
    naive_body page_size prefix_lens seq_lens last_loc free_pages i out = Ok (prog i out) /\
    writes out (prog i out) (prefix ext i) (prefix ext i + ext i)
      (fun t => token_loc i (t - prefix ext i))).
  { intros i o Hi Ho. unfold prog. destruct (naive_writes i o Hi Ho Hf) as (o' & -> & ?). done. }
  assert (Hfold : forall m, m <= n ->
    fold_left (fun acc i => rbind acc (naive_body page_size prefix_lens seq_lens last_loc
                 free_pages i)) (seq 0 m) (Ok out)
    = Ok (fold_left (fun out i => prog i out) (seq 0 m) out) /\
    length (fold_left (fun out i => prog i out) (seq 0 m) out) = prefix ext n).
  { induction m as [|m IH]; intros Hm; [done|]. destruct (IH ltac:(lia)) as [E1 E2].
    rewrite seq_S, !fold_left_app, E1. cbn [fold_left plus rbind].
    destruct (Hprog m _ ltac:(lia) E2) as [-> [Hw _]]. split; [done|]. by rewrite Hw. }
  unfold alloc_extend_naive, extend_spec. destruct (Hfold n (le_n n)) as [E _].
  unfold rbind in E |- *. rewrite E. f_equal.
  apply (run_programs_concat prog ext token_loc n (prefix ext n)); [|done|done|done].
  intros i out' t Hi Hl'. destruct (Hprog i out' Hi Hl') as [_ [H1 H2]].
  split; [by rewrite H1|apply H2].
Qed.

End ExtendFacts.

(** ** Decode steps *)

Section DecodeFacts.
Variable page_size : nat.
Variable oob : nat -> Z.
Variable masked : nat -> nat.
Variables (seq_lens : list nat) (last_loc free_pages : list Z).
#[local] Abbreviation ps := page_size.
#[local] Abbreviation n := (length seq_lens).

Lemma nth_pred i : nth i (map pred seq_lens) 0 = nth i seq_lens 0 - 1.
Proof. rewrite Nat.sub_1_r. apply (map_nth pred seq_lens 0 i). Qed.

Lemma pre_lanes bs_upper pid :
  zip_with (fun o s => if o <=? pid then s - 1 else s) (seq 0 bs_upper)
    (lanes_upto masked bs_upper pid seq_lens)
  = lanes_upto masked bs_upper pid (map pred seq_lens).
Proof.
  apply list_eq. intros t. unfold lanes_upto. rewrite lookup_zip_with, !list_lookup_fmap.
  destruct (decide (t < bs_upper)) as [H|H].
  - rewrite lookup_seq_lt by done. simpl. by destruct (t <=? pid); rewrite ?nth_pred.
  - by rewrite lookup_seq_ge by lia.
Qed.

Lemma prefix_one i : prefix (fun _ => 1) i = i.
Proof. induction i; simpl; lia. Qed.

Lemma launch_decode bs_upper order out :
  n <= bs_upper -> order ≡ₚ seq 0 n -> length out = n ->
  launch (alloc_decode_kernel page_size oob masked seq_lens last_loc free_pages bs_upper) order out
  = decode_spec page_size oob seq_lens last_loc free_pages.
Proof.
  intros Hb Ho Hl. unfold launch.
  set (val := fun i (_ : nat) =>
    let new := new_of ps (map pred seq_lens) seq_lens in
    if new i =? 0 then (nth i last_loc 0 + 1)%Z
    else (tl_load oob free_pages (prefix new i) * Z.of_nat ps)%Z).
  rewrite (run_programs_concat _ (fun _ => 1) val n n); [|clear out Hl|done|done|by rewrite prefix_one].
  - unfold decode_spec. simpl.
    change (concat (map (fun i => [val i 0]) (seq 0 n)) = map (fun i => val i 0) (seq 0 n)).
    generalize (seq 0 n). intros l. induction l as [|i l IH]; simpl; [done|by rewrite IH].
  - intros i out t Hi Hl. rewrite !prefix_one. unfold alloc_decode_kernel.
    rewrite pre_lanes, (sum_lanes _ masked) by (rewrite ?length_map; try (intros; lia); lia).
    simpl prefix. rewrite nth_pred, Nat.add_sub.
    assert (Hnew : cdiv (nth i seq_lens 0) ps - cdiv (nth i seq_lens 0 - 1) ps
                   = new_of ps (map pred seq_lens) seq_lens i)
      by (unfold new_of; by rewrite nth_pred).
    rewrite Hnew.
    change (prefix _ i) with (prefix (new_of ps (map pred seq_lens) seq_lens) i).
    assert (Hw : forall v, length (<[i := v]> out) = n /\
      <[i := v]> out !! t = if (i <=? t) && (t <? i + 1) then Some v else out !! t).
    { intros v. split; [by rewrite length_insert|].
      destruct (Nat.leb_spec i t), (Nat.ltb_spec t (i + 1)); simpl;
        try (by rewrite list_lookup_insert_ne by lia).
      replace t with i by lia. apply list_lookup_insert_eq. lia. }
    unfold val. cbn zeta. by destruct (_ =? 0).
Qed.

End DecodeFacts.

(** C9. The Triton kernel and the Python reference agree: for a launch over the
    whole batch, whatever the order in which the program instances run,
    whatever the buffer held and whatever out-of-range loads and masked lanes return
    (the same in both of the loads that are subtracted), [alloc_extend_kernel] computes the slots [alloc_extend_naive] computes. *)
Theorem extend_kernel_equiv (page_size : nat) (masked : nat -> nat) (oob : nat -> Z)
    (prefix_lens seq_lens order : list nat) (last_loc free_pages out out' : list Z) :
  0 < page_size -> length seq_lens = length prefix_lens ->
  (forall i, i < length prefix_lens -> nth i prefix_lens 0 <= nth i seq_lens 0) ->
  order ≡ₚ seq 0 (length prefix_lens) ->
  length out = prefix (ext_of prefix_lens seq_lens) (length prefix_lens) ->
  length out' = length out ->
  prefix (new_of page_size prefix_lens seq_lens) (length prefix_lens) <= length free_pages ->
  alloc_extend_naive page_size prefix_lens seq_lens last_loc free_pages out' =
  Ok (launch (alloc_extend_kernel page_size oob masked prefix_lens seq_lens last_loc free_pages
                (next_power_of_2 (length prefix_lens))) order out).
Proof.
  intros Hps Hlen Hle Ho Hl Hl' Hf.
  assert (Hb : length prefix_lens <= next_power_of_2 (length prefix_lens)).
  { unfold next_power_of_2. destruct (decide (1 < length prefix_lens)) as [H|H].
    - apply Nat.log2_up_spec. done.
    - pose proof (Nat.pow_nonzero 2 (Nat.log2_up (length prefix_lens))). lia. }
  rewrite (launch_extend page_size oob masked) by done.
  apply naive_extend; try done. by rewrite Hl'.
Qed.

Lemma extend_kernel_equiv_witness :
  alloc_extend_naive 4 [6; 0; 8] [13; 3; 8] [21; -1; 3]%Z [9; 2; 7]%Z (repeat 0%Z 10) =
  Ok (launch (alloc_extend_kernel 4 (fun _ => 0%Z) S [6; 0; 8] [13; 3; 8] [21; -1; 3]%Z
                [9; 2; 7]%Z (next_power_of_2 3)) [2; 0; 1] (repeat 1%Z 10)).
Proof.
  apply (extend_kernel_equiv 4 S (fun _ => 0%Z) [6; 0; 8] [13; 3; 8] [2; 0; 1]
           [21; -1; 3]%Z [9; 2; 7]%Z (repeat 1%Z 10) (repeat 0%Z 10)).
  - lia.
  - reflexivity.
  - intros [|[|[|i]]] Hi; simpl in *; lia.
  - apply (Permutation_cons_app [0; 1] [] 2). reflexivity.
  - reflexivity.
  - reflexivity.
  - vm_compute. lia.
Defined.

End Kernel.
