(* ===== verification/PagedAllocator.v ===== *)
(** [PagedTokenToKVPoolAllocator] of [srt/mem_cache/allocator.py]: pages of
    [page_size] slots, extended and decoded into by the kernels of
    [AllocKernels].

    The clients hold the slots the calls returned.  [Paged.Inv] relates them and the
    pages they lie in to the concrete state, [Paged.step] lists the operations, and
    [paged_pages_unique] is the safety of every run: the slots an extension hands out
    are pairwise distinct and never collide with a slot in use. *)
From stdpp Require Import base list sorting relations.
From Stdlib Require Import ZArith Lia.
From S2P Require Import Prelude.
From S2P Require Import Allocator.
From S2P Require Import AllocKernels.
Local Open Scope nat_scope.

(** What the device leaves open: the contents of [torch.empty], the order in
    which program instances run, and what loads without a value return. *)
Record device : Type := mkDevice {
  d_empty : nat -> list Z;
  d_order : nat -> list nat;
  d_oob : nat -> Z;
  d_masked : nat -> nat;
}.

Class DeviceLaws (d : device) : Prop := {
  empty_length : forall n, length (d_empty d n) = n;
  order_all : forall n, d_order d n ≡ₚ seq 0 n;
}.

Module Paged.
Import Base Kernel.
Local Open Scope py_scope.

(** [PagedTokenToKVPoolAllocator.__init__]. *)
Definition init (sz ps : nat) (sort debug : bool) : allocator :=
  clear (mkAlloc sz ps (sz / ps) sort debug [] [] true []).

(** [get_num_new_pages] of [srt/utils/common.py]. *)
Definition get_num_new_pages (seq_lens : list nat) (ps : nat) (prefix_lens : option (list nat))
    (decode : bool) : res nat :=
  match prefix_lens, decode with
  | Some pl, false => Ok (sum_list (zip_with (fun s p => cdiv s ps - cdiv p ps) seq_lens pl))
  | _, _ => passert decode (Ok (length (filter (fun s => s mod ps = 1) seq_lens)))
  end.

(** [(pages[:, None] * page_size + arange(page_size)).reshape(-1)]. *)
Definition page_slots (ps : nat) (pages : list Z) : list Z :=
  concat (map (fun p => map (fun o => (p * Z.of_nat ps + Z.of_nat o)%Z) (seq 0 ps)) pages).

(** [len(torch.unique(l)) == len(l)]. *)
Definition all_unique (l : list Z) : bool := length (torch_unique l) =? length l.

Definition debug_assert {A} (a : allocator) (c : bool) (k : res A) : res A :=
  if debug_mode a then passert c k else k.

(** [if self.need_sort and t > len(self.free_pages): self.merge_and_sort_free()]. *)
Definition premerge (t : nat) (a : allocator) : allocator :=
  if need_sort a && (length (free_pages a) <? t) then merge_and_sort_free a else a.

(** [PagedTokenToKVPoolAllocator.alloc]. *)
Definition alloc (need_size : nat) (a : allocator) : res (option (list Z) * allocator) :=
  debug_assert a (need_size mod page_size a =? 0)
   (let num := need_size / page_size a in
    let a := premerge num a in
    if length (free_pages a) <? num then Ok (None, a)
    else Ok (Some (page_slots (page_size a) (take num (free_pages a))),
             with_pages (drop num (free_pages a)) (release_pages a) a)).

Section Device.
Variable d : device.

(** [PagedTokenToKVPoolAllocator.alloc_extend]; the CPU copies of the lengths
    are the same values as the device tensors. *)
Definition alloc_extend (prefix_lens seq_lens : list nat) (last_loc : list Z)
    (extend_num_tokens : nat) (a : allocator) : res (option (list Z) * allocator) :=
  let ps := page_size a in
  debug_assert a
    (forallb id (zip_with (fun ll p => Z.eqb ((ll + 1) mod Z.of_nat ps) (Z.of_nat (p mod ps)))
                   last_loc prefix_lens))
   (let bs := length prefix_lens in
    let a := premerge (extend_num_tokens / ps + bs + 1) a in
    let out_indices :=
      launch (alloc_extend_kernel ps (d_oob d) (d_masked d) prefix_lens seq_lens last_loc
                (free_pages a) (next_power_of_2 bs))
        (d_order d bs) (d_empty d extend_num_tokens) in
    debug_assert a (all_unique out_indices)
     (let! num_new_pages := get_num_new_pages seq_lens ps (Some prefix_lens) false in
      if length (free_pages a) <? num_new_pages then Ok (None, a)
      else Ok (Some out_indices,
               with_pages (drop num_new_pages (free_pages a)) (release_pages a) a))).

(** [PagedTokenToKVPoolAllocator.alloc_decode]. *)
Definition alloc_decode (seq_lens : list nat) (last_loc : list Z) (a : allocator)
    : res (option (list Z) * allocator) :=
  let ps := page_size a in
  debug_assert a
    (forallb id (zip_with (fun ll s => Z.eqb ((ll + 2) mod Z.of_nat ps) (Z.of_nat (s mod ps)))
                   last_loc seq_lens))
   (let bs := length seq_lens in
    let a := premerge bs a in
    let out_indices :=
      launch (alloc_decode_kernel ps (d_oob d) (d_masked d) seq_lens last_loc (free_pages a)
                (next_power_of_2 bs)) (d_order d bs) (d_empty d bs) in
    debug_assert a (all_unique out_indices)
     (let! num_new_pages := get_num_new_pages seq_lens ps None true in
      if length (free_pages a) <? num_new_pages then Ok (None, a)
      else Ok (Some out_indices,
               with_pages (drop num_new_pages (free_pages a)) (release_pages a) a))).

End Device.

(** [torch.unique(free_index // page_size)]. *)
Definition pages_of (ps : nat) (free_index : list Z) : list Z :=
  torch_unique (map (fun x => (x / Z.of_nat ps)%Z) free_index).

(** [PagedTokenToKVPoolAllocator.free]. *)
Definition free (free_index : list Z) (a : allocator) : res allocator :=
  match free_index with
  | [] => Ok a
  | _ =>
    let a :=
      if is_not_in_free_group a
      then if need_sort a
           then with_pages (free_pages a) (pages_of (page_size a) free_index ++ release_pages a) a
           else with_pages (pages_of (page_size a) free_index ++ free_pages a) (release_pages a) a
      else with_group false (free_group a ++ [free_index]) a in
    debug_assert a (all_unique (free_pages a)) (Ok a)
  end.

(** ** The held slots *)

(** The slots waiting in an open group. *)
Definition pending (a : allocator) : list Z :=
  if is_not_in_free_group a then [] else concat (free_group a).

(** [held] lists the slots that were handed out: each once, in pages that are
    neither free nor released; every other page is. *)
Record Inv (a : allocator) (held : list Z) : Prop := {
  inv_owns : Owns a (pages_of (page_size a) held);
  inv_nodup : NoDup held;
}.

(** What an extension may be asked for. *)
Record extend_ok (prefix_lens seq_lens : list nat) (extend_num_tokens : nat) : Prop := {
  eo_len : length seq_lens = length prefix_lens;
  eo_le : forall i, i < length prefix_lens -> nth i prefix_lens 0 <= nth i seq_lens 0;
  eo_num : extend_num_tokens = prefix (ext_of prefix_lens seq_lens) (length prefix_lens);
}.

(** The pages an extension or a decode step takes. *)
Definition extend_pages (a : allocator) (pl sl : list nat) (m : nat) : list Z :=
  take (prefix (new_of (page_size a) pl sl) (length pl))
    (free_pages (premerge (m / page_size a + length pl + 1) a)).

Definition decode_pages (a : allocator) (sl : list nat) : list Z :=
  take (prefix (new_of (page_size a) (map pred sl) sl) (length sl))
    (free_pages (premerge (length sl) a)).

(** The last slots the clients pass in: a request whose prefix ends inside a
    page continues in that page, it holds its last slot and no slot of the page
    behind it is held, and no other request of the batch writes into the page. *)
Record ends_ok (ps : nat) (pl : list nat) (ll held : list Z) : Prop := {
  en_offset : forall i, i < length pl -> nth i pl 0 mod ps <> 0 ->
    ((nth i ll 0 + 1) mod Z.of_nat ps)%Z = Z.of_nat (nth i pl 0 mod ps);
  en_held : forall i, i < length pl -> nth i pl 0 mod ps <> 0 -> nth i ll 0%Z ∈ held;
  en_last : forall i x, i < length pl -> nth i pl 0 mod ps <> 0 -> x ∈ held ->
    (x / Z.of_nat ps)%Z = (nth i ll 0 / Z.of_nat ps)%Z -> (x <= nth i ll 0)%Z;
  en_own : forall i j, i < length pl -> j < length pl ->
    nth i pl 0 mod ps <> 0 -> nth j pl 0 mod ps <> 0 ->
    (nth i ll 0 / Z.of_nat ps)%Z = (nth j ll 0 / Z.of_nat ps)%Z -> i = j;
}.

(** Slots that are freed together leave no slot of their pages behind. *)
Definition whole_pages (ps : nat) (idx rest : list Z) : Prop :=
  forall x y, x ∈ idx -> y ∈ rest -> (x / Z.of_nat ps)%Z <> (y / Z.of_nat ps)%Z.

(** The free and released pages of a backup, with what the clients held then. *)
#[local] Abbreviation saved := ((list Z * list Z) * list Z)%type.

Section Steps.
Variable d : device.

(** What clients do, with the slots they were given and the backups they keep:
    they free only slots they hold, a page at a time.  What they hold after an
    allocation are the slots that it returned. *)
Inductive step : allocator * list Z * list saved -> allocator * list Z * list saved -> Prop :=
| s_alloc a held bk k out a' :
    alloc k a = Ok (Some out, a') -> step (a, held, bk) (a', out ++ held, bk)
| s_alloc_fail a held bk k a' : alloc k a = Ok (None, a') -> step (a, held, bk) (a', held, bk)
| s_extend a held bk pl sl ll m out a' :
    extend_ok pl sl m -> ends_ok (page_size a) pl ll held ->
    alloc_extend d pl sl ll m a = Ok (Some out, a') -> step (a, held, bk) (a', out ++ held, bk)
| s_extend_fail a held bk pl sl ll m a' :
    alloc_extend d pl sl ll m a = Ok (None, a') -> step (a, held, bk) (a', held, bk)
| s_decode a held bk sl ll out a' :
    (forall n, n ∈ sl -> 0 < n) -> ends_ok (page_size a) (map pred sl) ll held ->
    alloc_decode d sl ll a = Ok (Some out, a') -> step (a, held, bk) (a', out ++ held, bk)
| s_decode_fail a held bk sl ll a' :
    alloc_decode d sl ll a = Ok (None, a') -> step (a, held, bk) (a', held, bk)
| s_free a held bk idx held' a' :
    is_not_in_free_group a = true -> held ≡ₚ idx ++ held' -> whole_pages (page_size a) idx held' ->
    free idx a = Ok a' -> step (a, held, bk) (a', held', bk)
| s_free_later a held bk idx a' :
    is_not_in_free_group a = false -> pending a ++ idx ⊆+ held ->
    free idx a = Ok a' -> step (a, held, bk) (a', held, bk)
| s_group_begin a held bk :
    is_not_in_free_group a = true -> step (a, held, bk) (free_group_begin a, held, bk)
| s_group_end a held bk held' a' :
    is_not_in_free_group a = false -> held ≡ₚ pending a ++ held' -> whole_pages (page_size a) (pending a) held' ->
    free_group_end free a = Ok a' -> step (a, held, bk) (a', held', bk)
| s_merge a held bk : step (a, held, bk) (merge_and_sort_free a, held, bk)
| s_backup a held bk : step (a, held, bk) (a, held, (backup_state a, held) :: bk)
| s_restore a held bk st old :
    (st, old) ∈ bk -> pending a ⊆+ old -> step (a, held, bk) (restore_state st a, old, bk)
| s_clear a held bk : step (a, held, bk) (clear a, [], bk).

End Steps.

(** ** Lemmas on the operations *)

Lemma premerge_spec t k a held :
  Owns a held -> k <= t ->
  Owns (premerge t a) held /\ same_config a (premerge t a) /\
  (length (free_pages (premerge t a)) < k
   <-> length (free_pages a) + length (release_pages a) < k).
Proof. intros. by apply merge_on_demand. Qed.

Lemma premerge_group t a :
  is_not_in_free_group (premerge t a) = is_not_in_free_group a /\
  free_group (premerge t a) = free_group a /\ page_size (premerge t a) = page_size a /\
  num_pages (premerge t a) = num_pages a /\ debug_mode (premerge t a) = debug_mode a.
Proof.
  unfold premerge, merge_and_sort_free. destruct (_ && _); [|done]. by destruct (0 <? _).
Qed.

Lemma pages_of_spec ps idx p :
  p ∈ pages_of ps idx <-> exists x, x ∈ idx /\ p = (x / Z.of_nat ps)%Z.
Proof.
  unfold pages_of. rewrite elem_of_torch_unique, list_elem_of_fmap. naive_solver.
Qed.

(** The page of a slot [p * ps + o]. *)
Lemma slot_page ps p o : 0 < ps -> o < ps -> ((p * Z.of_nat ps + Z.of_nat o) / Z.of_nat ps)%Z = p.
Proof. intros. rewrite Z.div_add_l by lia. rewrite Z.div_small by lia. lia. Qed.

Lemma elem_of_page_slots ps pages x :
  x ∈ page_slots ps pages <-> exists p o, p ∈ pages /\ o < ps /\ x = (p * Z.of_nat ps + Z.of_nat o)%Z.
Proof.
  unfold page_slots. rewrite list_elem_of_In, in_concat. setoid_rewrite <- list_elem_of_In. split.
  - intros (l & (p & -> & Hp)%list_elem_of_fmap & (o & -> & Ho)%list_elem_of_fmap).
    exists p, o. apply elem_of_seq in Ho. split; [done|]. split; [lia|done].
  - intros (p & o & Hp & Ho & ->). eexists. split; [apply list_elem_of_fmap; eauto|].
    apply list_elem_of_fmap. exists o. split; [done|]. apply elem_of_seq. lia.
Qed.

(** Round trip: the pages of the slots of some pages are those pages. *)
Lemma pages_of_page_slots ps pages :
  0 < ps -> NoDup pages -> pages_of ps (page_slots ps pages) ≡ₚ pages.
Proof.
  intros Hps Hn. apply NoDup_Permutation; [apply torch_unique_NoDup|done|].
  intros p. rewrite pages_of_spec. setoid_rewrite elem_of_page_slots. split.
  - intros (x & (q & o & Hq & Ho & ->) & ->). by rewrite slot_page.
  - intros Hp. exists (p * Z.of_nat ps + Z.of_nat 0)%Z. rewrite slot_page by lia.
    split; [|done]. exists p, 0. done.
Qed.

Lemma length_page_slots ps pages : length (page_slots ps pages) = length pages * ps.
Proof.
  unfold page_slots. induction pages as [|p pages IH]; [done|]. cbn [map concat].
  rewrite length_app, length_map, length_seq, IH. simpl. lia.
Qed.

Lemma page_slots_NoDup ps pages : 0 < ps -> NoDup pages -> NoDup (page_slots ps pages).
Proof.
  intros Hps. induction 1 as [|p pages Hp Hn IH]; [constructor|].
  change (page_slots ps (p :: pages)) with
    (map (fun o => (p * Z.of_nat ps + Z.of_nat o)%Z) (seq 0 ps) ++ page_slots ps pages).
  apply NoDup_app. split; [|split; [|done]].
  - apply NoDup_fmap_2; [intros ???; lia|apply NoDup_seq].
  - intros x (o & -> & Ho)%list_elem_of_fmap (q & o' & Hq & Ho' & E)%elem_of_page_slots.
    apply elem_of_seq in Ho. apply Hp.
    rewrite <- (slot_page ps p o), E, slot_page by lia. done.
Qed.

Lemma debug_assert_ok {A} a c (k : res A) r : debug_assert a c k = Ok r -> k = Ok r.
Proof. unfold debug_assert, passert. destruct (debug_mode a), c; done. Qed.

Lemma take_free_NoDup a held k : Owns a held -> NoDup (take k (free_pages a)).
Proof.
  intros Ho. pose proof (owns_NoDup _ _ Ho) as Hn. apply NoDup_app in Hn as (Hn & _).
  rewrite <- (take_drop k (free_pages a)) in Hn. by apply NoDup_app in Hn as (? & _).
Qed.

Lemma num_new_extend pl sl ps :
  length sl = length pl ->
  get_num_new_pages sl ps (Some pl) false = Ok (prefix (new_of ps pl sl) (length pl)).
Proof.
  intros Hl. unfold get_num_new_pages. f_equal.
  pose proof (sum_take_zip (fun s p => cdiv s ps - cdiv p ps) sl pl (length pl) Hl ltac:(lia)) as E.
  rewrite take_ge in E by (rewrite length_zip_with; lia). exact E.
Qed.

(** With more than one slot per page, a token starts a page exactly when its
    position is one past a multiple of the page size. *)
Lemma new_page_decode ps s :
  1 < ps -> cdiv s ps - cdiv (s - 1) ps = if s mod ps =? 1 then 1 else 0.
Proof.
  intros Hps. destruct s as [|s]; [rewrite Nat.mod_0_l by lia; apply Nat.sub_diag|].
  rewrite Nat.sub_1_r. simpl pred. rewrite !cdiv_full by lia.
  pose proof (Nat.div_mod_eq s ps) as E. pose proof (Nat.mod_upper_bound s ps ltac:(lia)) as Hm.
  destruct (decide (s mod ps = ps - 1)) as [Hr|Hr].
  - assert (S s / ps = s / ps + 1) as -> by (symmetry; apply (Nat.div_unique _ _ _ 0); lia).
    assert (S s mod ps = 0) as -> by (symmetry; apply (Nat.mod_unique _ _ (s / ps + 1)); lia).
    rewrite Hr. destruct (Nat.eqb_spec (ps - 1) 0); simpl; lia.
  - assert (S s / ps = s / ps) as -> by (symmetry; apply (Nat.div_unique _ _ _ (s mod ps + 1)); lia).
    assert (S s mod ps = s mod ps + 1) as -> by (symmetry; apply (Nat.mod_unique _ _ (s / ps)); lia).
    destruct (Nat.eqb_spec (s mod ps + 1) 0), (Nat.eqb_spec (s mod ps) 0),
      (Nat.eqb_spec (s mod ps + 1) 1); lia.
Qed.

Lemma num_new_decode sl ps :
  1 < ps ->
  get_num_new_pages sl ps None true = Ok (prefix (new_of ps (map pred sl) sl) (length sl)).
Proof.
  intros Hps. simpl. f_equal. induction sl as [|s sl IH] using rev_ind; [done|].
  rewrite filter_app, length_app, IH, length_app. simpl. rewrite Nat.add_1_r. simpl.
  assert (Hex : forall m, m <= length sl ->
    prefix (new_of ps (map pred (sl ++ [s])) (sl ++ [s])) m = prefix (new_of ps (map pred sl) sl) m).
  { induction m as [|m IHm]; intros Hm; [done|]. simpl. rewrite IHm by lia. f_equal.
    unfold new_of. rewrite !nth_pred, app_nth1 by lia. done. }
  rewrite Hex by lia. f_equal. unfold new_of. rewrite nth_pred, app_nth2, Nat.sub_diag by lia.
  cbn [nth]. rewrite new_page_decode by done. rewrite filter_cons.
  destruct (decide (s mod ps = 1)) as [E|E]; destruct (Nat.eqb_spec (s mod ps) 1); done.
Qed.

(** An extension by [m] tokens over [n] requests needs at most [m / ps + n] pages. *)
Lemma new_bound ps pl sl n :
  0 < ps -> prefix (new_of ps pl sl) n <= prefix (ext_of pl sl) n / ps + n.
Proof.
  intros Hps. induction n as [|n IH]; [simpl; lia|]. simpl.
  assert (H1 : new_of ps pl sl n <= ext_of pl sl n / ps + 1).
  { unfold new_of, ext_of. set (s := nth n sl 0). set (p := nth n pl 0).
    pose proof (cdiv_mul_lt s ps Hps). pose proof (cdiv_mul_ge p ps Hps).
    pose proof (Nat.div_mod_eq (s - p) ps). pose proof (Nat.mod_upper_bound (s - p) ps). nia. }
  assert (H2 : prefix (ext_of pl sl) n / ps + ext_of pl sl n / ps
               <= (prefix (ext_of pl sl) n + ext_of pl sl n) / ps).
  { apply Nat.div_le_lower_bound; [lia|].
    pose proof (Nat.Div0.mul_div_le (prefix (ext_of pl sl) n) ps).
    pose proof (Nat.Div0.mul_div_le (ext_of pl sl n) ps). lia. }
  lia.
Qed.

Lemma decode_bound ps sl n : 1 < ps -> prefix (new_of ps (map pred sl) sl) n <= n.
Proof.
  intros Hps. induction n as [|n IH]; simpl; [done|].
  unfold new_of at 2. rewrite nth_pred, new_page_decode by done. destruct (_ =? 1); lia.
Qed.

Lemma premerge_config t a : same_config a (premerge t a).
Proof. unfold premerge. destruct (_ && _); [apply merge_config|done]. Qed.

(** What every allocation does: merge on demand up to [t], then take [k] pages
    or fail. *)
Lemma take_pages t k a held (out : list Z) o a' :
  Owns a held -> k <= t ->
  (if length (free_pages (premerge t a)) <? k then Ok (None, premerge t a)
   else Ok (Some out, with_pages (drop k (free_pages (premerge t a)))
                        (release_pages (premerge t a)) (premerge t a))) = Ok (o, a') ->
  same_config a a' /\
  match o with
  | Some out' => out' = out /\ k <= length (free_pages (premerge t a)) /\
      Owns a' (take k (free_pages (premerge t a)) ++ held)
  | None => Owns a' held /\ length (free_pages a) + length (release_pages a) < k
  end.
Proof.
  intros Ho Hk E. destruct (premerge_spec t k a held Ho Hk) as (Ho' & _ & Hiff).
  pose proof (premerge_config t a) as Hc.
  destruct (Nat.ltb_spec (length (free_pages (premerge t a))) k); simplify_eq.
  - split; [done|]. split; [done|]. by apply Hiff.
  - split; [exact Hc|]. split; [done|]. split; [done|]. by apply take_owns.
Qed.

Lemma paged_alloc_spec k a held o a' :
  Owns a held -> 0 < page_size a -> alloc k a = Ok (o, a') ->
  same_config a a' /\
  match o with
  | Some out => exists pages, out = page_slots (page_size a) pages /\ NoDup pages /\
      length pages = k / page_size a /\ Owns a' (pages ++ held)
  | None => Owns a' held /\ length (free_pages a) + length (release_pages a) < k / page_size a
  end.
Proof.
  intros Ho Hps E. apply debug_assert_ok in E. cbn zeta in E.
  destruct (take_pages _ _ _ _ _ _ _ Ho (le_n _) E) as (HF & Hc). split; [done|].
  destruct o as [out|]; [|done]. destruct Hc as (-> & Hlen & Hown).
  destruct (premerge_spec (k / page_size a) (k / page_size a) a held Ho (le_n _)) as (Hm & _).
  destruct (premerge_config (k / page_size a) a) as (_ & -> & _).
  eexists. split; [done|]. split; [by eapply take_free_NoDup|]. split; [|done].
  rewrite length_take. lia.
Qed.

Section Ops.
Variable d : device.
Context `{!DeviceLaws d}.

(** A failed extension or decode step only merges the released pages. *)
Lemma alloc_fail_owns a held k t (out : list Z) a' :
  Owns a held ->
  (if length (free_pages (premerge t a)) <? k then Ok (None, premerge t a)
   else Ok (Some out, with_pages (drop k (free_pages (premerge t a)))
                        (release_pages (premerge t a)) (premerge t a))) = Ok (None, a') ->
  same_config a a' /\ Owns a' held.
Proof.
  intros Ho E. destruct (_ <? _); simplify_eq. split; [apply premerge_config|].
  by destruct (premerge_spec t 0 a held Ho ltac:(lia)).
Qed.

Lemma bs_le_pow n : n <= next_power_of_2 n.
Proof.
  unfold next_power_of_2. destruct (decide (1 < n)) as [H|H].
  - by apply Nat.log2_up_spec.
  - pose proof (Nat.pow_nonzero 2 (Nat.log2_up n)). lia.
Qed.

Lemma extend_spec_op pl sl ll m a held o a' :
  Owns a held -> 0 < page_size a -> extend_ok pl sl m ->
  alloc_extend d pl sl ll m a = Ok (o, a') ->
  same_config a a' /\
  match o with
  | Some out =>
      out = extend_spec (page_size a) (d_oob d) pl sl ll
              (free_pages (premerge (m / page_size a + length pl + 1) a)) /\
      prefix (new_of (page_size a) pl sl) (length pl)
        <= length (free_pages (premerge (m / page_size a + length pl + 1) a)) /\
      Owns a' (extend_pages a pl sl m ++ held)
  | None => Owns a' held /\ length (free_pages a) + length (release_pages a)
                            < prefix (new_of (page_size a) pl sl) (length pl)
  end.
Proof.
  intros Ho Hps [Hl Hle Hm] E. apply debug_assert_ok in E. cbn zeta in E.
  apply debug_assert_ok in E. rewrite (num_new_extend pl sl (page_size a) Hl) in E. cbn [rbind] in E.
  rewrite (launch_extend (page_size a) (d_oob d) (d_masked d) pl sl ll) in E;
    [|done|done|done|apply bs_le_pow|apply order_all|by rewrite empty_length].
  pose proof (new_bound (page_size a) pl sl (length pl) Hps) as Hb. rewrite <- Hm in Hb.
  assert (Hk : prefix (new_of (page_size a) pl sl) (length pl)
               <= m / page_size a + length pl + 1) by lia.
  exact (take_pages _ _ _ _ _ _ _ Ho Hk E).
Qed.

Lemma decode_spec_op sl ll a held o a' :
  Owns a held -> 1 < page_size a -> alloc_decode d sl ll a = Ok (o, a') ->
  same_config a a' /\
  match o with
  | Some out =>
      out = decode_spec (page_size a) (d_oob d) sl ll (free_pages (premerge (length sl) a)) /\
      prefix (new_of (page_size a) (map pred sl) sl) (length sl)
        <= length (free_pages (premerge (length sl) a)) /\
      Owns a' (decode_pages a sl ++ held)
  | None => Owns a' held /\ length (free_pages a) + length (release_pages a)
                            < prefix (new_of (page_size a) (map pred sl) sl) (length sl)
  end.
Proof.
  intros Ho Hps E. apply debug_assert_ok in E. cbn zeta in E.
  apply debug_assert_ok in E. rewrite (num_new_decode sl (page_size a) Hps) in E. cbn [rbind] in E.
  rewrite (launch_decode (page_size a) (d_oob d) (d_masked d) sl ll) in E;
    [|apply bs_le_pow|apply order_all|by rewrite empty_length].
  pose proof (decode_bound (page_size a) sl (length sl) Hps) as Hb.
  exact (take_pages _ _ _ _ _ _ _ Ho Hb E).
Qed.

Lemma paged_free_config idx a a' : free idx a = Ok a' -> same_config a a'.
Proof.
  unfold free. destruct idx; [by intros [= <-]|]. intros E. apply debug_assert_ok in E.
  destruct (is_not_in_free_group a), (need_sort a) eqn:Es; simplify_eq; by repeat split.
Qed.

Lemma paged_free_spec a pages idx pages' a' :
  Owns a pages -> is_not_in_free_group a = true -> pages ≡ₚ pages_of (page_size a) idx ++ pages' ->
  free idx a = Ok a' -> Owns a' pages'.
Proof.
  intros Ho Hg Hp. unfold free. rewrite Hg. destruct idx as [|i idx].
  - intros ?; simplify_eq. by rewrite <- Hp.
  - intros E. apply debug_assert_ok in E. destruct (need_sort a) eqn:Es; simplify_eq;
      eapply (give_owns _ _ Ho); try exact Hp; try congruence.
    + solve_Permutation.
    + by rewrite <- app_assoc.
    + apply Ho.
Qed.

End Ops.

(** ** The slots of an extension *)

(** What [ends_ok] says of the held pages. *)
Record tails_ok (ps : nat) (pl : list nat) (ll held : list Z) : Prop := {
  to_offset : forall i, i < length pl -> nth i pl 0 mod ps <> 0 ->
    ((nth i ll 0 + 1) mod Z.of_nat ps)%Z = Z.of_nat (nth i pl 0 mod ps);
  to_held : forall i, i < length pl -> nth i pl 0 mod ps <> 0 ->
    (nth i ll 0 / Z.of_nat ps)%Z ∈ held;
  to_own : forall i j, i < length pl -> j < length pl ->
    nth i pl 0 mod ps <> 0 -> nth j pl 0 mod ps <> 0 ->
    (nth i ll 0 / Z.of_nat ps)%Z = (nth j ll 0 / Z.of_nat ps)%Z -> i = j;
}.

Section Slots.
Variables (ps : nat) (oob : nat -> Z) (pl sl : list nat) (ll : list Z) (b : allocator) (held : list Z).
Hypothesis ps_pos : 0 < ps.
Hypothesis b_owns : Owns b held.
Hypothesis sl_len : length sl = length pl.
Hypothesis pl_le : forall i, i < length pl -> nth i pl 0 <= nth i sl 0.
Hypothesis enough : prefix (new_of ps pl sl) (length pl) <= length (free_pages b).
Hypothesis tails : tails_ok ps pl ll held.
#[local] Abbreviation pre i := (nth i pl 0).
#[local] Abbreviation sq i := (nth i sl 0).
#[local] Abbreviation new := (new_of ps pl sl).
#[local] Abbreviation ext := (ext_of pl sl).
#[local] Abbreviation tloc := (token_loc ps oob pl sl ll (free_pages b)).

(** The page of block [j] of request [i]: the one it ends in, or a new one. *)
Definition page_at (i j : nat) : Z :=
  if j <? cdiv (pre i) ps then (nth i ll 0 / Z.of_nat ps)%Z
  else tl_load oob (free_pages b) (prefix new i + (j - cdiv (pre i) ps)).

Lemma partial_prefix p k : p + k < cdiv p ps * ps ->
  p mod ps <> 0 /\ (p + k) / ps = p / ps /\ p / ps < cdiv p ps /\
  (p + k) mod ps = p mod ps + k /\ p mod ps + k < ps.
Proof.
  intros Hk. rewrite (cdiv_full ps p ps_pos) in *. pose proof (Nat.div_mod_eq p ps) as E.
  pose proof (Nat.mod_upper_bound p ps ltac:(lia)).
  destruct (Nat.eqb_spec (p mod ps) 0); [lia|].
  assert ((p + k) / ps = p / ps) by (symmetry; apply (Nat.div_unique _ _ _ (p mod ps + k)); lia).
  assert ((p + k) mod ps = p mod ps + k) by (symmetry; apply (Nat.mod_unique _ _ (p / ps)); lia).
  repeat split; lia.
Qed.

(** Every slot lies in the page of its block, at the offset of its position. *)
Lemma token_page i k : i < length pl ->
  tloc i k = (page_at i ((pre i + k) / ps) * Z.of_nat ps + Z.of_nat ((pre i + k) mod ps))%Z.
Proof.
  intros Hi. unfold page_at.
  destruct (decide (pre i + k < cdiv (pre i) ps * ps)) as [Hk|Hk].
  - rewrite loc_old by done. destruct (partial_prefix _ _ Hk) as (Hr & -> & Hd & -> & Hk').
    destruct (Nat.ltb_spec (pre i / ps) (cdiv (pre i) ps)); [|lia].
    pose proof (to_offset _ _ _ _ tails i Hi Hr) as Ho.
    pose proof (Z.div_mod (nth i ll 0 + 1)%Z (Z.of_nat ps) ltac:(lia)) as E. rewrite Ho in E.
    assert (nth i ll 0 / Z.of_nat ps = (nth i ll 0 + 1) / Z.of_nat ps)%Z as ->; [|lia].
    symmetry. apply (Z.div_unique _ _ _ (Z.of_nat (pre i mod ps) - 1)); lia.
  - rewrite (loc_new ps oob pl sl ll (free_pages b) ps_pos sl_len i k (pre i + k - cdiv (pre i) ps * ps)) by lia.
    set (c := cdiv (pre i) ps) in *.
    assert (E : pre i + k = (pre i + k - c * ps) + c * ps) by lia.
    assert (Hd : (pre i + k) / ps = (pre i + k - c * ps) / ps + c)
      by (rewrite E at 1; by rewrite Nat.div_add by lia).
    assert (Hm : (pre i + k) mod ps = (pre i + k - c * ps) mod ps)
      by (rewrite E at 1; by rewrite Nat.Div0.mod_add).
    rewrite Hd, Hm. destruct (Nat.ltb_spec ((pre i + k - c * ps) / ps + c) c); [lia|].
    by rewrite Nat.add_sub.
Qed.

(** The index of a new block among the new pages of its request. *)
Lemma block_range i k : i < length pl -> k < ext i ->
  (pre i + k) / ps < cdiv (sq i) ps /\ (pre i / ps <= (pre i + k) / ps).
Proof.
  intros Hi Hk. unfold ext_of in Hk. split; [|apply Nat.Div0.div_le_mono; lia].
  apply Nat.Div0.div_lt_upper_bound. pose proof (cdiv_mul_ge (sq i) ps ps_pos). lia.
Qed.

(** Whether block [j] of request [i] goes to an old page, or to the free page
    with a certain index. *)
Lemma page_at_cases i k : i < length pl -> k < ext i ->
  let j := (pre i + k) / ps in
  (j < cdiv (pre i) ps /\ j = pre i / ps /\ pre i mod ps <> 0 /\
   page_at i j = (nth i ll 0 / Z.of_nat ps)%Z) \/
  (cdiv (pre i) ps <= j /\ j - cdiv (pre i) ps < new i /\
   free_pages b !! (prefix new i + (j - cdiv (pre i) ps)) = Some (page_at i j)).
Proof.
  intros Hi Hk j. destruct (block_range i k Hi Hk) as [H1 H2]. fold j in H1, H2.
  unfold page_at. destruct (Nat.ltb_spec j (cdiv (pre i) ps)) as [Hj|Hj].
  - left. rewrite (cdiv_full ps (pre i) ps_pos) in Hj.
    destruct (Nat.eqb_spec (pre i mod ps) 0); [lia|]. split; [|split; [lia|done]].
    rewrite (cdiv_full ps (pre i) ps_pos). destruct (Nat.eqb_spec (pre i mod ps) 0); lia.
  - right. split; [done|]. split; [unfold new_of; lia|].
    pose proof (prefix_mono new (S i) (length pl) Hi) as Hm. simpl in Hm.
    destruct (lookup_lt_is_Some_2 (free_pages b) (prefix new i + (j - cdiv (pre i) ps))) as [p Hp];
      [unfold new_of in *; lia|]. unfold tl_load. by rewrite Hp.
Qed.

Lemma page_at_inj i k i' k' :
  i < length pl -> k < ext i -> i' < length pl -> k' < ext i' ->
  page_at i ((pre i + k) / ps) = page_at i' ((pre i' + k') / ps) ->
  i = i' /\ (pre i + k) / ps = (pre i' + k') / ps.
Proof.
  intros Hi Hk Hi' Hk' E. pose proof (owns_NoDup _ _ b_owns) as Hnd.
  apply NoDup_app in Hnd as (Hfp & Hdis & _).
  assert (Hfh : forall p t, free_pages b !! t = Some p -> p ∉ held).
  { intros p t Ht Hh. apply (Hdis p); [by apply list_elem_of_lookup_2 in Ht|].
    apply elem_of_app. by right. }
  destruct (page_at_cases i k Hi Hk) as [(_ & J1 & R1 & P1)|(C1 & N1 & P1)];
    destruct (page_at_cases i' k' Hi' Hk') as [(_ & J2 & R2 & P2)|(C2 & N2 & P2)].
  - rewrite P1, P2 in E. pose proof (to_own _ _ _ _ tails i i' Hi Hi' R1 R2 E) as ->.
    split; [done|]. lia.
  - exfalso. rewrite <- E, P1 in P2. apply (Hfh _ _ P2). by apply (to_held _ _ _ _ tails).
  - exfalso. rewrite E, P2 in P1. apply (Hfh _ _ P1). by apply (to_held _ _ _ _ tails).
  - rewrite <- E in P2. pose proof (NoDup_lookup _ _ _ _ Hfp P1 P2) as Ei.
    assert (i = i') as <-; [|split; [done|lia]].
    apply (prefix_unique new i i' (prefix new i + ((pre i + k) / ps - cdiv (pre i) ps))); lia.
Qed.

Lemma extend_at i k : i < length pl -> k < ext i ->
  extend_spec ps oob pl sl ll (free_pages b) !! (prefix ext i + k) = Some (tloc i k).
Proof.
  intros Hi Hk. unfold extend_spec.
  set (g := fun i => map (fun k => loc_of ps oob (pre i) (nth i ll 0%Z) (free_pages b)
                                      (prefix new i) (pre i + k)) (seq 0 (ext i))).
  assert (Hg : forall i, length (g i) = ext i) by (intros; unfold g; by rewrite length_map, length_seq).
  assert (Hpg : forall i, prefix (fun i => length (g i)) i = prefix ext i)
    by (induction i0; simpl; rewrite ?Hg; lia).
  rewrite <- Hpg, lookup_concat_seq by (rewrite ?Hg; lia). unfold g.
  by rewrite list_lookup_fmap, lookup_seq_lt.
Qed.

Lemma extend_lookup t x :
  extend_spec ps oob pl sl ll (free_pages b) !! t = Some x ->
  exists i k, i < length pl /\ k < ext i /\ t = prefix ext i + k /\ x = tloc i k.
Proof.
  intros Ht. pose proof (lookup_lt_Some _ _ _ Ht) as Hlt.
  rewrite length_extend_spec in Hlt. destruct (prefix_find ext (length pl) t Hlt) as (i & Hi & Hr).
  exists i, (t - prefix ext i). split; [done|]. split; [lia|]. split; [lia|].
  replace t with (prefix ext i + (t - prefix ext i)) in Ht at 1 by lia.
  rewrite extend_at in Ht by lia. by simplify_eq.
Qed.

Lemma extend_NoDup : NoDup (extend_spec ps oob pl sl ll (free_pages b)).
Proof.
  apply NoDup_alt. intros t t' x Ht Ht'.
  apply extend_lookup in Ht as (i & k & Hi & Hk & -> & ->).
  apply extend_lookup in Ht' as (i' & k' & Hi' & Hk' & -> & E).
  rewrite !token_page in E by done.
  pose proof (Nat.mod_upper_bound (pre i + k) ps ltac:(lia)).
  pose proof (Nat.mod_upper_bound (pre i' + k') ps ltac:(lia)).
  assert (Ep : page_at i ((pre i + k) / ps) = page_at i' ((pre i' + k') / ps)).
  { rewrite <- (slot_page ps (page_at i _) ((pre i + k) mod ps)), E, slot_page by lia. done. }
  destruct (page_at_inj i k i' k' Hi Hk Hi' Hk' Ep) as [<- Ed].
  rewrite <- Ep in E. pose proof (Nat.div_mod_eq (pre i + k) ps).
  pose proof (Nat.div_mod_eq (pre i + k') ps). rewrite <- Ed in *. lia.
Qed.

(** Every slot is in a page the clients held or in one of the new pages. *)
Lemma extend_pages_in x :
  x ∈ extend_spec ps oob pl sl ll (free_pages b) ->
  (x / Z.of_nat ps)%Z ∈ take (prefix new (length pl)) (free_pages b) ++ held.
Proof.
  intros (t & Ht)%list_elem_of_lookup. apply extend_lookup in Ht as (i & k & Hi & Hk & _ & ->).
  rewrite token_page, slot_page by (done || (apply Nat.mod_upper_bound; lia)).
  apply elem_of_app. destruct (page_at_cases i k Hi Hk) as [(_ & _ & R & ->)|(C & N & P)].
  - right. by apply (to_held _ _ _ _ tails).
  - left. apply list_elem_of_lookup. eexists. rewrite lookup_take_lt; [exact P|].
    pose proof (prefix_mono new (S i) (length pl) Hi) as Hm. simpl in Hm. lia.
Qed.

(** Every new page gets a slot. *)
Lemma extend_pages_hit p : p ∈ take (prefix new (length pl)) (free_pages b) ->
  exists x, x ∈ extend_spec ps oob pl sl ll (free_pages b) /\ (x / Z.of_nat ps)%Z = p.
Proof.
  intros (t & Ht)%list_elem_of_lookup. apply lookup_take_Some in Ht as [Ht Hlt].
  destruct (prefix_find new (length pl) t Hlt) as (i & Hi & Hr). set (j := cdiv (pre i) ps + (t - prefix new i)).
  pose proof (cdiv_mul_ge (pre i) ps ps_pos) as Hge. pose proof (cdiv_mul_lt (sq i) ps ps_pos) as Hls.
  assert (Hj : j < cdiv (sq i) ps) by (assert (new i = cdiv (sq i) ps - cdiv (pre i) ps) by done; unfold j; lia).
  assert (Hk : j * ps - pre i < ext i) by (unfold ext_of; pose proof (pl_le i Hi); unfold j in *; nia).
  exists (tloc i (j * ps - pre i)). split; [eapply list_elem_of_lookup_2; by apply extend_at|].
  assert (Ep : pre i + (j * ps - pre i) = j * ps) by (unfold j in *; nia).
  rewrite token_page, Ep, Nat.div_mul, Nat.Div0.mod_mul by (done || lia). rewrite slot_page by lia. unfold page_at.
  destruct (Nat.ltb_spec j (cdiv (pre i) ps)); [unfold j in *; lia|].
  replace (prefix new i + (j - cdiv (pre i) ps)) with t by (unfold j; lia). unfold tl_load. by rewrite Ht.
Qed.

(** A slot of an old page comes behind the last one of its request. *)
Lemma extend_behind x : x ∈ extend_spec ps oob pl sl ll (free_pages b) ->
  (x / Z.of_nat ps)%Z ∈ take (prefix new (length pl)) (free_pages b) \/
  exists i, i < length pl /\ pre i mod ps <> 0 /\ (x / Z.of_nat ps)%Z = (nth i ll 0 / Z.of_nat ps)%Z /\ (nth i ll 0 < x)%Z.
Proof.
  intros (t & Ht)%list_elem_of_lookup. apply extend_lookup in Ht as (i & k & Hi & Hk & _ & ->).
  destruct (page_at_cases i k Hi Hk) as [(C & J & R & P)|(C & N & P)].
  - right. exists i. split; [done|]. split; [done|].
    assert (Hc : pre i + k < cdiv (pre i) ps * ps).
    { pose proof (Nat.div_mod_eq (pre i + k) ps). pose proof (Nat.mod_upper_bound (pre i + k) ps ltac:(lia)). nia. }
    split; [|rewrite loc_old by done; lia]. rewrite token_page, slot_page by (done || (apply Nat.mod_upper_bound; lia)). done.
  - left. rewrite token_page, slot_page by (done || (apply Nat.mod_upper_bound; lia)).
    apply list_elem_of_lookup. eexists. rewrite lookup_take_lt; [exact P|].
    pose proof (prefix_mono new (S i) (length pl) Hi) as Hm. simpl in Hm. lia.
Qed.

End Slots.

(** *** What the clients hold after an allocation *)

Section Held.
Variables (ps : nat) (held : list Z).

Lemma pages_of_NoDup l : NoDup (pages_of ps l).
Proof. apply torch_unique_NoDup. Qed.

Lemma elem_of_pages_app l l' p : p ∈ pages_of ps (l ++ l') <-> p ∈ pages_of ps l \/ p ∈ pages_of ps l'.
Proof. rewrite !pages_of_spec. setoid_rewrite elem_of_app. naive_solver. Qed.

Lemma pages_of_perm l l' : l ≡ₚ l' -> pages_of ps l ≡ₚ pages_of ps l'.
Proof.
  intros E. apply NoDup_Permutation; [apply pages_of_NoDup..|]. intros p. rewrite !pages_of_spec. by setoid_rewrite E.
Qed.

Lemma pages_of_split idx rest : whole_pages ps idx rest -> pages_of ps (idx ++ rest) ≡ₚ pages_of ps idx ++ pages_of ps rest.
Proof.
  intros Hw. apply NoDup_Permutation; [apply pages_of_NoDup| |].
  - apply NoDup_app. split; [apply pages_of_NoDup|]. split; [|apply pages_of_NoDup].
    intros p (x & Hx & ->)%pages_of_spec (y & Hy & E)%pages_of_spec. by apply (Hw x y).
  - intros p. by rewrite elem_of_pages_app, elem_of_app.
Qed.

(** The slots of fresh pages. *)
Lemma fresh_pages a' pages : 0 < ps -> NoDup held -> Owns a' (pages ++ pages_of ps held) ->
  Owns a' (pages_of ps (page_slots ps pages ++ held)) /\ NoDup (page_slots ps pages ++ held).
Proof.
  intros Hps Hn Ho. pose proof (held_NoDup _ _ Ho) as Hnd. apply NoDup_app in Hnd as (Hp & Hd & _).
  assert (Hw : whole_pages ps (page_slots ps pages) held).
  { intros x y (p & o & Hpp & Hoo & ->)%elem_of_page_slots Hy E. rewrite slot_page in E by done.
    apply (Hd p Hpp). apply pages_of_spec. by exists y. }
  split; [by rewrite pages_of_split, pages_of_page_slots|]. apply NoDup_app. split; [by apply page_slots_NoDup|].
  split; [|done]. intros x Hx Hy. by apply (Hw x x).
Qed.

Lemma ends_tails pl ll : 0 < ps -> ends_ok ps pl ll held -> tails_ok ps pl ll (pages_of ps held).
Proof.
  intros Hps [E1 E2 E3 E4]. split; [done| |done]. intros i Hi Hr. apply pages_of_spec. exists (nth i ll 0%Z). auto.
Qed.

(** The slots of an extension. *)
Lemma extended oob pl sl ll b a' : 0 < ps -> NoDup held -> Owns b (pages_of ps held) -> length sl = length pl ->
  (forall i, i < length pl -> nth i pl 0 <= nth i sl 0) ->
  prefix (new_of ps pl sl) (length pl) <= length (free_pages b) -> ends_ok ps pl ll held ->
  Owns a' (take (prefix (new_of ps pl sl) (length pl)) (free_pages b) ++ pages_of ps held) ->
  let out := extend_spec ps oob pl sl ll (free_pages b) in
  Owns a' (pages_of ps (out ++ held)) /\ NoDup (out ++ held).
Proof.
  intros Hps Hn Hb Hlen Hle Hen He Ho out. pose proof (ends_tails pl ll Hps He) as Ht.
  pose proof (held_NoDup _ _ Ho) as Hnd. pose proof Hnd as (_ & Hd & _)%NoDup_app. split.
  - rewrite (NoDup_Permutation (pages_of ps (out ++ held))
      (take (prefix (new_of ps pl sl) (length pl)) (free_pages b) ++ pages_of ps held)); [done|apply pages_of_NoDup|done|].
    intros p. rewrite elem_of_pages_app, elem_of_app. split.
    + intros [(x & Hx & ->)%pages_of_spec|Hp]; [|by right]. apply elem_of_app.
      by apply (extend_pages_in ps oob pl sl ll b (pages_of ps held)).
    + intros [Hp|Hp]; [left|by right]. apply pages_of_spec.
      destruct (extend_pages_hit ps oob pl sl ll b (pages_of ps held) Hps Hlen Hle Hen Ht p Hp) as (x & Hx & <-). by exists x.
  - apply NoDup_app. split; [by apply (extend_NoDup ps oob pl sl ll b (pages_of ps held))|]. split; [|done].
    intros x Hx Hh.
    destruct (extend_behind ps oob pl sl ll b (pages_of ps held) Hps Hlen Hen Ht x Hx) as [Hp|(i & Hi & Hr & Hp & Hlt)].
    + apply (Hd _ Hp). apply pages_of_spec. by exists x.
    + pose proof (en_last _ _ _ _ He i x Hi Hr Hh Hp). lia.
Qed.

Lemma concat_map_single {A B} (f : A -> B) l : concat (map (fun x => [f x]) l) = map f l.
Proof. induction l as [|x l IH]; [done|]. simpl. by rewrite IH. Qed.

(** The slot of a decoded token is the one an extension by a token gives. *)
Lemma decode_loc oob p l n fp : 1 < ps ->
  (if cdiv (S p) ps - cdiv p ps =? 0 then (l + 1)%Z else (tl_load oob fp n * Z.of_nat ps)%Z) =
  loc_of ps oob p l fp n p.
Proof.
  intros Hps. pose proof (new_page_decode ps (S p) Hps) as En. rewrite Nat.sub_1_r in En. simpl pred in En. rewrite En.
  unfold loc_of. rewrite (cdiv_full ps p) by lia. pose proof (Nat.div_mod_eq p ps) as Ed.
  pose proof (Nat.mod_upper_bound p ps ltac:(lia)) as Hm. destruct (Nat.eqb_spec (p mod ps) 0) as [E0|E0].
  - assert (S p mod ps = 1) as -> by (symmetry; apply (Nat.mod_unique _ _ (p / ps)); lia). cbn [Nat.eqb].
    destruct (Nat.ltb_spec p ((p / ps + 0) * ps)); [lia|]. rewrite E0.
    rewrite Nat.add_0_r, Nat.sub_diag, Nat.add_0_r. lia.
  - destruct (Nat.ltb_spec p ((p / ps + 1) * ps)); [|lia].
    destruct (Nat.eqb_spec (S p mod ps) 1) as [Em|Em]; [exfalso|cbn [Nat.eqb]; rewrite Nat.sub_diag; lia].
    destruct (decide (S (p mod ps) = ps)) as [Ex|Ex].
    + assert (S p mod ps = 0) by (symmetry; apply (Nat.mod_unique _ _ (p / ps + 1)); lia). lia.
    + assert (S p mod ps = S (p mod ps)) by (symmetry; apply (Nat.mod_unique _ _ (p / ps)); lia). lia.
Qed.

(** A decode step is an extension by one token. *)
Lemma decode_extend oob sl ll fp : 1 < ps -> (forall n, n ∈ sl -> 0 < n) ->
  decode_spec ps oob sl ll fp = extend_spec ps oob (map pred sl) sl ll fp.
Proof.
  intros Hps Hpos. unfold decode_spec, extend_spec. rewrite length_map. cbn zeta.
  rewrite <- (concat_map_single _ (seq 0 (length sl))). f_equal. apply map_ext_in. intros i Hi%in_seq.
  assert (Hs : 0 < nth i sl 0) by (apply Hpos, list_elem_of_In, nth_In; lia).
  unfold ext_of at 1. unfold new_of at 1. rewrite !nth_pred.
  replace (nth i sl 0 - (nth i sl 0 - 1)) with 1 by lia. cbn [seq map]. rewrite Nat.add_0_r.
  set (p := nth i sl 0 - 1). replace (nth i sl 0) with (S p) at 1 by lia. f_equal. by apply decode_loc.
Qed.

End Held.

(** ** The steps *)

Section Reach.
Variable d : device.
Context `{!DeviceLaws d}.

(** What every step keeps: the invariant, the configuration, and that a backup can
    be restored. *)
Record Good (a0 : allocator) (c : allocator * list Z * list saved) : Prop := {
  gd_inv : Inv (fst (fst c)) (snd (fst c));
  gd_config : same_config a0 (fst (fst c));
  gd_saved : forall st old, (st, old) ∈ snd c -> Owns (restore_state st a0) (pages_of (page_size a0) old) /\ NoDup old;
}.

(** A step that keeps the backups. *)
Lemma paged_good_step a0 a held bk a' held' :
  Good a0 (a, held, bk) -> same_config a a' -> Owns a' (pages_of (page_size a) held') -> NoDup held' -> Good a0 (a', held', bk).
Proof.
  intros [_ Hc Hs] Hc' Ho Hn. split; [|by etransitivity|done]. simpl. split; [|done].
  destruct Hc' as (_ & -> & _). done.
Qed.

Lemma clear_held a : Owns (clear a) (pages_of (page_size a) []).
Proof. apply clear_owns. Qed.

Lemma kept_pages a held held' idx : Owns a (pages_of (page_size a) held) -> held ≡ₚ idx ++ held' ->
  whole_pages (page_size a) idx held' -> pages_of (page_size a) held ≡ₚ pages_of (page_size a) idx ++ pages_of (page_size a) held'.
Proof. intros _ E Hw. by rewrite (pages_of_perm _ _ _ E), pages_of_split. Qed.

Lemma group_end_owns a held held' a' : Owns a (pages_of (page_size a) held) -> is_not_in_free_group a = false ->
  held ≡ₚ pending a ++ held' -> whole_pages (page_size a) (pending a) held' -> free_group_end free a = Ok a' ->
  Owns a' (pages_of (page_size a) held') /\ same_config a a'.
Proof.
  intros Ho Hg Hh Hw E. pose proof (kept_pages a held held' _ Ho Hh Hw) as Hp. unfold free_group_end in E.
  unfold pending in *. rewrite Hg in *. simpl in E. destruct (free_group a) as [|g gs] eqn:Eg.
  - simplify_eq. split; [|by repeat split]. rewrite Hp in Ho. destruct Ho. by split.
  - split; [|by apply paged_free_config in E]. eapply (paged_free_spec (with_group true (g :: gs) a)); [|done|exact Hp|exact E].
    destruct Ho. by split.
Qed.

Lemma paged_step_good a0 c c' : 1 < page_size a0 -> step d c c' -> Good a0 c -> Good a0 c'.
Proof.
  intros Hps Hstep HG. pose proof HG as [[Ho Hn] Hc Hs]. simpl in Ho, Hn.
  assert (Eps : page_size (fst (fst c)) = page_size a0) by apply Hc.
  destruct Hstep as [a held bk k out a' E|a held bk k a' E|a held bk pl sl ll m out a' Hx He E|a held bk pl sl ll m a' E
    |a held bk sl ll out a' Hx He E|a held bk sl ll a' E|a held bk idx held' a' Hg Hh Hw E|a held bk idx a' Hg Hh E
    |a held bk Hg|a held bk held' a' Hg Hh Hw E|a held bk|a held bk|a held bk st old Hin Hpe|a held bk]; simpl in *.
  - destruct (paged_alloc_spec _ _ _ _ _ Ho ltac:(lia) E) as (Hk & pages & -> & _ & _ & Ho').
    destruct (fresh_pages (page_size a) held a' pages ltac:(lia) Hn Ho'). by eapply paged_good_step.
  - destruct (paged_alloc_spec _ _ _ _ _ Ho ltac:(lia) E) as (Hk & Ho' & _). by eapply paged_good_step.
  - destruct (extend_spec_op d _ _ _ _ _ _ _ _ Ho ltac:(lia) Hx E) as (Hk & -> & Hen & Ho'). destruct Hx as [X1 X2 X3].
    destruct (premerge_spec (m / page_size a + length pl + 1) 0 a _ Ho ltac:(lia)) as (Hb & _).
    destruct (extended (page_size a) held (d_oob d) pl sl ll _ a' ltac:(lia) Hn Hb X1 X2 Hen He Ho'). by eapply paged_good_step.
  - apply debug_assert_ok in E. cbn zeta in E. apply debug_assert_ok in E.
    destruct (alloc_fail_owns _ _ _ _ _ _ Ho E) as [Hk Ho']. by eapply paged_good_step.
  - destruct (decode_spec_op d _ _ _ _ _ _ Ho ltac:(lia) E) as (Hk & -> & Hen & Ho').
    destruct (premerge_spec (length sl) 0 a _ Ho ltac:(lia)) as (Hb & _). unfold decode_pages in Ho'.
    rewrite decode_extend by (done || lia).
    destruct (extended (page_size a) held (d_oob d) (map pred sl) sl ll (premerge (length sl) a) a') as [H1 H2];
      [lia|done|done|by rewrite length_map|intros i Hi; rewrite nth_pred; lia|by rewrite length_map|done|by rewrite length_map|by eapply paged_good_step].
  - apply debug_assert_ok in E. cbn zeta in E. apply debug_assert_ok in E.
    destruct (alloc_fail_owns _ _ _ _ _ _ Ho E) as [Hk Ho']. by eapply paged_good_step.
  - eapply paged_good_step; [done|by eapply paged_free_config| |].
    + by eapply (paged_free_spec a); [| |by apply (kept_pages a)|].
    + rewrite Hh in Hn. by apply NoDup_app in Hn as (_ & _ & ?).
  - eapply paged_good_step; [done|by eapply paged_free_config| |done]. unfold free in E. rewrite Hg in E.
    destruct idx as [|i idx]; [by simplify_eq|]. apply debug_assert_ok in E. simplify_eq. destruct Ho; by split.
  - eapply paged_good_step; [done|by repeat split| |done]. destruct Ho; by split.
  - destruct (group_end_owns a held held' a' Ho Hg Hh Hw E) as [Ho' Hk]. eapply paged_good_step; [done|done|done|].
    rewrite Hh in Hn. by apply NoDup_app in Hn as (_ & _ & ?).
  - eapply paged_good_step; [done|apply merge_config|by apply merge_owns|done].
  - split; [by split|done|]. simpl. intros st old [[= -> ->]|Hin]%elem_of_cons; [|by apply Hs].
    split; [|done]. apply (restore_owns a0 a); [done|]. rewrite <- Eps. destruct Ho; by split.
  - destruct (Hs _ _ Hin) as [Hr Hn']. eapply paged_good_step; [done|by repeat split| |done].
    rewrite Eps. by apply (restore_owns a0 a).
  - eapply paged_good_step; [done|by repeat split|apply clear_held|constructor].
Qed.

Lemma paged_reachable_good sz ps sort debug c :
  1 < ps -> rtc (step d) (init sz ps sort debug, [], []) c -> Good (init sz ps sort debug) c.
Proof.
  intros Hps Hr. assert (H0 : Good (init sz ps sort debug) (init sz ps sort debug, [], [])).
  { split; [split; [exact (clear_held (mkAlloc sz ps (sz / ps) sort debug [] [] true []))|constructor]|done|]. intros st old Hin. by apply not_elem_of_nil in Hin. }
  assert (H1 : 1 < page_size (init sz ps sort debug)) by done.
  revert H0 H1. generalize (init sz ps sort debug) at 1 3 4 as a0. intros a0 H0 H1. revert H0.
  induction Hr as [|c0 c1 c2 Hs _ IH]; [done|]. intros H0. apply IH. by eapply paged_step_good.
Qed.

End Reach.

(** C10. Whatever sequence of allocations, extensions, decode steps, (grouped) frees,
    merges, backups, restores and [clear] clients run on a fresh
    [PagedTokenToKVPoolAllocator] with pages of at least two slots, in debug mode or
    not: the slots that the calls returned and that were not freed are pairwise
    distinct, none of them is in page [0] or beyond the last page, and the pages they
    lie in and the available pages add up to [size // page_size].  The clients free
    only slots they hold, with every held slot of the pages, and extend a sequence
    behind its last slot; after a restore or a clear they count only what they held at
    the backup, or nothing. *)
Theorem paged_pages_unique (d : device) (sz ps : nat) (sort debug : bool) a held bk :
  DeviceLaws d -> 1 < ps -> rtc (step d) (init sz ps sort debug, [], []) (a, held, bk) ->
  NoDup held /\ (forall x, x ∈ held -> (Z.of_nat ps <= x < Z.of_nat (ps + sz / ps * ps))%Z) /\
  available_size a + length (pages_of ps held) * ps = sz / ps * ps.
Proof.
  intros Hd Hps Hr. destruct (paged_reachable_good d sz ps sort debug _ Hps Hr) as [[Ho Hn] (_ & Eps & En & _) _].
  simpl in *. rewrite Eps in Ho. split; [done|]. split.
  - intros x Hx. assert (Hp : (x / Z.of_nat ps)%Z ∈ pages_of ps held) by (apply pages_of_spec; by exists x).
    pose proof (held_range _ _ Ho _ Hp) as Hrg. rewrite En in Hrg. cbn in Hrg.
    pose proof (Z.div_mod x (Z.of_nat ps) ltac:(lia)). pose proof (Z.mod_pos_bound x (Z.of_nat ps) ltac:(lia)). nia.
  - pose proof (owns_count _ _ Ho) as Hc. rewrite En in Hc. cbn in Hc. unfold available_size. rewrite Eps. nia.
Qed.


(** A run on a device that executes the program instances in reverse order. *)
Definition demo_device : device :=
  mkDevice (fun n => repeat 0%Z n) (fun n => rev (seq 0 n)) (fun _ => 0%Z) (fun _ => 0).

#[export] Instance demo_laws : DeviceLaws demo_device.
Proof. split; intros n; [apply repeat_length|symmetry; apply Permutation_rev]. Qed.

Definition state_of {A} (r : res (A * allocator)) (a : allocator) : allocator :=
  match r with Ok (_, a') => a' | Raise _ => a end.

Definition demo0 : allocator := init 16 4 true true.
Definition demo1 : allocator := state_of (alloc_extend demo_device [0] [6] [-1]%Z 6 demo0) demo0.
Definition demo2 : allocator := state_of (alloc_extend demo_device [6] [9] [9]%Z 3 demo1) demo1.
Definition demo3 : allocator := state_of (alloc 4 demo2) demo2.

(** Six tokens, three more behind them, a page for another client, a backup, a
    [clear], and the restore. *)
Lemma demo_start :
  alloc_extend demo_device [0] [6] [-1]%Z 6 demo0 = Ok (Some [4; 5; 6; 7; 8; 9]%Z, demo1).
Proof. vm_compute. reflexivity. Qed.

Lemma demo_extend :
  alloc_extend demo_device [6] [9] [9]%Z 3 demo1 = Ok (Some [10; 11; 12]%Z, demo2).
Proof. vm_compute. reflexivity. Qed.

Lemma demo_ok0 : extend_ok [0] [6] 6.
Proof. split; [done| |done]. intros [|i] Hi; simpl in *; lia. Qed.

Lemma demo_ok : extend_ok [6] [9] 3.
Proof. split; [done| |done]. intros [|i] Hi; simpl in *; lia. Qed.

Lemma demo_ends : ends_ok 4 [6] [9]%Z [4; 5; 6; 7; 8; 9]%Z.
Proof.
  split.
  - intros [|i] Hi; [reflexivity|simpl in Hi; lia].
  - intros [|i] Hi; [|simpl in Hi; lia]. intros _. simpl. do 5 right. left.
  - intros [|i] x Hi; [|simpl in Hi; lia]. intros _ Hx _. repeat (apply elem_of_cons in Hx as [->|Hx]; [simpl; lia|]).
    by apply not_elem_of_nil in Hx.
  - intros [|i] [|j] Hi Hj; simpl in Hi, Hj; lia.
Qed.

Lemma demo_ends0 : ends_ok 4 [0] [-1]%Z [].
Proof.
  split.
  - intros [|i] Hi Hr; [done|simpl in Hi; lia].
  - intros [|i] Hi Hr; [done|simpl in Hi; lia].
  - intros [|i] x Hi Hr; [done|simpl in Hi; lia].
  - intros [|i] j Hi Hj Hr; [done|simpl in Hi; lia].
Qed.

Definition demo_held : list Z := [16; 17; 18; 19; 10; 11; 12; 4; 5; 6; 7; 8; 9]%Z.

Lemma paged_demo_reachable : rtc (step demo_device) (demo0, [], [])
  (restore_state (backup_state demo3) (clear demo3), demo_held, [(backup_state demo3, demo_held)]).
Proof.
  eapply rtc_l; [exact (s_extend _ demo0 [] [] [0] [6] [-1]%Z 6 _ _ demo_ok0 demo_ends0 demo_start)|].
  eapply rtc_l; [exact (s_extend _ demo1 _ _ [6] [9] [9]%Z 3 _ _ demo_ok demo_ends demo_extend)|].
  eapply rtc_l; [apply (s_alloc _ _ _ _ 4 [16; 17; 18; 19]%Z); vm_compute; reflexivity|].
  eapply rtc_l; [apply s_backup|]. eapply rtc_l; [apply s_clear|].
  eapply rtc_l; [|apply rtc_refl]. apply s_restore; [left|apply submseteq_nil_l].
Qed.

Lemma paged_pages_unique_witness :
  let a := restore_state (backup_state demo3) (clear demo3) in
  NoDup demo_held /\ (forall x, x ∈ demo_held -> (Z.of_nat 4 <= x < Z.of_nat (4 + 16 / 4 * 4))%Z) /\
  available_size a + length (pages_of 4 demo_held) * 4 = 16 / 4 * 4.
Proof.
  apply (paged_pages_unique demo_device 16 4 true true _ demo_held [(backup_state demo3, demo_held)]);
    [apply demo_laws|lia|exact paged_demo_reachable].
Defined.

End Paged.
