(* ===== verification/MemoryPool.v ===== *)
(** The request pools of [srt/mem_cache/memory_pool.py]: [ReqToTokenPool] (the
    slots of the request table), [MambaPool] (the slots of the linear-attention
    state tensors) and [HybridReqToTokenPool], which gives every request one of
    each and records the pairing on the device.

    A tensor of shape [(layers, slots) + cell] is a list of layers of lists of
    cells; the cell type is abstract.  The theorems show that live requests
    never share a slot, that a freshly allocated state slot reads as zero in
    every layer, that an allocation leaves the states of the other requests
    alone, and that the device mapping agrees with the requests. *)
From stdpp Require Import base list sorting relations.
From Stdlib Require Import ZArith Lia.
From S2P Require Import Prelude.
Local Open Scope nat_scope.

(** * Slot lists *)

Section SlotLists.

(** [free] and [held] together are the slots [lo .. lo + size - 1], once each. *)
Definition Slots (lo size : nat) (free held : list nat) : Prop :=
  free ++ held ≡ₚ seq lo size.

#[export] Instance Slots_proper lo size : Proper ((≡ₚ) ==> (≡ₚ) ==> iff) (Slots lo size).
Proof. intros f f' Hf h h' Hh. unfold Slots. by rewrite Hf, Hh. Qed.

Lemma slots_NoDup lo size free held : Slots lo size free held -> NoDup (free ++ held).
Proof. unfold Slots. intros ->. apply NoDup_seq. Qed.

Lemma slots_held_NoDup lo size free held : Slots lo size free held -> NoDup held.
Proof. intros H%slots_NoDup. by apply NoDup_app in H as (_ & _ & ?). Qed.

Lemma slots_range lo size free held x :
  Slots lo size free held -> x ∈ free ++ held -> lo <= x < lo + size.
Proof. unfold Slots. intros ->. apply elem_of_seq. Qed.

Lemma slots_take lo size free held k :
  Slots lo size free held -> Slots lo size (drop k free) (take k free ++ held).
Proof.
  unfold Slots. intros <-. rewrite <- (take_drop k free) at 3. solve_Permutation.
Qed.

Lemma slots_give lo size free held l :
  Slots lo size free (l ++ held) -> Slots lo size (free ++ l) held.
Proof. unfold Slots. intros <-. solve_Permutation. Qed.

End SlotLists.

(** * Requests, as the pools see them *)

Module Pools.
Local Open Scope py_scope.

Record preq : Type := mkPreq {
  rid : nat;
  req_pool_idx : option nat;
  is_chunked : nat;
  kv_committed_len : nat;
  mamba_pool_idx : option nat;
  mamba_ping_pong_track_buffer : option (list nat);
  mamba_next_track_idx : option nat;
}.

Definition set_pool_idx (v : option nat) (r : preq) : preq :=
  mkPreq (rid r) v (is_chunked r) (kv_committed_len r) (mamba_pool_idx r)
    (mamba_ping_pong_track_buffer r) (mamba_next_track_idx r).

Definition set_mamba_idx (v : option nat) (r : preq) : preq :=
  mkPreq (rid r) (req_pool_idx r) (is_chunked r) (kv_committed_len r) v
    (mamba_ping_pong_track_buffer r) (mamba_next_track_idx r).

Definition set_track (b : list nat) (i : nat) (r : preq) : preq :=
  mkPreq (rid r) (req_pool_idx r) (is_chunked r) (kv_committed_len r) (mamba_pool_idx r)
    (Some b) (Some i).

(** ** [ReqToTokenPool] *)

Record req_pool : Type := mkReqPool {
  size : nat;
  max_context_len : nat;
  req_to_token : list (list Z);
  free_slots : list nat;
}.

Definition with_free (fs : list nat) (p : req_pool) : req_pool :=
  mkReqPool (size p) (max_context_len p) (req_to_token p) fs.

Definition req_init (sz mcl : nat) : req_pool :=
  mkReqPool sz mcl (repeat (repeat 0%Z mcl) sz) (seq 0 sz).

(** [write((row, slice(a, a + len(values))), values)]. *)
Definition write (row a : nat) (values : list Z) (p : req_pool) : res req_pool :=
  match req_to_token p !! row with
  | None => Raise IndexError
  | Some r =>
    if a + length values <=? length r
    then Ok (mkReqPool (size p) (max_context_len p)
               (<[row := py_splice a values r]> (req_to_token p)) (free_slots p))
    else Raise RuntimeError
  end.

Definition available_size (p : req_pool) : nat := length (free_slots p).

(** The requests that already have a slot and keep it. *)
Definition reusing (reqs : list preq) : list preq :=
  filter (fun r => is_Some (req_pool_idx r)) reqs.

(** The loop that hands the selected slots to the requests without one. *)
Fixpoint assign_slots (reqs : list preq) (select_index : list nat) : list preq :=
  match reqs with
  | [] => []
  | r :: reqs =>
    match req_pool_idx r with
    | Some _ => r :: assign_slots reqs select_index
    | None =>
      match select_index with
      | s :: rest => set_pool_idx (Some s) r :: assign_slots reqs rest
      | [] => r :: assign_slots reqs []
      end
    end
  end.

(** [ReqToTokenPool.alloc]. *)
Definition req_alloc (reqs : list preq) (p : req_pool)
    : res (option (list nat) * list preq * req_pool) :=
  passert (forallb (fun r => (0 <? is_chunked r) || (0 <? kv_committed_len r)) (reusing reqs))
   (let need_size := length reqs - length (reusing reqs) in
    if length (free_slots p) <? need_size then Ok (None, reqs, p)
    else
      let reqs' := assign_slots reqs (take need_size (free_slots p)) in
      Ok (Some (omap req_pool_idx reqs'), reqs', with_free (drop need_size (free_slots p)) p)).

(** [ReqToTokenPool.free]. *)
Definition req_free (r : preq) (p : req_pool) : res (preq * req_pool) :=
  match req_pool_idx r with
  | None => Raise AssertionError
  | Some i => Ok (set_pool_idx None r, with_free (free_slots p ++ [i]) p)
  end.

Definition req_clear (p : req_pool) : req_pool := with_free (seq 0 (size p)) p.

(** ** [MambaPool] *)

(** Cells of the state tensors. *)
Class Cell (V : Type) : Type := { zero_cell : V }.

(** A tensor of shape [(layers, slots) + cell]. *)
Abbreviation tensor V := (list (list V)).

Section Mamba.
Context {V : Type} `{Cell V}.

(** [MambaPool.State], with the intermediate buffers of [SpeculativeState]. *)
Record state : Type := mkState {
  conv : list (tensor V);
  temporal : tensor V;
  intermediate_ssm : option (tensor V);
  intermediate_conv_window : option (list (tensor V));
}.

(** One layer of every tensor. *)
Record layer_state : Type := mkLayer {
  l_conv : list (list V);
  l_temporal : list V;
  l_ssm : option (list V);
  l_window : option (list (list V));
}.

(** [t[layer]]. *)
Definition at_layer (layer : nat) (t : tensor V) : list V := nth layer t [].

(** [State.at_layer_idx]. *)
Definition at_layer_idx (layer : nat) (s : state) : layer_state :=
  mkLayer (map (at_layer layer) (conv s)) (at_layer layer (temporal s))
    (at_layer layer <$> intermediate_ssm s)
    (map (at_layer layer) <$> intermediate_conv_window s).

Record mamba_pool : Type := mkMamba {
  m_size : nat;
  num_mamba_layers : nat;
  mamba_cache : state;
  m_free : list nat;
}.

Definition zeros (layers slots : nat) : tensor V := repeat (repeat zero_cell slots) layers.

(** [MambaPool.__init__]: [nconv] is [len(cache_params.shape.conv)]; the two
    intermediate buffers exist with speculative decoding only. *)
Definition mamba_init (sz spec_state_size layers nconv : nat)
    (speculative_num_draft_tokens : option nat) : mamba_pool :=
  mkMamba sz layers
    (mkState (repeat (zeros layers (sz + 1)) nconv) (zeros layers (sz + 1))
       ((fun _ => zeros layers (spec_state_size + 1)) <$> speculative_num_draft_tokens)
       ((fun _ => repeat (zeros layers (spec_state_size + 1)) nconv)
          <$> speculative_num_draft_tokens))
    (seq 1 sz).

Definition m_available (p : mamba_pool) : nat := length (m_free p).

(** [t[:, idx] = v] for one index tensor: position [k] of [idx] receives the
    [k]-th given cell of every layer. *)
Definition scatter (idx : list nat) (vs : list (list V)) (t : tensor V) : tensor V :=
  zip_with (fun v row => fold_left (fun row ix => <[fst ix := snd ix]> row) (zip idx v) row) vs t.

(** [t[:, idx]]. *)
Definition gather (idx : list nat) (t : tensor V) : list (list V) :=
  map (fun row => map (fun i => nth i row zero_cell) idx) t.

(** [t[:, select_index] = 0]. *)
Definition clear_slots (idx : list nat) (t : tensor V) : tensor V :=
  scatter idx (repeat (repeat zero_cell (length idx)) (length t)) t.

Definition with_tensors (cv : list (tensor V)) (tp : tensor V) (s : state) : state :=
  mkState cv tp (intermediate_ssm s) (intermediate_conv_window s).

(** [MambaPool.alloc]. *)
Definition m_alloc (need_size : nat) (p : mamba_pool) : option (list nat) * mamba_pool :=
  if length (m_free p) <? need_size then (None, p)
  else
    let select_index := take need_size (m_free p) in
    (Some select_index,
     mkMamba (m_size p) (num_mamba_layers p)
       (with_tensors (map (clear_slots select_index) (conv (mamba_cache p)))
          (clear_slots select_index (temporal (mamba_cache p))) (mamba_cache p))
       (drop need_size (m_free p))).

(** [MambaPool.free]. *)
Definition m_free_slots (free_index : list nat) (p : mamba_pool) : mamba_pool :=
  match free_index with
  | [] => p
  | _ => mkMamba (m_size p) (num_mamba_layers p) (mamba_cache p) (m_free p ++ free_index)
  end.

Definition m_clear (p : mamba_pool) : mamba_pool :=
  mkMamba (m_size p) (num_mamba_layers p) (mamba_cache p) (seq 1 (m_size p)).

(** [MambaPool.copy_from]. *)
Definition copy_from (src_index dst_index : list nat) (p : mamba_pool) : mamba_pool :=
  let s := mamba_cache p in
  mkMamba (m_size p) (num_mamba_layers p)
    (with_tensors (map (fun t => scatter dst_index (gather src_index t) t) (conv s))
       (scatter dst_index (gather src_index (temporal s)) (temporal s)) s)
    (m_free p).

(** [MambaPool.fork_from]. *)
Definition fork_from (src_index : list nat) (p : mamba_pool) : option (list nat) * mamba_pool :=
  match m_alloc 1 p with
  | (None, p') => (None, p')
  | (Some dst_index, p') => (Some dst_index, copy_from src_index dst_index p')
  end.

(** ** [HybridReqToTokenPool] *)

Record hybrid_pool : Type := mkHybrid {
  h_req : req_pool;
  h_mamba : mamba_pool;
  mamba_map : list (nat * nat);
  track_buffer_size : nat;
  enable_mamba_extra_buffer : bool;
  index_mapping : list nat;
  track_mapping : list (list nat);
}.

(** [HybridReqToTokenPool.__init__] with [_init_mamba_pool]; [layers] is
    [cache_params.layers].  Both mapping tensors have [mamba_size] rows. *)
Definition hybrid_init (sz mamba_size spec_state_size mcl : nat) (layers : list nat) (nconv : nat)
    (extra overlap : bool) (draft : option nat) : hybrid_pool :=
  let tbs := if overlap then 2 else 1 in
  mkHybrid (req_init sz mcl)
    (mamba_init mamba_size spec_state_size (length layers) nconv draft)
    (zip layers (seq 0 (length layers)))
    tbs extra (repeat 0 mamba_size)
    (if extra then repeat (repeat 0 tbs) mamba_size else []).

Definition with_pools (rp : req_pool) (mp : mamba_pool) (p : hybrid_pool) : hybrid_pool :=
  mkHybrid rp mp (mamba_map p) (track_buffer_size p) (enable_mamba_extra_buffer p)
    (index_mapping p) (track_mapping p).

(** The state slot of one request of the batch. *)
Definition alloc_state (r : preq) (mp : mamba_pool) : res (nat * preq * mamba_pool) :=
  match mamba_pool_idx r with
  | Some mid => Ok (mid, r, mp)
  | None =>
    match m_alloc 1 mp with
    | (Some [mid], mp') => Ok (mid, set_mamba_idx (Some mid) r, mp')
    | _ => Raise AssertionError
    end
  end.

(** Its ping-pong tracking buffer. *)
Definition alloc_track (tbs : nat) (r : preq) (mp : mamba_pool)
    : res (list nat * preq * mamba_pool) :=
  match mamba_ping_pong_track_buffer r with
  | Some b => Ok (b, r, mp)
  | None =>
    match m_alloc tbs mp with
    | (Some b, mp') => Ok (b, set_track b 0 r, mp')
    | (None, _) => Raise AssertionError
    end
  end.

(** [for req in reqs]: the state slots, the tracking buffers, the requests. *)
Fixpoint alloc_states (extra : bool) (tbs : nat) (reqs : list preq) (mp : mamba_pool)
    : res (list nat * list (list nat) * list preq * mamba_pool) :=
  match reqs with
  | [] => Ok ([], [], [], mp)
  | r :: reqs =>
    let! '(mid, r, mp) := alloc_state r mp in
    let! '(bufs, r, mp) :=
      (if extra then let! '(b, r, mp) := alloc_track tbs r mp in Ok ([b], r, mp)
       else Ok ([], r, mp)) in
    let! '(mids, bufs', reqs, mp) := alloc_states extra tbs reqs mp in
    Ok (mid :: mids, bufs ++ bufs', r :: reqs, mp)
  end.

(** [t[idx] = values] on a one-dimensional tensor: raises when out of range. *)
Fixpoint index_put {A} (idx : list nat) (values : list A) (t : list A) : res (list A) :=
  match idx, values with
  | i :: idx, v :: values =>
    if i <? length t then index_put idx values (<[i := v]> t) else Raise IndexError
  | _, _ => Ok t
  end.

(** [HybridReqToTokenPool.alloc]. *)
Definition hybrid_alloc (reqs : list preq) (p : hybrid_pool)
    : res (option (list nat) * list preq * hybrid_pool) :=
  let! '(sel, reqs, rp) := req_alloc reqs (h_req p) in
  match sel with
  | None => Ok (None, reqs, with_pools rp (h_mamba p) p)
  | Some select_index =>
    let extra := enable_mamba_extra_buffer p in
    let! '(mids, bufs, reqs, mp) := alloc_states extra (track_buffer_size p) reqs (h_mamba p) in
    passert (length select_index =? length mids)
     (passert (if extra then length select_index =? length bufs else true)
       (let! im := index_put select_index mids (index_mapping p) in
        let! tm := (if extra then index_put select_index bufs (track_mapping p)
                    else Ok (track_mapping p)) in
        Ok (Some select_index, reqs,
            mkHybrid rp mp (mamba_map p) (track_buffer_size p) extra im tm)))
  end.

(** [HybridReqToTokenPool.get_mamba_indices]. *)
Definition get_mamba_indices (req_indices : list nat) (p : hybrid_pool) : list nat :=
  map (fun i => nth i (index_mapping p) 0) req_indices.

(** [HybridReqToTokenPool.mamba2_layer_cache]. *)
Definition mamba2_layer_cache (layer_id : nat) (p : hybrid_pool) : res layer_state :=
  match find (fun kv => fst kv =? layer_id) (mamba_map p) with
  | None => Raise AssertionError
  | Some (_, l) => Ok (at_layer_idx l (mamba_cache (h_mamba p)))
  end.

Definition get_mamba_ping_pong_other_idx (next_idx : nat) (p : hybrid_pool) : nat :=
  if track_buffer_size p =? 2 then 1 - next_idx else next_idx.

(** The buffers [free_mamba_cache] gives back: all of them, or all but the one
    to keep. *)
Definition track_to_free (keep : option nat) (buf : list nat) (tbs : nat) : res (list nat) :=
  match keep with
  | None => Ok buf
  | Some k =>
    passert ((k =? 0) || (k =? 1))
     (if tbs =? 2 then Ok (py_slice (1 - k) (1 - k + 1) buf)
      else passert (tbs =? 1) (passert (k =? 0) (Ok [])))
  end.

(** [HybridReqToTokenPool.free_mamba_cache]. *)
Definition free_mamba_cache (r : preq) (keep : option nat) (p : hybrid_pool)
    : res (preq * hybrid_pool) :=
  match mamba_pool_idx r with
  | None => Raise AssertionError
  | Some mid =>
    let mp := m_free_slots [mid] (h_mamba p) in
    if enable_mamba_extra_buffer p
    then
      match req_pool_idx r with
      | None =>
        (* [mapping[None]] only adds a dimension: freeing nothing of it is
           harmless, anything else cannot be concatenated *)
        let! _ := track_to_free keep [] (track_buffer_size p) in
        if bool_decide (keep = Some 0)
        then Ok (set_mamba_idx None r, with_pools (h_req p) mp p) else Raise RuntimeError
      | Some i =>
        let! l := track_to_free keep (nth i (track_mapping p) []) (track_buffer_size p) in
        Ok (set_mamba_idx None r, with_pools (h_req p) (m_free_slots l mp) p)
      end
    else Ok (set_mamba_idx None r, with_pools (h_req p) mp p)
  end.

(** [HybridReqToTokenPool.free], inherited from [ReqToTokenPool]. *)
Definition hybrid_free (r : preq) (p : hybrid_pool) : res (preq * hybrid_pool) :=
  let! '(r, rp) := req_free r (h_req p) in
  Ok (r, with_pools rp (h_mamba p) p).

(** [HybridReqToTokenPool.clear]. *)
Definition hybrid_clear (p : hybrid_pool) : hybrid_pool :=
  mkHybrid (req_clear (h_req p)) (m_clear (h_mamba p)) (mamba_map p) (track_buffer_size p)
    (enable_mamba_extra_buffer p) (map (fun _ => 0) (index_mapping p))
    (if enable_mamba_extra_buffer p then map (map (fun _ => 0)) (track_mapping p)
     else track_mapping p).

End Mamba.
Arguments state : clear implicits.
Arguments mamba_pool : clear implicits.
Arguments hybrid_pool : clear implicits.


(** ** Slots of the state tensors *)

Section StateFacts.
Context {V : Type} `{Cell V}.

(** The cell of a slot in a layer. *)
Definition cell (t : tensor V) (l s : nat) : option V := t !! l ≫= (.!! s).

Lemma lookup_repeat {A} (x : A) n k : k < n -> repeat x n !! k = Some x.
Proof. revert k. induction n as [|n IH]; intros [|k] Hk; simpl; [lia|lia|done|apply IH; lia]. Qed.

Lemma fold_insert_out (ps : list (nat * V)) (row : list V) s :
  s ∉ map fst ps -> fold_left (fun row ix => <[fst ix := snd ix]> row) ps row !! s = row !! s.
Proof.
  revert row. induction ps as [|[i x] ps IH]; intros row Hs; [done|]. simpl in *.
  apply not_elem_of_cons in Hs as [Hne Hs]. rewrite IH by done. by apply list_lookup_insert_ne.
Qed.

Lemma fold_insert_in (idx : list nat) (v row : list V) k s x :
  NoDup idx -> idx !! k = Some s -> v !! k = Some x -> s < length row ->
  fold_left (fun row ix => <[fst ix := snd ix]> row) (zip idx v) row !! s = Some x.
Proof.
  intros Hn. revert v row k. induction Hn as [|i idx Hi Hn IH]; intros v row k Hk Hv Hs; [done|].
  destruct v as [|y v]; [done|]. destruct k as [|k]; simplify_eq/=.
  - rewrite fold_insert_out; [by apply list_lookup_insert_eq|].
    intros Hin. apply Hi. apply list_elem_of_fmap in Hin as ([j z] & -> & Hin).
    by apply elem_of_zip_l in Hin.
  - eapply IH; [done|done|]. by rewrite length_insert.
Qed.

Lemma cell_scatter_out idx vs (t : tensor V) l s :
  length vs = length t -> s ∉ idx -> cell (scatter idx vs t) l s = cell t l s.
Proof.
  intros Hl Hs. unfold cell, scatter. rewrite lookup_zip_with.
  destruct (t !! l) as [row|] eqn:Er.
  - destruct (lookup_lt_is_Some_2 vs l) as [v Hv]; [rewrite Hl; by eapply lookup_lt_Some|].
    rewrite Hv. simpl. apply fold_insert_out. intros Hin. apply Hs.
    apply list_elem_of_fmap in Hin as ([j z] & -> & Hin). by apply elem_of_zip_l in Hin.
  - by destruct (vs !! l).
Qed.

Lemma cell_scatter_in idx vs (t : tensor V) l s k v x y :
  NoDup idx -> idx !! k = Some s -> vs !! l = Some v -> v !! k = Some x ->
  cell t l s = Some y -> cell (scatter idx vs t) l s = Some x.
Proof.
  intros Hn Hk Hv Hx Hc. unfold cell, scatter in *. rewrite lookup_zip_with, Hv.
  destruct (t !! l) as [row|] eqn:Er; [|done]. simpl in *.
  eapply fold_insert_in; [done|done|done|by eapply lookup_lt_Some].
Qed.

(** Clearing sets the cleared slots of every layer to zero. *)
Lemma cell_clear idx (t : tensor V) l s y :
  NoDup idx -> cell t l s = Some y ->
  cell (clear_slots idx t) l s = Some (if decide (s ∈ idx) then zero_cell else y).
Proof.
  intros Hn Hc. unfold clear_slots. destruct (decide (s ∈ idx)) as [Hin|Hout].
  - apply list_elem_of_lookup in Hin as [k Hk].
    apply (cell_scatter_in _ _ _ _ _ k (repeat zero_cell (length idx)) zero_cell y); [done|done| | |done].
    + unfold cell in Hc. destruct (t !! l) as [row|] eqn:Er; [|done].
      apply lookup_repeat. by eapply lookup_lt_Some.
    + apply lookup_repeat. by eapply lookup_lt_Some.
  - rewrite cell_scatter_out; [done| |done]. apply repeat_length.
Qed.

(** Copying slot [src] to slot [dst]. *)
Lemma cell_copy src dst (t : tensor V) l s x y :
  cell t l src = Some x -> cell t l s = Some y ->
  cell (scatter [dst] (gather [src] t) t) l s = Some (if decide (s = dst) then x else y).
Proof.
  intros Hx Hy. destruct (decide (s = dst)) as [->|Hne].
  - unfold cell in Hx. destruct (t !! l) as [row|] eqn:Er; [|done]. simpl in Hx.
    apply (cell_scatter_in [dst] (gather [src] t) t l dst 0 [x] x y); try done.
    + apply NoDup_singleton.
    + unfold gather. rewrite list_lookup_fmap, Er. simpl. by rewrite (nth_lookup_Some _ _ _ _ Hx).
  - rewrite cell_scatter_out; [done|unfold gather; apply length_map|]. by rewrite list_elem_of_singleton.
Qed.

(** The tensors of a state that belong to the request slots. *)
Definition tensors_of (s : state V) : list (tensor V) := temporal s :: conv s.

(** Every tensor has a cell for each layer and each slot [0 .. size]. *)
Definition shaped (p : mamba_pool V) : Prop :=
  forall t l s, t ∈ tensors_of (mamba_cache p) -> l < num_mamba_layers p -> s <= m_size p ->
    is_Some (cell t l s).

Lemma m_alloc_slots k (p : mamba_pool V) held sel p' :
  Slots 1 (m_size p) (m_free p) held -> m_alloc k p = (Some sel, p') ->
  length sel = k /\ Slots 1 (m_size p) (m_free p') (sel ++ held) /\ m_size p' = m_size p.
Proof.
  intros Hs. unfold m_alloc. destruct (Nat.ltb_spec (length (m_free p)) k); [done|].
  intros ?; simplify_eq/=. split; [rewrite length_take; lia|]. split; [by apply slots_take|done].
Qed.

Lemma m_alloc_tensors k (p : mamba_pool V) sel p' :
  m_alloc k p = (Some sel, p') ->
  tensors_of (mamba_cache p') = map (clear_slots sel) (tensors_of (mamba_cache p)) /\
  num_mamba_layers p' = num_mamba_layers p /\ m_size p' = m_size p.
Proof. unfold m_alloc. destruct (_ <? _); [done|]. intros ?; by simplify_eq/=. Qed.

Lemma m_alloc_fail k (p p' : mamba_pool V) :
  m_alloc k p = (None, p') <-> p' = p /\ m_available p < k.
Proof.
  unfold m_alloc, m_available. destruct (Nat.ltb_spec (length (m_free p)) k); split.
  - intros ?. by simplify_eq.
  - intros [-> _]. done.
  - done.
  - intros [_ ?]. lia.
Qed.

End StateFacts.

Section Properties.
Context {V : Type} `{Cell V}.

(** [MambaPool.alloc] returns as many distinct slots as requested, none of
    them slot [0] or held by anybody; in every layer of every state tensor the
    new slots read as zero and every other slot is unchanged. *)
Lemma mamba_alloc_fresh (p : mamba_pool V) (held : list nat) (k : nat) sel p' :
  Slots 1 (m_size p) (m_free p) held -> shaped p -> m_alloc k p = (Some sel, p') ->
  length sel = k /\ NoDup (sel ++ held) /\ 0 ∉ sel /\ shaped p' /\
  forall j t l s, tensors_of (mamba_cache p) !! j = Some t ->
    l < num_mamba_layers p -> s <= m_size p ->
    exists t', tensors_of (mamba_cache p') !! j = Some t' /\
      cell t' l s = if decide (s ∈ sel) then Some zero_cell else cell t l s.
Proof.
  intros Hs Hsh E. destruct (m_alloc_slots k p held sel p' Hs E) as (Hl & Hs' & Hm).
  destruct (m_alloc_tensors k p sel p' E) as (Ht & Hn & _).
  assert (Hnd : NoDup sel) by (apply slots_held_NoDup in Hs'; by apply NoDup_app in Hs' as (? & _)).
  split; [done|]. split; [by eapply slots_held_NoDup|]. split; [|split].
  - intros H0. assert (1 <= 0 < 1 + m_size p); [|lia].
    eapply slots_range; [exact Hs'|]. rewrite !elem_of_app. auto.
  - intros t l s Hin Hll Hss. rewrite Ht in Hin. apply list_elem_of_fmap in Hin as (t0 & -> & Hin).
    rewrite Hn in Hll. rewrite Hm in Hss. destruct (Hsh t0 l s Hin Hll Hss) as [y Hy].
    rewrite (cell_clear sel t0 l s y Hnd Hy). by eexists.
  - intros j t l s Hj Hll Hss. exists (clear_slots sel t). rewrite Ht, list_lookup_fmap, Hj.
    split; [done|].
    destruct (Hsh t l s ltac:(by eapply list_elem_of_lookup_2) Hll Hss) as [y Hy].
    rewrite (cell_clear sel t l s y Hnd Hy), Hy. by destruct (decide _).
Qed.

(** [MambaPool.fork_from] gives the new slot the state of the source slot in
    every layer of every state tensor and leaves every other slot alone. *)
Lemma mamba_fork_copies (p : mamba_pool V) (held : list nat) (src dst : nat) p' :
  Slots 1 (m_size p) (m_free p) held -> shaped p -> src ∈ held ->
  fork_from [src] p = (Some [dst], p') ->
  dst ∉ held /\ Slots 1 (m_size p) (m_free p') (dst :: held) /\
  forall j t l s, tensors_of (mamba_cache p) !! j = Some t ->
    l < num_mamba_layers p -> s <= m_size p ->
    exists t', tensors_of (mamba_cache p') !! j = Some t' /\
      cell t' l s = if decide (s = dst) then cell t l src else cell t l s.
Proof.
  intros Hs Hsh Hsrc E. unfold fork_from in E. destruct (m_alloc 1 p) as [[d|] p1] eqn:Ea; [|done].
  simplify_eq. destruct (m_alloc_slots 1 p held [dst] p1 Hs Ea) as (_ & Hs' & Hm).
  destruct (m_alloc_tensors 1 p [dst] p1 Ea) as (Ht & Hn & _).
  pose proof (slots_held_NoDup _ _ _ _ Hs') as Hnd. simpl in Hnd. apply NoDup_cons in Hnd as [Hd _].
  split; [done|]. split; [done|]. intros j t l s Hj Hll Hss.
  assert (Ht' : tensors_of (mamba_cache (copy_from [src] [dst] p1))
    = map (fun t => scatter [dst] (gather [src] t) t) (tensors_of (mamba_cache p1))) by done.
  eexists. rewrite Ht', Ht, !list_lookup_fmap, Hj. split; [done|].
  assert (Hr : src <= m_size p).
  { assert (1 <= src < 1 + m_size p); [|lia]. eapply slots_range; [exact Hs|]. apply elem_of_app. by right. }
  destruct (Hsh t l src ltac:(by eapply list_elem_of_lookup_2) Hll Hr) as [x Hx].
  destruct (Hsh t l s ltac:(by eapply list_elem_of_lookup_2) Hll Hss) as [y Hy].
  pose proof (cell_clear [dst] t l src x (NoDup_singleton _) Hx) as Cx.
  pose proof (cell_clear [dst] t l s y (NoDup_singleton _) Hy) as Cy.
  rewrite decide_False in Cx by (rewrite list_elem_of_singleton; intros ->; done).
  rewrite (cell_copy src dst _ l s _ _ Cx Cy). destruct (decide (s = dst)) as [|Hne]; [by rewrite Hx|].
  rewrite decide_False by (by rewrite list_elem_of_singleton). by rewrite Hy.
Qed.

End Properties.

(** ** Requests and their slots *)

Section HybridFacts.
Context {V : Type} `{Cell V}.

(** The state slots a request holds. *)
Definition mamba_held (r : preq) : list nat :=
  option_list (mamba_pool_idx r) ++ default [] (mamba_ping_pong_track_buffer r).

Definition req_held (rs : list preq) : list nat := omap req_pool_idx rs.
Definition state_held (rs : list preq) : list nat := concat (map mamba_held rs).
Arguments req_held : simpl never.

(** The tracking buffer of a request: none without [enable_mamba_extra_buffer], and
    the one the device mapping names with it. *)
Definition track_ok (p : hybrid_pool V) (r : preq) : Prop :=
  if enable_mamba_extra_buffer p
  then forall i, req_pool_idx r = Some i ->
    exists b, mamba_ping_pong_track_buffer r = Some b /\ track_mapping p !! i = Some b
  else mamba_ping_pong_track_buffer r = None.

(** The pool and the live requests [rs] agree. *)
Record Inv (p : hybrid_pool V) (rs : list preq) : Prop := {
  inv_req : Slots 0 (size (h_req p)) (free_slots (h_req p)) (req_held rs);
  inv_state : Slots 1 (m_size (h_mamba p)) (m_free (h_mamba p)) (state_held rs);
  inv_map : forall r i m, r ∈ rs -> req_pool_idx r = Some i -> mamba_pool_idx r = Some m ->
    index_mapping p !! i = Some m;
  inv_rows : size (h_req p) <= length (index_mapping p);
  inv_track : forall r, r ∈ rs -> track_ok p r;
}.

Lemma req_held_app l l' : req_held (l ++ l') = req_held l ++ req_held l'.
Proof. apply omap_app. Qed.

Lemma req_held_cons r l : req_held (r :: l) = option_list (req_pool_idx r) ++ req_held l.
Proof. unfold req_held. simpl. by destruct (req_pool_idx r). Qed.

Lemma req_held_length l : length (req_held l) <= length l.
Proof.
  induction l as [|r l IH]; [done|]. rewrite req_held_cons, length_app. simpl.
  destruct (req_pool_idx r); simpl; lia.
Qed.

(** The slots of requests that all have one. *)
Lemma req_held_full l : length (req_held l) = length l -> map req_pool_idx l = map Some (req_held l).
Proof.
  induction l as [|r l IH]; [done|]. rewrite req_held_cons, length_app. simpl.
  pose proof (req_held_length l). destruct (req_pool_idx r); simpl; intros ?; [by rewrite IH by lia|lia].
Qed.

Lemma req_held_eq l sel : map req_pool_idx l = map Some sel -> req_held l = sel.
Proof.
  revert sel. induction l as [|r l IH]; intros [|x sel] E; simplify_eq/=; [done|].
  rewrite req_held_cons, H0. simpl. f_equal. by apply IH.
Qed.

Lemma state_held_app l l' : state_held (l ++ l') = state_held l ++ state_held l'.
Proof. unfold state_held. by rewrite map_app, concat_app. Qed.

Lemma req_held_perm l l' : l ≡ₚ l' -> req_held l ≡ₚ req_held l'.
Proof. apply omap_Permutation. Qed.

Lemma state_held_perm l l' : l ≡ₚ l' -> state_held l ≡ₚ state_held l'.
Proof.
  intros Hp. unfold state_held. rewrite <- !flat_map_concat_map. by apply Permutation_flat_map.
Qed.

#[export] Instance Inv_proper p : Proper ((≡ₚ) ==> iff) (Inv p).
Proof.
  assert (Himp : forall rs rs', rs ≡ₚ rs' -> Inv p rs -> Inv p rs').
  { intros rs rs' Hp [H1 H2 H3 H4 H5]. split; [| | |done|].
    - by rewrite <- (req_held_perm _ _ Hp).
    - by rewrite <- (state_held_perm _ _ Hp).
    - intros r i m Hr. apply H3. by rewrite Hp.
    - intros r Hr. apply H5. by rewrite Hp. }
  intros rs rs' Hp. split; apply Himp; [done|by symmetry].
Qed.

(** The requests without a slot. *)
Lemma reusing_count (rs : list preq) :
  length rs - length (reusing rs) = length (filter (fun r => req_pool_idx r = None) rs) /\
  length (reusing rs) <= length rs.
Proof.
  unfold reusing. induction rs as [|r rs [IH1 IH2]]; [done|]. rewrite !filter_cons. simpl.
  destruct (req_pool_idx r) eqn:E.
  - rewrite (decide_True (P := is_Some (Some n))) by eauto.
    rewrite decide_False by done. simpl. lia.
  - rewrite (decide_False (P := is_Some (@None nat))) by (by intros [? ?]).
    rewrite decide_True by done. simpl. lia.
Qed.

Lemma assign_slots_spec rs sel :
  length sel = length (filter (fun r => req_pool_idx r = None) rs) ->
  length (assign_slots rs sel) = length rs /\
  req_held (assign_slots rs sel) ≡ₚ sel ++ req_held rs /\
  length (req_held (assign_slots rs sel)) = length rs /\
  map mamba_pool_idx (assign_slots rs sel) = map mamba_pool_idx rs /\
  map mamba_held (assign_slots rs sel) = map mamba_held rs.
Proof.
  revert sel. induction rs as [|r rs IH]; intros sel Hl.
  { destruct sel; [done|]. simpl in Hl. lia. }
  rewrite filter_cons in Hl. simpl. destruct (req_pool_idx r) as [i|] eqn:E.
  - rewrite decide_False in Hl by done. destruct (IH sel Hl) as (L & P & N & M & S).
    rewrite !req_held_cons, E. simpl. rewrite L, N, M, S, P. repeat split. solve_Permutation.
  - rewrite decide_True in Hl by done. destruct sel as [|s sel]; simpl in Hl; [lia|].
    destruct (IH sel ltac:(lia)) as (L & P & N & M & S). simpl. rewrite !req_held_cons, E. simpl.
    by rewrite L, N, M, S, P.
Qed.

Lemma req_alloc_spec rs others p sel rs' p' :
  Slots 0 (size p) (free_slots p) (req_held (rs ++ others)) ->
  req_alloc rs p = Ok (Some sel, rs', p') ->
  Slots 0 (size p) (free_slots p') (req_held (rs' ++ others)) /\ size p' = size p /\
  map req_pool_idx rs' = map Some sel /\ map mamba_pool_idx rs' = map mamba_pool_idx rs /\
  map mamba_held rs' = map mamba_held rs.
Proof.
  intros Hs. unfold req_alloc, passert. destruct (forallb _ _); [|done].
  destruct (reusing_count rs) as [Hc _]. rewrite Hc.
  set (k := length (filter _ rs)). destruct (Nat.ltb_spec (length (free_slots p)) k); [done|].
  intros E. simplify_eq/=.
  destruct (assign_slots_spec rs (take k (free_slots p))) as (L & P & N & M & S);
    [rewrite length_take; lia|].
  split; [|split; [done|split; [|done]]].
  - rewrite req_held_app, P, <- app_assoc, <- req_held_app. by apply slots_take.
  - apply req_held_full. by rewrite L.
Qed.

(** One request of the batch. *)
Lemma alloc_state_spec r (mp : mamba_pool V) held mid r' mp' :
  Slots 1 (m_size mp) (m_free mp) (mamba_held r ++ held) ->
  alloc_state r mp = Ok (mid, r', mp') ->
  Slots 1 (m_size mp) (m_free mp') (mamba_held r' ++ held) /\ m_size mp' = m_size mp /\
  mamba_pool_idx r' = Some mid /\ req_pool_idx r' = req_pool_idx r.
Proof.
  intros Hs. unfold alloc_state. destruct (mamba_pool_idx r) as [m|] eqn:Em.
  - intros ?. by simplify_eq.
  - destruct (m_alloc 1 mp) as [[[|m [|]]|] q] eqn:Ea; try done. intros ?; simplify_eq.
    destruct (m_alloc_slots 1 mp _ _ _ Hs Ea) as (_ & Hs' & Hm). split; [|done].
    unfold mamba_held in *. rewrite Em in Hs'. done.
Qed.

Lemma alloc_track_spec tbs r (mp : mamba_pool V) held b r' mp' :
  Slots 1 (m_size mp) (m_free mp) (mamba_held r ++ held) ->
  alloc_track tbs r mp = Ok (b, r', mp') ->
  Slots 1 (m_size mp) (m_free mp') (mamba_held r' ++ held) /\ m_size mp' = m_size mp /\
  mamba_pool_idx r' = mamba_pool_idx r /\ req_pool_idx r' = req_pool_idx r.
Proof.
  intros Hs. unfold alloc_track. destruct (mamba_ping_pong_track_buffer r) as [m|] eqn:Em.
  - intros ?. by simplify_eq.
  - destruct (m_alloc tbs mp) as [[sel|] q] eqn:Ea; [|done]. intros ?; simplify_eq.
    destruct (m_alloc_slots tbs mp _ _ _ Hs Ea) as (_ & Hs' & Hm). split; [|done].
    unfold mamba_held in *. rewrite Em in Hs'. simpl in *. rewrite app_nil_r in Hs'.
    eapply Slots_proper; [done| |exact Hs']. solve_Permutation.
Qed.

Lemma alloc_states_spec extra tbs rs others (mp : mamba_pool V) mids bufs rs' mp' :
  Slots 1 (m_size mp) (m_free mp) (state_held (rs ++ others)) ->
  alloc_states extra tbs rs mp = Ok (mids, bufs, rs', mp') ->
  Slots 1 (m_size mp) (m_free mp') (state_held (rs' ++ others)) /\ m_size mp' = m_size mp /\
  map mamba_pool_idx rs' = map Some mids /\ map req_pool_idx rs' = map req_pool_idx rs.
Proof.
  revert others mp mids bufs rs'. induction rs as [|r rs IH]; intros others mp mids bufs rs' Hs E.
  { by simplify_eq/=. }
  simpl in E. destruct (alloc_state r mp) as [[[mid r1] mp1]|] eqn:E1; [|done]. simpl in E.
  destruct (alloc_state_spec r mp (state_held (rs ++ others)) mid r1 mp1 Hs E1)
    as (Hs1 & M1 & I1 & R1).
  destruct (if extra then _ else _) as [[[b r2] mp2]|] eqn:E2; [|done]. simpl in E.
  assert (H2 : Slots 1 (m_size mp) (m_free mp2) (mamba_held r2 ++ state_held (rs ++ others)) /\
    m_size mp2 = m_size mp /\ mamba_pool_idx r2 = Some mid /\ req_pool_idx r2 = req_pool_idx r).
  { destruct extra; [|by simplify_eq].
    destruct (alloc_track tbs r1 mp1) as [[[b' r1'] mp1']|] eqn:E3; [|done]. simplify_eq/=.
    rewrite <- M1 in Hs1. destruct (alloc_track_spec _ _ _ _ _ _ _ Hs1 E3) as (H1 & H2 & H3 & H4).
    rewrite M1 in *. split; [done|]. split; congruence || split; congruence. }
  destruct H2 as (Hs2 & M2 & I2 & R2).
  destruct (alloc_states extra tbs rs mp2) as [[[[mids' bufs'] rs2] mp3]|] eqn:E3; [|done].
  simplify_eq/=. rewrite <- M2 in Hs2.
  destruct (IH (r2 :: others) mp2 mids' bufs' rs2) as (H1 & H2 & H3 & H4).
  - eapply Slots_proper; [done| |exact Hs2]. rewrite !state_held_app. simpl.
    unfold state_held. simpl. solve_Permutation.
  - done.
  - rewrite M2 in *. split; [|split; [done|]]; [|by rewrite H3, H4, I2, R2].
    eapply Slots_proper; [done| |exact H1]. apply state_held_perm. apply Permutation_middle.
Qed.

(** The loop of [hybrid_alloc] gives every request the buffer it collects. *)
Lemma alloc_states_track extra tbs rs (mp : mamba_pool V) mids bufs rs' mp' :
  alloc_states extra tbs rs mp = Ok (mids, bufs, rs', mp') ->
  map mamba_ping_pong_track_buffer rs' =
    if extra then map Some bufs else map mamba_ping_pong_track_buffer rs.
Proof.
  revert mp mids bufs rs'. induction rs as [|r rs IH]; intros mp mids bufs rs' E.
  { simplify_eq/=. by destruct extra. }
  simpl in E. destruct (alloc_state r mp) as [[[mid r1] mp1]|] eqn:E1; [|done]. simpl in E.
  assert (T1 : mamba_ping_pong_track_buffer r1 = mamba_ping_pong_track_buffer r).
  { unfold alloc_state in E1. destruct (mamba_pool_idx r); [by simplify_eq|].
    destruct (m_alloc 1 mp) as [[[|? [|]]|] ?]; by simplify_eq. }
  destruct extra; simpl in E.
  - destruct (alloc_track tbs r1 mp1) as [[[b r2] mp2]|] eqn:E2; [|done]. simpl in E.
    assert (T2 : mamba_ping_pong_track_buffer r2 = Some b).
    { unfold alloc_track in E2. destruct (mamba_ping_pong_track_buffer r1) eqn:Eb; [by simplify_eq|].
      destruct (m_alloc tbs mp1) as [[?|] ?]; by simplify_eq. }
    destruct (alloc_states true tbs rs mp2) as [[[[mids' bufs'] rs2] mp3]|] eqn:E3; [|done].
    simplify_eq/=. by rewrite T2, (IH _ _ _ _ E3).
  - destruct (alloc_states false tbs rs mp1) as [[[[mids' bufs'] rs2] mp3]|] eqn:E3; [|done].
    simplify_eq/=. by rewrite T1, (IH _ _ _ _ E3).
Qed.

Lemma req_alloc_track rs p sel rs' p' : req_alloc rs p = Ok (sel, rs', p') ->
  map mamba_ping_pong_track_buffer rs' = map mamba_ping_pong_track_buffer rs.
Proof.
  unfold req_alloc, passert. destruct (forallb _ _); [|done]. destruct (_ <? _); intros E; simplify_eq; [done|].
  clear. generalize (take (length rs - length (reusing rs)) (free_slots p)).
  induction rs as [|r rs IH]; intros sel; [done|]. simpl.
  destruct (req_pool_idx r); [simpl; by rewrite IH|]. destruct sel; simpl; by rewrite IH.
Qed.

Lemma index_put_spec {A} (idx : list nat) (vs t t' : list A) :
  NoDup idx -> index_put idx vs t = Ok t' ->
  length t' = length t /\
  (forall k i v, idx !! k = Some i -> vs !! k = Some v -> t' !! i = Some v) /\
  (forall i, i ∉ idx -> t' !! i = t !! i).
Proof.
  intros Hn. revert vs t. induction Hn as [|i idx Hi Hn IH]; intros vs t E.
  { simplify_eq/=. split; [done|]. split; [|done]. intros k i v Hk. done. }
  destruct vs as [|v vs]; simpl in E.
  { simplify_eq. split; [done|]. split; [|done]. intros [] ? ? ? ?; done. }
  destruct (Nat.ltb_spec i (length t)); [|done].
  destruct (IH vs (<[i := v]> t) E) as (L & In & Out). rewrite length_insert in L.
  split; [done|]. split.
  - intros [|k] j w Hj Hw; simplify_eq/=; [|by eapply In].
    rewrite Out by done. by apply list_lookup_insert_eq.
  - intros j [Hne Hj]%not_elem_of_cons. rewrite Out by done. by apply list_lookup_insert_ne.
Qed.

Lemma map_Some_lookup {A B} (f : A -> option B) l vs k x :
  map f l = map Some vs -> l !! k = Some x -> exists v, vs !! k = Some v /\ f x = Some v.
Proof.
  revert vs k. induction l as [|y l IH]; intros [|v vs] [|k] E Hk; simplify_eq/=; [by exists v|by apply (IH vs k)].
Qed.

(** What [mapping[select_index] = values] stores for a request of the batch. *)
Lemma index_put_read {A} (f : preq -> option A) (idx : list nat) (vs t t' : list A) rs r i v :
  NoDup idx -> index_put idx vs t = Ok t' -> map req_pool_idx rs = map Some idx -> map f rs = map Some vs ->
  r ∈ rs -> req_pool_idx r = Some i -> f r = Some v -> t' !! i = Some v.
Proof.
  intros Hn E Hi Hv (k & Hk)%list_elem_of_lookup Ei Ev.
  destruct (index_put_spec idx vs t t' Hn E) as (_ & Pin & _).
  destruct (map_Some_lookup _ _ _ _ _ Hi Hk) as (i' & Hi' & F1).
  destruct (map_Some_lookup _ _ _ _ _ Hv Hk) as (v' & Hv' & F2). simplify_eq. by eapply Pin.
Qed.

(** The tracking buffers after an allocation. *)
Lemma hybrid_track (p p' : hybrid_pool V) sel bufs rs rs' others :
  enable_mamba_extra_buffer p' = enable_mamba_extra_buffer p -> NoDup sel ->
  (if enable_mamba_extra_buffer p then index_put sel bufs (track_mapping p) else Ok (track_mapping p)) = Ok (track_mapping p') ->
  map req_pool_idx rs' = map Some sel -> (forall i, i ∈ sel -> i ∉ req_held others) ->
  map mamba_ping_pong_track_buffer rs' =
    (if enable_mamba_extra_buffer p then map Some bufs else map mamba_ping_pong_track_buffer rs) ->
  (forall r, r ∈ rs ++ others -> track_ok p r) -> forall r, r ∈ rs' ++ others -> track_ok p' r.
Proof.
  unfold track_ok. intros -> Hn E Hi Hd Ht Hok r Hr. destruct (enable_mamba_extra_buffer p).
  - intros i Ei. apply elem_of_app in Hr as [Hr|Hr].
    + pose proof Hr as (k & Hk)%list_elem_of_lookup.
      destruct (map_Some_lookup _ _ _ _ _ Ht Hk) as (b & _ & F). exists b. split; [done|].
      exact (index_put_read mamba_ping_pong_track_buffer sel bufs _ _ rs' r i b Hn E Hi Ht Hr Ei F).
    + destruct (Hok r) with i as (b & Hb & Hm); [apply elem_of_app; by right|done|]. exists b. split; [done|].
      destruct (index_put_spec sel bufs _ _ Hn E) as (_ & _ & Pout). rewrite Pout; [done|].
      intros Hs. apply (Hd i Hs). apply list_elem_of_omap. eauto.
  - apply elem_of_app in Hr as [Hr|Hr]; [|apply Hok, elem_of_app; by right].
    apply list_elem_of_lookup in Hr as [k Hk]. pose proof (f_equal (.!! k) Ht) as F.
    simpl in F. rewrite !list_lookup_fmap, Hk in F. simpl in F. destruct (rs !! k) as [r0|] eqn:E0; [|done].
    injection F as ->. apply Hok, elem_of_app. left. by eapply list_elem_of_lookup_2.
Qed.

(** [HybridReqToTokenPool.alloc] keeps pool and requests in agreement. *)
Lemma hybrid_alloc_inv (p : hybrid_pool V) rs others sel rs' p' :
  Inv p (rs ++ others) -> hybrid_alloc rs p = Ok (Some sel, rs', p') -> Inv p' (rs' ++ others).
Proof.
  intros [I1 I2 I3 I4 I5]. unfold hybrid_alloc, rbind at 1.
  destruct (req_alloc rs (h_req p)) as [[[[sel1|] rs1] rp]|] eqn:E1; [|done|done].
  destruct (req_alloc_spec rs others _ _ _ _ I1 E1) as (H1 & Hsz & Hidx & Hm & Hh).
  destruct (alloc_states _ _ rs1 (h_mamba p)) as [[[[mids bufs] rs2] mp]|] eqn:E2; [|done]. simpl.
  assert (I2' : Slots 1 (m_size (h_mamba p)) (m_free (h_mamba p)) (state_held (rs1 ++ others))).
  { rewrite state_held_app in *. unfold state_held at 1. rewrite Hh. exact I2. }
  destruct (alloc_states_spec _ _ _ _ _ _ _ _ _ I2' E2) as (J1 & J2 & J3 & J4).
  pose proof (alloc_states_track _ _ _ _ _ _ _ _ E2) as Ht. rewrite (req_alloc_track _ _ _ _ _ E1) in Ht.
  unfold passert. destruct (Nat.eqb_spec (length sel1) (length mids)) as [El|]; [|done].
  destruct (if enable_mamba_extra_buffer p then _ else true); [|done].
  destruct (index_put sel1 mids (index_mapping p)) as [im|] eqn:E3; [|done]. simpl.
  match goal with |- rbind ?m _ = _ -> _ => destruct m as [tm|] eqn:E4 end; [|done].
  intros E. simplify_eq/=.
  rewrite <- Hsz, req_held_app, (req_held_eq rs1 sel Hidx) in H1. rewrite Hidx in J4.
  pose proof (slots_held_NoDup _ _ _ _ H1) as Hnd. apply NoDup_app in Hnd as (Hns & Hdis & _).
  destruct (index_put_spec sel mids (index_mapping p) im Hns E3) as (Lm & _ & Pout). split; simpl.
  - by rewrite req_held_app, (req_held_eq rs' sel J4).
  - by rewrite J2.
  - intros r i m [Hr|Hr]%elem_of_app Hi Hmi;
      [exact (index_put_read mamba_pool_idx sel mids _ _ rs' r i m Hns E3 J4 J3 Hr Hi Hmi)|].
    rewrite Pout by (intros Hs; apply (Hdis i Hs), list_elem_of_omap; eauto).
    eapply I3; [apply elem_of_app; right; exact Hr|done|done].
  - rewrite Lm, Hsz. exact I4.
  - by apply (hybrid_track p _ sel bufs rs).
Qed.

(** A failed allocation changes nothing. *)
Lemma hybrid_alloc_none (p : hybrid_pool V) rs rs' p' :
  hybrid_alloc rs p = Ok (None, rs', p') -> rs' = rs /\ p' = p.
Proof.
  unfold hybrid_alloc, rbind at 1. destruct (req_alloc rs (h_req p)) as [[[[sel|] rs1] rp]|] eqn:E1.
  - destruct (alloc_states _ _ _ _) as [[[[mids bufs] rs2] mp]|]; [|done]. simpl.
    unfold passert. repeat case_bool; try done.
    all: destruct (index_put _ _ _); [|done]; simpl; try done.
    all: destruct (index_put _ _ _); done.
  - unfold req_alloc, passert in E1. destruct (forallb _ _); [|done].
    destruct (_ <? _); simplify_eq. intros ?; simplify_eq. split; [done|]. by destruct p.
  - done.
Qed.

(** The pool fields of [Req.reset_for_retract]. *)
Definition reset_for_retract (r : preq) : preq := mkPreq (rid r) (req_pool_idx r) 0 0 None None None.

(** A request that holds nothing. *)
Definition idle (r : preq) : Prop :=
  req_pool_idx r = None /\ mamba_pool_idx r = None /\ mamba_ping_pong_track_buffer r = None.

Lemma m_free_give l (mp : mamba_pool V) n held :
  Slots 1 n (m_free mp) (l ++ held) -> Slots 1 n (m_free (m_free_slots l mp)) held.
Proof. destruct l; [done|]. apply slots_give. Qed.

Lemma m_free_size l (mp : mamba_pool V) : m_size (m_free_slots l mp) = m_size mp.
Proof. by destruct l. Qed.

(** [release_kv_cache] gives the state slot, the tracking buffer and the request slot
    of a request back. *)
Lemma release_inv (p : hybrid_pool V) r others r1 p1 r2 p2 :
  Inv p (r :: others) -> free_mamba_cache r None p = Ok (r1, p1) -> hybrid_free r1 p1 = Ok (r2, p2) ->
  Inv p2 others /\ req_pool_idx r2 = None.
Proof.
  intros [I1 I2 I3 I4 I5]. unfold free_mamba_cache. destruct (mamba_pool_idx r) as [m|] eqn:Em; [|done].
  pose proof (I5 r ltac:(left)) as Ht. unfold track_ok in Ht.
  assert (Hfree : forall l, default [] (mamba_ping_pong_track_buffer r) = l ->
    hybrid_free (set_mamba_idx None r) (with_pools (h_req p) (m_free_slots l (m_free_slots [m] (h_mamba p))) p) = Ok (r2, p2) ->
    Inv p2 others /\ req_pool_idx r2 = None).
  { intros l Hl. unfold hybrid_free, req_free. simpl. destruct (req_pool_idx r) as [i|] eqn:Ei; [|done].
    intros E; simplify_eq/=. split; [|done]. split; simpl.
    - apply slots_give. by rewrite req_held_cons, Ei in I1.
    - rewrite m_free_size. apply m_free_give, (slots_give _ _ _ _ [m]). rewrite app_assoc.
      unfold state_held in I2. simpl in I2. unfold mamba_held at 1 in I2. by rewrite Em in I2.
    - intros r' j k Hr. apply I3. by right.
    - done.
    - intros r' Hr. apply I5. by right. }
  destruct (enable_mamba_extra_buffer p).
  - destruct (req_pool_idx r) as [i|] eqn:Ei; [|by simpl].
    destruct (Ht i eq_refl) as (b & Hb & Hm). simpl. rewrite (nth_lookup_Some _ _ _ _ Hm).
    intros ?; simplify_eq. apply Hfree. by rewrite Hb.
  - intros ?; simplify_eq. apply (Hfree []). by rewrite Ht.
Qed.

(** A request that holds nothing joins the others. *)
Lemma idle_inv (p : hybrid_pool V) rs r : Inv p rs -> idle r -> Inv p (r :: rs).
Proof.
  intros [I1 I2 I3 I4 I5] (H1 & H2 & H3). split; [| | |done|].
  - by rewrite req_held_cons, H1.
  - unfold state_held. simpl. unfold mamba_held at 1. by rewrite H2, H3.
  - intros r' i m [->|Hr]%elem_of_cons; [congruence|by apply I3].
  - intros r' [->|Hr]%elem_of_cons; [|by apply I5]. unfold track_ok. destruct (enable_mamba_extra_buffer p); congruence.
Qed.

Lemma clear_inv (p : hybrid_pool V) rs : Inv p rs -> Inv (hybrid_clear p) [].
Proof.
  intros [I1 I2 I3 I4 I5]. split; simpl.
  - unfold Slots. by rewrite app_nil_r.
  - unfold Slots. by rewrite app_nil_r.
  - intros r i m Hr. by apply not_elem_of_nil in Hr.
  - by rewrite length_map.
  - intros r Hr. by apply not_elem_of_nil in Hr.
Qed.

(** What the scheduler does with the pool and its live requests: a request arrives, a
    batch is given slots (or refused), a request finishes, a request is retracted and
    waits again ([ScheduleBatch.release_req]), the pool is cleared and only requests
    that hold nothing stay. *)
Inductive step : hybrid_pool V * list preq -> hybrid_pool V * list preq -> Prop :=
| h_arrive p rs r : idle r -> step (p, rs) (p, r :: rs)
| h_alloc p rs batch others sel batch' p' :
    rs ≡ₚ batch ++ others -> hybrid_alloc batch p = Ok (sel, batch', p') ->
    step (p, rs) (p', batch' ++ others)
| h_finish p rs r others r1 p1 r2 p2 :
    rs ≡ₚ r :: others -> free_mamba_cache r None p = Ok (r1, p1) -> hybrid_free r1 p1 = Ok (r2, p2) ->
    step (p, rs) (p2, others)
| h_retract p rs r others r1 p1 r2 p2 :
    rs ≡ₚ r :: others -> free_mamba_cache r None p = Ok (r1, p1) -> hybrid_free r1 p1 = Ok (r2, p2) ->
    step (p, rs) (p2, reset_for_retract r2 :: others)
| h_clear p rs rs' :
    (forall r, r ∈ rs' -> idle r) -> step (p, rs) (hybrid_clear p, rs').

Lemma pool_step_inv c c' : step c c' -> Inv (fst c) (snd c) -> Inv (fst c') (snd c').
Proof.
  intros Hs Hi. destruct Hs as [p rs r Hr|p rs batch others sel batch' p' Hp E
    |p rs r others r1 p1 r2 p2 Hp E1 E2|p rs r others r1 p1 r2 p2 Hp E1 E2|p rs rs' Hr]; simpl in *.
  - by apply idle_inv.
  - rewrite Hp in Hi. destruct sel as [sel|]; [by eapply hybrid_alloc_inv|].
    by destruct (hybrid_alloc_none _ _ _ _ E) as [-> ->].
  - rewrite Hp in Hi. by eapply release_inv.
  - rewrite Hp in Hi. destruct (release_inv _ _ _ _ _ _ _ Hi E1 E2) as [Hi' Hn]. by apply idle_inv.
  - apply clear_inv in Hi. induction rs' as [|r rs' IH]; [done|].
    apply idle_inv; [apply IH; intros; apply Hr; by right|apply Hr; left].
Qed.

Lemma hybrid_init_inv sz ms spec mcl layers nconv extra overlap draft :
  sz <= ms -> Inv (hybrid_init sz ms spec mcl layers nconv extra overlap draft) [].
Proof.
  intros Hs. split; simpl.
  - unfold Slots. by rewrite app_nil_r.
  - unfold Slots. by rewrite app_nil_r.
  - intros r i m Hr. by apply not_elem_of_nil in Hr.
  - by rewrite repeat_length.
  - intros r Hr. by apply not_elem_of_nil in Hr.
Qed.

Lemma lookup_held (f : preq -> list nat) (rs : list preq) j j' r r' x :
  NoDup (concat (map f rs)) -> rs !! j = Some r -> rs !! j' = Some r' ->
  x ∈ f r -> x ∈ f r' -> j = j'.
Proof.
  revert j j'. induction rs as [|q rs IH]; intros j j' Hn Hj Hj' Hx Hx'; [done|].
  simpl in Hn. apply NoDup_app in Hn as (_ & Hd & Hn).
  assert (Hc : forall k q', rs !! k = Some q' -> x ∈ f q' -> x ∈ concat (map f rs)).
  { intros k q' Hk Hq. apply list_elem_of_In, in_concat. exists (f q').
    split; [apply in_map, list_elem_of_In; by eapply list_elem_of_lookup_2|by apply list_elem_of_In]. }
  destruct j as [|j], j' as [|j']; simplify_eq/=; [done| | |].
  - exfalso. by apply (Hd x Hx), (Hc j' r').
  - exfalso. by apply (Hd x Hx'), (Hc j r).
  - f_equal. by eapply IH.
Qed.

Lemma req_held_concat rs : req_held rs = concat (map (fun r => option_list (req_pool_idx r)) rs).
Proof. induction rs as [|r rs IH]; [done|]. rewrite req_held_cons. simpl. by rewrite IH. Qed.

(** C14. However requests arrive, are given slots in batches, finish, are retracted and
    scheduled again, and the pool is cleared, with or without tracking buffers: two
    live requests never share a request slot, nor a slot of the state tensors, be it
    for their state or for tracking; all state slots lie in [1 .. mamba_size] (slot [0]
    is reserved); and the device mappings yield for the slot of a request its own state
    slot and its own tracking buffer.  The state pool has at least as many slots as the
    request table has rows. *)
Theorem hybrid_requests_isolated (sz ms spec mcl : nat) (layers : list nat) (nconv : nat)
    (extra overlap : bool) (draft : option nat) (p : hybrid_pool V) (rs : list preq) :
  sz <= ms -> rtc step (hybrid_init sz ms spec mcl layers nconv extra overlap draft, []) (p, rs) ->
  (forall j j' r r' i, rs !! j = Some r -> rs !! j' = Some r' ->
     req_pool_idx r = Some i -> req_pool_idx r' = Some i -> j = j') /\
  (forall j j' r r' m, rs !! j = Some r -> rs !! j' = Some r' ->
     m ∈ mamba_held r -> m ∈ mamba_held r' -> j = j') /\
  (forall r m, r ∈ rs -> m ∈ mamba_held r -> 1 <= m <= m_size (h_mamba p)) /\
  (forall r i, r ∈ rs -> req_pool_idx r = Some i ->
     (forall m, mamba_pool_idx r = Some m -> get_mamba_indices [i] p = [m]) /\
     (enable_mamba_extra_buffer p = true ->
        track_mapping p !! i = mamba_ping_pong_track_buffer r /\ is_Some (mamba_ping_pong_track_buffer r))).
Proof.
  intros Hsz Hr. assert (Hi : Inv p rs).
  { assert (Hc : forall c c', rtc step c c' -> Inv (fst c) (snd c) -> Inv (fst c') (snd c')).
    { intros c c' Hc. induction Hc as [|c c1 c2 Hs _ IH]; [done|]. intros ?. by apply IH, (pool_step_inv c). }
    apply (Hc _ _ Hr). by apply hybrid_init_inv. }
  destruct Hi as [I1 I2 I3 _ I5]. split; [|split; [|split]].
  - intros j j' r r' i Hj Hj' E E'.
    apply (lookup_held (fun r => option_list (req_pool_idx r)) rs j j' r r' i); try done.
    + rewrite <- req_held_concat. by eapply slots_held_NoDup.
    + rewrite E. left.
    + rewrite E'. left.
  - intros j j' r r' m Hj Hj' E E'.
    apply (lookup_held mamba_held rs j j' r r' m); auto. by eapply slots_held_NoDup.
  - intros r m Hin E. assert (1 <= m < 1 + m_size (h_mamba p)); [|lia]. eapply slots_range; [exact I2|].
    apply elem_of_app. right. apply list_elem_of_In, in_concat. exists (mamba_held r).
    split; [by apply in_map, list_elem_of_In|by apply list_elem_of_In].
  - intros r i Hin E. split.
    + intros m E'. unfold get_mamba_indices. simpl. by rewrite (nth_lookup_Some _ _ _ _ (I3 r i m Hin E E')).
    + intros Hx. pose proof (I5 r Hin) as Ht. unfold track_ok in Ht. rewrite Hx in Ht.
      destruct (Ht i E) as (b & -> & ->). eauto.
Qed.

End HybridFacts.

(** ** A concrete run *)

#[export] Instance nat_cell : Cell nat := {| zero_cell := 0 |}.

Definition new_req (n : nat) : preq := mkPreq n None 0 0 None None None.
Definition demo_pool : hybrid_pool nat := hybrid_init 3 9 0 8 [1; 5] 1 true true None.
Definition pool_of (r : res (option (list nat) * list preq * hybrid_pool nat)) : hybrid_pool nat :=
  match r with Ok (_, _, p) => p | Raise _ => demo_pool end.
Definition reqs_of (r : res (option (list nat) * list preq * hybrid_pool nat)) : list preq :=
  match r with Ok (_, rs, _) => rs | Raise _ => [] end.
Definition get {A} (d : A) (r : res A) : A := match r with Ok x => x | Raise _ => d end.

(** Two requests get slots, the first is retracted and is given slots again. *)
Definition demo_batch := hybrid_alloc [new_req 7; new_req 9] demo_pool.
Definition demo_first : preq := nth 0 (reqs_of demo_batch) (new_req 0).
Definition demo_second : preq := nth 1 (reqs_of demo_batch) (new_req 0).
Definition demo_freed := get (new_req 0, demo_pool) (free_mamba_cache demo_first None (pool_of demo_batch)).
Definition demo_released := get (new_req 0, demo_pool) (hybrid_free (fst demo_freed) (snd demo_freed)).
Definition demo_again := hybrid_alloc [reset_for_retract (fst demo_released)] (snd demo_released).
Definition demo_live : list preq := reqs_of demo_again ++ [demo_second].

Lemma pool_reachable : rtc step (demo_pool, []) (pool_of demo_again, demo_live).
Proof.
  eapply rtc_l; [apply (h_arrive _ _ (new_req 9)); by repeat split|].
  eapply rtc_l; [apply (h_arrive _ _ (new_req 7)); by repeat split|].
  eapply rtc_l; [apply (h_alloc _ _ [new_req 7; new_req 9] [] (Some [0; 1])); [done|vm_compute; reflexivity]|].
  eapply rtc_l.
  { apply (h_retract _ _ demo_first [demo_second] (fst demo_freed) (snd demo_freed) (fst demo_released) (snd demo_released));
      vm_compute; reflexivity. }
  eapply rtc_l; [|apply rtc_refl].
  apply (h_alloc _ _ [reset_for_retract (fst demo_released)] [demo_second] (Some [2])); [done|vm_compute; reflexivity].
Qed.

Lemma hybrid_requests_isolated_witness :
  get_mamba_indices [1] (pool_of demo_again) = [4] /\ get_mamba_indices [2] (pool_of demo_again) = [7] /\
  track_mapping (pool_of demo_again) !! 2 = Some [8; 9].
Proof.
  pose proof (hybrid_requests_isolated 3 9 0 8 [1; 5] 1 true true None (pool_of demo_again) demo_live
    ltac:(lia) pool_reachable) as (_ & _ & _ & H). split; [|split].
  - apply (H demo_second 1); [vm_compute; by right; left|reflexivity|reflexivity].
  - apply (H (nth 0 demo_live (new_req 0)) 2); [vm_compute; by left|reflexivity|reflexivity].
  - apply (H (nth 0 demo_live (new_req 0)) 2); [vm_compute; by left|reflexivity|reflexivity].
Defined.

(** A pool whose slot 2 is in use and whose free slots hold old values. *)
Definition used_pool : mamba_pool nat :=
  mkMamba 3 2 (mkState [[[0; 4; 5; 6]; [0; 7; 8; 9]]] [[0; 1; 2; 3]; [9; 8; 7; 6]] None None) [3; 1].

Lemma used_slots : Slots 1 3 (m_free used_pool) [2].
Proof. unfold Slots. simpl. apply (Permutation_cons_app [1; 2] [] 3). done. Qed.

Lemma used_shaped : shaped used_pool.
Proof.
  intros t l s Ht Hl Hs. simpl in Hl, Hs.
  apply elem_of_cons in Ht as [->|Ht]; [|apply list_elem_of_singleton in Ht as ->];
    destruct l as [|[|l]]; try lia; destruct s as [|[|[|[|s]]]]; try lia; by eexists.
Qed.

Lemma mamba_alloc_fresh_witness :
  length [3; 1] = 2 /\ NoDup ([3; 1] ++ [2]) /\ 0 ∉ [3; 1] /\
  shaped (snd (m_alloc 2 used_pool)) /\
  forall j t l s, tensors_of (mamba_cache used_pool) !! j = Some t ->
    l < num_mamba_layers used_pool -> s <= m_size used_pool ->
    exists t', tensors_of (mamba_cache (snd (m_alloc 2 used_pool))) !! j = Some t' /\
      cell t' l s = if decide (s ∈ [3; 1]) then Some zero_cell else cell t l s.
Proof.
  apply (mamba_alloc_fresh used_pool [2] 2 [3; 1]); [exact used_slots|exact used_shaped|reflexivity].
Defined.

Lemma mamba_fork_copies_witness :
  3 ∉ [2] /\ Slots 1 (m_size used_pool) (m_free (snd (fork_from [2] used_pool))) [3; 2] /\
  forall j t l s, tensors_of (mamba_cache used_pool) !! j = Some t ->
    l < num_mamba_layers used_pool -> s <= m_size used_pool ->
    exists t', tensors_of (mamba_cache (snd (fork_from [2] used_pool))) !! j = Some t' /\
      cell t' l s = if decide (s = 3) then cell t l 2 else cell t l s.
Proof.
  apply (mamba_fork_copies used_pool [2] 2 3); [exact used_slots|exact used_shaped|left|reflexivity].
Defined.

End Pools.
