(* ===== verification/RadixCache.v ===== *)
(** The radix tree of cached prefixes ([srt/mem_cache/radix_cache.py]) with its
    eviction policies ([srt/mem_cache/evict_policy.py]).

    The tree is a store of node objects: a node is its identity, and parents,
    children, locks of requests and the set of evictable leaves refer to it by
    identity, as the code does.  Objects stay in the store after they leave the
    tree.  [time.monotonic] is the stream of the clock's readings; the hash of a
    page (SHA-256) and the slot allocator are parameters.  A dictionary of
    children is a finite map: no result depends on its order.  The fields that
    only the hierarchical cache uses (host copies, pins) are left out. *)
From stdpp Require Import base list gmap sets strings.
From Stdlib Require Import ZArith Lia.
From S2P Require Import Prelude.
Local Open Scope nat_scope.
Local Open Scope py_scope.

Module Radix.

(** ** Keys *)

(** An element of a key: a token, or a pair of tokens in EAGLE mode. *)
Inductive tokid : Type :=
| Single (t : Z)
| Bigram (t u : Z).

#[export] Instance tokid_eq_dec : EqDecision tokid.
Proof. solve_decision. Defined.

#[export] Instance tokid_countable : Countable tokid.
Proof.
  refine (inj_countable' (fun x => match x with Single t => inl t | Bigram t u => inr (t, u) end)
    (fun y => match y with inl t => Single t | inr (t, u) => Bigram t u end) _).
  by intros [].
Defined.

Record RadixKey : Type := mkKey {
  token_ids : list tokid;
  extra_key : option string;
  is_bigram : bool;
}.

Definition key_len (k : RadixKey) : nat := length (token_ids k).

(** [key[a:]] and [key[:b]]: a slice is a new key, without the bigram flag. *)
Definition key_from (a : nat) (k : RadixKey) : RadixKey := mkKey (drop a (token_ids k)) (extra_key k) false.
Definition key_upto (b : nat) (k : RadixKey) : RadixKey := mkKey (take b (token_ids k)) (extra_key k) false.

(** [convert_to_bigram_key]; a token list starts with a pair when it was converted. *)
Definition pair_of (t u : tokid) : tokid :=
  match t, u with
  | Single a, Single b => Bigram a b
  | _, _ => t
  end.

Definition convert_to_bigram_key (tokens : list tokid) : list tokid :=
  match tokens with
  | Bigram _ _ :: _ => tokens
  | _ => zip_with pair_of tokens (drop 1 tokens)
  end.

(** [maybe_bigram_convert]: the key, and the length its value is cut to. *)
Definition maybe_bigram_convert (is_eagle : bool) (key : RadixKey) (value : option (list Z))
    : RadixKey * option (list Z) :=
  if is_eagle && negb (is_bigram key) then
    let key := mkKey (convert_to_bigram_key (token_ids key)) (extra_key key) true in
    (key, match value with Some v => Some (take (key_len key) v) | None => None end)
  else (key, value).

Definition page_align_keys {T} (page_size : nat) (key : list T) : list T :=
  if page_size =? 1 then key else take (length key / page_size * page_size) key.

Definition _check_extra_key {T} (k0 k1 : RadixKey) (k : res T) : res T :=
  if decide (extra_key k0 = extra_key k1) then k else Raise ValueError.

(** Length of the longest common prefix. *)
Fixpoint common (l0 l1 : list tokid) : nat :=
  match l0, l1 with
  | t0 :: l0, t1 :: l1 => if decide (t0 = t1) then S (common l0 l1) else 0
  | _, _ => 0
  end.

Definition _key_match_page_size1 (k0 k1 : RadixKey) : res nat :=
  _check_extra_key k0 k1 (Ok (common (token_ids k0) (token_ids k1))).

(** The loop of [_key_match_paged]; the position grows by a page each turn. *)
Fixpoint match_pages (fuel page_size min_len i : nat) (l0 l1 : list tokid) : nat :=
  match fuel with
  | 0 => i
  | S fuel =>
    if i <? min_len then
      if decide (py_slice i (i + page_size) l0 = py_slice i (i + page_size) l1)
      then match_pages fuel page_size min_len (i + page_size) l0 l1 else i
    else i
  end.

Definition _key_match_paged (page_size : nat) (k0 k1 : RadixKey) : res nat :=
  let min_len := Nat.min (key_len k0) (key_len k1) in
  _check_extra_key k0 k1 (Ok (match_pages (S min_len) page_size min_len 0 (token_ids k0) (token_ids k1))).

(** The key of a child: its first token or page, with the extra key. *)
Abbreviation child_key := (option string * list tokid)%type.

Definition get_child_key (page_size : nat) (k : RadixKey) : res child_key :=
  if page_size =? 1 then
    match token_ids k with
    | [] => Raise IndexError
    | t :: _ => Ok (extra_key k, [t])
    end
  else Ok (extra_key k, take page_size (token_ids k)).

Definition key_match_fn (page_size : nat) (k0 k1 : RadixKey) : res nat :=
  if page_size =? 1 then _key_match_page_size1 k0 k1 else _key_match_paged page_size k0 k1.

(** ** Eviction policies *)

Inductive EvictionStrategy : Type :=
| LRUStrategy | LFUStrategy | FIFOStrategy | MRUStrategy | FILOStrategy | PriorityStrategy
| SLRUStrategy (protected_threshold : Z).

Definition lower_char (c : Ascii.ascii) : Ascii.ascii :=
  let n := Ascii.nat_of_ascii c in
  if (65 <=? n) && (n <=? 90) then Ascii.ascii_of_nat (n + 32) else c.

Fixpoint str_lower (s : string) : string :=
  match s with
  | String.EmptyString => String.EmptyString
  | String.String c s => String.String (lower_char c) (str_lower s)
  end.

(** The strategy chosen in [RadixCache.__init__]. *)
Definition make_strategy (eviction_policy : string) : res EvictionStrategy :=
  let p := str_lower eviction_policy in
  if decide (p = "lru"%string) then Ok LRUStrategy
  else if decide (p = "lfu"%string) then Ok LFUStrategy
  else if decide (p = "fifo"%string) then Ok FIFOStrategy
  else if decide (p = "mru"%string) then Ok MRUStrategy
  else if decide (p = "filo"%string) then Ok FILOStrategy
  else if decide (p = "priority"%string) then Ok PriorityStrategy
  else if decide (p = "slru"%string) then Ok (SLRUStrategy 2)
  else Raise ValueError.

(** ** State *)

Record Params : Type := mkParams {
  disable : bool;
  page_size : nat;
  enable_kv_cache_events : bool;
  is_eagle : bool;
  disable_finished_insert : bool;
  eviction_strategy : EvictionStrategy;
}.

Inductive kv_event : Type :=
| BlockStored (block_hash : Z) (parent_block_hash : option Z) (tokens : list tokid) (block_size : nat)
| BlockRemoved (block_hash : Z)
| AllBlocksCleared.

(** An entry of the eviction heap: priority and node. *)
Abbreviation heap_entry := ((Z * Z) * nat)%type.

(** What the cache is given: [free] of the slot allocator, the page hash, its
    64-bit form, and the readings of the clock. *)
Class Env (A H : Type) : Type := {
  alloc_free : list Z -> A -> res A;
  get_hash_str : list tokid -> option H -> H;
  hash_str_to_int64 : H -> Z;
  monotonic : nat -> Z;
}.

Section Model.
Context {A H : Type} `{Env A H}.

Record TreeNode : Type := mkNode {
  children : gmap child_key nat;
  parent : option nat;
  key : RadixKey;
  value : option (list Z);
  lock_ref : Z;
  last_access_time : Z;
  creation_time : Z;
  hit_count : Z;
  hash_value : option (list H);
  priority : Z;
}.

Definition evicted (nd : TreeNode) : bool := match value nd with None => true | Some _ => false end.

Definition set_children c nd := mkNode c (parent nd) (key nd) (value nd) (lock_ref nd)
  (last_access_time nd) (creation_time nd) (hit_count nd) (hash_value nd) (priority nd).
Definition set_parent p nd := mkNode (children nd) p (key nd) (value nd) (lock_ref nd)
  (last_access_time nd) (creation_time nd) (hit_count nd) (hash_value nd) (priority nd).
Definition set_key k v nd := mkNode (children nd) (parent nd) k v (lock_ref nd)
  (last_access_time nd) (creation_time nd) (hit_count nd) (hash_value nd) (priority nd).
Definition set_lock l nd := mkNode (children nd) (parent nd) (key nd) (value nd) l
  (last_access_time nd) (creation_time nd) (hit_count nd) (hash_value nd) (priority nd).
Definition set_access t nd := mkNode (children nd) (parent nd) (key nd) (value nd) (lock_ref nd)
  t (creation_time nd) (hit_count nd) (hash_value nd) (priority nd).
Definition set_hits c nd := mkNode (children nd) (parent nd) (key nd) (value nd) (lock_ref nd)
  (last_access_time nd) (creation_time nd) c (hash_value nd) (priority nd).
Definition set_hash h nd := mkNode (children nd) (parent nd) (key nd) (value nd) (lock_ref nd)
  (last_access_time nd) (creation_time nd) (hit_count nd) h (priority nd).
Definition set_priority p nd := mkNode (children nd) (parent nd) (key nd) (value nd) (lock_ref nd)
  (last_access_time nd) (creation_time nd) (hit_count nd) (hash_value nd) p.

Record RadixCache : Type := mkCache {
  nodes : gmap nat TreeNode;
  counter : nat;
  ticks : nat;
  root_node : nat;
  evictable_size_ : Z;
  protected_size_ : Z;
  evictable_leaves : gset nat;
  kv_event_queue : list kv_event;
  allocator : A;
}.

Implicit Types (st : RadixCache) (nd : TreeNode) (n : nat) (k : RadixKey).

Definition with_nodes ns st := mkCache ns (counter st) (ticks st) (root_node st) (evictable_size_ st)
  (protected_size_ st) (evictable_leaves st) (kv_event_queue st) (allocator st).
Definition with_sizes e p st := mkCache (nodes st) (counter st) (ticks st) (root_node st) e p
  (evictable_leaves st) (kv_event_queue st) (allocator st).
Definition with_leaves l st := mkCache (nodes st) (counter st) (ticks st) (root_node st) (evictable_size_ st)
  (protected_size_ st) l (kv_event_queue st) (allocator st).
Definition with_events q st := mkCache (nodes st) (counter st) (ticks st) (root_node st) (evictable_size_ st)
  (protected_size_ st) (evictable_leaves st) q (allocator st).
Definition with_alloc a st := mkCache (nodes st) (counter st) (ticks st) (root_node st) (evictable_size_ st)
  (protected_size_ st) (evictable_leaves st) (kv_event_queue st) a.
Definition with_root r st := mkCache (nodes st) (counter st) (ticks st) r (evictable_size_ st)
  (protected_size_ st) (evictable_leaves st) (kv_event_queue st) (allocator st).

(** An attribute of [None] raises. *)
Definition get_node (o : option nat) st : res TreeNode :=
  match o with
  | None => Raise AttributeError
  | Some n => match nodes st !! n with Some nd => Ok nd | None => Raise AttributeError end
  end.

Definition update (f : TreeNode -> TreeNode) n st : RadixCache := with_nodes (alter f n (nodes st)) st.

(** [time.monotonic()]. *)
Definition now st : Z * RadixCache :=
  (monotonic (ticks st),
   mkCache (nodes st) (counter st) (S (ticks st)) (root_node st) (evictable_size_ st)
     (protected_size_ st) (evictable_leaves st) (kv_event_queue st) (allocator st)).

(** [TreeNode(priority=p)]: a fresh identity, an empty node. *)
Definition new_TreeNode (p : Z) st : nat * RadixCache :=
  let '(t0, st) := now st in
  let '(t1, st) := now st in
  (counter st,
   mkCache (<[counter st := mkNode ∅ None (mkKey [] None false) None 0 t0 t1 0 None p]> (nodes st))
     (S (counter st)) (ticks st) (root_node st) (evictable_size_ st) (protected_size_ st)
     (evictable_leaves st) (kv_event_queue st) (allocator st)).

Definition get_priority (s : EvictionStrategy) nd : Z * Z :=
  match s with
  | LRUStrategy => (last_access_time nd, 0%Z)
  | LFUStrategy => (hit_count nd, last_access_time nd)
  | FIFOStrategy => (creation_time nd, 0%Z)
  | MRUStrategy => ((- last_access_time nd)%Z, 0%Z)
  | FILOStrategy => ((- creation_time nd)%Z, 0%Z)
  | PriorityStrategy => (priority nd, last_access_time nd)
  | SLRUStrategy threshold => ((if threshold <=? hit_count nd then 1 else 0)%Z, last_access_time nd)
  end.

Variable P : Params.
#[local] Abbreviation ps := (page_size P).

(** ** Hash values and events *)

(** The pages of a key, from the first token on. *)
Definition pages (ts : list tokid) : list (list tokid) :=
  map (fun i => py_slice (i * ps) (i * ps + ps) ts) (seq 0 (cdiv (length ts) ps)).

Fixpoint chain_hash (prior : option H) (pgs : list (list tokid)) : list H :=
  match pgs with
  | [] => []
  | pg :: pgs => let h := get_hash_str pg prior in h :: chain_hash (Some h) pgs
  end.

Definition compute_node_hash_values n st : res (list H) :=
  let! nd := get_node (Some n) st in
  let! parent_hash :=
    match parent nd with
    | None => Ok None
    | Some p =>
      let! pd := get_node (Some p) st in
      Ok (match hash_value pd with
          | Some hs => if (0 <? key_len (key pd)) && (0 <? length hs) then last hs else None
          | None => None
          end)
    end in
  Ok (chain_hash parent_hash (pages (token_ids (key nd)))).

Definition split_node_hash_value (child_hash_value : option (list H)) (split_len : nat)
    : option (list H) * option (list H) :=
  match child_hash_value with
  | None => (None, None)
  | Some hs =>
    let split_pages := if ps =? 1 then split_len else split_len / ps in
    (Some (take split_pages hs), Some (drop split_pages hs))
  end.

(** The events of the pages of a node; there are as many hashes as pages. *)
Fixpoint stored_events (parent_block_hash : option Z) (pgs : list (list tokid)) (hs : list H)
    : res (list kv_event) :=
  match pgs, hs with
  | [], _ => Ok []
  | pg :: pgs, h :: hs =>
    let b := hash_str_to_int64 h in
    let! es := stored_events (Some b) pgs hs in
    Ok (BlockStored b parent_block_hash pg (length pg) :: es)
  | _ :: _, [] => Raise IndexError
  end.

Fixpoint removed_events (pgs : list (list tokid)) (hs : list H) : res (list kv_event) :=
  match pgs, hs with
  | [], _ => Ok []
  | _ :: pgs, h :: hs => let! es := removed_events pgs hs in Ok (BlockRemoved (hash_str_to_int64 h) :: es)
  | _ :: _, [] => Raise IndexError
  end.

(** [node.hash_value], computed when it is first needed. *)
Definition lazy_hash n st : res (list H * RadixCache) :=
  let! nd := get_node (Some n) st in
  match hash_value nd with
  | Some hs => Ok (hs, st)
  | None =>
    let! hs := compute_node_hash_values n st in
    Ok (hs, update (set_hash (Some hs)) n st)
  end.

Definition _record_store_event n st : res RadixCache :=
  if enable_kv_cache_events P then
    let! '(hs, st) := lazy_hash n st in
    let! nd := get_node (Some n) st in
    let! parent_block_hash :=
      match parent nd with
      | None => Ok None
      | Some p =>
        if decide (p = root_node st) then Ok None
        else
          let! pd := get_node (Some p) st in
          Ok (match hash_value pd with
              | Some phs => match last phs with Some h => Some (hash_str_to_int64 h) | None => None end
              | None => None
              end)
      end in
    let! es := stored_events parent_block_hash (pages (token_ids (key nd))) hs in
    Ok (with_events (kv_event_queue st ++ es) st)
  else Ok st.

Definition _record_remove_event n st : res RadixCache :=
  if enable_kv_cache_events P then
    let! '(hs, st) := lazy_hash n st in
    let! nd := get_node (Some n) st in
    let! es := removed_events (pages (token_ids (key nd))) hs in
    Ok (with_events (kv_event_queue st ++ es) st)
  else Ok st.

Definition _record_all_cleared_event st : RadixCache :=
  if enable_kv_cache_events P then with_events (kv_event_queue st ++ [AllBlocksCleared]) st else st.

Definition take_events st : list kv_event * RadixCache :=
  if enable_kv_cache_events P then (kv_event_queue st, with_events [] st) else ([], st).

(** ** Reset *)

(** The least priority, [-sys.maxsize]. *)
Definition min_priority : Z := (- (2 ^ 63 - 1))%Z.

Definition reset st : RadixCache :=
  let '(r, st) := new_TreeNode min_priority st in
  let st := update (fun nd => set_hash (Some []) (set_lock 1 (set_key (mkKey [] None false) (Some []) nd))) r st in
  _record_all_cleared_event (with_leaves ∅ (with_sizes 0 0 (with_root r st))).

(** The cache over an allocator, before its first [reset]. *)
Definition init (a : A) : RadixCache := reset (mkCache ∅ 0 0 0 0 0 ∅ [] a).

(** ** Leaves, splits, deletion *)

Definition is_leaf nd st : bool :=
  forallb (fun c => match nodes st !! c with Some cd => evicted cd | None => true end)
    (map snd (map_to_list (children nd))).

Definition _update_leaf_status n st : res RadixCache :=
  let! nd := get_node (Some n) st in
  Ok (with_leaves
        (if evicted nd || (0 <? lock_ref nd)%Z then evictable_leaves st ∖ {[n]}
         else if is_leaf nd st then evictable_leaves st ∪ {[n]}
         else evictable_leaves st ∖ {[n]}) st).

(** [None[:i]] raises. *)
Definition tensor (v : option (list Z)) : res (list Z) :=
  match v with Some l => Ok l | None => Raise TypeError end.

(** [_split_node(child.key, child, split_len)]. *)
Definition _split_node (k : RadixKey) (child split_len : nat) st : res (nat * RadixCache) :=
  let! cd := get_node (Some child) st in
  let '(new_node, st) := new_TreeNode (priority cd) st in
  let! ck := get_child_key ps (key_from split_len k) in
  let! v := tensor (value cd) in
  let '(nh, ch) := split_node_hash_value (hash_value cd) split_len in
  let st := update (fun nd => set_hash nh (set_children {[ck := child]} (set_parent (parent cd)
              (set_key (key_upto split_len (key cd)) (Some (take split_len v))
              (set_lock (lock_ref cd) (set_hits (hit_count cd) nd)))))) new_node st in
  let st := update (fun nd => set_hash ch (set_parent (Some new_node)
              (set_key (key_from split_len (key cd)) (Some (drop split_len v)) nd))) child st in
  let! ck' := get_child_key ps k in
  let! _ := get_node (parent cd) st in
  Ok (new_node, update (fun nd => set_children (<[ck' := new_node]> (children nd)) nd)
                  (default 0 (parent cd)) st).

Definition _inc_hit_count n (chunked : bool) st : RadixCache :=
  if chunked then st else update (fun nd => set_hits (hit_count nd + 1) nd) n st.

(** The node leaves its parent's dictionary; [pop] returns the node itself. *)
Definition _delete_leaf n st : res RadixCache :=
  let! nd := get_node (Some n) st in
  let! ck := get_child_key ps (key nd) in
  let! pd := get_node (parent nd) st in
  let p := default 0 (parent nd) in
  passert (bool_decide (children pd !! ck = Some n))
    (let st := update (fun pd => set_children (delete ck (children pd)) pd) p st in
     let st := with_sizes (evictable_size_ st - Z.of_nat (key_len (key nd))) (protected_size_ st) st in
     _update_leaf_status p (with_leaves (evictable_leaves st ∖ {[n]}) st)).

(** ** Matching *)

(** The loop of [_match_prefix_helper].  Every turn consumes a part of the key,
    which bounds the turns. *)
Fixpoint match_loop (fuel : nat) (access_time : Z) (node : nat) (k : RadixKey) (ck : child_key)
    (acc : list (option (list Z))) st : res (list (option (list Z)) * nat * RadixCache) :=
  match fuel with
  | 0 => Raise RuntimeError
  | S fuel =>
    let! nd := get_node (Some node) st in
    if key_len k =? 0 then Ok (acc, node, st)
    else match children nd !! ck with
    | None => Ok (acc, node, st)
    | Some child =>
      let st := update (set_access access_time) child st in
      let! cd := get_node (Some child) st in
      let! prefix_len := key_match_fn ps (key cd) k in
      if prefix_len <? key_len (key cd) then
        let! '(new_node, st) := _split_node (key cd) child prefix_len st in
        let! nn := get_node (Some new_node) st in
        Ok (acc ++ [value nn], new_node, st)
      else
        let k := key_from prefix_len k in
        let! ck := (if key_len k =? 0 then Ok ck else get_child_key ps k) in
        match_loop fuel access_time child k ck (acc ++ [value cd]) st
    end
  end.

Definition _match_prefix_helper n k st : res (list (option (list Z)) * nat * RadixCache) :=
  let '(access_time, st) := now st in
  let st := update (set_access access_time) n st in
  let! ck := get_child_key ps k in
  match_loop (S (key_len k)) access_time n k ck [] st.

(** [torch.cat(value)]. *)
Fixpoint cat_values (vs : list (option (list Z))) : res (list Z) :=
  match vs with
  | [] => Ok []
  | v :: vs => let! x := tensor v in let! y := cat_values vs in Ok (x ++ y)
  end.

(** [match_prefix]: the cached indices and the node that ends them. *)
Definition match_prefix k st : res (list Z * nat * RadixCache) :=
  let '(k, _) := maybe_bigram_convert (is_eagle P) k None in
  if disable P || (key_len k =? 0) then Ok ([], root_node st, st)
  else
    let k := if ps =? 1 then k else key_upto (key_len k / ps * ps) k in
    if key_len k =? 0 then Ok ([], root_node st, st)
    else
      let! '(vs, last_node, st) := _match_prefix_helper (root_node st) k st in
      let! v := cat_values vs in
      Ok (v, last_node, st).

(** ** Insertion *)

Definition touch (access_time prio : Z) (nd : TreeNode) : TreeNode :=
  set_priority (Z.max (priority nd) prio) (set_access access_time nd).

(** The loop of [_insert_helper]: the node reached, what is left of the key and
    of the value, the key of the missing child, and the length that was found. *)
Fixpoint insert_loop (fuel : nat) (access_time prio : Z) (chunked : bool) (node : nat) (k : RadixKey)
    (v : list Z) (ck : child_key) (total : nat) st
    : res (nat * RadixKey * list Z * child_key * nat * RadixCache) :=
  match fuel with
  | 0 => Raise RuntimeError
  | S fuel =>
    let! nd := get_node (Some node) st in
    if key_len k =? 0 then Ok (node, k, v, ck, total, st)
    else match children nd !! ck with
    | None => Ok (node, k, v, ck, total, st)
    | Some child =>
      let st := update (set_access access_time) child st in
      let! cd := get_node (Some child) st in
      let! prefix_len := key_match_fn ps (key cd) k in
      let k := key_from prefix_len k in
      let v := drop prefix_len v in
      let! '(node, st) :=
        (if prefix_len <? key_len (key cd) then _split_node (key cd) child prefix_len st
         else Ok (child, st)) in
      let st := update (fun nd => set_priority (Z.max (priority nd) prio) nd) node st in
      let st := _inc_hit_count node chunked st in
      let! ck := (if key_len k =? 0 then Ok ck else get_child_key ps k) in
      insert_loop fuel access_time prio chunked node k v ck (total + prefix_len) st
    end
  end.

(** The new leaf below [node]. *)
Definition add_leaf (node : nat) (k : RadixKey) (v : list Z) (ck : child_key) (prio : Z) (chunked : bool) st
    : res RadixCache :=
  let '(new_node, st) := new_TreeNode prio st in
  let st := update (fun nd => set_key k (Some v) (set_parent (Some node) nd)) new_node st in
  let st := _inc_hit_count new_node chunked st in
  let st := update (fun nd => set_children (<[ck := new_node]> (children nd)) nd) node st in
  let st := with_sizes (evictable_size_ st + Z.of_nat (key_len k)) (protected_size_ st) st in
  let! st := _update_leaf_status node st in
  let! st := _update_leaf_status new_node st in
  _record_store_event new_node st.

Definition _insert_helper n k (v : list Z) (prio : Z) (chunked : bool) st : res (nat * RadixCache) :=
  let '(access_time, st) := now st in
  let st := update (touch access_time prio) n st in
  if key_len k =? 0 then Ok (0, st)
  else
    let! ck := get_child_key ps k in
    let! '(node, k, v, ck, total, st) := insert_loop (S (key_len k)) access_time prio chunked n k v ck 0 st in
    if key_len k =? 0 then Ok (total, st)
    else let! st := add_leaf node k v ck prio chunked st in Ok (total, st).

(** [torch.tensor(key.token_ids)]. *)
Definition tokens_value (ts : list tokid) : res (list Z) :=
  if forallb (fun t => match t with Single _ => true | Bigram _ _ => false end) ts
  then Ok (map (fun t => match t with Single z => z | Bigram z _ => z end) ts)
  else Raise ValueError.

(** [insert]: the length of the prefix that was there before. *)
Definition insert k (v : option (list Z)) (prio : Z) (chunked : bool) st : res (nat * RadixCache) :=
  if disable P then Ok (0, st)
  else
    let! v := (match v with Some v => Ok v | None => tokens_value (token_ids k) end) in
    let '(k, v) := maybe_bigram_convert (is_eagle P) k (Some v) in
    let! v := tensor v in
    _insert_helper (root_node st) k v prio chunked st.

(** ** Locks *)

(** The loops over the ancestors; the number of nodes bounds their turns. *)
Fixpoint inc_loop (fuel : nat) (node : option nat) (delta : Z) st : res (Z * RadixCache) :=
  if decide (node = Some (root_node st)) then Ok (delta, st)
  else match fuel with
  | 0 => Raise RuntimeError
  | S fuel =>
    let! nd := get_node node st in
    let n := default 0 node in
    let len := Z.of_nat (key_len (key nd)) in
    let '(delta, st) :=
      if (lock_ref nd =? 0)%Z
      then ((delta - len)%Z, with_sizes (evictable_size_ st - len) (protected_size_ st + len) st)
      else (delta, st) in
    let st := update (fun nd => set_lock (lock_ref nd + 1) nd) n st in
    let! st := _update_leaf_status n st in
    inc_loop fuel (parent nd) delta st
  end.

Definition inc_lock_ref (node : option nat) st : res (Z * RadixCache) :=
  if disable P then Ok (0%Z, st) else inc_loop (S (size (nodes st))) node 0 st.

Fixpoint dec_loop (fuel : nat) (node : option nat) (delta : Z) st : res (Z * RadixCache) :=
  if decide (node = Some (root_node st)) then Ok (delta, st)
  else match fuel with
  | 0 => Raise RuntimeError
  | S fuel =>
    let! nd := get_node node st in
    let n := default 0 node in
    let len := Z.of_nat (key_len (key nd)) in
    let '(delta, st) :=
      if (lock_ref nd =? 1)%Z
      then ((delta + len)%Z, with_sizes (evictable_size_ st + len) (protected_size_ st - len) st)
      else (delta, st) in
    let st := update (fun nd => set_lock (lock_ref nd - 1) nd) n st in
    let! st := _update_leaf_status n st in
    passert (match parent nd with None => bool_decide (n = root_node st) | Some _ => true end)
      (dec_loop fuel (parent nd) delta st)
  end.

Definition dec_lock_ref (node : option nat) st : res (Z * RadixCache) :=
  if disable P then Ok (0%Z, st) else dec_loop (S (size (nodes st))) node 0 st.

Definition evictable_size st : Z := evictable_size_ st.
Definition protected_size st : Z := protected_size_ st.

(** ** Eviction *)

(** [(priority, node) < (priority', node')]: nodes compare by their access time. *)

Definition prio_lt (p q : Z * Z) : bool := (p.1 <? q.1)%Z || ((p.1 =? q.1)%Z && (p.2 <? q.2)%Z).

Definition access_of st n : Z := match nodes st !! n with Some nd => last_access_time nd | None => 0%Z end.

Definition entry_lt st (x y : heap_entry) : bool :=
  prio_lt x.1 y.1 || (bool_decide (x.1 = y.1) && (access_of st x.2 <? access_of st y.2)%Z).

(** [heapq.heappop]: a least entry, and the others. *)
Fixpoint heappop st (x : heap_entry) (l : list heap_entry) : heap_entry * list heap_entry :=
  match l with
  | [] => (x, [])
  | y :: l =>
    let '(m, rest) := heappop st y l in
    if entry_lt st m x then (m, x :: rest) else (x, m :: rest)
  end.

Definition heap_entry_of st n : res heap_entry :=
  let! nd := get_node (Some n) st in Ok (get_priority (eviction_strategy P) nd, n).

Fixpoint heap_entries st (l : list nat) : res (list heap_entry) :=
  match l with
  | [] => Ok []
  | n :: l => let! e := heap_entry_of st n in let! es := heap_entries st l in Ok (e :: es)
  end.

(** One turn of the loop: the least leaf [x] is freed and deleted, and its parent
    enters the heap when it becomes an unlocked leaf. *)
Definition evict_one (x : nat) (heap : list heap_entry) (num_evicted : nat) st
    : res (list heap_entry * nat * RadixCache) :=
  let! xd := get_node (Some x) st in
  let! v := tensor (value xd) in
  let! a := alloc_free v (allocator st) in
  let! st := _delete_leaf x (with_alloc a st) in
  let! pd := get_node (parent xd) st in
  let p := default 0 (parent xd) in
  let heap := if decide (children pd = ∅) then
                if (lock_ref pd =? 0)%Z then (get_priority (eviction_strategy P) pd, p) :: heap else heap
              else heap in
  let! st := _record_remove_event x st in
  Ok (heap, num_evicted + length v, st).

(** The loop; every turn takes a node out of the tree. *)
Fixpoint evict_loop (fuel num_tokens num_evicted : nat) (heap : list heap_entry) st
    : res (nat * RadixCache) :=
  if num_tokens <=? num_evicted then Ok (num_evicted, st)
  else match heap with
  | [] => Ok (num_evicted, st)
  | e :: es =>
    match fuel with
    | 0 => Raise RuntimeError
    | S fuel =>
      let '(m, heap) := heappop st e es in
      let! '(heap, num_evicted, st) := evict_one m.2 heap num_evicted st in
      evict_loop fuel num_tokens num_evicted heap st
    end
  end.

Definition evict (num_tokens : nat) st : res (nat * RadixCache) :=
  if disable P then Ok (0, st)
  else
    let! heap := heap_entries st (elements (evictable_leaves st)) in
    evict_loop (size (nodes st)) num_tokens 0 heap st.

(** ** Sizes *)

Definition in_device st n : bool := match nodes st !! n with Some nd => negb (evicted nd) | None => false end.

(** The stack of [_total_size_helper]; every node of the tree is popped once. *)
Fixpoint total_loop (fuel total_size : nat) (stack : list nat) st : res nat :=
  match stack with
  | [] => Ok total_size
  | n :: stack =>
    match fuel with
    | 0 => Raise RuntimeError
    | S fuel =>
      let! nd := get_node (Some n) st in
      let! v := tensor (value nd) in
      let live := filter (fun c => in_device st c = true) (map snd (map_to_list (children nd))) in
      total_loop fuel (total_size + length v) (live ++ stack) st
    end
  end.

Definition total_size st : res nat := total_loop (size (nodes st)) 0 [root_node st] st.

End Model.
Arguments TreeNode : clear implicits.
Arguments RadixCache : clear implicits.

End Radix.
