(* ===== verification/RadixTree.v ===== *)
(** Keys and shape of the radix tree of [RadixCache].

    Matching two page-aligned keys gives their longest common page-aligned
    prefix.  [Tree] is the shape of the nodes [T] reachable from the root, and
    [chain] the path from a node up to the root.  Each structural change the
    operations make (a split, a new leaf, a deleted leaf) preserves the shape. *)
From stdpp Require Import base list gmap sets strings.
From Stdlib Require Import ZArith Lia.
From S2P Require Import Prelude RadixCache.
Local Open Scope nat_scope.

Module RTree.
Import Radix.

(** ** Matching keys *)

Section Match.
Implicit Types (l : list tokid) (k : RadixKey) (i m n : nat).

Definition aligned (ps : nat) {T} (l : list T) : Prop := (ps | length l).

(** [m] is the length of the longest common page-aligned prefix. *)
Record is_match (ps : nat) l0 l1 m : Prop := {
  im_page : (ps | m);
  im_len0 : m <= length l0;
  im_len1 : m <= length l1;
  im_take : take m l0 = take m l1;
  im_max : forall m', (ps | m') -> m' <= length l0 -> m' <= length l1 -> take m' l0 = take m' l1 -> m' <= m;
}.

Lemma common_spec l0 l1 : is_match 1 l0 l1 (common l0 l1).
Proof.
  assert (common l0 l1 <= length l0 /\ common l0 l1 <= length l1 /\
    take (common l0 l1) l0 = take (common l0 l1) l1 /\
    forall m', m' <= length l0 -> m' <= length l1 -> take m' l0 = take m' l1 -> m' <= common l0 l1)
    as (? & ? & ? & Hm).
  { revert l1. induction l0 as [|t0 l0 IH]; intros [|t1 l1]; simpl; try (repeat split; intros; simpl in *; lia).
    destruct (decide (t0 = t1)) as [->|Hne].
    - destruct (IH l1) as (? & ? & E & Hm). simpl. rewrite E. repeat split; [lia|lia|].
      intros [|m'] H1 H2 H3; [lia|]. simpl in H3. injection H3 as H3. apply le_n_S, Hm; [lia|lia|done].
    - repeat split; [lia|lia|]. intros [|m'] H1 H2 H3; [done|]. simpl in H3. by injection H3. }
  split; try done; [apply Nat.divide_1_l|]. intros m' _. apply Hm.
Qed.

Lemma take_slice {T} (l l' : list T) i n :
  take i l = take i l' -> py_slice i (i + n) l = py_slice i (i + n) l' -> take (i + n) l = take (i + n) l'.
Proof.
  unfold py_slice. replace (i + n - i) with n by lia. intros E1 E2.
  rewrite <- (take_take_drop l i n), <- (take_take_drop l' i n). by rewrite E1, E2.
Qed.

Lemma slice_take {T} (l l' : list T) i n m :
  i + n <= m -> take m l = take m l' -> py_slice i (i + n) l = py_slice i (i + n) l'.
Proof.
  intros Hm E. unfold py_slice. replace (i + n - i) with n by lia.
  assert (E' : take (i + n) l = take (i + n) l').
  { rewrite <- (Nat.min_l (i + n) m) by lia. by rewrite <- !take_take, E. }
  apply (f_equal (drop i)) in E'. by rewrite !skipn_firstn_comm, Nat.add_comm, Nat.add_sub in E'.
Qed.

Lemma match_pages_spec ps l0 l1 fuel i : 0 < ps -> aligned ps l0 -> aligned ps l1 ->
  (ps | i) -> i <= Nat.min (length l0) (length l1) -> take i l0 = take i l1 ->
  Nat.min (length l0) (length l1) < i + fuel ->
  is_match ps l0 l1 (match_pages fuel ps (Nat.min (length l0) (length l1)) i l0 l1).
Proof.
  intros Hps [a0 A0] [a1 A1]. set (ml := Nat.min (length l0) (length l1)). revert i.
  induction fuel as [|fuel IH]; intros i [q Hq] Hi Hti Hf; [lia|]. simpl.
  destruct (Nat.ltb_spec i ml) as [Hlt|Hge].
  - assert (Hstep : i + ps <= ml).
    { assert (q < a0 /\ q < a1) as [Q0 Q1] by (split; apply (Nat.mul_lt_mono_pos_r ps); lia).
      assert (S q * ps <= a0 * ps /\ S q * ps <= a1 * ps) as [? ?] by (split; apply Nat.mul_le_mono_r; lia).
      lia. }
    destruct (decide (_ = _)) as [E|E].
    + apply IH; [exists (S q); lia|lia| |lia]. by apply take_slice.
    + split; [by exists q|lia|lia|done|]. intros m' [q' ->] Hm0 Hm1 Et.
      destruct (decide (q' <= q)) as [Hle|Hgt]; [rewrite Hq; by apply Nat.mul_le_mono_r|].
      destruct E. apply (slice_take _ _ _ _ (q' * ps)); [|done].
      transitivity (S q * ps); [lia|]. apply Nat.mul_le_mono_r. lia.
  - assert (i = ml) as -> by lia. split; [by exists q|lia|lia|done|]. intros; lia.
Qed.

Lemma key_match_spec ps k0 k1 : 0 < ps -> aligned ps (token_ids k0) -> aligned ps (token_ids k1) ->
  extra_key k0 = extra_key k1 ->
  exists m, key_match_fn ps k0 k1 = Ok m /\ is_match ps (token_ids k0) (token_ids k1) m.
Proof.
  intros Hps H0 H1 He. unfold key_match_fn, _key_match_page_size1, _key_match_paged, _check_extra_key.
  destruct (Nat.eqb_spec ps 1) as [->|Hne]; rewrite decide_True by done; eexists; (split; [reflexivity|]).
  - apply common_spec.
  - apply match_pages_spec; try done; [apply Nat.divide_0_r|lia|unfold key_len; lia].
Qed.

(** The first page, with the extra key. *)
Definition ck_of (ps : nat) k : child_key := (extra_key k, take ps (token_ids k)).

Lemma get_child_key_spec ps k : token_ids k <> [] -> get_child_key ps k = Ok (ck_of ps k).
Proof.
  intros Hk. unfold get_child_key, ck_of. destruct (Nat.eqb_spec ps 1) as [->|]; [|done].
  by destruct (token_ids k).
Qed.

Lemma aligned_ge ps {T} (l : list T) : aligned ps l -> l <> [] -> ps <= length l.
Proof.
  intros [[|q] Hq] Hl; [destruct l; [done|simpl in Hq; lia]|]. lia.
Qed.

(** Keys filed under the same child key share a page. *)
Lemma match_pos ps k0 k1 m : 0 < ps -> token_ids k0 <> [] -> token_ids k1 <> [] ->
  aligned ps (token_ids k0) -> aligned ps (token_ids k1) ->
  ck_of ps k0 = ck_of ps k1 -> is_match ps (token_ids k0) (token_ids k1) m -> ps <= m.
Proof.
  intros Hps N0 N1 A0 A1 [= _ Et] Hm. apply Hm; [done|by apply aligned_ge..|done].
Qed.

Lemma aligned_drop ps {T} (l : list T) m : aligned ps l -> (ps | m) -> aligned ps (drop m l).
Proof.
  intros Hl Hm. unfold aligned. rewrite length_drop. by apply Nat.divide_sub_r.
Qed.

Lemma aligned_take ps {T} (l : list T) m : aligned ps l -> (ps | m) -> aligned ps (take m l).
Proof.
  intros Hl Hm. unfold aligned. rewrite length_take. destruct (Nat.min_spec m (length l)) as [[_ ->]|[_ ->]]; done.
Qed.

(** A proper page-aligned part of a key keeps its first page. *)
Lemma ck_upto ps k m : 0 < m -> (ps | m) -> ck_of ps (key_upto m k) = ck_of ps k.
Proof.
  intros Hm [q ->]. unfold ck_of, key_upto. simpl. f_equal. rewrite take_take. f_equal.
  destruct q; [lia|]. simpl. lia.
Qed.

End Match.

(** ** Sums over sets of nodes *)

Section Sums.
Implicit Types (f g : nat -> Z) (X : gset nat) (l : list nat).

Definition lsumz f l : Z := foldr (fun n acc => f n + acc)%Z 0%Z l.
Definition sumz f X : Z := lsumz f (elements X).

Lemma lsumz_perm f l l' : l ≡ₚ l' -> lsumz f l = lsumz f l'.
Proof. induction 1; simpl; lia. Qed.

Lemma lsumz_ext f g l : (forall n, n ∈ l -> f n = g n) -> lsumz f l = lsumz g l.
Proof.
  induction l as [|n l IH]; intros E; [done|]. simpl. rewrite (E n) by (by left).
  rewrite IH; [done|]. intros m Hm. apply E. by right.
Qed.

Lemma sumz_ext f g X : (forall n, n ∈ X -> f n = g n) -> sumz f X = sumz g X.
Proof. intros E. apply lsumz_ext. intros n Hn. apply E. by apply elem_of_elements. Qed.

Lemma sumz_insert f X n : n ∉ X -> sumz f (X ∪ {[n]}) = (f n + sumz f X)%Z.
Proof.
  intros Hn. unfold sumz. change (f n + lsumz f (elements X))%Z with (lsumz f (n :: elements X)).
  apply lsumz_perm. rewrite (comm_L union). by apply elements_union_singleton.
Qed.

Lemma sumz_delete f X n : n ∈ X -> sumz f X = (f n + sumz f (X ∖ {[n]}))%Z.
Proof.
  intros Hn. rewrite <- sumz_insert by set_solver. f_equal. apply set_eq. intros m.
  destruct (decide (m = n)); set_solver.
Qed.

(** One summand changes. *)
Lemma sumz_alter f g X n : n ∈ X -> (forall m, m ∈ X -> m <> n -> f m = g m) ->
  sumz g X = (sumz f X - f n + g n)%Z.
Proof.
  intros Hn E. rewrite (sumz_delete f X n), (sumz_delete g X n) by done.
  rewrite (sumz_ext f g (X ∖ {[n]})); [lia|]. intros m Hm. apply E; set_solver.
Qed.

Lemma sumz_nonneg f X : (forall n, n ∈ X -> (0 <= f n)%Z) -> (0 <= sumz f X)%Z.
Proof.
  intros Hf. unfold sumz. assert (Hl : forall n, n ∈ elements X -> (0 <= f n)%Z).
  { intros n Hn. apply Hf. by apply elem_of_elements. }
  induction (elements X) as [|n l IH]; simpl; [done|].
  pose proof (Hl n ltac:(by left)). specialize (IH (fun m Hm => Hl m ltac:(by right))). lia.
Qed.

Lemma sumz_add f g X : (sumz f X + sumz g X = sumz (fun n => f n + g n) X)%Z.
Proof. unfold sumz. induction (elements X) as [|n l IH]; simpl; lia. Qed.

End Sums.

(** ** Shape of the tree *)

Section Shape.
Context {H : Type} (ps : nat).
Implicit Types (ns : gmap nat (TreeNode H)) (nd : TreeNode H) (n p c r : nat) (T : gset nat).

(** The part of a node the shape depends on. *)
Definition core nd := (children nd, parent nd, key nd, value nd, lock_ref nd, hash_value nd).

Definition same_core ns ns' : Prop := forall n, core <$> ns !! n = core <$> ns' !! n.

#[export] Instance same_core_equiv : Equivalence same_core.
Proof.
  split; [done|by intros ns ns' E n|]. intros a b c E E' n. by rewrite E.
Qed.

Lemma same_core_lookup ns ns' n nd : same_core ns ns' -> ns !! n = Some nd ->
  exists nd', ns' !! n = Some nd' /\ core nd' = core nd.
Proof.
  intros E En. specialize (E n). rewrite En in E. simpl in E. symmetry in E.
  apply fmap_Some in E as (nd' & -> & E). by exists nd'.
Qed.

Lemma same_core_alter ns f n : (forall nd, core (f nd) = core nd) -> same_core ns (alter f n ns).
Proof.
  intros Hf m. destruct (decide (m = n)) as [->|Hne].
  - rewrite lookup_alter_eq. destruct (ns !! n); simpl; [by rewrite Hf|done].
  - by rewrite lookup_alter_ne.
Qed.

(** A node below the root: a non-empty page-aligned key with one index per token,
    filed in its parent under its first page, in the namespace of its parent. *)
Record node_ok ns r T n nd p pd : Prop := {
  no_node : ns !! n = Some nd;
  no_key : token_ids (key nd) <> [];
  no_page : aligned ps (token_ids (key nd));
  no_value : exists v, value nd = Some v /\ length v = key_len (key nd);
  no_parent : parent nd = Some p;
  no_pnode : ns !! p = Some pd;
  no_pin : p ∈ T;
  no_filed : children pd !! ck_of ps (key nd) = Some n;
  no_extra : p = r \/ extra_key (key nd) = extra_key (key pd);
}.

Definition kid_ok ns r T n ck c : Prop :=
  c ∈ T /\ c <> r /\ exists cd, ns !! c = Some cd /\ parent cd = Some n /\ ck = ck_of ps (key cd).

Record Tree ns r T : Prop := {
  t_root_in : r ∈ T;
  t_root : exists nd, ns !! r = Some nd /\ parent nd = None /\ key_len (key nd) = 0 /\
    value nd = Some [] /\ lock_ref nd = 1%Z;
  t_node : forall n, n ∈ T -> n <> r -> exists nd p pd, node_ok ns r T n nd p pd;
  t_kids : forall n nd ck c, n ∈ T -> ns !! n = Some nd -> children nd !! ck = Some c -> kid_ok ns r T n ck c;
  t_rank : exists rk : nat -> nat, forall n nd p, n ∈ T -> ns !! n = Some nd -> parent nd = Some p -> rk p < rk n;
}.

Lemma t_node_any ns r T n : Tree ns r T -> n ∈ T -> exists nd, ns !! n = Some nd.
Proof.
  intros Ht Hn. destruct (decide (n = r)) as [->|Hr].
  - destruct (t_root _ _ _ Ht) as (nd & ? & _). by exists nd.
  - destruct (t_node _ _ _ Ht n Hn Hr) as (nd & p & pd & Hok). exists nd. apply Hok.
Qed.

Lemma t_parent_in ns r T n nd p : Tree ns r T -> n ∈ T -> ns !! n = Some nd -> parent nd = Some p -> p ∈ T.
Proof.
  intros Ht Hn En Ep. destruct (decide (n = r)) as [->|Hr].
  - destruct (t_root _ _ _ Ht) as (rd & E & E' & _). congruence.
  - destruct (t_node _ _ _ Ht n Hn Hr) as (nd' & q & qd & Hok).
    rewrite (no_node _ _ _ _ _ _ _ Hok) in En. injection En as <-.
    rewrite (no_parent _ _ _ _ _ _ _ Hok) in Ep. injection Ep as <-. apply Hok.
Qed.

Lemma tree_same ns ns' r T : same_core ns ns' -> Tree ns r T -> Tree ns' r T.
Proof.
  intros E [Hr (rd & Er & Hp & Hk & Hv & Hl) Hn Hc (rk & Hrk)].
  assert (Bk : forall n nd', ns' !! n = Some nd' -> exists nd, ns !! n = Some nd /\ core nd = core nd').
  { intros n nd' En. apply (same_core_lookup ns' ns); [by symmetry|done]. }
  split; [done| | | |].
  - destruct (same_core_lookup _ _ _ _ E Er) as (rd' & Er' & [= ? ? Ek ? ? _]). exists rd'.
    rewrite Ek. repeat split; congruence.
  - intros n HnT Hnr. destruct (Hn n HnT Hnr) as (nd & p & pd & [N1 N2 N3 N4 N5 N6 N7 N8 N9]).
    destruct (same_core_lookup _ _ _ _ E N1) as (nd' & En & [= ? ? Ek Ev ? _]).
    destruct (same_core_lookup _ _ _ _ E N6) as (pd' & Ep & [= Ec ? Ek' ? ? _]).
    exists nd', p, pd'. split; rewrite ?Ek, ?Ec, ?Ek', ?Ev; (done || congruence).
  - intros n nd' ck c HnT En Ec. destruct (Bk n nd' En) as (nd & En0 & [= Ech ? ? ? ? _]).
    rewrite <- Ech in Ec. destruct (Hc n nd ck c HnT En0 Ec) as (? & ? & cd & E1 & E2 & E3).
    destruct (same_core_lookup _ _ _ _ E E1) as (cd' & Ecd & [= ? ? Ek ? ? _]).
    split; [done|]. split; [done|]. exists cd'. rewrite Ek. repeat split; congruence.
  - exists rk. intros n nd' p HnT En Ep. destruct (Bk n nd' En) as (nd & En0 & [= ? ? ? ? ? _]).
    apply (Hrk n nd); congruence.
Qed.

(** ** The path to the root *)

(** [l] are the nodes from [n] up to the root, which is left out. *)
Inductive chain ns r : nat -> list nat -> Prop :=
| chain_root : chain ns r r []
| chain_up n nd p l :
    n <> r -> ns !! n = Some nd -> parent nd = Some p -> chain ns r p l -> chain ns r n (n :: l).

Lemma chain_fun ns r n l l' : chain ns r n l -> chain ns r n l' -> l = l'.
Proof.
  intros Hc. revert l'. induction Hc as [|n nd p l Hn En Ep _ IH]; intros l' Hc'.
  - by inversion Hc'.
  - inversion Hc' as [|? nd' p' l0 ? En' Ep' Hc0]; simplify_eq. f_equal. by apply IH.
Qed.

Lemma chain_same ns ns' r n l : same_core ns ns' -> chain ns r n l -> chain ns' r n l.
Proof.
  intros E. induction 1 as [|n nd p l Hn En Ep _ IH]; [constructor|].
  destruct (same_core_lookup _ _ _ _ E En) as (nd' & En' & [= ? Ep' ? ? ? _]).
  apply (chain_up _ _ n nd' p); (done || congruence).
Qed.

(** The path is closed under parents. *)
Lemma chain_closed ns r m l n nd p : chain ns r m l -> n ∈ l -> ns !! n = Some nd -> parent nd = Some p ->
  p <> r -> p ∈ l.
Proof.
  induction 1 as [|m md q l Hm Em Eq Hc IH]; [by intros ?%not_elem_of_nil|].
  intros [->|Hin]%elem_of_cons En Ep Hp; [|right; by apply IH].
  simplify_eq. right. inversion Hc; simplify_eq. by left.
Qed.

Lemma chain_exists ns r T n : Tree ns r T -> n ∈ T ->
  exists l, chain ns r n l /\ (forall m, m ∈ l -> m ∈ T /\ m <> r) /\ NoDup l.
Proof.
  intros [_ _ Hn _ (rk & Hrk)] HnT.
  assert (exists l, chain ns r n l /\ (forall m, m ∈ l -> m ∈ T /\ m <> r /\ rk m <= rk n) /\ NoDup l)
    as (l & Hc & Hl & Hd); [|exists l; split; [done|]; split; [|done]; intros m (?&?&_)%Hl; done].
  remember (rk n) as w eqn:Ew. revert n Ew HnT. induction w as [w IH] using lt_wf_ind. intros n -> HnT.
  destruct (decide (n = r)) as [->|Hnr].
  { exists []. split; [constructor|]. split; [by intros m ?%not_elem_of_nil|constructor]. }
  destruct (Hn n HnT Hnr) as (nd & p & pd & Hok).
  pose proof (Hrk n nd p HnT (no_node _ _ _ _ _ _ _ Hok) (no_parent _ _ _ _ _ _ _ Hok)) as Hlt.
  destruct (IH (rk p) Hlt p eq_refl (no_pin _ _ _ _ _ _ _ Hok)) as (l & Hc & Hl & Hd).
  exists (n :: l). split; [apply (chain_up _ _ n nd p); [done|apply Hok..|done]|]. split.
  - intros m [->|Hm]%elem_of_cons; [done|]. destruct (Hl m Hm) as (? & ? & ?). repeat split; (done || lia).
  - constructor; [|done]. intros (_ & _ & ?)%Hl. lia.
Qed.

(** ** A split *)

(** [nn] takes the first [m] tokens of the child [c] and its place below [p]. *)
Definition split_map ns c cd p pd nn m v (h h' : option (list H)) (t t' : Z) : gmap nat (TreeNode H) :=
  <[p := set_children (<[ck_of ps (key cd) := nn]> (children pd)) pd]>
  (<[c := set_hash h' (set_parent (Some nn) (set_key (key_from m (key cd)) (Some (drop m v)) cd))]>
  (<[nn := mkNode {[ck_of ps (key_from m (key cd)) := c]} (Some p) (key_upto m (key cd)) (Some (take m v))
             (lock_ref cd) t t' (hit_count cd) h (priority cd)]> ns)).

Section Split.
Context (ns : gmap nat (TreeNode H)) (r : nat) (T : gset nat).
Context (Ht : Tree ns r T).
Context (c p nn m : nat) (cd pd : TreeNode H) (v : list Z) (h h' : option (list H)) (t t' : Z).
Context (Hc : c ∈ T) (Hcr : c <> r) (Hok : node_ok ns r T c cd p pd).
Context (Hfresh : ns !! nn = None) (Hm : 0 < m < key_len (key cd)) (Hpg : (ps | m)) (Hps : 0 < ps).
Context (Hv : value cd = Some v).
#[local] Abbreviation ns' := (split_map ns c cd p pd nn m v h h' t t').

Lemma split_neq : p <> c /\ nn <> c /\ nn <> p /\ nn <> r /\ nn ∉ T.
Proof using All.
  destruct Ht as [Hr (rd & Er & _) Hn _ (rk & Hrk)].
  assert (HnT : nn ∉ T).
  { intros Hin. destruct (decide (nn = r)) as [->|Hne]; [congruence|].
    destruct (Hn nn Hin Hne) as (? & ? & ? & [E _ _ _ _ _ _ _ _]). congruence. }
  split; [|repeat split; try done; intros ->; [by apply HnT|by apply HnT, Hok|done]].
  intros ->. pose proof (Hrk c cd c Hc (no_node _ _ _ _ _ _ _ Hok) (no_parent _ _ _ _ _ _ _ Hok)). lia.
Qed.

Lemma split_lookup_new : exists nd, ns' !! nn = Some nd /\
  core nd = ({[ck_of ps (key_from m (key cd)) := c]}, Some p, key_upto m (key cd), Some (take m v), lock_ref cd, h).
Proof using All.
  destruct split_neq as (? & ? & ? & _). unfold split_map.
  rewrite !lookup_insert_ne, lookup_insert_eq by done. by eexists.
Qed.

Lemma split_lookup_child : exists nd, ns' !! c = Some nd /\
  core nd = (children cd, Some nn, key_from m (key cd), Some (drop m v), lock_ref cd, h').
Proof using All.
  destruct split_neq as (? & ? & ? & _). unfold split_map.
  rewrite lookup_insert_ne, lookup_insert_eq by done. by eexists.
Qed.

Lemma split_lookup_parent : exists nd, ns' !! p = Some nd /\
  core nd = (<[ck_of ps (key cd) := nn]> (children pd), parent pd, key pd, value pd, lock_ref pd, hash_value pd).
Proof using All. unfold split_map. rewrite lookup_insert_eq. by eexists. Qed.

Lemma split_lookup_other q : q <> nn -> q <> c -> q <> p -> ns' !! q = ns !! q.
Proof. intros. unfold split_map. by rewrite !lookup_insert_ne. Qed.

(** Old nodes keep their parents, [c] apart, and their children, [p] apart. *)
Lemma split_old q qd : q ∈ T -> ns !! q = Some qd -> exists qd', ns' !! q = Some qd' /\
  (q <> c -> parent qd' = parent qd /\ key qd' = key qd /\ value qd' = value qd) /\
  (q <> p -> children qd' = children qd) /\ extra_key (key qd') = extra_key (key qd) /\
  lock_ref qd' = lock_ref qd.
Proof using All.
  intros Hq Eq. destruct split_neq as (Npc & Nc & Np & Nr & HnT).
  destruct (decide (q = c)) as [->|Hqc].
  { destruct split_lookup_child as (nd & -> & [= E1 E2 E3 E4 E5 _]). exists nd.
    rewrite (no_node _ _ _ _ _ _ _ Hok) in Eq. simplify_eq. by rewrite E3. }
  destruct (decide (q = p)) as [->|Hqp].
  { destruct split_lookup_parent as (nd & -> & [= E1 E2 E3 E4 E5 _]). exists nd.
    rewrite (no_pnode _ _ _ _ _ _ _ Hok) in Eq. simplify_eq. by rewrite E3. }
  exists qd. rewrite split_lookup_other; [done|by intros ->|done|done].
Qed.

Lemma split_hash_old q qd qd' : q ∈ T -> q <> c -> ns !! q = Some qd -> ns' !! q = Some qd' ->
  hash_value qd' = hash_value qd.
Proof using All.
  intros Hq Hqc Eq Eq'. destruct split_neq as (Npc & Nc & Np & Nr & HnT).
  destruct (decide (q = p)) as [->|Hqp].
  - destruct split_lookup_parent as (nd & E & [= _ _ _ _ _ Eh]).
    rewrite (no_pnode _ _ _ _ _ _ _ Hok) in Eq. congruence.
  - rewrite split_lookup_other in Eq' by (done || by intros ->). congruence.
Qed.

Lemma split_node_ok n : n ∈ T -> n <> r -> exists nd q qd, node_ok ns' r (T ∪ {[nn]}) n nd q qd.
Proof using All.
  intros Hn Hnr. destruct split_neq as (Npc & Nc & Np & Nr & HnT).
  destruct (decide (n = c)) as [->|Hnc].
  - destruct split_lookup_child as (cd' & Lc & [= C1 C2 C3 C4 C5 _]).
    destruct split_lookup_new as (nd' & Ln & [= N1 N2 N3 N4 N5 _]). exists cd', nn, nd'.
    destruct (no_value _ _ _ _ _ _ _ Hok) as (v' & Ev & Lv). rewrite Hv in Ev. injection Ev as <-.
    split; rewrite ?C1, ?C2, ?C3, ?C4, ?N1, ?N3; try done.
    + simpl. intros E. apply (f_equal length) in E. rewrite length_drop in E. unfold key_len in Hm. simpl in E. lia.
    + by apply aligned_drop; [apply Hok|].
    + exists (drop m v). split; [done|]. unfold key_len. simpl. rewrite !length_drop, Lv. done.
    + set_solver.
    + apply lookup_singleton_eq.
    + by right.
  - destruct (t_node _ _ _ Ht n Hn Hnr) as (nd & q & qd & [N1 N2 N3 N4 N5 N6 N7 N8 N9]).
    destruct (split_old n nd Hn N1) as (nd' & Ln & Hk & _ & _ & _). destruct (Hk Hnc) as (K1 & K2 & K3).
    destruct (split_old q qd N7 N6) as (qd' & Lq & _ & Hch & Hex & _). exists nd', q, qd'.
    split; rewrite ?K1, ?K2, ?K3, ?Hex; try done; [set_solver|].
    destruct (decide (q = p)) as [->|Hqp]; [|by rewrite Hch].
    destruct split_lookup_parent as (pd' & Lp & [= P1 P2 P3 P4 P5 _]). rewrite Lq in Lp. injection Lp as <-.
    rewrite P1, lookup_insert_ne.
    + rewrite (no_pnode _ _ _ _ _ _ _ Hok) in N6. by injection N6 as <-.
    + intros E. apply Hnc. pose proof (no_filed _ _ _ _ _ _ _ Hok) as F.
      rewrite (no_pnode _ _ _ _ _ _ _ Hok) in N6. injection N6 as <-. rewrite E in F. congruence.
Qed.

Lemma split_kid_old n ck x : n ∈ T -> kid_ok ns r T n ck x -> x <> c -> kid_ok ns' r (T ∪ {[nn]}) n ck x.
Proof using All.
  intros Hn (X1 & X2 & xd & X3 & X4 & X5) Hx. destruct (split_old x xd X1 X3) as (xd' & Lx & Hk & _).
  destruct (Hk Hx) as (K1 & K2 & K3). split; [set_solver|]. split; [done|]. exists xd'.
  by rewrite K1, K2.
Qed.

Lemma split_new_ok : exists nd qd, node_ok ns' r (T ∪ {[nn]}) nn nd p qd.
Proof using All.
  destruct split_lookup_new as (nd' & Ln & [= N1 N2 N3 N4 N5 _]).
  destruct split_lookup_parent as (pd' & Lp & [= P1 P2 P3 P4 P5 _]). exists nd', pd'.
  destruct (no_value _ _ _ _ _ _ _ Hok) as (v' & Ev & Lv). rewrite Hv in Ev. injection Ev as <-.
  split; rewrite ?N2, ?N3, ?N4, ?P1, ?P3; try done.
  - simpl. intros E. apply (f_equal length) in E. rewrite length_take in E. unfold key_len in Hm. simpl in E. lia.
  - by apply aligned_take; [apply Hok|].
  - exists (take m v). split; [done|]. unfold key_len. simpl. rewrite !length_take, Lv. done.
  - apply elem_of_union_l. apply Hok.
  - rewrite ck_upto by (done || lia). apply lookup_insert_eq.
  - apply Hok.
Qed.

Lemma split_kids n nd ck x : n ∈ T ∪ {[nn]} -> ns' !! n = Some nd -> children nd !! ck = Some x ->
  kid_ok ns' r (T ∪ {[nn]}) n ck x.
Proof using All.
  destruct split_neq as (Npc & Nc & Np & Nr & HnT).
  intros [Hn| ->%elem_of_singleton]%elem_of_union En Ex.
  - destruct (decide (n = p)) as [->|Hnp].
    + destruct split_lookup_parent as (pd' & Lp & [= P1 _ _ _ _ _]).
      rewrite Lp in En. injection En as <-. rewrite P1 in Ex.
      destruct (decide (ck = ck_of ps (key cd))) as [->|Hck].
      * rewrite lookup_insert_eq in Ex. injection Ex as <-. split; [set_solver|]. split; [done|].
        destruct split_lookup_new as (nd' & Ln & [= _ N2 N3 _ _ _]).
        exists nd'. rewrite N2, N3, ck_upto by (done || lia). done.
      * rewrite lookup_insert_ne in Ex by done.
        pose proof (t_kids _ _ _ Ht p pd ck x Hn (no_pnode _ _ _ _ _ _ _ Hok) Ex) as Kx.
        apply split_kid_old; [done|done|]. intros ->. destruct Kx as (_ & _ & cd0 & E0 & _ & ->).
        rewrite (no_node _ _ _ _ _ _ _ Hok) in E0. by injection E0 as <-.
    + destruct (t_node_any ns r T n Ht Hn) as (nd0 & En0).
      destruct (split_old n nd0 Hn En0) as (nd1 & Ln1 & _ & Hch & _). rewrite Ln1 in En. injection En as <-.
      rewrite Hch in Ex by done. pose proof (t_kids _ _ _ Ht n nd0 ck x Hn En0 Ex) as Kx.
      apply split_kid_old; [done|done|]. intros ->. destruct Kx as (_ & _ & cd0 & E0 & Ep & _).
      rewrite (no_node _ _ _ _ _ _ _ Hok) in E0. injection E0 as <-.
      rewrite (no_parent _ _ _ _ _ _ _ Hok) in Ep. by injection Ep.
  - destruct split_lookup_new as (nd' & Ln & [= N1 _ _ _ _ _]). rewrite Ln in En. injection En as <-.
    rewrite N1 in Ex. apply lookup_singleton_Some in Ex as [<- <-].
    destruct split_lookup_child as (cd' & Lc & [= _ C2 C3 _ _ _]).
    split; [set_solver|]. split; [done|]. exists cd'. by rewrite C2, C3.
Qed.

Lemma split_rank : exists rk : nat -> nat, forall n nd q, n ∈ T ∪ {[nn]} -> ns' !! n = Some nd ->
  parent nd = Some q -> rk q < rk n.
Proof using All.
  destruct split_neq as (Npc & Nc & Np & Nr & HnT). destruct (t_rank _ _ _ Ht) as (rk & Hrk).
  pose proof (Hrk c cd p Hc (no_node _ _ _ _ _ _ _ Hok) (no_parent _ _ _ _ _ _ _ Hok)) as Hpc.
  exists (fun x => if decide (x = nn) then 2 * rk c - 1 else 2 * rk x).
  intros n nd q [Hn| ->%elem_of_singleton]%elem_of_union En Eq.
  - rewrite (decide_False (P := n = nn)) by (by intros ->). destruct (t_node_any ns r T n Ht Hn) as (nd0 & En0).
    destruct (decide (n = c)) as [->|Hnc].
    { destruct split_lookup_child as (cd' & Lc & [= _ C2 _ _ _ _]).
      rewrite Lc in En. injection En as <-. rewrite C2 in Eq. injection Eq as <-.
      rewrite decide_True by done. lia. }
    destruct (split_old n nd0 Hn En0) as (nd1 & Ln1 & Hk & _). rewrite Ln1 in En. injection En as <-.
    destruct (Hk Hnc) as (K1 & _ & _). rewrite K1 in Eq. pose proof (Hrk n nd0 q Hn En0 Eq) as Hq.
    rewrite decide_False; [lia|]. intros ->. apply HnT. by apply (t_parent_in ns r T n nd0).
  - destruct split_lookup_new as (nd' & Ln & [= _ N2 _ _ _ _]).
    rewrite Ln in En. injection En as <-. rewrite N2 in Eq. injection Eq as <-.
    rewrite (decide_True (P := nn = nn)), (decide_False (P := p = nn)) by done. lia.
Qed.

Lemma tree_split : Tree ns' r (T ∪ {[nn]}).
Proof using All.
  split; [pose proof (t_root_in _ _ _ Ht); set_solver| | |exact split_kids|exact split_rank].
  - destruct (t_root _ _ _ Ht) as (rd & Er & R1 & R2 & R3 & R4).
    destruct (split_old r rd (t_root_in _ _ _ Ht) Er) as (rd' & Lr & Hk & _ & _ & Hl).
    destruct (Hk ltac:(done)) as (K1 & K2 & K3). exists rd'. rewrite K1, K2, K3, Hl. done.
  - intros n [Hn| ->%elem_of_singleton]%elem_of_union Hnr; [by apply split_node_ok|].
    destruct split_new_ok as (nd' & qd & ?). by exists nd', p, qd.
Qed.

(** The paths through [c] now go through [nn]. *)
Lemma chain_split q l : q ∈ T -> chain ns r q l ->
  exists l', chain ns' r q l' /\ (forall x, x <> nn -> x ∈ l' <-> x ∈ l) /\ (nn ∈ l' <-> c ∈ l).
Proof using All.
  destruct split_neq as (Npc & Nc & Np & Nr & HnT). intros Hq Hl. revert Hq.
  induction Hl as [|q qd u l Hqr Eq Eu _ IH]; intros Hq.
  { exists []. split; [constructor|]. set_solver. }
  destruct (IH (t_parent_in _ _ _ _ _ _ Ht Hq Eq Eu)) as (l' & Hl' & H1 & H2).
  destruct (decide (q = c)) as [->|Hqc].
  - destruct split_lookup_child as (cd' & Lc & [= _ C2 _ _ _ _]).
    destruct split_lookup_new as (nd' & Ln & [= _ N2 _ _ _ _]).
    rewrite (no_node _ _ _ _ _ _ _ Hok) in Eq. injection Eq as <-.
    rewrite (no_parent _ _ _ _ _ _ _ Hok) in Eu. injection Eu as <-.
    exists (c :: nn :: l'). split; [|set_solver].
    apply (chain_up _ _ c cd' nn); [done..|]. by apply (chain_up _ _ nn nd' p).
  - destruct (split_old q qd Hq Eq) as (qd' & Lq & Hk & _). destruct (Hk Hqc) as (K1 & _ & _).
    exists (q :: l'). split; [apply (chain_up _ _ q qd' u); (done || congruence)|].
    assert (q <> nn) by (by intros ->). set_solver.
Qed.

End Split.

(** Where parents stay, paths stay. *)
Lemma chain_ext ns ns' r q l : chain ns r q l ->
  (forall n nd, n ∈ l -> ns !! n = Some nd -> exists nd', ns' !! n = Some nd' /\ parent nd' = parent nd) ->
  chain ns' r q l.
Proof.
  induction 1 as [|q qd u l Hq Eq Eu _ IH]; intros Hp; [constructor|].
  destruct (Hp q qd ltac:(by left) Eq) as (qd' & Eq' & Ep).
  apply (chain_up _ _ q qd' u); [done|done|congruence|]. apply IH. intros n nd Hn. apply Hp. by right.
Qed.

(** ** A new leaf *)

Definition leaf_map ns p pd nn (leaf : TreeNode H) : gmap nat (TreeNode H) :=
  <[p := set_children (<[ck_of ps (key leaf) := nn]> (children pd)) pd]> (<[nn := leaf]> ns).

Section Leaf.
Context (ns : gmap nat (TreeNode H)) (r : nat) (T : gset nat).
Context (Ht : Tree ns r T).
Context (p nn : nat) (pd leaf : TreeNode H).
Context (Hp : p ∈ T) (Ep : ns !! p = Some pd) (Hfresh : ns !! nn = None).
Context (Hnone : children pd !! ck_of ps (key leaf) = None).
Context (Lkey : token_ids (key leaf) <> []) (Lpage : aligned ps (token_ids (key leaf))).
Context (Lval : exists v, value leaf = Some v /\ length v = key_len (key leaf)).
Context (Lpar : parent leaf = Some p) (Lkids : children leaf = ∅).
Context (Lext : p = r \/ extra_key (key leaf) = extra_key (key pd)).
#[local] Abbreviation ns' := (leaf_map ns p pd nn leaf).

Lemma leaf_fresh : nn ∉ T /\ nn <> p.
Proof using Ht Ep Hfresh.
  assert (nn ∉ T) by (intros Hin; destruct (t_node_any ns r T nn Ht Hin); congruence).
  split; [done|]. intros ->. congruence.
Qed.

Lemma leaf_lookup_new : ns' !! nn = Some leaf.
Proof using Ht Ep Hfresh.
  destruct leaf_fresh. unfold leaf_map. by rewrite lookup_insert_ne, lookup_insert_eq.
Qed.

(** Old nodes keep all but the children of [p]. *)
Lemma leaf_old q qd : q ∈ T -> ns !! q = Some qd -> exists qd', ns' !! q = Some qd' /\
  parent qd' = parent qd /\ key qd' = key qd /\ value qd' = value qd /\ lock_ref qd' = lock_ref qd /\
  children qd' = if decide (q = p) then <[ck_of ps (key leaf) := nn]> (children qd) else children qd.
Proof using Ht Ep Hfresh.
  intros Hq Eq. destruct leaf_fresh as [HnT _]. unfold leaf_map. destruct (decide (q = p)) as [->|Hne].
  - rewrite lookup_insert_eq. simplify_eq. by eexists.
  - rewrite !lookup_insert_ne; [by exists qd|by intros ->|done].
Qed.

Lemma leaf_hash_old q qd qd' : q ∈ T -> ns !! q = Some qd -> ns' !! q = Some qd' ->
  hash_value qd' = hash_value qd.
Proof using Ht Ep Hfresh.
  intros Hq Eq. destruct leaf_fresh as [HnT _]. unfold leaf_map. destruct (decide (q = p)) as [->|Hne].
  - rewrite lookup_insert_eq. intros [= <-]. simpl. congruence.
  - rewrite !lookup_insert_ne; [congruence|by intros ->|done].
Qed.

Lemma tree_leaf : Tree ns' r (T ∪ {[nn]}).
Proof using All.
  destruct leaf_fresh as [HnT Hnp]. pose proof leaf_lookup_new as Ln. split.
  - pose proof (t_root_in _ _ _ Ht). set_solver.
  - destruct (t_root _ _ _ Ht) as (rd & Er & R1 & R2 & R3 & R4).
    destruct (leaf_old r rd (t_root_in _ _ _ Ht) Er) as (rd' & Lr & K1 & K2 & K3 & K4 & _).
    exists rd'. rewrite K1, K2, K3, K4. done.
  - intros n [Hn| ->%elem_of_singleton]%elem_of_union Hnr.
    + destruct (t_node _ _ _ Ht n Hn Hnr) as (nd & q & qd & [N1 N2 N3 N4 N5 N6 N7 N8 N9]).
      destruct (leaf_old n nd Hn N1) as (nd' & E1 & K1 & K2 & K3 & _ & _).
      destruct (leaf_old q qd N7 N6) as (qd' & E2 & _ & Q2 & _ & _ & Q5). exists nd', q, qd'.
      split; rewrite ?K1, ?K2, ?K3, ?Q2; try done; [set_solver|]. rewrite Q5.
      destruct (decide (q = p)) as [->|]; [|done]. simplify_eq.
      rewrite lookup_insert_ne; [done|]. intros E. rewrite E in Hnone. congruence.
    + destruct (leaf_old p pd Hp Ep) as (pd' & E2 & _ & Q2 & _ & _ & Q5). exists leaf, p, pd'.
      split; try done; [set_solver| |by rewrite Q2]. rewrite Q5, decide_True by done. apply lookup_insert_eq.
  - assert (Old : forall n ck x, kid_ok ns r T n ck x -> kid_ok ns' r (T ∪ {[nn]}) n ck x).
    { intros n ck x (X1 & X2 & xd & X3 & X4 & X5). destruct (leaf_old x xd X1 X3) as (xd' & E1 & K1 & K2 & _).
      split; [set_solver|]. split; [done|]. exists xd'. by rewrite K1, K2. }
    intros n nd ck x [Hn| ->%elem_of_singleton]%elem_of_union En Ex.
    + destruct (t_node_any ns r T n Ht Hn) as (nd0 & En0).
      destruct (leaf_old n nd0 Hn En0) as (nd' & E1 & _ & _ & _ & _ & K5). rewrite E1 in En. injection En as <-.
      rewrite K5 in Ex. destruct (decide (n = p)) as [->|]; [|apply Old; by apply (t_kids _ _ _ Ht n nd0)].
      destruct (decide (ck = ck_of ps (key leaf))) as [->|Hck].
      * rewrite lookup_insert_eq in Ex. injection Ex as <-. split; [set_solver|].
        split; [intros ->; apply HnT, (t_root_in _ _ _ Ht)|]. by exists leaf.
      * rewrite lookup_insert_ne in Ex by done. apply Old. by apply (t_kids _ _ _ Ht p nd0).
    + rewrite Ln in En. injection En as <-. by rewrite Lkids, lookup_empty in Ex.
  - destruct (t_rank _ _ _ Ht) as (rk & Hrk). exists (fun x => if decide (x = nn) then S (rk p) else rk x).
    intros n nd q [Hn| ->%elem_of_singleton]%elem_of_union En Eq.
    + destruct (t_node_any ns r T n Ht Hn) as (nd0 & En0).
      destruct (leaf_old n nd0 Hn En0) as (nd' & E1 & K1 & _). rewrite E1 in En. injection En as <-.
      rewrite K1 in Eq. pose proof (t_parent_in _ _ _ _ _ _ Ht Hn En0 Eq).
      rewrite !decide_False; [by apply (Hrk n nd0)|by intros ->..].
    + rewrite Ln in En. injection En as <-. rewrite Lpar in Eq. injection Eq as <-.
      rewrite (decide_True (P := nn = nn)), (decide_False (P := p = nn)) by done. lia.
Qed.

Lemma chain_leaf q l : q ∈ T -> chain ns r q l -> chain ns' r q l.
Proof using Ht Ep Hfresh.
  intros Hq Hl. destruct (chain_exists ns r T q Ht Hq) as (l0 & Hl0 & Hin & _).
  rewrite (chain_fun _ _ _ _ _ Hl Hl0). apply (chain_ext ns); [done|]. intros n nd Hn En.
  destruct (leaf_old n nd) as (nd' & ? & ? & _); [by apply Hin|done|by exists nd'].
Qed.

End Leaf.

(** ** A deleted leaf *)

Definition delete_map ns p pd (ck : child_key) : gmap nat (TreeNode H) :=
  <[p := set_children (delete ck (children pd)) pd]> ns.

Section Delete.
Context (ns : gmap nat (TreeNode H)) (r : nat) (T : gset nat).
Context (Ht : Tree ns r T).
Context (x p : nat) (xd pd : TreeNode H).
Context (Hx : x ∈ T) (Hxr : x <> r) (Hok : node_ok ns r T x xd p pd) (Hleaf : children xd = ∅).
#[local] Abbreviation ns' := (delete_map ns p pd (ck_of ps (key xd))).

Lemma delete_neq : x <> p.
Proof using All.
  intros E. destruct (t_rank _ _ _ Ht) as (rk & Hrk).
  pose proof (Hrk x xd p Hx (no_node _ _ _ _ _ _ _ Hok) (no_parent _ _ _ _ _ _ _ Hok)). subst. lia.
Qed.

Lemma delete_old q qd : ns !! q = Some qd -> exists qd', ns' !! q = Some qd' /\
  parent qd' = parent qd /\ key qd' = key qd /\ value qd' = value qd /\ lock_ref qd' = lock_ref qd /\
  children qd' = if decide (q = p) then delete (ck_of ps (key xd)) (children qd) else children qd.
Proof using Hok.
  intros Eq. unfold delete_map. destruct (decide (q = p)) as [->|Hne].
  - rewrite lookup_insert_eq. rewrite (no_pnode _ _ _ _ _ _ _ Hok) in Eq. injection Eq as <-. by eexists.
  - rewrite lookup_insert_ne by done. by exists qd.
Qed.

Lemma delete_hash_old q qd qd' : ns !! q = Some qd -> ns' !! q = Some qd' -> hash_value qd' = hash_value qd.
Proof using Hok.
  intros Eq. unfold delete_map. destruct (decide (q = p)) as [->|Hne].
  - rewrite lookup_insert_eq. intros [= <-]. pose proof (no_pnode _ _ _ _ _ _ _ Hok). simpl. congruence.
  - rewrite lookup_insert_ne by done. congruence.
Qed.

(** Nothing but the parent's dictionary refers to the leaf. *)
Lemma delete_unreferenced n nd : n ∈ T -> ns !! n = Some nd -> parent nd <> Some x.
Proof using All.
  intros Hn En Ep. destruct (decide (n = r)) as [->|Hnr].
  { destruct (t_root _ _ _ Ht) as (rd & ? & ? & _). congruence. }
  destruct (t_node _ _ _ Ht n Hn Hnr) as (nd' & q & qd & K).
  rewrite (no_node _ _ _ _ _ _ _ K) in En. injection En as <-.
  rewrite (no_parent _ _ _ _ _ _ _ K) in Ep. injection Ep as ->.
  pose proof (no_filed _ _ _ _ _ _ _ K) as F. pose proof (no_pnode _ _ _ _ _ _ _ K) as E.
  rewrite (no_node _ _ _ _ _ _ _ Hok) in E. injection E as <-. by rewrite Hleaf, lookup_empty in F.
Qed.

Lemma tree_delete : Tree ns' r (T ∖ {[x]}).
Proof using All.
  pose proof delete_neq as Nxp. split.
  - pose proof (t_root_in _ _ _ Ht). set_solver.
  - destruct (t_root _ _ _ Ht) as (rd & Er & R1 & R2 & R3 & R4).
    destruct (delete_old r rd Er) as (rd' & Lr & K1 & K2 & K3 & K4 & _).
    exists rd'. rewrite K1, K2, K3, K4. done.
  - intros n [Hn Hnx%not_elem_of_singleton]%elem_of_difference Hnr.
    destruct (t_node _ _ _ Ht n Hn Hnr) as (nd & q & qd & [N1 N2 N3 N4 N5 N6 N7 N8 N9]).
    destruct (delete_old n nd N1) as (nd' & E1 & K1 & K2 & K3 & _ & _).
    destruct (delete_old q qd N6) as (qd' & E2 & _ & Q2 & _ & _ & Q5). exists nd', q, qd'.
    pose proof (delete_unreferenced n nd Hn N1) as Hun.
    split; rewrite ?K1, ?K2, ?K3, ?Q2; try done; [set_solver|]. rewrite Q5.
    destruct (decide (q = p)) as [->|]; [|done]. rewrite lookup_delete_ne; [done|]. intros E.
    rewrite (no_pnode _ _ _ _ _ _ _ Hok) in N6. injection N6 as <-. rewrite <- E in N8.
    rewrite (no_filed _ _ _ _ _ _ _ Hok) in N8. congruence.
  - intros n nd ck y [Hn Hnx%not_elem_of_singleton]%elem_of_difference En Ey.
    destruct (t_node_any ns r T n Ht Hn) as (nd0 & En0).
    destruct (delete_old n nd0 En0) as (nd' & E1 & _ & _ & _ & _ & K5). rewrite E1 in En. injection En as <-.
    assert (Ey0 : children nd0 !! ck = Some y /\ (n = p -> ck <> ck_of ps (key xd))).
    { rewrite K5 in Ey. destruct (decide (n = p)) as [->|]; [|done].
      by apply lookup_delete_Some in Ey as [? ?]. }
    destruct Ey0 as [Ey0 Hck]. destruct (t_kids _ _ _ Ht n nd0 ck y Hn En0 Ey0) as (Y1 & Y2 & yd & Y3 & Y4 & Y5).
    assert (y <> x).
    { intros ->. rewrite (no_node _ _ _ _ _ _ _ Hok) in Y3. injection Y3 as <-.
      rewrite (no_parent _ _ _ _ _ _ _ Hok) in Y4. injection Y4 as ->. by apply Hck. }
    destruct (delete_old y yd Y3) as (yd' & E2 & Q1 & Q2 & _).
    split; [set_solver|]. split; [done|]. exists yd'. by rewrite Q1, Q2.
  - destruct (t_rank _ _ _ Ht) as (rk & Hrk). exists rk.
    intros n nd q [Hn _]%elem_of_difference En Eq. destruct (t_node_any ns r T n Ht Hn) as (nd0 & En0).
    destruct (delete_old n nd0 En0) as (nd' & E1 & K1 & _). rewrite E1 in En. injection En as <-.
    rewrite K1 in Eq. by apply (Hrk n nd0).
Qed.

Lemma chain_delete q l : chain ns r q l -> chain ns' r q l.
Proof using Hok.
  intros Hl. apply (chain_ext ns); [done|]. intros n nd Hn En.
  destruct (delete_old n nd En) as (nd' & ? & ? & _). by exists nd'.
Qed.

End Delete.

End Shape.

End RTree.
