(* ===== verification/RadixPath.v ===== *)
(** What the radix tree stores.

    [sub ns e n ts vs n'] reads the keys and the indices from [n] down to [n'] in
    the namespace [e]; [Cached] says that the page-aligned tokens [ts] are stored
    with the indices [vs].  This is the abstract content of the cache: a finite
    map from (namespace, tokens) to indices, closed under page-aligned prefixes.
    Splits leave it as it is, a new leaf adds the prefixes of one key, a deleted
    leaf takes away only what ends in it. *)
From stdpp Require Import base list gmap sets strings.
From Stdlib Require Import ZArith Lia.
From S2P Require Import Prelude RadixCache RadixTree.
Local Open Scope nat_scope.

Module RPath.
Import Radix RTree.

Section Path.
Context {H : Type} (ps : nat).
Implicit Types (ns : gmap nat (TreeNode H)) (nd : TreeNode H) (n r : nat) (T : gset nat).
Implicit Types (e : option string) (ts : list tokid) (vs : list Z).

Inductive sub ns e : nat -> list tokid -> list Z -> nat -> Prop :=
| sub_nil n : sub ns e n [] [] n
| sub_cons n nd ck c cd v ts vs n' :
    ns !! n = Some nd -> children nd !! ck = Some c -> ns !! c = Some cd -> extra_key (key cd) = e ->
    value cd = Some v -> sub ns e c ts vs n' -> sub ns e n (token_ids (key cd) ++ ts) (v ++ vs) n'.

(** Stored tokens, cut at a page. *)
Definition Cached ns r e ts vs : Prop :=
  (ps | length ts) /\ exists n ts' vs', sub ns e r ts' vs' n /\ ts `prefix_of` ts' /\ vs = take (length ts) vs'.

Lemma sub_app ns e n ts vs n1 ts' vs' n2 :
  sub ns e n ts vs n1 -> sub ns e n1 ts' vs' n2 -> sub ns e n (ts ++ ts') (vs ++ vs') n2.
Proof.
  induction 1 as [|n nd ck c cd v ts vs n1 E1 E2 E3 E4 E5 _ IH]; intros Hs; [done|].
  rewrite <- !app_assoc. by apply (sub_cons _ _ n nd ck c cd v); [..|apply IH].
Qed.

Lemma sub_same ns ns' e n ts vs n' : same_core ns ns' -> sub ns e n ts vs n' -> sub ns' e n ts vs n'.
Proof.
  intros E. induction 1 as [|n nd ck c cd v ts vs n1 E1 E2 E3 E4 E5 _ IH]; [constructor|].
  destruct (same_core_lookup _ _ _ _ E E1) as (nd' & E1' & [= K1 _ _ _ _ _]).
  destruct (same_core_lookup _ _ _ _ E E3) as (cd' & E3' & [= _ _ K3 K4 _ _]).
  rewrite <- K3. apply (sub_cons _ _ n nd' ck c cd' v); congruence.
Qed.

Lemma cached_same ns ns' r e ts vs : same_core ns ns' -> Cached ns r e ts vs <-> Cached ns' r e ts vs.
Proof.
  intros E. split; intros (Hp & n & ts' & vs' & Hs & Hr); (split; [done|]); exists n, ts', vs'; (split; [|done]).
  - by apply (sub_same ns).
  - apply (sub_same ns'); [by symmetry|done].
Qed.

Section InTree.
Context (ns : gmap nat (TreeNode H)) (r : nat) (T : gset nat) (Ht : Tree ps ns r T) (Hps : 0 < ps).

(** The child of a node of the tree under a key. *)
Lemma kid_node n nd ck c cd : n ∈ T -> ns !! n = Some nd -> children nd !! ck = Some c -> ns !! c = Some cd ->
  c ∈ T /\ c <> r /\ node_ok ps ns r T c cd n nd /\ ck = ck_of ps (key cd).
Proof using Ht.
  intros Hn En Ec Ecd. destruct (t_kids _ _ _ _ Ht n nd ck c Hn En Ec) as (C1 & C2 & cd' & C3 & C4 & C5).
  rewrite Ecd in C3. injection C3 as <-. destruct (t_node _ _ _ _ Ht c C1 C2) as (cd' & p & pd & K).
  pose proof (no_node _ _ _ _ _ _ _ _ K) as E. rewrite Ecd in E. injection E as <-.
  pose proof (no_parent _ _ _ _ _ _ _ _ K) as E. rewrite C4 in E. injection E as <-.
  pose proof (no_pnode _ _ _ _ _ _ _ _ K) as E. rewrite En in E. by injection E as <-.
Qed.

Lemma sub_in e n ts vs n' : sub ns e n ts vs n' -> n ∈ T -> n' ∈ T /\ length vs = length ts /\ aligned ps ts.
Proof using Ht.
  induction 1 as [|n nd ck c cd v ts vs n' E1 E2 E3 E4 E5 _ IH]; intros Hn.
  - split; [done|]. split; [done|]. apply Nat.divide_0_r.
  - destruct (kid_node n nd ck c cd Hn E1 E2 E3) as (C1 & _ & K & _). destruct (IH C1) as (I1 & I2 & I3).
    split; [done|]. destruct (no_value _ _ _ _ _ _ _ _ K) as (v' & Ev & Lv). rewrite E5 in Ev. injection Ev as <-.
    unfold aligned. rewrite !length_app, Lv, I2. split; [done|].
    apply Nat.divide_add_r; [apply K|done].
Qed.

(** Two children whose keys start alike are the same. *)
Lemma kid_unique n nd ck c cd ck' c' cd' ts ts' : n ∈ T -> ns !! n = Some nd ->
  children nd !! ck = Some c -> ns !! c = Some cd -> children nd !! ck' = Some c' -> ns !! c' = Some cd' ->
  extra_key (key cd) = extra_key (key cd') -> take ps (token_ids (key cd) ++ ts) = take ps (token_ids (key cd') ++ ts') ->
  ck = ck' /\ c = c' /\ cd = cd'.
Proof using Ht.
  intros Hn En E1 E2 E1' E2' Ex Et. destruct (kid_node n nd ck c cd Hn En E1 E2) as (_ & _ & K & Eck).
  destruct (kid_node n nd ck' c' cd' Hn En E1' E2') as (_ & _ & K' & Eck').
  assert (ps <= length (token_ids (key cd))) by (apply aligned_ge; apply K).
  assert (ps <= length (token_ids (key cd'))) by (apply aligned_ge; apply K').
  rewrite !take_app_le in Et by done.
  assert (ck = ck') as <- by (rewrite Eck, Eck'; unfold ck_of; by rewrite Ex, Et).
  split; [done|]. rewrite E1 in E1'. injection E1' as <-. split; [done|]. congruence.
Qed.

(** A path goes through every node whose tokens start it. *)
Lemma sub_descend e n ts vs n1 ts2 vs2 n2 : n ∈ T -> sub ns e n ts vs n1 -> sub ns e n ts2 vs2 n2 ->
  ts `prefix_of` ts2 -> exists ts3 vs3, ts2 = ts ++ ts3 /\ vs2 = vs ++ vs3 /\ sub ns e n1 ts3 vs3 n2.
Proof using Ht Hps.
  intros Hn Hs. revert ts2 vs2 Hn. induction Hs as [|n nd ck c cd v ts vs n1 E1 E2 E3 E4 E5 _ IH];
    intros ts2 vs2 Hn Hs2 Hpre; [by exists ts2, vs2|].
  destruct (kid_node n nd ck c cd Hn E1 E2 E3) as (C1 & _ & K & _).
  pose proof (no_key _ _ _ _ _ _ _ _ K) as Kne.
  inversion Hs2 as [|? nd' ck' c' cd' v' ts' vs' ? F1 F2 F3 F4 F5 Hs2']; subst.
  { destruct Hpre as [u Hu]. destruct (token_ids (key cd)); [done|]. by destruct u. }
  rewrite E1 in F1. injection F1 as <-. destruct Hpre as [u Hu].
  destruct (kid_unique n nd ck c cd ck' c' cd' (ts ++ u) ts' Hn E1 E2 E3 F2 F3) as (-> & -> & ->).
  { done. } { rewrite Hu. by rewrite app_assoc. }
  rewrite E5 in F5. injection F5 as <-. rewrite <- app_assoc in Hu. apply app_inv_head in Hu as ->.
  destruct (IH (ts ++ u) vs' C1 Hs2') as (ts3 & vs3 & E & -> & S3); [by apply prefix_app_r|].
  exists ts3, vs3. split; [by rewrite E, app_assoc|]. split; [by rewrite app_assoc|done].
Qed.

(** The last step of a path. *)
Lemma sub_snoc e n ts vs n' : sub ns e n ts vs n' ->
  n' = n /\ ts = [] /\ vs = [] \/
  exists m md ck cd v ts1 vs1, sub ns e n ts1 vs1 m /\ ns !! m = Some md /\ children md !! ck = Some n' /\
    ns !! n' = Some cd /\ extra_key (key cd) = e /\ value cd = Some v /\
    ts = ts1 ++ token_ids (key cd) /\ vs = vs1 ++ v.
Proof.
  induction 1 as [|n nd ck c cd v ts vs n' E1 E2 E3 E4 E5 Hs IH]; [by left|right].
  destruct IH as [(-> & -> & ->)|(m & md & ck' & cd' & v' & ts1 & vs1 & S1 & F1 & F2 & F3 & F4 & F5 & -> & ->)].
  - exists n, nd, ck, cd, v, [], []. rewrite !app_nil_r. repeat split; try done. constructor.
  - exists m, md, ck', cd', v', (token_ids (key cd) ++ ts1), (v ++ vs1). rewrite !app_assoc.
    repeat split; try done. by apply (sub_cons _ _ n nd ck c cd v).
Qed.

(** Every node has one path from the root. *)
Lemma path_unique e e' ts vs ts' vs' n : sub ns e r ts vs n -> sub ns e' r ts' vs' n ->
  ts = ts' /\ vs = vs' /\ (n <> r -> e = e').
Proof using Ht.
  destruct (t_rank _ _ _ _ Ht) as (rk & Hrk). remember (rk n) as w eqn:Ew.
  revert n ts vs ts' vs' Ew. induction w as [w IH] using lt_wf_ind. intros n ts vs ts' vs' -> S1 S2.
  pose proof (t_root_in _ _ _ _ Ht) as Hr.
  assert (Last : forall e m md ck cd ts1 vs1, sub ns e r ts1 vs1 m -> ns !! m = Some md -> children md !! ck = Some n ->
    ns !! n = Some cd -> n ∈ T /\ n <> r /\ parent cd = Some m).
  { intros e0 m md ck cd ts1 vs1 S E1 E2 E3. destruct (sub_in _ _ _ _ _ S Hr) as (Hm & _).
    destruct (kid_node m md ck n cd Hm E1 E2 E3) as (? & ? & K & _). repeat split; [done|done|apply K]. }
  destruct (sub_snoc _ _ _ _ _ S1) as [(-> & -> & ->)|
    (m & md & ck & cd & v & ts1 & vs1 & P1 & E1 & E2 & E3 & E4 & E5 & -> & ->)].
  - destruct (sub_snoc _ _ _ _ _ S2) as [(_ & -> & ->)|
      (m' & md' & ck' & cd' & v' & ts2 & vs2 & P2 & F1 & F2 & F3 & _)]; [done|].
    by destruct (Last _ _ _ _ _ _ _ P2 F1 F2 F3) as (_ & ? & _).
  - destruct (Last _ _ _ _ _ _ _ P1 E1 E2 E3) as (HnT & Hnr & Epar).
    destruct (sub_snoc _ _ _ _ _ S2) as [(-> & _)|
      (m' & md' & ck' & cd' & v' & ts2 & vs2 & P2 & F1 & F2 & F3 & F4 & F5 & -> & ->)]; [done|].
    destruct (Last _ _ _ _ _ _ _ P2 F1 F2 F3) as (_ & _ & Epar'). rewrite E3 in F3. injection F3 as <-.
    rewrite Epar in Epar'. injection Epar' as <-. rewrite E5 in F5. injection F5 as <-.
    destruct (IH (rk m) (Hrk n cd m HnT E3 Epar) m ts1 vs1 ts2 vs2 eq_refl P1 P2) as (-> & -> & _).
    split; [done|]. split; [done|]. intros _. congruence.
Qed.

(** Two paths with a common prefix have the same indices on it. *)
Lemma sub_agree e a ta va na tb vb nb : a ∈ T -> sub ns e a ta va na -> sub ns e a tb vb nb ->
  forall t, t `prefix_of` ta -> t `prefix_of` tb -> aligned ps t -> take (length t) va = take (length t) vb.
Proof using Ht Hps.
  intros Ha Sa. revert tb vb Ha. induction Sa as [a|a ad ck c cd v ta va na E1 E2 E3 E4 E5 _ IH];
    intros tb vb Ha Sb t Pa Pb At; [by apply prefix_nil_inv in Pa as ->|].
  destruct t as [|x t]; [done|]. inversion Sb as [|? ad' ck' c' cd' v' tb' vb' ? F1 F2 F3 F4 F5 Sb']; subst.
  { by apply prefix_nil_inv in Pb. }
  rewrite E1 in F1. injection F1 as <-. set (w := x :: t) in *.
  assert (Hw : ps <= length w) by (by apply aligned_ge).
  assert (Et : forall q, w `prefix_of` q -> take ps q = take ps w) by (intros q [z ->]; by rewrite take_app_le).
  destruct (kid_unique a ad ck c cd ck' c' cd' ta tb' Ha E1 E2 E3 F2 F3) as (-> & -> & ->);
    [done|by rewrite (Et _ Pa), (Et _ Pb)|]. rewrite E5 in F5. injection F5 as <-.
  destruct (kid_node a ad ck' c' cd' Ha E1 E2 E3) as (C1 & _ & K & _).
  destruct (no_value _ _ _ _ _ _ _ _ K) as (v'' & Ev & Lv). rewrite E5 in Ev. injection Ev as <-.
  unfold key_len in Lv. destruct (decide (length w <= length v)) as [Hle|Hgt]; [by rewrite !take_app_le|].
  rewrite !take_app_ge by lia. f_equal.
  assert (Eq : w = token_ids (key cd') ++ drop (length v) w).
  { destruct Pa as [z Hz]. rewrite <- (take_drop (length v) w) at 1. f_equal.
    apply (f_equal (take (length v))) in Hz. rewrite take_app_length' in Hz by done.
    rewrite take_app_le in Hz by lia. by rewrite Hz. }
  replace (length w - length v) with (length (drop (length v) w)) by (rewrite length_drop; lia).
  apply (IH tb' vb' C1 Sb').
  - apply (prefix_app_inv (token_ids (key cd'))). by rewrite <- Eq.
  - apply (prefix_app_inv (token_ids (key cd'))). by rewrite <- Eq.
  - apply aligned_drop; [done|]. rewrite Lv. apply K.
Qed.

(** The indices stored for tokens are unique. *)
Lemma cached_fun e ts vs vs' : Cached ns r e ts vs -> Cached ns r e ts vs' -> vs = vs'.
Proof using Ht Hps.
  intros (Hal & n & t1 & v1 & S1 & P1 & ->) (_ & n' & t2 & v2 & S2 & P2 & ->).
  by apply (sub_agree e r t1 v1 n t2 v2 n' (t_root_in _ _ _ _ Ht)).
Qed.

(** What is stored at a node is cached. *)
Lemma sub_cached e ts vs n m : sub ns e r ts vs n -> (ps | m) -> Cached ns r e (take m ts) (take m vs).
Proof using Ht Hps.
  intros Hs Hm. destruct (sub_in _ _ _ _ _ Hs (t_root_in _ _ _ _ Ht)) as (_ & Hl & Ha).
  split; [by apply aligned_take|]. exists n, ts, vs. split; [done|]. split; [apply prefix_take|].
  rewrite length_take. destruct (Nat.min_spec m (length ts)) as [[_ ->]|[Hle ->]]; [done|].
  rewrite !take_ge; [done|lia|lia].
Qed.

End InTree.

(** ** A split *)

Section Split.
Context (ns : gmap nat (TreeNode H)) (r : nat) (T : gset nat) (Ht : Tree ps ns r T) (Hps : 0 < ps).
Context (c p nn m : nat) (cd pd : TreeNode H) (v : list Z) (h h' : option (list H)) (t t' : Z).
Context (Hc : c ∈ T) (Hcr : c <> r) (Hok : node_ok ps ns r T c cd p pd).
Context (Hfresh : ns !! nn = None) (Hm : 0 < m < key_len (key cd)) (Hpg : (ps | m)).
Context (Hv : value cd = Some v).
#[local] Abbreviation ns' := (split_map ps ns c cd p pd nn m v h h' t t').
#[local] Abbreviation facts L := (L H ps ns r T Ht c p nn m cd pd v h h' t t' Hc Hcr Hok Hfresh Hm Hpg Hps Hv).

(** The two steps that replace the step to [c]. *)
Lemma split_steps e ts vs n : extra_key (key cd) = e -> sub ns' e c ts vs n ->
  sub ns' e p (token_ids (key cd) ++ ts) (v ++ vs) n.
Proof using All.
  intros He Hs. destruct (facts (@split_lookup_new)) as (nd & En & [= N1 N2 N3 N4 _ _]).
  destruct (facts (@split_lookup_child)) as (cd' & Ec & [= _ C2 C3 C4 _ _]).
  destruct (facts (@split_lookup_parent)) as (pd' & Ep & [= P1 _ _ _ _ _]).
  set (N := ns') in *. clearbody N.
  rewrite <- (take_drop m (token_ids (key cd))), <- (take_drop m v), <- !app_assoc.
  change (take m (token_ids (key cd))) with (token_ids (key_upto m (key cd))). rewrite <- N3.
  apply (sub_cons _ _ p pd' (ck_of ps (key cd)) nn nd (take m v)); try done.
  - rewrite P1. apply lookup_insert_eq.
  - by rewrite N3.
  - change (drop m (token_ids (key cd))) with (token_ids (key_from m (key cd))). rewrite <- C3.
    apply (sub_cons _ _ nn nd (ck_of ps (key_from m (key cd))) c cd' (drop m v)); try done.
    + rewrite N1. apply lookup_singleton_eq.
    + by rewrite C3.
Qed.

Lemma split_sub e n ts vs n' : n ∈ T -> sub ns e n ts vs n' -> sub ns' e n ts vs n'.
Proof using All.
  intros Hn Hs. revert Hn. induction Hs as [|n nd ck x xd w ts vs n' E1 E2 E3 E4 E5 _ IH]; intros Hn; [constructor|].
  destruct (kid_node ns r T Ht n nd ck x xd Hn E1 E2 E3) as (X1 & X2 & K & Eck). specialize (IH X1).
  destruct (decide (x = c)) as [->|Hxc].
  - rewrite (no_node _ _ _ _ _ _ _ _ Hok) in E3. injection E3 as <-. rewrite Hv in E5. injection E5 as <-.
    pose proof (no_parent _ _ _ _ _ _ _ _ K) as Epar.
    rewrite (no_parent _ _ _ _ _ _ _ _ Hok) in Epar. injection Epar as <-. by apply split_steps.
  - destruct (facts (@split_old) n nd Hn E1) as (nd' & En' & _ & Hch & _).
    destruct (facts (@split_old) x xd X1 E3) as (xd' & Ex' & Hk & _). destruct (Hk Hxc) as (_ & K2 & K3).
    rewrite <- K2. apply (sub_cons _ _ n nd' ck x xd' w); try congruence.
    destruct (decide (n = p)) as [->|Hnp]; [|rewrite Hch; done].
    destruct (facts (@split_lookup_parent)) as (pd' & Ep & [= P1 _ _ _ _ _]). rewrite En' in Ep. injection Ep as <-.
    rewrite (no_pnode _ _ _ _ _ _ _ _ Hok) in E1. injection E1 as <-. rewrite P1, lookup_insert_ne; [done|].
    intros E. rewrite <- E, (no_filed _ _ _ _ _ _ _ _ Hok) in E2. congruence.
Qed.

(** The new node ends the tokens it took over. *)
Lemma split_sub_new e ts vs : extra_key (key cd) = e -> sub ns e r ts vs p ->
  sub ns' e r (ts ++ take m (token_ids (key cd))) (vs ++ take m v) nn.
Proof using All.
  intros He Hs. apply (sub_app _ _ _ _ _ p); [apply split_sub; [apply (t_root_in _ _ _ _ Ht)|done]|].
  destruct (facts (@split_lookup_new)) as (nd & En & [= _ _ N3 N4 _ _]).
  destruct (facts (@split_lookup_parent)) as (pd' & Ep & [= P1 _ _ _ _ _]).
  set (N := ns') in *. clearbody N. rewrite <- (app_nil_r (take m (token_ids _))), <- (app_nil_r (take m v)).
  change (take m (token_ids (key cd))) with (token_ids (key_upto m (key cd))). rewrite <- N3.
  apply (sub_cons _ _ p pd' (ck_of ps (key cd)) nn nd (take m v)); try done; [|by rewrite N3|constructor].
  rewrite P1. apply lookup_insert_eq.
Qed.

(** Conversely, every new path is the start of an old one. *)
Lemma split_sub_back e n ts vs n' : sub ns' e n ts vs n' ->
  (n ∈ T -> exists ts2 vs2 n2, sub ns e n (ts ++ ts2) (vs ++ vs2) n2) /\
  (n = nn -> extra_key (key cd) = e ->
   exists ts2 vs2 n2, sub ns e p (take m (token_ids (key cd)) ++ ts ++ ts2) (take m v ++ vs ++ vs2) n2).
Proof using All.
  destruct (facts (@split_neq)) as (Npc & Nc & Np & Nr & HnT).
  destruct (facts (@split_lookup_new)) as (nnd & Enn & [= N1 N2 N3 N4 _ _]).
  destruct (facts (@split_lookup_child)) as (cd' & Ec & [= _ C2 C3 C4 _ _]).
  assert (Hstep : forall e ts vs n, extra_key (key cd) = e -> sub ns e c ts vs n ->
    sub ns e p (token_ids (key cd) ++ ts) (v ++ vs) n).
  { intros e0 ts0 vs0 n0 He S0. apply (sub_cons _ _ p pd (ck_of ps (key cd)) c cd v); (done || apply Hok). }
  induction 1 as [n|n nd ck x xd w ts vs n' E1 E2 E3 E4 E5 Hs IH].
  - split; [intros Hn; exists [], [], n; constructor|]. intros -> He.
    exists (drop m (token_ids (key cd))), (drop m v), c. cbn [app]. rewrite !take_drop.
    rewrite <- (app_nil_r (token_ids _)), <- (app_nil_r v). apply Hstep; [done|constructor].
  - destruct IH as [IH1 IH2]. split.
    + intros Hn. destruct (t_node_any ps _ _ _ _ Ht Hn) as (nd0 & En0).
      destruct (facts (@split_old) n nd0 Hn En0) as (nd1 & En1 & _ & Hch & _). rewrite E1 in En1. injection En1 as <-.
      destruct (decide (x = nn)) as [->|Hxn].
      { rewrite Enn in E3. injection E3 as <-. rewrite N3 in E4 |- *. rewrite N4 in E5. injection E5 as <-.
        destruct (IH2 eq_refl E4) as (ts2 & vs2 & n2 & S2). exists ts2, vs2, n2.
        assert (n = p) as ->.
        { destruct (t_kids ps _ _ _ (facts (@tree_split)) n nd ck nn) as (_ & _ & x & Ex & Epar & _);
            [set_solver|done|done|]. rewrite Enn in Ex. injection Ex as <-. congruence. }
        rewrite <- !app_assoc. exact S2. }
      assert (Hxin : x ∈ T /\ x <> r /\ parent xd = Some n /\ ck = ck_of ps (key xd)).
      { destruct (t_kids ps _ _ _ (facts (@tree_split)) n nd ck x) as (X1 & X2 & x' & Ex & Epar & Eck);
          [set_solver|done|done|]. rewrite E3 in Ex. injection Ex as <-. set_solver. }
      destruct Hxin as (X1 & X2 & Epar & Eck).
      assert (Hxc : x <> c) by (intros ->; rewrite E3 in Ec; injection Ec as <-; congruence).
      destruct (t_node_any ps _ _ _ _ Ht X1) as (xd0 & Ex0).
      destruct (facts (@split_old) x xd0 X1 Ex0) as (xd1 & Ex1 & Hk & _). rewrite E3 in Ex1. injection Ex1 as <-.
      destruct (Hk Hxc) as (K1 & K2 & K3). destruct (IH1 X1) as (ts2 & vs2 & n2 & S2).
      exists ts2, vs2, n2. rewrite <- !app_assoc, K2.
      destruct (t_node ps _ _ _ Ht x X1 X2) as (xd2 & q & qd & K). rewrite (no_node _ _ _ _ _ _ _ _ K) in Ex0.
      injection Ex0 as ->. pose proof (no_parent _ _ _ _ _ _ _ _ K) as Eq. rewrite <- K1, Epar in Eq.
      injection Eq as <-. apply (sub_cons _ _ n qd (ck_of ps (key xd0)) x xd0 w); try apply K; congruence.
    + intros -> He. rewrite Enn in E1. injection E1 as <-. rewrite N1 in E2.
      apply lookup_singleton_Some in E2 as [<- <-]. rewrite Ec in E3. injection E3 as <-.
      rewrite C3. rewrite C4 in E5. injection E5 as <-. destruct (IH1 Hc) as (ts2 & vs2 & n2 & S2).
      exists ts2, vs2, n2. simpl. rewrite <- !app_assoc.
      rewrite (app_assoc (take m (token_ids (key cd)))), (app_assoc (take m v)), !take_drop. by apply Hstep.
Qed.

(** A split does not change what is cached. *)
Lemma split_cached e ts vs : Cached ns r e ts vs <-> Cached ns' r e ts vs.
Proof using All.
  pose proof (t_root_in _ _ _ _ Ht) as Hr. split; intros (Hp & n & ts' & vs' & Hs & Hpre & ->); (split; [done|]).
  - exists n, ts', vs'. split; [by apply split_sub|done].
  - destruct (proj1 (split_sub_back _ _ _ _ _ Hs) Hr) as (ts2 & vs2 & n2 & S2).
    exists n2, (ts' ++ ts2), (vs' ++ vs2). split; [done|]. split; [by apply prefix_app_r|].
    destruct (sub_in ns' r _ (facts (@tree_split)) _ _ _ _ _ Hs (t_root_in _ _ _ _ (facts (@tree_split)))) as (_ & Hl & _).
    rewrite take_app_le; [done|]. rewrite Hl. by apply prefix_length.
Qed.

End Split.

(** ** Same children, keys and values *)

Lemma sub_ext ns ns' e n ts vs n' :
  (forall q qd, ns !! q = Some qd -> exists qd', ns' !! q = Some qd' /\ children qd' = children qd /\
     key qd' = key qd /\ value qd' = value qd) ->
  sub ns e n ts vs n' -> sub ns' e n ts vs n'.
Proof.
  intros Hx. induction 1 as [|n nd ck c cd v ts vs n' E1 E2 E3 E4 E5 _ IH]; [constructor|].
  destruct (Hx _ _ E1) as (nd' & E1' & K1 & _). destruct (Hx _ _ E3) as (cd' & E3' & _ & K2 & K3).
  rewrite <- K2. apply (sub_cons _ _ n nd' ck c cd' v); congruence.
Qed.

(** ** A new leaf *)

Section Leaf.
Context (ns : gmap nat (TreeNode H)) (r : nat) (T : gset nat) (Ht : Tree ps ns r T) (Hps : 0 < ps).
Context (p nn : nat) (pd leaf : TreeNode H) (v : list Z).
Context (Hp : p ∈ T) (Ep : ns !! p = Some pd) (Hfresh : ns !! nn = None).
Context (Hnone : children pd !! ck_of ps (key leaf) = None).
Context (Lval : value leaf = Some v) (Lkids : children leaf = ∅).
#[local] Abbreviation ns' := (leaf_map ps ns p pd nn leaf).
#[local] Abbreviation old := (leaf_old ps ns r T Ht p nn pd leaf Ep Hfresh).
#[local] Abbreviation new := (leaf_lookup_new ps ns r T Ht p nn pd leaf Ep Hfresh).

Lemma leaf_sub e n ts vs n' : n ∈ T -> sub ns e n ts vs n' -> sub ns' e n ts vs n'.
Proof using All.
  intros Hn Hs. revert Hn. induction Hs as [|n nd ck x xd w ts vs n' E1 E2 E3 E4 E5 _ IH]; intros Hn; [constructor|].
  destruct (kid_node ns r T Ht n nd ck x xd Hn E1 E2 E3) as (X1 & X2 & K & Eck). specialize (IH X1).
  destruct (old n nd Hn E1) as (nd' & En' & _ & _ & _ & _ & K5).
  destruct (old x xd X1 E3) as (xd' & Ex' & _ & K2 & K3 & _). rewrite <- K2.
  apply (sub_cons _ _ n nd' ck x xd' w); try congruence. rewrite K5.
  destruct (decide (n = p)) as [->|]; [|done]. simplify_eq. rewrite lookup_insert_ne; [done|].
  intros E. rewrite E in Hnone. congruence.
Qed.

Lemma leaf_sub_back e n ts vs n' : sub ns' e n ts vs n' -> n ∈ T ->
  sub ns e n ts vs n' \/
  e = extra_key (key leaf) /\ n' = nn /\ exists ts1 vs1, ts = ts1 ++ token_ids (key leaf) /\ vs = vs1 ++ v /\ sub ns e n ts1 vs1 p.
Proof using All.
  induction 1 as [n|n nd ck x xd w ts vs n' E1 E2 E3 E4 E5 Hs IH]; intros Hn; [left; constructor|].
  destruct (leaf_fresh ps ns r T Ht p nn pd Ep Hfresh) as [HnT Hnp].
  destruct (t_node_any ps _ _ _ _ Ht Hn) as (nd0 & En0).
  destruct (old n nd0 Hn En0) as (nd1 & En1 & _ & _ & _ & _ & K5). rewrite E1 in En1. injection En1 as <-.
  rewrite K5 in E2. destruct (decide (x = nn)) as [->|Hxn].
  - rewrite new in E3. injection E3 as <-. rewrite Lval in E5. injection E5 as <-. right. split; [done|].
    assert (ts = [] /\ vs = [] /\ n' = nn) as (-> & -> & ->).
    { inversion Hs as [|? nd' ck' c' ? ? ? ? ? F1 F2]; subst; [done|].
      rewrite new in F1. injection F1 as <-. by rewrite Lkids, lookup_empty in F2. }
    split; [done|]. exists [], []. rewrite !app_nil_r. split; [done|]. split; [done|].
    assert (n = p) as ->; [|constructor]. destruct (decide (n = p)) as [|Hnp']; [done|].
    destruct (t_kids ps _ _ _ Ht n nd0 ck nn Hn En0 E2) as (? & _). done.
  - assert (Ek : children nd0 !! ck = Some x).
    { destruct (decide (n = p)) as [->|]; [|done]. simplify_eq.
      destruct (decide (ck = ck_of ps (key leaf))) as [->|];
        [rewrite lookup_insert_eq in E2; congruence|by rewrite lookup_insert_ne in E2]. }
    destruct (t_kids ps _ _ _ Ht n nd0 ck x Hn En0 Ek) as (X1 & _ & xd0 & Ex0 & _).
    destruct (old x xd0 X1 Ex0) as (xd1 & Ex1 & _ & K2 & K3 & _). rewrite E3 in Ex1. injection Ex1 as <-.
    assert (Hstep : forall ts vs n', sub ns e x ts vs n' -> sub ns e n (token_ids (key xd) ++ ts) (w ++ vs) n').
    { intros ts0 vs0 n0 S0. rewrite K2. apply (sub_cons _ _ n nd0 ck x xd0 w); congruence. }
    destruct (IH X1) as [S1|(-> & -> & ts1 & vs1 & -> & -> & S1)]; [left; by apply Hstep|right].
    split; [done|]. split; [done|]. exists (token_ids (key xd) ++ ts1), (w ++ vs1). rewrite !app_assoc.
    split; [done|]. split; [done|]. by apply Hstep.
Qed.

Context (Lkey : token_ids (key leaf) <> []) (Lpage : aligned ps (token_ids (key leaf))).
Context (Lpar : parent leaf = Some p) (Llen : length v = key_len (key leaf)).
Context (Lext : p = r \/ extra_key (key leaf) = extra_key (key pd)).
Context (tp : list tokid) (vp : list Z) (Spath : sub ns (extra_key (key leaf)) r tp vp p).

(** A leaf adds the page-aligned prefixes of its path. *)
Lemma leaf_cached e ts vs : Cached ns' r e ts vs <->
  Cached ns r e ts vs \/
  e = extra_key (key leaf) /\ (ps | length ts) /\ ts `prefix_of` tp ++ token_ids (key leaf) /\
  vs = take (length ts) (vp ++ v).
Proof using All.
  pose proof (t_root_in _ _ _ _ Ht) as Hr. split.
  - intros (Hpg & n & ts' & vs' & Hs & Hpre & ->). destruct (leaf_sub_back _ _ _ _ _ Hs Hr) as
      [S1|(-> & -> & ts1 & vs1 & -> & -> & S1)]; [left; split; [done|]; by exists n, ts', vs'|right].
    destruct (path_unique ns r T Ht _ _ _ _ _ _ _ S1 Spath) as (-> & -> & _). done.
  - intros [(Hpg & n & ts' & vs' & Hs & Hpre & ->)|(-> & Hpg & Hpre & ->)]; (split; [done|]).
    + exists n, ts', vs'. split; [by apply leaf_sub|done].
    + exists nn, (tp ++ token_ids (key leaf)), (vp ++ v). split; [|done].
      apply (sub_app _ _ _ _ _ p); [by apply leaf_sub|].
      destruct (old p pd Hp Ep) as (pd' & Ep' & _ & _ & _ & _ & K5). rewrite decide_True in K5 by done.
      rewrite <- (app_nil_r (token_ids _)), <- (app_nil_r v).
      apply (sub_cons _ _ p pd' (ck_of ps (key leaf)) nn leaf v); [done| |apply new|done|done|constructor].
      rewrite K5. apply lookup_insert_eq.
Qed.

End Leaf.

(** ** A deleted leaf *)

Section Delete.
Context (ns : gmap nat (TreeNode H)) (r : nat) (T : gset nat) (Ht : Tree ps ns r T) (Hps : 0 < ps).
Context (x p : nat) (xd pd : TreeNode H).
Context (Hx : x ∈ T) (Hxr : x <> r) (Hok : node_ok ps ns r T x xd p pd) (Hleaf : children xd = ∅).
#[local] Abbreviation ns' := (delete_map ns p pd (ck_of ps (key xd))).
#[local] Abbreviation old := (delete_old ps ns r T x p xd pd Hok).

(** Paths that do not end in the leaf stay. *)
Lemma delete_sub e n ts vs n' : n ∈ T -> n' <> x -> sub ns e n ts vs n' -> sub ns' e n ts vs n'.
Proof using All.
  intros Hn Hne Hs. revert Hn. induction Hs as [|n nd ck y yd w ts vs n' E1 E2 E3 E4 E5 Hs IH]; intros Hn; [constructor|].
  destruct (kid_node ns r T Ht n nd ck y yd Hn E1 E2 E3) as (Y1 & Y2 & K & Eck). specialize (IH Hne Y1).
  assert (Hyx : y <> x).
  { intros ->. rewrite (no_node _ _ _ _ _ _ _ _ Hok) in E3. injection E3 as <-.
    inversion Hs as [|? nd' ck' c' ? ? ? ? ? F1 F2]; subst; [done|].
    rewrite (no_node _ _ _ _ _ _ _ _ Hok) in F1. injection F1 as <-. by rewrite Hleaf, lookup_empty in F2. }
  destruct (old n nd E1) as (nd' & En' & _ & _ & _ & _ & K5).
  destruct (old y yd E3) as (yd' & Ey' & _ & K2 & K3 & _). rewrite <- K2.
  apply (sub_cons _ _ n nd' ck y yd' w); try congruence. rewrite K5.
  destruct (decide (n = p)) as [->|]; [|done]. rewrite lookup_delete_ne; [done|]. intros E.
  rewrite (no_pnode _ _ _ _ _ _ _ _ Hok) in E1. injection E1 as <-.
  rewrite <- E, (no_filed _ _ _ _ _ _ _ _ Hok) in E2. congruence.
Qed.

Lemma delete_sub_back e n ts vs n' : sub ns' e n ts vs n' -> n ∈ T -> sub ns e n ts vs n'.
Proof using All.
  induction 1 as [n|n nd ck y yd w ts vs n' E1 E2 E3 E4 E5 Hs IH]; intros Hn; [constructor|].
  destruct (t_node_any ps _ _ _ _ Ht Hn) as (nd0 & En0).
  destruct (old n nd0 En0) as (nd1 & En1 & _ & _ & _ & _ & K5). rewrite E1 in En1. injection En1 as <-.
  assert (Ek : children nd0 !! ck = Some y).
  { rewrite K5 in E2. destruct (decide (n = p)); [|done]. by apply lookup_delete_Some in E2 as [_ ?]. }
  destruct (t_kids ps _ _ _ Ht n nd0 ck y Hn En0 Ek) as (Y1 & _ & yd0 & Ey0 & _).
  destruct (old y yd0 Ey0) as (yd1 & Ey1 & _ & K2 & K3 & _). rewrite E3 in Ey1. injection Ey1 as <-.
  rewrite K2. apply (sub_cons _ _ n nd0 ck y yd0 w); try congruence. by apply IH.
Qed.

Lemma delete_cached e ts vs : Cached ns' r e ts vs -> Cached ns r e ts vs.
Proof using All.
  intros (Hpg & n & ts' & vs' & Hs & Hpre & ->). split; [done|]. exists n, ts', vs'. split; [|done].
  apply delete_sub_back; [done|]. apply (t_root_in _ _ _ _ Ht).
Qed.

End Delete.

End Path.
End RPath.
