(* ===== verification/RadixInv.v ===== *)
(** Invariant of the radix cache of [RadixCache].

    [Inv st T hs]: the nodes [T] form a tree below the root; [hs] are the nodes
    on which requests hold a lock, and a node's [lock_ref] counts the holders at
    or below it; the two size counters are the lengths of the unlocked and of the
    locked keys; the evictable leaves are the unlocked nodes without children.
    The internal steps of the operations ([_split_node], the new leaf of
    [_insert_helper], [_delete_leaf]) succeed and preserve it. *)
From stdpp Require Import base list gmap sets strings.
From Stdlib Require Import ZArith Lia.
From S2P Require Import Prelude RadixCache RadixTree.
Local Open Scope nat_scope.

Module RInv.
Import Radix RTree.

Lemma alter_lookup_Some {A} (f : A -> A) (m : gmap nat A) i x : m !! i = Some x -> alter f i m = <[i := f x]> m.
Proof.
  intros E. apply map_eq. intros j. destruct (decide (j = i)) as [->|Hne].
  - by rewrite lookup_alter_eq, lookup_insert_eq, E.
  - by rewrite lookup_alter_ne, lookup_insert_ne.
Qed.

Lemma last_app_cons_or {A} (l l' : list A) : l' <> [] -> last (l ++ l') = last l'.
Proof.
  intros Hl. destruct (last l') as [x|] eqn:E; [|by apply last_None in E].
  rewrite last_app. by rewrite E.
Qed.

Lemma and_iff_compat_l_weak (a b c : Prop) : (a -> b <-> c) -> a /\ b <-> a /\ c.
Proof. tauto. Qed.

Section Inv.
Context {A H : Type} `{Env A H} (P : Params).
#[local] Abbreviation ps := (page_size P).
Implicit Types (st : RadixCache A H) (ns : gmap nat (TreeNode H)) (T : gset nat) (hs : list nat) (n : nat).

(** Tokens of a node that is locked, or that is not. *)
Definition part_len (locked : bool) ns n : Z :=
  match ns !! n with
  | Some nd => if Bool.eqb locked (negb (lock_ref nd =? 0)%Z) then Z.of_nat (key_len (key nd)) else 0%Z
  | None => 0%Z
  end.

(** How many of the paths go through [n]. *)
Definition holders (chains : list (list nat)) n : Z := Z.of_nat (length (filter (fun l => n ∈ l) chains)).

Lemma holders_0 chains n : (forall l, l ∈ chains -> n ∉ l) -> holders chains n = 0%Z.
Proof.
  unfold holders. induction chains as [|l ch IH]; intros Hn; [done|].
  rewrite filter_cons, decide_False by (apply Hn; by left). apply IH. intros l' Hl'. apply Hn. by right.
Qed.

Definition locks_ok ns r T hs : Prop :=
  exists chains, Forall2 (chain ns r) hs chains /\
    forall n nd, n ∈ T -> n <> r -> ns !! n = Some nd -> lock_ref nd = holders chains n.

Definition leaves_ok ns r T (ls : gset nat) : Prop :=
  forall n, n ∈ ls <-> n ∈ T /\ n <> r /\ exists nd, ns !! n = Some nd /\ lock_ref nd = 0%Z /\ children nd = ∅.

(** ** Hashes of the pages *)

(** The hash that the hashes of a child continue. *)
Definition prior (pd : TreeNode H) : option H := match hash_value pd with Some hs => last hs | None => None end.

(** With events, the hashes of a node continue those of its parent. *)
Definition hash_ok ns r T : Prop := forall n nd p pd, n ∈ T -> n <> r -> node_ok ps ns r T n nd p pd ->
  hash_value nd = if enable_kv_cache_events P then Some (chain_hash (prior pd) (pages P (token_ids (key nd)))) else None.

Lemma pages_split (ts : list tokid) m : 0 < ps -> (ps | length ts) -> (ps | m) -> m <= length ts ->
  pages P ts = pages P (take m ts) ++ pages P (drop m ts) /\ length (pages P (take m ts)) = m / ps.
Proof.
  intros Hps [a Ha] [q Hq] Hm. assert (Hcd : forall b, cdiv (b * ps) ps = b).
  { intros b. unfold cdiv. replace (b * ps + ps - 1) with (ps - 1 + b * ps) by lia.
    rewrite Nat.div_add, Nat.div_small by lia. done. }
  assert (Hqa : q <= a) by (apply (Nat.mul_le_mono_pos_r _ _ ps); lia).
  unfold pages. rewrite length_take, Nat.min_l, length_drop, Ha, Hq by lia.
  rewrite <- Nat.mul_sub_distr_r, !Hcd. split; [|rewrite length_map, length_seq, Nat.div_mul; lia].
  replace a with (q + (a - q)) at 1 by lia. rewrite seq_app, map_app. f_equal.
  - apply map_ext_in. intros i Hi%in_seq. unfold py_slice. rewrite skipn_firstn_comm, take_take. f_equal.
    assert (S i * ps <= q * ps) by (apply Nat.mul_le_mono_r; lia). lia.
  - replace (0 + q) with (q + 0) by lia. rewrite <- fmap_add_seq. change fmap with (@map nat nat). rewrite map_map.
    apply map_ext. intros i. unfold py_slice. rewrite drop_drop. f_equal; [lia|f_equal; lia].
Qed.

Lemma pages_count (ts : list tokid) : 0 < ps -> (ps | length ts) -> length (pages P ts) = length ts / ps.
Proof.
  intros Hps Ha. destruct (pages_split ts (length ts) Hps Ha Ha ltac:(lia)) as [_ E]. by rewrite firstn_all in E.
Qed.

Lemma chain_hash_length pr pgs : length (chain_hash pr pgs) = length pgs.
Proof. revert pr. induction pgs as [|pg pgs IH]; intros pr; simpl; [done|]. by rewrite IH. Qed.

Lemma chain_hash_app pr a b : chain_hash pr (a ++ b)
  = chain_hash pr a ++ chain_hash (match last (chain_hash pr a) with Some h => Some h | None => pr end) b.
Proof.
  revert pr. induction a as [|pg a IH]; intros pr; [done|]. cbn [chain_hash app]. rewrite IH. f_equal. f_equal.
  rewrite last_cons. by destruct (last (chain_hash _ a)).
Qed.

Record Inv st T hs : Prop := {
  i_tree : Tree ps (nodes st) (root_node st) T;
  i_fresh : forall n nd, nodes st !! n = Some nd -> n < counter st;
  i_handles : Forall (fun n => n ∈ T) hs;
  i_locks : locks_ok (nodes st) (root_node st) T hs;
  i_evictable : evictable_size_ st = sumz (part_len false (nodes st)) (T ∖ {[root_node st]});
  i_protected : protected_size_ st = sumz (part_len true (nodes st)) (T ∖ {[root_node st]});
  i_leaves : leaves_ok (nodes st) (root_node st) T (evictable_leaves st);
  i_hash : hash_ok (nodes st) (root_node st) T;
  i_root_hash : exists rd, nodes st !! root_node st = Some rd /\ hash_value rd = Some [];
}.

(** ** The indices the tree holds *)

Definition valof ns n : list Z := match ns !! n with Some nd => default [] (value nd) | None => [] end.

Definition slots ns T : list Z := concat (map (valof ns) (elements T)).

Lemma slots_insert ns T n : n ∉ T -> slots ns (T ∪ {[n]}) ≡ₚ valof ns n ++ slots ns T.
Proof.
  intros Hn. unfold slots. rewrite (comm_L union), elements_union_singleton by done. done.
Qed.

Lemma slots_ext ns ns' T : (forall n, n ∈ T -> valof ns n = valof ns' n) -> slots ns T = slots ns' T.
Proof.
  intros E. unfold slots. f_equal. apply map_ext_in. intros n Hn%list_elem_of_In. apply E. by apply elem_of_elements.
Qed.

Lemma slots_delete ns T n : n ∈ T -> slots ns T ≡ₚ valof ns n ++ slots ns (T ∖ {[n]}).
Proof.
  intros Hn. assert (E : T = T ∖ {[n]} ∪ {[n]}).
  { apply set_eq. intros m. destruct (decide (m = n)); set_solver. }
  rewrite E at 1. apply slots_insert. set_solver.
Qed.

Lemma slots_same ns ns' T : same_core ns ns' -> slots ns T = slots ns' T.
Proof.
  intros E. apply slots_ext. intros n _. specialize (E n). unfold valof.
  destruct (ns !! n) as [nd|], (ns' !! n) as [nd'|]; try done. simpl in E. injection E as _ _ _ -> _ _. done.
Qed.

(** ** Field by field *)

Lemma cache_eq st st' :
  nodes st = nodes st' -> counter st = counter st' -> ticks st = ticks st' -> root_node st = root_node st' ->
  evictable_size_ st = evictable_size_ st' -> protected_size_ st = protected_size_ st' ->
  evictable_leaves st = evictable_leaves st' -> kv_event_queue st = kv_event_queue st' ->
  allocator st = allocator st' -> st = st'.
Proof. destruct st, st'. simpl. congruence. Qed.

Lemma nodes_update f n st : nodes (update f n st) = alter f n (nodes st).
Proof. done. Qed.

(** The state after [TreeNode(priority=prio)]. *)
Definition fresh_state (prio : Z) st : RadixCache A H :=
  mkCache (<[counter st := mkNode ∅ None (mkKey [] None false) None 0 (monotonic (ticks st))
                             (monotonic (S (ticks st))) 0 None prio]> (nodes st))
    (S (counter st)) (S (S (ticks st))) (root_node st) (evictable_size_ st) (protected_size_ st)
    (evictable_leaves st) (kv_event_queue st) (allocator st).

Lemma new_TreeNode_eq prio st : new_TreeNode prio st = (counter st, fresh_state prio st).
Proof. done. Qed.

Lemma get_node_Ok n nd st : nodes st !! n = Some nd -> get_node (Some n) st = Ok nd.
Proof. intros E. unfold get_node. by rewrite E. Qed.

(** ** Metadata does not matter *)

Lemma part_len_same b ns ns' n : same_core ns ns' -> part_len b ns n = part_len b ns' n.
Proof.
  intros E. specialize (E n). unfold part_len. destruct (ns !! n) as [nd|], (ns' !! n) as [nd'|]; try done.
  simpl in E. injection E as _ _ -> _ -> _. done.
Qed.

Lemma locks_same ns ns' r T hs : same_core ns ns' -> locks_ok ns r T hs -> locks_ok ns' r T hs.
Proof.
  intros E (ch & Hch & Hl). exists ch. split.
  - eapply Forall2_impl; [exact Hch|]. intros n l. by apply chain_same.
  - intros n nd' Hn Hr En. destruct (same_core_lookup ns' ns n nd' ltac:(by symmetry) En) as (nd & En0 & [= _ _ _ _ El _]).
    rewrite <- El. by apply Hl.
Qed.

Lemma leaves_same ns ns' r T ls : same_core ns ns' -> leaves_ok ns r T ls -> leaves_ok ns' r T ls.
Proof.
  intros E Hl n. rewrite (Hl n). apply and_iff_compat_l, and_iff_compat_l.
  assert (E' : same_core ns' ns) by (by symmetry). split; intros (nd & En & E1 & E2).
  - destruct (same_core_lookup _ _ _ _ E En) as (nd' & En' & [= C1 _ _ _ C5 _]).
    exists nd'. split; [done|]. split; congruence.
  - destruct (same_core_lookup _ _ _ _ E' En) as (nd' & En' & [= C1 _ _ _ C5 _]).
    exists nd'. split; [done|]. split; congruence.
Qed.

Lemma hash_same ns ns' r T : same_core ns ns' -> hash_ok ns r T -> hash_ok ns' r T.
Proof.
  intros E Hh n nd' p pd' Hn Hr [N1 N2 N3 N4 N5 N6 N7 N8 N9].
  destruct (same_core_lookup ns' ns n nd' ltac:(by symmetry) N1) as (nd & En & [= C1 C2 C3 C4 C5 C6]).
  destruct (same_core_lookup ns' ns p pd' ltac:(by symmetry) N6) as (pd & Ep & [= D1 D2 D3 D4 D5 D6]).
  assert (Epr : prior pd' = prior pd) by (unfold prior; by rewrite D6).
  rewrite <- C3, <- C6, Epr. apply (Hh n nd p pd); [done|done|].
  split; rewrite ?C3, ?C4, ?D1, ?D3; (done || congruence).
Qed.

Lemma inv_same st st' T hs :
  same_core (nodes st) (nodes st') -> root_node st' = root_node st -> counter st <= counter st' ->
  evictable_size_ st' = evictable_size_ st -> protected_size_ st' = protected_size_ st ->
  evictable_leaves st' = evictable_leaves st -> Inv st T hs -> Inv st' T hs.
Proof.
  intros E Er Ec Ee Ep El [I1 I2 I3 I4 I5 I6 I7 I8 (rd & I9 & I10)]. split; rewrite ?Er.
  - by eapply tree_same.
  - intros n nd' En. destruct (same_core_lookup _ _ n nd' ltac:(by symmetry) En) as (nd & En0 & _).
    specialize (I2 n nd En0). lia.
  - done.
  - by eapply locks_same.
  - rewrite Ee, I5. apply sumz_ext. intros n _. by apply part_len_same.
  - rewrite Ep, I6. apply sumz_ext. intros n _. by apply part_len_same.
  - rewrite El. by eapply leaves_same.
  - by eapply hash_same.
  - destruct (same_core_lookup _ _ _ _ E I9) as (rd' & E9 & [= _ _ _ _ _ Eh]). exists rd'. split; [done|congruence].
Qed.

Lemma inv_update st T hs f n : (forall nd, core (f nd) = core nd) -> Inv st T hs -> Inv (update f n st) T hs.
Proof. intros Hf. apply inv_same; try done. by apply same_core_alter. Qed.

Lemma inv_now st T hs : Inv st T hs -> Inv (snd (now st)) T hs.
Proof. by apply inv_same. Qed.

(** A locked node has locked ancestors. *)
Lemma parent_locked st T hs n nd p pd : Inv st T hs -> n ∈ T -> n <> root_node st ->
  node_ok ps (nodes st) (root_node st) T n nd p pd -> p <> root_node st -> (lock_ref nd <= lock_ref pd)%Z.
Proof.
  intros I Hn Hr Hok Hp. destruct (i_locks _ _ _ I) as (ch & Hch & Hl).
  rewrite (Hl n nd), (Hl p pd) by (done || apply Hok). unfold holders. apply inj_le.
  assert (Hsub : forall l, l ∈ ch -> n ∈ l -> p ∈ l).
  { intros l Hin Hnl. apply list_elem_of_lookup in Hin as [i Hi].
    destruct (Forall2_lookup_r _ _ _ _ _ Hch Hi) as (m & _ & Hm).
    by apply (chain_closed _ _ m l n nd p Hm Hnl (no_node _ _ _ _ _ _ _ _ Hok) (no_parent _ _ _ _ _ _ _ _ Hok)). }
  clear Hch Hl. induction ch as [|l ch IH]; [done|]. rewrite !filter_cons.
  specialize (IH (fun l' Hl' => Hsub l' ltac:(by right))).
  destruct (decide (n ∈ l)) as [Hnl|]; [rewrite (decide_True (P := p ∈ l)) by (apply Hsub; [by left|done])|
    destruct (decide (p ∈ l))]; simpl; lia.
Qed.

Lemma lock_nonneg st T hs n nd : Inv st T hs -> n ∈ T -> nodes st !! n = Some nd -> (0 <= lock_ref nd)%Z.
Proof.
  intros I Hn En. destruct (decide (n = root_node st)) as [->|Hr].
  - destruct (t_root _ _ _ _ (i_tree _ _ _ I)) as (rd & Er & _ & _ & _ & El). rewrite Er in En.
    injection En as <-. lia.
  - destruct (i_locks _ _ _ I) as (ch & _ & Hl). rewrite (Hl n nd) by done. unfold holders. lia.
Qed.

(** ** [_split_node] *)

Section Split.
Context (st : RadixCache A H) (T : gset nat) (hs : list nat) (I : Inv st T hs).
Context (c m : nat) (cd pd : TreeNode H) (p : nat) (v : list Z).
Context (Hc : c ∈ T) (Hcr : c <> root_node st) (Hok : node_ok ps (nodes st) (root_node st) T c cd p pd).
Context (Hm : 0 < m < key_len (key cd)) (Hpg : (ps | m)) (Hps : 0 < ps) (Hv : value cd = Some v).

Definition split_state : RadixCache A H :=
  mkCache (split_map ps (nodes st) c cd p pd (counter st) m v
             (fst (split_node_hash_value P (hash_value cd) m)) (snd (split_node_hash_value P (hash_value cd) m))
             (monotonic (ticks st)) (monotonic (S (ticks st))))
    (S (counter st)) (S (S (ticks st))) (root_node st) (evictable_size_ st) (protected_size_ st)
    (evictable_leaves st) (kv_event_queue st) (allocator st).

Lemma split_fresh : nodes st !! counter st = None.
Proof using I. destruct (nodes st !! counter st) as [nd|] eqn:E; [|done]. by apply (i_fresh _ _ _ I), Nat.lt_irrefl in E. Qed.

#[local] Abbreviation facts L := (L H ps (nodes st) (root_node st) T (i_tree _ _ _ I) c p (counter st) m cd pd v
  (fst (split_node_hash_value P (hash_value cd) m)) (snd (split_node_hash_value P (hash_value cd) m))
  (monotonic (ticks st)) (monotonic (S (ticks st))) Hc Hcr Hok split_fresh Hm Hpg Hps Hv).

Lemma split_eq : _split_node P (key cd) c m st = Ok (counter st, split_state).
Proof using All.
  pose proof split_fresh as Hf.
  destruct (facts (@split_neq)) as (Npc & Nc & Np & Nr & HnT).
  pose proof (no_node _ _ _ _ _ _ _ _ Hok) as Ec. pose proof (no_pnode _ _ _ _ _ _ _ _ Hok) as Ep.
  unfold _split_node. rewrite (get_node_Ok c cd) by done. cbn [rbind]. rewrite new_TreeNode_eq.
  rewrite get_child_key_spec.
  2: { simpl. intros E. apply (f_equal length) in E. rewrite length_drop in E. unfold key_len in Hm. simpl in E. lia. }
  rewrite (get_child_key_spec ps (key cd)) by apply Hok. rewrite Hv, (no_parent _ _ _ _ _ _ _ _ Hok).
  cbn [rbind tensor default]. destruct (split_node_hash_value P (hash_value cd) m) as [nh chh] eqn:Eh.
  match goal with |- context [get_node (Some p) ?s] => set (st2 := s) end.
  assert (En : nodes st2 = <[c := set_hash chh (set_parent (Some (counter st))
      (set_key (key_from m (key cd)) (Some (drop m v)) cd))]>
    (<[counter st := mkNode {[ck_of ps (key_from m (key cd)) := c]} (Some p) (key_upto m (key cd)) (Some (take m v))
      (lock_ref cd) (monotonic (ticks st)) (monotonic (S (ticks st))) (hit_count cd) nh (priority cd)]> (nodes st))).
  { unfold st2. rewrite !nodes_update. unfold fresh_state. cbn [nodes].
    rewrite (alter_lookup_Some _ (<[counter st := _]> (nodes st)) (counter st) _ (lookup_insert_eq _ _ _)).
    rewrite insert_insert_eq. by rewrite (alter_lookup_Some _ _ c cd) by (by rewrite lookup_insert_ne). }
  assert (Ep' : nodes st2 !! p = Some pd) by (rewrite En; by rewrite !lookup_insert_ne).
  rewrite (get_node_Ok p pd) by done. cbn [rbind]. do 2 f_equal. unfold split_state.
  apply cache_eq; try done. rewrite nodes_update, (alter_lookup_Some _ _ p pd) by done.
  rewrite En. cbn [nodes]. unfold split_map. by rewrite Eh.
Qed.

Lemma split_tree : Tree ps (nodes split_state) (root_node st) (T ∪ {[counter st]}).
Proof using All. apply tree_split; try done; [by apply I|apply split_fresh]. Qed.

Lemma split_locks : locks_ok (nodes split_state) (root_node st) (T ∪ {[counter st]}) hs.
Proof using All.
  destruct (i_locks _ _ _ I) as (ch & Hch & Hl).
  assert (Gen : forall hs0 ch0, Forall2 (chain (nodes st) (root_node st)) hs0 ch0 -> Forall (fun n => n ∈ T) hs0 ->
    exists ch', Forall2 (chain (nodes split_state) (root_node st)) hs0 ch' /\
    (forall n, n <> counter st -> holders ch' n = holders ch0 n) /\ holders ch' (counter st) = holders ch0 c).
  { induction 1 as [|q l hs' ch' Hql _ IH]; intros Hh; [exists []; by split; [constructor|]|].
    apply Forall_cons in Hh as [Hq Hh]. destruct (IH Hh) as (ch0 & F & H1 & H2).
    destruct (facts (@chain_split) q l Hq Hql) as (l' & Hl' & X1 & X2).
    exists (l' :: ch0). split; [by constructor|]. unfold holders in *. split.
    + intros n Hn. specialize (H1 n Hn). specialize (X1 n Hn). rewrite !filter_cons.
      destruct (decide (n ∈ l')), (decide (n ∈ l)); simpl; (tauto || lia).
    + rewrite !filter_cons. destruct (decide (counter st ∈ l')), (decide (c ∈ l)); simpl; (tauto || lia). }
  destruct (Gen hs ch Hch (i_handles _ _ _ I)) as (ch' & Hch' & H1 & H2).
  exists ch'. split; [done|]. intros n nd Hn Hr En.
  destruct (facts (@split_neq)) as (_ & _ & _ & _ & HnT).
  apply elem_of_union in Hn as [Hn| ->%elem_of_singleton].
  - destruct (t_node_any _ _ _ _ _ (i_tree _ _ _ I) Hn) as (nd0 & En0).
    destruct (facts (@split_old) n nd0 Hn En0) as (nd' & En' & _ & _ & _ & El).
    change (nodes split_state !! n = Some nd') in En'. rewrite En in En'. injection En' as <-.
    rewrite El, H1 by (by intros ->). by apply Hl.
  - destruct (facts (@split_lookup_new)) as (nd' & En' & [= _ _ _ _ El _]).
    change (nodes split_state !! counter st = Some nd') in En'. rewrite En in En'. injection En' as <-.
    rewrite El, H2. apply Hl; [done|done|apply Hok].
Qed.

Lemma split_sum b : sumz (part_len b (nodes split_state)) ((T ∪ {[counter st]}) ∖ {[root_node st]})
  = sumz (part_len b (nodes st)) (T ∖ {[root_node st]}).
Proof using All.
  destruct (facts (@split_neq)) as (Npc & Nc & Np & Nr & HnT).
  destruct (facts (@split_lookup_new)) as (nn & Enn & [= _ _ K1 _ L1 _]).
  destruct (facts (@split_lookup_child)) as (c' & Ec' & [= _ _ K2 _ L2 _]).
  replace ((T ∪ {[counter st]}) ∖ {[root_node st]}) with (T ∖ {[root_node st]} ∪ {[counter st]}) by set_solver.
  rewrite sumz_insert by set_solver.
  rewrite (sumz_alter (part_len b (nodes st)) (part_len b (nodes split_state)) _ c).
  - unfold part_len. cbn [nodes split_state]. rewrite Enn, Ec', K1, K2, L1, L2, (no_node _ _ _ _ _ _ _ _ Hok).
    destruct (Bool.eqb _ _); [|lia]. unfold key_len in *. simpl. rewrite length_take, length_drop. lia.
  - set_solver.
  - intros q [Hq _]%elem_of_difference Hqc. destruct (t_node_any _ _ _ _ _ (i_tree _ _ _ I) Hq) as (qd & Eq).
    destruct (facts (@split_old) q qd Hq Eq) as (qd' & Eq' & Hk & _ & _ & El). destruct (Hk Hqc) as (_ & K & _).
    unfold part_len. cbn [nodes split_state]. by rewrite Eq, Eq', K, El.
Qed.

Lemma split_slots : slots (nodes split_state) (T ∪ {[counter st]}) ≡ₚ slots (nodes st) T.
Proof using All.
  destruct (facts (@split_neq)) as (Npc & Nc & Np & Nr & HnT).
  destruct (facts (@split_lookup_new)) as (nn & Enn & [= _ _ _ V1 _ _]).
  destruct (facts (@split_lookup_child)) as (c' & Ec' & [= _ _ _ V2 _ _]).
  rewrite slots_insert by done. rewrite (slots_delete _ T c), (slots_delete (nodes st) T c) by done.
  rewrite app_assoc. f_equiv.
  - unfold valof. cbn [nodes split_state]. rewrite Enn, Ec', V1, V2, (no_node _ _ _ _ _ _ _ _ Hok), Hv. simpl.
    by rewrite take_drop.
  - rewrite (slots_ext (nodes split_state) (nodes st)); [done|]. intros q [Hq Hqc%not_elem_of_singleton]%elem_of_difference.
    destruct (t_node_any _ _ _ _ _ (i_tree _ _ _ I) Hq) as (qd & Eq).
    destruct (facts (@split_old) q qd Hq Eq) as (qd' & Eq' & Hk & _). destruct (Hk Hqc) as (_ & _ & K3).
    unfold valof. cbn [nodes split_state]. by rewrite Eq, Eq', K3.
Qed.

Lemma split_leaves : leaves_ok (nodes split_state) (root_node st) (T ∪ {[counter st]}) (evictable_leaves st).
Proof using All.
  destruct (facts (@split_neq)) as (Npc & Nc & Np & Nr & HnT).
  intros n. rewrite (i_leaves _ _ _ I n). cbn [nodes split_state].
  destruct (decide (n = counter st)) as [->|Hne].
  { split; [by intros [? _]|]. intros (_ & _ & nd & En & _ & Ek).
    destruct (facts (@split_lookup_new)) as (nd' & En' & [= K _ _ _ _ _]). rewrite En in En'. injection En' as <-.
    rewrite Ek in K. by apply (f_equal (lookup (ck_of ps (key_from m (key cd))))) in K;
      rewrite lookup_singleton_eq, lookup_empty in K. }
  assert (Hin : n ∈ T ∪ {[counter st]} <-> n ∈ T) by set_solver. rewrite Hin.
  apply and_iff_compat_l_weak. intros Hn. apply and_iff_compat_l.
  destruct (t_node_any _ _ _ _ _ (i_tree _ _ _ I) Hn) as (nd & En).
  destruct (facts (@split_old) n nd Hn En) as (nd' & En' & _ & Hch & _ & El).
  destruct (decide (n = p)) as [->|Hnp].
  - split.
    + intros (x & Ex & _ & Hx). pose proof (no_filed _ _ _ _ _ _ _ _ Hok) as F.
      rewrite (no_pnode _ _ _ _ _ _ _ _ Hok) in Ex. injection Ex as <-. by rewrite Hx, lookup_empty in F.
    + intros (x & Ex & _ & Hx). destruct (facts (@split_lookup_parent)) as (pd' & Ep & [= K _ _ _ _ _]).
      rewrite Ex in Ep. injection Ep as <-. rewrite Hx in K. symmetry in K. by apply insert_non_empty in K.
  - specialize (Hch Hnp). split; intros (x & Ex & E1 & E2).
    + exists nd'. split; [done|]. rewrite En in Ex. injection Ex as <-. split; congruence.
    + exists nd. split; [done|]. rewrite En' in Ex. injection Ex as <-. split; congruence.
Qed.

(** The two parts of the hashes of [c]. *)
Lemma split_hashes : enable_kv_cache_events P = true ->
  exists h1 h2, split_node_hash_value P (hash_value cd) m = (Some h1, Some h2) /\
    h1 = chain_hash (prior pd) (pages P (take m (token_ids (key cd)))) /\
    h2 = chain_hash (last h1) (pages P (drop m (token_ids (key cd)))) /\
    hash_value cd = Some (h1 ++ h2) /\ h2 <> [].
Proof using All.
  intros Hen. pose proof (i_hash _ _ _ I c cd p pd Hc Hcr Hok) as E. rewrite Hen in E.
  destruct (pages_split (token_ids (key cd)) m) as [Es El]; [done|apply Hok|done|unfold key_len in Hm; lia|].
  pose proof (no_page _ _ _ _ _ _ _ _ Hok) as Hal.
  assert (Hd : length (pages P (drop m (token_ids (key cd)))) = length (drop m (token_ids (key cd))) / ps).
  { apply pages_count; [done|]. by apply aligned_drop. }
  assert (Hge : ps <= length (drop m (token_ids (key cd)))).
  { apply aligned_ge; [by apply aligned_drop|]. intros X. apply (f_equal length) in X. rewrite length_drop in X.
    unfold key_len in Hm. simpl in X. lia. }
  assert (Hm1 : ps <= m) by (apply Nat.divide_pos_le; [lia|done]).
  rewrite E. unfold split_node_hash_value. eexists _, _. split; [reflexivity|].
  assert (Esp : (if ps =? 1 then m else m / ps) = m / ps).
  { destruct (Nat.eqb_spec ps 1) as [->|]; [by rewrite Nat.div_1_r|done]. }
  rewrite Esp, Es, chain_hash_app, take_app_length', drop_app_length' by (by rewrite chain_hash_length).
  destruct (last (chain_hash (prior pd) (pages P (take m (token_ids (key cd)))))) as [h|] eqn:Ela.
  - split; [done|]. split; [done|]. split; [done|]. intros X. apply (f_equal length) in X.
    rewrite chain_hash_length, Hd in X. apply Nat.div_small_iff in X; [|lia]. lia.
  - apply last_None in Ela. apply (f_equal length) in Ela. rewrite chain_hash_length, El in Ela.
    apply Nat.div_small_iff in Ela; lia.
Qed.

Lemma split_hash : hash_ok (nodes split_state) (root_node st) (T ∪ {[counter st]}).
Proof using All.
  destruct (facts (@split_neq)) as (Npc & Nc & Np & Nr & HnT).
  destruct (facts (@split_lookup_new)) as (nn & Enn & [= _ Pn Kn _ _ Hn]).
  destruct (facts (@split_lookup_child)) as (c' & Ec' & [= _ Pc Kc _ _ Hcc]).
  destruct (facts (@split_lookup_parent)) as (p' & Ep' & [= _ _ _ _ _ Hpp]).
  intros n nd q qd HnT' Hr Hnok. pose proof (no_node _ _ _ _ _ _ _ _ Hnok) as En.
  pose proof (no_parent _ _ _ _ _ _ _ _ Hnok) as Epar. pose proof (no_pnode _ _ _ _ _ _ _ _ Hnok) as Eq.
  cbn [nodes split_state] in En, Eq.
  destruct (decide (n = counter st)) as [->|Hnn]; [|destruct (decide (n = c)) as [->|Hnc]].
  - rewrite En in Enn. injection Enn as <-. rewrite Pn in Epar. injection Epar as <-.
    rewrite Eq in Ep'. injection Ep' as <-. rewrite Hn, Kn. unfold prior. rewrite Hpp.
    destruct (enable_kv_cache_events P) eqn:Hen.
    + by destruct (split_hashes Hen) as (h1 & h2 & -> & -> & _).
    + pose proof (i_hash _ _ _ I c cd p pd Hc Hcr Hok) as E. rewrite Hen in E. by rewrite E.
  - rewrite En in Ec'. injection Ec' as <-. rewrite Pc in Epar. injection Epar as <-.
    rewrite Eq in Enn. injection Enn as <-. rewrite Hcc, Kc. unfold prior. rewrite Hn.
    destruct (enable_kv_cache_events P) eqn:Hen.
    + by destruct (split_hashes Hen) as (h1 & h2 & -> & E1 & E2 & _); rewrite E2.
    + pose proof (i_hash _ _ _ I c cd p pd Hc Hcr Hok) as E. rewrite Hen in E. by rewrite E.
  - assert (HnT0 : n ∈ T) by set_solver.
    destruct (t_node _ _ _ _ (i_tree _ _ _ I) n HnT0 Hr) as (nd0 & q0 & qd0 & Hok0).
    pose proof (no_node _ _ _ _ _ _ _ _ Hok0) as En0. pose proof (no_pnode _ _ _ _ _ _ _ _ Hok0) as Eq0.
    destruct (facts (@split_old) n nd0 HnT0 En0) as (nd' & En' & Hk & _).
    destruct (Hk Hnc) as (K1 & K2 & _). rewrite En in En'. injection En' as <-.
    pose proof (facts (@split_hash_old) n nd0 nd HnT0 Hnc En0 En) as Eh. rewrite Eh, K2.
    rewrite K1, (no_parent _ _ _ _ _ _ _ _ Hok0) in Epar. injection Epar as <-.
    rewrite (i_hash _ _ _ I n nd0 q0 qd0 HnT0 Hr Hok0). destruct (enable_kv_cache_events P) eqn:Hen; [|done].
    do 2 f_equal. destruct (decide (q0 = c)) as [->|Hqc].
    + rewrite Eq in Ec'. injection Ec' as <-. rewrite (no_node _ _ _ _ _ _ _ _ Hok) in Eq0. injection Eq0 as <-.
      unfold prior. rewrite Hcc. destruct (split_hashes Hen) as (h1 & h2 & -> & _ & _ & -> & Hne). simpl.
      by rewrite last_app_cons_or.
    + unfold prior. by rewrite (facts (@split_hash_old) q0 qd0 qd (no_pin _ _ _ _ _ _ _ _ Hok0) Hqc Eq0 Eq).
Qed.

Lemma split_inv : Inv split_state (T ∪ {[counter st]}) hs.
Proof using All.
  split; cbn [root_node evictable_size_ protected_size_ evictable_leaves split_state].
  - exact split_tree.
  - intros n nd En. destruct (facts (@split_neq)) as (Npc & Nc & Np & Nr & HnT). simpl in *.
    destruct (decide (n = counter st)) as [->|Hne]; [lia|].
    destruct (nodes st !! n) as [nd0|] eqn:E0; [apply (i_fresh _ _ _ I) in E0; lia|].
    unfold split_map in En. rewrite !lookup_insert_ne in En; [congruence|done|..]; intros ->.
    + rewrite (no_node _ _ _ _ _ _ _ _ Hok) in E0. congruence.
    + rewrite (no_pnode _ _ _ _ _ _ _ _ Hok) in E0. congruence.
  - eapply Forall_impl; [exact (i_handles _ _ _ I)|]. intros n Hn. set_solver.
  - exact split_locks.
  - rewrite split_sum. apply I.
  - rewrite split_sum. apply I.
  - exact split_leaves.
  - exact split_hash.
  - destruct (i_root_hash _ _ _ I) as (rd & Er & Eh).
    destruct (facts (@split_old) (root_node st) rd (t_root_in _ _ _ _ (i_tree _ _ _ I)) Er) as (rd' & Er' & _).
    exists rd'. split; [done|]. rewrite <- Eh.
    by apply (facts (@split_hash_old) (root_node st) rd rd' (t_root_in _ _ _ _ (i_tree _ _ _ I)) ltac:(by intros E; apply Hcr) Er).
Qed.

End Split.

(** ** [_update_leaf_status] *)

Lemma is_leaf_spec st r T n nd : Tree ps (nodes st) r T -> n ∈ T -> nodes st !! n = Some nd ->
  is_leaf nd st = bool_decide (children nd = ∅).
Proof.
  intros Ht Hn En. unfold is_leaf. case_bool_decide as Hc.
  - by rewrite Hc, map_to_list_empty.
  - apply map_choose in Hc as (ck & c & Ec). apply not_true_iff_false. intros Hall.
    rewrite forallb_forall in Hall. specialize (Hall c).
    destruct (t_kids _ _ _ _ Ht n nd ck c Hn En Ec) as (Hc & Hcr & _).
    destruct (t_node _ _ _ _ Ht c Hc Hcr) as (cd & p & pd & [N1 _ _ (v & N4 & _) _ _ _ _ _]).
    rewrite N1 in Hall. unfold evicted in Hall. rewrite N4 in Hall.
    discriminate Hall. apply in_map_iff. exists (ck, c). split; [done|].
    by apply list_elem_of_In, elem_of_map_to_list.
Qed.

Lemma tree_value ns r T n nd : Tree ps ns r T -> n ∈ T -> ns !! n = Some nd -> exists v, value nd = Some v.
Proof.
  intros Ht Hn En. destruct (decide (n = r)) as [->|Hr].
  - destruct (t_root _ _ _ _ Ht) as (rd & Er & _ & _ & Ev & _). exists []. congruence.
  - destruct (t_node _ _ _ _ Ht n Hn Hr) as (nd' & p & pd & [N1 _ _ (v & N4 & _) _ _ _ _ _]).
    exists v. congruence.
Qed.

Definition leaf_status (nd : TreeNode H) n (ls : gset nat) : gset nat :=
  if (lock_ref nd =? 0)%Z && bool_decide (children nd = ∅) then ls ∪ {[n]} else ls ∖ {[n]}.

Lemma update_leaf_eq st r T n nd : Tree ps (nodes st) r T -> n ∈ T -> nodes st !! n = Some nd ->
  (0 <= lock_ref nd)%Z ->
  _update_leaf_status n st = Ok (with_leaves (leaf_status nd n (evictable_leaves st)) st).
Proof.
  intros Ht Hn En Hl. unfold _update_leaf_status. rewrite (get_node_Ok n nd) by done. cbn [rbind].
  destruct (tree_value _ _ _ _ _ Ht Hn En) as (v & Ev). unfold evicted, leaf_status. rewrite Ev.
  rewrite (is_leaf_spec st r T n nd) by done. cbn [orb].
  destruct (Z.ltb_spec 0 (lock_ref nd)), (Z.eqb_spec (lock_ref nd) 0); try lia; [done|].
  by destruct (bool_decide (children nd = ∅)).
Qed.

(** ** A new leaf *)

(** Hash and event of a node that was just stored. *)
Lemma store_event_spec st n nd p pd : nodes st !! n = Some nd -> hash_value nd = None ->
  parent nd = Some p -> nodes st !! p = Some pd -> n <> p ->
  (key_len (key pd) = 0 -> hash_value pd = Some []) -> (root_node st = p -> hash_value pd = Some []) ->
  let hs := if enable_kv_cache_events P then Some (chain_hash (prior pd) (pages P (token_ids (key nd)))) else None in
  exists es, _record_store_event P n st
    = Ok (with_events (kv_event_queue st ++ es) (if enable_kv_cache_events P then update (set_hash hs) n st else st)) /\
    (enable_kv_cache_events P = true ->
     stored_events (hash_str_to_int64 <$> prior pd) (pages P (token_ids (key nd))) (default [] hs) = Ok es) /\
    (enable_kv_cache_events P = false -> es = []).
Proof.
  intros En Eh Ep Epd Hne Hroot Hrn. unfold _record_store_event. destruct (enable_kv_cache_events P).
  2: { exists []. split; [|done]. f_equal. apply cache_eq; try done. simpl. by rewrite app_nil_r. }
  assert (Est : forall pr pgs, exists es, stored_events pr pgs (chain_hash (prior pd) pgs) = Ok es).
  { generalize (prior pd) as q. intros q pr pgs. revert q pr. induction pgs as [|pg pgs IH]; intros q pr; [by eexists|].
    cbn [chain_hash stored_events]. edestruct IH as (es & ->). by eexists. }
  destruct (Est (hash_str_to_int64 <$> prior pd) (pages P (token_ids (key nd)))) as (es & Ees).
  exists es. split; [|done]. unfold lazy_hash. rewrite (get_node_Ok n nd) by done. cbn [rbind]. rewrite Eh.
  unfold compute_node_hash_values. rewrite (get_node_Ok n nd) by done. cbn [rbind]. rewrite Ep.
  rewrite (get_node_Ok p pd) by done. cbn [rbind].
  assert (Epr : match hash_value pd with
      | Some hs => if (0 <? key_len (key pd)) && (0 <? length hs) then last hs else None
      | None => None end = prior pd).
  { unfold prior. destruct (hash_value pd) as [hs|] eqn:E; [|done].
    destruct hs as [|h0 hs]; [by rewrite andb_false_r|].
    destruct (Nat.ltb_spec 0 (key_len (key pd))) as [_|Hk]; [done|].
    assert (Ek : key_len (key pd) = 0) by lia. specialize (Hroot Ek). congruence. }
  rewrite Epr. set (h := chain_hash _ _) in *.
  rewrite (get_node_Ok n (set_hash (Some h) nd)) by (rewrite nodes_update, lookup_alter_eq, En; done).
  cbn [rbind]. rewrite (f_equal (fun x => x) Ep : parent (set_hash (Some h) nd) = Some p).
  change (root_node (update (set_hash (Some h)) n st)) with (root_node st).
  rewrite (get_node_Ok p pd) by (rewrite nodes_update, lookup_alter_ne; done). cbn [rbind].
  assert (Epb : (if decide (p = root_node st) then Ok None
      else Ok match hash_value pd with Some phs => match last phs with Some h0 => Some (hash_str_to_int64 h0)
                | None => None end | None => None end) = Ok (hash_str_to_int64 <$> prior pd) :> res (option Z)).
  { unfold prior. destruct (decide (p = root_node st)) as [->|]; [by rewrite Hrn|].
    destruct (hash_value pd) as [phs|]; [|done]. by destruct (last phs). }
  rewrite Epb. cbn [rbind]. change (key (set_hash (Some h) nd)) with (key nd). by rewrite Ees.
Qed.

(** Sums, locks, leaves and hashes of the tree with a new unlocked leaf. *)
Section NewLeaf.
Context (st : RadixCache A H) (T : gset nat) (hs : list nat) (I : Inv st T hs).
Context (p : nat) (pd leaf : TreeNode H).
#[local] Abbreviation nn := (counter st).
#[local] Abbreviation r := (root_node st).
Context (Hp : p ∈ T) (Ep : nodes st !! p = Some pd).
Context (Hnone : children pd !! ck_of ps (key leaf) = None).
Context (Lkey : token_ids (key leaf) <> []) (Lpage : aligned ps (token_ids (key leaf))).
Context (Lval : exists v, value leaf = Some v /\ length v = key_len (key leaf)).
Context (Lpar : parent leaf = Some p) (Lkids : children leaf = ∅) (Llock : lock_ref leaf = 0%Z).
Context (Lext : p = r \/ extra_key (key leaf) = extra_key (key pd)).
Context (Lhash : hash_value leaf =
  if enable_kv_cache_events P then Some (chain_hash (prior pd) (pages P (token_ids (key leaf)))) else None).
#[local] Abbreviation ns' := (leaf_map ps (nodes st) p pd nn leaf).

Lemma newleaf_neq : nn ∉ T /\ nn <> p /\ nn <> r.
Proof using All.
  destruct (leaf_fresh ps _ _ _ (i_tree _ _ _ I) p nn pd Ep (split_fresh st T hs I)) as [? ?].
  split; [done|]. split; [done|]. intros E. pose proof (t_root_in _ _ _ _ (i_tree _ _ _ I)). congruence.
Qed.

Lemma newleaf_tree : Tree ps ns' r (T ∪ {[nn]}).
Proof using All. apply tree_leaf; try done; [apply I|by apply split_fresh with T hs]. Qed.

#[local] Abbreviation old := (leaf_old ps _ _ _ (i_tree _ _ _ I) p nn pd leaf Ep (split_fresh st T hs I)).
#[local] Abbreviation new := (leaf_lookup_new ps _ _ _ (i_tree _ _ _ I) p nn pd leaf Ep (split_fresh st T hs I)).

Lemma newleaf_locks : locks_ok ns' r (T ∪ {[nn]}) hs.
Proof using All.
  destruct newleaf_neq as (HnT & _ & _). destruct (i_locks _ _ _ I) as (ch & Hch & Hl).
  pose proof (i_handles _ _ _ I) as Hh. exists ch. split.
  - apply Forall2_same_length_lookup_2; [by eapply Forall2_length|]. intros i n l Hi Hli.
    apply (chain_leaf ps _ _ T (i_tree _ _ _ I) p nn pd leaf Ep (split_fresh st T hs I)).
    + by apply (Forall_lookup_1 _ _ _ _ Hh Hi).
    + by apply (Forall2_lookup_lr _ _ _ _ _ _ Hch Hi Hli).
  - intros n nd Hn Hr En. apply elem_of_union in Hn as [Hn| ->%elem_of_singleton].
    + destruct (t_node_any _ _ _ _ _ (i_tree _ _ _ I) Hn) as (nd0 & En0).
      destruct (old n nd0 Hn En0) as (nd' & En' & _ & _ & _ & El & _). rewrite En in En'. injection En' as <-.
      rewrite El. by apply Hl.
    + rewrite new in En. injection En as <-. rewrite Llock, holders_0; [done|].
      intros l Hl0 Hin. apply list_elem_of_lookup in Hl0 as [i Hi].
      destruct (Forall2_lookup_r _ _ _ _ _ Hch Hi) as (m & Hm & Hc).
      destruct (chain_exists ps _ _ _ m (i_tree _ _ _ I) (Forall_lookup_1 _ _ _ _ Hh Hm)) as (l0 & Hc0 & Hin0 & _).
      rewrite (chain_fun _ _ _ _ _ Hc Hc0) in Hin. by apply Hin0 in Hin as [? _].
Qed.

Lemma newleaf_sum b : sumz (part_len b ns') ((T ∪ {[nn]}) ∖ {[r]})
  = ((if b then 0 else Z.of_nat (key_len (key leaf))) + sumz (part_len b (nodes st)) (T ∖ {[r]}))%Z.
Proof using All.
  destruct newleaf_neq as (HnT & _ & Hnr).
  replace ((T ∪ {[nn]}) ∖ {[r]}) with (T ∖ {[r]} ∪ {[nn]}) by set_solver. rewrite sumz_insert by set_solver. f_equal.
  - unfold part_len. rewrite new, Llock. by destruct b.
  - apply sumz_ext. intros q [Hq _]%elem_of_difference. destruct (t_node_any _ _ _ _ _ (i_tree _ _ _ I) Hq) as (qd & Eq).
    destruct (old q qd Hq Eq) as (qd' & Eq' & _ & K & _ & El & _). unfold part_len. by rewrite Eq, Eq', K, El.
Qed.

Lemma newleaf_slots : slots ns' (T ∪ {[nn]}) ≡ₚ default [] (value leaf) ++ slots (nodes st) T.
Proof using All.
  destruct newleaf_neq as (HnT & _ & _). rewrite slots_insert by done. f_equiv.
  - unfold valof. by rewrite new.
  - rewrite (slots_ext ns' (nodes st)); [done|]. intros q Hq. destruct (t_node_any _ _ _ _ _ (i_tree _ _ _ I) Hq) as (qd & Eq).
    destruct (old q qd Hq Eq) as (qd' & Eq' & _ & _ & K3 & _). unfold valof. by rewrite Eq, Eq', K3.
Qed.

Lemma newleaf_leaves : leaves_ok ns' r (T ∪ {[nn]}) (evictable_leaves st ∖ {[p]} ∪ {[nn]}).
Proof using All.
  destruct newleaf_neq as (HnT & Hnp & Hnr). intros n. rewrite elem_of_union, elem_of_difference, !elem_of_singleton.
  destruct (decide (n = nn)) as [->|Hne].
  { split; [|by right]. intros _. split; [set_solver|]. split; [done|]. exists leaf. split; [apply new|done]. }
  assert (Hin : n ∈ T ∪ {[nn]} <-> n ∈ T) by set_solver. rewrite Hin, (i_leaves _ _ _ I n). split.
  - intros [[(Hn & Hr & nd & En & E1 & E2) Hnp']|]; [|done]. split; [done|]. split; [done|].
    destruct (old n nd Hn En) as (nd' & En' & _ & _ & _ & El & Ec). rewrite decide_False in Ec by done.
    exists nd'. split; [done|]. split; congruence.
  - intros (Hn & Hr & nd' & En' & E1 & E2). left. destruct (t_node_any _ _ _ _ _ (i_tree _ _ _ I) Hn) as (nd & En).
    destruct (old n nd Hn En) as (nd1 & En1 & _ & _ & _ & El & Ec). rewrite En' in En1. injection En1 as <-.
    destruct (decide (n = p)) as [->|Hnp'].
    + rewrite E2 in Ec. symmetry in Ec. by apply insert_non_empty in Ec.
    + split; [|done]. split; [done|]. split; [done|]. exists nd. split; [done|]. split; congruence.
Qed.

Lemma newleaf_hash : hash_ok ns' r (T ∪ {[nn]}).
Proof using All.
  destruct newleaf_neq as (HnT & Hnp & Hnr). intros n nd q qd HnT' Hr Hnok.
  pose proof (no_node _ _ _ _ _ _ _ _ Hnok) as En. pose proof (no_parent _ _ _ _ _ _ _ _ Hnok) as Epar.
  pose proof (no_pnode _ _ _ _ _ _ _ _ Hnok) as Eq.
  assert (Hold : forall x xd xd', x ∈ T -> nodes st !! x = Some xd -> ns' !! x = Some xd' -> hash_value xd' = hash_value xd).
  { intros x xd xd'. apply (leaf_hash_old ps _ _ _ (i_tree _ _ _ I) p nn pd leaf Ep (split_fresh st T hs I)). }
  apply elem_of_union in HnT' as [Hn| ->%elem_of_singleton].
  - destruct (t_node _ _ _ _ (i_tree _ _ _ I) n Hn Hr) as (nd0 & q0 & qd0 & Hok0).
    pose proof (no_node _ _ _ _ _ _ _ _ Hok0) as En0. pose proof (no_pnode _ _ _ _ _ _ _ _ Hok0) as Eq0.
    destruct (old n nd0 Hn En0) as (nd' & En' & K1 & K2 & _). rewrite En in En'. injection En' as <-.
    rewrite K1, (no_parent _ _ _ _ _ _ _ _ Hok0) in Epar. injection Epar as <-.
    rewrite (Hold n nd0 nd Hn En0 En), K2. unfold prior.
    rewrite (Hold q0 qd0 qd (no_pin _ _ _ _ _ _ _ _ Hok0) Eq0 Eq).
    by apply (i_hash _ _ _ I n nd0 q0 qd0).
  - rewrite new in En. injection En as <-. rewrite Lpar in Epar. injection Epar as <-. rewrite Lhash. unfold prior.
    by rewrite (Hold p pd qd Hp Ep Eq).
Qed.

End NewLeaf.

End Inv.
End RInv.
