(* ===== verification/RadixOps.v ===== *)
(** The state changes of the radix cache: a new leaf, a deleted leaf, and the
    locks.  Each operation is shown to succeed on a cache that satisfies [Inv]
    and to preserve it; locking a node adds it to the held nodes, unlocking it
    removes it, and the sizes move between the two counters accordingly. *)
From stdpp Require Import base list gmap sets strings.
From Stdlib Require Import ZArith Lia.
From S2P Require Import Prelude RadixCache RadixTree RadixInv.
Local Open Scope nat_scope.

Module ROps.
Import Radix RTree RInv.

Section Ops.
Context {A H : Type} `{Env A H} (P : Params).
#[local] Abbreviation ps := (page_size P).
Implicit Types (st : RadixCache A H) (ns : gmap nat (TreeNode H)) (T : gset nat) (hs : list nat) (n : nat).

(** ** A new leaf *)

Section AddLeaf.
Context (st : RadixCache A H) (T : gset nat) (hs : list nat) (I : Inv P st T hs).
Context (p : nat) (pd : TreeNode H) (k : RadixKey) (v : list Z) (prio : Z) (chunked : bool).
Context (Hp : p ∈ T) (Ep : nodes st !! p = Some pd).
Context (Hnone : children pd !! ck_of ps k = None).
Context (Kne : token_ids k <> []) (Kpage : aligned ps (token_ids k)) (Kval : length v = key_len k).
Context (Kext : p = root_node st \/ extra_key k = extra_key (key pd)).
#[local] Abbreviation nn := (counter st).

(** The node that [add_leaf] makes, before its hash is known. *)
Definition leaf0 : TreeNode H :=
  mkNode ∅ (Some p) k (Some v) 0 (monotonic (ticks st)) (monotonic (S (ticks st)))
    (if chunked then 0 else 1)%Z None prio.

Definition leaf_hash : option (list H) :=
  if enable_kv_cache_events P then Some (chain_hash (prior pd) (pages P (token_ids k))) else None.

Definition leaf_state (es : list kv_event) : RadixCache A H :=
  mkCache (leaf_map ps (nodes st) p pd nn (set_hash leaf_hash leaf0)) (S nn) (S (S (ticks st))) (root_node st)
    (evictable_size_ st + Z.of_nat (key_len k)) (protected_size_ st)
    (evictable_leaves st ∖ {[p]} ∪ {[nn]}) (kv_event_queue st ++ es) (allocator st).

Lemma leaf0_tree : Tree ps (leaf_map ps (nodes st) p pd nn leaf0) (root_node st) (T ∪ {[nn]}).
Proof using All. apply tree_leaf; try done; [apply I|by apply split_fresh with P T hs|by exists v]. Qed.

Lemma leaf_state_inv es : Inv P (leaf_state es) (T ∪ {[nn]}) hs.
Proof using All.
  pose proof (split_fresh P st T hs I) as Hf.
  assert (Lv : exists v', value (set_hash leaf_hash leaf0) = Some v' /\ length v' = key_len k) by (by exists v).
  split; cbn [nodes root_node counter evictable_size_ protected_size_ evictable_leaves leaf_state].
  - by apply (newleaf_tree P st T hs I p pd).
  - intros n nd En. destruct (decide (n = nn)) as [->|Hne]; [lia|].
    destruct (nodes st !! n) as [nd0|] eqn:E0; [apply (i_fresh _ _ _ _ I) in E0; lia|].
    unfold leaf_map in En. rewrite !lookup_insert_ne in En; [congruence|done|]. intros ->. congruence.
  - eapply Forall_impl; [exact (i_handles _ _ _ _ I)|]. intros n Hn. set_solver.
  - by apply (newleaf_locks P st T hs I p pd).
  - rewrite (newleaf_sum P st T hs I p pd) by done. rewrite (i_evictable _ _ _ _ I). simpl. lia.
  - rewrite (newleaf_sum P st T hs I p pd) by done. rewrite (i_protected _ _ _ _ I). simpl. lia.
  - by apply (newleaf_leaves P st T hs I p pd).
  - by apply (newleaf_hash P st T hs I p pd).
  - destruct (i_root_hash _ _ _ _ I) as (rd & Er & Eh). pose proof (t_root_in _ _ _ _ (i_tree _ _ _ _ I)) as Hr.
    destruct (leaf_old ps _ _ _ (i_tree _ _ _ _ I) p nn pd (set_hash leaf_hash leaf0) Ep Hf _ _ Hr Er) as (rd' & Er' & _).
    exists rd'. split; [done|]. rewrite <- Eh.
    by apply (leaf_hash_old ps _ _ _ (i_tree _ _ _ _ I) p nn pd (set_hash leaf_hash leaf0) Ep Hf _ _ _ Hr Er).
Qed.

Lemma leaf_state_slots es : slots (nodes (leaf_state es)) (T ∪ {[nn]}) ≡ₚ v ++ slots (nodes st) T.
Proof using All.
  assert (Lv : exists v', value (set_hash leaf_hash leaf0) = Some v' /\ length v' = key_len k) by (by exists v).
  by apply (newleaf_slots P st T hs I p pd (set_hash leaf_hash leaf0)).
Qed.

(** The nodes of [add_leaf], before the leaves and the hash are recorded. *)
Definition linked_state : RadixCache A H :=
  mkCache (leaf_map ps (nodes st) p pd nn leaf0) (S nn) (S (S (ticks st))) (root_node st)
    (evictable_size_ st + Z.of_nat (key_len k)) (protected_size_ st)
    (evictable_leaves st) (kv_event_queue st) (allocator st).

Lemma linked_eq :
  with_sizes (evictable_size_ st + Z.of_nat (key_len k)) (protected_size_ st)
    (update (fun nd => set_children (<[ck_of ps k := nn]> (children nd)) nd) p
      (_inc_hit_count nn chunked
        (update (fun nd => set_key k (Some v) (set_parent (Some p) nd)) nn (fresh_state prio st)))) = linked_state.
Proof using All.
  pose proof (split_fresh P st T hs I) as Hf. assert (Hpn : nn <> p) by (intros E; congruence).
  assert (En : nodes (_inc_hit_count nn chunked
      (update (fun nd => set_key k (Some v) (set_parent (Some p) nd)) nn (fresh_state prio st)))
    = <[nn := leaf0]> (nodes st)).
  { unfold _inc_hit_count, leaf0. destruct chunked; rewrite !nodes_update; unfold fresh_state; cbn [nodes].
    - rewrite (alter_lookup_Some _ (<[nn := _]> (nodes st)) nn _ (lookup_insert_eq _ _ _)), insert_insert_eq. done.
    - rewrite (alter_lookup_Some _ (<[nn := _]> (nodes st)) nn _ (lookup_insert_eq _ _ _)), insert_insert_eq.
      rewrite (alter_lookup_Some _ (<[nn := _]> (nodes st)) nn _ (lookup_insert_eq _ _ _)), insert_insert_eq. done. }
  apply cache_eq; try (by destruct chunked).
  change (nodes (with_sizes _ _ ?s)) with (nodes s). rewrite nodes_update, En.
  by rewrite (alter_lookup_Some _ _ p pd) by (by rewrite lookup_insert_ne).
Qed.

Lemma add_leaf_eq : exists es, add_leaf P p k v (ck_of ps k) prio chunked st = Ok (leaf_state es) /\
  (enable_kv_cache_events P = true ->
   stored_events (hash_str_to_int64 <$> prior pd) (pages P (token_ids k)) (default [] leaf_hash) = Ok es) /\
  (enable_kv_cache_events P = false -> es = []).
Proof using All.
  pose proof (split_fresh P st T hs I) as Hf. assert (Hpn : nn <> p) by (intros E; congruence).
  unfold add_leaf. rewrite new_TreeNode_eq.
  assert (Es : forall s : RadixCache A H, evictable_size_ s = evictable_size_ st -> protected_size_ s = protected_size_ st ->
    with_sizes (evictable_size_ s + Z.of_nat (key_len k)) (protected_size_ s) s
    = with_sizes (evictable_size_ st + Z.of_nat (key_len k)) (protected_size_ st) s) by (intros s -> ->; done).
  rewrite Es by (by destruct chunked). rewrite linked_eq.
  pose proof leaf0_tree as Ht. pose proof (t_root_in _ _ _ _ (i_tree _ _ _ _ I)) as Hr.
  destruct (leaf_old ps _ _ _ (i_tree _ _ _ _ I) p nn pd leaf0 Ep Hf p pd Hp Ep) as
    (pd' & Ep' & Q1 & Q2 & _ & Q4 & Q5). rewrite decide_True in Q5 by done.
  pose proof (leaf_lookup_new ps _ _ _ (i_tree _ _ _ _ I) p nn pd leaf0 Ep Hf) as En.
  rewrite (update_leaf_eq P linked_state (root_node st) (T ∪ {[nn]}) p pd') by
    (first [done|set_solver|rewrite Q4; by apply (lock_nonneg P st T hs p)]). cbn [rbind].
  rewrite (update_leaf_eq P _ (root_node st) (T ∪ {[nn]}) nn leaf0) by (first [done|set_solver]). cbn [rbind].
  assert (Hkids : bool_decide (children pd' = ∅) = false).
  { apply bool_decide_eq_false. rewrite Q5. apply insert_non_empty. }
  unfold leaf_status. rewrite Hkids, andb_false_r. change (bool_decide (children leaf0 = ∅)) with true. cbn [lock_ref leaf0].
  simpl Z.eqb. cbn [andb]. match goal with |- context [_record_store_event P nn ?s] => set (st5 := s) end.
  pose proof (leaf_hash_old ps _ _ _ (i_tree _ _ _ _ I) p nn pd leaf0 Ep Hf p pd pd' Hp Ep Ep') as Eh.
  destruct (i_root_hash _ _ _ _ I) as (rd & Er & Erh).
  destruct (store_event_spec P st5 nn leaf0 p pd' En eq_refl eq_refl Ep' Hpn) as (es & Eq & Hst & Hns).
  { intros E0. rewrite Q2 in E0. destruct (decide (p = root_node st)) as [->|Hpr]; [congruence|].
    destruct (t_node _ _ _ _ (i_tree _ _ _ _ I) p Hp Hpr) as (pd0 & q & qd & [N1 N2 _ _ _ _ _ _ _]).
    rewrite Ep in N1. injection N1 as <-. unfold key_len in E0. by apply nil_length_inv in E0. }
  { intros E0. change (root_node st = p) in E0. rewrite E0 in Er. congruence. }
  assert (Epr : prior pd' = prior pd) by (unfold prior; by rewrite Eh). rewrite Epr in *.
  exists es. unfold leaf_hash. split; [|split; [|done]; intros Hen; specialize (Hst Hen); done].
  rewrite Eq. f_equal. apply cache_eq; try (by destruct (enable_kv_cache_events P)).
  unfold leaf_state, leaf_hash. destruct (enable_kv_cache_events P); [|done].
  change (nodes (with_events _ ?s)) with (nodes s). rewrite nodes_update. cbn [nodes].
  change (nodes st5) with (leaf_map ps (nodes st) p pd nn leaf0). unfold leaf_map.
  rewrite (alter_lookup_Some _ _ nn leaf0) by (by rewrite lookup_insert_ne, lookup_insert_eq).
  rewrite insert_insert_ne, insert_insert_eq by done. done.
Qed.

End AddLeaf.

(** ** [_delete_leaf] *)

Section DeleteLeaf.
Context (st : RadixCache A H) (T : gset nat) (hs : list nat) (I : Inv P st T hs).
Context (x p : nat) (xd pd : TreeNode H).
Context (Hx : x ∈ T) (Hxr : x <> root_node st) (Hok : node_ok ps (nodes st) (root_node st) T x xd p pd).
Context (Hleaf : children xd = ∅) (Hlock : lock_ref xd = 0%Z).
#[local] Abbreviation r := (root_node st).
#[local] Abbreviation ns' := (delete_map (nodes st) p pd (ck_of ps (key xd))).
#[local] Abbreviation old := (delete_old ps (nodes st) r T x p xd pd Hok).

Definition pd' : TreeNode H := set_children (delete (ck_of ps (key xd)) (children pd)) pd.

Definition delete_state : RadixCache A H :=
  mkCache ns' (counter st) (ticks st) r (evictable_size_ st - Z.of_nat (key_len (key xd))) (protected_size_ st)
    (leaf_status pd' p (evictable_leaves st ∖ {[x]})) (kv_event_queue st) (allocator st).

Lemma unheld : Forall (fun n => n ∈ T ∖ {[x]}) hs.
Proof using All.
  destruct (i_locks _ _ _ _ I) as (ch & Hch & Hl). pose proof (i_handles _ _ _ _ I) as Hh.
  apply Forall_lookup. intros i n Hi. pose proof (Forall_lookup_1 _ _ _ _ Hh Hi) as Hn.
  assert (n <> x); [|set_solver]. intros ->.
  destruct (Forall2_lookup_l _ _ _ _ _ Hch Hi) as (l & Hil & Hc).
  assert (Hxl : x ∈ l) by (inversion Hc; simplify_eq; by left).
  specialize (Hl x xd Hx Hxr (no_node _ _ _ _ _ _ _ _ Hok)). rewrite Hlock in Hl. unfold holders in Hl.
  assert (Hin : l ∈ filter (fun l => x ∈ l) ch).
  { apply list_elem_of_filter. split; [done|]. by eapply list_elem_of_lookup_2. }
  destruct (filter (fun l => x ∈ l) ch); [by apply not_elem_of_nil in Hin|simpl in Hl; lia].
Qed.

Lemma delete_locks : locks_ok ns' r (T ∖ {[x]}) hs.
Proof using All.
  destruct (i_locks _ _ _ _ I) as (ch & Hch & Hl). exists ch. split.
  - eapply Forall2_impl; [exact Hch|]. intros n l. by apply (chain_delete ps _ _ T x p xd).
  - intros n nd [Hn _]%elem_of_difference Hr En. destruct (t_node_any _ _ _ _ _ (i_tree _ _ _ _ I) Hn) as (nd0 & En0).
    destruct (old n nd0 En0) as (nd' & En' & _ & _ & _ & El & _). rewrite En in En'. injection En' as <-.
    rewrite El. by apply Hl.
Qed.

Lemma delete_sum b : sumz (part_len b ns') ((T ∖ {[x]}) ∖ {[r]})
  = (sumz (part_len b (nodes st)) (T ∖ {[r]}) - if b then 0 else Z.of_nat (key_len (key xd)))%Z.
Proof using All.
  rewrite (sumz_delete _ (T ∖ {[r]}) x) by set_solver.
  replace ((T ∖ {[x]}) ∖ {[r]}) with ((T ∖ {[r]}) ∖ {[x]}) by set_solver.
  rewrite (sumz_ext (part_len b ns') (part_len b (nodes st))).
  - unfold part_len at 2. rewrite (no_node _ _ _ _ _ _ _ _ Hok), Hlock. destruct b; simpl; lia.
  - intros q Hq. assert (HqT : q ∈ T) by set_solver.
    destruct (t_node_any _ _ _ _ _ (i_tree _ _ _ _ I) HqT) as (qd & Eq).
    destruct (old q qd Eq) as (qd' & Eq' & _ & K & _ & El & _). unfold part_len. by rewrite Eq, Eq', K, El.
Qed.

Lemma delete_slots v : value xd = Some v -> slots (nodes st) T ≡ₚ v ++ slots ns' (T ∖ {[x]}).
Proof using All.
  intros Ev. rewrite (slots_delete _ T x) by done. f_equiv.
  - unfold valof. by rewrite (no_node _ _ _ _ _ _ _ _ Hok), Ev.
  - rewrite (slots_ext (nodes st) ns'); [done|]. intros q [Hq _]%elem_of_difference.
    destruct (t_node_any _ _ _ _ _ (i_tree _ _ _ _ I) Hq) as (qd & Eq).
    destruct (old q qd Eq) as (qd' & Eq' & _ & _ & K3 & _). unfold valof. by rewrite Eq, Eq', K3.
Qed.

Lemma delete_leaves : leaves_ok ns' r (T ∖ {[x]}) (leaf_status pd' p (evictable_leaves st ∖ {[x]})).
Proof using All.
  pose proof (delete_neq ps _ _ _ (i_tree _ _ _ _ I) x p xd pd Hx Hxr Hok Hleaf) as Nxp.
  assert (Ep : ns' !! p = Some pd') by apply lookup_insert_eq.
  assert (Hpin : p ∈ T) by apply Hok. intros n. destruct (decide (n = p)) as [->|Hnp].
  - unfold leaf_status. destruct ((lock_ref pd' =? 0)%Z && bool_decide (children pd' = ∅)) eqn:E.
    + apply andb_true_iff in E as [E1%Z.eqb_eq E2%bool_decide_eq_true]. split; [|set_solver]. intros _.
      split; [set_solver|]. split; [|by exists pd']. intros Epr.
      destruct (t_root _ _ _ _ (i_tree _ _ _ _ I)) as (rd & Er & _ & _ & _ & El). rewrite Epr in Hok.
      rewrite (no_pnode _ _ _ _ _ _ _ _ Hok) in Er. injection Er as <-. unfold pd' in E1. simpl in E1. lia.
    + split; [set_solver|]. intros (_ & _ & nd & En & E1 & E2). rewrite Ep in En. injection En as <-.
      rewrite E1, E2 in E. by rewrite bool_decide_true in E.
  - assert (Hst : n ∈ leaf_status pd' p (evictable_leaves st ∖ {[x]}) <-> n ∈ evictable_leaves st ∖ {[x]}).
    { unfold leaf_status. destruct (_ && _); set_solver. }
    rewrite Hst, !elem_of_difference, (i_leaves _ _ _ _ I n).
    split; [intros [(Hn & Hr & nd & En & E1 & E2) Hnx]|intros ([Hn Hnx] & Hr & nd' & En' & E1 & E2)].
    + split; [done|]. split; [done|]. destruct (old n nd En) as (nd' & En' & _ & _ & _ & El & Ec).
      rewrite decide_False in Ec by done. exists nd'. split; [done|]. split; congruence.
    + split; [|done]. split; [done|]. split; [done|].
      destruct (t_node_any _ _ _ _ _ (i_tree _ _ _ _ I) Hn) as (nd & En).
      destruct (old n nd En) as (nd1 & En1 & _ & _ & _ & El & Ec). rewrite En' in En1. injection En1 as <-.
      rewrite decide_False in Ec by done. exists nd. split; [done|]. split; congruence.
Qed.

Lemma delete_hash : hash_ok P ns' r (T ∖ {[x]}).
Proof using All.
  intros n nd q qd [Hn _]%elem_of_difference Hr Hnok.
  destruct (t_node _ _ _ _ (i_tree _ _ _ _ I) n Hn Hr) as (nd0 & q0 & qd0 & Hok0).
  pose proof (no_node _ _ _ _ _ _ _ _ Hok0) as En0. pose proof (no_pnode _ _ _ _ _ _ _ _ Hok0) as Eq0.
  pose proof (no_node _ _ _ _ _ _ _ _ Hnok) as En. pose proof (no_parent _ _ _ _ _ _ _ _ Hnok) as Epar.
  pose proof (no_pnode _ _ _ _ _ _ _ _ Hnok) as Eq.
  destruct (old n nd0 En0) as (nd' & En' & K1 & K2 & _). rewrite En in En'. injection En' as <-.
  rewrite K1, (no_parent _ _ _ _ _ _ _ _ Hok0) in Epar. injection Epar as <-.
  rewrite (delete_hash_old ps _ _ _ x p xd pd Hok n nd0 nd En0 En), K2. unfold prior.
  rewrite (delete_hash_old ps _ _ _ x p xd pd Hok q0 qd0 qd Eq0 Eq).
  by apply (i_hash _ _ _ _ I n nd0 q0 qd0).
Qed.

Lemma delete_state_inv : Inv P delete_state (T ∖ {[x]}) hs.
Proof using All.
  split; cbn [nodes root_node counter evictable_size_ protected_size_ evictable_leaves delete_state].
  - by apply tree_delete; [apply I|..].
  - intros n nd En. destruct (nodes st !! n) as [nd0|] eqn:E0; [by apply (i_fresh _ _ _ _ I) in E0|].
    unfold delete_map in En. destruct (decide (n = p)) as [->|Hne]; [|rewrite lookup_insert_ne in En; congruence].
    rewrite (no_pnode _ _ _ _ _ _ _ _ Hok) in E0. congruence.
  - exact unheld.
  - exact delete_locks.
  - rewrite delete_sum, (i_evictable _ _ _ _ I). done.
  - rewrite delete_sum, (i_protected _ _ _ _ I). lia.
  - exact delete_leaves.
  - exact delete_hash.
  - destruct (i_root_hash _ _ _ _ I) as (rd & Er & Eh). destruct (old r rd Er) as (rd' & Er' & _).
    exists rd'. split; [done|]. rewrite <- Eh. by apply (delete_hash_old ps _ _ _ x p xd pd Hok r).
Qed.

Lemma delete_leaf_eq : _delete_leaf P x st = Ok delete_state.
Proof using All.
  unfold _delete_leaf. rewrite (get_node_Ok x xd) by apply Hok. cbn [rbind].
  rewrite get_child_key_spec by apply Hok. cbn [rbind]. rewrite (no_parent _ _ _ _ _ _ _ _ Hok).
  rewrite (get_node_Ok p pd) by apply Hok. cbn [rbind default].
  rewrite bool_decide_true by apply Hok. unfold passert.
  assert (En : alter (fun pd => set_children (delete (ck_of ps (key xd)) (children pd)) pd) p (nodes st) = ns').
  { by rewrite (alter_lookup_Some _ _ p pd) by apply Hok. }
  assert (Ht : Tree ps ns' r (T ∖ {[x]})) by (by apply tree_delete; [apply I|..]).
  pose proof (delete_neq ps _ _ _ (i_tree _ _ _ _ I) x p xd pd Hx Hxr Hok Hleaf) as Nxp.
  assert (Hpin : p ∈ T) by apply Hok.
  rewrite (update_leaf_eq P _ r (T ∖ {[x]}) p pd').
  - f_equal. apply cache_eq; try done.
  - simpl. by rewrite En.
  - set_solver.
  - simpl. rewrite En. apply lookup_insert_eq.
  - apply (lock_nonneg P st T hs p pd I Hpin (no_pnode _ _ _ _ _ _ _ _ Hok)).
Qed.

End DeleteLeaf.

End Ops.
End ROps.
