(* ===== verification/RadixLock.v ===== *)
(** Locks of the radix cache: [inc_lock_ref] and [dec_lock_ref].

    The loops walk from a node to the root; after each turn the sizes and the set
    of evictable leaves agree with the locks again ([LInv]), so only the counting
    of the holders has to be redone at the end. *)
From stdpp Require Import base list gmap sets strings.
From Stdlib Require Import ZArith Lia.
From S2P Require Import Prelude RadixCache RadixTree RadixInv.
Local Open Scope nat_scope.

Module RLock.
Import Radix RTree RInv.

Section Locks.
Context {A H : Type} `{Env A H} (P : Params).
#[local] Abbreviation ps := (page_size P).
Implicit Types (st : RadixCache A H) (ns : gmap nat (TreeNode H)) (T : gset nat) (hs l : list nat) (n : nat).

(** What holds between two turns of the loops. *)
Record LInv st T : Prop := {
  li_tree : Tree ps (nodes st) (root_node st) T;
  li_fresh : forall n nd, nodes st !! n = Some nd -> n < counter st;
  li_evictable : evictable_size_ st = sumz (part_len false (nodes st)) (T ∖ {[root_node st]});
  li_protected : protected_size_ st = sumz (part_len true (nodes st)) (T ∖ {[root_node st]});
  li_leaves : leaves_ok (nodes st) (root_node st) T (evictable_leaves st);
  li_hash : hash_ok P (nodes st) (root_node st) T;
  li_root_hash : exists rd, nodes st !! root_node st = Some rd /\ hash_value rd = Some [];
}.

Lemma inv_linv st T hs : Inv P st T hs <->
  LInv st T /\ Forall (fun n => n ∈ T) hs /\ locks_ok (nodes st) (root_node st) T hs.
Proof.
  split.
  - intros []. by split; [split|].
  - intros ([] & ? & ?). by split.
Qed.

(** ** One turn *)

Definition len_if (b : bool) (nd : TreeNode H) : Z := if b then Z.of_nat (key_len (key nd)) else 0%Z.

(** The lock of [n] changes by [d], with the sizes and the leaves. *)
Definition lock_state (d : Z) n (nd : TreeNode H) st : RadixCache A H :=
  let nd' := set_lock (lock_ref nd + d) nd in
  mkCache (<[n := nd']> (nodes st)) (counter st) (ticks st) (root_node st)
    (evictable_size_ st - len_if (lock_ref nd =? 0)%Z nd + len_if (lock_ref nd' =? 0)%Z nd)
    (protected_size_ st + len_if (lock_ref nd =? 0)%Z nd - len_if (lock_ref nd' =? 0)%Z nd)
    (leaf_status nd' n (evictable_leaves st)) (kv_event_queue st) (allocator st).

Section Turn.
Context (st : RadixCache A H) (T : gset nat) (I : LInv st T) (d : Z) (n : nat) (nd : TreeNode H).
Context (Hn : n ∈ T) (Hr : n <> root_node st) (En : nodes st !! n = Some nd) (Hl : (0 <= lock_ref nd + d)%Z).
#[local] Abbreviation st' := (lock_state d n nd st).
#[local] Abbreviation r := (root_node st).

(** Everything but the lock stays. *)
Lemma turn_old q qd : nodes st !! q = Some qd -> exists qd', nodes st' !! q = Some qd' /\
  children qd' = children qd /\ parent qd' = parent qd /\ key qd' = key qd /\ value qd' = value qd /\
  hash_value qd' = hash_value qd /\ lock_ref qd' = if decide (q = n) then (lock_ref qd + d)%Z else lock_ref qd.
Proof using En.
  intros Eq. simpl. destruct (decide (q = n)) as [->|Hne].
  - rewrite lookup_insert_eq. simplify_eq. by eexists.
  - rewrite lookup_insert_ne by done. by exists qd.
Qed.

Lemma turn_back q qd' : nodes st' !! q = Some qd' -> exists qd, nodes st !! q = Some qd.
Proof using En.
  simpl. destruct (decide (q = n)) as [->|Hne]; [by exists nd|]. rewrite lookup_insert_ne by done. by eexists.
Qed.

Lemma turn_tree : Tree ps (nodes st') r T.
Proof using All.
  pose proof (li_tree _ _ I) as Ht. split; [apply Ht| | | |].
  - destruct (t_root _ _ _ _ Ht) as (rd & Er & E1 & E2 & E3 & E4).
    destruct (turn_old r rd Er) as (rd' & Er' & _ & K2 & K3 & K4 & _ & K6). rewrite decide_False in K6 by done.
    exists rd'. rewrite K2, K3, K4, K6. done.
  - intros m Hm Hmr. destruct (t_node _ _ _ _ Ht m Hm Hmr) as (md & p & pd & [N1 N2 N3 N4 N5 N6 N7 N8 N9]).
    destruct (turn_old m md N1) as (md' & Em & _ & K2 & K3 & K4 & _).
    destruct (turn_old p pd N6) as (pd' & Ep & Q1 & _ & Q3 & _). exists md', p, pd'.
    split; rewrite ?K2, ?K3, ?K4, ?Q1, ?Q3; done.
  - intros m md' ck c Hm Em Ec. destruct (turn_back m md' Em) as (md & Em0).
    destruct (turn_old m md Em0) as (md1 & Em1 & K1 & _). rewrite Em in Em1. injection Em1 as <-. rewrite K1 in Ec.
    destruct (t_kids _ _ _ _ Ht m md ck c Hm Em0 Ec) as (C1 & C2 & cd & C3 & C4 & C5).
    destruct (turn_old c cd C3) as (cd' & Ec' & _ & Q2 & Q3 & _).
    split; [done|]. split; [done|]. exists cd'. by rewrite Q2, Q3.
  - destruct (t_rank _ _ _ _ Ht) as (rk & Hrk). exists rk. intros m md' p Hm Em Ep.
    destruct (turn_back m md' Em) as (md & Em0). destruct (turn_old m md Em0) as (md1 & Em1 & _ & K2 & _).
    rewrite Em in Em1. injection Em1 as <-. apply (Hrk m md); congruence.
Qed.

Lemma turn_sum b : sumz (part_len b (nodes st')) (T ∖ {[r]})
  = (sumz (part_len b (nodes st)) (T ∖ {[r]}) - len_if (Bool.eqb b (negb (lock_ref nd =? 0)%Z)) nd
     + len_if (Bool.eqb b (negb (lock_ref nd + d =? 0)%Z)) nd)%Z.
Proof using All.
  rewrite (sumz_alter (part_len b (nodes st)) _ _ n).
  - unfold part_len, len_if. simpl. rewrite lookup_insert_eq, En. done.
  - set_solver.
  - intros m _ Hm. unfold part_len. simpl. by rewrite lookup_insert_ne.
Qed.

Lemma turn_leaves : leaves_ok (nodes st') r T (evictable_leaves st').
Proof using All.
  intros m. simpl evictable_leaves. destruct (decide (m = n)) as [->|Hne].
  - destruct (turn_old n nd En) as (nd' & En' & _). simpl in En'. rewrite lookup_insert_eq in En'. injection En' as <-.
    unfold leaf_status. simpl lock_ref. simpl children. destruct ((lock_ref nd + d =? 0)%Z && bool_decide _) eqn:E.
    + apply andb_true_iff in E as [E1%Z.eqb_eq E2%bool_decide_eq_true]. split; [|set_solver]. intros _.
      split; [done|]. split; [done|]. eexists. split; [apply lookup_insert_eq|]. done.
    + split; [set_solver|]. intros (_ & _ & nd' & En' & E1 & E2). simpl in En'. rewrite lookup_insert_eq in En'.
      injection En' as <-. simpl in E1, E2. rewrite E1, E2, bool_decide_true in E; done.
  - assert (Hs : m ∈ leaf_status (set_lock (lock_ref nd + d) nd) n (evictable_leaves st) <-> m ∈ evictable_leaves st).
    { unfold leaf_status. destruct (_ && _); set_solver. }
    rewrite Hs, (li_leaves _ _ I m). simpl. by rewrite lookup_insert_ne.
Qed.

Lemma turn_inv : LInv st' T.
Proof using All.
  split; cbn [root_node lock_state].
  - exact turn_tree.
  - intros m md Em. destruct (turn_back m md Em) as (md0 & Em0). by apply (li_fresh _ _ I) in Em0.
  - rewrite turn_sum. simpl. rewrite (li_evictable _ _ I). by destruct (lock_ref nd =? 0)%Z, (lock_ref nd + d =? 0)%Z.
  - rewrite turn_sum. simpl. rewrite (li_protected _ _ I). unfold len_if.
    destruct (lock_ref nd =? 0)%Z, (lock_ref nd + d =? 0)%Z; simpl; lia.
  - exact turn_leaves.
  - intros m md p pd Hm Hmr [N1 N2 N3 N4 N5 N6 N7 N8 N9].
    destruct (turn_back m md N1) as (md0 & Em). destruct (turn_back p pd N6) as (pd0 & Ep).
    destruct (turn_old m md0 Em) as (m1 & E1 & K1 & K2 & K3 & K4 & K5 & _). rewrite N1 in E1. injection E1 as <-.
    destruct (turn_old p pd0 Ep) as (p1 & E1 & Q1 & Q2 & Q3 & Q4 & Q5 & _). rewrite N6 in E1. injection E1 as <-.
    unfold prior. rewrite K3, K5, Q5. apply (li_hash _ _ I m md0 p pd0); [done|done|].
    split; rewrite <- ?K1, <- ?K2, <- ?K3, <- ?K4, <- ?Q1, <- ?Q3; done.
  - destruct (li_root_hash _ _ I) as (rd & Er & Eh). destruct (turn_old r rd Er) as (rd' & Er' & _ & _ & _ & _ & K5 & _).
    exists rd'. split; [done|]. congruence.
Qed.

Lemma turn_chain q l : chain (nodes st) r q l -> chain (nodes st') r q l.
Proof using En.
  intros Hc. apply (chain_ext (nodes st)); [done|]. intros m md _ Em.
  destruct (turn_old m md Em) as (md' & ? & _ & ? & _). by exists md'.
Qed.

(** The body of the loops computes this state. *)
Lemma turn_eq st1 : nodes st1 = nodes st -> root_node st1 = r -> counter st1 = counter st -> ticks st1 = ticks st ->
  evictable_leaves st1 = evictable_leaves st -> kv_event_queue st1 = kv_event_queue st -> allocator st1 = allocator st ->
  evictable_size_ st1 = evictable_size_ st' -> protected_size_ st1 = protected_size_ st' ->
  _update_leaf_status n (update (fun nd => set_lock (lock_ref nd + d) nd) n st1) = Ok st'.
Proof using All.
  intros E1 E2 E3 E4 E5 E6 E7 E8 E9.
  assert (Ens : nodes (update (fun nd => set_lock (lock_ref nd + d) nd) n st1) = nodes st').
  { rewrite nodes_update, E1, (alter_lookup_Some _ _ n nd) by done. done. }
  rewrite (update_leaf_eq P _ r T n (set_lock (lock_ref nd + d) nd)).
  - f_equal. apply cache_eq; try done. simpl. by rewrite E5.
  - rewrite Ens. exact turn_tree.
  - done.
  - rewrite Ens. apply lookup_insert_eq.
  - done.
Qed.

End Turn.

(** ** The loops *)

(** Along [l] every lock changed by [d]. *)
Definition bumped (d : Z) l ns ns' : Prop :=
  forall q, ns' !! q = (fun qd => if decide (q ∈ l) then set_lock (lock_ref qd + d) qd else qd) <$> ns !! q.

Lemma bumped_nil d ns : bumped d [] ns ns.
Proof.
  intros q. destruct (ns !! q) as [qd|]; [|done].
  change (Some qd = Some (if decide (q ∈ []) then set_lock (lock_ref qd + d) qd else qd)).
  rewrite decide_False; [done|]. apply not_elem_of_nil.
Qed.

Lemma bumped_cons d n nd l st st' : n ∉ l -> nodes st !! n = Some nd ->
  bumped d l (nodes (lock_state d n nd st)) (nodes st') -> bumped d (n :: l) (nodes st) (nodes st').
Proof.
  intros Hn En Hb q. rewrite Hb. simpl. destruct (decide (q = n)) as [->|Hne].
  - rewrite lookup_insert_eq, En. simpl. rewrite decide_False by done. by rewrite decide_True by (by left).
  - rewrite lookup_insert_ne by done. destruct (nodes st !! q); simpl; [|done]. f_equal.
    destruct (decide (q ∈ l)); [by rewrite decide_True by (by right)|].
    rewrite decide_False; [done|]. by intros [->|?]%elem_of_cons.
Qed.

(** The part of the state that locks leave alone. *)
Definition lock_frame st st' : Prop :=
  root_node st' = root_node st /\ counter st' = counter st /\ ticks st' = ticks st /\
  kv_event_queue st' = kv_event_queue st /\ allocator st' = allocator st.

Lemma chain_in st T n l : LInv st T -> n ∈ T -> chain (nodes st) (root_node st) n l ->
  (forall m, m ∈ l -> m ∈ T /\ m <> root_node st) /\ NoDup l.
Proof.
  intros I Hn Hc. destruct (chain_exists ps _ _ _ n (li_tree _ _ I) Hn) as (l' & Hc' & H1 & H2).
  by rewrite (chain_fun _ _ _ _ _ Hc Hc').
Qed.

Lemma inc_loop_spec fuel n l delta st T : LInv st T -> n ∈ T -> chain (nodes st) (root_node st) n l ->
  length l <= fuel ->
  (forall m md, m ∈ l -> nodes st !! m = Some md -> (0 <= lock_ref md)%Z) ->
  exists st', inc_loop fuel (Some n) delta st = Ok ((delta + (evictable_size_ st' - evictable_size_ st))%Z, st') /\
    LInv st' T /\ bumped 1 l (nodes st) (nodes st') /\ lock_frame st st'.
Proof.
  intros I Hn Hc. revert fuel n delta st I Hn Hc.
  induction l as [|m l IH]; intros fuel n delta st I Hn Hc Hf Hpos; inversion Hc as [|? nd p ? Hr En Ep Hc']; simplify_eq.
  - exists st. split; [|split; [done|]; split; [apply bumped_nil|done]].
    destruct fuel; simpl; rewrite decide_True by done; do 2 f_equal; lia.
  - destruct (chain_in st T m (m :: l) I Hn Hc) as [Hin [Hml _]%NoDup_cons].
    destruct fuel as [|fuel]; [simpl in Hf; lia|]. cbn [inc_loop]. rewrite decide_False by congruence.
    rewrite (get_node_Ok m nd) by done. cbn [rbind default]. specialize (Hpos m nd ltac:(by left) En) as Hl.
    assert (Eev : evictable_size_ (lock_state 1 m nd st)
      = (evictable_size_ st - len_if (lock_ref nd =? 0)%Z nd)%Z).
    { simpl. rewrite (proj2 (Z.eqb_neq (lock_ref nd + 1) 0)) by lia. simpl. lia. }
    assert (Epr : protected_size_ (lock_state 1 m nd st)
      = (protected_size_ st + len_if (lock_ref nd =? 0)%Z nd)%Z).
    { simpl. rewrite (proj2 (Z.eqb_neq (lock_ref nd + 1) 0)) by lia. simpl. lia. }
    set (s1 := if (lock_ref nd =? 0)%Z then _ else (delta, st)).
    assert (Es1 : s1 = ((delta - len_if (lock_ref nd =? 0)%Z nd)%Z,
      with_sizes (evictable_size_ (lock_state 1 m nd st)) (protected_size_ (lock_state 1 m nd st)) st)).
    { rewrite Eev, Epr. unfold s1, len_if. destruct (lock_ref nd =? 0)%Z; [done|].
      f_equal; [lia|]. apply cache_eq; simpl; (done || lia). }
    rewrite Es1. rewrite (turn_eq st T I 1 m nd) by (done || lia). cbn [rbind]. rewrite Ep.
    pose proof (turn_inv st T I 1 m nd Hn Hr En ltac:(lia)) as I'.
    destruct (IH fuel p (delta - len_if (lock_ref nd =? 0)%Z nd)%Z (lock_state 1 m nd st) I') as (st' & Est & I2 & Hb & Hfr).
    + by apply (t_parent_in ps _ _ _ _ _ _ (li_tree _ _ I) Hn En).
    + exact (turn_chain st 1 m nd En p l Hc').
    + simpl in Hf. lia.
    + intros q qd Hq Eq. assert (Hqm : q <> m) by (by intros ->). simpl in Eq. rewrite lookup_insert_ne in Eq by done.
      apply (Hpos q qd); [by right|done].
    + exists st'. rewrite Est. split; [do 2 f_equal; rewrite Eev; lia|]. split; [done|].
      split; [by eapply bumped_cons|exact Hfr].
Qed.

Lemma dec_loop_spec fuel n l delta st T : LInv st T -> n ∈ T -> chain (nodes st) (root_node st) n l ->
  length l <= fuel ->
  (forall m md, m ∈ l -> nodes st !! m = Some md -> (1 <= lock_ref md)%Z) ->
  exists st', dec_loop fuel (Some n) delta st = Ok ((delta + (evictable_size_ st' - evictable_size_ st))%Z, st') /\
    LInv st' T /\ bumped (-1) l (nodes st) (nodes st') /\ lock_frame st st'.
Proof.
  intros I Hn Hc. revert fuel n delta st I Hn Hc.
  induction l as [|m l IH]; intros fuel n delta st I Hn Hc Hf Hpos; inversion Hc as [|? nd p ? Hr En Ep Hc']; simplify_eq.
  - exists st. split; [|split; [done|]; split; [apply bumped_nil|done]].
    destruct fuel; simpl; rewrite decide_True by done; do 2 f_equal; lia.
  - destruct (chain_in st T m (m :: l) I Hn Hc) as [Hin [Hml _]%NoDup_cons].
    destruct fuel as [|fuel]; [simpl in Hf; lia|]. cbn [dec_loop]. rewrite decide_False by congruence.
    rewrite (get_node_Ok m nd) by done. cbn [rbind default]. specialize (Hpos m nd ltac:(by left) En) as Hl.
    assert (Eb : (lock_ref nd + -1 =? 0)%Z = (lock_ref nd =? 1)%Z).
    { destruct (Z.eqb_spec (lock_ref nd + -1) 0), (Z.eqb_spec (lock_ref nd) 1); (done || lia). }
    assert (Eev : evictable_size_ (lock_state (-1) m nd st)
      = (evictable_size_ st + len_if (lock_ref nd =? 1)%Z nd)%Z).
    { simpl. rewrite Eb, (proj2 (Z.eqb_neq (lock_ref nd) 0)) by lia. simpl. lia. }
    assert (Epr : protected_size_ (lock_state (-1) m nd st)
      = (protected_size_ st - len_if (lock_ref nd =? 1)%Z nd)%Z).
    { simpl. rewrite Eb, (proj2 (Z.eqb_neq (lock_ref nd) 0)) by lia. simpl. lia. }
    set (s1 := if (lock_ref nd =? 1)%Z then _ else (delta, st)).
    assert (Es1 : s1 = ((delta + len_if (lock_ref nd =? 1)%Z nd)%Z,
      with_sizes (evictable_size_ (lock_state (-1) m nd st)) (protected_size_ (lock_state (-1) m nd st)) st)).
    { rewrite Eev, Epr. unfold s1, len_if. destruct (lock_ref nd =? 1)%Z; [done|].
      f_equal; [lia|]. apply cache_eq; simpl; (done || lia). }
    rewrite Es1.
    change (fun nd0 : TreeNode H => set_lock (lock_ref nd0 - 1) nd0)
      with (fun nd0 : TreeNode H => set_lock (lock_ref nd0 + -1) nd0).
    rewrite (turn_eq st T I (-1) m nd) by (done || lia). cbn [rbind]. rewrite Ep. unfold passert.
    pose proof (turn_inv st T I (-1) m nd Hn Hr En ltac:(lia)) as I'.
    destruct (IH fuel p (delta + len_if (lock_ref nd =? 1)%Z nd)%Z (lock_state (-1) m nd st) I') as (st' & Est & I2 & Hb & Hfr).
    + by apply (t_parent_in ps _ _ _ _ _ _ (li_tree _ _ I) Hn En).
    + exact (turn_chain st (-1) m nd En p l Hc').
    + simpl in Hf. lia.
    + intros q qd Hq Eq. assert (Hqm : q <> m) by (by intros ->). simpl in Eq. rewrite lookup_insert_ne in Eq by done.
      apply (Hpos q qd); [by right|done].
    + exists st'. rewrite Est. split; [do 2 f_equal; rewrite Eev; lia|]. split; [done|].
      split; [by eapply bumped_cons|exact Hfr].
Qed.

(** ** The operations *)

Lemma length_le_size {V} (m : gmap nat V) l : NoDup l -> (forall x, x ∈ l -> is_Some (m !! x)) -> length l <= size m.
Proof.
  intros Hd Hin. rewrite <- size_dom. rewrite <- (size_list_to_set (C := gset nat) l) by done.
  apply subseteq_size. intros x Hx%elem_of_list_to_set. by apply elem_of_dom, Hin.
Qed.

Lemma holders_cons l ch n : holders (l :: ch) n = ((if decide (n ∈ l) then 1 else 0) + holders ch n)%Z.
Proof. unfold holders. rewrite filter_cons. destruct (decide (n ∈ l)); simpl; lia. Qed.

Lemma bumped_lookup d l ns ns' q qd' : bumped d l ns ns' -> ns' !! q = Some qd' ->
  exists qd, ns !! q = Some qd /\ lock_ref qd' = (lock_ref qd + if decide (q ∈ l) then d else 0)%Z.
Proof.
  intros Hb Eq. rewrite Hb in Eq. apply fmap_Some in Eq as (qd & Eq & ->). exists qd. split; [done|].
  destruct (decide (q ∈ l)); simpl; lia.
Qed.

Lemma bumped_chain d l ns ns' r q l' : bumped d l ns ns' -> chain ns r q l' -> chain ns' r q l'.
Proof.
  intros Hb Hc. apply (chain_ext ns); [done|]. intros m md _ Em. specialize (Hb m). rewrite Em in Hb. simpl in Hb.
  eexists. split; [exact Hb|]. by destruct (decide (m ∈ l)).
Qed.

Lemma inc_lock_spec st T hs n : disable P = false -> Inv P st T hs -> n ∈ T ->
  exists st' l, inc_lock_ref P (Some n) st = Ok ((evictable_size_ st' - evictable_size_ st)%Z, st') /\
    Inv P st' T (n :: hs) /\ chain (nodes st) (root_node st) n l /\
    bumped 1 l (nodes st) (nodes st') /\ lock_frame st st'.
Proof.
  intros Hd I Hn. pose proof (proj1 (inv_linv st T hs) I) as (LI & Hh & (ch & Hch & Hl)).
  destruct (chain_exists ps _ _ _ n (li_tree _ _ LI) Hn) as (l & Hc & Hin & Hnd).
  destruct (inc_loop_spec (S (size (nodes st))) n l 0 st T LI Hn Hc) as (st' & E & LI' & Hb & Hfr).
  - apply Nat.le_le_succ_r. apply length_le_size; [done|]. intros x [Hx _]%Hin.
    destruct (t_node_any ps _ _ _ _ (li_tree _ _ LI) Hx) as (xd & ->). by eexists.
  - intros m md [Hm _]%Hin. by apply (lock_nonneg P st T hs).
  - exists st', l. unfold inc_lock_ref. rewrite Hd, E. split; [done|]. split; [|done].
    apply inv_linv. split; [done|]. split; [by constructor|]. destruct Hfr as (Er & _). rewrite Er.
    exists (l :: ch). split.
    + constructor; [by eapply bumped_chain|]. eapply Forall2_impl; [exact Hch|]. intros q l'. by eapply bumped_chain.
    + intros q qd' Hq Hr Eq. destruct (bumped_lookup _ _ _ _ _ _ Hb Eq) as (qd & Eq0 & ->).
      rewrite holders_cons, (Hl q qd) by done. destruct (decide (q ∈ l)); lia.
Qed.

Lemma dec_lock_spec st T hs n : disable P = false -> Inv P st T (n :: hs) ->
  exists st' l, dec_lock_ref P (Some n) st = Ok ((evictable_size_ st' - evictable_size_ st)%Z, st') /\
    Inv P st' T hs /\ chain (nodes st) (root_node st) n l /\
    bumped (-1) l (nodes st) (nodes st') /\ lock_frame st st'.
Proof.
  intros Hd I. pose proof (proj1 (inv_linv st T (n :: hs)) I) as (LI & [Hn Hh]%Forall_cons & (ch0 & Hch0 & Hl)).
  inversion Hch0 as [|? l ? ch Hc Hch]; subst.
  destruct (chain_in st T n l LI Hn Hc) as (Hin & Hnd).
  destruct (dec_loop_spec (S (size (nodes st))) n l 0 st T LI Hn Hc) as (st' & E & LI' & Hb & Hfr).
  - apply Nat.le_le_succ_r. apply length_le_size; [done|]. intros x [Hx _]%Hin.
    destruct (t_node_any ps _ _ _ _ (li_tree _ _ LI) Hx) as (xd & ->). by eexists.
  - intros m md Hm Em. destruct (Hin m Hm) as [HmT Hmr]. rewrite (Hl m md HmT Hmr Em), holders_cons, decide_True by done.
    unfold holders. lia.
  - exists st', l. unfold dec_lock_ref. rewrite Hd, E. split; [done|]. split; [|done].
    apply inv_linv. split; [done|]. split; [done|]. destruct Hfr as (Er & _). rewrite Er. exists ch. split.
    + eapply Forall2_impl; [exact Hch|]. intros q l'. by eapply bumped_chain.
    + intros q qd' Hq Hr Eq. destruct (bumped_lookup _ _ _ _ _ _ Hb Eq) as (qd & Eq0 & ->).
      rewrite (Hl q qd), holders_cons by done. destruct (decide (q ∈ l)); lia.
Qed.

(** The order of the holders does not matter. *)
Lemma inv_perm st T hs hs' : hs ≡ₚ hs' -> Inv P st T hs -> Inv P st T hs'.
Proof.
  intros Hp I. apply inv_linv in I as (LI & Hh & (ch & Hch & Hl)). apply inv_linv. split; [done|].
  split; [by rewrite <- Hp|].
  assert (exists ch', Forall2 (chain (nodes st) (root_node st)) hs' ch' /\ ch ≡ₚ ch') as (ch' & Hch' & Hpc).
  { clear Hl Hh. revert ch Hch. induction Hp as [|x l l' _ IH|x y l|l1 l2 l3 _ IH1 _ IH2]; intros ch Hch.
    - inversion Hch; subst. by exists [].
    - inversion Hch as [|? a ? b H1 H2]; subst. destruct (IH b H2) as (b' & H3 & H4). exists (a :: b').
      split; [by constructor|]. by rewrite H4.
    - inversion Hch as [|? a ? b H1 H2]; subst. inversion H2 as [|? a' ? b' H3 H4]; subst.
      exists (a' :: a :: b'). split; [by repeat constructor|]. apply perm_swap.
    - destruct (IH1 ch Hch) as (c1 & H1 & H2). destruct (IH2 c1 H1) as (c2 & H3 & H4).
      exists c2. split; [done|]. by rewrite H2. }
  exists ch'. split; [done|]. intros n nd Hn Hr En. rewrite (Hl n nd Hn Hr En). unfold holders. by rewrite Hpc.
Qed.

(** Leaves are determined by the nodes. *)
Lemma leaves_unique ns r T ls ls' : leaves_ok ns r T ls -> leaves_ok ns r T ls' -> ls = ls'.
Proof. intros H1 H2. apply set_eq. intros n. by rewrite (H1 n), (H2 n). Qed.

Lemma bumped_back l ns ns1 ns2 : bumped 1 l ns ns1 -> bumped (-1) l ns1 ns2 -> ns2 = ns.
Proof.
  intros B1 B2. apply map_eq. intros q. rewrite B2, B1. destruct (ns !! q) as [qd|]; [|done]. simpl. f_equal.
  destruct (decide (q ∈ l)); [|done]. destruct qd. unfold set_lock. simpl. f_equal. lia.
Qed.

(** Unlocking undoes locking, exactly. *)
Lemma lock_unlock st T hs n : disable P = false -> Inv P st T hs -> n ∈ T ->
  exists d st1, inc_lock_ref P (Some n) st = Ok (d, st1) /\ Inv P st1 T (n :: hs) /\
    dec_lock_ref P (Some n) st1 = Ok ((- d)%Z, st).
Proof.
  intros Hd I Hn. destruct (inc_lock_spec st T hs n Hd I Hn) as (st1 & l & E1 & I1 & Hc & B1 & F1).
  destruct (dec_lock_spec st1 T hs n Hd I1) as (st2 & l2 & E2 & I2 & Hc2 & B2 & F2).
  destruct F1 as (R1 & C1 & T1 & K1 & A1), F2 as (R2 & C2 & T2 & K2 & A2).
  rewrite R1 in Hc2. pose proof (bumped_chain _ _ _ _ _ _ _ B1 Hc) as Hc1.
  rewrite (chain_fun _ _ _ _ _ Hc2 Hc1) in B2. pose proof (bumped_back _ _ _ _ B1 B2) as En.
  assert (Est : st2 = st).
  { apply cache_eq; try congruence.
    - rewrite (i_evictable _ _ _ _ I2), (i_evictable _ _ _ _ I). congruence.
    - rewrite (i_protected _ _ _ _ I2), (i_protected _ _ _ _ I). congruence.
    - apply (leaves_unique (nodes st) (root_node st) T); [|apply I].
      rewrite <- En, <- R1, <- R2. apply I2. }
  subst st2. exists (evictable_size_ st1 - evictable_size_ st)%Z, st1. split; [done|]. split; [done|].
  rewrite E2. do 2 f_equal. lia.
Qed.

End Locks.
End RLock.
