(* ===== verification/RadixMatch.v ===== *)
(** Lookup and insertion in the radix cache.

    [match_prefix] returns the indices of the longest cached page-aligned prefix
    and does not change what is cached; [insert] adds exactly the prefixes of its
    key, keeping the indices of the part that was there before. *)
From stdpp Require Import base list gmap sets strings.
From Stdlib Require Import ZArith Lia.
From S2P Require Import Prelude RadixCache RadixTree RadixPath RadixInv RadixOps.
Local Open Scope nat_scope.

Module RMatch.
Import Radix RTree RPath RInv ROps.

Section Match.
Context {A H : Type} `{Env A H} (P : Params) (Hps : 0 < page_size P).
#[local] Abbreviation ps := (page_size P).
Implicit Types (st : RadixCache A H) (T : gset nat) (hs : list nat) (n : nat) (k : RadixKey).
Implicit Types (e : option string) (ts : list tokid) (vs : list Z).

(** The content of the cache. *)
Definition cached st e ts vs : Prop := Cached ps (nodes st) (root_node st) e ts vs.

(** What reading changes: nodes may be split, and everything that could be read
    before can still be read. *)
Record Refines st T st' T' : Prop := {
  rf_root : root_node st' = root_node st;
  rf_sub : forall e n ts vs n', n ∈ T -> sub (nodes st) e n ts vs n' -> sub (nodes st') e n ts vs n';
  rf_nodes : T ⊆ T';
  rf_cached : forall e ts vs, cached st e ts vs <-> cached st' e ts vs;
  rf_evictable : evictable_size_ st' = evictable_size_ st;
  rf_protected : protected_size_ st' = protected_size_ st;
  rf_leaves : evictable_leaves st' = evictable_leaves st;
  rf_events : kv_event_queue st' = kv_event_queue st;
  rf_alloc : allocator st' = allocator st;
  rf_counter : counter st <= counter st';
  rf_slots : slots (nodes st') T' ≡ₚ slots (nodes st) T;
}.

Lemma refines_refl st T : Refines st T st T.
Proof using. by split. Qed.

Lemma refines_trans st T st1 T1 st2 T2 : Refines st T st1 T1 -> Refines st1 T1 st2 T2 -> Refines st T st2 T2.
Proof.
  clear Hps. intros [A1 A2 A3 A4 A5 A6 A7 A8 A9 A10 A11] [B1 B2 B3 B4 B5 B6 B7 B8 B9 B10 B11]. split; try congruence.
  - intros e n ts vs n' Hn Hs. apply B2; [set_solver|]. by apply A2.
  - set_solver.
  - intros e ts vs. by rewrite A4.
  - by etransitivity.
  - by rewrite B11.
Qed.

(** Metadata of nodes. *)
Lemma refines_same st st' T : same_core (nodes st) (nodes st') -> root_node st' = root_node st ->
  evictable_size_ st' = evictable_size_ st -> protected_size_ st' = protected_size_ st ->
  evictable_leaves st' = evictable_leaves st -> kv_event_queue st' = kv_event_queue st ->
  allocator st' = allocator st -> counter st <= counter st' -> Refines st T st' T.
Proof.
  clear Hps. intros E Er. split; try done.
  - intros e n ts vs n' _. by apply sub_same.
  - intros e ts vs. unfold cached. rewrite Er. by apply cached_same.
  - by rewrite (slots_same (nodes st) (nodes st')).
Qed.

Lemma refines_update st T f n : (forall nd, core (f nd) = core nd) -> Refines st T (update f n st) T.
Proof. clear Hps. intros Hf. apply refines_same; try done. by apply same_core_alter. Qed.

Lemma refines_split st T hs c m cd pd p v : Inv P st T hs -> c ∈ T -> c <> root_node st ->
  node_ok ps (nodes st) (root_node st) T c cd p pd -> 0 < m < key_len (key cd) -> (ps | m) -> value cd = Some v ->
  Refines st T (split_state P st c m cd pd p v) (T ∪ {[counter st]}).
Proof.
  intros I Hc Hcr Hok Hm Hpg Hv. pose proof (split_fresh P st T hs I) as Hf.
  split; try done; cbn [nodes root_node split_state counter]; [|set_solver| |lia|].
  - intros e n ts vs n' Hn Hs. by apply (split_sub ps _ _ T (i_tree _ _ _ _ I) Hps).
  - intros e ts vs. unfold cached. cbn [nodes root_node split_state].
    by apply (split_cached ps _ _ T (i_tree _ _ _ _ I) Hps).
  - by apply (split_slots P st T hs).
Qed.

(** ** One step down *)

Section Step.
Context (st : RadixCache A H) (T : gset nat) (hs : list nat) (I : Inv P st T hs).
Context (e : option string) (n : nat) (nd : TreeNode H) (ts : list tokid) (vs : list Z) (k : RadixKey).
Context (Hn : n ∈ T) (En : nodes st !! n = Some nd) (Hs : sub (nodes st) e (root_node st) ts vs n).
Context (Ke : extra_key k = e) (Kne : token_ids k <> []) (Kal : aligned ps (token_ids k)).

Lemma kid_step child : children nd !! ck_of ps k = Some child ->
  exists cd v m, nodes st !! child = Some cd /\ child ∈ T /\ child <> root_node st /\
    node_ok ps (nodes st) (root_node st) T child cd n nd /\ extra_key (key cd) = e /\ value cd = Some v /\
    length v = key_len (key cd) /\ key_match_fn ps (key cd) k = Ok m /\
    is_match ps (token_ids (key cd)) (token_ids k) m /\ ps <= m.
Proof using All.
  intros Ec. pose proof (i_tree _ _ _ _ I) as Ht.
  destruct (t_kids _ _ _ _ Ht n nd _ child Hn En Ec) as (C1 & C2 & cd & C3 & C4 & C5).
  destruct (kid_node ps _ _ _ Ht n nd _ child cd Hn En Ec C3) as (_ & _ & K & _).
  destruct (no_value _ _ _ _ _ _ _ _ K) as (v & Ev & Lv). injection C5 as Ex Et.
  destruct (key_match_spec ps (key cd) k Hps) as (m & Em & Hm); [apply K|done|congruence|].
  exists cd, v, m. split; [done|]. split; [done|]. split; [done|]. split; [done|]. split; [congruence|].
  split; [done|]. split; [done|]. split; [done|]. split; [done|].
  apply (match_pos ps (key cd) k); try done; try apply K. unfold ck_of. by rewrite Ex, Et.
Qed.

(** The node one step further. *)
Lemma step_sub child cd v : children nd !! ck_of ps k = Some child -> nodes st !! child = Some cd ->
  extra_key (key cd) = e -> value cd = Some v ->
  sub (nodes st) e (root_node st) (ts ++ token_ids (key cd)) (vs ++ v) child.
Proof using En Hs.
  intros E1 E2 E3 E4. apply (sub_app _ _ _ _ _ n); [done|].
  rewrite <- (app_nil_r (token_ids _)), <- (app_nil_r v).
  by apply (sub_cons _ _ n nd (ck_of ps k) child cd v); [..|constructor].
Qed.

(** Anything cached beyond [ts] continues in the child of [n] for [k]. *)
Lemma beyond j w : (ps | j) -> length ts < j <= length ts + key_len k ->
  cached st e (take j (ts ++ token_ids k)) w ->
  exists child cd, children nd !! ck_of ps k = Some child /\ nodes st !! child = Some cd /\
    forall i, i <= j - length ts -> i <= key_len (key cd) -> take i (token_ids k) = take i (token_ids (key cd)).
Proof using All.
  intros Hj Hlt (_ & n2 & ts2 & vs2 & S2 & Hpre & _). pose proof (i_tree _ _ _ _ I) as Ht.
  pose proof (t_root_in _ _ _ _ Ht) as Hr. unfold key_len in Hlt.
  rewrite take_app_ge in Hpre by lia.
  assert (Hpts : ts `prefix_of` ts2) by (etransitivity; [|exact Hpre]; by apply prefix_app_r).
  destruct (sub_descend ps _ _ _ Ht Hps e _ ts vs n ts2 vs2 n2 Hr Hs S2 Hpts) as (ts3 & vs3 & -> & -> & S3).
  apply prefix_app_inv in Hpre. destruct (sub_in ps _ _ _ Ht _ _ _ _ _ Hs Hr) as (_ & _ & Hal).
  assert (Hjp : ps <= j - length ts).
  { apply Nat.divide_pos_le; [lia|]. apply Nat.divide_sub_r; [done|exact Hal]. }
  assert (Hag : forall i, i <= j - length ts -> take i (token_ids k) = take i ts3).
  { intros i Hi. destruct Hpre as [u ->]. rewrite take_app_le by (rewrite length_take; lia).
    rewrite take_take, Nat.min_l by lia. done. }
  inversion S3 as [|? nd' ck c cd v ts4 vs4 ? F1 F2 F3 F4 F5 S4]; subst.
  { specialize (Hag 1 ltac:(lia)). destruct (token_ids k); [done|discriminate]. }
  rewrite En in F1. injection F1 as <-. destruct (kid_node ps _ _ _ Ht n nd ck c cd Hn En F2 F3) as (_ & _ & K & Eck).
  assert (Hcl : ps <= length (token_ids (key cd))) by (apply aligned_ge; apply K).
  exists c, cd. split.
  - rewrite <- F2. f_equal. rewrite Eck. unfold ck_of. f_equal; [congruence|].
    rewrite Hag by lia. by rewrite take_app_le.
  - split; [done|]. intros i Hi1 Hi2. rewrite Hag by done. by rewrite take_app_le.
Qed.

Lemma max_none : children nd !! ck_of ps k = None ->
  forall j w, (ps | j) -> length ts < j <= length ts + key_len k -> ~ cached st e (take j (ts ++ token_ids k)) w.
Proof using All. intros Hno j w Hj Hlt Hc. destruct (beyond j w Hj Hlt Hc) as (c & cd & E & _). congruence. Qed.

Lemma max_partial child cd m : children nd !! ck_of ps k = Some child -> nodes st !! child = Some cd ->
  is_match ps (token_ids (key cd)) (token_ids k) m -> m < key_len (key cd) -> aligned ps (token_ids (key cd)) ->
  forall j w, (ps | j) -> length ts + m < j <= length ts + key_len k -> ~ cached st e (take j (ts ++ token_ids k)) w.
Proof using All.
  intros Ec Ecd Hm Hlt Hal j w Hj Hjl Hc. destruct (beyond j w Hj ltac:(lia) Hc) as (c & cd' & E1 & E2 & Hag).
  rewrite Ec in E1. injection E1 as <-. rewrite Ecd in E2. injection E2 as <-.
  pose proof (i_tree _ _ _ _ I) as Ht.
  destruct (sub_in ps _ _ _ Ht _ _ _ _ _ Hs (t_root_in _ _ _ _ Ht)) as (_ & _ & Halt).
  unfold key_len in *. set (i := Nat.min (j - length ts) (length (token_ids (key cd)))).
  assert (i <= m); [|lia]. apply Hm; [|lia|lia|symmetry; apply Hag; lia].
  unfold i. destruct (Nat.min_spec (j - length ts) (length (token_ids (key cd)))) as [[_ ->]|[_ ->]]; [|exact Hal].
  apply Nat.divide_sub_r; [done|exact Halt].
Qed.

End Step.

(** ** [match_prefix] *)

Lemma cat_values_snoc acc vs v : cat_values acc = Ok vs -> cat_values (acc ++ [Some v]) = Ok (vs ++ v).
Proof.
  revert vs. induction acc as [|a acc IH]; simpl; intros vs E.
  - injection E as <-. by rewrite app_nil_r.
  - destruct (tensor a) as [x|]; [|done]. cbn [rbind] in *. destruct (cat_values acc) as [y|]; [|done].
    cbn [rbind] in *. injection E as <-. rewrite (IH y eq_refl). simpl. by rewrite app_assoc.
Qed.

Lemma next_key k ck : (if key_len k =? 0 then Ok ck else get_child_key ps k) =
  Ok (if key_len k =? 0 then ck else ck_of ps k).
Proof.
  destruct (Nat.eqb_spec (key_len k) 0) as [|Hne]; [done|]. apply get_child_key_spec. intros E.
  unfold key_len in Hne. by rewrite E in Hne.
Qed.

Lemma key_ne k : token_ids k <> [] -> (key_len k =? 0) = false.
Proof. intros Hk. unfold key_len. by destruct (token_ids k). Qed.

(** The child of the step after its access time was set. *)
Lemma touched_step st T hs e n nd ts vs k child t : Inv P st T hs -> n ∈ T -> nodes st !! n = Some nd ->
  sub (nodes st) e (root_node st) ts vs n -> extra_key k = e -> token_ids k <> [] -> aligned ps (token_ids k) ->
  children nd !! ck_of ps k = Some child ->
  let st1 := update (set_access t) child st in
  exists nd1 cd v m, Inv P st1 T hs /\ Refines st T st1 T /\ nodes st1 !! n = Some nd1 /\
    children nd1 !! ck_of ps k = Some child /\ sub (nodes st1) e (root_node st1) ts vs n /\
    nodes st1 !! child = Some cd /\ child ∈ T /\ child <> root_node st1 /\
    node_ok ps (nodes st1) (root_node st1) T child cd n nd1 /\ extra_key (key cd) = e /\ value cd = Some v /\
    length v = key_len (key cd) /\ key_match_fn ps (key cd) k = Ok m /\
    is_match ps (token_ids (key cd)) (token_ids k) m /\ ps <= m.
Proof using Hps.
  intros I Hn En Hs Ke Kne Kal Ec st1.
  assert (I1 : Inv P st1 T hs) by (by apply inv_update).
  assert (R1 : Refines st T st1 T) by (by apply refines_update).
  destruct (same_core_lookup (nodes st) (nodes st1) n nd) as (nd1 & En1 & [= C1 _ _ _ _ _]);
    [by apply same_core_alter|done|]. rewrite <- C1 in Ec.
  assert (Hs1 : sub (nodes st1) e (root_node st1) ts vs n).
  { apply (rf_sub _ _ _ _ R1); [apply (t_root_in _ _ _ _ (i_tree _ _ _ _ I))|done]. }
  destruct (kid_step st1 T hs I1 e n nd1 ts vs k Hn En1 Hs1 Ke Kne Kal child Ec) as (cd & v & m & K).
  exists nd1, cd, v, m. tauto.
Qed.

(** No page-aligned prefix of [full] longer than [l] is cached. *)
Definition longest st e (full : list tokid) (l : nat) : Prop :=
  forall j w, (ps | j) -> l < j <= length full -> ~ cached st e (take j full) w.

(** A lookup of [full]: the longest cached prefix, and the node that ends it. *)
Definition found st T hs e (full : list tokid) (out : res (list (option (list Z)) * nat * RadixCache A H)) : Prop :=
  exists acc n st' T' vs, out = Ok (acc, n, st') /\ Inv P st' T' hs /\ Refines st T st' T' /\ n ∈ T' /\
    cat_values acc = Ok vs /\ length vs <= length full /\
    sub (nodes st') e (root_node st') (take (length vs) full) vs n /\ longest st e full (length vs).

Lemma found_refines st T st1 hs e full out : Refines st T st1 T -> found st1 T hs e full out -> found st T hs e full out.
Proof.
  intros R (acc & n & st' & T' & vs & E & I & R' & Hn & Hc & Hl & Hs & Hmax).
  exists acc, n, st', T', vs. split; [done|]. split; [done|]. split; [by eapply refines_trans|].
  do 4 (split; [done|]). intros j w Hj Hjl Hw. apply (Hmax j w Hj Hjl). by apply (rf_cached _ _ _ _ R).
Qed.

Lemma found_stop st T hs e n ts vs acc rest : Inv P st T hs -> n ∈ T -> sub (nodes st) e (root_node st) ts vs n ->
  cat_values acc = Ok vs -> longest st e (ts ++ rest) (length ts) -> found st T hs e (ts ++ rest) (Ok (acc, n, st)).
Proof.
  intros I Hn Hs Hacc Hmax. pose proof (i_tree _ _ _ _ I) as Ht.
  destruct (sub_in ps _ _ _ Ht _ _ _ _ _ Hs (t_root_in _ _ _ _ Ht)) as (_ & Hlen & _).
  exists acc, n, st, T, vs. rewrite Hlen, take_app_length. do 2 (split; [done|]). split; [apply refines_refl|].
  do 2 (split; [done|]). rewrite length_app. split; [lia|done].
Qed.

(** The match ends inside the key of [child]. *)
Lemma found_split st T hs e n nd ts vs k acc child cd v m : Inv P st T hs -> n ∈ T -> nodes st !! n = Some nd ->
  sub (nodes st) e (root_node st) ts vs n -> extra_key k = e -> token_ids k <> [] -> aligned ps (token_ids k) ->
  children nd !! ck_of ps k = Some child -> nodes st !! child = Some cd -> child ∈ T -> child <> root_node st ->
  node_ok ps (nodes st) (root_node st) T child cd n nd -> extra_key (key cd) = e -> value cd = Some v ->
  length v = key_len (key cd) -> is_match ps (token_ids (key cd)) (token_ids k) m -> ps <= m < key_len (key cd) ->
  cat_values acc = Ok vs ->
  found st T hs e (ts ++ token_ids k)
    (rbind (_split_node P (key cd) child m st) (fun '(new_node, st) =>
       rbind (get_node (Some new_node) st) (fun nn => Ok (acc ++ [value nn], new_node, st)))).
Proof using Hps.
  intros I Hn En Hs Ke Kne Kal Ec Ecd C1 C2 K Ex Ev Lv Hm Hml Hacc. pose proof (im_page _ _ _ _ Hm) as Hpg.
  assert (Hm0 : 0 < m < key_len (key cd)) by lia. pose proof (split_fresh P st T hs I) as Hf.
  pose proof (i_tree _ _ _ _ I) as Ht.
  destruct (sub_in ps _ _ _ Ht _ _ _ _ _ Hs (t_root_in _ _ _ _ Ht)) as (_ & Hlen & _).
  rewrite (split_eq P st T hs I child m cd nd n v) by done. cbn [rbind].
  destruct (split_lookup_new ps _ _ _ Ht child n (counter st) m cd nd v
    (fst (split_node_hash_value P (hash_value cd) m)) (snd (split_node_hash_value P (hash_value cd) m))
    (monotonic (ticks st)) (monotonic (S (ticks st))) C1 C2 K Hf Hm0 Hpg Hps Ev) as (nn & Enn & [= _ _ _ Vn _ _]).
  rewrite (get_node_Ok (counter st) nn) by exact Enn. cbn [rbind]. rewrite Vn.
  eexists _, _, (split_state P st child m cd nd n v), (T ∪ {[counter st]}), (vs ++ take m v).
  split; [done|]. split; [by apply (split_inv P st T hs)|]. split; [by apply (refines_split st T hs)|].
  split; [set_solver|]. split; [by apply cat_values_snoc|].
  assert (Hl2 : length (vs ++ take m v) = length ts + m) by (rewrite length_app, length_take; unfold key_len in *; lia).
  pose proof (im_len1 _ _ _ _ Hm). rewrite Hl2, length_app. split; [lia|]. split.
  - rewrite take_app_add, <- (im_take _ _ _ _ Hm).
    by apply (split_sub_new ps _ _ T Ht Hps child n _ m cd nd v).
  - intros j w Hj Hjl. rewrite length_app in Hjl.
    apply (max_partial st T hs I e n nd ts vs k Hn En Hs Ke Kne Kal child cd m); try done; [lia|apply K].
Qed.

Lemma match_loop_spec hs e t fuel : forall n k ck acc st T ts vs,
  Inv P st T hs -> n ∈ T -> sub (nodes st) e (root_node st) ts vs n -> extra_key k = e ->
  aligned ps (token_ids k) -> (token_ids k <> [] -> ck = ck_of ps k) -> cat_values acc = Ok vs -> key_len k < fuel ->
  found st T hs e (ts ++ token_ids k) (match_loop P fuel t n k ck acc st).
Proof using Hps.
  induction fuel as [|fuel IH]; intros n k ck acc st T ts vs I Hn Hs Ke Kal Hck Hacc Hf; [lia|].
  destruct (t_node_any ps _ _ _ _ (i_tree _ _ _ _ I) Hn) as (nd & En). cbn [match_loop].
  rewrite (get_node_Ok n nd) by done. cbn [rbind]. destruct (decide (token_ids k = [])) as [Knil|Kne].
  { unfold key_len. rewrite Knil. cbn [length Nat.eqb]. apply (found_stop st T hs e n ts vs); try done.
    intros j w _ Hj. rewrite length_app in Hj. simpl in Hj. lia. }
  rewrite key_ne, (Hck Kne) by done. destruct (children nd !! ck_of ps k) as [child|] eqn:Ec.
  2: { apply (found_stop st T hs e n ts vs); try done. intros j w Hj Hjl. rewrite length_app in Hjl.
       by apply (max_none st T hs I e n nd ts vs k). }
  destruct (touched_step st T hs e n nd ts vs k child t I Hn En Hs Ke Kne Kal Ec) as
    (nd1 & cd & v & m & I1 & R1 & En1 & Ec1 & Hs1 & Ecd & C1 & C2 & K & Ex & Ev & Lv & Em & Hm & Hmp).
  apply (found_refines st T _ hs e _ _ R1). set (st1 := update (set_access t) child st) in *.
  rewrite (get_node_Ok child cd) by done. cbn [rbind]. rewrite Em. cbn [rbind].
  destruct (Nat.ltb_spec m (key_len (key cd))) as [Hlt|Hge]; [by apply (found_split st1 T hs e n nd1 ts vs k acc child cd v m)|].
  pose proof (im_len0 _ _ _ _ Hm). pose proof (im_len1 _ _ _ _ Hm).
  assert (Etk : token_ids (key cd) = take m (token_ids k)).
  { rewrite <- (im_take _ _ _ _ Hm), take_ge; [done|unfold key_len in Hge; lia]. }
  rewrite next_key. cbn [rbind].
  replace (ts ++ token_ids k) with ((ts ++ token_ids (key cd)) ++ token_ids (key_from m k)).
  2: { rewrite <- app_assoc. f_equal. rewrite Etk. apply take_drop. }
  apply (IH child _ _ _ st1 T _ (vs ++ v)); try done.
  - by apply (step_sub st1 e n nd1 ts vs k).
  - by apply aligned_drop; [|apply Hm].
  - intros Hne. by rewrite key_ne.
  - rewrite Ev. by apply cat_values_snoc.
  - unfold key_len in *. simpl. rewrite length_drop. lia.
Qed.

Lemma now_eq st : now st = (monotonic (ticks st), snd (now st)).
Proof. done. Qed.

(** The key a request is looked up under: bigrams in EAGLE mode, whole pages. *)
Definition ekey k : RadixKey := fst (maybe_bigram_convert (is_eagle P) k None).
Definition paged_tokens k : list tokid := take (key_len (ekey k) / ps * ps) (token_ids (ekey k)).

Lemma paged_aligned k : aligned ps (paged_tokens k).
Proof.
  unfold aligned, paged_tokens. exists (key_len (ekey k) / ps). rewrite length_take. unfold key_len.
  rewrite Nat.min_l; [done|]. rewrite Nat.mul_comm. apply Nat.Div0.mul_div_le.
Qed.

Lemma ekey_extra k : extra_key (ekey k) = extra_key k.
Proof. unfold ekey, maybe_bigram_convert. by destruct (is_eagle P && negb (is_bigram k)). Qed.

Lemma paged_key k : (if ps =? 1 then ekey k else key_upto (key_len (ekey k) / ps * ps) (ekey k)) = ekey k
    /\ paged_tokens k = token_ids (ekey k)
  \/ (if ps =? 1 then ekey k else key_upto (key_len (ekey k) / ps * ps) (ekey k)) = mkKey (paged_tokens k) (extra_key k) false.
Proof.
  unfold paged_tokens. destruct (Nat.eqb_spec ps 1) as [->|].
  - left. split; [done|]. rewrite Nat.div_1_r, Nat.mul_1_r. apply firstn_all.
  - right. unfold key_upto. by rewrite ekey_extra.
Qed.

Lemma match_prefix_spec st T hs k : disable P = false -> Inv P st T hs ->
  exists vs n st' T', match_prefix P k st = Ok (vs, n, st') /\ Inv P st' T' hs /\ Refines st T st' T' /\ n ∈ T' /\
    length vs <= length (paged_tokens k) /\
    sub (nodes st') (extra_key k) (root_node st') (take (length vs) (paged_tokens k)) vs n /\
    longest st (extra_key k) (paged_tokens k) (length vs).
Proof using Hps.
  intros Hd I. pose proof (t_root_in _ _ _ _ (i_tree _ _ _ _ I)) as Hr.
  assert (Hempty : paged_tokens k = [] -> exists vs n st' T', Ok ([], root_node st, st) = Ok (vs, n, st') /\
    Inv P st' T' hs /\ Refines st T st' T' /\ n ∈ T' /\ length vs <= length (paged_tokens k) /\
    sub (nodes st') (extra_key k) (root_node st') (take (length vs) (paged_tokens k)) vs n /\
    longest st (extra_key k) (paged_tokens k) (length vs)).
  { intros E. exists [], (root_node st), st, T. rewrite E. do 2 (split; [done|]). split; [apply refines_refl|].
    split; [done|]. split; [done|]. split; [constructor|]. intros j w _ Hj. simpl in Hj. lia. }
  unfold match_prefix. destruct (maybe_bigram_convert (is_eagle P) k None) as [k0 v0] eqn:E0.
  assert (Ek0 : k0 = ekey k) by (unfold ekey; by rewrite E0). rewrite Ek0. clear E0 Ek0 k0 v0. rewrite Hd. cbn [orb].
  destruct (Nat.eqb_spec (key_len (ekey k)) 0) as [Hk0|Hk0].
  { apply Hempty. unfold paged_tokens. rewrite Hk0. by rewrite Nat.div_0_l by lia. }
  set (kk := if ps =? 1 then ekey k else _).
  assert (Ekk : token_ids kk = paged_tokens k /\ extra_key kk = extra_key k).
  { unfold kk. destruct (paged_key k) as [[-> ->]|E]; [by rewrite ekey_extra|by rewrite E]. }
  destruct Ekk as [Et Ee]. destruct (Nat.eqb_spec (key_len kk) 0) as [Hk1|Hk1].
  { apply Hempty. rewrite <- Et. unfold key_len in Hk1. by apply nil_length_inv. }
  assert (Kne : token_ids kk <> []) by (intros E; unfold key_len in Hk1; by rewrite E in Hk1).
  unfold _match_prefix_helper. rewrite now_eq, get_child_key_spec by done. cbn [rbind].
  set (t := monotonic (ticks st)). set (st0 := snd (now st)).
  set (st1 := update (set_access t) (root_node st) st0).
  assert (I1 : Inv P st1 T hs) by (apply inv_update; [done|by apply inv_now]).
  assert (R1 : Refines st T st1 T) by (apply refines_same; try done; by apply same_core_alter).
  destruct (match_loop_spec hs (extra_key k) t (S (key_len kk)) (root_node st) kk (ck_of ps kk) [] st1 T [] []) as
    (acc & n & st' & T' & vs & Eq & I' & R' & Hn & Hc & Hl & Hs & Hmax); try done.
  - rewrite (rf_root _ _ _ _ R1). constructor.
  - rewrite Et. apply paged_aligned.
  - lia.
  - rewrite Eq. cbn [rbind].
    rewrite Hc. cbn [rbind]. rewrite Et in *. simpl app in *. exists vs, n, st', T'. split; [done|]. split; [done|].
    split; [by eapply refines_trans|]. do 3 (split; [done|]). intros j w Hj Hjl Hw.
    apply (Hmax j w Hj Hjl). by apply (rf_cached _ _ _ _ R1).
Qed.

Lemma paged_whole k : aligned ps (token_ids (ekey k)) -> paged_tokens k = token_ids (ekey k).
Proof.
  intros (q & E). unfold paged_tokens, key_len. rewrite E, Nat.div_mul by lia. apply take_ge. lia.
Qed.

(** Looking up what is cached as a whole returns it, and the node that ends it. *)
Lemma match_whole st T hs k vs : disable P = false -> Inv P st T hs -> aligned ps (token_ids (ekey k)) ->
  cached st (extra_key k) (token_ids (ekey k)) vs ->
  exists n st' T', match_prefix P k st = Ok (vs, n, st') /\ Inv P st' T' hs /\ Refines st T st' T' /\ n ∈ T' /\
    length vs = length (token_ids (ekey k)) /\
    sub (nodes st') (extra_key k) (root_node st') (token_ids (ekey k)) vs n.
Proof.
  intros Hen I Hal Hc. destruct (match_prefix_spec st T hs k Hen I) as (ws & n & st' & T' & E & I' & R & Hn & Hl & Hs & Hlong).
  rewrite (paged_whole k Hal) in *. set (keys := token_ids (ekey k)) in *.
  assert (Lw : length ws = length keys).
  { destruct (Nat.lt_trichotomy (length ws) (length keys)) as [Hlt|[|]]; [|done|lia].
    destruct (Hlong (length keys) vs Hal); [lia|]. by rewrite take_ge. }
  rewrite Lw, take_ge in Hs by done.
  assert (Ew : ws = vs).
  { apply (cached_fun ps _ _ T' (i_tree _ _ _ _ I') Hps (extra_key k) keys); [|by apply (rf_cached _ _ _ _ R)].
    pose proof (sub_cached ps _ _ T' (i_tree _ _ _ _ I') Hps _ _ _ _ (length keys) Hs Hal) as Hc'.
    by rewrite !take_ge in Hc' by lia. }
  subst ws. by exists n, st', T'.
Qed.

End Match.
End RMatch.
