(* ===== verification/RadixInsert.v ===== *)
(** Insertion into the radix cache: the loop of [_insert_helper] ends where the
    longest cached prefix of the key ends, and the new leaf adds the rest. *)
From stdpp Require Import base list gmap sets strings.
From Stdlib Require Import ZArith Lia.
From S2P Require Import Prelude RadixCache RadixTree RadixPath RadixInv RadixOps RadixMatch.
Local Open Scope nat_scope.

Module RInsert.
Import Radix RTree RPath RInv ROps RMatch.

Section Insert.
Context {A H : Type} `{Env A H} (P : Params) (Hps : 0 < page_size P).
#[local] Abbreviation ps := (page_size P).
#[local] Abbreviation cached := (RMatch.cached P).
#[local] Abbreviation longest := (RMatch.longest P).
Implicit Types (st : RadixCache A H) (T : gset nat) (hs : list nat) (n : nat) (k : RadixKey).
Implicit Types (e : option string) (ts : list tokid) (vs v : list Z).

(** ** The loop *)

(** The loop stops at a node that ends the tokens [ts'], where no child continues
    the rest of the key. *)
Definition reached st T hs e (full : list tokid) v (lo : nat)
    (out : res (nat * RadixKey * list Z * child_key * nat * RadixCache A H)) : Prop :=
  exists n k ck st' T' ts' vs' nd, out = Ok (n, k, drop (length ts') v, ck, lo + length ts', st') /\
    Inv P st' T' hs /\ Refines P st T st' T' /\ n ∈ T' /\ nodes st' !! n = Some nd /\
    sub (nodes st') e (root_node st') ts' vs' n /\ ts' ++ token_ids k = full /\
    extra_key k = e /\ aligned ps (token_ids k) /\
    (token_ids k <> [] -> ck = ck_of ps k /\ children nd !! ck = None).

Lemma reached_refines st T st1 T1 hs e full v lo out : Refines P st T st1 T1 ->
  reached st1 T1 hs e full v lo out -> reached st T hs e full v lo out.
Proof.
  intros R (n & k & ck & st' & T' & ts' & vs' & nd & E & I & R' & K).
  exists n, k, ck, st', T', ts', vs', nd. split; [done|]. split; [done|]. split; [by eapply refines_trans|done].
Qed.

(** The metadata a visited node gets. *)
Definition visit (prio : Z) (chunked : bool) (n : nat) st : RadixCache A H :=
  _inc_hit_count n chunked (update (fun nd => set_priority (Z.max (priority nd) prio) nd) n st).

Lemma visit_inv prio chunked n st T hs : Inv P st T hs -> Inv P (visit prio chunked n st) T hs.
Proof.
  intros I. unfold visit, _inc_hit_count. destruct chunked; [by apply inv_update|].
  apply inv_update; [done|]. by apply inv_update.
Qed.

Lemma visit_refines prio chunked n st T : Refines P st T (visit prio chunked n st) T.
Proof.
  unfold visit, _inc_hit_count. destruct chunked; [by apply refines_update|].
  eapply refines_trans; by apply refines_update.
Qed.

Lemma insert_loop_spec hs e t prio chunked v fuel : forall n k ck st T ts vs lo,
  Inv P st T hs -> n ∈ T -> sub (nodes st) e (root_node st) ts vs n -> extra_key k = e ->
  aligned ps (token_ids k) -> (token_ids k <> [] -> ck = ck_of ps k) -> key_len k < fuel ->
  reached st T hs e (ts ++ token_ids k) v lo
    (insert_loop P fuel t prio chunked n k (drop (length ts) v) ck (lo + length ts) st).
Proof using Hps.
  induction fuel as [|fuel IH]; intros n k ck st T ts vs lo I Hn Hs Ke Kal Hck Hf; [lia|].
  destruct (t_node_any ps _ _ _ _ (i_tree _ _ _ _ I) Hn) as (nd & En). cbn [insert_loop].
  rewrite (get_node_Ok n nd) by done. cbn [rbind].
  assert (Hstop : (token_ids k <> [] -> ck = ck_of ps k /\ children nd !! ck = None) ->
    reached st T hs e (ts ++ token_ids k) v lo (Ok (n, k, drop (length ts) v, ck, lo + length ts, st))).
  { intros Hno. exists n, k, ck, st, T, ts, vs, nd. do 2 (split; [done|]). split; [apply refines_refl|done]. }
  destruct (decide (token_ids k = [])) as [Knil|Kne].
  { assert (Ek : (key_len k =? 0) = true) by (unfold key_len; by rewrite Knil). rewrite Ek. by apply Hstop. }
  rewrite key_ne by done. pose proof (Hck Kne) as ->. destruct (children nd !! ck_of ps k) as [child|] eqn:Ec; [|by apply Hstop].
  destruct (touched_step P Hps st T hs e n nd ts vs k child t I Hn En Hs Ke Kne Kal Ec) as
    (nd1 & cd & w & m & I1 & R1 & En1 & Ec1 & Hs1 & Ecd & C1 & C2 & K & Ex & Ev & Lv & Em & Hm & Hmp).
  apply (reached_refines st T _ T hs e _ _ _ _ R1). set (st1 := update (set_access t) child st) in *.
  rewrite (get_node_Ok child cd) by done. cbn [rbind]. rewrite Em. cbn [rbind].
  pose proof (im_len1 _ _ _ _ Hm) as Hm1. pose proof (im_page _ _ _ _ Hm) as Hpg.
  (* the node the loop goes on with *)
  assert (exists node st2 T2 w2, (if m <? key_len (key cd) then _split_node P (key cd) child m st1 else Ok (child, st1))
      = Ok (node, st2) /\ Inv P st2 T2 hs /\ Refines P st1 T st2 T2 /\ node ∈ T2 /\
      sub (nodes st2) e (root_node st2) (ts ++ take m (token_ids k)) (vs ++ w2) node)
    as (node & st2 & T2 & w2 & Enode & I2 & R2 & Hnode & Hs2).
  { rewrite <- (im_take _ _ _ _ Hm). destruct (Nat.ltb_spec m (key_len (key cd))) as [Hlt|Hge].
    - assert (Hm0 : 0 < m < key_len (key cd)) by lia. pose proof (split_fresh P st1 T hs I1).
      exists (counter st1), (split_state P st1 child m cd nd1 n w), (T ∪ {[counter st1]}), (take m w).
      split; [by apply (split_eq P st1 T hs)|]. split; [by apply (split_inv P st1 T hs)|].
      split; [by apply (refines_split P Hps st1 T hs)|]. split; [set_solver|].
      by apply (split_sub_new ps _ _ T (i_tree _ _ _ _ I1) Hps child n _ m cd nd1 w).
    - exists child, st1, T, w. do 2 (split; [done|]). split; [apply refines_refl|]. split; [done|].
      rewrite take_ge by (unfold key_len in Hge; lia). by apply (step_sub P st1 e n nd1 ts vs k). }
  rewrite Enode. cbn [rbind]. fold (visit prio chunked node st2). rewrite next_key. cbn [rbind].
  apply (reached_refines st1 T (visit prio chunked node st2) T2 hs).
  { eapply refines_trans; [exact R2|apply visit_refines]. }
  replace (ts ++ token_ids k) with ((ts ++ take m (token_ids k)) ++ token_ids (key_from m k)).
  2: { rewrite <- app_assoc. f_equal. apply take_drop. }
  rewrite drop_drop. replace (length ts + m) with (length (ts ++ take m (token_ids k))) by (rewrite length_app, length_take; lia).
  replace (lo + length ts + m) with (lo + length (ts ++ take m (token_ids k))) by (rewrite length_app, length_take; lia).
  apply (IH node _ _ _ T2 _ (vs ++ w2)); try done.
  - by apply visit_inv.
  - destruct (visit_refines prio chunked node st2 T2) as [Er Hsub _ _ _ _ _ _ _ _ _]. rewrite Er.
    apply Hsub; [apply (t_root_in _ _ _ _ (i_tree _ _ _ _ I2))|done].
  - by apply aligned_drop.
  - intros Hne. by rewrite key_ne.
  - unfold key_len in *. simpl. rewrite length_drop. lia.
Qed.

(** ** [_insert_helper] *)

(** What the insertion of [full] with the indices [v] does to the content. *)
Definition inserted st e (full : list tokid) v (total : nat) st' : Prop :=
  exists old, length old = total /\ total <= length full /\ cached st e (take total full) old /\
    longest st e full total /\
    forall e' ts vs, cached st' e' ts vs <-> cached st e' ts vs \/
      e' = e /\ (ps | length ts) /\ ts `prefix_of` full /\ vs = take (length ts) (old ++ drop total v).

(** What stays readable, node by node. *)
Definition grows st T st' T' : Prop :=
  root_node st' = root_node st /\ T ⊆ T' /\
  (forall e n ts vs n', n ∈ T -> sub (nodes st) e n ts vs n' -> sub (nodes st') e n ts vs n') /\
  allocator st' = allocator st /\ protected_size_ st' = protected_size_ st.

Lemma refines_grows st T st' T' : Refines P st T st' T' -> grows st T st' T'.
Proof. intros []. done. Qed.

Lemma grows_trans st T st1 T1 st2 T2 : grows st T st1 T1 -> grows st1 T1 st2 T2 -> grows st T st2 T2.
Proof.
  intros (A1 & A2 & A3 & A4 & A5) (B1 & B2 & B3 & B4 & B5). split; [congruence|]. split; [set_solver|].
  split; [|split; congruence]. intros e n ts vs n' Hn Hs. apply B3; [set_solver|]. by apply A3.
Qed.

(** The end of the insertion, from where the loop stopped. *)
Section Finish.
Context (st st2 : RadixCache A H) (T T2 : gset nat) (hs : list nat) (I2 : Inv P st2 T2 hs) (R : Refines P st T st2 T2).
Context (e : option string) (n : nat) (nd : TreeNode H) (k' : RadixKey) (ts' : list tokid) (vs' v : list Z).
Context (Hn : n ∈ T2) (En : nodes st2 !! n = Some nd) (Hs : sub (nodes st2) e (root_node st2) ts' vs' n).
Context (Ee : extra_key k' = e) (Kal' : aligned ps (token_ids k')).
#[local] Abbreviation full := (ts' ++ token_ids k').
Context (Lv : length v = length full).

Lemma finish_len : length vs' = length ts' /\ aligned ps ts'.
Proof using All.
  pose proof (i_tree _ _ _ _ I2) as Ht2.
  by destruct (sub_in ps _ _ _ Ht2 _ _ _ _ _ Hs (t_root_in _ _ _ _ Ht2)) as (_ & ? & ?).
Qed.

Lemma finish_old : cached st e (take (length ts') full) vs'.
Proof using All.
  destruct finish_len as [Hl Ha]. rewrite take_app_length. apply (rf_cached _ _ _ _ _ R). split; [exact Ha|].
  exists n, ts', vs'. split; [done|]. split; [done|]. by rewrite take_ge by lia.
Qed.

(** The whole key was there. *)
Lemma finish_found : token_ids k' = [] ->
  Inv P st2 T2 hs /\ grows st T st2 T2 /\ inserted st e full v (length ts') st2 /\
  evictable_size_ st2 = (evictable_size_ st + Z.of_nat (length full - length ts'))%Z /\
  slots (nodes st2) T2 ≡ₚ drop (length ts') v ++ slots (nodes st) T.
Proof using All.
  intros Knil. destruct finish_len as [Hl Ha]. split; [done|]. split; [by apply refines_grows|].
  assert (E0 : length full = length ts') by (rewrite Knil, app_nil_r; done).
  split; [|split; [rewrite (rf_evictable _ _ _ _ _ R); lia|rewrite drop_ge by lia; apply R]]. exists vs'. split; [done|]. split; [lia|].
  split; [exact finish_old|]. split; [intros j w _ Hj; lia|]. intros e' ts vs.
  rewrite <- (rf_cached _ _ _ _ _ R). split; [by left|]. intros [|(-> & Hpg & Hpre & ->)]; [done|].
  rewrite drop_ge, app_nil_r by lia. apply (rf_cached _ _ _ _ _ R). split; [done|]. exists n, ts', vs'.
  split; [done|]. split; [|done]. by rewrite Knil, app_nil_r in Hpre.
Qed.

Context (Kne : token_ids k' <> []) (Hnone : children nd !! ck_of ps k' = None).

Lemma finish_long : longest st e full (length ts').
Proof using All.
  intros j w Hj Hjl Hw. apply (rf_cached _ _ _ _ _ R) in Hw. rewrite length_app in Hjl. revert Hw.
  by apply (max_none P Hps st2 T2 hs I2 e n nd ts' vs' k' Hn En Hs Ee Kne Kal' Hnone).
Qed.

(** The rest of the key becomes a leaf. *)
Lemma finish_leaf prio chunked :
  exists st3, add_leaf P n k' (drop (length ts') v) (ck_of ps k') prio chunked st2 = Ok st3 /\
    Inv P st3 (T2 ∪ {[counter st2]}) hs /\ grows st T st3 (T2 ∪ {[counter st2]}) /\
    inserted st e full v (length ts') st3 /\
    evictable_size_ st3 = (evictable_size_ st + Z.of_nat (length full - length ts'))%Z /\
    slots (nodes st3) (T2 ∪ {[counter st2]}) ≡ₚ drop (length ts') v ++ slots (nodes st) T.
Proof using All.
  destruct finish_len as [Hl Ha]. pose proof (i_tree _ _ _ _ I2) as Ht2. pose proof (split_fresh P st2 T2 hs I2) as Hfr.
  assert (Lext : n = root_node st2 \/ extra_key k' = extra_key (key nd)).
  { destruct (sub_snoc _ _ _ _ _ _ Hs) as [(E & _)|(m & md & c & cd & w & t1 & v1 & _ & _ & _ & E3 & E4 & _)];
      [by left|right; congruence]. }
  assert (Lval : length (drop (length ts') v) = key_len k').
  { rewrite length_drop, Lv, length_app. unfold key_len. lia. }
  destruct (add_leaf_eq P st2 T2 hs I2 n nd k' (drop (length ts') v) prio chunked Hn En Hnone Kne Kal' Lval Lext)
    as (es & El & _). eexists. split; [exact El|]. split; [by apply leaf_state_inv|]. split.
  { eapply grows_trans; [by apply refines_grows|]. split; [done|]. split; [set_solver|]. split; [|done].
    intros e' m ts vs m' Hm Hsm. by apply (leaf_sub ps _ _ T2 Ht2 Hps n _ nd _ (drop (length ts') v)). }
  split; [|split; [simpl; rewrite (rf_evictable _ _ _ _ _ R), length_app; unfold key_len; lia|]].
  2: { rewrite leaf_state_slots by done. by rewrite (rf_slots _ _ _ _ _ R). }
  exists vs'. split; [done|]. split; [rewrite length_app; lia|]. split; [exact finish_old|]. split; [exact finish_long|].
  intros e' ts vs. rewrite (rf_cached _ _ _ _ _ R e' ts vs).
  pose proof (leaf_cached ps _ _ T2 Ht2 Hps n (counter st2) nd
    (set_hash (leaf_hash P nd k') (leaf0 st2 n k' (drop (length ts') v) prio chunked)) (drop (length ts') v)
    Hn En Hfr Hnone eq_refl eq_refl Kne Kal' eq_refl Lval Lext ts' vs') as L.
  simpl in L. rewrite Ee in L. exact (L Hs e' ts vs).
Qed.

End Finish.

Lemma insert_helper_spec st T hs k v prio chunked : Inv P st T hs -> aligned ps (token_ids k) ->
  length v = key_len k ->
  exists total st' T', _insert_helper P (root_node st) k v prio chunked st = Ok (total, st') /\
    Inv P st' T' hs /\ grows st T st' T' /\ inserted st (extra_key k) (token_ids k) v total st' /\
    evictable_size_ st' = (evictable_size_ st + Z.of_nat (key_len k - total))%Z /\
    slots (nodes st') T' ≡ₚ drop total v ++ slots (nodes st) T.
Proof using Hps.
  intros I Kal Lv. unfold _insert_helper. rewrite now_eq. set (t := monotonic (ticks st)).
  set (st1 := update (touch t prio) (root_node st) (snd (now st))).
  assert (I1 : Inv P st1 T hs) by (apply inv_update; [done|by apply inv_now]).
  assert (R1 : Refines P st T st1 T) by (apply refines_same; try done; by apply same_core_alter).
  pose proof (t_root_in _ _ _ _ (i_tree _ _ _ _ I1)) as Hr1. unfold key_len in Lv.
  destruct (decide (token_ids k = [])) as [Knil|Kne].
  { destruct (t_node_any ps _ _ _ _ (i_tree _ _ _ _ I1) Hr1) as (rd & Er).
    destruct (finish_found st st1 T T hs I1 R1 (extra_key k) (root_node st1) rd k [] [] v Hr1 Er (sub_nil _ _ _) eq_refl Kal Lv Knil)
      as (F1 & F2 & F3 & F4 & F5). unfold key_len. rewrite Knil in *. simpl. exists 0, st1, T. done. }
  rewrite key_ne, get_child_key_spec by done. cbn [rbind].
  destruct (insert_loop_spec hs (extra_key k) t prio chunked v (S (key_len k)) (root_node st1) k (ck_of ps k)
    st1 T [] [] 0) as (n & k' & ck & st2 & T2 & ts' & vs' & nd & Eq & I2 & R2 & Hn & En & Hs & Efull & Ee & Kal' & Hck);
    try done; [constructor|lia|].
  pose proof (refines_trans _ _ _ _ _ _ _ R1 R2) as R12. cbn [length app Nat.add drop] in Eq, Efull.
  change (root_node st1) with (root_node st) in Eq. rewrite drop_0 in Eq. rewrite Eq. cbn [rbind].
  replace (key_len k) with (length (ts' ++ token_ids k')) by (unfold key_len; by rewrite Efull).
  rewrite <- Efull in Lv |- *. destruct (decide (token_ids k' = [])) as [Knil'|Kne'].
  - assert (Ek : (key_len k' =? 0) = true) by (unfold key_len; by rewrite Knil'). rewrite Ek.
    exists (length ts'), st2, T2. split; [done|]. by apply (finish_found st st2 T T2 hs I2 R12 _ n nd k' ts' vs').
  - rewrite key_ne by done. destruct (Hck Kne') as (-> & Hnone).
    destruct (finish_leaf st st2 T T2 hs I2 R12 _ n nd k' ts' vs' v Hn En Hs Ee Kal' Lv Kne' Hnone prio chunked)
      as (st3 & -> & F). cbn [rbind]. by exists (length ts'), st3, (T2 ∪ {[counter st2]}).
Qed.

(** [insert] of a key of whole pages, with one index per token. *)
Lemma insert_spec st T hs k v prio chunked : disable P = false -> Inv P st T hs ->
  aligned ps (token_ids (ekey P k)) -> key_len (ekey P k) <= length v ->
  (is_eagle P = false \/ is_bigram k = true -> length v = key_len k) ->
  exists total st' T', insert P k (Some v) prio chunked st = Ok (total, st') /\
    Inv P st' T' hs /\ grows st T st' T' /\
    inserted st (extra_key k) (token_ids (ekey P k)) (take (key_len (ekey P k)) v) total st' /\
    evictable_size_ st' = (evictable_size_ st + Z.of_nat (key_len (ekey P k) - total))%Z /\
    slots (nodes st') T' ≡ₚ drop total (take (key_len (ekey P k)) v) ++ slots (nodes st) T.
Proof using Hps.
  intros Hd I Kal Lv Hlv. unfold insert. rewrite Hd. cbn [rbind]. rewrite <- (ekey_extra P k).
  assert (Ec : maybe_bigram_convert (is_eagle P) k (Some v) = (ekey P k, Some (take (key_len (ekey P k)) v))).
  { unfold ekey, maybe_bigram_convert in *. destruct (is_eagle P && negb (is_bigram k)) eqn:Eb; [done|].
    simpl. f_equal. f_equal. rewrite take_ge; [done|]. rewrite Hlv; [done|].
    apply andb_false_iff in Eb as [->|Eb]; [by left|right]. by apply negb_false_iff. }
  rewrite Ec. cbn [rbind tensor]. apply insert_helper_spec; [done|done|]. rewrite length_take. lia.
Qed.

End Insert.
End RInsert.
