(* ===== verification/RadixEvict.v ===== *)
(** Eviction from the radix cache.

    The heap of [evict] always holds the evictable leaves, each once; a turn frees
    a least one under the configured policy and deletes it.  Eviction therefore
    ends with enough tokens freed, or with nothing evictable left, and no node at
    or above a held one is ever deleted. *)
From stdpp Require Import base list gmap sets strings.
From Stdlib Require Import ZArith Lia.
From S2P Require Import Prelude RadixCache RadixTree RadixPath RadixInv RadixOps RadixLock.
Local Open Scope nat_scope.

Module REvict.
Import Radix RTree RPath RInv ROps.

(** [free] of the slot allocator does not raise. *)
Class FreeTotal (A H : Type) `{Env A H} : Prop :=
  free_total : forall v a, exists a', alloc_free v a = Ok a'.

Section Evict.
Context {A H : Type} `{Env A H} (P : Params).
#[local] Abbreviation ps := (page_size P).
Implicit Types (st : RadixCache A H) (T : gset nat) (hs : list nat) (n : nat) (heap l : list heap_entry).

(** ** The heap *)

Lemma entry_ge st x y : entry_lt st x y = false <->
  (y.1.1 < x.1.1 \/ y.1.1 = x.1.1 /\ (y.1.2 < x.1.2 \/ y.1.2 = x.1.2 /\ access_of st y.2 <= access_of st x.2))%Z.
Proof.
  destruct x as [[a b] m], y as [[c d] n]. unfold entry_lt, prio_lt. simpl.
  rewrite !orb_false_iff, !andb_false_iff, !Z.ltb_ge, Z.eqb_neq, bool_decide_eq_false. split.
  - intros ((H1 & H2) & H3). destruct H3 as [H3|H3]; [|lia].
    destruct (decide (a = c)) as [->|]; [|lia]. destruct (decide (b = d)) as [->|]; [done|lia].
  - intros Hc. split; [split; [lia|]|].
    + destruct (decide (a = c)); [right|left]; lia.
    + destruct (decide ((a, b) = (c, d))) as [E|E]; [right|by left]. injection E as -> ->. lia.
Qed.

Lemma entry_lt_asym st x y : entry_lt st x y = true -> entry_lt st y x = false.
Proof. rewrite <- not_false_iff_true, !entry_ge. lia. Qed.

(** Not being less is transitive. *)
Lemma entry_le_trans st x y z : entry_lt st x y = false -> entry_lt st y z = false -> entry_lt st x z = false.
Proof. rewrite !entry_ge. lia. Qed.

Lemma heappop_spec st x l m rest : heappop st x l = (m, rest) ->
  m :: rest ≡ₚ x :: l /\ forall y, y ∈ x :: l -> entry_lt st y m = false.
Proof.
  revert x m rest. induction l as [|y l IH]; simpl; intros x m rest E.
  - injection E as <- <-. split; [done|]. intros y ->%list_elem_of_singleton.
    destruct (entry_lt st x x) eqn:E; [|done]. by rewrite (entry_lt_asym _ _ _ E) in E.
  - destruct (heappop st y l) as [m0 r0] eqn:E0. destruct (IH y m0 r0 E0) as [Hp Hmin].
    destruct (entry_lt st m0 x) eqn:Elt; injection E as <- <-.
    + split; [rewrite <- Hp; apply perm_swap|]. intros z [->|Hz]%elem_of_cons; [by apply entry_lt_asym|by apply Hmin].
    + split; [by rewrite <- Hp|]. intros z [->|Hz]%elem_of_cons.
      * destruct (entry_lt st x x) eqn:E1; [|done]. by rewrite (entry_lt_asym _ _ _ E1) in E1.
      * apply (entry_le_trans st z m0 x); [by apply Hmin|done].
Qed.

(** The heap holds the evictable leaves, with their current priorities. *)
Definition heap_ok st heap : Prop :=
  map snd heap ≡ₚ elements (evictable_leaves st) /\
  Forall (fun en : heap_entry => exists nd, nodes st !! en.2 = Some nd /\ en.1 = get_priority (eviction_strategy P) nd) heap.

Lemma heap_entries_spec st T hs : Inv P st T hs ->
  exists heap, heap_entries P st (elements (evictable_leaves st)) = Ok heap /\ heap_ok st heap.
Proof.
  intros I. assert (Hl : forall n, n ∈ elements (evictable_leaves st) -> exists nd, nodes st !! n = Some nd).
  { intros n Hn%elem_of_elements. apply (i_leaves _ _ _ _ I) in Hn as (_ & _ & nd & ? & _). by exists nd. }
  unfold heap_ok. generalize (elements (evictable_leaves st)) Hl. intros l0. clear Hl.
  induction l0 as [|n l0 IH]; intros Hl; [by exists []|].
  destruct (Hl n ltac:(by left)) as (nd & En). destruct IH as (heap & E & Hp & Hf); [intros m Hm; apply Hl; by right|].
  cbn [heap_entries]. unfold heap_entry_of. rewrite (get_node_Ok n nd) by done. cbn [rbind]. rewrite E. cbn [rbind].
  eexists. split; [done|]. split; [simpl; by rewrite Hp|]. constructor; [by exists nd|done].
Qed.

(** ** One turn *)

Lemma removed_events_spec pgs (hs : list H) : length hs = length pgs -> exists es, removed_events pgs hs = Ok es.
Proof.
  revert hs. induction pgs as [|pg pgs IH]; intros [|h hs] Hl; simpl in *; try done; [by eexists|].
  destruct (IH hs ltac:(lia)) as (es & ->). by eexists.
Qed.

Lemma remove_event_spec st n nd p pd r T : Tree ps (nodes st) r T -> nodes st !! n = Some nd -> parent nd = Some p ->
  nodes st !! p = Some pd ->
  (hash_value nd = if enable_kv_cache_events P then Some (chain_hash (prior pd) (pages P (token_ids (key nd)))) else None) ->
  exists es, _record_remove_event P n st = Ok (with_events (kv_event_queue st ++ es) st).
Proof.
  intros Ht En Ep Epd Eh. unfold _record_remove_event. destruct (enable_kv_cache_events P).
  - unfold lazy_hash. rewrite (get_node_Ok n nd) by done. cbn [rbind]. rewrite Eh. cbn [rbind].
    rewrite (get_node_Ok n nd) by done. cbn [rbind].
    destruct (removed_events_spec (pages P (token_ids (key nd))) (chain_hash (prior pd) (pages P (token_ids (key nd)))))
      as (es & ->); [apply chain_hash_length|]. by exists es.
  - exists []. f_equal. apply cache_eq; try done. simpl. by rewrite app_nil_r.
Qed.

(** What one turn does to the cache: the leaf [x] with the indices [v] is gone. *)
Record evicted_one st T hs (x : nat) (v : list Z) st' : Prop := {
  eo_inv : Inv P st' (T ∖ {[x]}) hs;
  eo_root : root_node st' = root_node st;
  eo_sub : forall e n ts vs n', n ∈ T -> n' <> x -> sub (nodes st) e n ts vs n' -> sub (nodes st') e n ts vs n';
  eo_back : forall e n ts vs n', n ∈ T -> sub (nodes st') e n ts vs n' -> sub (nodes st) e n ts vs n';
  eo_evictable : evictable_size_ st' = (evictable_size_ st - Z.of_nat (length v))%Z;
  eo_protected : protected_size_ st' = protected_size_ st;
  eo_slots : slots (nodes st) T ≡ₚ v ++ slots (nodes st') (T ∖ {[x]});
}.

Section Turn.
Context (st : RadixCache A H) (T : gset nat) (hs : list nat) (I : Inv P st T hs) (Hps : 0 < ps).
Context (x p : nat) (xd pd : TreeNode H) (v : list Z) (a : A).
Context (Hx : x ∈ T) (Hxr : x <> root_node st) (Hok : node_ok ps (nodes st) (root_node st) T x xd p pd).
Context (Hleaf : children xd = ∅) (Hlock : lock_ref xd = 0%Z) (Hv : value xd = Some v) (Hlen : length v = key_len (key xd)).
Context (Ha : alloc_free v (allocator st) = Ok a).
#[local] Abbreviation st1 := (delete_state P (with_alloc a st) x p xd pd).

Lemma turn_inv0 : Inv P (with_alloc a st) T hs.
Proof using I. by apply (inv_same P st). Qed.

Lemma turn_evicted es : evicted_one st T hs x v (with_events es st1).
Proof using All.
  split.
  - apply (inv_same P st1); try done. by apply (delete_state_inv P (with_alloc a st) T hs turn_inv0 x p xd pd).
  - done.
  - intros e n ts vs n' Hn Hne Hs. by apply (delete_sub ps _ _ T (i_tree _ _ _ _ I) Hps x p xd pd).
  - intros e n ts vs n' Hn Hs. by apply (delete_sub_back ps _ _ T (i_tree _ _ _ _ I) Hps x p xd pd Hx Hxr Hok Hleaf).
  - simpl. by rewrite Hlen.
  - done.
  - by apply (delete_slots P (with_alloc a st) T hs turn_inv0 x p xd pd).
Qed.

(** The heap after the turn: the parent enters when it becomes a leaf. *)
Definition next_heap (rest : list heap_entry) : list heap_entry :=
  if decide (children (pd' P xd pd) = ∅) then
    if (lock_ref pd =? 0)%Z then (get_priority (eviction_strategy P) (pd' P xd pd), p) :: rest else rest
  else rest.

Lemma next_heap_ok rest es : map snd rest ≡ₚ elements (evictable_leaves st ∖ {[x]}) ->
  Forall (fun en : heap_entry => exists nd, nodes st !! en.2 = Some nd /\ en.1 = get_priority (eviction_strategy P) nd) rest ->
  heap_ok (with_events es st1) (next_heap rest).
Proof using All.
  intros Hp Hf.
  pose proof (delete_neq ps _ _ _ (i_tree _ _ _ _ I) x p xd pd Hx Hxr Hok Hleaf) as Nxp.
  assert (HpL : p ∉ evictable_leaves st).
  { intros Hin. apply (i_leaves _ _ _ _ I) in Hin as (_ & _ & pd0 & Ep & _ & Ek).
    rewrite (no_pnode _ _ _ _ _ _ _ _ Hok) in Ep. injection Ep as <-.
    pose proof (no_filed _ _ _ _ _ _ _ _ Hok) as F. by rewrite Ek, lookup_empty in F. }
  assert (Hf' : Forall (fun en : heap_entry => exists nd, nodes st1 !! en.2 = Some nd /\
      en.1 = get_priority (eviction_strategy P) nd) rest).
  { apply Forall_forall. intros en Hen. rewrite Forall_forall in Hf. destruct (Hf en Hen) as (nd & E1 & E2).
    assert (Hl : en.2 ∈ evictable_leaves st ∖ {[x]}).
    { apply elem_of_elements. rewrite <- Hp. by apply list_elem_of_fmap_2. }
    exists nd. split; [|done]. simpl. unfold delete_map. rewrite lookup_insert_ne; [done|]. intros ->. set_solver. }
  unfold heap_ok, next_heap. cbn [evictable_leaves with_events delete_state with_alloc].
  unfold leaf_status. change (lock_ref (pd' P xd pd)) with (lock_ref pd).
  destruct (decide (children (pd' P xd pd) = ∅)) as [Ek|Ek]; [rewrite (bool_decide_true _ Ek)|rewrite (bool_decide_false _ Ek)].
  - destruct (lock_ref pd =? 0)%Z; cbn [andb].
    + split.
      * simpl. rewrite Hp. set (X := evictable_leaves st ∖ {[x]}). replace (X ∪ {[p]}) with ({[p]} ∪ X) by set_solver.
        rewrite elements_union_singleton; [done|set_solver].
      * constructor; [|done]. exists (pd' P xd pd). split; [|done]. simpl. apply lookup_insert_eq.
    + split; [|done]. rewrite Hp. f_equiv. set_solver.
  - rewrite andb_false_r. split; [|done]. rewrite Hp. f_equiv. set_solver.
Qed.

Lemma evict_one_eq rest num : exists es,
  evict_one P x rest num st = Ok (next_heap rest, num + length v, with_events (kv_event_queue st ++ es) st1).
Proof using All.
  unfold evict_one. rewrite (get_node_Ok x xd) by apply Hok. cbn [rbind]. rewrite Hv. cbn [rbind tensor].
  rewrite Ha. cbn [rbind]. rewrite (delete_leaf_eq P (with_alloc a st) T hs turn_inv0 x p xd pd) by done. cbn [rbind].
  rewrite (no_parent _ _ _ _ _ _ _ _ Hok). cbn [default].
  assert (Ep : nodes st1 !! p = Some (pd' P xd pd)) by (simpl; apply lookup_insert_eq).
  rewrite (get_node_Ok p (pd' P xd pd)) by exact Ep. cbn [rbind].
  pose proof (delete_neq ps _ _ _ (i_tree _ _ _ _ I) x p xd pd Hx Hxr Hok Hleaf) as Nxp.
  destruct (remove_event_spec st1 x xd p (pd' P xd pd) (root_node st) (T ∖ {[x]})) as (es & Ees).
  - apply (i_tree _ _ _ _ (delete_state_inv P (with_alloc a st) T hs turn_inv0 x p xd pd Hx Hxr Hok Hleaf Hlock)).
  - simpl. unfold delete_map. rewrite lookup_insert_ne by done. apply Hok.
  - apply Hok.
  - exact Ep.
  - by apply (i_hash _ _ _ _ I x xd p pd).
  - exists es. rewrite Ees. done.
Qed.

End Turn.

(** ** The loop *)

Definition entry_of st n : option heap_entry := (fun nd => (get_priority (eviction_strategy P) nd, n)) <$> nodes st !! n.

(** Specification of an eviction: one after the other, least evictable leaves are
    freed and removed. *)
Inductive evict_run hs : RadixCache A H -> gset nat -> list (list Z) -> RadixCache A H -> gset nat -> Prop :=
| run_nil st T : evict_run hs st T [] st T
| run_step st T x en v st1 fr st' T' :
    x ∈ evictable_leaves st -> entry_of st x = Some en ->
    (forall y en', y ∈ evictable_leaves st -> entry_of st y = Some en' -> entry_lt st en' en = false) ->
    alloc_free v (allocator st) = Ok (allocator st1) -> evicted_one st T hs x v st1 ->
    evict_run hs st1 (T ∖ {[x]}) fr st' T' -> evict_run hs st T (v :: fr) st' T'.

Lemma leaf_node st T hs x : Inv P st T hs -> x ∈ evictable_leaves st ->
  exists xd p pd v, x ∈ T /\ x <> root_node st /\ node_ok ps (nodes st) (root_node st) T x xd p pd /\
    children xd = ∅ /\ lock_ref xd = 0%Z /\ value xd = Some v /\ length v = key_len (key xd).
Proof.
  intros I Hx. apply (i_leaves _ _ _ _ I) in Hx as (Hx & Hr & xd & Ex & El & Ek).
  destruct (t_node _ _ _ _ (i_tree _ _ _ _ I) x Hx Hr) as (xd' & p & pd & K).
  rewrite (no_node _ _ _ _ _ _ _ _ K) in Ex. injection Ex as <-.
  destruct (no_value _ _ _ _ _ _ _ _ K) as (v & Ev & Lv). by exists xd', p, pd, v.
Qed.

(** What the heap pops is a least evictable leaf, and the rest stays a heap. *)
Lemma pop_spec st T hs e l m rest : Inv P st T hs -> heap_ok st (e :: l) -> heappop st e l = (m, rest) ->
  m.2 ∈ evictable_leaves st /\ entry_of st m.2 = Some m /\
  (forall y en', y ∈ evictable_leaves st -> entry_of st y = Some en' -> entry_lt st en' m = false) /\
  map snd rest ≡ₚ elements (evictable_leaves st ∖ {[m.2]}) /\
  Forall (fun en : heap_entry => exists nd, nodes st !! en.2 = Some nd /\ en.1 = get_priority (eviction_strategy P) nd) rest.
Proof.
  intros I [Hp Hf] Epop. destruct (heappop_spec _ _ _ _ _ Epop) as [Hperm Hmin].
  rewrite <- Hperm in Hf. apply Forall_cons in Hf as [(nd & En & Em) Hf].
  assert (Hp' : m.2 :: map snd rest ≡ₚ elements (evictable_leaves st)).
  { rewrite <- Hp. change (m.2 :: map snd rest) with (map snd (m :: rest)). by rewrite Hperm. }
  assert (Hm : m.2 ∈ evictable_leaves st) by (apply elem_of_elements; rewrite <- Hp'; by left).
  split; [done|]. split; [unfold entry_of; rewrite En; simpl; rewrite <- Em; by destruct m|]. split; [|split; [|done]].
  - intros y en' Hy Ey. apply Hmin. rewrite <- Hperm.
    unfold entry_of in Ey. apply fmap_Some in Ey as (yd & Ey & ->).
    assert (Hin : y ∈ map snd (m :: rest)) by (simpl; rewrite Hp'; by apply elem_of_elements).
    apply list_elem_of_fmap in Hin as (en & -> & Hen).
    assert (Hen' : exists nd, nodes st !! en.2 = Some nd /\ en.1 = get_priority (eviction_strategy P) nd).
    { apply elem_of_cons in Hen as [->|Hen]; [by exists nd|]. rewrite Forall_forall in Hf. by apply Hf. }
    destruct Hen' as (nd' & E1 & E2). rewrite Ey in E1. injection E1 as <-. rewrite <- E2. by destruct en.
  - apply (Permutation_cons_inv (a := m.2)). rewrite Hp'.
    assert (E : evictable_leaves st = {[m.2]} ∪ evictable_leaves st ∖ {[m.2]}).
    { apply set_eq. intros y. destruct (decide (y = m.2)); set_solver. }
    rewrite E at 1. apply elements_union_singleton. set_solver.
Qed.

Lemma evict_loop_spec `{!FreeTotal A H} hs want fuel : 0 < ps -> forall st T num heap,
  Inv P st T hs -> heap_ok st heap -> size T <= fuel ->
  exists fr st' T', evict_loop P fuel want num heap st = Ok (num + length (concat fr), st') /\
    evict_run hs st T fr st' T' /\ Inv P st' T' hs /\
    (want <= num + length (concat fr) \/ evictable_leaves st' = ∅) /\
    forall i, i < length fr -> num + length (concat (take i fr)) < want.
Proof.
  intros Hps. induction fuel as [|fuel IH]; intros st T num heap I Hh Hsz.
  { pose proof (t_root_in _ _ _ _ (i_tree _ _ _ _ I)) as Hr. apply Nat.le_0_r, size_empty_inv in Hsz. set_solver. }
  cbn [evict_loop]. destruct (Nat.leb_spec want num) as [Hle|Hgt].
  { exists [], st, T. simpl. rewrite Nat.add_0_r. split; [done|]. split; [constructor|]. split; [done|].
    split; [by left|]. intros i Hi. lia. }
  destruct heap as [|e l].
  { exists [], st, T. simpl. rewrite Nat.add_0_r. split; [done|]. split; [constructor|]. split; [done|].
    split; [right|intros i Hi; lia]. destruct Hh as [Hp _]. simpl in Hp. symmetry in Hp.
    apply Permutation_nil_r in Hp. by apply elements_empty_inv in Hp; apply leibniz_equiv in Hp. }
  destruct (heappop st e l) as [m rest] eqn:Epop.
  destruct (pop_spec st T hs e l m rest I Hh Epop) as (Hm & Eent & Hmin & Hrest & Hfr).
  destruct (leaf_node st T hs m.2 I Hm) as (xd & p & pd & v & Hx & Hxr & K & Hk & Hl & Hv & Lv).
  destruct (free_total v (allocator st)) as (a & Ha).
  destruct (evict_one_eq st T hs I Hps m.2 p xd pd v a Hx Hxr K Hk Hl Hv Lv Ha rest num) as (es & E1). rewrite E1. cbn [rbind].
  set (st1 := with_events _ _).
  pose proof (turn_evicted st T hs I Hps m.2 p xd pd v a Hx Hxr K Hk Hl Hv Lv Ha (kv_event_queue st ++ es)) as Ho.
  pose proof (next_heap_ok st T hs I Hps m.2 p xd pd v a Hx Hxr K Hk Hl Hv Lv Ha rest (kv_event_queue st ++ es) Hrest Hfr) as Hh1.
  destruct (IH st1 (T ∖ {[m.2]}) (num + length v) (next_heap p xd pd rest)) as (fr & st' & T' & E2 & Hrun & I' & Hend & Hmid).
  - apply Ho.
  - exact Hh1.
  - rewrite size_difference, size_singleton by set_solver. lia.
  - exists (v :: fr), st', T'. simpl. rewrite length_app, Nat.add_assoc. split; [exact E2|].
    split; [by apply (run_step hs st T m.2 m v st1)|]. split; [done|]. split; [done|].
    intros [|i] Hi; simpl; [lia|]. rewrite length_app, Nat.add_assoc. apply Hmid. lia.
Qed.

Lemma evict_spec `{!FreeTotal A H} st T hs want : 0 < ps -> disable P = false -> Inv P st T hs ->
  exists fr st' T', evict P want st = Ok (length (concat fr), st') /\ evict_run hs st T fr st' T' /\ Inv P st' T' hs /\
    (want <= length (concat fr) \/ evictable_leaves st' = ∅) /\
    forall i, i < length fr -> length (concat (take i fr)) < want.
Proof.
  intros Hps Hd I. unfold evict. rewrite Hd. destruct (heap_entries_spec st T hs I) as (heap & -> & Hh). cbn [rbind].
  destruct (evict_loop_spec hs want (size (nodes st)) Hps st T 0 heap I Hh) as (fr & st' & T' & E & K).
  - rewrite <- size_dom. apply subseteq_size. intros n Hn. apply elem_of_dom.
    destruct (t_node_any ps _ _ _ _ (i_tree _ _ _ _ I) Hn) as (nd & ->). by eexists.
  - by exists fr, st', T'.
Qed.

(** ** What a run does *)

Fixpoint frees (fr : list (list Z)) (a : A) : res A :=
  match fr with
  | [] => Ok a
  | v :: fr => rbind (alloc_free v a) (frees fr)
  end.

Lemma run_facts hs st T fr st' T' : evict_run hs st T fr st' T' ->
  T' ⊆ T /\ root_node st' = root_node st /\ frees fr (allocator st) = Ok (allocator st') /\
  slots (nodes st) T ≡ₚ concat fr ++ slots (nodes st') T' /\
  evictable_size_ st' = (evictable_size_ st - Z.of_nat (length (concat fr)))%Z /\
  protected_size_ st' = protected_size_ st /\
  (forall e n ts vs n', n ∈ T -> n' ∈ T' -> sub (nodes st) e n ts vs n' -> sub (nodes st') e n ts vs n' \/ n ∉ T') /\
  (forall e n ts vs n', n ∈ T' -> sub (nodes st') e n ts vs n' -> sub (nodes st) e n ts vs n').
Proof.
  induction 1 as [st T|st T x en v st1 fr st' T' Hx En Hmin Ha Ho _ IH].
  - simpl. split; [done|]. split; [done|]. split; [done|]. split; [done|]. split; [lia|]. split; [done|].
    split; [intros; by left|done].
  - destruct IH as (I1 & I2 & I3 & I4 & I5 & I6 & I7 & I8). destruct Ho as [O1 O2 O3 O4 O5 O6 O7].
    split; [set_solver|]. split; [congruence|]. split; [simpl; by rewrite Ha|].
    split; [simpl; rewrite O7, I4; by rewrite app_assoc|].
    split; [simpl; rewrite length_app, I5, O5; lia|]. split; [congruence|]. split.
    + intros e n ts vs n' Hn Hn' Hs. destruct (decide (n = x)) as [->|Hnx]; [right; set_solver|].
      apply I7; [set_solver|done|]. apply O3; [done|set_solver|done].
    + intros e n ts vs n' Hn Hs. apply O4; [set_solver|]. by apply I8.
Qed.

(** ** Nothing evictable is left *)

Lemma max_rank (rk : nat -> nat) (l : list nat) : l <> [] -> exists x, x ∈ l /\ forall y, y ∈ l -> rk y <= rk x.
Proof.
  induction l as [|x l IH]; [done|]. intros _. destruct l as [|y l].
  { exists x. split; [by left|]. by intros y ->%list_elem_of_singleton. }
  destruct (IH ltac:(done)) as (z & Hz & Hmax). destruct (decide (rk z <= rk x)).
  - exists x. split; [by left|]. intros w [->|Hw]%elem_of_cons; [done|]. specialize (Hmax w Hw). lia.
  - exists z. split; [by right|]. intros w [->|Hw]%elem_of_cons; [lia|]. by apply Hmax.
Qed.

(** Without evictable leaves every node is locked. *)
Lemma no_leaf_locked st T hs n nd : Inv P st T hs -> evictable_leaves st = ∅ -> n ∈ T -> n <> root_node st ->
  nodes st !! n = Some nd -> lock_ref nd <> 0%Z.
Proof.
  intros I Hno Hn Hr En Hl0. pose proof (i_tree _ _ _ _ I) as Ht. destruct (t_rank _ _ _ _ Ht) as (rk & Hrk).
  set (U := filter (fun m => m <> root_node st /\ (fun md => lock_ref md) <$> nodes st !! m = Some 0%Z) (elements T)).
  assert (HU : forall m, m ∈ U <-> m ∈ T /\ m <> root_node st /\ exists md, nodes st !! m = Some md /\ lock_ref md = 0%Z).
  { intros m. unfold U. rewrite list_elem_of_filter, elem_of_elements, fmap_Some. split.
    - intros ((? & md & ? & ?) & ?). split; [done|]. split; [done|]. by exists md.
    - intros (? & ? & md & ? & ?). split; [|done]. split; [done|]. by exists md. }
  destruct (max_rank rk U) as (x & Hx & Hmax).
  { intros E. assert (Hin : n ∈ U) by (apply HU; eauto). rewrite E in Hin. by apply not_elem_of_nil in Hin. }
  apply HU in Hx as (HxT & Hxr & xd & Ex & Elx).
  assert (x ∈ evictable_leaves st); [|by rewrite Hno in *; set_solver].
  apply (i_leaves _ _ _ _ I). split; [done|]. split; [done|]. exists xd. split; [done|]. split; [done|].
  destruct (decide (children xd = ∅)) as [|Hne]; [done|]. apply map_choose in Hne as (ck & c & Ec).
  destruct (t_kids _ _ _ _ Ht x xd ck c HxT Ex Ec) as (C1 & C2 & cd & C3 & C4 & C5).
  destruct (kid_node ps _ _ _ Ht x xd ck c cd HxT Ex Ec C3) as (_ & _ & K & _).
  pose proof (parent_locked P st T hs c cd x xd I C1 C2 K Hxr) as Hle.
  pose proof (lock_nonneg P st T hs c cd I C1 C3) as Hge.
  assert (HcU : c ∈ U) by (apply HU; split; [done|]; split; [done|]; exists cd; split; [done|lia]).
  specialize (Hmax c HcU). specialize (Hrk c cd x C1 C3 C4). lia.
Qed.

Lemma no_leaf_size st T hs : Inv P st T hs -> evictable_leaves st = ∅ -> evictable_size_ st = 0%Z.
Proof.
  intros I Hno. rewrite (i_evictable _ _ _ _ I). unfold sumz.
  rewrite (lsumz_ext _ (fun _ => 0%Z)); [induction (elements _); simpl; [done|lia]|].
  intros n Hn%elem_of_elements. apply elem_of_difference in Hn as [Hn Hr%not_elem_of_singleton].
  destruct (t_node_any ps _ _ _ _ (i_tree _ _ _ _ I) Hn) as (nd & En). unfold part_len. rewrite En.
  pose proof (no_leaf_locked st T hs n nd I Hno Hn Hr En). by rewrite (proj2 (Z.eqb_neq _ _)).
Qed.

Lemma evictable_nonneg st T hs : Inv P st T hs -> (0 <= evictable_size_ st)%Z.
Proof.
  intros I. rewrite (i_evictable _ _ _ _ I). apply sumz_nonneg. intros n _. unfold part_len.
  destruct (nodes st !! n); [|done]. destruct (Bool.eqb _ _); lia.
Qed.

End Evict.
End REvict.
