(* ===== verification/RadixReq.v ===== *)
(** Requests and the radix cache: [cache_unfinished_req] and
    [cache_finished_req] of [srt/mem_cache/radix_cache.py].

    A request reads its KV slots from its row of the request pool.  The slots in
    front of [cache_protected_len] belong to the tree, on the path to [last_node],
    which the request holds; the others are its own.  Handing the row over to the
    tree conserves the slots: each one ends in the tree, with the request, or is
    given back to the allocator exactly once. *)
From stdpp Require Import base list gmap sets strings.
From Stdlib Require Import ZArith Lia.
From S2P Require Import Prelude Allocator MemoryPool RadixCache RadixTree RadixPath RadixInv RadixLock.
From S2P Require Import RadixMatch RadixInsert RadixEvict.
Local Open Scope nat_scope.
Local Open Scope py_scope.

Module RReq.
Import Radix RTree RPath RInv RMatch RInsert RLock.

(** The fields of a request that the cache reads or writes. *)
Record creq : Type := mkCreq {
  origin_input_ids : list Z;
  output_ids : list Z;
  fill_ids : list Z;
  req_pool_idx : nat;
  req_extra_key : option string;
  req_priority : option Z;
  cache_protected_len : nat;
  last_node : option nat;
  prefix_indices : list Z;
  kv_committed_len : nat;
  kv_committed_freed : bool;
}.

Definition set_freed (r : creq) : creq :=
  mkCreq (origin_input_ids r) (output_ids r) (fill_ids r) (req_pool_idx r) (req_extra_key r) (req_priority r)
    (cache_protected_len r) (last_node r) (prefix_indices r) (kv_committed_len r) true.

Definition set_cached (prot : nat) (ln : option nat) (pi : list Z) (r : creq) : creq :=
  mkCreq (origin_input_ids r) (output_ids r) (fill_ids r) (req_pool_idx r) (req_extra_key r) (req_priority r)
    prot ln pi (kv_committed_len r) (kv_committed_freed r).

(** [pop_committed_kv_cache]. *)
Definition pop_committed_kv_cache (r : creq) : res (nat * creq) :=
  passert (negb (kv_committed_freed r)) (Ok (kv_committed_len r, set_freed r)).

Section Model.
Context {A H : Type} `{Env A H} (P : Params).
Implicit Types (st : RadixCache A H) (r : creq) (pool : Pools.req_pool).

(** [req_to_token[req_pool_idx, :n]]. *)
Definition read_row pool (idx n : nat) : res (list Z) :=
  match Pools.req_to_token pool !! idx with
  | Some row => Ok (take n row)
  | None => Raise IndexError
  end.

(** The key of token ids: bigrams in EAGLE mode, whole pages. *)
Definition radix_keys (token_ids : list Z) : list tokid :=
  page_align_keys (page_size P)
    (if is_eagle P then convert_to_bigram_key (map Single token_ids) else map Single token_ids).

Definition free_slots (v : list Z) st : res (RadixCache A H) :=
  let! a := alloc_free v (allocator st) in Ok (with_alloc a st).

Definition cache_finished_req pool (is_insert : bool) r st : res (creq * RadixCache A H) :=
  let is_insert := if disable_finished_insert P then false else is_insert in
  let! '(kv_committed_len, r) := pop_committed_kv_cache r in
  if disable P then
    let! kv_indices := read_row pool (req_pool_idx r) kv_committed_len in
    let! st := free_slots kv_indices st in
    Ok (r, st)
  else
    let token_ids := take kv_committed_len (origin_input_ids r ++ output_ids r) in
    let! kv_indices := read_row pool (req_pool_idx r) (length token_ids) in
    let keys := radix_keys token_ids in
    let values := take (length keys) kv_indices in
    let radix_key := mkKey keys (req_extra_key r) (is_eagle P) in
    let! st :=
      (if is_insert then
         let! '(new_prefix_len, st) := insert P radix_key (Some values) (default 0%Z (req_priority r)) false st in
         free_slots (py_slice (cache_protected_len r) new_prefix_len kv_indices) st
       else free_slots (py_slice (cache_protected_len r) (length keys) kv_indices) st) in
    let! st := free_slots (drop (length keys) kv_indices) st in
    let! '(_, st) := dec_lock_ref P (last_node r) st in
    Ok (r, st).

Definition cache_unfinished_req pool (chunked : bool) r st : res (creq * Pools.req_pool * RadixCache A H) :=
  if disable P then Ok (r, pool, st)
  else
    let token_ids := fill_ids r in
    let! kv_indices := read_row pool (req_pool_idx r) (length token_ids) in
    let keys := radix_keys token_ids in
    let values := take (length keys) kv_indices in
    let radix_key := mkKey keys (req_extra_key r) (is_eagle P) in
    let! '(new_prefix_len, st) := insert P radix_key (Some values) (default 0%Z (req_priority r)) chunked st in
    let! st := free_slots (py_slice (cache_protected_len r) new_prefix_len kv_indices) st in
    let! '(new_indices, new_last_node, st) := match_prefix P radix_key st in
    passert (length new_indices =? length keys)
     (let! pool := Pools.write (req_pool_idx r) (cache_protected_len r)
                     (drop (cache_protected_len r) new_indices) pool in
      let! '(_, st) := dec_lock_ref P (last_node r) st in
      let! '(_, st) := inc_lock_ref P (Some new_last_node) st in
      let prefix := if length new_indices <? length kv_indices
                    then new_indices ++ drop (length new_indices) kv_indices else new_indices in
      Ok (set_cached (length new_indices) (Some new_last_node) prefix r, pool, st)).

End Model.

(** ** Ownership of the slots *)

(** What the cache relies on: [owns a held] says that the clients of the
    allocator hold the slots [held]; freeing some of them leaves the others. *)
Class AllocOwner {A H : Type} `{Env A H} (owns : A -> list Z -> Prop) : Prop := {
  owns_free : forall a v held, owns a (v ++ held) -> exists a', alloc_free v a = Ok a' /\ owns a' held;
  owns_perm : forall a held held', held ≡ₚ held' -> owns a held -> owns a held';
}.

Section Facts.
Context {A H : Type} `{Env A H} (owns : A -> list Z -> Prop) `{!AllocOwner owns} (P : Params).
Context (Hps : 0 < page_size P) (Hen : disable P = false).
#[local] Abbreviation ps := (page_size P).
Implicit Types (st : RadixCache A H) (r : creq) (pool : Pools.req_pool) (T : gset nat) (hs : list nat).

(** The state of a request whose KV slots are [row]: the protected part is the
    path to its node in the tree, under the page-aligned key of [toks]. *)
Record req_ok st r (toks : list Z) (row : list Z) : Prop := {
  ro_prot : cache_protected_len r <= length (radix_keys P toks);
  ro_path : exists n, last_node r = Some n /\
    sub (nodes st) (req_extra_key r) (root_node st)
      (take (cache_protected_len r) (radix_keys P toks)) (take (cache_protected_len r) row) n;
}.

(** Slots a request holds outside the tree. *)
Definition own (r : creq) (row : list Z) : list Z := drop (cache_protected_len r) row.

Lemma radix_keys_len toks : length (radix_keys P toks) <= length toks.
Proof.
  unfold radix_keys, page_align_keys.
  set (l := if is_eagle P then _ else _). assert (Hl : length l <= length toks).
  { unfold l. destruct (is_eagle P); [|by rewrite length_map].
    assert (E : convert_to_bigram_key (map Single toks) = zip_with pair_of (map Single toks) (drop 1 (map Single toks)))
      by by destruct toks.
    rewrite E, length_zip_with, length_map. apply Nat.le_min_l. }
  destruct (_ =? 1); [done|]. rewrite length_take. lia.
Qed.

Lemma radix_keys_aligned toks : aligned ps (radix_keys P toks).
Proof.
  unfold radix_keys, page_align_keys. set (l := if is_eagle P then _ else _).
  destruct (Nat.eqb_spec ps 1) as [->|]; [apply Nat.divide_1_l|].
  exists (length l / ps). rewrite length_take, Nat.min_l; [done|]. rewrite Nat.mul_comm. apply Nat.Div0.mul_div_le.
Qed.

(** The key of a request needs no conversion. *)
Lemma radix_ekey keys e : ekey P (mkKey keys e (is_eagle P)) = mkKey keys e (is_eagle P).
Proof. unfold ekey, maybe_bigram_convert. simpl. by destruct (is_eagle P). Qed.

Lemma free_slots_spec v held st T hs : Inv P st T hs -> owns (allocator st) (v ++ held) ->
  exists st', free_slots v st = Ok st' /\ Inv P st' T hs /\ owns (allocator st') held /\
    nodes st' = nodes st /\ root_node st' = root_node st.
Proof using AllocOwner0.
  intros I Ho. destruct (owns_free _ _ _ Ho) as (a & Ea & Ho'). unfold free_slots. rewrite Ea. cbn [rbind].
  eexists. split; [done|]. split; [by apply (inv_same P st)|]. done.
Qed.

(** The insertion of a request's slots. *)
Lemma req_insert st T hs r toks row prio chunked : Inv P st T hs -> req_ok st r toks row -> length row = length toks ->
  let keys := radix_keys P toks in
  exists total st' T' old, insert P (mkKey keys (req_extra_key r) (is_eagle P)) (Some (take (length keys) row)) prio chunked st
      = Ok (total, st') /\
    Inv P st' T' hs /\ grows st T st' T' /\ cache_protected_len r <= total <= length keys /\
    length old = total /\ take (cache_protected_len r) old = take (cache_protected_len r) row /\
    cached P st' (req_extra_key r) keys (old ++ drop total (take (length keys) row)) /\
    slots (nodes st') T' ≡ₚ py_slice total (length keys) row ++ slots (nodes st) T /\
    (forall e ts vs, cached P st e ts vs -> cached P st' e ts vs).
Proof using Hps Hen.
  intros I [Hprot (n & Eln & Hsub)] Hlen keys. pose proof (radix_keys_len toks) as Hkl. fold keys in Hkl, Hprot, Hsub.
  pose proof (radix_keys_aligned toks) as Hal. fold keys in Hal.
  assert (Lv : length (take (length keys) row) = length keys) by (rewrite length_take; lia).
  destruct (insert_spec P Hps st T hs (mkKey keys (req_extra_key r) (is_eagle P)) (take (length keys) row) prio chunked Hen I)
    as (total & st' & T' & E & I' & G & (old & Lold & Htot & Hold & Hlong & Hc) & _ & Hsl);
    rewrite ?radix_ekey in *; simpl token_ids in *; simpl extra_key in *; unfold key_len in *; simpl in *; try done; [lia|].
  rewrite !(take_ge (take (length keys) row)) in * by lia.
  exists total, st', T', old. split; [done|]. split; [done|]. split; [done|].
  assert (Hpal : (ps | cache_protected_len r)).
  { destruct (sub_in ps _ _ _ (i_tree _ _ _ _ I) _ _ _ _ _ Hsub (t_root_in _ _ _ _ (i_tree _ _ _ _ I))) as (_ & _ & Ha).
    unfold aligned in Ha. by rewrite length_take, Nat.min_l in Ha. }
  pose proof (sub_cached ps _ _ T (i_tree _ _ _ _ I) Hps _ _ _ _ (cache_protected_len r) Hsub Hpal) as Hc0.
  rewrite !take_take, Nat.min_id in Hc0.
  assert (Hge : cache_protected_len r <= total).
  { destruct (Nat.le_gt_cases (cache_protected_len r) total) as [|Hlt]; [done|].
    destruct (Hlong (cache_protected_len r) (take (cache_protected_len r) row) Hpal); [lia|exact Hc0]. }
  split; [done|]. split; [done|]. split.
  - apply (cached_fun ps _ _ T (i_tree _ _ _ _ I) Hps (req_extra_key r) (take (cache_protected_len r) keys)); [|done].
    destruct Hold as (_ & m & t1 & v1 & S1 & Hp & E1). split; [by apply aligned_take|]. exists m, t1, v1.
    split; [done|]. split.
    + etransitivity; [|exact Hp]. replace (take (cache_protected_len r) keys)
        with (take (cache_protected_len r) (take total keys)) by (by rewrite take_take, Nat.min_l).
      apply prefix_take.
    + rewrite E1, take_take. f_equal. rewrite !length_take. lia.
  - split.
    + apply Hc. right. split; [done|]. split; [exact Hal|]. split; [done|]. symmetry. apply take_ge.
      rewrite length_app, length_drop, Lv. lia.
    + split; [rewrite Hsl; unfold py_slice; by rewrite skipn_firstn_comm|].
      intros e ts vs Hx. apply Hc. by left.
Qed.

(** A row is the protected slots, the duplicates, the new slots and the tail. *)
Lemma row_parts (row : list Z) a b c : a <= b <= c -> c <= length row ->
  drop a row = py_slice a b row ++ py_slice b c row ++ drop c row.
Proof.
  intros Hab Hc. unfold py_slice.
  rewrite <- (take_drop (b - a) (drop a row)) at 1. f_equal. rewrite drop_drop.
  replace (a + (b - a)) with b by lia. rewrite <- (take_drop (c - b) (drop b row)) at 1. f_equal.
  rewrite drop_drop. f_equal. lia.
Qed.

Lemma bumped_ext d l ns ns' : bumped (H := H) d l ns ns' -> forall q qd, ns !! q = Some qd ->
  exists qd', ns' !! q = Some qd' /\ children qd' = children qd /\ key qd' = key qd /\ value qd' = value qd.
Proof.
  intros Hb q qd Eq. specialize (Hb q). rewrite Eq in Hb. eexists. split; [exact Hb|]. by destruct (decide (q ∈ l)).
Qed.

Lemma bumped_slots d l ns ns' T : bumped (H := H) d l ns ns' -> slots ns' T = slots ns T.
Proof.
  intros Hb. apply slots_ext. intros n _. unfold valof. rewrite (Hb n). destruct (ns !! n) as [nd|]; [|done].
  simpl. by destruct (decide (n ∈ l)).
Qed.

Lemma bumped_sub d l ns ns' e n ts vs n' : bumped (H := H) d l ns ns' -> sub ns e n ts vs n' -> sub ns' e n ts vs n'.
Proof. intros Hb. apply sub_ext. by apply (bumped_ext d l). Qed.

Lemma bumped_cached d l st st' e ts vs : bumped d l (nodes st) (nodes st') -> root_node st' = root_node st ->
  cached P st e ts vs -> cached P st' e ts vs.
Proof.
  intros Hb Er (Hp & n & ts' & vs' & Hs & Hr). split; [done|]. exists n, ts', vs'. rewrite Er. split; [|done].
  by apply (bumped_sub d l (nodes st)).
Qed.

(** Giving up a hold changes neither the contents nor the slots. *)
Lemma release st T hs n : Inv P st T (n :: hs) ->
  exists d st', dec_lock_ref P (Some n) st = Ok (d, st') /\ Inv P st' T hs /\ allocator st' = allocator st /\
    root_node st' = root_node st /\ slots (nodes st') T = slots (nodes st) T /\
    (forall e m ts vs n', sub (nodes st) e m ts vs n' -> sub (nodes st') e m ts vs n') /\
    (forall e ts vs, cached P st e ts vs -> cached P st' e ts vs).
Proof using Hps Hen.
  intros I. destruct (dec_lock_spec P st T hs n Hen I) as (st' & l & E & I' & _ & Hb & Er & _ & _ & _ & Ea).
  eexists _, st'. split; [exact E|]. split; [done|]. split; [done|]. split; [done|].
  split; [by apply (bumped_slots (-1) l)|]. split; intros.
  - by apply (bumped_sub (-1) l (nodes st)).
  - by apply (bumped_cached (-1) l st).
Qed.

Lemma acquire st T hs n : Inv P st T hs -> n ∈ T ->
  exists d st', inc_lock_ref P (Some n) st = Ok (d, st') /\ Inv P st' T (n :: hs) /\ allocator st' = allocator st /\
    root_node st' = root_node st /\ slots (nodes st') T = slots (nodes st) T /\
    (forall e m ts vs n', sub (nodes st) e m ts vs n' -> sub (nodes st') e m ts vs n') /\
    (forall e ts vs, cached P st e ts vs -> cached P st' e ts vs).
Proof using Hps Hen.
  intros I Hn. destruct (inc_lock_spec P st T hs n Hen I Hn) as (st' & l & E & I' & _ & Hb & Er & _ & _ & _ & Ea).
  eexists _, st'. split; [exact E|]. split; [done|]. split; [done|]. split; [done|].
  split; [by apply (bumped_slots 1 l)|]. split; intros.
  - by apply (bumped_sub 1 l (nodes st)).
  - by apply (bumped_cached 1 l st).
Qed.

Lemma free_cached v st st' : free_slots v st = Ok st' -> forall e ts vs, cached P st e ts vs -> cached P st' e ts vs.
Proof. unfold free_slots. destruct (alloc_free v (allocator st)) as [a|]; [|done]. intros [= <-]. done. Qed.

(** The end of a finished request: the tail is freed and the hold given up. *)
Lemma finish_tail st T hs n v held r : Inv P st T (n :: hs) -> owns (allocator st) (v ++ slots (nodes st) T ++ held) ->
  exists st', rbind (free_slots v st) (fun st => rbind (dec_lock_ref P (Some n) st) (fun '(_, st) => Ok (r, st))) = Ok (r, st') /\
    Inv P st' T hs /\ owns (allocator st') (slots (nodes st') T ++ held) /\
    (forall e ts vs, cached P st e ts vs -> cached P st' e ts vs).
Proof using Hps Hen AllocOwner0.
  intros I Ho. destruct (free_slots_spec v (slots (nodes st) T ++ held) st T (n :: hs) I Ho)
    as (st1 & E1 & I1 & Ho1 & En1 & Er1). rewrite E1. cbn [rbind].
  destruct (release st1 T hs n I1) as (d & st2 & E2 & I2 & Ea2 & Er2 & Hsl & _ & Hc). rewrite E2. cbn [rbind].
  exists st2. split; [done|]. split; [done|]. rewrite Ea2, Hsl, En1. split; [done|].
  intros e ts vs Hx. apply Hc. by apply (free_cached _ _ _ E1).
Qed.

Section Finished.
Context (pool : Pools.req_pool) (r : creq) (full : list Z).
Context (Hrow : Pools.req_to_token pool !! req_pool_idx r = Some full).
#[local] Abbreviation ftoks := (take (kv_committed_len r) (origin_input_ids r ++ output_ids r)).
#[local] Abbreviation frow := (take (length ftoks) full).
Context (Hfull : length ftoks <= length full).

(** A finished request leaves nothing behind: it gives up its hold, its slots are
    in the tree or free, and with insertion its whole pages are cached. *)
Lemma cache_finished_spec st T hs n others is_insert :
  Inv P st T (n :: hs) -> last_node r = Some n -> kv_committed_freed r = false -> req_ok st r ftoks frow ->
  owns (allocator st) (slots (nodes st) T ++ own r frow ++ others) ->
  exists st' T', cache_finished_req P pool is_insert r st = Ok (set_freed r, st') /\ Inv P st' T' hs /\
    owns (allocator st') (slots (nodes st') T' ++ others) /\
    (forall e ts vs, cached P st e ts vs -> cached P st' e ts vs) /\
    (is_insert && negb (disable_finished_insert P) = true ->
     exists vs, cached P st' (req_extra_key r) (radix_keys P ftoks) vs).
Proof using Hps Hen Hrow Hfull AllocOwner0.
  intros I Eln Hfr Hok Ho. unfold cache_finished_req, pop_committed_kv_cache. rewrite Hfr. cbn [negb passert rbind].
  rewrite Hen. cbn [set_freed origin_input_ids output_ids req_pool_idx]. unfold read_row. rewrite Hrow. cbn [rbind].
  set (keys := radix_keys P ftoks). pose proof (radix_keys_len ftoks) as Hkl. fold keys in Hkl.
  assert (Lrow : length frow = length ftoks) by (rewrite length_take; lia).
  set (row := frow) in *. change (req_extra_key (set_freed r)) with (req_extra_key r).
  change (req_priority (set_freed r)) with (req_priority r). change (last_node (set_freed r)) with (last_node r).
  change (cache_protected_len (set_freed r)) with (cache_protected_len r). rewrite Eln.
  destruct (if disable_finished_insert P then false else is_insert) eqn:Eins.
  - destruct (req_insert st T (n :: hs) r ftoks row (default 0%Z (req_priority r)) false I Hok Lrow)
      as (total & st1 & T1 & old & E1 & I1 & G & Ht & _ & _ & Hc & Hsl & Hk).
    change (radix_keys P ftoks) with keys in Ht, Hc, Hsl, E1. rewrite E1. cbn [rbind].
    destruct (free_slots_spec (py_slice (cache_protected_len r) total row) (drop (length keys) row ++ slots (nodes st1) T1 ++ others)
      st1 T1 (n :: hs) I1) as (st2 & E2 & I2 & Ho2 & En2 & Er2).
    { destruct G as (_ & _ & _ & -> & _). eapply owns_perm; [|exact Ho]. rewrite Hsl. unfold own.
      rewrite (row_parts row _ total (length keys)) by lia. solve_Permutation. }
    rewrite E2. cbn [rbind]. rewrite <- En2 in Ho2.
    destruct (finish_tail st2 T1 hs n (drop (length keys) row) others (set_freed r) I2 Ho2) as (st3 & E3 & I3 & Ho3 & Hk3).
    exists st3, T1. split; [exact E3|]. split; [done|]. split; [done|]. split; [by eauto using free_cached|].
    intros _. eexists. apply Hk3. apply (free_cached _ _ _ E2). exact Hc.
  - destruct (free_slots_spec (py_slice (cache_protected_len r) (length keys) row) (drop (length keys) row ++ slots (nodes st) T ++ others)
      st T (n :: hs) I) as (st2 & E2 & I2 & Ho2 & En2 & Er2).
    { eapply owns_perm; [|exact Ho]. unfold own. destruct Hok as [Hp _]. change (radix_keys P ftoks) with keys in Hp.
      rewrite (row_parts row _ (length keys) (length keys)) by lia.
      unfold py_slice at 2. rewrite Nat.sub_diag. solve_Permutation. }
    rewrite E2. cbn [rbind]. rewrite <- En2 in Ho2.
    destruct (finish_tail st2 T hs n (drop (length keys) row) others (set_freed r) I2 Ho2) as (st3 & E3 & I3 & Ho3 & Hk3).
    exists st3, T. split; [exact E3|]. split; [done|]. split; [done|]. split; [by eauto using free_cached|].
    destruct is_insert, (disable_finished_insert P); done.
Qed.
End Finished.

(** Looking up the pages of a request. *)
Lemma match_cached st T hs toks e vs : Inv P st T hs -> cached P st e (radix_keys P toks) vs ->
  exists n st' T', match_prefix P (mkKey (radix_keys P toks) e (is_eagle P)) st = Ok (vs, n, st') /\ Inv P st' T' hs /\
    Refines P st T st' T' /\ n ∈ T' /\ length vs = length (radix_keys P toks) /\
    sub (nodes st') e (root_node st') (radix_keys P toks) vs n.
Proof using Hps Hen.
  intros I Hc. pose proof (match_whole P Hps st T hs (mkKey (radix_keys P toks) e (is_eagle P)) vs Hen I) as Hm.
  rewrite radix_ekey in Hm. apply Hm; [apply radix_keys_aligned|done].
Qed.

Section Unfinished.
Context (pool : Pools.req_pool) (r : creq) (full : list Z).
Context (Hrow : Pools.req_to_token pool !! req_pool_idx r = Some full).
#[local] Abbreviation row := (take (length (fill_ids r)) full).
#[local] Abbreviation keys := (radix_keys P (fill_ids r)).
Context (Hfull : length (fill_ids r) <= length full).

(** The row after the request's new slots were exchanged for the cached ones. *)
Lemma row_swap vs : cache_protected_len r <= length keys -> length vs = length keys ->
  take (cache_protected_len r) vs = take (cache_protected_len r) row ->
  exists full', Pools.write (req_pool_idx r) (cache_protected_len r) (drop (cache_protected_len r) vs) pool =
      Ok (Pools.mkReqPool (Pools.size pool) (Pools.max_context_len pool)
            (<[req_pool_idx r := full']> (Pools.req_to_token pool)) (Pools.free_slots pool)) /\
    full' = vs ++ drop (length keys) full.
Proof using Hrow Hfull Hps Hen.
  intros Hp Lv Ep. pose proof (radix_keys_len (fill_ids r)) as Hkl. unfold Pools.write. rewrite Hrow, length_drop, Lv.
  rewrite (proj2 (Nat.leb_le _ _)) by lia. eexists. split; [done|]. unfold py_splice.
  rewrite length_drop, Lv. replace (_ + (_ - _)) with (length keys) by lia. rewrite app_assoc. f_equal.
  rewrite <- (take_drop (cache_protected_len r) vs) at 2. f_equal. rewrite Ep, take_take. f_equal. lia.
Qed.

(** An unfinished request hands its whole pages to the tree: the assertion holds,
    its row now holds the cached slots, it holds the node that ends them, and
    every slot stays accounted for. *)
Lemma cache_unfinished_spec st T hs n others chunked :
  Inv P st T (n :: hs) -> last_node r = Some n -> req_ok st r (fill_ids r) row ->
  owns (allocator st) (slots (nodes st) T ++ own r row ++ others) ->
  exists r' pool' st' T' n' full', cache_unfinished_req P pool chunked r st = Ok (r', pool', st') /\
    Inv P st' T' (n' :: hs) /\ last_node r' = Some n' /\ fill_ids r' = fill_ids r /\
    Pools.req_to_token pool' = <[req_pool_idx r := full']> (Pools.req_to_token pool) /\ length full' = length full /\
    cache_protected_len r' = length keys /\ prefix_indices r' = take (length (fill_ids r)) full' /\
    req_ok st' r' (fill_ids r) (take (length (fill_ids r)) full') /\
    owns (allocator st') (slots (nodes st') T' ++ own r' (take (length (fill_ids r)) full') ++ others) /\
    (forall e ts vs, cached P st e ts vs -> cached P st' e ts vs).
Proof using Hps Hen Hrow Hfull AllocOwner0.
  intros I Eln Hok Ho. unfold cache_unfinished_req. rewrite Hen. unfold read_row. rewrite Hrow. cbn [rbind].
  pose proof (radix_keys_len (fill_ids r)) as Hkl. pose proof (ro_prot _ _ _ _ Hok) as Hp.
  assert (Lrow : length row = length (fill_ids r)) by (rewrite length_take; lia).
  destruct (req_insert st T (n :: hs) r (fill_ids r) row (default 0%Z (req_priority r)) chunked I Hok Lrow)
    as (total & st1 & T1 & old & E1 & I1 & G & Ht & Lold & Eold & Hc & Hsl & Hk). rewrite E1. cbn [rbind].
  destruct (free_slots_spec (py_slice (cache_protected_len r) total row) (slots (nodes st1) T1 ++ drop (length keys) row ++ others)
    st1 T1 (n :: hs) I1) as (st2 & E2 & I2 & Ho2 & En2 & Er2).
  { destruct G as (_ & _ & _ & -> & _). eapply owns_perm; [|exact Ho]. rewrite Hsl. unfold own.
    rewrite (row_parts row _ total (length keys)) by lia. solve_Permutation. }
  rewrite E2. cbn [rbind]. apply (free_cached _ _ _ E2) in Hc. rewrite <- En2 in Ho2.
  destruct (match_cached st2 T1 (n :: hs) (fill_ids r) _ _ I2 Hc) as (n' & st3 & T3 & E3 & I3 & R3 & Hn3 & Lvs & Hs3).
  set (vs := old ++ drop total (take (length keys) row)) in *. rewrite E3. cbn [rbind].
  rewrite Lvs, Nat.eqb_refl. cbn [passert].
  destruct (row_swap vs Hp Lvs) as (full' & Ew & Efull).
  { unfold vs. rewrite take_app_le by lia. exact Eold. }
  rewrite Ew, Eln. cbn [rbind].
  destruct (release st3 T3 hs n I3) as (d4 & st4 & E4 & I4 & Ea4 & Er4 & Hsl4 & Hs4 & Hc4). rewrite E4. cbn [rbind].
  destruct (acquire st4 T3 hs n' I4 Hn3) as (d5 & st5 & E5 & I5 & Ea5 & Er5 & Hsl5 & Hs5 & Hc5). rewrite E5. cbn [rbind].
  assert (Erow : take (length (fill_ids r)) full' = vs ++ drop (length keys) row).
  { rewrite Efull, take_app_ge, Lvs by lia. f_equal. by rewrite skipn_firstn_comm. }
  do 3 eexists. exists T3, n', full'. split; [reflexivity|]. split; [done|]. do 2 (split; [done|]). split; [done|].
  split; [subst full'; rewrite length_app, length_drop; lia|]. split; [done|]. rewrite Erow. split.
  { cbn [prefix_indices set_cached]. destruct (Nat.ltb_spec (length keys) (length row)) as [|Hge]; [done|].
    by rewrite drop_ge, app_nil_r by lia. }
  split.
  { split; cbn [cache_protected_len last_node req_extra_key set_cached]; [done|]. exists n'. split; [done|].
    rewrite firstn_all, take_app_length' by done. rewrite Er5, Er4. by apply Hs5, Hs4. }
  split; [|intros e ts ws Hx; apply Hc5, Hc4, (rf_cached _ _ _ _ _ R3), (free_cached _ _ _ E2); by apply Hk].
  unfold own. cbn [cache_protected_len set_cached]. rewrite drop_app_length' by done.
  rewrite Ea5, Ea4, (rf_alloc _ _ _ _ _ R3), Hsl5, Hsl4. eapply owns_perm; [|exact Ho2].
  by rewrite (rf_slots _ _ _ _ _ R3).
Qed.
End Unfinished.

End Facts.

(** The token allocator is such an owner, inside a free group and outside: the
    slots that wait in an open group no longer count as held. *)
Definition token_env {H} (hash : list tokid -> option H -> H) (to_int : H -> Z) (clock : nat -> Z) : Env Base.allocator H :=
  {| alloc_free := Token.free; get_hash_str := hash; hash_str_to_int64 := to_int; monotonic := clock |}.

Definition token_owns (a : Base.allocator) (held : list Z) : Prop := Base.Owns a (Token.pending a ++ held).

#[export] Instance token_owner {H} hash to_int clock : AllocOwner (H := H) (H0 := token_env hash to_int clock) token_owns.
Proof.
  split; unfold token_owns.
  - intros a v held Ho. cbn [alloc_free token_env]. destruct (Base.is_not_in_free_group a) eqn:Eg.
    + assert (exists a', Token.free v a = Ok a') as (a' & Ea) by (unfold Token.free; destruct v; by eexists).
      exists a'. split; [done|]. destruct (Token.free_spec a _ v (Token.pending a ++ held) a' Ho Eg) as (Ho' & Eg' & _); [|done|].
      * solve_Permutation.
      * unfold Token.pending in *. by rewrite Eg, Eg' in *.
    + unfold Token.free. rewrite Eg. destruct v as [|x v]; [by exists a|]. eexists. split; [done|].
      split; simpl; [|apply Ho]. unfold Token.pending in *. simpl. rewrite Eg in Ho. rewrite concat_app. simpl.
      rewrite app_nil_r, <- app_assoc. apply Ho.
  - intros a held held' Hp Ho. by apply (Base.Owns_proper a _ _ (Permutation_app_head _ Hp)).
Qed.
End RReq.
