(* ===== verification/RadixReach.v ===== *)
(** The radix cache as a state machine: [reset], the sizes, and every state that
    the operations reach from an empty cache.

    [rstep] is one call on the cache by a client that releases what it locked;
    [reach] are the states of such clients, with the nodes they hold.  The
    invariant of [RadixInv] holds in each, so no call raises and the size counters
    agree with the traversal of the tree that [total_size] does. *)
From stdpp Require Import base list gmap sets strings.
From Stdlib Require Import ZArith Lia.
From S2P Require Import Prelude RadixCache RadixTree RadixPath RadixInv RadixLock RadixMatch RadixInsert RadixEvict.
Local Open Scope nat_scope.

Module RReach.
Import Radix RTree RPath RInv RMatch RInsert RLock REvict.

(** ** The empty cache *)

Section Reset.
Context {A H : Type} `{Env A H} (P : Params).
#[local] Abbreviation ps := (page_size P).
Implicit Types (st : RadixCache A H) (T : gset nat) (hs : list nat).

Definition fresh st : Prop := forall n nd, nodes st !! n = Some nd -> n < counter st.

Lemma reset_node st : exists rd, nodes (reset P st) !! root_node (reset P st) = Some rd /\ parent rd = None /\
  key rd = mkKey [] None false /\ value rd = Some [] /\ lock_ref rd = 1%Z /\ children rd = ∅ /\ hash_value rd = Some [].
Proof.
  unfold reset, _record_all_cleared_event. cbn -[update with_leaves with_sizes with_root].
  destruct (enable_kv_cache_events P); cbn; rewrite lookup_alter_eq, lookup_insert_eq; by eexists.
Qed.

Lemma reset_sizes st : evictable_size_ (reset P st) = 0%Z /\ protected_size_ (reset P st) = 0%Z /\
  evictable_leaves (reset P st) = ∅ /\ allocator (reset P st) = allocator st /\
  counter (reset P st) = S (counter st) /\ root_node (reset P st) = counter st.
Proof. unfold reset, _record_all_cleared_event. cbn. by destruct (enable_kv_cache_events P). Qed.

Lemma reset_fresh st : fresh st -> fresh (reset P st).
Proof.
  intros Hf n nd. destruct (reset_sizes st) as (_ & _ & _ & _ & -> & _).
  unfold reset, _record_all_cleared_event. cbn. destruct (enable_kv_cache_events P); cbn.
  all: destruct (decide (n = counter st)) as [->|Hne]; [lia|].
  all: rewrite lookup_alter_ne, lookup_insert_ne by done; intros En%Hf; lia.
Qed.

Lemma reset_inv st : fresh st -> Inv P (reset P st) {[root_node (reset P st)]} [].
Proof.
  intros Hf. destruct (reset_node st) as (rd & Er & Rp & Rk & Rv & Rl & Rc & Rh).
  destruct (reset_sizes st) as (Ee & Ep & El & _). set (st' := reset P st) in *. split.
  - split.
    + set_solver.
    + exists rd. rewrite Rk. done.
    + intros n Hn Hr. set_solver.
    + intros n nd ck c Hn%elem_of_singleton En Ec. subst n. rewrite Er in En. injection En as <-.
      rewrite Rc in Ec. by rewrite lookup_empty in Ec.
    + exists id. intros n nd p Hn%elem_of_singleton En Hp. subst n. congruence.
  - by apply reset_fresh.
  - constructor.
  - exists []. split; [constructor|]. intros n nd Hn Hr. set_solver.
  - by rewrite Ee, difference_diag_L.
  - by rewrite Ep, difference_diag_L.
  - intros n. rewrite El. set_solver.
  - intros n nd p pd Hn Hr. set_solver.
  - by exists rd.
Qed.

Lemma empty_inv a : Inv P (init P a) {[root_node (init P a)]} [].
Proof. apply reset_inv. intros n nd. simpl. by rewrite lookup_empty. Qed.

End Reset.

(** ** [total_size] *)

Section Total.
Context {A H : Type} `{Env A H} (P : Params) (st : RadixCache A H) (T : gset nat) (hs : list nat).
Context (I : Inv P st T hs).
#[local] Abbreviation ps := (page_size P).
#[local] Abbreviation root := (root_node st).

Definition klen (n : nat) : Z := match nodes st !! n with Some nd => Z.of_nat (key_len (key nd)) | None => 0%Z end.

(** The nodes [D] were popped, [S] are on the stack: a node is known once its
    parent was popped. *)
Record dfs (D S : list nat) : Prop := {
  d_nodup : NoDup (D ++ S);
  d_in : forall n, n ∈ D ++ S -> n ∈ T;
  d_known : forall n nd, n ∈ T -> nodes st !! n = Some nd ->
    n ∈ D ++ S <-> n = root \/ exists p, parent nd = Some p /\ p ∈ D;
}.

Lemma device_value n : n ∈ T -> exists nd v, nodes st !! n = Some nd /\ value nd = Some v /\ Z.of_nat (length v) = klen n.
Proof using I.
  intros Hn. unfold klen. destruct (decide (n = root)) as [->|Hr].
  - destruct (t_root _ _ _ _ (i_tree _ _ _ _ I)) as (rd & Er & _ & Hk & Hv & _). exists rd, [].
    rewrite Er, Hk. done.
  - destruct (t_node _ _ _ _ (i_tree _ _ _ _ I) n Hn Hr) as (nd & p & pd & K).
    destruct (no_value _ _ _ _ _ _ _ _ K) as (v & Ev & Lv). exists nd, v.
    rewrite (no_node _ _ _ _ _ _ _ _ K), Lv. done.
Qed.

Definition live_kids (nd : TreeNode H) : list nat :=
  filter (fun c => in_device st c = true) (map snd (map_to_list (children nd))).

Lemma live_spec n nd c : n ∈ T -> nodes st !! n = Some nd ->
  c ∈ live_kids nd <-> c ∈ T /\ c <> root /\ exists cd, nodes st !! c = Some cd /\ parent cd = Some n.
Proof using I.
  intros Hn En. unfold live_kids. rewrite list_elem_of_filter. split.
  - intros (_ & ((ck, c') & -> & Hin%elem_of_map_to_list)%list_elem_of_fmap).
    destruct (t_kids _ _ _ _ (i_tree _ _ _ _ I) n nd ck c' Hn En Hin) as (C1 & C2 & cd & C3 & C4 & _). eauto.
  - intros (Hc & Hr & cd & Ec & Ep). destruct (t_node _ _ _ _ (i_tree _ _ _ _ I) c Hc Hr) as (cd' & p & pd & K).
    pose proof (no_node _ _ _ _ _ _ _ _ K) as E1. rewrite Ec in E1. injection E1 as <-.
    pose proof (no_parent _ _ _ _ _ _ _ _ K) as E2. rewrite Ep in E2. injection E2 as <-.
    pose proof (no_pnode _ _ _ _ _ _ _ _ K) as E3. rewrite En in E3. injection E3 as <-. split.
    + unfold in_device. rewrite Ec. destruct (no_value _ _ _ _ _ _ _ _ K) as (v & Ev & _).
      unfold evicted. by rewrite Ev.
    + apply list_elem_of_fmap. exists (ck_of ps (key cd), c). split; [done|].
      apply elem_of_map_to_list, K.
Qed.

Lemma live_nodup n nd : n ∈ T -> nodes st !! n = Some nd -> NoDup (live_kids nd).
Proof using I.
  intros Hn En. apply NoDup_filter, NoDup_fmap_2_strong; [|apply NoDup_map_to_list].
  intros [ck c] [ck' c'] H1%elem_of_map_to_list H2%elem_of_map_to_list E. simpl in E. subst c'. f_equal.
  destruct (t_kids _ _ _ _ (i_tree _ _ _ _ I) n nd ck c Hn En H1) as (_ & _ & cd & C3 & _ & ->).
  destruct (t_kids _ _ _ _ (i_tree _ _ _ _ I) n nd ck' c Hn En H2) as (_ & _ & cd' & C3' & _ & ->). congruence.
Qed.

Lemma dfs_start : dfs [] [root].
Proof using I.
  pose proof (t_root_in _ _ _ _ (i_tree _ _ _ _ I)) as Hr. split; simpl.
  - apply NoDup_singleton.
  - by intros n ->%list_elem_of_singleton.
  - intros n nd Hn En. rewrite list_elem_of_singleton. split; [by left|]. intros [->|(p & _ & Hp)]; [done|].
    by apply not_elem_of_nil in Hp.
Qed.

Lemma dfs_step D n S nd : dfs D (n :: S) -> nodes st !! n = Some nd -> dfs (n :: D) (live_kids nd ++ S).
Proof using I.
  intros [Hnd Hin Hk] En. assert (Hn : n ∈ T) by (apply Hin; set_solver).
  assert (Hperm : D ++ n :: S ≡ₚ n :: D ++ S) by solve_Permutation.
  assert (HnD : n ∉ D) by (apply NoDup_app in Hnd as (_ & Hd & _); intros X; apply (Hd n X); by left).
  assert (Hnew : forall c, c ∈ live_kids nd -> c ∉ n :: D ++ S).
  { intros c (Hc & Hr & cd & Ec & Ep)%(live_spec n nd c Hn En) X. rewrite <- Hperm in X.
    apply (Hk c cd Hc Ec) in X as [->|(p & Ep' & Hp)]; [done|]. congruence. }
  split.
  - assert (E : (n :: D) ++ live_kids nd ++ S ≡ₚ live_kids nd ++ n :: D ++ S) by solve_Permutation. rewrite E.
    apply NoDup_app. split; [by apply (live_nodup n)|]. split; [done|]. by rewrite <- Hperm.
  - intros c Hc. assert (c ∈ live_kids nd \/ c ∈ D ++ n :: S) as [Hl|Ho] by set_solver; [|by apply Hin].
    by apply (live_spec n nd c Hn En) in Hl as (? & _).
  - intros c cd Hc Ec. transitivity (c ∈ live_kids nd \/ c ∈ D ++ n :: S); [set_solver|].
    rewrite (live_spec n nd c Hn En), (Hk c cd Hc Ec). split.
    + intros [(_ & _ & cd' & Ec' & Ep)|[->|(p & Ep & Hp)]]; [|by left|right; exists p; set_solver].
      right. exists n. rewrite Ec in Ec'. injection Ec' as <-. set_solver.
    + intros [->|(p & Ep & [->|Hp]%elem_of_cons)]; [right; by left| |right; right; by exists p].
      destruct (decide (c = root)) as [->|Hr]; [right; by left|left]. split; [done|]. split; [done|]. by exists cd.
Qed.

Lemma dfs_end D : dfs D [] -> D ≡ₚ elements T.
Proof using I.
  intros [Hnd Hin Hk]. rewrite app_nil_r in *. destruct (t_rank _ _ _ _ (i_tree _ _ _ _ I)) as (rk & Hrk).
  apply NoDup_Permutation; [done|apply NoDup_elements|]. intros n. rewrite elem_of_elements. split; [apply Hin|].
  remember (rk n) as w eqn:Ew. revert n Ew. induction w as [w IH] using lt_wf_ind. intros n -> Hn.
  destruct (decide (n = root)) as [->|Hr].
  - destruct (t_root _ _ _ _ (i_tree _ _ _ _ I)) as (rd & Er & _). apply (Hk _ rd Hn Er). by left.
  - destruct (t_node _ _ _ _ (i_tree _ _ _ _ I) n Hn Hr) as (nd & p & pd & K).
    pose proof (no_node _ _ _ _ _ _ _ _ K) as En. pose proof (no_parent _ _ _ _ _ _ _ _ K) as Ep.
    apply (Hk n nd Hn En). right. exists p. split; [done|].
    apply (IH (rk p)); [by apply (Hrk n nd p)|done|]. apply (no_pin _ _ _ _ _ _ _ _ K).
Qed.

Lemma total_loop_spec fuel : forall D S total, dfs D S -> size T <= length D + fuel ->
  Z.of_nat total = lsumz klen D ->
  exists t, total_loop fuel total S st = Ok t /\ Z.of_nat t = sumz klen T.
Proof using I.
  induction fuel as [|fuel IH]; intros D S total Hd Hf Ht; (destruct S as [|n S];
    [exists total; split; [done|]; rewrite Ht; unfold sumz; apply lsumz_perm; by apply dfs_end|]).
  { exfalso. destruct Hd as [Hnd Hin _].
    assert (Hle : length (D ++ n :: S) <= size T).
    { rewrite <- (size_list_to_set (C := gset nat)) by done. apply subseteq_size. intros x. rewrite elem_of_list_to_set. apply Hin. }
    rewrite length_app in Hle. simpl in Hle. lia. }
  assert (Hn : n ∈ T) by (apply Hd; set_solver).
  destruct (device_value n Hn) as (nd & v & En & Ev & Lv). cbn [total_loop].
  rewrite (get_node_Ok n nd) by done. cbn [rbind]. rewrite Ev. cbn [rbind tensor]. fold (live_kids nd).
  apply (IH (n :: D)); [by apply dfs_step|simpl; lia|]. simpl. lia.
Qed.

Lemma nodes_size : size T <= size (nodes st).
Proof using I.
  rewrite <- size_dom. apply subseteq_size. intros n Hn. apply elem_of_dom.
  destruct (t_node_any ps _ _ _ _ (i_tree _ _ _ _ I) Hn) as (nd & ->). by eexists.
Qed.

(** The traversal agrees with the counters. *)
Lemma total_size_spec : exists t, total_size st = Ok t /\ Z.of_nat t = (evictable_size_ st + protected_size_ st)%Z.
Proof using I.
  destruct (total_loop_spec (size (nodes st)) [] [root] 0 dfs_start) as (t & E & Et); [apply nodes_size|done|].
  exists t. split; [done|]. rewrite Et, (i_evictable _ _ _ _ I), (i_protected _ _ _ _ I), sumz_add.
  pose proof (t_root_in _ _ _ _ (i_tree _ _ _ _ I)) as Hr. rewrite (sumz_delete klen T root Hr).
  assert (Ek : klen root = 0%Z).
  { unfold klen. destruct (t_root _ _ _ _ (i_tree _ _ _ _ I)) as (rd & -> & _ & -> & _). done. }
  rewrite Ek. simpl. apply sumz_ext. intros n _. unfold klen, part_len. destruct (nodes st !! n) as [nd|]; [|done].
  destruct (lock_ref nd =? 0)%Z; simpl; lia.
Qed.

End Total.

(** ** Reachable states *)

Section Reach.
Context {A H : Type} `{Env A H} `{!FreeTotal A H} (P : Params).
Context (Hps : 0 < page_size P) (Hen : disable P = false).
#[local] Abbreviation ps := (page_size P).
Implicit Types (st : RadixCache A H) (T : gset nat) (hs : list nat).

(** The node that ends a cached prefix: what [match_prefix] returns. *)
Definition ends st (n : nat) : Prop := exists e ts vs, sub (nodes st) e (root_node st) ts vs n.

(** The keys a caller may insert: whole pages, one slot per token. *)
Definition insertable (k : RadixKey) (v : list Z) : Prop :=
  aligned ps (token_ids (ekey P k)) /\ key_len (ekey P k) <= length v /\
  (is_eagle P = false \/ is_bigram k = true -> length v = key_len k).

(** One call; the list holds the nodes on which a lock is held. *)
Inductive rstep : RadixCache A H * list nat -> RadixCache A H * list nat -> Prop :=
| r_match st hs k vs n st' : match_prefix P k st = Ok (vs, n, st') -> rstep (st, hs) (st', hs)
| r_insert st hs k v prio chunked n st' : insertable k v -> insert P k (Some v) prio chunked st = Ok (n, st') ->
    rstep (st, hs) (st', hs)
| r_lock st hs n d st' : ends st n -> inc_lock_ref P (Some n) st = Ok (d, st') -> rstep (st, hs) (st', n :: hs)
| r_unlock st hs hs' n d st' : hs ≡ₚ n :: hs' -> dec_lock_ref P (Some n) st = Ok (d, st') -> rstep (st, hs) (st', hs')
| r_evict st hs want k st' : evict P want st = Ok (k, st') -> rstep (st, hs) (st', hs)
| r_events st hs : rstep (st, hs) (snd (take_events P st), hs)
| r_reset st : rstep (st, []) (reset P st, []).

Definition reach (a : A) : RadixCache A H * list nat -> Prop := rtc rstep (init P a, []).

Lemma ends_in st T hs n : Inv P st T hs -> ends st n -> n ∈ T.
Proof.
  intros I (e & ts & vs & Hs).
  by apply (sub_in ps _ _ _ (i_tree _ _ _ _ I) _ _ _ _ _ Hs (t_root_in _ _ _ _ (i_tree _ _ _ _ I))).
Qed.

Lemma rstep_inv s s' : rstep s s' -> (exists T, Inv P s.1 T s.2) -> exists T, Inv P s'.1 T s'.2.
Proof using Hps Hen FreeTotal0.
  intros Hs (T & I). destruct Hs as [st hs k vs n st' E|st hs k v prio ch n st' (K1 & K2 & K3) E|st hs n d st' Hn E|
    st hs hs' n d st' Hp E|st hs want k st' E|st hs|st]; simpl in *.
  - destruct (match_prefix_spec P Hps st T hs k Hen I) as (? & ? & st1 & T1 & E1 & I1 & _).
    rewrite E in E1. injection E1 as <- <- <-. by exists T1.
  - destruct (insert_spec P Hps st T hs k v prio ch Hen I K1 K2 K3) as (? & st1 & T1 & E1 & I1 & _).
    rewrite E in E1. injection E1 as <- <-. by exists T1.
  - destruct (inc_lock_spec P st T hs n Hen I (ends_in _ _ _ _ I Hn)) as (st1 & ? & E1 & I1 & _).
    rewrite E in E1. injection E1 as _ <-. by exists T.
  - destruct (dec_lock_spec P st T hs' n Hen (inv_perm P _ _ _ _ Hp I)) as (st1 & ? & E1 & I1 & _).
    rewrite E in E1. injection E1 as _ <-. by exists T.
  - destruct (evict_spec P st T hs want Hps Hen I) as (fr & st1 & T1 & E1 & _ & I1 & _).
    rewrite E in E1. injection E1 as _ <-. by exists T1.
  - exists T. unfold take_events. destruct (enable_kv_cache_events P); [|done]. by apply (inv_same P st).
  - eexists. apply reset_inv. intros n nd. apply I.
Qed.

Lemma reach_inv a st hs : reach a (st, hs) -> exists T, Inv P st T hs.
Proof using Hps Hen FreeTotal0.
  intros Hr. apply (rtc_ind_r (fun s => exists T, Inv P s.1 T s.2) _) in Hr; [exact Hr| |].
  - eexists. apply empty_inv.
  - intros s s' _ Hs. by apply rstep_inv.
Qed.

(** What a lookup returned can be locked. *)
Lemma match_ends a st hs k vs n st' : reach a (st, hs) -> match_prefix P k st = Ok (vs, n, st') -> ends st' n.
Proof using Hps Hen FreeTotal0.
  intros (T & I)%reach_inv E.
  destruct (match_prefix_spec P Hps st T hs k Hen I) as (ws & m & st1 & T1 & E1 & _ & _ & _ & _ & Hs & _).
  rewrite E in E1. injection E1 as <- <- <-. do 3 eexists. exact Hs.
Qed.

(** Without holders nothing is protected. *)
Lemma unheld_protected st T : Inv P st T [] -> protected_size_ st = 0%Z.
Proof using Type.
  clear Hps Hen. intros I. rewrite (i_protected _ _ _ _ I). unfold sumz. rewrite (lsumz_ext _ (fun _ => 0%Z)).
  { induction (elements _); simpl; [done|lia]. }
  intros n [Hn Hr%not_elem_of_singleton]%elem_of_elements%elem_of_difference. unfold part_len.
  destruct (nodes st !! n) as [nd|] eqn:En; [|done].
  destruct (i_locks _ _ _ _ I) as (ch & Hch & Hl). inversion Hch; subst. by rewrite (Hl n nd Hn Hr En).
Qed.

(** Calls on a reachable state return. *)
Lemma reach_returns a st hs : reach a (st, hs) ->
  (forall k, exists vs n st', match_prefix P k st = Ok (vs, n, st')) /\
  (forall k v prio ch, insertable k v -> exists n st', insert P k (Some v) prio ch st = Ok (n, st')) /\
  (forall n, ends st n -> exists d st', inc_lock_ref P (Some n) st = Ok (d, st')) /\
  (forall n, n ∈ hs -> exists d st', dec_lock_ref P (Some n) st = Ok (d, st')) /\
  (forall want, exists k st', evict P want st = Ok (k, st')).
Proof using Hps Hen FreeTotal0.
  intros (T & I)%reach_inv. split; [|split; [|split; [|split]]].
  - intros k. destruct (match_prefix_spec P Hps st T hs k Hen I) as (? & ? & st1 & T1 & E1 & _). eauto.
  - intros k v prio ch (K1 & K2 & K3).
    destruct (insert_spec P Hps st T hs k v prio ch Hen I K1 K2 K3) as (? & st1 & T1 & E1 & _). eauto.
  - intros n Hn. destruct (inc_lock_spec P st T hs n Hen I (ends_in _ _ _ _ I Hn)) as (st1 & ? & E1 & _). eauto.
  - intros n (hs' & Hp)%elem_of_Permutation.
    destruct (dec_lock_spec P st T hs' n Hen (inv_perm P _ _ _ _ Hp I)) as (st1 & ? & E1 & _). eauto.
  - intros want. destruct (evict_spec P st T hs want Hps Hen I) as (fr & st1 & T1 & E1 & _). eauto.
Qed.

End Reach.
End RReach.
