(* ===== verification/RadixProps.v ===== *)
(** What the radix cache promises the scheduler.

    Reachable states keep the invariant and the calls return; a lookup finds the
    longest cached prefix; what was inserted is found again; eviction frees the
    least entries of the policy that nobody holds, as many as asked for; and the
    KV slots of a request end in the tree or in the allocator, each once. *)
From stdpp Require Import base list gmap sets strings.
From Stdlib Require Import ZArith Lia.
From S2P Require Import Prelude Allocator MemoryPool RadixCache RadixTree RadixPath RadixInv RadixLock RadixMatch.
From S2P Require Import RadixInsert RadixEvict RadixReq RadixReach.
Local Open Scope nat_scope.
Local Open Scope py_scope.

Module RProps.
Import Radix RTree RPath RInv RMatch RInsert RLock REvict RReq RReach.

Section Props.
Context {A H : Type} `{Env A H} `{!FreeTotal A H}.
Implicit Types (P : Params) (st : RadixCache A H) (T : gset nat) (hs : list nat).

(** C8. Whatever clients did so far, with [hs] the nodes they hold: the tree is
    well formed; [lock_ref] counts the holders at or below a node; the counters
    [evictable_size_] and [protected_size_] are the unlocked and the locked tokens
    and add up to what [total_size] counts by traversal; the evictable leaves are
    the unlocked nodes without children; the page hashes continue those of the
    parent; without holders nothing is protected, without evictable leaves nothing
    is evictable.  No later call raises. *)
Theorem radix_state_invariant P a st hs : 0 < page_size P -> disable P = false -> reach P a (st, hs) ->
  exists T t, Inv P st T hs /\ total_size st = Ok t /\
    Z.of_nat t = (evictable_size st + protected_size st)%Z /\
    (hs = [] -> protected_size st = 0%Z) /\ (evictable_leaves st = ∅ -> evictable_size st = 0%Z) /\
    (forall k, exists vs n st', match_prefix P k st = Ok (vs, n, st')) /\
    (forall k v prio ch, insertable P k v -> exists n st', insert P k (Some v) prio ch st = Ok (n, st')) /\
    (forall n, ends st n -> exists d st', inc_lock_ref P (Some n) st = Ok (d, st')) /\
    (forall n, n ∈ hs -> exists d st', dec_lock_ref P (Some n) st = Ok (d, st')) /\
    (forall want, exists k st', evict P want st = Ok (k, st')).
Proof.
  intros Hps Hen Hr. destruct (reach_inv P Hps Hen a st hs Hr) as (T & I).
  destruct (total_size_spec P st T hs I) as (t & Et & Es). exists T, t. do 3 (split; [done|]).
  split; [intros ->; by apply (unheld_protected P st T)|]. split; [by apply (no_leaf_size P st T hs)|].
  by apply (reach_returns P Hps Hen a).
Qed.

(** C17. A lookup returns the slots of the longest cached prefix of the key, in
    whole pages, with the node that ends it, which can then be locked.  It changes
    neither the contents nor the counters. *)
Theorem match_finds_longest P a st hs k : 0 < page_size P -> disable P = false -> reach P a (st, hs) ->
  exists vs n st', match_prefix P k st = Ok (vs, n, st') /\
    cached P st (extra_key k) (take (length vs) (paged_tokens P k)) vs /\
    longest P st (extra_key k) (paged_tokens P k) (length vs) /\
    sub (nodes st') (extra_key k) (root_node st') (take (length vs) (paged_tokens P k)) vs n /\
    (forall e ts ws, cached P st e ts ws <-> cached P st' e ts ws) /\
    evictable_size st' = evictable_size st /\ protected_size st' = protected_size st /\
    allocator st' = allocator st.
Proof.
  intros Hps Hen Hr. destruct (reach_inv P Hps Hen a st hs Hr) as (T & I).
  destruct (match_prefix_spec P Hps st T hs k Hen I) as (vs & n & st' & T' & E & I' & R & Hn & Hl & Hs & Hlong).
  exists vs, n, st'. split; [done|]. split.
  - apply (rf_cached _ _ _ _ _ R). pose proof (i_tree _ _ _ _ I') as Ht.
    destruct (sub_in _ _ _ _ Ht _ _ _ _ _ Hs (t_root_in _ _ _ _ Ht)) as (_ & Lv & Ha).
    pose proof (sub_cached _ _ _ _ Ht Hps _ _ _ _ (length vs) Hs) as Hc. rewrite take_take, Nat.min_id, firstn_all in Hc.
    apply Hc. by rewrite Lv.
  - split; [done|]. split; [done|]. split; [apply R|]. split; [apply R|]. split; apply R.
Qed.

(** C20. What is inserted is found again: after [insert(k, v)] a lookup of [k]
    returns the slots that were cached before, [old], followed by the new ones, and
    [insert] reports how many were cached.  Nothing that was cached is lost, and
    besides the prefixes of [k] nothing new is cached. *)
Theorem insert_then_match P a st hs k v prio ch : 0 < page_size P -> disable P = false -> reach P a (st, hs) ->
  insertable P k v ->
  let keys := token_ids (ekey P k) in
  exists total st1 old n st2, insert P k (Some v) prio ch st = Ok (total, st1) /\
    length old = total /\ total <= length keys /\ cached P st (extra_key k) (take total keys) old /\
    longest P st (extra_key k) keys total /\
    evictable_size st1 = (evictable_size st + Z.of_nat (length keys - total))%Z /\
    (forall e ts vs, cached P st1 e ts vs <-> cached P st e ts vs \/
       e = extra_key k /\ (page_size P | length ts) /\ ts `prefix_of` keys /\
       vs = take (length ts) (old ++ drop total (take (length keys) v))) /\
    match_prefix P k st1 = Ok (old ++ drop total (take (length keys) v), n, st2).
Proof.
  intros Hps Hen Hr (K1 & K2 & K3) keys. destruct (reach_inv P Hps Hen a st hs Hr) as (T & I).
  destruct (insert_spec P Hps st T hs k v prio ch Hen I K1 K2 K3)
    as (total & st1 & T1 & E & I1 & _ & (old & Lo & Ht & Ho & Hl & Hc) & Hev & _).
  destruct (match_whole P Hps st1 T1 hs k (old ++ drop total (take (length keys) v)) Hen I1 K1) as (n & st2 & _ & E2 & _).
  - apply Hc. right. split; [done|]. split; [exact K1|]. split; [done|]. symmetry. apply take_ge.
    rewrite length_app, length_drop, length_take. unfold keys, key_len in *. lia.
  - exists total, st1, old, n, st2. done.
Qed.

(** C27. Eviction: [evict] frees entries one by one, each time a least unlocked
    leaf of the policy ([evict_run]), until it has freed [want] slots or nothing
    unlocked is left; it stops as soon as it has enough.  The slots it gives to the
    allocator are those it removes from the tree, every prefix that is held stays
    cached, and nothing else changes. *)
Theorem evict_enough P a st hs want : 0 < page_size P -> disable P = false -> reach P a (st, hs) ->
  exists T fr st' T', evict P want st = Ok (length (concat fr), st') /\ evict_run P hs st T fr st' T' /\
    frees fr (allocator st) = Ok (allocator st') /\ slots (nodes st) T ≡ₚ concat fr ++ slots (nodes st') T' /\
    (Z.min (Z.of_nat want) (evictable_size st) <= Z.of_nat (length (concat fr)))%Z /\
    (forall i, i < length fr -> length (concat (take i fr)) < want) /\
    evictable_size st' = (evictable_size st - Z.of_nat (length (concat fr)))%Z /\
    protected_size st' = protected_size st /\
    (forall n e ts vs, n ∈ hs -> sub (nodes st) e (root_node st) ts vs n -> sub (nodes st') e (root_node st') ts vs n) /\
    (forall e ts vs, cached P st' e ts vs -> cached P st e ts vs).
Proof.
  intros Hps Hen Hr. destruct (reach_inv P Hps Hen a st hs Hr) as (T & I).
  destruct (evict_spec P st T hs want Hps Hen I) as (fr & st' & T' & E & Hrun & I' & Hend & Hmid).
  destruct (run_facts P hs st T fr st' T' Hrun) as (F1 & F2 & F3 & F4 & F5 & F6 & F7 & F8).
  pose proof (t_root_in _ _ _ _ (i_tree _ _ _ _ I)) as Hroot. pose proof (t_root_in _ _ _ _ (i_tree _ _ _ _ I')) as Hroot'.
  exists T, fr, st', T'. do 4 (split; [done|]). split.
  { destruct Hend as [|Hno]; [lia|]. pose proof (no_leaf_size P st' T' hs I' Hno) as Hz. unfold evictable_size. lia. }
  do 3 (split; [done|]). split.
  - intros n e ts vs Hn Hs. pose proof (i_handles _ _ _ _ I') as Hh. rewrite Forall_forall in Hh. rewrite F2 in *.
    by destruct (F7 e _ ts vs n Hroot (Hh n Hn) Hs).
  - intros e ts vs (Hp & n & ts' & vs' & Hs & Hx). split; [done|]. exists n, ts', vs'. rewrite F2 in Hs. split; [|done].
    apply F8; [by rewrite <- F2|done].
Qed.

End Props.

Section Requests.
Context {A H : Type} `{Env A H} (owns : A -> list Z -> Prop) `{!AllocOwner owns}.
Implicit Types (P : Params) (st : RadixCache A H) (T : gset nat) (hs : list nat).

(** C12. A finished request leaves nothing behind.  Its row holds cached slots up
    to [cache_protected_len] and its own slots behind; after [cache_finished_req]
    its lock is given up and, of the slots that the tree, the request and the others
    held, exactly those of the tree and of the others are still held: each own slot
    was inserted or freed, and none twice.  With insertion the whole pages of the
    request are cached afterwards. *)
Theorem finished_slots_conserved P pool r full st T hs n others is_insert :
  0 < page_size P -> disable P = false ->
  let toks := take (kv_committed_len r) (origin_input_ids r ++ output_ids r) in
  let row := take (length toks) full in
  Pools.req_to_token pool !! req_pool_idx r = Some full -> length toks <= length full ->
  Inv P st T (n :: hs) -> last_node r = Some n -> kv_committed_freed r = false -> req_ok P st r toks row ->
  owns (allocator st) (slots (nodes st) T ++ own r row ++ others) ->
  exists st' T', cache_finished_req P pool is_insert r st = Ok (set_freed r, st') /\ Inv P st' T' hs /\
    owns (allocator st') (slots (nodes st') T' ++ others) /\
    (forall e ts vs, cached P st e ts vs -> cached P st' e ts vs) /\
    (is_insert && negb (disable_finished_insert P) = true ->
     exists vs, cached P st' (req_extra_key r) (radix_keys P toks) vs).
Proof. intros Hps Hen toks row Hrow Hfull. by apply (cache_finished_spec owns P Hps Hen). Qed.

(** C30. An unfinished request hands its whole pages to the tree and goes on with
    the cached slots: the assertion of [cache_unfinished_req] holds; its row holds
    the slots of the tree for those pages and its own behind; it holds the node that
    ends them instead of its old one; and every slot is still held by the tree, by
    the request or by the others, once. *)
Theorem unfinished_slots_conserved P pool r full st T hs n others chunked :
  0 < page_size P -> disable P = false ->
  let row := take (length (fill_ids r)) full in
  Pools.req_to_token pool !! req_pool_idx r = Some full -> length (fill_ids r) <= length full ->
  Inv P st T (n :: hs) -> last_node r = Some n -> req_ok P st r (fill_ids r) row ->
  owns (allocator st) (slots (nodes st) T ++ own r row ++ others) ->
  exists r' pool' st' T' n' full', cache_unfinished_req P pool chunked r st = Ok (r', pool', st') /\
    Inv P st' T' (n' :: hs) /\ last_node r' = Some n' /\ fill_ids r' = fill_ids r /\
    Pools.req_to_token pool' = <[req_pool_idx r := full']> (Pools.req_to_token pool) /\ length full' = length full /\
    cache_protected_len r' = length (radix_keys P (fill_ids r)) /\
    prefix_indices r' = take (length (fill_ids r)) full' /\
    req_ok P st' r' (fill_ids r) (take (length (fill_ids r)) full') /\
    owns (allocator st') (slots (nodes st') T' ++ own r' (take (length (fill_ids r)) full') ++ others) /\
    (forall e ts vs, cached P st e ts vs -> cached P st' e ts vs).
Proof. intros Hps Hen row Hrow Hfull. by apply (cache_unfinished_spec owns P Hps Hen). Qed.

End Requests.

(** ** A cache over the token allocator *)

Module Demo.

#[local] Instance env : Env Base.allocator Z := token_env (fun l p => Z.of_nat (length l) + default 0 p)%Z id Z.of_nat.
#[local] Instance env_free : FreeTotal Base.allocator Z.
Proof. intros v a. cbn. unfold Token.free. destruct v; by eexists. Qed.
#[local] Instance env_owner : AllocOwner (H := Z) token_owns.
Proof. apply token_owner. Qed.

Definition P1 : Params := mkParams false 1 true false false LRUStrategy.
(** Slots 1 to 8, the first seven handed out. *)
Definition a1 : Base.allocator := Base.mkAlloc 8 1 8 false false [8%Z] [] true [].
Definition toks (l : list Z) : RadixKey := mkKey (map Single l) None false.

Definition state {B} (o : res (B * RadixCache Base.allocator Z)) : RadixCache Base.allocator Z :=
  match o with Ok (_, s) => s | Raise _ => init P1 a1 end.

(** Two prompts that share a prefix; the first one is held. *)
Definition s1 := state (insert P1 (toks [5;6;7]%Z) (Some [1;2;3]%Z) 0 false (init P1 a1)).
Definition s2 := state (insert P1 (toks [5;6;8;9]%Z) (Some [4;5;6;7]%Z) 0 false s1).
Definition s3 := state (match_prefix P1 (toks [5;6;7]%Z) s2).
Definition held : nat := match match_prefix P1 (toks [5;6;7]%Z) s2 with Ok (_, n, _) => n | Raise _ => 0 end.
Definition s4 := state (inc_lock_ref P1 (Some held) s3).

Lemma demo_key k v : length k = length v -> insertable P1 (toks k) v.
Proof.
  intros L. split; [apply Nat.divide_1_l|]. unfold ekey, key_len. simpl. rewrite length_map. split; [lia|done].
Qed.

Lemma demo_reach2 : reach P1 a1 (s2, []).
Proof.
  eapply rtc_l; [apply (r_insert P1 _ _ (toks [5;6;7]%Z) [1;2;3]%Z 0 false 0 s1); [by apply demo_key|by vm_compute]|].
  eapply rtc_l; [apply (r_insert P1 _ _ (toks [5;6;8;9]%Z) [4;5;6;7]%Z 0 false 2 s2); [by apply demo_key|by vm_compute]|].
  apply rtc_refl.
Qed.

Lemma demo_reach : reach P1 a1 (s4, [held]).
Proof.
  assert (E : match_prefix P1 (toks [5;6;7]%Z) s2 = Ok ([1;2;3]%Z, held, s3)) by by vm_compute.
  eapply rtc_r; [eapply rtc_r; [apply demo_reach2|by apply (r_match P1 _ _ _ _ _ _ E)]|].
  apply (r_lock P1 _ _ held (-3) s4); [|by vm_compute].
  eapply (match_ends P1 _ _ a1 _ _ _ _ _ _ demo_reach2 E). Unshelve. all: vm_compute; done || lia.
Qed.

Lemma radix_state_invariant_witness : exists T t, Inv P1 s4 T [held] /\ total_size s4 = Ok t /\ t = 5.
Proof.
  destruct (radix_state_invariant P1 a1 s4 [held] ltac:(cbn; lia) eq_refl demo_reach) as (T & t & I & Et & _).
  exists T, t. split; [exact I|]. split; [exact Et|]. assert (Ok t = Ok 5) as E by (rewrite <- Et; by vm_compute). congruence.
Defined.

Lemma match_finds_longest_witness : exists vs n st', match_prefix P1 (toks [5;6;8;1]%Z) s4 = Ok (vs, n, st') /\
  vs = [1;2;6]%Z /\ longest P1 s4 None (map Single [5;6;8;1]%Z) 3.
Proof.
  destruct (match_finds_longest P1 a1 s4 [held] (toks [5;6;8;1]%Z) ltac:(cbn; lia) eq_refl demo_reach)
    as (vs & n & st' & E & _ & Hl & _).
  assert (vs = [1;2;6]%Z) as ->.
  { assert (E' : fst <$> (match match_prefix P1 (toks [5;6;8;1]%Z) s4 with Ok (v, m, _) => Some (v, m) | Raise _ => None end)
      = Some [1;2;6]%Z) by by vm_compute. rewrite E in E'. by injection E'. }
  exists [1;2;6]%Z, n, st'. split; [exact E|]. split; [reflexivity|exact Hl].
Defined.

Lemma insert_then_match_witness : exists total st1 old n st2,
  insert P1 (toks [5;6;7;8]%Z) (Some [8;8;8;8]%Z) 0 false s4 = Ok (total, st1) /\
  match_prefix P1 (toks [5;6;7;8]%Z) st1 = Ok (old ++ drop total [8;8;8;8]%Z, n, st2).
Proof.
  destruct (insert_then_match P1 a1 s4 [held] (toks [5;6;7;8]%Z) [8;8;8;8]%Z 0 false ltac:(cbn; lia) eq_refl demo_reach)
    as (total & st1 & old & n & st2 & E & _ & _ & _ & _ & _ & _ & E2); [by apply demo_key|].
  exists total, st1, old, n, st2. split; [exact E|exact E2].
Defined.

Lemma evict_enough_witness : exists (fr : list (list Z)) st', evict P1 1 s4 = Ok (length (concat fr), st') /\ 1 <= length (concat fr).
Proof.
  destruct (evict_enough P1 a1 s4 [held] 1 ltac:(cbn; lia) eq_refl demo_reach) as (T & fr & st' & T' & E & _ & _ & _ & Hm & _).
  exists fr, st'. split; [exact E|]. assert (Ee : evictable_size s4 = 2%Z) by by vm_compute. rewrite Ee in Hm. lia.
Defined.

(** A request of four tokens with slots 1 to 4; slots 5 to 7 are held by others. *)
Definition pool1 : Pools.req_pool := Pools.mkReqPool 1 6 [[1;2;3;4;0;0]%Z] [].
Definition req1 : creq := mkCreq [5;6;7]%Z [8]%Z [5;6;7;8]%Z 0 None None 0 (Some 0) [] 4 false.

Lemma demo_held : Inv P1 (init P1 a1) {[0]} [0].
Proof.
  pose proof (empty_inv P1 a1) as I. change (root_node (init P1 a1)) with 0 in I.
  destruct (inc_lock_spec P1 (init P1 a1) {[0]} [] 0 eq_refl I) as (st' & l & E & I' & _); [set_solver|].
  assert (E' : inc_lock_ref P1 (Some 0) (init P1 a1) = Ok (0%Z, init P1 a1)) by by vm_compute.
  rewrite E' in E. injection E as _ <-. exact I'.
Qed.

Lemma demo_req t row : req_ok P1 (init P1 a1) req1 t row.
Proof. split; [simpl; lia|]. exists 0. split; [done|]. simpl. constructor. Qed.

Lemma demo_owns : token_owns a1 (slots (nodes (init P1 a1)) {[0]} ++ [1;2;3;4]%Z ++ [5;6;7]%Z).
Proof. split; [|done]. vm_compute. solve_Permutation. Qed.

Lemma finished_slots_conserved_witness : exists st' T', cache_finished_req P1 pool1 true req1 (init P1 a1) = Ok (set_freed req1, st') /\
  token_owns (allocator st') (slots (nodes st') T' ++ [5;6;7]%Z).
Proof.
  destruct (finished_slots_conserved token_owns P1 pool1 req1 [1;2;3;4;0;0]%Z (init P1 a1) {[0]} [] 0 [5;6;7]%Z true)
    as (st' & T' & E & _ & Ho & _); [cbn; lia|reflexivity|reflexivity|cbn; lia|exact demo_held|reflexivity|reflexivity|
    apply demo_req|exact demo_owns|].
  exists st', T'. split; [exact E|exact Ho].
Defined.

Lemma unfinished_slots_conserved_witness : exists r' pool' st' T' full',
  cache_unfinished_req P1 pool1 false req1 (init P1 a1) = Ok (r', pool', st') /\
  token_owns (allocator st') (slots (nodes st') T' ++ own r' (take 4 full') ++ [5;6;7]%Z).
Proof.
  destruct (unfinished_slots_conserved token_owns P1 pool1 req1 [1;2;3;4;0;0]%Z (init P1 a1) {[0]} [] 0 [5;6;7]%Z false)
    as (r' & pool' & st' & T' & n' & full' & E & _ & _ & _ & _ & _ & _ & _ & _ & Ho & _);
    [cbn; lia|reflexivity|reflexivity|cbn; lia|exact demo_held|reflexivity|apply demo_req|exact demo_owns|].
  exists r', pool', st', T', full'. split; [exact E|exact Ho].
Defined.

End Demo.
End RProps.
