(* ===== verification/Tensor.v ===== *)
(** Tensors and the arithmetic of the attention code.

    A tensor is a function of its indices; the operations that reduce a
    dimension take its extent.  Scalars are any type with the operations of
    [ScalarOps]; floating-point rounding is not modelled, so the algebraic facts
    the code relies on hold exactly: [ScalarLaws] states them (commutative ring,
    an order, and the exponential), and [Reals] gives the instance on the real
    numbers, where [sexp] is the exponential function. *)
From stdpp Require Import base list.
From Stdlib Require Import ZArith QArith Qreals Reals Lra Lia Ring.
From S2P Require Import Prelude.
Local Open Scope nat_scope.

(** ** Scalars *)

Class ScalarOps (R : Type) : Type := {
  s0 : R;
  s1 : R;
  sadd : R -> R -> R;
  smul : R -> R -> R;
  ssub : R -> R -> R;
  sopp : R -> R;
  sdiv : R -> R -> R;
  smax : R -> R -> R;
  sexp : R -> R;
  (** [tl.exp2] and the constant [LOG2E] of the kernels *)
  sexp2 : R -> R;
  slog2e : R;
  (** [torch.finfo(float32).min] and minus infinity *)
  sfmin : R;
  sninf : R;
  (** [d ** -0.5] *)
  sinvsqrt : nat -> R;
  s_is_zero : R -> bool;
  (** literals of the source *)
  s_of_Q : Q -> R;
}.

Declare Scope sc_scope.
Delimit Scope sc_scope with sc.
Bind Scope sc_scope with ScalarOps.
Infix "+" := sadd : sc_scope.
Infix "*" := smul : sc_scope.
Infix "-" := ssub : sc_scope.
Infix "/" := sdiv : sc_scope.
Notation "- x" := (sopp x) : sc_scope.

(** [sle a b] is [a <= b]. *)
Class ScalarLaws (R : Type) `{ScalarOps R} (sle : R -> R -> Prop) : Prop := {
  s_ring : ring_theory s0 s1 sadd smul ssub sopp (@eq R);
  sdiv_mul : forall a b, (a / b = a * (s1 / b))%sc;
  sdiv_cancel : forall a b c c', (c * c' = s1)%sc -> ((a * c) / (b * c) = a / b)%sc;
  sle_refl : forall a, sle a a;
  sle_trans : forall a b c, sle a b -> sle b c -> sle a c;
  sle_add : forall a b, sle s0 b -> sle a (a + b)%sc;
  smax_ge : forall a b, sle b a -> smax a b = a;
  smax_cases : forall a b, smax a b = a \/ smax a b = b;
  sle_smax_l : forall a b, sle a (smax a b);
  sexp_0 : sexp s0 = s1;
  sexp_pos : forall a, sle s0 (sexp a);
  sexp_add : forall a b, (sexp (a + b) = sexp a * sexp b)%sc;
  sexp2_log2e : forall a, sexp2 (a * slog2e)%sc = sexp a;
}.

(** ** Tensors *)

Section Ops.
Context {R : Type} `{ScalarOps R}.
Local Open Scope sc_scope.

Definition vec : Type := nat -> R.
Definition mat : Type := nat -> nat -> R.

(** Sum and maximum of the first [n] entries. *)
Fixpoint vsum (n : nat) (f : nat -> R) : R :=
  match n with
  | O => s0
  | S n => vsum n f + f n
  end.

Fixpoint vmax (n : nat) (f : nat -> R) : R :=
  match n with
  | O => sninf
  | S O => f O
  | S n => smax (vmax n f) (f n)
  end.

(** [a @ b] with inner dimension [k]. *)
Definition matmul (k : nat) (a b : mat) : mat := fun i j => vsum k (fun l => a i l * b l j).

Definition transpose (a : mat) : mat := fun i j => a j i.

Definition clamp_min (x eps : R) : R := smax x eps.

(** [F.softmax(u, dim=-1)] over [n] entries. *)
Definition softmax (n : nat) (u : vec) : vec := fun f => sexp (u f) / vsum n (fun g => sexp (u g)).

(** [torch.sigmoid]. *)
Definition sigmoid (x : R) : R := s1 / (s1 + sexp (- x)).

(** [torch.cat([a, b], dim=-1)] where [a] has [n] entries. *)
Definition cat (n : nat) (a b : vec) : vec := fun f => if f <? n then a f else b (f - n)%nat.

(** The Hedgehog feature map of one row: [cat(softmax(x @ W), softmax(-(x @ W)))]. *)
Definition hedgehog (D F : nat) (W : mat) (x : vec) : vec :=
  let u := fun f => vsum D (fun d => x d * W d f) in
  cat F (softmax F u) (softmax F (fun f => - u f)).

End Ops.
Arguments vec : clear implicits.
Arguments mat : clear implicits.

(** ** Facts about sums *)

Section Sums.
Context {R : Type} {HO : ScalarOps R} {sle : R -> R -> Prop} {HL : ScalarLaws R sle}.
Local Open Scope sc_scope.

Add Ring scalar_ring : s_ring.

Lemma vsum_ext n (f g : nat -> R) : (forall i, (i < n)%nat -> f i = g i) -> vsum n f = vsum n g.
Proof.
  induction n as [|n IH]; intros E; [done|]. simpl. rewrite IH, E by (intros; try apply E; lia). done.
Qed.

Lemma vsum_0 n : vsum n (fun _ => s0) = (s0 : R).
Proof. induction n as [|n IH]; simpl; [done|]. rewrite IH. ring. Qed.

Lemma vsum_add n (f g : nat -> R) : vsum n (fun i => f i + g i) = vsum n f + vsum n g.
Proof. induction n as [|n IH]; simpl; [ring|]. rewrite IH. ring. Qed.

Lemma vsum_mul_l n c (f : nat -> R) : vsum n (fun i => c * f i) = c * vsum n f.
Proof. induction n as [|n IH]; simpl; [ring|]. rewrite IH. ring. Qed.

Lemma vsum_mul_r n c (f : nat -> R) : vsum n (fun i => f i * c) = vsum n f * c.
Proof. induction n as [|n IH]; simpl; [ring|]. rewrite IH. ring. Qed.

Lemma vsum_swap n m (f : nat -> nat -> R) :
  vsum n (fun i => vsum m (fun j => f i j)) = vsum m (fun j => vsum n (fun i => f i j)).
Proof.
  induction n as [|n IH]; simpl; [by rewrite vsum_0|]. by rewrite IH, vsum_add.
Qed.

Lemma vsum_app n m (f : nat -> R) :
  vsum (n + m) f = vsum n f + vsum m (fun i => f (n + i)%nat).
Proof.
  induction m as [|m IH]; simpl; [rewrite Nat.add_0_r; ring|].
  rewrite Nat.add_succ_r. simpl. rewrite IH. ring.
Qed.

(** Masked lanes that contribute zero can be left out. *)
Lemma vsum_mask n B (f : nat -> R) :
  n <= B -> vsum B (fun i => if i <? n then f i else s0) = vsum n f.
Proof.
  intros Hn. replace B with (n + (B - n))%nat by lia. rewrite vsum_app.
  rewrite (vsum_ext n _ f) by (intros i Hi; destruct (Nat.ltb_spec i n); [done|lia]).
  rewrite (vsum_ext (B - n) _ (fun _ => s0))
    by (intros i Hi; destruct (Nat.ltb_spec (n + i)%nat n); [lia|done]).
  rewrite vsum_0. ring.
Qed.

(** Sums do not depend on the order of their terms. *)
Fixpoint lsum (l : list R) : R := match l with [] => s0 | x :: l => x + lsum l end.

Lemma vsum_lsum n (f : nat -> R) : vsum n f = lsum (map f (seq 0 n)).
Proof.
  assert (Ha : forall l l', lsum (l ++ l') = lsum l + lsum l')
    by (induction l as [|x l IH]; intros l'; simpl; [ring|rewrite IH; ring]).
  induction n as [|n IH]; [done|]. rewrite seq_S, map_app, Ha, <- IH. simpl. ring.
Qed.

#[export] Instance lsum_perm : Proper ((≡ₚ) ==> eq) lsum.
Proof.
  intros l l' Hp. induction Hp as [|x l l' _ IH|x y l|l1 l2 l3 _ IH1 _ IH2]; simpl;
    [done|by rewrite IH|ring|by rewrite IH1].
Qed.

(** [p] permutes the indices [0 .. n-1]. *)
Definition permutes (n : nat) (p : nat -> nat) : Prop := map p (seq 0 n) ≡ₚ seq 0 n.

Lemma vsum_permute n p (f : nat -> R) : permutes n p -> vsum n (fun i => f (p i)) = vsum n f.
Proof.
  intros Hp. rewrite !vsum_lsum, <- (map_map p f). by rewrite Hp.
Qed.

Lemma matmul_assoc_row k (x y : nat -> R) (z : R) :
  vsum k (fun i => x i * (y i * z)) = vsum k (fun i => x i * y i) * z.
Proof. rewrite <- vsum_mul_r. apply vsum_ext. intros. ring. Qed.

(** ** The exponential *)

Lemma vsum_nonneg n (f : nat -> R) : (forall i, sle s0 (f i)) -> sle s0 (vsum n f).
Proof.
  intros Hf. induction n as [|n IH]; simpl; [apply sle_refl|].
  eapply sle_trans; [exact IH|]. by apply sle_add.
Qed.

Lemma sle_vsum n (f : nat -> R) i :
  (forall j, sle s0 (f j)) -> (i < n)%nat -> sle (f i) (vsum n f).
Proof.
  intros Hf. induction n as [|n IH]; intros Hi; [lia|]. simpl.
  destruct (decide (i = n)) as [->|Hne].
  - replace (vsum n f + f n) with (f n + vsum n f) by ring. apply sle_add, vsum_nonneg, Hf.
  - eapply sle_trans; [apply IH; lia|]. apply sle_add, Hf.
Qed.

Lemma vmax_in n (f : nat -> R) : (0 < n)%nat -> exists i, (i < n)%nat /\ vmax n f = f i.
Proof.
  induction n as [|[|n] IH]; intros Hn; [lia|by exists O|].
  destruct (IH ltac:(lia)) as (i & Hi & E).
  change (vmax (S (S n)) f) with (smax (vmax (S n) f) (f (S n))).
  destruct (smax_cases (vmax (S n) f) (f (S n))) as [->| ->].
  - exists i. split; [lia|done].
  - exists (S n). split; [lia|done].
Qed.

Lemma vmax_ext n (f g : nat -> R) : (forall i, (i < n)%nat -> f i = g i) -> vmax n f = vmax n g.
Proof.
  induction n as [|[|n] IH]; intros E; [done|by apply E; lia|].
  change (smax (vmax (S n) f) (f (S n)) = smax (vmax (S n) g) (g (S n))).
  rewrite IH, E by (intros; try apply E; lia). done.
Qed.

(** Trailing entries below every other one do not change the maximum. *)
Lemma vmax_mask n B (f : nat -> R) m :
  (0 < n)%nat -> (n <= B)%nat -> (forall i, (i < n)%nat -> sle m (f i)) ->
  vmax B (fun i => if i <? n then f i else m) = vmax n f.
Proof.
  intros Hn HB Hm. replace B with (n + (B - n))%nat by lia.
  generalize (B - n)%nat. intros e. clear HB B. induction e as [|e IH].
  - rewrite Nat.add_0_r. apply vmax_ext. intros i Hi. destruct (Nat.ltb_spec i n); [done|lia].
  - rewrite Nat.add_succ_r. destruct (n + e)%nat as [|k] eqn:Ek; [lia|].
    change (vmax (S (S k)) (fun i => if i <? n then f i else m)) with
      (smax (vmax (S k) (fun i => if i <? n then f i else m)) (if S k <? n then f (S k) else m)).
    rewrite IH. destruct (Nat.ltb_spec (S k) n); [lia|]. apply smax_ge.
    destruct (vmax_in n f Hn) as (i & Hi & ->). by apply Hm.
Qed.

Lemma sexp_opp a : sexp a * sexp (- a) = s1.
Proof. rewrite <- sexp_add. replace (a + - a) with (s0 : R) by ring. apply sexp_0. Qed.

(** Subtracting a constant from every logit does not change the softmax. *)
Lemma softmax_shift n (u : vec R) m f :
  sexp (u f - m) / vsum n (fun g => sexp (u g - m)) = softmax n u f.
Proof.
  unfold softmax.
  assert (E : forall g, sexp (u g - m) = sexp (u g) * sexp (- m)).
  { intros g. rewrite <- sexp_add. f_equal. ring. }
  rewrite E, (vsum_ext n _ (fun g => sexp (u g) * sexp (- m))) by (intros; apply E).
  rewrite vsum_mul_r. apply (sdiv_cancel _ _ _ (sexp m)).
  rewrite <- (sexp_opp m). ring.
Qed.

(** The stabilised partition function is at least one, so clamping it at a
    smaller [eps] has no effect. *)
Lemma partition_clamp n (u : vec R) eps :
  (0 < n)%nat -> sle eps s1 ->
  smax (vsum n (fun g => sexp (u g - vmax n u))) eps = vsum n (fun g => sexp (u g - vmax n u)).
Proof.
  intros Hn He. apply smax_ge. eapply sle_trans; [exact He|].
  destruct (vmax_in n u Hn) as (i & Hi & E).
  eapply sle_trans; [|apply (sle_vsum n _ i); [intros; apply sexp_pos|done]].
  rewrite E. replace (u i - u i) with (s0 : R) by ring. rewrite sexp_0. apply sle_refl.
Qed.

End Sums.

(** ** The real numbers *)

Module Reals.

#[export] Instance real_ops : ScalarOps R := {|
  s0 := 0%R; s1 := 1%R; sadd := Rplus; smul := Rmult; ssub := Rminus; sopp := Ropp;
  sdiv := Rdiv; smax := Rmax; sexp := exp; sexp2 := fun x => exp (x * ln 2);
  slog2e := (/ ln 2)%R; sfmin := (- (2 ^ 128))%R; sninf := (- (2 ^ 200))%R;
  sinvsqrt := fun d => (/ sqrt (INR d))%R;
  s_is_zero := fun x => if Req_dec_T x 0 then true else false;
  s_of_Q := Q2R;
|}.

#[export] Instance real_laws : ScalarLaws R Rle.
Proof.
  split; simpl.
  - exact RTheory.
  - intros a b. unfold Rdiv. ring.
  - intros a b c c' Hc. unfold Rdiv. assert (c <> 0)%R by (intros ->; lra).
    rewrite Rinv_mult. replace (a * c * (/ b * / c))%R with (a * / b * (c * / c))%R by ring.
    rewrite Rinv_r by done. ring.
  - intros. lra.
  - intros. lra.
  - intros. lra.
  - intros. by apply Rmax_left.
  - intros a b. unfold Rmax. destruct (Rle_dec a b); auto.
  - intros. apply Rmax_l.
  - apply exp_0.
  - intros a. left. apply exp_pos.
  - intros. apply exp_plus.
  - intros a. f_equal. assert (0 < ln 2)%R by (rewrite <- ln_1; apply ln_increasing; lra).
    field. lra.
Qed.

Lemma real_sfmin : (sfmin <= 0)%R.
Proof. simpl sfmin. pose proof (pow_lt 2 128 ltac:(lra)). lra. Qed.

End Reals.
