(* ===== verification/RealOps.v ===== *)
(** The real numbers as the scalars of sampling, selection and routing: the
    operations of [Denoise], [Sampling] and [Moe] on [R], with their laws. *)
From stdpp Require Import base list sorting.
From Stdlib Require Import ZArith QArith Qreals Reals Lra Lia.
From S2P Require Import Prelude Denoise Sampling Tensor.
Local Open Scope nat_scope.

Module RealSample.
Import SortTopk.

Definition Rgtb (x y : R) : bool := if Rlt_dec y x then true else false.

Lemma Rgtb_spec x y : reflect (y < x)%R (Rgtb x y).
Proof. unfold Rgtb. destruct (Rlt_dec y x); by constructor. Qed.

(** A sort by decreasing values that does not look at the comparison it is
    used to define. *)
Definition rbefore (l : list (option R)) (i j : nat) : Prop :=
  match default None (l !! j), default None (l !! i) with
  | None, _ => True
  | Some _, None => False
  | Some x, Some y => (x <= y)%R
  end.

#[export] Instance rbefore_dec l i j : Decision (rbefore l i j).
Proof.
  unfold rbefore. destruct (default None (l !! j)) as [x|]; [|apply _].
  destruct (default None (l !! i)) as [y|]; [|apply _]. destruct (Rle_dec x y); [by left|by right].
Defined.

Definition rorder (l : list (option R)) : list nat := merge_sort (rbefore l) (seq 0 (length l)).

Definition best (l : list (option R)) : nat := List.hd 0 (rorder l).

Definition rsoftmax (l : list R) : list R :=
  let s := foldr Rplus 0%R (map exp l) in map (fun v => exp v / s)%R l.

#[export] Instance real_denoise : DenoiseOps R := {|
  sc_of_Q := Q2R;
  sc_gtb := Rgtb;
  sc_add := Rplus;
  sc_opp := Ropp;
  t_argmax := fun l => best (map Some l);
  t_softmax := rsoftmax;
  t_topk1 := best;
|}.

#[export] Instance real_order : ConfOrder R.
Proof.
  split.
  - intros [x|] [y|] [z|]; simpl; rewrite ?negb_true_iff; try done.
    destruct (Rgtb_spec x y), (Rgtb_spec y z), (Rgtb_spec x z); (done || lra).
  - intros [x|] [y|]; simpl; rewrite ?negb_true_iff; auto.
    destruct (Rgtb_spec x y), (Rgtb_spec y x); auto. lra.
Qed.

#[export] Instance real_topk : TopkOps R := fun k c => take k (order c).

#[export] Instance real_topk_laws : TopkLaws R.
Proof. intros k c. apply topk_ok. Qed.

#[export] Instance real_sample : SampleOps R nat := {|
  sc_mul := Rmult;
  sc_div := Rdiv;
  sc_ninf := (- (2 ^ 200))%R;
  t_sort_desc := fun l => order (map Some l);
  t_accepts := fun row => forallb (fun v => negb (Rgtb 0 v)) row && Rgtb (foldr Rplus 0%R row) 0;
  t_multinomial := fun rs rows => (S rs, map (fun row => rs mod length row) rows);
|}.

Lemma best_range l : l <> [] -> best l < length l.
Proof.
  intros Hl. unfold best.
  assert (Hp : rorder l ≡ₚ seq 0 (length l)) by apply merge_sort_Permutation.
  destruct (rorder l) as [|i r] eqn:E.
  - destruct l; [done|]. apply Permutation_length in Hp. done.
  - assert (Hi : i ∈ seq 0 (length l)) by (rewrite <- Hp; by left). apply elem_of_seq in Hi. simpl. lia.
Qed.

#[export] Instance rbefore_trans l : Transitive (rbefore l).
Proof.
  intros i j k. unfold rbefore. destruct (default None (l !! i)), (default None (l !! j)), (default None (l !! k)); try done.
  lra.
Qed.

#[export] Instance rbefore_total l : Total (rbefore l).
Proof.
  intros i j. unfold rbefore. destruct (default None (l !! i)) as [x|], (default None (l !! j)) as [y|]; auto.
  destruct (Rle_dec x y); [by right|left; lra].
Qed.

(** The first of the order is a greatest element. *)
#[export] Instance real_denoise_laws : DenoiseLaws R.
Proof.
  split. intros c Hc. pose proof (best_range c Hc) as Hb. destruct (lookup_lt_is_Some_2 c (best c) Hb) as [m Hm].
  exists m. split; [exact Hm|]. intros y [k Hk]%list_elem_of_lookup.
  assert (Hp : rorder c ≡ₚ seq 0 (length c)) by apply merge_sort_Permutation.
  assert (Hs : StronglySorted (rbefore c) (rorder c)) by apply (StronglySorted_merge_sort _).
  assert (Hin : k ∈ rorder c) by (rewrite Hp, elem_of_seq; apply lookup_lt_Some in Hk; lia).
  unfold best in *. destruct (rorder c) as [|i l]; [by apply elem_of_nil in Hin|]. cbn in Hm.
  assert (Hr : rbefore c i k).
  { apply elem_of_cons in Hin as [->|Hin]; [by destruct (rbefore_total c i i)|].
    apply StronglySorted_inv in Hs as [_ Hs]. rewrite Forall_forall in Hs. by apply Hs. }
  unfold rbefore in Hr. rewrite Hm, Hk in Hr. cbn in Hr. destruct y as [y|], m as [m|]; cbn; try done.
  destruct (Rgtb_spec y m); [lra|done].
Qed.

#[export] Instance real_sample_laws : SampleLaws R nat.
Proof.
  split.
  - intros l. simpl. rewrite order_perm. by rewrite length_map.
  - intros l Hl. simpl. rewrite <- (length_map Some l). apply best_range. by destruct l.
  - intros l. apply length_map.
  - intros rs rows. simpl. apply length_map.
  - intros rs rows i row t Hi Hne. simpl. rewrite list_lookup_fmap, Hi. simpl. intros [= <-].
    apply Nat.mod_upper_bound. by destruct row.
Qed.

(** Softmax rows are distributions. *)
Lemma exp_sum_pos l : l <> [] -> (0 < foldr Rplus 0 (map exp l))%R.
Proof.
  intros Hl. assert (Hn : forall m, (0 <= foldr Rplus 0 (map exp m))%R).
  { induction m as [|v m IH]; cbn; [lra|]. pose proof (exp_pos v). lra. }
  destruct l as [|v l]; [done|]. cbn. pose proof (exp_pos v). pose proof (Hn l). lra.
Qed.

Lemma softmax_accepted row : row <> [] -> t_accepts (t_softmax row) = true.
Proof.
  intros Hr. pose proof (exp_sum_pos row Hr) as Hs. cbn [t_accepts t_softmax real_sample real_denoise]. unfold rsoftmax.
  set (s := foldr Rplus 0%R (map exp row)) in *. apply andb_true_intro. split.
  - apply forallb_forall. intros v (w & <- & _)%in_map_iff. apply negb_true_iff. destruct (Rgtb_spec 0 (exp w / s)%R) as [Hn|]; [|done].
    exfalso. pose proof (exp_pos w). pose proof (Rdiv_pos_pos _ _ (exp_pos w) Hs). lra.
  - assert (E : foldr Rplus 0%R (map (fun v => exp v / s)%R row) = (s / s)%R).
    { unfold s at 2. clearbody s. clear Hr. induction row as [|v row IH]; cbn; [unfold Rdiv; ring|]. rewrite IH. unfold Rdiv. ring. }
    rewrite E. destruct (Rgtb_spec (s / s) 0) as [|Hn]; [done|]. exfalso. apply Hn. by apply Rdiv_pos_pos.
Qed.

Lemma real_drawable temperature V : 0 < V -> Sampler.drawable temperature V (RS := nat).
Proof. intros HV. right. intros row Hr. apply softmax_accepted. intros ->. simpl in Hr. lia. Qed.

End RealSample.
