(* ===== verification/Moe.v ===== *)
(** Mixture of experts of the Hugging Face model
    ([src/llada_hybrid/moe.py]): the gated MLP, the group-limited gate and the
    sparse block with its two ways to run the experts.

    A token is a vector; a batch is the list of its tokens.  [torch.topk] and
    [argsort] are parameters with their documented laws, and float casts are
    left out. *)
From stdpp Require Import base list sorting.
From Stdlib Require Import ZArith QArith Qreals Reals Lra Lia.
From S2P Require Import Prelude Denoise Sampling Tensor RealOps.
Local Open Scope nat_scope.

(** [argsort] of a tensor of integers. *)
Class ArgsortOps : Type := t_argsort : list nat -> list nat.

Class ArgsortLaws `{ArgsortOps} : Prop := {
  argsort_perm : forall l, t_argsort l ≡ₚ seq 0 (length l);
  argsort_sorted : forall l a b i j u v, a < b ->
    t_argsort l !! a = Some i -> t_argsort l !! b = Some j ->
    l !! i = Some u -> l !! j = Some v -> u <= v;
}.

Module Moe.

Section Model.
Context {R : Type} `{ScalarOps R} `{TopkOps R} `{ArgsortOps}.
Local Open Scope sc_scope.

(** ** [LLaDA2MoeMLP] *)

Record mlp : Type := mkMlp {
  hidden_size : nat;
  intermediate_size : nat;
  gate_proj : mat R;
  up_proj : mat R;
  down_proj : mat R;
  act_fn : R -> R;
}.

(** [nn.Linear] without bias: the weight has one row per output. *)
Definition linear (n : nat) (W : mat R) (x : vec R) : vec R := fun o => vsum n (fun i => x i * W o i).

Definition mlp_forward (M : mlp) (x : vec R) : vec R :=
  let g := linear (hidden_size M) (gate_proj M) x in
  let u := linear (hidden_size M) (up_proj M) x in
  linear (intermediate_size M) (down_proj M) (fun i => act_fn M (g i) * u i).

(** ** [LLaDA2MoeGate] *)

Record gate : Type := mkGate {
  top_k : nat;
  num_experts : nat;
  n_group : nat;
  topk_group : nat;
  gating_dim : nat;
  weight : mat R;
  routed_scaling_factor : R;
  expert_bias : vec R;
}.

Variable G : gate.

(** [torch.topk(l, k)] raises when [l] is too short. *)
Definition topk (k : nat) (l : list (option R)) : res (list nat) :=
  if length l <? k then Raise RuntimeError else Ok (t_topk k l).

Definition nth_s (l : list R) (i : nat) : R := nth i l s0.

Definition lsum (l : list R) : R := foldl sadd s0 l.

(** [scores.view(num_tokens, n_group, -1)] of one row. *)
Definition view_groups (scores : list R) : res (list (list R)) :=
  if (n_group G =? 0) || negb (length scores mod n_group G =? 0) then Raise RuntimeError
  else Ok (reshape_rows (length scores / n_group G) (n_group G) scores).

(** Sum of the two best scores of a group. *)
Definition group_score (row : list R) : res R :=
  (let! idx := topk 2 (map Some row) in Ok (lsum (map (nth_s row) idx)))%py.

(** Experts outside the selected groups get minus infinity. *)
Definition mask_scores (group_mask : list bool) (scores : list R) : list (option R) :=
  let size := (num_experts G / n_group G)%nat in
  let score_mask := concat (map (fun b : bool => replicate size b) group_mask) in
  zip_with (fun (b : bool) s => if b then Some s else None) score_mask scores.

(** [group_limited_topk] of one token: the chosen experts, with their scores. *)
Definition group_limited_topk (scores : list R) : res (list (option R) * list nat) :=
  (let! groups := view_groups scores in
   let! group_scores := Sampler.rmap group_score groups in
   let! group_idx := topk (topk_group G) (map Some group_scores) in
   let group_mask := index_mask (n_group G) group_idx in
   let masked_scores := mask_scores group_mask scores in
   let! top_indices := topk (top_k G) masked_scores in
   Ok (map (fun i => nth i masked_scores None) top_indices, top_indices))%py.

(** The scores of one token: [sigmoid(F.linear(x, weight))]. *)
Definition gate_logits (x : vec R) : list R :=
  map (linear (gating_dim G) (weight G) x) (seq 0 (num_experts G)).

Definition gate_scores (x : vec R) : list R := map sigmoid (gate_logits x).

(** [scores + self.expert_bias]: what the experts are chosen by. *)
Definition scores_for_routing (x : vec R) : list R :=
  zip_with sadd (gate_scores x) (map (expert_bias G) (seq 0 (num_experts G))).

(** The weights of the chosen experts. *)
Definition topk_weight (scores : list R) : list R :=
  let w := if (1 <? top_k G)%nat
           then map (fun s => s / (lsum scores + s_of_Q (1 # 100000000000000000000))) scores
           else scores in
  map (fun s => s * routed_scaling_factor G) w.

(** [LLaDA2MoeGate.forward] of one token. *)
Definition gate_forward (x : vec R) : res (list nat * list R * list R) :=
  let logits := gate_logits x in
  let scores := gate_scores x in
  (let! '(_, topk_idx) := group_limited_topk (scores_for_routing x) in
   Ok (topk_idx, topk_weight (map (nth_s scores) topk_idx), logits))%py.

(** ** [LLaDA2MoeSparseMoeBlock] *)

Variable experts : list mlp.
Variable shared_experts : option mlp.

Definition zero_vec : vec R := fun _ => s0.

(** [experts[i]] on one row. *)
Definition expert (i : nat) (x : vec R) : vec R :=
  match experts !! i with Some M => mlp_forward M x | None => x end.

(** The loop of [moe_infer] over the experts. *)
Fixpoint expert_loop (i start_idx : nat) (tokens_per_expert : list nat) (sorted_tokens : list (vec R))
    : list (list (vec R)) :=
  match tokens_per_expert with
  | [] => []
  | c :: cs =>
    if (c =? 0)%nat then expert_loop (S i) start_idx cs sorted_tokens
    else map (expert i) (py_slice start_idx (start_idx + c) sorted_tokens)
           :: expert_loop (S i) (start_idx + c) cs sorted_tokens
  end.

(** [new_x[idxs] = outs]. *)
Definition index_put {T} (idxs : list nat) (outs base : list T) : list T :=
  foldl (fun acc (io : nat * T) => <[fst io := snd io]> acc) base (zip idxs outs).

(** [y.view(T, K, -1).mul(w).sum(dim=1)]. *)
Definition combine (K : nat) (rows : list (vec R)) (w : list R) : vec R :=
  fun d => vsum K (fun k => nth k rows zero_vec d * nth_s w k).

(** Number of tokens that chose each expert; [scatter_] writes a one, however
    often an expert occurs in the row. *)
Definition tokens_per_expert (topk_ids : list (list nat)) : list nat :=
  map (fun e => sum_list (map (fun ids => if bool_decide (e ∈ ids) then 1%nat else 0%nat) topk_ids))
    (seq 0 (length experts)).

(** [moe_infer]: experts on contiguous segments of the sorted tokens.  An empty
    batch cannot be viewed with a dimension [-1]; an assignment of the wrong
    size raises. *)
Definition moe_infer (K : nat) (x : list (vec R)) (topk_ids : list (list nat))
    (topk_weight : list (list R)) : res (list (vec R)) :=
  let flat := concat topk_ids in
  let idxs := t_argsort flat in
  let sorted_tokens := map (fun j => nth (j / K)%nat x zero_vec) idxs in
  let outs := concat (expert_loop 0 0 (tokens_per_expert topk_ids) sorted_tokens) in
  if (length outs =? 0)%nat || negb (length outs =? length idxs)%nat then Raise RuntimeError
  else
    let new_x := index_put idxs outs outs in
    Ok (zip_with (combine K) (reshape_rows K (length topk_ids) new_x) topk_weight).

(** The training branch: every expert fills the rows that chose it. *)
Definition moe_train (K : nat) (x : list (vec R)) (topk_ids : list (list nat))
    (topk_weight : list (list R)) (empty : list (vec R)) : list (vec R) :=
  let flat := concat topk_ids in
  let rep := concat (map (replicate K) x) in
  let y := foldl (fun y i =>
      if existsb (Nat.eqb i) flat
      then zip_with (fun (fr : nat * vec R) v => if (fst fr =? i)%nat then expert i (snd fr) else v)
             (zip flat rep) y
      else y) empty (seq 0 (length experts)) in
  zip_with (combine K) (reshape_rows K (length topk_ids) y) topk_weight.

(** [LLaDA2MoeSparseMoeBlock.forward] on the tokens of the batch; [empty] is the
    uninitialised tensor of the training branch. *)
Definition moe_forward (training : bool) (empty : list (vec R)) (x : list (vec R))
    : res (list (vec R)) :=
  (let! routed := Sampler.rmap gate_forward x in
   let topk_ids := map (fun r => fst (fst r)) routed in
   let weights := map (fun r => snd (fst r)) routed in
   let! y := if training then Ok (moe_train (top_k G) x topk_ids weights empty)
             else moe_infer (top_k G) x topk_ids weights in
   Ok (match shared_experts with
       | Some M => zip_with (fun yt xt : vec R => (fun d => yt d + mlp_forward M xt d) : vec R) y x
       | None => y
       end))%py.

(** ** Reference: the mixture of one token *)

Definition mixture (ids : list nat) (w : list R) (x : vec R) : vec R :=
  combine (length ids) (map (fun e => expert e x) ids) w.

Definition moe_ref (x : vec R) : res (vec R) :=
  (let! '(ids, w, _) := gate_forward x in
   Ok (match shared_experts with
       | Some M => fun d => mixture ids w x d + mlp_forward M x d
       | None => mixture ids w x
       end))%py.

End Model.
Arguments mlp : clear implicits.
Arguments gate : clear implicits.

(** ** Sorting the tokens by expert *)

Section Dispatch.

Definition occ (e : nat) (l : list nat) : nat := length (filter (fun k => k = e) l).

Lemma occ_cons e k l : occ e (k :: l) = (if decide (k = e) then 1 else 0) + occ e l.
Proof. unfold occ. rewrite filter_cons. by destruct (decide (k = e)). Qed.

Lemma occ_app e l l' : occ e (l ++ l') = occ e l + occ e l'.
Proof. unfold occ. by rewrite filter_app, length_app. Qed.

Lemma occ_perm e l l' : l ≡ₚ l' -> occ e l = occ e l'.
Proof. intros Hp. unfold occ. by rewrite Hp. Qed.

Lemma occ_0 e l : e ∉ l -> occ e l = 0.
Proof.
  induction l as [|k l IH]; [done|]. rewrite not_elem_of_cons, occ_cons. intros [Hne Hl].
  rewrite IH by done. by rewrite decide_False.
Qed.

(** A token that chose distinct experts is counted once for each of them. *)
Lemma occ_nodup e l : NoDup l -> occ e l = if bool_decide (e ∈ l) then 1 else 0.
Proof.
  induction 1 as [|k l Hk Hl IH]; [done|]. rewrite occ_cons, IH.
  destruct (decide (k = e)) as [->|Hne].
  - rewrite !bool_decide_decide. destruct (decide (e ∈ l)); [done|].
    by rewrite decide_True by (by left).
  - rewrite !bool_decide_decide. destruct (decide (e ∈ l)).
    + by rewrite decide_True by (by right).
    + rewrite decide_False; [done|]. by intros [?|?]%elem_of_cons.
Qed.

Lemma occ_concat e ids : Forall NoDup ids ->
  occ e (concat ids) = sum_list (map (fun l => if bool_decide (e ∈ l) then 1 else 0) ids).
Proof.
  induction 1 as [|l ids Hl _ IH]; [done|]. simpl. rewrite occ_app, IH. f_equal. by apply occ_nodup.
Qed.

Definition mono (l : list nat) : Prop := forall a b u v, a < b -> l !! a = Some u -> l !! b = Some v -> u <= v.

Lemma mono_tail k l : mono (k :: l) -> mono l.
Proof. intros Hm a b u v Hab. apply (Hm (S a) (S b)). lia. Qed.

Lemma mono_ge k l : mono (k :: l) -> Forall (fun v => k <= v) l.
Proof. intros Hm. apply Forall_lookup. intros b v Hv. by apply (Hm 0 (S b) k v); [lia| |]. Qed.

(** In a sorted list the smallest key comes first, as often as it occurs. *)
Lemma sorted_split i l : mono l -> Forall (fun v => i <= v) l ->
  l = replicate (occ i l) i ++ drop (occ i l) l /\ Forall (fun v => S i <= v) (drop (occ i l) l) /\
  mono (drop (occ i l) l).
Proof.
  induction l as [|k l IH]; intros Hm Hge; [done|]. apply Forall_cons in Hge as [Hk Hge].
  pose proof (mono_ge k l Hm) as Hkl. rewrite occ_cons. destruct (decide (k = i)) as [->|Hne].
  - destruct IH as (E & F & M); [by eapply mono_tail|done|]. cbn [Nat.add drop replicate app].
    split; [|done]. by f_equal.
  - rewrite occ_0; [cbn [Nat.add drop replicate app]|].
    + split; [done|]. split; [|done]. apply Forall_cons. split; [lia|].
      eapply Forall_impl; [exact Hkl|]. intros v Hv. simpl in Hv. lia.
    + intros Hi. rewrite Forall_forall in Hkl. specialize (Hkl i Hi). simpl in Hkl. lia.
Qed.

Lemma occ_drop i j l : mono l -> Forall (fun v => i <= v) l -> i < j -> occ j (drop (occ i l) l) = occ j l.
Proof.
  intros Hm Hge Hij. destruct (sorted_split i l Hm Hge) as (E & _ & _). rewrite E at 3.
  rewrite occ_app.
  rewrite (occ_0 j (replicate _ i)); [done|]. intros [-> _]%elem_of_replicate. lia.
Qed.

(** [index_put] at distinct positions. *)
Lemma index_put_length {T} idxs (outs base : list T) : length (index_put idxs outs base) = length base.
Proof.
  unfold index_put. revert base. induction (zip idxs outs) as [|io l IH]; intros base; simpl; [done|].
  by rewrite IH, length_insert.
Qed.

Lemma index_put_other {T} idxs (outs base : list T) i : i ∉ idxs -> index_put idxs outs base !! i = base !! i.
Proof.
  unfold index_put. revert outs base. induction idxs as [|k idxs IH]; intros [|o outs] base; simpl; try done.
  intros [Hne Hi]%not_elem_of_cons. rewrite IH by done. by rewrite list_lookup_insert_ne by done.
Qed.

Lemma index_put_lookup {T} idxs (outs base : list T) j i o :
  NoDup idxs -> idxs !! j = Some i -> outs !! j = Some o -> i < length base ->
  index_put idxs outs base !! i = Some o.
Proof.
  intros Hn. revert outs base j. induction Hn as [|k idxs Hk Hn IH]; intros outs base j Hj Ho Hlt; [done|].
  destruct outs as [|o' outs]; [done|]. destruct j as [|j]; simplify_eq/=.
  - change (index_put idxs outs (<[i:=o]> base) !! i = Some o).
    rewrite index_put_other by done. by apply list_lookup_insert_eq.
  - apply (IH outs (<[k:=o']> base) j); [done|done|]. by rewrite length_insert.
Qed.

End Dispatch.

Section Facts.
Context {R : Type} `{ScalarOps R} `{DenoiseOps R} `{TopkOps R} `{ArgsortOps} `{!ArgsortLaws}.
Variable experts : list (mlp R).
#[local] Abbreviation expert := (Moe.expert experts).
#[local] Abbreviation E := (length experts).

(** The loop over the experts applies to every sorted token the expert it is
    sorted under. *)
Lemma expert_loop_sorted i keys (toks pre : list (vec R)) cs start :
  length toks = length keys -> mono keys -> Forall (fun v => i <= v < i + length cs) keys ->
  cs = map (fun e => occ e keys) (seq i (length cs)) -> length pre = start ->
  concat (expert_loop experts i start cs (pre ++ toks)) = zip_with expert keys toks.
Proof.
  revert i keys toks pre start.
  induction cs as [|c cs IH]; intros i keys toks pre start Hl Hm Hk Hcs Hpre; cbn [expert_loop].
  { destruct keys as [|k keys]; [done|]. apply Forall_cons in Hk as [Hk _]. simpl in Hk. lia. }
  cbn [length seq map] in Hcs. injection Hcs as Hc Hcs.
  assert (Hge : Forall (fun v => i <= v) keys) by (eapply Forall_impl; [exact Hk|]; simpl; lia).
  destruct (sorted_split i keys Hm Hge) as (Ek & Hge' & Hm'). rewrite <- Hc in *.
  assert (Hcl : c <= length keys).
  { rewrite Hc. unfold occ. apply length_filter. }
  set (keys' := drop c keys) in *.
  assert (Hk' : Forall (fun v => S i <= v < S i + length cs) keys').
  { apply Forall_forall. intros v Hv. rewrite Forall_forall in Hge'. specialize (Hge' v Hv).
    rewrite Forall_forall in Hk. specialize (Hk v). simpl in *.
    assert (Hvk : v ∈ keys) by (rewrite Ek; apply elem_of_app; by right). specialize (Hk Hvk). lia. }
  assert (Hcs' : cs = map (fun e => occ e keys') (seq (S i) (length cs))).
  { rewrite Hcs at 1. apply map_ext_in. intros e He%list_elem_of_In%elem_of_seq.
    unfold keys'. rewrite Hc. symmetry. apply occ_drop; [done|done|lia]. }
  assert (Hpre' : pre ++ toks = (pre ++ take c toks) ++ drop c toks) by (by rewrite <- app_assoc, take_drop).
  assert (Hz : zip_with expert keys toks
             = map (expert i) (take c toks) ++ zip_with expert keys' (drop c toks)).
  { rewrite <- (take_drop c toks) at 1. rewrite Ek at 1. rewrite zip_with_app
      by (rewrite length_replicate, length_take; lia). f_equal.
    rewrite zip_with_replicate_l; [done|]. rewrite length_take. lia. }
  destruct (Nat.eqb_spec c 0) as [->|Hc0].
  - rewrite Hpre', Hz. cbn [take map app]. rewrite app_nil_r.
    apply IH; [unfold keys'; by rewrite !length_drop, Hl|done|done|done|done].
  - cbn [concat]. rewrite Hz. f_equal.
    + f_equal. unfold py_slice. rewrite drop_app_length' by done.
      f_equal. lia.
    + rewrite Hpre'. apply IH; [unfold keys'; by rewrite !length_drop, Hl|done|done|done|].
      rewrite length_app, length_take. lia.
Qed.

Section Batch.
Variables (K : nat) (ids : list (list nat)) (x : list (vec R)).
Hypothesis ids_rect : rect K ids.
Hypothesis ids_tokens : length x = length ids.
Hypothesis ids_range : Forall (Forall (fun e => e < E)) ids.
#[local] Abbreviation flat := (concat ids).
#[local] Abbreviation idxs := (t_argsort flat).
#[local] Abbreviation token p := (nth (p / K) x (zero_vec (R := R))).
#[local] Abbreviation keys := (map (fun p => nth p flat 0) idxs).

Lemma flat_length : length flat = length ids * K.
Proof. by apply length_concat_rect. Qed.

Lemma idxs_length : length idxs = length flat.
Proof. rewrite argsort_perm. apply length_seq. Qed.

Lemma idxs_range p : p ∈ idxs <-> p < length flat.
Proof. rewrite argsort_perm, elem_of_seq. lia. Qed.

Lemma keys_perm : keys ≡ₚ flat.
Proof.
  rewrite argsort_perm. apply reflexive_eq, list_eq. intros p. rewrite list_lookup_fmap.
  destruct (decide (p < length flat)).
  - rewrite lookup_seq_lt by done. simpl. destruct (lookup_lt_is_Some_2 flat p) as [v Hv]; [done|].
    by rewrite (nth_lookup_Some _ _ _ _ Hv).
  - rewrite lookup_seq_ge by lia. symmetry. apply lookup_ge_None. lia.
Qed.

Lemma keys_mono : mono keys.
Proof.
  intros a b u v Hab Ha Hb. rewrite list_lookup_fmap in Ha, Hb.
  destruct (idxs !! a) as [i|] eqn:Ei; [|done]. destruct (idxs !! b) as [j|] eqn:Ej; [|done].
  simplify_eq/=. assert (Hi : i < length flat) by (apply idxs_range; by eapply list_elem_of_lookup_2).
  assert (Hj : j < length flat) by (apply idxs_range; by eapply list_elem_of_lookup_2).
  destruct (lookup_lt_is_Some_2 flat i Hi) as [u Hu]. destruct (lookup_lt_is_Some_2 flat j Hj) as [v Hv].
  rewrite (nth_lookup_Some _ _ _ _ Hu), (nth_lookup_Some _ _ _ _ Hv).
  by apply (argsort_sorted flat a b i j).
Qed.

Lemma flat_range : Forall (fun e => e < E) flat.
Proof. by apply Forall_concat. Qed.

(** Position [k] of token [t]. *)
Lemma flat_row t row k : ids !! t = Some row -> k < K ->
  flat !! (t * K + k) = row !! k /\ (t * K + k) / K = t.
Proof.
  intros Ht Hk. split; [by apply lookup_concat_rect|].
  by rewrite Nat.div_add_l, Nat.div_small, Nat.add_0_r by lia.
Qed.

(** The rows that belong to one token, when every row of [y] is the output of
    the expert chosen there. *)
Definition dispatched (y : list (vec R)) : Prop := length y = length flat /\
  forall p e, flat !! p = Some e -> y !! p = Some (expert e (token p)).

Lemma dispatched_rows y (w : list (list R)) : dispatched y -> length w = length ids ->
  zip_with (combine K) (reshape_rows K (length ids) y) w =
  zip_with (fun (iw : list nat * list R) xt => mixture experts (fst iw) (snd iw) xt) (zip ids w) x.
Proof.
  intros [Hl Hy] Hw. apply list_eq. intros t. rewrite !lookup_zip_with.
  unfold reshape_rows. rewrite list_lookup_fmap. destruct (ids !! t) as [row|] eqn:Et.
  2: { rewrite lookup_seq_ge by (by apply lookup_ge_None). done. }
  assert (Ht : t < length ids) by (by eapply lookup_lt_Some).
  destruct (lookup_lt_is_Some_2 x t) as [xt Hx]; [lia|].
  destruct (lookup_lt_is_Some_2 w t) as [wt Hwt]; [lia|].
  rewrite lookup_seq_lt by done. rewrite Hx, Hwt. simpl. f_equal. unfold mixture.
  rewrite (rect_lookup _ _ _ _ ids_rect Et). f_equal. apply list_eq. intros k.
  pose proof (rect_lookup _ _ _ _ ids_rect Et) as Hrow.
  destruct (decide (k < K)) as [Hk|Hk].
  - rewrite lookup_blk by done. rewrite list_lookup_fmap.
    destruct (flat_row t row k Et Hk) as [Hf Hd].
    destruct (lookup_lt_is_Some_2 row k) as [e He]; [lia|]. rewrite He in Hf |- *. simpl.
    rewrite (Hy _ _ Hf), Hd. by rewrite (nth_lookup_Some _ _ _ _ Hx).
  - transitivity (@None (vec R)); [|symmetry]; apply lookup_ge_None.
    + rewrite (length_blk K (length ids)); [lia|by rewrite Hl, flat_length|done].
    + rewrite length_map. lia.
Qed.

(** Segments of the sorted tokens: [moe_infer]. *)
Lemma moe_infer_eq (w : list (list R)) :
  Forall NoDup ids -> length w = length ids -> 0 < K -> ids <> [] ->
  moe_infer experts K x ids w =
  Ok (zip_with (fun (iw : list nat * list R) xt => mixture experts (fst iw) (snd iw) xt) (zip ids w) x).
Proof.
  intros Hnd Hw HK Hne. unfold moe_infer. set (toks := map _ idxs).
  assert (Eo : concat (expert_loop experts 0 0 (tokens_per_expert experts ids) toks) = zip_with expert keys toks).
  { change toks with ([] ++ toks) at 1. unfold tokens_per_expert.
    apply expert_loop_sorted; [unfold toks; by rewrite !length_map|apply keys_mono| | |done].
    - rewrite keys_perm. eapply Forall_impl; [exact flat_range|]. intros e He. simpl in *.
      rewrite length_map, length_seq. lia.
    - rewrite length_map, length_seq. apply map_ext. intros e.
      by rewrite (occ_perm e keys flat keys_perm), occ_concat. }
  rewrite Eo. set (outs := zip_with expert keys toks).
  assert (Hlo : length outs = length flat).
  { unfold outs, toks. rewrite length_zip_with, !length_map, idxs_length. lia. }
  pose proof flat_length as Hfl. assert (0 < length ids) by (destruct ids; [done|simpl; lia]).
  rewrite Hlo, idxs_length, Nat.eqb_refl. destruct (Nat.eqb_spec (length flat) 0); [nia|]. simpl. f_equal.
  apply dispatched_rows; [|done]. split; [by rewrite index_put_length|]. intros p e Hp.
  assert (Hpi : p ∈ idxs) by (apply idxs_range; by eapply lookup_lt_Some).
  apply list_elem_of_lookup in Hpi as [j Hj].
  eapply index_put_lookup; [rewrite argsort_perm; apply NoDup_seq|exact Hj| |rewrite Hlo; by eapply lookup_lt_Some].
  unfold outs, toks. rewrite lookup_zip_with, !list_lookup_fmap, Hj. simpl.
  by rewrite (nth_lookup_Some _ _ _ _ Hp).
Qed.

(** One expert after the other over all rows: the training branch. *)
Definition train_step (y : list (vec R)) (i : nat) : list (vec R) :=
  if existsb (Nat.eqb i) flat
  then zip_with (fun (fr : nat * vec R) v => if (fst fr =? i)%nat then expert i (snd fr) else v)
         (zip flat (concat (map (replicate K) x))) y
  else y.

Lemma rep_lookup p : p < length flat -> concat (map (replicate K) x) !! p = Some (token p).
Proof.
  intros Hp. rewrite flat_length in Hp. destruct (flat_pos K (length ids) p Hp) as (Ht & Ep & Hm).
  destruct (lookup_lt_is_Some_2 x (p / K)) as [xt Hx]; [lia|].
  rewrite (nth_lookup_Some _ _ _ _ Hx). rewrite Ep at 1.
  rewrite (lookup_concat_rect K (map (replicate K) x) (p / K) (replicate K xt) (p mod K)); [| | |done].
  - by apply lookup_replicate.
  - apply Forall_map, Forall_forall. intros. apply length_replicate.
  - by rewrite list_lookup_fmap, Hx.
Qed.

Lemma rep_length : length (concat (map (replicate K) x)) = length flat.
Proof.
  rewrite (length_concat_rect K), length_map, flat_length; [lia|].
  apply Forall_map, Forall_forall. intros. apply length_replicate.
Qed.

Lemma train_step_lookup y i : length y = length flat ->
  length (train_step y i) = length flat /\
  forall p e, flat !! p = Some e ->
    train_step y i !! p = if (e =? i)%nat then Some (expert i (token p)) else y !! p.
Proof.
  intros Hy. unfold train_step. destruct (existsb _ flat) eqn:Ex.
  - split; [rewrite !length_zip_with, rep_length; lia|]. intros p e Hp.
    rewrite !lookup_zip_with, Hp, rep_lookup by (by eapply lookup_lt_Some). simpl.
    destruct (lookup_lt_is_Some_2 y p) as [v ->]; [rewrite Hy; by eapply lookup_lt_Some|].
    simpl. by destruct (e =? i)%nat.
  - split; [done|]. intros p e Hp. destruct (Nat.eqb_spec e i) as [->|]; [|done].
    assert (existsb (Nat.eqb i) flat = true); [|congruence].
    apply existsb_exists. exists i. split; [by eapply list_elem_of_In, list_elem_of_lookup_2|].
    by apply Nat.eqb_refl.
Qed.

Lemma moe_train_eq (w : list (list R)) empty : length empty = length flat -> length w = length ids ->
  moe_train experts K x ids w empty =
  zip_with (fun (iw : list nat * list R) xt => mixture experts (fst iw) (snd iw) xt) (zip ids w) x.
Proof.
  intros Hem Hw. unfold moe_train. apply dispatched_rows; [|done].
  change (foldl _ empty (seq 0 E)) with (foldl train_step empty (seq 0 E)).
  assert (Hinv : forall m, length (foldl train_step empty (seq 0 m)) = length flat /\
    forall p e, flat !! p = Some e -> e < m ->
      foldl train_step empty (seq 0 m) !! p = Some (expert e (token p))).
  { induction m as [|m [IHl IH]]; [split; [done|lia]|]. rewrite seq_S, foldl_app. cbn [foldl Nat.add].
    destruct (train_step_lookup _ m IHl) as [L1 L2]. split; [done|]. intros p e Hp He.
    rewrite (L2 p e Hp). destruct (Nat.eqb_spec e m) as [->|]; [done|]. apply IH; [done|lia]. }
  destruct (Hinv E) as [L1 L2]. split; [done|]. intros p e Hp. apply L2; [done|].
  pose proof flat_range as Hr. rewrite Forall_forall in Hr. apply Hr. by eapply list_elem_of_lookup_2.
Qed.

End Batch.
End Facts.

(** ** The gate *)

Section Gate.
Context {R : Type} `{ScalarOps R} `{DenoiseOps R} `{TopkOps R} `{!TopkLaws R}.
Variable G : gate R.
#[local] Abbreviation size := (num_experts G / n_group G).

(** Configurations on which the routing works: equal groups of at least two
    experts, and enough experts in the selected groups. *)
Record gate_ok : Prop := {
  go_groups : 0 < n_group G;
  go_even : num_experts G mod n_group G = 0;
  go_pairs : 2 <= size;
  go_topk_group : topk_group G <= n_group G;
  go_top_k : top_k G <= topk_group G * size;
}.

Hypothesis ok : gate_ok.

Lemma experts_split : num_experts G = n_group G * size.
Proof.
  destruct ok. pose proof (Nat.div_mod_eq (num_experts G) (n_group G)). lia.
Qed.

Lemma topk_Ok k (c : list (option R)) : k <= length c -> topk k c = Ok (t_topk k c).
Proof. intros Hk. unfold topk. destruct (Nat.ltb_spec (length c) k); [lia|done]. Qed.

(** The scores of the groups, as [group_limited_topk] computes them. *)
Definition group_scores (scores : list R) : list R :=
  map (fun row => lsum (map (nth_s row) (t_topk 2 (map Some row))))
    (reshape_rows size (n_group G) scores).

Definition chosen_groups (scores : list R) : list nat :=
  t_topk (topk_group G) (map Some (group_scores scores)).

Lemma view_groups_Ok scores : length scores = num_experts G ->
  view_groups G scores = Ok (reshape_rows size (n_group G) scores).
Proof.
  intros Hl. unfold view_groups. rewrite Hl, (go_even ok).
  destruct (Nat.eqb_spec (n_group G) 0); [pose proof (go_groups ok); lia|done].
Qed.

Lemma group_scores_Ok scores : length scores = num_experts G ->
  Sampler.rmap group_score (reshape_rows size (n_group G) scores) = Ok (group_scores scores).
Proof.
  intros Hl. apply Sampler.rmap_Ok. unfold group_scores. apply Forall2_same_length_lookup_2; [by rewrite length_map|].
  intros g row r Hg Hr. rewrite list_lookup_fmap, Hg in Hr. injection Hr as <-.
  unfold group_score. rewrite topk_Ok; [done|]. rewrite length_map.
  unfold reshape_rows in Hg. rewrite list_lookup_fmap in Hg.
  destruct (seq 0 (n_group G) !! g) as [g'|] eqn:Es; [|done]. injection Hg as <-.
  apply lookup_seq in Es as [-> Hlt].
  rewrite (length_blk size (n_group G)); [by apply ok|by rewrite Hl, experts_split at 1|lia].
Qed.

Lemma chosen_spec scores : is_topk (topk_group G) (map Some (group_scores scores)) (chosen_groups scores) /\
  Forall (fun g => g < n_group G) (chosen_groups scores).
Proof.
  assert (Hlen : length (map Some (group_scores scores)) = n_group G)
    by (unfold group_scores, reshape_rows; by rewrite !length_map, length_seq).
  assert (Hs : is_topk (topk_group G) (map Some (group_scores scores)) (chosen_groups scores))
    by (apply topk_spec; rewrite Hlen; apply ok).
  split; [done|]. apply Forall_forall. intros g Hg. rewrite <- Hlen. by apply (topk_range _ _ _ Hs).
Qed.

Lemma expand_rect (m : list bool) : rect size (map (fun b : bool => replicate size b) m).
Proof. apply Forall_map, Forall_forall. intros. apply length_replicate. Qed.

Lemma expand_count n (m : list bool) :
  count_true (concat (map (fun b : bool => replicate n b) m)) = count_true m * n.
Proof.
  assert (Happ : forall a b, count_true (a ++ b) = count_true a + count_true b)
    by (induction a as [|[] a IH]; intros b; simpl; [done| |]; rewrite IH; lia).
  assert (Hrep : forall b, count_true (replicate n b) = if b then n else 0)
    by (intros []; induction n as [|k IH]; simpl; by rewrite ?IH).
  induction m as [|b m IH]; simpl; [done|]. rewrite Happ, Hrep, IH. by destruct b.
Qed.

(** The masked scores: an expert is eligible when its group is chosen. *)
Lemma mask_scores_spec scores : length scores = num_experts G ->
  let c := mask_scores G (index_mask (n_group G) (chosen_groups scores)) scores in
  length c = num_experts G /\ count_true (finite c) = topk_group G * size /\
  forall e v, c !! e = Some (Some v) -> e < num_experts G /\ e / size ∈ chosen_groups scores.
Proof.
  intros Hl c. destruct (chosen_spec scores) as [Hs Hr].
  set (m := index_mask (n_group G) (chosen_groups scores)) in *.
  assert (Hsl : length (concat (map (fun b : bool => replicate size b) m)) = num_experts G).
  { rewrite (length_concat_rect size) by apply expand_rect.
    rewrite length_map. unfold m. by rewrite index_mask_length, <- experts_split. }
  assert (Hcl : length c = num_experts G) by (unfold c, mask_scores; rewrite length_zip_with; lia).
  assert (Hf : finite c = concat (map (fun b : bool => replicate size b) m)).
  { apply list_eq. intros e. unfold finite, c, mask_scores. rewrite list_lookup_fmap, lookup_zip_with.
    destruct (concat _ !! e) as [b|] eqn:Eb; [|done].
    destruct (lookup_lt_is_Some_2 scores e) as [v ->]; [rewrite Hl, <- Hsl; by eapply lookup_lt_Some|].
    by destruct b. }
  split; [done|]. split.
  - rewrite Hf, expand_count. unfold m. rewrite index_mask_count; [|by apply Hs|done].
    by rewrite (topk_length _ _ _ Hs).
  - intros e v He. assert (Hlt : e < num_experts G) by (rewrite <- Hcl; by eapply lookup_lt_Some).
    split; [done|]. assert (Hfe : finite c !! e = Some true) by (unfold finite; by rewrite list_lookup_fmap, He).
    rewrite experts_split in Hlt. destruct (flat_pos size (n_group G) e Hlt) as (Hg & Ee & Hm).
    destruct (lookup_lt_is_Some_2 m (e / size)) as [b Hb]; [unfold m; by rewrite index_mask_length|].
    rewrite Hf, Ee, (lookup_concat_rect size _ (e / size) (replicate size b)) in Hfe;
      [|apply expand_rect|by rewrite list_lookup_fmap, Hb|done].
    apply lookup_replicate in Hfe as [<- _]. by apply index_mask_true in Hb as [Hb _].
Qed.

(** The chosen experts: as many as asked for, distinct, in range, and all from
    the best groups. *)
Lemma routing_spec scores : length scores = num_experts G ->
  exists probs idx, group_limited_topk G scores = Ok (probs, idx) /\
    length idx = top_k G /\ NoDup idx /\ Forall (fun e => e < num_experts G) idx /\
    Forall (fun e => e / size ∈ chosen_groups scores) idx.
Proof.
  intros Hl. unfold group_limited_topk. rewrite view_groups_Ok by done. cbn [rbind].
  rewrite group_scores_Ok by done. cbn [rbind].
  rewrite topk_Ok by (unfold group_scores, reshape_rows; rewrite !length_map, length_seq; apply ok).
  cbn [rbind]. fold (chosen_groups scores).
  destruct (mask_scores_spec scores Hl) as (Hcl & Hcc & Hce). set (c := mask_scores _ _ _) in *.
  destruct (chosen_spec scores) as [_ Hch].
  assert (Hk : top_k G <= length c).
  { rewrite Hcl, experts_split. etransitivity; [apply ok|]. apply Nat.mul_le_mono_r, ok. }
  rewrite topk_Ok by done. cbn [rbind]. eexists _, _. split; [done|].
  pose proof (topk_spec (top_k G) c Hk) as Ht. split; [by apply Ht|]. split; [by apply Ht|].
  assert (Hall : forall e, e ∈ t_topk (top_k G) c -> e < num_experts G /\ e / size ∈ chosen_groups scores).
  { intros e He. destruct (topk_finite _ _ _ _ Ht ltac:(rewrite Hcc; apply ok) He) as [v Hv].
    by apply (Hce e v). }
  split; apply Forall_forall; intros e He; by apply Hall.
Qed.

Lemma gate_spec x : exists idx w logits, gate_forward G x = Ok (idx, w, logits) /\
  length idx = top_k G /\ NoDup idx /\ Forall (fun e => e < num_experts G) idx /\
  Forall (fun e => e / size ∈ chosen_groups (scores_for_routing G x)) idx /\
  w = topk_weight G (map (nth_s (gate_scores G x)) idx).
Proof.
  unfold gate_forward.
  assert (Hl : length (scores_for_routing G x) = num_experts G).
  { unfold scores_for_routing, gate_scores, gate_logits. rewrite length_zip_with, !length_map, length_seq. lia. }
  destruct (routing_spec _ Hl) as (probs & idx & -> & L & N & F & C). cbn [rbind]. by eexists _, _, _.
Qed.

End Gate.

(** ** The block *)

Section Block.
Context {R : Type} `{ScalarOps R} `{DenoiseOps R} `{TopkOps R} `{!TopkLaws R} `{ArgsortOps} `{!ArgsortLaws}.
Variables (G : gate R) (experts : list (mlp R)) (shared : option (mlp R)).

Lemma gate_rows (x : list (vec R)) : gate_ok G ->
  exists routed, Sampler.rmap (gate_forward G) x = Ok routed /\ length routed = length x /\
    let ids := map (fun r => fst (fst r)) routed in
    rect (top_k G) ids /\ Forall NoDup ids /\ Forall (Forall (fun e => e < num_experts G)) ids.
Proof.
  intros Hok. induction x as [|xt x (routed & E & L & Hr & Hn & Hf)]; [exists []; simpl; repeat constructor|].
  destruct (gate_spec G Hok xt) as (idx & w & lg & Eg & Lg & Ng & Fg & _).
  exists ((idx, w, lg) :: routed). simpl. rewrite Eg, E. simpl. split; [done|]. split; [by rewrite L|].
  split; [|split]; by constructor.
Qed.

(** Both ways to run the experts compute the reference mixture. *)
Lemma moe_forward_ref (training : bool) (empty x : list (vec R)) :
  gate_ok G -> length experts = num_experts G -> 0 < top_k G -> x <> [] ->
  (training = true -> length empty = length x * top_k G) ->
  moe_forward G experts shared training empty x = Sampler.rmap (moe_ref G experts shared) x.
Proof.
  intros Hok HE HK Hx Hem. unfold moe_forward.
  destruct (gate_rows x Hok) as (routed & Er & Hl & Hr & Hn & Hf). rewrite Er. cbn [rbind].
  set (ids := map (fun r => fst (fst r)) routed) in *. set (w := map (fun r => snd (fst r)) routed).
  assert (Hids : length x = length ids) by (unfold ids; by rewrite length_map).
  assert (Hw : length w = length ids) by (unfold w, ids; by rewrite !length_map).
  rewrite <- HE in Hf.
  assert (exists ys : list (vec R),
    (if training then Ok (moe_train experts (top_k G) x ids w empty)
     else moe_infer experts (top_k G) x ids w) = Ok ys /\ length ys = length x /\
    forall t xt it wt lt, x !! t = Some xt -> routed !! t = Some (it, wt, lt) ->
      ys !! t = Some (mixture experts it wt xt)) as (ys & Ey & Hys & Hm).
  { exists (zip_with (fun (iw : list nat * list R) xt => mixture experts (fst iw) (snd iw) xt) (zip ids w) x).
    split; [destruct training|split].
    - f_equal. apply moe_train_eq; try done. rewrite Hem by done. rewrite (length_concat_rect (top_k G)) by done. lia.
    - apply moe_infer_eq; try done. intros Hnil. rewrite Hnil in Hids. by destruct x.
    - rewrite !length_zip_with. lia.
    - intros t xt it wt lt Ht Hrt. rewrite !lookup_zip_with. unfold ids, w.
      by rewrite !list_lookup_fmap, Hrt, Ht. }
  rewrite Ey. cbn [rbind]. symmetry. apply Sampler.rmap_Ok. apply Sampler.rmap_Ok in Er.
  apply Forall2_same_length_lookup_2.
  { destruct shared; [rewrite length_zip_with, Nat.min_r; [done|apply Nat.eq_le_incl, eq_sym, Hys]|exact (eq_sym Hys)]. }
  intros t xt yt Ht Hy. destruct (Forall2_lookup_l _ _ _ _ _ Er Ht) as ([[it wt] lt] & Hrt & Eg).
  unfold moe_ref. rewrite Eg. cbn [rbind]. f_equal. specialize (Hm t xt it wt lt Ht Hrt).
  destruct shared as [M|]; [|congruence]. rewrite lookup_zip_with, Hm, Ht in Hy. by injection Hy as <-.
Qed.

(** C38. The sparse block computes the mixture it describes: for every batch of
    tokens, whether the experts run on contiguous segments of the sorted tokens
    (inference) or one after the other over all rows (training, whatever the
    uninitialised buffer holds), every token gets the weighted sum of the
    outputs of the experts its gate chose, plus the shared experts. *)
Theorem moe_forward_exact (training : bool) (empty x : list (vec R)) :
  gate_ok G -> length experts = num_experts G -> 0 < top_k G -> x <> [] ->
  (training = true -> length empty = length x * top_k G) ->
  moe_forward G experts shared training empty x = Sampler.rmap (moe_ref G experts shared) x.
Proof. apply moe_forward_ref. Qed.

End Block.

(** ** Weights over the real numbers *)

Section RealGate.
Import Reals RealSample.
Local Open Scope R_scope.
Implicit Types (l : list R) (a b c x : R).

Lemma lsum_acc a l : foldl Rplus a l = a + lsum l.
Proof.
  unfold lsum. simpl. revert a. induction l as [|b l IH]; intros a; simpl; [lra|].
  rewrite IH, (IH (0 + b)). lra.
Qed.

Lemma lsum_cons a l : lsum (a :: l) = a + lsum l.
Proof. unfold lsum at 1. simpl. rewrite lsum_acc. lra. Qed.

Lemma lsum_scale c l : lsum (map (fun s => s * c) l) = lsum l * c.
Proof. induction l as [|a l IH]; [unfold lsum; simpl; lra|]. simpl. rewrite !lsum_cons, IH. lra. Qed.

Lemma lsum_nonneg l : Forall (fun s => 0 <= s) l -> 0 <= lsum l.
Proof. induction 1 as [|a l Ha _ IH]; [unfold lsum; simpl; lra|]. rewrite lsum_cons. lra. Qed.

Lemma lsum_ge l a : Forall (fun s => 0 <= s) l -> a ∈ l -> a <= lsum l.
Proof.
  induction 1 as [|b l Hb Hl IH]; [by intros ?%not_elem_of_nil|]. rewrite lsum_cons.
  pose proof (lsum_nonneg l Hl). intros [->|Hin]%elem_of_cons; [lra|]. specialize (IH Hin). lra.
Qed.

Lemma sigmoid_bounds x : 0 <= sigmoid x <= 1.
Proof.
  unfold sigmoid. simpl. pose proof (exp_pos (- x)). split.
  - apply Rle_mult_inv_pos; lra.
  - apply (Rmult_le_reg_r (1 + exp (- x))); [lra|]. unfold Rdiv. rewrite Rmult_assoc, Rinv_l; lra.
Qed.

(** Normalised weights: non-negative, and at most the scaling factor together. *)
Lemma topk_weight_bounds (G : gate R) l :
  0 <= routed_scaling_factor G -> Forall (fun s => 0 <= s <= 1) l -> length l = top_k G ->
  Forall (fun w => 0 <= w) (topk_weight G l) /\ lsum (topk_weight G l) <= routed_scaling_factor G.
Proof.
  intros Hf Hl Hk. unfold topk_weight. set (f := routed_scaling_factor G) in *. simpl smul.
  assert (Hl0 : Forall (fun s => 0 <= s) l) by (eapply Forall_impl; [exact Hl|]; intros s Hs; simpl in Hs |- *; lra).
  pose proof (lsum_nonneg l Hl0) as HS. set (e := s_of_Q _).
  assert (He : 0 < e) by (unfold e; simpl; unfold Q2R; simpl; lra).
  destruct (Nat.ltb_spec 1 (top_k G)) as [_|Hk1].
  - assert (Hd : 0 < / (lsum l + e)) by (apply Rinv_0_lt_compat; lra).
    change (map (fun s => (s / (lsum l + e))%sc) l) with (map (fun s => s * / (lsum l + e)) l). split.
    + rewrite map_map. apply Forall_map. eapply Forall_impl; [exact Hl0|]. intros s Hs. simpl in Hs |- *.
      apply Rmult_le_pos; [apply Rmult_le_pos|]; lra.
    + rewrite (lsum_scale f), lsum_scale.
      assert (lsum l * / (lsum l + e) <= 1).
      { apply (Rmult_le_reg_r (lsum l + e)); [lra|]. rewrite Rmult_assoc, Rinv_l; lra. }
      rewrite <- (Rmult_1_l f) at 2. apply Rmult_le_compat_r; lra.
  - split.
    + apply Forall_map. eapply Forall_impl; [exact Hl0|]. intros s Hs. simpl in Hs |- *.
      apply Rmult_le_pos; lra.
    + rewrite (lsum_scale f). rewrite <- (Rmult_1_l f) at 2. apply Rmult_le_compat_r; [done|].
      destruct l as [|s [|s' l]]; [unfold lsum; simpl; lra| |simpl in Hk; lia].
      apply Forall_cons in Hl as [Hs _]. rewrite lsum_cons. unfold lsum. simpl. lra.
Qed.

(** C37. Bounds of the gate: on every configuration with enough experts it
    returns, for every token, [top_k] distinct experts in range, all of them in
    the [topk_group] groups with the best scores; their weights are non-negative
    and no weight, nor their sum, exceeds the scaling factor. *)
Theorem gate_bounds (G : gate R) (x : vec R) :
  gate_ok G -> 0 <= routed_scaling_factor G ->
  exists idx w logits, gate_forward G x = Ok (idx, w, logits) /\
    length idx = top_k G /\ NoDup idx /\ Forall (fun e => (e < num_experts G)%nat) idx /\
    (exists groups, is_topk (topk_group G) (map Some (group_scores G (scores_for_routing G x))) groups /\
       Forall (fun e => (e / (num_experts G / n_group G))%nat ∈ groups) idx) /\
    length w = top_k G /\ Forall (fun v => 0 <= v <= routed_scaling_factor G) w /\
    lsum w <= routed_scaling_factor G.
Proof.
  intros Hok Hf. destruct (gate_spec G Hok x) as (idx & w & lg & E & L & N & F & C & W).
  exists idx, w, lg. split; [done|]. split; [done|]. split; [done|]. split; [done|].
  split; [exists (chosen_groups G (scores_for_routing G x)); split; [by apply chosen_spec|done]|].
  destruct (topk_weight_bounds G (map (nth_s (gate_scores G x)) idx) Hf) as [B1 B2].
  { apply Forall_map, Forall_forall. intros e _. unfold nth_s, gate_scores.
    destruct (nth_in_or_default e (map sigmoid (gate_logits G x)) s0) as [Hin| ->]; [|simpl; lra].
    apply in_map_iff in Hin as (y & <- & _). apply sigmoid_bounds. }
  { by rewrite length_map. }
  rewrite <- W in B1, B2. split; [|split; [|done]].
  - rewrite W. unfold topk_weight. rewrite length_map. destruct (1 <? top_k G)%nat; by rewrite ?length_map.
  - apply Forall_forall. intros v Hv. rewrite Forall_forall in B1. split; [by apply B1|].
    etransitivity; [|exact B2]. apply lsum_ge; [by apply Forall_forall|done].
Qed.

End RealGate.

(** ** A concrete block *)

Module Example_.
Import Reals RealSample.

(** Sorting by key. *)
Definition key_le (l : list nat) (i j : nat) : Prop := default 0 (l !! i) <= default 0 (l !! j).

#[export] Instance key_le_dec l i j : Decision (key_le l i j).
Proof. unfold key_le. apply _. Defined.

#[export] Instance key_le_trans l : Transitive (key_le l).
Proof. intros i j k. unfold key_le. lia. Qed.

#[export] Instance key_le_total l : Total (key_le l).
Proof. intros i j. unfold key_le. lia. Qed.

#[export] Instance argsort_ops : ArgsortOps := fun l => merge_sort (key_le l) (seq 0 (length l)).

#[export] Instance argsort_laws : ArgsortLaws.
Proof.
  split; [intros l; apply merge_sort_Permutation|].
  intros l a b i j u v Hab Ha Hb Hu Hv.
  assert (Hs : StronglySorted (key_le l) (t_argsort l)) by (apply StronglySorted_merge_sort; apply _).
  assert (Hk : key_le l i j); [|unfold key_le in Hk; by rewrite Hu, Hv in Hk].
  revert a b Hab Ha Hb. induction Hs as [|k r Hs IH Hr]; intros a b Hab Ha Hb; [done|].
  destruct b as [|b]; [lia|]. destruct a as [|a]; simplify_eq/=.
  - by apply (Forall_lookup_1 _ _ _ _ Hr Hb).
  - apply (IH a b); (done || lia).
Qed.

Definition demo_gate : gate R :=
  mkGate 2 4 2 1 1 (fun e _ => INR e) 2%R (fun e => INR e).

Definition demo_expert (k : nat) : mlp R :=
  mkMlp 1 1 (fun _ _ => 1%R) (fun _ _ => INR k) (fun _ _ => 1%R) (fun v => v).

Definition demo_experts : list (mlp R) := map demo_expert (seq 0 4).

Lemma demo_gate_ok : gate_ok demo_gate.
Proof. split; simpl; lia. Qed.

Lemma moe_forward_exact_witness :
  moe_forward demo_gate demo_experts (Some (demo_expert 1)) false
    (replicate 4 (zero_vec (R := R))) [fun _ => 1%R; fun _ => 2%R]
  = Sampler.rmap (moe_ref demo_gate demo_experts (Some (demo_expert 1))) [fun _ => 1%R; fun _ => 2%R].
Proof.
  apply (moe_forward_exact demo_gate demo_experts (Some (demo_expert 1)) false
    (replicate 4 (zero_vec (R := R))) [fun _ => 1%R; fun _ => 2%R]);
    [exact demo_gate_ok|reflexivity|simpl; lia|discriminate|discriminate].
Defined.

Lemma gate_bounds_witness : exists idx w logits,
  gate_forward demo_gate (fun _ => 1%R) = Ok (idx, w, logits) /\ length idx = 2 /\ NoDup idx.
Proof.
  destruct (gate_bounds demo_gate (fun _ => 1%R) demo_gate_ok) as (idx & w & lg & E & L & N & _).
  - simpl. lra.
  - by exists idx, w, lg.
Defined.

End Example_.
End Moe.
