(* ===== verification/MoeKernel.v ===== *)
(** The fused kernels of the served experts
    ([srt/layers/moe/fused_moe_triton/fused_moe_triton_kernels.py]), without
    quantisation and tensor descriptors.

    [fused_moe_kernel] multiplies each routed token by the matrix of its expert.
    The tokens come sorted by expert and padded to blocks; a program instance
    computes one tile of the output and stores the lanes that are not masked.  A
    launch runs the instances in any order: every entry receives the product for
    its token, and nothing else is written. *)
From stdpp Require Import base list.
From Stdlib Require Import ZArith Lia Ring.
From S2P Require Import Prelude Tensor.
Local Open Scope nat_scope.

Module MK.

(** ** Stores to a flat buffer *)

Section Stores.
Context {R : Type}.

Definition mem : Type := nat -> R.
Implicit Types (m : mem) (w : list (nat * R)).

Definition store (m : mem) (av : nat * R) : mem := fun x => if x =? av.1 then av.2 else m x.
Definition run_stores (w : list (nat * R)) (m : mem) : mem := foldl store m w.

(** A launch: the stores of the program instances, in the order they run. *)
Definition launch_stores {I} (prog : I -> list (nat * R)) (order : list I) (m : mem) : mem :=
  foldl (fun m i => run_stores (prog i) m) m order.

Lemma run_stores_app w w' m : run_stores (w ++ w') m = run_stores w' (run_stores w m).
Proof. apply foldl_app. Qed.

Lemma launch_concat {I} (prog : I -> list (nat * R)) order m :
  launch_stores prog order m = run_stores (concat (map prog order)) m.
Proof.
  revert m. induction order as [|i order IH]; intros m; [done|]. simpl. by rewrite IH, run_stores_app.
Qed.

Lemma run_stores_keep w m x : (forall v, (x, v) ∉ w) -> run_stores w m x = m x.
Proof.
  revert m. induction w as [|[a v] w IH]; intros m Hn; [done|]. simpl. rewrite IH.
  - unfold store. simpl. destruct (Nat.eqb_spec x a) as [->|]; [|done]. destruct (Hn v). by left.
  - intros v' Hv. apply (Hn v'). by right.
Qed.

(** An address that is only ever given one value holds it in the end. *)
Lemma run_stores_same w m x v : (x, v) ∈ w -> (forall v', (x, v') ∈ w -> v' = v) -> run_stores w m x = v.
Proof.
  revert m. induction w as [|[a u] w IH]; intros m Hin Hall; [by apply not_elem_of_nil in Hin|]. simpl.
  destruct (existsb (fun av => x =? av.1) w) eqn:Ex.
  - apply existsb_exists in Ex as ([a' v'] & Hw%list_elem_of_In & E%Nat.eqb_eq). simpl in E. subst a'.
    apply IH; [|intros; apply Hall; by right]. by rewrite (Hall v') in Hw by (by right).
  - rewrite run_stores_keep.
    + apply elem_of_cons in Hin as [[= <- <-]|Hin].
      * unfold store. simpl. by rewrite Nat.eqb_refl.
      * apply not_true_iff_false in Ex. destruct Ex. apply existsb_exists. exists (x, v).
        split; [by apply list_elem_of_In|]. apply Nat.eqb_refl.
    + intros v' Hv. apply not_true_iff_false in Ex. destruct Ex. apply existsb_exists. exists (x, v').
      split; [by apply list_elem_of_In|]. apply Nat.eqb_refl.
Qed.

End Stores.
Arguments mem : clear implicits.

(** ** Tiles *)

(** The tile of program [pid], grouped for the cache. *)
Definition tile (GROUP_SIZE_M num_pid_m num_pid_n pid : nat) : nat * nat :=
  let num_pid_in_group := GROUP_SIZE_M * num_pid_n in
  let group_id := pid / num_pid_in_group in
  let first_pid_m := group_id * GROUP_SIZE_M in
  let group_size_m := Nat.min (num_pid_m - first_pid_m) GROUP_SIZE_M in
  (first_pid_m + (pid mod num_pid_in_group) mod group_size_m,
   (pid mod num_pid_in_group) / group_size_m).

(** Every tile of the grid has a program. *)
Lemma tile_onto g nm nn a b : 0 < g -> a < nm -> b < nn ->
  exists pid, pid < nm * nn /\ tile g nm nn pid = (a, b).
Proof.
  intros Hg Ha Hb. set (gid := a / g). set (first := gid * g).
  assert (Hf : first <= a < first + g).
  { unfold first, gid. pose proof (Nat.div_mod_eq a g). pose proof (Nat.mod_upper_bound a g). nia. }
  set (gs := Nat.min (nm - first) g). assert (Hgs : 0 < gs /\ a - first < gs) by (unfold gs; lia).
  assert (Hin : b * gs + (a - first) < g * nn).
  { assert (gs <= g) by (unfold gs; lia). nia. }
  exists (gid * (g * nn) + (b * gs + (a - first))). split.
  - assert (Hle : first + gs <= nm) by (unfold gs; lia). unfold first in *. nia.
  - unfold tile.
    assert (E1 : (gid * (g * nn) + (b * gs + (a - first))) / (g * nn) = gid).
    { rewrite Nat.div_add_l by nia. rewrite Nat.div_small by done. lia. }
    assert (E2 : (gid * (g * nn) + (b * gs + (a - first))) mod (g * nn) = b * gs + (a - first)).
    { rewrite Nat.add_comm, Nat.Div0.mod_add. by apply Nat.mod_small. }
    rewrite E1, E2. fold first. fold gs. f_equal.
    + rewrite Nat.add_comm with (n := b * gs), Nat.Div0.mod_add, Nat.mod_small by lia. lia.
    + rewrite Nat.div_add_l by lia. rewrite Nat.div_small by lia. lia.
Qed.

Section Kernel.
Context {R : Type} `{ScalarOps R}.
Local Open Scope sc_scope.

(** Block sizes of a launch. *)
Record kconfig : Type := mkConfig {
  BLOCK_SIZE_M : nat;
  BLOCK_SIZE_N : nat;
  BLOCK_SIZE_K : nat;
  GROUP_SIZE_M : nat;
}.

(** What [moe_align_block_size] returns; the buffer of the sorted tokens has
    [max_num_tokens_padded] entries. *)
Record alignment : Type := mkAlign {
  sorted_token_ids : nat -> nat;
  expert_ids : nat -> Z;
  num_tokens_post_padded : nat;
  max_num_tokens_padded : nat;
}.

Record kargs : Type := mkArgs {
  kA : mat R;
  kB : nat -> mat R;
  kbias : option (mat R);
  ktopk_weights : vec R;
  kN : nat;
  kK : nat;
  num_valid_tokens : nat;
  stride_cm : nat;
  MUL_ROUTED_WEIGHT : bool;
  ktop_k : nat;
  filter_expert : bool;
}.

Variables (c : kconfig) (al : alignment) (g : kargs).

Definition even_Ks : bool := (kK g mod BLOCK_SIZE_K c =? 0)%nat.

(** One lane of the tile: the dot product over blocks of the inner dimension. *)
Definition dot_block (tok : nat) (mask : bool) (e bn : nat) (k_start : nat) : R :=
  vsum (BLOCK_SIZE_K c) (fun q =>
    let in_k := even_Ks || (q <? kK g - k_start)%nat in
    (if mask && in_k then kA g (tok / ktop_k g)%nat (k_start + q)%nat else s0) *
    (if in_k then kB g e bn (k_start + q)%nat else s0)).

Definition accumulate (tok : nat) (mask : bool) (e bn : nat) : R :=
  foldl (fun acc kb => acc + dot_block tok mask e bn (kb * BLOCK_SIZE_K c)) s0
    (seq 0 (cdiv (kK g) (BLOCK_SIZE_K c))).

Definition lane_value (tok : nat) (mask : bool) (e bn : nat) : R :=
  let acc := accumulate tok mask e bn in
  let acc := match kbias g with Some b => acc + b e bn | None => acc end in
  if MUL_ROUTED_WEIGHT g then acc * (if mask then ktopk_weights g tok else s0) else acc.

(** The stores of a tile of which lane [(i, j)] holds [v i j]. *)
Definition tile_stores (pid_m pid_n : nat) (v : nat -> nat -> R) : list (nat * R) :=
  concat (map (fun i =>
    let tok := sorted_token_ids al (pid_m * BLOCK_SIZE_M c + i)%nat in
    concat (map (fun j =>
      let cn := (pid_n * BLOCK_SIZE_N c + j)%nat in
      if (tok <? num_valid_tokens g)%nat && (cn <? kN g)%nat
      then [((stride_cm g * tok + cn)%nat, v i j)] else []) (seq 0 (BLOCK_SIZE_N c))))
    (seq 0 (BLOCK_SIZE_M c))).

(** [fused_moe_kernel], with [write_zeros_to_output] for filtered experts. *)
Definition fused_moe_kernel (pid : nat) : list (nat * R) :=
  let '(pid_m, pid_n) := tile (GROUP_SIZE_M c) (cdiv (max_num_tokens_padded al) (BLOCK_SIZE_M c))
                           (cdiv (kN g) (BLOCK_SIZE_N c)) pid in
  if (num_tokens_post_padded al <=? pid_m * BLOCK_SIZE_M c)%nat then []
  else
    let off_experts := expert_ids al pid_m in
    if filter_expert g && (off_experts =? -1)%Z then tile_stores pid_m pid_n (fun _ _ => s0)
    else tile_stores pid_m pid_n (fun i j =>
      let tok := sorted_token_ids al (pid_m * BLOCK_SIZE_M c + i)%nat in
      lane_value tok (tok <? num_valid_tokens g)%nat (Z.to_nat off_experts)
        ((pid_n * BLOCK_SIZE_N c + j) mod kN g)%nat).

Definition grid : nat :=
  cdiv (max_num_tokens_padded al) (BLOCK_SIZE_M c) * cdiv (kN g) (BLOCK_SIZE_N c).

(** [invoke_fused_moe_kernel]: [order] is the order in which the grid runs. *)
Definition invoke_fused_moe_kernel (order : list nat) (C : mem R) : mem R :=
  launch_stores fused_moe_kernel order C.

End Kernel.
Arguments kargs : clear implicits.

(** ** What a launch computes *)

Section Facts.
Context {R : Type} {HO : ScalarOps R} {sle : R -> R -> Prop} {HL : ScalarLaws R sle}.
Local Open Scope sc_scope.
Add Ring moe_ring : s_ring.

Variables (c : kconfig) (al : alignment) (g : kargs R) (ids : nat -> Z).
#[local] Abbreviation BM := (BLOCK_SIZE_M c).
#[local] Abbreviation BN := (BLOCK_SIZE_N c).
#[local] Abbreviation BK := (BLOCK_SIZE_K c).

(** What the launch relies on of [moe_align_block_size], for the flattened expert
    choices [ids]: every token is listed, its block belongs to its expert, and the
    other entries are padding. *)
Record align_ok : Prop := {
  al_fits : num_tokens_post_padded al <= max_num_tokens_padded al;
  al_blocks : Nat.divide BM (num_tokens_post_padded al);
  al_all : forall t, (t < num_valid_tokens g)%nat ->
    exists p, (p < num_tokens_post_padded al)%nat /\ sorted_token_ids al p = t;
  al_expert : forall p, (p < num_tokens_post_padded al)%nat -> (sorted_token_ids al p < num_valid_tokens g)%nat ->
    expert_ids al (p / BM)%nat = ids (sorted_token_ids al p);
}.

Record config_ok : Prop := {
  co_M : (0 < BM)%nat;
  co_N : (0 < BN)%nat;
  co_K : (0 < BK)%nat;
  co_G : (0 < GROUP_SIZE_M c)%nat;
}.

Hypothesis cok : config_ok.

Lemma vsum_k_blocks nb (f : nat -> R) : vsum nb (fun b => vsum BK (fun q => f (b * BK + q)%nat)) = vsum (nb * BK)%nat f.
Proof.
  induction nb as [|nb IH]; [done|]. cbn [vsum]. rewrite IH.
  replace (S nb * BK)%nat with (nb * BK + BK)%nat by lia. by rewrite vsum_app.
Qed.

Lemma foldl_vsum nb (f : nat -> R) : foldl (fun acc b => acc + f b) s0 (seq 0 nb) = vsum nb f.
Proof. induction nb as [|nb IH]; [done|]. rewrite seq_S, foldl_app, IH. done. Qed.

(** The blocks of the inner dimension add up to the dot product. *)
Lemma accumulate_dot t e n :
  accumulate c g t true e n = vsum (kK g) (fun k => kA g (t / ktop_k g)%nat k * kB g e n k).
Proof using HL cok.
  unfold accumulate. rewrite foldl_vsum. set (F := fun k => kA g (t / ktop_k g)%nat k * kB g e n k).
  rewrite (vsum_ext _ _ (fun b => vsum BK (fun q => if (b * BK + q <? kK g)%nat then F (b * BK + q)%nat else s0))).
  - rewrite (vsum_k_blocks _ (fun k => if (k <? kK g)%nat then F k else s0)). apply vsum_mask.
    apply cdiv_mul_ge. apply cok.
  - intros b Hb. apply vsum_ext. intros q Hq. unfold F, even_Ks. cbn [andb].
    assert (Hin : ((kK g mod BK =? 0)%nat || (q <? kK g - b * BK)%nat) = (b * BK + q <? kK g)%nat).
    { destruct (Nat.eqb_spec (kK g mod BK) 0) as [E|]; cbn [orb].
      - symmetry. apply Nat.ltb_lt. pose proof (Nat.div_mod_eq (kK g) BK) as Ed. rewrite E, Nat.add_0_r in Ed.
        assert (Hcd : cdiv (kK g) BK = (kK g / BK)%nat).
        { unfold cdiv. pose proof (co_K cok). rewrite Ed at 1.
          replace (BK * (kK g / BK) + BK - 1)%nat with (BK - 1 + (kK g / BK) * BK)%nat by lia.
          rewrite Nat.div_add, Nat.div_small by lia. lia. }
        rewrite Hcd in Hb. nia.
      - destruct (Nat.ltb_spec q (kK g - b * BK)), (Nat.ltb_spec (b * BK + q) (kK g)); lia || done. }
    rewrite Hin. destruct (b * BK + q <? kK g)%nat; [done|ring].
Qed.

(** The entry of token [t] in column [n]. *)
Definition kernel_entry (t n : nat) : R :=
  if filter_expert g && (ids t =? -1)%Z then s0
  else lane_value c g t true (Z.to_nat (ids t)) n.

Lemma tile_stores_spec pm pn v a x : (a, x) ∈ tile_stores c al g pm pn v <->
  exists i j, (i < BM)%nat /\ (j < BN)%nat /\
    let tok := sorted_token_ids al (pm * BM + i)%nat in let cn := (pn * BN + j)%nat in
    (tok < num_valid_tokens g)%nat /\ (cn < kN g)%nat /\ a = (stride_cm g * tok + cn)%nat /\ x = v i j.
Proof.
  unfold tile_stores. rewrite list_elem_of_In, in_concat. setoid_rewrite in_map_iff. setoid_rewrite in_seq. split.
  - intros (l & (i & <- & Hi) & Hin). apply in_concat in Hin as (l' & (j & <- & Hj)%in_map_iff & Hin).
    rewrite in_seq in Hj. exists i, j. split; [lia|]. split; [lia|].
    set (tok := sorted_token_ids al (pm * BM + i)%nat) in *. set (cn := (pn * BN + j)%nat) in *.
    destruct (Nat.ltb_spec tok (num_valid_tokens g)), (Nat.ltb_spec cn (kN g)); cbn [andb] in Hin; try done.
    destruct Hin as [[= <- <-]|[]]. done.
  - intros (i & j & Hi & Hj & Ht & Hn & -> & ->). eexists. split; [exists i; split; [reflexivity|lia]|].
    apply in_concat. eexists. split; [apply in_map_iff; exists j; split; [reflexivity|apply in_seq; lia]|].
    rewrite (proj2 (Nat.ltb_lt _ _) Ht), (proj2 (Nat.ltb_lt _ _) Hn). by left.
Qed.

Hypothesis aok : align_ok.

(** Where a padded position lies. *)
Lemma position_block pm i : (i < BM)%nat -> ((pm * BM + i) / BM)%nat = pm.
Proof using cok. intros Hi. pose proof (co_M cok). rewrite Nat.div_add_l, Nat.div_small by lia. lia. Qed.

Lemma block_full pm i : (pm * BM < num_tokens_post_padded al)%nat -> (i < BM)%nat ->
  (pm * BM + i < num_tokens_post_padded al)%nat.
Proof using aok cok.
  intros Hp Hi. destruct (al_blocks aok) as (q & E). rewrite E in *.
  assert (pm < q)%nat by (apply (Nat.mul_lt_mono_pos_r BM); lia). nia.
Qed.

(** The stores of a program instance are entries of the product. *)
Lemma kernel_stores_sound pid a v : (a, v) ∈ fused_moe_kernel c al g pid ->
  exists t n, (t < num_valid_tokens g)%nat /\ (n < kN g)%nat /\ a = (stride_cm g * t + n)%nat /\ v = kernel_entry t n.
Proof using aok cok.
  unfold fused_moe_kernel. destruct (tile _ _ _ pid) as [pm pn].
  destruct (Nat.leb_spec (num_tokens_post_padded al) (pm * BM)) as [|Hp]; [by intros ?%not_elem_of_nil|].
  assert (He : forall i, (i < BM)%nat -> (sorted_token_ids al (pm * BM + i) < num_valid_tokens g)%nat ->
    expert_ids al pm = ids (sorted_token_ids al (pm * BM + i)%nat)).
  { intros i Hi Ht. rewrite <- (position_block pm i Hi) at 1. apply (al_expert aok); [by apply block_full|done]. }
  destruct (filter_expert g && (expert_ids al pm =? -1)%Z) eqn:Ef;
    intros (i & j & Hi & Hj & Ht & Hn & -> & ->)%tile_stores_spec;
    exists (sorted_token_ids al (pm * BM + i)%nat), (pn * BN + j)%nat; (do 3 (split; [done|]));
    unfold kernel_entry; rewrite <- (He i Hi Ht), Ef; [done|].
  by rewrite (proj2 (Nat.ltb_lt _ _) Ht), Nat.mod_small.
Qed.

(** Every entry is stored by some program instance of the grid. *)
Lemma kernel_stores_complete t n : (t < num_valid_tokens g)%nat -> (n < kN g)%nat ->
  exists pid, (pid < grid c al g)%nat /\ ((stride_cm g * t + n)%nat, kernel_entry t n) ∈ fused_moe_kernel c al g pid.
Proof using aok cok.
  intros Ht Hn. destruct (al_all aok t Ht) as (p & Hp & Es). destruct cok as [HM HN HK HG].
  pose proof (Nat.div_mod_eq p BM) as Ep. pose proof (Nat.mod_upper_bound p BM) as Hpm.
  pose proof (Nat.div_mod_eq n BN) as En. pose proof (Nat.mod_upper_bound n BN) as Hnm.
  assert (Hcd : forall a b d, (0 < b)%nat -> (a < d)%nat -> (a / b < cdiv d b)%nat).
  { intros a b d Hb Had. apply Nat.Div0.div_lt_upper_bound. pose proof (cdiv_mul_ge d b Hb). lia. }
  destruct (tile_onto (GROUP_SIZE_M c) (cdiv (max_num_tokens_padded al) BM) (cdiv (kN g) BN) (p / BM) (n / BN) HG)
    as (pid & Hpid & Etile); [apply Hcd; [done|pose proof (al_fits aok); lia]|by apply Hcd|].
  exists pid. split; [done|]. unfold fused_moe_kernel. rewrite Etile.
  rewrite (proj2 (Nat.leb_gt _ _)) by lia.
  assert (Esp : sorted_token_ids al (p / BM * BM + p mod BM)%nat = t) by (rewrite <- Es; f_equal; lia).
  assert (Ee : expert_ids al (p / BM)%nat = ids t) by (rewrite <- Es; apply (al_expert aok); [done|by rewrite Es]).
  rewrite Ee. unfold kernel_entry. destruct (filter_expert g && (ids t =? -1)%Z);
    apply tile_stores_spec; exists (p mod BM), (n mod BN); (split; [lia|]); (split; [lia|]); cbv zeta; rewrite !Esp;
    replace (n / BN * BN + n mod BN)%nat with n by lia; rewrite ?(proj2 (Nat.ltb_lt _ _) Ht), ?Nat.mod_small by done; done.
Qed.

(** The launch, in whatever order the grid runs. *)
Lemma invoke_spec order (C : mem R) : order ≡ₚ seq 0 (grid c al g) -> (kN g <= stride_cm g)%nat ->
  (forall t n, (t < num_valid_tokens g)%nat -> (n < kN g)%nat ->
     invoke_fused_moe_kernel c al g order C (stride_cm g * t + n)%nat = kernel_entry t n) /\
  (forall a, (forall t n, (t < num_valid_tokens g)%nat -> (n < kN g)%nat -> a <> (stride_cm g * t + n)%nat) ->
     invoke_fused_moe_kernel c al g order C a = C a).
Proof using aok cok.
  intros Hord Hst. unfold invoke_fused_moe_kernel. rewrite launch_concat.
  assert (Hsound : forall a v, (a, v) ∈ concat (map (fused_moe_kernel c al g) order) ->
    exists t n, (t < num_valid_tokens g)%nat /\ (n < kN g)%nat /\ a = (stride_cm g * t + n)%nat /\ v = kernel_entry t n).
  { intros a v Hin. apply list_elem_of_In, in_concat in Hin as (l & (pid & <- & _)%in_map_iff & Hin).
    apply (kernel_stores_sound pid). by apply list_elem_of_In. }
  split.
  - intros t n Ht Hn. apply run_stores_same.
    + destruct (kernel_stores_complete t n Ht Hn) as (pid & Hpid & Hin). apply list_elem_of_In, in_concat.
      exists (fused_moe_kernel c al g pid). split; [|by apply list_elem_of_In].
      apply in_map. apply list_elem_of_In. rewrite Hord. apply elem_of_seq. lia.
    + intros v (t' & n' & Ht' & Hn' & Ea & ->)%Hsound. assert (t = t') as -> by nia.
      assert (n = n') as -> by lia. done.
  - intros a Ha. apply run_stores_keep. intros v (t & n & Ht & Hn & Ea & _)%Hsound. by apply (Ha t n).
Qed.

End Facts.

(** ** [moe_align_block_size]

    The kernel behind it belongs to another package; its buffers are sized here.
    [align_blocks] is what its documentation describes: for each expert in turn the
    tokens that chose it, padded to whole blocks; expert [-1] comes first. *)

Section Align.
Context (ids : nat -> Z) (n E BM : nat).

Definition max_num_tokens_padded_of : nat := if n <? E + 1 then n * BM else n + (E + 1) * (BM - 1).

Definition experts_and_filtered : list Z := map (fun i => (Z.of_nat i - 1)%Z) (seq 0 (E + 1)).

Definition tokens_of (e : Z) : list nat := filter (fun t => ids t = e) (seq 0 n).
Definition blocks_of (e : Z) : nat := cdiv (length (tokens_of e)) BM.
Definition padded (e : Z) : list nat := tokens_of e ++ replicate (blocks_of e * BM - length (tokens_of e)) n.

Definition align_list (es : list Z) : list nat := concat (map padded es).
Definition expert_list (es : list Z) : list Z := concat (map (fun e => replicate (blocks_of e) e) es).

Definition align_blocks : alignment :=
  let l := align_list experts_and_filtered in
  mkAlign (fun p => nth p l n) (fun b => nth b (expert_list experts_and_filtered) (-1)%Z) (length l)
    max_num_tokens_padded_of.

Hypothesis HBM : 0 < BM.

Lemma length_padded e : length (padded e) = blocks_of e * BM.
Proof using HBM.
  unfold padded. rewrite length_app, length_replicate. pose proof (cdiv_mul_ge (length (tokens_of e)) BM HBM).
  unfold blocks_of. lia.
Qed.

Lemma tokens_of_spec e t : t ∈ tokens_of e <-> t < n /\ ids t = e.
Proof. unfold tokens_of. rewrite list_elem_of_filter, elem_of_seq. split; intros [? ?]; split; (done || lia). Qed.

Lemma length_align es : length (align_list es) = length (expert_list es) * BM.
Proof using HBM.
  unfold align_list, expert_list. induction es as [|e es IH]; [done|]. simpl.
  rewrite !length_app, length_padded, length_replicate, IH. lia.
Qed.

(** A token lies in a block of its expert. *)
Lemma align_expert es p t : align_list es !! p = Some t -> t < n -> expert_list es !! (p / BM) = Some (ids t).
Proof using HBM.
  unfold align_list, expert_list. revert p. induction es as [|e es IH]; intros p Hp Ht; [done|]. simpl in *.
  destruct (decide (p < blocks_of e * BM)) as [Hlt|Hge].
  - rewrite lookup_app_l in Hp by (by rewrite length_padded).
    assert (Hb : p / BM < blocks_of e) by (apply Nat.Div0.div_lt_upper_bound; lia).
    rewrite lookup_app_l by (by rewrite length_replicate). rewrite lookup_replicate_2 by done. f_equal.
    apply list_elem_of_lookup_2, elem_of_app in Hp as [Hin|[-> _]%elem_of_replicate]; [|lia].
    by apply tokens_of_spec in Hin as [_ ->].
  - rewrite lookup_app_r in Hp by (rewrite length_padded; lia). rewrite length_padded in Hp.
    assert (Ed : p / BM = (p - blocks_of e * BM) / BM + blocks_of e).
    { rewrite <- Nat.div_add by lia. f_equal. lia. }
    rewrite lookup_app_r by (rewrite length_replicate; lia). rewrite length_replicate, Ed, Nat.add_sub. by apply IH.
Qed.

Lemma align_all es t : t < n -> ids t ∈ es -> t ∈ align_list es.
Proof.
  intros Ht Hin. unfold align_list. apply list_elem_of_In, in_concat. exists (padded (ids t)). split.
  - apply in_map. by apply list_elem_of_In.
  - apply list_elem_of_In, elem_of_app. left. by apply tokens_of_spec.
Qed.

(** Distinct experts have distinct tokens. *)
Lemma tokens_total es : NoDup es -> sum_list (map (fun e => length (tokens_of e)) es) <= n.
Proof.
  intros Hn. assert (Hsub : concat (map tokens_of es) ⊆+ seq 0 n).
  { apply NoDup_submseteq.
    - induction Hn as [|e es He Hn IH]; [constructor|]. simpl. apply NoDup_app. split; [apply NoDup_filter, NoDup_seq|].
      split; [|done]. intros t [_ Et]%tokens_of_spec (l & (e' & <- & He')%in_map_iff & Hl)%list_elem_of_In%in_concat.
      apply list_elem_of_In, tokens_of_spec in Hl as [_ Et']. apply He. rewrite <- Et, Et'. by apply list_elem_of_In.
    - intros t (l & (e & <- & _)%in_map_iff & Hl)%list_elem_of_In%in_concat.
      apply list_elem_of_In, tokens_of_spec in Hl as [Ht _]. apply elem_of_seq. lia. }
  apply submseteq_length in Hsub. rewrite length_seq in Hsub.
  assert (El : length (concat (map tokens_of es)) = sum_list (map (fun e => length (tokens_of e)) es)).
  { clear. induction es as [|e es IH]; [done|]. simpl. by rewrite length_app, IH. }
  lia.
Qed.

(** The buffers are large enough. *)
Lemma align_bound : length (align_list experts_and_filtered) <= max_num_tokens_padded_of.
Proof using HBM.
  assert (Hn : NoDup experts_and_filtered).
  { unfold experts_and_filtered. apply NoDup_fmap_2_strong; [|apply NoDup_seq]. intros i j _ _ Eq. simpl in Eq. lia. }
  assert (Hl : length experts_and_filtered = E + 1) by (unfold experts_and_filtered; by rewrite length_map, length_seq).
  pose proof (tokens_total _ Hn) as Ht. unfold max_num_tokens_padded_of. rewrite <- Hl.
  assert (Hc : forall e, blocks_of e * BM <= length (tokens_of e) + (BM - 1) /\ blocks_of e * BM <= length (tokens_of e) * BM).
  { intros e. unfold blocks_of, cdiv. set (k := length (tokens_of e)).
    pose proof (Nat.Div0.mul_div_le (k + BM - 1) BM) as Hm. split; [lia|].
    destruct k as [|k]; [rewrite Nat.div_small by lia; lia|]. apply Nat.mul_le_mono_r.
    apply Nat.Div0.div_le_upper_bound. nia. }
  assert (Hs : length (align_list experts_and_filtered) <= n + length experts_and_filtered * (BM - 1) /\
    length (align_list experts_and_filtered) <= n * BM).
  { revert Ht. generalize n. intros n' Ht. unfold align_list. clear Hn Hl. revert n' Ht.
    induction experts_and_filtered as [|e es IH]; intros n' Ht; [simpl; lia|]. simpl in *. rewrite length_app, length_padded.
    destruct (IH (n' - length (tokens_of e)) ltac:(lia)) as [I1 I2]. destruct (Hc e) as [C1 C2]. split; [nia|].
    assert (length (tokens_of e) <= n') by lia. nia. }
  destruct (Nat.ltb_spec n (length experts_and_filtered)); lia.
Qed.

Context {R : Type} (c : kconfig) (g : kargs R).

(** The documented alignment is one the kernel can rely on. *)
Lemma align_blocks_ok : BLOCK_SIZE_M c = BM -> num_valid_tokens g = n ->
  (forall t, t < n -> (-1 <= ids t < Z.of_nat E)%Z) -> align_ok c align_blocks g ids.
Proof using HBM.
  intros EM En Hids. split; cbn [num_tokens_post_padded max_num_tokens_padded sorted_token_ids expert_ids align_blocks].
  - apply align_bound.
  - rewrite EM, length_align. apply Nat.divide_factor_r.
  - intros t Ht. rewrite En in Ht. assert (Hin : t ∈ align_list experts_and_filtered).
    { apply align_all; [done|]. unfold experts_and_filtered. specialize (Hids t Ht).
      apply list_elem_of_fmap. exists (Z.to_nat (ids t + 1)). split; [lia|]. apply elem_of_seq. lia. }
    apply list_elem_of_lookup in Hin as (p & Hp). exists p. split; [by eapply lookup_lt_Some|].
    by apply nth_lookup_Some.
  - intros p Hp. rewrite En, EM. destruct (lookup_lt_is_Some_2 _ p Hp) as [t Et].
    rewrite (nth_lookup_Some _ _ _ _ Et). intros Ht. apply nth_lookup_Some. by apply align_expert.
Qed.

End Align.

End MK.
