(* ===== verification/MoeConfig.v ===== *)
(** Tile configurations of the fused experts
    ([srt/layers/moe/fused_moe_triton/fused_moe_triton_config.py]): the search over
    the tuned tables, the entry closest to the batch size, the default, and the
    pair of configurations that one call uses.

    The tuned tables are files: [table v down] is the one of Triton version [v], if
    there is one. *)
From stdpp Require Import base list strings.
From Stdlib Require Import ZArith Lia.
From S2P Require Import Prelude MoeKernel.
Local Open Scope nat_scope.

Module MC.
Import MK.

Section Model.

Definition table : Type := list (nat * kconfig).

(** What the process finds: the server argument, the installed version, and files. *)
Record env : Type := mkEnv {
  enable_deterministic_inference : bool;
  triton_version : string;
  files : string -> bool -> option table;
}.

Variable V : env.

Definition supported_triton_versions : list string := ["3.4.0"; "3.3.1"; "3.2.0"; "3.1.0"]%string.

(** The first other version that has the file. *)
Fixpoint search_versions (down_moe : bool) (vs : list string) : option table :=
  match vs with
  | [] => None
  | v :: vs =>
    if String.eqb v (triton_version V) then search_versions down_moe vs
    else match files V v down_moe with
         | Some t => Some t
         | None => search_versions down_moe vs
         end
  end.

Definition get_moe_configs (down_moe : bool) : option table :=
  if enable_deterministic_inference V then None
  else match files V (triton_version V) down_moe with
       | Some t => Some t
       | None => search_versions down_moe supported_triton_versions
       end.

(** [get_default_config]; [block_shape] is the shape of the quantisation blocks. *)
Definition get_default_config (M E : nat) (dtype : option string) (is_marlin : bool)
    (block_shape : option (nat * nat)) : kconfig :=
  if enable_deterministic_inference V then mkConfig 64 64 32 8
  else if match dtype with Some d => String.eqb d "fp8_w8a8" | None => false end then
    match block_shape with
    | None => if M <=? E then mkConfig 64 128 128 1 else mkConfig 128 256 128 32
    | Some (n, k) => mkConfig 64 n k 32
    end
  else if (M <=? E) || (is_marlin && (M <=? 32)) then mkConfig 16 32 64 1
  else mkConfig 64 64 32 8.

Definition dist (x M : nat) : nat := (x - M) + (M - x).

(** [min(configs.keys(), key=lambda x: abs(x - M))]: the first closest key. *)
Fixpoint closest (M : nat) (best : nat * kconfig) (t : table) : nat * kconfig :=
  match t with
  | [] => best
  | e :: t => closest M (if dist (fst e) M <? dist (fst best) M then e else best) t
  end.

Definition pick (M : nat) (t : option table) : option kconfig :=
  match t with
  | Some (e :: t) => Some (snd (closest M e t))
  | _ => None
  end.

(** [try_get_optimal_moe_config(return_down_config=True)]. *)
Definition try_get_optimal_moe_config (override : option kconfig) (M E : nat) (dtype : option string)
    (is_marlin : bool) (block_shape : option (nat * nat)) : res (kconfig * option kconfig) :=
  let configs := match override with
                 | Some c => (c, None)
                 | None => (default (get_default_config M E dtype is_marlin block_shape) (pick M (get_moe_configs false)),
                            pick M (get_moe_configs true))
                 end in
  passert (match snd configs with None => true | Some d => (BLOCK_SIZE_M (fst configs) =? BLOCK_SIZE_M d)%nat end)
    (Ok configs).

End Model.

(** The pair of configurations of a call. *)
Record configs_ok (cs : kconfig * option kconfig) : Prop := {
  cs_first : config_ok (fst cs);
  cs_down : forall c, snd cs = Some c -> config_ok c /\ BLOCK_SIZE_M c = BLOCK_SIZE_M (fst cs);
}.

Section Facts.
Variable V : env.

Lemma closest_spec M e t : closest M e t ∈ e :: t /\ forall e', e' ∈ e :: t -> dist (fst (closest M e t)) M <= dist (fst e') M.
Proof.
  revert e. induction t as [|a t IH]; intros e; cbn [closest].
  { split; [by left|]. by intros e' ->%list_elem_of_singleton. }
  destruct (Nat.ltb_spec (dist (fst a) M) (dist (fst e) M)) as [Hlt|Hge].
  - destruct (IH a) as [Hin Hle]. split; [by right|]. intros e' [->|He']%elem_of_cons; [|by apply Hle].
    specialize (Hle a ltac:(by left)). lia.
  - destruct (IH e) as [Hin Hle]. split.
    + apply elem_of_cons in Hin as [->|Hin]; [by left|]. right. by right.
    + intros e' [->|[->|He']%elem_of_cons]%elem_of_cons; [apply Hle; by left| |apply Hle; by right].
      specialize (Hle e ltac:(by left)). lia.
Qed.

(** The entry that is used is one of the table, and none is closer. *)
Lemma pick_spec M t c : pick M (Some t) = Some c ->
  exists key, (key, c) ∈ t /\ forall e, e ∈ t -> dist key M <= dist (fst e) M.
Proof.
  destruct t as [|e t]; [done|]. cbn [pick]. intros [= <-]. destruct (closest_spec M e t) as [Hin Hle].
  destruct (closest M e t) as [key c]. by exists key.
Qed.

Definition table_ok (t : table) : Prop := Forall (fun e => config_ok (snd e)) t.

Definition tables_ok : Prop := forall v down t, files V v down = Some t -> table_ok t.

Lemma search_files down vs t : search_versions V down vs = Some t -> exists v, files V v down = Some t.
Proof.
  induction vs as [|v vs IH]; [done|]. cbn [search_versions]. destruct (String.eqb _ _); [done|].
  destruct (files V v down) eqn:E; [|done]. intros [= <-]. by exists v.
Qed.

Lemma pick_ok M down c : tables_ok -> pick M (get_moe_configs V down) = Some c -> config_ok c.
Proof.
  intros Ht Hp. destruct (get_moe_configs V down) as [t|] eqn:E; [|done].
  assert (Hf : exists v, files V v down = Some t).
  { unfold get_moe_configs in E. destruct (enable_deterministic_inference V); [done|].
    destruct (files V (triton_version V) down) eqn:E'; [injection E as <-; by eexists|by apply search_files in E]. }
  destruct Hf as [v Hv]. apply Ht in Hv. destruct (pick_spec M t c Hp) as (key & Hin & _).
  unfold table_ok in Hv. rewrite Forall_forall in Hv. by apply (Hv _ Hin).
Qed.

Lemma default_ok M E dtype marlin bs : (forall n k, bs = Some (n, k) -> 0 < n /\ 0 < k) ->
  config_ok (get_default_config V M E dtype marlin bs).
Proof.
  intros Hb. unfold get_default_config. destruct (enable_deterministic_inference V); [split; cbn; lia|].
  destruct (match dtype with Some d => _ | None => _ end).
  - destruct bs as [[n k]|]; [destruct (Hb n k eq_refl); split; cbn; lia|]. destruct (M <=? E); split; cbn; lia.
  - destruct ((M <=? E) || (marlin && (M <=? 32))); split; cbn; lia.
Qed.

(** What a call gets when it gets anything: usable tiles, and both launches share
    the block of tokens that the alignment was made for. *)
Lemma optimal_ok override M E dtype marlin bs cs : tables_ok ->
  (forall c, override = Some c -> config_ok c) -> (forall n k, bs = Some (n, k) -> 0 < n /\ 0 < k) ->
  try_get_optimal_moe_config V override M E dtype marlin bs = Ok cs -> configs_ok cs.
Proof.
  intros Ht Ho Hb. unfold try_get_optimal_moe_config, passert. set (p := match override with Some c => _ | None => _ end).
  destruct (match snd p with None => true | Some d => _ end) eqn:Em; [|done]. intros [= <-]. split.
  - unfold p. destruct override as [c|]; [by apply Ho|]. cbn [fst].
    destruct (pick M (get_moe_configs V false)) as [c|] eqn:E1; [by apply (pick_ok M false)|by apply default_ok].
  - intros c Ec. rewrite Ec in Em. apply Nat.eqb_eq in Em. split; [|done].
    unfold p in Ec. destruct override as [c'|]; [done|]. by apply (pick_ok M true).
Qed.

End Facts.
End MC.
