(* ===== verification/FusedExperts.v ===== *)
(** The experts of a served layer: [fused_experts_impl]
    ([srt/layers/moe/fused_moe_triton/fused_moe.py]) on unquantised weights.

    The tokens are taken in chunks; per chunk the first kernel multiplies every
    routed token by the gate and up rows of its expert, the activation is applied,
    the second kernel multiplies by the down rows and the routing weight, and the
    outputs of a token are summed and scaled.  Two of the three buffers are views
    of one allocation, and the output may be the input buffer itself.

    The kernels of [MoeKernel] run in any order; [silu_and_mul] and
    [moe_sum_reduce] of the kernel package are parameters with their documented
    results.  Bias, other activations, tensor descriptors and the fused
    all-reduce are left out. *)
From stdpp Require Import base list.
From Stdlib Require Import ZArith Lia Ring.
From S2P Require Import Prelude Tensor MoeKernel MoeConfig.
Local Open Scope nat_scope.

Module FE.
Import MK MC.

Section Model.
Context {R : Type} `{ScalarOps R}.
Local Open Scope sc_scope.

(** [x * sigmoid(x)]. *)
Definition silu (x : R) : R := x * sigmoid x.

(** ** Activation *)

(** [act_and_mul_kernel] on row [pid]; rows of filtered experts are skipped. *)
Definition act_and_mul_kernel (gateup_output : mem R) (hidden_size : nat) (expert_ids : nat -> Z)
    (BLOCK_SIZE pid : nat) : list (nat * R) :=
  let half_hidden_size := (hidden_size / 2)%nat in
  if (expert_ids pid =? -1)%Z then []
  else concat (map (fun b =>
    concat (map (fun q =>
      let offset := (b * BLOCK_SIZE + q)%nat in
      if (offset <? half_hidden_size)%nat
      then [((pid * half_hidden_size + offset)%nat,
             silu (gateup_output (pid * hidden_size + offset)%nat) *
             gateup_output (pid * hidden_size + half_hidden_size + offset)%nat)]
      else []) (seq 0 BLOCK_SIZE)))
    (seq 0 (cdiv half_hidden_size BLOCK_SIZE))).

(** [act_and_mul_triton] on [rows] unsorted rows. *)
Definition act_and_mul_triton (sched : nat -> list nat) (rows hidden_size : nat) (expert_ids : nat -> Z)
    (gateup_output down_input : mem R) : mem R :=
  launch_stores (act_and_mul_kernel gateup_output hidden_size expert_ids 512) (sched rows) down_input.

(** ** Reduction *)

(** [_moe_sum_reduce_kernel] with blocks of one token. *)
Definition moe_sum_reduce_kernel (input : mem R) (token_num topk_num hidden_dim : nat) (factor : R)
    (BLOCK_DIM : nat) (pid : nat * nat) : list (nat * R) :=
  let '(token, dim_block) := pid in
  concat (map (fun j =>
    let dim := (dim_block * BLOCK_DIM + j)%nat in
    if (token <? token_num)%nat && (dim <? hidden_dim)%nat
    then [((token * hidden_dim + dim)%nat,
           vsum topk_num (fun i => input ((token * topk_num + i) * hidden_dim + dim)%nat) * factor)]
    else []) (seq 0 BLOCK_DIM)).

Definition moe_sum_reduce_triton (sched : nat -> list nat) (input output : mem R)
    (token_num topk_num hidden_dim : nat) (factor : R) : mem R :=
  let nd := cdiv hidden_dim 2048 in
  launch_stores (moe_sum_reduce_kernel input token_num topk_num hidden_dim factor 2048)
    (map (fun pid => (pid / nd, pid mod nd)%nat) (sched (token_num * nd)%nat)) output.

(** [moe_sum_reduce_torch_compile]: sum over the choices, then scale. *)
Definition moe_sum_reduce_torch_compile (input output : mem R) (token_num topk_num hidden_dim : nat)
    (factor : R) : mem R :=
  fun a => if (a <? token_num * hidden_dim)%nat
    then vsum topk_num (fun i => input ((a / hidden_dim * topk_num + i) * hidden_dim + a mod hidden_dim)%nat) * factor
    else output a.

(** ** [fused_experts_impl] *)

Record weights : Type := mkWeights {
  wE : nat;
  wN : nat;
  wH : nat;
  w1 : nat -> mat R;
  w2 : nat -> mat R;
}.

Inductive platform : Type := Cuda | Hip.

(** What the code finds around it. *)
Record world : Type := mkWorld {
  plat : platform;
  get_config : nat -> kconfig * option kconfig;
  sgl_align : nat -> (nat -> Z) -> nat -> nat -> alignment;
  sched : nat -> list nat;
  sgl_silu_and_mul : nat -> nat -> mem R -> mem R -> mem R;
  sgl_moe_sum_reduce : mem R -> mem R -> nat -> nat -> nat -> R -> mem R;
  empty_rows : nat -> mem R;
}.

Variables (W : world) (ws : weights) (inplace filter_expert : bool) (factor : R) (topk : nat).
Variables (topk_weights : vec R) (topk_ids : nat -> Z).

(** The buffers of the call: the caller's hidden states, the output, and the
    allocation behind [intermediate_cache1] and [intermediate_cache3]. *)
Record buffers : Type := mkBuf { hidden_buf : mem R; out_buf : mem R; cache_buf : mem R }.

Definition hidden_states (b : buffers) : mem R := if inplace then out_buf b else hidden_buf b.

(** [f] on the part of a buffer behind [base]. *)
Definition on_slice (base : nat) (f : mem R -> mem R) (m : mem R) : mem R :=
  fun a => if (a <? base)%nat then m a else f (fun x => m (base + x)%nat) (a - base)%nat.

(** Sum and scale the outputs of the tokens of a chunk. *)
Definition combine_chunk (tokens : nat) (cache out : mem R) : mem R :=
  match plat W with
  | Cuda =>
    if (topk =? 1)%nat && s_is_zero (factor - s1) then out
    else if (topk =? 2)%nat && s_is_zero (factor - s1) then
      fun a => if (a <? tokens * wH ws)%nat
        then cache ((a / wH ws * 2 + 0) * wH ws + a mod wH ws)%nat + cache ((a / wH ws * 2 + 1) * wH ws + a mod wH ws)%nat
        else out a
    else if (tokens <=? 32)%nat then moe_sum_reduce_torch_compile cache out tokens topk (wH ws) factor
    else sgl_moe_sum_reduce W cache out tokens topk (wH ws) factor
  | Hip =>
    if (tokens <=? 32)%nat then moe_sum_reduce_torch_compile cache out tokens topk (wH ws) factor
    else moe_sum_reduce_triton (sched W) cache out tokens topk (wH ws) factor
  end.

(** The arguments of the two launches of a chunk that starts at [begin]. *)
Definition args1 (begin tokens : nat) (b : buffers) : kargs R :=
  mkArgs (fun r d => hidden_states b ((begin + r) * wH ws + d)%nat) (w1 ws) None
    (fun p => topk_weights (begin * topk + p)%nat) (wN ws) (wH ws) (tokens * topk) (wN ws) false topk filter_expert.

Definition args2 (begin tokens : nat) (cache2 : mem R) : kargs R :=
  mkArgs (fun p i => cache2 (p * (wN ws / 2) + i)%nat) (w2 ws) None
    (fun p => topk_weights (begin * topk + p)%nat) (wH ws) (wN ws / 2) (tokens * topk) (wH ws) true 1 filter_expert.

Definition chunk_ids (begin : nat) : nat -> Z := fun p => topk_ids (begin * topk + p)%nat.

(** [down_config or config]. *)
Definition down_or (config : kconfig * option kconfig) : kconfig := default (fst config) (snd config).

Definition run_chunk (configs : kconfig * option kconfig) (begin tokens : nat) (b : buffers) : buffers :=
  let config := fst configs in
  let ids := chunk_ids begin in
  let al := sgl_align W (BLOCK_SIZE_M config) ids (tokens * topk) (wE ws) in
  let g1 := args1 begin tokens b in
  let cache := invoke_fused_moe_kernel config al g1 (sched W (grid config al g1)) (cache_buf b) in
  let cache2 := if filter_expert
                then act_and_mul_triton (sched W) (tokens * topk) (wN ws) ids cache (empty_rows W begin)
                else sgl_silu_and_mul W (tokens * topk) (wN ws) cache (empty_rows W begin) in
  let g2 := args2 begin tokens cache2 in
  let second := invoke_fused_moe_kernel (down_or configs) al g2 (sched W (grid (down_or configs) al g2)) in
  let cache' := if (topk =? 1)%nat then cache else second cache in
  let out := if (topk =? 1)%nat then on_slice (begin * wH ws) second (out_buf b) else out_buf b in
  mkBuf (hidden_buf b) (on_slice (begin * wH ws) (combine_chunk tokens cache') out) cache'.

(** The loop over chunks; the last one may be shorter. *)
Fixpoint chunk_loop (fuel CHUNK_SIZE num_tokens chunk : nat) (config : kconfig * option kconfig) (b : buffers) : buffers :=
  match fuel with
  | 0 => b
  | S fuel =>
    let begin := (chunk * CHUNK_SIZE)%nat in
    let tokens := (Nat.min ((chunk + 1) * CHUNK_SIZE) num_tokens - begin)%nat in
    if (tokens =? 0)%nat then b
    else
      let config := if (tokens <? CHUNK_SIZE)%nat && (0 <? chunk)%nat then get_config W tokens else config in
      chunk_loop fuel CHUNK_SIZE num_tokens (S chunk) config (run_chunk config begin tokens b)
  end.

Definition CHUNK_SIZE : nat := 64 * 1024.

(** [fused_experts_impl]: the output buffer and the hidden states afterwards. *)
Definition fused_experts_impl (num_tokens : nat) (hidden out0 cache0 : mem R) : mem R * mem R :=
  let config := get_config W (Nat.min num_tokens CHUNK_SIZE) in
  let b := chunk_loop (num_tokens / CHUNK_SIZE + 1) CHUNK_SIZE num_tokens 0 config
             (mkBuf hidden (if inplace then hidden else out0) cache0) in
  (out_buf b, hidden_states b).

(** ** Reference *)

(** Expert [e] on one row. *)
Definition expert_out (e : nat) (x : vec R) : vec R := fun d =>
  vsum (wN ws / 2) (fun i =>
    silu (vsum (wH ws) (fun k => x k * w1 ws e i k)) *
    vsum (wH ws) (fun k => x k * w1 ws e (wN ws / 2 + i)%nat k) * w2 ws e d i).

(** Choice [k] of token [r], weighted; filtered experts contribute nothing. *)
Definition choice_out (x : nat -> vec R) (r k d : nat) : R :=
  let p := (r * topk + k)%nat in
  if filter_expert && (topk_ids p =? -1)%Z then s0
  else expert_out (Z.to_nat (topk_ids p)) (x r) d * topk_weights p.

Definition routed_sum (x : nat -> vec R) (r d : nat) : R :=
  vsum topk (fun k => choice_out x r k d) * factor.

End Model.
Arguments weights : clear implicits.
Arguments world : clear implicits.
Arguments buffers : clear implicits.

(** ** The kernels around the products *)

Section Kernels.
Context {R : Type} {HO : ScalarOps R} {sle : R -> R -> Prop} {HL : ScalarLaws R sle}.
Local Open Scope sc_scope.
Add Ring fe_ring : s_ring.

(** Rows of width [n] do not overlap. *)
Lemma row_addr (n t i t' i' : nat) : (i < n -> i' < n -> t * n + i = t' * n + i' -> t = t' /\ i = i')%nat.
Proof. intros Hi Hi' E. assert (t = t') as -> by nia. lia. Qed.

Lemma act_stores (src : mem R) N ids B pid a v : (0 < B)%nat ->
  (a, v) ∈ act_and_mul_kernel src N ids B pid <->
  ids pid <> (-1)%Z /\ exists i, (i < N / 2)%nat /\ a = (pid * (N / 2) + i)%nat /\
    v = silu (src (pid * N + i)%nat) * src (pid * N + N / 2 + i)%nat.
Proof.
  intros HB. unfold act_and_mul_kernel. destruct (Z.eqb_spec (ids pid) (-1)) as [E|Hne].
  { split; [by intros ?%not_elem_of_nil|by intros [? _]]. }
  rewrite list_elem_of_In, in_concat. setoid_rewrite in_map_iff. setoid_rewrite in_seq. split.
  - intros (l & (b & <- & Hb) & Hin). apply in_concat in Hin as (l' & (q & <- & Hq)%in_map_iff & Hin).
    destruct (Nat.ltb_spec (b * B + q) (N / 2)); [|done]. destruct Hin as [[= <- <-]|[]].
    split; [done|]. by exists (b * B + q)%nat.
  - intros (_ & i & Hi & -> & ->). eexists. split.
    + exists (i / B)%nat. split; [reflexivity|]. split; [lia|]. apply Nat.Div0.div_lt_upper_bound.
      pose proof (cdiv_mul_ge (N / 2) B HB). lia.
    + apply in_concat. eexists. split; [apply in_map_iff; exists (i mod B)%nat; split; [reflexivity|]|].
      * apply in_seq. pose proof (Nat.mod_upper_bound i B). lia.
      * pose proof (Nat.div_mod_eq i B) as E. replace (i / B * B + i mod B)%nat with i by lia.
        rewrite (proj2 (Nat.ltb_lt _ _) Hi). by left.
Qed.

Lemma act_and_mul_spec sched rows N ids (src dst : mem R) t i : sched rows ≡ₚ seq 0 rows -> (t < rows)%nat ->
  (i < N / 2)%nat -> ids t <> (-1)%Z ->
  act_and_mul_triton sched rows N ids src dst (t * (N / 2) + i)%nat =
  silu (src (t * N + i)%nat) * src (t * N + N / 2 + i)%nat.
Proof.
  intros Hs Ht Hi Hid. unfold act_and_mul_triton. rewrite launch_concat.
  assert (HB : (0 < 512)%nat) by lia. apply run_stores_same.
  - apply list_elem_of_In, in_concat. eexists. split; [apply in_map, list_elem_of_In; rewrite Hs; apply elem_of_seq; split; [lia|exact Ht]|].
    apply list_elem_of_In, act_stores; [done|]. split; [done|]. by exists i.
  - intros v Hv. apply list_elem_of_In, in_concat in Hv as (l & (pid & <- & _)%in_map_iff & Hv).
    apply list_elem_of_In, act_stores in Hv as (_ & j & Hj & Ea & ->); [|done].
    apply row_addr in Ea as [-> ->]; done.
Qed.

Lemma div_row H r d : (d < H)%nat -> ((r * H + d) / H = r)%nat /\ ((r * H + d) mod H = d)%nat.
Proof.
  intros Hd. split; [rewrite Nat.div_add_l, Nat.div_small by lia; lia|].
  rewrite Nat.add_comm, Nat.Div0.mod_add. by apply Nat.mod_small.
Qed.

Lemma reduce_stores (src : mem R) T K H f B t b a v :
  (a, v) ∈ moe_sum_reduce_kernel src T K H f B (t, b) <->
  exists j, (j < B)%nat /\ (t < T)%nat /\ (b * B + j < H)%nat /\ a = (t * H + (b * B + j))%nat /\
    v = vsum K (fun i => src ((t * K + i) * H + (b * B + j))%nat) * f.
Proof.
  unfold moe_sum_reduce_kernel. rewrite list_elem_of_In, in_concat. setoid_rewrite in_map_iff. setoid_rewrite in_seq. split.
  - intros (l & (j & <- & Hj) & Hin).
    destruct (Nat.ltb_spec t T), (Nat.ltb_spec (b * B + j) H); cbn [andb] in Hin; try done.
    destruct Hin as [[= <- <-]|[]]. exists j. split; [lia|done].
  - intros (j & Hj & Ht & Hd & -> & ->). eexists. split; [exists j; split; [reflexivity|lia]|].
    rewrite (proj2 (Nat.ltb_lt _ _) Ht), (proj2 (Nat.ltb_lt _ _) Hd). by left.
Qed.

(** The Triton reduction is the compiled one. *)
Lemma moe_sum_reduce_triton_eq sched (src dst : mem R) T K H f a : (forall n, sched n ≡ₚ seq 0 n) ->
  moe_sum_reduce_triton sched src dst T K H f a = moe_sum_reduce_torch_compile src dst T K H f a.
Proof.
  intros Hs. unfold moe_sum_reduce_triton, moe_sum_reduce_torch_compile. rewrite launch_concat.
  set (B := 2048%nat) in *. assert (HB : (0 < B)%nat) by (unfold B; lia). clearbody B.
  set (nd := cdiv H B). set (W := concat _).
  assert (Hw : forall v, (a, v) ∈ W -> (a < T * H)%nat /\
    v = vsum K (fun i => src ((a / H * K + i) * H + a mod H)%nat) * f).
  { intros v Hv. apply list_elem_of_In, in_concat in Hv as (l & ((t & b) & <- & _)%in_map_iff & Hv).
    apply list_elem_of_In, reduce_stores in Hv as (j & Hj & Ht & Hd & -> & ->).
    destruct (div_row H t (b * B + j) Hd) as [-> ->]. split; [nia|done]. }
  destruct (Nat.ltb_spec a (T * H)) as [Ha|Ha].
  - apply run_stores_same; [|by intros v' [_ ->]%Hw].
    assert (HH : (0 < H)%nat) by nia. pose proof (Nat.div_mod_eq a H) as Ea.
    pose proof (Nat.mod_upper_bound a H ltac:(lia)) as Hm. assert (Ht : (a / H < T)%nat) by (apply Nat.Div0.div_lt_upper_bound; lia).
    assert (Hb : (a mod H / B < nd)%nat).
    { apply Nat.Div0.div_lt_upper_bound. unfold nd. pose proof (cdiv_mul_ge H B HB). lia. }
    pose proof (Nat.div_mod_eq (a mod H) B) as Eb. pose proof (Nat.mod_upper_bound (a mod H) B ltac:(lia)) as Hj.
    apply list_elem_of_In, in_concat. eexists. split.
    + apply in_map, in_map_iff. exists (a / H * nd + a mod H / B)%nat. split; [reflexivity|].
      apply list_elem_of_In. rewrite Hs. apply elem_of_seq. nia.
    + destruct (div_row nd (a / H) (a mod H / B) Hb) as [-> ->]. apply list_elem_of_In, reduce_stores.
      exists (a mod H mod B)%nat. replace (a mod H / B * B + a mod H mod B)%nat with (a mod H)%nat by lia.
      split; [done|]. split; [done|]. split; [done|]. split; [lia|done].
  - apply run_stores_keep. intros v [? _]%Hw. lia.
Qed.

End Kernels.

(** ** One chunk *)

Section Chunk.
Context {R : Type} {HO : ScalarOps R} {sle : R -> R -> Prop} {HL : ScalarLaws R sle}.
Local Open Scope sc_scope.
Add Ring fe_ring2 : s_ring.

Variables (W : world R) (ws : weights R) (inplace filter_expert : bool) (factor : R) (topk : nat).
Variables (topk_weights : vec R) (topk_ids : nat -> Z).
#[local] Abbreviation I := (wN ws / 2)%nat.
#[local] Abbreviation H := (wH ws).

(** What the call relies on of the code around it: grids run completely, the
    configurations are usable, and the functions of the kernel package do what
    their documentation says. *)
Record world_ok : Prop := {
  wo_sched : forall n, sched W n ≡ₚ seq 0 n;
  wo_config : forall n, configs_ok (get_config W n);
  wo_align : forall c ids n E (g : kargs R), config_ok c -> num_valid_tokens g = n ->
    (forall t, (t < n)%nat -> (-1 <= ids t < Z.of_nat E)%Z) -> align_ok c (sgl_align W (BLOCK_SIZE_M c) ids n E) g ids;
  wo_silu : forall rows N src dst t i, (t < rows)%nat -> (i < N / 2)%nat ->
    sgl_silu_and_mul W rows N src dst (t * (N / 2) + i)%nat = silu (src (t * N + i)%nat) * src (t * N + N / 2 + i)%nat;
  wo_sum : forall src dst T K D f a,
    sgl_moe_sum_reduce W src dst T K D f a = moe_sum_reduce_torch_compile src dst T K D f a;
}.

Hypothesis wok : world_ok.

(** The experts of the tokens exist; without filtering none is [-1]. *)
Definition ids_ok (n : nat) (ids : nat -> Z) : Prop := forall t, (t < n)%nat ->
  (-1 <= ids t < Z.of_nat (wE ws))%Z /\ (filter_expert = false -> ids t <> (-1)%Z).

Section One.
Variables (configs : kconfig * option kconfig) (begin tokens : nat) (b : buffers R) (x : nat -> vec R).
Hypothesis csok : configs_ok configs.
#[local] Abbreviation config := (fst configs).
#[local] Abbreviation down := (down_or configs).
Hypothesis iok : ids_ok (tokens * topk) (chunk_ids topk topk_ids begin).
Hypothesis xok : forall r d, (r < tokens)%nat -> (d < H)%nat ->
  hidden_states inplace b ((begin + r) * H + d)%nat = x (begin + r)%nat d.
#[local] Abbreviation ids := (chunk_ids topk topk_ids begin).
#[local] Abbreviation al := (sgl_align W (BLOCK_SIZE_M config) ids (tokens * topk) (wE ws)).
#[local] Abbreviation g1 := (args1 ws inplace filter_expert topk topk_weights begin tokens b).
#[local] Abbreviation live p := (filter_expert && (ids p =? -1)%Z = false).

Lemma down_ok : config_ok down /\ BLOCK_SIZE_M down = BLOCK_SIZE_M config.
Proof using csok.
  unfold down_or. destruct (snd configs) as [c|] eqn:E; [by apply (cs_down _ csok)|]. split; [apply csok|done].
Qed.

(** The blocks fit both launches. *)
Lemma aligned (g : kargs R) : num_valid_tokens g = (tokens * topk)%nat -> align_ok config al g ids /\ align_ok down al g ids.
Proof using wok csok iok.
  intros Hg. assert (A : forall c, config_ok c -> BLOCK_SIZE_M c = BLOCK_SIZE_M config -> align_ok c al g ids).
  { intros c Hc Ec. rewrite <- Ec. apply (wo_align wok); [done|done|]. intros t Ht. by apply iok. }
  split; apply A; [apply csok|done|apply down_ok|apply down_ok].
Qed.

Definition cache1 : mem R := invoke_fused_moe_kernel config al g1 (sched W (grid config al g1)) (cache_buf b).

Definition cache2 : mem R :=
  if filter_expert then act_and_mul_triton (sched W) (tokens * topk) (wN ws) ids cache1 (empty_rows W begin)
  else sgl_silu_and_mul W (tokens * topk) (wN ws) cache1 (empty_rows W begin).

Lemma token_of p : (p < tokens * topk)%nat -> (p / topk < tokens)%nat.
Proof. intros Hp. apply Nat.Div0.div_lt_upper_bound. lia. Qed.

(** The first product. *)
Lemma cache1_entry p n : (p < tokens * topk)%nat -> (n < wN ws)%nat -> live p ->
  cache1 (p * wN ws + n)%nat =
  vsum H (fun k => x (begin + p / topk)%nat k * w1 ws (Z.to_nat (ids p)) n k).
Proof using All.
  intros Hp Hn Hl. pose proof (proj1 (aligned g1 eq_refl)) as A. pose proof (cs_first _ csok) as cok.
  destruct (invoke_spec config al g1 ids cok A (sched W (grid config al g1)) (cache_buf b) (wo_sched wok _) (le_n _)) as [Hw _].
  specialize (Hw p n Hp Hn). unfold cache1. cbn [stride_cm args1] in Hw. rewrite (Nat.mul_comm p), Hw.
  unfold kernel_entry. cbn [MK.filter_expert args1]. rewrite Hl. unfold lane_value. cbn [kbias MUL_ROUTED_WEIGHT args1].
  rewrite (accumulate_dot config g1 cok). cbn [kK kA kB ktop_k args1]. apply vsum_ext. intros k Hk.
  by rewrite xok by (done || by apply token_of).
Qed.

(** The activated rows. *)
Lemma cache2_entry p i : (p < tokens * topk)%nat -> (i < I)%nat -> live p ->
  cache2 (p * I + i)%nat =
  silu (vsum H (fun k => x (begin + p / topk)%nat k * w1 ws (Z.to_nat (ids p)) i k)) *
  vsum H (fun k => x (begin + p / topk)%nat k * w1 ws (Z.to_nat (ids p)) (I + i)%nat k).
Proof using All.
  intros Hp Hi Hl. assert (HN : (I + i < wN ws)%nat).
  { pose proof (Nat.Div0.mul_div_le (wN ws) 2). lia. }
  assert (E : cache2 (p * I + i)%nat = silu (cache1 (p * wN ws + i)%nat) * cache1 (p * wN ws + I + i)%nat).
  { unfold cache2. destruct filter_expert eqn:Ef.
    - apply act_and_mul_spec; [apply (wo_sched wok)|done|done|]. cbn [andb] in Hl. by apply Z.eqb_neq.
    - by apply (wo_silu wok). }
  rewrite E, <- Nat.add_assoc. rewrite !cache1_entry by (done || lia). done.
Qed.

#[local] Abbreviation g2 := (args2 ws filter_expert topk topk_weights begin tokens cache2).

Definition second : mem R -> mem R := invoke_fused_moe_kernel down al g2 (sched W (grid down al g2)).

(** Position [p] of the chunk is choice [p mod topk] of its token. *)
Definition slot_out (p d : nat) : R :=
  if filter_expert && (ids p =? -1)%Z then s0
  else expert_out ws (Z.to_nat (ids p)) (x (begin + p / topk)%nat) d * topk_weights (begin * topk + p)%nat.

(** The second product, into any buffer; only its rows are written. *)
Lemma second_entry m p d : (p < tokens * topk)%nat -> (d < H)%nat -> second m (p * H + d)%nat = slot_out p d.
Proof using All.
  intros Hp Hd. pose proof (proj2 (aligned g2 eq_refl)) as A. pose proof (proj1 down_ok) as cok.
  destruct (invoke_spec down al g2 ids cok A (sched W (grid down al g2)) m (wo_sched wok _) (le_n _)) as [Hw _].
  specialize (Hw p d Hp Hd). unfold second. cbn [stride_cm args2] in Hw. rewrite (Nat.mul_comm p), Hw.
  unfold kernel_entry, slot_out. cbn [MK.filter_expert args2].
  destruct (filter_expert && (ids p =? -1)%Z) eqn:Hl; [done|]. unfold lane_value. cbn [kbias MUL_ROUTED_WEIGHT ktopk_weights args2].
  rewrite (accumulate_dot down g2 cok). cbn [kK kA kB ktop_k args2]. f_equal. unfold expert_out.
  apply vsum_ext. intros i Hi. rewrite Nat.div_1_r. by rewrite cache2_entry.
Qed.

Lemma second_keep m a : (tokens * topk * H <= a)%nat -> second m a = m a.
Proof using wok csok iok.
  intros Ha. pose proof (proj2 (aligned g2 eq_refl)) as A. pose proof (proj1 down_ok) as cok.
  destruct (invoke_spec down al g2 ids cok A (sched W (grid down al g2)) m (wo_sched wok _) (le_n _)) as [_ Hk].
  apply Hk. cbn [num_valid_tokens kN stride_cm args2]. intros t n Ht Hn E. nia.
Qed.

Lemma slot_choice r k d : (r < tokens)%nat -> (k < topk)%nat ->
  slot_out (r * topk + k)%nat d = choice_out ws filter_expert topk topk_weights topk_ids x (begin + r)%nat k d.
Proof using.
  intros Hr Hk. unfold slot_out, choice_out, chunk_ids. destruct (div_row topk r k Hk) as [-> _].
  replace (begin * topk + (r * topk + k))%nat with ((begin + r) * topk + k)%nat by lia. done.
Qed.

End One.

(** [factor == 1.0] is exact. *)
Hypothesis zero_ok : forall a : R, s_is_zero a = true -> a = s0.

Lemma factor_one : s_is_zero (factor - s1) = true -> factor = s1.
Proof using zero_ok HL. intros E%zero_ok. replace factor with (factor - s1 + s1) by ring. rewrite E. ring. Qed.

(** The reduction sums the choices of a token, unless they were written to the
    output directly. *)
Lemma combine_sum tokens (cache out : mem R) r d : (r < tokens)%nat -> (d < H)%nat ->
  (topk <> 1%nat \/ plat W = Hip \/ s_is_zero (factor - s1) = false) ->
  combine_chunk W ws factor topk tokens cache out (r * H + d)%nat =
  vsum topk (fun k => cache ((r * topk + k) * H + d)%nat) * factor.
Proof using zero_ok HL wok.
  intros Hr Hd Hk. destruct (div_row H r d Hd) as [Ed Em].
  assert (Hlt : (r * H + d < tokens * H)%nat) by nia.
  assert (Ec : moe_sum_reduce_torch_compile cache out tokens topk H factor (r * H + d)%nat =
    vsum topk (fun k => cache ((r * topk + k) * H + d)%nat) * factor).
  { unfold moe_sum_reduce_torch_compile. by rewrite (proj2 (Nat.ltb_lt _ _) Hlt), Ed, Em. }
  unfold combine_chunk. destruct (plat W) eqn:Ep.
  - destruct ((topk =? 1)%nat && s_is_zero (factor - s1)) eqn:E1.
    { apply andb_true_iff in E1 as [->%Nat.eqb_eq E1]. destruct Hk as [?|[?|?]]; congruence. }
    destruct ((topk =? 2)%nat && s_is_zero (factor - s1)) eqn:E2.
    { apply andb_true_iff in E2 as [->%Nat.eqb_eq E2%factor_one]. rewrite (proj2 (Nat.ltb_lt _ _) Hlt), Ed, Em, E2.
      cbn [vsum]. ring. }
    destruct (tokens <=? 32)%nat; [exact Ec|]. by rewrite (wo_sum wok).
  - destruct (tokens <=? 32)%nat; [exact Ec|]. rewrite moe_sum_reduce_triton_eq; [exact Ec|apply wok].
Qed.

Lemma combine_direct tokens (cache out : mem R) a : topk = 1%nat -> plat W = Cuda -> s_is_zero (factor - s1) = true ->
  combine_chunk W ws factor topk tokens cache out a = out a.
Proof using. intros Ek Ep Ez. unfold combine_chunk. by rewrite Ep, Ek, Ez. Qed.

Lemma combine_keep tokens (cache out : mem R) a : (tokens * H <= a)%nat ->
  combine_chunk W ws factor topk tokens cache out a = out a.
Proof using wok.
  intros Ha. assert (Hge : (a <? tokens * H)%nat = false) by (by apply Nat.ltb_ge).
  assert (Ec : moe_sum_reduce_torch_compile cache out tokens topk H factor a = out a)
    by (unfold moe_sum_reduce_torch_compile; by rewrite Hge).
  unfold combine_chunk. destruct (plat W).
  - destruct ((topk =? 1)%nat && _); [done|]. destruct ((topk =? 2)%nat && _); [by rewrite Hge|].
    destruct (tokens <=? 32)%nat; [exact Ec|]. by rewrite (wo_sum wok).
  - destruct (tokens <=? 32)%nat; [exact Ec|]. rewrite moe_sum_reduce_triton_eq; [exact Ec|apply wok].
Qed.

Lemma on_slice_in base (f : mem R -> mem R) m a : on_slice base f m (base + a)%nat = f (fun x => m (base + x)%nat) a.
Proof using. unfold on_slice. rewrite (proj2 (Nat.ltb_ge _ _)) by lia. f_equal. lia. Qed.

Lemma on_slice_out base (f : mem R -> mem R) m a n : (forall m b, (n <= b)%nat -> f m b = m b) ->
  (a < base \/ base + n <= a)%nat -> on_slice base f m a = m a.
Proof using.
  intros Hf Ha. unfold on_slice. destruct (Nat.ltb_spec a base); [done|]. rewrite Hf by lia. f_equal. lia.
Qed.

(** When the sum is written where it is read: not for a single choice per token
    with a factor, which is summed from a buffer that was not written. *)
Definition summed : Prop := topk <> 1%nat \/ plat W = Cuda /\ s_is_zero (factor - s1) = true.

#[local] Abbreviation run := (run_chunk W ws inplace filter_expert factor topk topk_weights topk_ids).
#[local] Abbreviation ref := (routed_sum ws filter_expert factor topk topk_weights topk_ids).

Lemma run_chunk_rows config begin tokens (b : buffers R) (x : nat -> vec R) : configs_ok config -> summed ->
  ids_ok (tokens * topk) (chunk_ids topk topk_ids begin) ->
  (forall r d, (r < tokens)%nat -> (d < H)%nat -> hidden_states inplace b ((begin + r) * H + d)%nat = x (begin + r)%nat d) ->
  forall r d, (r < tokens)%nat -> (d < H)%nat ->
  out_buf (run config begin tokens b) ((begin + r) * H + d)%nat = ref x (begin + r)%nat d.
Proof using All.
  intros cok Hs iok xok r d Hr Hd. cbn [run_chunk out_buf].
  fold (cache1 config begin tokens b).
  fold (cache2 config begin tokens b).
  fold (second config begin tokens b).
  replace ((begin + r) * H + d)%nat with (begin * H + (r * H + d))%nat by lia. rewrite on_slice_in.
  pose proof (second_entry config begin tokens b x cok iok xok) as He.
  unfold routed_sum. destruct (Nat.eqb_spec topk 1) as [Ek|Ek].
  - destruct Hs as [|[Ep Ez]]; [done|]. rewrite combine_direct by done. rewrite on_slice_in, He by (done || nia).
    set (f := fun k => choice_out _ _ _ _ _ x (begin + r)%nat k d).
    assert (vsum topk f = s0 + f 0%nat) as -> by (by rewrite Ek). unfold f.
    rewrite <- (slot_choice begin tokens x r 0) by (done || lia).
    replace (r * topk + 0)%nat with r by (rewrite Ek; lia). rewrite (factor_one Ez). ring.
  - rewrite combine_sum by (done || by left). f_equal. apply vsum_ext. intros k Hk.
    rewrite He by (done || nia). by rewrite (slot_choice begin tokens x).
Qed.

Lemma run_chunk_keep config begin tokens (b : buffers R) a : configs_ok config ->
  ids_ok (tokens * topk) (chunk_ids topk topk_ids begin) ->
  (a < begin * H \/ (begin + tokens) * H <= a)%nat ->
  out_buf (run config begin tokens b) a = out_buf b a /\ hidden_buf (run config begin tokens b) = hidden_buf b.
Proof using wok.
  intros cok iok Ha. cbn [run_chunk out_buf hidden_buf]. split; [|done].
  rewrite (on_slice_out _ _ _ _ (tokens * H)); [|intros; by apply combine_keep|lia].
  destruct (Nat.eqb_spec topk 1) as [Ek|]; [|done].
  fold (cache1 config begin tokens b).
  fold (cache2 config begin tokens b).
  fold (second config begin tokens b).
  apply (on_slice_out _ _ _ _ (tokens * H)); [|lia]. intros m c Hc.
  apply (second_keep config begin tokens b); [done|done|].
  rewrite Ek, Nat.mul_1_r. done.
Qed.

(** A single choice with a factor: the output is read from the buffer of the first
    product. *)
Lemma run_chunk_stale config begin tokens (b : buffers R) : topk = 1%nat ->
  (plat W = Hip \/ s_is_zero (factor - s1) = false) ->
  forall r d, (r < tokens)%nat -> (d < H)%nat ->
  out_buf (run config begin tokens b) ((begin + r) * H + d)%nat =
  (s0 + cache1 config begin tokens b (r * H + d)%nat) * factor.
Proof using All.
  intros Ek Hp r d Hr Hd. cbn [run_chunk out_buf].
  fold (cache1 config begin tokens b).
  replace ((begin + r) * H + d)%nat with (begin * H + (r * H + d))%nat by lia. rewrite on_slice_in.
  rewrite combine_sum by (done || by right). rewrite (proj2 (Nat.eqb_eq _ _) Ek). set (m := cache1 config begin tokens b).
  assert (Ev : vsum topk (fun k => m ((r * topk + k) * H + d)%nat) = s0 + m (r * H + d)%nat); [|by rewrite Ev].
  rewrite Ek. cbn [vsum]. do 2 f_equal. lia.
Qed.

#[local] Abbreviation loop := (chunk_loop W ws inplace filter_expert factor topk topk_weights topk_ids).

Lemma chunk_ids_ok n begin tokens : ids_ok (n * topk) topk_ids -> (begin + tokens <= n)%nat ->
  ids_ok (tokens * topk) (chunk_ids topk topk_ids begin).
Proof using. intros Hi Hb t Ht. apply Hi. nia. Qed.

(** The loop over the chunks: rows behind the chunk are still the input, rows in
    front of it are done. *)
Lemma chunk_loop_rows CH n (x : nat -> vec R) : (0 < CH)%nat -> summed -> ids_ok (n * topk) topk_ids ->
  forall fuel chunk config (b : buffers R), configs_ok config -> (n <= (chunk + fuel) * CH)%nat ->
  (forall r d, (chunk * CH <= r < n)%nat -> (d < H)%nat -> hidden_states inplace b (r * H + d)%nat = x r d) ->
  (forall r d, (r < chunk * CH)%nat -> (r < n)%nat -> (d < H)%nat -> out_buf b (r * H + d)%nat = ref x r d) ->
  (forall r d, (r < n)%nat -> (d < H)%nat -> out_buf (loop fuel CH n chunk config b) (r * H + d)%nat = ref x r d) /\
  hidden_buf (loop fuel CH n chunk config b) = hidden_buf b.
Proof using All.
  intros HCH Hs Hi fuel. induction fuel as [|fuel IH]; intros chunk config b Hc Hn Hx Hd.
  { split; [|done]. intros r d Hr Hd'. apply Hd; [|done|done]. rewrite Nat.add_0_r in Hn. lia. }
  cbn [chunk_loop]. set (tokens := (Nat.min ((chunk + 1) * CH) n - chunk * CH)%nat).
  destruct (Nat.eqb_spec tokens 0) as [E0|E0].
  { split; [|done]. intros r d Hr Hd'. apply Hd; [unfold tokens in E0; nia|done|done]. }
  set (config' := if _ && _ then _ else config).
  assert (Hc' : configs_ok config') by (unfold config'; destruct (_ && _); [apply wok|done]).
  assert (Ht : (chunk * CH + tokens = Nat.min ((chunk + 1) * CH) n)%nat) by (unfold tokens in *; lia).
  assert (Hi' : ids_ok (tokens * topk) (chunk_ids topk topk_ids (chunk * CH))) by (apply (chunk_ids_ok n); [done|lia]).
  set (b' := run_chunk _ _ _ _ _ _ _ _ config' _ _ b).
  assert (Hkeep : forall a, (a < chunk * CH * H \/ (chunk * CH + tokens) * H <= a)%nat -> out_buf b' a = out_buf b a).
  { intros a Ha. by apply run_chunk_keep. }
  assert (Hh : hidden_buf b' = hidden_buf b) by (by apply (run_chunk_keep config' (chunk * CH) tokens b ((chunk * CH + tokens) * H)); [| |right]).
  rewrite <- Hh. apply IH; [done|nia| |].
  - intros r d Hr Hd'. unfold hidden_states in *. rewrite Hh.
    specialize (Hx r d ltac:(nia) Hd'). destruct inplace; [|done]. rewrite Hkeep; [done|]. right. nia.
  - intros r d Hr Hrn Hd'. destruct (decide (r < chunk * CH)) as [Hlt|Hge].
    + rewrite Hkeep by (left; nia). by apply Hd.
    + replace r with (chunk * CH + (r - chunk * CH))%nat by lia.
      apply run_chunk_rows; try done; [|nia]. intros r' d' Hr' Hd''. apply Hx; [nia|done].
Qed.

#[local] Abbreviation impl := (fused_experts_impl W ws inplace filter_expert factor topk topk_weights topk_ids).

(** [fused_experts_impl] writes for every token the weighted sum of its experts,
    times the factor; without [inplace] the hidden states are left alone. *)
Lemma fused_experts_rows n (hidden out0 cache0 : mem R) : summed -> ids_ok (n * topk) topk_ids ->
  (forall r d, (r < n)%nat -> (d < H)%nat ->
     fst (impl n hidden out0 cache0) (r * H + d)%nat = ref (fun r d => hidden (r * H + d)%nat) r d) /\
  (inplace = false -> snd (impl n hidden out0 cache0) = hidden).
Proof using All.
  intros Hs Hi. unfold fused_experts_impl. cbn [fst snd]. set (CH := CHUNK_SIZE).
  assert (HCH : (0 < CH)%nat) by (unfold CH, CHUNK_SIZE; lia). clearbody CH.
  destruct (chunk_loop_rows CH n (fun r d => hidden (r * H + d)%nat) HCH Hs Hi (n / CH + 1) 0
    (get_config W (Nat.min n CH)) (mkBuf hidden (if inplace then hidden else out0) cache0)) as [Hr Hh].
  - apply wok.
  - pose proof (Nat.div_mod_eq n CH). pose proof (Nat.mod_upper_bound n CH). nia.
  - intros r d _ _. unfold hidden_states. by destruct inplace.
  - intros r d Hr. lia.
  - split; [done|]. intros Ei. unfold hidden_states. rewrite Ei in *. by rewrite Hh.
Qed.

End Chunk.

End FE.
