(* ===== verification/ServedMoe.v ===== *)
(** The experts layer of the served model: routing
    ([srt/layers/moe/topk.py]), the expert-parallel dispatch
    ([srt/layers/moe/token_dispatcher/standard.py]) and the sparse block of
    [srt/models/llada2.py], on top of the kernels of [FusedExperts].

    Routing works row by row, so it is modelled on the row of one token.  The
    kernels of other packages that compute the same routing are parameters.
    Shared experts fused into the routed ones are left out: the model passes none. *)
From stdpp Require Import base list strings.
From Stdlib Require Import ZArith QArith Reals Lra Lia Ring.
From S2P Require Import Prelude Denoise Sampling Tensor RealOps Moe MoeKernel MoeConfig FusedExperts.
Local Open Scope nat_scope.

Module SM.
Import MK MC FE.

Section Routing.
Context {R : Type} `{ScalarOps R} `{TopkOps R}.
Local Open Scope sc_scope.

(** [TopKConfig]. *)
Record TopKConfig : Type := mkTopK {
  top_k : nat;
  use_grouped_topk : bool;
  topk_group : option nat;
  num_expert_group : option nat;
  renormalize : bool;
  correction_bias : option (list R);
  torch_native : bool;
  routed_scaling_factor : option R;
  apply_routed_scaling_factor_on_output : bool;
  scoring_func : string;
}.

(** Weights and experts of one token. *)
Definition routed : Type := (list R * list nat)%type.

(** [torch.topk(sorted=False)]: the order of the result is open. *)
Variable topk_unsorted : nat -> list (option R) -> list nat.

Definition topk_u (k : nat) (l : list (option R)) : res (list nat) :=
  if length l <? k then Raise RuntimeError else Ok (topk_unsorted k l).

(** The end of the routing functions. *)
Definition renorm (renormalize apply_on_output : bool) (factor : option R) (w : list R) : res (list R) :=
  if renormalize then
    let w := map (fun s => s / Moe.lsum w) w in
    if apply_on_output then
      match factor with Some f => Ok (map (fun s => s * f) w) | None => Raise TypeError end
    else Ok w
  else Ok w.

(** The groups of a row of experts, as in the gate of the PyTorch model. *)
Definition groups_of (num_experts n_group topk_group top_k : nat) : Moe.gate R :=
  Moe.mkGate top_k num_experts n_group topk_group 0 (fun _ _ => s0) s1 (fun _ => s0).

(** [biased_grouped_topk_impl]. *)
Definition biased_grouped_topk_impl (logits bias : list R) (topk : nat) (renormalize : bool)
    (num_expert_group topk_group : nat) (factor : option R) (apply_on_output : bool) : res routed :=
  let scores := map sigmoid logits in
  let G := groups_of (length scores) num_expert_group topk_group topk in
  let scores_for_choice := zip_with sadd scores bias in
  (let! groups := Moe.view_groups G scores_for_choice in
   let! group_scores := Sampler.rmap Moe.group_score groups in
   let! group_idx := topk_u topk_group (map Some group_scores) in
   let group_mask := index_mask num_expert_group group_idx in
   let tmp_scores := Moe.mask_scores G group_mask scores_for_choice in
   let! topk_ids := topk_u topk tmp_scores in
   let! topk_weights := renorm renormalize apply_on_output factor (map (Moe.nth_s scores) topk_ids) in
   Ok (topk_weights, topk_ids))%py.

(** [kimi_k2_biased_topk_impl]: the version for one group. *)
Definition kimi_k2_biased_topk_impl (logits bias : list R) (topk : nat) (renormalize : bool)
    (factor : option R) (apply_on_output : bool) : res routed :=
  let scores := map sigmoid logits in
  let tmp_scores := zip_with sadd scores bias in
  (let! topk_ids := topk_u topk (map Some tmp_scores) in
   let! topk_weights := renorm renormalize apply_on_output factor (map (Moe.nth_s scores) topk_ids) in
   Ok (topk_weights, topk_ids))%py.

(** [softmax(logits)] of a row. *)
Definition softmax_row (logits : list R) : list R :=
  map (softmax (length logits) (fun i => nth i logits s0)) (seq 0 (length logits)).

(** [grouped_topk_gpu]: softmax scores, groups by their best expert, and experts of
    other groups masked with zero. *)
Definition grouped_topk_gpu (logits : list R) (topk : nat) (renormalize : bool)
    (num_expert_group topk_group : nat) (factor : option R) (apply_on_output : bool) : res routed :=
  let scores := softmax_row logits in
  let G := groups_of (length scores) num_expert_group topk_group topk in
  (let! groups := Moe.view_groups G scores in
   let group_scores := map (fun row => vmax (length row) (fun i => nth i row s0)) groups in
   let! group_idx := topk_u topk_group (map Some group_scores) in
   let group_mask := index_mask num_expert_group group_idx in
   let tmp_scores := map (default s0) (Moe.mask_scores G group_mask scores) in
   let! topk_ids := topk_u topk (map Some tmp_scores) in
   let! topk_weights := renorm renormalize apply_on_output factor (map (Moe.nth_s tmp_scores) topk_ids) in
   Ok (topk_weights, topk_ids))%py.

(** [fused_topk_torch_native]. *)
Definition fused_topk_torch_native (logits : list R) (topk : nat) (renormalize : bool)
    (bias : option (list R)) (scoring_func : string) : res routed :=
  (let! scores := (if String.eqb scoring_func "softmax" then Ok (softmax_row logits)
                   else if String.eqb scoring_func "sigmoid" then Ok (map sigmoid logits)
                   else Raise ValueError) in
   let! topk_ids := match bias with
                    | Some b => topk_u topk (map Some (zip_with sadd scores b))
                    | None => Moe.topk topk (map Some scores)
                    end in
   let! topk_weights := renorm renormalize false None (map (Moe.nth_s scores) topk_ids) in
   Ok (topk_weights, topk_ids))%py.

(** ** Dispatch over the available kernels *)

(** What the machine offers; [fused_topk_deepseek] is absent on older devices.  The
    kernels are CUDA device code of compiled packages (flashinfer, aiter, and
    [sgl_kernel], built from [sgl-kernel/csrc/moe]), imported by [topk.py] where the
    machine has them; they enter with what they document ([gate_kernel_laws]). *)
Record gate_kernels : Type := mkGateKernels {
  is_cuda : bool;
  use_aiter : bool;
  fused_topk_deepseek : option (list R -> list R -> nat -> nat -> nat -> R -> routed);
  moe_fused_gate : list R -> list R -> nat -> nat -> nat -> R -> bool -> routed;
  aiter_biased_grouped_topk : list R -> list R -> nat -> nat -> nat -> bool -> R -> routed;
  kimi_k2_moe_fused_gate : list R -> list R -> nat -> bool -> option R -> bool -> routed;
  fused_topk_kernel : list R -> nat -> bool -> option (list R) -> string -> routed;
}.

Variable GK : gate_kernels.

Definition is_power_of_two (n : nat) : bool := (0 <? n) && (2 ^ Nat.log2 n =? n).

Definition biased_grouped_topk_gpu (logits bias : list R) (topk : nat) (renormalize : bool)
    (num_expert_group topk_group : nat) (factor : option R) (apply_on_output : bool) : res routed :=
  let num_experts := length logits in
  let experts_per_group := if (num_expert_group =? 0)%nat then num_experts else (num_experts / num_expert_group)%nat in
  let deepseek_fits :=
    is_power_of_two num_experts && (topk <=? 8)%nat && (topk_group <=? num_expert_group)%nat &&
    (topk <=? topk_group * num_expert_group)%nat &&
    (if (1 <? num_expert_group)%nat then (experts_per_group <=? 32)%nat && (experts_per_group * topk_group <=? 128)%nat
     else (num_experts <=? 384)%nat) in
  let other_kernels :=
    if is_cuda GK && (experts_per_group <=? 32)%nat && is_power_of_two num_experts then
      Ok (moe_fused_gate GK logits bias num_expert_group topk_group topk (default s1 factor) apply_on_output)
    else if use_aiter GK then
      passert (negb apply_on_output)
        (Ok (aiter_biased_grouped_topk GK logits bias num_expert_group topk_group topk renormalize (default s1 factor)))
    else if is_cuda GK && (num_experts =? 384)%nat && (num_expert_group =? 1)%nat then
      Ok (kimi_k2_moe_fused_gate GK logits bias topk renormalize factor apply_on_output)
    else biased_grouped_topk_impl logits bias topk renormalize num_expert_group topk_group factor apply_on_output in
  match fused_topk_deepseek GK with
  | Some f =>
    if is_cuda GK && deepseek_fits then
      let scaling_factor := match factor with
                            | Some s => if apply_on_output then s else s1
                            | None => s1
                            end in
      Ok (f logits bias num_expert_group topk_group topk scaling_factor)
    else other_kernels
  | None => other_kernels
  end.

(** [select_experts] on the row of one token, without custom routing, padding and
    relocated experts. *)
Definition select_experts (cfg : TopKConfig) (logits : list R) : res routed :=
  if use_grouped_topk cfg then
    match topk_group cfg, num_expert_group cfg with
    | Some tg, Some ng =>
      match correction_bias cfg with
      | None => grouped_topk_gpu logits (top_k cfg) (renormalize cfg) ng tg (routed_scaling_factor cfg)
                  (apply_routed_scaling_factor_on_output cfg)
      | Some b => biased_grouped_topk_gpu logits b (top_k cfg) (renormalize cfg) ng tg (routed_scaling_factor cfg)
                    (apply_routed_scaling_factor_on_output cfg)
      end
    | _, _ => Raise AssertionError
    end
  else passert (negb (apply_routed_scaling_factor_on_output cfg))
    (if torch_native cfg
     then fused_topk_torch_native logits (top_k cfg) (renormalize cfg) (correction_bias cfg) (scoring_func cfg)
     else if String.eqb (scoring_func cfg) "softmax" || String.eqb (scoring_func cfg) "sigmoid"
     then Ok (fused_topk_kernel GK logits (top_k cfg) (renormalize cfg) (correction_bias cfg) (scoring_func cfg))
     else Raise ValueError).

End Routing.
Arguments TopKConfig : clear implicits.
Arguments gate_kernels : clear implicits.
Arguments routed : clear implicits.

(** ** [LLaDA2MoeSparseMoeBlock] *)

Section Block.
Context {R : Type} `{ScalarOps R} `{TopkOps R}.
Local Open Scope sc_scope.

(** The fields of the model configuration that the block reads. *)
Record moe_config : Type := mkMoeConfig {
  num_experts_per_tok : nat;
  norm_topk_prob : bool;
  cfg_hidden_act : string;
  cfg_n_group : nat;
  cfg_topk_group : nat;
  cfg_num_experts : nat;
  cfg_routed_scaling_factor : R;
  cfg_score_function : option string;
  cfg_num_shared_experts : option nat;
}.

(** The constructor, up to the creation of the experts: the routing of the block,
    given the bias of the gate. *)
Definition make_topk (c : moe_config) (expert_bias : option (list R)) : res (TopKConfig R) :=
  if negb (String.eqb (cfg_hidden_act c) "silu") then Raise ValueError
  else
    let grouped := (0 <? cfg_n_group c)%nat || (0 <? cfg_topk_group c)%nat in
    passert (negb grouped || ((0 <? cfg_n_group c)%nat && (0 <? cfg_topk_group c)%nat &&
             (cfg_topk_group c <=? cfg_n_group c)%nat))
    (passert (match cfg_score_function c, expert_bias with
              | None, _ => true
              | Some f, None => String.eqb f "softmax"
              | Some f, Some _ => String.eqb f "sigmoid"
              end)
    (Ok (mkTopK (num_experts_per_tok c) grouped
           (if grouped then Some (cfg_topk_group c) else None)
           (if grouped then Some (cfg_n_group c) else None)
           (norm_topk_prob c) expert_bias false (Some (cfg_routed_scaling_factor c)) false "softmax"))).

(** [LLaDA2MoeMLP]: the gate and up projections are the rows of one matrix. *)
Record served_mlp : Type := mkSMlp { sm_I : nat; sm_gate_up : mat R; sm_down : mat R }.

Definition silu_and_mul (I : nat) (gu : vec R) : vec R := fun i => silu (gu i) * gu (I + i)%nat.

Definition smlp_forward (h : nat) (M : served_mlp) (x : vec R) : vec R :=
  Moe.linear (sm_I M) (sm_down M) (silu_and_mul (sm_I M) (Moe.linear h (sm_gate_up M) x)).

Record moe_block : Type := mkBlock {
  blk_topk : TopKConfig R;
  gate_weight : mat R;
  blk_weights : weights R;
  num_shared_experts : option nat;
  shared_experts : served_mlp;
  blk_factor : R;
}.

Variables (topk_unsorted : nat -> list (option R) -> list nat) (GK : gate_kernels R) (W : world R) (B : moe_block).
#[local] Abbreviation hid := (wH (blk_weights B)).
#[local] Abbreviation K := (top_k (blk_topk B)).

(** Row [r] of the hidden states. *)
Definition row_of (m : mem R) (r : nat) : vec R := fun d => m (r * hid + d)%nat.

(** [self.gate] and [self.topk] on every row. *)
Definition router_logits (x : vec R) : list R :=
  map (Moe.linear hid (gate_weight B) x) (seq 0 (wE (blk_weights B))).

Definition route (n : nat) (hidden : mem R) : res (list (routed R)) :=
  Sampler.rmap (fun r => select_experts topk_unsorted GK (blk_topk B) (router_logits (row_of hidden r))) (seq 0 n).

(** The flattened result. *)
Definition flat_weights (rs : list (routed R)) : vec R := fun p =>
  nth (p mod K) (fst (nth (p / K) rs ([], []))) s0.
Definition flat_ids (rs : list (routed R)) : nat -> Z := fun p =>
  Z.of_nat (nth (p mod K) (snd (nth (p / K) rs ([], []))) 0%nat).

(** [self.experts]: in place on the hidden states. *)
Definition run_experts (n : nat) (rs : list (routed R)) (hidden cache0 : mem R) : mem R :=
  fst (fused_experts_impl W (blk_weights B) true false (blk_factor B) K (flat_weights rs) (flat_ids rs) n
         hidden hidden cache0).

(** [self.num_shared_experts > 0]; [None] cannot be compared. *)
Definition has_shared : res bool :=
  match num_shared_experts B with Some k => Ok (0 <? k)%nat | None => Raise TypeError end.

(** [forward_normal] on one rank: the shared experts read the hidden states before
    the routed ones overwrite them.  Returns the output and the hidden states. *)
Definition forward_normal (n : nat) (hidden cache0 : mem R) : res (mem R * mem R) :=
  (let! shared := has_shared in
   let shared_output := fun r => smlp_forward hid (shared_experts B) (row_of hidden r) in
   let! rs := route n hidden in
   let hidden := run_experts n rs hidden cache0 in
   Ok ((if shared then fun a => hidden a + shared_output (a / hid)%nat (a mod hid)%nat else hidden), hidden))%py.

(** [forward_normal_dual_stream]: the copy for the shared experts is made on the
    current stream, the routed experts run on the other one, and only the start of
    that stream waits; [copy_first] says which of the two ran first. *)
Definition forward_dual_stream (copy_first : bool) (n : nat) (hidden cache0 : mem R) : res (mem R * mem R) :=
  (let! shared := has_shared in
   let! rs := route n hidden in
   let out := run_experts n rs hidden cache0 in
   let copy := if copy_first then hidden else out in
   let shared_output := fun r => smlp_forward hid (shared_experts B) (row_of copy r) in
   Ok ((if shared then fun a => out a + shared_output (a / hid)%nat (a mod hid)%nat else out), out))%py.

End Block.
Arguments moe_config : clear implicits.
Arguments served_mlp : clear implicits.
Arguments moe_block : clear implicits.

(** ** Expert parallelism *)

(** [local_expert_mapping] of a rank: its experts, counted from zero. *)
Definition local_expert_mapping (num_local rank : nat) (e : Z) : Z :=
  if (Z.of_nat (rank * num_local) <=? e)%Z && (e <? Z.of_nat ((rank + 1) * num_local))%Z
  then (e - Z.of_nat (rank * num_local))%Z else (-1)%Z.

End SM.
