(* ===== verification/ServedMoeProps.v ===== *)
(** The experts layer of the server against the mixture of experts of the PyTorch
    model: routing, dispatch over ranks, and the whole sparse block. *)
From stdpp Require Import base list strings.
From Stdlib Require Import ZArith QArith Qreals Reals Lra Lia Ring.
From S2P Require Import Prelude Denoise Sampling Tensor RealOps Moe MoeKernel MoeConfig FusedExperts ServedMoe.
Local Open Scope nat_scope.

Module SMP.
Import MK MC FE SM.

(** [torch.topk(sorted=False)] returns the same entries in some order. *)
Class UnsortedLaws {R : Type} `{TopkOps R} (topk_unsorted : nat -> list (option R) -> list nat) : Prop :=
  unsorted_perm : forall k l, topk_unsorted k l ≡ₚ t_topk k l.

Lemma index_mask_perm n l l' : l ≡ₚ l' -> index_mask n l = index_mask n l'.
Proof.
  intros Hp. apply list_eq. intros i. destruct (index_mask n l !! i) as [b|] eqn:E.
  - assert (Hi : i < n) by (rewrite <- (index_mask_length n l); by eapply lookup_lt_Some).
    destruct (lookup_lt_is_Some_2 (index_mask n l') i) as [b' E']; [by rewrite index_mask_length|]. rewrite E'. f_equal.
    destruct b, b'; [done| | |done].
    + apply index_mask_true in E as [Hin _]. rewrite Hp in Hin.
      assert (E2 : index_mask n l' !! i = Some true) by (by apply index_mask_true). congruence.
    + apply index_mask_true in E' as [Hin _]. rewrite <- Hp in Hin.
      assert (E2 : index_mask n l !! i = Some true) by (by apply index_mask_true). congruence.
  - symmetry. apply lookup_ge_None. apply lookup_ge_None in E. by rewrite index_mask_length in *.
Qed.

Section Routing.
Context {R : Type} `{ScalarOps R} `{DenoiseOps R} `{TopkOps R} `{!TopkLaws R}.
Context (topk_unsorted : nat -> list (option R) -> list nat) `{!UnsortedLaws topk_unsorted}.
#[local] Abbreviation impl := (biased_grouped_topk_impl topk_unsorted).

Lemma topk_u_Ok k l : k <= length l -> topk_u topk_unsorted k l = Ok (topk_unsorted k l).
Proof. intros Hk. unfold topk_u. by rewrite (proj2 (Nat.ltb_ge _ _)). Qed.

(** The routing of the server chooses the experts of the PyTorch gate, for every
    order in which [topk] returns them. *)
Lemma impl_like_groups (G : Moe.gate R) (l b : list R) renormalize factor ap :
  Moe.gate_ok G -> Moe.num_experts G = length l -> length b = length l ->
  let scores := map sigmoid l in
  exists probs idx ids, Moe.group_limited_topk G (zip_with sadd scores b) = Ok (probs, idx) /\ idx ≡ₚ ids /\
    impl l b (Moe.top_k G) renormalize (Moe.n_group G) (Moe.topk_group G) factor ap =
    (let! w := renorm renormalize ap factor (map (Moe.nth_s scores) ids) in Ok (w, ids))%py.
Proof.
  intros Hok HE Hb scores. set (sc := zip_with sadd scores b).
  assert (Hs : length scores = Moe.num_experts G) by (unfold scores; by rewrite length_map).
  assert (Hl : length sc = Moe.num_experts G) by (unfold sc; rewrite length_zip_with; lia).
  unfold Moe.group_limited_topk. rewrite (Moe.view_groups_Ok G Hok) by done. cbn [rbind].
  rewrite (Moe.group_scores_Ok G Hok) by done. cbn [rbind].
  assert (Hgl : length (map Some (Moe.group_scores G sc)) = Moe.n_group G)
    by (unfold Moe.group_scores, reshape_rows; by rewrite !length_map, length_seq).
  rewrite Moe.topk_Ok by (rewrite Hgl; apply Hok). cbn [rbind].
  set (c := Moe.mask_scores G (index_mask (Moe.n_group G) (Moe.chosen_groups G sc)) sc).
  destruct (Moe.mask_scores_spec G Hok sc Hl) as (Hcl & _ & _). fold c in Hcl.
  assert (Hk : Moe.top_k G <= length c).
  { rewrite Hcl, (Moe.experts_split G Hok). etransitivity; [apply Hok|]. apply Nat.mul_le_mono_r, Hok. }
  change (t_topk (Moe.topk_group G) (map Some (Moe.group_scores G sc))) with (Moe.chosen_groups G sc). fold c.
  rewrite Moe.topk_Ok by done. cbn [rbind].
  eexists _, (t_topk (Moe.top_k G) c), (topk_unsorted (Moe.top_k G) c). split; [reflexivity|].
  split; [symmetry; apply unsorted_perm|].
  unfold biased_grouped_topk_impl. fold scores. fold sc. rewrite Hs.
  change (Moe.view_groups (groups_of (Moe.num_experts G) (Moe.n_group G) (Moe.topk_group G) (Moe.top_k G)) sc) with (Moe.view_groups G sc).
  rewrite (Moe.view_groups_Ok G Hok) by done. cbn [rbind]. rewrite (Moe.group_scores_Ok G Hok) by done. cbn [rbind].
  rewrite topk_u_Ok by (rewrite Hgl; apply Hok). cbn [rbind].
  rewrite (index_mask_perm _ _ (Moe.chosen_groups G sc)) by apply unsorted_perm.
  change (Moe.mask_scores (groups_of _ _ _ _) ?m sc) with (Moe.mask_scores G m sc). fold c.
  by rewrite topk_u_Ok by done.
Qed.

(** With one group the shorter version does the same. *)
Lemma kimi_is_single_group (logits bias : list R) topk renormalize factor apply :
  2 <= length logits -> length bias = length logits -> topk <= length logits ->
  impl logits bias topk renormalize 1 1 factor apply =
  kimi_k2_biased_topk_impl topk_unsorted logits bias topk renormalize factor apply.
Proof.
  intros Hl Hb Hk. unfold biased_grouped_topk_impl, kimi_k2_biased_topk_impl.
  set (sc := zip_with sadd (map sigmoid logits) bias).
  assert (Hs : length sc = length logits) by (unfold sc; rewrite length_zip_with, length_map; lia).
  unfold Moe.view_groups. cbn [Moe.n_group groups_of Nat.eqb orb]. rewrite Nat.mod_1_r, Nat.div_1_r. cbn [Nat.eqb negb rbind].
  assert (Er : reshape_rows (length sc) 1 sc = [sc]).
  { unfold reshape_rows, blk, py_slice. cbn [seq map]. rewrite Nat.mul_0_l, Nat.add_0_l, Nat.sub_0_r. by rewrite drop_0, take_ge. }
  rewrite Er. cbn [Sampler.rmap rbind]. unfold Moe.group_score at 1. rewrite Moe.topk_Ok by (rewrite length_map; lia).
  cbn [rbind]. rewrite topk_u_Ok by (simpl; lia). cbn [rbind map].
  set (gs := Moe.lsum _). assert (Eg : topk_unsorted 1 [Some gs] ≡ₚ [0]).
  { rewrite unsorted_perm. pose proof (topk_spec 1 [Some gs] (le_n 1)) as Ht. pose proof (topk_length _ _ _ Ht) as L.
    destruct (t_topk 1 [Some gs]) as [|i [|]]; [done| |done].
    assert (Hi : i < 1) by (apply (topk_range _ _ _ Ht); by left). by replace i with 0 by lia. }
  rewrite (index_mask_perm 1 _ [0] Eg). change (index_mask 1 [0]) with [true].
  assert (Em : Moe.mask_scores (groups_of (length (map sigmoid logits)) 1 1 topk) [true] sc = map Some sc).
  { unfold Moe.mask_scores. cbn [Moe.num_experts Moe.n_group groups_of map concat]. rewrite Nat.div_1_r, app_nil_r, length_map, <- Hs.
    clear. induction sc as [|a l IH]; [done|]. simpl. by rewrite IH. }
  rewrite Em. done.
Qed.

End Routing.

(** ** The kernels of other packages *)

Section Kernels.
Context {R : Type} {HO : ScalarOps R} {sle : R -> R -> Prop} {HL : ScalarLaws R sle}.
Context `{DenoiseOps R} {HT : TopkOps R} `{!TopkLaws R}.
Local Open Scope sc_scope.
Add Ring smp_ring : s_ring.

(** A result of the reference routing with normalised weights, for some order of
    the chosen experts. *)
Definition routes_as (l b : list R) (k ng tg : nat) (factor : option R) (ap : bool) (out : routed R) : Prop :=
  exists tu, UnsortedLaws tu /\ biased_grouped_topk_impl tu l b k true ng tg factor ap = Ok out.

(** What the fused kernels document, on the rows the dispatch gives them: the routing of
    [biased_grouped_topk_impl] with normalised weights, times the factor where they are
    asked for it.  Between equal scores they choose as [topk] does. *)
Record gate_kernel_laws (GK : gate_kernels R) : Prop := {
  gl_deepseek : forall f l b k ng tg s, fused_topk_deepseek GK = Some f ->
    Moe.gate_ok (groups_of (length l) ng tg k) -> length b = length l ->
    routes_as l b k ng tg (Some s) true (f l b ng tg k s);
  gl_fused : forall l b k ng tg s, is_power_of_two (length l) = true -> (length l / ng <= 32)%nat ->
    Moe.gate_ok (groups_of (length l) ng tg k) -> length b = length l ->
    routes_as l b k ng tg (Some s) false (moe_fused_gate GK l b ng tg k s false);
  gl_kimi : forall l b k f, length l = 384%nat -> Moe.gate_ok (groups_of (length l) 1 1 k) -> length b = length l ->
    routes_as l b k 1 1 f false (kimi_k2_moe_fused_gate GK l b k true f false);
}.

Variables (tu : nat -> list (option R) -> list nat) (GK : gate_kernels R).
Context `{!UnsortedLaws tu}.
Hypotheses (laws : gate_kernel_laws GK) (no_aiter : use_aiter GK = false).

(** The weights and experts of a row, normalised. *)
Definition normalised (scores : list R) (ids : list nat) : routed R :=
  let w := map (Moe.nth_s scores) ids in (map (fun s => s / Moe.lsum w) w, ids).

Section Row.
Variables (l b : list R) (k ng tg : nat) (factor : option R).
Hypotheses (Hok : Moe.gate_ok (groups_of (length l) ng tg k)) (Hb : length b = length l).

(** The result is the chosen experts of the groups, in some order. *)
Definition chosen (out : routed R) : Prop := exists probs idx ids,
  Moe.group_limited_topk (groups_of (length l) ng tg k) (zip_with sadd (map sigmoid l) b) = Ok (probs, idx) /\
  idx ≡ₚ ids /\ out = normalised (map sigmoid l) ids.

Lemma routes_chosen f out : routes_as l b k ng tg f false out -> chosen out.
Proof using All.
  intros (tu' & Htu & E). destruct (impl_like_groups tu' _ l b true f false Hok eq_refl Hb) as (p & i & ids & E1 & E2 & E3).
  exists p, i, ids. split; [done|]. split; [done|]. assert (Eo : Ok out = Ok (normalised (map sigmoid l) ids)) by (rewrite <- E; exact E3). by injection Eo.
Qed.

Lemma routes_scaled out : routes_as l b k ng tg (Some s1) true out -> chosen out.
Proof using All.
  intros (tu' & Htu & E). destruct (impl_like_groups tu' _ l b true (Some s1) true Hok eq_refl Hb) as (p & i & ids & E1 & E2 & E3).
  exists p, i, ids. split; [done|]. split; [done|].
  assert (Eo : Ok out = Ok (map (fun s => s * s1) (fst (normalised (map sigmoid l) ids)), ids)) by (rewrite <- E; exact E3).
  injection Eo as ->. unfold normalised. cbn [fst]. f_equal. rewrite map_map. apply map_ext. intros s. ring.
Qed.

(** Every kernel the dispatch can pick gives them. *)
Lemma gpu_routes : (0 < tg)%nat -> exists out, biased_grouped_topk_gpu tu GK l b k true ng tg factor false = Ok out /\ chosen out.
Proof using All.
  intros Htg. assert (Hi : exists out, biased_grouped_topk_impl tu l b k true ng tg factor false = Ok out /\ chosen out).
  { destruct (impl_like_groups tu _ l b true factor false Hok eq_refl Hb) as (p & i & ids & E1 & E2 & E3).
    eexists. split; [exact E3|]. by exists p, i, ids. }
  unfold biased_grouped_topk_gpu. rewrite no_aiter. set (epg := if (ng =? 0)%nat then _ else _).
  set (other := if is_cuda GK && _ && _ then _ else _).
  assert (Ho : exists out, other = Ok out /\ chosen out).
  { unfold other. destruct (is_cuda GK && (epg <=? 32)%nat && is_power_of_two (length l)) eqn:Ef.
    { apply andb_true_iff in Ef as [[_ Ee%Nat.leb_le]%andb_true_iff Ep]. unfold epg in Ee.
      pose proof (Moe.go_groups _ Hok) as Hg. cbn in Hg. rewrite (proj2 (Nat.eqb_neq ng 0)) in Ee by lia.
      eexists. split; [done|]. eapply routes_chosen. by apply (gl_fused GK laws). }
    destruct (is_cuda GK && (length l =? 384)%nat && (ng =? 1)%nat) eqn:Ek; [|exact Hi].
    apply andb_true_iff in Ek as [[_ El%Nat.eqb_eq]%andb_true_iff Eg%Nat.eqb_eq]. eexists. split; [done|]. eapply (routes_chosen factor).
    assert (Et : tg = 1%nat) by (pose proof (Moe.go_topk_group _ Hok) as Ht; cbn in Ht; lia).
    rewrite Eg, Et in Hok |- *. by apply (gl_kimi GK laws). }
  clearbody other. destruct (fused_topk_deepseek GK) as [f|] eqn:Ef; [|exact Ho].
  match goal with |- context [if ?c then _ else other] => destruct c end; [|exact Ho]. eexists. split; [done|]. apply routes_scaled.
  destruct factor; by apply (gl_deepseek GK laws).
Qed.

End Row.
End Kernels.

(** ** The block with the weights of the PyTorch model *)

Section Block.
Context {R : Type} {HO : ScalarOps R} {sle : R -> R -> Prop} {HL : ScalarLaws R sle}.
Context `{DenoiseOps R} {HT : TopkOps R} `{!TopkLaws R}.
Local Open Scope sc_scope.
Add Ring smp_ring2 : s_ring.

(** Expert [e] holds the rows of [M]: gate rows, then up rows. *)
Record expert_loaded (ws : weights R) (e : nat) (M : Moe.mlp R) : Prop := {
  el_h : Moe.hidden_size M = wH ws;
  el_i : Moe.intermediate_size M = (wN ws / 2)%nat;
  el_act : forall a, Moe.act_fn M a = silu a;
  el_gate : forall i j, (i < wN ws / 2)%nat -> (j < wH ws)%nat -> w1 ws e i j = Moe.gate_proj M i j;
  el_up : forall i j, (i < wN ws / 2)%nat -> (j < wH ws)%nat -> w1 ws e (wN ws / 2 + i)%nat j = Moe.up_proj M i j;
  el_down : forall d i, (d < wH ws)%nat -> (i < wN ws / 2)%nat -> w2 ws e d i = Moe.down_proj M d i;
}.

Record shared_loaded (h : nat) (T : served_mlp R) (M : Moe.mlp R) : Prop := {
  sl_h : Moe.hidden_size M = h;
  sl_i : Moe.intermediate_size M = sm_I T;
  sl_act : forall a, Moe.act_fn M a = silu a;
  sl_gate : forall i j, (i < sm_I T)%nat -> (j < h)%nat -> sm_gate_up T i j = Moe.gate_proj M i j;
  sl_up : forall i j, (i < sm_I T)%nat -> (j < h)%nat -> sm_gate_up T (sm_I T + i)%nat j = Moe.up_proj M i j;
  sl_down : forall d i, (d < h)%nat -> (i < sm_I T)%nat -> sm_down T d i = Moe.down_proj M d i;
}.

Lemma expert_out_mlp ws e M x d : expert_loaded ws e M -> (d < wH ws)%nat -> expert_out ws e x d = Moe.mlp_forward M x d.
Proof using HL.
  intros [Eh Ei Ea Eg Eu Ed] Hd. unfold expert_out, Moe.mlp_forward, Moe.linear. rewrite Eh, Ei.
  apply vsum_ext. intros i Hi. rewrite Ea, Ed by done.
  rewrite (vsum_ext _ _ (fun j => x j * Moe.gate_proj M i j)) by (intros; by rewrite Eg).
  by rewrite (vsum_ext _ (fun j => x j * w1 ws e (wN ws / 2 + i)%nat j) (fun j => x j * Moe.up_proj M i j)) by (intros; by rewrite Eu).
Qed.

Lemma smlp_mlp h T M x d : shared_loaded h T M -> (d < h)%nat -> smlp_forward h T x d = Moe.mlp_forward M x d.
Proof using HL.
  intros [Eh Ei Ea Eg Eu Ed] Hd. unfold smlp_forward, silu_and_mul, Moe.mlp_forward, Moe.linear. rewrite Eh, Ei.
  apply vsum_ext. intros i Hi. rewrite Ea, Ed by done.
  rewrite (vsum_ext _ _ (fun j => x j * Moe.gate_proj M i j)) by (intros; by rewrite Eg).
  by rewrite (vsum_ext _ (fun j => x j * sm_gate_up T (sm_I T + i)%nat j) (fun j => x j * Moe.up_proj M i j)) by (intros; by rewrite Eu).
Qed.

Variables (c : moe_config R) (B : moe_block R) (G : Moe.gate R) (experts : list (Moe.mlp R)) (shared : option (Moe.mlp R)).

(** The served block was built from the same configuration and checkpoint as the
    PyTorch block. *)
Record matches : Prop := {
  ma_topk : make_topk c (Some (map (Moe.expert_bias G) (seq 0 (Moe.num_experts G)))) = Ok (blk_topk B);
  ma_k : num_experts_per_tok c = Moe.top_k G;
  ma_norm : norm_topk_prob c = true;
  ma_ng : cfg_n_group c = Moe.n_group G;
  ma_tg : cfg_topk_group c = Moe.topk_group G;
  ma_factor : blk_factor B = Moe.routed_scaling_factor G;
  ma_E : wE (blk_weights B) = Moe.num_experts G;
  ma_len : length experts = Moe.num_experts G;
  ma_H : wH (blk_weights B) = Moe.gating_dim G;
  ma_gate : forall e d, (e < Moe.num_experts G)%nat -> (d < Moe.gating_dim G)%nat -> gate_weight B e d = Moe.weight G e d;
  ma_experts : forall e M, experts !! e = Some M -> expert_loaded (blk_weights B) e M;
  ma_shared : match shared with
              | Some M => (exists k, num_shared_experts B = Some (S k)) /\
                          shared_loaded (wH (blk_weights B)) (shared_experts B) M
              | None => num_shared_experts B = Some 0%nat
              end;
}.

Hypotheses (Hm : matches) (Hok : Moe.gate_ok G).

Lemma router_gate x : router_logits B x = Moe.gate_logits G x.
Proof using Hm HL.
  unfold router_logits, Moe.gate_logits. rewrite (ma_E Hm), (ma_H Hm). apply map_ext_in. intros e He%in_seq.
  unfold Moe.linear. apply vsum_ext. intros i Hi. rewrite (ma_gate Hm) by lia. done.
Qed.

(** The routing that the constructor sets up. *)
Lemma block_topk : use_grouped_topk (blk_topk B) = true /\ topk_group (blk_topk B) = Some (Moe.topk_group G) /\
  num_expert_group (blk_topk B) = Some (Moe.n_group G) /\ top_k (blk_topk B) = Moe.top_k G /\
  renormalize (blk_topk B) = true /\ apply_routed_scaling_factor_on_output (blk_topk B) = false /\
  correction_bias (blk_topk B) = Some (map (Moe.expert_bias G) (seq 0 (Moe.num_experts G))) /\
  (0 < Moe.topk_group G)%nat.
Proof using Hm Hok.
  pose proof (ma_topk Hm) as E. unfold make_topk in E. rewrite (ma_ng Hm), (ma_tg Hm), (ma_k Hm), (ma_norm Hm) in E.
  rewrite (proj2 (Nat.ltb_lt 0 (Moe.n_group G)) (Moe.go_groups G Hok)) in E. cbn [orb negb andb] in E.
  destruct (negb _); [done|]. unfold passert in E.
  destruct (Nat.ltb_spec 0 (Moe.topk_group G)); [|done]. cbn [andb] in E.
  destruct (Moe.topk_group G <=? Moe.n_group G)%nat; [|done]. destruct (match cfg_score_function c with Some _ => _ | None => _ end); [|done].
  injection E as <-. done.
Qed.

Variables (tu : nat -> list (option R) -> list nat) (GK : gate_kernels R).
Context `{!UnsortedLaws tu}.
Hypotheses (laws : gate_kernel_laws GK) (no_aiter : use_aiter GK = false).

(** One row: the experts of the PyTorch gate in some order, with weights that sum
    to one. *)
Lemma select_row x : exists idx ids lg,
  Moe.gate_forward G x = Ok (idx, Moe.topk_weight G (map (Moe.nth_s (Moe.gate_scores G x)) idx), lg) /\
  idx ≡ₚ ids /\ length ids = Moe.top_k G /\ Forall (fun e => (e < Moe.num_experts G)%nat) ids /\
  select_experts tu GK (blk_topk B) (router_logits B x) = Ok (normalised (Moe.gate_scores G x) ids).
Proof using All.
  destruct block_topk as (E1 & E2 & E3 & E4 & E5 & E6 & E7 & Htg). rewrite router_gate.
  unfold select_experts. rewrite E1, E2, E3, E4, E5, E6, E7.
  set (l := Moe.gate_logits G x). assert (Hl : length l = Moe.num_experts G) by (unfold l, Moe.gate_logits; by rewrite length_map, length_seq).
  assert (Hok' : Moe.gate_ok (groups_of (length l) (Moe.n_group G) (Moe.topk_group G) (Moe.top_k G))).
  { rewrite Hl. destruct Hok. by split. }
  set (bias := map _ _). assert (Hb : length bias = length l) by (unfold bias; by rewrite Hl, length_map, length_seq).
  destruct (gpu_routes tu GK laws no_aiter l bias _ _ _ (routed_scaling_factor (blk_topk B)) Hok' Hb Htg) as (out & Eo & probs & idx & ids & Eg & Hp & ->).
  destruct (Moe.gate_spec G Hok x) as (idx' & w & lg & Ef & L & N & F & _ & Ew). subst w.
  assert (Ei : idx' = idx).
  { unfold Moe.gate_forward, Moe.scores_for_routing, Moe.gate_scores in Ef. fold l in Ef. fold bias in Ef.
    rewrite Hl in Eg. change (Moe.group_limited_topk G (zip_with sadd (map sigmoid l) bias) = Ok (probs, idx)) in Eg.
    rewrite Eg in Ef. cbn [rbind] in Ef. by injection Ef. }
  subst idx'. exists idx, ids, lg. split; [exact Ef|]. split; [exact Hp|].
  split; [by rewrite <- Hp|]. split; [by rewrite <- Hp|]. exact Eo.
Qed.

(** ** The whole block *)

Lemma moe_lsum (l : list R) : Moe.lsum l = lsum l.
Proof using HL.
  assert (Ha : forall l a, foldl sadd a l = a + lsum l).
  { induction l0 as [|y l0 IH]; intros a; simpl; [ring|]. rewrite IH. ring. }
  unfold Moe.lsum. rewrite Ha. ring.
Qed.

Lemma vsum_over (l : list nat) (f : nat -> R) : vsum (length l) (fun k => f (nth k l 0%nat)) = lsum (map f l).
Proof using HL.
  rewrite vsum_lsum. f_equal. induction l as [|a l IH]; [done|]. cbn [length seq map nth]. f_equal.
  by rewrite <- seq_shift, map_map.
Qed.

Lemma lsum_scaled (l : list nat) (f : nat -> R) z : lsum (map (fun e => f e * z) l) = lsum (map f l) * z.
Proof using HL. induction l as [|a l IH]; simpl; [ring|]. rewrite IH. ring. Qed.

(** The outputs of the chosen experts, weighted by their scores, before any
    normalisation. *)
Definition weighted (x : vec R) (idx : list nat) (d : nat) : R :=
  lsum (map (fun e => Moe.expert experts e x d * Moe.nth_s (Moe.gate_scores G x) e) idx).

Definition score_sum (x : vec R) (idx : list nat) : R := Moe.lsum (map (Moe.nth_s (Moe.gate_scores G x)) idx).

Lemma weighted_perm x idx ids d : idx ≡ₚ ids -> weighted x idx d = weighted x ids d /\ score_sum x idx = score_sum x ids.
Proof using HL. intros Hp. unfold weighted, score_sum. rewrite !moe_lsum. by rewrite Hp. Qed.

(** The PyTorch side. *)
Lemma mixture_weighted x idx d : (1 < Moe.top_k G)%nat ->
  Moe.mixture experts idx (Moe.topk_weight G (map (Moe.nth_s (Moe.gate_scores G x)) idx)) x d =
  weighted x idx d * (s1 / (score_sum x idx + s_of_Q (1 # 100000000000000000000))) * Moe.routed_scaling_factor G.
Proof using HL.
  intros Hk. unfold Moe.mixture, Moe.combine, Moe.topk_weight. rewrite (proj2 (Nat.ltb_lt _ _) Hk).
  fold (score_sum x idx). set (z := score_sum x idx + _). rewrite !map_map. unfold weighted. rewrite <- !lsum_scaled.
  rewrite <- vsum_over. apply vsum_ext. intros k Hlt. set (e := nth k idx 0%nat).
  assert (Ee : idx !! k = Some e) by (unfold e; destruct (lookup_lt_is_Some_2 idx k Hlt) as [v Hv]; by rewrite (nth_lookup_Some _ _ _ _ Hv)).
  rewrite (nth_lookup_Some _ k _ (Moe.expert experts e x)) by (by rewrite list_lookup_fmap, Ee).
  unfold Moe.nth_s at 1. erewrite (nth_lookup_Some _ k); [|by rewrite list_lookup_fmap, Ee]. cbv beta.
  rewrite (sdiv_mul _ z). ring.
Qed.

(** The sum of the kernels, from the routing of one token. *)
Lemma served_weighted (wts : vec R) (tids : nat -> Z) (x : nat -> vec R) r d ids : (d < wH (blk_weights B))%nat ->
  length ids = Moe.top_k G -> Forall (fun e => (e < Moe.num_experts G)%nat) ids ->
  (forall k, (k < Moe.top_k G)%nat -> tids (r * Moe.top_k G + k)%nat = Z.of_nat (nth k ids 0%nat) /\
     wts (r * Moe.top_k G + k)%nat = nth k (fst (normalised (Moe.gate_scores G (x r)) ids)) s0) ->
  routed_sum (blk_weights B) false (blk_factor B) (Moe.top_k G) wts tids x r d =
  weighted (x r) ids d * (s1 / score_sum (x r) ids) * Moe.routed_scaling_factor G.
Proof using Hm HL.
  intros Hd Hl Hf Hr. unfold routed_sum. rewrite (ma_factor Hm). f_equal. unfold weighted. rewrite <- lsum_scaled, <- vsum_over, Hl.
  apply vsum_ext. intros k Hk. destruct (Hr k Hk) as [Ei Ew]. unfold choice_out. cbn [andb].
  rewrite Ei, Ew, Nat2Z.id. set (e := nth k ids 0%nat).
  assert (Ee : ids !! k = Some e) by (unfold e; destruct (lookup_lt_is_Some_2 ids k) as [v Hv]; [lia|by rewrite (nth_lookup_Some _ _ _ _ Hv)]).
  assert (He : (e < length experts)%nat) by (rewrite (ma_len Hm); by eapply Forall_lookup_1 in Hf).
  destruct (lookup_lt_is_Some_2 experts e He) as [M HM].
  rewrite (expert_out_mlp _ _ M) by (done || by apply (ma_experts Hm)).
  unfold normalised. cbn [fst]. erewrite (nth_lookup_Some _ k); [|by rewrite !list_lookup_fmap, Ee].
  unfold Moe.expert. rewrite HM. fold (score_sum (x r) ids). rewrite (sdiv_mul _ (score_sum (x r) ids)). ring.
Qed.

Variable W : world R.
Hypothesis wok : world_ok W.
Hypothesis zero_ok : forall a : R, s_is_zero a = true -> a = s0.

(** Routing of a batch. *)
Lemma route_rows n hidden : exists rs, route tu GK B n hidden = Ok rs /\
  forall r, (r < n)%nat -> exists idx ids lg,
    let x := row_of B hidden r in
    Moe.gate_forward G x = Ok (idx, Moe.topk_weight G (map (Moe.nth_s (Moe.gate_scores G x)) idx), lg) /\
    idx ≡ₚ ids /\ length ids = Moe.top_k G /\ Forall (fun e => (e < Moe.num_experts G)%nat) ids /\
    rs !! r = Some (normalised (Moe.gate_scores G x) ids).
Proof using All.
  clear wok zero_ok W. unfold route. set (f := fun r => select_experts _ _ _ _).
  assert (Hf : forall l, exists rs, Sampler.rmap f l = Ok rs).
  { induction l as [|r l [rs IH]]; [by exists []|]. destruct (select_row (row_of B hidden r)) as (idx & ids & lg & _ & _ & _ & _ & E).
    exists (normalised (Moe.gate_scores G (row_of B hidden r)) ids :: rs). simpl. unfold f at 1. rewrite E. cbn [rbind]. by rewrite IH. }
  destruct (Hf (seq 0 n)) as [rs Hrs]. exists rs. split; [done|]. intros r Hr. apply Sampler.rmap_Ok in Hrs.
  destruct (select_row (row_of B hidden r)) as (idx & ids & lg & E1 & E2 & E3 & E4 & E5).
  exists idx, ids, lg. split; [done|]. split; [done|]. split; [done|]. split; [done|].
  destruct (Forall2_lookup_l _ _ _ r r Hrs) as (o & Ho & Eo); [by rewrite lookup_seq_lt|].
  unfold f in Eo. rewrite E5 in Eo. injection Eo as <-. done.
Qed.

(** The experts run on a routed batch. *)
Lemma run_experts_rows n hidden cache0 rs : (1 < Moe.top_k G)%nat -> route tu GK B n hidden = Ok rs ->
  forall r d, (r < n)%nat -> (d < wH (blk_weights B))%nat -> exists idx lg,
    let x := row_of B hidden r in
    Moe.gate_forward G x = Ok (idx, Moe.topk_weight G (map (Moe.nth_s (Moe.gate_scores G x)) idx), lg) /\
    run_experts W B n rs hidden cache0 (r * wH (blk_weights B) + d)%nat =
    weighted x idx d * (s1 / score_sum x idx) * Moe.routed_scaling_factor G.
Proof using All.
  intros Hk Hrs r d Hr Hd. destruct (route_rows n hidden) as (rs' & Hrs' & Hrow). rewrite Hrs in Hrs'. injection Hrs' as <-.
  destruct block_topk as (_ & _ & _ & Ek & _).
  assert (Hsel : forall r' k, (r' < n)%nat -> (k < Moe.top_k G)%nat -> exists ids,
    rs !! r' = Some (normalised (Moe.gate_scores G (row_of B hidden r')) ids) /\ length ids = Moe.top_k G /\
    Forall (fun e => (e < Moe.num_experts G)%nat) ids /\
    flat_ids B rs (r' * Moe.top_k G + k)%nat = Z.of_nat (nth k ids 0%nat) /\
    flat_weights B rs (r' * Moe.top_k G + k)%nat = nth k (fst (normalised (Moe.gate_scores G (row_of B hidden r')) ids)) s0).
  { intros r' k Hr' Hk'. destruct (Hrow r' Hr') as (idx & ids & lg & _ & _ & L & F & Er). exists ids.
    split; [done|]. split; [done|]. split; [done|]. unfold flat_ids, flat_weights. rewrite Ek.
    destruct (div_row (Moe.top_k G) r' k Hk') as [-> ->]. by rewrite (nth_lookup_Some _ _ _ _ Er). }
  assert (Hids : ids_ok (blk_weights B) false (n * Moe.top_k G) (flat_ids B rs)).
  { intros t Ht. assert (Hq : (t / Moe.top_k G < n)%nat) by (apply Nat.Div0.div_lt_upper_bound; lia).
    assert (Hm' : (t mod Moe.top_k G < Moe.top_k G)%nat) by (apply Nat.mod_upper_bound; lia).
    destruct (Hsel _ _ Hq Hm') as (ids & _ & L & F & Ei & _).
    replace (t / Moe.top_k G * Moe.top_k G + t mod Moe.top_k G)%nat with t in Ei by (pose proof (Nat.div_mod_eq t (Moe.top_k G)); lia).
    rewrite Ei, (ma_E Hm). pose proof (nth_In ids 0%nat (eq_ind_r (fun q => (_ < q)%nat) Hm' L)) as Hin. apply list_elem_of_In in Hin.
    rewrite Forall_forall in F. specialize (F _ Hin). cbv beta in F. split; [lia|intros _; lia]. }
  unfold run_experts. rewrite Ek.
  destruct (fused_experts_rows W (blk_weights B) true false (blk_factor B) (Moe.top_k G) (flat_weights B rs) (flat_ids B rs)
    wok zero_ok n hidden hidden cache0) as [Hout _]; [left; lia|done|].
  rewrite Hout by done. destruct (Hrow r Hr) as (idx & ids & lg & Eg & Hp & L & F & Er). exists idx, lg. split; [done|].
  destruct (weighted_perm (row_of B hidden r) idx ids d Hp) as [-> ->].
  apply (served_weighted _ _ (fun r d => hidden (r * wH (blk_weights B) + d)%nat) r d ids Hd L F).
  intros k Hk'. destruct (Hsel r k Hr Hk') as (ids' & Er' & _ & _ & Ei & Ew).
  rewrite Er in Er'. injection Er' as _ Eids. subst ids'. by split.
Qed.

(** What the shared experts add. *)
Definition plus_shared (x : vec R) (d : nat) (y : R) : R :=
  match shared with Some M => y + Moe.mlp_forward M x d | None => y end.

Lemma shared_flag : exists sh, has_shared B = Ok sh /\ (sh = true <-> is_Some shared).
Proof using Hm.
  pose proof (ma_shared Hm) as Hs. unfold has_shared. destruct shared as [M|].
  - destruct Hs as [[k ->] _]. exists true. split; [done|]. split; [by eexists|done].
  - rewrite Hs. exists false. split; [done|]. split; [done|]. by intros [? ?].
Qed.

(** [forward_normal] returns, and every entry is the normalised mixture plus the
    shared experts on the states before the call. *)
Lemma block_forward_rows n hidden cache0 : (1 < Moe.top_k G)%nat ->
  exists out hs, forward_normal tu GK W B n hidden cache0 = Ok (out, hs) /\
  forall r d, (r < n)%nat -> (d < wH (blk_weights B))%nat -> exists idx lg,
    let x := row_of B hidden r in
    Moe.gate_forward G x = Ok (idx, Moe.topk_weight G (map (Moe.nth_s (Moe.gate_scores G x)) idx), lg) /\
    out (r * wH (blk_weights B) + d)%nat =
    plus_shared x d (weighted x idx d * (s1 / score_sum x idx) * Moe.routed_scaling_factor G).
Proof using All.
  intros Hk. unfold forward_normal. destruct shared_flag as (sh & -> & Hsh). cbn [rbind].
  destruct (route_rows n hidden) as (rs & Hrs & _). rewrite Hrs. cbn [rbind].
  eexists _, _. split; [reflexivity|]. intros r d Hr Hd.
  destruct (run_experts_rows n hidden cache0 rs Hk Hrs r d Hr Hd) as (idx & lg & Eg & Er). exists idx, lg. split; [done|].
  unfold plus_shared. rewrite <- Er. pose proof (ma_shared Hm) as Hs. destruct shared as [M|].
  - rewrite (proj2 Hsh) by (by eexists). destruct (div_row (wH (blk_weights B)) r d Hd) as [-> ->].
    by rewrite (smlp_mlp _ _ M) by (done || apply Hs).
  - destruct sh; [by destruct (proj1 Hsh eq_refl)|done].
Qed.

(** With the copy made in time the two streams compute the same; otherwise the
    shared experts run on the output of the routed ones. *)
Lemma dual_stream_ordered n hidden cache0 :
  forward_dual_stream tu GK W B true n hidden cache0 = forward_normal tu GK W B n hidden cache0.
Proof using. done. Qed.

Lemma dual_stream_race n hidden cache0 M r d : (1 < Moe.top_k G)%nat -> shared = Some M ->
  (r < n)%nat -> (d < wH (blk_weights B))%nat ->
  exists out hs, forward_dual_stream tu GK W B false n hidden cache0 = Ok (out, hs) /\
    out (r * wH (blk_weights B) + d)%nat =
    hs (r * wH (blk_weights B) + d)%nat + Moe.mlp_forward M (row_of B hs r) d.
Proof using All.
  intros Hk Es Hr Hd. unfold forward_dual_stream. destruct shared_flag as (sh & -> & Hsh). cbn [rbind].
  destruct (route_rows n hidden) as (rs & Hrs & _). rewrite Hrs. cbn [rbind]. eexists _, _. split; [reflexivity|].
  rewrite (proj2 Hsh) by (rewrite Es; by eexists). destruct (div_row (wH (blk_weights B)) r d Hd) as [-> ->].
  pose proof (ma_shared Hm) as Hs. rewrite Es in Hs. by rewrite (smlp_mlp _ _ M) by (done || apply Hs).
Qed.

End Block.

(** ** Expert parallelism *)

Section Parallel.
Context {R : Type} {HO : ScalarOps R} {sle : R -> R -> Prop} {HL : ScalarLaws R sle}.
Local Open Scope sc_scope.
Add Ring smp_ring3 : s_ring.

Variables (ws : weights R) (L P : nat) (tids : nat -> Z).

Lemma vsum_single n (f : nat -> R) q : (q < n)%nat -> (forall i, (i < n)%nat -> i <> q -> f i = s0) -> vsum n f = f q.
Proof.
  induction n as [|n IH]; intros Hq Hz; [lia|]. cbn [vsum]. destruct (decide (q = n)) as [->|Hne].
  - rewrite (vsum_ext n f (fun _ => s0)) by (intros i Hi; apply Hz; lia). rewrite vsum_0. ring.
  - rewrite IH by (lia || intros; apply Hz; lia). rewrite (Hz n) by lia. ring.
Qed.

(** An expert lives on exactly one rank. *)
Lemma mapping_owner e rank : (0 < L)%nat ->
  local_expert_mapping L rank (Z.of_nat e) = if (rank =? e / L)%nat then Z.of_nat (e mod L) else (-1)%Z.
Proof.
  intros HL'. unfold local_expert_mapping. pose proof (Nat.div_mod_eq e L) as E. pose proof (Nat.mod_upper_bound e L ltac:(lia)) as Hm.
  destruct (Nat.eqb_spec rank (e / L)) as [->|Hne].
  - rewrite (proj2 (Z.leb_le _ _)), (proj2 (Z.ltb_lt _ _)) by lia. cbn [andb]. lia.
  - destruct (Z.leb_spec (Z.of_nat (rank * L)) (Z.of_nat e)), (Z.ltb_spec (Z.of_nat e) (Z.of_nat ((rank + 1) * L))); try done.
    exfalso. apply Hne. apply Nat.div_unique with (e - rank * L)%nat; nia.
Qed.

(** The ids a rank passes on are its own experts or [-1]. *)
Lemma ep_ids_ok rank n : (0 < L)%nat -> wE ws = L -> (forall t, (t < n)%nat -> (0 <= tids t < Z.of_nat (P * L))%Z) ->
  ids_ok ws true n (fun p => local_expert_mapping L rank (tids p)).
Proof.
  intros HL' EE Hi t Ht. split; [|done]. specialize (Hi t Ht). rewrite EE.
  replace (tids t) with (Z.of_nat (Z.to_nat (tids t))) by lia. rewrite mapping_owner by done.
  pose proof (Nat.mod_upper_bound (Z.to_nat (tids t)) L ltac:(lia)). destruct (_ =? _)%nat; lia.
Qed.

End Parallel.

End SMP.
