(* ===== verification/ServedMoeThm.v ===== *)
(** What the experts layer of the server promises: the kernels compute the routed
    sum, and a block with the weights of the PyTorch model agrees with its mixture of
    experts. *)
From stdpp Require Import base list strings.
From Stdlib Require Import ZArith QArith Qreals Reals Lra Lia Ring.
From S2P Require Import Prelude Denoise Sampling Tensor RealOps Moe MoeKernel MoeConfig FusedExperts ServedMoe ServedMoeProps.
Local Open Scope nat_scope.

Module SMT.
Import MK MC FE SM SMP.

Section Experts.
Context {R : Type} {HO : ScalarOps R} {sle : R -> R -> Prop} {HL : ScalarLaws R sle}.
Local Open Scope sc_scope.

(** C11. The fused experts compute what they stand for: whatever the machine's
    tile configuration, order of the kernel instances and contents of the
    uninitialised buffers, in place or not, with experts of other ranks filtered
    or not, and however many chunks the batch is cut into, every row of the output
    is the sum over the token's choices of [down(silu(gate) * up)], weighted and
    scaled; out of place the hidden states are left alone.  It needs [summed]: at least two
    choices per token, or a single one on CUDA with a scaling factor of one, which the
    second product writes directly.  In the case left out, a single choice with another
    factor or on HIP, the result ignores the down projections ([top1_ignores_down]). *)
Theorem fused_experts_exact (W : world R) (ws : weights R) inplace filter_expert (factor : R) topk wts tids n
    (hidden out0 cache0 : mem R) :
  world_ok W -> (forall a : R, s_is_zero a = true -> a = s0) -> summed W factor topk ->
  ids_ok ws filter_expert (n * topk) tids ->
  let impl := fused_experts_impl W ws inplace filter_expert factor topk wts tids n hidden out0 cache0 in
  (forall r d, (r < n)%nat -> (d < wH ws)%nat -> fst impl (r * wH ws + d)%nat =
     routed_sum ws filter_expert factor topk wts tids (fun r d => hidden (r * wH ws + d)%nat) r d) /\
  (inplace = false -> snd impl = hidden).
Proof. intros Hw Hz Hs Hi. by apply fused_experts_rows. Qed.

(** A single choice per token with a scaling factor is not computed: the second
    product goes to the output, which the reduction then overwrites from the
    scratch buffer of the first product.  The result does not depend on the down
    projections at all. *)
Lemma top1_ignores_down (W : world R) (ws ws' : weights R) inplace filter_expert (factor : R) wts tids
    config begin tokens (b : buffers R) :
  world_ok W -> (forall a : R, s_is_zero a = true -> a = s0) ->
  (plat W = Hip \/ s_is_zero (factor - s1) = false) ->
  wE ws' = wE ws -> wN ws' = wN ws -> wH ws' = wH ws -> w1 ws' = w1 ws ->
  forall r d, (r < tokens)%nat -> (d < wH ws)%nat ->
  out_buf (run_chunk W ws' inplace filter_expert factor 1 wts tids config begin tokens b) ((begin + r) * wH ws + d)%nat =
  out_buf (run_chunk W ws inplace filter_expert factor 1 wts tids config begin tokens b) ((begin + r) * wH ws + d)%nat.
Proof.
  intros Hw Hz Hp EE EN EH E1 r d Hr Hd.
  rewrite (run_chunk_stale W ws inplace filter_expert factor 1 wts tids Hw Hz) by done.
  rewrite <- EH, (run_chunk_stale W ws' inplace filter_expert factor 1 wts tids Hw Hz) by (done || by rewrite EH).
  unfold cache1, args1. by rewrite EE, EN, EH, E1.
Qed.

End Experts.

(** ** Against the PyTorch model *)

Section Real.
Import Reals RealSample.
Local Open Scope R_scope.

Lemma real_zero (a : R) : s_is_zero a = true -> a = s0.
Proof. simpl. by destruct (Req_dec_T a 0). Qed.

Lemma sigmoid_pos (x : R) : 0 < sigmoid x.
Proof. unfold sigmoid. simpl. pose proof (exp_pos (- x)). apply Rdiv_lt_0_compat; lra. Qed.

Lemma score_sum_pos (G : Moe.gate R) x idx : idx <> [] -> Forall (fun e => (e < Moe.num_experts G)%nat) idx ->
  0 < score_sum G x idx.
Proof.
  intros Hne Hf. unfold score_sum. assert (Hp : forall e, (e < Moe.num_experts G)%nat -> 0 < Moe.nth_s (Moe.gate_scores G x) e).
  { intros e He. unfold Moe.nth_s. destruct (lookup_lt_is_Some_2 (Moe.gate_scores G x) e) as [v Hv].
    { unfold Moe.gate_scores, Moe.gate_logits. by rewrite !length_map, length_seq. }
    rewrite (nth_lookup_Some _ _ _ _ Hv). unfold Moe.gate_scores in Hv. rewrite list_lookup_fmap in Hv.
    destruct (Moe.gate_logits G x !! e) as [y|]; [|done]. injection Hv as <-. apply sigmoid_pos. }
  destruct idx as [|e idx]; [done|]. apply Forall_cons in Hf as [He Hf]. cbn [map]. rewrite Moe.lsum_cons.
  specialize (Hp e He) as He'. assert (0 <= Moe.lsum (map (Moe.nth_s (Moe.gate_scores G x)) idx)); [|lra].
  apply Moe.lsum_nonneg, Forall_map. eapply Forall_impl; [exact Hf|]. intros e' Hlt. apply Rlt_le, Hp, Hlt.
Qed.

(** The served block is the PyTorch block.  Built from the same configuration
    and checkpoint, [forward_normal] returns for every token the mixture that the
    gate and the experts of the PyTorch model give it, plus the shared experts on
    the states before the call, although the routed experts overwrite them.  The
    routed part differs by the factor [1 + 1e-20 / S], [S] being the (positive) sum
    of the chosen scores: the server divides by the sum itself.  It holds whichever
    gate kernel the dispatch picks, whatever order [topk] returns, and on any
    machine configuration. *)
Lemma served_moe_is_hf (c : moe_config R) (B : moe_block R) (G : Moe.gate R) experts shared tu GK W n hidden cache0 :
  matches c B G experts shared -> Moe.gate_ok G -> (1 < Moe.top_k G)%nat ->
  UnsortedLaws tu -> gate_kernel_laws GK -> use_aiter GK = false -> world_ok W ->
  exists out hs, forward_normal tu GK W B n hidden cache0 = Ok (out, hs) /\
  forall r d, (r < n)%nat -> (d < wH (blk_weights B))%nat -> exists y idx w lg,
    let x := row_of B hidden r in
    Moe.moe_ref G experts None x = Ok y /\ Moe.gate_forward G x = Ok (idx, w, lg) /\ 0 < score_sum G x idx /\
    out (r * wH (blk_weights B) + d)%nat =
    plus_shared shared x d (y d * (1 + Q2R (1 # 100000000000000000000) / score_sum G x idx)).
Proof.
  intros Hm Hok Hk Htu Hgk Ha Hw.
  destruct (block_forward_rows c B G experts shared Hm Hok tu GK Hgk Ha W Hw real_zero n hidden cache0 Hk) as (out & hs & Ef & Hout).
  exists out, hs. split; [exact Ef|]. intros r d Hr Hd. destruct (Hout r d Hr Hd) as (idx & lg & Eg & Eo).
  set (x := row_of B hidden r) in *. destruct (Moe.gate_spec G Hok x) as (idx' & w' & lg' & Eg' & L & _ & F & _).
  rewrite Eg in Eg'. injection Eg' as <- _ _.
  assert (Hne : idx <> []) by (intros ->; simpl in L; lia).
  pose proof (score_sum_pos G x idx Hne F) as HS. assert (He : 0 < Q2R (1 # 100000000000000000000)) by (unfold Q2R; simpl; lra).
  eexists _, idx, _, lg. unfold Moe.moe_ref. rewrite Eg. cbn [rbind].
  split; [reflexivity|]. split; [reflexivity|]. split; [exact HS|]. rewrite Eo. f_equal.
  rewrite (mixture_weighted G experts) by done. simpl s_of_Q. simpl smul. simpl sdiv. simpl sadd. simpl s1.
  set (e := Q2R _) in *. set (A := weighted _ _ _ _ _). set (T := score_sum G x idx) in *.
  field. split; lra.
Qed.

End Real.

(** ** A concrete machine *)

Module Demo.
Import Reals RealSample.

Definition conf : kconfig := mkConfig 2 2 1 1.

Definition machine : world R := mkWorld Cuda (fun _ => (conf, Some (mkConfig 2 1 2 3)))
  (fun bm ids n E => align_blocks ids n E bm) (fun n => seq 0 n)
  (fun rows N src dst a => (silu (src ((a / (N / 2)) * N + a mod (N / 2))%nat) *
     src ((a / (N / 2)) * N + N / 2 + a mod (N / 2))%nat)%sc)
  moe_sum_reduce_torch_compile (fun _ _ => 0%R).

Lemma machine_ok : world_ok machine.
Proof.
  split; cbn [machine sched get_config sgl_align sgl_silu_and_mul sgl_moe_sum_reduce].
  - done.
  - intros _. split; [split; cbn; lia|]. intros c [= <-]. split; [split; cbn; lia|done].
  - intros c ids n E g Hc Hn Hi. apply align_blocks_ok; [apply Hc|done|done|done].
  - intros rows N src dst t i Ht Hi. by destruct (div_row (N / 2) t i Hi) as [-> ->].
  - done.
Qed.

(** Four experts in two groups; expert [k] has the up weight [k]. *)
Definition wts1 : weights R :=
  mkWeights 4 2 1 (fun e i _ => if (i =? 0)%nat then 1%R else INR e) (fun _ _ _ => 1%R).

Definition ids2 (p : nat) : Z := if (p =? 0)%nat then 3%Z else 2%Z.

Lemma fused_experts_exact_witness :
  fst (fused_experts_impl machine wts1 true false 2%R 2 (fun _ => 1%R) ids2 1 (fun _ => 1%R) (fun _ => 0%R) (fun _ => 0%R)) 0
  = routed_sum wts1 false 2%R 2 (fun _ => 1%R) ids2 (fun _ _ => 1%R) 0 0.
Proof.
  destruct (fused_experts_exact machine wts1 true false 2%R 2 (fun _ => 1%R) ids2 1 (fun _ => 1%R) (fun _ => 0%R) (fun _ => 0%R)
    machine_ok real_zero) as [E _].
  - left. lia.
  - intros t Ht. unfold ids2. destruct (t =? 0)%nat; simpl; split; (lia || intros _; lia).
  - apply (E 0 0); [lia|simpl; lia].
Defined.

(** Down weights one and zero give the same output. *)
Definition wts0 : weights R :=
  mkWeights 4 2 1 (fun e i _ => if (i =? 0)%nat then 1%R else INR e) (fun _ _ _ => 0%R).

Lemma top1_ignores_down_witness :
  let b := mkBuf (fun _ => 1%R) (fun _ => 1%R) (fun _ => 0%R) in
  out_buf (run_chunk machine wts0 true false 2%R 1 (fun _ => 1%R) ids2 (conf, None) 0 1 b) 0 =
  out_buf (run_chunk machine wts1 true false 2%R 1 (fun _ => 1%R) ids2 (conf, None) 0 1 b) 0.
Proof.
  apply (top1_ignores_down machine wts1 wts0 true false 2%R (fun _ => 1%R) ids2 (conf, None) 0 1) with (r := 0) (d := 0);
    [exact machine_ok|exact real_zero| |reflexivity|reflexivity|reflexivity|reflexivity|lia|simpl; lia].
  right. simpl. destruct (Req_dec_T (2 - 1) 0); [exfalso; lra|reflexivity].
Defined.

(** Gate kernels that follow the reference. *)
Definition kernel_of (l b : list R) (k ng tg : nat) (f : option R) (ap : bool) : routed R :=
  match biased_grouped_topk_impl t_topk l b k true ng tg f ap with Ok o => o | Raise _ => ([], []) end.

Definition gates : gate_kernels R := mkGateKernels true false
  (Some (fun l b ng tg k s => kernel_of l b k ng tg (Some s) true))
  (fun l b ng tg k s ap => kernel_of l b k ng tg (Some s) ap)
  (fun _ _ _ _ _ _ _ => ([], []))
  (fun l b k _ f ap => kernel_of l b k 1 1 f ap) (fun _ _ _ _ _ => ([], [])).

#[export] Instance sorted_unsorted : UnsortedLaws (R := R) t_topk.
Proof. intros k l. done. Qed.

Lemma kernel_of_routes l b k ng tg f ap : Moe.gate_ok (groups_of (length l) ng tg k) -> length b = length l ->
  (ap = true -> is_Some f) -> routes_as l b k ng tg f ap (kernel_of l b k ng tg f ap).
Proof.
  intros Hok Hb Hf. exists t_topk. split; [apply _|]. unfold kernel_of.
  destruct (impl_like_groups t_topk _ l b true f ap Hok eq_refl Hb) as (p & i & ids & _ & _ & E).
  cbn [Moe.top_k Moe.n_group Moe.topk_group groups_of] in E. rewrite E. unfold renorm.
  destruct ap; [|done]. by destruct (Hf eq_refl) as [? ->].
Qed.

Lemma gates_ok : gate_kernel_laws gates.
Proof.
  split; cbn [gates fused_topk_deepseek moe_fused_gate kimi_k2_moe_fused_gate].
  - intros f l b k ng tg s [= <-] Hok Hb. by apply kernel_of_routes.
  - intros l b k ng tg s _ _ Hok Hb. by apply kernel_of_routes.
  - intros l b k f _ Hok Hb. by apply kernel_of_routes.
Qed.

End Demo.
End SMT.
