(* ===== verification/LinearAttention.v ===== *)
(** [OrderInvariantKernelLinearAttention] of [llada_hybrid/linear_attention.py]:
    block-causal linear attention with the Hedgehog feature map and a recurrent
    state, and its two-half training variant [forward_bd3lm].

    The recurrence is shown equal to explicit block-causal attention, to be
    unchanged when the keys of a block are permuted, and to continue from a
    stored state as if the prefix had been present, which is what caching the
    state between generation steps relies on. *)
From stdpp Require Import base list.
From Stdlib Require Import ZArith Reals Lra Lia Ring.
From S2P Require Import Prelude.
From S2P Require Import Tensor.
Local Open Scope nat_scope.

(** * Loops over blocks *)

Section Blocks.
Context {ST O : Type}.

(** [for n in range(m)]: [outf n] appends an output computed from the state
    before the block, [upd n] updates the state. *)
Definition run_blocks (outf : nat -> ST -> O) (upd : nat -> ST -> ST) (m : nat) (st : ST)
    : list O * ST :=
  fold_left (fun acc n => (fst acc ++ [outf n (snd acc)], upd n (snd acc))) (seq 0 m) ([], st).

(** The state before block [n]. *)
Fixpoint state_at (upd : nat -> ST -> ST) (n : nat) (st : ST) : ST :=
  match n with
  | 0 => st
  | S n => upd n (state_at upd n st)
  end.

Lemma run_blocks_spec outf upd m st :
  snd (run_blocks outf upd m st) = state_at upd m st /\
  length (fst (run_blocks outf upd m st)) = m /\
  forall i, i < m -> fst (run_blocks outf upd m st) !! i = Some (outf i (state_at upd i st)).
Proof.
  unfold run_blocks. induction m as [|m (IH1 & IH2 & IH3)]; [by repeat split; intros; lia|].
  rewrite seq_S, fold_left_app. cbn [fold_left plus fst snd].
  split; [by rewrite IH1|]. split; [rewrite length_app, IH2; simpl; lia|].
  intros i Hi. destruct (decide (i = m)) as [->|Hne].
  - rewrite lookup_app_r by lia. rewrite IH2, Nat.sub_diag. simpl. by rewrite IH1.
  - rewrite lookup_app_l by lia. apply IH3. lia.
Qed.

(** Two outputs per block are two runs over the same states. *)
Lemma run_blocks_map {P : Type} (g : O -> P) (outf : nat -> ST -> O) (upd : nat -> ST -> ST) m st :
  map g (fst (run_blocks outf upd m st))
  = fst (fold_left (fun acc n => (fst acc ++ [g (outf n (snd acc))], upd n (snd acc))) (seq 0 m) ([], st)).
Proof.
  unfold run_blocks.
  enough (E : forall m, map g (fst (fold_left (fun acc n => (fst acc ++ [outf n (snd acc)], upd n (snd acc)))
            (seq 0 m) ([], st)))
          = fst (fold_left (fun acc n => (fst acc ++ [g (outf n (snd acc))], upd n (snd acc))) (seq 0 m) ([], st))
       /\ snd (fold_left (fun acc n => (fst acc ++ [outf n (snd acc)], upd n (snd acc))) (seq 0 m) ([], st))
          = snd (fold_left (fun acc n => (fst acc ++ [g (outf n (snd acc))], upd n (snd acc))) (seq 0 m) ([], st)))
    by apply E.
  clear m. induction m as [|m [IH1 IH2]]; [done|].
  rewrite seq_S, !fold_left_app. cbn [fold_left plus fst snd].
  split; [by rewrite map_app, IH1, IH2|by rewrite IH2].
Qed.

End Blocks.

(** The attention masks callers may pass; a float entry of [None] is infinite. *)
Inductive attn_mask (R : Type) : Type :=
| BoolMask (rows cols : nat) (m : nat -> nat -> nat -> bool)
| FloatMask (rows cols : nat) (m : nat -> nat -> nat -> option R).
Arguments BoolMask {R}.
Arguments FloatMask {R}.

(** * The recurrent state *)

Module Rec.

Section Model.
Context {R : Type} `{ScalarOps R}.
Local Open Scope sc_scope.

(** [F.pad] along the sequence. *)
Definition pad (L : nat) (x : mat R) : mat R := fun t d => if t <? L then x t d else s0.

(** The recurrent state: the outer-product accumulator and the normaliser. *)
Record state : Type := mkSt { st_S : mat R; st_Z : vec R }.

Definition zero_state : state := mkSt (fun _ _ => s0) (fun _ => s0).

(** [S + phi_k[n]^T @ v[n]] and [Z + phi_k[n].sum(-2)]. *)
Definition update (bs : nat) (phi_k v : mat R) (n : nat) (st : state) : state :=
  mkSt (fun f d => st_S st f d +
          matmul bs (transpose (fun s f => phi_k (n * bs + s)%nat f))
                    (fun s d => v (n * bs + s)%nat d) f d)
       (fun f => st_Z st f + vsum bs (fun s => phi_k (n * bs + s)%nat f)).

(** [kpm[:, :padded_L]], padded with zeros; [kl] is its length. *)
Definition pad_mask (kl : nat) (kpm : nat -> R) (t : nat) : R := if t <? kl then kpm t else s0.

(** Multiply the rows by a validity mask. *)
Definition mask_rows (valid : nat -> R) (x : mat R) : mat R := fun t d => x t d * valid t.

(** Validity of the tokens of the unpadded sequence. *)
Definition pad_valid (L t : nat) : R := if t <? L then s1 else s0.

(** Assemble [torch.stack(out_blocks).reshape(padded_L, D)[:L]]. *)
Definition unblock (bs : nat) (outs : list (mat R)) : mat R := fun t d =>
  nth (t / bs) outs (fun _ _ => s0) (t mod bs) d.

End Model.
Arguments state : clear implicits.

Section Facts.
Context {R : Type} {HO : ScalarOps R} {sle : R -> R -> Prop} {HL : ScalarLaws R sle}.
Local Open Scope sc_scope.

Add Ring rec_ring : s_ring.

Variable bs : nat.

(** The state before block [n] holds the contributions of the positions before
    it. *)
Lemma state_closed (phi_k v : mat R) n (st : state R) :
  (forall f d, st_S (state_at (update bs phi_k v) n st) f d
     = st_S st f d + vsum (n * bs) (fun j => phi_k j f * v j d)) /\
  (forall f, st_Z (state_at (update bs phi_k v) n st) f
     = st_Z st f + vsum (n * bs) (fun j => phi_k j f)).
Proof.
  induction n as [|n [IH1 IH2]]; [by split; intros; simpl; ring|].
  assert (Ea : forall g : nat -> R,
    vsum (S n * bs) g = vsum (n * bs) g + vsum bs (fun s => g (n * bs + s)%nat)).
  { intros g. replace (S n * bs)%nat with (n * bs + bs)%nat by lia. apply vsum_app. }
  split; intros; simpl state_at; unfold update at 1; cbn [st_S st_Z].
  - rewrite IH1, Ea. unfold matmul, transpose. ring.
  - rewrite IH2, Ea. ring.
Qed.

(** Blocks of a sum. *)
Lemma vsum_blocks n (g : nat -> R) :
  vsum (n * bs) g = vsum n (fun c => vsum bs (fun s => g (c * bs + s)%nat)).
Proof.
  induction n as [|n IH]; [done|]. replace (S n * bs)%nat with (n * bs + bs)%nat by lia.
  rewrite vsum_app, IH. done.
Qed.

(** A rearrangement of the positions inside each block. *)
Definition block_permutes (p : nat -> nat) : Prop :=
  exists pi, (forall c, permutes bs (pi c)) /\
    forall c s, (s < bs)%nat -> p (c * bs + s)%nat = (c * bs + pi c s)%nat.

Lemma vsum_block_permute p n (g : nat -> R) :
  block_permutes p -> vsum (n * bs) (fun j => g (p j)) = vsum (n * bs) g.
Proof.
  intros (pi & Hpi & Hp). rewrite !vsum_blocks. apply vsum_ext. intros c _.
  rewrite (vsum_ext bs _ (fun s => g (c * bs + pi c s)%nat)) by (intros s Hs; by rewrite Hp).
  apply (vsum_permute bs (pi c) (fun s => g (c * bs + s)%nat)), Hpi.
Qed.

End Facts.
End Rec.

Module Linear.
Export Rec.

Section Model.
Context {R : Type} `{ScalarOps R}.
Local Open Scope sc_scope.

(** [OrderInvariantKernelLinearAttention.__init__]. *)
Record module : Type := mkLinear {
  num_heads : nat;
  head_dim : nat;
  block_size : nat;
  eps : R;
  feature_dim : nat;
  hedgehog_weights : nat -> mat R;
}.

(** [torch.eye(head_dim, feature_dim)] for every head. *)
Definition eye (d f : nat) : R := if (d =? f)%nat then s1 else s0.

Definition init (num_attention_heads hidden_size config_block_size feature_dim : nat)
    (block_size : option nat) (eps : R) : res module :=
  passert (hidden_size mod num_attention_heads =? 0)
    (Ok (mkLinear num_attention_heads (hidden_size / num_attention_heads)
           (match block_size with Some 0 | None => config_block_size | Some b => b end)
           eps feature_dim (fun _ => eye))).

Variable M : module.
#[local] Abbreviation D := (head_dim M).
#[local] Abbreviation Fd := (feature_dim M).
#[local] Abbreviation bs := (block_size M).

(** [attn[..., q, k]] as a boolean, over the batch of size [B]. *)
Definition mask_bool (B padded_L : nat) (a : attn_mask R) (b q k : nat) : bool :=
  match a with
  | BoolMask _ _ m => m b q k
  | FloatMask rows cols m =>
    let any_inf := existsb (fun b => existsb (fun q => existsb (fun k =>
      match m b q k with None => true | Some _ => false end)
      (seq 0 (Nat.min cols padded_L))) (seq 0 (Nat.min rows padded_L))) (seq 0 B) in
    match m b q k with
    | None => negb any_inf
    | Some x => if any_inf then true else negb (s_is_zero x)
    end
  end.

Definition mask_dims (a : attn_mask R) : nat * nat :=
  match a with BoolMask r c _ => (r, c) | FloatMask r c _ => (r, c) end.

(** [_infer_key_valid_from_4d_mask]: a key is valid when some query sees it. *)
Definition _infer_key_valid_from_4d_mask (B padded_L : nat) (a : attn_mask R) (b t : nat) : R :=
  let '(rows, cols) := mask_dims a in
  if t <? Nat.min cols padded_L
  then if existsb (fun q => mask_bool B padded_L a b q t) (seq 0 (Nat.min rows padded_L))
       then s1 else s0
  else s0.

(** [_feature_map] of one row. *)
Definition _feature_map (h : nat) (x : vec R) : vec R := hedgehog D Fd (hedgehog_weights M h) x.

(** [(phi_q @ S) / (phi_q @ Z).clamp_min(eps)] for row [s] of block [n]. *)
Definition readout (phi_q : mat R) (n : nat) (st : state R) : mat R := fun s d =>
  let num := vsum (2 * Fd) (fun f => phi_q (n * bs + s)%nat f * st_S st f d) in
  let den := vsum (2 * Fd) (fun f => phi_q (n * bs + s)%nat f * st_Z st f) in
  num / clamp_min den (eps M).

(** [key_valid]: the padding mask, or what the attention mask implies. *)
Definition key_valid_of (B padded_L b : nat) (attention_mask : option (attn_mask R))
    (key_padding_mask : option (nat * (nat -> nat -> R))) : option (nat -> R) :=
  match key_padding_mask, attention_mask with
  | Some (kl, kpm), _ => Some (pad_mask kl (kpm b))
  | None, Some a => Some (_infer_key_valid_from_4d_mask B padded_L a b)
  | None, None => None
  end.

(** [forward] for batch element [b] and head [h], with its final state.  The
    output of a block is read from the state after its update. *)
Definition forward (B b h L : nat) (query key value : mat R)
    (attention_mask : option (attn_mask R))
    (key_padding_mask : option (nat * (nat -> nat -> R)))
    (initial : option (state R)) : mat R * state R :=
  let num_blocks := cdiv L bs in
  let padded_L := (num_blocks * bs)%nat in
  let pad_len := (padded_L - L)%nat in
  let q := if 0 <? pad_len then pad L query else query in
  let k := if 0 <? pad_len then pad L key else key in
  let v := if 0 <? pad_len then pad L value else value in
  let phi_q := fun t => _feature_map h (q t) in
  let phi_k := fun t => _feature_map h (k t) in
  let key_valid := key_valid_of B padded_L b attention_mask key_padding_mask in
  let phi_k := match key_valid with Some kv => mask_rows kv phi_k | None => phi_k end in
  let v := match key_valid with Some kv => mask_rows kv v | None => v end in
  let phi_k := if 0 <? pad_len then mask_rows (pad_valid L) phi_k else phi_k in
  let v := if 0 <? pad_len then mask_rows (pad_valid L) v else v in
  let '(outs, st) :=
    run_blocks (fun n st => readout phi_q n (update bs phi_k v n st)) (update bs phi_k v) num_blocks
      (default zero_state initial) in
  (unblock bs outs, st).

(** [forward_bd3lm] for one batch element and head: the first half of the
    sequence is noisy, the second clean.  Returns the outputs of both halves. *)
Definition forward_bd3lm (h half_len : nat) (query key value : mat R)
    (key_padding_mask : option (nat -> R)) : mat R * mat R :=
  let num_blocks := cdiv half_len bs in
  let padded_L := (num_blocks * bs)%nat in
  let pad_len := (padded_L - half_len)%nat in
  let clean := fun (x : mat R) t => x (half_len + t)%nat in
  let blk := fun x : mat R => if 0 <? pad_len then pad half_len x else x in
  let q_noisy := blk query in
  let q_clean := blk (clean query) in
  let k_noisy := blk key in
  let k_clean := blk (clean key) in
  let v_noisy := blk value in
  let v_clean := blk (clean value) in
  let phi_q_noisy := fun t => _feature_map h (q_noisy t) in
  let phi_q_clean := fun t => _feature_map h (q_clean t) in
  let phi_k_noisy := fun t => _feature_map h (k_noisy t) in
  let phi_k_clean := fun t => _feature_map h (k_clean t) in
  let kpm := fun (valid : nat -> R) (x : mat R) =>
    match key_padding_mask with Some _ => mask_rows (pad_mask half_len valid) x | None => x end in
  let kpm_noisy := default (fun _ => s1) key_padding_mask in
  let kpm_clean := fun t => kpm_noisy (half_len + t)%nat in
  let msk := fun x : mat R => if 0 <? pad_len then mask_rows (pad_valid half_len) x else x in
  let phi_k_noisy := msk (kpm kpm_noisy phi_k_noisy) in
  let v_noisy := msk (kpm kpm_noisy v_noisy) in
  let phi_k_clean := msk (kpm kpm_clean phi_k_clean) in
  let v_clean := msk (kpm kpm_clean v_clean) in
  let '(outs, _) :=
    run_blocks (fun n st =>
        (readout phi_q_noisy n (update bs phi_k_noisy v_noisy n st),
         readout phi_q_clean n (update bs phi_k_clean v_clean n st)))
      (update bs phi_k_clean v_clean) num_blocks zero_state in
  (unblock bs (map fst outs), unblock bs (map snd outs)).

End Model.
Arguments module : clear implicits.


(** ** The recurrence in closed form *)

Section Facts.
Context {R : Type} {HO : ScalarOps R} {sle : R -> R -> Prop} {HL : ScalarLaws R sle}.
Local Open Scope sc_scope.

Add Ring linear_ring : s_ring.

Variable M : module R.
#[local] Abbreviation Fd := (feature_dim M).
#[local] Abbreviation bs := (block_size M).
Hypothesis bs_pos : (0 < bs)%nat.

(** Rows as [forward] prepares them when no mask is passed. *)
Definition prep (L : nat) (x : mat R) : mat R := if 0 <? cdiv L bs * bs - L then pad L x else x.

Definition prep_mask (L : nat) (x : mat R) : mat R :=
  if 0 <? cdiv L bs * bs - L then mask_rows (pad_valid L) x else x.

Lemma prep_row L x t : (t < L)%nat -> prep L x t = x t.
Proof.
  intros Ht. unfold prep, pad. destruct (0 <? _); [|done]. by destruct (Nat.ltb_spec t L); [|lia].
Qed.

Lemma prep_mask_in L x t d : (t < L)%nat -> prep_mask L x t d = x t d.
Proof.
  intros Ht. unfold prep_mask, mask_rows, pad_valid. destruct (0 <? _); [|done].
  destruct (Nat.ltb_spec t L); [ring|lia].
Qed.

Lemma prep_mask_out L x t d : (L <= t < cdiv L bs * bs)%nat -> prep_mask L x t d = s0.
Proof.
  intros Ht. unfold prep_mask, mask_rows, pad_valid.
  destruct (Nat.ltb_spec 0 (cdiv L bs * bs - L)); [|lia]. destruct (Nat.ltb_spec t L); [lia|ring].
Qed.

(** Padded positions contribute nothing. *)
Lemma prep_sum L n (g : nat -> R) :
  (n <= cdiv L bs * bs)%nat -> (forall j, (L <= j < cdiv L bs * bs)%nat -> g j = s0) ->
  vsum n g = vsum (Nat.min L n) g.
Proof.
  intros Hn Hz. rewrite <- (vsum_mask (Nat.min L n) n) by lia. apply vsum_ext. intros i Hi.
  destruct (Nat.ltb_spec i (Nat.min L n)); [done|]. apply Hz. lia.
Qed.

Section Forward.
Variables (B b h : nat) (q k v : mat R).
#[local] Abbreviation phi x := (fun t => _feature_map M h (x t)).

(** The linear-attention score of key [j] for query [t]. *)
Definition score (t j : nat) : R := vsum (2 * Fd) (fun f => phi q t f * phi k j f).

(** Contribution of an initial state to query [t]. *)
Definition init_num (st : state R) (t d : nat) : R :=
  vsum (2 * Fd) (fun f => phi q t f * st_S st f d).
Definition init_den (st : state R) (t : nat) : R := vsum (2 * Fd) (fun f => phi q t f * st_Z st f).

(** Block-causal attention: query [t] sees the keys of its block and before. *)
Definition visible (L t : nat) : nat := Nat.min L ((t / bs + 1) * bs).

Definition attention (L : nat) (st : state R) : mat R := fun t d =>
  (init_num st t d + vsum (visible L t) (fun j => score t j * v j d)) /
  clamp_min (init_den st t + vsum (visible L t) (fun j => score t j)) (eps M).

Lemma block_in L t : (t < L)%nat -> (t / bs < cdiv L bs)%nat.
Proof.
  intros Ht. apply Nat.Div0.div_lt_upper_bound. pose proof (cdiv_mul_ge L bs bs_pos). lia.
Qed.

Lemma linear_forward_eq L st :
  forward M B b h L q k v None None st =
  (unblock bs (fst (run_blocks
     (fun n s => readout M (phi (prep L q)) n
        (update bs (prep_mask L (phi (prep L k))) (prep_mask L (prep L v)) n s))
     (update bs (prep_mask L (phi (prep L k))) (prep_mask L (prep L v)))
     (cdiv L bs) (default zero_state st))),
   state_at (update bs (prep_mask L (phi (prep L k))) (prep_mask L (prep L v))) (cdiv L bs)
     (default zero_state st)).
Proof.
  unfold forward, key_valid_of, prep, prep_mask.
  rewrite (surjective_pairing (run_blocks _ _ _ _)).
  f_equal. by rewrite (proj1 (run_blocks_spec _ _ _ _)).
Qed.

(** The final state accumulates every token of the sequence. *)
Lemma linear_forward_state L st :
  (forall f d, st_S (snd (forward M B b h L q k v None None (Some st))) f d
     = st_S st f d + vsum L (fun j => phi k j f * v j d)) /\
  (forall f, st_Z (snd (forward M B b h L q k v None None (Some st))) f
     = st_Z st f + vsum L (fun j => phi k j f)).
Proof.
  rewrite linear_forward_eq. simpl.
  pose proof (state_closed bs (prep_mask L (phi (prep L k))) (prep_mask L (prep L v)) (cdiv L bs) st)
    as [E1 E2]. pose proof (cdiv_mul_ge L bs bs_pos).
  split; intros; [rewrite E1|rewrite E2]; f_equal.
  - rewrite (prep_sum L) by (try (intros; rewrite prep_mask_out by done; ring); lia).
    rewrite Nat.min_l by lia. apply vsum_ext. intros j Hj.
    by rewrite !prep_mask_in, !prep_row by done.
  - rewrite (prep_sum L) by (try (intros; by apply prep_mask_out); lia).
    rewrite Nat.min_l by lia. apply vsum_ext. intros j Hj. by rewrite !prep_mask_in, !prep_row by done.
Qed.

Lemma dot_state_S (phq : vec R) (S0 : mat R) m (pk vv : mat R) d :
  vsum (2 * Fd) (fun f => phq f * (S0 f d + vsum m (fun j => pk j f * vv j d))) =
  vsum (2 * Fd) (fun f => phq f * S0 f d)
  + vsum m (fun j => vsum (2 * Fd) (fun f => phq f * pk j f) * vv j d).
Proof.
  rewrite (vsum_ext _ _ (fun f => phq f * S0 f d + vsum m (fun j => phq f * (pk j f * vv j d)))).
  2: { intros f _. rewrite vsum_mul_l. ring. }
  rewrite vsum_add, vsum_swap. f_equal. apply vsum_ext. intros j _. apply matmul_assoc_row.
Qed.

Lemma dot_state_Z (phq : vec R) (Z0 : vec R) m (pk : mat R) :
  vsum (2 * Fd) (fun f => phq f * (Z0 f + vsum m (fun j => pk j f))) =
  vsum (2 * Fd) (fun f => phq f * Z0 f)
  + vsum m (fun j => vsum (2 * Fd) (fun f => phq f * pk j f)).
Proof.
  rewrite (vsum_ext _ _ (fun f => phq f * Z0 f + vsum m (fun j => phq f * pk j f))).
  2: { intros f _. rewrite vsum_mul_l. ring. }
  by rewrite vsum_add, vsum_swap.
Qed.

(** The recurrence computes block-causal attention. *)
Lemma forward_attention L st t d :
  (t < L)%nat ->
  fst (forward M B b h L q k v None None (Some st)) t d = attention L st t d.
Proof.
  intros Ht. rewrite linear_forward_eq. simpl. unfold unblock.
  destruct (run_blocks_spec
    (fun n s => readout M (phi (prep L q)) n
        (update bs (prep_mask L (phi (prep L k))) (prep_mask L (prep L v)) n s))
    (update bs (prep_mask L (phi (prep L k))) (prep_mask L (prep L v))) (cdiv L bs) st)
    as (_ & _ & Hn).
  pose proof (block_in L t Ht) as Hblk.
  rewrite (nth_lookup_Some _ _ _ _ (Hn _ Hblk)).
  change (update bs ?p ?w ?n (state_at ?u ?n st)) with (state_at u (S n) st).
  unfold readout. replace (t / bs * bs + t mod bs)%nat with t
    by (pose proof (Nat.div_mod_eq t bs); lia).
  destruct (state_closed bs (prep_mask L (phi (prep L k))) (prep_mask L (prep L v)) (S (t / bs)) st)
    as [E1 E2].
  assert (Hle : (S (t / bs) * bs <= cdiv L bs * bs)%nat) by (apply Nat.mul_le_mono_r; lia).
  assert (Hvis : Nat.min L (S (t / bs) * bs) = visible L t)
    by (unfold visible; by rewrite Nat.add_1_r).
  rewrite (vsum_ext _ _ (fun f => phi q t f *
    (st_S st f d + vsum (visible L t) (fun j => phi k j f * v j d)))).
  2: { intros f _. rewrite E1, prep_row by done. f_equal. f_equal.
       rewrite (prep_sum L) by (try (intros; rewrite prep_mask_out by done; ring); lia).
       rewrite Hvis. apply vsum_ext. intros j Hj. unfold visible in Hj.
       by rewrite !prep_mask_in, !prep_row by lia. }
  rewrite (vsum_ext (2 * Fd) (fun f => _ * st_Z _ f) (fun f => phi q t f *
    (st_Z st f + vsum (visible L t) (fun j => phi k j f)))).
  2: { intros f _. rewrite E2, prep_row by done. f_equal. f_equal.
       rewrite (prep_sum L) by (try (intros; by apply prep_mask_out); lia).
       rewrite Hvis. apply vsum_ext. intros j Hj. unfold visible in Hj.
       by rewrite !prep_mask_in, !prep_row by lia. }
  by rewrite dot_state_S, dot_state_Z.
Qed.

(** When the mask leaves no key, nothing is read. *)
Lemma forward_no_keys L a t d :
  (forall j, (j < cdiv L bs * bs)%nat -> _infer_key_valid_from_4d_mask B (cdiv L bs * bs) a b j = s0) ->
  (t < L)%nat -> fst (forward M B b h L q k v (Some a) None None) t d = s0.
Proof.
  intros Hz Ht. set (kv := _infer_key_valid_from_4d_mask B (cdiv L bs * bs) a b) in Hz.
  set (pk := prep_mask L (mask_rows kv (phi (prep L k)))).
  set (vv := prep_mask L (mask_rows kv (prep L v))).
  assert (E : fst (forward M B b h L q k v (Some a) None None) = unblock bs (fst (run_blocks
    (fun n st => readout M (phi (prep L q)) n (update bs pk vv n st)) (update bs pk vv) (cdiv L bs) zero_state))).
  { unfold forward. by rewrite (surjective_pairing (run_blocks _ _ _ _)). }
  rewrite E. unfold unblock.
  destruct (run_blocks_spec (fun n st => readout M (phi (prep L q)) n (update bs pk vv n st))
    (update bs pk vv) (cdiv L bs) zero_state) as (_ & _ & Hn).
  pose proof (block_in L t Ht) as Hblk.
  rewrite (nth_lookup_Some _ _ _ _ (Hn _ Hblk)).
  change (update bs pk vv ?n (state_at ?u ?n ?s)) with (state_at u (S n) s).
  assert (Hle : (S (t / bs) * bs <= cdiv L bs * bs)%nat) by (apply Nat.mul_le_mono_r; lia).
  assert (Hpk : forall j f, (j < cdiv L bs * bs)%nat -> pk j f = s0).
  { intros j f Hj. unfold pk, prep_mask. destruct (0 <? _); unfold mask_rows; rewrite Hz by done; ring. }
  destruct (state_closed bs pk vv (S (t / bs)) zero_state) as [E1 _].
  unfold readout. rewrite (vsum_ext (2 * Fd) (fun f => _ * st_S _ f d) (fun _ => s0)).
  { rewrite vsum_0, sdiv_mul. ring. }
  intros f _. rewrite E1, (vsum_ext _ _ (fun _ => s0)) by (intros j Hj; rewrite Hpk by lia; ring).
  rewrite vsum_0. simpl. ring.
Qed.

End Forward.

End Facts.

Section Properties.
Context {R : Type} {HO : ScalarOps R} {sle : R -> R -> Prop} {HL : ScalarLaws R sle}.
Local Open Scope sc_scope.
Add Ring linear_ring' : s_ring.
Variable M : module R.

(** C15. The recurrent computation of [forward] is block-causal linear
    attention: the output at position [t] is the average of the values at the
    positions up to the end of [t]'s block, weighted by the inner products of
    the feature maps of query and key, with the normaliser clamped at [eps].  It is the
    call without masks and without an initial state. *)
Theorem linear_block_causal (B b h L : nat) (q k v : mat R) (t d : nat) :
  (0 < block_size M)%nat -> (t < L)%nat ->
  fst (forward M B b h L q k v None None None) t d =
    vsum (visible M L t) (fun j => score M h q k t j * v j d) /
    clamp_min (vsum (visible M L t) (fun j => score M h q k t j)) (eps M).
Proof.
  intros Hb Ht.
  change (forward M B b h L q k v None None None)
    with (forward M B b h L q k v None None (Some zero_state)).
  rewrite forward_attention by done. unfold attention, init_num, init_den. simpl.
  rewrite (vsum_ext (feature_dim M + (feature_dim M + 0)) (fun f => _ * s0) (fun _ => s0))
    by (intros; ring).
  rewrite vsum_0. f_equal; [ring|]. f_equal. ring.
Qed.

(** Caching the state is exact: running [forward] on a prefix of whole
    blocks and then, from the state it returned, on the rest of the sequence
    gives the outputs and the final state of one run over the whole sequence. *)
Lemma linear_resume (B b h m L : nat) (q k v : mat R) (st : state R) :
  (0 < block_size M)%nat ->
  let n := (m * block_size M)%nat in
  let later := fun (x : mat R) t => x (n + t)%nat in
  let first := forward M B b h n q k v None None (Some st) in
  let second := forward M B b h L (later q) (later k) (later v) None None (Some (snd first)) in
  let whole := forward M B b h (n + L) q k v None None (Some st) in
  (forall t d, (t < n)%nat -> fst whole t d = fst first t d) /\
  (forall t d, (t < L)%nat -> fst whole (n + t)%nat d = fst second t d) /\
  (forall f d, st_S (snd whole) f d = st_S (snd second) f d) /\
  (forall f, st_Z (snd whole) f = st_Z (snd second) f).
Proof.
  intros Hb n later first second whole.
  destruct (linear_forward_state M Hb B b h q k v n st) as [F1 F2]. fold first in F1, F2.
  destruct (linear_forward_state M Hb B b h q k v (n + L) st) as [W1 W2]. fold whole in W1, W2.
  destruct (linear_forward_state M Hb B b h (later q) (later k) (later v) L (snd first)) as [G1 G2].
  fold second in G1, G2. split; [|split; [|split]].
  - intros t d Ht. unfold whole, first. rewrite !forward_attention by (done || lia).
    unfold attention. assert (E : visible M (n + L) t = visible M n t).
    { unfold visible, n in *. assert ((t / block_size M + 1) * block_size M <= m * block_size M)%nat;
        [|lia]. apply Nat.mul_le_mono_r. apply Nat.le_succ_l in Ht.
      assert (t / block_size M < m)%nat by (apply Nat.Div0.div_lt_upper_bound; lia). lia. }
    by rewrite E.
  - intros t d Ht. unfold whole, second. rewrite !forward_attention by (done || lia).
    unfold attention. assert (E : visible M (n + L) (n + t) = (n + visible M L t)%nat).
    { unfold visible, n. rewrite Nat.add_comm, (Nat.add_comm _ t), Nat.div_add by lia. lia. }
    rewrite E, !vsum_app. unfold init_num, init_den.
    rewrite (vsum_ext _ (fun f => _ * st_S (snd first) f d) (fun f => _feature_map M h (q (n + t)%nat) f *
      (st_S st f d + vsum n (fun j => _feature_map M h (k j) f * v j d))))
      by (intros f _; by rewrite F1).
    rewrite (vsum_ext _ (fun f => _ * st_Z (snd first) f) (fun f => _feature_map M h (q (n + t)%nat) f *
      (st_Z st f + vsum n (fun j => _feature_map M h (k j) f)))) by (intros f _; by rewrite F2).
    rewrite (dot_state_S M), (dot_state_Z M). unfold score, later. cbn beta.
    f_equal; [ring|]. f_equal. ring.
  - intros f d. rewrite W1, G1, F1, vsum_app. unfold later. ring.
  - intros f. rewrite W2, G2, F2, vsum_app. unfold later. ring.
Qed.

(** Rearranging the keys and values inside each block, the same way for
    both, changes neither the outputs nor the final state. *)
Lemma linear_order_invariant (B b h m : nat) (q k v : mat R) (st : state R) (p : nat -> nat) :
  (0 < block_size M)%nat -> block_permutes (block_size M) p ->
  let L := (m * block_size M)%nat in
  let moved := forward M B b h L q (fun j => k (p j)) (fun j => v (p j)) None None (Some st) in
  let plain := forward M B b h L q k v None None (Some st) in
  (forall t d, (t < L)%nat -> fst moved t d = fst plain t d) /\
  (forall f d, st_S (snd moved) f d = st_S (snd plain) f d) /\
  (forall f, st_Z (snd moved) f = st_Z (snd plain) f).
Proof.
  intros Hb Hp L moved plain.
  destruct (linear_forward_state M Hb B b h q (fun j => k (p j)) (fun j => v (p j)) L st) as [P1 P2].
  destruct (linear_forward_state M Hb B b h q k v L st) as [Q1 Q2].
  fold moved in P1, P2. fold plain in Q1, Q2. split; [|split].
  - intros t d Ht. unfold moved, plain. rewrite !forward_attention by done. unfold attention.
    assert (E : visible M L t = ((t / block_size M + 1) * block_size M)%nat).
    { unfold visible, L. apply Nat.min_r, Nat.mul_le_mono_r.
      assert (t / block_size M < m)%nat by (apply Nat.Div0.div_lt_upper_bound; unfold L in Ht; lia).
      lia. }
    rewrite E. unfold score.
    rewrite (vsum_block_permute (block_size M) p _ (fun j => vsum (2 * feature_dim M) (fun f =>
      _feature_map M h (q t) f * _feature_map M h (k j) f) * v j d) Hp).
    by rewrite (vsum_block_permute (block_size M) p _ (fun j => vsum (2 * feature_dim M) (fun f =>
      _feature_map M h (q t) f * _feature_map M h (k j) f)) Hp).
  - intros f d. rewrite P1, Q1. f_equal.
    apply (vsum_block_permute (block_size M) p m (fun j => _feature_map M h (k j) f * v j d) Hp).
  - intros f. rewrite P2, Q2. f_equal.
    apply (vsum_block_permute (block_size M) p m (fun j => _feature_map M h (k j) f) Hp).
Qed.

End Properties.

(** ** A concrete module over the real numbers *)

Module Example_.
Export Tensor.Reals.

(** Two positions per block, one feature, identity projection. *)
Definition demo : module R := mkLinear 1 1 2 (/ 10)%R 1 (fun _ => eye).
Definition demo_q : mat R := fun t _ => INR t.
Definition demo_k : mat R := fun t _ => (INR t - 1)%R.
Definition demo_v : mat R := fun t d => INR (t + d).

(** Swaps the two positions of every block. *)
Definition swap2 (j : nat) : nat := j / 2 * 2 + (1 - j mod 2).

Lemma swap2_blocks : block_permutes (block_size demo) swap2.
Proof.
  exists (fun _ s => 1 - s). split.
  - intros _. unfold permutes. simpl. constructor.
  - intros c s Hs. simpl in *. unfold swap2.
    rewrite Nat.div_add_l, (Nat.div_small s 2), Nat.add_0_r by lia.
    rewrite (Nat.add_comm (c * 2) s), Nat.Div0.mod_add, (Nat.mod_small s 2) by lia. done.
Qed.

End Example_.
Import Example_.

Lemma linear_block_causal_witness :
  fst (forward demo 1 0 0 3 demo_q demo_k demo_v None None None) 1 0 =
    (vsum (visible demo 3 1) (fun j => score demo 0 demo_q demo_k 1 j * demo_v j 0%nat) /
     clamp_min (vsum (visible demo 3 1) (fun j => score demo 0 demo_q demo_k 1 j)) (eps demo))%sc.
Proof. apply (linear_block_causal demo 1 0 0 3 demo_q demo_k demo_v 1 0); simpl; lia. Defined.

Lemma linear_resume_witness :
  fst (forward demo 1 0 0 5 demo_q demo_k demo_v None None (Some zero_state)) 4 0 =
  fst (forward demo 1 0 0 3 (fun t => demo_q (2 + t)%nat) (fun t => demo_k (2 + t)%nat)
         (fun t => demo_v (2 + t)%nat) None None
         (Some (snd (forward demo 1 0 0 2 demo_q demo_k demo_v None None (Some zero_state))))) 2 0.
Proof.
  apply (linear_resume demo 1 0 0 1 3 demo_q demo_k demo_v zero_state) with (t := 2) (d := 0);
    simpl; lia.
Defined.

Lemma linear_order_invariant_witness :
  fst (forward demo 1 0 0 4 demo_q (fun j => demo_k (swap2 j)) (fun j => demo_v (swap2 j))
         None None (Some zero_state)) 3 0 =
  fst (forward demo 1 0 0 4 demo_q demo_k demo_v None None (Some zero_state)) 3 0.
Proof.
  apply (linear_order_invariant demo 1 0 0 2 demo_q demo_k demo_v zero_state swap2);
    [simpl; lia|exact swap2_blocks|simpl; lia].
Defined.

End Linear.
