(* ===== verification/HybridAttention.v ===== *)
(** [BlockSoftmaxLinearHybrid] of [llada_hybrid/hybrid_attention.py]: softmax
    attention inside the current block and linear attention over the blocks
    before it, mixed under one normaliser, with the training variant
    [forward_bd3lm].

    The theorems show what each position sees: the linear stream of block [n] is
    exactly the contribution of the positions before the block, a run may be cut
    at any block boundary and resumed from the returned state, and the clean half
    of [forward_bd3lm] is the plain [forward] of the clean tokens. *)
From stdpp Require Import base list.
From Stdlib Require Import ZArith QArith Reals Lra Lia Ring.
From S2P Require Import Prelude.
From S2P Require Import Tensor.
From S2P Require Import LinearAttention.
Local Open Scope nat_scope.

Module Hybrid.
Import Rec.

Section Model.
Context {R : Type} `{ScalarOps R}.
Local Open Scope sc_scope.

(** Attributes set by [BlockSoftmaxLinearHybrid.__init__]. *)
Record module : Type := mkHybrid {
  num_heads : nat;
  num_kv_heads : nat;
  head_dim : nat;
  block_size : nat;
  feature_dim : nat;
  eps : R;
  scaling : R;
  share_kv_groups : bool;
  num_kv_groups : nat;
  hedgehog_weights : nat -> mat R;
  alpha : nat -> R;
}.

Definition smin (a b : R) : R := - smax (- a) (- b).

(** The initial projection: the identity, with the rows beyond [F] filled with
    small noise ([randn] is the random tensor) when [D > F]. *)
Definition init_weight (D F : nat) (randn : nat -> mat R) (h : nat) : mat R := fun d f =>
  if F <? D
  then if d <? F then (if (d =? f)%nat then s1 else s0)
       else smin (s_of_Q (2 # 100)) (sinvsqrt D) * randn h (d - F)%nat f
  else if (d =? f)%nat then s1 else s0.

Definition init (heads kv_heads D config_block_size F : nat) (share : bool)
    (block_size : option nat) (randn : nat -> mat R) : res module :=
  let m := fun groups =>
    mkHybrid heads kv_heads D
      (match block_size with Some 0%nat | None => config_block_size | Some b => b end)
      F (s_of_Q (1 # 1000000)) (sinvsqrt D) share groups (init_weight D F randn) (fun _ => s0) in
  if share then passert (heads mod kv_heads =? 0) (Ok (m (heads / kv_heads)%nat)) else Ok (m 1%nat).

Variable M : module.
#[local] Abbreviation D := (head_dim M).
#[local] Abbreviation Fd := (feature_dim M).
#[local] Abbreviation bs := (block_size M).

(** [_feature_map] of one row of head [h]: with shared weights the head uses the
    projection of its group. *)
Definition _feature_map (h : nat) (x : vec R) : vec R :=
  let W := if share_kv_groups M then hedgehog_weights M (h / num_kv_groups M)
           else hedgehog_weights M h in
  hedgehog D Fd W x.

(** [_block_out]: row [s] of the output of one block of [bs] rows, from the
    state of the blocks before it. *)
Definition _block_out (q_n k_n v_n phi_q_n : mat R) (st : state R) (w : R)
    (kv_mask_n : option (nat -> R)) : mat R := fun s d =>
  let lin_num := vsum (2 * Fd) (fun f => phi_q_n s f * st_S st f d) in
  let lin_den := clamp_min (vsum (2 * Fd) (fun f => phi_q_n s f * st_Z st f)) (eps M) in
  let scores := fun j => vsum D (fun e => q_n s e * k_n j e) * scaling M in
  let scores := match kv_mask_n with
                | Some m => fun j => if s_is_zero (m j) then sfmin else scores j
                | None => scores
                end in
  let scores_max := vmax bs scores in
  let a_sm := fun j => sexp (scores j - scores_max) in
  let sm_num := vsum bs (fun j => a_sm j * v_n j d) in
  let sm_den := clamp_min (vsum bs a_sm) (eps M) in
  (w * sm_num + lin_num) / clamp_min (w * sm_den + lin_den) (eps M).

(** Rows of block [n]. *)
Definition rows (n : nat) (x : mat R) : mat R := fun s => x (n * bs + s)%nat.

(** [forward] for one batch element and head; the key padding mask, when given,
    comes with its length.  The output of a block is computed before the state
    is updated with it. *)
Definition forward (h L : nat) (query key value : mat R)
    (key_padding_mask : option (nat * (nat -> R))) (initial : option (state R))
    : mat R * state R :=
  let num_blocks := cdiv L bs in
  let padded_L := (num_blocks * bs)%nat in
  let pad_len := (padded_L - L)%nat in
  let q := if 0 <? pad_len then pad L query else query in
  let k := if 0 <? pad_len then pad L key else key in
  let v := if 0 <? pad_len then pad L value else value in
  let key_valid := match key_padding_mask with
                   | Some (kl, kpm) => Some (pad_mask kl kpm)
                   | None => if 0 <? pad_len then Some (pad_valid L) else None
                   end in
  let phi_q := fun t => _feature_map h (q t) in
  let phi_k := fun t => _feature_map h (k t) in
  let phi_k := match key_valid with Some kv => mask_rows kv phi_k | None => phi_k end in
  let v := match key_valid with Some kv => mask_rows kv v | None => v end in
  let w := sigmoid (alpha M h) in
  let '(outs, st) :=
    run_blocks (fun n st =>
        _block_out (rows n q) (rows n k) (rows n v) (rows n phi_q) st w
          ((fun (kv : nat -> R) s => kv (n * bs + s)%nat) <$> key_valid))
      (update bs phi_k v) num_blocks (default zero_state initial) in
  (unblock bs outs, st).

(** [forward_bd3lm] for one batch element and head: both halves read the state
    of the clean blocks before block [n]; only clean blocks enter the state. *)
Definition forward_bd3lm (h half_len : nat) (query key value : mat R)
    (key_padding_mask : option (nat -> R)) : mat R * mat R :=
  let num_blocks := cdiv half_len bs in
  let padded_L := (num_blocks * bs)%nat in
  let pad_len := (padded_L - half_len)%nat in
  let clean := fun (x : mat R) t => x (half_len + t)%nat in
  let blk := fun x : mat R => if 0 <? pad_len then pad half_len x else x in
  let q_noisy := blk query in
  let q_clean := blk (clean query) in
  let k_noisy := blk key in
  let k_clean := blk (clean key) in
  let v_noisy := blk value in
  let v_clean := blk (clean value) in
  let phi_q_noisy := fun t => _feature_map h (q_noisy t) in
  let phi_q_clean := fun t => _feature_map h (q_clean t) in
  let phi_k_clean := fun t => _feature_map h (k_clean t) in
  let kv_noisy := match key_padding_mask with
                  | Some kpm => Some (pad_mask half_len kpm)
                  | None => if 0 <? pad_len then Some (pad_valid half_len) else None
                  end in
  let kv_clean := match key_padding_mask with
                  | Some kpm => Some (pad_mask half_len (fun t => kpm (half_len + t)%nat))
                  | None => if 0 <? pad_len then Some (pad_valid half_len) else None
                  end in
  let v_noisy := match kv_noisy with Some kv => mask_rows kv v_noisy | None => v_noisy end in
  let phi_k_clean := match kv_clean with Some kv => mask_rows kv phi_k_clean
                     | None => phi_k_clean end in
  let v_clean := match kv_clean with Some kv => mask_rows kv v_clean | None => v_clean end in
  let w := sigmoid (alpha M h) in
  let at_n := fun n (kv : option (nat -> R)) =>
    (fun (kv : nat -> R) s => kv (n * bs + s)%nat) <$> kv in
  let '(outs, _) :=
    run_blocks (fun n st =>
        (_block_out (rows n q_noisy) (rows n k_noisy) (rows n v_noisy) (rows n phi_q_noisy) st w
           (at_n n kv_noisy),
         _block_out (rows n q_clean) (rows n k_clean) (rows n v_clean) (rows n phi_q_clean) st w
           (at_n n kv_clean)))
      (update bs phi_k_clean v_clean) num_blocks zero_state in
  (unblock bs (map fst outs), unblock bs (map snd outs)).

End Model.
Arguments module : clear implicits.

(** ** What a block sees *)

Section Facts.
Context {R : Type} {HO : ScalarOps R} {sle : R -> R -> Prop} {HL : ScalarLaws R sle}.
Local Open Scope sc_scope.

Add Ring hybrid_ring : s_ring.

Variable M : module R.
#[local] Abbreviation D := (head_dim M).
#[local] Abbreviation Fd := (feature_dim M).
#[local] Abbreviation bs := (block_size M).

(** Two masks that agree on some positions. *)
Definition same_mask (P : nat -> Prop) (m m' : option (nat -> R)) : Prop :=
  match m, m' with
  | None, None => True
  | Some a, Some b => forall t, P t -> a t = b t
  | _, _ => False
  end.

(** [_block_out] depends on its inputs and its mask only through the rows of the
    block, and on the state only through its entries. *)
Lemma block_out_mask (q k v ph q' k' v' ph' : mat R) st st' w m m' s d :
  (s < bs)%nat ->
  (forall j e, (j < bs)%nat -> q j e = q' j e) -> (forall j e, (j < bs)%nat -> k j e = k' j e) ->
  (forall j e, (j < bs)%nat -> v j e = v' j e) -> (forall j f, (j < bs)%nat -> ph j f = ph' j f) ->
  (forall f, (f < 2 * Fd)%nat -> st_S st f d = st_S st' f d) ->
  (forall f, (f < 2 * Fd)%nat -> st_Z st f = st_Z st' f) -> same_mask (fun j => (j < bs)%nat) m m' ->
  _block_out M q k v ph st w m s d = _block_out M q' k' v' ph' st' w m' s d.
Proof.
  intros Hs Eq Ek Ev Ep ES EZ Em. unfold _block_out.
  set (sc := match m with Some _ => _ | None => _ end). set (sc' := match m' with Some _ => _ | None => _ end).
  assert (Esc : forall j, (j < bs)%nat -> sc j = sc' j).
  { intros j Hj. subst sc sc'.
    assert (Hd : vsum D (fun e => q s e * k j e) * scaling M = vsum D (fun e => q' s e * k' j e) * scaling M)
      by (f_equal; apply vsum_ext; intros e _; by rewrite Eq, Ek).
    destruct m as [a|], m' as [b|]; simpl in Em; try done. by rewrite (Em j Hj), Hd. }
  rewrite (vmax_ext bs sc sc') by exact Esc.
  f_equal; [f_equal|f_equal; f_equal].
  - f_equal. apply vsum_ext. intros j Hj. by rewrite Esc, Ev.
  - apply vsum_ext. intros f Hf. by rewrite Ep, ES.
  - f_equal. unfold clamp_min. f_equal. apply vsum_ext. intros j Hj. by rewrite Esc.
  - unfold clamp_min. f_equal. apply vsum_ext. intros f Hf. by rewrite Ep, EZ.
Qed.

Lemma block_out_ext (q k v ph q' k' v' ph' : mat R) st st' w s d :
  (s < bs)%nat ->
  (forall j e, (j < bs)%nat -> q j e = q' j e) -> (forall j e, (j < bs)%nat -> k j e = k' j e) ->
  (forall j e, (j < bs)%nat -> v j e = v' j e) -> (forall j f, (j < bs)%nat -> ph j f = ph' j f) ->
  (forall f, (f < 2 * Fd)%nat -> st_S st f d = st_S st' f d) ->
  (forall f, (f < 2 * Fd)%nat -> st_Z st f = st_Z st' f) ->
  _block_out M q k v ph st w None s d = _block_out M q' k' v' ph' st' w None s d.
Proof. intros. by apply block_out_mask. Qed.

Lemma fst_out (x : list (mat R) * state R) :
  fst (let '(outs, st) := x in (unblock bs outs, st)) = unblock bs (fst x).
Proof. by destruct x. Qed.

Lemma fst_halves (x : list (mat R * mat R) * state R) :
  fst (let '(outs, _) := x in (unblock bs (map fst outs), unblock bs (map snd outs)))
  = unblock bs (map fst (fst x)).
Proof. by destruct x. Qed.

Lemma snd_halves (x : list (mat R * mat R) * state R) :
  snd (let '(outs, _) := x in (unblock bs (map fst outs), unblock bs (map snd outs)))
  = unblock bs (map snd (fst x)).
Proof. by destruct x. Qed.

Hypothesis bs_pos : (0 < bs)%nat.

Section Forward.
Variables (h m : nat) (q k v : mat R).
#[local] Abbreviation phi x := (fun t => _feature_map M h (x t)).
#[local] Abbreviation upd := (update bs (phi k) v).

Lemma full_blocks : cdiv (m * bs) bs = m.
Proof.
  unfold cdiv. replace (m * bs + bs - 1)%nat with (m * bs + (bs - 1))%nat by lia.
  rewrite Nat.div_add_l, Nat.div_small by lia. lia.
Qed.

(** On whole blocks, [forward] is the bare recurrence. *)
Lemma forward_eq st :
  forward M h (m * bs) q k v None st =
  (unblock bs (fst (run_blocks (fun n s =>
      _block_out M (rows M n q) (rows M n k) (rows M n v) (rows M n (phi q)) s
        (sigmoid (alpha M h)) None) upd m (default zero_state st))),
   state_at upd m (default zero_state st)).
Proof.
  unfold forward. rewrite full_blocks, Nat.sub_diag. change (0 <? 0) with false. cbv iota.
  rewrite (surjective_pairing (run_blocks _ _ _ _)).
  f_equal. by rewrite (proj1 (run_blocks_spec _ _ _ _)).
Qed.

(** The output at position [t]: its block, and the state before the block. *)
Lemma forward_out st t d :
  (t < m * bs)%nat ->
  fst (forward M h (m * bs) q k v None (Some st)) t d =
  _block_out M (rows M (t / bs) q) (rows M (t / bs) k) (rows M (t / bs) v)
    (rows M (t / bs) (phi q)) (state_at upd (t / bs) st) (sigmoid (alpha M h)) None (t mod bs) d.
Proof.
  intros Ht. rewrite forward_eq. simpl. unfold unblock.
  destruct (run_blocks_spec (fun n s =>
      _block_out M (rows M n q) (rows M n k) (rows M n v) (rows M n (phi q)) s
        (sigmoid (alpha M h)) None) upd m st) as (_ & _ & Hn).
  assert (Hb : (t / bs < m)%nat) by (apply Nat.Div0.div_lt_upper_bound; lia).
  by rewrite (nth_lookup_Some _ _ _ _ (Hn _ Hb)).
Qed.

Lemma forward_state st :
  (forall f d, st_S (snd (forward M h (m * bs) q k v None (Some st))) f d
     = st_S st f d + vsum (m * bs) (fun j => phi k j f * v j d)) /\
  (forall f, st_Z (snd (forward M h (m * bs) q k v None (Some st))) f
     = st_Z st f + vsum (m * bs) (fun j => phi k j f)).
Proof. rewrite forward_eq. apply (state_closed bs (phi k) v m st). Qed.

End Forward.

(** States of a suffix, continued from the state of the prefix. *)
Lemma state_at_later (pk vv : mat R) m n st :
  (forall f d, st_S (state_at (update bs pk vv) (m + n) st) f d
     = st_S (state_at (update bs (fun t => pk (m * bs + t)%nat) (fun t => vv (m * bs + t)%nat)) n
               (state_at (update bs pk vv) m st)) f d) /\
  (forall f, st_Z (state_at (update bs pk vv) (m + n) st) f
     = st_Z (state_at (update bs (fun t => pk (m * bs + t)%nat) (fun t => vv (m * bs + t)%nat)) n
               (state_at (update bs pk vv) m st)) f).
Proof.
  destruct (state_closed bs pk vv (m + n) st) as [A1 A2].
  destruct (state_closed bs pk vv m st) as [B1 B2].
  destruct (state_closed bs (fun t => pk (m * bs + t)%nat) (fun t => vv (m * bs + t)%nat) n
              (state_at (update bs pk vv) m st)) as [C1 C2].
  split; intros; [rewrite A1, C1, B1|rewrite A2, C2, B2];
    rewrite Nat.mul_add_distr_r, vsum_app; ring.
Qed.

End Facts.

Section Properties.
Context {R : Type} {HO : ScalarOps R} {sle : R -> R -> Prop} {HL : ScalarLaws R sle}.
Local Open Scope sc_scope.
Add Ring hybrid_ring' : s_ring.
Variable M : module R.
#[local] Abbreviation Fd := (feature_dim M).
#[local] Abbreviation bs := (block_size M).

(** What a position attends to: the output at position [t] is the softmax
    attention of its own block and the linear attention over the positions
    before the block, which enters with the weights [phi(q_t) . phi(k_j)] and
    nothing else of the sequence; the two are mixed with the head's gate under
    one normaliser. *)
Lemma hybrid_block_out (h m : nat) (q k v : mat R) (t d : nat) :
  (0 < bs)%nat -> (t < m * bs)%nat ->
  let n := (t / bs)%nat in
  let phi := fun (x : mat R) j => _feature_map M h (x j) in
  let score := fun j => vsum (2 * Fd) (fun f => phi q t f * phi k j f) in
  let lin_num := vsum (n * bs) (fun j => score j * v j d) in
  let lin_den := clamp_min (vsum (n * bs) score) (eps M) in
  let e := fun j => sexp (vsum (head_dim M) (fun i => q t i * k (n * bs + j)%nat i) * scaling M
             - vmax bs (fun j => vsum (head_dim M) (fun i => q t i * k (n * bs + j)%nat i) * scaling M)) in
  let w := sigmoid (alpha M h) in
  fst (forward M h (m * bs) q k v None None) t d =
    (w * vsum bs (fun j => e j * v (n * bs + j)%nat d) + lin_num) /
    clamp_min (w * clamp_min (vsum bs e) (eps M) + lin_den) (eps M).
Proof.
  intros Hb Ht n phi score lin_num lin_den e w.
  change (forward M h (m * bs) q k v None None)
    with (forward M h (m * bs) q k v None (Some zero_state)).
  rewrite forward_out by done. fold n. unfold _block_out, rows.
  replace (n * bs + t mod bs)%nat with t by (unfold n; pose proof (Nat.div_mod_eq t bs); lia).
  destruct (state_closed bs (fun j => _feature_map M h (k j)) v n zero_state) as [E1 E2].
  assert (L1 : vsum (2 * Fd) (fun f => _feature_map M h (q t) f *
      st_S (state_at (update bs (fun j => _feature_map M h (k j)) v) n zero_state) f d) = lin_num).
  { rewrite (vsum_ext _ _ (fun f => phi q t f * (s0 + vsum (n * bs) (fun j => phi k j f * v j d))))
      by (intros f _; by rewrite E1).
    rewrite (vsum_ext _ _ (fun f => vsum (n * bs) (fun j => phi q t f * (phi k j f * v j d))))
      by (intros f _; rewrite vsum_mul_l; ring).
    rewrite vsum_swap. apply vsum_ext. intros j _. apply matmul_assoc_row. }
  assert (L2 : vsum (2 * Fd) (fun f => _feature_map M h (q t) f *
      st_Z (state_at (update bs (fun j => _feature_map M h (k j)) v) n zero_state) f)
      = vsum (n * bs) score).
  { rewrite (vsum_ext _ _ (fun f => phi q t f * (s0 + vsum (n * bs) (fun j => phi k j f))))
      by (intros f _; by rewrite E2).
    rewrite (vsum_ext _ _ (fun f => vsum (n * bs) (fun j => phi q t f * phi k j f)))
      by (intros f _; rewrite vsum_mul_l; ring).
    apply vsum_swap. }
  rewrite L1, L2. done.
Qed.

(** Caching the state is exact for the hybrid module too: the outputs and the
    final state of a run over whole blocks are those of a run over the first [m]
    blocks followed by a run over the remaining [n] from the returned state. *)
Lemma hybrid_resume (h m n : nat) (q k v : mat R) (st : state R) :
  (0 < bs)%nat ->
  let later := fun (x : mat R) t => x (m * bs + t)%nat in
  let first := forward M h (m * bs) q k v None (Some st) in
  let second := forward M h (n * bs) (later q) (later k) (later v) None (Some (snd first)) in
  let whole := forward M h ((m + n) * bs) q k v None (Some st) in
  (forall t d, (t < m * bs)%nat -> fst whole t d = fst first t d) /\
  (forall t d, (t < n * bs)%nat -> fst whole (m * bs + t)%nat d = fst second t d) /\
  (forall f d, st_S (snd whole) f d = st_S (snd second) f d) /\
  (forall f, st_Z (snd whole) f = st_Z (snd second) f).
Proof.
  intros Hb later first second whole. unfold whole, second, first.
  split; [|split; [|split]].
  - intros t d Ht. rewrite !forward_out by (try done; nia). done.
  - intros t d Ht. rewrite (forward_out M Hb h (m + n)) by (nia).
    rewrite (forward_out M Hb h n) by done.
    assert (Ed : ((m * bs + t) / bs = m + t / bs)%nat) by (by rewrite Nat.div_add_l by lia).
    assert (Em : ((m * bs + t) mod bs = t mod bs)%nat)
      by (by rewrite Nat.add_comm, Nat.Div0.mod_add).
    rewrite Ed, Em. rewrite (forward_eq M Hb h m). simpl.
    destruct (state_at_later M (fun j => _feature_map M h (k j)) v m (t / bs) st) as [S1 S2].
    assert (Er : forall s, (((m + t / bs) * bs + s) = (m * bs + (t / bs * bs + s)))%nat) by lia.
    apply block_out_ext; [by apply Nat.mod_upper_bound; lia| | | | |by intros f _|by intros f _];
      intros j e _; unfold rows, later; by rewrite Er.
  - intros f d. rewrite !(forward_eq M Hb h). apply (state_at_later M).
  - intros f. rewrite !(forward_eq M Hb h). apply (state_at_later M).
Qed.

(** The clean half of [forward_bd3lm] is [forward] of the clean tokens alone:
    no clean output depends on a noisy token. *)
Lemma bd3lm_clean_half (h L : nat) (q k v : mat R) (kpm : option (nat -> R)) (t d : nat) :
  let clean := fun (x : mat R) t => x (L + t)%nat in
  snd (forward_bd3lm M h L q k v kpm) t d =
  fst (forward M h L (clean q) (clean k) (clean v)
         ((fun m : nat -> R => (L, fun t => m (L + t)%nat)) <$> kpm) None) t d.
Proof.
  intros clean. unfold forward_bd3lm, forward. rewrite snd_halves, fst_out, run_blocks_map.
  unfold run_blocks. cbn [snd]. by destruct kpm; cbn; try destruct (cdiv L bs * bs - L)%nat.
Qed.

(** A row of a half, padded when there is a tail. *)
Lemma blk_row (b : bool) L (x x' : mat R) t :
  ((L <= t)%nat -> b = true) -> ((t < L)%nat -> x t = x' t) ->
  (if b then pad L x else x) t = (if b then pad L x' else x') t.
Proof.
  intros Hb He. destruct b.
  - unfold pad. destruct (Nat.ltb_spec t L) as [H|H]; [by rewrite He|done].
  - apply He. destruct (Nat.lt_ge_cases t L) as [H|H]; [done|]. by specialize (Hb H).
Qed.

(** The validity mask of a half that starts at [o]. *)
Definition half_valid (b : bool) (L o : nat) (m : option (nat -> R)) : option (nat -> R) :=
  match m with
  | Some a => Some (pad_mask L (fun t => a (o + t)%nat))
  | None => if b then Some (pad_valid L) else None
  end.

Lemma half_mask (b : bool) L o (P Q : nat -> Prop) (m m' : option (nat -> R)) :
  same_mask Q m m' -> (forall j, P j -> (j < L)%nat -> Q (o + j)%nat) ->
  same_mask P (half_valid b L o m) (half_valid b L o m').
Proof.
  intros Hm HQ. unfold half_valid, same_mask in *. destruct m as [a|], m' as [a'|]; try done.
  - intros t Ht. unfold pad_mask. destruct (Nat.ltb_spec t L); [|done]. apply Hm. by apply HQ.
  - by destruct b.
Qed.

Lemma masked_row P m m' (x x' : mat R) t :
  same_mask P m m' -> P t -> x t = x' t -> forall e,
  match m with Some kv => mask_rows kv x | None => x end t e =
  match m' with Some kv => mask_rows kv x' | None => x' end t e.
Proof.
  intros Hm Ht E e. destruct m as [a|], m' as [a'|]; simpl in Hm; try done; unfold mask_rows; [|by rewrite E].
  by rewrite E, (Hm t Ht).
Qed.

(** The state of the blocks before block [n] of a half. *)
Lemma half_state (n : nat) (m m' : option (nat -> R)) (ph v ph' v' : mat R) :
  same_mask (fun i => (i < n * bs)%nat) m m' -> (forall j, (j < n * bs)%nat -> ph j = ph' j /\ v j = v' j) ->
  let st := fun (m : option (nat -> R)) (ph v : mat R) =>
    state_at (update bs (match m with Some kv => mask_rows kv ph | None => ph end)
                        (match m with Some kv => mask_rows kv v | None => v end)) n zero_state in
  (forall f d, st_S (st m ph v) f d = st_S (st m' ph' v') f d) /\ (forall f, st_Z (st m ph v) f = st_Z (st m' ph' v') f).
Proof.
  intros Hm He st. unfold st. split.
  - intros f d. rewrite !(proj1 (state_closed bs _ _ n zero_state)). f_equal.
    apply vsum_ext. intros j Hj. destruct (He j Hj). f_equal; by eapply (masked_row _ _ _ _ _ _ Hm).
  - intros f. rewrite !(proj2 (state_closed bs _ _ n zero_state)). f_equal.
    apply vsum_ext. intros j Hj. destruct (He j Hj). by eapply (masked_row _ _ _ _ _ _ Hm).
Qed.

(** C21. [forward_bd3lm] does not leak the answer, for any length of the halves, with
    or without a key padding mask: the noisy outputs of a block are determined by the
    noisy tokens of that block, by the clean keys and values of the blocks before it,
    and by the mask at these positions.  Changing anything else, the clean copy of the
    block itself included, does not change them. *)
Theorem bd3lm_no_leak (h L : nat) (q k v q' k' v' : mat R) (kpm kpm' : option (nat -> R)) (t d : nat) :
  (0 < bs)%nat -> (t < L)%nat ->
  let n := (t / bs)%nat in
  let noisy := fun i => (n * bs <= i < (n + 1) * bs /\ i < L)%nat in
  let clean := fun i => (L <= i < L + n * bs)%nat in
  (forall i, noisy i -> q i = q' i /\ k i = k' i /\ v i = v' i) ->
  (forall i, clean i -> k i = k' i /\ v i = v' i) ->
  same_mask (fun i => noisy i \/ clean i) kpm kpm' ->
  fst (forward_bd3lm M h L q k v kpm) t d = fst (forward_bd3lm M h L q' k' v' kpm') t d.
Proof.
  intros Hb Ht n noisy clean En Ec Em. unfold forward_bd3lm. rewrite !fst_halves. unfold unblock. fold n.
  pose proof (Nat.div_mod_eq t bs) as Hdm. pose proof (Nat.mod_upper_bound t bs ltac:(lia)) as Hmod. fold n in Hdm.
  pose proof (cdiv_mul_ge L bs Hb) as Hge. assert (Hn : (n < cdiv L bs)%nat) by nia.
  set (b := 0 <? cdiv L bs * bs - L).
  assert (Hpad : forall i, (i < (n + 1) * bs)%nat -> (L <= i)%nat -> b = true) by (intros i Hi Hl; apply Nat.ltb_lt; nia).
  match goal with |- nth n (map fst (fst (run_blocks ?o ?u _ _))) _ _ _ =
                     nth n (map fst (fst (run_blocks ?o' ?u' _ _))) _ _ _ =>
    destruct (run_blocks_spec o u (cdiv L bs) zero_state) as (_ & _ & H1);
    destruct (run_blocks_spec o' u' (cdiv L bs) zero_state) as (_ & _ & H2) end.
  rewrite !(nth_lookup_Some _ n _ _ (eq_trans (list_lookup_fmap fst _ n) (f_equal _ (H1 n Hn)))).
  rewrite !(nth_lookup_Some _ n _ _ (eq_trans (list_lookup_fmap fst _ n) (f_equal _ (H2 n Hn)))).
  cbn [fst]. clear H1 H2.
  assert (Hrow : forall (x x' : mat R) s, (s < bs)%nat -> (forall i, noisy i -> x i = x' i) ->
    (if b then pad L x else x) (n * bs + s)%nat = (if b then pad L x' else x') (n * bs + s)%nat)
    by (intros x x' s Hs Hx; apply blk_row; [apply Hpad; lia|intros; apply Hx; split; lia]).
  assert (Hcl : forall (x x' : mat R) j, (j < n * bs)%nat -> (forall i, clean i -> x i = x' i) ->
    (if b then pad L (fun t => x (L + t)%nat) else (fun t => x (L + t)%nat)) j =
    (if b then pad L (fun t => x' (L + t)%nat) else (fun t => x' (L + t)%nat)) j)
    by (intros x x' j Hj Hx; apply blk_row; [apply Hpad; lia|intros; apply Hx; unfold clean; lia]).
  pose proof (half_mask b L 0 (fun i => n * bs <= i < (n + 1) * bs)%nat _ _ _ Em
    ltac:(intros j Hj Hl; left; split; [exact Hj|exact Hl])) as Hnm.
  pose proof (half_mask b L L (fun i => i < n * bs)%nat _ _ _ Em ltac:(cbn beta; intros j Hj Hl; right; unfold clean; lia)) as Hcm.
  pose proof (half_state n _ _ _ _ _ _ Hcm (fun j Hj => conj
    (f_equal (_feature_map M h) (Hcl k k' j Hj (fun i Hi => proj1 (Ec i Hi)))) (Hcl v v' j Hj (fun i Hi => proj2 (Ec i Hi))))) as [HS HZ].
  apply block_out_mask; [done|..]; unfold rows.
  - intros j e Hj. by rewrite (Hrow q q') by (done || apply En).
  - intros j e Hj. by rewrite (Hrow k k') by (done || apply En).
  - intros j e Hj. apply (masked_row _ _ _ _ _ _ Hnm); [lia|]. apply Hrow; [done|apply En].
  - intros j f Hj. by rewrite (Hrow q q') by (done || apply En).
  - intros f _. apply HS.
  - intros f _. apply HZ.
  - clear -Hnm. unfold half_valid in Hnm. cbn [Nat.add] in Hnm.
    destruct kpm, kpm', b; simpl in *; try done; intros j Hj; apply Hnm; lia.
Qed.

End Properties.

(** ** A concrete module over the real numbers *)

Module Example_.
Export Tensor.Reals.

Definition demo : module R :=
  mkHybrid 2 1 1 2 1 (/ 10)%R 1%R true 2 (fun _ _ _ => 1%R) (fun _ => 0%R).
Definition demo_x : mat R := fun t d => (INR t + INR d)%R.
(** The same tokens with another clean copy from its third token, position 7, on. *)
Definition demo_y : mat R := fun t d => if t <? 7 then demo_x t d else 0%R.

End Example_.
Import Example_.

Lemma hybrid_block_out_witness :
  fst (forward demo 1 (2 * 2) demo_x demo_x demo_x None None) 3 0 =
    (let e := fun j => sexp (vsum 1 (fun i => demo_x 3 i * demo_x (2 + j)%nat i) * scaling demo
                 - vmax 2 (fun j => vsum 1 (fun i => demo_x 3 i * demo_x (2 + j)%nat i) * scaling demo)) in
     let score := fun j => vsum 2 (fun f => _feature_map demo 1 (demo_x 3) f
                                            * _feature_map demo 1 (demo_x j) f) in
     (sigmoid (alpha demo 1) * vsum 2 (fun j => e j * demo_x (2 + j)%nat 0%nat)
      + vsum 2 (fun j => score j * demo_x j 0%nat)) /
     clamp_min (sigmoid (alpha demo 1) * clamp_min (vsum 2 e) (eps demo)
                + clamp_min (vsum 2 score) (eps demo)) (eps demo))%sc.
Proof. apply (hybrid_block_out demo 1 2 demo_x demo_x demo_x 3 0); simpl; lia. Defined.

Lemma hybrid_resume_witness :
  fst (forward demo 0 (2 * 2) demo_x demo_x demo_x None (Some zero_state)) 3 0 =
  fst (forward demo 0 (1 * 2) (fun t => demo_x (2 + t)%nat) (fun t => demo_x (2 + t)%nat)
         (fun t => demo_x (2 + t)%nat) None
         (Some (snd (forward demo 0 (1 * 2) demo_x demo_x demo_x None (Some zero_state))))) 1 0.
Proof.
  apply (hybrid_resume demo 0 1 1 demo_x demo_x demo_x zero_state) with (t := 1) (d := 0);
    simpl; lia.
Defined.

Lemma bd3lm_no_leak_witness :
  fst (forward_bd3lm demo 0 5 demo_x demo_x demo_x (Some (fun t => if t <? 9 then 1%R else 0%R))) 3 0 =
  fst (forward_bd3lm demo 0 5 demo_y demo_y demo_y (Some (fun t => if t <? 7 then 1%R else 0%R))) 3 0.
Proof.
  apply (bd3lm_no_leak demo 0 5 demo_x demo_x demo_x demo_y demo_y demo_y); [simpl; lia|lia|..]; simpl.
  - intros i Hi. assert (Hy : demo_y i = demo_x i) by (unfold demo_y; destruct (Nat.ltb_spec i 7); [done|lia]). done.
  - intros i Hi. assert (Hy : demo_y i = demo_x i) by (unfold demo_y; destruct (Nat.ltb_spec i 7); [done|lia]). done.
  - intros i Hi. destruct (Nat.ltb_spec i 9), (Nat.ltb_spec i 7); (done || lia).
Defined.

End Hybrid.
