(* ===== verification/HybridKernel.v ===== *)
(** The hybrid attention kernels the server runs
    ([srt/layers/attention/llada_fast_hybrid_kernel.py]) and their Python
    reference ([kernel/reference.py], [kernel/state.py], [kernel/production.py]).

    A kernel is a grid of program instances over the device memory that they
    write: the output tensor and the working state.  A launch runs the
    instances in some order.  The committed state is a separate buffer, or the
    same one when the caller passes no separate write state.

    Tensors are functions of their indices and casts between floating-point
    types are not modelled (see [Tensor]). *)
From stdpp Require Import base list.
From Stdlib Require Import ZArith QArith Reals Lra Lia Ring.
From S2P Require Import Prelude.
From S2P Require Import Tensor.
From S2P Require Import LinearAttention.
From S2P Require Import HybridAttention.
Local Open Scope nat_scope.

(** * Launches of program instances *)

Section Launch.
Context {X V I : Type} `{EqDecision I}.
Context (prog : I -> (X -> V) -> (X -> V)).
Context (reg : I -> X -> bool) (val : I -> (X -> V) -> X -> V) (good : I -> Prop).

(** A launch over a grid: the instances in some order. *)
Definition launch (order : list I) (m : X -> V) : X -> V :=
  fold_left (fun m i => prog i m) order m.

Hypothesis prog_writes : forall i m x, good i ->
  prog i m x = if reg i x then val i m x else m x.
Hypothesis val_local : forall i m m' x,
  (forall y, reg i y = true -> m y = m' y) -> reg i x = true -> val i m x = val i m' x.

(** A cell that no instance writes keeps its value. *)
Lemma launch_keep order m x :
  (forall i, i ∈ order -> good i) -> (forall i, i ∈ order -> reg i x = false) ->
  launch order m x = m x.
Proof.
  unfold launch. revert m. induction order as [|j order IH]; intros m Hg Hn; [done|]. simpl.
  rewrite IH by (intros; (apply Hn || apply Hg); by right).
  rewrite prog_writes, Hn by (try apply Hg; left). done.
Qed.

(** Instances with disjoint regions do not see each other: the cell written by
    instance [i] receives what [i] computes from the memory before the launch. *)
Lemma launch_write order m i x :
  NoDup order -> (forall i, i ∈ order -> good i) -> i ∈ order -> reg i x = true ->
  (forall j y, j ∈ order -> reg i y = true -> reg j y = true -> j = i) ->
  launch order m x = val i m x.
Proof.
  unfold launch. intros Hn. revert m. induction Hn as [|j order Hj Hn IH]; intros m Hg Hi Hx Hd.
  { by apply not_elem_of_nil in Hi. }
  simpl. apply elem_of_cons in Hi as [->|Hi].
  - change (launch order (prog j m) x = val j m x). rewrite launch_keep.
    + rewrite prog_writes by (apply Hg; left). by rewrite Hx.
    + intros k Hk. apply Hg. by right.
    + intros k Hk. destruct (reg k x) eqn:E; [|done]. exfalso.
      assert (k = j) as -> by (apply (Hd k x); [by right|done|done]). done.
  - rewrite IH; [|intros k Hk; apply Hg; by right|done|done|intros k y Hk; apply Hd; by right].
    apply val_local; [|done]. intros y Hy. rewrite prog_writes by (apply Hg; left).
    destruct (reg j y) eqn:E; [|done]. exfalso.
    assert (j = i) as -> by (apply (Hd j y); [by left|done|done]). done.
Qed.

End Launch.

Module HK.

Section Model.
Context {R : Type} `{ScalarOps R}.
Local Open Scope sc_scope.

(** ** Device memory *)

(** Cells of the buffers that kernels write: [out[t, h, d]], [S[slot, h, f, d]]
    and [Z[slot, h, f]]. *)
Inductive cell : Type :=
| Out (t h d : nat)
| CS (slot h f d : nat)
| CZ (slot h f : nat).

Definition mem : Type := cell -> R.

(** [q], [k], [v]: token, head, channel. *)
Definition tok : Type := nat -> nat -> nat -> R.

(** ** Block plans *)

(** [RequestBlockPlan] of the served kernel. *)
Record plan : Type := mkPlan {
  req_indices : list nat;
  seq_lens : list nat;
  start_offsets : list nat;
  num_blocks : list nat;
  max_blocks : nat;
  pl_block_size : nat;
}.

(** [start_offsets[r]] is the number of tokens before request [r]. *)
Definition offsets (seq_lens : list nat) : list nat :=
  map (fun r => sum_list (take r seq_lens)) (seq 0 (length seq_lens)).

(** [build_request_block_plan] of the served kernel. *)
Definition build_request_block_plan (lens idx : list nat) (block_size : nat) : plan :=
  match lens with
  | [] => mkPlan [] [] [] [] 0 block_size
  | _ =>
    let nb := map (fun l => cdiv l block_size) lens in
    mkPlan idx lens (offsets lens) nb (max_list nb) block_size
  end.

(** [build_request_block_plan] of [kernel/state.py]: one block per request. *)
Definition extend_block_plan (lens idx : list nat) (block_size : nat) : res plan :=
  match lens with
  | [] => Ok (mkPlan [] [] [] [] 0 block_size)
  | _ =>
    if existsb (fun l => (l <=? 0)%nat) lens then Raise ValueError
    else if existsb (fun l => block_size <? l) lens then Raise ValueError
    else Ok (mkPlan idx lens (offsets lens) [] 1 block_size)
  end.

(** ** The kernels *)

(** Compile-time constants and weights of a launch; [gate] holds
    [sigmoid(alpha)] per query head. *)
Record kparams : Type := mkK {
  kp_H : nat;
  kp_Hkv : nat;
  kp_D : nat;
  kp_F : nat;
  BLOCK_S : nat;
  kp_eps : R;
  kp_scale : R;
  k_scale : R;
  v_scale : R;
  groups : nat;
  kp_W : nat -> mat R;
  gate : nat -> R;
}.

Variable K : kparams.
#[local] Abbreviation D := (kp_D K).
#[local] Abbreviation F := (kp_F K).
#[local] Abbreviation BS := (BLOCK_S K).
#[local] Abbreviation eps := (kp_eps K).

(** [tl.load(x + (start + offs_s) ..., mask=smask, other=0.0)] for head [h]. *)
Definition load_tile (x : tok) (start len h : nat) : mat R := fun s d =>
  if s <? len then x (start + s)%nat h d else s0.

(** [e / max(sum(e), eps)] with [e = exp2((u - max(u)) * LOG2E)]. *)
Definition kernel_softmax (u : vec R) : vec R := fun f =>
  let m := vmax F u in
  let e := fun f => sexp2 ((u f - m) * slog2e) in
  e f / smax (vsum F e) eps.

(** Key features: zero on the lanes past the end of the block. *)
Definition key_features (W : mat R) (k_tile : mat R) (len : nat) : mat R * mat R :=
  let u_k := fun s f => vsum D (fun d => k_tile s d * W d f) in
  (fun s f => if s <? len then kernel_softmax (u_k s) f else s0,
   fun s f => if s <? len then kernel_softmax (fun f => - u_k s f) f else s0).

(** Query features of the output kernels: the lanes past the end are filled with
    minus infinity before, and with zero after the exponential. *)
Definition query_features (W : mat R) (q_tile : mat R) (len : nat) : mat R * mat R :=
  let u := fun s f => if s <? len then vsum D (fun d => q_tile s d * W d f) else sninf in
  let max_pos := fun s => if s <? len then vmax F (u s) else s0 in
  let max_neg := fun s => if s <? len then vmax F (fun f => - u s f) else s0 in
  let e_pos := fun s f => if s <? len then sexp2 ((u s f - max_pos s) * slog2e) else s0 in
  let e_neg := fun s f => if s <? len then sexp2 ((- u s f - max_neg s) * slog2e) else s0 in
  (fun s f => e_pos s f / smax (vsum F (e_pos s)) eps,
   fun s f => e_neg s f / smax (vsum F (e_neg s)) eps).

(** The new state cells of one (slot, head): value of [S[f, d]] and [Z[f]]. *)
Definition new_S (W : mat R) (k_tile v_tile : mat R) (len : nat) (S : mat R) : mat R := fun f d =>
  let '(pos, neg) := key_features W k_tile len in
  if f <? F then S f d + matmul BS (transpose pos) v_tile f d
  else S f d + matmul BS (transpose neg) v_tile (f - F)%nat d.

Definition new_Z (W : mat R) (k_tile : mat R) (len : nat) (Z : vec R) : vec R := fun f =>
  let '(pos, neg) := key_features W k_tile len in
  if f <? F then Z f + vsum BS (fun s => pos s f)
  else Z f + vsum BS (fun s => neg s (f - F)%nat).

(** The output tile of one (request, head). *)
Definition out_tile (W : mat R) (q_tile k_tile v_tile : mat R) (len : nat) (w : R)
    (S : mat R) (Z : vec R) : mat R := fun s d =>
  let scores := fun j =>
    if j <? len then vsum D (fun e => q_tile s e * k_tile j e) * kp_scale K else sfmin in
  let row_max := vmax BS scores in
  let a_sm := fun j => if (s <? len) && (j <? len)
                       then sexp2 ((scores j - row_max) * slog2e) else s0 in
  let sm_den := smax (vsum BS a_sm) eps in
  let sm_num := vsum BS (fun j => a_sm j * v_tile j d) in
  let '(phi_pos, phi_neg) := query_features W q_tile len in
  let lin_num := vsum F (fun f => phi_pos s f * S f d)
                 + vsum F (fun f => phi_neg s f * S (f + F)%nat d) in
  let lin_den := smax (vsum F (fun f => phi_pos s f * Z f)
                       + vsum F (fun f => phi_neg s f * Z (f + F)%nat)) eps in
  if s <? len then (w * sm_num + lin_num) / smax (w * sm_den + lin_den) eps else s0.

(** What a launch is given: the token tensors, and per request its slot, start
    and length. *)
Record job : Type := mkJob {
  jq : tok; jk : tok; jv : tok;
  jslot : list nat; jstart : list nat; jlen : list nat;
}.

Variable J : job.

(** The state a program reads: a separate buffer, or the one it writes. *)
Definition src_of (rd : option mem) (m : mem) : mem := default m rd.

(** Stores of a state tile and of an output tile. *)
Definition store_state (slot h : nat) (S : mat R) (Z : vec R) (m : mem) : mem := fun c =>
  match c with
  | CS sl hh f d => if (sl =? slot) && (hh =? h) && (f <? 2 * F) && (d <? D) then S f d else m c
  | CZ sl hh f => if (sl =? slot) && (hh =? h) && (f <? 2 * F) then Z f else m c
  | Out _ _ _ => m c
  end.

Definition store_out (start len h : nat) (tile : mat R) (m : mem) : mem := fun c =>
  match c with
  | Out t hh d => if (hh =? h) && (start <=? t) && (t <? start + Nat.min BS len) && (d <? D)
                  then tile (t - start)%nat d else m c
  | _ => m c
  end.

(** [_hybrid_update_state_kernel_rw], program [(pid_r, pid_h)]. *)
Definition _hybrid_update_state_kernel_rw (UPDATE_USES_KV_HEADS : bool) (rd : option mem)
    (pid : nat * nat) (m : mem) : mem :=
  let '(r, h) := pid in
  let kv_h := if UPDATE_USES_KV_HEADS then h else (h / groups K)%nat in
  let slot := nth r (jslot J) 0%nat in
  let start := nth r (jstart J) 0%nat in
  let len := nth r (jlen J) 0%nat in
  let k_tile := fun s d => load_tile (jk J) start len kv_h s d * k_scale K in
  let v_tile := fun s d => load_tile (jv J) start len kv_h s d * v_scale K in
  let sr := src_of rd m in
  store_state slot h
    (new_S (kp_W K h) k_tile v_tile len (fun f d => sr (CS slot h f d)))
    (new_Z (kp_W K h) k_tile len (fun f => sr (CZ slot h f))) m.

(** [_hybrid_output_kernel_streaming], program [(pid_r, q_h)]. *)
Definition _hybrid_output_kernel_streaming (SHARE_KV_GROUPS : bool) (rd : mem)
    (pid : nat * nat) (m : mem) : mem :=
  let '(r, h) := pid in
  let kv_h := (h / groups K)%nat in
  let state_h := if SHARE_KV_GROUPS then kv_h else h in
  let slot := nth r (jslot J) 0%nat in
  let start := nth r (jstart J) 0%nat in
  let len := nth r (jlen J) 0%nat in
  let q_tile := load_tile (jq J) start len h in
  let k_tile := fun s d => load_tile (jk J) start len kv_h s d * k_scale K in
  let v_tile := fun s d => load_tile (jv J) start len kv_h s d * v_scale K in
  store_out start len h
    (out_tile (kp_W K state_h) q_tile k_tile v_tile len (gate K h)
       (fun f d => rd (CS slot state_h f d)) (fun f => rd (CZ slot state_h f))) m.

(** [_hybrid_output_update_kernel_fused_perq], program [(pid_r, q_h)]: output and
    state update in one program; every load of the state precedes the stores. *)
Definition _hybrid_output_update_kernel_fused_perq (rd : option mem)
    (pid : nat * nat) (m : mem) : mem :=
  let '(r, h) := pid in
  let kv_h := (h / groups K)%nat in
  let slot := nth r (jslot J) 0%nat in
  let start := nth r (jstart J) 0%nat in
  let len := nth r (jlen J) 0%nat in
  let q_tile := load_tile (jq J) start len h in
  let k_op := fun s d => load_tile (jk J) start len kv_h s d * k_scale K in
  let v_op := fun s d => load_tile (jv J) start len kv_h s d * v_scale K in
  let sr := src_of rd m in
  let S := fun f d => sr (CS slot h f d) in
  let Z := fun f => sr (CZ slot h f) in
  let m := store_out start len h (out_tile (kp_W K h) q_tile k_op v_op len (gate K h) S Z) m in
  store_state slot h (new_S (kp_W K h) k_op v_op len S) (new_Z (kp_W K h) k_op len Z) m.

(** ** The Python reference *)

(** [_hybrid_feature_map] of one row of [kernel/reference.py]. *)
Definition _hybrid_feature_map (W : mat R) (x : vec R) : vec R := hedgehog D F W x.

(** The body of the reference loops for one (request, query head): [W_h], and the
    state cells of [state_h]; [scale] is already resolved. *)
Definition ref_body (scale : R) (W_h : mat R) (state_h : nat) (w : R) (rd : mem)
    (pid : nat * nat) (m : mem) : mem :=
  let '(r, h) := pid in
  let kv_h := (h / groups K)%nat in
  let slot := nth r (jslot J) 0%nat in
  let start := nth r (jstart J) 0%nat in
  let len := nth r (jlen J) 0%nat in
  let q_h := fun s d => jq J (start + s)%nat h d in
  let k_h := fun s d => jk J (start + s)%nat kv_h d in
  let v_h := fun s d => jv J (start + s)%nat kv_h d in
  let S_pos := fun f d => rd (CS slot state_h f d) in
  let S_neg := fun f d => rd (CS slot state_h (F + f)%nat d) in
  let Z_pos := fun f => rd (CZ slot state_h f) in
  let Z_neg := fun f => rd (CZ slot state_h (F + f)%nat) in
  let phi_q := fun s => _hybrid_feature_map W_h (q_h s) in
  let phi_k := fun s => _hybrid_feature_map W_h (k_h s) in
  let phi_q_pos := fun s f => phi_q s f in
  let phi_q_neg := fun s f => phi_q s (F + f)%nat in
  let phi_k_pos := fun s f => phi_k s f in
  let phi_k_neg := fun s f => phi_k s (F + f)%nat in
  let lin_num := fun s d => matmul F phi_q_pos S_pos s d + matmul F phi_q_neg S_neg s d in
  let lin_den := fun s => clamp_min (vsum F (fun f => phi_q_pos s f * Z_pos f)
                                     + vsum F (fun f => phi_q_neg s f * Z_neg f)) eps in
  let scores := fun s j => vsum D (fun e => q_h s e * k_h j e) * scale in
  let row_max := fun s => vmax len (scores s) in
  let a_sm := fun s j => sexp (scores s j - row_max s) in
  let sm_num := matmul len a_sm v_h in
  let sm_den := fun s => clamp_min (vsum len (a_sm s)) eps in
  let den := fun s => clamp_min (w * sm_den s + lin_den s) eps in
  let tile := fun s d => (w * sm_num s d + lin_num s d) / den s in
  let S_new := fun f d =>
    if f <? F then S_pos f d + matmul len (transpose phi_k_pos) v_h f d
    else S_neg (f - F)%nat d + matmul len (transpose phi_k_neg) v_h (f - F)%nat d in
  let Z_new := fun f =>
    if f <? F then Z_pos f + vsum len (fun s => phi_k_pos s f)
    else Z_neg (f - F)%nat + vsum len (fun s => phi_k_neg s (f - F)%nat) in
  let m := fun c => match c with
           | Out t hh d => if (hh =? h) && (start <=? t) && (t <? start + len) && (d <? D)
                           then tile (t - start)%nat d else m c
           | _ => m c end in
  store_state slot state_h S_new Z_new m.

(** [scale = scale or D ** -0.5]. *)
Definition resolve_scale (scale : option R) : R :=
  match scale with
  | Some x => if s_is_zero x then sinvsqrt D else x
  | None => sinvsqrt D
  end.

Definition zero_out (m : mem) : mem := fun c => match c with Out _ _ _ => s0 | _ => m c end.

(** [ref_hybrid_extend_per_q]: one projection and one state per query head. *)
Definition ref_hybrid_extend_per_q (W_heads : nat) (scale : option R) (alpha : nat -> R)
    (rd : mem) (m : mem) : res mem :=
  if negb (W_heads =? kp_H K) then Raise ValueError
  else Ok (fold_left (fun m pid =>
             ref_body (resolve_scale scale) (kp_W K (snd pid)) (snd pid) (sigmoid (alpha (snd pid)))
               rd pid m)
             (list_prod (seq 0 (length (jlen J))) (seq 0 (kp_H K))) (zero_out m)).

(** [ref_hybrid_extend]: projections and states per key-value head. *)
Definition ref_hybrid_extend (scale : option R) (alpha : nat -> R) (rd : mem) (m : mem) : mem :=
  fold_left (fun m pid =>
    let kv_h := (snd pid / groups K)%nat in
    ref_body (resolve_scale scale) (kp_W K kv_h) kv_h (sigmoid (alpha (snd pid))) rd pid m)
    (list_prod (seq 0 (length (jlen J))) (seq 0 (kp_H K))) (zero_out m).

(** ** The wrapper of [kernel/production.py] *)

(** [HedgehogHybridAttnProd.forward]: the update launch comes first, so a state
    that is read and written in place is read back updated. *)
Definition prod_forward (order order' : list (nat * nat)) (use_updated_state_for_output : bool)
    (rd : option mem) (m : mem) : mem :=
  let m := zero_out m in
  if length (jslot J) =? 0 then m
  else
    let m := launch (_hybrid_update_state_kernel_rw false rd) order m in
    let state_for_output := if use_updated_state_for_output then m else src_of rd m in
    launch (_hybrid_output_kernel_streaming false state_for_output) order' m.

(** [HedgehogHybridAttnProd.forward_fused]. *)
Definition prod_forward_fused (order : list (nat * nat)) (rd : option mem) (m : mem) : mem :=
  let m := zero_out m in
  if length (jslot J) =? 0 then m
  else launch (_hybrid_output_update_kernel_fused_perq rd) order m.

End Model.
Arguments mem : clear implicits.
Arguments tok : clear implicits.
Arguments kparams : clear implicits.
Arguments job : clear implicits.

(** ** The module that drives the kernels *)

Section Served.
Context {R : Type} `{ScalarOps R}.

(** Attributes of the served [BlockSoftmaxLinearHybrid]. *)
Record served : Type := mkServed {
  num_heads : nat;
  num_kv_heads : nat;
  share_hedgehog_kv_groups : bool;
  head_dim : nat;
  feature_dim : nat;
  block_size : nat;
  sv_eps : R;
  scaling : R;
  BLOCK_F : nat;
  hedgehog_weights : nat -> mat R;
  alpha : nat -> R;
}.

(** [_pick_block_f]. *)
Definition _pick_block_f (fd : nat) : nat :=
  match find (fun c => (fd mod c =? 0) && (c <=? fd)) [16; 8; 4; 2; 1] with
  | Some c => c
  | None => 1
  end.

(** [__init__]: the kernels are specialised to blocks of 32. *)
Definition served_init (heads kv_heads : nat) (share : bool) (hd : option nat)
    (hidden_size num_attention_heads fd bs : nat) (eps : R) : res served :=
  let hd := match hd with Some (S d) => S d | _ => hidden_size / num_attention_heads end in
  if negb (bs =? 32) then Raise ValueError
  else Ok (mkServed heads kv_heads share hd fd bs eps (sinvsqrt hd) (_pick_block_f fd)
             (fun _ d f => if d =? f then s1 else s0) (fun _ => s0)).

Variable M : served.

(** The launch parameters: scales are [1.0], the gate is the cached
    [sigmoid(alpha)]. *)
Definition kparams_of (gr : nat) : kparams R :=
  mkK (num_heads M) (num_kv_heads M) (head_dim M) (feature_dim M) (block_size M) (sv_eps M)
    (scaling M) s1 s1 gr (hedgehog_weights M) (fun h => sigmoid (alpha M h)).

(** Grid of program ids. *)
Definition grid (r h : nat) : list (nat * nat) := list_prod (seq 0 r) (seq 0 h).

(** The order in which the device runs a grid. *)
Variable sched : list (nat * nat) -> list (nat * nat).

(** The requests that still have tokens in block [b]. *)
Definition active_of (pl : plan) (b : nat) : list nat :=
  filter (fun r => b < nth r (num_blocks pl) 0) (seq 0 (length (num_blocks pl))).

Definition block_job (pl : plan) (b : nat) (q k v : tok R) : job R :=
  let active := active_of pl b in
  mkJob q k v
    (map (fun r => nth r (req_indices pl) 0) active)
    (map (fun r => nth r (start_offsets pl) 0 + b * block_size M) active)
    (map (fun r => Nat.min (nth r (seq_lens pl) 0 - b * block_size M) (block_size M)) active).

(** Output kernel, then state-update kernel. *)
Definition two_launches (gr : nat) (J : job R) (rd : option (mem R)) (m : mem R) : mem R :=
  let K := kparams_of gr in
  let share := share_hedgehog_kv_groups M in
  let R_act := length (jslot J) in
  let update_heads := if share then num_kv_heads M else num_heads M in
  let m := launch (_hybrid_output_kernel_streaming K J share (src_of rd m))
             (sched (grid R_act (num_heads M))) m in
  launch (_hybrid_update_state_kernel_rw K J share rd) (sched (grid R_act update_heads)) m.

(** The multi-block loop: from the second block on the kernels read the state
    they wrote for the block before. *)
Fixpoint block_loop (gr : nat) (pl : plan) (q k v : tok R) (rd : option (mem R))
    (fuel b : nat) (m : mem R) : mem R :=
  match fuel with
  | 0 => m
  | S fuel =>
    match active_of pl b with
    | [] => m
    | _ =>
      let m := two_launches gr (block_job pl b q k v) (if b =? 0 then rd else None) m in
      block_loop gr pl q k v rd fuel (S b) m
    end
  end.

(** [_run_kernels]; [kh] and [vh] are [k.shape[1]] and [v.shape[1]], [rd] the
    read state when it is a separate buffer. *)
Definition _run_kernels (kh vh : nat) (pl : plan) (q k v : tok R) (rd : option (mem R)) (m : mem R)
    : res (mem R) :=
  if negb (kh =? vh) then Raise ValueError
  else
    let go := fun gr =>
      if max_blocks pl =? 0 then m
      else if max_blocks pl =? 1
      then
        let J := mkJob q k v (req_indices pl) (start_offsets pl) (seq_lens pl) in
        let R_act := length (req_indices pl) in
        if R_act =? 0 then m
        else if negb (share_hedgehog_kv_groups M)
        then launch (_hybrid_output_update_kernel_fused_perq (kparams_of gr) J rd)
               (sched (grid R_act (num_heads M))) m
        else two_launches gr J rd m
      else block_loop gr pl q k v rd (max_blocks pl) 0 m in
    if kh =? num_kv_heads M then Ok (go (num_heads M / num_kv_heads M))
    else if kh =? num_heads M then Ok (go 1)
    else Raise ValueError.

(** [forward]: the plan is built when the caller has none, the output starts as
    zeros. *)
Definition forward (kh vh : nat) (q k v : tok R) (lens idx : list nat) (pl : option plan)
    (rd : option (mem R)) (m : mem R) : res (mem R) :=
  let pl := match pl with Some p => p | None => build_request_block_plan lens idx (block_size M) end in
  _run_kernels kh vh pl q k v rd (zero_out m).

(** [reset_states]. *)
Definition reset_states (slots : option (list nat)) (m : mem R) : mem R := fun c =>
  match c, slots with
  | Out _ _ _, _ => m c
  | CS sl _ _ _, Some l => if existsb (Nat.eqb sl) l then s0 else m c
  | CZ sl _ _, Some l => if existsb (Nat.eqb sl) l then s0 else m c
  | _, None => s0
  end.

End Served.
Arguments served : clear implicits.

End HK.
