(* ===== verification/KernelFacts.v ===== *)
(** Correctness of the served hybrid attention kernels ([HybridKernel]).

    First one program instance: with its lanes masked to the block length it
    computes the block formula of [HybridAttention] and the state update.  Then
    launches: the instances of a grid write disjoint cells, so any order gives
    the result of the sequential Python reference.  Finally the multi-block
    driver: whatever path it takes, every request gets the output and the state
    of the PyTorch module run on its own tokens. *)
From stdpp Require Import base list sets.
From Stdlib Require Import ZArith QArith Reals Lra Lia Ring.
From S2P Require Import Prelude.
From S2P Require Import Tensor.
From S2P Require Import LinearAttention.
From S2P Require Import HybridAttention.
From S2P Require Import HybridKernel.
Local Open Scope nat_scope.

Module KF.
Import HK.

(** * One program instance *)

Section Tile.
Context {R : Type} {HO : ScalarOps R} {sle : R -> R -> Prop} {HL : ScalarLaws R sle}.
Local Open Scope sc_scope.

Add Ring tile_ring : s_ring.

Variable K : kparams R.
#[local] Abbreviation D := (kp_D K).
#[local] Abbreviation F := (kp_F K).
#[local] Abbreviation BS := (BLOCK_S K).
#[local] Abbreviation eps := (kp_eps K).
Hypothesis F_pos : (0 < F)%nat.
Hypothesis eps_le : sle eps s1.

(** The block formula over [len] rows. *)
Definition tile_spec (W : mat R) (q k v : mat R) (len : nat) (w : R) (S : mat R) (Z : vec R)
    : mat R := fun s d =>
  let scores := fun j => vsum D (fun e => q s e * k j e) * kp_scale K in
  let a := fun j => sexp (scores j - vmax len scores) in
  (w * vsum len (fun j => a j * v j d) + vsum (2 * F) (fun f => hedgehog D F W (q s) f * S f d)) /
  clamp_min (w * clamp_min (vsum len a) eps
             + clamp_min (vsum (2 * F) (fun f => hedgehog D F W (q s) f * Z f)) eps) eps.

(** The stabilised, clamped base-two softmax of the kernels is the softmax. *)
Lemma kernel_softmax_eq (u : vec R) f : kernel_softmax K u f = softmax F u f.
Proof.
  unfold kernel_softmax. rewrite sexp2_log2e.
  rewrite (vsum_ext F _ (fun g => sexp (u g - vmax F u))) by (intros; apply sexp2_log2e).
  rewrite (partition_clamp F u eps F_pos eps_le). apply softmax_shift.
Qed.

Lemma kernel_softmax_neg (u : vec R) f :
  kernel_softmax K (fun f => - u f) f = softmax F (fun f => - u f) f.
Proof. apply kernel_softmax_eq. Qed.

(** The two halves of the feature map. *)
Lemma hedgehog_pos W x f : (f < F)%nat ->
  hedgehog D F W x f = softmax F (fun f => vsum D (fun d => x d * W d f)) f.
Proof. intros Hf. unfold hedgehog, cat. by destruct (Nat.ltb_spec f F); [|lia]. Qed.

Lemma hedgehog_neg W x f :
  hedgehog D F W x (F + f)%nat = softmax F (fun f => - vsum D (fun d => x d * W d f)) f.
Proof.
  unfold hedgehog, cat. destruct (Nat.ltb_spec (F + f) F); [lia|].
  by replace (F + f - F)%nat with f by lia.
Qed.

(** Sums over the two halves. *)
Lemma vsum_halves (g : nat -> R) :
  vsum F g + vsum F (fun f => g (F + f)%nat) = vsum (2 * F) g.
Proof. replace (2 * F)%nat with (F + F)%nat by lia. by rewrite vsum_app. Qed.

Lemma key_features_pos W k len s f :
  (s < len)%nat -> (f < F)%nat -> fst (key_features K W k len) s f = hedgehog D F W (k s) f.
Proof.
  intros Hs Hf. unfold key_features. simpl. destruct (Nat.ltb_spec s len); [|lia].
  by rewrite kernel_softmax_eq, hedgehog_pos.
Qed.

Lemma key_features_neg W k len s f :
  (s < len)%nat -> snd (key_features K W k len) s f = hedgehog D F W (k s) (F + f)%nat.
Proof.
  intros Hs. unfold key_features. simpl. destruct (Nat.ltb_spec s len); [|lia].
  by rewrite kernel_softmax_neg, hedgehog_neg.
Qed.

Lemma key_features_out W k len s f :
  (len <= s)%nat -> fst (key_features K W k len) s f = s0 /\ snd (key_features K W k len) s f = s0.
Proof.
  intros Hs. unfold key_features. simpl. by destruct (Nat.ltb_spec s len); [lia|].
Qed.

(** Lanes past the end of the block contribute nothing to the state. *)
Lemma lanes_sum len (g g' : nat -> R) :
  (len <= BS)%nat -> (forall s, (s < len)%nat -> g s = g' s) ->
  (forall s, (len <= s)%nat -> g s = s0) -> vsum BS g = vsum len g'.
Proof.
  intros Hl Hin Hout. rewrite <- (vsum_mask len BS) by done. apply vsum_ext. intros s _.
  destruct (Nat.ltb_spec s len); auto.
Qed.

(** The state update of the kernels. *)
Lemma new_S_eq W k v len S f d :
  (len <= BS)%nat -> (f < 2 * F)%nat ->
  new_S K W k v len S f d = S f d + vsum len (fun s => hedgehog D F W (k s) f * v s d).
Proof.
  intros Hl Hf. unfold new_S. rewrite (surjective_pairing (key_features K W k len)).
  unfold matmul, transpose. destruct (Nat.ltb_spec f F) as [Hlt|Hge]; f_equal.
  - apply lanes_sum; [done| |]; intros s Hs.
    + by rewrite key_features_pos.
    + rewrite (proj1 (key_features_out W k len s f Hs)). ring.
  - apply lanes_sum; [done| |]; intros s Hs.
    + rewrite key_features_neg by done. by replace (F + (f - F))%nat with f by lia.
    + rewrite (proj2 (key_features_out W k len s (f - F) Hs)). ring.
Qed.

Lemma new_Z_eq W k len Z f :
  (len <= BS)%nat -> (f < 2 * F)%nat ->
  new_Z K W k len Z f = Z f + vsum len (fun s => hedgehog D F W (k s) f).
Proof.
  intros Hl Hf. unfold new_Z. rewrite (surjective_pairing (key_features K W k len)).
  destruct (Nat.ltb_spec f F) as [Hlt|Hge]; f_equal.
  - apply lanes_sum; [done| |]; intros s Hs; [by rewrite key_features_pos|].
    apply (key_features_out W k len s f Hs).
  - apply lanes_sum; [done| |]; intros s Hs.
    + rewrite key_features_neg by done. by replace (F + (f - F))%nat with f by lia.
    + apply (key_features_out W k len s (f - F) Hs).
Qed.

(** Query features on the live lanes. *)
Lemma query_features_eq W q len s :
  (s < len)%nat ->
  (forall f, (f < F)%nat -> fst (query_features K W q len) s f = hedgehog D F W (q s) f) /\
  (forall f, snd (query_features K W q len) s f = hedgehog D F W (q s) (F + f)%nat).
Proof.
  intros Hs. unfold query_features. simpl. destruct (Nat.ltb_spec s len); [|lia].
  split; intros f; intros; [rewrite hedgehog_pos by done|rewrite hedgehog_neg].
  - rewrite <- (kernel_softmax_eq (fun f => vsum D (fun d => q s d * W d f))).
    unfold kernel_softmax. done.
  - rewrite <- (kernel_softmax_eq (fun f => - vsum D (fun d => q s d * W d f))).
    unfold kernel_softmax. done.
Qed.

(** In a block with dead lanes, which hold [finfo.min], the scores of the live keys
    are not below it. *)
Definition scores_ok (q k : mat R) (len : nat) : Prop := (len < BS)%nat -> forall s j,
  (s < len)%nat -> (j < len)%nat -> sle sfmin (vsum D (fun e => q s e * k j e) * kp_scale K).

(** The output tile of the kernels. *)
Lemma out_tile_eq W q k v len w S Z s d :
  (len <= BS)%nat -> (s < len)%nat -> scores_ok q k len ->
  out_tile K W q k v len w S Z s d = tile_spec W q k v len w S Z s d.
Proof.
  intros Hl Hs Hsc. unfold out_tile, tile_spec, clamp_min.
  rewrite (surjective_pairing (query_features K W q len)).
  destruct (query_features_eq W q len s Hs) as [Q1 Q2].
  destruct (Nat.ltb_spec s len) as [_|]; [|lia]. cbn [andb].
  set (sc := fun j => vsum D (fun e => q s e * k j e) * kp_scale K).
  assert (Em : vmax BS (fun j => if j <? len then vsum D (fun e => q s e * k j e) * kp_scale K else sfmin) = vmax len sc).
  { destruct (decide (len = BS)) as [El|Hne].
    - rewrite El. apply vmax_ext. intros j Hj. destruct (Nat.ltb_spec j BS); [done|lia].
    - apply vmax_mask; [lia|lia|]. intros; apply Hsc; lia. }
  rewrite Em.
  assert (Ha : forall j, (j < len)%nat ->
    (if (j <? len) then sexp2 (((if j <? len then sc j else sfmin) - vmax len sc) * slog2e) else s0)
    = sexp (sc j - vmax len sc)).
  { intros j Hj. destruct (Nat.ltb_spec j len); [|lia]. apply sexp2_log2e. }
  assert (Hz : forall j, (len <= j)%nat ->
    (if (j <? len) then sexp2 (((if j <? len then sc j else sfmin) - vmax len sc) * slog2e) else s0)
    = s0) by (intros j Hj; by destruct (Nat.ltb_spec j len); [lia|]).
  rewrite (lanes_sum len _ (fun j => sexp (sc j - vmax len sc) * v j d)).
  2: done. 2: { intros j Hj. by rewrite Ha. } 2: { intros j Hj. rewrite Hz by done. ring. }
  rewrite (lanes_sum len _ (fun j => sexp (sc j - vmax len sc))) by (try exact Hl; try exact Ha; exact Hz).
  rewrite <- (vsum_halves (fun f => hedgehog D F W (q s) f * S f d)).
  rewrite <- (vsum_halves (fun f => hedgehog D F W (q s) f * Z f)).
  rewrite (vsum_ext F (fun f => fst _ s f * S f d) (fun f => hedgehog D F W (q s) f * S f d))
    by (intros f Hf; by rewrite Q1).
  rewrite (vsum_ext F (fun f => fst _ s f * Z f) (fun f => hedgehog D F W (q s) f * Z f))
    by (intros f Hf; by rewrite Q1).
  rewrite (vsum_ext F (fun f => snd _ s f * S (f + F)%nat d)
    (fun f => hedgehog D F W (q s) (F + f)%nat * S (F + f)%nat d))
    by (intros f _; by rewrite Q2, (Nat.add_comm f)).
  rewrite (vsum_ext F (fun f => snd _ s f * Z (f + F)%nat)
    (fun f => hedgehog D F W (q s) (F + f)%nat * Z (F + f)%nat))
    by (intros f _; by rewrite Q2, (Nat.add_comm f)).
  done.
Qed.

(** ** Dependence on the rows *)

Lemma hedgehog_ext W (x x' : vec R) f :
  (forall d, (d < D)%nat -> x d = x' d) -> hedgehog D F W x f = hedgehog D F W x' f.
Proof.
  intros E. assert (Eu : forall g, vsum D (fun d => x d * W d g) = vsum D (fun d => x' d * W d g)).
  { intros g. apply vsum_ext. intros d Hd. by rewrite E. }
  assert (Es : forall u u' : vec R, (forall g, u g = u' g) -> forall g, softmax F u g = softmax F u' g).
  { intros u u' Hu g. unfold softmax. rewrite Hu. f_equal. apply vsum_ext. intros. by rewrite Hu. }
  unfold hedgehog, cat. destruct (f <? F); apply Es; intros g; by rewrite Eu.
Qed.

Lemma tile_spec_ext W (q q' k k' v v' : mat R) len w (S S' : mat R) (Z Z' : vec R) s d :
  (s < len)%nat -> (forall e, q s e = q' s e) ->
  (forall j e, (j < len)%nat -> k j e = k' j e) -> (forall j, (j < len)%nat -> v j d = v' j d) ->
  (forall f, (f < 2 * F)%nat -> S f d = S' f d) -> (forall f, (f < 2 * F)%nat -> Z f = Z' f) ->
  tile_spec W q k v len w S Z s d = tile_spec W q' k' v' len w S' Z' s d.
Proof.
  intros Hs Eq Ek Ev ES EZ. unfold tile_spec.
  assert (Esc : forall j, (j < len)%nat ->
    vsum D (fun e => q s e * k j e) * kp_scale K = vsum D (fun e => q' s e * k' j e) * kp_scale K).
  { intros j Hj. f_equal. apply vsum_ext. intros e _. by rewrite Eq, Ek. }
  assert (Eh : forall f, hedgehog D F W (q s) f = hedgehog D F W (q' s) f)
    by (intros f; apply hedgehog_ext; auto).
  rewrite (vmax_ext len _ (fun j => vsum D (fun e => q' s e * k' j e) * kp_scale K)) by exact Esc.
  f_equal; [f_equal|f_equal; f_equal].
  - f_equal. apply vsum_ext. intros j Hj. by rewrite Esc, Ev.
  - apply vsum_ext. intros f Hf. by rewrite Eh, ES.
  - f_equal. unfold clamp_min. f_equal. apply vsum_ext. intros j Hj. by rewrite Esc.
  - unfold clamp_min. f_equal. apply vsum_ext. intros f Hf. by rewrite Eh, EZ.
Qed.

End Tile.

(** * Launches *)

Lemma grid_elem r h n m : (r < n)%nat -> (h < m)%nat -> (r, h) ∈ grid n m.
Proof.
  intros Hr Hh. unfold grid. apply list_elem_of_In, in_prod; apply in_seq; lia.
Qed.

Lemma grid_inv r h n m : (r, h) ∈ grid n m -> (r < n)%nat /\ (h < m)%nat.
Proof. intros Hg. apply list_elem_of_In, in_prod_iff in Hg as [Hr Hh]. apply in_seq in Hr, Hh. lia. Qed.

Lemma grid_NoDup n m : NoDup (grid n m).
Proof.
  unfold grid. assert (Hn : NoDup (seq 0 n)) by apply NoDup_seq. revert Hn.
  generalize (seq 0 n). intros l Hn. induction Hn as [|x l Hx Hn IH]; [constructor|]. simpl.
  apply NoDup_app. split; [|split; [|done]].
  - apply NoDup_fmap_2; [intros ???; by simplify_eq|apply NoDup_seq].
  - intros [a b] (y & E & _)%list_elem_of_fmap Hin. simplify_eq.
    apply list_elem_of_In, in_prod_iff in Hin as [Hin _]. by apply Hx, list_elem_of_In.
Qed.


Section Launches.
Context {R : Type} {HO : ScalarOps R} {sle : R -> R -> Prop} {HL : ScalarLaws R sle}.
Local Open Scope sc_scope.

Add Ring launch_ring : s_ring.

Variable K : kparams R.
Variable J : job R.
#[local] Abbreviation D := (kp_D K).
#[local] Abbreviation F := (kp_F K).
#[local] Abbreviation BS := (BLOCK_S K).
#[local] Abbreviation eps := (kp_eps K).
#[local] Abbreviation slot r := (nth r (jslot J) 0%nat).
#[local] Abbreviation start r := (nth r (jstart J) 0%nat).
#[local] Abbreviation len r := (nth r (jlen J) 0%nat).

(** Requests have their own slots and their own tokens, at most one block each. *)
Record job_ok : Prop := {
  jo_start : length (jstart J) = length (jslot J);
  jo_len : length (jlen J) = length (jslot J);
  jo_slots : NoDup (jslot J);
  jo_ranges : forall r r' t, (r < length (jslot J))%nat -> (r' < length (jslot J))%nat ->
    (start r <= t < start r + len r)%nat -> (start r' <= t < start r' + len r')%nat -> r = r';
  jo_block : forall r, (r < length (jslot J))%nat -> (len r <= BS)%nat;
}.

(** The cells a program writes. *)
Definition reg_out (pid : nat * nat) (c : cell) : bool :=
  match c with
  | Out t hh d => (hh =? snd pid) && (start (fst pid) <=? t)
                  && (t <? start (fst pid) + Nat.min BS (len (fst pid))) && (d <? D)
  | _ => false
  end.

Definition reg_state (pid : nat * nat) (c : cell) : bool :=
  match c with
  | CS sl hh f d => (sl =? slot (fst pid)) && (hh =? snd pid) && (f <? 2 * F) && (d <? D)
  | CZ sl hh f => (sl =? slot (fst pid)) && (hh =? snd pid) && (f <? 2 * F)
  | Out _ _ _ => false
  end.

(** The tiles a program loads. *)
Definition q_of (r h : nat) : mat R := load_tile (jq J) (start r) (len r) h.
Definition k_of (r h : nat) : mat R := fun s d => load_tile (jk J) (start r) (len r) h s d * k_scale K.
Definition v_of (r h : nat) : mat R := fun s d => load_tile (jv J) (start r) (len r) h s d * v_scale K.

Lemma out_tile_state W q k v l w (S S' : mat R) (Z Z' : vec R) s d :
  (forall f, (f < 2 * F)%nat -> S f d = S' f d) -> (forall f, (f < 2 * F)%nat -> Z f = Z' f) ->
  out_tile K W q k v l w S Z s d = out_tile K W q k v l w S' Z' s d.
Proof.
  intros ES EZ. unfold out_tile. destruct (query_features K W q l) as [pos neg].
  destruct (s <? l); [|done]. f_equal; [f_equal; f_equal|f_equal; f_equal; f_equal; f_equal];
    apply vsum_ext; intros f Hf; f_equal; (apply ES || apply EZ); lia.
Qed.

Lemma new_S_state W k v l (S S' : mat R) f d :
  S f d = S' f d -> new_S K W k v l S f d = new_S K W k v l S' f d.
Proof. intros E. unfold new_S. destruct (key_features K W k l). by rewrite E. Qed.

Lemma new_Z_state W k l (Z Z' : vec R) f :
  Z f = Z' f -> new_Z K W k l Z f = new_Z K W k l Z' f.
Proof. intros E. unfold new_Z. destruct (key_features K W k l). by rewrite E. Qed.

(** What the programs store. *)
Definition val_state (kvh : nat -> nat) (rd : option (mem R)) (pid : nat * nat) (m : mem R) (c : cell)
    : R :=
  let '(r, h) := pid in
  let sr := src_of rd m in
  match c with
  | CS _ _ f d => new_S K (kp_W K h) (k_of r (kvh h)) (v_of r (kvh h)) (len r)
                    (fun f d => sr (CS (slot r) h f d)) f d
  | CZ _ _ f => new_Z K (kp_W K h) (k_of r (kvh h)) (len r) (fun f => sr (CZ (slot r) h f)) f
  | Out _ _ _ => m c
  end.

Definition val_out (sh : nat -> nat) (rd : mem R) (pid : nat * nat) (c : cell) : R :=
  let '(r, h) := pid in
  match c with
  | Out t _ d => out_tile K (kp_W K (sh h)) (q_of r h) (k_of r (h / groups K)) (v_of r (h / groups K))
                   (len r) (gate K h) (fun f d => rd (CS (slot r) (sh h) f d))
                   (fun f => rd (CZ (slot r) (sh h) f)) (t - start r)%nat d
  | _ => rd c
  end.

Lemma reg_state_disjoint n (order : list (nat * nat)) pid pid' c :
  job_ok -> (forall p, p ∈ order -> p ∈ grid (length (jslot J)) n) ->
  pid ∈ order -> pid' ∈ order -> reg_state pid c = true -> reg_state pid' c = true -> pid' = pid.
Proof.
  intros [_ _ Hn _ _] Hg Hp Hp' Hc Hc'. apply Hg in Hp, Hp'.
  destruct pid as [r h], pid' as [r' h']. apply grid_inv in Hp as [Hr _], Hp' as [Hr' _].
  assert (E : slot r = slot r' /\ h' = h) 
    by (destruct c; unfold reg_state in *; cbn [fst snd] in *; try done;
        rewrite ?andb_true_iff, ?Nat.eqb_eq in *; intuition congruence).
  destruct E as [E ->]. f_equal.
  destruct (lookup_lt_is_Some_2 (jslot J) r ltac:(lia)) as [x Hx].
  destruct (lookup_lt_is_Some_2 (jslot J) r' ltac:(lia)) as [y Hy].
  rewrite (nth_lookup_Some _ _ _ _ Hx), (nth_lookup_Some _ _ _ _ Hy) in E. subst y.
  by eapply NoDup_lookup.
Qed.

Lemma reg_out_disjoint n (order : list (nat * nat)) pid pid' c :
  job_ok -> (forall p, p ∈ order -> p ∈ grid (length (jslot J)) n) ->
  pid ∈ order -> pid' ∈ order -> reg_out pid c = true -> reg_out pid' c = true -> pid' = pid.
Proof.
  intros [_ _ _ Hd _] Hg Hp Hp' Hc Hc'. apply Hg in Hp, Hp'.
  destruct pid as [r h], pid' as [r' h']. apply grid_inv in Hp as [Hr _], Hp' as [Hr' _].
  destruct c as [t hh d| |]; unfold reg_out in *; cbn [fst snd] in *; [|done|done].
  rewrite ?andb_true_iff, ?Nat.eqb_eq, ?Nat.leb_le, ?Nat.ltb_lt in *.
  assert (r = r') as <- by (apply (Hd r r' t); lia). f_equal. lia.
Qed.


(** The grids of [_run_kernels] in any order. *)
Definition runs (order : list (nat * nat)) (heads : nat) : Prop :=
  order ≡ₚ grid (length (jslot J)) heads.

Lemma runs_NoDup order heads : runs order heads -> NoDup order.
Proof. unfold runs. intros ->. apply grid_NoDup. Qed.

Lemma runs_elem order heads p : runs order heads -> p ∈ order <-> p ∈ grid (length (jslot J)) heads.
Proof. unfold runs. by intros ->. Qed.

(** The output kernel. *)
Lemma streaming_writes share rd pid m c :
  _hybrid_output_kernel_streaming K J share rd pid m c =
  if reg_out pid c
  then val_out (fun h => if share : bool then (h / groups K)%nat else h) rd pid c else m c.
Proof. destruct pid as [r h]. by destruct c. Qed.

Lemma streaming_cell share rd order heads m pid c :
  job_ok -> runs order heads -> pid ∈ grid (length (jslot J)) heads -> reg_out pid c = true ->
  launch (_hybrid_output_kernel_streaming K J share rd) order m c
  = val_out (fun h => if share : bool then (h / groups K)%nat else h) rd pid c.
Proof.
  intros Hj Ho Hp Hc.
  apply (launch_write _ reg_out (fun pid _ => val_out (fun h => if share then (h / groups K)%nat else h) rd pid) (fun _ => True));
    [intros; apply streaming_writes|done|by eapply runs_NoDup|done|by rewrite (runs_elem _ _ _ Ho)|done|].
  intros p y Hin Hy Hy'. eapply (reg_out_disjoint heads order pid p y); try done;
    intros; by rewrite <- (runs_elem _ _ _ Ho) || by rewrite (runs_elem _ _ _ Ho).
Qed.

Lemma streaming_keep share rd order m c :
  (forall pid, pid ∈ order -> reg_out pid c = false) ->
  launch (_hybrid_output_kernel_streaming K J share rd) order m c = m c.
Proof.
  apply (launch_keep _ reg_out (fun pid _ => val_out (fun h => if share then (h / groups K)%nat else h) rd pid)
    (fun _ => True)); [intros; apply streaming_writes|done].
Qed.

(** The update kernel. *)
Lemma update_writes uses rd pid m c :
  _hybrid_update_state_kernel_rw K J uses rd pid m c =
  if reg_state pid c
  then val_state (fun h => if uses : bool then h else (h / groups K)%nat) rd pid m c else m c.
Proof. destruct pid as [r h]. by destruct c. Qed.

Lemma val_state_local kvh rd pid (m m' : mem R) c :
  (forall y, reg_state pid y = true -> m y = m' y) -> reg_state pid c = true ->
  val_state kvh rd pid m c = val_state kvh rd pid m' c.
Proof.
  intros Hm Hc. destruct pid as [r h]. unfold val_state. destruct rd as [rd|]; [by destruct c|].
  simpl src_of. destruct c as [|sl hh f d|sl hh f]; [done| |];
    unfold reg_state in Hc; cbn [fst snd] in Hc; rewrite !andb_true_iff, !Nat.eqb_eq in Hc.
  - apply new_S_state, Hm. unfold reg_state. cbn [fst snd].
    rewrite !andb_true_iff, !Nat.eqb_eq. intuition.
  - apply new_Z_state, Hm. unfold reg_state. cbn [fst snd].
    rewrite !andb_true_iff, !Nat.eqb_eq. intuition.
Qed.

Lemma update_cell uses rd order heads m pid c :
  job_ok -> runs order heads -> pid ∈ grid (length (jslot J)) heads -> reg_state pid c = true ->
  launch (_hybrid_update_state_kernel_rw K J uses rd) order m c
  = val_state (fun h => if uses : bool then h else (h / groups K)%nat) rd pid m c.
Proof.
  intros Hj Ho Hp Hc.
  apply (launch_write _ reg_state (val_state (fun h => if uses then h else (h / groups K)%nat) rd)
    (fun _ => True));
    [intros; apply update_writes|intros; by apply val_state_local|by eapply runs_NoDup|done
    |by rewrite (runs_elem _ _ _ Ho)|done|].
  intros p y Hin Hy Hy'. eapply (reg_state_disjoint heads order pid p y); try done;
    intros; by rewrite <- (runs_elem _ _ _ Ho) || by rewrite (runs_elem _ _ _ Ho).
Qed.

Lemma update_keep uses rd order m c :
  (forall pid, pid ∈ order -> reg_state pid c = false) ->
  launch (_hybrid_update_state_kernel_rw K J uses rd) order m c = m c.
Proof.
  apply (launch_keep _ reg_state (val_state (fun h => if uses then h else (h / groups K)%nat) rd)
    (fun _ => True)); [intros; apply update_writes|done].
Qed.

(** The fused kernel. *)
Definition val_fused (rd : option (mem R)) (pid : nat * nat) (m : mem R) (c : cell) : R :=
  match c with
  | Out _ _ _ => val_out (fun h => h) (src_of rd m) pid c
  | _ => val_state (fun h => (h / groups K)%nat) rd pid m c
  end.

Lemma fused_writes rd pid m c :
  _hybrid_output_update_kernel_fused_perq K J rd pid m c =
  if reg_out pid c || reg_state pid c then val_fused rd pid m c else m c.
Proof. destruct pid as [r h]. destruct c; cbn; [by rewrite orb_false_r|done|done]. Qed.

Lemma reg_state_cell r h f d :
  (f < 2 * F)%nat -> (d < D)%nat -> reg_state (r, h) (CS (slot r) h f d) = true.
Proof.
  intros Hf Hd. unfold reg_state. cbn [fst snd]. rewrite !Nat.eqb_refl. simpl (true && true).
  by rewrite (proj2 (Nat.ltb_lt _ _) Hf), (proj2 (Nat.ltb_lt _ _) Hd).
Qed.

Lemma reg_state_cellZ r h f : (f < 2 * F)%nat -> reg_state (r, h) (CZ (slot r) h f) = true.
Proof.
  intros Hf. unfold reg_state. cbn [fst snd]. rewrite !Nat.eqb_refl.
  by rewrite (proj2 (Nat.ltb_lt _ _) Hf).
Qed.

Lemma val_fused_local rd pid (m m' : mem R) c :
  (forall y, reg_out pid y || reg_state pid y = true -> m y = m' y) ->
  reg_out pid c || reg_state pid c = true -> val_fused rd pid m c = val_fused rd pid m' c.
Proof.
  intros Hm Hc. unfold val_fused.
  assert (Hs : forall y, reg_state pid y = true -> m y = m' y)
    by (intros y Hy; apply Hm; by rewrite Hy, orb_true_r).
  destruct c as [t hh d| |]; try (by apply val_state_local).
  destruct rd as [rd|]; [done|]. destruct pid as [r h]. unfold val_out. simpl src_of.
  assert (Hd : (d < D)%nat).
  { unfold reg_out, reg_state in Hc. rewrite orb_false_r, !andb_true_iff, !Nat.ltb_lt in Hc. apply Hc. }
  apply out_tile_state; intros f Hf; apply Hs; [by apply reg_state_cell|by apply reg_state_cellZ].
Qed.

Lemma fused_cell rd order heads m pid c :
  job_ok -> runs order heads -> pid ∈ grid (length (jslot J)) heads ->
  reg_out pid c || reg_state pid c = true ->
  launch (_hybrid_output_update_kernel_fused_perq K J rd) order m c = val_fused rd pid m c.
Proof.
  intros Hj Ho Hp Hc.
  apply (launch_write _ (fun pid c => reg_out pid c || reg_state pid c) (val_fused rd)
    (fun _ => True));
    [intros; apply fused_writes|intros; by apply val_fused_local|by eapply runs_NoDup|done
    |by rewrite (runs_elem _ _ _ Ho)|done|].
  assert (Hg : forall p, p ∈ order -> p ∈ grid (length (jslot J)) heads)
    by (intros p; by rewrite (runs_elem _ _ _ Ho)).
  assert (Hp' : pid ∈ order) by (by rewrite (runs_elem _ _ _ Ho)).
  intros p y Hin Hy Hy'. destruct y as [t h d| |].
  - change (reg_out pid (Out t h d) || false = true) in Hy.
    change (reg_out p (Out t h d) || false = true) in Hy'.
    rewrite orb_false_r in Hy, Hy'. exact (reg_out_disjoint heads order pid p _ Hj Hg Hp' Hin Hy Hy').
  - exact (reg_state_disjoint heads order pid p _ Hj Hg Hp' Hin Hy Hy').
  - exact (reg_state_disjoint heads order pid p _ Hj Hg Hp' Hin Hy Hy').
Qed.

Lemma fused_keep rd order m c :
  (forall pid, pid ∈ order -> reg_out pid c || reg_state pid c = false) ->
  launch (_hybrid_output_update_kernel_fused_perq K J rd) order m c = m c.
Proof.
  apply (launch_keep _ (fun pid c => reg_out pid c || reg_state pid c) (val_fused rd)
    (fun _ => True)); [intros; apply fused_writes|done].
Qed.


(** ** What one block step computes *)

(** Rows of a token tensor from [st] on. *)
Definition rows_at (x : tok R) (st h : nat) : mat R := fun s d => x (st + s)%nat h d.

(** [m'] is the memory after one block of every request of [J]: [hs] is the
    number of state heads, [sh] the state head of a query head and [kvh] the
    key-value head of a state head; the state is read from [src]. *)
Record step_ok (hs : nat) (sh kvh : nat -> nat) (src m m' : mem R) : Prop := {
  so_out : forall r h s d, (r < length (jslot J))%nat -> (h < kp_H K)%nat -> (s < len r)%nat ->
    (d < D)%nat ->
    m' (Out (start r + s)%nat h d) =
    tile_spec K (kp_W K (sh h)) (rows_at (jq J) (start r) h)
      (rows_at (jk J) (start r) (h / groups K)) (rows_at (jv J) (start r) (h / groups K)) (len r)
      (gate K h) (fun f d => src (CS (slot r) (sh h) f d)) (fun f => src (CZ (slot r) (sh h) f)) s d;
  so_S : forall r h f d, (r < length (jslot J))%nat -> (h < hs)%nat -> (f < 2 * F)%nat -> (d < D)%nat ->
    m' (CS (slot r) h f d) = src (CS (slot r) h f d) +
      vsum (len r) (fun s => hedgehog D F (kp_W K h) (rows_at (jk J) (start r) (kvh h) s) f
                             * rows_at (jv J) (start r) (kvh h) s d);
  so_Z : forall r h f, (r < length (jslot J))%nat -> (h < hs)%nat -> (f < 2 * F)%nat ->
    m' (CZ (slot r) h f) = src (CZ (slot r) h f) +
      vsum (len r) (fun s => hedgehog D F (kp_W K h) (rows_at (jk J) (start r) (kvh h) s) f);
  so_keep_out : forall t h d,
    (forall r, (r < length (jslot J))%nat -> ~ (start r <= t < start r + len r)%nat) ->
    m' (Out t h d) = m (Out t h d);
  so_keep_S : forall sl h f d, sl ∉ jslot J -> m' (CS sl h f d) = m (CS sl h f d);
  so_keep_Z : forall sl h f, sl ∉ jslot J -> m' (CZ sl h f) = m (CZ sl h f);
}.

Hypothesis ok : job_ok.
Hypothesis F_pos : (0 < F)%nat.
Hypothesis eps_le : sle eps s1.
Hypothesis kscale : k_scale K = s1.
Hypothesis vscale : v_scale K = s1.
(** Scores are representable where a block has dead lanes. *)
Hypothesis scores : forall r, (r < length (jslot J))%nat -> (len r < BS)%nat -> forall t j h,
  sle sfmin (vsum D (fun e => jq J t h e * jk J j (h / groups K)%nat e) * kp_scale K).

Lemma k_of_row r h s d : (s < len r)%nat -> k_of r h s d = rows_at (jk J) (start r) h s d.
Proof.
  intros Hs. unfold k_of, load_tile, rows_at. rewrite kscale.
  destruct (Nat.ltb_spec s (len r)); [ring|lia].
Qed.

Lemma v_of_row r h s d : (s < len r)%nat -> v_of r h s d = rows_at (jv J) (start r) h s d.
Proof.
  intros Hs. unfold v_of, load_tile, rows_at. rewrite vscale.
  destruct (Nat.ltb_spec s (len r)); [ring|lia].
Qed.

Lemma q_of_row r h s d : (s < len r)%nat -> q_of r h s d = rows_at (jq J) (start r) h s d.
Proof. intros Hs. unfold q_of, load_tile. by destruct (Nat.ltb_spec s (len r)); [|lia]. Qed.

Lemma val_out_spec sh rd r h s d :
  (r < length (jslot J))%nat -> (s < len r)%nat ->
  val_out sh rd (r, h) (Out (start r + s)%nat h d) =
  tile_spec K (kp_W K (sh h)) (rows_at (jq J) (start r) h)
    (rows_at (jk J) (start r) (h / groups K)) (rows_at (jv J) (start r) (h / groups K)) (len r)
    (gate K h) (fun f d => rd (CS (slot r) (sh h) f d)) (fun f => rd (CZ (slot r) (sh h) f)) s d.
Proof.
  intros Hr Hs. unfold val_out. replace (start r + s - start r)%nat with s by lia.
  pose proof (jo_block ok r Hr) as Hl.
  rewrite (out_tile_eq K F_pos eps_le); [|done|done|].
  - apply tile_spec_ext; try done; intros.
    + by apply q_of_row.
    + by apply k_of_row.
    + by apply v_of_row.
  - intros Hlt s' j Hs' Hj. rewrite (vsum_ext D _ (fun e => jq J (start r + s')%nat h e *
      jk J (start r + j)%nat (h / groups K)%nat e)); [by apply (scores r)|].
    intros e _. by rewrite q_of_row, k_of_row.
Qed.

Lemma val_state_S kvh rd m r h f d :
  (r < length (jslot J))%nat -> (f < 2 * F)%nat ->
  val_state kvh rd (r, h) m (CS (slot r) h f d) = src_of rd m (CS (slot r) h f d) +
    vsum (len r) (fun s => hedgehog D F (kp_W K h) (rows_at (jk J) (start r) (kvh h) s) f
                           * rows_at (jv J) (start r) (kvh h) s d).
Proof.
  intros Hr Hf. unfold val_state. pose proof (jo_block ok r Hr) as Hl.
  rewrite (new_S_eq K F_pos eps_le) by done. f_equal. apply vsum_ext. intros s Hs.
  rewrite v_of_row by done. f_equal. apply hedgehog_ext. intros e _. by apply k_of_row.
Qed.

Lemma val_state_Z kvh rd m r h f :
  (r < length (jslot J))%nat -> (f < 2 * F)%nat ->
  val_state kvh rd (r, h) m (CZ (slot r) h f) = src_of rd m (CZ (slot r) h f) +
    vsum (len r) (fun s => hedgehog D F (kp_W K h) (rows_at (jk J) (start r) (kvh h) s) f).
Proof.
  intros Hr Hf. unfold val_state. pose proof (jo_block ok r Hr) as Hl.
  rewrite (new_Z_eq K F_pos eps_le) by done. f_equal. apply vsum_ext. intros s Hs.
  apply hedgehog_ext. intros e _. by apply k_of_row.
Qed.

Lemma reg_out_cell r h s d :
  (r < length (jslot J))%nat -> (s < len r)%nat -> (d < D)%nat ->
  reg_out (r, h) (Out (start r + s)%nat h d) = true.
Proof.
  intros Hr Hs Hd. pose proof (jo_block ok r Hr). unfold reg_out. cbn [fst snd].
  rewrite !andb_true_iff, Nat.eqb_eq, Nat.leb_le, !Nat.ltb_lt. lia.
Qed.

Lemma reg_out_none n t h d :
  (forall r, (r < length (jslot J))%nat -> ~ (start r <= t < start r + len r)%nat) ->
  forall pid, pid ∈ grid (length (jslot J)) n -> reg_out pid (Out t h d) = false.
Proof.
  intros Hn [r h'] [Hr _]%grid_inv. unfold reg_out. cbn [fst snd]. specialize (Hn r Hr).
  destruct (Nat.leb_spec (start r) t), (Nat.ltb_spec t (start r + Nat.min BS (len r)));
    rewrite ?andb_false_r, ?andb_false_l; try done. lia.
Qed.

Lemma reg_state_none n c :
  match c with CS sl _ _ _ | CZ sl _ _ => sl ∉ jslot J | Out _ _ _ => True end ->
  forall pid, pid ∈ grid (length (jslot J)) n -> reg_state pid c = false.
Proof.
  intros Hc [r h'] [Hr _]%grid_inv. unfold reg_state. cbn [fst snd].
  destruct (lookup_lt_is_Some_2 (jslot J) r Hr) as [x Hx].
  destruct c as [|sl hh f d|sl hh f]; [done| |];
    (destruct (Nat.eqb_spec sl (slot r)) as [E|]; [exfalso|done]);
    apply Hc; rewrite E, (nth_lookup_Some _ _ _ _ Hx); by eapply list_elem_of_lookup_2.
Qed.

(** One fused launch. *)
Lemma fused_step rd order m :
  runs order (kp_H K) ->
  step_ok (kp_H K) (fun h => h) (fun h => (h / groups K)%nat) (src_of rd m) m
    (launch (_hybrid_output_update_kernel_fused_perq K J rd) order m).
Proof.
  intros Ho. assert (Hg : forall p, p ∈ order -> p ∈ grid (length (jslot J)) (kp_H K))
    by (intros p; by rewrite (runs_elem _ _ _ Ho)). split.
  - intros r h s d Hr Hh Hs Hd. rewrite (fused_cell rd order (kp_H K) m (r, h)); [|done|done
      |by apply grid_elem|by rewrite reg_out_cell]. by apply val_out_spec.
  - intros r h f d Hr Hh Hf Hd. rewrite (fused_cell rd order (kp_H K) m (r, h)); [|done|done
      |by apply grid_elem|by rewrite reg_state_cell, orb_true_r].
    exact (val_state_S (fun h => (h / groups K)%nat) rd m r h f d Hr Hf).
  - intros r h f Hr Hh Hf. rewrite (fused_cell rd order (kp_H K) m (r, h)); [|done|done
      |by apply grid_elem|by rewrite reg_state_cellZ, orb_true_r].
    exact (val_state_Z (fun h => (h / groups K)%nat) rd m r h f Hr Hf).
  - intros t h d Hn. apply fused_keep. intros pid Hp%Hg.
    by rewrite (reg_out_none (kp_H K) t h d Hn pid Hp).
  - intros sl h f d Hn. apply fused_keep. intros pid Hp%Hg. cbn [reg_out].
    by rewrite (reg_state_none (kp_H K) (CS sl h f d) Hn pid Hp).
  - intros sl h f Hn. apply fused_keep. intros pid Hp%Hg. cbn [reg_out].
    by rewrite (reg_state_none (kp_H K) (CZ sl h f) Hn pid Hp).
Qed.

(** The output launch followed by the update launch. *)
Lemma two_step share rd order order' hs m :
  runs order (kp_H K) -> runs order' hs ->
  step_ok hs (fun h => if share : bool then (h / groups K)%nat else h)
    (fun h => if share then h else (h / groups K)%nat) (src_of rd m) m
    (launch (_hybrid_update_state_kernel_rw K J share rd) order'
       (launch (_hybrid_output_kernel_streaming K J share (src_of rd m)) order m)).
Proof.
  intros Ho Ho'. set (m1 := launch (_hybrid_output_kernel_streaming K J share (src_of rd m)) order m).
  assert (Hg : forall p, p ∈ order -> p ∈ grid (length (jslot J)) (kp_H K))
    by (intros p; by rewrite (runs_elem _ _ _ Ho)).
  assert (Hg' : forall p, p ∈ order' -> p ∈ grid (length (jslot J)) hs)
    by (intros p; by rewrite (runs_elem _ _ _ Ho')).
  assert (Hs1 : forall sl h f d, m1 (CS sl h f d) = m (CS sl h f d))
    by (intros; by apply streaming_keep).
  assert (Hz1 : forall sl h f, m1 (CZ sl h f) = m (CZ sl h f)) by (intros; by apply streaming_keep).
  split.
  - intros r h s d Hr Hh Hs Hd. rewrite update_keep by done. unfold m1.
    rewrite (streaming_cell share _ order (kp_H K) m (r, h)); [|done|done|by apply grid_elem
      |by apply reg_out_cell]. by apply val_out_spec.
  - intros r h f d Hr Hh Hf Hd. rewrite (update_cell share rd order' hs m1 (r, h)); [|done|done
      |by apply grid_elem|by apply reg_state_cell]. rewrite val_state_S by done. f_equal.
    destruct rd; [done|apply Hs1].
  - intros r h f Hr Hh Hf. rewrite (update_cell share rd order' hs m1 (r, h)); [|done|done
      |by apply grid_elem|by apply reg_state_cellZ]. rewrite val_state_Z by done. f_equal.
    destruct rd; [done|apply Hz1].
  - intros t h d Hn. rewrite update_keep by done. apply streaming_keep. intros pid Hp%Hg.
    by apply (reg_out_none (kp_H K)).
  - intros sl h f d Hn. rewrite update_keep by (intros pid Hp%Hg'; by apply (reg_state_none hs)).
    apply Hs1.
  - intros sl h f Hn. rewrite update_keep by (intros pid Hp%Hg'; by apply (reg_state_none hs)).
    apply Hz1.
Qed.


(** Two memories after the same step agree on every cell of the tensors. *)
Definition in_bounds (hs : nat) (c : cell) : Prop :=
  match c with
  | Out _ h d => (h < kp_H K)%nat /\ (d < D)%nat
  | CS _ h f d => (h < hs)%nat /\ (f < 2 * F)%nat /\ (d < D)%nat
  | CZ _ h f => (h < hs)%nat /\ (f < 2 * F)%nat
  end.

Lemma find_range t :
  (exists r s, (r < length (jslot J))%nat /\ (s < len r)%nat /\ t = (start r + s)%nat) \/
  (forall r, (r < length (jslot J))%nat -> ~ (start r <= t < start r + len r)%nat).
Proof.
  destruct (existsb (fun r => (start r <=? t) && (t <? start r + len r)) (seq 0 (length (jslot J))))
    eqn:E.
  - left. apply existsb_exists in E as (r & Hr & E). apply in_seq in Hr.
    apply andb_true_iff in E as [E1%Nat.leb_le E2%Nat.ltb_lt]. exists r, (t - start r)%nat. lia.
  - right. intros r Hr Ht. assert (true = false); [|done]. rewrite <- E. symmetry.
    apply existsb_exists. exists r. split; [apply in_seq; lia|].
    apply andb_true_iff. split; [apply Nat.leb_le|apply Nat.ltb_lt]; lia.
Qed.

Lemma find_slot sl : (exists r, (r < length (jslot J))%nat /\ sl = slot r) \/ sl ∉ jslot J.
Proof.
  destruct (decide (sl ∈ jslot J)) as [Hin|Hn]; [left|by right].
  apply list_elem_of_lookup in Hin as [r Hr]. exists r. split; [by eapply lookup_lt_Some|].
  by rewrite (nth_lookup_Some _ _ _ _ Hr).
Qed.

Lemma step_agree hs sh kvh src m m1 m2 c :
  step_ok hs sh kvh src m m1 -> step_ok hs sh kvh src m m2 -> in_bounds hs c -> m1 c = m2 c.
Proof.
  intros [A1 A2 A3 A4 A5 A6] [B1 B2 B3 B4 B5 B6] Hc. destruct c as [t h d|sl h f d|sl h f].
  - destruct (find_range t) as [(r & s & Hr & Hs & ->)|Hn]; [|by rewrite A4, B4].
    destruct Hc. by rewrite A1, B1.
  - destruct (find_slot sl) as [(r & Hr & ->)|Hn]; [|by rewrite A5, B5].
    destruct Hc as (? & ? & ?). by rewrite A2, B2.
  - destruct (find_slot sl) as [(r & Hr & ->)|Hn]; [|by rewrite A6, B6].
    destruct Hc as (? & ?). by rewrite A3, B3.
Qed.

(** ** The Python reference *)

Section Reference.
Variables (scale : option R) (alpha : nat -> R) (rd : mem R).
Hypothesis scale_eq : resolve_scale K scale = kp_scale K.
Hypothesis gate_eq : forall h, gate K h = sigmoid (alpha h).

#[local] Abbreviation ref pid := (ref_body K J (resolve_scale K scale) (kp_W K (snd pid)) (snd pid)
  (sigmoid (alpha (snd pid))) rd pid).

Lemma ref_out pid m t h d r :
  pid = (r, h) -> (r < length (jslot J))%nat ->
  ref pid m (Out t h d) = if reg_out pid (Out t h d)
    then tile_spec K (kp_W K h) (rows_at (jq J) (start r) h)
      (rows_at (jk J) (start r) (h / groups K)) (rows_at (jv J) (start r) (h / groups K)) (len r)
      (gate K h) (fun f d => rd (CS (slot r) h f d)) (fun f => rd (CZ (slot r) h f)) (t - start r)%nat d
    else m (Out t h d).
Proof.
  intros -> Hr. unfold ref_body, store_state, reg_out. cbn [fst snd].
  rewrite (Nat.min_r BS) by (by apply (jo_block ok)).
  destruct ((h =? h) && _ && _ && _); [|done].
  unfold tile_spec, _hybrid_feature_map, matmul. rewrite scale_eq, gate_eq.
  rewrite <- (vsum_halves K F_pos (fun f => hedgehog D F (kp_W K h) (rows_at (jq J) (start r) h (t - start r)%nat) f
                                    * rd (CS (slot r) h f d))).
  rewrite <- (vsum_halves K F_pos (fun f => hedgehog D F (kp_W K h) (rows_at (jq J) (start r) h (t - start r)%nat) f
                                    * rd (CZ (slot r) h f))).
  done.
Qed.

Lemma ref_out_other pid m t h d r h' :
  pid = (r, h') -> h <> h' -> ref pid m (Out t h d) = m (Out t h d).
Proof.
  intros -> Hne. unfold ref_body, store_state. destruct (Nat.eqb_spec h h'); [done|]. done.
Qed.

Lemma ref_S r h m sl hh f d :
  ref (r, h) m (CS sl hh f d) = if reg_state (r, h) (CS sl hh f d)
    then rd (CS (slot r) h f d) +
      vsum (len r) (fun s => hedgehog D F (kp_W K h) (rows_at (jk J) (start r) (h / groups K) s) f
                             * rows_at (jv J) (start r) (h / groups K) s d)
    else m (CS sl hh f d).
Proof.
  unfold ref_body, store_state, reg_state. cbn [fst snd].
  destruct ((sl =? slot r) && _ && _ && _); [|done].
  unfold _hybrid_feature_map, matmul, transpose.
  destruct (Nat.ltb_spec f F); [done|]. by replace (F + (f - F))%nat with f by lia.
Qed.

Lemma ref_Z r h m sl hh f :
  ref (r, h) m (CZ sl hh f) = if reg_state (r, h) (CZ sl hh f)
    then rd (CZ (slot r) h f) +
      vsum (len r) (fun s => hedgehog D F (kp_W K h) (rows_at (jk J) (start r) (h / groups K) s) f)
    else m (CZ sl hh f).
Proof.
  unfold ref_body, store_state, reg_state. cbn [fst snd].
  destruct ((sl =? slot r) && _ && _); [|done]. unfold _hybrid_feature_map.
  destruct (Nat.ltb_spec f F); [done|]. by replace (F + (f - F))%nat with f by lia.
Qed.

(** What the reference stores for a program id, as a constant. *)
Definition val_ref (pid : nat * nat) (c : cell) : R :=
  let '(r, h) := pid in
  match c with
  | Out t _ d => tile_spec K (kp_W K h) (rows_at (jq J) (start r) h)
      (rows_at (jk J) (start r) (h / groups K)) (rows_at (jv J) (start r) (h / groups K)) (len r)
      (gate K h) (fun f d => rd (CS (slot r) h f d)) (fun f => rd (CZ (slot r) h f)) (t - start r)%nat d
  | CS _ _ f d => rd (CS (slot r) h f d) +
      vsum (len r) (fun s => hedgehog D F (kp_W K h) (rows_at (jk J) (start r) (h / groups K) s) f
                             * rows_at (jv J) (start r) (h / groups K) s d)
  | CZ _ _ f => rd (CZ (slot r) h f) +
      vsum (len r) (fun s => hedgehog D F (kp_W K h) (rows_at (jk J) (start r) (h / groups K) s) f)
  end.

Lemma ref_writes r h m c :
  (r < length (jslot J))%nat ->
  ref (r, h) m c = if reg_out (r, h) c || reg_state (r, h) c then val_ref (r, h) c else m c.
Proof.
  intros Hr. destruct c as [t hh d|sl hh f d|sl hh f]; [|apply ref_S|apply ref_Z].
  cbn [reg_state]. rewrite orb_false_r. destruct (decide (hh = h)) as [->|Hne].
  - by apply (ref_out (r, h)).
  - rewrite (ref_out_other (r, h) m t hh d r h) by done. unfold reg_out. cbn [fst snd].
    by destruct (Nat.eqb_spec hh h).
Qed.

(** Distinct programs of the reference write distinct cells. *)
Lemma reg_any_disjoint heads pid pid' c :
  pid ∈ grid (length (jslot J)) heads -> pid' ∈ grid (length (jslot J)) heads ->
  reg_out pid c || reg_state pid c = true -> reg_out pid' c || reg_state pid' c = true -> pid' = pid.
Proof.
  intros Hp Hp' Hc Hc'. destruct c as [t h d| |].
  - change (reg_out pid (Out t h d) || false = true) in Hc.
    change (reg_out pid' (Out t h d) || false = true) in Hc'. rewrite orb_false_r in Hc, Hc'.
    exact (reg_out_disjoint heads _ pid pid' _ ok (fun p H => H) Hp Hp' Hc Hc').
  - exact (reg_state_disjoint heads _ pid pid' _ ok (fun p H => H) Hp Hp' Hc Hc').
  - exact (reg_state_disjoint heads _ pid pid' _ ok (fun p H => H) Hp Hp' Hc Hc').
Qed.

Lemma ref_step m :
  step_ok (kp_H K) (fun h => h) (fun h => (h / groups K)%nat) rd m
    (launch (fun pid => ref pid) (grid (length (jslot J)) (kp_H K)) m).
Proof.
  set (g := grid (length (jslot J)) (kp_H K)).
  set (good := fun pid : nat * nat => (fst pid < length (jslot J))%nat).
  assert (Hgood : forall pid, pid ∈ g -> good pid)
    by (intros [r h] [Hr _]%grid_inv; exact Hr).
  assert (Hw : forall pid m c, good pid -> ref pid m c =
    if reg_out pid c || reg_state pid c then val_ref pid c else m c)
    by (intros [r h] m' c Hr; by apply ref_writes).
  assert (Hc : forall pid c, pid ∈ g -> reg_out pid c || reg_state pid c = true ->
    launch (fun pid => ref pid) g m c = val_ref pid c).
  { intros pid c Hp Hc.
    apply (launch_write _ (fun pid c => reg_out pid c || reg_state pid c) (fun pid _ => val_ref pid) good);
      [done|done|apply grid_NoDup|done|done|done|].
    intros j y Hj Hy Hy'. by apply (reg_any_disjoint (kp_H K) pid j y). }
  assert (Hk : forall c, (forall pid, pid ∈ g -> reg_out pid c || reg_state pid c = false) ->
    launch (fun pid => ref pid) g m c = m c).
  { intros c Hn. by apply (launch_keep _ (fun pid c => reg_out pid c || reg_state pid c)
      (fun pid _ => val_ref pid) good). }
  split.
  - intros r h s d Hr Hh Hs Hd. rewrite (Hc (r, h)); [|by apply grid_elem|by rewrite reg_out_cell].
    unfold val_ref. by replace (start r + s - start r)%nat with s by lia.
  - intros r h f d Hr Hh Hf Hd. by rewrite (Hc (r, h)); [|apply grid_elem|rewrite reg_state_cell, orb_true_r].
  - intros r h f Hr Hh Hf. by rewrite (Hc (r, h)); [|apply grid_elem|rewrite reg_state_cellZ, orb_true_r].
  - intros t h d Hn. apply Hk. intros pid Hp. by rewrite (reg_out_none (kp_H K) t h d Hn pid Hp).
  - intros sl h f d Hn. apply Hk. intros pid Hp. by apply (reg_state_none (kp_H K) (CS sl h f d)).
  - intros sl h f Hn. apply Hk. intros pid Hp. by apply (reg_state_none (kp_H K) (CZ sl h f)).
Qed.

End Reference.


(** The update launch, then the output launch on a separate read state. *)
Lemma prod_step rd order order' m :
  runs order (kp_H K) -> runs order' (kp_H K) ->
  step_ok (kp_H K) (fun h => h) (fun h => (h / groups K)%nat) rd m
    (launch (_hybrid_output_kernel_streaming K J false rd) order'
       (launch (_hybrid_update_state_kernel_rw K J false (Some rd)) order m)).
Proof.
  intros Ho Ho'. assert (Hg : forall p, p ∈ order -> p ∈ grid (length (jslot J)) (kp_H K))
    by (intros p; by rewrite (runs_elem _ _ _ Ho)).
  assert (Hg' : forall p, p ∈ order' -> p ∈ grid (length (jslot J)) (kp_H K))
    by (intros p; by rewrite (runs_elem _ _ _ Ho')).
  split.
  - intros r h s d Hr Hh Hs Hd. rewrite (streaming_cell false rd order' (kp_H K) _ (r, h));
      [|done|done|by apply grid_elem|by apply reg_out_cell]. by apply val_out_spec.
  - intros r h f d Hr Hh Hf Hd. rewrite streaming_keep by done.
    rewrite (update_cell false (Some rd) order (kp_H K) m (r, h)); [|done|done
      |by apply grid_elem|by apply reg_state_cell]. by rewrite val_state_S.
  - intros r h f Hr Hh Hf. rewrite streaming_keep by done.
    rewrite (update_cell false (Some rd) order (kp_H K) m (r, h)); [|done|done
      |by apply grid_elem|by apply reg_state_cellZ]. by rewrite val_state_Z.
  - intros t h d Hn. rewrite streaming_keep by (intros pid Hp%Hg'; by apply (reg_out_none (kp_H K))).
    by rewrite update_keep.
  - intros sl h f d Hn. rewrite streaming_keep by done.
    by rewrite update_keep by (intros pid Hp%Hg; by apply (reg_state_none (kp_H K))).
  - intros sl h f Hn. rewrite streaming_keep by done.
    by rewrite update_keep by (intros pid Hp%Hg; by apply (reg_state_none (kp_H K))).
Qed.

End Launches.

Section ReferenceProperty.
Context {R : Type} {HO : ScalarOps R} {sle : R -> R -> Prop} {HL : ScalarLaws R sle}.
Local Open Scope sc_scope.

(** C22. The kernels compute what the Python reference computes: for requests with
    distinct slots and disjoint tokens, at most one block each, the fused launch
    and the pair of update and output launches, in any order of their program
    instances, leave in every cell of the output and of the working state the
    value that [ref_hybrid_extend_per_q] leaves there.  The state is read from [rd],
    apart from the working state that is written, as [write_state] gives it.  Without
    [write_state] the update launch of [prod_forward] comes first and the output reads
    the state it has advanced, which the reference does not do.  Scale and gates are
    those of the reference, the scales of keys and values are one, [eps] is at most one
    and no score is below the least finite float. *)
Theorem kernel_matches_reference (K : kparams R) (J : job R) (scale : option R) (alpha : nat -> R)
    (rd m : mem R) (order order' : list (nat * nat)) :
  job_ok K J -> (0 < kp_F K)%nat -> sle (kp_eps K) s1 -> k_scale K = s1 -> v_scale K = s1 ->
  (forall t j h, sle sfmin (vsum (kp_D K) (fun e => jq J t h e * jk J j (h / groups K)%nat e)
                            * kp_scale K)) ->
  resolve_scale K scale = kp_scale K -> (forall h, gate K h = sigmoid (alpha h)) ->
  runs J order (kp_H K) -> runs J order' (kp_H K) -> (0 < length (jslot J))%nat ->
  exists m', ref_hybrid_extend_per_q K J (kp_H K) scale alpha rd m = Ok m' /\
    forall c, in_bounds K (kp_H K) c ->
      prod_forward_fused K J order (Some rd) m c = m' c /\
      prod_forward K J order order' false (Some rd) m c = m' c.
Proof.
  intros ok HF He Hk Hv Hs Hsc Hga Ho Ho' Hn.
  set (ref := launch (fun pid => ref_body K J (resolve_scale K scale) (kp_W K (snd pid)) (snd pid)
    (sigmoid (alpha (snd pid))) rd pid) (grid (length (jslot J)) (kp_H K)) (zero_out m)).
  exists ref. split.
  { unfold ref_hybrid_extend_per_q. by rewrite Nat.eqb_refl, (jo_len _ _ ok). }
  assert (Sr : step_ok K J (kp_H K) (fun h => h) (fun h => (h / groups K)%nat) rd (zero_out m) ref)
    by (by apply ref_step).
  intros c Hc. unfold prod_forward_fused, prod_forward.
  destruct (Nat.eqb_spec (length (jslot J)) 0) as [E|_]; [lia|].
  split; refine (step_agree K J HF _ _ _ _ _ _ _ c _ Sr Hc).
  - exact (fused_step K J ok HF He Hk Hv (fun _ _ _ => Hs) (Some rd) order (zero_out m) Ho).
  - exact (prod_step K J ok HF He Hk Hv (fun _ _ _ => Hs) rd order order' (zero_out m) Ho Ho').
Qed.

End ReferenceProperty.

(** ** A concrete launch over the real numbers *)

Module Example_.
Export Tensor.Reals.

Definition demo_K : kparams R :=
  mkK 2 1 1 1 2 (/ 10)%R 1%R 1%R 1%R 2 (fun _ _ _ => 1%R) (fun _ => sigmoid 0%R).
Definition demo_x : tok R := fun t _ _ => INR t.

(** A full block and a single token, in slots 3 and 5. *)
Definition demo_J : job R := mkJob demo_x demo_x demo_x [3; 5] [0; 2] [2; 1].

Lemma demo_J_ok : job_ok demo_K demo_J.
Proof.
  split; simpl; try done.
  - apply NoDup_cons. split; [set_solver|apply NoDup_singleton].
  - intros [|[|r]] [|[|r']] t; simpl; lia.
  - intros [|[|r]]; simpl; lia.
Qed.

Lemma demo_scores (t j h : nat) :
  (sfmin <= smul (vsum (kp_D demo_K) (fun e => smul (jq demo_J t h e)
      (jk demo_J j (h / groups demo_K)%nat e))) (kp_scale demo_K))%R.
Proof.
  eapply Rle_trans; [apply real_sfmin|]. simpl. unfold demo_x.
  pose proof (Rmult_le_pos _ _ (pos_INR t) (pos_INR j)). lra.
Qed.

End Example_.
Import Example_.

Lemma kernel_matches_reference_witness :
  let order := rev (grid 2 2) in
  exists m', ref_hybrid_extend_per_q demo_K demo_J 2 (Some 1%R) (fun _ => 0%R) (fun _ => 1%R)
               (fun _ => 0%R) = Ok m' /\
    prod_forward_fused demo_K demo_J order (Some (fun _ => 1%R)) (fun _ => 0%R) (Out 1 1 0)
    = m' (Out 1 1 0).
Proof.
  intros order.
  destruct (kernel_matches_reference (sle := Rle) demo_K demo_J (Some 1%R) (fun _ => 0%R) (fun _ => 1%R)
    (fun _ => 0%R) order order) as (m' & E & Hm); try done.
  - exact demo_J_ok.
  - simpl. lia.
  - simpl. lra.
  - exact demo_scores.
  - unfold resolve_scale. simpl. destruct (Req_dec_T 1 0); [lra|done].
  - unfold runs. symmetry. apply Permutation_rev.
  - unfold runs. symmetry. apply Permutation_rev.
  - simpl. lia.
  - exists m'. split; [exact E|]. apply Hm. simpl. lia.
Defined.

End KF.
