(* ===== verification/KernelDriver.v ===== *)
(** The multi-block driver [_run_kernels] of
    [srt/layers/attention/llada_fast_hybrid_kernel.py].

    Whatever path the driver takes (one fused launch, an output and an update
    launch, or a pair of launches per block over the requests that still have
    tokens), every request of the batch receives the output and the state that
    the PyTorch module of [HybridAttention] computes on its own tokens, and the
    states of other slots are left alone. *)
From stdpp Require Import base list sets.
From Stdlib Require Import ZArith QArith Reals Lra Lia Ring.
From S2P Require Import Prelude.
From S2P Require Import Tensor.
From S2P Require Import LinearAttention.
From S2P Require Import HybridAttention.
From S2P Require Import HybridKernel.
From S2P Require Import KernelFacts.
Local Open Scope nat_scope.

Module KD.
Import HK KF.

(** * Offsets *)

Lemma filter_all {A : Type} (P : A -> Prop) `{!forall x, Decision (P x)} (l : list A) :
  (forall x, x ∈ l -> P x) -> filter P l = l.
Proof.
  induction l as [|x l IH]; intros Hp; [done|].
  rewrite filter_cons_True by (apply Hp; left). f_equal. apply IH. intros y Hy. apply Hp. by right.
Qed.

Lemma map_nth_seq (l : list nat) : map (fun i => nth i l 0) (seq 0 (length l)) = l.
Proof.
  apply list_eq. intros i. rewrite list_lookup_fmap. destruct (lookup_lt_is_Some l i) as [Hs1 Hs2].
  destruct (Nat.ltb_spec i (length l)) as [Hi|Hi].
  - rewrite lookup_seq_lt by done. destruct (Hs2 Hi) as [x Hx]. simpl.
    by rewrite (nth_lookup_Some _ _ _ _ Hx).
  - rewrite lookup_seq_ge, lookup_ge_None_2 by done. done.
Qed.

Lemma nth_map_lookup {A : Type} (f : A -> nat) (l : list A) i x :
  l !! i = Some x -> nth i (map f l) 0 = f x.
Proof. intros Hi. apply nth_lookup_Some. by rewrite list_lookup_fmap, Hi. Qed.

Lemma nth_map_seq (f : nat -> nat) n r : r < n -> nth r (map f (seq 0 n)) 0 = f r.
Proof.
  intros Hr. apply nth_lookup_Some. rewrite list_lookup_fmap, lookup_seq_lt by done. done.
Qed.

Lemma nth_offsets lens r : r < length lens -> nth r (offsets lens) 0 = sum_list (take r lens).
Proof. intros Hr. unfold offsets. by rewrite nth_map_seq. Qed.

(** A request ends where the next begins, or before. *)
Lemma offset_le lens r r' :
  r < r' -> r' < length lens ->
  nth r (offsets lens) 0 + nth r lens 0 <= nth r' (offsets lens) 0.
Proof.
  intros Hr Hr'. rewrite !nth_offsets by lia.
  destruct (lookup_lt_is_Some_2 lens r ltac:(lia)) as [x Hx].
  rewrite (nth_lookup_Some _ _ _ _ Hx).
  assert (E : sum_list (take (S r) lens) = sum_list (take r lens) + x).
  { rewrite (take_S_r _ _ _ Hx), sum_list_with_app. cbn. lia. }
  rewrite <- (take_drop (S r) (take r' lens)), take_take, Nat.min_l, sum_list_with_app, E by lia.
  lia.
Qed.

Lemma offset_disjoint lens r r' x :
  r < length lens -> r' < length lens ->
  nth r (offsets lens) 0 <= x < nth r (offsets lens) 0 + nth r lens 0 ->
  nth r' (offsets lens) 0 <= x < nth r' (offsets lens) 0 + nth r' lens 0 -> r = r'.
Proof.
  intros Hr Hr' Hx Hx'. destruct (Nat.lt_trichotomy r r') as [H|[H|H]]; [|done|].
  - pose proof (offset_le lens r r' H Hr'). lia.
  - pose proof (offset_le lens r' r H Hr). lia.
Qed.

(** * The driver *)

Section Driver.
Context {R : Type} {HO : ScalarOps R} {sle : R -> R -> Prop} {HL : ScalarLaws R sle}.
Local Open Scope sc_scope.

Add Ring driver_ring : s_ring.

Variable M : served R.
Variable sched : list (nat * nat) -> list (nat * nat).
Variables (lens idx : list nat) (q k v : tok R) (rd : option (mem R)) (m0 : mem R).

#[local] Abbreviation H := (num_heads M).
#[local] Abbreviation bs := (block_size M).
#[local] Abbreviation D := (head_dim M).
#[local] Abbreviation F := (feature_dim M).
#[local] Abbreviation share := (share_hedgehog_kv_groups M).
#[local] Abbreviation gr := (num_heads M / num_kv_heads M)%nat.
#[local] Abbreviation K := (kparams_of M gr).
#[local] Abbreviation n := (length lens).
#[local] Abbreviation off r := (nth r (offsets lens) 0%nat).
#[local] Abbreviation slot r := (nth r idx 0%nat).
#[local] Abbreviation nbk r := (nth r lens 0 / bs)%nat.
#[local] Abbreviation pl := (build_request_block_plan lens idx bs).
#[local] Abbreviation hs := (if share then num_kv_heads M else num_heads M).
#[local] Abbreviation W := (hedgehog_weights M).

(** State head of a query head, and key-value head of a state head. *)
Definition sh (h : nat) : nat := if share then (h / gr)%nat else h.
Definition kvh (h : nat) : nat := if share then h else (h / gr)%nat.

(** What the kernels may be called with: whole blocks, one slot per request. *)
Record call_ok : Prop := {
  co_sched : forall l, sched l ≡ₚ l;
  co_bs : (0 < bs)%nat;
  co_F : (0 < F)%nat;
  co_kv : (0 < num_kv_heads M)%nat;
  co_heads : H = (gr * num_kv_heads M)%nat;
  co_eps : sle (sv_eps M) s1;
  co_idx : length idx = n;
  co_slots : NoDup idx;
  co_lens : forall l, l ∈ lens -> (0 < l)%nat /\ l mod bs = 0%nat;
}.

Hypothesis ok : call_ok.
#[local] Abbreviation src0 := (src_of rd m0).

Lemma len_blocks r : (r < n)%nat -> nth r lens 0%nat = (nbk r * bs)%nat /\ (0 < nbk r)%nat.
Proof.
  intros Hr. destruct (co_lens ok (nth r lens 0%nat)) as [Hp Hm].
  { apply list_elem_of_In, nth_In, Hr. }
  pose proof (Nat.div_mod_eq (nth r lens 0%nat) bs) as E. pose proof (co_bs ok). nia.
Qed.

Lemma nb_plan r : (r < n)%nat -> nth r (num_blocks pl) 0%nat = nbk r.
Proof.
  intros Hr. assert (E : num_blocks pl = map (fun l => cdiv l bs) lens) by (by destruct lens).
  rewrite E. destruct (lookup_lt_is_Some_2 lens r Hr) as [x Hx].
  rewrite (nth_lookup_Some _ r 0%nat (cdiv x bs)) by (by rewrite list_lookup_fmap, Hx).
  destruct (len_blocks r Hr) as [El _]. rewrite (nth_lookup_Some _ _ _ _ Hx) in El |- *.
  pose proof (co_bs ok) as Hb. unfold cdiv.
  rewrite El at 1. replace (x / bs * bs + bs - 1)%nat with (x / bs * bs + (bs - 1))%nat by lia.
  rewrite Nat.div_add_l, (Nat.div_small (bs - 1)) by lia. lia.
Qed.

Lemma plan_fields :
  length (num_blocks pl) = n /\ (0 < n)%nat /\ req_indices pl = idx /\ seq_lens pl = lens /\
  start_offsets pl = offsets lens \/ n = 0%nat.
Proof.
  destruct lens as [|l ls]; [by right|left]. simpl. rewrite length_map. repeat split; simpl; lia.
Qed.

(** The state of head [h] of request [r] after [b] blocks, as a sum. *)
Definition S_after (r h b : nat) : mat R := fun f d =>
  src0 (CS (slot r) h f d) +
  vsum (b * bs) (fun j => hedgehog D F (W h) (k (off r + j)%nat (kvh h)) f * v (off r + j)%nat (kvh h) d).
Definition Z_after (r h b : nat) : vec R := fun f =>
  src0 (CZ (slot r) h f) + vsum (b * bs) (fun j => hedgehog D F (W h) (k (off r + j)%nat (kvh h)) f).

(** The output of request [r] at its token [t]. *)
Definition out_spec (r h t d : nat) : R :=
  let b := (t / bs)%nat in
  tile_spec K (W (sh h)) (rows_at q (off r + b * bs)%nat h)
    (rows_at k (off r + b * bs)%nat (h / gr)) (rows_at v (off r + b * bs)%nat (h / gr)) bs
    (sigmoid (alpha M h)) (S_after r (sh h) b) (Z_after r (sh h) b) (t mod bs) d.

(** After [b] blocks. *)
Record after (b : nat) (m : mem R) : Prop := {
  af_S : forall r h f d, (r < n)%nat -> (h < hs)%nat -> (f < 2 * F)%nat -> (d < D)%nat ->
    src_of (if (b =? 0)%nat then rd else None) m (CS (slot r) h f d) = S_after r h (Nat.min b (nbk r)) f d;
  af_Z : forall r h f, (r < n)%nat -> (h < hs)%nat -> (f < 2 * F)%nat ->
    src_of (if (b =? 0)%nat then rd else None) m (CZ (slot r) h f) = Z_after r h (Nat.min b (nbk r)) f;
  af_out : forall r h t d, (r < n)%nat -> (h < H)%nat -> (t < Nat.min b (nbk r) * bs)%nat -> (d < D)%nat ->
    m (Out (off r + t)%nat h d) = out_spec r h t d;
  af_keep_S : forall sl h f d, sl ∉ idx -> m (CS sl h f d) = m0 (CS sl h f d);
  af_keep_Z : forall sl h f, sl ∉ idx -> m (CZ sl h f) = m0 (CZ sl h f);
}.

Lemma after_0 : after 0 m0.
Proof.
  split; try done; intros; cbn [Nat.eqb Nat.min]; unfold S_after, Z_after;
    rewrite ?Nat.mul_0_l; cbn [vsum]; try ring; lia.
Qed.

(** ** The launch of one block *)

#[local] Abbreviation act b := (active_of pl b).
#[local] Abbreviation J b := (block_job M pl b q k v).

Lemma active_elem b r : r ∈ act b <-> (r < n)%nat /\ (b < nbk r)%nat.
Proof.
  unfold active_of. rewrite list_elem_of_filter.
  destruct plan_fields as [(E & _)|E0].
  - rewrite E, list_elem_of_In, in_seq. split; [intros [Hb Hr]|intros [Hr Hb]];
      rewrite ?nb_plan in * by lia; lia.
  - assert (lens = []) as -> by (by apply nil_length_inv). simpl. rewrite elem_of_nil. lia.
Qed.

Lemma active_NoDup b : NoDup (act b).
Proof. apply NoDup_filter, NoDup_seq. Qed.

Lemma slot_inj r r' : (r < n)%nat -> (r' < n)%nat -> slot r = slot r' -> r = r'.
Proof.
  intros Hr Hr' E. rewrite <- (co_idx ok) in Hr, Hr'.
  destruct (lookup_lt_is_Some_2 idx r Hr) as [x Hx], (lookup_lt_is_Some_2 idx r' Hr') as [y Hy].
  rewrite (nth_lookup_Some _ _ _ _ Hx), (nth_lookup_Some _ _ _ _ Hy) in E. subst y.
  by eapply NoDup_lookup; [apply (co_slots ok)| |].
Qed.

(** The [i]-th program row of the launch of block [b] works on request [r]. *)
Lemma job_row b i :
  (i < length (jslot (J b)))%nat ->
  exists r, act b !! i = Some r /\ (r < n)%nat /\ (b < nbk r)%nat /\
    nth i (jslot (J b)) 0%nat = slot r /\ nth i (jstart (J b)) 0%nat = (off r + b * bs)%nat /\
    nth i (jlen (J b)) 0%nat = bs.
Proof.
  intros Hi. simpl in Hi. rewrite length_map in Hi.
  destruct (lookup_lt_is_Some_2 (act b) i Hi) as [r Hr]. exists r. split; [done|].
  apply list_elem_of_lookup_2 in Hr as Hin. apply active_elem in Hin as [Hn Hb].
  split; [done|]. split; [done|]. simpl. rewrite !(nth_map_lookup _ _ _ _ Hr).
  destruct plan_fields as [(_ & _ & -> & -> & ->)|E]; [|lia].
  destruct (len_blocks r Hn) as [El _]. split; [done|]. split; [done|]. rewrite El. nia.
Qed.

Lemma row_of b r :
  (r < n)%nat -> (b < nbk r)%nat -> exists i, (i < length (jslot (J b)))%nat /\ act b !! i = Some r.
Proof.
  intros Hr Hb. destruct (proj1 (list_elem_of_lookup _ _) (proj2 (active_elem b r) (conj Hr Hb)))
    as [i Hi]. exists i. split; [|done]. simpl. rewrite length_map. by eapply lookup_lt_Some.
Qed.

Lemma slot_in_job b r : (r < n)%nat -> slot r ∈ jslot (J b) -> (b < nbk r)%nat.
Proof.
  intros Hr (i & Hi)%list_elem_of_lookup.
  assert (Hl : (i < length (jslot (J b)))%nat) by (by eapply lookup_lt_Some).
  destruct (job_row b i Hl) as (r' & _ & Hr' & Hb & E & _).
  rewrite (nth_lookup_Some _ _ _ _ Hi) in E. by rewrite (slot_inj r r') by done.
Qed.

Lemma job_slots b sl : sl ∈ jslot (J b) -> sl ∈ idx.
Proof.
  intros (i & Hi)%list_elem_of_lookup.
  assert (Hl : (i < length (jslot (J b)))%nat) by (by eapply lookup_lt_Some).
  destruct (job_row b i Hl) as (r & _ & Hr & _ & E & _).
  rewrite (nth_lookup_Some _ _ _ _ Hi) in E. subst sl.
  apply list_elem_of_In, nth_In. by rewrite (co_idx ok).
Qed.

(** Rows of the launch work on their own slots and tokens. *)
Lemma block_job_ok b : job_ok K (J b).
Proof.
  split.
  - simpl. by rewrite !length_map.
  - simpl. by rewrite !length_map.
  - simpl. apply NoDup_alt. intros i j x Hi Hj.
    assert (Li : (i < length (jslot (J b)))%nat) by (by eapply lookup_lt_Some).
    assert (Lj : (j < length (jslot (J b)))%nat) by (by eapply lookup_lt_Some).
    destruct (job_row b i Li) as (r & Ar & Hr & _ & E & _).
    destruct (job_row b j Lj) as (r' & Ar' & Hr' & _ & E' & _).
    cbn [jslot block_job] in E, E'.
    rewrite (nth_lookup_Some _ _ _ _ Hi) in E. rewrite (nth_lookup_Some _ _ _ _ Hj) in E'.
    assert (r = r') as -> by (apply slot_inj; congruence).
    by eapply NoDup_lookup; [apply active_NoDup| |].
  - intros i j t Hi Hj.
    destruct (job_row b i Hi) as (r & Ar & Hr & Hb & _ & -> & ->).
    destruct (job_row b j Hj) as (r' & Ar' & Hr' & Hb' & _ & -> & ->). intros Ht Ht'.
    destruct (len_blocks r Hr) as [El _], (len_blocks r' Hr') as [El' _].
    assert (r = r') as -> by (apply (offset_disjoint lens r r' t); try done; nia).
    by eapply NoDup_lookup; [apply active_NoDup| |].
  - intros i Hi. destruct (job_row b i Hi) as (r & _ & _ & _ & _ & _ & ->). done.
Qed.

Lemma S_after_succ r h b f d :
  S_after r h (S b) f d = S_after r h b f d +
  vsum bs (fun s => hedgehog D F (W h) (rows_at k (off r + b * bs)%nat (kvh h) s) f
                    * rows_at v (off r + b * bs)%nat (kvh h) s d).
Proof.
  unfold S_after. replace (S b * bs)%nat with (b * bs + bs)%nat by lia. rewrite vsum_app.
  match goal with |- ?x + (?a + ?b) = ?x + ?a + ?c => replace c with b; [ring|] end.
  apply vsum_ext. intros s _. unfold rows_at. by rewrite Nat.add_assoc.
Qed.

Lemma Z_after_succ r h b f :
  Z_after r h (S b) f = Z_after r h b f +
  vsum bs (fun s => hedgehog D F (W h) (rows_at k (off r + b * bs)%nat (kvh h) s) f).
Proof.
  unfold Z_after. replace (S b * bs)%nat with (b * bs + bs)%nat by lia. rewrite vsum_app.
  match goal with |- ?x + (?a + ?b) = ?x + ?a + ?c => replace c with b; [ring|] end.
  apply vsum_ext. intros s _. unfold rows_at. by rewrite Nat.add_assoc.
Qed.

Lemma sh_lt h : (h < H)%nat -> (sh h < hs)%nat.
Proof.
  intros Hh. unfold sh. pose proof (co_kv ok). pose proof (co_heads ok).
  destruct share; [|done]. apply Nat.Div0.div_lt_upper_bound. lia.
Qed.

#[local] Abbreviation rd_at b := (if (b =? 0)%nat then rd else None).

(** State of a request after a launch. *)
Lemma after_step_S b m m' r h f d :
  after b m -> step_ok K (J b) hs sh kvh (src_of (rd_at b) m) m m' ->
  (r < n)%nat -> (h < hs)%nat -> (f < 2 * F)%nat -> (d < D)%nat ->
  m' (CS (slot r) h f d) = S_after r h (Nat.min (S b) (nbk r)) f d.
Proof.
  intros Ha Hs Hr Hh Hf Hd. destruct (Nat.ltb_spec b (nbk r)) as [Hb|Hb].
  - destruct (row_of b r Hr Hb) as (i & Hi & Ei).
    destruct (job_row b i Hi) as (r' & Ei' & _ & _ & Es & Et & El).
    rewrite Ei in Ei'. injection Ei' as <-.
    pose proof (so_S _ _ _ _ _ _ _ _ Hs i h f d Hi Hh Hf Hd) as E.
    rewrite Es, Et, El in E. rewrite E, (af_S _ _ Ha) by done. cbn [jk jv block_job].
    rewrite (Nat.min_l (S b)), (Nat.min_l b) by lia. symmetry. apply S_after_succ.
  - destruct (len_blocks r Hr) as [_ Hp]. rewrite (so_keep_S _ _ _ _ _ _ _ _ Hs).
    + pose proof (af_S _ _ Ha r h f d Hr Hh Hf Hd) as E.
      destruct (Nat.eqb_spec b 0); [lia|]. cbn [src_of default] in E. simpl in E. rewrite E.
      by rewrite !Nat.min_r by lia.
    + intros Hin. apply slot_in_job in Hin; [lia|done].
Qed.

Lemma after_step_Z b m m' r h f :
  after b m -> step_ok K (J b) hs sh kvh (src_of (rd_at b) m) m m' ->
  (r < n)%nat -> (h < hs)%nat -> (f < 2 * F)%nat ->
  m' (CZ (slot r) h f) = Z_after r h (Nat.min (S b) (nbk r)) f.
Proof.
  intros Ha Hs Hr Hh Hf. destruct (Nat.ltb_spec b (nbk r)) as [Hb|Hb].
  - destruct (row_of b r Hr Hb) as (i & Hi & Ei).
    destruct (job_row b i Hi) as (r' & Ei' & _ & _ & Es & Et & El).
    rewrite Ei in Ei'. injection Ei' as <-.
    pose proof (so_Z _ _ _ _ _ _ _ _ Hs i h f Hi Hh Hf) as E.
    rewrite Es, Et, El in E. rewrite E, (af_Z _ _ Ha) by done. cbn [jk jv block_job].
    rewrite (Nat.min_l (S b)), (Nat.min_l b) by lia. symmetry. apply Z_after_succ.
  - destruct (len_blocks r Hr) as [_ Hp]. rewrite (so_keep_Z _ _ _ _ _ _ _ _ Hs).
    + pose proof (af_Z _ _ Ha r h f Hr Hh Hf) as E.
      destruct (Nat.eqb_spec b 0); [lia|]. simpl in E. rewrite E.
      by rewrite !Nat.min_r by lia.
    + intros Hin. apply slot_in_job in Hin; [lia|done].
Qed.

(** Outputs: the launch writes the rows of block [b] and keeps the rows before. *)
Lemma after_step_out b m m' r h t d :
  after b m -> step_ok K (J b) hs sh kvh (src_of (rd_at b) m) m m' ->
  (r < n)%nat -> (h < H)%nat -> (t < Nat.min (S b) (nbk r) * bs)%nat -> (d < D)%nat ->
  m' (Out (off r + t)%nat h d) = out_spec r h t d.
Proof.
  intros Ha Hs Hr Hh Ht Hd. pose proof (co_bs ok) as Hbs.
  destruct (Nat.ltb_spec t (b * bs)) as [Hlt|Hge].
  - rewrite (so_keep_out _ _ _ _ _ _ _ _ Hs).
    { apply (af_out _ _ Ha); try done. nia. }
    intros i Hi. destruct (job_row b i Hi) as (r' & _ & Hr' & Hb' & _ & -> & ->). intros Hx.
    destruct (len_blocks r Hr) as [El _], (len_blocks r' Hr') as [El' _].
    assert (r = r') as <- by (apply (offset_disjoint lens r r' (off r + t)); try done; nia). lia.
  - assert (Hb : (b < nbk r)%nat) by nia.
    assert (Eb : (t / bs = b)%nat) by (symmetry; apply (Nat.div_unique _ _ _ (t - b * bs)); nia).
    assert (Em : (t mod bs = t - b * bs)%nat) by (symmetry; apply (Nat.mod_unique _ _ b); nia).
    destruct (row_of b r Hr Hb) as (i & Hi & Ei).
    destruct (job_row b i Hi) as (r' & Ei' & _ & _ & Es & Et & El).
    rewrite Ei in Ei'. injection Ei' as <-.
    pose proof (so_out _ _ _ _ _ _ _ _ Hs i h (t - b * bs)%nat d Hi Hh) as E.
    rewrite Es, Et, El in E. replace (off r + b * bs + (t - b * bs))%nat with (off r + t)%nat in E by lia.
    rewrite E by (try done; nia). unfold out_spec. rewrite Eb, Em.
    apply tile_spec_ext; try done; [nia| |]; intros f Hf.
    + rewrite (af_S _ _ Ha) by (try done; by apply sh_lt). by rewrite Nat.min_l by lia.
    + rewrite (af_Z _ _ Ha) by (try done; by apply sh_lt). by rewrite Nat.min_l by lia.
Qed.

Lemma after_step b m m' :
  after b m -> step_ok K (J b) hs sh kvh (src_of (rd_at b) m) m m' -> after (S b) m'.
Proof.
  intros Ha Hs. split.
  - intros. by eapply after_step_S.
  - intros. by eapply after_step_Z.
  - intros. by eapply after_step_out.
  - intros sl h f d Hn. rewrite <- (af_keep_S _ _ Ha) by done.
    apply (so_keep_S _ _ _ _ _ _ _ _ Hs). contradict Hn. by apply (job_slots b).
  - intros sl h f Hn. rewrite <- (af_keep_Z _ _ Ha) by done.
    apply (so_keep_Z _ _ _ _ _ _ _ _ Hs). contradict Hn. by apply (job_slots b).
Qed.

(** ** The paths of the driver *)

(** No block has dead lanes. *)
Lemma lens_full_blocks b r : (r < length (jslot (J b)))%nat -> (nth r (jlen (J b)) 0 < BLOCK_S K)%nat ->
  forall t j h, sle sfmin (vsum (kp_D K) (fun e => jq (J b) t h e * jk (J b) j (h / groups K)%nat e) * kp_scale K).
Proof.
  intros Hr Hl. destruct (job_row b r Hr) as (r' & _ & Hr' & Hb & _ & _ & El). rewrite El in Hl.
  exfalso. simpl in Hl. lia.
Qed.

Lemma two_launches_step b m :
  step_ok K (J b) hs sh kvh (src_of (rd_at b) m) m (two_launches M sched gr (J b) (rd_at b) m).
Proof.
  apply (two_step K (J b) (block_job_ok b) (co_F ok) (co_eps ok) eq_refl eq_refl (lens_full_blocks b)
    share (rd_at b)); apply (co_sched ok).
Qed.

Lemma fused_path_step b m :
  share = false ->
  step_ok K (J b) hs sh kvh (src_of (rd_at b) m) m
    (launch (_hybrid_output_update_kernel_fused_perq K (J b) (rd_at b))
       (sched (grid (length (jslot (J b))) H)) m).
Proof.
  intros Es. unfold sh, kvh. rewrite Es.
  apply (fused_step K (J b) (block_job_ok b) (co_F ok) (co_eps ok) eq_refl eq_refl (lens_full_blocks b)).
  apply (co_sched ok).
Qed.

(** Once every request is done, further blocks change nothing. *)
Lemma after_done b b' m :
  (forall r, (r < n)%nat -> (nbk r <= b)%nat) -> (b <= b')%nat -> after b m -> after b' m.
Proof.
  intros Hd Hb Ha. split; try apply Ha.
  - intros r h f d Hr Hh Hf Hd'. destruct (len_blocks r Hr) as [_ Hp]. specialize (Hd r Hr).
    pose proof (af_S _ _ Ha r h f d Hr Hh Hf Hd') as E.
    destruct (Nat.eqb_spec b 0), (Nat.eqb_spec b' 0); try lia. rewrite E. by rewrite !Nat.min_r by lia.
  - intros r h f Hr Hh Hf. destruct (len_blocks r Hr) as [_ Hp]. specialize (Hd r Hr).
    pose proof (af_Z _ _ Ha r h f Hr Hh Hf) as E.
    destruct (Nat.eqb_spec b 0), (Nat.eqb_spec b' 0); try lia. rewrite E. by rewrite !Nat.min_r by lia.
  - intros r h t d Hr Hh Ht. specialize (Hd r Hr). rewrite Nat.min_r in Ht by lia.
    apply (af_out _ _ Ha); try done. by rewrite Nat.min_r.
Qed.

Lemma loop_after fuel b m :
  after b m -> after (b + fuel) (block_loop M sched gr pl q k v rd fuel b m).
Proof.
  revert b m. induction fuel as [|fuel IH]; intros b m Ha; simpl; [by rewrite Nat.add_0_r|].
  destruct (act b) eqn:E.
  - apply (after_done b); [|lia|done]. intros r Hr.
    destruct (Nat.leb_spec (nbk r) b) as [|Hb]; [done|].
    pose proof (proj2 (active_elem b r) (conj Hr Hb)) as Hin. rewrite E in Hin.
    by apply not_elem_of_nil in Hin.
  - rewrite Nat.add_succ_r. apply (IH (S b)). eapply after_step; [exact Ha|].
    apply two_launches_step.
Qed.

Lemma blocks_max r : (r < n)%nat -> (nbk r <= max_blocks pl)%nat.
Proof.
  intros Hr. rewrite <- nb_plan by done.
  assert (E : max_blocks pl = max_list (num_blocks pl)) by (by destruct lens).
  rewrite E. apply max_list_elem_of_le. apply list_elem_of_In, nth_In.
  destruct plan_fields as [(-> & _)|]; lia.
Qed.

(** With one block per request, the whole batch is the launch of block 0. *)
Lemma single_job :
  max_blocks pl = 1%nat ->
  mkJob q k v (req_indices pl) (start_offsets pl) (seq_lens pl) = J 0 /\ (0 < n)%nat.
Proof.
  intros Hm. destruct plan_fields as [(En & Hn & Ei & El & Eo)|E].
  2: { assert (lens = []) as El by (by apply nil_length_inv). by rewrite El in Hm. }
  split; [|done]. assert (Ea : act 0 = seq 0 n).
  { unfold active_of. rewrite En. apply filter_all.
    intros r Hr%list_elem_of_In%in_seq. rewrite nb_plan by lia. apply len_blocks. lia. }
  unfold block_job. rewrite Ea, Ei, El, Eo. f_equal.
  - by rewrite <- (co_idx ok), map_nth_seq.
  - rewrite <- (map_nth_seq (offsets lens)) at 1. unfold offsets at 2. rewrite length_map, length_seq.
    apply map_ext. intros. lia.
  - rewrite <- (map_nth_seq lens) at 1. apply map_ext_in. intros r Hr%in_seq.
    destruct (len_blocks r ltac:(lia)) as [Eb _]. pose proof (blocks_max r ltac:(lia)). nia.
Qed.

(** The driver, on every path. *)
Lemma run_after :
  exists m', _run_kernels M sched (num_kv_heads M) (num_kv_heads M) pl q k v rd m0 = Ok m' /\
    after (max_blocks pl) m'.
Proof.
  unfold _run_kernels. rewrite Nat.eqb_refl. cbn [negb].
  destruct (Nat.eqb_spec (max_blocks pl) 0) as [E0|E0]; [exists m0; split; [done|]|].
  { rewrite E0. apply after_0. }
  destruct (Nat.eqb_spec (max_blocks pl) 1) as [E1|E1].
  2: { eexists. split; [done|]. apply (loop_after (max_blocks pl) 0), after_0. }
  destruct (single_job E1) as [EJ Hn]. rewrite E1, EJ.
  assert (Ei : length (req_indices pl) = n).
  { destruct plan_fields as [(_ & _ & -> & _)|]; [apply (co_idx ok)|lia]. }
  destruct (Nat.eqb_spec (length (req_indices pl)) 0) as [E|_]; [lia|].
  assert (El : length (req_indices pl) = length (jslot (J 0))) by (by rewrite <- EJ).
  destruct share eqn:Es; cbn [negb]; eexists; (split; [done|]); apply (after_step 0 m0); try apply after_0.
  - exact (two_launches_step 0 m0).
  - rewrite El. exact (fused_path_step 0 m0 Es).
Qed.

(** ** Agreement with the PyTorch module *)

(** The module the served layer implements: same weights, block size, gate. *)
Definition hybrid_of : Hybrid.module R :=
  Hybrid.mkHybrid (num_heads M) (num_kv_heads M) D bs F (sv_eps M) (scaling M) share
    (if share then gr else 1%nat) W (alpha M).

(** The rows of request [r] for query head [h], and the state it starts from. *)
Definition q_req (r h : nat) : mat R := fun t => q (off r + t)%nat h.
Definition k_req (r h : nat) : mat R := fun t => k (off r + t)%nat (h / gr)%nat.
Definition v_req (r h : nat) : mat R := fun t => v (off r + t)%nat (h / gr)%nat.
Definition st_req (src : mem R) (r h : nat) : Rec.state R :=
  Rec.mkSt (fun f d => src (CS (slot r) (sh h) f d)) (fun f => src (CZ (slot r) (sh h) f)).

#[local] Abbreviation fwd r h :=
  (Hybrid.forward hybrid_of h (nbk r * bs) (q_req r h) (k_req r h) (v_req r h) None
     (Some (st_req src0 r h))).

Lemma feature_of h x f : Hybrid._feature_map hybrid_of h x f = hedgehog D F (W (sh h)) x f.
Proof. unfold Hybrid._feature_map, sh. simpl. by destruct share. Qed.

Lemma kvh_sh h : kvh (sh h) = (h / gr)%nat.
Proof. unfold kvh, sh. by destruct share. Qed.

Lemma state_is_after r h b :
  (forall f d, Rec.st_S (state_at (Rec.update bs (fun t => Hybrid._feature_map hybrid_of h (k_req r h t))
                 (v_req r h)) b (st_req src0 r h)) f d = S_after r (sh h) b f d) /\
  (forall f, Rec.st_Z (state_at (Rec.update bs (fun t => Hybrid._feature_map hybrid_of h (k_req r h t))
                 (v_req r h)) b (st_req src0 r h)) f = Z_after r (sh h) b f).
Proof.
  destruct (Rec.state_closed bs (fun t => Hybrid._feature_map hybrid_of h (k_req r h t)) (v_req r h) b
              (st_req src0 r h)) as [E1 E2].
  split; intros; [rewrite E1|rewrite E2]; unfold S_after, Z_after, st_req; cbn [Rec.st_S Rec.st_Z];
    f_equal; apply vsum_ext; intros j _; rewrite feature_of, kvh_sh; done.
Qed.

Lemma out_is_forward r h t d :
  (t < nbk r * bs)%nat -> out_spec r h t d = fst (fwd r h) t d.
Proof.
  intros Ht. rewrite (Hybrid.forward_out hybrid_of (co_bs ok)) by done. unfold out_spec.
  set (b := (t / bs)%nat).
  transitivity (Hybrid._block_out hybrid_of (rows_at q (off r + b * bs)%nat h)
    (rows_at k (off r + b * bs)%nat (h / gr)) (rows_at v (off r + b * bs)%nat (h / gr))
    (fun s => hedgehog D F (W (sh h)) (rows_at q (off r + b * bs)%nat h s))
    (Rec.mkSt (S_after r (sh h) b) (Z_after r (sh h) b)) (sigmoid (alpha M h)) None (t mod bs) d);
    [done|].
  destruct (state_is_after r h b) as [E1 E2].
  apply Hybrid.block_out_ext; [apply Nat.mod_upper_bound; pose proof (co_bs ok); simpl; lia| | | | | |];
    try (intros; unfold rows_at, Hybrid.rows, q_req, k_req, v_req; simpl; by rewrite Nat.add_assoc).
  - intros j f _. unfold Hybrid.rows at 1. rewrite feature_of. unfold rows_at, q_req. simpl.
    by rewrite Nat.add_assoc.
  - intros. symmetry. apply E1.
  - intros. symmetry. apply E2.
Qed.

End Driver.

Section DriverProperty.
Context {R : Type} {HO : ScalarOps R} {sle : R -> R -> Prop} {HL : ScalarLaws R sle}.
Local Open Scope sc_scope.

(** What a call of [_run_kernels] leaves of request [r] and head [h]: the output
    and the final state of the module on the request's rows. *)
Definition ran_module (M : served R) (lens idx : list nat) (q k v : tok R) (src m' : mem R) (r h : nat) : Prop :=
  let run := Hybrid.forward (hybrid_of M) h (nth r lens 0%nat) (q_req lens q r h) (k_req M lens k r h)
               (v_req M lens v r h) None (Some (st_req M idx src r h)) in
  let slot := nth r idx 0%nat in
  (forall t d, (t < nth r lens 0)%nat -> (d < head_dim M)%nat ->
     m' (Out (nth r (offsets lens) 0 + t)%nat h d) = fst run t d) /\
  (forall f d, (f < 2 * feature_dim M)%nat -> (d < head_dim M)%nat ->
     m' (CS slot (sh M h) f d) = Rec.st_S (snd run) f d) /\
  (forall f, (f < 2 * feature_dim M)%nat -> m' (CZ slot (sh M h) f) = Rec.st_Z (snd run) f).

Lemma run_is_module (M : served R) (sched : list (nat * nat) -> list (nat * nat))
    (lens idx : list nat) (q k v : tok R) (rd : option (mem R)) (m : mem R) :
  call_ok (sle := sle) M sched lens idx ->
  exists m', _run_kernels M sched (num_kv_heads M) (num_kv_heads M)
               (build_request_block_plan lens idx (block_size M)) q k v rd m = Ok m' /\
    (forall r h, (r < length lens)%nat -> (h < num_heads M)%nat ->
       ran_module M lens idx q k v (src_of rd m) m' r h) /\
    (forall sl h f d, sl ∉ idx -> m' (CS sl h f d) = m (CS sl h f d)) /\
    (forall sl h f, sl ∉ idx -> m' (CZ sl h f) = m (CZ sl h f)).
Proof.
  intros ok. destruct (run_after M sched lens idx q k v rd m ok) as (m' & E & Ha).
  exists m'. split; [exact E|]. split; [|split; apply Ha].
  intros r h Hr Hh. unfold ran_module. cbv zeta.
  destruct (len_blocks M sched lens idx ok r Hr) as [El Hp].
  pose proof (blocks_max M sched lens idx ok r Hr) as Hm. pose proof (sh_lt M sched lens idx ok h Hh).
  rewrite El. split; [|split].
  - intros t d Ht Hd. rewrite (af_out _ _ _ _ _ _ _ _ _ _ Ha) by (try done; by rewrite Nat.min_r).
    by apply (out_is_forward M sched lens idx q k v rd m ok).
  - intros f d Hf Hd. pose proof (af_S _ _ _ _ _ _ _ _ _ _ Ha r (sh M h) f d) as Es.
    destruct (Nat.eqb_spec (max_blocks (build_request_block_plan lens idx (block_size M))) 0); [lia|].
    simpl in Es. rewrite Es by done. rewrite Nat.min_r by done.
    rewrite (Hybrid.forward_eq (hybrid_of M) (co_bs _ _ _ _ ok)). simpl. symmetry. apply state_is_after.
  - intros f Hf. pose proof (af_Z _ _ _ _ _ _ _ _ _ _ Ha r (sh M h) f) as Es.
    destruct (Nat.eqb_spec (max_blocks (build_request_block_plan lens idx (block_size M))) 0); [lia|].
    simpl in Es. rewrite Es by done. rewrite Nat.min_r by done.
    rewrite (Hybrid.forward_eq (hybrid_of M) (co_bs _ _ _ _ ok)). simpl. symmetry. apply state_is_after.
Qed.

(** C23. The served layer implements the PyTorch module: for a batch of requests
    with distinct slots and whole blocks, keys and values with [num_kv_heads] heads, and
    the block plan given or built by [forward], in any order in which the device runs
    the program instances, [forward] returns, every output row of request [r] and
    head [h] is the row that [BlockSoftmaxLinearHybrid.forward] computes from the
    request's own rows and its stored state, the state left in the request's slot
    is the module's final state, and no other slot changes.  [eps] is at most one, and
    the number of query heads is a multiple of [num_kv_heads]. *)
Theorem served_matches_module (M : served R) (sched : list (nat * nat) -> list (nat * nat))
    (lens idx : list nat) (q k v : tok R) (given : option plan) (rd : option (mem R)) (m : mem R) :
  call_ok (sle := sle) M sched lens idx ->
  (given = None \/ given = Some (build_request_block_plan lens idx (block_size M))) ->
  let hm := hybrid_of M in
  exists m', forward M sched (num_kv_heads M) (num_kv_heads M) q k v lens idx given rd m = Ok m' /\
    (forall r h, (r < length lens)%nat -> (h < num_heads M)%nat ->
       let run := Hybrid.forward hm h (nth r lens 0%nat) (q_req lens q r h) (k_req M lens k r h)
                    (v_req M lens v r h) None (Some (st_req M idx (src_of rd m) r h)) in
       let slot := nth r idx 0%nat in
       (forall t d, (t < nth r lens 0)%nat -> (d < head_dim M)%nat ->
          m' (Out (nth r (offsets lens) 0 + t)%nat h d) = fst run t d) /\
       (forall f d, (f < 2 * feature_dim M)%nat -> (d < head_dim M)%nat ->
          m' (CS slot (sh M h) f d) = Rec.st_S (snd run) f d) /\
       (forall f, (f < 2 * feature_dim M)%nat -> m' (CZ slot (sh M h) f) = Rec.st_Z (snd run) f)) /\
    (forall sl h f d, sl ∉ idx -> m' (CS sl h f d) = m (CS sl h f d)) /\
    (forall sl h f, sl ∉ idx -> m' (CZ sl h f) = m (CZ sl h f)).
Proof.
  intros ok Hp hm. destruct (run_is_module M sched lens idx q k v rd (zero_out m) ok) as (m' & E & Ha & Hk).
  exists m'. split; [by destruct Hp as [->| ->]|]. split; [|exact Hk].
  intros r h Hr Hh. specialize (Ha r h Hr Hh). unfold ran_module in Ha. by destruct rd.
Qed.

End DriverProperty.

(** ** A concrete layer over the real numbers *)

Module Example_.
Export Tensor.Reals.

Definition demo_served : served R :=
  mkServed 2 1 false 1 1 2 (/ 10)%R 1%R 1 (fun _ _ _ => 1%R) (fun _ => 0%R).
Definition demo_tok : tok R := fun t _ _ => INR t.

(** Two requests, of two blocks and of one block, in slots 3 and 5. *)
Lemma demo_call : call_ok (sle := Rle) demo_served (@rev _) [4; 2] [3; 5].
Proof.
  split; simpl; try lia; try done.
  - intros l. symmetry. apply Permutation_rev.
  - lra.
  - apply NoDup_cons. split; [set_solver|apply NoDup_singleton].
  - intros l Hl. assert (l = 4 \/ l = 2) as [->| ->] by set_solver; split; (lia || done).
Qed.

End Example_.
Import Example_.

Lemma served_matches_module_witness :
  exists m', forward demo_served (@rev _) 1 1 demo_tok demo_tok demo_tok [4; 2] [3; 5] None None
               (fun _ => 0%R) = Ok m' /\
    m' (Out 5 1 0) = fst (Hybrid.forward (hybrid_of demo_served) 1 2 (q_req [4; 2] demo_tok 1 1)
      (k_req demo_served [4; 2] demo_tok 1 1) (v_req demo_served [4; 2] demo_tok 1 1) None
      (Some (st_req demo_served [3; 5] (fun _ => 0%R) 1 1))) 1 0.
Proof.
  destruct (served_matches_module demo_served (@rev _) [4; 2] [3; 5] demo_tok demo_tok demo_tok None None
    (fun _ => 0%R) demo_call (or_introl eq_refl)) as (m' & E & Hr & _).
  exists m'. split; [exact E|]. destruct (Hr 1 1) as (Ho & _); [simpl; lia..|].
  apply (Ho 1 0); simpl; lia.
Defined.

End KD.
