(* ===== verification/Backend.v ===== *)
(** The attention backend of the hybrid layers
    ([srt/layers/attention/llada_fast_backend.py]) and the promotion of the working
    state at the end of a block ([Scheduler.stash_chunked_request]).

    Each layer keeps two copies of the recurrent state of every slot: the committed
    one, which every pass over a block starts from, and the working one, which the
    kernels write.  The theorems show that the plan the backend builds in its
    persistent buffers is the plan of the kernels, and that, however many passes the
    denoising of a block takes, the committed state after each block is the state of
    the PyTorch module run over the final tokens, and the outputs of the last pass are
    its outputs. *)
From stdpp Require Import base list sets.
From Stdlib Require Import ZArith QArith Reals Lra Lia Ring.
From S2P Require Import Prelude.
From S2P Require Import Tensor.
From S2P Require Import LinearAttention.
From S2P Require Import HybridAttention.
From S2P Require Import HybridKernel.
From S2P Require Import KernelFacts.
From S2P Require Import KernelDriver.
From S2P Require Import MemoryPool.
Local Open Scope py_scope.
Local Open Scope nat_scope.

Module Bk.
Import HK KF KD.

(** ** Metadata of a forward pass *)

Definition _LLADA_FAST_BLOCK_SIZE : nat := 32.

(** The persistent buffers of the backend. *)
Record buffers : Type := mkBuffers {
  start_offsets_buf : list nat;
  num_blocks_buf : list nat;
}.

(** [__init__], for a pool of [max_bs] requests. *)
Definition init_buffers (max_bs : nat) : buffers :=
  mkBuffers (replicate (max_bs + 1) 0) (replicate max_bs 0).

Definition cumsum (l : list nat) : list nat :=
  map (fun i => sum_list (take (S i) l)) (seq 0 (length l)).

(** [init_forward_metadata]: [slots] is what [get_mamba_indices] returns for the
    batch, [lens] is [extend_seq_lens], [loc] [extend_start_loc] and [lens_cpu]
    [extend_seq_lens_cpu]. *)
Definition init_forward_metadata (slots lens : list nat) (loc lens_cpu : option (list nat)) (b : buffers)
    : plan * buffers :=
  let bs := length lens in
  let '(start_offsets, sbuf) :=
    match loc with
    | Some l => (l, start_offsets_buf b)
    | None =>
      let buf := if 1 <? bs then py_splice 1 (cumsum (take (bs - 1) lens)) (start_offsets_buf b)
                 else start_offsets_buf b in
      (take bs buf, buf)
    end in
  let block_size := _LLADA_FAST_BLOCK_SIZE in
  let div := map (fun l => (l + (block_size - 1)) / block_size) lens in
  let '(num_blocks, max_blocks) :=
    match lens_cpu with
    | Some l =>
      let l := take bs l in
      let mb := if 0 <? bs then max_list (map (fun x => (x + block_size - 1) / block_size) l) else 0 in
      (if mb <=? 1 then replicate bs 1 else div, mb)
    | None => (div, if 0 <? bs then max_list div else 0)
    end in
  (mkPlan slots lens start_offsets num_blocks max_blocks block_size,
   mkBuffers sbuf (py_splice 0 num_blocks (num_blocks_buf b))).

(** [_pad_state_slot]: the last row of the state tensors. *)
Definition _pad_state_slot (rows : nat) : nat := rows - 1.

(** [_build_cuda_graph_metadata]: one block per request, the last [num_pad] of the
    batch pointed to the padding slot. *)
Definition _build_cuda_graph_metadata (rows bs : nat) (slots : list nat) (num_pad : nat) : plan :=
  let slot_buf := if num_pad =? 0 then slots
                  else take (bs - num_pad) slots ++ replicate num_pad (_pad_state_slot rows) in
  mkPlan slot_buf (replicate bs _LLADA_FAST_BLOCK_SIZE)
    (map (fun i => i * _LLADA_FAST_BLOCK_SIZE) (seq 0 bs)) (replicate bs 1) 1 _LLADA_FAST_BLOCK_SIZE.

Definition get_cuda_graph_seq_len_fill_value : nat := 1.

(** [init_forward_metadata_replay_cuda_graph]: padded requests are recognised by
    their sequence length. *)
Definition init_forward_metadata_replay_cuda_graph (rows bs : nat) (slots : list nat)
    (seq_lens_cpu : option (list nat)) : plan :=
  let num_pad := match seq_lens_cpu with
                 | Some l => length (filter (fun x => x = get_cuda_graph_seq_len_fill_value) (take bs l))
                 | None => 0
                 end in
  _build_cuda_graph_metadata rows bs slots num_pad.

(** ** The state of a layer *)

Section Model.
Context {R : Type} `{ScalarOps R}.

(** The two state views of a layer ([_ensure_layer_state_cache]); the working memory
    also holds the output buffer. *)
Record layer : Type := mkLayer {
  committed : mem R;
  working : mem R;
}.

(** [forward_qkv]: the kernels read the committed state and write the working one. *)
Definition forward_qkv (M : served R) (sched : list (nat * nat) -> list (nat * nat)) (pl : plan)
    (q k v : tok R) (L : layer) : res layer :=
  let! m := _run_kernels M sched (num_kv_heads M) (num_kv_heads M) pl q k v
              (Some (committed L)) (working L) in
  Ok (mkLayer (committed L) m).

(** [promote_hybrid_state] and the loop of [stash_chunked_request] on one layer. *)
Definition promote_hybrid_state (slots : list nat) (L : layer) : layer :=
  mkLayer (fun c => match c with
           | CS sl _ _ _ | CZ sl _ _ => if existsb (Nat.eqb sl) slots then working L c else committed L c
           | Out _ _ _ => committed L c
           end) (working L).

End Model.
Arguments layer : clear implicits.

(** * Plans *)

Lemma cdiv_32 l : (l + (_LLADA_FAST_BLOCK_SIZE - 1)) / _LLADA_FAST_BLOCK_SIZE = cdiv l _LLADA_FAST_BLOCK_SIZE.
Proof. unfold cdiv. f_equal. unfold _LLADA_FAST_BLOCK_SIZE. lia. Qed.

Lemma cumsum_offsets lens :
  0 < length lens -> 0 :: cumsum (take (length lens - 1) lens) = offsets lens.
Proof.
  intros Hn. destruct lens as [|x lens]; [simpl in Hn; lia|]. simpl length. rewrite Nat.sub_1_r. simpl pred.
  unfold offsets. cbn [length seq map]. f_equal. unfold cumsum.
  rewrite length_take, Nat.min_l by (simpl; lia). rewrite <- (fmap_S_seq 0).
  rewrite <- list_fmap_compose. apply map_ext_in. intros i Hi%in_seq. unfold compose.
  rewrite take_take, Nat.min_l by lia. done.
Qed.

(** The buffers as the backend keeps them: the first offset is never written. *)
Record buffers_ok (max_bs : nat) (b : buffers) : Prop := {
  bo_start : length (start_offsets_buf b) = max_bs + 1;
  bo_first : start_offsets_buf b !! 0 = Some 0;
  bo_blocks : length (num_blocks_buf b) = max_bs;
}.

Lemma init_buffers_ok max_bs : buffers_ok max_bs (init_buffers max_bs).
Proof.
  split; simpl; [apply length_replicate|by rewrite Nat.add_comm|apply length_replicate].
Qed.

(** Offsets taken from the buffer after the cumulative sum. *)
Lemma buffer_offsets max_bs b lens :
  buffers_ok max_bs b -> length lens <= max_bs ->
  let buf := if 1 <? length lens then py_splice 1 (cumsum (take (length lens - 1) lens)) (start_offsets_buf b)
             else start_offsets_buf b in
  take (length lens) buf = offsets lens /\ length buf = max_bs + 1 /\ buf !! 0 = Some 0.
Proof.
  intros [Hs Hf _] Hn buf. unfold buf.
  assert (Hc : length (cumsum (take (length lens - 1) lens)) = length lens - 1)
    by (unfold cumsum; rewrite length_map, length_seq, length_take; lia).
  destruct (start_offsets_buf b) as [|x sb] eqn:Eb; [done|]. injection Hf as ->. simpl in Hs.
  destruct (Nat.ltb_spec 1 (length lens)) as [H1|H1].
  - rewrite length_py_splice by (cbn [length]; lia). split; [|split; [cbn [length]; lia|done]].
    rewrite <- cumsum_offsets by lia. unfold py_splice. cbn [take app].
    set (cs := cumsum _) in *. destruct (length lens) as [|n] eqn:En; [lia|]. cbn [take]. f_equal.
    rewrite take_0. cbn [app]. rewrite take_app_le by lia. apply take_ge. lia.
  - split; [|split; [simpl; lia|done]]. destruct lens as [|l [|l2 lens]]; [done|done|simpl in H1; lia].
Qed.

Lemma max_list_le l n : (forall x, x ∈ l -> x <= n) -> max_list l <= n.
Proof.
  induction l as [|x l IH]; intros Hl; simpl; [lia|].
  pose proof (Hl x ltac:(left)). specialize (IH (fun y Hy => Hl y ltac:(by right))). lia.
Qed.

Lemma le_max_list l x : x ∈ l -> x <= max_list l.
Proof. induction 1; simpl; lia. Qed.

Lemma max_list_ones n : max_list (replicate (S n) 1) = 1.
Proof. induction n as [|n IH]; [done|]. cbn [replicate max_list_with] in *. simpl in *. lia. Qed.

(** Requests with at most one block each have exactly one. *)
Lemma one_block_each lens :
  (forall l, l ∈ lens -> 0 < l) -> max_list (map (fun l => cdiv l _LLADA_FAST_BLOCK_SIZE) lens) <= 1 ->
  map (fun l => cdiv l _LLADA_FAST_BLOCK_SIZE) lens = replicate (length lens) 1.
Proof.
  intros Hpos Hm. apply list_eq_same_length with (n := length lens); [by rewrite length_replicate|by rewrite length_map|].
  intros i x y Hi Hx Hy. apply lookup_replicate in Hy as [-> _].
  rewrite list_lookup_fmap in Hx. destruct (lens !! i) as [l|] eqn:El; [|done]. injection Hx as <-.
  apply list_elem_of_lookup_2 in El as Hin.
  pose proof (cdiv_mul_ge l _LLADA_FAST_BLOCK_SIZE ltac:(unfold _LLADA_FAST_BLOCK_SIZE; lia)).
  pose proof (Hpos l Hin). assert (cdiv l _LLADA_FAST_BLOCK_SIZE <= 1).
  { etransitivity; [|exact Hm]. apply le_max_list, list_elem_of_fmap. by exists l. }
  destruct (cdiv l _LLADA_FAST_BLOCK_SIZE) as [|[|n]] eqn:Ec; [|done|lia]. simpl in *. lia.
Qed.

(** The metadata of a pass.  Whatever earlier passes left in the persistent
    buffers, and whether or not the batch carries its offsets and the lengths on the
    host, [init_forward_metadata] builds the plan of [build_request_block_plan] for
    the slots and the extended lengths of the batch, and leaves the buffers fit for
    the next pass; a graph replay without padding builds the same plan for blocks. *)
Lemma metadata_plan (max_bs : nat) (b : buffers) (slots lens : list nat) (loc cpu : option (list nat)) :
  buffers_ok max_bs b -> length lens <= max_bs -> length slots = length lens ->
  (forall l, l ∈ lens -> 0 < l) ->
  (loc = None \/ loc = Some (offsets lens)) -> (cpu = None \/ cpu = Some lens) ->
  let '(pl, b') := init_forward_metadata slots lens loc cpu b in
  pl = build_request_block_plan lens slots _LLADA_FAST_BLOCK_SIZE /\ buffers_ok max_bs b' /\
  ((forall l, l ∈ lens -> l = _LLADA_FAST_BLOCK_SIZE) -> lens <> [] ->
   forall rows, init_forward_metadata_replay_cuda_graph rows (length lens) slots (Some lens) = pl).
Proof.
  intros Hb Hn Hsl Hpos Hloc Hcpu. destruct (buffer_offsets max_bs b lens Hb Hn) as (Ho & Hl & H0).
  set (buf := if 1 <? _ then _ else _) in *.
  set (nb := map (fun l => cdiv l _LLADA_FAST_BLOCK_SIZE) lens).
  assert (Ed : map (fun l => (l + (_LLADA_FAST_BLOCK_SIZE - 1)) / _LLADA_FAST_BLOCK_SIZE) lens = nb)
    by (apply map_ext; intros; apply cdiv_32).
  assert (Ei : exists sbuf, init_forward_metadata slots lens loc cpu b =
    (mkPlan slots lens (offsets lens) nb (max_list nb) _LLADA_FAST_BLOCK_SIZE,
     mkBuffers sbuf (py_splice 0 nb (num_blocks_buf b))) /\ length sbuf = max_bs + 1 /\ sbuf !! 0 = Some 0).
  { assert (Em : forall x : nat, (if 0 <? length lens then x else 0) = x \/ lens = [])
      by (intros x; destruct lens; [by right|by left]).
    assert (Eone : max_list nb <= 1 -> nb = replicate (length lens) 1) by (by apply one_block_each).
    unfold init_forward_metadata. fold buf. rewrite Ed.
    destruct Hloc as [->| ->]; [exists buf|exists (start_offsets_buf b); destruct Hb]; rewrite ?Ho;
      (split; [|done]); destruct Hcpu as [->| ->]; rewrite ?firstn_all;
      try change (map (fun x => (x + _LLADA_FAST_BLOCK_SIZE - 1) / _LLADA_FAST_BLOCK_SIZE) lens) with nb;
      (destruct (Em (max_list nb)) as [->|El]; [|by subst lens]).
    all: try done. all: destruct (Nat.leb_spec (max_list nb) 1); [by rewrite Eone|done]. }
  destruct Ei as (sbuf & -> & Hs1 & Hs2).
  assert (Ep : mkPlan slots lens (offsets lens) nb (max_list nb) _LLADA_FAST_BLOCK_SIZE
               = build_request_block_plan lens slots _LLADA_FAST_BLOCK_SIZE).
  { unfold build_request_block_plan. destruct lens; [by destruct slots|done]. }
  split; [done|]. split.
  - split; [done|done|]. simpl. rewrite length_py_splice; [apply Hb|]. unfold nb. rewrite length_map, (bo_blocks _ _ Hb). lia.
  - intros Hall Hne rows. assert (El : lens = replicate (length lens) _LLADA_FAST_BLOCK_SIZE).
    { symmetry. apply replicate_as_elem_of. by split. }
    assert (Ef : filter (fun x => x = get_cuda_graph_seq_len_fill_value) (take (length lens) lens) = []).
    { rewrite firstn_all, El. clear. by induction (length lens). }
    unfold init_forward_metadata_replay_cuda_graph, _build_cuda_graph_metadata. rewrite Ef. simpl.
    assert (En : nb = replicate (length lens) 1).
    { apply one_block_each; [done|]. apply max_list_le. intros x (l & -> & Hin)%list_elem_of_fmap.
      by rewrite (Hall l Hin). }
    assert (Em : max_list nb = 1) by (rewrite En; destruct lens; [done|apply max_list_ones]).
    rewrite Em, En, <- El. f_equal. unfold offsets. apply map_ext_in. intros i Hi%in_seq.
    rewrite El at 1. rewrite take_replicate, Nat.min_l by lia. rewrite sum_list_replicate. lia.
Qed.

(** * The committed state *)

Section Exact.
Context {R : Type} {HO : ScalarOps R} {sle : R -> R -> Prop} {HL : ScalarLaws R sle}.
Local Open Scope sc_scope.
Add Ring backend_ring : s_ring.

Variable M : served R.
Variable sched : list (nat * nat) -> list (nat * nat).
#[local] Abbreviation bs := (block_size M).
#[local] Abbreviation gr := (num_heads M / num_kv_heads M)%nat.
#[local] Abbreviation hm := (hybrid_of M).

(** A forward pass over a batch. *)
Record pass : Type := mkPass {
  p_lens : list nat;
  p_idx : list nat;
  p_q : tok R;
  p_k : tok R;
  p_v : tok R;
}.

Definition pass_ok (p : pass) : Prop := call_ok (sle := sle) M sched (p_lens p) (p_idx p).

(** What happens to a layer while the server runs. *)
Inductive event : Type :=
| Pass (p : pass)
| Promote (slots : list nat).

Definition run_event (e : event) (L : layer R) : res (layer R) :=
  match e with
  | Pass p => forward_qkv M sched (build_request_block_plan (p_lens p) (p_idx p) bs) (p_q p) (p_k p) (p_v p) L
  | Promote slots => Ok (promote_hybrid_state slots L)
  end.

Fixpoint run_events (es : list event) (L : layer R) : res (layer R) :=
  match es with
  | [] => Ok L
  | e :: es => let! L := run_event e L in run_events es L
  end.

Lemma run_events_app es es' L :
  run_events (es ++ es') L = (let! L := run_events es L in run_events es' L).
Proof.
  revert L. induction es as [|e es IH]; intros L; [done|]. simpl.
  destruct (run_event e L) as [L1|]; simpl; [apply IH|done].
Qed.

(** The request: its slot and the rows of its final tokens. *)
Variables (slot : nat) (Q K V : tok R).
#[local] Abbreviation Qh h := (fun t => Q t h).
#[local] Abbreviation Kh h := (fun t => K t (h / gr)%nat).
#[local] Abbreviation Vh h := (fun t => V t (h / gr)%nat).
#[local] Abbreviation phi h := (fun t => Hybrid._feature_map hm h (Kh h t)).

(** Events that may precede the last pass over a block: passes over any tokens of
    any requests, and promotions of other requests. *)
Definition quiet (e : event) : Prop :=
  match e with Pass p => pass_ok p | Promote slots => slot ∉ slots end.

(** In pass [p], request [r] of the batch is this one, at block [b]. *)
Record at_block (b : nat) (p : pass) (r : nat) : Prop := {
  ab_ok : pass_ok p;
  ab_in : (r < length (p_lens p))%nat;
  ab_slot : nth r (p_idx p) 0%nat = slot;
  ab_len : nth r (p_lens p) 0%nat = bs;
  ab_q : forall t, (t < bs)%nat -> p_q p (nth r (offsets (p_lens p)) 0 + t)%nat = Q (b * bs + t)%nat;
  ab_k : forall t, (t < bs)%nat -> p_k p (nth r (offsets (p_lens p)) 0 + t)%nat = K (b * bs + t)%nat;
  ab_v : forall t, (t < bs)%nat -> p_v p (nth r (offsets (p_lens p)) 0 + t)%nat = V (b * bs + t)%nat;
}.

(** [n] blocks of the request: each ends with a pass over its final tokens, after
    which its state is promoted. *)
Inductive rounds : nat -> list event -> Prop :=
| rounds_0 : rounds 0 []
| rounds_S n es pre p r slots :
    rounds n es -> Forall quiet pre -> at_block n p r -> slot ∈ slots ->
    rounds (S n) (es ++ pre ++ [Pass p; Promote slots]).

(** The committed state is that of the first [n] blocks. *)
Definition holds (n : nat) (L : layer R) : Prop :=
  forall h, (h < num_heads M)%nat ->
  (forall f d, (f < 2 * feature_dim M)%nat -> (d < head_dim M)%nat ->
     committed L (CS slot (sh M h) f d) = vsum (n * bs) (fun j => phi h j f * Vh h j d)) /\
  (forall f, (f < 2 * feature_dim M)%nat ->
     committed L (CZ slot (sh M h) f) = vsum (n * bs) (fun j => phi h j f)).

Lemma quiet_holds n pre L :
  Forall quiet pre -> holds n L -> exists L', run_events pre L = Ok L' /\ holds n L'.
Proof.
  intros Hq. revert L. induction Hq as [|e pre He Hq IH]; intros L Hh; [by exists L|]. simpl.
  destruct e as [p|slots]; simpl.
  - unfold forward_qkv. destruct (run_is_module M sched (p_lens p) (p_idx p) (p_q p) (p_k p) (p_v p)
      (Some (committed L)) (working L) He) as (m' & -> & _). simpl. apply IH. exact Hh.
  - apply IH. intros h Hhh. simpl. destruct (existsb (Nat.eqb slot) slots) eqn:Ex; [|by apply Hh].
    exfalso. apply He. apply existsb_exists in Ex as (x & Hx & ->%Nat.eqb_eq). by apply list_elem_of_In.
Qed.

Lemma vsum_next_block n (g : nat -> R) :
  vsum (S n * bs) g = vsum (n * bs) g + vsum bs (fun t => g (n * bs + t)%nat).
Proof. rewrite <- vsum_app. f_equal. lia. Qed.

(** The last pass over block [n], from the state of the blocks before. *)
Lemma last_pass n p r L :
  at_block n p r -> holds n L ->
  exists m', run_event (Pass p) L = Ok (mkLayer (committed L) m') /\
    forall h, (h < num_heads M)%nat ->
    (forall f d, (f < 2 * feature_dim M)%nat -> (d < head_dim M)%nat ->
       m' (CS slot (sh M h) f d) = vsum (S n * bs) (fun j => phi h j f * Vh h j d)) /\
    (forall f, (f < 2 * feature_dim M)%nat ->
       m' (CZ slot (sh M h) f) = vsum (S n * bs) (fun j => phi h j f)) /\
    (forall t d, (t < bs)%nat -> (d < head_dim M)%nat ->
       m' (Out (nth r (offsets (p_lens p)) 0 + t)%nat h d)
       = fst (Hybrid.forward hm h (S n * bs) (Qh h) (Kh h) (Vh h) None (Some Rec.zero_state)) (n * bs + t)%nat d).
Proof.
  intros [Hok Hin Hsl Hlen Hq Hk Hv] Hh.
  destruct (run_is_module M sched (p_lens p) (p_idx p) (p_q p) (p_k p) (p_v p) (Some (committed L))
    (working L) Hok) as (m' & E & Ha & _).
  exists m'. split; [simpl; unfold forward_qkv; by rewrite E|].
  intros h Hhh. specialize (Ha r h Hin Hhh). unfold ran_module in Ha. cbv zeta in Ha.
  pose proof (co_bs _ _ _ _ Hok) as Hbs. destruct (Hh h Hhh) as [HS HZ].
  set (st := st_req M (p_idx p) (src_of (Some (committed L)) (working L)) r h) in *.
  set (qr := q_req _ _ r h) in *. set (kr := k_req _ _ _ r h) in *. set (vr := v_req _ _ _ r h) in *.
  rewrite Hlen, Hsl in Ha. destruct Ha as (Ao & AS & AZ).
  assert (Eq : forall t, (t < bs)%nat -> qr t = Qh h (n * bs + t)%nat) by (intros; unfold qr, q_req; by rewrite Hq).
  assert (Ek : forall t, (t < bs)%nat -> kr t = Kh h (n * bs + t)%nat) by (intros; unfold kr, k_req; by rewrite Hk).
  assert (Ev : forall t, (t < bs)%nat -> vr t = Vh h (n * bs + t)%nat) by (intros; unfold vr, v_req; by rewrite Hv).
  destruct (Hybrid.forward_state hm Hbs h 1 qr kr vr st) as [F1 F2].
  change (Hybrid.block_size hm) with bs in F1, F2. rewrite Nat.mul_1_l in F1, F2.
  assert (ES : forall f d, (f < 2 * feature_dim M)%nat -> (d < head_dim M)%nat ->
    Rec.st_S st f d = vsum (n * bs) (fun j => phi h j f * Vh h j d))
    by (intros; unfold st, st_req; cbn [Rec.st_S src_of default]; rewrite Hsl; by apply HS).
  assert (EZ : forall f, (f < 2 * feature_dim M)%nat -> Rec.st_Z st f = vsum (n * bs) (fun j => phi h j f))
    by (intros; unfold st, st_req; cbn [Rec.st_Z src_of default]; rewrite Hsl; by apply HZ).
  split; [|split].
  - intros f d Hf Hd. rewrite AS, F1, ES, vsum_next_block by done. f_equal. apply vsum_ext. intros j Hj.
    cbv beta. by rewrite Ek, Ev.
  - intros f Hf. rewrite AZ, F2, EZ, vsum_next_block by done. f_equal. apply vsum_ext. intros j Hj.
    cbv beta. by rewrite Ek.
  - intros t d Ht Hd. rewrite Ao by done. rewrite <- (Nat.mul_1_l bs) at 1.
    change (1 * bs)%nat with (1 * Hybrid.block_size hm)%nat. rewrite (Hybrid.forward_out hm Hbs h 1) by (simpl; lia).
    rewrite (Hybrid.forward_out hm Hbs h (S n)) by (simpl; lia). change (Hybrid.block_size hm) with bs.
    rewrite Nat.div_small, Nat.mod_small by done.
    assert (Ed : ((n * bs + t) / bs = n)%nat) by (rewrite Nat.div_add_l, Nat.div_small by lia; lia).
    assert (Em : ((n * bs + t) mod bs = t)%nat) by (rewrite Nat.add_comm, Nat.Div0.mod_add, Nat.mod_small; lia).
    rewrite Ed, Em. destruct (Rec.state_closed bs (phi h) (Vh h) n Rec.zero_state) as [Z1 Z2].
    apply Hybrid.block_out_ext; [done|..]; unfold Hybrid.rows; change (Hybrid.block_size hm) with bs; cbn [Nat.mul Nat.add].
    + intros j e Hj. by rewrite Eq.
    + intros j e Hj. by rewrite Ek.
    + intros j e Hj. by rewrite Ev.
    + intros j f Hj. by rewrite Eq.
    + intros f Hf. cbn [state_at]. rewrite ES by done. rewrite Z1. cbn [Rec.st_S Rec.zero_state]. ring.
    + intros f Hf. cbn [state_at]. rewrite EZ by done. rewrite Z2. cbn [Rec.st_Z Rec.zero_state]. ring.
Qed.

Lemma promote_holds n (m' m0 : mem R) slots :
  slot ∈ slots ->
  (forall h, (h < num_heads M)%nat ->
    (forall f d, (f < 2 * feature_dim M)%nat -> (d < head_dim M)%nat ->
       m' (CS slot (sh M h) f d) = vsum (n * bs) (fun j => phi h j f * Vh h j d)) /\
    (forall f, (f < 2 * feature_dim M)%nat ->
       m' (CZ slot (sh M h) f) = vsum (n * bs) (fun j => phi h j f))) ->
  holds n (promote_hybrid_state slots (mkLayer m0 m')).
Proof.
  intros Hin Hm h Hh. simpl.
  assert (Ex : existsb (Nat.eqb slot) slots = true).
  { apply existsb_exists. exists slot. split; [by apply list_elem_of_In|apply Nat.eqb_refl]. }
  rewrite Ex. by apply Hm.
Qed.

Lemma rounds_hold n es L : rounds n es -> holds 0 L -> exists L', run_events es L = Ok L' /\ holds n L'.
Proof.
  intros Hr H0. induction Hr as [|n es pre p r slots Hr IH Hq Hb Hs]; [by exists L|].
  destruct IH as (L1 & E1 & H1). rewrite run_events_app, E1. cbn [rbind].
  destruct (quiet_holds n pre L1 Hq H1) as (L2 & E2 & H2). rewrite run_events_app, E2. cbn [rbind run_events].
  destruct (last_pass n p r L2 Hb H2) as (m' & E3 & Hm). rewrite E3. cbn [rbind run_event].
  eexists. split; [reflexivity|]. apply promote_holds; [done|]. intros h Hh. by destruct (Hm h Hh) as (A & B & _).
Qed.

End Exact.

Section ExactProperty.
Context {R : Type} {HO : ScalarOps R} {sle : R -> R -> Prop} {HL : ScalarLaws R sle}.
Local Open Scope sc_scope.
Add Ring backend_ring' : s_ring.

(** The last pass over a block, behind what happened to the layer before. *)
Lemma served_output (M : served R) (sched : list (nat * nat) -> list (nat * nat))
    (slot : nat) (Q K V : tok R) (n : nat) (es pre : list event) (p : pass) (r : nat) (L : layer R) :
  rounds (sle := sle) M sched slot Q K V n es -> Forall (quiet (sle := sle) M sched slot) pre ->
  at_block (sle := sle) M sched slot Q K V n p r ->
  (forall h f d, committed L (CS slot h f d) = s0) -> (forall h f, committed L (CZ slot h f) = s0) ->
  exists L1 L2, run_events M sched (es ++ pre) L = Ok L1 /\
    run_event M sched (Pass p) L1 = Ok L2 /\
    forall h, (h < num_heads M)%nat ->
    let gr := (num_heads M / num_kv_heads M)%nat in
    forall t d, (t < block_size M)%nat -> (d < head_dim M)%nat ->
      working L2 (Out (nth r (offsets (p_lens p)) 0 + t)%nat h d)
      = fst (Hybrid.forward (hybrid_of M) h (S n * block_size M) (fun t => Q t h)
               (fun t => K t (h / gr)%nat) (fun t => V t (h / gr)%nat) None (Some Rec.zero_state))
            (n * block_size M + t)%nat d.
Proof.
  intros Hr Hq Hb HS HZ.
  assert (H0 : holds M slot K V 0 L) by (intros h _; split; intros; [apply HS|apply HZ]).
  destruct (rounds_hold M sched slot Q K V n es L Hr H0) as (L1 & E1 & H1).
  destruct (quiet_holds M sched slot K V n pre L1 Hq H1) as (L2 & E2 & H2).
  destruct (last_pass M sched slot Q K V n p r L2 Hb H2) as (m' & E3 & Hm).
  exists L2. eexists. split; [rewrite run_events_app, E1; exact E2|]. split; [exact E3|].
  intros h Hh gr t d Ht Hd. destruct (Hm h Hh) as (_ & _ & Ho). by apply Ho.
Qed.

(** Serving block by block computes what the PyTorch module computes on the
    whole sequence.  A request gets a slot with a zero state.  In each block it is
    denoised by any number of passes, over any tokens and beside any other requests
    whose states are promoted at any time; the last pass of the block sees its final
    tokens, and then its state is promoted.  Then the outputs of that last pass are
    the rows of the block in [BlockSoftmaxLinearHybrid.forward] of all tokens so far,
    and the committed state is the module's final state. *)
Lemma served_state_exact (M : served R) (sched : list (nat * nat) -> list (nat * nat))
    (slot : nat) (Q K V : tok R) (n : nat) (es pre : list event) (p : pass) (r : nat) (slots : list nat)
    (L : layer R) :
  rounds (sle := sle) M sched slot Q K V n es -> Forall (quiet (sle := sle) M sched slot) pre ->
  at_block (sle := sle) M sched slot Q K V n p r -> slot ∈ slots ->
  (forall h f d, committed L (CS slot h f d) = s0) -> (forall h f, committed L (CZ slot h f) = s0) ->
  exists L', run_events M sched (es ++ pre ++ [Pass p; Promote slots]) L = Ok L' /\
    forall h, (h < num_heads M)%nat ->
    let gr := (num_heads M / num_kv_heads M)%nat in
    let whole := Hybrid.forward (hybrid_of M) h (S n * block_size M) (fun t => Q t h)
                   (fun t => K t (h / gr)%nat) (fun t => V t (h / gr)%nat) None None in
    (forall t d, (t < block_size M)%nat -> (d < head_dim M)%nat ->
       working L' (Out (nth r (offsets (p_lens p)) 0 + t)%nat h d)
       = fst whole (n * block_size M + t)%nat d) /\
    (forall f d, (f < 2 * feature_dim M)%nat -> (d < head_dim M)%nat ->
       committed L' (CS slot (sh M h) f d) = Rec.st_S (snd whole) f d) /\
    (forall f, (f < 2 * feature_dim M)%nat ->
       committed L' (CZ slot (sh M h) f) = Rec.st_Z (snd whole) f).
Proof.
  intros Hr Hq Hb Hs HS HZ.
  assert (H0 : holds M slot K V 0 L) by (intros h _; split; intros; [apply HS|apply HZ]).
  destruct (rounds_hold M sched slot Q K V n es L Hr H0) as (L1 & E1 & H1).
  destruct (quiet_holds M sched slot K V n pre L1 Hq H1) as (L2 & E2 & H2).
  destruct (last_pass M sched slot Q K V n p r L2 Hb H2) as (m' & E3 & Hm).
  assert (Er : run_events M sched (es ++ pre ++ [Pass p; Promote slots]) L
    = Ok (promote_hybrid_state slots (mkLayer (committed L2) m'))).
  { rewrite run_events_app, E1. cbn [rbind]. rewrite run_events_app, E2. cbn [rbind run_events]. by rewrite E3. }
  eexists. split; [exact Er|].
  pose proof (co_bs _ _ _ _ (ab_ok _ _ _ _ _ _ _ _ _ Hb)) as Hbs.
  assert (Hp : holds M slot K V (S n) (promote_hybrid_state slots (mkLayer (committed L2) m'))).
  { apply promote_holds; [done|]. intros h Hh. by destruct (Hm h Hh) as (A & B & _). }
  intros h Hh gr whole. destruct (Hp h Hh) as [PS PZ].
  destruct (Hybrid.forward_state (hybrid_of M) Hbs h (S n) (fun t => Q t h) (fun t => K t (h / gr)%nat)
    (fun t => V t (h / gr)%nat) Rec.zero_state) as [F1 F2].
  split; [|split].
  - intros t d Ht Hd. destruct (Hm h Hh) as (_ & _ & Ho). by apply Ho.
  - intros f d Hf Hd. rewrite PS by done. unfold whole.
    change (Hybrid.forward (hybrid_of M) h (S n * block_size M) (fun t => Q t h) (fun t => K t (h / gr)%nat)
      (fun t => V t (h / gr)%nat) None None) with
      (Hybrid.forward (hybrid_of M) h (S n * Hybrid.block_size (hybrid_of M)) (fun t => Q t h)
        (fun t => K t (h / gr)%nat) (fun t => V t (h / gr)%nat) None (Some Rec.zero_state)).
    rewrite F1. cbn [Rec.st_S Rec.zero_state]. unfold gr. simpl. ring.
  - intros f Hf. rewrite PZ by done. unfold whole.
    change (Hybrid.forward (hybrid_of M) h (S n * block_size M) (fun t => Q t h) (fun t => K t (h / gr)%nat)
      (fun t => V t (h / gr)%nat) None None) with
      (Hybrid.forward (hybrid_of M) h (S n * Hybrid.block_size (hybrid_of M)) (fun t => Q t h)
        (fun t => K t (h / gr)%nat) (fun t => V t (h / gr)%nat) None (Some Rec.zero_state)).
    rewrite F2. cbn [Rec.st_Z Rec.zero_state]. unfold gr. simpl. ring.
Qed.

End ExactProperty.

(** * Padding *)

Section Padding.
Context {R : Type} `{ScalarOps R}.
Local Open Scope sc_scope.

(** C32. The row that padded requests write to is not spare.  [MambaPool] keeps row 0
    aside and hands out the rows [1 .. size], so the last row, which a graph replay
    uses for padding, belongs to a request as soon as the pool is full.  The kernel
    instances of the request and of the padding then store to the same cells, and in
    one of the orders in which the device may run them the request is left with the
    state of the padded rows. *)
Theorem padding_overwrites_state {C : Type} `{Pools.Cell C} (M : served R) (size layers nconv len other : nat)
    (q k v : tok R) (L : layer R) :
  num_heads M = 1%nat -> num_kv_heads M = 1%nat -> share_hedgehog_kv_groups M = false ->
  (0 < size)%nat -> len <> 1%nat ->
  let p := Pools.mamba_init (V := C) size 0 layers nconv None in
  let pl := init_forward_metadata_replay_cuda_graph (size + 1) 2 [size; other] (Some [len; 1%nat]) in
  (forall row, row ∈ Pools.temporal (Pools.mamba_cache p) -> _pad_state_slot (length row) = size) /\
  size ∈ Pools.m_free p /\
  exists sched L', (forall l, sched l ≡ₚ l) /\ forward_qkv M sched pl q k v L = Ok L' /\
    forall f d, (f < 2 * feature_dim M)%nat -> (d < head_dim M)%nat ->
      working L' (CS size 0 f d)
      = new_S (kparams_of M 1) (hedgehog_weights M 0) (fun s e => load_tile k 32 32 0 s e * s1)
          (fun s e => load_tile v 32 32 0 s e * s1) 32 (fun f d => committed L (CS size 0 f d)) f d.
Proof.
  intros Hh Hkv Hsh Hsz Hlen p pl. split; [|split].
  - intros row Hrow. unfold p in Hrow. simpl in Hrow. unfold Pools.zeros in Hrow.
    apply list_elem_of_In, repeat_spec in Hrow as ->. rewrite repeat_length. unfold _pad_state_slot. lia.
  - simpl. apply list_elem_of_In, in_seq. lia.
  - assert (Epl : pl = mkPlan [size; size] [32; 32]%nat [0; 32]%nat [1; 1]%nat 1 32).
    { unfold pl, init_forward_metadata_replay_cuda_graph. cbn [take]. rewrite filter_cons_False by done.
      rewrite filter_cons_True by done. unfold _build_cuda_graph_metadata, _pad_state_slot. simpl.
      by replace (size + 1 - 1)%nat with size by lia. }
    exists (fun l => l). eexists. split; [done|].
    unfold forward_qkv, _run_kernels. rewrite Epl, Hh, Hkv, Hsh. simpl. split; [reflexivity|].
    intros f d Hf Hd. simpl. rewrite Nat.eqb_refl.
    apply Nat.ltb_lt in Hf, Hd. by rewrite Hf, Hd.
Qed.

End Padding.

(** * Concrete inputs *)

Lemma metadata_plan_witness :
  fst (init_forward_metadata [3; 5] [40; 32] None (Some [40; 32]) (init_buffers 8))
  = build_request_block_plan [40; 32] [3; 5] 32.
Proof.
  pose proof (metadata_plan 8 (init_buffers 8) [3; 5] [40; 32] None (Some [40; 32])) as Hm.
  destruct (init_forward_metadata [3; 5] [40; 32] None (Some [40; 32]) (init_buffers 8)) as [pl b'].
  apply Hm.
  - apply init_buffers_ok.
  - simpl. lia.
  - reflexivity.
  - intros l Hl. assert (l = 40 \/ l = 32) as [->| ->] by set_solver; lia.
  - by left.
  - by right.
Defined.

Module Example_.
Export Tensor.Reals.
Import KD.Example_.

(** A pass over one block of the request in slot 3, with the given rows. *)
Definition demo_pass (x : tok R) : pass := mkPass [2] [3] x x x.

Lemma demo_pass_ok (c : R) : (0 <= c)%R ->
  pass_ok (sle := Rle) demo_served (fun l => l) (demo_pass (fun t _ _ => (c * INR t)%R)).
Proof.
  intros Hc. split; simpl; try lia; try done.
  - lra.
  - apply NoDup_singleton.
  - intros l Hl. assert (l = 2) as -> by set_solver. split; [lia|done].
Qed.

Definition one_head : served R :=
  mkServed 1 1 false 1 1 32 (/ 10)%R 1%R 1 (fun _ _ _ => 1%R) (fun _ => 0%R).

End Example_.
Import Example_ KD.Example_.

(** One round: a pass over other tokens, then one over the final ones. *)
Lemma served_state_exact_witness :
  exists L', run_events demo_served (fun l => l)
      ([] ++ [Pass (demo_pass (fun t _ _ => (2 * INR t)%R))]
          ++ [Pass (demo_pass (fun t _ _ => (1 * INR t)%R)); Promote [3]])
      (mkLayer (fun _ => 0%R) (fun _ => 0%R)) = Ok L' /\
    committed L' (CS 3 1 0 0)
    = Rec.st_S (snd (Hybrid.forward (hybrid_of demo_served) 1 2 (fun t _ => (1 * INR t)%R)
        (fun t _ => (1 * INR t)%R) (fun t _ => (1 * INR t)%R) None None)) 0 0.
Proof.
  destruct (served_state_exact (sle := Rle) demo_served (fun l => l) 3 (fun t _ _ => (1 * INR t)%R)
    (fun t _ _ => (1 * INR t)%R) (fun t _ _ => (1 * INR t)%R) 0 []
    [Pass (demo_pass (fun t _ _ => (2 * INR t)%R))] (demo_pass (fun t _ _ => (1 * INR t)%R)) 0 [3]
    (mkLayer (fun _ => 0%R) (fun _ => 0%R))) as (L' & E & HL).
  - apply rounds_0.
  - apply Forall_singleton. apply demo_pass_ok. lra.
  - split; try done; simpl; [apply demo_pass_ok; lra|lia].
  - left.
  - intros. reflexivity.
  - intros. reflexivity.
  - exists L'. split; [exact E|]. destruct (HL 1 ltac:(simpl; lia)) as (_ & HS & _).
    apply (HS 0 0); simpl; lia.
Defined.

Lemma padding_overwrites_state_witness :
  exists sched L', forward_qkv one_head sched
      (init_forward_metadata_replay_cuda_graph 2 2 [1; 0] (Some [32; 1])) (fun t _ _ => INR t)
      (fun t _ _ => INR t) (fun t _ _ => INR t) (mkLayer (fun _ => 0%R) (fun _ => 0%R)) = Ok L' /\
    working L' (CS 1 0 0 0)
    = new_S (kparams_of one_head 1) (fun _ _ => 1%R) (fun s e => (load_tile (fun t _ _ => INR t) 32 32 0 s e * 1)%R)
        (fun s e => (load_tile (fun t _ _ => INR t) 32 32 0 s e * 1)%R) 32 (fun _ _ => 0%R) 0 0.
Proof.
  destruct (@padding_overwrites_state R _ nat {| Pools.zero_cell := 0 |} one_head 1 1 0 32 0 (fun t _ _ => INR t) (fun t _ _ => INR t)
    (fun t _ _ => INR t) (mkLayer (fun _ => 0%R) (fun _ => 0%R))) as (_ & _ & sched & L' & _ & E & HS);
    [reflexivity|reflexivity|reflexivity|lia|lia|].
  exists sched, L'. split; [exact E|]. apply (HS 0 0); simpl; lia.
Defined.

End Bk.
