(* ===== verification/Decoder.v ===== *)
(** The network of the Hugging Face model: normalisation ([norm.py]), rotary
    embedding ([rotary.py]), attention with its prefix cache ([attention.py],
    [cache.py]), the decoder layer ([decoder.py]) and the stack of layers with
    embedding and head ([modeling_llada2_moe.py]: [LLaDA2MoeModel.forward],
    [LLaDA2MoeModelLM.forward], [_init_prefix_cache]).

    Hidden states are batches of sequences of vectors.  Attention works on every
    sequence of the batch on its own and is modelled per sequence; the mixture of
    experts flattens the batch.  Token ids are in the vocabulary; dropout is off
    and casts are left out; every attention implementation computes the eager
    formula.  An additive mask holds [Some 0] or [None] for minus infinity. *)
From stdpp Require Import base list.
From Stdlib Require Import ZArith QArith Lia.
From S2P Require Import Prelude Denoise Sampling Tensor RealOps Moe LinearAttention HybridAttention.
Local Open Scope nat_scope.

(** Further scalar functions of the network. *)
Class NetOps (R : Type) : Type := {
  srsqrt : R -> R;
  scos : R -> R;
  ssin : R -> R;
  spow : R -> R -> R;
  s_of_nat : nat -> R;
}.

Module Dec.
Import Rec Moe.

Section Model.
Context {R : Type} `{ScalarOps R} `{NetOps R} `{TopkOps R} `{ArgsortOps}.
Local Open Scope sc_scope.

(** ** [LLaDA2MoeRMSNorm] *)

Record rms_norm : Type := mkNorm { nm_size : nat; nm_weight : vec R; variance_epsilon : R }.

Definition norm_forward (N : rms_norm) (x : vec R) : vec R :=
  let variance := vsum (nm_size N) (fun i => x i * x i) / s_of_nat (nm_size N) in
  fun d => nm_weight N d * (x d * srsqrt (variance + variance_epsilon N)).

(** ** Rotary embedding *)

Record rotary : Type := mkRotary { rot_n : nat; inv_freq : vec R; attention_scaling : R }.

(** [_compute_default_rope_parameters]: [arange(0, dim, 2)] has [ceil(dim / 2)]
    entries. *)
Definition _compute_default_rope_parameters (base : R) (dim : nat) : rotary :=
  mkRotary (cdiv dim 2) (fun i => s1 / spow base (s_of_nat (2 * i) / s_of_nat dim)) s1.

(** Cosine and sine of [cat(freqs, freqs)] at a position. *)
Definition rotary_forward (P : rotary) (pos : nat) : vec R * vec R :=
  let freqs := fun i => inv_freq P i * s_of_nat pos in
  let emb := cat (rot_n P) freqs freqs in
  (fun i => scos (emb i) * attention_scaling P, fun i => ssin (emb i) * attention_scaling P).

(** [cat(-x2, x1)] for the halves of the first [n] entries. *)
Definition rotate_half (n : nat) (x : vec R) : vec R :=
  cat (n - n / 2) (fun i => - x (n / 2 + i)%nat) x.

(** [apply_rotary_pos_emb] of one vector; [n] entries are rotated. *)
Definition apply_rotary_pos_emb (n : nat) (cs : vec R * vec R) (q : vec R) : vec R :=
  cat n (fun i => q i * fst cs i + rotate_half n q i * snd cs i) (fun i => q (n + i)%nat).

(** ** Attention *)

(** What [is_linear_active] and the type of [linear_attention] select; the
    linear module mixes in [softmax_anchor_ratio]. *)
Inductive attn_kind : Type :=
| SoftmaxAttn
| LinearAttn (M : Linear.module R) (softmax_anchor_ratio : Q)
| HybridAttn (M : Hybrid.module R).

(** Biases are zero where the layer has none. *)
Record attention : Type := mkAttn {
  at_hidden : nat;
  num_heads : nat;
  num_key_value_heads : nat;
  head_dim : nat;
  qkv_weight : mat R;
  qkv_bias : vec R;
  query_layernorm : option rms_norm;
  key_layernorm : option rms_norm;
  dense_weight : mat R;
  dense_bias : vec R;
  at_kind : attn_kind;
}.

Definition num_key_value_groups (A : attention) : nat := (num_heads A / num_key_value_heads A)%nat.

(** The heads of one position. *)
Definition heads : Type := nat -> vec R.

(** [qkv.view(...).split([heads, kv, kv])]: head [i] of the projection. *)
Definition qkv_head (A : attention) (x : vec R) (i : nat) : vec R :=
  fun d => let o := (i * head_dim A + d)%nat in
           linear (at_hidden A) (qkv_weight A) x o + qkv_bias A o.

Definition opt_norm (N : option rms_norm) (x : vec R) : vec R :=
  match N with Some N => norm_forward N x | None => x end.

Definition query_states (A : attention) (P : rotary) (pos : nat) (x : vec R) : heads := fun h =>
  apply_rotary_pos_emb (2 * rot_n P) (rotary_forward P pos)
    (opt_norm (query_layernorm A) (qkv_head A x h)).

Definition key_states (A : attention) (P : rotary) (pos : nat) (x : vec R) : heads := fun h =>
  apply_rotary_pos_emb (2 * rot_n P) (rotary_forward P pos)
    (opt_norm (key_layernorm A) (qkv_head A x (num_heads A + h))).

Definition value_states (A : attention) (x : vec R) : heads := fun h =>
  qkv_head A x (num_heads A + num_key_value_heads A + h).

(** [repeat_kv]: query head [h] reads key head [h / n_rep]. *)
Definition repeat_kv (n_rep : nat) (kv : heads) : heads :=
  if (n_rep =? 1)%nat then kv else fun h => kv (h / n_rep)%nat.

(** Keys and values of one position. *)
Definition kv_row : Type := heads * heads.

Definition kv_of (A : attention) (P : rotary) (pos : nat) (x : vec R) : kv_row :=
  (key_states A P pos x, value_states A x).

Definition no_heads : heads := fun _ _ => s0.

(** The tensor of head [h] along the sequence. *)
Definition along (l : list heads) (h : nat) : mat R := fun t => nth t l no_heads h.

(** [eager_attention_forward] of one query of one head over [n] keys. *)
Definition eager_attention (A : attention) (n : nat) (q : vec R) (k v : mat R)
    (mask : nat -> option R) : vec R :=
  let score := fun j => vsum (head_dim A) (fun e => q e * k j e) * sinvsqrt (head_dim A) in
  let e := fun j => match mask j with Some m => sexp (score j + m) | None => s0 end in
  fun d => vsum n (fun j => e j / vsum n e * v j d).

(** The heads side by side, through the output projection. *)
Definition dense (A : attention) (out : heads) : vec R := fun o =>
  linear (num_heads A * head_dim A) (dense_weight A)
    (fun i => out (i / head_dim A)%nat (i mod head_dim A)%nat) o + dense_bias A o.

(** Softmax attention of one query over the keys [kv]. *)
Definition softmax_heads (A : attention) (kv : list kv_row) (q : heads) (mask : nat -> option R) : heads :=
  fun h => eager_attention A (length kv) (q h)
    (along (map (fun r => repeat_kv (num_key_value_groups A) (fst r)) kv) h)
    (along (map (fun r => repeat_kv (num_key_value_groups A) (snd r)) kv) h) mask.

(** Output and final state of a linear or hybrid module for head [h]. *)
Definition expanded (A : attention) (kv : list kv_row) : (nat -> mat R) * (nat -> mat R) :=
  (along (map (fun r => repeat_kv (num_key_value_groups A) (fst r)) kv),
   along (map (fun r => repeat_kv (num_key_value_groups A) (snd r)) kv)).

Definition hybrid_out (A : attention) (M : Hybrid.module R) (qs : list heads) (kv : list kv_row)
    (init : nat -> option (state R)) (h : nat) : mat R * state R :=
  Hybrid.forward M h (length qs) (along qs h) (fst (expanded A kv) h) (snd (expanded A kv) h)
    None (init h).

Definition linear_out (A : attention) (M : Linear.module R) (B b : nat) (qs : list heads)
    (kv : list kv_row) (mask : option (attn_mask R)) (init : nat -> option (state R)) (h : nat)
    : mat R * state R :=
  Linear.forward M B b h (length qs) (along qs h) (fst (expanded A kv) h) (snd (expanded A kv) h)
    mask None (init h).

(** ** [BlockDiffusionCache] *)

Inductive layer_ty : Type := SoftmaxLayer | LinearLayer.

(** Keys and values per layer, batch element and position; recurrent states per
    layer, batch element and head. *)
Record BlockDiffusionCache : Type := mkCache {
  num_layers : nat;
  layer_type : list layer_ty;
  kv_cache : list (option (list (list kv_row)));
  recurrent_state : list (option (list (nat -> state R)));
}.

Definition new_cache (n : nat) : BlockDiffusionCache :=
  mkCache n (replicate n SoftmaxLayer) (replicate n None) (replicate n None).

Definition get_kv (c : BlockDiffusionCache) (li : nat) : option (list (list kv_row)) :=
  default None (kv_cache c !! li).

(** [torch.cat] along the sequence, for every batch element. *)
Definition update_kv (li : nat) (new : list (list kv_row)) (c : BlockDiffusionCache)
    : BlockDiffusionCache :=
  let entry := match get_kv c li with
               | None => new
               | Some old => zip_with app old new
               end in
  mkCache (num_layers c) (layer_type c) (<[li := Some entry]> (kv_cache c)) (recurrent_state c).

(** The snapshot is a copy: reading it or the state itself gives the same values. *)
Definition get_recurrent_state (c : BlockDiffusionCache) (li : nat) : option (list (nat -> state R)) :=
  default None (recurrent_state c !! li).

Definition get_recurrent_state_snapshot (c : BlockDiffusionCache) (li : nat)
    : option (list (nat -> state R)) := get_recurrent_state c li.

Definition update_recurrent_state (li : nat) (st : list (nat -> state R)) (c : BlockDiffusionCache)
    : BlockDiffusionCache :=
  mkCache (num_layers c) (layer_type c) (kv_cache c) (<[li := Some st]> (recurrent_state c)).

Definition init_recurrent_state (li batch_size : nat) (c : BlockDiffusionCache) : BlockDiffusionCache :=
  update_recurrent_state li (replicate batch_size (fun _ => zero_state)) c.

Definition set_layer_type (li : nat) (t : layer_ty) (c : BlockDiffusionCache) : BlockDiffusionCache :=
  mkCache (num_layers c) (<[li := t]> (layer_type c)) (kv_cache c) (recurrent_state c).

(** [cache_mode] of a forward pass. *)
Inductive cache_mode : Type := CacheRead | CacheCommit.

(** ** [LLaDA2MoeAttention.forward] *)

(** The queries, keys and values of a sequence whose first position is [start]. *)
Definition queries (A : attention) (P : rotary) (start : nat) (hs : list (vec R)) : list heads :=
  imap (fun t x => query_states A P (start + t)%nat x) hs.

Definition keys_values (A : attention) (P : rotary) (start : nat) (hs : list (vec R)) : list kv_row :=
  imap (fun t x => kv_of A P (start + t)%nat x) hs.

(** Rows of a per-head result. *)
Definition head_rows (n : nat) (out : nat -> mat R) : list heads :=
  map (fun t h => out h t) (seq 0 n).

(** Without a prefix cache: the sequence [b] of a batch of [B], under the
    additive [mask]. *)
Definition attn_forward (A : attention) (P : rotary) (B b : nat) (mask : nat -> nat -> option R)
    (hs : list (vec R)) : list (vec R) :=
  let qs := queries A P 0 hs in
  let kv := keys_values A P 0 hs in
  let n := length hs in
  let softmax := imap (fun t q => softmax_heads A kv q (mask t)) qs in
  let attn_output :=
    match at_kind A with
    | SoftmaxAttn => softmax
    | HybridAttn M => head_rows n (fun h => fst (hybrid_out A M qs kv (fun _ => None) h))
    | LinearAttn M ratio =>
      let out := head_rows n (fun h => fst (linear_out A M B b qs kv
                   (Some (FloatMask n n (fun _ => mask))) (fun _ => None) h)) in
      if Qle_bool ratio 0 then out
      else zip_with (fun (l s : heads) h d => (s1 - s_of_Q ratio) * l h d + s_of_Q ratio * s h d) out softmax
    end in
  map (dense A) attn_output.

(** [_forward_with_prefix_cache] for the block that starts at [start]; the
    batch is the list of its sequences. *)
Definition _forward_with_prefix_cache (A : attention) (P : rotary) (li start : nat) (mode : cache_mode)
    (hs : list (list (vec R))) (c : BlockDiffusionCache) : list (list (vec R)) * BlockDiffusionCache :=
  let qs := map (queries A P start) hs in
  let kv := map (keys_values A P start) hs in
  let B := length hs in
  let recurrent (run : nat -> list heads -> list kv_row -> (nat -> option (state R)) -> nat ->
                       mat R * state R) :=
    let st := match mode with
              | CacheRead => get_recurrent_state_snapshot c li
              | CacheCommit => get_recurrent_state c li
              end in
    let init b := match st with
                  | Some l => fun h => (fun s => s h) <$> l !! b
                  | None => fun _ => None
                  end in
    let results := imap (fun b (qk : list heads * list kv_row) =>
        (length (fst qk), run b (fst qk) (snd qk) (init b))) (zip qs kv) in
    let out := map (fun r => head_rows (fst r) (fun h => fst (snd r h))) results in
    let c := match mode with
             | CacheCommit => update_recurrent_state li (map (fun r h => snd (snd r h)) results) c
             | CacheRead => c
             end in
    (map (map (dense A)) out, c) in
  match at_kind A with
  | LinearAttn M _ => recurrent (fun b q k i => linear_out A M B b q k None i)
  | HybridAttn M => recurrent (fun _ q k i => hybrid_out A M q k i)
  | SoftmaxAttn =>
    let kv_all := match get_kv c li with
                  | Some past => zip_with app past kv
                  | None => kv
                  end in
    let c := match mode with CacheCommit => update_kv li kv c | CacheRead => c end in
    (zip_with (fun (q : list heads) (all : list kv_row) =>
        map (fun x => dense A (softmax_heads A all x (fun _ => Some s0))) q) qs kv_all, c)
  end.

(** ** [LLaDA2MoeDecoderLayer] *)

Inductive ffn : Type :=
| DenseMlp (M : mlp R)
| SparseMoe (G : gate R) (experts : list (mlp R)) (shared : option (mlp R)).

Record layer : Type := mkLayer {
  l_attn : attention;
  l_ffn : ffn;
  input_layernorm : rms_norm;
  post_attention_layernorm : rms_norm;
}.

Definition vadd (x y : vec R) : vec R := fun d => x d + y d.

(** [self.mlp] on the batch; the sparse block flattens it and restores its shape. *)
Definition ffn_forward (F : ffn) (hs : list (list (vec R))) : res (list (list (vec R))) :=
  match F with
  | DenseMlp M => Ok (map (map (mlp_forward M)) hs)
  | SparseMoe G experts shared =>
    (let! y := moe_forward G experts shared false [] (concat hs) in
     Ok (reshape_rows (match hs with [] => 0 | r :: _ => length r end) (length hs) y))%py
  end.

(** Residual connections around the attention output [attn] and the MLP. *)
Definition layer_rest (L : layer) (hs attn : list (list (vec R))) : res (list (list (vec R))) :=
  let h1 := zip_with (zip_with vadd) hs attn in
  (let! y := ffn_forward (l_ffn L) (map (map (norm_forward (post_attention_layernorm L))) h1) in
   Ok (zip_with (zip_with vadd) h1 y))%py.

Definition layer_forward (L : layer) (P : rotary) (mask : nat -> nat -> option R)
    (hs : list (list (vec R))) : res (list (list (vec R))) :=
  layer_rest L hs
    (imap (fun b row => attn_forward (l_attn L) P (length hs) b mask
             (map (norm_forward (input_layernorm L)) row)) hs).

Definition layer_forward_cached (L : layer) (P : rotary) (li start : nat) (mode : cache_mode)
    (hs : list (list (vec R))) (c : BlockDiffusionCache)
    : res (list (list (vec R)) * BlockDiffusionCache) :=
  let '(attn, c) := _forward_with_prefix_cache (l_attn L) P li start mode
      (map (map (norm_forward (input_layernorm L))) hs) c in
  (let! hs := layer_rest L hs attn in Ok (hs, c))%py.

(** ** [LLaDA2MoeModel] and [LLaDA2MoeModelLM] *)

Record model : Type := mkModel {
  m_hidden : nat;
  vocab_size : nat;
  word_embeddings : Z -> vec R;
  layers : list layer;
  m_norm : rms_norm;
  m_rotary : rotary;
  lm_head : mat R;
}.

Fixpoint run_layers (P : rotary) (mask : nat -> nat -> option R) (Ls : list layer)
    (hs : list (list (vec R))) : res (list (list (vec R))) :=
  match Ls with
  | [] => Ok hs
  | L :: Ls => (let! hs := layer_forward L P mask hs in run_layers P mask Ls hs)%py
  end.

Fixpoint run_layers_cached (P : rotary) (start : nat) (mode : cache_mode) (li : nat) (Ls : list layer)
    (hs : list (list (vec R))) (c : BlockDiffusionCache)
    : res (list (list (vec R)) * BlockDiffusionCache) :=
  match Ls with
  | [] => Ok (hs, c)
  | L :: Ls =>
    (let! '(hs, c) := layer_forward_cached L P li start mode hs c in
     run_layers_cached P start mode (S li) Ls hs c)%py
  end.

Definition embed (M : model) (ids : list (list Z)) : list (list (vec R)) := map (map (word_embeddings M)) ids.

(** The final norm and the head: a row of logits for every position. *)
Definition head (M : model) (hs : list (list (vec R))) : list (list (list R)) :=
  map (map (fun x => let y := norm_forward (m_norm M) x in
                     map (linear (m_hidden M) (lm_head M) y) (seq 0 (vocab_size M)))) hs.

(** The block mask of [generate]: [tril] over blocks of [bl] positions, turned
    into an additive mask by [LLaDA2MoeModel.forward]. *)
Definition block_mask (bl : nat) (q k : nat) : option R := if (k / bl <=? q / bl)%nat then Some s0 else None.

(** [self.forward(cur_x, attention_mask, position_ids)]. *)
Definition model_forward (M : model) (bl : nat) (ids : list (list Z)) : res (list (list (list R))) :=
  (let! hs := run_layers (m_rotary M) (block_mask bl) (layers M) (embed M ids) in
   Ok (head M hs))%py.

(** [self.forward(block, position_ids, prefix_cache, cache_mode)]. *)
Definition model_forward_cached (M : model) (start : nat) (mode : cache_mode) (ids : list (list Z))
    (c : BlockDiffusionCache) : res (list (list (list R)) * BlockDiffusionCache) :=
  (let! '(hs, c) := run_layers_cached (m_rotary M) start mode 0 (layers M) (embed M ids) c in
   Ok (head M hs, c))%py.

(** [_init_prefix_cache]. *)
Definition _init_prefix_cache (M : model) (batch_size : nat) : BlockDiffusionCache :=
  snd (foldl (fun (lc : nat * BlockDiffusionCache) L =>
      let '(li, c) := lc in
      (S li, match at_kind (l_attn L) with
             | SoftmaxAttn => set_layer_type li SoftmaxLayer c
             | _ => init_recurrent_state li batch_size (set_layer_type li LinearLayer c)
             end)) (0%nat, new_cache (length (layers M))) (layers M)).

End Model.
Arguments rms_norm : clear implicits.
Arguments rotary : clear implicits.
Arguments attention : clear implicits.
Arguments layer : clear implicits.
Arguments ffn : clear implicits.
Arguments model : clear implicits.
Arguments BlockDiffusionCache : clear implicits.
Arguments kv_row : clear implicits.
Arguments heads : clear implicits.

End Dec.
