(* ===== verification/DecoderFacts.v ===== *)
(** Facts about the layers of [Decoder], one sequence at a time: a layer over a
    window is block-causal, and the rows of its last block follow from the
    block and what the prefix cache keeps of the blocks before it. *)
From stdpp Require Import base list.
From Stdlib Require Import ZArith QArith Lia Ring FunctionalExtensionality.
From S2P Require Import Prelude Denoise Sampling Tensor RealOps Moe LinearAttention HybridAttention Decoder.
Local Open Scope nat_scope.

Module DecFacts.
Import Rec Moe Dec.

Section Attention.
Context {R : Type} {HO : ScalarOps R} {sle : R -> R -> Prop} {HL : ScalarLaws R sle}.
Context `{NetOps R}.
Local Open Scope sc_scope.
Add Ring dec_ring : s_ring.

Variable P : rotary R.
Implicit Types (hs pre cur : list (vec R)) (A : attention R).

(** ** Sequences of queries and keys *)

Lemma queries_length A start hs : length (queries A P start hs) = length hs.
Proof. unfold queries. apply length_imap. Qed.

Lemma kv_length A start hs : length (keys_values A P start hs) = length hs.
Proof. unfold keys_values. apply length_imap. Qed.

Lemma queries_app A start pre cur :
  queries A P start (pre ++ cur) = queries A P start pre ++ queries A P (start + length pre) cur.
Proof.
  unfold queries. rewrite imap_app. f_equal. apply imap_ext. intros i x _. simpl. f_equal. lia.
Qed.

Lemma kv_app A start pre cur :
  keys_values A P start (pre ++ cur) = keys_values A P start pre ++ keys_values A P (start + length pre) cur.
Proof.
  unfold keys_values. rewrite imap_app. f_equal. apply imap_ext. intros i x _. simpl. f_equal. lia.
Qed.

Lemma along_app_l (l l' : list (heads R)) h t : (t < length l)%nat -> along (l ++ l') h t = along l h t.
Proof. intros Ht. unfold along. by rewrite app_nth1. Qed.

Lemma along_app_r (l l' : list (heads R)) h t : along (l ++ l') h (length l + t)%nat = along l' h t.
Proof. unfold along. rewrite app_nth2 by lia. f_equal. f_equal. lia. Qed.

(** ** Softmax attention *)

(** The keys up to the end of the query's block are all a query sees. *)
Lemma eager_visible A n vis (q : vec R) (k v k' v' : mat R) (m : nat -> option R) :
  (vis <= n)%nat -> (forall j, (j < vis)%nat -> m j = Some s0) ->
  (forall j, (vis <= j < n)%nat -> m j = None) ->
  (forall j e, (j < vis)%nat -> k j e = k' j e) -> (forall j e, (j < vis)%nat -> v j e = v' j e) ->
  eager_attention A n q k v m = eager_attention A vis q k' v' (fun _ => Some s0).
Proof.
  intros Hn Hv Hm Ek Ev. apply functional_extensionality. intros d. unfold eager_attention.
  set (e := fun j => match m j with
    | Some m => sexp (vsum (head_dim A) (fun i => q i * k j i) * sinvsqrt (head_dim A) + m)
    | None => s0 end).
  set (e' := fun j => sexp (vsum (head_dim A) (fun i => q i * k' j i) * sinvsqrt (head_dim A) + s0)).
  change (vsum n (fun j => e j / vsum n e * v j d) = vsum vis (fun j => e' j / vsum vis e' * v' j d)).
  assert (Ee : forall j, (j < vis)%nat -> e j = e' j).
  { intros j Hj. unfold e, e'. rewrite Hv by done. do 2 f_equal. f_equal. apply vsum_ext.
    intros i _. by rewrite Ek. }
  assert (Ez : forall j, (vis <= j < n)%nat -> e j = s0) by (intros j Hj; unfold e; by rewrite Hm).
  assert (Es : vsum n e = vsum vis e').
  { replace n with (vis + (n - vis))%nat by lia. rewrite vsum_app.
    rewrite (vsum_ext (n - vis) _ (fun _ => s0)) by (intros; apply Ez; lia). rewrite vsum_0.
    rewrite (vsum_ext vis e e') by exact Ee. ring. }
  rewrite Es. replace n with (vis + (n - vis))%nat by lia. rewrite vsum_app.
  rewrite (vsum_ext (n - vis) (fun i => e (vis + i)%nat / _ * _) (fun _ => s0)).
  - rewrite vsum_0, (vsum_ext vis (fun j => e j / vsum vis e' * v j d) (fun j => e' j / vsum vis e' * v' j d)); [ring|].
    intros j Hj. by rewrite Ee, Ev.
  - intros j Hj. rewrite Ez by lia. rewrite sdiv_mul. ring.
Qed.

Variable bl : nat.
Hypothesis bl_pos : (0 < bl)%nat.

(** The end of the block of position [t]. *)
Definition block_end (t : nat) : nat := ((t / bl + 1) * bl)%nat.

Lemma block_end_gt t : (t < block_end t)%nat.
Proof.
  unfold block_end. pose proof (Nat.div_mod_eq t bl). pose proof (Nat.mod_upper_bound t bl). nia.
Qed.

Lemma block_end_le t m : (t < m * bl)%nat -> (block_end t <= m * bl)%nat.
Proof.
  intros Ht. unfold block_end. assert (t / bl < m)%nat by (apply Nat.Div0.div_lt_upper_bound; lia). nia.
Qed.

Lemma block_mask_in t j : (j < block_end t)%nat -> block_mask bl t j = Some (s0 : R).
Proof.
  intros Hj. unfold block_mask, block_end in *. assert (j / bl <= t / bl)%nat.
  { assert (j / bl < t / bl + 1)%nat by (apply Nat.Div0.div_lt_upper_bound; lia). lia. }
  by destruct (Nat.leb_spec (j / bl) (t / bl)); [|lia].
Qed.

Lemma block_mask_out t j : (block_end t <= j)%nat -> block_mask bl t j = (None : option R).
Proof.
  intros Hj. unfold block_mask, block_end in *. assert (t / bl + 1 <= j / bl)%nat.
  { apply Nat.div_le_lower_bound; lia. }
  by destruct (Nat.leb_spec (j / bl) (t / bl)); [lia|].
Qed.

(** The output at position [t] over the keys [kv]. *)
Lemma softmax_visible A (kv : list (kv_row R)) q t m :
  length kv = (m * bl)%nat -> (t < m * bl)%nat ->
  softmax_heads A kv q (block_mask bl t) = softmax_heads A (take (block_end t) kv) q (fun _ => Some s0).
Proof.
  intros Hl Ht. pose proof (block_end_le t m Ht) as Hle. unfold softmax_heads.
  apply functional_extensionality. intros h. rewrite length_take, Nat.min_l by lia.
  apply eager_visible; [lia|apply block_mask_in|intros; apply block_mask_out; lia| |];
    intros j e Hj; rewrite <- (take_drop (block_end t) kv) at 1; rewrite map_app, along_app_l;
    try done; rewrite length_map, length_take; lia.
Qed.

(** ** Hybrid attention *)

(** What the module computes depends on the rows of the sequence only. *)
Lemma hybrid_forward_ext (M : Hybrid.module R) h m (q k v q' k' v' : mat R) st :
  (0 < Hybrid.block_size M)%nat ->
  (forall t, (t < m * Hybrid.block_size M)%nat -> q t = q' t /\ k t = k' t /\ v t = v' t) ->
  (forall t d, (t < m * Hybrid.block_size M)%nat ->
     fst (Hybrid.forward M h (m * Hybrid.block_size M) q k v None (Some st)) t d =
     fst (Hybrid.forward M h (m * Hybrid.block_size M) q' k' v' None (Some st)) t d) /\
  snd (Hybrid.forward M h (m * Hybrid.block_size M) q k v None (Some st)) =
  snd (Hybrid.forward M h (m * Hybrid.block_size M) q' k' v' None (Some st)).
Proof.
  clear bl_pos. intros Hb E. set (bs := Hybrid.block_size M) in *.
  assert (Est : forall n, (n <= m)%nat ->
    state_at (update bs (fun t => Hybrid._feature_map M h (k t)) v) n st =
    state_at (update bs (fun t => Hybrid._feature_map M h (k' t)) v') n st).
  { induction n as [|n IH]; intros Hn; [done|]. simpl. rewrite IH by lia. unfold update. f_equal.
    - apply functional_extensionality. intros f. apply functional_extensionality. intros d. f_equal.
      unfold matmul, transpose. apply vsum_ext. intros s Hs.
      destruct (E (n * bs + s)%nat) as (_ & -> & ->); [nia|done].
    - apply functional_extensionality. intros f. f_equal. apply vsum_ext. intros s Hs.
      destruct (E (n * bs + s)%nat) as (_ & -> & _); [nia|done]. }
  split.
  - intros t d Ht. rewrite !(Hybrid.forward_out M Hb) by done. fold bs.
    assert (Hn : (t / bs < m)%nat) by (apply Nat.Div0.div_lt_upper_bound; lia).
    rewrite (Est (t / bs)%nat) by lia.
    assert (Er : forall j, (j < bs)%nat -> (t / bs * bs + j < m * bs)%nat) by (intros; nia).
    apply Hybrid.block_out_ext; [by apply Nat.mod_upper_bound; lia| | | | |done|done];
      intros j e Hj; unfold Hybrid.rows; fold bs; by destruct (E _ (Er j Hj)) as (E1 & E2 & E3); rewrite ?E1, ?E2, ?E3.
  - rewrite !(Hybrid.forward_eq M Hb). simpl. by apply Est.
Qed.

(** The state after the blocks of [hs]. *)
Definition state_of A (M : Hybrid.module R) hs (h : nat) : state R :=
  snd (hybrid_out A M (queries A P 0 hs) (keys_values A P 0 hs) (fun _ => None) h).

Lemma expanded_app A (kv kv' : list (kv_row R)) h t :
  ((t < length kv)%nat -> fst (expanded A (kv ++ kv')) h t = fst (expanded A kv) h t /\
                           snd (expanded A (kv ++ kv')) h t = snd (expanded A kv) h t) /\
  fst (expanded A (kv ++ kv')) h (length kv + t)%nat = fst (expanded A kv') h t /\
  snd (expanded A (kv ++ kv')) h (length kv + t)%nat = snd (expanded A kv') h t.
Proof.
  unfold expanded. simpl. rewrite !map_app. split; [intros Ht; split; apply along_app_l; by rewrite length_map|].
  set (f := fun r : kv_row R => repeat_kv (num_key_value_groups A) (fst r)).
  set (g := fun r : kv_row R => repeat_kv (num_key_value_groups A) (snd r)).
  pose proof (along_app_r (map f kv) (map f kv') h t) as Ef. pose proof (along_app_r (map g kv) (map g kv') h t) as Eg.
  rewrite !length_map in Ef, Eg. done.
Qed.

(** The rows of a sequence, from those of its parts. *)
Lemma rows_split A pre cur h n : length pre = n ->
  let q := along (queries A P 0 (pre ++ cur)) h in
  let k := fst (expanded A (keys_values A P 0 (pre ++ cur))) h in
  let v := snd (expanded A (keys_values A P 0 (pre ++ cur))) h in
  (forall t, (t < n)%nat -> q t = along (queries A P 0 pre) h t /\
    k t = fst (expanded A (keys_values A P 0 pre)) h t /\ v t = snd (expanded A (keys_values A P 0 pre)) h t) /\
  (fun t => q (n + t)%nat) = along (queries A P n cur) h /\
  (fun t => k (n + t)%nat) = fst (expanded A (keys_values A P n cur)) h /\
  (fun t => v (n + t)%nat) = snd (expanded A (keys_values A P n cur)) h.
Proof.
  intros Hpre q k v. pose proof (queries_app A 0 pre cur) as Hq. pose proof (kv_app A 0 pre cur) as Hkv.
  simpl in Hq, Hkv. rewrite Hpre in Hq, Hkv. unfold q, k, v. rewrite Hq, Hkv. split.
  { intros t Ht. rewrite along_app_l by (rewrite queries_length; lia). split; [done|].
    apply expanded_app. rewrite kv_length. lia. }
  split; [|split]; apply functional_extensionality; intros t.
  - pose proof (along_app_r (queries A P 0 pre) (queries A P n cur) h t) as E.
    by rewrite queries_length, Hpre in E.
  - destruct (expanded_app A (keys_values A P 0 pre) (keys_values A P n cur) h t) as (_ & E & _).
    by rewrite kv_length, Hpre in E.
  - destruct (expanded_app A (keys_values A P 0 pre) (keys_values A P n cur) h t) as (_ & _ & E).
    by rewrite kv_length, Hpre in E.
Qed.

(** Outputs of a prefix, and of the block behind it from the prefix's state. *)
Lemma hybrid_split A M pre cur h r m : (0 < Hybrid.block_size M)%nat -> bl = (r * Hybrid.block_size M)%nat ->
  length pre = (m * bl)%nat -> length cur = bl ->
  let whole := hybrid_out A M (queries A P 0 (pre ++ cur)) (keys_values A P 0 (pre ++ cur)) (fun _ => None) h in
  let first := hybrid_out A M (queries A P 0 pre) (keys_values A P 0 pre) (fun _ => None) h in
  let second := hybrid_out A M (queries A P (m * bl) cur) (keys_values A P (m * bl) cur)
                  (fun h => Some (state_of A M pre h)) h in
  (forall t d, (t < m * bl)%nat -> fst whole t d = fst first t d) /\
  (forall t d, (t < bl)%nat -> fst whole (m * bl + t)%nat d = fst second t d) /\
  snd whole = snd second.
Proof.
  intros Hb Hr Hpre Hcur whole first second. set (bs := Hybrid.block_size M) in *.
  assert (E1 : (m * bl = (m * r) * bs)%nat) by nia.
  assert (Ew : (length (queries A P 0 (pre ++ cur)) = (m * r + r) * bs)%nat)
    by (rewrite queries_length, length_app; nia).
  set (qw := along (queries A P 0 (pre ++ cur)) h).
  set (kw := fst (expanded A (keys_values A P 0 (pre ++ cur))) h).
  set (vw := snd (expanded A (keys_values A P 0 (pre ++ cur))) h).
  destruct (rows_split A pre cur h (m * r * bs) ltac:(lia)) as (Hlow & Hq' & Hk' & Hv').
  fold qw kw vw in Hlow, Hq', Hk', Hv'.
  assert (Eq : queries A P (m * r * bs) cur = queries A P (m * bl) cur) by (by rewrite E1). rewrite Eq in Hq'.
  assert (Ek : keys_values A P (m * r * bs) cur = keys_values A P (m * bl) cur) by (by rewrite E1).
  rewrite Ek in Hk', Hv'.
  destruct (Hybrid.hybrid_resume M h (m * r) r qw kw vw zero_state Hb) as (S1 & S2 & S3 & S4).
  destruct (hybrid_forward_ext M h (m * r) qw kw vw (along (queries A P 0 pre) h)
    (fst (expanded A (keys_values A P 0 pre)) h) (snd (expanded A (keys_values A P 0 pre)) h)
    zero_state Hb Hlow) as [X1 X2].
  cbv zeta in S1, S2, S3, S4. fold bs in S1, S2, S3, S4, X1, X2. rewrite Hq', Hk', Hv', X2 in S2, S3, S4.
  assert (Ewh : whole = Hybrid.forward M h ((m * r + r) * bs) qw kw vw None (Some zero_state)).
  { unfold whole, hybrid_out. rewrite Ew. done. }
  assert (Efi : first = Hybrid.forward M h (m * r * bs) (along (queries A P 0 pre) h)
     (fst (expanded A (keys_values A P 0 pre)) h) (snd (expanded A (keys_values A P 0 pre)) h) None (Some zero_state)).
  { unfold first, hybrid_out. rewrite queries_length, Hpre, E1. done. }
  assert (Ese : second = Hybrid.forward M h (r * bs) (along (queries A P (m * bl) cur) h)
     (fst (expanded A (keys_values A P (m * bl) cur)) h) (snd (expanded A (keys_values A P (m * bl) cur)) h)
     None (Some (snd first))).
  { unfold second, hybrid_out. rewrite queries_length, Hcur, Hr. done. }
  rewrite Ewh, Ese, Efi. split; [|split].
  - intros t d Ht. rewrite S1, X1 by lia. done.
  - intros t d Ht. replace (m * bl + t)%nat with (m * r * bs + t)%nat by lia. apply S2. lia.
  - destruct (snd (Hybrid.forward M h ((m * r + r) * bs) qw kw vw None (Some zero_state))) as [SS ZZ].
    destruct (snd (Hybrid.forward M h (r * bs) _ _ _ None _)) as [SS' ZZ'].
    cbn [st_S st_Z] in S3, S4. f_equal.
    + apply functional_extensionality. intros f. apply functional_extensionality. intros d. apply S3.
    + apply functional_extensionality. apply S4.
Qed.

(** ** The attention of a layer *)

(** Layers for which the prefix cache is exact: softmax, and hybrid modules
    whose block divides the block of generation. *)
Definition attn_ok A : Prop :=
  match at_kind A with
  | SoftmaxAttn => True
  | HybridAttn M => (0 < Hybrid.block_size M)%nat /\ exists r, bl = (r * Hybrid.block_size M)%nat
  | LinearAttn _ _ => False
  end.

Definition attn_row A hs : list (vec R) := attn_forward A P 1 0 (block_mask bl) hs.

Lemma attn_row_batch A B b hs : attn_ok A -> attn_forward A P B b (block_mask bl) hs = attn_row A hs.
Proof. intros Hok. unfold attn_row, attn_forward, attn_ok in *. by destruct (at_kind A). Qed.

Lemma attn_row_length A hs : attn_ok A -> length (attn_row A hs) = length hs.
Proof.
  intros Hok. unfold attn_row, attn_forward, attn_ok in *. rewrite length_map.
  destruct (at_kind A); [by rewrite length_imap, queries_length|done|].
  unfold head_rows. by rewrite length_map, length_seq.
Qed.

(** The rows of the block [cur] behind [pre], from what the cache holds. *)
Definition cached_row A (m : nat) pre cur : list (vec R) :=
  match at_kind A with
  | HybridAttn M => map (dense A) (head_rows (length cur) (fun h =>
      fst (hybrid_out A M (queries A P (m * bl) cur) (keys_values A P (m * bl) cur)
             (fun h => Some (state_of A M pre h)) h)))
  | _ => map (fun q => dense A (softmax_heads A
           (keys_values A P 0 pre ++ keys_values A P (m * bl) cur) q (fun _ => Some s0)))
         (queries A P (m * bl) cur)
  end.

(** Row [t] of a layer. *)
Lemma attn_row_lookup A hs m t : attn_ok A -> length hs = (m * bl)%nat -> (t < m * bl)%nat ->
  attn_row A hs !! t = match at_kind A with
    | HybridAttn M => Some (dense A (fun h =>
        fst (hybrid_out A M (queries A P 0 hs) (keys_values A P 0 hs) (fun _ => None) h) t))
    | _ => (fun q => dense A (softmax_heads A (take (block_end t) (keys_values A P 0 hs)) q
              (fun _ => Some s0))) <$> queries A P 0 hs !! t
    end.
Proof.
  intros Hok Hl Ht. unfold attn_row, attn_forward, attn_ok in *. rewrite list_lookup_fmap.
  destruct (at_kind A) as [| |M]; [|done|].
  - rewrite list_lookup_imap. destruct (queries A P 0 hs !! t) as [q|] eqn:Eq; [|done]. simpl.
    rewrite (softmax_visible A _ q t m); [done|by rewrite kv_length|done].
  - unfold head_rows. rewrite list_lookup_fmap, lookup_seq_lt by lia. done.
Qed.

Lemma attn_take A m pre cur : attn_ok A -> length pre = (m * bl)%nat -> length cur = bl ->
  take (m * bl) (attn_row A (pre ++ cur)) = attn_row A pre.
Proof.
  intros Hok Hpre Hcur. apply list_eq. intros t. destruct (decide (t < m * bl)%nat) as [Ht|Ht].
  2: { rewrite lookup_take_ge by lia. symmetry. apply lookup_ge_None. rewrite attn_row_length by done. lia. }
  rewrite lookup_take_lt by done.
  rewrite (attn_row_lookup A (pre ++ cur) (S m)) by (try done; rewrite ?length_app; lia).
  rewrite (attn_row_lookup A pre m) by done.
  pose proof Hok as Hok'. unfold attn_ok in Hok'. destruct (at_kind A) as [| |M]; [|done|].
  - rewrite queries_app, lookup_app_l by (rewrite queries_length; lia).
    destruct (queries A P 0 pre !! t); [|done]. simpl. do 2 f_equal.
    rewrite kv_app, take_app_le; [done|]. rewrite kv_length, Hpre. by apply block_end_le.
  - destruct Hok' as [Hb [r Hr]]. do 2 f_equal. apply functional_extensionality. intros h.
    apply functional_extensionality. intros d.
    by apply (hybrid_split A M pre cur h r m Hb Hr Hpre Hcur).
Qed.

Lemma attn_drop A m pre cur : attn_ok A -> length pre = (m * bl)%nat -> length cur = bl ->
  drop (m * bl) (attn_row A (pre ++ cur)) = cached_row A m pre cur.
Proof.
  intros Hok Hpre Hcur. apply list_eq. intros s. rewrite lookup_drop.
  assert (Hlen : length (cached_row A m pre cur) = bl).
  { unfold cached_row. destruct (at_kind A); rewrite length_map; [by rewrite queries_length..|].
    unfold head_rows. by rewrite length_map, length_seq. }
  destruct (decide (s < bl)%nat) as [Hs|Hs].
  2: { transitivity (@None (vec R)); [|symmetry]; apply lookup_ge_None; [|lia].
       rewrite attn_row_length, length_app by done. lia. }
  rewrite (attn_row_lookup A (pre ++ cur) (S m)) by (try done; rewrite ?length_app; lia).
  pose proof Hok as Hok'. unfold attn_ok in Hok'. unfold cached_row.
  destruct (at_kind A) as [| |M]; [|done|].
  - rewrite list_lookup_fmap. rewrite queries_app, lookup_app_r; rewrite queries_length, Hpre; [|lia].
    replace (m * bl + s - m * bl)%nat with s by lia. simpl. destruct (queries A P (m * bl) cur !! s); [|done].
    simpl. do 2 f_equal. f_equal. rewrite kv_app, Hpre. simpl. apply take_ge.
    rewrite length_app, !kv_length, Hpre, Hcur. pose proof (block_end_gt (m * bl + s)) as Hgt.
    unfold block_end in *. rewrite Nat.div_add_l, Nat.div_small by lia. lia.
  - destruct Hok' as [Hb [r Hr]]. rewrite list_lookup_fmap. unfold head_rows.
    rewrite list_lookup_fmap, lookup_seq_lt by lia. simpl. do 2 f_equal.
    apply functional_extensionality. intros h. apply functional_extensionality. intros d.
    by apply (hybrid_split A M pre cur h r m Hb Hr Hpre Hcur).
Qed.

End Attention.

(** ** A layer, one sequence at a time *)

Lemma reshape_concat {T} n (x : list (list T)) : rect n x -> reshape_rows n (length x) (concat x) = x.
Proof.
  intros Hx. apply list_eq. intros t. unfold reshape_rows. rewrite list_lookup_fmap.
  destruct (x !! t) as [row|] eqn:Et.
  2: { rewrite lookup_seq_ge by (by apply lookup_ge_None). done. }
  pose proof (lookup_lt_Some _ _ _ Et) as Ht. pose proof (rect_lookup _ _ _ _ Hx Et) as Hr.
  rewrite lookup_seq_lt by done. simpl. f_equal. apply list_eq. intros k. destruct (decide (k < n)).
  - rewrite lookup_blk by done. by apply lookup_concat_rect.
  - transitivity (@None T); [|symmetry]; apply lookup_ge_None; [|lia].
    rewrite (length_blk n (length x)); [lia|by apply length_concat_rect|done].
Qed.

Section Layer.
Context {R : Type} {HO : ScalarOps R} {sle : R -> R -> Prop} {HL : ScalarLaws R sle}.
Context `{NetOps R} `{DenoiseOps R} `{TopkOps R} `{!TopkLaws R} `{ArgsortOps} `{!ArgsortLaws}.
Implicit Types (row pre cur : list (vec R)) (hs : list (list (vec R))) (L : layer R).

Definition ffn_ok (F : ffn R) : Prop :=
  match F with
  | DenseMlp _ => True
  | SparseMoe G experts _ => gate_ok G /\ length experts = num_experts G /\ (0 < top_k G)%nat
  end.

Definition ffn_row (F : ffn R) (x : vec R) : vec R :=
  match F with
  | DenseMlp M => mlp_forward M x
  | SparseMoe G experts shared => match moe_ref G experts shared x with Ok y => y | Raise _ => x end
  end.

Lemma rmap_total {T U} (f : T -> res U) (g : T -> U) (l : list T) :
  (forall a, f a = Ok (g a)) -> Sampler.rmap f l = Ok (map g l).
Proof. intros E. induction l as [|a l IH]; simpl; [done|]. by rewrite E, IH. Qed.

Lemma ffn_forward_rows F hs n : ffn_ok F -> rect n hs -> (0 < n)%nat -> hs <> [] ->
  ffn_forward F hs = Ok (map (map (ffn_row F)) hs).
Proof.
  intros Hok Hr Hn Hne. destruct F as [M|G experts shared]; [done|].
  destruct Hok as (Hg & He & Hk). simpl ffn_forward.
  assert (Hc : concat hs <> []).
  { destruct hs as [|r hs]; [done|]. apply Forall_cons in Hr as [Hr _]. simpl. destruct r; [simpl in Hr; lia|done]. }
  rewrite moe_forward_ref by done.
  rewrite (rmap_total _ (ffn_row (SparseMoe G experts shared))).
  - cbn [rbind]. f_equal. rewrite concat_map. rewrite <- (length_map (map (ffn_row (SparseMoe G experts shared))) hs).
    assert (Hr' : rect n (map (map (ffn_row (SparseMoe G experts shared))) hs)).
    { apply Forall_map. eapply Forall_impl; [exact Hr|]. intros r <-. apply length_map. }
    assert (En : match hs with [] => 0 | r :: _ => length r end = n).
    { destruct hs as [|r hs']; [done|]. by apply Forall_cons in Hr as [Hr _]. }
    rewrite En. by apply reshape_concat.
  - intros x. unfold ffn_row. destruct (gate_spec G Hg x) as (idx & w & lg & E & _).
    unfold moe_ref. by rewrite E.
Qed.

Definition rest_row L row (attn : list (vec R)) : list (vec R) :=
  let h1 := zip_with vadd row attn in
  zip_with vadd h1 (map (ffn_row (l_ffn L)) (map (norm_forward (post_attention_layernorm L)) h1)).

Lemma rest_row_length L row attn : length attn = length row -> length (rest_row L row attn) = length row.
Proof.
  intros Hl. unfold rest_row. rewrite length_zip_with, !length_map, length_zip_with. lia.
Qed.

Lemma layer_rest_rows L hs attn n : ffn_ok (l_ffn L) -> rect n hs -> rect n attn ->
  length attn = length hs -> (0 < n)%nat -> hs <> [] ->
  layer_rest L hs attn = Ok (zip_with (rest_row L) hs attn).
Proof.
  intros Hok Hr Ha Hl Hn Hne. unfold layer_rest.
  assert (Hz : rect n (zip_with (zip_with vadd) hs attn)).
  { apply Forall_lookup. intros b r. rewrite lookup_zip_with.
    destruct (hs !! b) as [rh|] eqn:Eh; [|done]. destruct (attn !! b) as [ra|] eqn:Ea; [|done].
    intros [= <-]. rewrite length_zip_with, (rect_lookup _ _ _ _ Hr Eh), (rect_lookup _ _ _ _ Ha Ea). lia. }
  rewrite (ffn_forward_rows _ _ n); [|done| |done|].
  - cbn [rbind]. f_equal. apply list_eq. intros b.
    rewrite !lookup_zip_with, !list_lookup_fmap, !lookup_zip_with.
    destruct (hs !! b); [|done]. simpl. by destruct (attn !! b).
  - apply Forall_map. eapply Forall_impl; [exact Hz|]. intros r <-. apply length_map.
  - destruct hs; [done|]. destruct attn; [done|]. by simpl.
Qed.

Definition normed L row : list (vec R) := map (norm_forward (input_layernorm L)) row.

Variables (P : rotary R) (bl : nat).
Hypothesis bl_pos : (0 < bl)%nat.

Definition layer_row L row : list (vec R) := rest_row L row (attn_row P bl (l_attn L) (normed L row)).

Definition layer_ok L : Prop := attn_ok bl (l_attn L) /\ ffn_ok (l_ffn L).

Lemma layer_row_length L row : layer_ok L -> length (layer_row L row) = length row.
Proof.
  intros [Ha _]. unfold layer_row. apply rest_row_length.
  rewrite attn_row_length by done. apply length_map.
Qed.

Lemma layer_forward_rows L hs n : layer_ok L -> rect n hs -> (0 < n)%nat -> hs <> [] ->
  layer_forward L P (block_mask bl) hs = Ok (map (layer_row L) hs).
Proof.
  intros [Ha Hf] Hr Hn Hne. unfold layer_forward.
  rewrite (imap_ext _ (fun _ row => attn_row P bl (l_attn L) (normed L row)))
    by (intros; by apply attn_row_batch).
  assert (Ei : imap (fun _ row => attn_row P bl (l_attn L) (normed L row)) hs
               = map (fun row => attn_row P bl (l_attn L) (normed L row)) hs).
  { clear. generalize hs. induction hs0 as [|r l IH]; [done|]. simpl. f_equal. exact IH. }
  rewrite Ei, (layer_rest_rows _ _ _ n); try done.
  - f_equal. apply list_eq. intros b. rewrite lookup_zip_with, !list_lookup_fmap. by destruct (hs !! b).
  - apply Forall_map. eapply Forall_impl; [exact Hr|]. intros r <-. rewrite attn_row_length by done.
    apply length_map.
  - apply length_map.
Qed.

(** Taking and dropping a prefix of the positions. *)
Lemma rest_row_take L k row attn : take k (rest_row L row attn) = rest_row L (take k row) (take k attn).
Proof.
  unfold rest_row. rewrite zip_with_take, !firstn_map. f_equal; [by rewrite zip_with_take|].
  f_equal. f_equal. by rewrite zip_with_take.
Qed.

Lemma rest_row_drop L k row attn : drop k (rest_row L row attn) = rest_row L (drop k row) (drop k attn).
Proof.
  unfold rest_row. rewrite zip_with_drop, !skipn_map. f_equal; [by rewrite zip_with_drop|].
  f_equal. f_equal. by rewrite zip_with_drop.
Qed.

Section Split.
Variables (L : layer R) (m : nat) (pre cur : list (vec R)).
Hypothesis L_ok : layer_ok L.
Hypothesis pre_length : length pre = (m * bl)%nat.
Hypothesis cur_length : length cur = bl.

Lemma normed_app : normed L (pre ++ cur) = normed L pre ++ normed L cur.
Proof. apply map_app. Qed.

(** A layer is block-causal: the rows before the last block are those of the
    layer without it. *)
Lemma layer_take : take (m * bl) (layer_row L (pre ++ cur)) = layer_row L pre.
Proof.
  unfold layer_row. rewrite rest_row_take, normed_app.
  rewrite (attn_take P bl bl_pos _ m (normed L pre)); [|apply L_ok|by unfold normed; rewrite length_map..].
  by rewrite take_app_length' by done.
Qed.

Lemma layer_drop : drop (m * bl) (layer_row L (pre ++ cur))
  = rest_row L cur (cached_row P bl (l_attn L) m (normed L pre) (normed L cur)).
Proof.
  unfold layer_row. rewrite rest_row_drop, normed_app.
  rewrite (attn_drop P bl bl_pos _ m (normed L pre)); [|apply L_ok|by unfold normed; rewrite length_map..].
  by rewrite drop_app_length' by done.
Qed.

End Split.

(** The stack over a window, one sequence at a time. *)
Definition full_rows (Ls : list (layer R)) row : list (vec R) := foldl (fun r L => layer_row L r) row Ls.

Lemma full_rows_length Ls row : Forall layer_ok Ls -> length (full_rows Ls row) = length row.
Proof.
  intros HLs. unfold full_rows. revert row. induction HLs as [|L Ls HLk _ IH]; intros row; [done|]. simpl.
  by rewrite IH, layer_row_length.
Qed.

Lemma run_layers_rows Ls hs n : Forall layer_ok Ls -> rect n hs -> (0 < n)%nat -> hs <> [] ->
  run_layers P (block_mask bl) Ls hs = Ok (map (full_rows Ls) hs).
Proof.
  intros HLs. revert hs. induction HLs as [|L Ls HLk HLs IH]; intros hs Hr Hn Hne; cbn [run_layers].
  { f_equal. unfold full_rows. simpl. by rewrite map_id. }
  rewrite (layer_forward_rows L hs n) by done. cbn [rbind]. rewrite IH.
  - f_equal. by rewrite map_map.
  - apply Forall_map. eapply Forall_impl; [exact Hr|]. intros r <-. by apply layer_row_length.
  - done.
  - by destruct hs.
Qed.

End Layer.
End DecFacts.
