(* ===== verification/DecoderCache.v ===== *)
(** The prefix cache implements the forward pass over the window: after blocks
    have been committed in order, the pass over the next block with the cache
    returns the last rows of the pass over all blocks, through every layer.
    This discharges what the generation loop assumes of the network. *)
From stdpp Require Import base list.
From Stdlib Require Import ZArith QArith Reals Lra Lia FunctionalExtensionality.
From S2P Require Import Prelude Denoise Sampling Tensor RealOps Moe LinearAttention HybridAttention.
From S2P Require Import Generate GenerateFacts GenerateProps Decoder DecoderFacts.
Local Open Scope nat_scope.

Module DecCache.
Import Rec Moe Dec DecFacts.

Section Cache.
Context {R : Type} {HO : ScalarOps R} {sle : R -> R -> Prop} {HL : ScalarLaws R sle}.
Context `{NetOps R} `{DenoiseOps R} `{TopkOps R} `{!TopkLaws R} `{ArgsortOps} `{!ArgsortLaws}.
Variables (P : rotary R) (bl : nat).
Hypothesis bl_pos : 0 < bl.
Implicit Types (hs : list (list (vec R))) (L : layer R) (c : BlockDiffusionCache R).

(** ** What the cache holds *)

(** Entry [li] after [nb] blocks, when [pres] are the inputs of the layer at the
    positions of these blocks. *)
Definition entry_inv (nb li : nat) L c (pres : list (list (vec R))) : Prop :=
  match at_kind (l_attn L) with
  | SoftmaxAttn => get_kv c li = if nb =? 0 then None
                                 else Some (map (fun row => keys_values (l_attn L) P 0 (normed L row)) pres)
  | HybridAttn M => get_recurrent_state c li
                    = Some (map (fun row => state_of P (l_attn L) M (normed L row)) pres)
  | LinearAttn _ _ => False
  end.

Definition sized (n : nat) c : Prop := length (kv_cache c) = n /\ length (recurrent_state c) = n.

(** Every other entry is as before. *)
Definition same_other (li : nat) c c' : Prop := forall lj, lj <> li ->
  get_kv c' lj = get_kv c lj /\ get_recurrent_state c' lj = get_recurrent_state c lj.

Lemma get_update_kv n li new c : sized n c -> li < n ->
  get_kv (update_kv li new c) li = Some (match get_kv c li with None => new | Some old => zip_with app old new end)
  /\ same_other li c (update_kv li new c) /\ sized n (update_kv li new c).
Proof.
  intros [S1 S2] Hli. unfold update_kv, get_kv, get_recurrent_state. split; [|split].
  - simpl. by rewrite list_lookup_insert_eq by lia.
  - intros lj Hne. unfold get_kv, get_recurrent_state. simpl. by rewrite list_lookup_insert_ne by done.
  - split; simpl; [by rewrite length_insert|done].
Qed.

Lemma get_update_state n li st c : sized n c -> li < n ->
  get_recurrent_state (update_recurrent_state li st c) li = Some st
  /\ same_other li c (update_recurrent_state li st c) /\ sized n (update_recurrent_state li st c).
Proof.
  intros [S1 S2] Hli. unfold update_recurrent_state, get_kv, get_recurrent_state. split; [|split].
  - simpl. by rewrite list_lookup_insert_eq by lia.
  - intros lj Hne. unfold get_kv, get_recurrent_state. simpl. by rewrite list_lookup_insert_ne by done.
  - split; simpl; [done|by rewrite length_insert].
Qed.

(** ** One layer *)

Section Layer.
Variables (L : layer R) (nb : nat) (hs : list (list (vec R))).
#[local] Abbreviation k := (nb * bl).
#[local] Abbreviation A := (l_attn L).
Hypothesis L_ok : layer_ok bl L.
Hypothesis hs_rect : rect (S nb * bl) hs.

Lemma layer_pre : map (take k) (map (layer_row P bl L) hs) = map (layer_row P bl L) (map (take k) hs).
Proof.
  apply list_eq. intros b. rewrite !list_lookup_fmap. destruct (hs !! b) as [row|] eqn:Eb; [|done]. simpl. f_equal.
  pose proof (rect_lookup _ _ _ _ hs_rect Eb) as Hr.
  rewrite <- (take_drop k row) at 1. apply layer_take; [done|done| |].
  - rewrite length_take. lia.
  - rewrite length_drop. lia.
Qed.

Lemma layer_rect : rect (S nb * bl) (map (layer_row P bl L) hs).
Proof.
  apply Forall_map. eapply Forall_impl; [exact hs_rect|]. intros row Hr. simpl in Hr |- *.
  by rewrite layer_row_length.
Qed.

Lemma pre_length row : row ∈ hs -> length (normed L (take k row)) = k.
Proof.
  intros [b Hb]%list_elem_of_lookup. pose proof (rect_lookup _ _ _ _ hs_rect Hb).
  unfold normed. rewrite length_map, length_take. lia.
Qed.

Lemma cur_length row : row ∈ hs -> length (normed L (drop k row)) = bl.
Proof.
  intros [b Hb]%list_elem_of_lookup. pose proof (rect_lookup _ _ _ _ hs_rect Hb).
  unfold normed. rewrite length_map, length_drop. lia.
Qed.

Lemma normed_split row : normed L row = normed L (take k row) ++ normed L (drop k row).
Proof. unfold normed. by rewrite <- map_app, take_drop. Qed.

Lemma kv_split row : row ∈ hs -> keys_values A P 0 (normed L row) =
  keys_values A P 0 (normed L (take k row)) ++ keys_values A P k (normed L (drop k row)).
Proof.
  intros Hrow. rewrite normed_split, kv_app, pre_length by done. done.
Qed.

Variables (li n : nat) (c : BlockDiffusionCache R).
Hypothesis c_sized : sized n c.
Hypothesis li_lt : li < n.
Hypothesis entry : entry_inv nb li L c (map (take k) hs).

(** The attention of the block, row by row, and the entry it leaves. *)
Definition block_done (mode : cache_mode) c' : Prop :=
  match mode with
  | CacheRead => c' = c
  | CacheCommit => entry_inv (S nb) li L c' hs /\ same_other li c c' /\ sized n c'
  end.

Definition block_rows : list (list (vec R)) :=
  map (fun row => cached_row P bl A nb (normed L (take k row)) (normed L (drop k row))) hs.

(** Softmax layers append keys and values. *)
Lemma attn_cached_softmax mode : at_kind A = SoftmaxAttn ->
  exists c', _forward_with_prefix_cache A P li k mode (map (normed L) (map (drop k) hs)) c = (block_rows, c') /\
    block_done mode c'.
Proof.
  intros Ek. unfold _forward_with_prefix_cache, block_rows, block_done, entry_inv, cached_row in *. rewrite Ek in *.
  set (kvs := map (keys_values A P k) _).
  assert (Eall : match get_kv c li with Some past => zip_with app past kvs | None => kvs end
                 = map (fun row => keys_values A P 0 (normed L row)) hs).
  { rewrite entry. unfold kvs. apply list_eq. intros b.
    destruct (Nat.eqb_spec nb 0) as [Hnb|Hnb]; rewrite ?lookup_zip_with, !list_lookup_fmap;
      destruct (hs !! b) as [row|] eqn:Eb; try done; simpl; f_equal;
      rewrite (kv_split row) by (by eapply list_elem_of_lookup_2); [|done].
    rewrite Hnb. done. }
  eexists. split.
  - rewrite Eall. f_equal. apply list_eq. intros b. rewrite lookup_zip_with, !list_lookup_fmap.
    destruct (hs !! b) as [row|] eqn:Eb; [|done]. simpl. f_equal.
    by rewrite (kv_split row) by (by eapply list_elem_of_lookup_2).
  - destruct mode; [done|]. destruct (get_update_kv n li kvs c c_sized li_lt) as (G1 & G2 & G3).
    split; [|done]. rewrite G1. simpl. f_equal. rewrite <- Eall. by destruct (get_kv c li).
Qed.

(** Hybrid layers go on from the recurrent state. *)
Lemma attn_cached_hybrid mode M : at_kind A = HybridAttn M ->
  exists c', _forward_with_prefix_cache A P li k mode (map (normed L) (map (drop k) hs)) c = (block_rows, c') /\
    block_done mode c'.
Proof.
  intros Ek. destruct L_ok as [Ha _].
  unfold _forward_with_prefix_cache, block_rows, block_done, entry_inv, attn_ok, cached_row in *. rewrite Ek in *.
  destruct Ha as [Hb [r Hr]]. set (results := imap _ _).
  assert (Hst : forall st, st = get_recurrent_state c li -> forall b row, hs !! b = Some row ->
    match st with Some l => fun h => (fun s => s h) <$> l !! b | None => fun _ => None end
    = (fun h => Some (state_of P A M (normed L (take k row)) h))).
  { intros st -> b row Eb. rewrite entry. apply functional_extensionality. intros h.
    rewrite !list_lookup_fmap, Eb. done. }
  assert (Hres : forall b, results !! b = (fun row => (bl, hybrid_out A M
      (queries A P k (normed L (drop k row))) (keys_values A P k (normed L (drop k row)))
      (fun h => Some (state_of P A M (normed L (take k row)) h)))) <$> hs !! b).
  { intros b. unfold results. rewrite list_lookup_imap, lookup_zip_with, !list_lookup_fmap.
    destruct (hs !! b) as [row|] eqn:Eb; [|done]. simpl. f_equal. f_equal.
    - rewrite queries_length. apply cur_length. by eapply list_elem_of_lookup_2.
    - f_equal. apply Hst; [by destruct mode|done]. }
  eexists. split.
  - f_equal. apply list_eq. intros b. rewrite !list_lookup_fmap, Hres.
    destruct (hs !! b) as [row|] eqn:Eb; [|done]. simpl. f_equal.
    by rewrite cur_length by (by eapply list_elem_of_lookup_2).
  - destruct mode; [done|].
    destruct (get_update_state n li (map (fun r h => snd (snd r h)) results) c c_sized li_lt) as (G1 & G2 & G3).
    split; [|done]. rewrite G1. f_equal. apply list_eq. intros b. rewrite !list_lookup_fmap, Hres.
    destruct (hs !! b) as [row|] eqn:Eb; [|done]. simpl. f_equal. apply functional_extensionality. intros h.
    assert (Hrow : row ∈ hs) by (by eapply list_elem_of_lookup_2).
    pose proof (hybrid_split P bl bl_pos A M (normed L (take k row)) (normed L (drop k row)) h r nb Hb Hr
      (pre_length row Hrow) (cur_length row Hrow)) as (_ & _ & Es).
    rewrite <- normed_split in Es. symmetry. exact Es.
Qed.

Lemma attn_cached mode :
  exists c', _forward_with_prefix_cache A P li k mode (map (normed L) (map (drop k) hs)) c = (block_rows, c') /\
    block_done mode c'.
Proof.
  destruct (at_kind A) as [| |M] eqn:Ek; [by apply attn_cached_softmax| |by apply (attn_cached_hybrid mode M)].
  exfalso. destruct L_ok as [Ha _]. unfold attn_ok in Ha. by rewrite Ek in Ha.
Qed.

(** The rows of the block behind the layer. *)
Lemma layer_cached mode : hs <> [] ->
  exists c', layer_forward_cached L P li k mode (map (drop k) hs) c =
    Ok (map (drop k) (map (layer_row P bl L) hs), c') /\ block_done mode c'.
Proof.
  intros Hne. destruct (attn_cached mode) as (c' & E & Hc'). exists c'. split; [|done]. unfold block_rows in E.
  unfold layer_forward_cached.
  change (map (map (norm_forward (input_layernorm L))) (map (drop k) hs))
    with (map (normed L) (map (drop k) hs)).
  rewrite E. rewrite (layer_rest_rows L _ _ bl); [|apply L_ok| | | |done|by destruct hs].
  - cbn [rbind]. do 2 f_equal. apply list_eq. intros b. rewrite lookup_zip_with, !list_lookup_fmap.
    destruct (hs !! b) as [row|] eqn:Eb; [|done]. simpl. f_equal.
    pose proof (rect_lookup _ _ _ _ hs_rect Eb) as Hr.
    rewrite <- (take_drop k row) at 4. symmetry. apply layer_drop; [done|done| |].
    + rewrite length_take. lia.
    + rewrite length_drop. lia.
  - apply Forall_map. eapply Forall_impl; [exact hs_rect|]. intros row Hr. simpl in Hr |- *.
    rewrite length_drop. lia.
  - apply Forall_map, Forall_forall. intros row Hrow.
    rewrite <- (attn_drop P bl bl_pos A nb); [|apply L_ok|by apply pre_length|by apply cur_length].
    rewrite length_drop, attn_row_length by apply L_ok.
    rewrite length_app, pre_length, cur_length by done. lia.
  - by rewrite !length_map.
Qed.

End Layer.

(** ** The stack of layers *)

Fixpoint cache_inv (nb li : nat) (Ls : list (layer R)) c (pres : list (list (vec R))) : Prop :=
  match Ls with
  | [] => True
  | L :: Ls => entry_inv nb li L c pres /\ cache_inv nb (S li) Ls c (map (layer_row P bl L) pres)
  end.

Lemma entry_inv_same nb li L c c' pres : entry_inv nb li L c pres ->
  get_kv c' li = get_kv c li -> get_recurrent_state c' li = get_recurrent_state c li ->
  entry_inv nb li L c' pres.
Proof. intros Hi Hk Hs. unfold entry_inv in *. destruct (at_kind _); congruence. Qed.

Lemma cache_inv_same nb li Ls c c' pres : cache_inv nb li Ls c pres ->
  (forall lj, li <= lj -> get_kv c' lj = get_kv c lj /\ get_recurrent_state c' lj = get_recurrent_state c lj) ->
  cache_inv nb li Ls c' pres.
Proof.
  revert li pres. induction Ls as [|L Ls IH]; intros li pres Hi Hs; [done|]. destruct Hi as [He Hi].
  destruct (Hs li ltac:(done)). split; [by eapply entry_inv_same|]. apply IH; [done|].
  intros lj Hlj. apply Hs. lia.
Qed.

Lemma run_cached nb n mode Ls : Forall (layer_ok bl) Ls -> forall li hs c,
  rect (S nb * bl) hs -> hs <> [] -> sized n c -> li + length Ls <= n ->
  cache_inv nb li Ls c (map (take (nb * bl)) hs) ->
  exists c', run_layers_cached P (nb * bl) mode li Ls (map (drop (nb * bl)) hs) c =
    Ok (map (drop (nb * bl)) (map (full_rows P bl Ls) hs), c') /\
  match mode with
  | CacheRead => c' = c
  | CacheCommit => cache_inv (S nb) li Ls c' hs /\ sized n c' /\
      forall lj, lj < li -> get_kv c' lj = get_kv c lj /\ get_recurrent_state c' lj = get_recurrent_state c lj
  end.
Proof.
  induction 1 as [|L Ls HL' HLs IH]; intros li hs c Hr Hne Hs Hli Hi; cbn [run_layers_cached].
  { exists c. unfold full_rows. simpl. rewrite map_id. split; [done|]. by destruct mode. }
  destruct Hi as [He Hi]. cbn [length] in Hli.
  destruct (layer_cached L nb hs HL' Hr li n c Hs ltac:(lia) He mode Hne) as (c1 & E1 & Hc1).
  unfold block_done in Hc1.
  rewrite E1. cbn [rbind].
  assert (Hs1 : sized n c1) by (destruct mode; [by subst|by apply Hc1]).
  assert (Hi1 : cache_inv nb (S li) Ls c1 (map (take (nb * bl)) (map (layer_row P bl L) hs))).
  { rewrite (layer_pre L nb hs HL' Hr). eapply cache_inv_same; [exact Hi|]. intros lj Hlj.
    destruct mode; [by subst|]. apply Hc1. lia. }
  destruct (IH (S li) (map (layer_row P bl L) hs) c1 (layer_rect L nb hs HL' Hr) ltac:(by destruct hs)
    Hs1 ltac:(lia) Hi1) as (c2 & E2 & Hc2).
  exists c2. rewrite E2. split.
  { do 2 f_equal. by rewrite (map_map (layer_row P bl L)). }
  destruct mode; [congruence|]. destruct Hc1 as (He1 & Ho1 & _), Hc2 as (Hi2 & Hs2 & Hf2).
  split; [|split; [done|]].
  - split; [|done]. destruct (Hf2 li ltac:(lia)). by eapply entry_inv_same.
  - intros lj Hlj. destruct (Hf2 lj ltac:(lia)) as [-> ->]. apply Ho1. lia.
Qed.

End Cache.

(** ** The network behind the generation loop *)

Section Network.
Context {R : Type} {HO : ScalarOps R} {sle : R -> R -> Prop} {HL : ScalarLaws R sle}.
Context `{NetOps R} `{DenoiseOps R} `{TopkOps R} `{!TopkLaws R} `{ArgsortOps} `{!ArgsortLaws}.
Variables (M : model R) (bl : nat).
#[local] Abbreviation P := (m_rotary M).
#[local] Abbreviation n := (length (layers M)).
Implicit Types (x : list (list Z)) (c : BlockDiffusionCache R).

(** [nn.Embedding] refuses a token outside its table: on the CPU with an
    [IndexError], before anything else of the pass is computed. *)
Definition embedded {T : Type} (ids : list (list Z)) (pass : res T) : res T :=
  if vocab_ok (vocab_size M) ids then pass else Raise IndexError.

(** The passes [generate] makes; what a pass raises is raised by [generate]. *)
#[export] Instance network : CausalLM R (BlockDiffusionCache R) := {|
  lm_forward := fun ids => embedded ids (model_forward M bl ids);
  lm_init_cache := _init_prefix_cache M;
  lm_read := fun c start ids =>
    embedded ids (let! '(logits, _) := model_forward_cached M start CacheRead ids c in Ok logits)%py;
  lm_commit := fun c start ids =>
    embedded ids (let! '(_, cache) := model_forward_cached M start CacheCommit ids c in Ok cache)%py;
|}.

(** Blocks [0 .. nb - 1] committed in order by the cached pass. *)
Definition commit_blocks (nb : nat) x : res (BlockDiffusionCache R) :=
  foldl (fun cache b =>
      (let! cache := cache in
       let! '(_, cache) := model_forward_cached M (b * bl) CacheCommit (map (blk bl b) x) cache in
       Ok cache)%py)
    (Ok (_init_prefix_cache M (length x))) (seq 0 nb).

Hypothesis bl_pos : 0 < bl.
Hypothesis M_ok : Forall (layer_ok bl) (layers M).

(** *** The empty cache *)

Lemma layer_row_nil L : layer_ok bl L -> layer_row P bl L [] = [].
Proof. intros Hok. apply length_zero_iff_nil. by rewrite layer_row_length. Qed.

Lemma map_replicate_nil {T U} (f : list T -> list U) B : f [] = [] -> map f (replicate B []) = replicate B [].
Proof. intros E. induction B as [|B IH]; [done|]. simpl. by rewrite E, IH. Qed.

Lemma state_of_nil A (Mh : Hybrid.module R) : (0 < Hybrid.block_size Mh) ->
  state_of P A Mh [] = (fun _ => zero_state).
Proof.
  intros Hb. apply functional_extensionality. intros h. unfold state_of, hybrid_out. simpl length.
  change 0 with (0 * Hybrid.block_size Mh). by rewrite (Hybrid.forward_eq Mh Hb).
Qed.

Definition init_step (B : nat) (lc : nat * BlockDiffusionCache R) (L : layer R) : nat * BlockDiffusionCache R :=
  let '(li, c) := lc in
  (S li, match at_kind (l_attn L) with
         | SoftmaxAttn => set_layer_type li SoftmaxLayer c
         | _ => init_recurrent_state li B (set_layer_type li LinearLayer c)
         end).

Lemma init_fold B N Ls : Forall (layer_ok bl) Ls -> forall li c,
  sized N c -> li + length Ls <= N -> (forall lj, get_kv c lj = None) ->
  let c' := snd (foldl (init_step B) (li, c) Ls) in
  cache_inv P bl 0 li Ls c' (replicate B []) /\ sized N c' /\
  (forall lj, lj < li -> get_recurrent_state c' lj = get_recurrent_state c lj) /\
  forall lj, get_kv c' lj = None.
Proof.
  induction 1 as [|L Ls HLk HLs IH]; intros li c Hs Hli Hkv; [done|]. cbn [foldl length] in *.
  set (c1 := snd (init_step B (li, c) L)).
  assert (Hc1 : sized N c1 /\ (forall lj, get_kv c1 lj = None) /\
    (forall lj, lj <> li -> get_recurrent_state c1 lj = get_recurrent_state c lj) /\
    match at_kind (l_attn L) with
    | SoftmaxAttn => True
    | _ => get_recurrent_state c1 li = Some (replicate B (fun _ => zero_state))
    end).
  { unfold c1, init_step. destruct Hs as [S1 S2].
    destruct (at_kind (l_attn L)); simpl; [done|..];
      (split; [split; simpl; [done|by rewrite length_insert]|split; [done|]]; unfold get_recurrent_state; simpl;
       split; [intros lj Hne; by rewrite list_lookup_insert_ne|by rewrite list_lookup_insert_eq by lia]). }
  destruct Hc1 as (Hs1 & Hkv1 & Hr1 & Hli1).
  destruct (IH (S li) c1 Hs1 ltac:(lia) Hkv1) as (Hi & Hs' & Hr' & Hkv').
  change (init_step B (li, c) L) with (S li, c1). cbv zeta in *.
  set (c' := snd (foldl (init_step B) (S li, c1) Ls)) in *.
  split; [|split; [done|split; [|done]]].
  - cbn [cache_inv]. rewrite map_replicate_nil by (by apply layer_row_nil). split; [|done].
    unfold entry_inv. destruct HLk as [Ha _]. unfold attn_ok in Ha.
    destruct (at_kind (l_attn L)) as [| |Mh]; [by rewrite Hkv'|done|].
    rewrite Hr', Hli1 by lia. f_equal. destruct Ha as [Hb _]. clear -Hb.
    induction B as [|B IH]; [done|]. simpl. f_equal; [|done].
    unfold normed. simpl. by rewrite state_of_nil.
  - intros lj Hlj. rewrite Hr' by lia. apply Hr1. lia.
Qed.

Lemma init_cache_inv B : cache_inv P bl 0 0 (layers M) (_init_prefix_cache M B) (replicate B []) /\
  sized n (_init_prefix_cache M B).
Proof.
  destruct (init_fold B n (layers M) M_ok 0 (new_cache n)) as (Hi & Hs & _).
  - split; apply length_replicate.
  - lia.
  - intros lj. unfold get_kv. simpl. destruct (replicate n None !! lj) as [o|] eqn:E; [|done].
    by apply lookup_replicate in E as [-> _].
  - done.
Qed.

(** *** Windows and blocks *)

Definition window (k : nat) x : list (list (vec R)) := map (take k) (embed M x).

Lemma window_rect total x k : rect total x -> k <= total -> rect k (window k x).
Proof.
  intros Hx Hk. unfold window, embed. rewrite map_map. apply Forall_map.
  eapply Forall_impl; [exact Hx|]. intros r Hr. simpl in Hr |- *. rewrite length_take, length_map. lia.
Qed.

Lemma window_take nb x : map (take (nb * bl)) (window (S nb * bl) x) = window (nb * bl) x.
Proof. unfold window. rewrite map_map. apply map_ext. intros r. rewrite take_take. f_equal. lia. Qed.

Lemma window_block nb x : embed M (map (blk bl nb) x) = map (drop (nb * bl)) (window (S nb * bl) x).
Proof.
  unfold window, embed. rewrite !map_map. apply map_ext. intros r. unfold blk, py_slice.
  rewrite <- firstn_map, <- skipn_map, take_drop_commute. do 2 f_equal. lia.
Qed.

Lemma window_ids k x : embed M (map (take k) x) = window k x.
Proof. unfold window, embed. rewrite !map_map. apply map_ext. intros r. by rewrite firstn_map. Qed.

Lemma head_drop k (hs : list (list (vec R))) : head M (map (drop k) hs) = map (drop k) (head M hs).
Proof. unfold head. rewrite !map_map. apply map_ext. intros r. by rewrite skipn_map. Qed.

Lemma window_nonempty k x : x <> [] -> window k x <> [].
Proof. by destruct x. Qed.

(** *** Commit and read *)

Lemma commit_blocks_snoc nb x : commit_blocks (S nb) x =
  (let! c := commit_blocks nb x in
   let! '(_, c) := model_forward_cached M (nb * bl) CacheCommit (map (blk bl nb) x) c in Ok c)%py.
Proof. unfold commit_blocks. by rewrite seq_S, foldl_app. Qed.

Lemma commit_blocks_inv nb total x : rect total x -> nb * bl <= total -> x <> [] ->
  exists c, commit_blocks nb x = Ok c /\ cache_inv P bl nb 0 (layers M) c (window (nb * bl) x) /\ sized n c.
Proof.
  intros Hx. induction nb as [|nb IH]; intros Hnb Hne.
  { destruct (init_cache_inv (length x)) as [Hi Hs]. exists (_init_prefix_cache M (length x)). split; [done|]. split; [|done].
    replace (window (0 * bl) x) with (replicate (length x) (@nil (vec R))); [done|].
    clear. unfold window, embed. induction x as [|r x IH]; [done|]. simpl. f_equal. exact IH. }
  destruct IH as (c0 & E0 & Hi & Hs); [lia|done|]. rewrite commit_blocks_snoc, E0. cbn [rbind].
  rewrite <- window_take in Hi.
  destruct (run_cached P bl bl_pos nb n CacheCommit (layers M) M_ok 0 (window (S nb * bl) x)
    c0 (window_rect total x _ Hx Hnb) (window_nonempty _ x Hne) Hs ltac:(lia) Hi)
    as (c' & E & Hi' & Hs' & _).
  exists c'. split; [|done]. unfold model_forward_cached. by rewrite window_block, E.
Qed.

Lemma forward_rows total x k : rect total x -> 0 < k -> k <= total -> x <> [] ->
  model_forward M bl (map (take k) x) = Ok (head M (map (full_rows P bl (layers M)) (window k x))).
Proof.
  intros Hx Hk Hkt Hne. unfold model_forward. rewrite window_ids.
  rewrite (run_layers_rows P bl (layers M) (window k x) k); [done|done|by apply (window_rect total)|done|].
  by apply window_nonempty.
Qed.

(** The pass over a block behind the committed blocks. *)
Lemma read_rows nb total x : rect total x -> S nb * bl <= total -> x <> [] ->
  exists c, commit_blocks nb x = Ok c /\
  model_forward_cached M (nb * bl) CacheRead (map (blk bl nb) x) c =
  Ok (map (drop (nb * bl)) (head M (map (full_rows P bl (layers M)) (window (S nb * bl) x))), c).
Proof.
  intros Hx Hnb Hne. destruct (commit_blocks_inv nb total x Hx ltac:(lia) Hne) as (c & Ec & Hi & Hs).
  rewrite <- window_take in Hi. exists c. split; [done|].
  destruct (run_cached P bl bl_pos nb n CacheRead (layers M) M_ok 0 (window (S nb * bl) x)
    c (window_rect total x _ Hx Hnb) (window_nonempty _ x Hne) Hs ltac:(lia) Hi)
    as (c' & E & ->).
  unfold model_forward_cached. rewrite window_block, E. cbn [rbind]. by rewrite head_drop.
Qed.

Lemma logits_rect k (hs : list (list (vec R))) : rect k hs -> rect k (head M (map (full_rows P bl (layers M)) hs)).
Proof.
  intros Hr. unfold head. rewrite map_map. apply Forall_map. eapply Forall_impl; [exact Hr|].
  intros r <-. rewrite length_map. by apply full_rows_length.
Qed.

(** The block's logits are the last rows of the window's. *)
Lemma prefix_rows nb total x :
  rect total x -> S nb * bl <= total -> x <> [] ->
  exists c logits, commit_blocks nb x = Ok c /\ model_forward M bl (map (take (S nb * bl)) x) = Ok logits /\
    model_forward_cached M (nb * bl) CacheRead (map (blk bl nb) x) c = Ok (map (py_last bl) logits, c).
Proof.
  intros Hx Hnb Hne. destruct (read_rows nb total x Hx Hnb Hne) as (c & Ec & Er). eexists c, _. split; [done|].
  split; [apply (forward_rows total); (done || lia)|].
  rewrite Er. do 2 f_equal. apply list_eq. intros b. rewrite !list_lookup_fmap.
  destruct (head M _ !! b) as [r|] eqn:Eb; [|done]. simpl. f_equal. unfold py_last.
  rewrite (rect_lookup _ _ _ _ (logits_rect _ _ (window_rect total x (S nb * bl) Hx Hnb)) Eb). f_equal. lia.
Qed.

(** C39. The prefix cache implements the network: the blocks before block [nb] can be
    committed in order, and behind them the pass over block [nb] that reads the cache
    raises nothing, leaves the cache as it is, and returns for the block the
    logits of the pass over the whole window under the block mask, through any
    stack of softmax and hybrid layers, dense and sparse, whose hybrid block size
    divides the block. *)
Theorem prefix_cache_exact nb total x :
  rect total x -> S nb * bl <= total -> x <> [] ->
  exists c logits, commit_blocks nb x = Ok c /\ model_forward M bl (map (take (S nb * bl)) x) = Ok logits /\
    model_forward_cached M (nb * bl) CacheRead (map (blk bl nb) x) c = Ok (map (py_last bl) logits, c).
Proof. apply prefix_rows. Qed.

(** *** The interface of the generation loop *)

(** An empty batch stays empty. *)
Lemma layer_rest_nil L attn (hs : list (list (vec R))) : layer_rest L [] attn = Ok hs -> hs = [].
Proof. unfold layer_rest. cbn [zip_with map]. destruct (ffn_forward _ _); [|done]. by intros [= <-]. Qed.

Lemma run_layers_nil mask Ls hs : run_layers P mask Ls [] = Ok hs -> hs = [].
Proof.
  induction Ls as [|L Ls IH]; cbn [run_layers]; [by intros [= <-]|]. unfold layer_forward at 1.
  destruct (layer_rest L _ _) as [h1|] eqn:E1; cbn [rbind]; [|done].
  apply layer_rest_nil in E1 as ->. exact IH.
Qed.

Lemma forward_nil logits : model_forward M bl [] = Ok logits -> logits = [].
Proof.
  unfold model_forward. cbn [embed map].
  destruct (run_layers _ _ _ _) as [hs|] eqn:E; cbn [rbind]; [|done]. apply run_layers_nil in E as ->. by intros [= <-].
Qed.

Lemma forward_ok rows k : rect k rows -> 0 < k -> rows <> [] ->
  model_forward M bl rows = Ok (head M (map (full_rows P bl (layers M)) (window k rows))).
Proof.
  intros Hr Hk Hne. rewrite <- (forward_rows k rows k Hr Hk ltac:(done) Hne). f_equal.
  clear -Hr. induction Hr as [|r rows <- _ IH]; [done|]. simpl. by rewrite <- IH, take_ge.
Qed.

Lemma network_shape : LMShape R (BlockDiffusionCache R) (vocab_size M).
Proof.
  split; intros rows k; cbn [lm_forward network]; unfold embedded.
  - intros logits Hk Hr. destruct (vocab_ok _ rows); [|done]. destruct (decide (rows = [])) as [->|Hne].
    { intros ->%forward_nil. split; [done|constructor]. }
    rewrite (forward_ok rows k) by done. intros [= <-].
    pose proof (logits_rect k (window k rows) (window_rect k rows k Hr ltac:(done))) as Hl.
    split; [unfold head, window, embed; by rewrite !length_map|].
    apply Forall_lookup. intros b l Hb. split; [by apply (rect_lookup _ _ _ _ Hl Hb)|].
    unfold head in Hb. rewrite list_lookup_fmap in Hb. destruct (map _ (window k rows) !! b); [|done].
    injection Hb as <-. apply Forall_map, Forall_forall. intros v _. by rewrite length_map, length_seq.
  - intros Hk Hr Hne Hv. rewrite Hv, (forward_ok rows k) by done. by eexists.
Qed.

(** Blocks of the vocabulary are committed by the cached pass. *)
Lemma network_committed nb x : vocab_ok (vocab_size M) (map (take (nb * bl)) x) = true ->
  committed bl nb x = commit_blocks nb x.
Proof.
  induction nb as [|nb IH]; intros Hv; [done|]. rewrite vocab_ok_window in Hv. apply andb_prop in Hv as [H1' H2'].
  rewrite committed_snoc, commit_blocks_snoc, IH by done. destruct (commit_blocks nb x) as [c|e]; [|done]. cbn [rbind].
  cbn [lm_commit network]. unfold embedded. by rewrite H2'.
Qed.

Lemma network_cache : LMCache R (BlockDiffusionCache R) (vocab_size M) bl.
Proof.
  split.
  - intros nb total x Hx Hne Hnb Hv. rewrite (network_committed nb x Hv).
    destruct (commit_blocks_inv nb total x Hx Hnb Hne) as (c & -> & _). by eexists.
  - intros nb total x c Hx Hne Hnb Hv. rewrite (network_committed nb x Hv). intros Ec.
    destruct (prefix_rows nb total x Hx Hnb Hne) as (c' & l & Ec' & El & Er).
    assert (c' = c) as -> by congruence. cbn [lm_read lm_forward network]. unfold embedded.
    rewrite vocab_ok_window, Hv. cbn [andb]. rewrite El, Er.
    by destruct (vocab_ok _ (map (blk bl nb) x)).
Qed.

Lemma network_vocab : LMVocab R (BlockDiffusionCache R) (vocab_size M).
Proof.
  split; [intros rows Hv|intros c p rows Hv|intros c p rows Hv];
    cbn [lm_forward lm_read lm_commit network]; unfold embedded; by rewrite Hv.
Qed.

End Network.

(** ** Generation with the network *)

Section Generation.
Import Gen GenProps.
Context {R : Type} {HO : ScalarOps R} {sle : R -> R -> Prop} {HL : ScalarLaws R sle}.
Context `{NetOps R} `{DenoiseOps R} `{TopkOps R} `{!TopkLaws R} `{ArgsortOps} `{!ArgsortLaws}.
Context {RS : Type} `{!SampleOps R RS} `{!SampleLaws R RS}.
Variables (M : model R) (A : gen_args) (C : lm_config).

Lemma network_generate (mask : Z) (rs : RS) (inputs : list (list Z)) :
  0 < block_length A -> Forall (layer_ok (block_length A)) (layers M) -> rect (width inputs) inputs ->
  known A C mask inputs (V := vocab_size M) ->
  let NW := network M (block_length A) in
  generate (with_cache true A) C rs inputs = generate (with_cache false A) C rs inputs.
Proof.
  intros Hb Hok Hr Hkn NW.
  pose proof (network_shape M (block_length A) Hb Hok) as HS.
  pose proof (network_cache M (block_length A) Hb Hok) as HC.
  by apply (cache_modes_agree (V := vocab_size M) A C mask).
Qed.

(** C33. The prefix cache changes nothing in what the whole model generates: with
    softmax and hybrid layers, dense and sparse, whose hybrid block size divides
    [block_length], and with prompts and a mask of the vocabulary, [generate] with the
    cache and [generate] by passes over the whole window return the same tokens and
    the same state of the random generator, or raise the same error, whatever the
    other arguments. *)
Theorem generate_cache_exact (mask : Z) (rs : RS) (inputs : list (list Z)) :
  0 < block_length A -> Forall (layer_ok (block_length A)) (layers M) -> rect (width inputs) inputs ->
  known A C mask inputs (V := vocab_size M) ->
  generate (CausalLM0 := network M (block_length A)) (with_cache true A) C rs inputs
  = generate (CausalLM0 := network M (block_length A)) (with_cache false A) C rs inputs.
Proof. intros Hb Hok Hr Hkn. by apply (network_generate mask). Qed.

End Generation.

(** ** A concrete network *)

Module Demo.
Import Gen GenProps.
Export Tensor.Reals RealSample Moe.Example_.

#[export] Instance real_net : NetOps R := {|
  srsqrt := fun x => (/ sqrt x)%R;
  scos := cos;
  ssin := sin;
  spow := Rpower;
  s_of_nat := INR;
|}.

Definition demo_norm : rms_norm R := mkNorm 2 (fun _ => 1%R) (/ 10)%R.

(** Two query heads of dimension two that share one key head. *)
Definition demo_attn (kind : attn_kind) : attention R :=
  mkAttn 2 2 1 2 (fun o i => INR (o + i)) (fun _ => 0%R) (Some demo_norm) None
    (fun o i => INR (o * i)) (fun _ => 1%R) kind.

Definition demo_hybrid : Hybrid.module R :=
  Hybrid.mkHybrid 2 1 2 2 2 (/ 10)%R 1%R true 2 (fun _ _ _ => 1%R) (fun _ => 0%R).

(** A softmax layer with a dense MLP and a hybrid layer with routed experts. *)
Definition demo_layers : list (layer R) :=
  [mkLayer (demo_attn SoftmaxAttn) (DenseMlp (demo_expert 1)) demo_norm demo_norm;
   mkLayer (demo_attn (HybridAttn demo_hybrid)) (SparseMoe demo_gate demo_experts None) demo_norm demo_norm].

Definition demo_model : model R :=
  mkModel 2 3 (fun t _ => IZR t) demo_layers demo_norm
    (_compute_default_rope_parameters 10000%R 2) (fun o _ => INR o).

Lemma demo_layers_ok : Forall (layer_ok 4) demo_layers.
Proof.
  apply Forall_cons. split; [done|]. apply Forall_cons. split; [|done].
  split; [split; [simpl; lia|by exists 2]|]. split; [exact demo_gate_ok|]. simpl. split; [done|lia].
Qed.

Lemma prefix_cache_exact_witness :
  exists c logits, commit_blocks demo_model 4 1 [[0; 1; 2; 0; 1; 2; 2; 2]; [2; 2; 2; 0; 0; 1; 1; 1]]%Z = Ok c /\
    model_forward demo_model 4 [[0; 1; 2; 0; 1; 2; 2; 2]; [2; 2; 2; 0; 0; 1; 1; 1]]%Z = Ok logits /\
    model_forward_cached demo_model 4 CacheRead [[1; 2; 2; 2]; [0; 1; 1; 1]]%Z c
    = Ok (map (py_last 4) logits, c).
Proof.
  apply (prefix_cache_exact demo_model 4 ltac:(lia) demo_layers_ok 1 8
    [[0; 1; 2; 0; 1; 2; 2; 2]; [2; 2; 2; 0; 0; 1; 1; 1]]%Z); [by repeat constructor|lia|discriminate].
Defined.

(** Sampling at temperature one, mask 2, an end-of-sequence token. *)
Definition demo_args : gen_args :=
  mkArgs 1 4 32 8 None None true 1 (7 # 10) (5 # 10) 16 None None 1 (11 # 10) false.

Definition demo_config : lm_config := mkLmConfig (Some 1%Z) (Some (Some 2%Z)).

Lemma generate_cache_exact_witness :
  generate (CausalLM0 := network demo_model 4) (with_cache true demo_args) demo_config 0 [[0; 1; 2]; [1; 1; 0]]%Z
  = generate (CausalLM0 := network demo_model 4) (with_cache false demo_args) demo_config 0 [[0; 1; 2]; [1; 1; 0]]%Z.
Proof.
  apply (generate_cache_exact demo_model demo_args demo_config 2 0 [[0; 1; 2]; [1; 1; 0]]%Z);
    [simpl; lia|exact demo_layers_ok|by repeat constructor|]. by split.
Defined.

End Demo.
End DecCache.
