(* ===== verification/ModelConfig.v ===== *)
(** The configuration of the Hugging Face model
    ([llada_hybrid/configuration_llada2_moe.py]) and the constructors that build the
    network from it ([modeling_llada2_moe.py], [decoder.py], [attention.py], [moe.py]).
    A configuration that [fits] builds a network on which the theorems about passes,
    prefix cache and generation hold. *)
From stdpp Require Import base list strings.
From Stdlib Require Import ZArith QArith Qround Lia.
From S2P Require Import Prelude Denoise Sampling Tensor RealOps Moe LinearAttention HybridAttention.
From S2P Require Import Generate GenerateFacts GenerateProps Decoder DecoderFacts DecoderCache.
Local Open Scope nat_scope.

Module Conf.
Import Moe Dec DecFacts.

Section Model.
Context {R : Type} `{ScalarOps R} `{NetOps R} `{TopkOps R} `{ArgsortOps}.

(** ** [LLaDA2MoeConfig] *)

(** The arguments that inference reads and that [__init__] stores as they are, but for
    casts that keep these values; [share_hedgehog_kv_groups] arrives among the keyword
    arguments. *)
Record common : Type := mkCommon {
  vocab_size : nat;
  hidden_size : nat;
  intermediate_size : option nat;
  num_hidden_layers : nat;
  num_attention_heads : nat;
  hidden_act : string;
  use_qkv_bias : bool;
  use_qk_norm : bool;
  use_bias : bool;
  rms_norm_eps : R;
  rope_theta : R;
  pad_token_id : Z;
  num_experts : nat;
  num_shared_experts : nat;
  num_experts_per_tok : nat;
  n_group : nat;
  topk_group : nat;
  routed_scaling_factor : R;
  moe_intermediate_size : option nat;
  first_k_dense_replace : nat;
  partial_rotary_factor : Q;
  use_linear_attention : bool;
  use_block_softmax_hybrid : bool;
  block_size : nat;
  feature_dim : nat;
  linear_attention_layers : option (list nat);
  share_hedgehog_kv_groups : bool;
}.

Record args : Type := mkArgs { a_common : common; a_num_key_value_heads : option Z; a_head_dim : option nat }.

Record LLaDA2MoeConfig : Type := mkConfig { common_of : common; num_key_value_heads : nat; head_dim : nat }.

Definition init (a : args) : res LLaDA2MoeConfig :=
  let c := a_common a in
  let kv := match a_num_key_value_heads a with
            | None => num_attention_heads c
            | Some n => if (n <=? 0)%Z then num_attention_heads c else Z.to_nat n
            end in
  match a_head_dim a with
  | Some d => Ok (mkConfig c kv d)
  | None => if num_attention_heads c =? 0 then Raise ZeroDivisionError
            else Ok (mkConfig c kv (hidden_size c / num_attention_heads c))
  end.

(** The defaults of the signature. *)
Definition default_args : args := mkArgs {|
  vocab_size := 30592; hidden_size := 1024; intermediate_size := None; num_hidden_layers := 24; num_attention_heads := 16;
  hidden_act := "silu"; use_qkv_bias := false; use_qk_norm := true; use_bias := true; rms_norm_eps := s_of_Q (1 # 100000);
  rope_theta := s_of_Q 10000; pad_token_id := 156892; num_experts := 16; num_shared_experts := 0; num_experts_per_tok := 2;
  n_group := 8; topk_group := 4; routed_scaling_factor := s_of_Q (5 # 2); moe_intermediate_size := None;
  first_k_dense_replace := 0; partial_rotary_factor := 1 # 2; use_linear_attention := false; use_block_softmax_hybrid := false;
  block_size := 32; feature_dim := 64; linear_attention_layers := None; share_hedgehog_kv_groups := false |} (Some 0%Z) None.

(** ** The parameters *)

Record mlp_weights : Type := mkMW { mw_gate : mat R; mw_up : mat R; mw_down : mat R }.

Record layer_weights : Type := mkLW {
  lw_qkv : mat R;
  lw_qkv_bias : vec R;
  lw_query_norm : vec R;
  lw_key_norm : vec R;
  lw_dense : mat R;
  lw_dense_bias : vec R;
  lw_hedgehog : nat -> mat R;
  lw_alpha : nat -> R;
  lw_mlp : mlp_weights;
  lw_router : mat R;
  lw_expert_bias : vec R;
  lw_experts : nat -> mlp_weights;
  lw_shared : mlp_weights;
  lw_input_norm : vec R;
  lw_post_norm : vec R;
}.

Record weights : Type := mkWeights { w_embeddings : Z -> vec R; w_layers : nat -> layer_weights; w_norm : vec R; w_head : mat R }.

(** ** The constructors *)

(** The table [ACT2FN] of the transformers library, and the noise that fills the
    feature map before the parameters are loaded. *)
Variables (ACT2FN : string -> option (R -> R)) (randn : nat -> mat R).
Variable C : LLaDA2MoeConfig.
#[local] Abbreviation cm := (common_of C).

(** [LLaDA2MoeMLP.__init__]: [nn.Linear] does not take [None] for a size. *)
Definition build_mlp (inter : option nat) (W : mlp_weights) : res (mlp R) :=
  match inter with
  | None => Raise TypeError
  | Some n =>
    match ACT2FN (hidden_act cm) with
    | None => Raise KeyError
    | Some f => Ok (mkMlp (hidden_size cm) n (mw_gate W) (mw_up W) (mw_down W) f)
    end
  end.

(** [LLaDA2MoeGate.__init__]. *)
Definition build_gate (W : layer_weights) : gate R :=
  mkGate (num_experts_per_tok cm) (num_experts cm) (n_group cm) (topk_group cm) (hidden_size cm) (lw_router W)
    (routed_scaling_factor cm) (lw_expert_bias W).

(** [LLaDA2MoeSparseMoeBlock.__init__]. *)
Definition build_moe (W : layer_weights) : res (ffn R) :=
  (let! experts := Sampler.rmap (fun e => build_mlp (moe_intermediate_size cm) (lw_experts W e)) (seq 0 (num_experts cm)) in
   if 0 <? num_shared_experts cm
   then let! shared := build_mlp (option_map (fun n => n * num_shared_experts cm) (moe_intermediate_size cm)) (lw_shared W) in
        Ok (SparseMoe (build_gate W) experts (Some shared))
   else Ok (SparseMoe (build_gate W) experts None))%py.

Definition build_norm (size : nat) (w : vec R) : rms_norm R := mkNorm size w (rms_norm_eps cm).

(** [self.linear_attention], with its loaded parameters; [None] where it is not built. *)
Definition build_linear_attention (W : layer_weights) : res (option (attn_kind (R := R))) :=
  if negb (use_linear_attention cm) then Ok None
  else if use_block_softmax_hybrid cm then
    (let! M := Hybrid.init (num_attention_heads cm) (num_key_value_heads C) (head_dim C) (block_size cm) (feature_dim cm)
       (share_hedgehog_kv_groups cm) (Some (block_size cm)) randn in
     Ok (Some (HybridAttn (Hybrid.mkHybrid (Hybrid.num_heads M) (Hybrid.num_kv_heads M) (Hybrid.head_dim M) (Hybrid.block_size M)
       (Hybrid.feature_dim M) (Hybrid.eps M) (Hybrid.scaling M) (Hybrid.share_kv_groups M) (Hybrid.num_kv_groups M)
       (lw_hedgehog W) (lw_alpha W)))))%py
  else if num_attention_heads cm =? 0 then Raise ZeroDivisionError
  else
    (let! M := Linear.init (num_attention_heads cm) (hidden_size cm) (block_size cm) (feature_dim cm) (Some (block_size cm))
       (s_of_Q (1 # 1000000)) in
     Ok (Some (LinearAttn (Linear.mkLinear (Linear.num_heads M) (Linear.head_dim M) (Linear.block_size M) (Linear.eps M)
       (Linear.feature_dim M) (lw_hedgehog W)) 0)))%py.

Definition is_linear_active (layer_idx : nat) : bool :=
  match linear_attention_layers cm with
  | Some l => bool_decide (layer_idx ∈ l)
  | None => use_linear_attention cm
  end.

(** [LLaDA2MoeAttention.__init__].  The passes use the module of a layer that is active
    and has one. *)
Definition build_attention (layer_idx : nat) (W : layer_weights) : res (attention R) :=
  if (num_key_value_heads C =? 0) || (head_dim C =? 0) then Raise ZeroDivisionError
  else
    (let! linear := build_linear_attention W in
     let kind := if is_linear_active layer_idx then default SoftmaxAttn linear else SoftmaxAttn in
     let head_norm := fun w => if use_qk_norm cm then Some (build_norm (head_dim C) w) else None in
     Ok (mkAttn (hidden_size cm) (num_attention_heads cm) (num_key_value_heads C) (head_dim C)
           (lw_qkv W) (if use_qkv_bias cm then lw_qkv_bias W else zero_vec)
           (head_norm (lw_query_norm W)) (head_norm (lw_key_norm W))
           (lw_dense W) (if use_bias cm then lw_dense_bias W else zero_vec) kind))%py.

(** [LLaDA2MoeDecoderLayer.__init__]. *)
Definition build_layer (W : weights) (layer_idx : nat) : res (layer R) :=
  let w := w_layers W layer_idx in
  (let! A := build_attention layer_idx w in
   let! F := (if first_k_dense_replace cm <=? layer_idx then build_moe w
              else let! M := build_mlp (intermediate_size cm) (lw_mlp w) in Ok (DenseMlp M)) in
   Ok (mkLayer A F (build_norm (hidden_size cm) (lw_input_norm w)) (build_norm (hidden_size cm) (lw_post_norm w))))%py.

(** The entries that unscaled rotary embedding rotates: [int(head_dim * factor)]. *)
Definition rotary_dim : nat := Z.to_nat (Qfloor (inject_Z (Z.of_nat (head_dim C)) * partial_rotary_factor cm)).

(** [LLaDA2MoeModel.__init__] and [LLaDA2MoeModelLM.__init__], without rope scaling;
    [nn.Embedding] checks the padding index, and the rotary embedding divides by the
    number of heads before it looks for [head_dim]. *)
Definition build_model (W : weights) : res (model R) :=
  passert ((- Z.of_nat (vocab_size cm) <=? pad_token_id cm) && (pad_token_id cm <? Z.of_nat (vocab_size cm)))%Z
    (let! Ls := Sampler.rmap (build_layer W) (seq 0 (num_hidden_layers cm)) in
     if num_attention_heads cm =? 0 then Raise ZeroDivisionError else
     Ok (mkModel (hidden_size cm) (vocab_size cm) (w_embeddings W) Ls (build_norm (hidden_size cm) (w_norm W))
           (_compute_default_rope_parameters (rope_theta cm) rotary_dim) (w_head W)))%py.

End Model.
Arguments common : clear implicits.
Arguments args : clear implicits.
Arguments LLaDA2MoeConfig : clear implicits.
Arguments weights : clear implicits.
Arguments layer_weights : clear implicits.

(** ** What a configuration must satisfy *)

Section Facts.
Context {R : Type} {HO : ScalarOps R} {sle : R -> R -> Prop} {HL : ScalarLaws R sle}.
Context `{NetOps R} `{DenoiseOps R} `{TopkOps R} `{!TopkLaws R} `{ArgsortOps} `{!ArgsortLaws}.
Variables (ACT2FN : string -> option (R -> R)) (randn : nat -> mat R) (C : LLaDA2MoeConfig R).
#[local] Abbreviation cm := (common_of C).

Record routing_fits : Prop := {
  rf_groups : 0 < n_group cm;
  rf_even : num_experts cm mod n_group cm = 0;
  rf_pairs : 2 <= num_experts cm / n_group cm;
  rf_topk_group : topk_group cm <= n_group cm;
  rf_top_k : 0 < num_experts_per_tok cm <= topk_group cm * (num_experts cm / n_group cm);
  rf_size : is_Some (moe_intermediate_size cm);
}.

Record fits : Prop := {
  ft_heads : 0 < num_attention_heads cm;
  ft_kv : 0 < num_key_value_heads C;
  ft_dim : 0 < head_dim C;
  ft_act : is_Some (ACT2FN (hidden_act cm));
  ft_pad : (- Z.of_nat (vocab_size cm) <= pad_token_id cm < Z.of_nat (vocab_size cm))%Z;
  ft_dense : 0 < first_k_dense_replace cm -> is_Some (intermediate_size cm);
  ft_sparse : first_k_dense_replace cm < num_hidden_layers cm -> routing_fits;
  ft_hybrid : use_linear_attention cm = true -> use_block_softmax_hybrid cm = true;
  ft_share : share_hedgehog_kv_groups cm = true -> num_attention_heads cm mod num_key_value_heads C = 0;
  ft_block : 0 < block_size cm;
}.

(** The layers that the plan makes hybrid. *)
Definition hybrid_at (i : nat) : bool := use_linear_attention cm && is_linear_active C i.

Hypothesis Hf : fits.

Lemma build_mlp_ok n W : exists T, build_mlp ACT2FN C (Some n) W = Ok T.
Proof. destruct (ft_act Hf) as [f E]. unfold build_mlp. rewrite E. by eexists. Qed.

Lemma rmap_built {A} (f : nat -> res A) (Q : nat -> A -> Prop) m n : (forall i, m <= i < m + n -> exists x, f i = Ok x /\ Q i x) ->
  exists xs, Sampler.rmap f (seq m n) = Ok xs /\ length xs = n /\ forall i x, xs !! i = Some x -> Q (m + i) x.
Proof.
  clear. revert m. induction n as [|n IH]; intros m Hx; [by exists []|]. cbn [seq Sampler.rmap].
  destruct (Hx m ltac:(lia)) as (x & E & Hq). rewrite E. cbn [rbind].
  destruct (IH (S m)) as (xs & -> & Hl & Hxs); [intros i Hi; apply Hx; lia|]. exists (x :: xs). split; [done|]. split; [by simpl; f_equal|].
  intros [|i] y Hy; [injection Hy as <-; by rewrite Nat.add_0_r|]. rewrite <- Nat.add_succ_comm. by apply Hxs.
Qed.

Lemma build_moe_ok W : routing_fits -> exists F, build_moe ACT2FN C W = Ok F /\ ffn_ok F.
Proof.
  intros [G1 G2 G3 G4 G5 [n En]]. unfold build_moe. rewrite En.
  destruct (rmap_built (fun e => build_mlp ACT2FN C (Some n) (lw_experts W e)) (fun _ _ => True) 0 (num_experts cm))
    as (xs & -> & Hl & _); [intros e _; destruct (build_mlp_ok n (lw_experts W e)) as [T E]; by exists T|]. cbn [rbind option_map].
  assert (Hok : gate_ok (build_gate C W)) by (split; simpl; (done || lia)).
  destruct (0 <? num_shared_experts cm).
  - destruct (build_mlp_ok (n * num_shared_experts cm) (lw_shared W)) as [T ->]. eexists. split; [reflexivity|]. simpl. split; [done|]. split; [done|lia].
  - eexists. split; [reflexivity|]. simpl. split; [done|]. split; [done|lia].
Qed.

Lemma build_attention_ok i W r : exists A, build_attention randn C i W = Ok A /\ attn_ok (r * block_size cm) A /\
  ((exists M, at_kind A = HybridAttn M) <-> hybrid_at i = true).
Proof.
  destruct Hf as [_ F1 F2 _ _ _ _ F7 F8 F9]. unfold build_attention, hybrid_at, build_linear_attention.
  rewrite (proj2 (Nat.eqb_neq _ 0)), (proj2 (Nat.eqb_neq _ 0)) by lia. cbn [orb].
  destruct (use_linear_attention cm) eqn:Eu; cbn [negb andb rbind].
  2:{ eexists. split; [reflexivity|]. cbn. destruct (is_linear_active C i); cbn; split; try done; by split; [intros [M ?]|]. }
  rewrite F7 by done. unfold Hybrid.init.
  assert (Hb : match block_size cm with 0 => block_size cm | S _ => block_size cm end = block_size cm) by (by destruct (block_size cm)).
  destruct (share_hedgehog_kv_groups cm) eqn:Es; [rewrite F8 by done|]; cbn [passert rbind Nat.eqb];
    (eexists; split; [reflexivity|]); destruct (is_linear_active C i); cbn -[Nat.mul]; unfold attn_ok; cbn -[Nat.mul];
    (split; [|split; [by try intros [M ?]|try done; by eexists]]); try done; (split; [|exists r]); destruct (block_size cm); (lia || done).
Qed.

Lemma build_layer_ok W i r : i < num_hidden_layers cm -> exists L, build_layer ACT2FN randn C W i = Ok L /\
  layer_ok (r * block_size cm) L /\ ((exists M, at_kind (l_attn L) = HybridAttn M) <-> hybrid_at i = true).
Proof.
  intros Hi. unfold build_layer. destruct (build_attention_ok i (w_layers W i) r) as (A & -> & HA & Hh). cbn [rbind].
  destruct (first_k_dense_replace cm <=? i) eqn:Ek.
  - apply Nat.leb_le in Ek. destruct (build_moe_ok (w_layers W i) (ft_sparse Hf ltac:(lia))) as (F & -> & HF). by eexists.
  - apply Nat.leb_gt in Ek. destruct (ft_dense Hf ltac:(lia)) as [n En]. rewrite En. destruct (build_mlp_ok n (lw_mlp (w_layers W i))) as [T ->].
    by eexists.
Qed.

(** A configuration that fits builds a network whose layers the theorems about passes
    accept for blocks of any multiple of [block_size]; the hybrid layers are those of
    the plan. *)
Lemma build_model_ok W r : exists M, build_model ACT2FN randn C W = Ok M /\ length (layers M) = num_hidden_layers cm /\
  Forall (layer_ok (r * block_size cm)) (layers M) /\
  forall i L, layers M !! i = Some L -> (exists K, at_kind (l_attn L) = HybridAttn K) <-> hybrid_at i = true.
Proof.
  unfold build_model. pose proof (ft_pad Hf) as [P1 P2]. rewrite (proj2 (Z.leb_le _ _) P1), (proj2 (Z.ltb_lt _ _) P2). cbn [andb passert].
  destruct (rmap_built (build_layer ACT2FN randn C W) (fun i L => layer_ok (r * block_size cm) L /\
    ((exists M, at_kind (l_attn L) = HybridAttn M) <-> hybrid_at i = true)) 0 (num_hidden_layers cm)) as (Ls & -> & Hl & HLs).
  { intros i Hi. apply build_layer_ok. lia. }
  cbn [rbind]. rewrite (proj2 (Nat.eqb_neq _ 0)) by (pose proof (ft_heads Hf); lia).
  eexists. split; [reflexivity|]. cbn [layers]. split; [done|]. split; [|intros i L HL'; by apply (HLs i L)].
  apply Forall_lookup. intros i L HL'. by apply (HLs i L).
Qed.

End Facts.

(** The number of key-value heads after [__init__]: zero and negative numbers mean as
    many as there are heads. *)
Lemma init_kv_heads {R} (a : args R) C : init a = Ok C -> 0 < num_attention_heads (a_common a) -> 0 < num_key_value_heads C.
Proof.
  unfold init. intros E Hh. destruct (a_head_dim a); [|destruct (_ =? 0); [done|]]; injection E as <-; cbn;
    (destruct (a_num_key_value_heads a) as [z|]; [destruct (Z.leb_spec z 0); lia|done]).
Qed.

(** The defaults build no model: the padding token is beyond the vocabulary. *)
Lemma default_builds_nothing {R} `{ScalarOps R} `{NetOps R} ACT2FN randn (C : LLaDA2MoeConfig R) W :
  init default_args = Ok C -> build_model ACT2FN randn C W = Raise AssertionError.
Proof. intros [= <-]. done. Qed.

(** A configuration that fits: one dense layer, then sparse ones, with hybrid layers 1
    and 3 that share feature maps. *)
Section Example_.
Context {R : Type} `{ScalarOps R}.

Definition small : LLaDA2MoeConfig R := mkConfig {|
  vocab_size := 1000; hidden_size := 64; intermediate_size := Some 128; num_hidden_layers := 4; num_attention_heads := 8;
  hidden_act := "silu"; use_qkv_bias := false; use_qk_norm := true; use_bias := true; rms_norm_eps := s_of_Q (1 # 100000);
  rope_theta := s_of_Q 10000; pad_token_id := 999; num_experts := 16; num_shared_experts := 1; num_experts_per_tok := 4;
  n_group := 4; topk_group := 2; routed_scaling_factor := s_of_Q (5 # 2); moe_intermediate_size := Some 32;
  first_k_dense_replace := 1; partial_rotary_factor := 1 # 2; use_linear_attention := true; use_block_softmax_hybrid := true;
  block_size := 32; feature_dim := 4; linear_attention_layers := Some [1; 3]; share_hedgehog_kv_groups := true |} 2 8.

Lemma small_fits f : fits (fun s => if String.eqb s "silu" then Some f else None) small.
Proof. split; cbn; try lia; try done. intros _. split; cbn; (done || lia). Qed.

Lemma small_plan : map (hybrid_at small) (seq 0 4) = [false; true; false; true] /\ rotary_dim small = 4.
Proof. done. Qed.

End Example_.

(** ** Generation from a configuration *)

Section Generation.
Import Gen GenProps.
Context {R : Type} {HO : ScalarOps R} {sle : R -> R -> Prop} {HL : ScalarLaws R sle}.
Context `{NetOps R} `{DenoiseOps R} `{TopkOps R} `{!TopkLaws R} `{ArgsortOps} `{!ArgsortLaws}.
Context {RS : Type} `{!SampleOps R RS} `{!SampleLaws R RS}.

(** The network of a configuration generates the same with and without the prefix
    cache, in blocks of any multiple of its block size, on tokens of its vocabulary. *)
Lemma configured_generate ACT2FN randn (C : LLaDA2MoeConfig R) W (A : gen_args) (G : lm_config) (mask : Z) (rs : RS) (inputs : list (list Z)) r :
  fits ACT2FN C -> 0 < r -> block_length A = r * block_size (common_of C) -> rect (width inputs) inputs ->
  exists M, build_model ACT2FN randn C W = Ok M /\
    (known A G mask inputs (V := Dec.vocab_size M) ->
    let NW := DecCache.network M (block_length A) in
    generate (with_cache true A) G rs inputs = generate (with_cache false A) G rs inputs).
Proof.
  intros Hf Hr Hb Hin. destruct (build_model_ok ACT2FN randn C Hf W r) as (M & E & _ & HLs & _). exists M. split; [done|]. intros Hkn.
  apply (DecCache.network_generate (sle := sle) M A G mask); [|by rewrite Hb|done|done]. pose proof (ft_block _ _ Hf). nia.
Qed.

End Generation.

End Conf.
