(* ===== verification/LinearLayer.v ===== *)
(** Linear attention layers inside the network.

    The pass over a window hands the linear module an additive mask, from which
    [_infer_key_valid_from_4d_mask] decides which keys exist; the pass with the
    prefix cache hands it none.  A window of several blocks has an infinite entry
    and every key is found valid; in a window of one block the mask is all zeros,
    which is read as a 0/1 mask that hides every key. *)
From stdpp Require Import base list.
From Stdlib Require Import ZArith QArith Reals Lra Lia FunctionalExtensionality.
From S2P Require Import Prelude Denoise Sampling Tensor RealOps Moe LinearAttention HybridAttention.
From S2P Require Import Generate GenerateFacts GenerateProps Decoder DecoderFacts DecoderCache.
Local Open Scope nat_scope.

Module LinLayer.
Import Rec Moe Dec DecFacts DecCache.

Lemma existsb_forall {T} (p : T -> bool) (l : list T) : (forall x, In x l -> p x = false) -> existsb p l = false.
Proof. induction l as [|x l IH]; intros Hp; [done|]. simpl. rewrite Hp by (by left). apply IH. auto with datatypes. Qed.

(** ** Which keys a window shows *)

Section Mask.
Context {R : Type} {HO : ScalarOps R}.
Variables (B bl n padded : nat).
Hypothesis padded_ge : n <= padded.
#[local] Abbreviation mask := (FloatMask n n (fun _ => block_mask (R := R) bl)).

(** One block: no entry is infinite. *)
Lemma one_block_entry q k : n <= bl -> q < n -> k < n -> block_mask (R := R) bl q k = Some s0.
Proof.
  intros Hn Hq Hk. unfold block_mask. rewrite !Nat.div_small by lia. done.
Qed.

Lemma one_block_hidden b t : n <= bl -> s_is_zero s0 = true ->
  Linear._infer_key_valid_from_4d_mask B padded mask b t = s0.
Proof.
  intros Hn Hz. unfold Linear._infer_key_valid_from_4d_mask, Linear.mask_dims.
  destruct (Nat.ltb_spec t (Nat.min n padded)) as [Ht|]; [|done].
  rewrite existsb_forall; [done|]. intros q [_ Hq]%in_seq. unfold Linear.mask_bool.
  rewrite existsb_forall.
  - rewrite one_block_entry by lia. by rewrite Hz.
  - intros b' _. apply existsb_forall. intros q' [_ Hq']%in_seq. apply existsb_forall.
    intros k' [_ Hk']%in_seq. by rewrite one_block_entry by lia.
Qed.

(** Several blocks: the entry of the first query and the last key is infinite,
    and the last query sees every key. *)
Lemma blocks_visible b t : 0 < bl -> bl < n -> 0 < B -> t < n ->
  Linear._infer_key_valid_from_4d_mask B padded mask b t = s1.
Proof.
  intros Hbl Hn HB Ht. unfold Linear._infer_key_valid_from_4d_mask, Linear.mask_dims.
  destruct (Nat.ltb_spec t (Nat.min n padded)) as [|]; [|lia].
  assert (Hv : existsb (fun q => Linear.mask_bool B padded mask b q t) (seq 0 (Nat.min n padded)) = true);
    [|by rewrite Hv].
  apply existsb_exists. exists (n - 1). split; [apply in_seq; lia|]. unfold Linear.mask_bool.
  assert (Hlast : block_mask (R := R) bl (n - 1) t = Some s0).
  { unfold block_mask. destruct (Nat.leb_spec (t / bl) ((n - 1) / bl)) as [|Hgt]; [done|].
    pose proof (Nat.Div0.div_le_mono t (n - 1) bl). lia. }
  rewrite Hlast. match goal with |- (if ?e then _ else _) = true => assert (E : e = true); [|by rewrite E] end.
  apply existsb_exists. exists 0. split; [apply in_seq; lia|].
  apply existsb_exists. exists 0. split; [apply in_seq; lia|].
  apply existsb_exists. exists (n - 1). split; [apply in_seq; lia|].
  unfold block_mask. destruct (Nat.leb_spec ((n - 1) / bl) (0 / bl)) as [Hle|]; [|done].
  rewrite Nat.Div0.div_0_l in Hle. assert (1 <= (n - 1) / bl) by (apply Nat.div_le_lower_bound; lia). lia.
Qed.

End Mask.

(** ** The first block of a linear layer *)

Section First.
Context {R : Type} {HO : ScalarOps R} {sle : R -> R -> Prop} {HL : ScalarLaws R sle}.
Context `{NetOps R} `{TopkOps R} `{ArgsortOps}.
Variables (A : attention R) (P : rotary R) (M : Linear.module R) (ratio : Q).
Hypothesis kind : at_kind A = LinearAttn M ratio.
Hypothesis bs_pos : 0 < Linear.block_size M.

Lemma head_rows_ext n (f g : nat -> mat R) : (forall h t d, t < n -> f h t d = g h t d) ->
  head_rows n f = head_rows n g.
Proof.
  intros E. unfold head_rows. apply map_ext_in. intros t [_ Ht]%in_seq.
  apply functional_extensionality. intros h. apply functional_extensionality. intros d. apply E. lia.
Qed.

(** What a linear layer is to compute for the block [hs] behind no prefix. *)
Definition first_block_attention (hs : list (vec R)) (h : nat) : mat R :=
  let kv := expanded A (keys_values A P 0 hs) in
  Linear.attention M h (along (queries A P 0 hs) h) (fst kv h) (snd kv h) (length hs) zero_state.

Lemma cached_first li (hs : list (vec R)) c :
  get_recurrent_state c li = Some [fun _ => zero_state] ->
  _forward_with_prefix_cache A P li 0 CacheRead [hs] c
  = ([map (dense A) (head_rows (length hs) (first_block_attention hs))], c).
Proof.
  intros Hc. unfold _forward_with_prefix_cache, get_recurrent_state_snapshot. rewrite kind, Hc. simpl.
  f_equal. do 2 f_equal. rewrite queries_length. apply head_rows_ext. intros h t d Ht.
  unfold linear_out. rewrite queries_length. by apply (Linear.forward_attention M bs_pos).
Qed.

Lemma window_first bl B b (hs : list (vec R)) :
  s_is_zero s0 = true -> (ratio <= 0)%Q -> length hs <= bl ->
  attn_forward A P B b (block_mask bl) hs = map (fun _ => dense A (fun _ _ => s0)) hs.
Proof.
  intros Hz Hr Hn. unfold attn_forward. rewrite kind.
  assert (Eq : Qle_bool ratio 0 = true) by (by apply Qle_bool_iff). rewrite Eq.
  assert (E : head_rows (length hs) (fun h => fst (linear_out A M B b (queries A P 0 hs) (keys_values A P 0 hs)
      (Some (FloatMask (length hs) (length hs) (fun _ => block_mask bl))) (fun _ => None) h))
    = head_rows (length hs) (fun _ _ _ => s0)).
  { apply head_rows_ext. intros h t d Ht. unfold linear_out. rewrite queries_length.
    apply (Linear.forward_no_keys M bs_pos); [|done]. intros j _. apply one_block_hidden; try done.
    by apply cdiv_mul_ge. }
  rewrite E. unfold head_rows. rewrite map_map. apply list_eq. intros t. rewrite !list_lookup_fmap.
  destruct (decide (t < length hs)) as [Ht|Ht].
  - rewrite lookup_seq_lt by done. by destruct (lookup_lt_is_Some_2 hs t Ht) as [x ->].
  - rewrite lookup_seq_ge by lia. by rewrite lookup_ge_None_2 by lia.
Qed.

End First.

Import DecCache.Demo.

(** A linear layer is silent on a window of one block: when the prompt is
    shorter than a block, the pass [generate] makes over the first window gives
    for every position the output projection of zeros, whatever the hidden
    states are, while the pass with the (empty) prefix cache over the same block
    gives the linear attention of the block. *)
Lemma linear_first_block (A : attention R) (P : rotary R) (M : Linear.module R) (ratio : Q)
    (bl li : nat) (hs : list (vec R)) (c : BlockDiffusionCache R) :
  at_kind A = LinearAttn M ratio -> (ratio <= 0)%Q -> 0 < Linear.block_size M -> length hs <= bl ->
  get_recurrent_state c li = Some [fun _ => zero_state] ->
  attn_forward A P 1 0 (block_mask bl) hs = map (fun _ => dense A (fun _ _ => 0%R)) hs /\
  _forward_with_prefix_cache A P li 0 CacheRead [hs] c
  = ([map (dense A) (head_rows (length hs) (first_block_attention A P M hs))], c).
Proof.
  intros Hk Hr Hb Hn Hc. split; [|by apply (cached_first A P M ratio)].
  assert (Hz : s_is_zero (s0 : R) = true) by (simpl; by destruct (Req_dec_T 0 0)).
  exact (window_first A P M ratio Hk Hb bl 1 0 hs Hz Hr Hn).
Qed.

Definition demo_module : Linear.module R := Linear.mkLinear 2 2 4 (/ 10)%R 2 (fun _ => Linear.eye).

Definition demo_linear : attention R := demo_attn (LinearAttn demo_module 0).

Lemma linear_first_block_witness :
  attn_forward demo_linear (_compute_default_rope_parameters 10000%R 2) 1 0 (block_mask 4)
    [fun _ => 1%R; fun _ => 2%R] = [dense demo_linear (fun _ _ => 0%R); dense demo_linear (fun _ _ => 0%R)].
Proof.
  apply (linear_first_block demo_linear (_compute_default_rope_parameters 10000%R 2) demo_module 0 4 0
    [fun _ => 1%R; fun _ => 2%R] (init_recurrent_state 0 1 (new_cache 1)) eq_refl);
    [apply Qle_refl|simpl; lia..|reflexivity].
Defined.

End LinLayer.
