(* ===== verification/ServedLayer.v ===== *)
(** The served hybrid attention layer, [LLaDAFastHybridAttention] of
    [sglang/srt/models/llada_fast.py], with the layers it is made of: the fused
    projection ([QKVParallelLinear]), [RMSNorm] and [apply_qk_norm], the rotary
    embedding of the server, the backend's [forward_qkv] and the output
    projection.  It is shown to compute the attention of the Hugging Face model.

    One rank, unscaled rotary embedding in the Neox style, the PyTorch-native
    path of every layer; casts are left out. *)
From stdpp Require Import base list.
From Stdlib Require Import ZArith QArith Reals Lra Lia Ring FunctionalExtensionality.
From S2P Require Import Prelude Denoise Sampling Tensor RealOps Moe LinearAttention HybridAttention.
From S2P Require Import HybridKernel KernelFacts KernelDriver Backend Decoder DecoderFacts.
Local Open Scope nat_scope.

Module SL.
Import Rec Moe HK KF KD Bk.

(** ** The layer *)

Section Model.
Context {R : Type} `{ScalarOps R} `{NetOps R}.
Local Open Scope sc_scope.

(** [RMSNorm.forward_native] without a residual. *)
Definition rmsnorm_native (N : Dec.rms_norm R) (x : vec R) : vec R :=
  let variance := vsum (Dec.nm_size N) (fun i => x i * x i) / s_of_nat (Dec.nm_size N) in
  fun d => (x d * srsqrt (variance + Dec.variance_epsilon N)) * Dec.nm_weight N d.

(** [RotaryEmbedding]. *)
Record rope : Type := mkRope { rotary_dim : nat; rope_base : R }.

Definition _compute_inv_freq (P : rope) : vec R := fun i =>
  s1 / spow (rope_base P) (s_of_nat (2 * i) / s_of_nat (rotary_dim P)).

(** Row [pos] of [cos_sin_cache]. *)
Definition cos_sin_row (P : rope) (pos : nat) : vec R :=
  let freqs := fun j => s_of_nat pos * _compute_inv_freq P j in
  cat (cdiv (rotary_dim P) 2) (fun j => scos (freqs j)) (fun j => ssin (freqs j)).

(** [apply_rotary_emb] in the Neox style on [n] entries. *)
Definition apply_rotary_emb (n : nat) (x cos sin : vec R) : vec R :=
  let half := cdiv n 2 in
  let x2 := fun i => x (half + i)%nat in
  cat half (fun i => x i * cos i - x2 i * sin i) (fun i => x2 i * cos i + x i * sin i).

(** [forward_native] on one head of one token. *)
Definition rope_forward (P : rope) (pos : nat) (x : vec R) : vec R :=
  let cos_sin := cos_sin_row P pos in
  let cos := cos_sin in
  let sin := fun j => cos_sin (cdiv (rotary_dim P) 2 + j)%nat in
  cat (rotary_dim P) (apply_rotary_emb (rotary_dim P) x cos sin) (fun i => x (rotary_dim P + i)%nat).

(** [LLaDAFastHybridAttention]; biases are zero where the layer has none. *)
Record attention : Type := mkAttention {
  hidden_size : nat;
  hybrid_core : served R;
  query_key_value : mat R;
  qkv_bias : vec R;
  query_layernorm : option (Dec.rms_norm R);
  key_layernorm : option (Dec.rms_norm R);
  dense_weight : mat R;
  dense_bias : vec R;
  rotary_emb : rope;
}.

Definition q_size (A : attention) : nat := (head_dim (hybrid_core A) * num_heads (hybrid_core A))%nat.
Definition kv_size (A : attention) : nat := (head_dim (hybrid_core A) * num_kv_heads (hybrid_core A))%nat.

Definition qkv (A : attention) (x : vec R) : vec R := fun o =>
  linear (hidden_size A) (query_key_value A) x o + qkv_bias A o.

(** Head [h] of a part of the projection that starts at [start]. *)
Definition head_of (A : attention) (start : nat) (y : vec R) (h : nat) : vec R := fun d =>
  y (start + (h * head_dim (hybrid_core A) + d))%nat.

(** [apply_qk_norm] of one head. *)
Definition qk_norm (N : option (Dec.rms_norm R)) (x : vec R) : vec R :=
  match N with Some N => rmsnorm_native N x | None => x end.

(** The rows handed to the backend, for token [t] of the batch. *)
Definition q3 (A : attention) (positions : nat -> nat) (hs : nat -> vec R) : tok R := fun t h =>
  rope_forward (rotary_emb A) (positions t) (qk_norm (query_layernorm A) (head_of A 0 (qkv A (hs t)) h)).

Definition k3 (A : attention) (positions : nat -> nat) (hs : nat -> vec R) : tok R := fun t h =>
  rope_forward (rotary_emb A) (positions t) (qk_norm (key_layernorm A) (head_of A (q_size A) (qkv A (hs t)) h)).

Definition v3 (A : attention) (hs : nat -> vec R) : tok R := fun t h =>
  head_of A (q_size A + kv_size A) (qkv A (hs t)) h.

(** [self.dense] of the rows the kernels wrote. *)
Definition output_row (A : attention) (L : layer R) (t : nat) : vec R := fun o =>
  linear (num_heads (hybrid_core A) * head_dim (hybrid_core A)) (dense_weight A)
    (fun i => working L (Out t (i / head_dim (hybrid_core A)) (i mod head_dim (hybrid_core A)))) o + dense_bias A o.

(** [forward] on the [T] tokens of a batch under the backend's plan. *)
Definition forward (A : attention) (sched : list (nat * nat) -> list (nat * nat)) (pl : plan) (T : nat)
    (positions : nat -> nat) (hs : nat -> vec R) (L : layer R) : res (layer R * (nat -> vec R)) :=
  if (T =? 0)%nat then Ok (L, hs)
  else
    (let! L := forward_qkv (hybrid_core A) sched pl (q3 A positions hs) (k3 A positions hs) (v3 A hs) L in
     Ok (L, output_row A L))%py.

End Model.
Arguments attention : clear implicits.
Arguments rope : clear implicits.

(** ** The rows of the projections *)

Section Rows.
Context {R : Type} {HO : ScalarOps R} {sle : R -> R -> Prop} {HL : ScalarLaws R sle}.
Context `{NetOps R}.
Local Open Scope sc_scope.
Add Ring served_ring : s_ring.

(** The same weights in the Hugging Face model. *)
Definition hf_attention (A : attention R) : Dec.attention R :=
  Dec.mkAttn (hidden_size A) (num_heads (hybrid_core A)) (num_kv_heads (hybrid_core A)) (head_dim (hybrid_core A))
    (query_key_value A) (qkv_bias A) (query_layernorm A) (key_layernorm A) (dense_weight A) (dense_bias A)
    (Dec.HybridAttn (hybrid_of (hybrid_core A))).

Definition hf_rotary (P : rope R) : Dec.rotary R :=
  Dec._compute_default_rope_parameters (rope_base P) (rotary_dim P).

Lemma scalar_comm (a b : R) : a * b = b * a.
Proof. ring. Qed.

Lemma rmsnorm_is_hf (N : Dec.rms_norm R) x : rmsnorm_native N x = Dec.norm_forward N x.
Proof. apply functional_extensionality. intros d. unfold rmsnorm_native, Dec.norm_forward. ring. Qed.

Lemma qk_norm_is_hf (N : option (Dec.rms_norm R)) x : qk_norm N x = Dec.opt_norm N x.
Proof. destruct N; [apply rmsnorm_is_hf|done]. Qed.

Lemma rope_is_hf (P : rope R) pos (x : vec R) : rotary_dim P mod 2 = 0%nat ->
  rope_forward P pos x
  = Dec.apply_rotary_pos_emb (2 * Dec.rot_n (hf_rotary P)) (Dec.rotary_forward (hf_rotary P) pos) x.
Proof.
  intros He. pose proof (Nat.div_mod_eq (rotary_dim P) 2) as Ed. rewrite He in Ed.
  set (m := (rotary_dim P / 2)%nat) in *.
  assert (Ec : cdiv (rotary_dim P) 2 = m).
  { unfold cdiv. rewrite Ed. replace (2 * m + 0 + 2 - 1)%nat with (1 + m * 2)%nat by lia.
    rewrite Nat.div_add by lia. done. }
  apply functional_extensionality. intros i.
  unfold rope_forward, Dec.apply_rotary_pos_emb, Dec.rotary_forward, Dec.rotate_half, apply_rotary_emb, cos_sin_row, cat.
  unfold hf_rotary, Dec._compute_default_rope_parameters. cbn [Dec.rot_n Dec.inv_freq Dec.attention_scaling fst snd].
  rewrite Ec. replace (2 * m - 2 * m / 2)%nat with m by (rewrite Nat.mul_comm, Nat.div_mul; lia).
  replace (2 * m / 2)%nat with m by (rewrite Nat.mul_comm, Nat.div_mul; lia).
  replace (rotary_dim P) with (2 * m)%nat by lia.
  destruct (Nat.ltb_spec i (2 * m)) as [Hi|Hi]; [|done].
  unfold _compute_inv_freq. replace (rotary_dim P) with (2 * m)%nat by lia.
  destruct (Nat.ltb_spec i m) as [Hm|Hm].
  - destruct (Nat.ltb_spec (m + i) m); [lia|]. replace (m + i - m)%nat with i by lia.
    rewrite (scalar_comm (s_of_nat pos)). ring.
  - destruct (Nat.ltb_spec (i - m) m); [|lia]. destruct (Nat.ltb_spec (m + (i - m)) m); [lia|].
    replace (m + (i - m) - m)%nat with (i - m)%nat by lia. replace (m + (i - m))%nat with i by lia.
    rewrite (scalar_comm (s_of_nat pos)). ring.
Qed.

Section Projections.
Variable A : attention R.
#[local] Abbreviation C := (hybrid_core A).
#[local] Abbreviation B := (hf_attention A).
#[local] Abbreviation P := (hf_rotary (rotary_emb A)).
Hypothesis rot_even : rotary_dim (rotary_emb A) mod 2 = 0%nat.

Lemma head_is_hf start i x h : start = (i * head_dim C)%nat ->
  head_of A start (qkv A x) h = Dec.qkv_head B x (i + h).
Proof.
  intros ->. apply functional_extensionality. intros d. unfold head_of, qkv, Dec.qkv_head. simpl.
  replace (i * head_dim C + (h * head_dim C + d))%nat with ((i + h) * head_dim C + d)%nat by lia. done.
Qed.

Lemma q3_is_hf positions hs t h : q3 A positions hs t h = Dec.query_states B P (positions t) (hs t) h.
Proof.
  unfold q3, Dec.query_states. rewrite rope_is_hf, qk_norm_is_hf by done. by rewrite (head_is_hf 0 0).
Qed.

Lemma k3_is_hf positions hs t h : k3 A positions hs t h = Dec.key_states B P (positions t) (hs t) h.
Proof.
  unfold k3, Dec.key_states. rewrite rope_is_hf, qk_norm_is_hf by done.
  by rewrite (head_is_hf (q_size A) (num_heads C)) by (unfold q_size; lia).
Qed.

Lemma v3_is_hf hs t h : v3 A hs t h = Dec.value_states B (hs t) h.
Proof.
  unfold v3, Dec.value_states.
  by rewrite (head_is_hf (q_size A + kv_size A) (num_heads C + num_kv_heads C)) by (unfold q_size, kv_size; lia).
Qed.

(** ** The rows of the Hugging Face layer *)

Lemma hf_query hs t h x : hs !! t = Some x ->
  Dec.along (Dec.queries B P 0 hs) h t = Dec.query_states B P t x h.
Proof.
  intros Hx. unfold Dec.along, Dec.queries. rewrite (nth_lookup_Some _ _ _ (Dec.query_states B P t x)); [done|].
  rewrite list_lookup_imap, Hx. done.
Qed.

Lemma along_map {T} (f : T -> Dec.heads R) (l : list T) h t r : l !! t = Some r ->
  Dec.along (map f l) h t = f r h.
Proof.
  intros Hr. unfold Dec.along. by rewrite (nth_lookup_Some _ t _ (f r)) by (by rewrite list_lookup_fmap, Hr).
Qed.

Lemma hf_key_value hs t h x : hs !! t = Some x ->
  let gr := (num_heads C / num_kv_heads C)%nat in
  fst (Dec.expanded B (Dec.keys_values B P 0 hs)) h t = Dec.key_states B P t x (h / gr)%nat /\
  snd (Dec.expanded B (Dec.keys_values B P 0 hs)) h t = Dec.value_states B x (h / gr)%nat.
Proof.
  intros Hx gr.
  assert (Hr : forall (kv : Dec.heads R), Dec.repeat_kv (Dec.num_key_value_groups B) kv h = kv (h / gr)%nat).
  { intros kv. unfold Dec.repeat_kv, Dec.num_key_value_groups. simpl. fold gr.
    destruct (Nat.eqb_spec gr 1) as [->|]; [by rewrite Nat.div_1_r|done]. }
  assert (Hk : Dec.keys_values B P 0 hs !! t = Some (Dec.kv_of B P t x)).
  { unfold Dec.keys_values. by rewrite list_lookup_imap, Hx. }
  unfold Dec.expanded. cbn [fst snd]. rewrite !(along_map _ _ h t _ Hk). split; apply Hr.
Qed.

(** Row [t] of the layer over whole blocks. *)
Lemma hf_row mask hs m t o : (0 < block_size C)%nat -> length hs = (m * block_size C)%nat -> (t < length hs)%nat ->
  nth t (Dec.attn_forward B P 1 0 mask hs) zero_vec o =
  Dec.dense B (fun h => fst (Hybrid.forward (hybrid_of C) h (m * block_size C)
    (fun t => q3 A (fun t => t) (fun t => nth t hs zero_vec) t h)
    (fun t => k3 A (fun t => t) (fun t => nth t hs zero_vec) t (h / (num_heads C / num_kv_heads C))%nat)
    (fun t => v3 A (fun t => nth t hs zero_vec) t (h / (num_heads C / num_kv_heads C))%nat)
    None (Some zero_state)) t) o.
Proof.
  intros Hb Hl Ht. unfold Dec.attn_forward. cbn [Dec.at_kind hf_attention]. erewrite nth_lookup_Some.
  2: { rewrite list_lookup_fmap. unfold Dec.head_rows. rewrite list_lookup_fmap, lookup_seq_lt by done. reflexivity. }
  cbn [Nat.add]. f_equal. apply functional_extensionality. intros h. apply functional_extensionality. intros d.
  unfold Dec.hybrid_out. rewrite DecFacts.queries_length, Hl.
  change (Hybrid.forward (hybrid_of C) h ?n ?q ?k ?v None None)
    with (Hybrid.forward (hybrid_of C) h n q k v None (Some zero_state)).
  apply (DecFacts.hybrid_forward_ext (hybrid_of C) h m); [done| |].
  2: { change (t < m * block_size C)%nat. lia. }
  intros s Hs. assert (Hsl : (s < length hs)%nat) by (rewrite Hl; exact Hs).
  destruct (lookup_lt_is_Some_2 hs s Hsl) as [x Hx].
  pose proof (hf_key_value hs s h x Hx) as [Ek Ev]. rewrite (hf_query hs s h x Hx), Ek, Ev.
  rewrite q3_is_hf, k3_is_hf, v3_is_hf. by rewrite (nth_lookup_Some hs s zero_vec x Hx).
Qed.

End Projections.

(** ** Serving a request *)

Section Serving.
Variables (A : attention R) (sched : list (nat * nat) -> list (nat * nat)) (slot : nat) (hs : list (vec R)).
#[local] Abbreviation C := (hybrid_core A).
#[local] Abbreviation bs := (block_size C).
#[local] Abbreviation row := (fun t => nth t hs zero_vec).

(** Block [n] of the request is request [r] of a batch of hidden states: its
    slot, one block, its rows at their positions. *)
Record serves (n : nat) (lens idx : list nat) (positions : nat -> nat) (batch : nat -> vec R) (r : nat) : Prop := {
  sr_ok : call_ok (sle := sle) C sched lens idx;
  sr_in : (r < length lens)%nat;
  sr_slot : nth r idx 0%nat = slot;
  sr_len : nth r lens 0%nat = bs;
  sr_rows : forall t, (t < bs)%nat -> batch (nth r (offsets lens) 0 + t)%nat = row (n * bs + t)%nat;
  sr_positions : forall t, (t < bs)%nat -> positions (nth r (offsets lens) 0 + t)%nat = (n * bs + t)%nat;
}.

Lemma serves_at_block n lens idx positions batch r : serves n lens idx positions batch r ->
  at_block (sle := sle) C sched slot (q3 A (fun t => t) row) (k3 A (fun t => t) row) (v3 A row) n
    (mkPass lens idx (q3 A positions batch) (k3 A positions batch) (v3 A batch)) r.
Proof.
  intros [Hok Hin Hsl Hlen Hrows Hpos]. split; try done; intros t Ht; simpl; unfold q3, k3, v3;
    rewrite ?Hpos, Hrows by done; done.
Qed.

(** The served layer computes the attention of the Hugging Face model.  A request
    gets a slot with a zero state; its earlier blocks were denoised and committed
    beside other requests.  Then the pass over the final tokens of its next block,
    in a batch with any others, gives at its rows what the hybrid layer of the
    Hugging Face model gives at these positions of the whole sequence. *)
Lemma served_layer_is_hf n es pre lens idx positions batch r mask (L0 : layer R) :
  rotary_dim (rotary_emb A) mod 2 = 0%nat -> length hs = (S n * bs)%nat ->
  rounds (sle := sle) C sched slot (q3 A (fun t => t) row) (k3 A (fun t => t) row) (v3 A row) n es ->
  Forall (quiet (sle := sle) C sched slot) pre -> serves n lens idx positions batch r ->
  (forall h f d, committed L0 (CS slot h f d) = s0) -> (forall h f, committed L0 (CZ slot h f) = s0) ->
  exists L1 L2 out, run_events C sched (es ++ pre) L0 = Ok L1 /\
    forward A sched (build_request_block_plan lens idx bs) (sum_list lens) positions batch L1 = Ok (L2, out) /\
    forall t o, (t < bs)%nat -> out (nth r (offsets lens) 0 + t)%nat o =
      nth (n * bs + t) (Dec.attn_forward (hf_attention A) (hf_rotary (rotary_emb A)) 1 0 mask hs) zero_vec o.
Proof.
  intros He Hl Hr Hq Hs HS HZ. pose proof (serves_at_block _ _ _ _ _ _ Hs) as Hb.
  destruct (served_output C sched slot _ _ _ n es pre _ r L0 Hr Hq Hb HS HZ) as (L1 & L2 & E1 & E2 & Ho).
  pose proof (co_bs _ _ _ _ (sr_ok _ _ _ _ _ _ Hs)) as Hbs.
  exists L1, L2, (output_row A L2). split; [exact E1|]. split.
  - unfold forward. simpl in E2. rewrite E2. cbn [rbind].
    destruct (Nat.eqb_spec (sum_list lens) 0) as [E0|]; [|done]. exfalso.
    pose proof (sr_len _ _ _ _ _ _ Hs) as Hlen. pose proof (sr_in _ _ _ _ _ _ Hs) as Hin.
    assert (Hel : bs ∈ lens) by (rewrite <- Hlen; apply list_elem_of_In, nth_In, Hin).
    apply elem_of_Permutation in Hel as [rest Hp]. rewrite Hp in E0. simpl in E0. lia.
  - intros t o Ht.
    assert (Htl : (n * bs + t < length hs)%nat) by (rewrite Hl; lia).
    rewrite (hf_row A He mask hs (S n)) by done.
    unfold output_row, Dec.dense, hf_attention. cbn [Dec.num_heads Dec.head_dim Dec.dense_weight Dec.dense_bias].
    f_equal. unfold linear. apply vsum_ext. intros i Hi. f_equal.
    assert (Hd : (0 < head_dim C)%nat) by (destruct (head_dim C); lia).
    apply (Ho (i / head_dim C)%nat); [apply Nat.Div0.div_lt_upper_bound; lia|done|apply Nat.mod_upper_bound; lia].
Qed.

End Serving.
End Rows.

(** ** A concrete layer over the real numbers *)

Module Example_.
Export Tensor.Reals.

#[export] Instance real_net : NetOps R := {|
  srsqrt := fun x => (/ sqrt x)%R; scos := cos; ssin := sin; spow := Rpower; s_of_nat := INR |}.

(** Two query heads of dimension two share a key head; blocks of two tokens. *)
Definition demo_core : served R :=
  mkServed 2 1 false 2 1 2 (/ 10)%R 1%R 1 (fun _ _ _ => 1%R) (fun _ => 0%R).

Definition demo_layer : attention R :=
  mkAttention 2 demo_core (fun _ _ => 1%R) (fun _ => 0%R) None None (fun _ _ => 1%R) (fun _ => 0%R)
    (mkRope 0 10000%R).

Definition one_vec : vec R := fun _ => 1%R.

Lemma demo_serves : serves (sle := Rle) demo_layer (fun l => l) 3 [one_vec; one_vec] 0 [2] [3] (fun t => t)
  (fun _ => one_vec) 0.
Proof.
  split; try done; simpl; try lia.
  - split; simpl; try lia; try done; try lra.
    + apply NoDup_singleton.
    + intros l Hl%list_elem_of_singleton. subst l. split; [lia|done].
  - intros [|[|t]] Ht; [done|done|lia].
Qed.

End Example_.
Import Example_.

Lemma served_layer_is_hf_witness : exists L2 out,
  forward demo_layer (fun l => l) (build_request_block_plan [2] [3] 2) 2 (fun t => t) (fun _ => one_vec)
    (mkLayer (fun _ => 0%R) (fun _ => 0%R)) = Ok (L2, out) /\
  out 1%nat 0%nat = nth 1 (Dec.attn_forward (hf_attention demo_layer) (hf_rotary (mkRope 0 10000%R)) 1 0
    (Dec.block_mask 2) [one_vec; one_vec]) zero_vec 0%nat.
Proof.
  destruct (served_layer_is_hf (sle := Rle) demo_layer (fun l => l) 3 [one_vec; one_vec] 0 [] [] [2] [3]
    (fun t => t) (fun _ => one_vec) 0 (Dec.block_mask 2) (mkLayer (fun _ => 0%R) (fun _ => 0%R)))
    as (L1 & L2 & out & E1 & E2 & Ho); try reflexivity.
  - apply rounds_0.
  - constructor.
  - exact demo_serves.
  - simpl in E1. injection E1 as <-. exists L2, out. split; [exact E2|].
    apply (Ho 1%nat 0%nat). simpl. lia.
Defined.

End SL.
