(* ===== verification/Adapter.v ===== *)
(** The adapter of the hybrid model: [scripts/build_adapter.py] fuses the two
    training deltas into one file, and [load_weights] of
    [sglang/srt/models/llada_fast.py] copies the feature maps into the served
    model and merges the LoRA factors into its weights.

    Names are lists of characters.  A tensor is its shape and its entries in row
    order.  The files behind [torch.load], [save_file] and [load_file] are
    arguments: dictionaries in the order the library yields them.  The LoRA
    factors are matrices, and [params] holds what the stock loader left. *)
From Stdlib Require Import String.
From Stdlib Require Import ZArith QArith Ascii Lia.
From stdpp Require Import base list gmap strings.
From S2P Require Import Prelude Denoise Tensor.
Local Open Scope nat_scope.

Definition str : Type := list ascii.
Definition L (s : string) : str := list_ascii_of_string s.

(** * Python strings *)

Module Str.

Definition startswith (p s : str) : bool := bool_decide (take (length p) s = p).

Definition endswith (suf s : str) : bool :=
  bool_decide (length suf <= length s) && bool_decide (drop (length s - length suf) s = suf).

(** [s[: -n]] for a positive [n]. *)
Definition chop (n : nat) (s : str) : str := take (length s - n) s.

(** [sub in s]. *)
Fixpoint contains (sub s : str) : bool :=
  startswith sub s || match s with [] => false | _ :: s => contains sub s end.

(** [s.replace(old, new)] for a non-empty [old]; [skip] characters of an
    occurrence are still to be dropped. *)
Fixpoint replace_from (skip : nat) (old new s : str) : str :=
  match s with
  | [] => []
  | c :: s' =>
    match skip with
    | S k => replace_from k old new s'
    | 0 => if startswith old s then new ++ replace_from (length old - 1) old new s'
           else c :: replace_from 0 old new s'
    end
  end.

Definition replace (old new s : str) : str := replace_from 0 old new s.

Lemma startswith_app p s : startswith p (p ++ s) = true.
Proof. unfold startswith. rewrite take_app_length. by apply bool_decide_eq_true. Qed.

(** The character at a position inside both prefixes decides. *)
Lemma startswith_ne p q s i c d :
  p !! i = Some c -> q !! i = Some d -> c <> d -> startswith p (q ++ s) = false.
Proof.
  intros Hp Hq Hne. unfold startswith. apply bool_decide_eq_false. intros E.
  pose proof (lookup_lt_Some _ _ _ Hp). pose proof (lookup_lt_Some _ _ _ Hq).
  assert (Hc : take (length p) (q ++ s) !! i = Some c) by (by rewrite E).
  rewrite lookup_take_lt, lookup_app_l, Hq in Hc by done. congruence.
Qed.

Lemma endswith_app s suf : endswith suf (s ++ suf) = true.
Proof.
  unfold endswith. rewrite length_app. apply andb_true_iff. split; apply bool_decide_eq_true; [lia|].
  replace (length s + length suf - length suf) with (length s) by lia. apply drop_app_length.
Qed.

Lemma endswith_ne s suf suf' : length suf = length suf' -> suf <> suf' -> endswith suf' (s ++ suf) = false.
Proof.
  intros Hl Hne. unfold endswith. apply andb_false_iff. right. apply bool_decide_eq_false.
  rewrite length_app, <- Hl. replace (length s + length suf - length suf) with (length s) by lia.
  by rewrite drop_app_length.
Qed.

Lemma endswith_inv suf s : endswith suf s = true -> s = chop (length suf) s ++ suf.
Proof.
  unfold endswith. intros [_ E%bool_decide_eq_true]%andb_true_iff. unfold chop.
  rewrite <- (take_drop (length s - length suf) s) at 1. by rewrite E.
Qed.

Lemma chop_app s suf : chop (length suf) (s ++ suf) = s.
Proof.
  unfold chop. rewrite length_app. replace (length s + length suf - length suf) with (length s) by lia.
  apply take_app_length.
Qed.

End Str.

(** * Dictionaries in insertion order *)

Module Dict.
Section Dict.
Context {V : Type}.
Implicit Types (d l : list (str * V)) (k : str).

Fixpoint dget d k : option V :=
  match d with
  | [] => None
  | (k', v) :: d => if decide (k = k') then Some v else dget d k
  end.

(** [d[k] = v]: a present key keeps its place. *)
Fixpoint dset k (v : V) d : list (str * V) :=
  match d with
  | [] => [(k, v)]
  | (k', v') :: d => if decide (k = k') then (k, v) :: d else (k', v') :: dset k v d
  end.

Definition dupdate d l : list (str * V) := foldl (fun d kv => dset (fst kv) (snd kv) d) d l.

Definition dict_of l : list (str * V) := dupdate [] l.

Lemma dget_dset d k v k' : dget (dset k v d) k' = if decide (k' = k) then Some v else dget d k'.
Proof.
  induction d as [|[k1 v1] d IH]; simpl; [done|]. destruct (decide (k = k1)) as [->|Hne]; simpl.
  - by destruct (decide (k' = k1)).
  - rewrite IH. destruct (decide (k' = k1)) as [->|]; [|done]. by rewrite decide_False by done.
Qed.

Lemma dset_new k v d : k ∉ map fst d -> dset k v d = d ++ [(k, v)].
Proof.
  induction d as [|[k1 v1] d IH]; simpl; [done|]. intros [Hne Hni]%not_elem_of_cons.
  rewrite decide_False by done. by rewrite IH.
Qed.

Lemma dset_keys k v d : map fst (dset k v d) = if decide (k ∈ map fst d) then map fst d else map fst d ++ [k].
Proof.
  induction d as [|[k1 v1] d IH]; simpl; [done|]. destruct (decide (k = k1)) as [->|Hne]; simpl.
  { rewrite decide_True by (by left). done. }
  rewrite IH. destruct (decide (k ∈ map fst d)) as [Hin|Hin].
  - rewrite decide_True by (by right). done.
  - rewrite decide_False; [done|]. by apply not_elem_of_cons.
Qed.

Lemma dset_nodup k v d : NoDup (map fst d) -> NoDup (map fst (dset k v d)).
Proof.
  intros Hd. rewrite dset_keys. destruct (decide _) as [|Hni]; [done|].
  apply NoDup_app. split; [done|]. split; [|apply NoDup_singleton].
  intros x Hx ->%list_elem_of_singleton. done.
Qed.

Lemma dupdate_new d l : NoDup (map fst (d ++ l)) -> dupdate d l = d ++ l.
Proof.
  revert d. induction l as [|[k v] l IH]; intros d Hn; [by rewrite app_nil_r|].
  unfold dupdate. cbn [foldl fst snd]. rewrite dset_new.
  - change (dupdate (d ++ [(k, v)]) l = d ++ (k, v) :: l). rewrite IH; [by rewrite <- app_assoc|].
    by rewrite <- app_assoc.
  - rewrite map_app in Hn. apply NoDup_app in Hn as (_ & Hdis & _). intros Hin. apply (Hdis k Hin). by left.
Qed.

Lemma dict_of_new l : NoDup (map fst l) -> dict_of l = l.
Proof. apply (dupdate_new []). Qed.

Lemma dget_elem d k v : NoDup (map fst d) -> (k, v) ∈ d -> dget d k = Some v.
Proof.
  induction d as [|[k1 v1] d IH]; simpl; [by intros _ ?%elem_of_nil|].
  intros [Hni Hd]%NoDup_cons [[= -> ->]|Hin]%elem_of_cons; [by rewrite decide_True|].
  rewrite decide_False; [by apply IH|]. intros ->. apply Hni. apply list_elem_of_fmap. by exists (k1, v).
Qed.

Lemma elem_dget d k v : dget d k = Some v -> (k, v) ∈ d.
Proof.
  induction d as [|[k1 v1] d IH]; simpl; [done|]. destruct (decide (k = k1)) as [->|].
  - intros [= ->]. by left.
  - intros Hd. right. by apply IH.
Qed.

Lemma dget_None d k : dget d k = None <-> k ∉ map fst d.
Proof.
  induction d as [|[k1 v1] d IH]; simpl; [split; [intros _; apply not_elem_of_nil|done]|].
  rewrite not_elem_of_cons, <- IH. destruct (decide (k = k1)); naive_solver.
Qed.

(** The order of the items does not matter. *)
Lemma dget_perm d d' k : NoDup (map fst d) -> d ≡ₚ d' -> dget d' k = dget d k.
Proof.
  intros Hd Hp. assert (Hd' : NoDup (map fst d')) by (by rewrite <- Hp).
  destruct (dget d k) as [v|] eqn:E.
  - apply elem_dget in E. apply dget_elem; [done|]. by rewrite <- Hp.
  - apply dget_None. apply dget_None in E. by rewrite <- Hp.
Qed.

End Dict.
End Dict.

(** * The code *)

Module Ad.
Import Str Dict.

Section Model.
Context {R : Type} `{ScalarOps R}.

(** ** Tensors *)

Record tensor : Type := mkT { shape : list nat; data : list R }.

Definition numel (s : list nat) : nat := foldr Nat.mul 1 s.

Definition same_shape (t u : tensor) : bool := bool_decide (shape t = shape u).

Definition reshape (s : list nat) (t : tensor) : res tensor :=
  if numel (shape t) =? numel s then Ok (mkT s (data t)) else Raise RuntimeError.

(** [t[a:b]] *)
Definition slice0 (a b : nat) (t : tensor) : res tensor :=
  match shape t with
  | d :: rest =>
    let n := numel rest in
    Ok (mkT ((Nat.min b d - Nat.min a d) :: rest) (py_slice (Nat.min a d * n) (Nat.min b d * n) (data t)))
  | [] => Raise IndexError
  end.

(** [t[:, a:b]] *)
Definition slice1 (a b : nat) (t : tensor) : res tensor :=
  match shape t with
  | d0 :: d1 :: rest =>
    let n := numel rest in
    Ok (mkT (d0 :: (Nat.min b d1 - Nat.min a d1) :: rest)
          (concat (map (fun i => py_slice ((i * d1 + Nat.min a d1) * n) ((i * d1 + Nat.min b d1) * n) (data t))
             (seq 0 d0))))
  | _ => Raise IndexError
  end.

(** Entry of a matrix, and a matrix from its entries. *)
Definition entry (t : tensor) (i j : nat) : R := nth (i * nth 1 (shape t) 0 + j) (data t) s0.

Definition mk2 (r c : nat) (f : nat -> nat -> R) : tensor :=
  mkT [r; c] (map (fun p => f (p / c) (p mod c)) (seq 0 (r * c))).

(** [scaling * (B @ A)] *)
Definition lora_delta (s : R) (A B : tensor) : res tensor :=
  match shape B, shape A with
  | [o; r], [r'; i] =>
    if r =? r' then Ok (mk2 o i (fun a b => s * vsum r (fun k => entry B a k * entry A k b))%sc)
    else Raise RuntimeError
  | _, _ => Raise RuntimeError
  end.

(** [param.data.add_(delta)] of equal shapes. *)
Definition add_ (param delta : tensor) : tensor :=
  mkT (shape param) (zip_with sadd (data param) (data delta)).

Definition dict : Type := list (str * tensor).

(** ** [build_adapter.py] *)

Definition hf_to_sglang (key : str) : str := replace (L ".linear_attention.") (L ".hybrid_core.") key.

Definition convert_entry (kv : str * tensor) : str * tensor :=
  let name := hf_to_sglang (fst kv) in
  let t := if endswith (L ".alpha") name then mkT [numel (shape (snd kv))] (data (snd kv)) else snd kv in
  (L "hedgehog." ++ name, t).

Definition convert_hedgehog (state : dict) : dict := dict_of (map convert_entry state).

Definition _PEFT_PREFIX : str := L "base_model.model.".

Definition convert_lora_key (key : str) : res str :=
  if negb (startswith _PEFT_PREFIX key) then Raise ValueError
  else
    let name := drop (length _PEFT_PREFIX) key in
    if endswith (L ".lora_A.default.weight") name
    then Ok (L "lora." ++ chop (length (L ".lora_A.default.weight")) name ++ L ".lora_A")
    else if endswith (L ".lora_B.default.weight") name
    then Ok (L "lora." ++ chop (length (L ".lora_B.default.weight")) name ++ L ".lora_B")
    else Raise ValueError.

Fixpoint convert_lora_from (out state : dict) : res dict :=
  match state with
  | [] => Ok out
  | (key, t) :: state =>
    (let! name := convert_lora_key key in convert_lora_from (dset name t out) state)%py
  end.

Definition convert_lora (state : dict) : res dict := convert_lora_from [] state.

(** What [main] saves. *)
Definition build_adapter (distill lora : dict) : res dict :=
  let tensors := convert_hedgehog distill in
  (let! l := convert_lora lora in Ok (dupdate tensors l))%py.

(** ** [LLaDAFastForCausalLM.load_weights] *)

Section Rank.
Variables (tp_rank tp_size : nat).

Definition _tp_shard_delta (name : str) (t : tensor) : res tensor :=
  let head_slice := fun (h_total : nat) (cut : nat -> nat -> tensor -> res tensor) =>
    let h_local := h_total / tp_size in cut (tp_rank * h_local) ((tp_rank + 1) * h_local) t in
  if contains (L "hedgehog_weights") name then
    match shape t with h_total :: _ => head_slice h_total slice0 | [] => Raise IndexError end
  else if contains (L "alpha") name then
    match shape t with
    | [h_total] => head_slice h_total slice0
    | _ :: h_total :: _ => head_slice h_total slice1
    | [] => Raise IndexError
    end
  else Ok t.

(** The tensor copied into [param]. *)
Definition load_param (name : str) (t param : tensor) : res tensor :=
  (let! t := if negb (same_shape t param) && (1 <? tp_size) then _tp_shard_delta name t else Ok t in
   if same_shape t param then Ok t else reshape (shape param) t)%py.

Fixpoint load_loop (items : dict) (params : gmap str tensor) (loaded : nat)
    : res (gmap str tensor * nat) :=
  match items with
  | [] => Ok (params, loaded)
  | (name, t) :: items =>
    match params !! name with
    | None => load_loop items params loaded
    | Some param =>
      (let! t := load_param name t param in load_loop items (<[name := t]> params) (S loaded))%py
    end
  end.

Definition _load_hedgehog (hedgehog : dict) (params : gmap str tensor) : res (gmap str tensor) :=
  (let! '(params, loaded) := load_loop hedgehog params 0 in
   if loaded =? 0 then Raise RuntimeError else Ok params)%py.

(** [pairs]: the factors of every weight. *)
Definition factors : Type := option tensor * option tensor.

Fixpoint group_pairs (lora : dict) (pairs : list (str * factors)) : res (list (str * factors)) :=
  match lora with
  | [] => Ok pairs
  | (key, value) :: lora =>
    let ab name := default (None, None) (dget pairs name) in
    if endswith (L ".lora_A") key then
      let name := chop (length (L ".lora_A")) key ++ L ".weight" in
      group_pairs lora (dset name (Some value, snd (ab name)) pairs)
    else if endswith (L ".lora_B") key then
      let name := chop (length (L ".lora_B")) key ++ L ".weight" in
      group_pairs lora (dset name (fst (ab name), Some value) pairs)
    else Raise RuntimeError
  end.

(** The part of [delta] that this rank merges. *)
Definition shard_lora (name : str) (delta param : tensor) : res tensor :=
  if negb (same_shape delta param) && (1 <? tp_size) then
    if contains (L "query_key_value") name then
      let chunk := nth 0 (shape delta) 0 / tp_size in
      slice0 (tp_rank * chunk) ((tp_rank + 1) * chunk) delta
    else if contains (L "dense") name then
      let chunk := nth 1 (shape delta) 0 / tp_size in
      slice1 (tp_rank * chunk) ((tp_rank + 1) * chunk) delta
    else Ok delta
  else Ok delta.

(** [None]: the module is missed. *)
Definition merge_param (name : str) (delta param : tensor) : res (option tensor) :=
  (let! delta := shard_lora name delta param in
   if same_shape delta param then Ok (Some (add_ param delta)) else Ok None)%py.

Fixpoint merge_loop (s : R) (pairs : list (str * factors)) (params : gmap str tensor) (merged : nat)
    : res (gmap str tensor * nat) :=
  match pairs with
  | [] => Ok (params, merged)
  | (name, ab) :: pairs =>
    match fst ab, snd ab, params !! name with
    | Some A, Some B, Some param =>
      (let! delta := lora_delta s A B in
       let! m := merge_param name delta param in
       match m with
       | Some t => merge_loop s pairs (<[name := t]> params) (S merged)
       | None => merge_loop s pairs params merged
       end)%py
    | _, _, _ => merge_loop s pairs params merged
    end
  end.

(** The attributes of the configuration that loading reads. *)
Record config : Type := mkConfig {
  llada_hybrid_adapter : option str;
  llada_hybrid_lora_rank : option Z;
  llada_hybrid_lora_alpha : option Z;
}.

Definition lora_scaling (C : config) : res R :=
  let rank := default 16%Z (llada_hybrid_lora_rank C) in
  let alpha := default 8%Z (llada_hybrid_lora_alpha C) in
  if (rank =? 0)%Z then Raise ZeroDivisionError
  else Ok (s_of_Q (inject_Z alpha) / s_of_Q (inject_Z rank))%sc.

Definition _merge_lora (C : config) (lora : dict) (params : gmap str tensor) : res (gmap str tensor) :=
  match lora with
  | [] => Ok params
  | _ =>
    (let! s := lora_scaling C in
     let! pairs := group_pairs lora [] in
     let! '(params, merged) := merge_loop s pairs params 0 in
     if merged =? 0 then Raise RuntimeError else Ok params)%py
  end.

(** The items whose key has a role, without the role. *)
Definition with_role (role : str) (adapter : dict) : dict :=
  dict_of (map (fun kv => (drop (length role) (fst kv), snd kv))
             (filter (fun kv => startswith role (fst kv) = true) adapter)).

(** [files] is what [os.path.exists] and [load_file] find. *)
Definition load_weights (C : config) (files : str -> option dict) (params : gmap str tensor)
    : res (gmap str tensor) :=
  match llada_hybrid_adapter C with
  | None | Some [] => Raise RuntimeError
  | Some path =>
    match files path with
    | None => Raise FileNotFoundError
    | Some adapter =>
      let hedgehog := with_role (L "hedgehog.") adapter in
      let lora := with_role (L "lora.") adapter in
      if existsb (fun kv => negb (startswith (L "hedgehog.") (fst kv) || startswith (L "lora.") (fst kv))) adapter
      then Raise RuntimeError
      else (let! params := _load_hedgehog hedgehog params in _merge_lora C lora params)%py
    end
  end.

End Rank.

(** ** The stock loaders of the sharded weights *)

(** [QKVParallelLinear]: heads of this rank, and on how many ranks a key head is. *)
Record qkv_linear : Type := mkQKV { head_size : nat; total_num_heads : nat; total_num_kv_heads : nat }.

Section Stock.
Variables (Q : qkv_linear) (tp_rank tp_size : nat).

Definition num_heads : nat := total_num_heads Q / tp_size.
Definition num_kv_heads : nat := if total_num_kv_heads Q <=? tp_size then 1 else total_num_kv_heads Q / tp_size.
Definition num_kv_head_replicas : nat :=
  if total_num_kv_heads Q <=? tp_size then tp_size / total_num_kv_heads Q else 1.

(** [weight_loader] of a fused weight: for each of query, key and value, the
    rows of the whole projection and of these the rows of this rank. *)
Definition qkv_shard (shard_offset total_size shard_size shard_id : nat) (w : tensor) : res tensor :=
  (let! w := slice0 shard_offset (shard_offset + total_size) w in
   slice0 (shard_id * shard_size) (shard_id * shard_size + shard_size) w)%py.

Definition qkv_weight_loader (w : tensor) : res tensor :=
  let hd := head_size Q in
  let kv_rank := tp_rank / num_kv_head_replicas in
  (let! q := qkv_shard 0 (total_num_heads Q * hd) (num_heads * hd) tp_rank w in
   let! k := qkv_shard (total_num_heads Q * hd) (total_num_kv_heads Q * hd) (num_kv_heads * hd) kv_rank w in
   let! v := qkv_shard ((total_num_heads Q + total_num_kv_heads Q) * hd) (total_num_kv_heads Q * hd)
               (num_kv_heads * hd) kv_rank w in
   Ok (mkT ((num_heads + 2 * num_kv_heads) * hd :: tail (shape w)) (data q ++ data k ++ data v)))%py.

(** [RowParallelLinear.weight_loader]: the columns of this rank. *)
Definition row_weight_loader (w : tensor) : res tensor :=
  let shard_size := nth 1 (shape w) 0 / tp_size in
  slice1 (tp_rank * shard_size) (tp_rank * shard_size + shard_size) w.

End Stock.
End Model.
Arguments tensor : clear implicits.
Arguments dict : clear implicits.

End Ad.
