(* ===== verification/AdapterFacts.v ===== *)
(** What loading the adapter leaves in the served model: the round trip from
    the training deltas through the adapter file, and the merge on one rank of a
    tensor-parallel server. *)
From Stdlib Require Import String.
From Stdlib Require Import ZArith QArith Ascii Lia.
From stdpp Require Import base list gmap strings.
From S2P Require Import Prelude Denoise Tensor Adapter.
Local Open Scope nat_scope.

Module AdFacts.
Import Str Dict Ad.

Section Facts.
Context {R : Type} `{ScalarOps R}.
Implicit Types (t p A B : tensor R) (params : gmap str (tensor R)) (name m : str).

(** What holds of the parameters of the items is left by a write elsewhere. *)
Lemma lookup_others {V} (Q : str * V -> tensor R -> Prop) (l : list (str * V)) name t params :
  name ∉ map fst l ->
  Forall (fun kv => exists p, params !! fst kv = Some p /\ Q kv p) l ->
  Forall (fun kv => exists p, <[name := t]> params !! fst kv = Some p /\ Q kv p) l.
Proof.
  intros Hni Hl. apply Forall_forall. intros kv Hkv. rewrite Forall_forall in Hl.
  rewrite lookup_insert_ne; [by apply Hl|]. intros ->. apply Hni. apply list_elem_of_fmap. by exists kv.
Qed.

(** ** Copying the feature maps *)

Lemma load_param_whole name t p : numel (shape t) = numel (shape p) ->
  load_param 0 1 name t p = Ok (mkT (shape p) (data t)).
Proof.
  intros E. unfold load_param. rewrite andb_false_r. cbn [rbind].
  unfold same_shape. case_bool_decide as Es; [by rewrite <- Es; destruct t|].
  unfold reshape. by rewrite (proj2 (Nat.eqb_eq _ _) E).
Qed.

(** Every item has a parameter of its size. *)
Definition loadable (items : dict R) params : Prop :=
  Forall (fun kv => exists p, params !! fst kv = Some p /\ numel (shape (snd kv)) = numel (shape p)) items.

Definition copied (items : dict R) name p : tensor R :=
  match dget items name with Some t => mkT (shape p) (data t) | None => p end.

Lemma load_loop_spec items params k : NoDup (map fst items) -> loadable items params ->
  exists params', load_loop 0 1 items params k = Ok (params', k + length items) /\
    forall name, params' !! name = copied items name <$> params !! name.
Proof.
  revert params k. induction items as [|[n t] items IH]; intros params k Hn Hl.
  { exists params. simpl. rewrite Nat.add_0_r. split; [done|]. intros name. unfold copied. simpl.
    by destruct (params !! name). }
  apply NoDup_cons in Hn as [Hni Hn]. apply Forall_cons in Hl as [(p & Hp & Hs) Hl]. simpl in Hp, Hs, Hni.
  cbn [load_loop]. rewrite Hp, load_param_whole by done. cbn [rbind].
  destruct (IH (<[n := mkT (shape p) (data t)]> params) (S k) Hn) as (params' & E & Hp').
  { by apply (lookup_others (fun kv p => numel (shape (snd kv)) = numel (shape p))). }
  exists params'. rewrite E. split; [f_equal; f_equal; simpl; lia|]. intros name. rewrite Hp'.
  unfold copied at 2. simpl. destruct (decide (name = n)) as [->|Hne].
  - rewrite lookup_insert_eq, Hp. simpl. unfold copied.
    by rewrite (proj2 (dget_None items n) Hni).
  - rewrite lookup_insert_ne by done. done.
Qed.

(** ** Merging the factors *)

Section Merge.
Variable s : R.

Definition delta_of A B : tensor R :=
  mk2 (nth 0 (shape B) 0) (nth 1 (shape A) 0)
    (fun a b => s * vsum (nth 1 (shape B) 0) (fun k => entry B a k * entry A k b))%sc.

(** Factors of a weight. *)
Definition fits A B p : Prop := exists o r i, shape B = [o; r] /\ shape A = [r; i] /\ shape p = [o; i].

Lemma lora_delta_fits A B p : fits A B p -> lora_delta s A B = Ok (delta_of A B).
Proof.
  intros (o & r & i & EB & EA & _). unfold lora_delta, delta_of. rewrite EB, EA.
  by rewrite Nat.eqb_refl.
Qed.

Lemma merge_param_whole name A B p : fits A B p ->
  merge_param 0 1 name (delta_of A B) p = Ok (Some (add_ p (delta_of A B))).
Proof.
  intros (o & r & i & EB & EA & Ep). unfold merge_param, shard_lora. rewrite andb_false_r. cbn [rbind].
  unfold same_shape, delta_of. simpl. rewrite EB, EA, Ep. simpl. by rewrite bool_decide_true.
Qed.

Definition mergeable (pairs : list (str * factors)) params : Prop :=
  Forall (fun kv => exists p, params !! fst kv = Some p /\
    exists A B, snd kv = (Some A, Some B) /\ fits A B p) pairs.

Definition merged (pairs : list (str * factors)) name p : tensor R :=
  match dget pairs name with Some (Some A, Some B) => add_ p (delta_of A B) | _ => p end.

Lemma merge_loop_spec pairs params k : NoDup (map fst pairs) -> mergeable pairs params ->
  exists params', merge_loop 0 1 s pairs params k = Ok (params', k + length pairs) /\
    forall name, params' !! name = merged pairs name <$> params !! name.
Proof.
  revert params k. induction pairs as [|[n ab] pairs IH]; intros params k Hn Hl.
  { exists params. simpl. rewrite Nat.add_0_r. split; [done|]. intros name. unfold merged. simpl.
    by destruct (params !! name). }
  apply NoDup_cons in Hn as [Hni Hn]. apply Forall_cons in Hl as [(p & Hp & A & B & Eab & Hf) Hl].
  simpl in Eab, Hp, Hni. subst ab. cbn [merge_loop fst snd]. rewrite Hp, (lora_delta_fits A B p Hf). cbn [rbind].
  rewrite merge_param_whole by done. cbn [rbind].
  destruct (IH (<[n := add_ p (delta_of A B)]> params) (S k) Hn) as (params' & E & Hp').
  { by apply (lookup_others (fun kv p => exists A B, snd kv = (Some A, Some B) /\ fits A B p)). }
  exists params'. rewrite E. split; [f_equal; f_equal; simpl; lia|]. intros name. rewrite Hp'.
  unfold merged at 2. simpl. destruct (decide (name = n)) as [->|Hne].
  - rewrite lookup_insert_eq, Hp. simpl. unfold merged.
    by rewrite (proj2 (dget_None pairs n) Hni).
  - rewrite lookup_insert_ne by done. done.
Qed.

End Merge.

(** ** Grouping the factors *)

Definition key_A m : str := m ++ L ".lora_A".
Definition key_B m : str := m ++ L ".lora_B".
Definition weight_of m : str := m ++ L ".weight".

Definition lora_key (k : str) : Prop := exists m, k = key_A m \/ k = key_B m.

Lemma key_A_inj m m' : key_A m = key_A m' -> m = m'.
Proof. apply app_inv_tail. Qed.

Lemma key_B_inj m m' : key_B m = key_B m' -> m = m'.
Proof. apply app_inv_tail. Qed.

Lemma weight_inj m m' : weight_of m = weight_of m' -> m = m'.
Proof. apply app_inv_tail. Qed.

Lemma key_A_B m m' : key_A m <> key_B m'.
Proof.
  intros E. assert (Ha : endswith (L ".lora_A") (key_B m') = true) by (rewrite <- E; apply endswith_app).
  unfold key_B in Ha. by rewrite endswith_ne in Ha by done.
Qed.

Lemma group_A m (value : tensor R) lora (pairs : list (str * factors)) :
  group_pairs ((key_A m, value) :: lora) pairs =
  group_pairs lora (dset (weight_of m) (Some value, snd (default (None, None) (dget pairs (weight_of m)))) pairs).
Proof.
  cbn [group_pairs]. unfold key_A. rewrite endswith_app, chop_app. done.
Qed.

Lemma group_B m (value : tensor R) lora (pairs : list (str * factors)) :
  group_pairs ((key_B m, value) :: lora) pairs =
  group_pairs lora (dset (weight_of m) (fst (default (None, None) (dget pairs (weight_of m))), Some value) pairs).
Proof.
  cbn [group_pairs]. unfold key_B. rewrite (endswith_ne m (L ".lora_B") (L ".lora_A")) by done.
  rewrite endswith_app, chop_app. done.
Qed.

(** The factors a list of items holds for a module, over those found before. *)
Definition found (lora : dict R) (ab : factors) m : factors :=
  (match dget lora (key_A m) with Some a => Some a | None => fst ab end,
   match dget lora (key_B m) with Some b => Some b | None => snd ab end).

Lemma group_spec (lora : dict R) (pairs : list (str * factors)) :
  NoDup (map fst lora) -> Forall lora_key (map fst lora) -> NoDup (map fst pairs) ->
  exists pairs', group_pairs lora pairs = Ok pairs' /\ NoDup (map fst pairs') /\
    (forall m, default (None, None) (dget pairs' (weight_of m))
               = found lora (default (None, None) (dget pairs (weight_of m))) m) /\
    (forall name, name ∈ map fst pairs' -> name ∈ map fst pairs \/
       exists m, name = weight_of m /\ (key_A m ∈ map fst lora \/ key_B m ∈ map fst lora)).
Proof.
  revert pairs. induction lora as [|[k v] lora IH]; intros pairs Hn Hk Hp.
  { exists pairs. split; [done|]. split; [done|]. split; [|by left]. intros m. unfold found. simpl.
    by destruct (default _ _). }
  apply NoDup_cons in Hn as [Hni Hn]. apply Forall_cons in Hk as [[m0 Hk0] Hk]. simpl in Hni, Hk0.
  set (old := default (None, None) (dget pairs (weight_of m0))).
  assert (Hg : exists ab, group_pairs ((k, v) :: lora) pairs = group_pairs lora (dset (weight_of m0) ab pairs) /\
    found lora ab m0 = found ((k, v) :: lora) old m0 /\
    forall m, m <> m0 -> dget ((k, v) :: lora) (key_A m) = dget lora (key_A m) /\
                         dget ((k, v) :: lora) (key_B m) = dget lora (key_B m)).
  { destruct Hk0 as [-> | ->].
    - exists (Some v, snd old). split; [apply group_A|]. unfold found. simpl. split.
      + rewrite decide_True by done. rewrite (proj2 (dget_None _ _) Hni).
        by rewrite decide_False by (intros E; by apply (key_A_B m0 m0)).
      + intros m Hne. rewrite !decide_False; [done|..]; intros E;
          [by apply (key_A_B m0 m)|by apply Hne, key_A_inj].
    - exists (fst old, Some v). split; [apply group_B|]. unfold found. simpl. split.
      + rewrite decide_False by (intros E; by apply (key_A_B m0 m0)).
        rewrite decide_True by done. by rewrite (proj2 (dget_None _ _) Hni).
      + intros m Hne. rewrite !decide_False; [done|..]; intros E;
          [by apply Hne, key_B_inj|by apply (key_A_B m m0)]. }
  destruct Hg as (ab & Eg & Hf & Ho).
  destruct (IH (dset (weight_of m0) ab pairs) Hn Hk) as (pairs' & E & Hnd & Hd & Hin); [by apply dset_nodup|].
  exists pairs'. rewrite Eg. split; [done|]. split; [done|]. split.
  - intros m. rewrite Hd, dget_dset. destruct (decide (weight_of m = weight_of m0)) as [Em|Em].
    + apply weight_inj in Em as ->. simpl default. exact Hf.
    + assert (m <> m0) by congruence. unfold found. by destruct (Ho m) as [-> ->].
  - intros name Hname. apply Hin in Hname as [Hname|(m & -> & Hm)].
    + rewrite dset_keys in Hname. destruct (decide _); [by left|].
      apply elem_of_app in Hname as [?|Hname%list_elem_of_singleton]; [by left|]. right. exists m0. split; [done|].
      simpl. destruct Hk0 as [-> | ->]; [left|right]; by left.
    + right. exists m. split; [done|]. simpl. destruct Hm; [left|right]; by right.
Qed.

(** ** The file *)

(** Items of the LoRA training state: the factors of every module. *)
Definition lora_items (mods : list (str * (tensor R * tensor R))) : dict R :=
  concat (map (fun mab => [(key_A (fst mab), fst (snd mab)); (key_B (fst mab), snd (snd mab))]) mods).

Definition peft (kv : str * tensor R) : str * tensor R :=
  (_PEFT_PREFIX ++ fst kv ++ L ".default.weight", snd kv).

Definition with_prefix (role : str) (kv : str * tensor R) : str * tensor R := (role ++ fst kv, snd kv).

Definition converted (hh : dict R) : dict R :=
  map (fun kv => (hf_to_sglang (fst kv), snd (convert_entry kv))) hh.

(** The training tensors under the names they are served by. *)
Definition trained (hh : dict R) : dict R := map (fun kv => (hf_to_sglang (fst kv), snd kv)) hh.

Lemma prefix_nodup (role : str) (l : dict R) :
  NoDup (map fst l) -> NoDup (map fst (map (with_prefix role) l)).
Proof.
  intros Hl. rewrite map_map. change (map (fun x => fst (with_prefix role x)) l) with (map (fun x => role ++ fst x) l).
  rewrite <- (map_map fst (fun n => role ++ n)).
  assert (Inj (=) (=) (fun n : str => role ++ n)) by (intros a b; apply app_inv_head).
  by apply (NoDup_fmap_2 (fun n : str => role ++ n)).
Qed.

Lemma converted_keys hh : map fst (converted hh) = map fst (trained hh).
Proof. unfold converted, trained. by rewrite !map_map. Qed.

Lemma convert_hedgehog_eq hh : NoDup (map fst (trained hh)) ->
  convert_hedgehog hh = map (with_prefix (L "hedgehog.")) (converted hh).
Proof.
  intros Hn. unfold convert_hedgehog. rewrite <- converted_keys in Hn.
  apply (prefix_nodup (L "hedgehog.")) in Hn.
  assert (E : map convert_entry hh = map (with_prefix (L "hedgehog.")) (converted hh))
    by (unfold converted; by rewrite map_map).
  rewrite E. by apply dict_of_new.
Qed.

Lemma convert_key_ok (k : str) : lora_key k -> convert_lora_key (_PEFT_PREFIX ++ k ++ L ".default.weight") = Ok (L "lora." ++ k).
Proof.
  intros (m & Hk). unfold convert_lora_key. rewrite startswith_app, drop_app_length. cbn [negb].
  destruct Hk as [-> | ->]; unfold key_A, key_B; rewrite <- app_assoc.
  - change (L ".lora_A" ++ L ".default.weight") with (L ".lora_A.default.weight").
    by rewrite endswith_app, chop_app.
  - change (L ".lora_B" ++ L ".default.weight") with (L ".lora_B.default.weight").
    rewrite (endswith_ne m (L ".lora_B.default.weight") (L ".lora_A.default.weight")) by done.
    by rewrite endswith_app, chop_app.
Qed.

Lemma convert_lora_eq (items out : dict R) : Forall lora_key (map fst items) ->
  convert_lora_from out (map peft items) = Ok (dupdate out (map (with_prefix (L "lora.")) items)).
Proof.
  revert out. induction items as [|[k t] items IH]; intros out Hk; [done|].
  apply Forall_cons in Hk as [Hk0 Hk]. cbn [map convert_lora_from]. unfold peft at 1. cbn [fst snd].
  simpl in Hk0. rewrite convert_key_ok by done. cbn [rbind]. by rewrite IH.
Qed.

Lemma role_free (role role' : str) (l : dict R) i c d :
  role !! i = Some c -> role' !! i = Some d -> c <> d ->
  filter (fun kv => startswith role (fst kv) = true) (map (with_prefix role') l) = [].
Proof.
  intros Hc Hd Hne. induction l as [|kv l IH]; [done|]. cbn [map]. rewrite filter_cons, decide_False; [done|].
  unfold with_prefix at 1. cbn [fst]. by rewrite (startswith_ne role role' _ i c d).
Qed.

Lemma role_all (role : str) (l : dict R) :
  filter (fun kv => startswith role (fst kv) = true) (map (with_prefix role) l) = map (with_prefix role) l.
Proof.
  induction l as [|kv l IH]; [done|]. cbn [map]. rewrite filter_cons, decide_True; [by rewrite IH|].
  apply startswith_app.
Qed.

(** Items under a role, read back from the file in any order. *)
Lemma with_role_perm (role role' : str) (file l l' : dict R) i c d :
  role !! i = Some c -> role' !! i = Some d -> c <> d -> NoDup (map fst l) ->
  file ≡ₚ map (with_prefix role) l ++ map (with_prefix role') l' -> with_role role file ≡ₚ l.
Proof.
  intros Hc Hd Hne Hl Hp. unfold with_role.
  set (strip := fun kv : str * tensor R => (drop (length role) (fst kv), snd kv)).
  assert (E : map strip (filter (fun kv => startswith role (fst kv) = true) file) ≡ₚ l).
  { assert (Ef : filter (fun kv => startswith role (fst kv) = true) file
      ≡ₚ filter (fun kv => startswith role (fst kv) = true) (map (with_prefix role) l ++ map (with_prefix role') l'))
      by (by rewrite Hp).
    rewrite Ef, (filter_app _ (map (with_prefix role) l)), role_all, (role_free role role' l' i c d) by done.
    rewrite app_nil_r, map_map.
    replace (map (fun x => strip (with_prefix role x)) l) with l; [done|].
    symmetry. rewrite <- (map_id l) at 2. apply map_ext. intros [k t]. unfold strip, with_prefix. simpl.
    by rewrite drop_app_length. }
  rewrite dict_of_new; [exact E|].
  apply (NoDup_Permutation_proper _ _ (Permutation_map fst E)). exact Hl.
Qed.

Lemma copied_converted hh name p : copied (converted hh) name p = copied (trained hh) name p.
Proof.
  unfold copied. induction hh as [|[k t] hh IH]; [done|]. simpl. destruct (decide _); [|done].
  by destruct (endswith _ _).
Qed.

Lemma loadable_converted hh params : loadable (trained hh) params -> loadable (converted hh) params.
Proof.
  unfold loadable, converted, trained. rewrite !Forall_map. intros Hl. eapply Forall_impl; [exact Hl|].
  intros [k t] (p & Hp & Hn).
  exists p. split; [done|]. simpl in *. destruct (endswith _ _); [|done]. simpl. lia.
Qed.

(** ** The items of the modules *)

Lemma items_keys mods k : k ∈ map fst (lora_items mods) ->
  exists m, m ∈ map fst mods /\ (k = key_A m \/ k = key_B m).
Proof.
  unfold lora_items. intros Hk. induction mods as [|[m ab] mods IH]; [by apply elem_of_nil in Hk|].
  cbn [map concat app fst snd] in Hk. apply elem_of_cons in Hk as [->|Hk]; [exists m; split; [by left|by left]|].
  apply elem_of_cons in Hk as [->|Hk]; [exists m; split; [by left|by right]|].
  destruct (IH Hk) as (m' & Hm & Hk'). exists m'. split; [by right|done].
Qed.

Lemma items_lora_keys mods : Forall lora_key (map fst (lora_items mods)).
Proof. apply Forall_forall. intros k (m & _ & Hk)%items_keys. by exists m. Qed.

Lemma items_nodup mods : NoDup (map fst mods) -> NoDup (map fst (lora_items mods)).
Proof.
  unfold lora_items. induction mods as [|[m ab] mods IH]; intros Hn; [constructor|].
  apply NoDup_cons in Hn as [Hni Hn]. cbn [map concat app fst snd]. simpl in Hni.
  assert (Hout : key_A m ∉ map fst (lora_items mods) /\ key_B m ∉ map fst (lora_items mods)).
  { split; intros (m' & Hm & [E|E])%items_keys.
    - apply key_A_inj in E as ->. done.
    - by apply (key_A_B m m').
    - by apply (key_A_B m' m).
    - apply key_B_inj in E as ->. done. }
  destruct Hout. apply NoDup_cons. split; [|apply NoDup_cons; split; [done|by apply IH]].
  apply not_elem_of_cons. split; [apply key_A_B|done].
Qed.

Lemma items_get mods m A B : NoDup (map fst mods) -> (m, (A, B)) ∈ mods ->
  dget (lora_items mods) (key_A m) = Some A /\ dget (lora_items mods) (key_B m) = Some B.
Proof.
  intros Hn Hin. pose proof (items_nodup mods Hn) as Hi.
  assert (Hel : forall kv, kv ∈ [(key_A m, A); (key_B m, B)] -> kv ∈ lora_items mods).
  { intros kv Hkv. apply list_elem_of_In. apply in_concat. eexists. split; [|apply list_elem_of_In; exact Hkv].
    apply (in_map (fun mab => [(key_A (fst mab), fst (snd mab)); (key_B (fst mab), snd (snd mab))]) mods
      (m, (A, B))). by apply list_elem_of_In. }
  split; (apply dget_elem; [done|]); apply Hel; [by left|right; by left].
Qed.

Definition weights (mods : list (str * (tensor R * tensor R))) : list (str * (tensor R * tensor R)) :=
  map (fun mab => (weight_of (fst mab), snd mab)) mods.

Lemma weights_nodup mods : NoDup (map fst mods) -> NoDup (map fst (weights mods)).
Proof.
  intros Hn. unfold weights. rewrite map_map. change (map _ mods) with (map (fun x => weight_of (fst x)) mods).
  rewrite <- (map_map fst weight_of). assert (Inj (=) (=) weight_of) by exact weight_inj.
  by apply (NoDup_fmap_2 weight_of).
Qed.

Lemma weights_elem mods m ab : (weight_of m, ab) ∈ weights mods -> (m, ab) ∈ mods.
Proof.
  unfold weights. intros ([m' ab'] & E & Hin)%list_elem_of_fmap. injection E as E ->. simpl in E.
  apply weight_inj in E as ->. done.
Qed.

(** The pairs of the grouped items are the factors of the modules. *)
Lemma grouped mods (file : dict R) : NoDup (map fst mods) -> file ≡ₚ lora_items mods ->
  exists pairs, group_pairs file [] = Ok pairs /\ NoDup (map fst pairs) /\
    forall name, dget pairs name
      = (fun ab : tensor R * tensor R => (Some (fst ab), Some (snd ab))) <$> dget (weights mods) name.
Proof.
  intros Hn Hp. pose proof (items_nodup mods Hn) as Hi.
  assert (Hnd : NoDup (map fst file)) by (by rewrite Hp).
  assert (Hg : forall k, dget file k = dget (lora_items mods) k) by (intros k; by apply dget_perm).
  destruct (group_spec file []) as (pairs & E & Hpn & Hd & Hin); [done|by rewrite Hp; apply items_lora_keys|constructor|].
  exists pairs. split; [done|]. split; [done|]. intros name.
  destruct (dget (weights mods) name) as [[A B]|] eqn:Ew; simpl.
  - pose proof (elem_dget _ _ _ Ew) as Hel. unfold weights in Hel.
    apply list_elem_of_fmap in Hel as ([m [A' B']] & E1 & Hel). simpl in E1. injection E1 as -> <- <-.
    destruct (items_get mods m A B Hn Hel) as [EA EB]. specialize (Hd m). unfold found in Hd.
    simpl in Hd |- *. rewrite !Hg, EA, EB in Hd. destruct (dget pairs (weight_of m)) as [f|]; simpl in Hd; [|done].
    by rewrite Hd.
  - apply dget_None. intros Hname. apply Hin in Hname as [Hname%elem_of_nil|(m & -> & Hm)]; [done|].
    apply dget_None in Ew. apply Ew. rewrite Hp in Hm.
    assert (Hmm : m ∈ map fst mods).
    { destruct Hm as [Hm|Hm]; apply items_keys in Hm as (m' & Hm' & [E'|E']);
        [by apply key_A_inj in E' as ->|by apply key_A_B in E'|by apply eq_sym, key_A_B in E'|by apply key_B_inj in E' as ->]. }
    unfold weights. rewrite map_map. apply list_elem_of_fmap in Hmm as ([m' ab] & -> & Hin').
    apply list_elem_of_fmap. by exists (m', ab).
Qed.

End Facts.
End AdFacts.
