(* ===== verification/AdapterProps.v ===== *)
(** The adapter's theorems: the round trip of the trained tensors into the
    served parameters, and what the merge does on the ranks of a tensor-parallel
    server. *)
From Stdlib Require Import String.
From Stdlib Require Import ZArith QArith Ascii Reals Lra Lia.
From stdpp Require Import base list gmap strings.
From S2P Require Import Prelude Denoise Tensor Adapter AdapterFacts.
Local Open Scope nat_scope.

Module AdProps.
Import Str Dict Ad AdFacts.

Section Roundtrip.
Context {R : Type} `{ScalarOps R}.
Implicit Types (params : gmap str (tensor R)) (hh : dict R).

(** The deltas match the model: the feature maps have distinct names, each with
    a parameter of its size, and every module has its two factors. *)
Record deployable (C : config) hh (mods : list (str * (tensor R * tensor R))) params : Prop := {
  dp_names : NoDup (map fst (trained hh));
  dp_some : hh <> [];
  dp_params : loadable (trained hh) params;
  dp_mods : NoDup (map fst mods);
  dp_factors : Forall (fun mab => exists p, params !! weight_of (fst mab) = Some p /\
    fits (fst (snd mab)) (snd (snd mab)) p) mods;
  dp_rank : llada_hybrid_lora_rank C <> Some 0%Z;
}.

(** [alpha / r] *)
Definition scale (C : config) : R :=
  (s_of_Q (inject_Z (default 8%Z (llada_hybrid_lora_alpha C))) /
   s_of_Q (inject_Z (default 16%Z (llada_hybrid_lora_rank C))))%sc.

(** The tensor to be served under a name, from the base tensor [p]. *)
Definition served (C : config) hh (mods : list (str * (tensor R * tensor R))) (name : str) (p : tensor R) : tensor R :=
  let p := copied (trained hh) name p in
  match dget (weights mods) name with
  | Some ab => add_ p (delta_of (scale C) (fst ab) (snd ab))
  | None => p
  end.

Lemma scaling_ok C : llada_hybrid_lora_rank C <> Some 0%Z -> lora_scaling C = Ok (scale C).
Proof.
  intros Hr. unfold lora_scaling, scale. destruct (llada_hybrid_lora_rank C) as [z|]; [|done]. simpl.
  destruct (Z.eqb_spec z 0) as [->|]; done.
Qed.

(** Merging after the copies. *)
Lemma merge_copied C hh mods params params1 file : deployable C hh mods params ->
  (forall name, params1 !! name = copied (trained hh) name <$> params !! name) ->
  file ≡ₚ lora_items mods ->
  exists params2, _merge_lora 0 1 C file params1 = Ok params2 /\
    forall name, params2 !! name = served C hh mods name <$> params !! name.
Proof.
  intros D H1 Hp. destruct (decide (file = [])) as [->|Hfne].
  { apply Permutation_nil_l in Hp. destruct mods as [|mab mods]; [|done]. exists params1. split; [done|].
    intros name. rewrite H1. by destruct (params !! name). }
  assert (E : _merge_lora 0 1 C file params1 = (let! pairs := group_pairs file [] in
    let! '(params, merged) := merge_loop 0 1 (scale C) pairs params1 0 in
    if merged =? 0 then Raise RuntimeError else Ok params)%py).
  { unfold _merge_lora. rewrite scaling_ok by apply D. by destruct file. }
  rewrite E.
  destruct (grouped mods file (dp_mods _ _ _ _ D) Hp) as (pairs & Eg & Hn & Hd). rewrite Eg. cbn [rbind].
  destruct (merge_loop_spec (scale C) pairs params1 0 Hn) as (params2 & E2 & H2).
  { apply Forall_forall. intros [name ab] Hin. apply (dget_elem _ _ _ Hn) in Hin. rewrite Hd in Hin.
    destruct (dget (weights mods) name) as [[A B]|] eqn:Ew; [|done]. injection Hin as <-.
    apply elem_dget, list_elem_of_fmap in Ew as ([m ab] & E1 & Hm). simpl in E1. injection E1 as -> <-.
    pose proof (proj1 (Forall_forall _ _) (dp_factors _ _ _ _ D) _ Hm) as (p & Hp' & Hf). simpl in *.
    exists (copied (trained hh) (weight_of m) p). rewrite H1, Hp'. split; [done|]. exists A, B. split; [done|].
    destruct Hf as (o & r & i & EB & EA & Es). exists o, r, i. split; [done|]. split; [done|].
    unfold copied. by destruct (dget _ _). }
  rewrite E2. cbn [rbind]. destruct (0 + length pairs =? 0) eqn:E0.
  { exfalso. apply Nat.eqb_eq in E0. destruct pairs; [|done].
    destruct mods as [|[m ab] mods2]; [by apply Permutation_nil_r in Hp|].
    specialize (Hd (weight_of m)). simpl in Hd. by rewrite decide_True in Hd by done. }
  exists params2. split; [done|]. intros name.
  rewrite H2, H1. destruct (params !! name) as [p|]; [|done]. simpl. f_equal. unfold served, merged.
  rewrite Hd. by destruct (dget (weights mods) name) as [[A B]|].
Qed.

(** C19. From the training deltas to the model served on a single rank: building the adapter of
    any deltas that match the model succeeds, and loading the file back, with
    its tensors in any order, leaves in every parameter the trained feature map
    where there is one, the base weight plus [alpha / r] times the product of
    its LoRA factors where there are any, and the base weight elsewhere.  [tp_size] is
    [1]: with more ranks the fused projection is merged with other rows of the delta. *)
Theorem adapter_roundtrip (C : config) (path : str) (files : str -> option (dict R))
    (hh lora : dict R) (mods : list (str * (tensor R * tensor R))) params :
  deployable C hh mods params -> lora ≡ₚ map peft (lora_items mods) ->
  llada_hybrid_adapter C = Some path -> path <> [] ->
  exists adapter, build_adapter hh lora = Ok adapter /\
    forall file, file ≡ₚ adapter -> files path = Some file ->
      exists params', load_weights 0 1 C files params = Ok params' /\
        forall name, params' !! name = served C hh mods name <$> params !! name.
Proof.
  intros D Hl Hpath Hne. destruct (Permutation_map_inv _ _ Hl) as (items & -> & Hi). symmetry in Hi.
  pose proof (items_nodup mods (dp_mods _ _ _ _ D)) as Hmn.
  assert (Hin : NoDup (map fst items)) by (by rewrite Hi).
  assert (Hik : Forall lora_key (map fst items)) by (rewrite Hi; apply items_lora_keys).
  assert (Hcn : NoDup (map fst (converted hh))) by (rewrite converted_keys; apply D).
  set (la := map (with_prefix (L "lora.")) items). set (ha := map (with_prefix (L "hedgehog.")) (converted hh)).
  exists (ha ++ la). split.
  { unfold build_adapter, convert_lora. rewrite convert_hedgehog_eq by apply D.
    rewrite convert_lora_eq by done. cbn [rbind].
    assert (El : dupdate [] la = la) by (apply (dict_of_new la); by apply prefix_nodup).
    fold la. rewrite El. f_equal. apply dupdate_new. rewrite map_app. apply NoDup_app.
    split; [by apply prefix_nodup|]. split; [|by apply prefix_nodup].
    intros k Hk Hk'. apply list_elem_of_fmap in Hk as (kv & -> & Hk). apply list_elem_of_fmap in Hk as (kv1 & -> & _).
    apply list_elem_of_fmap in Hk' as (kv2 & E & Hk2). apply list_elem_of_fmap in Hk2 as (kv3 & -> & _). done. }
  intros file Hf Hfile. unfold load_weights. rewrite Hpath. destruct path as [|c0 path0]; [done|]. rewrite Hfile.
  assert (Hknown : existsb (fun kv => negb (startswith (L "hedgehog.") (fst kv) || startswith (L "lora.") (fst kv))) file = false).
  { apply not_true_iff_false. intros (kv & Hkv & Hb)%existsb_exists.
    apply list_elem_of_In in Hkv. rewrite Hf in Hkv.
    apply elem_of_app in Hkv as [(kv1 & -> & _)%list_elem_of_fmap|(kv1 & -> & _)%list_elem_of_fmap];
      unfold with_prefix in Hb; cbn [fst] in Hb; rewrite startswith_app in Hb; [done|by rewrite orb_true_r in Hb]. }
  rewrite Hknown.
  assert (Hh : with_role (L "hedgehog.") file ≡ₚ converted hh)
    by (by eapply (with_role_perm _ (L "lora.") file _ items 0)).
  assert (Hlo : with_role (L "lora.") file ≡ₚ items).
  { eapply (with_role_perm _ (L "hedgehog.") file _ (converted hh) 0); try done.
    rewrite Hf. apply Permutation_app_comm. }
  unfold _load_hedgehog. set (hd := with_role (L "hedgehog.") file) in *.
  destruct (load_loop_spec hd params 0) as (params1 & E1 & H1).
  { by rewrite Hh. }
  { unfold loadable. rewrite Hh. apply loadable_converted, D. }
  rewrite E1. cbn [rbind]. destruct (0 + length hd =? 0) eqn:E0.
  { apply Nat.eqb_eq in E0. rewrite Hh in E0. unfold converted in E0. rewrite length_map in E0.
    exfalso. apply (dp_some _ _ _ _ D). by destruct hh. }
  cbn [rbind]. apply (merge_copied C hh mods params params1); [done| |by rewrite Hlo].
  intros name. rewrite H1. destruct (params !! name) as [p|]; [|done]. simpl. f_equal.
  rewrite <- copied_converted. unfold copied. by rewrite (dget_perm _ _ name Hcn (symmetry Hh)).
Qed.

End Roundtrip.

(** ** One rank of several *)

Section Ranks.
Context {R : Type} `{ScalarOps R}.
Implicit Types (t u w delta : tensor R).

Definition matrix (r c : nat) t : Prop := shape t = [r; c] /\ length (data t) = r * c.

Lemma nth_slice (l : list R) a n k : k < n -> nth k (take n (drop a l)) s0 = nth (a + k) l s0.
Proof. intros Hk. rewrite !nth_lookup, lookup_take_lt, lookup_drop by done. done. Qed.

Lemma entry_at r c t i j : matrix r c t -> entry t i j = nth (i * c + j) (data t) s0.
Proof. intros [E _]. unfold entry. by rewrite E. Qed.

Lemma rows_bound i r c j : i < r -> j < c -> i * c + j < r * c.
Proof. intros. assert (S i * c <= r * c) by (apply Nat.mul_le_mono_r; lia). lia. Qed.

Lemma slice0_matrix r c t a b : matrix r c t -> a <= b -> b <= r ->
  exists u, slice0 a b t = Ok u /\ matrix (b - a) c u /\
    forall i j, i < b - a -> j < c -> entry u i j = entry t (a + i) j.
Proof.
  intros Hm Hab Hb. pose proof Hm as [Es El]. unfold slice0. rewrite Es. eexists. split; [done|].
  rewrite !Nat.min_l by lia. unfold numel. simpl foldr. rewrite Nat.mul_1_r.
  assert (Hu : matrix (b - a) c (mkT [b - a; c] (py_slice (a * c) (b * c) (data t)))).
  { split; [done|]. simpl. unfold py_slice. rewrite length_take, length_drop, El, Nat.mul_sub_distr_r.
    assert (b * c <= r * c) by (by apply Nat.mul_le_mono_r). lia. }
  split; [exact Hu|]. intros i j Hi Hj. rewrite (entry_at _ _ _ i j Hu), (entry_at _ _ _ _ _ Hm).
  simpl. unfold py_slice. rewrite nth_slice; [f_equal; lia|].
  pose proof (rows_bound i (b - a) c j Hi Hj) as Hbd. rewrite Nat.mul_sub_distr_r in Hbd. lia.
Qed.

Lemma slice1_matrix r c t a b : matrix r c t -> a <= b -> b <= c ->
  exists u, slice1 a b t = Ok u /\ matrix r (b - a) u /\
    forall i j, i < r -> j < b - a -> entry u i j = entry t i (a + j).
Proof.
  intros Hm Hab Hb. pose proof Hm as [Es El]. unfold slice1. rewrite Es. eexists. split; [done|].
  rewrite !Nat.min_l by lia. unfold numel. cbn [foldr].
  set (row := fun i => py_slice ((i * c + a) * 1) ((i * c + b) * 1) (data t)).
  assert (Hrow : forall i, i < r -> length (row i) = b - a).
  { intros i Hi. unfold row, py_slice. rewrite !Nat.mul_1_r, length_take, length_drop, El.
    assert (S i * c <= r * c) by (apply Nat.mul_le_mono_r; lia). lia. }
  assert (Hrect : rect (b - a) (map row (seq 0 r))).
  { apply Forall_map, Forall_forall. intros i Hi%elem_of_seq. apply Hrow. lia. }
  assert (Hu : matrix r (b - a) (mkT [r; b - a] (concat (map row (seq 0 r))))).
  { split; [done|]. simpl. rewrite (length_concat_rect (b - a)) by done. by rewrite length_map, length_seq. }
  split; [exact Hu|]. intros i j Hi Hj. rewrite (entry_at _ _ _ i j Hu), (entry_at _ _ _ _ _ Hm).
  assert (Ei : map row (seq 0 r) !! i = Some (row i)) by (rewrite list_lookup_fmap, lookup_seq_lt by done; done).
  cbn [data]. rewrite nth_lookup, (lookup_concat_rect (b - a) _ i (row i)) by done.
  unfold row, py_slice. rewrite !Nat.mul_1_r, <- nth_lookup, nth_slice by lia. f_equal. lia.
Qed.

Lemma add_matrix r c t delta : matrix r c t -> matrix r c delta ->
  matrix r c (add_ t delta) /\
  forall i j, i < r -> j < c -> entry (add_ t delta) i j = (entry t i j + entry delta i j)%sc.
Proof.
  intros Ht Hd. pose proof Ht as [Et Lt]. pose proof Hd as [Ed Ld].
  assert (Ha : matrix r c (add_ t delta)).
  { split; [done|]. simpl. rewrite length_zip_with. lia. }
  split; [done|]. intros i j Hi Hj.
  rewrite (entry_at _ _ _ _ _ Ha), (entry_at _ _ _ _ _ Ht), (entry_at _ _ _ _ _ Hd).
  pose proof (rows_bound i r c j Hi Hj). unfold add_. cbn [data].
  destruct (lookup_lt_is_Some_2 (data t) (i * c + j)) as [x Hx]; [lia|].
  destruct (lookup_lt_is_Some_2 (data delta) (i * c + j)) as [y Hy]; [lia|].
  rewrite !nth_lookup, lookup_zip_with, Hx, Hy. done.
Qed.

Lemma cat_matrix r1 r2 c t u s : matrix r1 c t -> matrix r2 c u ->
  s = [r1 + r2; c] ->
  matrix (r1 + r2) c (mkT s (data t ++ data u)) /\
  forall i j, i < r1 + r2 -> j < c -> entry (mkT s (data t ++ data u)) i j =
    if i <? r1 then entry t i j else entry u (i - r1) j.
Proof.
  intros Ht Hu ->. pose proof Ht as [_ Lt]. pose proof Hu as [_ Lu].
  assert (Hc : matrix (r1 + r2) c (mkT [r1 + r2; c] (data t ++ data u))).
  { split; [done|]. simpl. rewrite length_app. lia. }
  split; [done|]. intros i j Hi Hj. rewrite (entry_at _ _ _ _ _ Hc), (entry_at _ _ _ i j Ht), (entry_at _ _ _ _ _ Hu).
  cbn [data]. rewrite !nth_lookup. destruct (Nat.ltb_spec i r1) as [Hlt|Hge].
  - rewrite lookup_app_l; [done|]. pose proof (rows_bound i r1 c j Hlt Hj). lia.
  - assert (r1 * c <= i * c) by (by apply Nat.mul_le_mono_r). rewrite lookup_app_r by lia.
    do 2 f_equal. rewrite Lt, Nat.mul_sub_distr_r. lia.
Qed.

(** The rows of the fused weight that a rank holds, when the key heads can be
    divided among the ranks as the query heads are. *)
Section QKV.
Variables (Q : qkv_linear) (tp_rank tp_size nh g c : nat).
#[local] Abbreviation hd := (head_size Q).
Hypothesis heads_eq : total_num_heads Q = tp_size * nh.
Hypothesis kv_heads_eq : total_num_kv_heads Q = tp_size * g.
Hypothesis ranks : tp_rank < tp_size.
Hypothesis g_pos : 0 < g.

Definition qkv_row (i : nat) : nat :=
  if i <? nh * hd then tp_rank * (nh * hd) + i
  else if i <? (nh + g) * hd then tp_size * nh * hd + tp_rank * (g * hd) + (i - nh * hd)
  else tp_size * (nh + g) * hd + tp_rank * (g * hd) + (i - (nh + g) * hd).

Lemma local_heads : num_heads Q tp_size = nh /\ num_kv_heads Q tp_size = g /\ num_kv_head_replicas Q tp_size = 1.
Proof.
  unfold num_heads, num_kv_heads, num_kv_head_replicas. rewrite heads_eq, kv_heads_eq.
  rewrite !(Nat.mul_comm tp_size), !Nat.div_mul by lia. split; [done|].
  destruct (Nat.leb_spec (g * tp_size) tp_size) as [Hle|]; [|done].
  assert (g = 1) as -> by nia. rewrite Nat.mul_1_l, Nat.div_same by lia. done.
Qed.

Lemma qkv_shard_matrix total w off n : matrix total c w -> off + tp_size * n <= total ->
  exists u, qkv_shard off (tp_size * n) n tp_rank w = Ok u /\ matrix n c u /\
    forall i j, i < n -> j < c -> entry u i j = entry w (off + tp_rank * n + i) j.
Proof.
  intros Hw Hle. unfold qkv_shard.
  destruct (slice0_matrix total c w off (off + tp_size * n) Hw) as (u1 & E1 & M1 & H1); [lia|lia|].
  rewrite E1. cbn [rbind]. replace (off + tp_size * n - off) with (tp_size * n) in * by lia.
  assert (Hn : S tp_rank * n <= tp_size * n) by (apply Nat.mul_le_mono_r; lia).
  destruct (slice0_matrix _ c u1 (tp_rank * n) (tp_rank * n + n) M1) as (u & E & M & Hu); [lia|lia|].
  exists u. rewrite E. split; [done|]. replace (tp_rank * n + n - tp_rank * n) with n in * by lia.
  split; [done|]. intros i j Hi Hj. rewrite Hu, H1 by lia. f_equal. lia.
Qed.

Lemma qkv_loader_matrix w : matrix (tp_size * (nh + 2 * g) * hd) c w ->
  exists u, qkv_weight_loader Q tp_rank tp_size w = Ok u /\ matrix ((nh + 2 * g) * hd) c u /\
    forall i j, i < (nh + 2 * g) * hd -> j < c -> entry u i j = entry w (qkv_row i) j.
Proof.
  intros Hw. unfold qkv_weight_loader. destruct local_heads as (-> & -> & ->).
  rewrite heads_eq, kv_heads_eq, Nat.div_1_r, <- Nat.mul_add_distr_l, <- !Nat.mul_assoc.
  destruct (qkv_shard_matrix _ w 0 (nh * hd) Hw) as (q & Eq & Mq & Hq); [nia|].
  destruct (qkv_shard_matrix _ w (tp_size * (nh * hd)) (g * hd) Hw) as (k & Ek & Mk & Hk); [nia|].
  destruct (qkv_shard_matrix _ w (tp_size * ((nh + g) * hd)) (g * hd) Hw) as (v & Ev & Mv & Hv); [nia|].
  rewrite Eq, Ek, Ev. cbn [rbind]. eexists. split; [done|].
  destruct (cat_matrix _ _ c k v [g * hd + g * hd; c] Mk Mv eq_refl) as [Mkv Hkv].
  destruct (cat_matrix _ _ c q _ [nh * hd + (g * hd + g * hd); c] Mq Mkv eq_refl) as [M Hall]. cbn [data] in M, Hall.
  replace ((nh + 2 * g) * hd) with (nh * hd + (g * hd + g * hd)) by lia.
  rewrite (proj1 Hw). cbn [tail]. split; [exact M|]. intros i j Hi Hj. rewrite Hall by done. unfold qkv_row.
  destruct (Nat.ltb_spec i (nh * hd)) as [H1|H1]; [rewrite Hq by done; f_equal; lia|].
  rewrite Hkv by lia. destruct (Nat.ltb_spec i ((nh + g) * hd)) as [H2|H2].
  - destruct (Nat.ltb_spec (i - nh * hd) (g * hd)); [|lia]. rewrite Hk by lia. f_equal. lia.
  - destruct (Nat.ltb_spec (i - nh * hd) (g * hd)); [lia|]. rewrite Hv by lia. f_equal. lia.
Qed.

End QKV.

Lemma merge_shard rank tp name delta u part r c :
  matrix r c u -> matrix r c part -> shard_lora rank tp name delta u = Ok part ->
  merge_param rank tp name delta u = Ok (Some (add_ u part)).
Proof.
  intros [Eu _] [Ep _] E. unfold merge_param. rewrite E. cbn [rbind]. unfold same_shape.
  by rewrite bool_decide_true by congruence.
Qed.

(** The rows of a rank whose delta is their own. *)
Lemma qkv_own_row (Q : qkv_linear) (tp_rank tp_size nh g : nat) :
  tp_rank < tp_size -> 0 < g -> 0 < nh -> 0 < head_size Q ->
  forall a, a < (nh + 2 * g) * head_size Q ->
  qkv_row Q tp_rank tp_size nh g a = tp_rank * ((nh + 2 * g) * head_size Q) + a <->
     a < nh * head_size Q /\ tp_rank = 0 \/
     nh * head_size Q <= a < (nh + g) * head_size Q /\ (tp_size - 1 - tp_rank) * nh = tp_rank * g \/
     (nh + g) * head_size Q <= a /\ tp_rank = tp_size - 1.
Proof.
  intros Hr Hg Hnh Hhd a Ha. unfold qkv_row. set (hd := head_size Q) in *. clearbody hd.
  assert (exists k, tp_size = tp_rank + 1 + k) as [k ->] by (exists (tp_size - 1 - tp_rank); lia).
  replace (tp_rank + 1 + k - 1 - tp_rank) with k by lia. replace (tp_rank + 1 + k - 1) with (tp_rank + k) by lia.
  destruct (Nat.ltb_spec a (nh * hd)) as [H1|H1].
  - split; [intros E; left|intros [[_ ->]|[[[? _] _]|[? _]]]; nia]. split; [done|]. nia.
  - destruct (Nat.ltb_spec a ((nh + g) * hd)) as [H2|H2].
    + assert (E : (tp_rank + 1 + k) * nh * hd + tp_rank * (g * hd) + (a - nh * hd) =
                  tp_rank * ((nh + 2 * g) * hd) + a <-> hd * (k * nh) = hd * (tp_rank * g)) by nia.
      rewrite E, Nat.mul_cancel_l by lia. split; [intros ?; right; left; split; [split|]; done|].
      intros [[? _]|[[_ ?]|[? _]]]; [lia|done|lia].
    + assert (E : (tp_rank + 1 + k) * (nh + g) * hd + tp_rank * (g * hd) + (a - (nh + g) * hd) =
                  tp_rank * ((nh + 2 * g) * hd) + a <-> (nh + g) * hd * k = (nh + g) * hd * 0) by nia.
      rewrite E, Nat.mul_cancel_l by nia. split; [intros ->; right; right; lia|].
      intros [[? _]|[[? _]|[_ ?]]]; nia.
Qed.

(** C13. Merging LoRA factors on the ranks of a tensor-parallel server, over which the
    query and the key-value heads divide evenly.  The
    output projection gets what it should: the columns of the rank, of weight
    and delta alike.  The fused projection does not: row [i] of the rank is row
    [qkv_row i] of the weight, but it is given row [tp_rank * chunk + i] of the
    delta.  That is its own row only for the query rows of rank 0, for the value rows
    of the last rank, and for the key rows of a rank with
    [(tp_size - 1 - tp_rank) * nh = tp_rank * g]; on every rank of two or more some row
    gets the delta of another one. *)
Theorem lora_on_ranks (Q : qkv_linear) (tp_rank tp_size nh g c o i : nat) (name_qkv name_dense : str)
    (w delta w' delta' : tensor R) :
  total_num_heads Q = tp_size * nh -> total_num_kv_heads Q = tp_size * g ->
  tp_rank < tp_size -> 1 < tp_size -> 0 < g -> 0 < nh -> 0 < head_size Q -> 0 < i ->
  matrix (tp_size * (nh + 2 * g) * head_size Q) c w -> matrix (tp_size * (nh + 2 * g) * head_size Q) c delta ->
  matrix o (tp_size * i) w' -> matrix o (tp_size * i) delta' ->
  contains (L "query_key_value") name_qkv = true ->
  contains (L "query_key_value") name_dense = false -> contains (L "dense") name_dense = true ->
  let chunk := (nh + 2 * g) * head_size Q in
  (exists u m, row_weight_loader tp_rank tp_size w' = Ok u /\
     merge_param tp_rank tp_size name_dense delta' u = Ok (Some m) /\
     forall a b, a < o -> b < i ->
       entry m a b = (entry w' a (tp_rank * i + b) + entry delta' a (tp_rank * i + b))%sc) /\
  (exists u m, qkv_weight_loader Q tp_rank tp_size w = Ok u /\
     merge_param tp_rank tp_size name_qkv delta u = Ok (Some m) /\
     forall a b, a < chunk -> b < c ->
       entry m a b = (entry w (qkv_row Q tp_rank tp_size nh g a) b + entry delta (tp_rank * chunk + a) b)%sc) /\
  (forall a, a < chunk -> qkv_row Q tp_rank tp_size nh g a = tp_rank * chunk + a <->
     a < nh * head_size Q /\ tp_rank = 0 \/
     nh * head_size Q <= a < (nh + g) * head_size Q /\ (tp_size - 1 - tp_rank) * nh = tp_rank * g \/
     (nh + g) * head_size Q <= a /\ tp_rank = tp_size - 1) /\
  (exists a, a < chunk /\ qkv_row Q tp_rank tp_size nh g a <> tp_rank * chunk + a).
Proof.
  intros EH EK Hr Ht Hg Hnh Hhd Hi Hw Hd Hw' Hd' Nq Nd1 Nd2 chunk. split; [|split].
  - assert (Hb : S tp_rank * i <= tp_size * i) by (apply Nat.mul_le_mono_r; lia).
    unfold row_weight_loader. rewrite (proj1 Hw'). cbn [nth].
    assert (Ec : tp_size * i / tp_size = i) by (rewrite Nat.mul_comm; apply Nat.div_mul; lia). rewrite Ec.
    destruct (slice1_matrix o _ w' (tp_rank * i) (tp_rank * i + i) Hw') as (u & Eu & Mu & Hu); [lia|lia|].
    destruct (slice1_matrix o _ delta' (tp_rank * i) (tp_rank * i + i) Hd') as (p & Ep & Mp & Hp); [lia|lia|].
    replace (tp_rank * i + i - tp_rank * i) with i in * by lia.
    exists u, (add_ u p). split; [done|]. split.
    + apply (merge_shard _ _ _ _ _ _ o i Mu Mp). unfold shard_lora, same_shape.
      rewrite bool_decide_false by (rewrite (proj1 Hd'), (proj1 Mu); intros [= E]; nia).
      rewrite (proj2 (Nat.ltb_lt 1 tp_size) Ht), Nd1, Nd2. cbn [negb andb]. rewrite (proj1 Hd'). cbn [nth].
      rewrite Ec. rewrite <- Ep. f_equal. lia.
    + intros a b Ha Hb'. rewrite (proj2 (add_matrix o i u p Mu Mp)), Hu, Hp by done. done.
  - destruct (qkv_loader_matrix Q tp_rank tp_size nh g c EH EK Hr Hg w Hw) as (u & Eu & Mu & Hu).
    assert (Hb : S tp_rank * chunk <= tp_size * chunk) by (apply Nat.mul_le_mono_r; lia).
    assert (Eq : tp_size * (nh + 2 * g) * head_size Q = tp_size * chunk) by (unfold chunk; lia). rewrite Eq in Hd.
    destruct (slice0_matrix _ c delta (tp_rank * chunk) ((tp_rank + 1) * chunk) Hd) as (p & Ep & Mp & Hp); [lia|lia|].
    replace ((tp_rank + 1) * chunk - tp_rank * chunk) with chunk in * by lia.
    exists u, (add_ u p). split; [done|]. split.
    + apply (merge_shard _ _ _ _ _ _ chunk c Mu Mp). unfold shard_lora, same_shape.
      assert (0 < chunk) by (unfold chunk; nia).
      rewrite bool_decide_false by (rewrite (proj1 Hd), (proj1 Mu); fold chunk; intros [= E]; nia).
      rewrite (proj2 (Nat.ltb_lt 1 tp_size) Ht), Nq. cbn [negb andb]. rewrite (proj1 Hd). cbn [nth].
      by rewrite (Nat.mul_comm tp_size chunk), Nat.div_mul by lia.
    + intros a b Ha Hb'. rewrite (proj2 (add_matrix chunk c u p Mu Mp)), Hu, Hp by done. done.
  - pose proof (qkv_own_row Q tp_rank tp_size nh g Hr Hg Hnh Hhd) as Hown. fold chunk in Hown.
    split; [exact Hown|]. destruct (decide (tp_rank = 0)) as [E0|E0].
    + exists ((nh + g) * head_size Q). assert (Hc : (nh + g) * head_size Q < chunk) by (unfold chunk; nia).
      split; [done|]. rewrite (Hown _ Hc). nia.
    + exists 0. assert (Hc : 0 < chunk) by (unfold chunk; nia). split; [done|]. rewrite (Hown _ Hc). nia.
Qed.

End Ranks.

(** ** A small model *)

Module Demo.
Export Tensor.Reals.

Definition layer0 : str := L "model.layers.0.attention.".

Definition ones (s : list nat) : tensor R := mkT s (replicate (numel s) 1%R).

(** One hybrid layer; [alpha] is stored as in training. *)
Definition demo_hh : dict R :=
  [(layer0 ++ L "linear_attention.hedgehog_weights", ones [1; 2; 2]);
   (layer0 ++ L "linear_attention.alpha", ones [1; 1; 1; 1])].

Definition demo_mods : list (str * (tensor R * tensor R)) :=
  [(layer0 ++ L "dense", (ones [1; 2], ones [2; 1]))].

Definition demo_params : gmap str (tensor R) :=
  list_to_map
    [(layer0 ++ L "hybrid_core.hedgehog_weights", ones [1; 2; 2]);
     (layer0 ++ L "hybrid_core.alpha", ones [1; 1; 1; 1]);
     (layer0 ++ L "dense.weight", ones [2; 2]);
     (L "model.norm.weight", ones [2])].

Definition demo_config : config := mkConfig (Some (L "adapter.safetensors")) (Some 16%Z) (Some 8%Z).

Lemma demo_deployable : deployable demo_config demo_hh demo_mods demo_params.
Proof.
  split.
  - by apply (bool_decide_unpack (NoDup (map fst (trained demo_hh)))).
  - discriminate.
  - repeat constructor; (eexists; split; [reflexivity|reflexivity]).
  - by apply (bool_decide_unpack (NoDup (map fst demo_mods))).
  - repeat constructor. eexists. split; [reflexivity|]. by exists 2, 1, 2.
  - discriminate.
Qed.

(** The file as it was saved. *)
Definition demo_file : option (dict R) :=
  match build_adapter demo_hh (map peft (lora_items demo_mods)) with Ok d => Some d | Raise _ => None end.

Lemma adapter_roundtrip_witness :
  exists adapter params', build_adapter demo_hh (map peft (lora_items demo_mods)) = Ok adapter /\
    load_weights 0 1 demo_config (fun _ => Some adapter) demo_params = Ok params' /\
    params' !! (layer0 ++ L "hybrid_core.alpha") = Some (ones [1; 1; 1; 1]) /\
    params' !! (L "model.norm.weight") = Some (ones [2]).
Proof.
  destruct (adapter_roundtrip demo_config (L "adapter.safetensors") (fun _ => demo_file)
    demo_hh (map peft (lora_items demo_mods)) demo_mods demo_params demo_deployable
    (Permutation_refl _) eq_refl ltac:(discriminate)) as (adapter & Eb & Hl).
  assert (Ef : demo_file = Some adapter) by (unfold demo_file; by rewrite Eb).
  destruct (Hl adapter (Permutation_refl _) Ef) as (params' & E & Hn).
  exists adapter, params'. split; [exact Eb|]. split; [rewrite <- Ef; exact E|].
  split; rewrite Hn; reflexivity.
Defined.

Lemma lora_on_ranks_witness :
  exists u m, qkv_weight_loader (mkQKV 1 2 2) 0 2 (ones [6; 1]) = Ok u /\
    merge_param 0 2 (L "query_key_value.weight") (ones [6; 1]) u = Ok (Some m) /\
    forall a b, a < 3 -> b < 1 ->
      entry m a b = (entry (ones [6; 1]) (qkv_row (mkQKV 1 2 2) 0 2 1 1 a) b + entry (ones [6; 1]) (0 * 3 + a) b)%sc.
Proof.
  apply (lora_on_ranks (mkQKV 1 2 2) 0 2 1 1 1 1 1 (L "query_key_value.weight") (L "dense.weight")
    (ones [6; 1]) (ones [6; 1]) (ones [1; 2]) (ones [1; 2])); try (split; reflexivity); try reflexivity; simpl; lia.
Defined.

End Demo.
End AdProps.
