(* ===== verification/BaseLoad.v ===== *)
(** Loading of the base checkpoint into a served model: [load_weights] of
    [srt/models/llada2.py], the table of expert names and the weight loader of the
    fused experts ([srt/layers/moe/fused_moe_triton/layer.py]), the loader of merged
    projections ([srt/layers/linear.py]), of the embeddings
    ([srt/layers/vocab_parallel_embedding.py]) and the default one
    ([srt/model_loader/weight_utils.py]), for unquantised weights.

    Names, tensors and the loaders of the attention projections are those of
    [Adapter].  A parameter carries the loader that its layer attached to it. *)
From Stdlib Require Import String.
From Stdlib Require Import ZArith Ascii Lia.
From stdpp Require Import base list gmap strings.
From S2P Require Import Prelude Tensor Adapter.
Local Open Scope nat_scope.

Module BL.
Import Str Ad.

(** ** Decimal numbers in names *)

Definition digit (d : nat) : ascii := ascii_of_nat (48 + d).

Fixpoint digits (fuel n : nat) (acc : str) : str :=
  match fuel with
  | 0 => acc
  | S fuel => if n <? 10 then digit n :: acc else digits fuel (n / 10) (digit (n mod 10) :: acc)
  end.

(** [f"{n}"]. *)
Definition dec (n : nat) : str := digits (S n) n [].

Section Model.
Context {R : Type} `{ScalarOps R}.
Implicit Types (t w p : tensor R).

(** [Tensor.copy_] from another shape. *)
Variable expand : list nat -> tensor R -> res (tensor R).
(** [F.normalize(w, dim=0, p=2, eps=1e-7)]. *)
Variable normalize : tensor R -> tensor R.

(** ** Tensors *)

Definition narrow0 (start len : nat) t : res (tensor R) :=
  match shape t with
  | d :: _ => if start + len <=? d then slice0 start (start + len) t else Raise RuntimeError
  | [] => Raise RuntimeError
  end.

Definition narrow1 (start len : nat) t : res (tensor R) :=
  match shape t with
  | _ :: d :: _ => if start + len <=? d then slice1 start (start + len) t else Raise RuntimeError
  | _ => Raise IndexError
  end.

(** The entries that [view.copy_(w)] writes into a view of shape [target]. *)
Definition copy_source (target : list nat) w : res (list R) :=
  if bool_decide (shape w = target) then Ok (data w) else (let! w := expand target w in Ok (data w))%py.

(** A write to contiguous entries. *)
Definition put (off : nat) (v : list R) p : tensor R := mkT (shape p) (py_splice off v (data p)).

(** ** The loaders *)

Inductive shard : Type := W1 | W2 | W3.

Record fused_moe : Type := mkMoe {
  num_experts : nat;
  moe_ep_rank : nat;
  num_local_experts : nat;
  moe_tp_rank : nat;
}.

Inductive loader : Type :=
| Default
| Merged (output_sizes : list nat) (tp_rank tp_size : nat)
| Qkv (Q : qkv_linear) (tp_rank tp_size : nat)
| Row (tp_rank : nat)
| Vocab (org_vocab_size start_idx shard_size : nat)
| Experts (M : fused_moe).

Record param : Type := mkP { p_loader : loader; p_data : tensor R }.

Definition default_weight_loader w p : res (tensor R) :=
  if (numel (shape p) =? 1) && (numel (shape w) =? 1) then Ok (mkT (shape p) (data w))
  else if bool_decide (shape p = shape w) then Ok (mkT (shape p) (data w))
  else Raise AssertionError.

(** [pad_or_narrow_weight] along the rows. *)
Definition pad_or_narrow_weight (start_idx shard_size : nat) w : res (tensor R) :=
  match shape w with
  | d :: rest =>
    let valid_size := d - start_idx in
    if 0 <? valid_size then
      (let! s := narrow0 start_idx valid_size w in
       Ok (mkT (shard_size :: rest) (data s ++ replicate ((shard_size - valid_size) * numel rest) s0)))%py
    else Ok (mkT (shard_size :: rest) (replicate (shard_size * numel rest) s0))
  | [] => Raise IndexError
  end.

(** [MergedColumnParallelLinear.weight_loader] with a shard id. *)
Definition merged_shard (output_sizes : list nat) (tp_rank tp_size loaded_shard_id : nat) w p : res (tensor R) :=
  passert (loaded_shard_id <? length output_sizes)
  (let shard_offset := sum_list (take loaded_shard_id output_sizes) / tp_size in
   let shard_size := nth loaded_shard_id output_sizes 0 / tp_size in
   let start_idx := tp_rank * shard_size in
   (let! view := narrow0 shard_offset shard_size p in
    let! w := if nth 0 (shape w) 0 <? start_idx + shard_size then pad_or_narrow_weight start_idx shard_size w
              else narrow0 start_idx shard_size w in
    passert (bool_decide (shape view = shape w))
      (Ok (put (shard_offset * numel (tail (shape p))) (data w) p)))%py).

(** [param.copy_] of a tensor that is asserted to have its shape. *)
Definition copy_same w p : res (tensor R) :=
  passert (bool_decide (shape p = shape w)) (Ok (mkT (shape p) (data w))).

(** [RowParallelLinear.weight_loader]: the columns of this rank, padded with zeros
    where the weight has too few; a bias has no input dimension, and a scalar becomes a
    vector. *)
Definition row_loader (tp_rank : nat) w p : res (tensor R) :=
  match shape p with
  | [_; shard_size] =>
    let start_idx := tp_rank * shard_size in
    (let! w := match shape w with
               | [d0; d1] =>
                 if d1 <? start_idx + shard_size
                 then Ok (mk2 d0 shard_size (fun i j => if start_idx + j <? d1 then entry w i (start_idx + j) else s0))
                 else narrow1 start_idx shard_size w
               | _ :: _ :: _ => Raise AssertionError
               | _ => Raise IndexError
               end in
     copy_same w p)%py
  | _ => copy_same (match shape w with [] => mkT [1] (data w) | _ => w end) p
  end.

(** [MergedColumnParallelLinear.weight_loader] without a shard id: the weight is
    already merged. *)
Fixpoint merged_whole (output_sizes : list nat) (tp_rank tp_size : nat) (ids : list nat) w p : res (tensor R) :=
  match ids with
  | [] => Ok p
  | i :: ids =>
    (let! s := narrow0 (sum_list (take i output_sizes)) (nth i output_sizes 0) w in
     let! p := merged_shard output_sizes tp_rank tp_size i s p in
     merged_whole output_sizes tp_rank tp_size ids w p)%py
  end.

(** [VocabParallelEmbedding.weight_loader]. *)
Definition vocab_weight_loader (org_vocab_size start_idx shard_size : nat) w p : res (tensor R) :=
  passert (nth 0 (shape w) 0 =? org_vocab_size)
  (let! w := narrow0 start_idx shard_size w in
   let! v := copy_source (Nat.min shard_size (nth 0 (shape p) 0) :: tail (shape p)) w in
   Ok (mkT (shape p) (v ++ replicate (numel (shape p) - length v) s0)))%py.

(** ** [FusedMoE] *)

Definition _map_global_expert_id_to_local_expert_id (M : fused_moe) (expert_id : nat) : option nat :=
  let start_idx := moe_ep_rank M * num_local_experts M in
  let end_idx := (moe_ep_rank M + 1) * num_local_experts M in
  if (start_idx <=? expert_id) && (expert_id <? end_idx) then Some (expert_id - start_idx) else None.

(** Gate rows first, then the up rows. *)
Definition _load_w13 (M : fused_moe) (s : shard) (e : nat) w p : res (tensor R) :=
  match shape p with
  | [E; n; h] =>
    let shard_size := n / 2 in
    let start := match s with W3 => shard_size | _ => 0 end in
    (let! w := narrow0 (shard_size * moe_tp_rank M) shard_size w in
     let! v := copy_source [shard_size; h] w in
     Ok (put ((e * n + start) * h) v p))%py
  | _ => Raise IndexError
  end.

Definition _load_w2 (M : fused_moe) (e : nat) w p : res (tensor R) :=
  match shape p with
  | [E; h; i] =>
    (let! w := narrow1 (i * moe_tp_rank M) i w in
     let! v := copy_source [h; i] w in
     Ok (put (e * h * i) v p))%py
  | _ => Raise IndexError
  end.

Definition _load_model_weight (M : fused_moe) (s : shard) (e : nat) w p : res (tensor R) :=
  match s with W2 => _load_w2 M e w p | _ => _load_w13 M s e w p end.

(** [_weight_loader_impl] without quantisation: names of scales need a method that
    there is not. *)
Definition _weight_loader_impl (M : fused_moe) (weight_name : str) (s : shard) (e : nat) w p : res (tensor R) :=
  if nth 0 (shape p) 0 <=? e then Raise IndexError
  else if contains (L "input_scale") weight_name then Raise AttributeError
  else if contains (L "g_idx") weight_name then
    match s with
    | W2 => _load_w2 M e w p
    | _ => (let! v := copy_source (tail (shape p)) w in Ok (put (e * numel (tail (shape p))) v p))%py
    end
  else if contains (L "scale") weight_name || contains (L "zero") weight_name || contains (L "offset") weight_name
  then Raise ValueError
  else if contains (L "weight_shape") weight_name then
    (let! v := copy_source (tail (shape p)) w in Ok (put (e * numel (tail (shape p))) v p))%py
  else if contains (L "weight") weight_name then _load_model_weight M s e w p
  else if contains (L "bias") weight_name then Raise AttributeError
  else Ok p.

(** [FusedMoE.weight_loader] without relocated experts. *)
Definition experts_weight_loader (M : fused_moe) (weight_name : str) (s : shard) (expert_id : nat) w p
    : res (tensor R) :=
  match _map_global_expert_id_to_local_expert_id M expert_id with
  | None => Ok p
  | Some e => _weight_loader_impl M weight_name s e w p
  end.

(** (parameter, name in the checkpoint, expert, shard) *)
Definition make_expert_params_mapping (num_experts : nat) : list (str * str * nat * shard) :=
  concat (map (fun e =>
    [(L "experts.w13_", L "experts." ++ dec e ++ L ".gate_proj.", e, W1);
     (L "experts.w2_", L "experts." ++ dec e ++ L ".down_proj.", e, W2);
     (L "experts.w13_", L "experts." ++ dec e ++ L ".up_proj.", e, W3)]) (seq 0 num_experts)).

(** ** [LLaDA2MoeModelLM.load_weights] *)

Record config : Type := mkCfg { config_num_experts : nat; tie_word_embeddings : bool; norm_head : bool }.

Definition stacked_params_mapping : list (str * str * nat) :=
  [(L "gate_up_proj", L "gate_proj", 0); (L "gate_up_proj", L "up_proj", 1)].

#[local] Abbreviation params := (gmap str param).

Definition set_data (name : str) (p : param) (t : tensor R) (ps : params) : params :=
  <[name := mkP (p_loader p) t]> ps.

(** [weight_loader(param, loaded_weight, shard_id)]. *)
Definition call_shard (p : param) (i : nat) w : res (tensor R) :=
  match p_loader p with
  | Merged sizes r n => merged_shard sizes r n i w (p_data p)
  | Qkv _ _ _ => Raise AssertionError
  | Default => Raise AttributeError
  | _ => Raise TypeError
  end.

(** [weight_loader(param, loaded_weight, name, shard_id=..., expert_id=...)]. *)
Definition call_expert (p : param) (name : str) (s : shard) (e : nat) w : res (tensor R) :=
  match p_loader p with
  | Experts M => experts_weight_loader M name s e w (p_data p)
  | Default => Raise AttributeError
  | _ => Raise TypeError
  end.

(** [weight_loader(param, loaded_weight)]. *)
Definition call_plain (p : param) w : res (tensor R) :=
  match p_loader p with
  | Default => default_weight_loader w (p_data p)
  | Merged sizes r n => merged_whole sizes r n (seq 0 (length sizes)) w (p_data p)
  | Qkv Q r n => (let! t := qkv_weight_loader Q r n w in copy_same t (p_data p))%py
  | Row r => row_loader r w (p_data p)
  | Vocab v a b => vocab_weight_loader v a b w (p_data p)
  | Experts _ => Raise TypeError
  end.

(** The loop over the merged projections: [Some] when it was left by [break]; the
    name stays changed when it was not. *)
Fixpoint stacked_loop (mapping : list (str * str * nat)) (name : str) w (ps : params)
    : res (option params * str) :=
  match mapping with
  | [] => Ok (None, name)
  | (param_name, weight_name, shard_id) :: mapping =>
    if negb (contains weight_name name) then stacked_loop mapping name w ps
    else if contains (L "mlp.experts") name then stacked_loop mapping name w ps
    else
      let name := replace weight_name param_name name in
      match ps !! name with
      | None => stacked_loop mapping name w ps
      | Some p => (let! t := call_shard p shard_id w in Ok (Some (set_data name p t ps), name))%py
      end
  end.

Fixpoint expert_loop (mapping : list (str * str * nat * shard)) (name : str) w (ps : params)
    : res (option params * str) :=
  match mapping with
  | [] => Ok (None, name)
  | (param_name, weight_name, expert_id, shard_id) :: mapping =>
    if negb (contains weight_name name) then expert_loop mapping name w ps
    else
      let name := replace weight_name param_name name in
      match ps !! name with
      | None => expert_loop mapping name w ps
      | Some p => (let! t := call_expert p name shard_id expert_id w in Ok (Some (set_data name p t ps), name))%py
      end
  end.

Definition skipped (C : config) (name : str) : bool :=
  contains (L "v_head") name || contains (L "inv_freq") name ||
  (tie_word_embeddings C && contains (L "lm_head") name).

(** One tensor of the checkpoint. *)
Definition load_one (C : config) (item : str * tensor R) (ps : params) : res params :=
  let '(name, w) := item in
  if skipped C name then Ok ps
  else
    let w := if norm_head C && contains (L "lm_head.weight") name then normalize w else w in
    (let! '(done1, name) := stacked_loop stacked_params_mapping name w ps in
     match done1 with
     | Some ps => Ok ps
     | None =>
       let! '(done2, name) := expert_loop (make_expert_params_mapping (config_num_experts C)) name w ps in
       match done2 with
       | Some ps => Ok ps
       | None =>
         match ps !! name with
         | None => Ok ps
         | Some p => let! t := call_plain p w in Ok (set_data name p t ps)
         end
       end
     end)%py.

Fixpoint load_weights (C : config) (weights : dict R) (ps : params) : res params :=
  match weights with
  | [] => Ok ps
  | item :: weights => (let! ps := load_one C item ps in load_weights C weights ps)%py
  end.

End Model.
Arguments param : clear implicits.

End BL.
