(* ===== verification/BaseNames.v ===== *)
(** Substrings and the names of a checkpoint: which of the name tables of [BaseLoad]
    applies to the weights of a model, and what the names become. *)
From Stdlib Require Import String.
From Stdlib Require Import ZArith Ascii Lia.
From stdpp Require Import base list gmap strings.
From S2P Require Import Prelude Tensor Adapter BaseLoad.
Local Open Scope nat_scope.

Module BN.
Import Str Ad BL.
(** A decidable fact about concrete text. *)
Ltac by_compute := apply (bool_decide_unpack _); vm_compute; exact Logic.I.

Implicit Types (a b old new sub : str) (c : ascii).

(** ** Occurrences *)

Lemma startswith_spec sub s : startswith sub s = true <-> exists b, s = sub ++ b.
Proof.
  unfold startswith. rewrite bool_decide_eq_true. split.
  - intros E. exists (drop (length sub) s). by rewrite <- E at 1; rewrite take_drop.
  - intros [b ->]. apply take_app_length.
Qed.

Lemma contains_spec sub s : contains sub s = true <-> exists a b, s = a ++ sub ++ b.
Proof.
  revert sub. induction s as [|x s IH]; intros sub; cbn [contains].
  - rewrite orb_false_r, startswith_spec. split; [intros [b E]; by exists [], b|].
    intros (a & b & E). destruct a; [by exists b|done].
  - rewrite orb_true_iff, startswith_spec, IH. split.
    + intros [[b E]|(a & b & ->)]; [by exists [], b|by exists (x :: a), b].
    + intros (a & b & E). destruct a as [|y a]; [left; by exists b|right]. injection E as -> ->. by exists a, b.
Qed.

Lemma contains_absent sub s c : c ∈ sub -> c ∉ s -> contains sub s = false.
Proof.
  intros Hc Hs. destruct (contains sub s) eqn:E; [|done]. apply contains_spec in E as (a & b & ->).
  exfalso. apply Hs. apply elem_of_app. right. apply elem_of_app. by left.
Qed.

(** A character that occurs once fixes the place. *)
Lemma occurrence_at sub a1 a2 b1 b2 c j s : sub !! j = Some c ->
  c ∉ a1 ++ take j sub -> c ∉ drop (S j) sub ++ b1 ->
  s = a1 ++ sub ++ b1 -> forall sub', sub' !! j = Some c -> s = a2 ++ sub' ++ b2 -> a1 = a2.
Proof.
  intros Hj Ha Hb -> sub' Hj' E.
  assert (Hs : sub = take j sub ++ c :: drop (S j) sub) by (symmetry; by apply take_drop_middle).
  assert (Hs' : sub' = take j sub' ++ c :: drop (S j) sub') by (symmetry; by apply take_drop_middle).
  pose proof (lookup_lt_Some _ _ _ Hj) as Hl. pose proof (lookup_lt_Some _ _ _ Hj') as Hl'.
  assert (Ep : (a1 ++ sub ++ b1) !! (length a2 + j) = Some c).
  { rewrite E, lookup_app_r, Nat.add_sub_swap, Nat.sub_diag by lia. simpl. by rewrite lookup_app_l. }
  assert (Epos : length a2 + j = length a1 + j).
  { rewrite Hs, <- app_assoc in Ep. rewrite app_assoc in Ep. cbn [app] in Ep.
    destruct (Nat.lt_trichotomy (length a2 + j) (length a1 + j)) as [Hlt|[?|Hgt]]; [|done|].
    - rewrite lookup_app_l in Ep by (rewrite length_app, length_take; lia).
      exfalso. apply Ha. by eapply list_elem_of_lookup_2.
    - rewrite lookup_app_r in Ep by (rewrite length_app, length_take; lia).
      rewrite length_app, length_take, Nat.min_l in Ep by lia.
      destruct (length a2 + j - (length a1 + j)) as [|k] eqn:Ek; [lia|]. simpl in Ep.
      exfalso. apply Hb. by eapply list_elem_of_lookup_2. }
  assert (El : length a1 = length a2) by lia. clear -E El.
  apply (f_equal (take (length a1))) in E. rewrite take_app_length in E. rewrite E, El. by rewrite take_app_length.
Qed.

(** ** Replacement *)

Lemma replace_skip x b k old new : length x = k -> replace_from k old new (x ++ b) = replace_from 0 old new b.
Proof.
  revert x. induction k as [|k IH]; intros [|y x] E; try done. cbn [app replace_from]. apply IH. by injection E.
Qed.

Lemma replace_none old new s : contains old s = false -> replace_from 0 old new s = s.
Proof.
  induction s as [|y s IH]; [done|]. cbn [contains replace_from]. intros [E1 E2]%orb_false_iff.
  rewrite E1. by rewrite IH.
Qed.

(** One occurrence, at [a]. *)
Lemma replace_once a old new b : old <> [] -> contains old b = false ->
  (forall a' b', a ++ old ++ b = a' ++ old ++ b' -> a = a') ->
  replace old new (a ++ old ++ b) = a ++ new ++ b.
Proof.
  intros Ho Hb. unfold replace. induction a as [|y a IH]; intros Hu.
  - cbn [app]. destruct old as [|o old]; [done|].
    change ((o :: old) ++ b) with (o :: (old ++ b)). cbn [replace_from].
    change (o :: (old ++ b)) with ((o :: old) ++ b). rewrite startswith_app. f_equal.
    cbn [length]. rewrite Nat.sub_succ, Nat.sub_0_r, replace_skip by done. by apply replace_none.
  - cbn [app replace_from]. destruct (startswith old (y :: a ++ old ++ b)) eqn:E.
    { apply startswith_spec in E as [b' E]. by specialize (Hu [] b' E). }
    f_equal. apply IH. intros a' b' E'. specialize (Hu (y :: a') b'). cbn [app] in Hu. rewrite E' in Hu.
    by injection (Hu eq_refl).
Qed.

(** ** Decimal numbers *)

Definition is_digit (c : ascii) : Prop := 48 <= nat_of_ascii c < 58.

Definition value (s : str) : nat := foldl (fun n c => n * 10 + (nat_of_ascii c - 48)) 0 s.

Lemma digit_spec d : d < 10 -> is_digit (digit d) /\ nat_of_ascii (digit d) - 48 = d.
Proof. intros Hd. unfold is_digit, digit. rewrite nat_ascii_embedding by lia. lia. Qed.

Lemma digits_spec fuel n acc : n < fuel ->
  exists ds, digits fuel n acc = ds ++ acc /\ Forall is_digit ds /\ value ds = n /\ ds <> [].
Proof.
  revert n acc. induction fuel as [|fuel IH]; intros n acc Hn; [lia|]. cbn [digits].
  destruct (Nat.ltb_spec n 10) as [Hlt|Hge].
  - exists [digit n]. destruct (digit_spec n Hlt) as [Hd Hv]. split; [done|]. split; [by constructor|].
    split; [|done]. unfold value. cbn [foldl]. lia.
  - assert (Hq : n / 10 < fuel) by (pose proof (Nat.div_lt n 10); lia).
    destruct (IH (n / 10) (digit (n mod 10) :: acc) Hq) as (ds & E & Hd & Hv & Hne).
    pose proof (Nat.mod_upper_bound n 10 ltac:(lia)) as Hm. destruct (digit_spec _ Hm) as [Hd' Hv'].
    exists (ds ++ [digit (n mod 10)]). split; [rewrite E, <- app_assoc; done|].
    split; [apply Forall_app; split; [done|by constructor]|].
    split; [|by destruct ds]. unfold value in *. rewrite foldl_app, Hv. cbn [foldl]. rewrite Hv'.
    pose proof (Nat.div_mod_eq n 10). lia.
Qed.

Lemma dec_spec n : Forall is_digit (dec n) /\ value (dec n) = n.
Proof.
  unfold dec. destruct (digits_spec (S n) n []) as (ds & -> & H1 & H2 & _); [lia|]. by rewrite app_nil_r.
Qed.

Lemma dec_inj n n' : dec n = dec n' -> n = n'.
Proof. intros E. destruct (dec_spec n) as [_ <-], (dec_spec n') as [_ <-]. by rewrite E. Qed.

Lemma dec_absent n c : ~ is_digit c -> c ∉ dec n.
Proof. intros Hc Hin. destruct (dec_spec n) as [Hd _]. rewrite Forall_forall in Hd. by apply Hc, Hd. Qed.

(** Text up to a separator. *)
Lemma split_at c a a' b b' : c ∉ a -> c ∉ a' -> a ++ c :: b = a' ++ c :: b' -> a = a' /\ b = b'.
Proof.
  revert a'. induction a as [|y a IH]; intros [|y' a'] Ha Ha' E.
  - by injection E as ->.
  - injection E as -> _. exfalso. apply Ha'. by left.
  - injection E as -> _. exfalso. apply Ha. by left.
  - injection E as -> E. apply not_elem_of_cons in Ha as [_ Ha]. apply not_elem_of_cons in Ha' as [_ Ha'].
    destruct (IH a' Ha Ha' E) as [-> ->]. done.
Qed.

(** ** The names of the experts *)

(** A character that does not occur in a text with numbers in it. *)
Ltac absent :=
  repeat (apply not_elem_of_app; split);
  first [ assumption
        | apply dec_absent; unfold is_digit; vm_compute; lia
        | by_compute ].

Definition proj_name (s : shard) : str :=
  match s with W1 => L "gate_proj" | W2 => L "down_proj" | W3 => L "up_proj" end.

Definition pattern (e : nat) (s : shard) : str := L "experts." ++ dec e ++ L "." ++ proj_name s ++ L ".".

Definition target (s : shard) : str := match s with W2 => L "experts.w2_" | _ => L "experts.w13_" end.

(** [m] is the layer, as in [model.layers.7.]. *)
Definition expert_name (m : str) (e : nat) (s : shard) : str := m ++ L "mlp." ++ pattern e s ++ L "weight".

Definition expert_param (m : str) (s : shard) : str := m ++ L "mlp." ++ target s ++ L "weight".

Lemma proj_absent s : "."%char ∉ proj_name s.
Proof. destruct s; absent. Qed.

Lemma pattern_tail e s b e' s' b' : pattern e s ++ b = pattern e' s' ++ b' -> e = e' /\ s = s' /\ b = b'.
Proof.
  unfold pattern. rewrite <- !app_assoc. intros E%app_inv_head.
  change (L "." ++ ?x) with ("."%char :: x) in E.
  apply split_at in E as [Ed E]; [|absent|absent]. apply dec_inj in Ed.
  change (L "." ++ ?x) with ("."%char :: x) in E.
  apply split_at in E as [Es ->]; [|apply proj_absent|apply proj_absent].
  split; [done|]. split; [|done]. by destruct s, s'.
Qed.

Lemma expert_occurrence m e s e' s' a b : "x"%char ∉ m -> expert_name m e s = a ++ pattern e' s' ++ b ->
  m ++ L "mlp." = a /\ e = e' /\ s = s' /\ b = L "weight".
Proof.
  intros Hm E. unfold expert_name in E. rewrite app_assoc in E.
  assert (Ea : m ++ L "mlp." = a).
  { eapply (occurrence_at (pattern e s) _ _ (L "weight") b "x"%char 1); [done| | |reflexivity| |exact E]; [| |done].
    - absent.
    - change (drop 2 (pattern e s)) with (L "perts." ++ dec e ++ L "." ++ proj_name s ++ L ".").
      destruct s; absent. }
  rewrite <- Ea in E. apply app_inv_head in E. apply pattern_tail in E as (-> & -> & <-). done.
Qed.

(** Only the entry of its expert and projection applies to the name of an expert. *)
Lemma pattern_in m e s e' s' : "x"%char ∉ m ->
  contains (pattern e' s') (expert_name m e s) = true -> e = e' /\ s = s'.
Proof. intros Hm (a & b & E)%contains_spec. by apply expert_occurrence in E as (_ & -> & -> & _). Qed.

Lemma pattern_own m e s : contains (pattern e s) (expert_name m e s) = true.
Proof. apply contains_spec. exists (m ++ L "mlp."), (L "weight"). unfold expert_name. by rewrite app_assoc. Qed.

Lemma expert_replace m e s : "x"%char ∉ m -> replace (pattern e s) (target s) (expert_name m e s) = expert_param m s.
Proof.
  intros Hm. unfold expert_name, expert_param. rewrite !(app_assoc m). apply replace_once; [done| |].
  - apply (contains_absent _ _ "x"%char); [apply elem_of_app; left|]; by_compute.
  - intros a' b' E. rewrite <- app_assoc in E. by apply (expert_occurrence m e s e s a' b') in E as [-> _].
Qed.

Lemma in_experts m e s : contains (L "mlp.experts") (expert_name m e s) = true.
Proof.
  apply contains_spec. exists m, (L "." ++ dec e ++ L "." ++ proj_name s ++ L "." ++ L "weight").
  unfold expert_name, pattern. rewrite <- !app_assoc. done.
Qed.

(** The table has the entry of every expert and projection, and nothing else. *)
Lemma mapping_entries n x : x ∈ make_expert_params_mapping n <->
  exists e s, e < n /\ x = (target s, pattern e s, e, s).
Proof.
  unfold make_expert_params_mapping. rewrite list_elem_of_In, in_concat. setoid_rewrite in_map_iff. split.
  - intros (l & (e & <- & He%in_seq) & Hin). exists e. destruct Hin as [<-|[<-|[<-|[]]]];
      [exists W1|exists W2|exists W3]; (split; [lia|reflexivity]).
  - intros (e & s & He & ->). eexists. split; [exists e; split; [reflexivity|apply in_seq; lia]|].
    destruct s; simpl; auto.
Qed.

(** ** Merged and plain names *)

(** A projection behind [m], which ends in a dot. *)
Definition proj_weight (m : str) (s : shard) : str := m ++ proj_name s ++ L ".weight".

Definition merged_name (m : str) : str := m ++ L "gate_up_proj" ++ L ".weight".

(** The word in front of [_proj], whose [j] occurs once. *)
Lemma proj_occurrence m w w' a b : "j"%char ∉ m -> "j"%char ∉ w ->
  m ++ (w ++ L "_proj") ++ L ".weight" = a ++ (w' ++ L "_proj") ++ b -> m ++ w = a ++ w' /\ b = L ".weight".
Proof.
  intros Hm Hw E. rewrite <- !app_assoc in E. rewrite !(app_assoc m), !(app_assoc a) in E.
  assert (Ea : m ++ w = a ++ w').
  { eapply (occurrence_at (L "_proj") _ _ (L ".weight") b "j"%char 4); [done| | |reflexivity| |exact E]; [| |done].
    - absent.
    - by_compute. }
  split; [done|]. rewrite <- Ea in E. apply app_inv_head in E. by apply app_inv_head in E.
Qed.

(** The name holds a projection only if the words end alike. *)
Lemma proj_contains m w w' x y : "j"%char ∉ m -> "j"%char ∉ w -> last w = Some x -> last w' = Some y ->
  contains (w' ++ L "_proj") (m ++ (w ++ L "_proj") ++ L ".weight") = true -> x = y.
Proof.
  intros Hm Hw Hx Hy (a & b & E)%contains_spec. apply proj_occurrence in E as [E _]; [|done|done].
  apply (f_equal last) in E. rewrite !last_app, Hx, Hy in E. by injection E.
Qed.

Lemma proj_own m w : contains (w ++ L "_proj") (m ++ (w ++ L "_proj") ++ L ".weight") = true.
Proof. apply contains_spec. by exists m, (L ".weight"). Qed.

Lemma proj_replace m w new : "j"%char ∉ m -> "j"%char ∉ w ->
  replace (w ++ L "_proj") new (m ++ (w ++ L "_proj") ++ L ".weight") = m ++ new ++ L ".weight".
Proof.
  intros Hm Hw. apply replace_once; [by destruct w| |].
  - apply (contains_absent _ _ "j"%char); [apply elem_of_app; right|]; by_compute.
  - intros a' b' E. apply proj_occurrence in E as [E _]; [|done|done]. by apply app_inv_tail in E.
Qed.

Section Load.
Context {R : Type} `{ScalarOps R}.
Variables (expand : list nat -> tensor R -> res (tensor R)) (normalize : tensor R -> tensor R) (C : config).
#[local] Abbreviation load := (load_one expand normalize C).
Implicit Types (w : tensor R) (ps : gmap str (param R)) (p : param R).

(** The head is a weight of its own and loaded as it is. *)
Hypotheses (untied : tie_word_embeddings C = false) (raw_head : norm_head C = false).

Lemma skipped_no name : "v"%char ∉ name -> skipped C name = false.
Proof using untied.
  intros Hv. unfold skipped. rewrite untied. cbn [andb]. rewrite orb_false_r.
  apply orb_false_iff. split; apply (contains_absent _ _ "v"%char); try done; by_compute.
Qed.

Lemma expert_loop_hit mapping m e s w ps p : "x"%char ∉ m ->
  (forall x, x ∈ mapping -> exists e' s', x = (target s', pattern e' s', e', s')) ->
  (target s, pattern e s, e, s) ∈ mapping -> ps !! expert_param m s = Some p ->
  expert_loop expand mapping (expert_name m e s) w ps =
  (let! t := call_expert expand p (expert_param m s) s e w in
   Ok (Some (set_data (expert_param m s) p t ps), expert_param m s))%py.
Proof.
  intros Hm Hall Hin Hp. induction mapping as [|x mapping IH]; [by apply not_elem_of_nil in Hin|].
  destruct (Hall x ltac:(by left)) as (e' & s' & ->). cbn [expert_loop].
  destruct (contains (pattern e' s') (expert_name m e s)) eqn:Ec; cbn [negb].
  - apply pattern_in in Ec as [-> ->]; [|done]. rewrite expert_replace by done. by rewrite Hp.
  - apply IH; [intros x Hx; apply Hall; by right|]. apply elem_of_cons in Hin as [Hx|Hin]; [|done].
    injection Hx as _ _ -> ->. by rewrite pattern_own in Ec.
Qed.

(** An expert's weight goes to the stacked parameter of its layer. *)
Lemma load_expert m e s w ps p : "x"%char ∉ m -> "v"%char ∉ m -> e < config_num_experts C ->
  ps !! expert_param m s = Some p ->
  load (expert_name m e s, w) ps =
  (let! t := call_expert expand p (expert_param m s) s e w in Ok (set_data (expert_param m s) p t ps))%py.
Proof using untied raw_head.
  intros Hx Hv He Hp. cbn [load_one].
  rewrite skipped_no by (unfold expert_name, pattern; destruct s; absent). rewrite raw_head. cbn [andb].
  assert (Es : stacked_loop stacked_params_mapping (expert_name m e s) w ps = Ok (None, expert_name m e s)).
  { cbn [stacked_loop stacked_params_mapping]. rewrite in_experts.
    by destruct (negb (contains (L "gate_proj") _)), (negb (contains (L "up_proj") _)). }
  rewrite Es. cbn [rbind]. rewrite (expert_loop_hit _ m e s w ps p); [|done| | |done].
  - by destruct (call_expert _ _ _ _ _ _).
  - intros x (e' & s' & _ & ->)%mapping_entries. by exists e', s'.
  - apply mapping_entries. by exists e, s.
Qed.

(** A gate or up projection goes to its half of the merged one. *)
Lemma load_merged m s w ps p : s <> W2 -> "j"%char ∉ m -> "v"%char ∉ m ->
  contains (L "mlp.experts") (proj_weight m s) = false -> ps !! merged_name m = Some p ->
  load (proj_weight m s, w) ps =
  (let! t := call_shard p (match s with W1 => 0 | _ => 1 end) w in Ok (set_data (merged_name m) p t ps))%py.
Proof using untied raw_head.
  intros Hs Hj Hv He Hp. cbn [load_one].
  rewrite skipped_no by (unfold proj_weight; destruct s; absent). rewrite raw_head. cbn [andb].
  assert (Hr : forall new (w0 : str), "j"%char ∉ w0 -> proj_weight m s = m ++ (w0 ++ L "_proj") ++ L ".weight" ->
    contains (w0 ++ L "_proj") (proj_weight m s) = true /\ replace (w0 ++ L "_proj") new (proj_weight m s) = m ++ new ++ L ".weight").
  { intros new w0 Hw ->. split; [apply proj_own|by apply proj_replace]. }
  destruct s; [| by destruct Hs |].
  - destruct (Hr (L "gate_up_proj") (L "gate")) as [E1 E2]; [absent|done|].
    cbn [stacked_loop stacked_params_mapping]. change (L "gate_proj") with (L "gate" ++ L "_proj").
    rewrite E1, He, E2. cbn [negb]. change (m ++ L "gate_up_proj" ++ L ".weight") with (merged_name m). rewrite Hp.
    by destruct (call_shard _ _ _).
  - destruct (Hr (L "gate_up_proj") (L "up")) as [E1 E2]; [absent|done|].
    assert (E0 : contains (L "gate_proj") (proj_weight m W3) = false).
    { destruct (contains (L "gate_proj") (proj_weight m W3)) eqn:E; [|done].
      by apply (proj_contains m (L "up") (L "gate") "p"%char "e"%char) in E; [|done|absent|done|done]. }
    cbn [stacked_loop stacked_params_mapping]. rewrite E0. cbn [negb]. change (L "up_proj") with (L "up" ++ L "_proj").
    rewrite E1, He, E2. cbn [negb]. change (m ++ L "gate_up_proj" ++ L ".weight") with (merged_name m). rewrite Hp.
    by destruct (call_shard _ _ _).
Qed.

(** No table applies to the name. *)
Definition plain (name : str) : Prop :=
  skipped C name = false /\ contains (L "gate_proj") name = false /\ contains (L "up_proj") name = false /\
  forall e s, contains (pattern e s) name = false.

Lemma load_plain name w ps p : plain name -> ps !! name = Some p ->
  load (name, w) ps = (let! t := call_plain expand p w in Ok (set_data name p t ps))%py.
Proof using raw_head.
  intros (Hs & Hg & Hu & He) Hp. cbn [load_one]. rewrite Hs, raw_head. cbn [andb stacked_loop stacked_params_mapping].
  rewrite Hg, Hu. cbn [negb rbind].
  assert (El : forall mapping, (forall x, x ∈ mapping -> exists e' s', x = (target s', pattern e' s', e', s')) ->
    expert_loop expand mapping name w ps = Ok (None, name)).
  { induction mapping as [|x mapping IH]; intros Hall; [done|]. destruct (Hall x ltac:(by left)) as (e & s & ->).
    cbn [expert_loop]. rewrite He. cbn [negb]. apply IH. intros x Hx. apply Hall. by right. }
  rewrite El by (intros x (e & s & _ & ->)%mapping_entries; by exists e, s). cbn [rbind]. by rewrite Hp.
Qed.

(** Names of this kind: a down projection, and whatever has no [j] and no [x]. *)
Lemma plain_down m : "j"%char ∉ m -> "v"%char ∉ m -> (forall e s, contains (pattern e s) (proj_weight m W2) = false) ->
  plain (proj_weight m W2).
Proof using untied.
  intros Hj Hv He. split; [apply skipped_no; unfold proj_weight; absent|].
  assert (Hn : forall (w' : str) y, last w' = Some y -> y <> "n"%char -> contains (w' ++ L "_proj") (proj_weight m W2) = false).
  { intros w' y Hy Hne. destruct (contains (w' ++ L "_proj") (proj_weight m W2)) eqn:E; [|done].
    apply (proj_contains m (L "down") w' "n"%char y) in E; [by symmetry in E|done|absent|done|done]. }
  split; [by apply (Hn (L "gate") "e"%char)|]. split; [by apply (Hn (L "up") "p"%char)|done].
Qed.

Lemma plain_other name : "j"%char ∉ name -> "x"%char ∉ name -> "v"%char ∉ name -> plain name.
Proof using untied.
  intros Hj Hx Hv. split; [by apply skipped_no|].
  split; [apply (contains_absent _ _ "j"%char); [by_compute|done]|].
  split; [apply (contains_absent _ _ "j"%char); [by_compute|done]|].
  intros e s. apply (contains_absent _ _ "x"%char); [|done]. unfold pattern. apply elem_of_app. left.
  by_compute.
Qed.

End Load.

End BN.
