(* ===== verification/BasePlaces.v ===== *)
(** Loading a checkpoint as writes to disjoint places: an item that only fills a
    range of one parameter has a place; when the places of the items do not overlap,
    loading succeeds in any order and every place holds its item afterwards. *)
From Stdlib Require Import String.
From Stdlib Require Import ZArith Ascii Lia.
From stdpp Require Import base list gmap strings.
From S2P Require Import Prelude Tensor Adapter AdapterProps BaseLoad BaseNames.
Local Open Scope nat_scope.

Module BP.
Import Str Ad BL BN AdProps.

Section Places.
Context {R : Type} `{ScalarOps R}.
Variables (expand : list nat -> tensor R -> res (tensor R)) (normalize : tensor R -> tensor R) (C : config).
#[local] Abbreviation load := (load_one expand normalize C).
#[local] Abbreviation load_all := (load_weights expand normalize C).
Implicit Types (t w u : tensor R) (ps : gmap str (param R)) (p : param R) (it : str * tensor R).

(** A range of a parameter and its entries. *)
Record place : Type := mkPl { pl_param : str; pl_off : nat; pl_data : list R }.

#[local] Abbreviation stop pl := (pl_off pl + length (pl_data pl)).

(** What loading never changes. *)
Definition skel p : loader * list nat * nat := (p_loader p, shape (p_data p), length (data (p_data p))).

Definition same_skel ps ps' : Prop := forall n, skel <$> ps' !! n = skel <$> ps !! n.

Definition put_at (pl : place) ps : gmap str (param R) :=
  match ps !! pl_param pl with
  | Some p => set_data (pl_param pl) p (put (pl_off pl) (pl_data pl) (p_data p)) ps
  | None => ps
  end.

Definition placed ps it (pl : place) : Prop :=
  (exists p, ps !! pl_param pl = Some p /\ stop pl <= length (data (p_data p))) /\
  forall ps', same_skel ps ps' -> load it ps' = Ok (put_at pl ps').

Definition disjoint (pl pl' : place) : Prop :=
  pl_param pl <> pl_param pl' \/ stop pl <= pl_off pl' \/ stop pl' <= pl_off pl.

(** The place holds its entries. *)
Definition holds ps (pl : place) : Prop := exists p, ps !! pl_param pl = Some p /\
  stop pl <= length (data (p_data p)) /\ py_slice (pl_off pl) (stop pl) (data (p_data p)) = pl_data pl.

Lemma same_skel_lookup ps ps' n p : same_skel ps ps' -> ps !! n = Some p ->
  exists p', ps' !! n = Some p' /\ p_loader p' = p_loader p /\ shape (p_data p') = shape (p_data p) /\
    length (data (p_data p')) = length (data (p_data p)).
Proof.
  intros Hs Hn. specialize (Hs n). rewrite Hn in Hs. destruct (ps' !! n) as [p'|]; [|done].
  injection Hs as E1 E2 E3. by exists p'.
Qed.

Lemma put_at_skel ps pl p : ps !! pl_param pl = Some p -> stop pl <= length (data (p_data p)) -> same_skel ps (put_at pl ps).
Proof.
  intros Hp Hb n. unfold put_at. rewrite Hp. unfold set_data. destruct (decide (n = pl_param pl)) as [->|Hne].
  - rewrite lookup_insert_eq, Hp. simpl. unfold skel, put. simpl. by rewrite length_py_splice.
  - by rewrite lookup_insert_ne.
Qed.

Lemma put_at_holds ps pl p : ps !! pl_param pl = Some p -> stop pl <= length (data (p_data p)) -> holds (put_at pl ps) pl.
Proof.
  intros Hp Hb. unfold put_at, holds. rewrite Hp. unfold set_data. rewrite lookup_insert_eq. eexists. split; [done|].
  cbn [p_data put data]. rewrite length_py_splice by done. split; [done|]. by apply py_slice_splice_same.
Qed.

Lemma put_at_keeps ps pl pl' : disjoint pl' pl -> (exists p, ps !! pl_param pl = Some p /\ stop pl <= length (data (p_data p))) ->
  holds ps pl' -> holds (put_at pl ps) pl'.
Proof.
  intros Hd (p & Hp & Hb) (p' & Hp' & Hb' & Hs). unfold put_at, holds. rewrite Hp. unfold set_data.
  destruct (decide (pl_param pl' = pl_param pl)) as [E|Hne].
  - rewrite E, lookup_insert_eq. rewrite E, Hp in Hp'. injection Hp' as <-. eexists. split; [done|].
    cbn [p_data put data]. rewrite length_py_splice by done. split; [done|].
    rewrite py_slice_splice_other; [done|done|]. destruct Hd as [?|[?|?]]; [done|by left|by right].
  - rewrite lookup_insert_ne by done. by exists p'.
Qed.

Lemma placed_skel ps ps' it pl : same_skel ps ps' -> placed ps it pl -> placed ps' it pl.
Proof.
  intros Hs [(p & Hp & Hb) Hl]. destruct (same_skel_lookup _ _ _ _ Hs Hp) as (p' & Hp' & _ & _ & El). split.
  - exists p'. split; [done|]. by rewrite El.
  - intros ps'' Hs'. apply Hl. intros n. by rewrite Hs', Hs.
Qed.

(** Items with disjoint places load in any order. *)
Lemma load_places (where_ : str * tensor R -> place -> Prop) ck ps :
  (forall it, it ∈ ck -> exists pl, where_ it pl /\ placed ps it pl) ->
  (forall it it' pl pl', it ∈ ck -> it' ∈ ck -> fst it <> fst it' -> where_ it pl -> where_ it' pl' -> disjoint pl pl') ->
  (forall it pl pl', it ∈ ck -> where_ it pl -> where_ it pl' -> pl = pl') ->
  NoDup (map fst ck) ->
  exists ps', load_all ck ps = Ok ps' /\ same_skel ps ps' /\
    (forall it pl, it ∈ ck -> where_ it pl -> holds ps' pl) /\
    (forall pl0, (forall it pl, it ∈ ck -> where_ it pl -> disjoint pl0 pl) -> holds ps pl0 -> holds ps' pl0).
Proof.
  revert ps. induction ck as [|it ck IH]; intros ps Hw Hd Hu Hn.
  { exists ps. split; [done|]. split; [done|]. split; [by intros it pl ?%not_elem_of_nil|done]. }
  cbn [map] in Hn. apply NoDup_cons in Hn as [Hni Hn]. destruct (Hw it ltac:(by left)) as (pl & Hpl & Hp).
  pose proof Hp as [(p & Hlk & Hb) Hl]. cbn [load_weights]. rewrite (Hl ps) by done. cbn [rbind].
  pose proof (put_at_skel ps pl p Hlk Hb) as Hs1.
  assert (Hne : forall it', it' ∈ ck -> fst it <> fst it').
  { intros it' Hin E. apply Hni. rewrite E. apply list_elem_of_fmap. by exists it'. }
  destruct (IH (put_at pl ps)) as (ps' & E & Hs & Hh & Hk).
  { intros it' Hin. destruct (Hw it' ltac:(by right)) as (pl' & ? & Hp'). exists pl'. split; [done|]. by eapply placed_skel. }
  { intros it1 it2 pl1 pl2 H1 H2. apply Hd; by right. }
  { intros it1 pl1 pl2 H1. apply Hu. by right. }
  { done. }
  exists ps'. split; [done|]. split; [intros n; by rewrite Hs, Hs1|]. split.
  - intros it' pl' [->|Hin]%elem_of_cons Hpl'; [|by apply (Hh it')].
    rewrite (Hu it pl' pl) by (done || by left). apply Hk; [|by apply (put_at_holds ps pl p)].
    intros it' pl'' Hin Hpl''. apply (Hd it it'); [by left|by right|by apply Hne|done|done].
  - intros pl0 Hd0 Hh0. apply Hk; [intros it' pl' Hin; apply Hd0; by right|].
    apply put_at_keeps; [apply (Hd0 it); [by left|done]|by exists p|done].
Qed.

End Places.
Arguments place : clear implicits.

End BP.
