(* ===== verification/BaseLayer.v ===== *)
(** One sparse layer out of a checkpoint: where [load_weights] puts the experts, the
    shared experts and the gate on a rank of an expert- and tensor-parallel server,
    and what the parameters hold afterwards. *)
From Stdlib Require Import String.
From Stdlib Require Import ZArith Ascii Lia.
From stdpp Require Import base list gmap strings.
From S2P Require Import Prelude Tensor Adapter AdapterProps BaseLoad BaseNames BasePlaces.
Local Open Scope nat_scope.

Module BY.
Import Str Ad BL BN BP AdProps.

(** ** Names of a layer *)

Inductive kind : Type :=
| KExpert (e : nat) (s : shard)
| KShared (s : shard)
| KRouter
| KBias.

Definition layer (l : nat) : str := L "model.layers." ++ dec l ++ L ".".
Definition shared_of (l : nat) : str := layer l ++ L "mlp.shared_experts.".
Definition router_name (l : nat) : str := layer l ++ L "mlp.gate.weight".
Definition bias_name (l : nat) : str := layer l ++ L "mlp.gate.expert_bias".

Definition kname (l : nat) (k : kind) : str :=
  match k with
  | KExpert e s => expert_name (layer l) e s
  | KShared s => proj_weight (shared_of l) s
  | KRouter => router_name l
  | KBias => bias_name l
  end.

Lemma layer_absent l c : c ∉ L "model.layers." -> ~ is_digit c -> c <> "."%char -> c ∉ layer l.
Proof.
  intros H1 H2 H3. unfold layer. apply not_elem_of_app. split; [done|]. apply not_elem_of_app. split; [by apply dec_absent|].
  by intros ->%list_elem_of_singleton.
Qed.

Ltac layer_free :=
  first [apply layer_absent; [by_compute|unfold is_digit; vm_compute; lia|discriminate]].

(** Different tensors have different names. *)
Lemma kname_inj l k k' : kname l k = kname l k' -> k = k'.
Proof.
  destruct k as [e s|s| |], k' as [e' s'|s'| |]; intros E; try done.
  { cbn [kname] in E. assert (Ec : contains (pattern e' s') (expert_name (layer l) e s) = true) by (rewrite E; apply pattern_own).
    apply pattern_in in Ec as [-> ->]; [done|layer_free]. }
  all: cbn [kname] in E; unfold expert_name, pattern, proj_weight, shared_of, router_name, bias_name in E;
    rewrite <- ?app_assoc in E; apply app_inv_head in E; try discriminate.
  by destruct s, s'.
Qed.

(** [mlp.experts] is not in the names of the shared experts. *)
Lemma shared_not_routed l s : contains (L "mlp.experts") (proj_weight (shared_of l) s) = false.
Proof.
  destruct (contains (L "mlp.experts") (proj_weight (shared_of l) s)) eqn:E; [|done].
  apply contains_spec in E as (a & b & E). unfold proj_weight, shared_of in E.
  assert (E2 : (layer l ++ L "mlp.sha") ++ L "red_experts" ++ (L "." ++ proj_name s ++ L ".weight") = a ++ L "mlp.experts" ++ b).
  { rewrite <- E, <- !app_assoc. done. }
  assert (Ea : layer l ++ L "mlp.sha" = a).
  { eapply (occurrence_at (L "red_experts") _ _ _ b "x"%char 5); [done| | |symmetry; reflexivity| |exact E2]; [| |done].
    - rewrite <- app_assoc. apply not_elem_of_app. split; [layer_free|]. by_compute.
    - destruct s; by_compute. }
  rewrite Ea in E2. apply app_inv_head in E2. discriminate.
Qed.

(** No expert pattern is in the name of a shared down projection or of the bias. *)
Lemma pattern_shape l x e s y : "x"%char ∉ x -> "x"%char ∉ y ->
  contains (pattern e s) ((layer l ++ x) ++ L "ex" ++ y) = true -> exists b, L "ex" ++ y = pattern e s ++ b.
Proof.
  intros Hx Hy (a & b & E)%contains_spec. exists b.
  assert (E2 : (layer l ++ x) ++ (L "ex" ++ y) ++ [] = a ++ pattern e s ++ b) by (by rewrite app_nil_r).
  assert (Ea : layer l ++ x = a).
  { eapply (occurrence_at (L "ex" ++ y) _ _ [] b "x"%char 1); [done| | |reflexivity| |exact E2]; [| |done].
    - rewrite <- app_assoc. apply not_elem_of_app. split; [layer_free|]. apply not_elem_of_app. split; [done|].
      change (take 1 (L "ex" ++ y)) with (L "e"). by_compute.
    - by rewrite app_nil_r. }
  rewrite <- Ea in E. by apply app_inv_head in E.
Qed.

Lemma dec_head n c s : ~ is_digit c -> dec n <> c :: s.
Proof. intros Hc E. apply (dec_absent n c Hc). rewrite E. by left. Qed.

Lemma shared_down_pattern l e s : contains (pattern e s) (proj_weight (shared_of l) W2) = false.
Proof.
  destruct (contains (pattern e s) (proj_weight (shared_of l) W2)) eqn:E; [|done].
  assert (En : proj_weight (shared_of l) W2 = (layer l ++ L "mlp.shared_") ++ L "ex" ++ L "perts.down_proj.weight").
  { unfold proj_weight, shared_of. by rewrite <- !app_assoc. }
  rewrite En in E. apply pattern_shape in E as (b & E); [|by_compute..].
  change (L "ex" ++ L "perts.down_proj.weight") with (L "experts." ++ L "down_proj.weight") in E.
  unfold pattern in E. rewrite <- !app_assoc in E. apply app_inv_head in E.
  destruct (dec e) as [|d ds] eqn:Ed; [done|]. injection E as <- _.
  exfalso. apply (dec_head e "d"%char ds); [unfold is_digit; vm_compute; lia|done].
Qed.

Lemma bias_pattern l e s : contains (pattern e s) (bias_name l) = false.
Proof.
  destruct (contains (pattern e s) (bias_name l)) eqn:E; [|done].
  assert (En : bias_name l = (layer l ++ L "mlp.gate.") ++ L "ex" ++ L "pert_bias") by (unfold bias_name; by rewrite <- app_assoc).
  rewrite En in E. apply pattern_shape in E as (b & E); [|by_compute..].
  unfold pattern in E. rewrite <- !app_assoc in E. discriminate.
Qed.

(** The underscore in the name of a stacked parameter. *)
Lemma param_underscore l s x y c : last x = Some c -> c <> "3"%char -> c <> "2"%char ->
  contains (x ++ L "_" ++ y) (expert_param (layer l) s) = false.
Proof.
  intros Hx H3 H2. destruct (contains _ _) eqn:E; [|done]. apply contains_spec in E as (a & b & E).
  set (z := match s with W2 => L "mlp.experts.w2" | _ => L "mlp.experts.w13" end).
  assert (E2 : (layer l ++ z) ++ L "_" ++ L "weight" = (a ++ x) ++ L "_" ++ (y ++ b)).
  { unfold expert_param in E. rewrite <- !app_assoc in E |- *. rewrite <- E. by destruct s. }
  assert (Ea : layer l ++ z = a ++ x).
  { eapply (occurrence_at (L "_") _ _ (L "weight") (y ++ b) "_"%char 0); [done| | |reflexivity| |exact E2]; [| |done].
    - rewrite <- app_assoc. apply not_elem_of_app. split; [layer_free|]. unfold z.
      destruct s; by_compute.
    - by_compute. }
  apply (f_equal last) in Ea. rewrite !last_app, Hx in Ea. unfold z in Ea. destruct s; cbn in Ea; injection Ea; congruence.
Qed.

Lemma param_absent l s c sub : c ∈ sub -> c ∉ L "model.layers.mlp.experts.w132_weight" -> ~ is_digit c ->
  contains sub (expert_param (layer l) s) = false.
Proof.
  intros Hs Hc Hd. apply (contains_absent _ _ c); [done|].
  assert (Hc' : forall t, t ⊆ L "model.layers.mlp.experts.w132_weight" -> c ∉ t) by (intros t Ht Hin; by apply Hc, Ht).
  unfold expert_param, layer. repeat (apply not_elem_of_app; split); try (by apply dec_absent);
    apply Hc'; try destruct s; intros q Hq; apply (bool_decide_unpack _);
    repeat (apply elem_of_cons in Hq as [->|Hq]; [vm_compute; exact Logic.I|]); by apply not_elem_of_nil in Hq.
Qed.

(** ** The loaders on matrices *)

Section Loaders.
Context {R : Type} `{ScalarOps R}.
Variable expand : list nat -> tensor R -> res (tensor R).
Implicit Types (t w u : tensor R).

Lemma impl_weight M l s' s e w t : e < nth 0 (shape t) 0 ->
  _weight_loader_impl expand M (expert_param (layer l) s') s e w t = _load_model_weight expand M s e w t.
Proof.
  intros He. unfold _weight_loader_impl. rewrite (proj2 (Nat.leb_gt _ _) He).
  assert (Hc : contains (L "scale") (expert_param (layer l) s') = false).
  { apply (param_absent l s' "c"%char); [by_compute..|unfold is_digit; vm_compute; lia]. }
  rewrite (param_absent l s' "c"%char (L "input_scale"));
    [|by_compute..|unfold is_digit; vm_compute; lia].
  change (L "g_idx") with (L "g" ++ L "_" ++ L "idx"). rewrite (param_underscore l s' (L "g") (L "idx") "g"%char) by done.
  rewrite Hc, (param_absent l s' "z"%char (L "zero")), (param_absent l s' "f"%char (L "offset"));
    [|try (by_compute)..]; try (unfold is_digit; vm_compute; lia).
  cbn [orb]. change (L "weight_shape") with (L "weight" ++ L "_" ++ L "shape"). rewrite (param_underscore l s' (L "weight") (L "shape") "t"%char) by done.
  assert (Hw : contains (L "weight") (expert_param (layer l) s') = true); [|by rewrite Hw].
  apply contains_spec. exists (layer l ++ L "mlp." ++ target s'), []. unfold expert_param. by rewrite <- !app_assoc.
Qed.

Lemma narrow0_matrix r c t a n : matrix r c t -> a + n <= r ->
  exists u, narrow0 a n t = Ok u /\ matrix n c u /\ forall i j, i < n -> j < c -> entry u i j = entry t (a + i) j.
Proof.
  intros Hm Hn. pose proof Hm as [Es _]. unfold narrow0. rewrite Es, (proj2 (Nat.leb_le _ _) Hn).
  destruct (slice0_matrix r c t a (a + n) Hm) as (u & E & Mu & Hu); [lia|done|].
  replace (a + n - a) with n in * by lia. by exists u.
Qed.

Lemma narrow1_matrix r c t a n : matrix r c t -> a + n <= c ->
  exists u, narrow1 a n t = Ok u /\ matrix r n u /\ forall i j, i < r -> j < n -> entry u i j = entry t i (a + j).
Proof.
  intros Hm Hn. pose proof Hm as [Es _]. unfold narrow1. rewrite Es, (proj2 (Nat.leb_le _ _) Hn).
  destruct (slice1_matrix r c t a (a + n) Hm) as (u & E & Mu & Hu); [lia|done|].
  replace (a + n - a) with n in * by lia. by exists u.
Qed.

Lemma copy_source_same target w : shape w = target -> copy_source expand target w = Ok (data w).
Proof. intros E. unfold copy_source. by rewrite bool_decide_eq_true_2. Qed.

Definition half (s : shard) : nat := match s with W3 => 1 | _ => 0 end.

Lemma load_w13_ok M s e w t E I h total : shape t = [E; 2 * I; h] -> matrix total h w ->
  (moe_tp_rank M + 1) * I <= total ->
  exists u, narrow0 (I * moe_tp_rank M) I w = Ok u /\
    _load_w13 expand M s e w t = Ok (put ((e * (2 * I) + half s * I) * h) (data u) t) /\ matrix I h u /\
    forall i j, i < I -> j < h -> entry u i j = entry w (moe_tp_rank M * I + i) j.
Proof.
  intros Es Hw Hr. unfold _load_w13. rewrite Es. replace (2 * I / 2) with I by (rewrite Nat.mul_comm, Nat.div_mul; lia).
  destruct (narrow0_matrix total h w (I * moe_tp_rank M) I Hw) as (u & Eu & Mu & Hu); [lia|]. exists u.
  split; [exact Eu|]. rewrite Eu. cbn [rbind]. rewrite copy_source_same by apply Mu. split; [|split; [done|]].
  - destruct s; cbn [half]; by rewrite ?Nat.mul_0_l, ?Nat.mul_1_l.
  - intros i j Hi Hj. rewrite Hu by done. f_equal. lia.
Qed.

Lemma load_w2_ok M e w t E I h total : shape t = [E; h; I] -> matrix h total w ->
  (moe_tp_rank M + 1) * I <= total ->
  exists u, narrow1 (I * moe_tp_rank M) I w = Ok u /\
    _load_w2 expand M e w t = Ok (put (e * h * I) (data u) t) /\ matrix h I u /\
    forall i j, i < h -> j < I -> entry u i j = entry w i (moe_tp_rank M * I + j).
Proof.
  intros Es Hw Hr. unfold _load_w2. rewrite Es.
  destruct (narrow1_matrix h total w (I * moe_tp_rank M) I Hw) as (u & Eu & Mu & Hu); [lia|]. exists u.
  split; [exact Eu|]. rewrite Eu. cbn [rbind]. rewrite copy_source_same by apply Mu. split; [done|]. split; [done|].
  intros i j Hi Hj. rewrite Hu by done. f_equal. lia.
Qed.

Lemma merged_ok rank n s w t I h : s <> W2 -> rank < n -> shape t = [2 * I; h] -> matrix (n * I) h w ->
  exists u, narrow0 (rank * I) I w = Ok u /\
    merged_shard [n * I; n * I] rank n (half s) w t = Ok (put (half s * I * h) (data u) t) /\ matrix I h u /\
    forall i j, i < I -> j < h -> entry u i j = entry w (rank * I + i) j.
Proof.
  intros Hs Hr Es Hw. unfold merged_shard. assert (Hn : n <> 0) by lia. pose proof Hw as [Ew _].
  assert (Eq : n * I / n = I) by (rewrite Nat.mul_comm; by apply Nat.div_mul).
  assert (Eo : sum_list (take (half s) [n * I; n * I]) / n = half s * I).
  { destruct s; [|done|]; cbn [half take sum_list foldr]; [by rewrite Nat.Div0.div_0_l|].
    unfold id. rewrite Nat.add_0_r, Eq. lia. }
  assert (En : nth (half s) [n * I; n * I] 0 / n = I) by (by destruct s).
  rewrite Eo, En. unfold passert at 1. rewrite (proj2 (Nat.ltb_lt _ _)) by (destruct s; cbn; lia).
  assert (Hv : exists v, narrow0 (half s * I) I t = Ok v /\ shape v = [I; h]).
  { unfold narrow0, slice0. rewrite Es. rewrite (proj2 (Nat.leb_le _ _)) by (destruct s; cbn [half]; lia).
    eexists. split; [done|]. cbn [shape]. f_equal. destruct s; cbn [half]; lia. }
  destruct Hv as (v & -> & Ev). cbn [rbind]. rewrite Ew. cbn [nth].
  assert (Hb : rank * I + I <= n * I) by (replace (rank * I + I) with ((rank + 1) * I) by lia; apply Nat.mul_le_mono_r; lia).
  rewrite (proj2 (Nat.ltb_ge _ _) Hb).
  destruct (narrow0_matrix (n * I) h w (rank * I) I Hw Hb) as (u & Eu & Mu & Hu). exists u. split; [exact Eu|].
  rewrite Eu. cbn [rbind]. unfold passert. rewrite bool_decide_eq_true_2 by (rewrite Ev; symmetry; apply Mu).
  split; [|split; [done|exact Hu]]. rewrite Es. cbn [tail numel foldr]. by rewrite Nat.mul_1_r.
Qed.

Lemma row_ok rank n w t I h : rank < n -> shape t = [h; I] -> length (data t) = h * I -> matrix h (n * I) w ->
  exists u, narrow1 (rank * I) I w = Ok u /\
    row_loader rank w t = Ok (put 0 (data u) t) /\ matrix h I u /\
    forall i j, i < h -> j < I -> entry u i j = entry w i (rank * I + j).
Proof.
  intros Hr Es Hl Hw. unfold row_loader. rewrite Es. pose proof Hw as [Ew _]. rewrite Ew.
  assert (Hb : rank * I + I <= n * I) by (replace (rank * I + I) with ((rank + 1) * I) by lia; apply Nat.mul_le_mono_r; lia).
  rewrite (proj2 (Nat.ltb_ge _ _) Hb).
  destruct (narrow1_matrix h (n * I) w (rank * I) I Hw Hb) as (u & En & Mu & Hu). exists u. split; [exact En|].
  rewrite En. cbn [rbind]. split; [|split; [done|exact Hu]]. unfold copy_same, passert. pose proof Mu as [Eu Lu].
  rewrite bool_decide_eq_true_2 by congruence. unfold put, py_splice. cbn [take app].
  rewrite drop_ge by lia. by rewrite app_nil_r.
Qed.

Lemma default_loads w t : shape w = shape t -> length (data t) = length (data w) ->
  default_weight_loader w t = Ok (put 0 (data w) t).
Proof.
  intros Es El. unfold default_weight_loader, put, py_splice. cbn [take app].
  rewrite drop_ge by lia. rewrite app_nil_r, Es. destruct (_ && _); [done|]. by rewrite bool_decide_eq_true_2.
Qed.

End Loaders.

End BY.
