(* ===== verification/BaseProps.v ===== *)
(** A sparse layer from the checkpoint to the served block: the parameters of a rank
    after loading, and the block they make against the PyTorch model. *)
From Stdlib Require Import String.
From Stdlib Require Import ZArith Ascii Lia.
From stdpp Require Import base list gmap strings.
From S2P Require Import Prelude Tensor Adapter AdapterProps BaseLoad BaseNames BasePlaces BaseLayer.
Local Open Scope nat_scope.

Module BPr.
Import Str Ad BL BN BP BY AdProps.

Lemma apart (a b X : nat) : a <> b -> a * X + X <= b * X \/ b * X + X <= a * X.
Proof.
  intros Hne. destruct (Nat.lt_trichotomy a b) as [Hlt|[?|Hlt]]; [left|done|right];
    [replace (a * X + X) with ((a + 1) * X) by lia|replace (b * X + X) with ((b + 1) * X) by lia]; apply Nat.mul_le_mono_r; lia.
Qed.

Section Layer.
Context {R : Type} `{ScalarOps R}.
Variables (expand : list nat -> tensor R -> res (tensor R)) (normalize : tensor R -> tensor R) (C : config).

(** Layer [l] on a rank that keeps the experts of [M] with [I] rows of each of their
    projections, and [Is] rows of the shared ones on rank [rank] of [n]. *)
Variables (l : nat) (M : fused_moe) (I h total rank n Is : nat) (has_shared : bool) (T : kind -> tensor R).
#[local] Abbreviation E := (config_num_experts C).
#[local] Abbreviation nl := (num_local_experts M).

Definition is_param (ps : gmap str (param R)) (name : str) (ld : loader) (sh : list nat) : Prop :=
  exists p, ps !! name = Some p /\ p_loader p = ld /\ shape (p_data p) = sh /\ length (data (p_data p)) = numel sh.

(** The parameters that the constructors made. *)
Record layer_params (ps : gmap str (param R)) : Prop := {
  lp_13 : is_param ps (expert_param (layer l) W1) (Experts M) [nl; 2 * I; h];
  lp_2 : is_param ps (expert_param (layer l) W2) (Experts M) [nl; h; I];
  lp_gate_up : has_shared = true ->
    is_param ps (merged_name (shared_of l)) (Merged [n * Is; n * Is] rank n) [2 * Is; h];
  lp_down : has_shared = true -> is_param ps (proj_weight (shared_of l) W2) (Row rank) [h; Is];
  lp_router : is_param ps (router_name l) Default [E; h];
  lp_bias : is_param ps (bias_name l) Default [E];
}.

(** The tensors of the checkpoint. *)
Record layer_tensors : Prop := {
  lt_gate : forall e s, e < E -> s <> W2 -> matrix total h (T (KExpert e s));
  lt_down : forall e, e < E -> matrix h total (T (KExpert e W2));
  lt_sgate : forall s, s <> W2 -> matrix (n * Is) h (T (KShared s));
  lt_sdown : matrix h (n * Is) (T (KShared W2));
  lt_router : matrix E h (T KRouter);
  lt_bias : shape (T KBias) = [E] /\ length (data (T KBias)) = E;
}.

Hypotheses (untied : tie_word_embeddings C = false) (raw_head : norm_head C = false).
Hypotheses (tensors : layer_tensors) (rank_lt : rank < n) (tp_fits : (moe_tp_rank M + 1) * I <= total).

Definition valid (k : kind) : Prop :=
  match k with KExpert e _ => e < E | KShared _ => has_shared = true | _ => True end.

Definition data_of (r : res (tensor R)) : list R := match r with Ok u => data u | Raise _ => [] end.

Definition kparam (k : kind) : str :=
  match k with
  | KExpert _ s => expert_param (layer l) s
  | KShared W2 => proj_weight (shared_of l) W2
  | KShared _ => merged_name (shared_of l)
  | KRouter => router_name l
  | KBias => bias_name l
  end.

(** Where a tensor goes; nowhere, when the expert is on another rank. *)
Definition kplace (k : kind) : place R :=
  match k with
  | KExpert e s =>
    match _map_global_expert_id_to_local_expert_id M e with
    | None => mkPl (kparam k) 0 []
    | Some le =>
      match s with
      | W2 => mkPl (kparam k) (le * h * I) (data_of (narrow1 (I * moe_tp_rank M) I (T k)))
      | _ => mkPl (kparam k) ((le * (2 * I) + half s * I) * h) (data_of (narrow0 (I * moe_tp_rank M) I (T k)))
      end
    end
  | KShared W2 => mkPl (kparam k) 0 (data_of (narrow1 (rank * Is) Is (T k)))
  | KShared s => mkPl (kparam k) (half s * Is * h) (data_of (narrow0 (rank * Is) Is (T k)))
  | _ => mkPl (kparam k) 0 (data (T k))
  end.

Lemma local_range e le : _map_global_expert_id_to_local_expert_id M e = Some le ->
  le < nl /\ e = moe_ep_rank M * nl + le.
Proof.
  unfold _map_global_expert_id_to_local_expert_id.
  destruct (Nat.leb_spec (moe_ep_rank M * nl) e), (Nat.ltb_spec e ((moe_ep_rank M + 1) * nl)); cbn [andb]; intros [= <-]. lia.
Qed.

(** A write that a loader computes from the kind and shape of the parameter alone. *)
Lemma placed_by ps name w pl ld sh : is_param ps (pl_param pl) ld sh -> pl_off pl + length (pl_data pl) <= numel sh ->
  (forall (ps' : gmap str (param R)) p, ps' !! pl_param pl = Some p -> p_loader p = ld -> shape (p_data p) = sh ->
     length (data (p_data p)) = numel sh ->
     load_one expand normalize C (name, w) ps' = Ok (set_data (pl_param pl) p (put (pl_off pl) (pl_data pl) (p_data p)) ps')) ->
  placed expand normalize C ps (name, w) pl.
Proof.
  intros (p & Hp & El & Es & Ed) Hb Hl. split; [exists p; split; [done|]; by rewrite Ed|].
  intros ps' Hs. destruct (same_skel_lookup _ _ _ _ Hs Hp) as (p' & Hp' & El' & Es' & Ed').
  unfold put_at. rewrite Hp'. apply Hl; congruence.
Qed.

Ltac free :=
  unfold shared_of, router_name, bias_name;
  apply not_elem_of_app; split; [layer_free|by_compute].

(** The experts. *)
Lemma expert_placed ps e s : layer_params ps -> e < E -> placed expand normalize C ps (kname l (KExpert e s), T (KExpert e s)) (kplace (KExpert e s)).
Proof using All.
  intros Hps He. pose proof (lt_gate tensors e s He) as Hg. pose proof (lt_down tensors e He) as Hd.
  set (ld := Experts M). set (sh := match s with W2 => [nl; h; I] | _ => [nl; 2 * I; h] end).
  assert (Hp : is_param ps (expert_param (layer l) s) ld sh) by (destruct s; [apply (lp_13 _ Hps)|apply (lp_2 _ Hps)|apply (lp_13 _ Hps)]).
  assert (Hload : forall (ps' : gmap str (param R)) p, ps' !! expert_param (layer l) s = Some p -> p_loader p = ld ->
    load_one expand normalize C (kname l (KExpert e s), T (KExpert e s)) ps' =
    (let! t := experts_weight_loader expand M (expert_param (layer l) s) s e (T (KExpert e s)) (p_data p) in
     Ok (set_data (expert_param (layer l) s) p t ps'))%py).
  { intros ps' p Hp' El. cbn [kname]. rewrite (load_expert expand normalize C untied raw_head _ _ _ _ _ p); [|layer_free|layer_free|done|done].
    unfold call_expert. by rewrite El. }
  unfold kplace. destruct (_map_global_expert_id_to_local_expert_id M e) as [le|] eqn:Em.
  - destruct (local_range _ _ Em) as [Hle _].
    assert (Hi : forall (p : param R), shape (p_data p) = sh -> experts_weight_loader expand M (expert_param (layer l) s) s e (T (KExpert e s)) (p_data p) =
      _load_model_weight expand M s le (T (KExpert e s)) (p_data p)).
    { intros p Es. unfold experts_weight_loader. rewrite Em. apply impl_weight. rewrite Es. by destruct s. }
    destruct s; cbn [kparam].
    all: apply (placed_by ps _ _ _ ld sh); [exact Hp| |]; cbn [pl_param pl_off pl_data].
    all: try (intros ps' p Hp' El Es _; rewrite (Hload ps' p Hp' El), (Hi p Es); cbn [_load_model_weight]).
    + destruct (narrow0_matrix total h _ (I * moe_tp_rank M) I (Hg ltac:(done))) as (u & -> & [_ Lu] & _); [lia|].
      cbn [data_of numel foldr sh half]. rewrite Lu. nia.
    + destruct (load_w13_ok expand M W1 le _ (p_data p) nl I h total Es (Hg ltac:(done)) tp_fits) as (u & Eu & -> & _). by rewrite Eu.
    + destruct (narrow1_matrix h total _ (I * moe_tp_rank M) I Hd) as (u & -> & [_ Lu] & _); [lia|].
      cbn [data_of numel foldr sh half]. rewrite Lu. nia.
    + destruct (load_w2_ok expand M le _ (p_data p) nl I h total Es Hd tp_fits) as (u & Eu & -> & _). by rewrite Eu.
    + destruct (narrow0_matrix total h _ (I * moe_tp_rank M) I (Hg ltac:(done))) as (u & -> & [_ Lu] & _); [lia|].
      cbn [data_of numel foldr sh half]. rewrite Lu. nia.
    + destruct (load_w13_ok expand M W3 le _ (p_data p) nl I h total Es (Hg ltac:(done)) tp_fits) as (u & Eu & -> & _). by rewrite Eu.
  - apply (placed_by ps _ _ _ ld sh); [exact Hp|cbn; lia|]. cbn [pl_param pl_off pl_data kparam].
    intros ps' p Hp' El _ _. rewrite (Hload ps' p Hp' El). unfold experts_weight_loader. rewrite Em. cbn [rbind].
    unfold put, py_splice. cbn [take app length]. rewrite drop_0. by destruct (p_data p).
Qed.

(** The shared experts. *)
Lemma shared_placed ps s : layer_params ps -> has_shared = true ->
  placed expand normalize C ps (kname l (KShared s), T (KShared s)) (kplace (KShared s)).
Proof using All.
  intros Hps Hsh. pose proof (lt_sgate tensors s) as Hg. pose proof (lt_sdown tensors) as Hd.
  assert (Hb : rank * Is + Is <= n * Is) by (replace (rank * Is + Is) with ((rank + 1) * Is) by lia; apply Nat.mul_le_mono_r; lia).
  assert (Hm : s <> W2 -> placed expand normalize C ps (kname l (KShared s), T (KShared s))
    (mkPl (merged_name (shared_of l)) (half s * Is * h) (data_of (narrow0 (rank * Is) Is (T (KShared s)))))).
  { intros Hs. apply (placed_by ps _ _ _ (Merged [n * Is; n * Is] rank n) [2 * Is; h]);
      [by apply (lp_gate_up _ Hps)| |]; cbn [pl_param pl_off pl_data].
    - destruct (narrow0_matrix _ h _ (rank * Is) Is (Hg Hs) Hb) as (u & -> & [_ Lu] & _).
      cbn [data_of numel foldr]. rewrite Lu. destruct s; [|done|]; cbn [half]; nia.
    - intros ps' p Hp' El Es _. cbn [kname].
      rewrite (load_merged expand normalize C untied raw_head _ _ _ _ p Hs); [|free|free|apply shared_not_routed|done].
      unfold call_shard. rewrite El.
      destruct (merged_ok rank n s (T (KShared s)) (p_data p) Is h Hs rank_lt Es (Hg Hs)) as (u & Eu & Ep & _).
      replace (match s with W1 => 0 | _ => 1 end) with (half s) by (by destruct s). rewrite Ep, Eu. done. }
  destruct s; [by apply Hm| |by apply Hm]. cbn [kplace kparam].
  apply (placed_by ps _ _ _ (Row rank) [h; Is]); [by apply (lp_down _ Hps)| |]; cbn [pl_param pl_off pl_data].
  - destruct (narrow1_matrix h _ _ (rank * Is) Is Hd Hb) as (u & -> & [_ Lu] & _). cbn [data_of numel foldr]. rewrite Lu. lia.
  - intros ps' p Hp' El Es Ed. cbn [kname].
    rewrite (load_plain expand normalize C raw_head _ _ _ p); [|apply plain_down; [done|free|free|apply shared_down_pattern]|done].
    unfold call_plain. rewrite El. cbn [numel foldr] in Ed.
    destruct (row_ok rank n (T (KShared W2)) (p_data p) Is h rank_lt Es) as (u & Eu & -> & _); [lia|done|]. by rewrite Eu.
Qed.

(** The gate. *)
Lemma gate_placed ps k : layer_params ps -> k = KRouter \/ k = KBias ->
  placed expand normalize C ps (kname l k, T k) (kplace k).
Proof using All.
  intros Hps Hk. set (sh := match k with KRouter => [E; h] | _ => [E] end).
  assert (Hp : is_param ps (kparam k) Default sh /\ kparam k = kname l k /\ plain C (kname l k) /\
    shape (T k) = sh /\ length (data (T k)) = numel sh /\ kplace k = mkPl (kparam k) 0 (data (T k))).
  { destruct Hk as [->| ->].
    - split; [apply Hps|]. split; [done|]. split; [apply plain_other; [done|free..]|].
      destruct (lt_router tensors) as [Er Lr]. split; [done|]. split; [|done]. cbn [sh numel foldr]. lia.
    - split; [apply Hps|]. split; [done|]. destruct (lt_bias tensors) as [Er Lr]. split.
      + split; [apply skipped_no; [done|free]|].
        split; [apply (contains_absent _ _ "j"%char); [by_compute|free]|].
        split; [apply (contains_absent _ _ "j"%char); [by_compute|free]|].
        apply bias_pattern.
      + split; [done|]. split; [|done]. cbn [sh numel foldr]. lia. }
  destruct Hp as (Hp & En & Hpl & Es & Ed & ->).
  apply (placed_by ps _ _ _ Default sh); [exact Hp|cbn; lia|]. cbn [pl_param pl_off pl_data].
  intros ps' p Hp' El Esp Edp. rewrite En in Hp' |- *.
  rewrite (load_plain expand normalize C raw_head _ _ _ p Hpl Hp'). unfold call_plain. rewrite El.
  rewrite default_loads by congruence. done.
Qed.

Lemma kind_placed ps k : layer_params ps -> valid k -> placed expand normalize C ps (kname l k, T k) (kplace k).
Proof using All.
  intros Hps Hv. destruct k; [by apply expert_placed|by apply shared_placed|apply gate_placed; auto..].
Qed.

(** ** The places do not overlap *)

(** Which parameter of the layer a tensor goes to. *)
Definition slot (k : kind) : nat :=
  match k with
  | KExpert _ W2 => 1 | KExpert _ _ => 0 | KShared W2 => 3 | KShared _ => 2 | KRouter => 4 | KBias => 5
  end.

Definition slot_suffix (i : nat) : str :=
  match i with
  | 0 => L "mlp.experts.w13_weight" | 1 => L "mlp.experts.w2_weight" | 2 => L "mlp.shared_experts.gate_up_proj.weight"
  | 3 => L "mlp.shared_experts.down_proj.weight" | 4 => L "mlp.gate.weight" | _ => L "mlp.gate.expert_bias"
  end.

Lemma kparam_suffix k : kparam k = layer l ++ slot_suffix (slot k).
Proof using. destruct k as [e s|s| |]; try destruct s; cbn [kparam slot slot_suffix];
  unfold expert_param, merged_name, proj_weight, shared_of, router_name, bias_name; rewrite <- ?app_assoc; done. Qed.

Lemma kparam_slot k k' : kparam k = kparam k' -> slot k = slot k'.
Proof using.
  rewrite !kparam_suffix. intros E%app_inv_head.
  destruct k as [? []|[]| |], k' as [? []|[]| |]; cbn in E |- *; done.
Qed.

(** The part of its parameter that a tensor of an expert or a shared one fills. *)
Lemma kplace_block k : valid k -> (slot k < 3) ->
  (pl_off (kplace k) = 0 /\ pl_data (kplace k) = []) \/
  exists b X, pl_off (kplace k) = b * X /\ length (pl_data (kplace k)) = X /\
    X = (match slot k with 2 => Is | _ => I end) * h /\
    match k with
    | KExpert e s => exists le, _map_global_expert_id_to_local_expert_id M e = Some le /\
        b = (match s with W2 => le | _ => 2 * le + half s end)
    | KShared s => b = half s
    | _ => True
    end.
Proof using All.
  intros Hv Hs. destruct k as [e s|s| |]; [| |cbn in Hs; lia..].
  - cbn [kplace]. destruct (_map_global_expert_id_to_local_expert_id M e) as [le|] eqn:Em; [right|by left].
    destruct s; cbn [pl_off pl_data slot].
    + destruct (narrow0_matrix total h _ (I * moe_tp_rank M) I (lt_gate tensors e W1 Hv ltac:(done))) as (u & -> & [_ Lu] & _); [lia|].
      exists (2 * le), (I * h). cbn [data_of half]. split; [lia|]. split; [done|]. split; [done|]. exists le. split; [done|lia].
    + destruct (narrow1_matrix h total _ (I * moe_tp_rank M) I (lt_down tensors e Hv)) as (u & -> & [_ Lu] & _); [lia|].
      exists le, (I * h). cbn [data_of half]. split; [lia|]. split; [lia|]. split; [done|]. by exists le.
    + destruct (narrow0_matrix total h _ (I * moe_tp_rank M) I (lt_gate tensors e W3 Hv ltac:(done))) as (u & -> & [_ Lu] & _); [lia|].
      exists (2 * le + 1), (I * h). cbn [data_of half]. split; [lia|]. split; [done|]. split; [done|]. by exists le.
  - right. assert (Hb : rank * Is + Is <= n * Is) by (replace (rank * Is + Is) with ((rank + 1) * Is) by lia; apply Nat.mul_le_mono_r; lia).
    destruct s; [|cbn in Hs; lia|]; cbn [kplace pl_off pl_data slot].
    + destruct (narrow0_matrix _ h _ (rank * Is) Is (lt_sgate tensors W1 ltac:(done)) Hb) as (u & -> & [_ Lu] & _).
      exists 0, (Is * h). cbn [data_of half]. split; [lia|done].
    + destruct (narrow0_matrix _ h _ (rank * Is) Is (lt_sgate tensors W3 ltac:(done)) Hb) as (u & -> & [_ Lu] & _).
      exists 1, (Is * h). cbn [data_of half]. split; [lia|done].
Qed.

Lemma kplace_param k : pl_param (kplace k) = kparam k.
Proof using. destruct k as [e s|s| |]; cbn [kplace]; [destruct (_map_global_expert_id_to_local_expert_id M e)| | |]; try destruct s; done. Qed.

Lemma kplaces_disjoint k k' : valid k -> valid k' -> k <> k' -> disjoint (kplace k) (kplace k').
Proof using All.
  intros Hv Hv' Hne. unfold disjoint. rewrite !kplace_param.
  destruct (decide (kparam k = kparam k')) as [E|]; [right|by left]. apply kparam_slot in E.
  destruct (decide (slot k < 3)) as [Hs|Hs]; [|destruct k as [? []|[]| |], k' as [? []|[]| |]; cbn in E, Hs; by try lia].
  destruct (kplace_block k Hv Hs) as [[E1 E2]|(b & X & -> & -> & EX & Hb)]; [left; rewrite E1, E2; cbn; lia|].
  destruct (kplace_block k' Hv') as [[E1 E2]|(b' & X' & -> & -> & EX' & Hb')]; [lia|right; rewrite E1, E2; cbn; lia|].
  rewrite <- E in EX'. assert (X' = X) as -> by congruence. apply apart. intros ->.
  destruct k as [e s|s| |], k' as [e' s'|s'| |]; try (destruct s); try (destruct s'); cbn in E; try discriminate; cbn [half] in *;
    try (by subst b'; discriminate); try done.
  all: destruct Hb as (le & Em & ->), Hb' as (le' & Em' & Eb); try lia; apply Hne; f_equal;
    destruct (local_range _ _ Em) as [_ ->], (local_range _ _ Em') as [_ ->]; lia.
Qed.

(** ** Loading *)

(** A checkpoint with this layer in it: its other tensors go elsewhere. *)
Record checkpoint (ck : dict R) (ps : gmap str (param R)) (other : str * tensor R -> place R) : Prop := {
  ck_nodup : NoDup (map fst ck);
  ck_layer : forall k, valid k -> (kname l k, T k) ∈ ck;
  ck_other : forall it, it ∈ ck -> (forall k, valid k -> fst it <> kname l k) ->
    placed expand normalize C ps it (other it) /\ forall k, valid k -> pl_param (other it) <> kparam k;
  ck_apart : forall it it', it ∈ ck -> it' ∈ ck -> fst it <> fst it' ->
    (forall k, valid k -> fst it <> kname l k) -> (forall k, valid k -> fst it' <> kname l k) -> disjoint (other it) (other it');
}.

Definition where_ (other : str * tensor R -> place R) (it : str * tensor R) (pl : place R) : Prop :=
  (exists k, valid k /\ fst it = kname l k /\ pl = kplace k) \/
  ((forall k, valid k -> fst it <> kname l k) /\ pl = other it).

Definition kinds : list kind :=
  concat (map (fun e => [KExpert e W1; KExpert e W2; KExpert e W3]) (seq 0 E)) ++
  (if has_shared then [KShared W1; KShared W2; KShared W3] else []) ++ [KRouter; KBias].

Lemma kinds_valid k : k ∈ kinds <-> valid k.
Proof using.
  clear. unfold kinds. rewrite !elem_of_app, list_elem_of_In, in_concat. setoid_rewrite in_map_iff.
  destruct k as [e s|s| |]; cbn [valid]; split.
  - intros [(? & (e' & <- & He%in_seq) & Hin)|[Hin|Hin]].
    + destruct Hin as [[= <- _]|[[= <- _]|[[= <- _]|[]]]]; lia.
    + by destruct has_shared; repeat (apply elem_of_cons in Hin as [?|Hin]; [done|]); apply not_elem_of_nil in Hin.
    + by repeat (apply elem_of_cons in Hin as [?|Hin]; [done|]); apply not_elem_of_nil in Hin.
  - intros He. left. eexists. split; [exists e; split; [reflexivity|apply in_seq; lia]|]. destruct s; simpl; auto.
  - intros [(? & (e' & <- & _) & Hin)|[Hin|Hin]].
    + by destruct Hin as [?|[?|[?|[]]]].
    + destruct has_shared; [done|by apply not_elem_of_nil in Hin].
    + by repeat (apply elem_of_cons in Hin as [?|Hin]; [done|]); apply not_elem_of_nil in Hin.
  - intros ->. right. left. destruct s; set_solver.
  - done.
  - intros _. right. right. set_solver.
  - done.
  - intros _. right. right. set_solver.
Qed.

Lemma kind_or_other (it : str * tensor R) :
  (exists k, valid k /\ fst it = kname l k) \/ (forall k, valid k -> fst it <> kname l k).
Proof using.
  clear. destruct (decide (fst it ∈ map (kname l) kinds)) as [Hin|Hn].
  - left. apply list_elem_of_fmap in Hin as (k & E & Hk). exists k. split; [by apply kinds_valid|done].
  - right. intros k Hk E. apply Hn. rewrite E. by apply list_elem_of_fmap_2, kinds_valid.
Qed.

(** After loading, every place of the layer holds its tensor. *)
Lemma layer_holds ck ps other : layer_params ps -> checkpoint ck ps other ->
  exists ps', load_weights expand normalize C ck ps = Ok ps' /\ same_skel ps ps' /\
    forall k, valid k -> holds ps' (kplace k).
Proof using All.
  intros Hps Hck. destruct (load_places expand normalize C (where_ other) ck ps) as (ps' & E & Hs & Hh & _).
  - intros it Hin. destruct (kind_or_other it) as [(k & Hk & En)|Ho].
    + exists (kplace k). split; [left; by exists k|]. destruct it as [name t]. cbn [fst] in En. subst name.
      assert (t = T k) as ->; [|by apply kind_placed].
      apply (ck_layer _ _ _ Hck) in Hk. apply (Dict.dget_elem _ _ _ (ck_nodup _ _ _ Hck)) in Hin, Hk. congruence.
    + exists (other it). split; [by right|]. by apply (ck_other _ _ _ Hck).
  - intros it it' pl pl' Hin Hin' Hne [(k & Hk & En & ->)|[Ho ->]] [(k' & Hk' & En' & ->)|[Ho' ->]].
    + apply kplaces_disjoint; [done|done|]. intros ->. congruence.
    + left. rewrite kplace_param. intros Ep. symmetry in Ep. by apply (ck_other _ _ _ Hck it' Hin' Ho') in Ep.
    + left. rewrite kplace_param. by apply (ck_other _ _ _ Hck it Hin Ho).
    + by apply (ck_apart _ _ _ Hck).
  - intros it pl pl' Hin [(k & Hk & En & ->)|[Ho ->]] [(k' & Hk' & En' & ->)|[Ho' ->]].
    + rewrite En in En'. by apply kname_inj in En' as ->.
    + by apply Ho' in En.
    + by apply Ho in En'.
    + done.
  - apply Hck.
  - exists ps'. split; [done|]. split; [done|]. intros k Hk. apply (Hh (kname l k, T k)); [by apply (ck_layer _ _ _ Hck)|].
    left. by exists k.
Qed.

End Layer.
End BPr.
