(* ===== verification/BaseExperts.v ===== *)
(** The experts of a rank, read from the parameters that [load_weights] left: their
    rows are the rank's part of the checkpoint, and the ranks of an expert- and
    tensor-parallel server add up to the whole experts. *)
From Stdlib Require Import String.
From Stdlib Require Import ZArith Ascii Lia Ring.
From stdpp Require Import base list gmap strings.
From S2P Require Import Prelude Denoise Sampling Tensor Moe MoeKernel MoeConfig FusedExperts ServedMoe ServedMoeProps.
From S2P Require Import Adapter AdapterProps BaseLoad BaseNames BasePlaces BaseLayer BaseProps.
Local Open Scope nat_scope.

Module BE.
Import Str Ad BL BN BP BY BPr AdProps FE SM SMP.

Section Entries.
Context {R : Type} `{ScalarOps R}.
Implicit Types (t u : tensor R) (ps : gmap str (param R)).

(** Entry of a stack of matrices. *)
Definition entry3 t (e i j : nat) : R := nth ((e * nth 1 (shape t) 0 + i) * nth 2 (shape t) 0 + j) (data t) s0.

Definition param_data ps (name : str) : tensor R :=
  match ps !! name with Some p => p_data p | None => mkT [] [] end.

(** The fused weights that the kernels of layer [l] read. *)
Definition block_weights ps (l nl I h : nat) : weights R :=
  mkWeights nl (2 * I) h (entry3 (param_data ps (expert_param (layer l) W1)))
    (entry3 (param_data ps (expert_param (layer l) W2))).

Lemma holds_nth ps (pl : place R) k : holds ps pl -> k < length (pl_data pl) ->
  nth (pl_off pl + k) (data (param_data ps (pl_param pl))) s0 = nth k (pl_data pl) s0.
Proof.
  intros (p & Hp & Hb & Hs) Hk. unfold param_data. rewrite Hp, <- Hs. unfold py_slice.
  replace (pl_off pl + length (pl_data pl) - pl_off pl) with (length (pl_data pl)) by lia.
  by rewrite nth_slice.
Qed.

(** A matrix that fills rows [b] of a parameter with rows of the same length. *)
Lemma holds_entry ps (pl : place R) u r c i j : holds ps pl -> matrix r c u -> pl_data pl = data u ->
  i < r -> j < c -> nth (pl_off pl + (i * c + j)) (data (param_data ps (pl_param pl))) s0 = entry u i j.
Proof.
  intros Hh Hu Ed Hi Hj. rewrite (entry_at _ _ _ _ _ Hu), <- Ed. apply holds_nth; [done|].
  rewrite Ed. destruct Hu as [_ ->]. by apply rows_bound.
Qed.

End Entries.

Section Rank.
Context {R : Type} `{ScalarOps R}.
Variables (expand : list nat -> tensor R -> res (tensor R)) (normalize : tensor R -> tensor R) (C : config).
Variables (l : nat) (M : fused_moe) (I h total rank n Is : nat) (has_shared : bool) (T : kind -> tensor R).
Hypotheses (untied : tie_word_embeddings C = false) (raw_head : norm_head C = false).
Hypotheses (tensors : layer_tensors C h total n Is T) (rank_lt : rank < n) (tp_fits : (moe_tp_rank M + 1) * I <= total).
Variables (ps ps' : gmap str (param R)).
Hypotheses (params_ok : layer_params C l M I h rank n Is has_shared ps) (skel_ok : same_skel ps ps').
Hypothesis held : forall k, valid C has_shared k -> holds ps' (kplace l M I h rank Is T k).
#[local] Abbreviation nl := (num_local_experts M).
#[local] Abbreviation ws := (block_weights ps' l nl I h).

Lemma param_shape name ld sh : is_param ps name ld sh -> shape (param_data ps' name) = sh.
Proof using skel_ok.
  intros (p & Hp & _ & Es & _). destruct (same_skel_lookup _ _ _ _ skel_ok Hp) as (p' & Hp' & _ & Es' & _).
  unfold param_data. rewrite Hp'. congruence.
Qed.

(** The experts of the rank hold their part of the checkpoint. *)
Lemma rank_w1 le s i j : s <> W2 -> le < nl -> moe_ep_rank M * nl + le < config_num_experts C -> i < I -> j < h ->
  w1 ws le (half s * I + i) j = entry (T (KExpert (moe_ep_rank M * nl + le) s)) (moe_tp_rank M * I + i) j.
Proof using All.
  intros Hs Hle He Hi Hj. set (e := moe_ep_rank M * nl + le).
  assert (Em : _map_global_expert_id_to_local_expert_id M e = Some le).
  { unfold _map_global_expert_id_to_local_expert_id, e. rewrite (proj2 (Nat.leb_le _ _)), (proj2 (Nat.ltb_lt _ _)) by lia.
    cbn [andb]. f_equal. lia. }
  destruct (narrow0_matrix total h _ (I * moe_tp_rank M) I (lt_gate _ _ _ _ _ _ tensors e s He Hs)) as (u & Eu & Mu & Hu); [lia|].
  specialize (held (KExpert e s) He). unfold kplace in held. rewrite Em, Eu in held.
  cbn [w1 block_weights]. unfold entry3. rewrite (param_shape _ _ _ (lp_13 _ _ _ _ _ _ _ _ _ _ params_ok)). cbn [nth].
  assert (Ep : kparam l (KExpert e s) = expert_param (layer l) W1) by (by destruct s).
  rewrite Ep in held. replace (moe_tp_rank M * I + i) with (I * moe_tp_rank M + i) by lia. rewrite <- Hu by done.
  set (pl := mkPl (expert_param (layer l) W1) ((le * (2 * I) + half s * I) * h) (data u)).
  assert (Hp : holds ps' pl) by (by destruct s).
  rewrite <- (holds_entry ps' pl u I h i j Hp Mu eq_refl Hi Hj). cbn [pl pl_off pl_param]. f_equal. lia.
Qed.

Lemma rank_w2 le d i : le < nl -> moe_ep_rank M * nl + le < config_num_experts C -> d < h -> i < I ->
  w2 ws le d i = entry (T (KExpert (moe_ep_rank M * nl + le) W2)) d (moe_tp_rank M * I + i).
Proof using All.
  intros Hle He Hd Hi. set (e := moe_ep_rank M * nl + le).
  assert (Em : _map_global_expert_id_to_local_expert_id M e = Some le).
  { unfold _map_global_expert_id_to_local_expert_id, e. rewrite (proj2 (Nat.leb_le _ _)), (proj2 (Nat.ltb_lt _ _)) by lia.
    cbn [andb]. f_equal. lia. }
  destruct (narrow1_matrix h total _ (I * moe_tp_rank M) I (lt_down _ _ _ _ _ _ tensors e He)) as (u & Eu & Mu & Hu); [lia|].
  specialize (held (KExpert e W2) He). unfold kplace in held. rewrite Em, Eu in held. cbn [data_of] in held.
  cbn [w2 block_weights]. unfold entry3. rewrite (param_shape _ _ _ (lp_2 _ _ _ _ _ _ _ _ _ _ params_ok)). cbn [nth].
  replace (moe_tp_rank M * I + i) with (I * moe_tp_rank M + i) by lia. rewrite <- Hu by done.
  set (pl := mkPl (kparam l (KExpert e W2)) (le * h * I) (data u)) in held.
  rewrite <- (holds_entry ps' pl u h I d i held Mu eq_refl Hd Hi). cbn [pl pl_off pl_param kparam]. f_equal. lia.
Qed.

Lemma rank_rows : rank * Is + Is <= n * Is.
Proof using rank_lt. clear - rank_lt. replace (rank * Is + Is) with ((rank + 1) * Is) by lia. apply Nat.mul_le_mono_r. lia. Qed.

(** The shared experts. *)
Lemma rank_gate_up s i j : has_shared = true -> s <> W2 -> i < Is -> j < h ->
  entry (param_data ps' (merged_name (shared_of l))) (half s * Is + i) j = entry (T (KShared s)) (rank * Is + i) j.
Proof using All.
  intros Hsh Hs Hi Hj. unfold entry at 1. rewrite (param_shape _ _ _ (lp_gate_up _ _ _ _ _ _ _ _ _ _ params_ok Hsh)). cbn [nth].
  destruct (narrow0_matrix _ h _ (rank * Is) Is (lt_sgate _ _ _ _ _ _ tensors s Hs) rank_rows) as (u & Eu & Mu & Hu).
  rewrite <- Hu by done. specialize (held (KShared s) Hsh). unfold kplace in held. rewrite Eu in held.
  set (pl := mkPl (merged_name (shared_of l)) (half s * Is * h) (data u)).
  assert (Hp : holds ps' pl) by (by destruct s).
  rewrite <- (holds_entry ps' pl u Is h i j Hp Mu eq_refl Hi Hj). cbn [pl pl_off pl_param]. f_equal. lia.
Qed.

Lemma rank_down d i : has_shared = true -> d < h -> i < Is ->
  entry (param_data ps' (proj_weight (shared_of l) W2)) d i = entry (T (KShared W2)) d (rank * Is + i).
Proof using All.
  intros Hsh Hd Hi. unfold entry at 1. rewrite (param_shape _ _ _ (lp_down _ _ _ _ _ _ _ _ _ _ params_ok Hsh)). cbn [nth].
  destruct (narrow1_matrix h _ _ (rank * Is) Is (lt_sdown _ _ _ _ _ _ tensors) rank_rows) as (u & Eu & Mu & Hu).
  rewrite <- Hu by done. specialize (held (KShared W2) Hsh). unfold kplace in held. rewrite Eu in held.
  by rewrite <- (holds_entry ps' _ u h Is d i held Mu eq_refl Hd Hi).
Qed.

(** The gate. *)
Lemma rank_router e j : e < config_num_experts C -> j < h ->
  entry (param_data ps' (router_name l)) e j = entry (T KRouter) e j.
Proof using All.
  intros He Hj. unfold entry at 1. rewrite (param_shape _ _ _ (lp_router _ _ _ _ _ _ _ _ _ _ params_ok)). cbn [nth].
  rewrite <- (holds_entry ps' _ (T KRouter) _ h e j (held KRouter Logic.I) (lt_router _ _ _ _ _ _ tensors) eq_refl He Hj). done.
Qed.

Lemma rank_bias : data (param_data ps' (bias_name l)) = data (T KBias).
Proof using All.
  destruct (held KBias Logic.I) as (p & Hp & _ & Hs). destruct (lt_bias _ _ _ _ _ _ tensors) as [_ Lb].
  destruct (lp_bias _ _ _ _ _ _ _ _ _ _ params_ok) as (p0 & Hp0 & _ & _ & L0).
  destruct (same_skel_lookup _ _ _ _ skel_ok Hp0) as (p1 & Hp1 & _ & _ & L1).
  cbn [kplace pl_param pl_off pl_data kparam] in Hp, Hs. rewrite Hp in Hp1. injection Hp1 as <-.
  unfold param_data. rewrite Hp, <- Hs. unfold py_slice. rewrite drop_0, take_ge; [done|].
  cbn [numel foldr] in L0. lia.
Qed.

End Rank.
(** ** The ranks together *)

Section Sharded.
Context {R : Type} {HO : ScalarOps R} {sle : R -> R -> Prop} {HL : ScalarLaws R sle}.
Local Open Scope sc_scope.
Add Ring be_ring : s_ring.

Lemma vsum_tiles Q I (f : nat -> R) : vsum Q (fun b => vsum I (fun i => f (b * I + i)%nat)) = vsum (Q * I)%nat f.
Proof.
  induction Q as [|Q IH]; [done|]. cbn [vsum]. rewrite IH.
  replace (S Q * I)%nat with (Q * I + I)%nat by lia. by rewrite vsum_app.
Qed.

(** Rank [a] of the experts and [b] of their rows. *)
Record shard_of (ws wsr : weights R) (L I a b : nat) : Prop := {
  sh_E : wE wsr = L;
  sh_N : wN wsr = (2 * I)%nat;
  sh_H : wH wsr = wH ws;
  sh_gate : forall le i j, (le < L)%nat -> (i < I)%nat -> (j < wH ws)%nat ->
    w1 wsr le i j = w1 ws (a * L + le)%nat (b * I + i)%nat j;
  sh_up : forall le i j, (le < L)%nat -> (i < I)%nat -> (j < wH ws)%nat ->
    w1 wsr le (I + i)%nat j = w1 ws (a * L + le)%nat (wN ws / 2 + (b * I + i))%nat j;
  sh_down : forall le d i, (le < L)%nat -> (d < wH ws)%nat -> (i < I)%nat ->
    w2 wsr le d i = w2 ws (a * L + le)%nat d (b * I + i)%nat;
}.

Variables (ws : weights R) (wsr : nat -> nat -> weights R) (L P Q I : nat).
Hypotheses (shards : forall a b, (a < P)%nat -> (b < Q)%nat -> shard_of ws (wsr a b) L I a b)
  (rows : wN ws = (2 * (Q * I))%nat) (Lpos : (0 < L)%nat).

(** The rows of an expert, over the ranks that share it. *)
Lemma shard_expert a le x d : (a < P)%nat -> (le < L)%nat -> (d < wH ws)%nat ->
  vsum Q (fun b => expert_out (wsr a b) le x d) = expert_out ws (a * L + le)%nat x d.
Proof using All.
  intros Ha Hle Hd. unfold expert_out at 2. assert (EN : (wN ws / 2 = Q * I)%nat) by (rewrite rows, Nat.mul_comm, Nat.div_mul; lia).
  rewrite EN, <- vsum_tiles. apply vsum_ext. intros b Hb. destruct (shards a b Ha Hb) as [_ sN sH sg su sd].
  unfold expert_out. rewrite sN, sH. replace (2 * I / 2)%nat with I by (rewrite Nat.mul_comm, Nat.div_mul; lia).
  apply vsum_ext. intros i Hi. rewrite (sd le d i Hle Hd Hi).
  rewrite (vsum_ext _ _ (fun k => x k * w1 ws (a * L + le)%nat (b * I + i)%nat k)) by (intros k Hk; by rewrite sg).
  rewrite (vsum_ext _ (fun k => x k * w1 (wsr a b) le (I + i)%nat k) (fun k => x k * w1 ws (a * L + le)%nat (Q * I + (b * I + i))%nat k)); [done|].
  intros k Hk. rewrite su by done. by rewrite EN.
Qed.

Variables (factor : R) (topk : nat) (wts : vec R) (tids : nat -> Z).
#[local] Abbreviation rank_ids a := (fun p => local_expert_mapping L a (tids p)).

Lemma shard_choice x r k d : (0 <= tids (r * topk + k)%nat < Z.of_nat (P * L))%Z -> (d < wH ws)%nat ->
  vsum P (fun a => vsum Q (fun b => choice_out (wsr a b) true topk wts (rank_ids a) x r k d)) =
  choice_out ws false topk wts tids x r k d.
Proof using All.
  intros Hi Hd. set (e := Z.to_nat (tids (r * topk + k)%nat)).
  assert (Ee : tids (r * topk + k)%nat = Z.of_nat e) by (unfold e; lia).
  assert (Hr : (e / L < P)%nat) by (apply Nat.Div0.div_lt_upper_bound; lia).
  pose proof (Nat.mod_upper_bound e L ltac:(lia)) as Hm.
  rewrite (vsum_single P _ (e / L)%nat Hr).
  - rewrite (vsum_ext Q _ (fun b => expert_out (wsr (e / L)%nat b) (e mod L)%nat (x r) d * wts (r * topk + k)%nat)).
    + rewrite vsum_mul_r, shard_expert by done. unfold choice_out. cbn [andb]. rewrite Ee, Nat2Z.id.
      by replace (e / L * L + e mod L)%nat with e by (pose proof (Nat.div_mod_eq e L); lia).
    + intros b Hb. unfold choice_out. rewrite Ee, mapping_owner, Nat.eqb_refl by done. cbn [andb].
      rewrite (proj2 (Z.eqb_neq _ _)) by lia. by rewrite Nat2Z.id.
  - intros a _ Hne. rewrite (vsum_ext Q _ (fun _ => s0)); [apply vsum_0|]. intros b _. unfold choice_out.
    rewrite Ee, mapping_owner by done. by rewrite (proj2 (Nat.eqb_neq _ _) Hne).
Qed.

Lemma sharded_sum x r d : (forall k, (k < topk)%nat -> (0 <= tids (r * topk + k)%nat < Z.of_nat (P * L))%Z) -> (d < wH ws)%nat ->
  vsum P (fun a => vsum Q (fun b => routed_sum (wsr a b) true factor topk wts (rank_ids a) x r d)) =
  routed_sum ws false factor topk wts tids x r d.
Proof using All.
  intros Hi Hd. unfold routed_sum.
  rewrite (vsum_ext P _ (fun a => vsum topk (fun k => vsum Q (fun b => choice_out (wsr a b) true topk wts (rank_ids a) x r k d)) * factor)).
  - rewrite vsum_mul_r, vsum_swap. f_equal. apply vsum_ext. intros k Hk. by apply shard_choice; [apply Hi|].
  - intros a _. rewrite vsum_mul_r. f_equal. apply vsum_swap.
Qed.

End Sharded.

End BE.
