(* ===== verification/BaseThm.v ===== *)
(** From the checkpoint to the outputs of a sparse layer: the experts of all ranks, and
    the block of one rank, against the tensors of the PyTorch model. *)
From Stdlib Require Import String.
From Stdlib Require Import ZArith QArith Qreals Reals Ascii Lra Lia Ring.
From stdpp Require Import base list gmap strings.
From S2P Require Import Prelude Denoise Sampling Tensor RealOps Moe MoeKernel MoeConfig FusedExperts.
From S2P Require Import ServedMoe ServedMoeProps ServedMoeThm.
From S2P Require Import Adapter AdapterProps BaseLoad BaseNames BasePlaces BaseLayer BaseProps BaseExperts.
Local Open Scope nat_scope.

Module BT.
Import Ad BL BN BP BY BPr BE AdProps MK MC FE SM SMP SMT.

Section Ranks.
Context {R : Type} {HO : ScalarOps R} {sle : R -> R -> Prop} {HL : ScalarLaws R sle}.
Local Open Scope sc_scope.

(** The experts of the PyTorch model, with the tensors of the checkpoint. *)
Definition mlp_of (T : kind -> tensor R) (h total e : nat) : Moe.mlp R :=
  Moe.mkMlp h total (entry (T (KExpert e W1))) (entry (T (KExpert e W3))) (entry (T (KExpert e W2))) silu.

Definition whole (T : kind -> tensor R) (E h total : nat) : weights R :=
  mkWeights E (2 * total) h
    (fun e i j => if (i <? total)%nat then entry (T (KExpert e W1)) i j else entry (T (KExpert e W3)) (i - total)%nat j)
    (fun e => entry (T (KExpert e W2))).

Lemma half_rows (I : nat) : (2 * I / 2 = I)%nat.
Proof. rewrite Nat.mul_comm. by apply Nat.div_mul. Qed.

Lemma whole_loaded T E h total e : expert_loaded (whole T E h total) e (mlp_of T h total e).
Proof.
  split; cbn [whole mlp_of wN wH w1 w2 Moe.hidden_size Moe.intermediate_size Moe.act_fn Moe.gate_proj Moe.up_proj Moe.down_proj];
    rewrite ?half_rows; try done.
  - intros i j Hi _. by rewrite (proj2 (Nat.ltb_lt _ _) Hi).
  - intros i j Hi _. rewrite (proj2 (Nat.ltb_ge _ _)) by lia. f_equal. lia.
Qed.

Variables (expand : list nat -> tensor R -> res (tensor R)) (normalize : tensor R -> tensor R) (C : config).
Variables (l P Q L I h n Is : nat) (srank : nat -> nat -> nat) (has_shared : bool) (T : kind -> tensor R).
#[local] Abbreviation moe a b := (mkMoe (config_num_experts C) a L b).
#[local] Abbreviation total := (Q * I)%nat.

(** A rank that loaded the checkpoint has its part of the experts. *)
Lemma rank_shard a b ps ps' ck other : (b < Q)%nat -> (a < P)%nat -> config_num_experts C = (P * L)%nat -> (srank a b < n)%nat ->
  tie_word_embeddings C = false -> norm_head C = false -> layer_tensors C h total n Is T ->
  layer_params C l (moe a b) I h (srank a b) n Is has_shared ps ->
  checkpoint expand normalize C l has_shared T ck ps other ->
  load_weights expand normalize C ck ps = Ok ps' ->
  shard_of (whole T (config_num_experts C) h total) (block_weights ps' l L I h) L I a b.
Proof.
  intros Hb Ha HE Hr Ht Hn HT Hp Hc Hl.
  assert (Hfit : ((b + 1) * I <= total)%nat) by (apply Nat.mul_le_mono_r; lia).
  destruct (layer_holds expand normalize C l (moe a b) I h total (srank a b) n Is has_shared T Ht Hn HT Hr Hfit ck ps other Hp Hc)
    as (ps1 & E1 & Hs & Hh). rewrite Hl in E1. injection E1 as <-.
  assert (He : forall le, (le < L)%nat -> (a * L + le < config_num_experts C)%nat).
  { intros le Hle. rewrite HE. assert (a * L + L <= P * L)%nat by (replace (a * L + L)%nat with ((a + 1) * L)%nat by lia; apply Nat.mul_le_mono_r; lia). lia. }
  assert (Hrow : forall i, (i < I)%nat -> (b * I + i < total)%nat) by (intros i Hi; lia).
  split; cbn [wE wN wH whole block_weights]; try done.
  - intros le i j Hle Hi Hj.
    pose proof (rank_w1 expand normalize C l (moe a b) I h total (srank a b) n Is has_shared T Ht Hn HT Hr Hfit ps ps' Hp Hs Hh le W1 i j ltac:(done) Hle (He le Hle) Hi Hj) as E.
    cbn [half w1 block_weights num_local_experts moe_ep_rank moe_tp_rank] in E. cbn [w1 whole block_weights]. rewrite Nat.mul_0_l, Nat.add_0_l in E.
    rewrite E. by rewrite (proj2 (Nat.ltb_lt _ _) (Hrow i Hi)).
  - intros le i j Hle Hi Hj.
    pose proof (rank_w1 expand normalize C l (moe a b) I h total (srank a b) n Is has_shared T Ht Hn HT Hr Hfit ps ps' Hp Hs Hh le W3 i j ltac:(done) Hle (He le Hle) Hi Hj) as E.
    cbn [half w1 block_weights num_local_experts moe_ep_rank moe_tp_rank] in E. cbn [w1 whole block_weights]. rewrite Nat.mul_1_l in E.
    rewrite E, half_rows, (proj2 (Nat.ltb_ge _ _)) by lia. f_equal. lia.
  - intros le d i Hle Hd Hi.
    apply (rank_w2 expand normalize C l (moe a b) I h total (srank a b) n Is has_shared T Ht Hn HT Hr Hfit ps ps' Hp Hs Hh le d i Hle (He le Hle) Hd Hi).
Qed.

(** C18. The experts of a server with [P] expert-parallel and [Q] tensor-parallel ranks,
    from the checkpoint to the output.  Every rank loads any checkpoint that holds the
    layer, in any order of its tensors; then each rank runs the fused kernels on the
    experts and rows it kept, with the ids its dispatcher maps, and the sum over all
    ranks is, for every token, the weighted and scaled sum of the PyTorch experts the
    token was routed to.  The number of choices per token is not one: with a single
    choice the fused kernels can lose the down projection. *)
Theorem sharded_experts_exact (ck : dict R) (ps : nat -> nat -> gmap str (param R)) (other : nat -> nat -> str * tensor R -> place R)
    (W : nat -> nat -> world R) inplace (factor : R) topk wts tids N (hidden : mem R) (outs caches : nat -> nat -> mem R) :
  (0 < L)%nat -> config_num_experts C = (P * L)%nat -> (forall a b, (a < P)%nat -> (b < Q)%nat -> (srank a b < n)%nat) ->
  tie_word_embeddings C = false -> norm_head C = false -> layer_tensors C h total n Is T ->
  (forall a b, (a < P)%nat -> (b < Q)%nat -> layer_params C l (moe a b) I h (srank a b) n Is has_shared (ps a b)) ->
  (forall a b, (a < P)%nat -> (b < Q)%nat ->
     checkpoint expand normalize C l has_shared T ck (ps a b) (other a b)) ->
  (forall a b, world_ok (W a b)) -> (forall a : R, s_is_zero a = true -> a = s0) -> topk <> 1%nat ->
  (forall t, (t < N * topk)%nat -> (0 <= tids t < Z.of_nat (config_num_experts C))%Z) ->
  (forall a b, (a < P)%nat -> (b < Q)%nat -> exists ps', load_weights expand normalize C ck (ps a b) = Ok ps') /\
  forall ps', (forall a b, (a < P)%nat -> (b < Q)%nat -> load_weights expand normalize C ck (ps a b) = Ok (ps' a b)) ->
  forall r d, (r < N)%nat -> (d < h)%nat ->
  vsum P (fun a => vsum Q (fun b =>
    fst (fused_experts_impl (W a b) (block_weights (ps' a b) l L I h) inplace true factor topk wts
           (fun p => local_expert_mapping L a (tids p)) N hidden (outs a b) (caches a b)) (r * h + d)%nat)) =
  vsum topk (fun k => Moe.mlp_forward (mlp_of T h total (Z.to_nat (tids (r * topk + k)%nat)))
                        (fun j => hidden (r * h + j)%nat) d * wts (r * topk + k)%nat) * factor.
Proof.
  intros HL' HE Hsr Ht Hn HT Hp Hc Hw Hz Hk Hi. split.
  { intros a b Ha Hb. assert (Hfit : ((b + 1) * I <= total)%nat) by (apply Nat.mul_le_mono_r; lia).
    destruct (layer_holds expand normalize C l (moe a b) I h total (srank a b) n Is has_shared T Ht Hn HT (Hsr a b Ha Hb) Hfit
      ck (ps a b) (other a b) (Hp a b Ha Hb) (Hc a b Ha Hb)) as (ps1 & E1 & _). by exists ps1. }
  intros ps' Hl r d Hr Hd. set (ws := whole T (config_num_experts C) h total).
  assert (Hsh : forall a b, (a < P)%nat -> (b < Q)%nat -> shard_of ws (block_weights (ps' a b) l L I h) L I a b).
  { intros a b Ha Hb. apply (rank_shard a b (ps a b) (ps' a b) ck (other a b)); auto. }
  rewrite (vsum_ext P _ (fun a => vsum Q (fun b => routed_sum (block_weights (ps' a b) l L I h) true factor topk wts
    (fun p => local_expert_mapping L a (tids p)) (fun r d => hidden (r * h + d)%nat) r d))).
  - rewrite (sharded_sum ws (fun a b => block_weights (ps' a b) l L I h) L P Q I Hsh eq_refl HL' factor topk wts tids);
      [|intros k Hk'; rewrite <- HE; apply Hi; nia|done].
    unfold routed_sum. f_equal. apply vsum_ext. intros k Hk'. unfold choice_out. cbn [andb].
    by rewrite (expert_out_mlp ws _ (mlp_of T h total (Z.to_nat (tids (r * topk + k)%nat)))) by (done || apply whole_loaded).
  - intros a Ha. apply vsum_ext. intros b Hb.
    destruct (fused_experts_rows (W a b) (block_weights (ps' a b) l L I h) inplace true factor topk wts
      (fun p => local_expert_mapping L a (tids p)) (Hw a b) Hz N hidden (outs a b) (caches a b)) as [E _]; [by left| |by apply E].
    apply (ep_ids_ok _ L P tids); [done|done|]. by rewrite <- HE.
Qed.

End Ranks.
(** ** The block of one rank *)

Section Block.
Import Reals RealSample.

(** The gate and the shared experts of the PyTorch model. *)
Definition gate_of (T : kind -> tensor R) (h E : nat) (c : moe_config R) : Moe.gate R :=
  Moe.mkGate (num_experts_per_tok c) E (cfg_n_group c) (cfg_topk_group c) h (entry (T KRouter))
    (cfg_routed_scaling_factor c) (fun e => nth e (data (T KBias)) 0%R).

Definition shared_mlp_of (T : kind -> tensor R) (h Is : nat) : Moe.mlp R :=
  Moe.mkMlp h Is (entry (T (KShared W1))) (entry (T (KShared W3))) (entry (T (KShared W2))) silu.

(** The block that the parameters of layer [l] make. *)
Definition block_of (ps : gmap str (param R)) (l E I h Is : nat) (c : moe_config R) (tk : TopKConfig R) : moe_block R :=
  mkBlock tk (entry (param_data ps (router_name l))) (block_weights ps l E I h) (cfg_num_shared_experts c)
    (mkSMlp Is (entry (param_data ps (merged_name (shared_of l)))) (entry (param_data ps (proj_weight (shared_of l) W2))))
    (cfg_routed_scaling_factor c).

Variables (expand : list nat -> tensor R -> res (tensor R)) (normalize : tensor R -> tensor R) (C : config).
Variables (l I h Is : nat) (has_shared : bool) (T : kind -> tensor R) (c : moe_config R).
#[local] Abbreviation E := (config_num_experts C).
#[local] Abbreviation moe := (mkMoe E 0 E 0).

Lemma block_matches ps ps' ck other tk :
  tie_word_embeddings C = false -> norm_head C = false -> layer_tensors C h I 1 Is T ->
  layer_params C l moe I h 0 1 Is has_shared ps -> checkpoint expand normalize C l has_shared T ck ps other ->
  load_weights expand normalize C ck ps = Ok ps' ->
  norm_topk_prob c = true -> (if has_shared then exists k, cfg_num_shared_experts c = Some (S k) else cfg_num_shared_experts c = Some 0) ->
  make_topk c (Some (data (param_data ps' (bias_name l)))) = Ok tk ->
  matches c (block_of ps' l E I h Is c tk) (gate_of T h E c) (map (mlp_of T h I) (seq 0 E))
    (if has_shared then Some (shared_mlp_of T h Is) else None).
Proof.
  intros Ht Hn HT Hp Hc Hl Hnorm Hsh Htk.
  assert (Hfit : (moe_tp_rank moe + 1) * I <= I) by (cbn; lia). assert (H01 : 0 < 1) by lia.
  destruct (layer_holds expand normalize C l moe I h I 0 1 Is has_shared T Ht Hn HT H01 Hfit ck ps other Hp Hc) as (ps1 & E1 & Hs & Hh).
  rewrite Hl in E1. injection E1 as <-.
  pose proof (rank_bias expand normalize C l moe I h I 0 1 Is has_shared T Ht Hn HT H01 Hfit ps ps' Hp Hs Hh) as Hbias.
  split; cbn [block_of gate_of blk_topk blk_factor blk_weights gate_weight num_shared_experts shared_experts wE wH block_weights
    Moe.num_experts Moe.gating_dim Moe.top_k Moe.n_group Moe.topk_group Moe.routed_scaling_factor Moe.weight Moe.expert_bias]; try done.
  - rewrite <- Htk, Hbias. do 2 f_equal. destruct (lt_bias _ _ _ _ _ _ HT) as [_ Lb]. rewrite <- Lb.
    clear. induction (data (T KBias)) as [|a v IH]; [done|]. cbn [length seq map nth]. f_equal. by rewrite <- seq_shift, map_map.
  - by rewrite length_map, length_seq.
  - intros e d He Hd. by apply (rank_router expand normalize C l moe I h I 0 1 Is has_shared T Ht Hn HT H01 Hfit ps ps' Hp Hs Hh).
  - intros e M HM. rewrite list_lookup_fmap in HM. apply fmap_Some in HM as (e' & He' & ->). apply lookup_seq in He' as [-> He].
    pose proof (rank_w1 expand normalize C l moe I h I 0 1 Is has_shared T Ht Hn HT H01 Hfit ps ps' Hp Hs Hh e) as H1.
    pose proof (rank_w2 expand normalize C l moe I h I 0 1 Is has_shared T Ht Hn HT H01 Hfit ps ps' Hp Hs Hh e) as H2.
    cbn [num_local_experts moe_ep_rank moe_tp_rank] in H1, H2. rewrite Nat.mul_0_l, Nat.add_0_l in H1, H2.
    split; cbn [mlp_of wN wH Moe.hidden_size Moe.intermediate_size Moe.act_fn Moe.gate_proj Moe.up_proj Moe.down_proj block_weights];
      rewrite ?half_rows; try done.
    + intros i j Hi Hj. by apply (H1 W1 i j).
    + intros i j Hi Hj. pose proof (H1 W3 i j ltac:(done) He He Hi Hj) as Hq. cbn [half] in Hq. by rewrite Nat.mul_1_l in Hq.
    + intros d i Hd Hi. by apply (H2 d i).
  - destruct has_shared; [|done]. split; [done|].
    pose proof (rank_gate_up expand normalize C l moe I h I 0 1 Is true T Ht Hn HT H01 Hfit ps ps' Hp Hs Hh) as H1.
    pose proof (rank_down expand normalize C l moe I h I 0 1 Is true T Ht Hn HT H01 Hfit ps ps' Hp Hs Hh) as H2.
    split; cbn [shared_mlp_of sm_I sm_gate_up sm_down Moe.hidden_size Moe.intermediate_size Moe.act_fn Moe.gate_proj Moe.up_proj Moe.down_proj];
      try done.
    + intros i j Hi Hj. by apply (H1 W1 i j).
    + intros i j Hi Hj. pose proof (H1 W3 i j eq_refl ltac:(done) Hi Hj) as Hq. cbn [half] in Hq. by rewrite Nat.mul_1_l in Hq.
    + intros d i Hd Hi. by apply (H2 d i).
Qed.

(** C16. The sparse block of the server computes the block of the PyTorch model, from the
    checkpoint to the outputs.  [load_weights] accepts any checkpoint that holds the
    layer, in any order of its tensors.  The block made of the loaded parameters
    returns for every token the mixture that the gate and the experts with the
    tensors of the checkpoint give it, plus the shared experts on the states before
    the call, although the routed experts overwrite them.  The routed part differs by
    the factor [1 + 1e-20 / S], [S] being the (positive) sum of the chosen scores: the
    server divides by the sum itself.  It holds whichever gate kernel is used,
    whatever order [topk] returns, and for every configuration of the machine; the
    weights are normalised ([norm_topk_prob]), a token chooses more than one expert, the
    aiter kernel is not used, and one rank holds the layer. *)
Theorem served_moe_from_checkpoint (ck : dict R) ps other tu GK W N (hidden cache0 : mem R) :
  tie_word_embeddings C = false -> norm_head C = false -> layer_tensors C h I 1 Is T ->
  layer_params C l moe I h 0 1 Is has_shared ps -> checkpoint expand normalize C l has_shared T ck ps other ->
  norm_topk_prob c = true -> (if has_shared then exists k, cfg_num_shared_experts c = Some (S k) else cfg_num_shared_experts c = Some 0) ->
  Moe.gate_ok (gate_of T h E c) -> 1 < num_experts_per_tok c ->
  UnsortedLaws tu -> gate_kernel_laws GK -> use_aiter GK = false -> world_ok W ->
  exists ps', load_weights expand normalize C ck ps = Ok ps' /\
  forall tk, make_topk c (Some (data (param_data ps' (bias_name l)))) = Ok tk ->
  let B := block_of ps' l E I h Is c tk in
  let G := gate_of T h E c in
  exists out hs, forward_normal tu GK W B N hidden cache0 = Ok (out, hs) /\
  forall r d, r < N -> d < h -> exists y idx w lg,
    let x := row_of B hidden r in
    Moe.moe_ref G (map (mlp_of T h I) (seq 0 E)) None x = Ok y /\ Moe.gate_forward G x = Ok (idx, w, lg) /\
    (0 < score_sum G x idx)%R /\
    out (r * h + d) = plus_shared (if has_shared then Some (shared_mlp_of T h Is) else None) x d
      (y d * (1 + Q2R (1 # 100000000000000000000) / score_sum G x idx))%R.
Proof.
  intros Ht Hn HT Hp Hc Hnorm Hsh Hok Hk Htu Hgk Ha Hw.
  assert (Hfit : (moe_tp_rank moe + 1) * I <= I) by (cbn; lia). assert (H01 : 0 < 1) by lia.
  destruct (layer_holds expand normalize C l moe I h I 0 1 Is has_shared T Ht Hn HT H01 Hfit ck ps other Hp Hc) as (ps' & El & _).
  exists ps'. split; [done|]. intros tk Htk B G.
  pose proof (block_matches ps ps' ck other tk Ht Hn HT Hp Hc El Hnorm Hsh Htk) as Hm.
  destruct (served_moe_is_hf c B G _ _ tu GK W N hidden cache0 Hm Hok Hk Htu Hgk Ha Hw) as (out & hs & Ef & Hout).
  by exists out, hs.
Qed.

End Block.
(** ** A concrete checkpoint *)

Module Demo.
Import Reals RealSample SMT.Demo.

Definition cfg : config := mkCfg 2 false false.

(** Two experts of width one in layer 1, a shared one, the gate, and a norm. *)
Definition tensors (k : kind) : tensor R :=
  match k with
  | KExpert e _ => mkT [1; 1] [INR e]
  | KShared _ => mkT [1; 1] [1%R]
  | KRouter => mkT [2; 1] [1%R; 2%R]
  | KBias => mkT [2] [0%R; 0%R]
  end.

Definition norm_item : str * tensor R := (L "model.norm.weight", mkT [1] [1%R]).

Definition file : dict R := norm_item :: map (fun k => (kname 1 k, tensors k)) (kinds cfg true).

Definition zeros (sh : list nat) : tensor R := mkT sh (replicate (numel sh) 0%R).

(** The parameters of a rank that keeps [nl] experts. *)
Definition model (M : fused_moe) : gmap str (param R) :=
  <[expert_param (layer 1) W1 := mkP (Experts M) (zeros [num_local_experts M; 2; 1])]> (
  <[expert_param (layer 1) W2 := mkP (Experts M) (zeros [num_local_experts M; 1; 1])]> (
  <[merged_name (shared_of 1) := mkP (Merged [1; 1] 0 1) (zeros [2; 1])]> (
  <[proj_weight (shared_of 1) W2 := mkP (Row 0) (zeros [1; 1])]> (
  <[router_name 1 := mkP Default (zeros [2; 1])]> (
  <[bias_name 1 := mkP Default (zeros [2])]> (
  <[L "model.norm.weight" := mkP Default (zeros [1])]> ∅)))))).

Ltac find_param :=
  eexists; split; [unfold model; repeat (rewrite lookup_insert_ne by by_compute); apply lookup_insert_eq|];
  split; [reflexivity|]; split; [reflexivity|]; apply length_replicate.

Lemma model_params M : layer_params cfg 1 M 1 1 0 1 1 true (model M).
Proof. split; try intros _; find_param. Qed.

Lemma tensors_ok : layer_tensors cfg 1 1 1 1 tensors.
Proof. split; try (intros; split; reflexivity); split; reflexivity. Qed.

Definition expand : list nat -> tensor R -> res (tensor R) := fun _ _ => Raise RuntimeError.
Definition elsewhere (it : str * tensor R) : place R := mkPl (fst it) 0 (data (snd it)).

Lemma file_other it : it ∈ file -> (forall k, valid cfg true k -> fst it <> kname 1 k) -> it = norm_item.
Proof.
  intros [->|Hin]%elem_of_cons Ho; [done|]. apply list_elem_of_fmap in Hin as (k & -> & Hk%kinds_valid). by destruct (Ho k Hk).
Qed.

Lemma file_ok M : checkpoint expand (fun t => t) cfg 1 true tensors file (model M) elsewhere.
Proof.
  split.
  - by_compute.
  - intros k Hk. right. apply list_elem_of_fmap. exists k. split; [done|]. by apply kinds_valid.
  - intros it Hin Ho. rewrite (file_other it Hin Ho). split.
    + apply (placed_by expand (fun t => t) cfg (model M) _ _ _ Default [1]); [find_param|cbn; lia|].
      intros ps' p Hp El Es Ed. rewrite (load_plain expand (fun t => t) cfg eq_refl _ _ _ p);
        [|apply plain_other; [done|by_compute..]|exact Hp].
      unfold call_plain. rewrite El, BY.default_loads; [done|by rewrite Es|by rewrite Ed].
    + intros k _. rewrite kparam_suffix. discriminate.
  - intros it it' Hin Hin' Hne Ho Ho'. destruct Hne. by rewrite (file_other it Hin Ho), (file_other it' Hin' Ho').
Qed.

Definition moe_cfg : moe_config R := mkMoeConfig 2 true "silu" 1 1 2 2%R (Some "sigmoid"%string) (Some 1).

Lemma served_moe_from_checkpoint_witness : exists ps', load_weights expand (fun t => t) cfg file (model (mkMoe 2 0 2 0)) = Ok ps' /\
  forall tk, make_topk moe_cfg (Some (data (param_data ps' (bias_name 1)))) = Ok tk ->
  exists out hs, forward_normal t_topk gates machine (block_of ps' 1 2 1 1 1 moe_cfg tk) 1 (fun _ => 1%R) (fun _ => 0%R) = Ok (out, hs) /\
  exists y S, Moe.moe_ref (gate_of tensors 1 2 moe_cfg) (map (mlp_of tensors 1 1) (seq 0 2)) None (fun _ => 1%R) = Ok y /\ (0 < S)%R /\
    out 0 = (y 0%nat * (1 + Q2R (1 # 100000000000000000000) / S) + Moe.mlp_forward (shared_mlp_of tensors 1 1) (fun _ => 1) 0%nat)%R.
Proof.
  destruct (served_moe_from_checkpoint expand (fun t => t) cfg 1 1 1 1 true tensors moe_cfg file (model (mkMoe 2 0 2 0)) elsewhere
    t_topk gates machine 1 (fun _ => 1%R) (fun _ => 0%R)) as (ps' & El & Hb).
  - reflexivity.
  - reflexivity.
  - exact tensors_ok.
  - apply model_params.
  - apply file_ok.
  - reflexivity.
  - by exists 0.
  - split; cbn; lia.
  - cbn. lia.
  - apply _.
  - exact gates_ok.
  - reflexivity.
  - exact machine_ok.
  - exists ps'. split; [exact El|]. intros tk Htk. destruct (Hb tk Htk) as (out & hs & Ef & Hout).
    exists out, hs. split; [exact Ef|]. destruct (Hout 0 0) as (y & idx & w & lg & Ey & _ & HS & Eo); [lia|lia|].
    exists y. eexists. split; [exact Ey|]. split; [exact HS|]. exact Eo.
Defined.

(** The experts on two ranks. *)
Definition rank_model (a _ : nat) : gmap str (param R) := model (mkMoe 2 a 1 0).

Lemma sharded_experts_exact_witness :
  (exists ps', load_weights expand (fun t => t) cfg file (rank_model 1 0) = Ok ps') /\
  forall ps', (forall a b, a < 2 -> b < 1 -> load_weights expand (fun t => t) cfg file (rank_model a b) = Ok (ps' a b)) ->
  vsum 2 (fun a => vsum 1 (fun b =>
    fst (fused_experts_impl machine (block_weights (ps' a b) 1 1 1 1) true true 2%R 2 (fun _ => 1%R)
      (fun p => local_expert_mapping 1 a (if (p =? 0)%nat then 1%Z else 0%Z)) 1 (fun _ => 1%R) (fun _ => 0%R) (fun _ => 0%R)) 0)) =
  (vsum 2 (fun k => Moe.mlp_forward (mlp_of tensors 1 1 (Z.to_nat (if (k =? 0)%nat then 1 else 0))) (fun _ => 1) 0%nat * 1) * 2)%R.
Proof.
  destruct (sharded_experts_exact expand (fun t => t) cfg 1 2 1 1 1 1 1 1 (fun _ _ => 0) true tensors file rank_model (fun _ _ => elsewhere)
    (fun _ _ => machine) true 2%R 2 (fun _ => 1%R) (fun p => if (p =? 0)%nat then 1%Z else 0%Z) 1 (fun _ => 1%R) (fun _ _ _ => 0%R) (fun _ _ _ => 0%R))
    as [Hl Hs].
  - lia.
  - reflexivity.
  - intros. lia.
  - reflexivity.
  - reflexivity.
  - exact tensors_ok.
  - intros a b Ha Hb. assert (b = 0) as -> by lia. apply model_params.
  - intros a b Ha Hb. assert (b = 0) as -> by lia. apply file_ok.
  - intros. exact machine_ok.
  - exact real_zero.
  - lia.
  - intros t Ht. destruct (t =? 0)%nat; cbn; lia.
  - split; [apply (Hl 1 0); lia|]. intros ps' Hps. apply (Hs ps' Hps 0 0); lia.
Defined.

End Demo.
End BT.
