(* ===== verification/ExtendKernel.v ===== *)
(** The Triton kernels of softmax attention over a cached prefix and new tokens
    ([srt/layers/attention/triton_ops/extend_attention.py]).

    [_fwd_kernel] reads the prefix from the key-value pool and the new tokens from
    the projections; [_fwd_kernel_unified] reads both from the pool.  A program
    instance owns a block of query rows of one sequence and one head; it walks over
    tiles of keys and keeps, for every row, a running maximum, a denominator and an
    accumulator.  Minus infinity is [None]. *)
From stdpp Require Import base list.
From Stdlib Require Import ZArith QArith Lia.
From S2P Require Import Prelude Tensor HybridKernel Decoder.
Local Open Scope nat_scope.

(** [tl.log2]. *)
Class LogOps (R : Type) : Type := { slog2 : R -> R }.

Module EK.
Import HK.

(** ** Block sizes *)

Record blocks : Type := mkBlocks {
  BLOCK_DMODEL : nat;
  BLOCK_DPE : nat;
  BLOCK_DV : nat;
  BLOCK_M : nat;
  BLOCK_N : nat;
  num_warps : nat;
}.

(** The device: HIP, or CUDA with a compute capability, or another one. *)
Inductive device : Type := Hip | Cuda (major minor : nat) | OtherDevice.

Definition next_power_of_2 (n : nat) : nat := 2 ^ Nat.log2_up n.

Definition _get_block_sizes_for_extend_attention (dev : device) (Lq Lv : nat) : blocks :=
  let '(dmodel, dpe) :=
    if Lq =? 576 then (512, 64)
    else if Lq =? 288 then (256, 32)
    else if Lq =? 192 then (128, 64)
    else (next_power_of_2 Lq, 0) in
  let small := if Lq <=? 128 then (64, 128) else if Lq <=? 256 then (64, 64) else (32, 32) in
  let '(bm, bn) :=
    match dev with
    | Hip => (64, 64)
    | Cuda major minor =>
      if major =? 12 then small
      else if 9 <=? major then (if Lq <=? 256 then (128, 64) else (32, 64))
      else if 8 <=? major then
        if (minor =? 9) || (minor =? 6) then small
        else if Lq <=? 128 then (128, 128) else if Lq <=? 256 then (64, 64) else (32, 64)
      else if Lq <=? 128 then (64, 64) else (32, 32)
    | OtherDevice => if Lq <=? 128 then (64, 64) else (32, 32)
    end in
  let warps := match dev with Hip => 4 | _ => if Lq <=? 64 then 4 else 8 end in
  mkBlocks dmodel dpe (next_power_of_2 Lv) bm bn warps.

Section Kernel.
Context {R : Type} `{ScalarOps R} `{NetOps R} `{LogOps R}.
Local Open Scope sc_scope.

(** The cells of the output tensor: token, head, channel. *)
Definition omem : Type := nat * nat * nat -> R.

(** ** Online softmax *)

(** Accumulators of the rows of a program. *)
Record online : Type := mkOnline {
  acc : mat R;
  deno : vec R;
  e_max : nat -> option R;
}.

Definition online_init : online := mkOnline (fun _ _ => s0) (fun _ => s0) (fun _ => None).

Definition omax (x y : option R) : option R :=
  match x, y with
  | Some x, Some y => Some (smax x y)
  | Some x, None => Some x
  | None, y => y
  end.

(** [tl.max] over [n] lanes. *)
Fixpoint row_max (n : nat) (qk : nat -> option R) : option R :=
  match n with
  | O => None
  | S n => omax (row_max n qk) (qk n)
  end.

Definition neg_1e20 : R := s_of_Q (- inject_Z (10 ^ 20)).

(** One tile of [BN] keys with scores [qk] and values [v]; the products with the
    values are scaled where the tile has a scale. *)
Definition online_step (BN : nat) (qk : nat -> nat -> option R) (v : mat R) (v_scale : option R)
    (st : online) : online :=
  let row_max_fixed m := default neg_1e20 (row_max BN (qk m)) in
  let n_e_max m := match e_max st m with Some e => smax (row_max_fixed m) e | None => row_max_fixed m end in
  let re_scale m := match e_max st m with Some e => sexp (e - n_e_max m) | None => s0 end in
  let p m n := match qk m n with Some x => sexp (x - n_e_max m) | None => s0 end in
  let dot m d := let x := vsum BN (fun n => p m n * v n d) in
                 match v_scale with Some s => x * s | None => x end in
  mkOnline (fun m d => acc st m d * re_scale m + dot m d)
           (fun m => deno st m * re_scale m + vsum BN (p m))
           (fun m => Some (n_e_max m)).

(** [SKIP_TILE]: no lane of the tile is unmasked. *)
Definition no_lane (BM BN : nat) (mask : nat -> nat -> bool) : bool :=
  negb (existsb (fun m => existsb (mask m) (seq 0 BN)) (seq 0 BM)).

(** The final division, with the sink of the head; [exp(sink - (-inf))] is infinite.
    A row that saw no key and has no sink has nothing to divide by: the kernel stores
    NaN there, and so does [softmax_attention], whose division is the same [0 / 0].
    Under a causal mask every row sees its own key. *)
Definition finish (sink : option R) (st : online) (m d : nat) : R :=
  match sink, e_max st m with
  | None, _ => acc st m d / deno st m
  | Some s, Some e => acc st m d / (deno st m + sexp (s - e))
  | Some _, None => s0
  end.

(** ** Scores *)

Definition tanh (x : R) : R :=
  let two := s_of_Q (2 # 1) in two * sigmoid (two * x) - s1.

(** [logit_cap] where it is positive. *)
Definition cap (logit_cap : option R) (x : R) : R :=
  match logit_cap with Some c => c * tanh (x / c) | None => x end.

(** [tl.dot] of a query row and a key column with the masks of their loads. *)
Definition dot_lanes (B : blocks) (Lq : nat) (mask_m mask_n : bool) (q k : vec R) : R :=
  let load (mask : bool) (x : vec R) d := if mask then x d else s0 in
  let qk := vsum (BLOCK_DMODEL B) (fun d =>
    load (mask_m && (d <? Lq)%nat) q d * load (mask_n && (d <? Lq)%nat) k d) in
  if (0 <? BLOCK_DPE B)%nat then
    qk + vsum (BLOCK_DPE B) (fun d =>
      load mask_m q (BLOCK_DMODEL B + d)%nat * load mask_n k (BLOCK_DMODEL B + d)%nat)
  else qk.

(** ** The two-stage kernel *)

Record eargs : Type := mkE {
  Q_Extend : tok R;
  K_Extend : tok R;
  V_Extend : tok R;
  K_Buffer : tok R;
  V_Buffer : tok R;
  qo_indptr : list nat;
  kv_indptr : list nat;
  kv_indices : nat -> nat;
  mask_ptr : option (nat -> bool);
  mask_indptr : list nat;
  sink_ptr : option (vec R);
  window_kv_offsets : list nat;
  sm_scale : R;
  k_scale : R;
  v_scale : R;
  kv_group_num : nat;
  SLIDING_WINDOW_SIZE : Z;
  logit_cap : option R;
  xai_temperature_len : Z;
  Lq : nat;
  Lv : nat;
  IS_CAUSAL : bool;
  SKIP_PREFIX_CUSTOM_MASK : bool;
}.

Variables (B : blocks) (E : eargs).

(** Lengths and offsets of a sequence. *)
Definition seg_start (indptr : list nat) (i : nat) : nat := nth i indptr 0%nat.
Definition seg_len (indptr : list nat) (i : nat) : nat := (nth (S i) indptr 0 - nth i indptr 0)%nat.

Definition windowed : bool := (0 <? SLIDING_WINDOW_SIZE E)%Z.

Definition window_kv_offset (cur_seq : nat) : nat :=
  match mask_ptr E with
  | Some _ => if windowed then nth cur_seq (window_kv_offsets E) 0%nat else 0%nat
  | None => 0%nat
  end.

(** [q_id <= kv_id + SLIDING_WINDOW_SIZE]. *)
Definition window_mask (q_id kv_id : nat) : bool :=
  negb windowed || (Z.of_nat q_id <=? Z.of_nat kv_id + SLIDING_WINDOW_SIZE E)%Z.

(** Query row [i] of the sequence against key [j] of its prefix. *)
Definition prefix_mask (cur_seq i j : nat) : bool :=
  let prefix := seg_len (kv_indptr E) cur_seq in
  let len := seg_len (qo_indptr E) cur_seq in
  let off := window_kv_offset cur_seq in
  ((i <? len) && (j <? prefix))%nat &&
  match mask_ptr E with
  | Some mask => SKIP_PREFIX_CUSTOM_MASK E ||
      mask (nth cur_seq (mask_indptr E) 0 + i * (prefix + len + off) + off + j)%nat
  | None => true
  end && window_mask (prefix + i) j.

(** Query row [i] against new key [j], of which the block loads [m_end]. *)
Definition extend_mask (cur_seq m_end i j : nat) : bool :=
  let prefix := seg_len (kv_indptr E) cur_seq in
  let len := seg_len (qo_indptr E) cur_seq in
  let off := window_kv_offset cur_seq in
  ((i <? len) && (j <? m_end))%nat &&
  match mask_ptr E with
  | Some mask => mask (nth cur_seq (mask_indptr E) 0 + i * (prefix + len + off) + off + prefix + j)%nat
  | None => if IS_CAUSAL E then (j <=? i)%nat else true
  end && window_mask i j.

(** Temperature of the query at position [qidx]. *)
Definition temper (qidx : nat) (x : R) : R :=
  if (0 <? xai_temperature_len E)%Z then
    x * (if (xai_temperature_len E <? Z.of_nat qidx)%Z
         then slog2 (s_of_nat qidx) * (s1 / slog2 (s_of_nat (Z.to_nat (xai_temperature_len E)))) else s1)
  else x.

(** Score of query row [i]: scale, cap, temperature, mask. *)
Definition score (cur_seq i : nat) (scale qk : R) (mask : bool) : option R :=
  if mask then Some (temper (seg_len (kv_indptr E) cur_seq + i) (cap (logit_cap E) (qk * scale))) else None.

(** One row of a tensor of tokens. *)
Definition row (x : tok R) (t h : nat) : vec R := fun d => x t h d.

(** [tl.load(x, mask=..., other=0.0)] of the values of a tile. *)
Definition load_v (Lv : nat) (mask_n : nat -> bool) (v : nat -> vec R) : mat R :=
  fun n d => if mask_n n && (d <? Lv)%nat then v n d else s0.

(** A tile of the prefix. *)
Definition prefix_tile (cur_seq cur_head cur_block_m : nat) (i : nat) (st : online) : online :=
  let start_n := (i * BLOCK_N B)%nat in
  let kvh := (cur_head / kv_group_num E)%nat in
  let prefix := seg_len (kv_indptr E) cur_seq in
  let qrow m := (cur_block_m * BLOCK_M B + m)%nat in
  let mask_m m := (qrow m <? seg_len (qo_indptr E) cur_seq)%nat in
  let mask_n n := (start_n + n <? prefix)%nat in
  let final_mask m n := prefix_mask cur_seq (qrow m) (start_n + n) in
  let skips := match mask_ptr E with Some _ => negb (SKIP_PREFIX_CUSTOM_MASK E) | None => false end || windowed in
  if skips && no_lane (BLOCK_M B) (BLOCK_N B) final_mask then st
  else
    let loc n := if mask_n n then kv_indices E (seg_start (kv_indptr E) cur_seq + (start_n + n))%nat else 0%nat in
    let qk m n := dot_lanes B (Lq E) (mask_m m) (mask_n n)
                    (row (Q_Extend E) (seg_start (qo_indptr E) cur_seq + qrow m) cur_head)
                    (row (K_Buffer E) (loc n) kvh) in
    online_step (BLOCK_N B)
      (fun m n => score cur_seq (qrow m) (sm_scale E * k_scale E) (qk m n) (final_mask m n))
      (load_v (Lv E) mask_n (fun n => row (V_Buffer E) (loc n) kvh)) (Some (v_scale E)) st.

(** A tile of the new tokens, of which the block sees the first [m_end]. *)
Definition extend_tile (cur_seq cur_head cur_block_m m_end : nat) (i : nat) (st : online) : online :=
  let start_n := (i * BLOCK_N B)%nat in
  let kvh := (cur_head / kv_group_num E)%nat in
  let start := seg_start (qo_indptr E) cur_seq in
  let qrow m := (cur_block_m * BLOCK_M B + m)%nat in
  let mask_m m := (qrow m <? seg_len (qo_indptr E) cur_seq)%nat in
  let mask_n n := (start_n + n <? m_end)%nat in
  let final_mask m n := extend_mask cur_seq m_end (qrow m) (start_n + n) in
  let skips := match mask_ptr E with Some _ => true | None => false end || windowed in
  if skips && no_lane (BLOCK_M B) (BLOCK_N B) final_mask then st
  else
    let qk m n := dot_lanes B (Lq E) (mask_m m) (mask_n n)
                    (row (Q_Extend E) (start + qrow m) cur_head)
                    (row (K_Extend E) (start + (start_n + n)) kvh) in
    online_step (BLOCK_N B)
      (fun m n => score cur_seq (qrow m) (sm_scale E) (qk m n) (final_mask m n))
      (load_v (Lv E) mask_n (fun n => row (V_Extend E) (start + (start_n + n)) kvh)) None st.

(** [range(0, len, BLOCK_N)]. *)
Definition tiles (BN len : nat) (body : nat -> online -> online) (st : online) : online :=
  foldl (fun st i => body i st) st (seq 0 (cdiv len BN)).

(** [cur_block_m_end]. *)
Definition block_m_end (cur_seq cur_block_m : nat) : nat :=
  let len := seg_len (qo_indptr E) cur_seq in
  if IS_CAUSAL E then Nat.min len ((cur_block_m + 1) * BLOCK_M B) else len.

(** The masked store of a block of output rows. *)
Definition store_rows (Lv start len cur_head cur_block_m : nat) (v : nat -> nat -> R) (o : omem) : omem :=
  fun '(t, h, d) =>
    if (h =? cur_head)%nat && (start + cur_block_m * BLOCK_M B <=? t)%nat
       && (t <? start + Nat.min len (cur_block_m * BLOCK_M B + BLOCK_M B))%nat && (d <? Nat.min Lv (BLOCK_DV B))%nat
    then v (t - (start + cur_block_m * BLOCK_M B))%nat d else o (t, h, d).

(** Program [(cur_seq, cur_head, cur_block_m)]. *)
Definition _fwd_kernel (pid : nat * nat * nat) (o : omem) : omem :=
  let '(cur_seq, cur_head, cur_block_m) := pid in
  let m_end := block_m_end cur_seq cur_block_m in
  let st := tiles (BLOCK_N B) (seg_len (kv_indptr E) cur_seq) (prefix_tile cur_seq cur_head cur_block_m) online_init in
  let st := tiles (BLOCK_N B) m_end (extend_tile cur_seq cur_head cur_block_m m_end) st in
  store_rows (Lv E) (seg_start (qo_indptr E) cur_seq) (seg_len (qo_indptr E) cur_seq) cur_head cur_block_m
    (finish (option_map (fun s => s cur_head) (sink_ptr E)) st) o.

(** ** The unified kernel *)

(** Prefix and new tokens are both in the pool; [kv_indices] lists the slots of a
    sequence, the first [prefix_lens] of them its prefix. *)
Record uargs : Type := mkU {
  u_Q : tok R;
  u_K : tok R;
  u_V : tok R;
  u_qo_indptr : list nat;
  u_kv_indptr : list nat;
  u_kv_indices : nat -> nat;
  u_prefix_lens : list nat;
  u_mask : option (nat -> bool);
  u_mask_indptr : list nat;
  u_sink : option (vec R);
  u_window_start_pos : list nat;
  u_scale : R;
  u_v_scale : R;
  u_group_num : nat;
  u_window : Z;
  u_cap : option R;
  u_xai_len : Z;
  u_Lq : nat;
  u_Lv : nat;
  u_causal : bool;
}.

Section Unified.
Variable U : uargs.

Definition u_windowed : bool := (0 <? u_window U)%Z.

Definition u_final_mask (cur_seq i j : nat) : bool :=
  let len := seg_len (u_qo_indptr U) cur_seq in
  let kv_len := seg_len (u_kv_indptr U) cur_seq in
  let prefix := nth cur_seq (u_prefix_lens U) 0%nat in
  let window_start := if u_windowed then nth cur_seq (u_window_start_pos U) 0%nat else 0%nat in
  ((i <? len) && (j <? kv_len))%nat &&
  match u_mask U with
  | Some mask => mask (nth cur_seq (u_mask_indptr U) 0 + i * kv_len + j)%nat
  | None => if u_causal U then (if (prefix <=? j)%nat then (j - prefix <=? i)%nat else true) else true
  end &&
  (negb u_windowed ||
   (Z.of_nat (window_start + prefix + i) <=? Z.of_nat (window_start + j) + u_window U)%Z).

Definition u_temper (qidx : nat) (x : R) : R :=
  if (0 <? u_xai_len U)%Z then
    x * (if (Z.of_nat qidx <? u_xai_len U)%Z then s1
         else s_of_nat (Z.to_nat (u_xai_len U)) / (s_of_nat qidx + s1))
  else x.

Definition u_tile (cur_seq cur_head cur_block_m : nat) (i : nat) (st : online) : online :=
  let start_n := (i * BLOCK_N B)%nat in
  let kvh := (cur_head / u_group_num U)%nat in
  let qrow m := (cur_block_m * BLOCK_M B + m)%nat in
  let mask_m m := (qrow m <? seg_len (u_qo_indptr U) cur_seq)%nat in
  let mask_n n := (start_n + n <? seg_len (u_kv_indptr U) cur_seq)%nat in
  let final_mask m n := u_final_mask cur_seq (qrow m) (start_n + n) in
  let skips := match u_mask U with Some _ => true | None => false end || u_windowed in
  if skips && no_lane (BLOCK_M B) (BLOCK_N B) final_mask then st
  else
    let loc n := if mask_n n then u_kv_indices U (seg_start (u_kv_indptr U) cur_seq + (start_n + n))%nat else 0%nat in
    let qk m n := dot_lanes B (u_Lq U) (mask_m m) (mask_n n)
                    (row (u_Q U) (seg_start (u_qo_indptr U) cur_seq + qrow m) cur_head)
                    (row (u_K U) (loc n) kvh) in
    online_step (BLOCK_N B)
      (fun m n => if final_mask m n
                  then Some (u_temper (nth cur_seq (u_prefix_lens U) 0 + qrow m)%nat (cap (u_cap U) (qk m n * u_scale U)))
                  else None)
      (load_v (u_Lv U) mask_n (fun n => row (u_V U) (loc n) kvh)) None st.

Definition _fwd_kernel_unified (pid : nat * nat * nat) (o : omem) : omem :=
  let '(cur_seq, cur_head, cur_block_m) := pid in
  let st := tiles (BLOCK_N B) (seg_len (u_kv_indptr U) cur_seq) (u_tile cur_seq cur_head cur_block_m) online_init in
  store_rows (u_Lv U) (seg_start (u_qo_indptr U) cur_seq) (seg_len (u_qo_indptr U) cur_seq) cur_head cur_block_m
    (fun m d => finish (option_map (fun s => s cur_head) (u_sink U)) st m d * u_v_scale U) o.

End Unified.

End Kernel.
Arguments eargs : clear implicits.
Arguments uargs : clear implicits.
Arguments online : clear implicits.
Arguments omem : clear implicits.

(** ** Launches *)

(** The grid [(batch_size, head_num, cdiv(max_len_extend, BLOCK_M))]. *)
Definition grid3 (batch_size head_num blocks_m : nat) : list (nat * nat * nat) :=
  list_prod (list_prod (seq 0 batch_size) (seq 0 head_num)) (seq 0 blocks_m).

Section Launches.
Context {R : Type} `{ScalarOps R} `{NetOps R} `{LogOps R}.

(** The device and the order in which it runs a grid. *)
Variables (dev : device) (sched : list (nat * nat * nat) -> list (nat * nat * nat)).

(** [sm_scale or 1.0 / (Lq**0.5)]. *)
Definition scale_or (sm_scale : option R) (Lq : nat) : R :=
  match sm_scale with
  | Some s => if s_is_zero s then sinvsqrt Lq else s
  | None => sinvsqrt Lq
  end.

Definition extend_attention_fwd (head_num kv_head_num Lq Lv : nat) (q_extend k_extend v_extend : tok R)
    (k_buffer v_buffer : tok R) (qo_indptr kv_indptr : list nat) (kv_indices : nat -> nat)
    (custom_mask : option (nat -> bool)) (is_causal : bool) (mask_indptr : list nat) (max_len_extend : nat)
    (k_scale v_scale : R) (sm_scale : option R) (logit_cap : option R) (skip_prefix_custom_mask : bool)
    (sliding_window_size : Z) (sinks : option (vec R)) (window_kv_offsets : list nat)
    (xai_temperature_len : Z) (o_extend : omem R) : omem R :=
  let B := _get_block_sizes_for_extend_attention dev Lq Lv in
  let E := mkE q_extend k_extend v_extend k_buffer v_buffer qo_indptr kv_indptr kv_indices custom_mask mask_indptr
             sinks window_kv_offsets (scale_or sm_scale Lq) k_scale v_scale (head_num / kv_head_num)
             sliding_window_size logit_cap xai_temperature_len Lq Lv is_causal skip_prefix_custom_mask in
  launch (_fwd_kernel B E)
    (sched (grid3 (length qo_indptr - 1) head_num (cdiv max_len_extend (BLOCK_M B)))) o_extend.

Definition extend_attention_fwd_unified (head_num kv_head_num Lq Lv : nat) (q k_buffer v_buffer : tok R)
    (k_scale v_scale : R) (qo_indptr kv_indptr : list nat) (kv_indices : nat -> nat) (prefix_lens : list nat)
    (max_len_extend : nat) (custom_mask : option (nat -> bool)) (mask_indptr : list nat) (sm_scale : option R)
    (logit_cap : option R) (is_causal : bool) (sliding_window_size : Z) (sinks : option (vec R))
    (window_start_pos : option (list nat)) (xai_temperature_len : Z) (o : omem R) : omem R :=
  let B := _get_block_sizes_for_extend_attention dev Lq Lv in
  let batch_size := length qo_indptr - 1 in
  let U := mkU q k_buffer v_buffer qo_indptr kv_indptr kv_indices prefix_lens custom_mask mask_indptr sinks
             (default (replicate batch_size 0) window_start_pos) (smul (scale_or sm_scale Lq) k_scale) v_scale
             (head_num / kv_head_num) sliding_window_size logit_cap xai_temperature_len Lq Lv is_causal in
  launch (_fwd_kernel_unified B U) (sched (grid3 batch_size head_num (cdiv max_len_extend (BLOCK_M B)))) o.

End Launches.

(** ** Index kernels *)

(** A copy of [len] entries in chunks of [BLOCK] lanes to the buffer at [dst]. *)
Definition copy_chunks (BLOCK len : nat) (src : nat -> nat) (dst : nat) (m : nat -> nat) : nat -> nat :=
  foldl (fun m i x =>
    if (dst + i * BLOCK <=? x) && (x <? dst + i * BLOCK + BLOCK) && (x - dst <? len) then src (x - dst) else m x)
    m (seq 0 (cdiv len BLOCK)).

(** [create_flashinfer_kv_indices_triton] of [srt/layers/attention/utils.py],
    program [pid]. *)
Definition create_flashinfer_kv_indices_triton (req_to_token : nat -> nat -> nat) (req_pool_indices lens indptr : list nat)
    (kv_start_idx : option (list nat)) (pid : nat) (m : nat -> nat) : nat -> nat :=
  let req := nth pid req_pool_indices 0 in
  let kv_start := match kv_start_idx with Some l => nth pid l 0 | None => 0 end in
  let kv_end := kv_start + nth pid lens 0 in
  copy_chunks 512 (kv_end - kv_start) (fun offset => req_to_token req (kv_start + offset)) (nth pid indptr 0) m.

(** [_copy_unified_indices_kernel], program [pid]. *)
Definition _copy_unified_indices_kernel (prefix_kv_indptr : list nat) (prefix_kv_indices : nat -> nat)
    (extend_start_loc extend_seq_lens : list nat) (extend_kv_indices : nat -> nat) (unified_kv_indptr : list nat)
    (bs pid : nat) (m : nat -> nat) : nat -> nat :=
  if bs <=? pid then m
  else
    let prefix_start := nth pid prefix_kv_indptr 0 in
    let prefix_len := nth (S pid) prefix_kv_indptr 0 - prefix_start in
    let extend_start := nth pid extend_start_loc 0 in
    let extend_len := nth pid extend_seq_lens 0 in
    let unified_start := nth pid unified_kv_indptr 0 in
    let m := copy_chunks 128 prefix_len (fun offs => prefix_kv_indices (prefix_start + offs)) unified_start m in
    copy_chunks 128 extend_len (fun offs => extend_kv_indices (extend_start + offs)) (unified_start + prefix_len) m.

(** [cat([0], cumsum(lens))]. *)
Definition indptr_of (lens : list nat) : list nat := map (fun i => sum_list (take i lens)) (seq 0 (S (length lens))).

(** [build_unified_kv_indices]: the pointers, the slots and the prefix lengths; the
    buffer of the slots starts uninitialised, as [m0]. *)
Definition build_unified_kv_indices (sched : list nat -> list nat) (prefix_kv_indptr : list nat)
    (prefix_kv_indices : nat -> nat) (extend_start_loc extend_seq_lens : list nat) (extend_kv_indices : nat -> nat)
    (bs : nat) (m0 : nat -> nat) : list nat * (nat -> nat) * list nat :=
  let prefix_lens := map (fun i => nth (S i) prefix_kv_indptr 0 - nth i prefix_kv_indptr 0) (seq 0 bs) in
  let unified_lens := zip_with Nat.add prefix_lens (take bs extend_seq_lens) in
  let unified_kv_indptr := indptr_of unified_lens in
  (unified_kv_indptr,
   launch (_copy_unified_indices_kernel prefix_kv_indptr prefix_kv_indices extend_start_loc extend_seq_lens
             extend_kv_indices unified_kv_indptr bs) (sched (seq 0 bs)) m0,
   prefix_lens).

End EK.
