(* ===== verification/ExtendFacts.v ===== *)
(** The attention kernels of [ExtendKernel] against softmax attention.

    For every row the accumulators of a program hold the sums of softmax attention
    over the keys seen so far, divided by the exponential of the running maximum;
    the final division cancels it.  So the block sizes of the device, the order of
    the programs and the tiles that are skipped have no effect. *)
From stdpp Require Import base list.
From Stdlib Require Import ZArith QArith Reals Lra Lia Ring.
From S2P Require Import Prelude Tensor HybridKernel Decoder ExtendKernel.
Local Open Scope nat_scope.

Module EF.
Import HK EK.

Section Online.
Context {R : Type} {HO : ScalarOps R} {sle : R -> R -> Prop} {HL : ScalarLaws R sle}.
Local Open Scope sc_scope.
Add Ring extend_ring : s_ring.

(** Weight of a score that is minus infinity where the key is masked. *)
Definition wt (x : option R) : R := match x with Some x => sexp x | None => s0 end.

Definition shift (e : option R) : R := match e with Some e => sexp (- e) | None => s1 end.

(** The accumulators of row [m] for the denominator [D] and the numerators [A]. *)
Record row_inv (m : nat) (D : R) (A : vec R) (st : online R) : Prop := {
  ri_deno : deno st m = D * shift (e_max st m);
  ri_acc : forall d, acc st m d = A d * shift (e_max st m);
  ri_none : e_max st m = None -> D = s0 /\ forall d, A d = s0;
}.

Lemma row_inv_init m : row_inv m s0 (fun _ => s0) online_init.
Proof. split; simpl; [ring|intros; ring|done]. Qed.

Lemma row_inv_ext m D D' A A' st : D = D' -> (forall d, A d = A' d) -> row_inv m D A st -> row_inv m D' A' st.
Proof.
  intros <- HA [H1 H2 H3]. split; [done|intros d; by rewrite H2, HA|].
  intros Hn. destruct (H3 Hn) as [HD H0]. split; [done|]. intros d. by rewrite <- HA.
Qed.

Lemma wt_shift x N : match x with Some x => sexp (x - N) | None => s0 end = wt x * sexp (- N).
Proof.
  destruct x as [x|]; simpl; [|ring]. rewrite <- sexp_add. f_equal. ring.
Qed.

Lemma row_step_inv BN qk v vs m D A st : row_inv m D A st ->
  row_inv m (D + vsum BN (fun n => wt (qk m n)))
    (fun d => A d + vsum BN (fun n => wt (qk m n) * v n d) * default s1 vs) (online_step BN qk v vs st).
Proof.
  intros [Hd Ha Hn]. set (N := match e_max st m with
    | Some e => smax (default neg_1e20 (row_max BN (qk m))) e | None => default neg_1e20 (row_max BN (qk m)) end).
  assert (Hre : forall X Y, Y = X * shift (e_max st m) -> (e_max st m = None -> X = s0) ->
    Y * (match e_max st m with Some e => sexp (e - N) | None => s0 end) = X * sexp (- N)).
  { intros X Y -> H0. destruct (e_max st m) as [e|]; simpl; [|rewrite H0 by done; ring].
    assert (Ee : sexp (- N) = sexp (- e) * sexp (e - N)) by (rewrite <- sexp_add; f_equal; ring).
    rewrite Ee. ring. }
  split; [| |done]; simpl.
  - fold N. rewrite (Hre D) by (done || by intros E; destruct (Hn E)).
    rewrite (vsum_ext BN _ (fun n => wt (qk m n) * sexp (- N))) by (intros; apply wt_shift). rewrite vsum_mul_r. ring.
  - intros d. fold N. rewrite (Hre (A d)) by (apply Ha || by intros E; destruct (Hn E)).
    rewrite (vsum_ext BN _ (fun n => (wt (qk m n) * v n d) * sexp (- N)))
      by (intros; rewrite wt_shift; ring). rewrite vsum_mul_r. destruct vs; simpl; ring.
Qed.

(** A tile without a lane adds nothing. *)
Lemma no_lane_row BM BN mask m n : no_lane BM BN mask = true -> (m < BM)%nat -> (n < BN)%nat -> mask m n = false.
Proof.
  intros Hn Hm Hb. apply negb_true_iff in Hn. apply not_true_is_false. intros E.
  apply not_true_iff_false in Hn. destruct Hn. apply existsb_exists. exists m. split; [apply in_seq; lia|].
  apply existsb_exists. exists n. split; [apply in_seq; lia|done].
Qed.

Lemma skip_inv BM BN mask qk v vs (skips : bool) m D A st :
  (m < BM)%nat -> (forall n, mask m n = false -> qk m n = None) -> row_inv m D A st ->
  row_inv m (D + vsum BN (fun n => wt (qk m n)))
    (fun d => A d + vsum BN (fun n => wt (qk m n) * v n d) * default s1 vs)
    (if skips && no_lane BM BN mask then st else online_step BN qk v vs st).
Proof.
  intros Hm Hq Hi. destruct (skips && no_lane BM BN mask) eqn:E; [|by apply row_step_inv].
  apply andb_true_iff in E as [_ E].
  assert (Hz : forall n, (n < BN)%nat -> wt (qk m n) = s0) by (intros n Hb; rewrite Hq; [done|by eapply no_lane_row]).
  eapply row_inv_ext; [| |exact Hi].
  - rewrite (vsum_ext BN _ (fun _ => s0)) by done. rewrite vsum_0. ring.
  - intros d. rewrite (vsum_ext BN _ (fun _ => s0)) by (intros; rewrite Hz by done; ring). rewrite vsum_0. ring.
Qed.

(** A tile whose lanes have the weights [w] and, where they are not masked, the
    values [vals]. *)
Lemma tile_inv BM BN mask qk v vs (skips : bool) m w (vals : mat R) D A st :
  (m < BM)%nat -> (forall n, mask m n = false -> qk m n = None) -> (forall n, wt (qk m n) = w n) ->
  (forall n d, mask m n = true -> v n d = vals n d) -> row_inv m D A st ->
  row_inv m (D + vsum BN w) (fun d => A d + vsum BN (fun n => w n * vals n d) * default s1 vs)
    (if skips && no_lane BM BN mask then st else online_step BN qk v vs st).
Proof.
  intros Hm Hq Hw Hv Hi. eapply row_inv_ext; [| |by apply skip_inv].
  - f_equal. by apply vsum_ext.
  - intros d. cbv beta. f_equal. f_equal. apply vsum_ext. intros n _. rewrite <- Hw.
    destruct (mask m n) eqn:Em; [by rewrite Hv|]. rewrite Hq by done. simpl. ring.
Qed.

(** A loop over tiles adds the weights of all its keys. *)
Lemma tiles_inv BN len w (v : mat R) c m D A st (body : nat -> online R -> online R) :
  (0 < BN)%nat -> (forall j, (len <= j)%nat -> w j = s0) ->
  (forall i D A st, row_inv m D A st ->
    row_inv m (D + vsum BN (fun n => w (i * BN + n)%nat))
      (fun d => A d + vsum BN (fun n => w (i * BN + n)%nat * v (i * BN + n)%nat d) * c) (body i st)) ->
  row_inv m D A st ->
  row_inv m (D + vsum len w) (fun d => A d + vsum len (fun j => w j * v j d) * c) (tiles BN len body st).
Proof.
  intros Hb Hw Hbody Hi. unfold tiles.
  assert (Hk : forall k, row_inv m (D + vsum (k * BN) w) (fun d => A d + vsum (k * BN) (fun j => w j * v j d) * c)
    (foldl (fun st i => body i st) st (seq 0 k))).
  { induction k as [|k IH].
    - eapply row_inv_ext; [| |exact Hi]; simpl; [ring|intros; ring].
    - rewrite seq_S, foldl_app. simpl foldl. eapply row_inv_ext; [| |apply Hbody, IH].
      + replace (S k * BN)%nat with (k * BN + BN)%nat by lia. rewrite vsum_app. ring.
      + intros d. replace (S k * BN)%nat with (k * BN + BN)%nat by lia. rewrite vsum_app. ring. }
  pose proof (cdiv_mul_ge len BN Hb) as Hge.
  assert (Ht : forall f : nat -> R, (forall j, (len <= j)%nat -> f j = s0) -> vsum (cdiv len BN * BN) f = vsum len f).
  { intros f Hf. rewrite <- (vsum_mask len (cdiv len BN * BN) f) by done. apply vsum_ext. intros j _.
    destruct (Nat.ltb_spec j len); [done|by rewrite Hf]. }
  eapply row_inv_ext; [| |apply (Hk (cdiv len BN))].
  - by rewrite Ht.
  - intros d. cbv beta. rewrite Ht; [done|]. intros j Hj. rewrite Hw by done. ring.
Qed.

(** The final division. *)
Lemma finish_row sink m D A st d : row_inv m D A st ->
  finish sink st m d = A d / (D + wt sink).
Proof.
  intros [Hd Ha Hn]. unfold finish.
  assert (Hz : (s0 : R) + s0 = s0) by ring.
  assert (H0 : forall b : R, s0 / b = s0) by (intros b; rewrite sdiv_mul; ring).
  assert (Hc : forall e : R, sexp (- e) * sexp e = s1).
  { intros e. rewrite <- sexp_add. replace (- e + e) with (s0 : R) by ring. apply sexp_0. }
  destruct sink as [s|]; destruct (e_max st m) as [e|] eqn:Ee; rewrite ?Hd, ?Ha; simpl.
  - rewrite <- (sdiv_cancel (A d) (D + sexp s) (sexp (- e)) (sexp e)) by apply Hc. f_equal.
    replace (s - e) with (s + - e) by ring. rewrite sexp_add. ring.
  - destruct (Hn eq_refl) as [_ HA]. by rewrite HA, H0.
  - rewrite (sdiv_cancel (A d) D (sexp (- e)) (sexp e)) by apply Hc. f_equal. ring.
  - f_equal; ring.
Qed.

End Online.

(** ** Block sizes *)

(** The lanes of the blocks cover the head dimension. *)
Record covers (B : blocks) (Lq Lv : nat) : Prop := {
  cv_q : (BLOCK_DPE B = 0 /\ Lq <= BLOCK_DMODEL B) \/ (0 < BLOCK_DPE B /\ BLOCK_DMODEL B + BLOCK_DPE B = Lq);
  cv_v : Lv <= BLOCK_DV B;
  cv_m : 0 < BLOCK_M B;
  cv_n : 0 < BLOCK_N B;
}.

Lemma le_next_power n : n <= next_power_of_2 n.
Proof.
  unfold next_power_of_2. destruct (decide (n <= 1)) as [Hn|Hn].
  - pose proof (Nat.pow_nonzero 2 (Nat.log2_up n)). lia.
  - apply Nat.log2_up_spec. lia.
Qed.

Lemma block_sizes_cover dev Lq Lv : covers (_get_block_sizes_for_extend_attention dev Lq Lv) Lq Lv.
Proof.
  unfold _get_block_sizes_for_extend_attention.
  set (dm := if Lq =? 576 then _ else _).
  assert (Hd : (dm.2 = 0 /\ Lq <= dm.1) \/ (0 < dm.2 /\ dm.1 + dm.2 = Lq)).
  { unfold dm. destruct (Nat.eqb_spec Lq 576); [right; simpl; lia|].
    destruct (Nat.eqb_spec Lq 288); [right; simpl; lia|]. destruct (Nat.eqb_spec Lq 192); [right; simpl; lia|].
    left. split; [done|apply le_next_power]. }
  set (bmn := match dev with Hip => _ | _ => _ end).
  assert (Hb : 0 < bmn.1 /\ 0 < bmn.2).
  { unfold bmn. destruct dev as [|ma mi|]; repeat case_match; simpl; lia. }
  destruct dm as [d1 d2], bmn as [b1 b2]. split; simpl in *; [done|apply le_next_power|lia|lia].
Qed.

Section Rows.
Context {R : Type} {HO : ScalarOps R} {sle : R -> R -> Prop} {HL : ScalarLaws R sle}.
Context {HN : NetOps R} {HLg : LogOps R}.
Local Open Scope sc_scope.
Add Ring extend_ring' : s_ring.

Definition dot (n : nat) (q k : vec R) : R := vsum n (fun d => q d * k d).

Lemma dot_lanes_exact B Lq Lv q k : covers B Lq Lv -> dot_lanes B Lq true true q k = dot Lq q k.
Proof.
  intros [Hq _ _ _]. unfold dot_lanes, dot. cbn [andb].
  rewrite (vsum_ext (BLOCK_DMODEL B) _ (fun d => if (d <? Lq)%nat then q d * k d else s0))
    by (intros d _; destruct (d <? Lq)%nat; [done|ring]).
  destruct Hq as [[H0 Hle]|[H0 He]].
  - rewrite H0. simpl. by apply vsum_mask.
  - destruct (Nat.ltb_spec 0 (BLOCK_DPE B)) as [_|]; [|lia]. rewrite <- He, vsum_app. f_equal.
    apply vsum_ext. intros d Hd. destruct (Nat.ltb_spec d (BLOCK_DMODEL B + BLOCK_DPE B)); [done|lia].
Qed.

(** ** Softmax attention of the two-stage kernel *)

Section TwoStage.
Variables (B : blocks) (E : eargs R).
Hypothesis Hcov : covers B (Lq E) (Lv E).
#[local] Abbreviation qlen r := (seg_len (qo_indptr E) r).
#[local] Abbreviation qstart r := (seg_start (qo_indptr E) r).
#[local] Abbreviation plen r := (seg_len (kv_indptr E) r).
#[local] Abbreviation kvh h := (h / kv_group_num E)%nat.

(** The slot of key [j] of the prefix. *)
Definition slot_of (r j : nat) : nat := kv_indices E (seg_start (kv_indptr E) r + j)%nat.

Definition q_row (r h i : nat) : vec R := row (Q_Extend E) (qstart r + i) h.

(** Weights of the keys of the prefix and of the new keys for query row [i]. *)
Definition prefix_weight (r h i j : nat) : R :=
  wt (score E r i (sm_scale E * k_scale E) (dot (Lq E) (q_row r h i) (row (K_Buffer E) (slot_of r j) (kvh h)))
        (prefix_mask E r i j)).

Definition extend_weight (r h m_end i j : nat) : R :=
  wt (score E r i (sm_scale E) (dot (Lq E) (q_row r h i) (row (K_Extend E) (qstart r + j) (kvh h)))
        (extend_mask E r m_end i j)).

(** Softmax attention over the prefix and the new tokens. *)
Definition softmax_attention (r h i d : nat) : R :=
  let pw := prefix_weight r h i in
  let ew := extend_weight r h (qlen r) i in
  (vsum (plen r) (fun j => pw j * V_Buffer E (slot_of r j) (kvh h) d) * v_scale E
   + vsum (qlen r) (fun j => ew j * V_Extend E (qstart r + j)%nat (kvh h) d))
  / (vsum (plen r) pw + vsum (qlen r) ew + wt (option_map (fun s => s h) (sink_ptr E))).

(** The values as they are loaded. *)
Definition vrow (v : tok R) (t h : nat) : vec R := fun d => if (d <? Lv E)%nat then v t h d else s0.

Lemma masked_dot r h i mn k : (i < qlen r)%nat -> mn = true ->
  dot_lanes B (Lq E) (i <? qlen r)%nat mn (q_row r h i) k = dot (Lq E) (q_row r h i) k.
Proof.
  intros Hi ->. destruct (Nat.ltb_spec i (qlen r)); [|lia]. by apply (dot_lanes_exact _ _ (Lv E)).
Qed.

Lemma prefix_mask_in r i j : prefix_mask E r i j = true -> (i < qlen r)%nat /\ (j < plen r)%nat.
Proof.
  unfold prefix_mask. rewrite !andb_true_iff, !Nat.ltb_lt. tauto.
Qed.

Lemma extend_mask_in r me i j : extend_mask E r me i j = true -> (i < qlen r)%nat /\ (j < me)%nat.
Proof.
  unfold extend_mask. rewrite !andb_true_iff, !Nat.ltb_lt. tauto.
Qed.

(** The scores of a tile in terms of the row. *)
Lemma prefix_lane r h i j : (i < qlen r)%nat ->
  wt (score E r i (sm_scale E * k_scale E)
        (dot_lanes B (Lq E) (i <? qlen r)%nat (j <? plen r)%nat (q_row r h i)
           (row (K_Buffer E) (if (j <? plen r)%nat then slot_of r j else 0%nat) (kvh h)))
        (prefix_mask E r i j)) = prefix_weight r h i j.
Proof.
  intros Hi. unfold prefix_weight, score. destruct (prefix_mask E r i j) eqn:Em; [|done].
  apply prefix_mask_in in Em as [_ Hj]. apply Nat.ltb_lt in Hj. rewrite Hj. by rewrite masked_dot.
Qed.

Lemma extend_lane r h me i j : (i < qlen r)%nat ->
  wt (score E r i (sm_scale E)
        (dot_lanes B (Lq E) (i <? qlen r)%nat (j <? me)%nat (q_row r h i)
           (row (K_Extend E) (qstart r + j) (kvh h)))
        (extend_mask E r me i j)) = extend_weight r h me i j.
Proof.
  intros Hi. unfold extend_weight, score. destruct (extend_mask E r me i j) eqn:Em; [|done].
  apply extend_mask_in in Em as [_ Hj]. apply Nat.ltb_lt in Hj. rewrite Hj. by rewrite masked_dot.
Qed.

Lemma prefix_weight_out r h i j : (plen r <= j)%nat -> prefix_weight r h i j = s0.
Proof.
  intros Hj. unfold prefix_weight, score. destruct (prefix_mask E r i j) eqn:Em; [|done].
  apply prefix_mask_in in Em. lia.
Qed.

Lemma extend_weight_out r h me i j : (me <= j)%nat -> extend_weight r h me i j = s0.
Proof.
  intros Hj. unfold extend_weight, score. destruct (extend_mask E r me i j) eqn:Em; [|done].
  apply extend_mask_in in Em. lia.
Qed.

(** One tile of each stage. *)
Lemma prefix_tile_inv r h cb m i D A st : (m < BLOCK_M B)%nat -> (cb * BLOCK_M B + m < qlen r)%nat ->
  row_inv m D A st ->
  row_inv m (D + vsum (BLOCK_N B) (fun n => prefix_weight r h (cb * BLOCK_M B + m) (i * BLOCK_N B + n)))
    (fun d => A d + vsum (BLOCK_N B) (fun n => prefix_weight r h (cb * BLOCK_M B + m) (i * BLOCK_N B + n)
       * vrow (V_Buffer E) (slot_of r (i * BLOCK_N B + n)) (kvh h) d) * v_scale E)
    (prefix_tile B E r h cb i st).
Proof.
  intros Hm Hq Hi. unfold prefix_tile.
  apply (tile_inv (BLOCK_M B) (BLOCK_N B) (fun m n => prefix_mask E r (cb * BLOCK_M B + m) (i * BLOCK_N B + n)) _ _ (Some (v_scale E)) _ m
    (fun n => prefix_weight r h (cb * BLOCK_M B + m) (i * BLOCK_N B + n))
    (fun n => vrow (V_Buffer E) (slot_of r (i * BLOCK_N B + n)) (kvh h))); [done| | | |done].
  - intros n Hn. unfold score. by rewrite Hn.
  - intros n. by apply prefix_lane.
  - intros n d Hn. apply prefix_mask_in in Hn as [_ Hj]. apply Nat.ltb_lt in Hj. unfold load_v, vrow, row. by rewrite Hj.
Qed.

Lemma extend_tile_inv r h cb me m i D A st : (m < BLOCK_M B)%nat -> (cb * BLOCK_M B + m < qlen r)%nat ->
  row_inv m D A st ->
  row_inv m (D + vsum (BLOCK_N B) (fun n => extend_weight r h me (cb * BLOCK_M B + m) (i * BLOCK_N B + n)))
    (fun d => A d + vsum (BLOCK_N B) (fun n => extend_weight r h me (cb * BLOCK_M B + m) (i * BLOCK_N B + n)
       * vrow (V_Extend E) (qstart r + (i * BLOCK_N B + n)) (kvh h) d) * s1)
    (extend_tile B E r h cb me i st).
Proof.
  intros Hm Hq Hi. unfold extend_tile.
  apply (tile_inv (BLOCK_M B) (BLOCK_N B) (fun m n => extend_mask E r me (cb * BLOCK_M B + m) (i * BLOCK_N B + n)) _ _ None _ m
    (fun n => extend_weight r h me (cb * BLOCK_M B + m) (i * BLOCK_N B + n))
    (fun n => vrow (V_Extend E) (qstart r + (i * BLOCK_N B + n)) (kvh h))); [done| | | |done].
  - intros n Hn. unfold score. by rewrite Hn.
  - intros n. by apply extend_lane.
  - intros n d Hn. apply extend_mask_in in Hn as [_ Hj]. apply Nat.ltb_lt in Hj. unfold load_v, vrow, row. by rewrite Hj.
Qed.

(** What a block sees of the new keys is what its rows may see. *)
Definition visible (r : nat) : Prop :=
  IS_CAUSAL E = true -> forall i j, extend_mask E r (qlen r) i j = true -> (j <= i)%nat.

Lemma visible_no_mask r : mask_ptr E = None -> visible r.
Proof.
  intros Hn Hc i j. unfold extend_mask. rewrite Hn, Hc, !andb_true_iff, Nat.leb_le. tauto.
Qed.

Lemma extend_weight_end r h cb m j : visible r -> (m < BLOCK_M B)%nat -> (cb * BLOCK_M B + m < qlen r)%nat ->
  extend_weight r h (block_m_end B E r cb) (cb * BLOCK_M B + m) j = extend_weight r h (qlen r) (cb * BLOCK_M B + m) j.
Proof.
  intros Hv Hm Hq. unfold extend_weight. f_equal. f_equal. unfold block_m_end.
  destruct (IS_CAUSAL E) eqn:Ec; [|done].
  set (me := Nat.min _ _). apply eq_bool_prop_intro. split; intros Hx%Is_true_true; apply Is_true_true.
  - revert Hx. unfold extend_mask. rewrite !andb_true_iff, !Nat.ltb_lt. unfold me. intuition lia.
  - pose proof (Hv Ec _ _ Hx) as Hle. revert Hx. unfold extend_mask. rewrite !andb_true_iff, !Nat.ltb_lt.
    unfold me. intuition lia.
Qed.

(** The row that a program computes. *)
Lemma kernel_row r h cb m d : visible r -> (m < BLOCK_M B)%nat -> (cb * BLOCK_M B + m < qlen r)%nat -> (d < Lv E)%nat ->
  finish (option_map (fun s => s h) (sink_ptr E))
    (tiles (BLOCK_N B) (block_m_end B E r cb) (extend_tile B E r h cb (block_m_end B E r cb))
       (tiles (BLOCK_N B) (plen r) (prefix_tile B E r h cb) online_init)) m d
  = softmax_attention r h (cb * BLOCK_M B + m) d.
Proof.
  intros Hv Hm Hq Hd. set (i := (cb * BLOCK_M B + m)%nat) in *. set (me := block_m_end B E r cb).
  pose proof (cv_n _ _ _ Hcov) as HBN.
  assert (Hme : (me <= qlen r)%nat) by (unfold me, block_m_end; destruct (IS_CAUSAL E); lia).
  assert (Ew : forall j, extend_weight r h me i j = extend_weight r h (qlen r) i j)
    by (intros j; by apply extend_weight_end).
  assert (Es : forall f : nat -> R, vsum me (fun j => extend_weight r h me i j * f j)
    = vsum (qlen r) (fun j => extend_weight r h (qlen r) i j * f j)).
  { intros f. rewrite <- (vsum_mask me (qlen r)) by done. apply vsum_ext. intros j _. rewrite <- Ew.
    destruct (Nat.ltb_spec j me); [done|]. rewrite extend_weight_out by done. ring. }
  assert (Ed : vsum me (extend_weight r h me i) = vsum (qlen r) (extend_weight r h (qlen r) i)).
  { rewrite (vsum_ext me _ (fun j => extend_weight r h me i j * s1)) by (intros; ring).
    rewrite (Es (fun _ => s1)). apply vsum_ext. intros; ring. }
  rewrite (finish_row _ m (s0 + vsum (plen r) (prefix_weight r h i) + vsum me (extend_weight r h me i))
    (fun d => s0 + vsum (plen r) (fun j => prefix_weight r h i j * vrow (V_Buffer E) (slot_of r j) (kvh h) d) * v_scale E
       + vsum me (fun j => extend_weight r h me i j * vrow (V_Extend E) (qstart r + j) (kvh h) d) * s1)).
  - unfold softmax_attention, vrow. cbv beta. apply Nat.ltb_lt in Hd. rewrite Hd, Es.
    rewrite Ed. f_equal; ring.
  - apply (tiles_inv (BLOCK_N B) me (extend_weight r h me i) (fun j => vrow (V_Extend E) (qstart r + j) (kvh h)));
      [done|intros; by apply extend_weight_out| |].
    + intros k D A st Hi. by apply extend_tile_inv.
    + apply (tiles_inv (BLOCK_N B) (plen r) (prefix_weight r h i) (fun j => vrow (V_Buffer E) (slot_of r j) (kvh h)));
        [done|intros; by apply prefix_weight_out| |apply row_inv_init].
      intros k D A st Hi. by apply prefix_tile_inv.
Qed.

End TwoStage.
End Rows.

(** ** Segments *)

Lemma indptr_nth lens i : i <= length lens -> nth i (indptr_of lens) 0 = sum_list (take i lens).
Proof.
  intros Hi. unfold indptr_of. apply nth_lookup_Some. rewrite list_lookup_fmap, lookup_seq_lt by lia. done.
Qed.

Lemma sum_take_S (lens : list nat) i : i < length lens -> sum_list (take (S i) lens) = sum_list (take i lens) + nth i lens 0.
Proof.
  intros Hi. destruct (lookup_lt_is_Some_2 lens i Hi) as [x Hx]. rewrite (take_S_r _ _ _ Hx), sum_list_with_app.
  rewrite (nth_lookup_Some _ _ _ _ Hx). simpl. lia.
Qed.

Lemma seg_len_indptr lens i : i < length lens -> seg_len (indptr_of lens) i = nth i lens 0.
Proof. intros Hi. unfold seg_len. rewrite !indptr_nth, sum_take_S by lia. lia. Qed.

Lemma seg_start_indptr lens i : i <= length lens -> seg_start (indptr_of lens) i = sum_list (take i lens).
Proof. apply indptr_nth. Qed.

Lemma sum_take_mono (lens : list nat) i j : i <= j -> sum_list (take i lens) <= sum_list (take j lens).
Proof.
  intros Hij. rewrite <- (take_drop i (take j lens)), sum_list_with_app, take_take, Nat.min_l by done. lia.
Qed.

Lemma segments_disjoint lens r r' t : r < length lens -> r' < length lens ->
  sum_list (take r lens) <= t < sum_list (take r lens) + nth r lens 0 ->
  sum_list (take r' lens) <= t < sum_list (take r' lens) + nth r' lens 0 -> r = r'.
Proof.
  intros Hr Hr' Ht Ht'. destruct (Nat.lt_total r r') as [H|[H|H]]; [|done|].
  - pose proof (sum_take_mono lens (S r) r' H). rewrite sum_take_S in H0 by done. lia.
  - pose proof (sum_take_mono lens (S r') r H). rewrite sum_take_S in H0 by done. lia.
Qed.

(** ** Launches over blocks of rows *)

Lemma elem_of_grid3 n h b x : x ∈ grid3 n h b <-> x.1.1 < n /\ x.1.2 < h /\ x.2 < b.
Proof.
  unfold grid3. destruct x as [[r hh] cb]. rewrite list_elem_of_In, !in_prod_iff, !in_seq. simpl. lia.
Qed.

Lemma grid3_NoDup n h b : NoDup (grid3 n h b).
Proof.
  assert (Hp : forall (A C : Type) (l : list A) (k : list C), NoDup l -> NoDup k -> NoDup (list_prod l k)).
  { intros A C l k Hl Hk. induction Hl as [|x l Hx Hl IH]; simpl; [constructor|].
    apply NoDup_app. split; [|split; [|done]].
    - apply NoDup_fmap_2; [|done]. by intros y y' [= ->].
    - intros [y z] Hy Hz. apply list_elem_of_fmap in Hy as (z' & [= -> ->] & _).
      apply list_elem_of_In, in_prod_iff in Hz as [Hz _]. by apply list_elem_of_In in Hz. }
  unfold grid3. apply Hp; [apply Hp; apply NoDup_seq|apply NoDup_seq].
Qed.

Section Launch.
Context {R : Type} (B : blocks) (Lv : nat) (lens : list nat).
Context (val : nat * nat * nat -> nat -> nat -> R) (prog : nat * nat * nat -> omem R -> omem R).
#[local] Abbreviation n := (length lens).
#[local] Abbreviation start r := (sum_list (take r lens)).
#[local] Abbreviation len r := (nth r lens 0).
#[local] Abbreviation BM := (BLOCK_M B).

Hypothesis Hprog : forall pid o, pid.1.1 < n ->
  prog pid o = store_rows B Lv (start pid.1.1) (len pid.1.1) pid.1.2 pid.2 (val pid) o.
Hypothesis HBM : 0 < BM.
Hypothesis HDV : Lv <= BLOCK_DV B.

(** The cells of a program. *)
Definition rows_reg (pid : nat * nat * nat) (c : nat * nat * nat) : bool :=
  let '(r, hh, cb) := pid in let '(t, h, d) := c in
  (h =? hh) && (start r + cb * BM <=? t) && (t <? start r + Nat.min (len r) (cb * BM + BM)) && (d <? Nat.min Lv (BLOCK_DV B)).

Definition rows_val (pid : nat * nat * nat) (_ : omem R) (c : nat * nat * nat) : R :=
  let '(t, h, d) := c in val pid (t - (start pid.1.1 + pid.2 * BM)) d.

Lemma rows_writes pid m c : pid.1.1 < n ->
  prog pid m c = if rows_reg pid c then rows_val pid m c else m c.
Proof. intros Hr. rewrite Hprog by done. destruct pid as [[r hh] cb], c as [[t h] d]. done. Qed.

Lemma rows_reg_disjoint pid pid' c : pid.1.1 < n -> pid'.1.1 < n ->
  rows_reg pid c = true -> rows_reg pid' c = true -> pid' = pid.
Proof.
  destruct pid as [[r hh] cb], pid' as [[r' hh'] cb'], c as [[t h] d]. unfold rows_reg. cbn [fst snd].
  rewrite !andb_true_iff, !Nat.eqb_eq, !Nat.leb_le, !Nat.ltb_lt. intros Hr Hr' H1 H2.
  assert (r = r') as <- by (apply (segments_disjoint lens r r' t); lia).
  assert (cb = cb') as <-; [|repeat f_equal; lia].
  destruct (Nat.lt_total cb cb') as [Hl|[Hl|Hl]]; [|done|]; exfalso.
  - assert (S cb * BM <= cb' * BM) by (apply Nat.mul_le_mono_r; lia). simpl in *. lia.
  - assert (S cb' * BM <= cb * BM) by (apply Nat.mul_le_mono_r; lia). simpl in *. lia.
Qed.

Variables (heads nb : nat) (order : list (nat * nat * nat)).
Hypothesis Horder : order ≡ₚ grid3 n heads nb.

Lemma order_in pid : pid ∈ order -> pid.1.1 < n.
Proof. rewrite Horder, elem_of_grid3. tauto. Qed.

Lemma rows_launch m r h i d : r < n -> h < heads -> i < len r -> i < nb * BM -> d < Lv ->
  launch prog order m (start r + i, h, d) = val (r, h, i / BM) (i mod BM) d.
Proof.
  intros Hr Hh Hi Hb Hd. pose proof (Nat.div_mod_eq i BM) as Ei. pose proof (Nat.mod_upper_bound i BM ltac:(lia)).
  assert (Hreg : rows_reg (r, h, i / BM) (start r + i, h, d) = true).
  { unfold rows_reg. rewrite !andb_true_iff, !Nat.eqb_eq, !Nat.leb_le, !Nat.ltb_lt. lia. }
  assert (Hin : (r, h, i / BM) ∈ order).
  { rewrite Horder, elem_of_grid3. simpl. split; [done|]. split; [done|]. apply Nat.Div0.div_lt_upper_bound. lia. }
  rewrite (launch_write prog rows_reg rows_val (fun pid => pid.1.1 < n) ltac:(intros; by apply rows_writes)
    ltac:(done) order m (r, h, i / BM)); try done.
  - unfold rows_val. cbn [fst snd]. f_equal. lia.
  - rewrite Horder. apply grid3_NoDup.
  - intros pid Hp. by apply order_in.
  - intros pid y Hp Hy Hy'. apply (rows_reg_disjoint (r, h, i / BM) pid y); [done|by apply order_in|done|done].
Qed.

Lemma rows_keep m t h d : (sum_list lens <= t \/ heads <= h \/ Lv <= d) ->
  launch prog order m (t, h, d) = m (t, h, d).
Proof.
  intros Ho. apply (launch_keep prog rows_reg rows_val (fun pid => pid.1.1 < n)); [intros; by apply rows_writes|..].
  - intros pid Hp. by apply order_in.
  - intros [[r hh] cb] Hp. assert (Hr := order_in _ Hp). rewrite Horder, elem_of_grid3 in Hp. cbn [fst snd] in Hp, Hr.
    unfold rows_reg. rewrite !andb_false_iff. destruct Hp as (_ & Hh & _).
    pose proof (sum_take_mono lens (S r) n ltac:(lia)) as Hs. rewrite firstn_all, sum_take_S in Hs by done.
    rewrite Nat.eqb_neq, Nat.leb_nle, !Nat.ltb_nlt. lia.
Qed.

End Launch.

End EF.
