(* ===== verification/ExtendProps.v ===== *)
(** Theorems on the attention kernels of [ExtendKernel]: the two-stage launch is
    softmax attention over the cached prefix and the new tokens, the index kernels
    gather the slots of every sequence, and the deterministic launch over gathered
    slots agrees with the two-stage one. *)
From stdpp Require Import base list.
From Stdlib Require Import ZArith QArith Reals Lra Lia Ring.
From S2P Require Import Prelude Tensor HybridKernel Decoder ServedLayer ExtendKernel ExtendFacts.
Local Open Scope nat_scope.

Module EP.
Import HK EK EF.

(** ** Index kernels *)

Lemma copy_chunks_spec BLOCK len src dst m x : 0 < BLOCK ->
  copy_chunks BLOCK len src dst m x = if (dst <=? x) && (x <? dst + len) then src (x - dst) else m x.
Proof.
  intros HB. unfold copy_chunks.
  assert (Hk : forall k, foldl (fun m i x =>
      if (dst + i * BLOCK <=? x) && (x <? dst + i * BLOCK + BLOCK) && (x - dst <? len) then src (x - dst) else m x) m (seq 0 k) x
    = if (dst <=? x) && (x <? dst + k * BLOCK) && (x - dst <? len) then src (x - dst) else m x).
  { induction k as [|k IH].
    - simpl. destruct (Nat.leb_spec dst x), (Nat.ltb_spec x (dst + 0)); simpl; (done || lia).
    - rewrite seq_S, foldl_app. simpl. rewrite IH.
      destruct (Nat.leb_spec (dst + k * BLOCK) x), (Nat.ltb_spec x (dst + k * BLOCK + BLOCK)), (Nat.leb_spec dst x),
        (Nat.ltb_spec x (dst + k * BLOCK)), (Nat.ltb_spec x (dst + (BLOCK + k * BLOCK))), (Nat.ltb_spec (x - dst) len);
        simpl; (done || lia). }
  rewrite Hk. pose proof (cdiv_mul_ge len BLOCK HB).
  destruct (Nat.leb_spec dst x), (Nat.ltb_spec x (dst + cdiv len BLOCK * BLOCK)), (Nat.ltb_spec (x - dst) len),
    (Nat.ltb_spec x (dst + len)); simpl; (done || lia).
Qed.

(** A launch in which program [r] writes segment [r] of a buffer. *)
Section Segments.
Context (lens : list nat) (src : nat -> nat -> nat) (prog : nat -> (nat -> nat) -> nat -> nat).
#[local] Abbreviation start r := (sum_list (take r lens)).
Hypothesis Hprog : forall r m x, r < length lens ->
  prog r m x = if (start r <=? x) && (x <? start r + nth r lens 0) then src r (x - start r) else m x.

Lemma segments_launch order m r j : order ≡ₚ seq 0 (length lens) -> r < length lens -> j < nth r lens 0 ->
  launch prog order m (start r + j) = src r j.
Proof.
  intros Ho Hr Hj.
  set (reg := fun r x => (start r <=? x) && (x <? start r + nth r lens 0)).
  assert (Hin : forall i, i ∈ order -> i < length lens)
    by (intros i; rewrite Ho, list_elem_of_In, in_seq; lia).
  rewrite (launch_write prog reg (fun r _ x => src r (x - start r)) (fun r => r < length lens)
    ltac:(intros; by apply Hprog) ltac:(done) order m r); try done.
  - f_equal. lia.
  - rewrite Ho. apply NoDup_seq.
  - rewrite Ho. apply list_elem_of_In, in_seq. lia.
  - unfold reg. rewrite andb_true_iff, Nat.leb_le, Nat.ltb_lt. lia.
  - intros r' x Hr'. unfold reg. rewrite !andb_true_iff, !Nat.leb_le, !Nat.ltb_lt. intros H1 H2.
    symmetry. apply (segments_disjoint lens r r' x); [done|by apply Hin|lia|lia].
Qed.

End Segments.

(** The slots of the prefixes: entry [j] of request [r] is entry [j] of its row of
    the request table. *)
Lemma kv_indices_spec (req_to_token : nat -> nat -> nat) (rows lens : list nat) order m r j :
  order ≡ₚ seq 0 (length lens) -> r < length lens -> j < nth r lens 0 ->
  launch (create_flashinfer_kv_indices_triton req_to_token rows lens (indptr_of lens) None) order m
    (sum_list (take r lens) + j) = req_to_token (nth r rows 0) j.
Proof.
  intros Ho Hr Hj. apply (segments_launch lens (fun r j => req_to_token (nth r rows 0) j)); [|done..].
  intros i m' x Hi. unfold create_flashinfer_kv_indices_triton. rewrite copy_chunks_spec by lia.
  rewrite indptr_nth by lia. simpl. by rewrite Nat.sub_0_r.
Qed.

(** The gathered slots: first the prefix, then the new tokens. *)
Lemma unified_indices_spec (plens elens : list nat) (pidx eidx : nat -> nat) sched m0 :
  (forall l, sched l ≡ₚ l) -> length plens = length elens ->
  let '(ptr, idx, pl) := build_unified_kv_indices sched (indptr_of plens) pidx (offsets elens) elens eidx (length elens) m0 in
  let lens := zip_with Nat.add plens elens in
  ptr = indptr_of lens /\ pl = plens /\
  forall r j, r < length elens ->
    (j < nth r plens 0 -> idx (sum_list (take r lens) + j) = pidx (sum_list (take r plens) + j)) /\
    (j < nth r elens 0 -> idx (sum_list (take r lens) + (nth r plens 0 + j)) = eidx (sum_list (take r elens) + j)).
Proof.
  intros Hs Hl. unfold build_unified_kv_indices. set (n := length elens) in *.
  assert (Ep : map (fun i => nth (S i) (indptr_of plens) 0 - nth i (indptr_of plens) 0) (seq 0 n) = plens).
  { apply list_eq_same_length with (n := n); [done|by rewrite length_map, length_seq|].
    intros i x y Hi Hx Hy. rewrite list_lookup_fmap, lookup_seq_lt in Hx by done. simpl in Hx. injection Hx as <-.
    change (seg_len (indptr_of plens) i = y). rewrite seg_len_indptr by lia. by apply nth_lookup_Some. }
  rewrite Ep. unfold n. rewrite firstn_all. set (lens := zip_with Nat.add plens elens).
  assert (Hlen : length lens = length elens) by (unfold lens; rewrite length_zip_with; lia).
  assert (Hn : forall r, r < length elens -> nth r lens 0 = nth r plens 0 + nth r elens 0).
  { intros r Hr. destruct (lookup_lt_is_Some_2 plens r ltac:(lia)) as [x Hx].
    destruct (lookup_lt_is_Some_2 elens r Hr) as [y Hy].
    rewrite (nth_lookup_Some lens r 0 (x + y)), (nth_lookup_Some plens r 0 x), (nth_lookup_Some elens r 0 y); try done.
    unfold lens. by rewrite lookup_zip_with, Hx, Hy. }
  split; [done|]. split; [done|].
  set (src := fun r j => if j <? nth r plens 0 then pidx (sum_list (take r plens) + j)
                         else eidx (sum_list (take r elens) + (j - nth r plens 0))).
  set (prog := _copy_unified_indices_kernel _ _ _ _ _ _ _).
  assert (Hprog : forall r m x, r < length lens -> prog r m x =
    if (sum_list (take r lens) <=? x) && (x <? sum_list (take r lens) + nth r lens 0) then src r (x - sum_list (take r lens)) else m x).
  { intros r m x Hr. rewrite Hlen in Hr. unfold prog, _copy_unified_indices_kernel.
    destruct (Nat.leb_spec (length elens) r); [lia|]. rewrite !copy_chunks_spec by lia.
    rewrite !indptr_nth, sum_take_S, Hn by lia.
    rewrite (nth_lookup_Some (offsets elens) r 0 (sum_list (take r elens)))
      by (unfold offsets; by rewrite list_lookup_fmap, lookup_seq_lt).
    set (a := sum_list (take r lens)). set (p := sum_list (take r plens)).
    replace (p + nth r plens 0 - p) with (nth r plens 0) by lia. unfold src. fold p.
    destruct (Nat.leb_spec a x), (Nat.ltb_spec x (a + (nth r plens 0 + nth r elens 0))), (Nat.leb_spec (a + nth r plens 0) x),
      (Nat.ltb_spec x (a + nth r plens 0 + nth r elens 0)), (Nat.ltb_spec x (a + nth r plens 0)),
      (Nat.ltb_spec (x - a) (nth r plens 0)); cbn [andb]; try lia; try done. f_equal. lia. }
  assert (Hord : sched (seq 0 (length elens)) ≡ₚ seq 0 (length lens)) by (by rewrite Hs, Hlen).
  intros r j Hr. split; intros Hj.
  - rewrite (segments_launch lens src prog Hprog _ m0 r j Hord) by (rewrite ?Hlen, ?Hn by done; lia).
    unfold src. destruct (Nat.ltb_spec j (nth r plens 0)); [done|lia].
  - rewrite (segments_launch lens src prog Hprog _ m0 r _ Hord) by (rewrite ?Hlen, ?Hn by done; lia).
    unfold src. destruct (Nat.ltb_spec (nth r plens 0 + j) (nth r plens 0)); [lia|]. f_equal. lia.
Qed.

(** ** The two-stage launch *)

Section TwoStage.
Context {R : Type} {HO : ScalarOps R} {sle : R -> R -> Prop} {HL : ScalarLaws R sle}.
Context {HN : NetOps R} {HLg : LogOps R}.
Local Open Scope sc_scope.
Add Ring props_ring : s_ring.

(** The rows that the launch of a kernel leaves, where its grid reaches every row. *)
Lemma two_stage_rows (B : blocks) (E : eargs R) (lens : list nat) heads max_len order o :
  covers B (Lq E) (Lv E) -> qo_indptr E = indptr_of lens -> (forall l, l ∈ lens -> (l <= max_len)%nat) ->
  order ≡ₚ grid3 (length lens) heads (cdiv max_len (BLOCK_M B)) ->
  (forall r h i d, (r < length lens)%nat -> (h < heads)%nat -> (i < nth r lens 0)%nat -> (d < Lv E)%nat -> visible E r ->
     launch (_fwd_kernel B E) order o (sum_list (take r lens) + i, h, d)%nat = softmax_attention E r h i d) /\
  (forall t h d, (sum_list lens <= t \/ heads <= h \/ Lv E <= d)%nat ->
     launch (_fwd_kernel B E) order o (t, h, d) = o (t, h, d)).
Proof.
  intros Hc Hq Hm Ho.
  set (val := fun pid : nat * nat * nat => finish (option_map (fun s => s pid.1.2) (sink_ptr E))
    (tiles (BLOCK_N B) (block_m_end B E pid.1.1 pid.2) (extend_tile B E pid.1.1 pid.1.2 pid.2 (block_m_end B E pid.1.1 pid.2))
      (tiles (BLOCK_N B) (seg_len (kv_indptr E) pid.1.1) (prefix_tile B E pid.1.1 pid.1.2 pid.2) online_init))).
  assert (Hp : forall pid o, (pid.1.1 < length lens)%nat -> _fwd_kernel B E pid o
    = store_rows B (Lv E) (sum_list (take pid.1.1 lens)) (nth pid.1.1 lens 0%nat) pid.1.2 pid.2 (val pid) o).
  { intros [[r h] cb] o' Hr. cbn [fst snd] in *. unfold _fwd_kernel.
    rewrite Hq, seg_start_indptr, seg_len_indptr by lia. done. }
  pose proof (cv_m _ _ _ Hc) as HBM. pose proof (cv_v _ _ _ Hc) as HDV. split.
  - intros r h i d Hr Hh Hi Hd Hv.
    assert (Hil : (i < cdiv max_len (BLOCK_M B) * BLOCK_M B)%nat).
    { eapply Nat.lt_le_trans; [exact Hi|]. etransitivity; [|by apply cdiv_mul_ge].
      apply Hm, list_elem_of_In, nth_In. done. }
    rewrite (rows_launch B (Lv E) lens val _ Hp HBM HDV heads _ order Ho) by done. unfold val. cbn [fst snd].
    pose proof (Nat.div_mod_eq i (BLOCK_M B)) as Ei. pose proof (Nat.mod_upper_bound i (BLOCK_M B) ltac:(lia)).
    rewrite (kernel_row B E Hc r h); [|done|done| |done].
    + f_equal. lia.
    + rewrite Hq, seg_len_indptr by done. lia.
  - intros t h d Hk. by eapply (rows_keep B (Lv E) lens val).
Qed.

(** The call is a launch with tiles that cover the heads and a grid that covers the rows. *)
Lemma extend_launch dev sched heads kv_heads Lq Lv (q k v kb vb : tok R) lens kv_indptr kv_indices mask
    causal mask_indptr max_len ks vs sm cap skip win sinks wko xai o :
  (forall l, sched l ≡ₚ l) ->
  let E := mkE q k v kb vb (indptr_of lens) kv_indptr kv_indices mask mask_indptr sinks wko (scale_or sm Lq) ks vs
             (heads / kv_heads) win cap xai Lq Lv causal skip in
  exists B order, covers B Lq Lv /\ order ≡ₚ grid3 (length lens) heads (cdiv max_len (BLOCK_M B)) /\
    extend_attention_fwd dev sched heads kv_heads Lq Lv q k v kb vb (indptr_of lens) kv_indptr kv_indices
      mask causal mask_indptr max_len ks vs sm cap skip win sinks wko xai o = launch (_fwd_kernel B E) order o.
Proof.
  intros Hs E. eexists _, _. split; [|split; [|reflexivity]]; [apply block_sizes_cover|].
  rewrite Hs. unfold indptr_of at 1. rewrite length_map, length_seq. simpl. by rewrite Nat.sub_0_r.
Qed.

(** C24. The attention kernel of the softmax layers computes softmax attention.  Over
    the new tokens of a batch, cut at the pointers of their lengths,
    [extend_attention_fwd] gives every row and head the softmax attention over the
    slots of its prefix and the new tokens of its sequence under the causal, window
    and custom masks, with cap, temperature and sink, although the kernel sees the
    keys tile by tile and rescales what it has summed so far; on every device, for
    every order of the programs, whatever the output held.  Nothing else is written.
    A custom mask beside the causal flag must itself be causal ([visible]). *)
Theorem extend_attention_exact dev sched heads kv_heads Lq Lv (q k v kb vb : tok R) lens kv_indptr kv_indices mask
    causal mask_indptr max_len ks vs sm cap skip win sinks wko xai o :
  (forall l, sched l ≡ₚ l) -> (forall l, l ∈ lens -> (l <= max_len)%nat) ->
  let E := mkE q k v kb vb (indptr_of lens) kv_indptr kv_indices mask mask_indptr sinks wko (scale_or sm Lq) ks vs
             (heads / kv_heads) win cap xai Lq Lv causal skip in
  let o' := extend_attention_fwd dev sched heads kv_heads Lq Lv q k v kb vb (indptr_of lens) kv_indptr kv_indices
              mask causal mask_indptr max_len ks vs sm cap skip win sinks wko xai o in
  (forall r h i d, (r < length lens)%nat -> (h < heads)%nat -> (i < nth r lens 0)%nat -> (d < Lv)%nat -> visible E r ->
     o' (sum_list (take r lens) + i, h, d)%nat = softmax_attention E r h i d) /\
  (forall t h d, (sum_list lens <= t \/ heads <= h \/ Lv <= d)%nat -> o' (t, h, d) = o (t, h, d)).
Proof.
  intros Hs Hm E o'.
  destruct (extend_launch dev sched heads kv_heads Lq Lv q k v kb vb lens kv_indptr kv_indices mask causal mask_indptr max_len ks vs sm cap
    skip win sinks wko xai o Hs) as (B & order & Hc & Ho & El).
  unfold o'. rewrite El. by apply (two_stage_rows B E lens heads max_len).
Qed.

End TwoStage.

(** ** The unified launch *)

Section Unified.
Context {R : Type} {HO : ScalarOps R} {sle : R -> R -> Prop} {HL : ScalarLaws R sle}.
Context {HN : NetOps R} {HLg : LogOps R}.
Local Open Scope sc_scope.
Add Ring unified_ring : s_ring.

Section Rows.
Variables (B : blocks) (U : uargs R).
Hypothesis Hcov : covers B (u_Lq U) (u_Lv U).
#[local] Abbreviation qlen r := (seg_len (u_qo_indptr U) r).
#[local] Abbreviation klen r := (seg_len (u_kv_indptr U) r).
#[local] Abbreviation kvh h := (h / u_group_num U)%nat.

Definition u_slot (r j : nat) : nat := u_kv_indices U (seg_start (u_kv_indptr U) r + j).

Definition u_score (r h i j : nat) (qk : R) : option R :=
  if u_final_mask U r i j
  then Some (u_temper U (nth r (u_prefix_lens U) 0 + i)%nat (cap (u_cap U) (qk * u_scale U))) else None.

Definition u_weight (r h i j : nat) : R :=
  wt (u_score r h i j (dot (u_Lq U) (row (u_Q U) (seg_start (u_qo_indptr U) r + i) h) (row (u_K U) (u_slot r j) (kvh h)))).

Definition unified_attention (r h i d : nat) : R :=
  vsum (klen r) (fun j => u_weight r h i j * u_V U (u_slot r j) (kvh h) d)
  / (vsum (klen r) (u_weight r h i) + wt (option_map (fun s => s h) (u_sink U))) * u_v_scale U.

Lemma u_mask_in r i j : u_final_mask U r i j = true -> (i < qlen r)%nat /\ (j < klen r)%nat.
Proof. unfold u_final_mask. rewrite !andb_true_iff, !Nat.ltb_lt. tauto. Qed.

Lemma u_tile_inv r h cb m i D A st : (m < BLOCK_M B)%nat -> row_inv m D A st ->
  row_inv m (D + vsum (BLOCK_N B) (fun n => u_weight r h (cb * BLOCK_M B + m) (i * BLOCK_N B + n)))
    (fun d => A d + vsum (BLOCK_N B) (fun n => u_weight r h (cb * BLOCK_M B + m) (i * BLOCK_N B + n)
       * (if (d <? u_Lv U)%nat then u_V U (u_slot r (i * BLOCK_N B + n)) (kvh h) d else s0)) * s1)
    (u_tile B U r h cb i st).
Proof.
  intros Hm Hi. unfold u_tile.
  apply (tile_inv (BLOCK_M B) (BLOCK_N B) (fun m n => u_final_mask U r (cb * BLOCK_M B + m) (i * BLOCK_N B + n)) _ _ None _ m
    (fun n => u_weight r h (cb * BLOCK_M B + m) (i * BLOCK_N B + n))
    (fun n d => if (d <? u_Lv U)%nat then u_V U (u_slot r (i * BLOCK_N B + n)) (kvh h) d else s0)); [done| | | |done].
  - intros n Hn. by rewrite Hn.
  - intros n. unfold u_weight, u_score. destruct (u_final_mask U r _ _) eqn:Em; [|done].
    apply u_mask_in in Em as [Hq Hj]. apply Nat.ltb_lt in Hq, Hj. rewrite Hq, Hj.
    by rewrite (dot_lanes_exact B (u_Lq U) (u_Lv U)).
  - intros n d Hn. apply u_mask_in in Hn as [_ Hj]. apply Nat.ltb_lt in Hj. unfold load_v, row. by rewrite Hj.
Qed.

Lemma u_weight_out r h i j : (klen r <= j)%nat -> u_weight r h i j = s0.
Proof.
  intros Hj. unfold u_weight, u_score. destruct (u_final_mask U r i j) eqn:Em; [|done]. apply u_mask_in in Em. lia.
Qed.

Lemma u_row r h cb m d : (m < BLOCK_M B)%nat -> (d < u_Lv U)%nat ->
  finish (option_map (fun s => s h) (u_sink U)) (tiles (BLOCK_N B) (klen r) (u_tile B U r h cb) online_init) m d * u_v_scale U
  = unified_attention r h (cb * BLOCK_M B + m) d.
Proof.
  intros Hm Hd. set (i := (cb * BLOCK_M B + m)%nat).
  rewrite (finish_row _ m (s0 + vsum (klen r) (u_weight r h i))
    (fun d => s0 + vsum (klen r) (fun j => u_weight r h i j *
       (if (d <? u_Lv U)%nat then u_V U (u_slot r j) (kvh h) d else s0)) * s1)).
  - unfold unified_attention. fold i. cbv beta. apply Nat.ltb_lt in Hd. rewrite Hd. f_equal. f_equal; ring.
  - apply (tiles_inv (BLOCK_N B) (klen r) (u_weight r h i)
      (fun j d => if (d <? u_Lv U)%nat then u_V U (u_slot r j) (kvh h) d else s0));
      [apply (cv_n _ _ _ Hcov)|intros; by apply u_weight_out| |apply row_inv_init].
    intros k D A st Hi. by apply u_tile_inv.
Qed.

End Rows.

Lemma unified_rows (B : blocks) (U : uargs R) (lens : list nat) heads max_len order o :
  covers B (u_Lq U) (u_Lv U) -> u_qo_indptr U = indptr_of lens -> (forall l, l ∈ lens -> (l <= max_len)%nat) ->
  order ≡ₚ grid3 (length lens) heads (cdiv max_len (BLOCK_M B)) ->
  forall r h i d, (r < length lens)%nat -> (h < heads)%nat -> (i < nth r lens 0)%nat -> (d < u_Lv U)%nat ->
    launch (_fwd_kernel_unified B U) order o (sum_list (take r lens) + i, h, d)%nat = unified_attention U r h i d.
Proof.
  intros Hc Hq Hm Ho r h i d Hr Hh Hi Hd.
  set (val := fun (pid : nat * nat * nat) m d => finish (option_map (fun s => s pid.1.2) (u_sink U))
    (tiles (BLOCK_N B) (seg_len (u_kv_indptr U) pid.1.1) (u_tile B U pid.1.1 pid.1.2 pid.2) online_init) m d * u_v_scale U).
  assert (Hp : forall pid o, (pid.1.1 < length lens)%nat -> _fwd_kernel_unified B U pid o
    = store_rows B (u_Lv U) (sum_list (take pid.1.1 lens)) (nth pid.1.1 lens 0%nat) pid.1.2 pid.2 (val pid) o).
  { intros [[r' h'] cb] o' Hr'. cbn [fst snd] in *. unfold _fwd_kernel_unified.
    rewrite Hq, seg_start_indptr, seg_len_indptr by lia. done. }
  pose proof (cv_m _ _ _ Hc) as HBM. pose proof (cv_v _ _ _ Hc) as HDV.
  assert (Hil : (i < cdiv max_len (BLOCK_M B) * BLOCK_M B)%nat).
  { eapply Nat.lt_le_trans; [exact Hi|]. etransitivity; [|by apply cdiv_mul_ge].
    apply Hm, list_elem_of_In, nth_In. done. }
  rewrite (rows_launch B (u_Lv U) lens val _ Hp HBM HDV heads _ order Ho) by done. unfold val. cbn [fst snd].
  pose proof (Nat.div_mod_eq i (BLOCK_M B)) as Ei. pose proof (Nat.mod_upper_bound i (BLOCK_M B) ltac:(lia)).
  rewrite (u_row B U Hc) by done. f_equal. lia.
Qed.

End Unified.

(** ** A concrete batch *)

Module Example_.
Export Tensor.Reals SL.Example_.

#[export] Instance real_log : LogOps R := {| slog2 := fun x => (ln x / ln 2)%R |}.

Definition unit_rows : tok R := fun _ _ _ => 1%R.
Definition slot_rows : tok R := fun s _ _ => INR s.

End Example_.
Import Example_.

(** Two sequences: two new tokens behind the slots 7 and 3, and one without a prefix. *)
Lemma extend_attention_exact_witness :
  let idx j := nth j [7; 3] 0 in
  let E := mkE unit_rows unit_rows unit_rows slot_rows slot_rows (indptr_of [2; 1]) [0; 2; 2] idx None [] None []
             (scale_or (Some 1%R) 2) 1%R 1%R (2 / 1) (-1)%Z None (-1)%Z 2 2 false true in
  extend_attention_fwd (EK.Cuda 9 0) (fun l => l) 2 1 2 2 unit_rows unit_rows unit_rows slot_rows slot_rows (indptr_of [2; 1]) [0; 2; 2]
    idx None false [] 2 1%R 1%R (Some 1%R) None true (-1)%Z None [] (-1)%Z (fun _ => 0%R) (1, 1, 0) = softmax_attention E 0 1 1 0.
Proof.
  intros idx E.
  destruct (extend_attention_exact (sle := Rle) (EK.Cuda 9 0) (fun l => l) 2 1 2 2 unit_rows unit_rows unit_rows slot_rows slot_rows [2; 1]
    [0; 2; 2] idx None false [] 2 1%R 1%R (Some 1%R) None true (-1)%Z None [] (-1)%Z (fun _ => 0%R)) as [Hr _].
  - done.
  - intros l Hl. apply elem_of_cons in Hl as [->|Hl%list_elem_of_singleton]; lia.
  - apply (Hr 0 1 1 0); [simpl; lia|lia|simpl; lia|lia|by apply visible_no_mask].
Defined.

End EP.
