(* ===== verification/TritonBackend.v ===== *)
(** The softmax attention backend of the server: the Triton backend
    ([srt/layers/attention/triton_backend.py]) for passes over new tokens, the
    key-value pool of the softmax layers ([MHATokenToKVPool] and
    [HybridLinearKVPool] of [srt/mem_cache/memory_pool.py]), the backend that serves
    softmax and hybrid layers side by side
    ([srt/layers/attention/hybrid_linear_attn_backend.py]) and [RadixAttention]
    ([srt/layers/radix_attention.py]).

    Layers without a sliding window and an unquantised cache; decode and
    speculative passes are not modelled.  The lengths on the host are those on the
    device. *)
From stdpp Require Import base list strings.
From Stdlib Require Import ZArith QArith Lia.
From S2P Require Import Prelude Tensor HybridKernel Backend Decoder ExtendKernel.
Local Open Scope nat_scope.

Module TB.
Import HK EK.

(** ** Data *)

(** The fields of a [ForwardBatch] of new tokens. *)
Record ForwardBatch : Type := mkFB {
  req_pool_indices : list nat;
  extend_prefix_lens : list nat;
  extend_seq_lens : list nat;
  extend_start_loc : option (list nat);
  out_cache_loc : list nat;
}.

Inductive AttentionType : Type := DECODER | DECODER_BIDIRECTIONAL | ENCODER_ONLY.

Section Model.
Context {R : Type} `{ScalarOps R} `{NetOps R} `{LogOps R}.

(** [RadixAttention]; [logit_cap] where it is positive. *)
Record RadixAttention : Type := mkRadix {
  tp_q_head_num : nat;
  tp_k_head_num : nat;
  qk_head_dim : nat;
  v_head_dim : nat;
  scaling : R;
  layer_id : nat;
  logit_cap : option R;
  logit_capping_method : string;
  is_cross_attention : bool;
  attn_type : AttentionType;
  xai_temperature_len : Z;
}.

(** ** The key-value pool *)

(** [HybridLinearKVPool]: buffers for the softmax layers only; the buffers of pool
    layer [i] are functions of slot, head and channel. *)
Record kv_pool : Type := mkPool {
  full_attention_layer_ids : list nat;
  k_buffer : nat -> tok R;
  v_buffer : nat -> tok R;
}.

Definition _transfer_full_attention_id (p : kv_pool) (layer_id : nat) : res nat :=
  match list_find (fun i => i = layer_id) (full_attention_layer_ids p) with
  | Some (i, _) => Ok i
  | None => Raise ValueError
  end.

(** [cache[indices] = x]. *)
Definition index_put (loc : list nat) (x buf : tok R) : tok R :=
  foldl (fun b t s h d => if s =? nth t loc 0 then x t h d else b s h d) buf (seq 0 (length loc)).

Definition set_buffer (i : nat) (x : tok R) (f : nat -> tok R) : nat -> tok R :=
  fun j => if j =? i then x else f j.

(** [HybridLinearKVPool.set_kv_buffer]. *)
Definition set_kv_buffer (layer_id : nat) (loc : list nat) (k v : tok R) (p : kv_pool) : res kv_pool :=
  (let! i := _transfer_full_attention_id p layer_id in
   Ok (mkPool (full_attention_layer_ids p) (set_buffer i (index_put loc k (k_buffer p i)) (k_buffer p))
         (set_buffer i (index_put loc v (v_buffer p i)) (v_buffer p))))%py.

Definition get_key_buffer (p : kv_pool) (layer_id : nat) : res (tok R) :=
  (let! i := _transfer_full_attention_id p layer_id in Ok (k_buffer p i))%py.

Definition get_value_buffer (p : kv_pool) (layer_id : nat) : res (tok R) :=
  (let! i := _transfer_full_attention_id p layer_id in Ok (v_buffer p i))%py.

(** ** The backend *)

(** The persistent pointer buffers. *)
Record ptr_buffers : Type := mkPtrs { kv_indptr_buf : list nat; qo_indptr_buf : list nat }.

Definition init_ptrs (max_bs : nat) : ptr_buffers := mkPtrs (replicate (max_bs + 1) 0) (replicate (max_bs + 1) 0).

Record ForwardMetadata : Type := mkMeta {
  max_extend_len : nat;
  md_kv_indptr : list nat;
  md_kv_indices : nat -> nat;
  md_qo_indptr : list nat;
}.

(** The device, the orders in which it runs one- and three-dimensional grids, and
    what uninitialised index buffers hold. *)
Record machine : Type := mkMachine {
  dev : device;
  sched1 : list nat -> list nat;
  sched3 : list (nat * nat * nat) -> list (nat * nat * nat);
  garbage : nat -> nat;
}.

Record backend : Type := mkBackend {
  enable_deterministic : bool;
  allow_bidirectional_attention_in_extend : bool;
}.

Variables (W : machine) (BE : backend).

(** [buf[1 : bs + 1] = cumsum(lens); buf[: bs + 1]]. *)
Definition fill_indptr (lens buf : list nat) : list nat * list nat :=
  let buf := py_splice 1 (Bk.cumsum lens) buf in (take (length lens + 1) buf, buf).

(** [init_forward_metadata] for a pass over new tokens; [max] of no lengths raises. *)
Definition init_forward_metadata (req_to_token : nat -> nat -> nat) (fb : ForwardBatch) (b : ptr_buffers)
    : res (ForwardMetadata * ptr_buffers) :=
  let '(kv_indptr, kbuf) := fill_indptr (extend_prefix_lens fb) (kv_indptr_buf b) in
  let kv_indices := launch (create_flashinfer_kv_indices_triton req_to_token (req_pool_indices fb)
                              (extend_prefix_lens fb) kv_indptr None)
                      (sched1 W (seq 0 (length (req_pool_indices fb)))) (garbage W) in
  let '(qo_indptr, qbuf) := fill_indptr (extend_seq_lens fb) (qo_indptr_buf b) in
  match extend_seq_lens fb with
  | [] => Raise ValueError
  | lens => Ok (mkMeta (max_list lens) kv_indptr kv_indices qo_indptr, mkPtrs kbuf qbuf)
  end.

Definition logit_capping_mod (method : string) (cap : option R) : res (option R) :=
  if String.eqb method "tanh" then Ok cap else Raise ValueError.

(** [causal] in [forward_extend]. *)
Definition causal_of (L : RadixAttention) : bool :=
  negb (is_cross_attention L ||
        match attn_type L with
        | ENCODER_ONLY => true
        | DECODER_BIDIRECTIONAL => allow_bidirectional_attention_in_extend BE
        | DECODER => false
        end).

(** [_forward_extend_unified]. *)
Definition _forward_extend_unified (md : ForwardMetadata) (L : RadixAttention) (fb : ForwardBatch) (causal : bool)
    (cap : option R) (sinks : option (vec R)) (q : tok R) (p : kv_pool) (o : omem R) : res (omem R) :=
  let bs := length (req_pool_indices fb) in
  let start_loc := match extend_start_loc fb with
                   | Some l => l
                   | None => 0 :: Bk.cumsum (take (length (extend_seq_lens fb) - 1) (extend_seq_lens fb))
                   end in
  let '(indptr, indices, prefix_lens) :=
    build_unified_kv_indices (sched1 W) (md_kv_indptr md) (md_kv_indices md) start_loc (extend_seq_lens fb)
      (fun t => nth t (out_cache_loc fb) 0) bs (garbage W) in
  (let! kb := get_key_buffer p (layer_id L) in
   let! vb := get_value_buffer p (layer_id L) in
   Ok (extend_attention_fwd_unified (dev W) (sched3 W) (tp_q_head_num L) (tp_k_head_num L) (qk_head_dim L) (v_head_dim L)
         q kb vb s1 s1 (md_qo_indptr md) indptr indices prefix_lens (max_extend_len md) None [] (Some (scaling L)) cap
         causal (-1)%Z sinks None (xai_temperature_len L) o))%py.

(** [TritonAttnBackend.forward_extend]; [o] is the uninitialised output. *)
Definition forward_extend (md : ForwardMetadata) (L : RadixAttention) (fb : ForwardBatch) (save_kv_cache : bool)
    (sinks : option (vec R)) (q k v : tok R) (p : kv_pool) (o : omem R) : res (kv_pool * omem R) :=
  (let! p := if save_kv_cache then set_kv_buffer (layer_id L) (out_cache_loc fb) k v p else Ok p in
   let! cap := logit_capping_mod (logit_capping_method L) (logit_cap L) in
   let causal := causal_of L in
   if enable_deterministic BE then
     let! o := _forward_extend_unified md L fb causal cap sinks q p o in Ok (p, o)
   else
     let! kb := get_key_buffer p (layer_id L) in
     let! vb := get_value_buffer p (layer_id L) in
     Ok (p, extend_attention_fwd (dev W) (sched3 W) (tp_q_head_num L) (tp_k_head_num L) (qk_head_dim L) (v_head_dim L)
              q k v kb vb (md_qo_indptr md) (md_kv_indptr md) (md_kv_indices md) None causal [] (max_extend_len md)
              s1 s1 (Some (scaling L)) cap true (-1)%Z sinks [] (xai_temperature_len L) o))%py.

(** [HybridLinearAttnBackend.forward_extend]: the linear backend of these layers only
    has [forward_qkv]. *)
Definition hybrid_forward_extend (full_attn_layers : list nat) (md : ForwardMetadata) (L : RadixAttention)
    (fb : ForwardBatch) (save_kv_cache : bool) (q k v : tok R) (p : kv_pool) (o : omem R) : res (kv_pool * omem R) :=
  if bool_decide (layer_id L ∈ full_attn_layers) then forward_extend md L fb save_kv_cache None q k v p o
  else Raise NotImplementedError.

(** [HybridLinearAttnBackend.init_forward_metadata]: the softmax backend, then the
    hybrid one. *)
Definition hybrid_init_forward_metadata (req_to_token : nat -> nat -> nat) (slots : list nat) (fb : ForwardBatch)
    (b : ptr_buffers) (hb : Bk.buffers) : res (ForwardMetadata * plan * ptr_buffers * Bk.buffers) :=
  (let! '(md, b) := init_forward_metadata req_to_token fb b in
   let '(pl, hb) := Bk.init_forward_metadata slots (extend_seq_lens fb) (extend_start_loc fb)
                      (Some (extend_seq_lens fb)) hb in
   Ok (md, pl, b, hb))%py.

End Model.
Arguments RadixAttention : clear implicits.
Arguments kv_pool : clear implicits.

End TB.
