(* ===== verification/TritonProps.v ===== *)
(** The softmax backend of [TritonBackend]: its metadata, its pool, and its two
    kernels, which agree. *)
From stdpp Require Import base list strings.
From Stdlib Require Import ZArith QArith Reals Lra Lia Ring.
From S2P Require Import Prelude Tensor HybridKernel KernelFacts KernelDriver Backend Decoder ExtendKernel ExtendFacts.
From S2P Require Import ExtendProps TritonBackend.
Local Open Scope nat_scope.

Module TP.
Import HK EK EF EP TB.

(** ** Metadata *)

Record ptrs_ok (max_bs : nat) (b : ptr_buffers) : Prop := {
  po_kv : length (kv_indptr_buf b) = max_bs + 1 /\ kv_indptr_buf b !! 0 = Some 0;
  po_qo : length (qo_indptr_buf b) = max_bs + 1 /\ qo_indptr_buf b !! 0 = Some 0;
}.

Lemma init_ptrs_ok max_bs : ptrs_ok max_bs (init_ptrs max_bs).
Proof. split; simpl; rewrite length_replicate; (split; [done|]); by rewrite Nat.add_comm. Qed.

Lemma fill_indptr_spec lens buf max_bs : length buf = max_bs + 1 -> buf !! 0 = Some 0 -> length lens <= max_bs ->
  let '(ptr, buf') := fill_indptr lens buf in
  ptr = indptr_of lens /\ length buf' = max_bs + 1 /\ buf' !! 0 = Some 0.
Proof.
  intros Hl H0 Hn. unfold fill_indptr. destruct buf as [|x buf]; [done|]. injection H0 as ->. simpl in Hl.
  assert (Hc : length (Bk.cumsum lens) = length lens) by (unfold Bk.cumsum; by rewrite length_map, length_seq).
  split; [|split; [rewrite length_py_splice; simpl; lia|done]].
  unfold py_splice. cbn [take app]. rewrite take_0. cbn [app].
  rewrite Nat.add_1_r. cbn [take]. rewrite take_app_le by lia. rewrite take_ge by lia.
  unfold indptr_of. cbn [seq map]. f_equal. unfold Bk.cumsum. rewrite <- (fmap_S_seq 0 (length lens)).
  rewrite <- list_fmap_compose. done.
Qed.

(** What the metadata of a pass holds. *)
Record meta_ok (req_to_token : nat -> nat -> nat) (fb : ForwardBatch) (md : ForwardMetadata) : Prop := {
  mo_kv : md_kv_indptr md = indptr_of (extend_prefix_lens fb);
  mo_qo : md_qo_indptr md = indptr_of (extend_seq_lens fb);
  mo_max : forall l, l ∈ extend_seq_lens fb -> l <= max_extend_len md;
  mo_idx : forall r j, r < length (extend_prefix_lens fb) -> j < nth r (extend_prefix_lens fb) 0 ->
    md_kv_indices md (sum_list (take r (extend_prefix_lens fb)) + j) = req_to_token (nth r (req_pool_indices fb) 0) j;
}.

Lemma metadata_ok W req_to_token fb b max_bs :
  (forall l, sched1 W l ≡ₚ l) -> ptrs_ok max_bs b -> extend_seq_lens fb <> [] ->
  length (extend_prefix_lens fb) = length (req_pool_indices fb) ->
  length (extend_seq_lens fb) = length (req_pool_indices fb) -> length (req_pool_indices fb) <= max_bs ->
  exists md b', init_forward_metadata W req_to_token fb b = Ok (md, b') /\ ptrs_ok max_bs b' /\ meta_ok req_to_token fb md.
Proof.
  intros Hs [[Hk1 Hk2] [Hq1 Hq2]] Hne Hp Hl Hb. unfold init_forward_metadata.
  pose proof (fill_indptr_spec (extend_prefix_lens fb) _ max_bs Hk1 Hk2 ltac:(lia)) as HK.
  pose proof (fill_indptr_spec (extend_seq_lens fb) _ max_bs Hq1 Hq2 ltac:(lia)) as HQ.
  destruct (fill_indptr (extend_prefix_lens fb) _) as [kp kb], (fill_indptr (extend_seq_lens fb) _) as [qp qb].
  destruct HK as (-> & HK1 & HK2), HQ as (-> & HQ1 & HQ2).
  destruct (extend_seq_lens fb) as [|l lens] eqn:El; [done|]. rewrite <- El in *.
  eexists _, _. split; [reflexivity|]. split; [by split|]. split; cbn [md_kv_indptr md_qo_indptr max_extend_len md_kv_indices];
    [done|done|intros x Hx; by apply Bk.le_max_list|].
  intros r j Hr Hj. apply kv_indices_spec; [|done|done]. by rewrite Hs, Hp.
Qed.

(** ** The pool *)

Section Pool.
Context {R : Type}.

Lemma put_at loc (x buf : tok R) t : NoDup loc -> t < length loc ->
  index_put loc x buf (nth t loc 0) = x t.
Proof.
  intros Hn Ht. unfold index_put.
  assert (Hk : forall k b, t < k <= length loc -> (foldl (fun b t s h d => if s =? nth t loc 0 then x t h d else b s h d) b (seq 0 k))
    (nth t loc 0) = x t).
  { induction k as [|k IH]; intros b Hk; [lia|]. rewrite seq_S, foldl_app. simpl.
    destruct (Nat.eqb_spec (nth t loc 0) (nth k loc 0)) as [E|Hne].
    - assert (t = k) as <-; [|done]. destruct (lookup_lt_is_Some_2 loc t Ht) as [u Hu].
      destruct (lookup_lt_is_Some_2 loc k ltac:(lia)) as [w Hw].
      rewrite (nth_lookup_Some _ _ _ _ Hu), (nth_lookup_Some _ _ _ _ Hw) in E. subst w. by eapply NoDup_lookup.
    - apply IH. destruct (decide (t = k)) as [->|]; [done|lia]. }
  apply Hk. lia.
Qed.

Lemma put_other loc (x buf : tok R) s : s ∉ loc -> index_put loc x buf s = buf s.
Proof.
  intros Hs. unfold index_put.
  assert (Hk : forall k b, k <= length loc -> (foldl (fun b t s h d => if s =? nth t loc 0 then x t h d else b s h d) b (seq 0 k)) s = b s).
  { induction k as [|k IH]; intros b Hk; [done|]. rewrite seq_S, foldl_app. simpl.
    destruct (Nat.eqb_spec s (nth k loc 0)) as [E|_]; [|apply IH; lia]. exfalso. apply Hs. rewrite E.
    apply list_elem_of_In, nth_In. lia. }
  by apply Hk.
Qed.

End Pool.

(** ** The two kernels *)

Section Kernels.
Context {R : Type} {HO : ScalarOps R} {sle : R -> R -> Prop} {HL : ScalarLaws R sle}.
Context {HN : NetOps R} {HLg : LogOps R}.
Local Open Scope sc_scope.
Add Ring triton_ring : s_ring.

(** Arguments of the two kernels for the same sequence [r], when the pool holds the
    new keys and values. *)
Record same_call (E : eargs R) (U : uargs R) (r : nat) : Prop := {
  sc_q : u_Q U = Q_Extend E;
  sc_qo : u_qo_indptr U = qo_indptr E;
  sc_no_mask : mask_ptr E = None /\ u_mask U = None;
  sc_window : u_window U = SLIDING_WINDOW_SIZE E;
  sc_causal : u_causal U = IS_CAUSAL E;
  sc_cap : u_cap U = EK.logit_cap E;
  sc_xai : (EK.xai_temperature_len E <= 0)%Z /\ (u_xai_len U <= 0)%Z;
  sc_dims : u_Lq U = Lq E /\ u_group_num U = kv_group_num E;
  sc_sink : u_sink U = sink_ptr E;
  sc_scales : EK.k_scale E = s1 /\ EK.v_scale E = s1 /\ u_v_scale U = s1 /\ u_scale U = sm_scale E;
  sc_prefix : nth r (u_prefix_lens U) 0%nat = seg_len (kv_indptr E) r;
  sc_len : seg_len (u_kv_indptr U) r = (seg_len (kv_indptr E) r + seg_len (qo_indptr E) r)%nat;
  sc_kv : u_K U = K_Buffer E /\ u_V U = V_Buffer E;
  sc_slots : forall j, (j < seg_len (kv_indptr E) r)%nat -> u_slot U r j = slot_of E r j;
  sc_new : forall j, (j < seg_len (qo_indptr E) r)%nat ->
    let s := u_slot U r (seg_len (kv_indptr E) r + j)%nat in
    let t := (seg_start (qo_indptr E) r + j)%nat in
    K_Buffer E s = K_Extend E t /\ V_Buffer E s = V_Extend E t;
}.

Lemma s_ring_mul_1_r (a : R) : a * s1 = a.
Proof. ring. Qed.

Section Same.
Variables (E : eargs R) (U : uargs R) (r : nat).
Hypothesis S : same_call E U r.
#[local] Abbreviation P := (seg_len (kv_indptr E) r).
#[local] Abbreviation n := (seg_len (qo_indptr E) r).

Lemma no_temper q x : u_temper U q x = x.
Proof.
  destruct (sc_xai _ _ _ S) as [_ Hx]. unfold u_temper. destruct (Z.ltb_spec 0 (u_xai_len U)); [lia|done].
Qed.

Lemma no_temper' q x : temper E q x = x.
Proof.
  destruct (sc_xai _ _ _ S) as [Hx _]. unfold temper. destruct (Z.ltb_spec 0 (EK.xai_temperature_len E)); [lia|done].
Qed.

Lemma same_prefix_mask i j : (j < P)%nat -> u_final_mask U r i j = prefix_mask E r i j.
Proof.
  intros Hj. destruct (sc_no_mask _ _ _ S) as [M1 M2]. unfold u_final_mask, prefix_mask, window_mask, u_windowed, windowed.
  rewrite M1, M2, (sc_prefix _ _ _ S), (sc_len _ _ _ S), (sc_qo _ _ _ S), (sc_window _ _ _ S).
  destruct (Nat.ltb_spec j P), (Nat.ltb_spec j (P + n)), (Nat.leb_spec P j); try lia.
  f_equal; [by destruct (u_causal U)|]. f_equal.
  match goal with |- (?a <=? ?b)%Z = (?c <=? ?d)%Z => destruct (Z.leb_spec a b), (Z.leb_spec c d) end; (done || lia).
Qed.

Lemma same_extend_mask i j : (j < n)%nat -> u_final_mask U r i (P + j) = extend_mask E r n i j.
Proof.
  intros Hj. destruct (sc_no_mask _ _ _ S) as [M1 M2]. unfold u_final_mask, extend_mask, window_mask, u_windowed, windowed.
  rewrite M1, M2, (sc_prefix _ _ _ S), (sc_len _ _ _ S), (sc_qo _ _ _ S), (sc_window _ _ _ S), (sc_causal _ _ _ S).
  destruct (Nat.ltb_spec j n), (Nat.ltb_spec (P + j) (P + n)), (Nat.leb_spec P (P + j)); try lia.
  replace (P + j - P)%nat with j by lia. f_equal. f_equal.
  match goal with |- (?a <=? ?b)%Z = (?c <=? ?d)%Z => destruct (Z.leb_spec a b), (Z.leb_spec c d) end; (done || lia).
Qed.

Lemma same_prefix_weight h i j : (j < P)%nat -> u_weight U r h i j = prefix_weight E r h i j.
Proof.
  intros Hj. destruct (sc_dims _ _ _ S) as [D1 D2], (sc_scales _ _ _ S) as (S1 & _ & _ & S4), (sc_kv _ _ _ S) as [K1 _].
  unfold u_weight, prefix_weight, u_score, score, q_row.
  rewrite same_prefix_mask, (sc_slots _ _ _ S), D1, D2, K1, S1, S4, (sc_q _ _ _ S), (sc_qo _ _ _ S), (sc_cap _ _ _ S) by done.
  rewrite no_temper, no_temper'. replace (sm_scale E * s1) with (sm_scale E) by ring. done.
Qed.

Lemma same_extend_weight h i j : (j < n)%nat -> u_weight U r h i (P + j) = extend_weight E r h n i j.
Proof.
  intros Hj. destruct (sc_dims _ _ _ S) as [D1 D2], (sc_scales _ _ _ S) as (_ & _ & _ & S4), (sc_kv _ _ _ S) as [K1 _].
  destruct (sc_new _ _ _ S j Hj) as [N1 _].
  unfold u_weight, extend_weight, u_score, score, q_row.
  rewrite same_extend_mask, D1, D2, K1, S4, (sc_q _ _ _ S), (sc_qo _ _ _ S), (sc_cap _ _ _ S) by done.
  rewrite no_temper, no_temper'. unfold row at 2 4. by rewrite N1.
Qed.

Lemma same_attention h i d : unified_attention U r h i d = softmax_attention E r h i d.
Proof.
  destruct (sc_dims _ _ _ S) as [_ D2], (sc_scales _ _ _ S) as (_ & S2 & S3 & _), (sc_kv _ _ _ S) as [_ K2].
  unfold unified_attention, softmax_attention. rewrite (sc_len _ _ _ S), S2, S3, (sc_sink _ _ _ S), D2, K2.
  rewrite !vsum_app.
  rewrite (vsum_ext P (u_weight U r h i) (prefix_weight E r h i)) by (intros; by apply same_prefix_weight).
  rewrite (vsum_ext n (fun j => u_weight U r h i (P + j)%nat) (extend_weight E r h n i))
    by (intros; by apply same_extend_weight).
  rewrite (vsum_ext P _ (fun j => prefix_weight E r h i j * V_Buffer E (slot_of E r j) (h / kv_group_num E)%nat d))
    by (intros j Hj; by rewrite same_prefix_weight, (sc_slots _ _ _ S)).
  rewrite (vsum_ext n (fun j => u_weight U r h i (P + j)%nat * _)
    (fun j => extend_weight E r h n i j * V_Extend E (seg_start (qo_indptr E) r + j)%nat (h / kv_group_num E)%nat d)).
  2: { intros j Hj. destruct (sc_new _ _ _ S j Hj) as [_ N2]. rewrite same_extend_weight by done. by rewrite N2. }
  rewrite sdiv_mul. symmetry. rewrite sdiv_mul. ring.
Qed.

End Same.
End Kernels.

(** ** A pass of a softmax layer *)

Section Forward.
Context {R : Type} {HO : ScalarOps R} {sle : R -> R -> Prop} {HL : ScalarLaws R sle}.
Context {HN : NetOps R} {HLg : LogOps R}.
Local Open Scope sc_scope.

(** A batch of new tokens: one slot for each of them. *)
Record batch_ok (fb : ForwardBatch) : Prop := {
  bt_prefix : length (extend_prefix_lens fb) = length (req_pool_indices fb);
  bt_lens : length (extend_seq_lens fb) = length (req_pool_indices fb);
  bt_loc : length (out_cache_loc fb) = sum_list (extend_seq_lens fb);
  bt_slots : NoDup (out_cache_loc fb);
  bt_start : extend_start_loc fb = None \/ extend_start_loc fb = Some (offsets (extend_seq_lens fb));
  bt_some : extend_seq_lens fb <> [];
}.

Record machine_ok (W : machine) : Prop := {
  mc_1 : forall l, sched1 W l ≡ₚ l;
  mc_3 : forall l, sched3 W l ≡ₚ l;
}.

(** The layer can run: its buffers exist and its cap has a known method. *)
Record layer_ok (L : RadixAttention R) (p : kv_pool R) (i : nat) : Prop := {
  lo_pool : _transfer_full_attention_id p (layer_id L) = Ok i;
  lo_cap : logit_capping_method L = "tanh"%string;
}.

(** The pool after the keys and values of the pass were saved. *)
Definition saved (i : nat) (fb : ForwardBatch) (k v : tok R) (p : kv_pool R) : kv_pool R :=
  mkPool (full_attention_layer_ids p) (set_buffer i (index_put (out_cache_loc fb) k (k_buffer p i)) (k_buffer p))
    (set_buffer i (index_put (out_cache_loc fb) v (v_buffer p i)) (v_buffer p)).

(** The arguments that the two-stage kernel gets. *)
Definition kernel_args (BE : backend) (md : ForwardMetadata) (L : RadixAttention R) (sinks : option (vec R)) (i : nat)
    (q k v : tok R) (p : kv_pool R) : eargs R :=
  mkE q k v (k_buffer p i) (v_buffer p i) (md_qo_indptr md) (md_kv_indptr md) (md_kv_indices md) None [] sinks []
    (scale_or (Some (scaling L)) (qk_head_dim L)) s1 s1 (tp_q_head_num L / tp_k_head_num L) (-1)%Z (logit_cap L)
    (xai_temperature_len L) (qk_head_dim L) (v_head_dim L) (causal_of BE L) true.

#[local] Arguments seg_len : simpl never.
#[local] Arguments seg_start : simpl never.
#[local] Arguments saved : simpl never.
#[local] Arguments indptr_of : simpl never.

Section Pass.
Variables (W : machine) (BE : backend) (req_to_token : nat -> nat -> nat) (fb : ForwardBatch) (md : ForwardMetadata)
  (L : RadixAttention R) (sinks : option (vec R)) (q k v : tok R) (p : kv_pool R) (i : nat).
Hypothesis (HW : machine_ok W) (Hfb : batch_ok fb) (Hmd : meta_ok req_to_token fb md) (HLy : layer_ok L p i).
#[local] Abbreviation lens := (extend_seq_lens fb).
#[local] Abbreviation plens := (extend_prefix_lens fb).
#[local] Abbreviation p' := (saved i fb k v p).
#[local] Abbreviation E := (kernel_args BE md L sinks i q k v p').

Lemma saved_key : k_buffer p' i = index_put (out_cache_loc fb) k (k_buffer p i) /\
  v_buffer p' i = index_put (out_cache_loc fb) v (v_buffer p i).
Proof. unfold saved, set_buffer. simpl. by rewrite Nat.eqb_refl. Qed.

Lemma set_saved : set_kv_buffer (layer_id L) (out_cache_loc fb) k v p = Ok p'.
Proof. unfold set_kv_buffer. by rewrite (lo_pool _ _ _ HLy). Qed.

Lemma get_saved : get_key_buffer p' (layer_id L) = Ok (k_buffer p' i) /\ get_value_buffer p' (layer_id L) = Ok (v_buffer p' i).
Proof.
  unfold get_key_buffer, get_value_buffer.
  assert (Et : _transfer_full_attention_id p' (layer_id L) = Ok i) by apply (lo_pool _ _ _ HLy). by rewrite Et.
Qed.

Lemma batch_start_loc :
  match extend_start_loc fb with Some l => l | None => 0%nat :: Bk.cumsum (take (length lens - 1) lens) end = offsets lens.
Proof.
  destruct (bt_start _ Hfb) as [->| ->]; [|done]. apply Bk.cumsum_offsets.
  pose proof (bt_some _ Hfb). destruct lens; [done|simpl; lia].
Qed.

Lemma token_of_row r j : (r < length lens)%nat -> (j < nth r lens 0)%nat -> (sum_list (take r lens) + j < length (out_cache_loc fb))%nat.
Proof.
  intros Hr Hj. rewrite (bt_loc _ Hfb). pose proof (sum_take_mono lens (S r) (length lens) ltac:(lia)) as Hs.
  rewrite firstn_all, sum_take_S in Hs by done. lia.
Qed.

(** The normal path. *)
Lemma two_stage_pass o : enable_deterministic BE = false -> exists o',
  forward_extend W BE md L fb true sinks q k v p o = Ok (p', o') /\
  forall r h j d, (r < length lens)%nat -> (h < tp_q_head_num L)%nat -> (j < nth r lens 0)%nat -> (d < v_head_dim L)%nat ->
    o' (sum_list (take r lens) + j, h, d)%nat = softmax_attention E r h j d.
Proof.
  intros Hd. unfold forward_extend. rewrite set_saved. cbn [rbind]. unfold logit_capping_mod.
  rewrite (lo_cap _ _ _ HLy). cbn [rbind String.eqb]. rewrite Hd. destruct get_saved as [-> ->]. cbn [rbind].
  eexists. split; [reflexivity|]. intros r h j d Hr Hh Hj Hdd.
  destruct (extend_launch (dev W) (sched3 W) (tp_q_head_num L) (tp_k_head_num L) (qk_head_dim L) (v_head_dim L)
    q k v (k_buffer p' i) (v_buffer p' i) lens (md_kv_indptr md) (md_kv_indices md) None (causal_of BE L) [] (max_extend_len md)
    s1 s1 (Some (scaling L)) (logit_cap L) true (-1)%Z sinks [] (xai_temperature_len L) o (mc_3 _ HW)) as (B & order & Hc & Ho & El).
  rewrite (mo_qo _ _ _ Hmd), El.
  match type of El with _ = launch (_fwd_kernel _ ?F) _ _ =>
    destruct (two_stage_rows B F lens (tp_q_head_num L) (max_extend_len md) order o Hc eq_refl (mo_max _ _ _ Hmd) Ho) as [He _] end.
  rewrite He by (done || by apply visible_no_mask).
  unfold kernel_args. by rewrite (mo_qo _ _ _ Hmd).
Qed.

(** The deterministic path. *)
Lemma unified_pass o : enable_deterministic BE = true -> (xai_temperature_len L <= 0)%Z -> exists o',
  forward_extend W BE md L fb true sinks q k v p o = Ok (p', o') /\
  forall r h j d, (r < length lens)%nat -> (h < tp_q_head_num L)%nat -> (j < nth r lens 0)%nat -> (d < v_head_dim L)%nat ->
    o' (sum_list (take r lens) + j, h, d)%nat = softmax_attention E r h j d.
Proof.
  intros Hd Hx. unfold forward_extend. rewrite set_saved. cbn [rbind]. unfold logit_capping_mod.
  rewrite (lo_cap _ _ _ HLy). cbn [rbind String.eqb]. rewrite Hd. unfold _forward_extend_unified.
  rewrite batch_start_loc, (mo_kv _ _ _ Hmd), (mo_qo _ _ _ Hmd).
  replace (length (req_pool_indices fb)) with (length lens) by apply Hfb.
  assert (Hlp : length plens = length lens) by (destruct Hfb; congruence).
  pose proof (unified_indices_spec plens lens (md_kv_indices md) (fun t => nth t (out_cache_loc fb) 0%nat) (sched1 W) (garbage W)
    (mc_1 _ HW) Hlp) as Hu.
  destruct (build_unified_kv_indices _ _ _ _ _ _ _ _) as [[ptr idx] pl]. destruct Hu as (-> & -> & Hidx).
  destruct get_saved as [-> ->]. cbn [rbind]. eexists. split; [reflexivity|].
  intros r h j d Hr Hh Hj Hdd. unfold extend_attention_fwd_unified.
  set (U := mkU _ _ _ _ _ _ _ _ _ _ _ _ _ _ _ _ _ _ _ _). set (B := _get_block_sizes_for_extend_attention _ _ _).
  rewrite (unified_rows B U lens (tp_q_head_num L) (max_extend_len md));
    [|apply block_sizes_cover|done|apply Hmd| |done|done|done|done].
  2: { rewrite (mc_3 _ HW). unfold indptr_of at 1. rewrite length_map, length_seq. simpl. by rewrite Nat.sub_0_r. }
  apply same_attention.
  assert (Hz : length (zip_with Nat.add plens lens) = length lens) by (rewrite length_zip_with; lia).
  assert (Hn : nth r (zip_with Nat.add plens lens) 0%nat = (nth r plens 0 + nth r lens 0)%nat).
  { destruct (lookup_lt_is_Some_2 plens r ltac:(lia)) as [x Ex]. destruct (lookup_lt_is_Some_2 lens r Hr) as [y Ey].
    rewrite (nth_lookup_Some (zip_with Nat.add plens lens) r 0%nat (x + y)%nat), (nth_lookup_Some plens r 0%nat x), (nth_lookup_Some lens r 0%nat y); try done.
    by rewrite lookup_zip_with, Ex, Ey. }
  destruct saved_key as [EK1 EK2].
  split; unfold kernel_args, U; cbn; try done; try (split; done).
  - by rewrite (mo_qo _ _ _ Hmd).
  - split; [done|]. split; [done|]. split; [done|]. unfold scale_or. destruct (s_is_zero (scaling L)); apply s_ring_mul_1_r.
  - by rewrite (mo_kv _ _ _ Hmd), seg_len_indptr by lia.
  - rewrite (mo_kv _ _ _ Hmd), (mo_qo _ _ _ Hmd), !seg_len_indptr by lia. exact Hn.
  - rewrite (mo_kv _ _ _ Hmd), seg_len_indptr by lia. intros j' Hj'. unfold u_slot, slot_of. cbn.
    rewrite !seg_start_indptr by lia. by apply (Hidx r j' Hr).
  - rewrite (mo_kv _ _ _ Hmd), (mo_qo _ _ _ Hmd), !seg_len_indptr, seg_start_indptr by lia. intros j' Hj'. unfold u_slot. cbn.
    rewrite seg_start_indptr by lia. destruct (Hidx r j' Hr) as [_ Hs]. rewrite (Hs Hj').
    rewrite EK1, EK2. split; apply put_at; (apply Hfb || by apply token_of_row).
Qed.

(** Either path. *)
Lemma extend_pass o : (xai_temperature_len L <= 0)%Z -> exists o',
  forward_extend W BE md L fb true sinks q k v p o = Ok (p', o') /\
  forall r h j d, (r < length lens)%nat -> (h < tp_q_head_num L)%nat -> (j < nth r lens 0)%nat -> (d < v_head_dim L)%nat ->
    o' (sum_list (take r lens) + j, h, d)%nat = softmax_attention E r h j d.
Proof. intros Hx. destruct (enable_deterministic BE) eqn:Ed; [by apply unified_pass|by apply two_stage_pass]. Qed.

End Pass.
End Forward.

(** ** The deterministic path *)

Section Deterministic.
Context {R : Type} {HO : ScalarOps R} {sle : R -> R -> Prop} {HL : ScalarLaws R sle}.
Context {HN : NetOps R} {HLg : LogOps R}.

(** C36. Deterministic inference changes nothing.  For any batch of new tokens, the
    metadata is built whatever earlier passes left in the buffers; then the
    deterministic path, which gathers the slots of prefixes and new tokens into one
    index and reads all keys from the cache, and the normal path, which reads the new
    keys from the batch, both succeed, leave the same key-value pool, and give every
    row of every head the same output, on any two machines and for any orders of
    their kernels; given no temperature, where the two kernels differ. *)
Theorem deterministic_is_normal (W0 W1 W2 : machine) (allow : bool) (max_bs : nat) (b : ptr_buffers) (req_to_token : nat -> nat -> nat)
    (fb : ForwardBatch) (L : RadixAttention R) (sinks : option (vec R)) (q k v : tok R) (p : kv_pool R) (i : nat) (o1 o2 : omem R) :
  machine_ok W0 -> machine_ok W1 -> machine_ok W2 -> batch_ok fb -> ptrs_ok max_bs b -> length (req_pool_indices fb) <= max_bs ->
  layer_ok L p i -> (xai_temperature_len L <= 0)%Z ->
  exists md b' p' a c, init_forward_metadata W0 req_to_token fb b = Ok (md, b') /\ ptrs_ok max_bs b' /\
    forward_extend W1 (mkBackend true allow) md L fb true sinks q k v p o1 = Ok (p', a) /\
    forward_extend W2 (mkBackend false allow) md L fb true sinks q k v p o2 = Ok (p', c) /\
    forall r h j d, r < length (extend_seq_lens fb) -> h < tp_q_head_num L -> j < nth r (extend_seq_lens fb) 0 -> d < v_head_dim L ->
      a (sum_list (take r (extend_seq_lens fb)) + j, h, d) = c (sum_list (take r (extend_seq_lens fb)) + j, h, d).
Proof.
  intros H0 H1 H2 Hfb Hb Hmax HLy Hx.
  destruct (metadata_ok W0 req_to_token fb b max_bs (mc_1 _ H0) Hb (bt_some _ Hfb) (bt_prefix _ Hfb) (bt_lens _ Hfb) Hmax)
    as (md & b' & Em & Hb' & Hmd).
  destruct (unified_pass W1 (mkBackend true allow) req_to_token fb md L sinks q k v p i H1 Hfb Hmd HLy o1 eq_refl Hx) as (a & Ea & Ra).
  destruct (two_stage_pass W2 (mkBackend false allow) req_to_token fb md L sinks q k v p i H2 Hmd HLy o2 eq_refl) as (c & Ec & Rc).
  exists md, b', (saved i fb k v p), a, c. split; [done|]. split; [done|]. split; [done|]. split; [done|].
  intros r h j d Hr Hh Hj Hd. rewrite Ra, Rc by done. done.
Qed.

End Deterministic.

(** ** A concrete batch *)

Module Example_.
Export EP.Example_.

Definition demo_machine : machine := mkMachine (EK.Cuda 9 0) (fun l => l) (fun l => l) (fun _ => 0).
Definition back_machine : machine := mkMachine EK.Hip (fun l => rev l) (fun l => rev l) (fun _ => 9).

(** Request 5 has two cached tokens and two new ones, request 6 one new token. *)
Definition demo_fb : ForwardBatch := mkFB [5; 6] [2; 0] [2; 1] None [4; 8; 1].
Definition demo_layer : RadixAttention R := mkRadix 2 1 2 2 1%R 3 None "tanh" false ENCODER_ONLY (-1)%Z.
Definition demo_pool : kv_pool R := mkPool [1; 3] (fun _ => slot_rows) (fun _ => slot_rows).

Lemma demo_batch_ok : batch_ok demo_fb.
Proof. split; try done; [|by left]. apply (bool_decide_unpack _). vm_compute. exact I. Qed.

End Example_.
Import Example_.

Lemma deterministic_is_normal_witness : exists md b' p' a c,
  init_forward_metadata demo_machine (fun r j => 10 * r + j) demo_fb (init_ptrs 4) = Ok (md, b') /\
  forward_extend demo_machine (mkBackend true false) md demo_layer demo_fb true None unit_rows unit_rows unit_rows demo_pool
    (fun _ => 0%R) = Ok (p', a) /\
  forward_extend back_machine (mkBackend false false) md demo_layer demo_fb true None unit_rows unit_rows unit_rows demo_pool
    (fun _ => 7%R) = Ok (p', c) /\ a (1, 1, 0) = c (1, 1, 0).
Proof.
  destruct (deterministic_is_normal (sle := Rle) demo_machine demo_machine back_machine false 4 (init_ptrs 4) (fun r j => 10 * r + j)
    demo_fb demo_layer None unit_rows unit_rows unit_rows demo_pool 1 (fun _ => 0%R) (fun _ => 7%R))
    as (md & b' & p' & a & c & E1 & _ & E2 & E3 & Hr).
  - split; done.
  - split; done.
  - split; intros l; symmetry; apply Permutation_rev.
  - exact demo_batch_ok.
  - apply init_ptrs_ok.
  - simpl. lia.
  - split; reflexivity.
  - simpl. lia.
  - exists md, b', p', a, c. split; [exact E1|]. split; [exact E2|]. split; [exact E3|]. apply (Hr 0 1 1 0); simpl; lia.
Defined.

End TP.
