(* ===== verification/SoftmaxLayer.v ===== *)
(** The served softmax layer, [LLaDA2MoeAttention] of
    [sglang/srt/models/llada2.py], on the softmax backend of [TritonBackend].

    The keys and values of a request live in the slots that its row of the request
    table lists.  When these slots hold the keys and values of the blocks before,
    the pass over the next block gives its rows the attention of the Hugging Face
    layer over the whole sequence under the block mask, and the slots of the block
    then hold its keys and values.

    One rank; the fused kernel that rotates the keys and saves them in one launch
    is not modelled apart, since it writes the same slots. *)
From stdpp Require Import base list strings.
From Stdlib Require Import ZArith QArith Reals Lra Lia Ring FunctionalExtensionality.
From S2P Require Import Prelude Denoise Sampling Tensor RealOps Moe LinearAttention HybridAttention.
From S2P Require Import HybridKernel KernelFacts KernelDriver Backend Decoder DecoderFacts ServedLayer.
From S2P Require Import ExtendKernel ExtendFacts ExtendProps TritonBackend TritonProps.
Local Open Scope nat_scope.

Module SX.
Import Moe HK EK EF TB TP.

Section Model.
Context {R : Type} `{ScalarOps R} `{NetOps R} `{LogOps R}.
Local Open Scope sc_scope.

(** [LLaDA2MoeAttention]; biases are zero where the layer has none. *)
Record attention : Type := mkAttention {
  hidden_size : nat;
  num_heads : nat;
  num_kv_heads : nat;
  head_dim : nat;
  query_key_value : mat R;
  qkv_bias : vec R;
  query_layernorm : option (Dec.rms_norm R);
  key_layernorm : option (Dec.rms_norm R);
  dense_weight : mat R;
  dense_bias : vec R;
  rotary_emb : SL.rope R;
  attn_layer_id : nat;
}.

Variable A : attention.

(** [self.attn]. *)
Definition attn : RadixAttention R :=
  mkRadix (num_heads A) (num_kv_heads A) (head_dim A) (head_dim A) (sinvsqrt (head_dim A)) (attn_layer_id A) None "tanh"
    false ENCODER_ONLY (-1)%Z.

Definition q_size : nat := (head_dim A * num_heads A)%nat.
Definition kv_size : nat := Nat.max 1 (num_kv_heads A * head_dim A).

Definition qkv (x : vec R) : vec R := fun o =>
  linear (hidden_size A) (query_key_value A) x o + qkv_bias A o.

(** Head [h] of a part of the projection that starts at [start]. *)
Definition head_of (start : nat) (y : vec R) (h : nat) : vec R := fun d => y (start + (h * head_dim A + d))%nat.

(** Queries, keys and values of token [t] of the batch, after norm and rotation. *)
Definition q_tok (positions : nat -> nat) (hs : nat -> vec R) : tok R := fun t h =>
  SL.rope_forward (rotary_emb A) (positions t) (SL.qk_norm (query_layernorm A) (head_of 0 (qkv (hs t)) h)).

Definition k_tok (positions : nat -> nat) (hs : nat -> vec R) : tok R := fun t h =>
  SL.rope_forward (rotary_emb A) (positions t) (SL.qk_norm (key_layernorm A) (head_of q_size (qkv (hs t)) h)).

Definition v_tok (hs : nat -> vec R) : tok R := fun t h => head_of (q_size + kv_size) (qkv (hs t)) h.

(** [self.dense] of a row of the kernel's output. *)
Definition dense_row (o : omem R) (t : nat) : vec R := fun c =>
  linear (num_heads A * head_dim A) (dense_weight A)
    (fun i => o (t, i / head_dim A, i mod head_dim A)%nat) c + dense_bias A c.

(** [forward] on the [T] tokens of a batch; [o] is the uninitialised output of the
    kernel. *)
Definition forward (W : machine) (BE : backend) (full_attn_layers : list nat) (md : ForwardMetadata) (fb : ForwardBatch)
    (T : nat) (positions : nat -> nat) (hs : nat -> vec R) (p : kv_pool R) (o : omem R)
    : res (kv_pool R * (nat -> vec R)) :=
  if (T =? 0)%nat then Ok (p, hs)
  else
    (let! '(p, o) := hybrid_forward_extend W BE full_attn_layers md attn fb true
                       (q_tok positions hs) (k_tok positions hs) (v_tok hs) p o in
     Ok (p, dense_row o))%py.

End Model.
Arguments attention : clear implicits.

(** ** The rows of the projections *)

Section Rows.
Context {R : Type} {HO : ScalarOps R} {sle : R -> R -> Prop} {HL : ScalarLaws R sle}.
Context {HN : NetOps R} {HLg : LogOps R}.
Local Open Scope sc_scope.
Add Ring softmax_ring : s_ring.

(** The same weights in the Hugging Face model. *)
Definition hf_attention (A : attention R) : Dec.attention R :=
  Dec.mkAttn (hidden_size A) (num_heads A) (num_kv_heads A) (head_dim A) (query_key_value A) (qkv_bias A)
    (query_layernorm A) (key_layernorm A) (dense_weight A) (dense_bias A) Dec.SoftmaxAttn.

(** Vectors that agree on their first [n] entries. *)
Definition veq (n : nat) (x y : vec R) : Prop := forall d, (d < n)%nat -> x d = y d.

Lemma linear_veq n W (x y : vec R) o : veq n x y -> linear n W x o = linear n W y o.
Proof. intros E. unfold linear. apply vsum_ext. intros i Hi. by rewrite E. Qed.

Section Layer.
Variable A : attention R.
#[local] Abbreviation B := (hf_attention A).
#[local] Abbreviation P := (SL.hf_rotary (rotary_emb A)).
Hypothesis rot_even : (SL.rotary_dim (rotary_emb A)) mod 2 = 0%nat.
Hypothesis kv_some : (0 < num_kv_heads A * head_dim A)%nat.

Lemma softmax_head_is_hf start i x h : start = (i * head_dim A)%nat -> head_of A start (qkv A x) h = Dec.qkv_head B x (i + h).
Proof.
  intros ->. apply functional_extensionality. intros d. unfold head_of, qkv, Dec.qkv_head. simpl.
  replace (i * head_dim A + (h * head_dim A + d))%nat with ((i + h) * head_dim A + d)%nat by lia. done.
Qed.

Lemma q_tok_is_hf positions hs t h : q_tok A positions hs t h = Dec.query_states B P (positions t) (hs t) h.
Proof.
  unfold q_tok, Dec.query_states. rewrite SL.rope_is_hf, SL.qk_norm_is_hf by done. by rewrite (softmax_head_is_hf 0 0).
Qed.

Lemma k_tok_is_hf positions hs t h : k_tok A positions hs t h = Dec.key_states B P (positions t) (hs t) h.
Proof.
  unfold k_tok, Dec.key_states. rewrite SL.rope_is_hf, SL.qk_norm_is_hf by done.
  by rewrite (softmax_head_is_hf (q_size A) (num_heads A)) by (unfold q_size; lia).
Qed.

Lemma v_tok_is_hf hs t h : v_tok A hs t h = Dec.value_states B (hs t) h.
Proof.
  unfold v_tok, Dec.value_states.
  by rewrite (softmax_head_is_hf (q_size A + kv_size A) (num_heads A + num_kv_heads A)) by (unfold q_size, kv_size; lia).
Qed.

(** Only the first entries of a hidden state matter. *)
Lemma qkv_head_veq x y i : veq (hidden_size A) x y -> Dec.qkv_head B x i = Dec.qkv_head B y i.
Proof.
  intros E. apply functional_extensionality. intros d. unfold Dec.qkv_head. simpl.
  by rewrite (linear_veq (hidden_size A) _ x y).
Qed.

Lemma states_veq pos x y : veq (hidden_size A) x y ->
  Dec.query_states B P pos x = Dec.query_states B P pos y /\
  Dec.key_states B P pos x = Dec.key_states B P pos y /\ Dec.value_states B x = Dec.value_states B y.
Proof.
  intros E. split; [|split]; apply functional_extensionality; intros h; unfold Dec.query_states, Dec.key_states, Dec.value_states;
    by rewrite (qkv_head_veq x y _ E).
Qed.

(** ** The rows of the Hugging Face layer *)

(** Attention of one query over the [n] first positions, all visible. *)
Definition over (n : nat) (hs : nat -> vec R) (t h : nat) : vec R :=
  let gr := (num_heads A / num_kv_heads A)%nat in
  Dec.eager_attention B n (Dec.query_states B P t (hs t) h) (fun j => Dec.key_states B P j (hs j) (h / gr)%nat)
    (fun j => Dec.value_states B (hs j) (h / gr)%nat) (fun _ => Some s0).

Variables (bs : nat) (hs : list (vec R)).
Hypothesis bs_pos : (0 < bs)%nat.
#[local] Abbreviation hrow := (fun t => nth t hs zero_vec).

Lemma kv_rows j h x : hs !! j = Some x -> Dec.keys_values B P 0 hs !! j = Some (Dec.kv_of B P j x) /\
  forall kv : Dec.heads R, Dec.repeat_kv (Dec.num_key_value_groups B) kv h = kv (h / (num_heads A / num_kv_heads A))%nat.
Proof.
  intros Hx. split; [unfold Dec.keys_values; by rewrite list_lookup_imap, Hx|].
  intros kv. unfold Dec.repeat_kv, Dec.num_key_value_groups. simpl.
  destruct (Nat.eqb_spec (num_heads A / num_kv_heads A) 1) as [->|]; [by rewrite Nat.div_1_r|done].
Qed.

(** Row [t] of block [n]. *)
Lemma hf_softmax_row N n t : length hs = (N * bs)%nat -> (n < N)%nat -> (t < bs)%nat ->
  nth (n * bs + t) (Dec.attn_forward B P 1 0 (Dec.block_mask bs) hs) zero_vec
  = Dec.dense B (over (S n * bs) hrow (n * bs + t)).
Proof.
  intros Hl Hn Ht. assert (Hin : (n * bs + t < N * bs)%nat) by nia.
  destruct (lookup_lt_is_Some_2 hs (n * bs + t) ltac:(lia)) as [x Hx].
  pose proof (DecFacts.attn_row_lookup P bs bs_pos B hs N (n * bs + t) I Hl Hin) as E. simpl in E.
  unfold DecFacts.attn_row, Dec.queries in E. rewrite list_lookup_imap, Hx in E. simpl in E.
  rewrite (nth_lookup_Some _ _ _ _ E). f_equal.
  assert (Ee : DecFacts.block_end bs (n * bs + t) = (S n * bs)%nat)
    by (unfold DecFacts.block_end; rewrite Nat.div_add_l, Nat.div_small by lia; lia).
  rewrite Ee. apply functional_extensionality. intros h. unfold Dec.softmax_heads, over.
  rewrite length_take, DecFacts.kv_length, (nth_lookup_Some _ _ _ _ Hx), Nat.min_l by nia.
  apply DecFacts.eager_visible; try done; [lia|intros j e Hj..];
    destruct (lookup_lt_is_Some_2 hs j ltac:(nia)) as [y Hy]; destruct (kv_rows j h y Hy) as [Ek Er];
    erewrite SL.along_map by (rewrite lookup_take_lt by done; exact Ek); cbn [fst snd Dec.kv_of];
    by rewrite Er, (nth_lookup_Some _ _ _ _ Hy).
Qed.

(** ** A pass over a block of a request *)

(** The slots of the request hold the keys and values of its first [m] positions. *)
Definition holds (req_to_token : nat -> nat -> nat) (req i m : nat) (p : kv_pool R) : Prop :=
  forall j, (j < m)%nat ->
    k_buffer p i (req_to_token req j) = Dec.key_states B P j (hrow j) /\
    v_buffer p i (req_to_token req j) = Dec.value_states B (hrow j).

(** Block [n] of the request is request [r] of a batch. *)
Record serves (req_to_token : nat -> nat -> nat) (req n : nat) (fb : ForwardBatch) (positions : nat -> nat)
    (batch : nat -> vec R) (r : nat) : Prop := {
  sv_batch : batch_ok fb;
  sv_in : (r < length (extend_seq_lens fb))%nat;
  sv_req : nth r (req_pool_indices fb) 0%nat = req;
  sv_prefix : nth r (extend_prefix_lens fb) 0%nat = (n * bs)%nat;
  sv_len : nth r (extend_seq_lens fb) 0%nat = bs;
  sv_rows : forall t, (t < bs)%nat ->
    veq (hidden_size A) (batch (sum_list (take r (extend_seq_lens fb)) + t)%nat) (hrow (n * bs + t)%nat);
  sv_positions : forall t, (t < bs)%nat -> positions (sum_list (take r (extend_seq_lens fb)) + t)%nat = (n * bs + t)%nat;
  sv_slots : forall t, (t < bs)%nat ->
    nth (sum_list (take r (extend_seq_lens fb)) + t) (out_cache_loc fb) 0%nat = req_to_token req (n * bs + t)%nat;
  sv_fresh : forall j, (j < n * bs)%nat -> req_to_token req j ∉ out_cache_loc fb;
}.

Section Pass.
Variables (W : machine) (BE : backend) (req_to_token : nat -> nat -> nat) (req n : nat) (fb : ForwardBatch)
  (md : ForwardMetadata) (positions : nat -> nat) (batch : nat -> vec R) (r : nat) (p : kv_pool R) (i : nat).
Hypothesis (Hs : serves req_to_token req n fb positions batch r) (Hmd : meta_ok req_to_token fb md).
#[local] Abbreviation lens := (extend_seq_lens fb).
#[local] Abbreviation at_ t := (sum_list (take r lens) + t)%nat.
#[local] Abbreviation q' := (q_tok A positions batch).
#[local] Abbreviation k' := (k_tok A positions batch).
#[local] Abbreviation v' := (v_tok A batch).
#[local] Abbreviation p' := (saved i fb k' v' p).
#[local] Abbreviation E := (kernel_args BE md (attn A) None i q' k' v' p').

(** The new rows. *)
Lemma new_rows t : (t < bs)%nat ->
  q' (at_ t) = Dec.query_states B P (n * bs + t)%nat (hrow (n * bs + t)%nat) /\
  k' (at_ t) = Dec.key_states B P (n * bs + t)%nat (hrow (n * bs + t)%nat) /\
  v' (at_ t) = Dec.value_states B (hrow (n * bs + t)%nat).
Proof.
  intros Ht. destruct (states_veq (n * bs + t)%nat _ _ (sv_rows _ _ _ _ _ _ _ Hs t Ht)) as (E1 & E2 & E3).
  rewrite <- E1, <- E2, <- E3. rewrite <- (sv_positions _ _ _ _ _ _ _ Hs t Ht) at 1 2.
  split; [|split]; apply functional_extensionality; intros h; [apply q_tok_is_hf|apply k_tok_is_hf|apply v_tok_is_hf].
Qed.

(** After the pass the slots hold one more block. *)
Lemma saved_holds : holds req_to_token req i (n * bs)%nat p -> holds req_to_token req i (S n * bs)%nat p'.
Proof.
  intros Hp j Hj. destruct (saved_key fb k' v' p i) as [-> ->].
  destruct (Nat.lt_ge_cases j (n * bs)) as [Hlt|Hge].
  - rewrite !put_other by (by apply (sv_fresh _ _ _ _ _ _ _ Hs)). by apply Hp.
  - replace j with (n * bs + (j - n * bs))%nat by lia. set (t := (j - n * bs)%nat).
    assert (Ht : (t < bs)%nat) by lia. rewrite <- (sv_slots _ _ _ _ _ _ _ Hs t Ht).
    pose proof (token_of_row fb (sv_batch _ _ _ _ _ _ _ Hs) r t (sv_in _ _ _ _ _ _ _ Hs)) as Hin.
    rewrite (sv_len _ _ _ _ _ _ _ Hs) in Hin.
    rewrite !put_at by (apply Hs || by apply Hin). destruct (new_rows t Ht) as (_ & E2 & E3). by split.
Qed.

Lemma seg_facts : seg_len (qo_indptr E) r = bs /\ seg_len (kv_indptr E) r = (n * bs)%nat /\
  seg_start (qo_indptr E) r = sum_list (take r lens).
Proof.
  destruct (sv_batch _ _ _ _ _ _ _ Hs) as [B1 B2 _ _ _ _]. pose proof (sv_in _ _ _ _ _ _ _ Hs) as Hin.
  unfold kernel_args. cbn [qo_indptr kv_indptr]. rewrite (mo_qo _ _ _ Hmd), (mo_kv _ _ _ Hmd).
  rewrite !seg_len_indptr, seg_start_indptr by lia. split; [apply Hs|]. split; [apply Hs|done].
Qed.

Lemma prefix_slot j : (j < n * bs)%nat -> slot_of E r j = req_to_token req j.
Proof.
  intros Hj. destruct (sv_batch _ _ _ _ _ _ _ Hs) as [B1 B2 _ _ _ _]. pose proof (sv_in _ _ _ _ _ _ _ Hs) as Hin.
  unfold slot_of, kernel_args. cbn [kv_indices kv_indptr]. rewrite (mo_kv _ _ _ Hmd), seg_start_indptr by lia.
  rewrite (mo_idx _ _ _ Hmd) by (rewrite ?(sv_prefix _ _ _ _ _ _ _ Hs); lia). by rewrite (sv_req _ _ _ _ _ _ _ Hs).
Qed.

#[local] Arguments seg_start : simpl never.

(** Weight of position [j] for the query of row [t]. *)
Definition weight (t h j : nat) : R :=
  sexp (vsum (head_dim A) (fun e => Dec.query_states B P (n * bs + t)%nat (hrow (n * bs + t)%nat) h e *
      Dec.key_states B P j (hrow j) (h / (num_heads A / num_kv_heads A))%nat e) * sinvsqrt (head_dim A) + s0).

Lemma prefix_weight_is t h j : holds req_to_token req i (n * bs)%nat p -> (t < bs)%nat -> (j < n * bs)%nat ->
  prefix_weight E r h t j = weight t h j.
Proof.
  intros Hp Ht Hj. destruct seg_facts as (F1 & F2 & F3). unfold prefix_weight, score, prefix_mask.
  rewrite F1, F2. destruct (Nat.ltb_spec t bs), (Nat.ltb_spec j (n * bs)%nat); try lia. cbn -[dot vsum slot_of].
  rewrite prefix_slot by done. unfold weight, dot, q_row, row. rewrite F3.
  destruct (saved_holds Hp j ltac:(lia)) as [Ek _]. cbn in Ek |- *. rewrite Ek.
  destruct (new_rows t Ht) as (-> & _ & _). destruct (s_is_zero _); f_equal; ring.
Qed.

Lemma extend_weight_is t h j : (t < bs)%nat -> (j < bs)%nat -> extend_weight E r h bs t j = weight t h (n * bs + j)%nat.
Proof.
  intros Ht Hj. destruct seg_facts as (F1 & F2 & F3). unfold extend_weight, score, extend_mask.
  rewrite F1, F2. destruct (Nat.ltb_spec t bs), (Nat.ltb_spec j bs); try lia. cbn -[dot vsum slot_of seg_start].
  cbn in F3. unfold weight, dot, q_row, row. cbn. rewrite !F3.
  destruct (new_rows t Ht) as (Eq & _ & _), (new_rows j Hj) as (_ & Ek & _). cbn in Eq, Ek |- *. rewrite Eq, Ek.
  destruct (s_is_zero _); f_equal; ring.
Qed.

(** The kernel computes the attention of the Hugging Face layer. *)
Lemma attention_is_eager t h d : holds req_to_token req i (n * bs)%nat p -> (t < bs)%nat ->
  softmax_attention E r h t d = over (S n * bs) hrow (n * bs + t) h d.
Proof.
  intros Hp Ht. destruct seg_facts as (F1 & F2 & F3). unfold softmax_attention. rewrite F1, F2, F3.
  assert (Hn : (S n * bs = n * bs + bs)%nat) by lia. unfold over, Dec.eager_attention. rewrite Hn.
  change (Dec.head_dim B) with (head_dim A).
  set (gr := (num_heads A / num_kv_heads A)%nat). change (kv_group_num E) with gr.
  change (vsum (n * bs + bs) _) with (vsum (n * bs + bs) (fun j => weight t h j / vsum (n * bs + bs) (weight t h)
    * Dec.value_states B (hrow j) (h / gr)%nat d)).
  rewrite !vsum_app, (vsum_ext (n * bs) (prefix_weight E r h t) (weight t h)) by (intros; by apply prefix_weight_is).
  rewrite (vsum_ext bs (extend_weight E r h bs t) (fun j => weight t h (n * bs + j)%nat))
    by (intros; by apply extend_weight_is).
  set (D := vsum (n * bs) (weight t h) + _).
  rewrite (vsum_ext (n * bs) (fun j => prefix_weight E r h t j * _) (fun j => weight t h j * Dec.value_states B (hrow j) (h / gr)%nat d)).
  2: { intros j Hj. rewrite prefix_weight_is, prefix_slot by done. f_equal.
       destruct (saved_holds Hp j ltac:(lia)) as [_ Ev]. cbn in Ev |- *. by rewrite Ev. }
  rewrite (vsum_ext bs (fun j => extend_weight E r h bs t j * _)
    (fun j => weight t h (n * bs + j)%nat * Dec.value_states B (hrow (n * bs + j)%nat) (h / gr)%nat d)).
  2: { intros j Hj. rewrite extend_weight_is by done. f_equal. destruct (new_rows j Hj) as (_ & _ & Ev). cbn in Ev |- *. by rewrite Ev. }
  change (wt _) with (s0 : R). change (EK.v_scale E) with (s1 : R).
  assert (Hd : forall a b, a / D * b = a * b * (s1 / D)) by (intros a b; rewrite sdiv_mul; ring).
  rewrite (vsum_ext (n * bs) (fun j => weight t h j / D * _) (fun j => weight t h j * Dec.value_states B (hrow j) (h / gr)%nat d * (s1 / D)))
    by (intros; apply Hd).
  rewrite (vsum_ext bs (fun j => weight t h (n * bs + j)%nat / D * _)
    (fun j => weight t h (n * bs + j)%nat * Dec.value_states B (hrow (n * bs + j)%nat) (h / gr)%nat d * (s1 / D))) by (intros; apply Hd).
  rewrite !vsum_mul_r, sdiv_mul. replace (D + s0) with D by ring. ring.
Qed.

(** The pass over block [n] gives the rows of the Hugging Face layer, and the slots
    then hold the block. *)
Lemma served_softmax_pass full_attn_layers o N : machine_ok W -> TP.layer_ok (attn A) p i ->
  attn_layer_id A ∈ full_attn_layers -> length hs = (N * bs)%nat -> (n < N)%nat -> holds req_to_token req i (n * bs)%nat p ->
  exists out, forward A W BE full_attn_layers md fb (sum_list lens) positions batch p o = Ok (p', out) /\
    (forall t c, (t < bs)%nat -> out (at_ t) c =
       nth (n * bs + t) (Dec.attn_forward B P 1 0 (Dec.block_mask bs) hs) zero_vec c) /\
    holds req_to_token req i (S n * bs)%nat p'.
Proof.
  intros HW HLy Hfull Hl Hn Hp.
  destruct (extend_pass W BE req_to_token fb md (attn A) None q' k' v' p i HW (sv_batch _ _ _ _ _ _ _ Hs) Hmd HLy o
    ltac:(simpl; lia)) as (o' & E1 & E2).
  exists (dense_row A o'). split; [|split; [|by apply saved_holds]].
  - unfold forward. destruct (Nat.eqb_spec (sum_list lens) 0) as [E0|_].
    { exfalso. pose proof (token_of_row fb (sv_batch _ _ _ _ _ _ _ Hs) r 0 (sv_in _ _ _ _ _ _ _ Hs)) as Hin.
      rewrite (bt_loc _ (sv_batch _ _ _ _ _ _ _ Hs)), (sv_len _ _ _ _ _ _ _ Hs) in Hin. lia. }
    unfold hybrid_forward_extend. rewrite bool_decide_true by done. by rewrite E1.
  - intros t c Ht. rewrite (hf_softmax_row N n t Hl Hn Ht). unfold dense_row, Dec.dense.
    change (Dec.num_heads B) with (num_heads A). change (Dec.head_dim B) with (head_dim A).
    change (Dec.dense_weight B) with (dense_weight A). change (Dec.dense_bias B) with (dense_bias A). f_equal.
    apply linear_veq. intros j Hj. assert (Hd : (0 < head_dim A)%nat) by (destruct (head_dim A); lia).
    rewrite E2 by (apply Hs || (by rewrite (sv_len _ _ _ _ _ _ _ Hs)) || (apply Nat.Div0.div_lt_upper_bound; simpl; lia)
      || (apply Nat.mod_upper_bound; simpl; lia)).
    by apply attention_is_eager.
Qed.

End Pass.

End Layer.
End Rows.

End SX.
