(* ===== verification/ServedModel.v ===== *)
(** The served model: [LLaDA2MoeBlock], [LLaDA2MoeModel] and [LLaDA2MoeModelLM] of
    [sglang/srt/models/llada2.py] on the layers of [ServedLayer], [SoftmaxLayer] and
    [ServedMoe], with what a forward pass prepares for them
    ([srt/model_executor/forward_batch_info.py]) and the norms with a residual
    ([srt/layers/layernorm.py], [srt/layers/communicator.py]).

    One rank, eager mode; the hidden states of a batch are a function of the token. *)
From stdpp Require Import base list strings.
From Stdlib Require Import ZArith QArith Lia.
From S2P Require Import Prelude Denoise Sampling Tensor Moe MoeKernel FusedExperts ServedMoe LinearAttention HybridAttention.
From S2P Require Import HybridKernel Backend Decoder ServedLayer ExtendKernel TritonBackend SoftmaxLayer.
Local Open Scope nat_scope.

Module MD.
Import Moe HK EK TB.

(** ** Positions *)

(** [compute_position_kernel], program [pid], on the buffer of the positions. *)
Definition compute_position_kernel (extend_prefix_lens extend_seq_lens : list nat) (has_prefix : bool) (pid : nat)
    (m : nat -> nat) : nat -> nat :=
  let prefix_len := if has_prefix then nth pid extend_prefix_lens 0 else 0 in
  let cumsum_start := foldl (fun s i => s + nth i extend_seq_lens 0) 0 (seq 0 pid) in
  copy_chunks 512 (nth pid extend_seq_lens 0) (fun offset => prefix_len + offset) cumsum_start m.

(** Its other store: [extend_start_loc[pid]]. *)
Definition compute_start_kernel (extend_seq_lens : list nat) (pid : nat) (m : nat -> nat) : nat -> nat :=
  fun x => if x =? pid then foldl (fun s i => s + nth i extend_seq_lens 0) 0 (seq 0 pid) else m x.

(** [compute_position_triton]; the buffers start uninitialised. *)
Definition compute_position_triton (sched : list nat -> list nat) (garbage : nat -> nat)
    (extend_prefix_lens extend_seq_lens : list nat) : (nat -> nat) * list nat :=
  let batch_size := length extend_seq_lens in
  let has_prefix := length extend_prefix_lens =? batch_size in
  let order := sched (seq 0 batch_size) in
  (launch (compute_position_kernel extend_prefix_lens extend_seq_lens has_prefix) order garbage,
   map (launch (compute_start_kernel extend_seq_lens) order garbage) (seq 0 batch_size)).

(** [compute_position_torch]. *)
Definition compute_position_torch (extend_prefix_lens extend_seq_lens : list nat) : list nat * list nat :=
  (concat (zip_with (fun prefix_len extend_len => seq prefix_len extend_len) extend_prefix_lens extend_seq_lens),
   py_splice 1 (Bk.cumsum (take (length extend_seq_lens - 1) extend_seq_lens)) (replicate (length extend_seq_lens) 0)).

(** The positions of a diffusion batch ([ForwardBatch.init_new]), which replace the
    computed ones: one block per request. *)
Definition dllm_positions (block_size : nat) (dllm_block_offsets : list nat) : list nat :=
  concat (map (fun block_offset => seq block_offset block_size) dllm_block_offsets).

Section Model.
Context {R : Type} `{ScalarOps R} `{NetOps R} `{LogOps R} `{TopkOps R}.
Local Open Scope sc_scope.

(** The hidden states of the tokens of a batch. *)
Definition rows : Type := nat -> vec R.

(** ** Norms with a residual *)

(** [RMSNorm.forward] with a residual: the norm of the sum, and the sum. *)
Definition add_norm (N : Dec.rms_norm R) (x residual : rows) : rows * rows :=
  let s : rows := fun t d => x t d + residual t d in (fun t => SL.rmsnorm_native N (s t), s).

(** [LayerCommunicator.prepare_attn] of [T] tokens. *)
Definition prepare_attn (N : Dec.rms_norm R) (T : nat) (hidden_states : rows) (residual : option rows) : rows * rows :=
  if (T =? 0)%nat then (hidden_states, hidden_states)
  else match residual with
       | None => (fun t => SL.rmsnorm_native N (hidden_states t), hidden_states)
       | Some residual => add_norm N hidden_states residual
       end.

(** [LayerCommunicator.prepare_mlp]. *)
Definition prepare_mlp (N : Dec.rms_norm R) (T : nat) (hidden_states residual : rows) : rows * rows :=
  if (T =? 0)%nat then (hidden_states, residual) else add_norm N hidden_states residual.

(** ** [LLaDA2MoeBlock] *)

Inductive served_attention : Type :=
| SoftmaxServed (A : SX.attention R)
| HybridServed (A : SL.attention R).

Inductive served_mlp : Type :=
| MlpServed (M : SM.served_mlp R)
| MoeServed (B : SM.moe_block R).

Record block : Type := mkBlock {
  input_layernorm : Dec.rms_norm R;
  attention : served_attention;
  post_attention_layernorm : Dec.rms_norm R;
  mlp : served_mlp;
}.

(** The memory of the layers: the key-value pool of the softmax layers, and the
    recurrent states of the hybrid layer with a given id. *)
Record cache : Type := mkCache { kv : kv_pool R; states : nat -> Bk.layer R }.

(** The process: the device and the orders in which it runs grids, the library
    kernels, what fresh buffers hold, and the request tables. *)
Record runtime : Type := mkRuntime {
  rt_machine : machine;
  rt_backend : backend;
  full_attn_layers : list nat;
  rt_sched : list (nat * nat) -> list (nat * nat);
  topk_unsorted : nat -> list (option R) -> list nat;
  gate_kernels : SM.gate_kernels R;
  moe_world : FE.world R;
  fresh_out : omem R;
  fresh_cache : MK.mem R;
  req_to_token : nat -> nat -> nat;
  req_index_to_mamba_index : nat -> nat;
}.

(** What [init_forward_metadata] prepared for the pass. *)
Record forward_batch : Type := mkForward {
  fb_batch : ForwardBatch;
  fb_metadata : ForwardMetadata;
  fb_plan : plan;
  fb_tokens : nat;
  fb_positions : nat -> nat;
}.

Variables (RT : runtime) (hid : nat).

Definition attention_forward (A : served_attention) (l : nat) (fb : forward_batch) (hs : rows) (c : cache)
    : res (cache * rows) :=
  match A with
  | SoftmaxServed A =>
    (let! '(p, out) := SX.forward A (rt_machine RT) (rt_backend RT) (full_attn_layers RT) (fb_metadata fb) (fb_batch fb)
                         (fb_tokens fb) (fb_positions fb) hs (kv c) (fresh_out RT) in
     Ok (mkCache p (states c), out))%py
  | HybridServed A =>
    (let! '(L, out) := SL.forward A (rt_sched RT) (fb_plan fb) (fb_tokens fb) (fb_positions fb) hs (states c l) in
     Ok (mkCache (kv c) (fun l' => if (l' =? l)%nat then L else states c l'), out))%py
  end.

(** [self.mlp]: the sparse block works on the flat memory of its input. *)
Definition mlp_forward (F : served_mlp) (T : nat) (hs : rows) : res rows :=
  match F with
  | MlpServed M => Ok (fun t => SM.smlp_forward hid M (hs t))
  | MoeServed B =>
    (let! '(out, _) := SM.forward_normal (topk_unsorted RT) (gate_kernels RT) (moe_world RT) B T
                         (fun a => hs (a / hid)%nat (a mod hid)%nat) (fresh_cache RT) in
     Ok (fun t d => out (t * hid + d)%nat))%py
  end.

(** [LLaDA2MoeBlock.forward] of layer [l]. *)
Definition block_forward (B : block) (l : nat) (fb : forward_batch) (hidden_states : rows) (residual : option rows) (c : cache)
    : res (cache * rows * rows) :=
  let T := fb_tokens fb in
  let '(hidden_states, residual) := prepare_attn (input_layernorm B) T hidden_states residual in
  (let! '(c, hidden_states) := attention_forward (attention B) l fb hidden_states c in
   let '(hidden_states, residual) := prepare_mlp (post_attention_layernorm B) T hidden_states residual in
   let! hidden_states := mlp_forward (mlp B) T hidden_states in
   Ok (c, hidden_states, residual))%py.

(** ** [LLaDA2MoeModel] and [LLaDA2MoeModelLM] *)

Fixpoint run_blocks (l : nat) (Bs : list block) (fb : forward_batch) (hidden_states : rows) (residual : option rows) (c : cache)
    : res (cache * rows * option rows) :=
  match Bs with
  | [] => Ok (c, hidden_states, residual)
  | B :: Bs =>
    (let! '(c, hidden_states, residual) := block_forward B l fb hidden_states residual c in
     run_blocks (S l) Bs fb hidden_states (Some residual) c)%py
  end.

Record model : Type := mkModel {
  embed_dim : nat;
  vocab_size : nat;
  word_embeddings : Z -> vec R;
  layers : list block;
  norm : Dec.rms_norm R;
  lm_head : mat R;
}.

End Model.
Arguments rows : clear implicits.
Arguments served_attention : clear implicits.
Arguments served_mlp : clear implicits.
Arguments block : clear implicits.
Arguments cache : clear implicits.
Arguments runtime : clear implicits.
Arguments model : clear implicits.

Section Pass.
Context {R : Type} `{ScalarOps R} `{NetOps R} `{LogOps R} `{TopkOps R}.
Local Open Scope sc_scope.
Variables (RT : runtime R) (M : model R).

(** [LLaDA2MoeModel.forward] on the first and last rank. *)
Definition model_forward (input_ids : nat -> Z) (fb : forward_batch) (c : cache R) : res (cache R * rows R) :=
  (let! '(c, hidden_states, residual) :=
     run_blocks RT (embed_dim M) 0 (layers M) fb (fun t => word_embeddings M (input_ids t)) None c in
   Ok (c, match residual with
          | None => fun t => SL.rmsnorm_native (norm M) (hidden_states t)
          | Some residual => fst (add_norm (norm M) hidden_states residual)
          end))%py.

(** [LLaDA2MoeModelLM.forward]: the logits of every token
    ([LogitsProcessor._get_dllm_logits]). *)
Definition forward (input_ids : nat -> Z) (fb : forward_batch) (c : cache R) : res (cache R * (nat -> list R)) :=
  (let! '(c, hidden_states) := model_forward input_ids fb c in
   Ok (c, fun t => map (linear (embed_dim M) (lm_head M) (hidden_states t)) (seq 0 (vocab_size M))))%py.

(** The server's memory between passes: the layers and the buffers of the backends. *)
Record server : Type := mkServer { sv_cache : cache R; sv_ptrs : ptr_buffers; sv_bufs : Bk.buffers }.

(** A batch of the scheduler: no start offsets yet, and the offset of each request's
    block. *)
Record ModelWorkerBatch : Type := mkBatch {
  mb_batch : ForwardBatch;
  dllm_block_offsets : list nat;
  input_ids : nat -> Z;
}.

(** A pass: [ForwardBatch.init_new], the metadata, the model. *)
Definition forward_pass (block_size : nat) (mb : ModelWorkerBatch) (s : server) : res (server * (nat -> list R)) :=
  let W := rt_machine RT in
  let batch := mb_batch mb in
  let positions := dllm_positions block_size (dllm_block_offsets mb) in
  let '(_, start_loc) := compute_position_triton (sched1 W) (garbage W) (extend_prefix_lens batch) (extend_seq_lens batch) in
  let batch := mkFB (req_pool_indices batch) (extend_prefix_lens batch) (extend_seq_lens batch) (Some start_loc)
                 (out_cache_loc batch) in
  (let! '(md, pl, ptrs, bufs) := hybrid_init_forward_metadata W (req_to_token RT)
       (map (req_index_to_mamba_index RT) (req_pool_indices batch)) batch (sv_ptrs s) (sv_bufs s) in
   let fb := mkForward batch md pl (sum_list (extend_seq_lens batch)) (fun t => nth t positions 0%nat) in
   let! '(c, logits) := forward (input_ids mb) fb (sv_cache s) in
   Ok (mkServer c ptrs bufs, logits))%py.

(** [stash_chunked_request]: the working states of the slots become committed in
    every layer. *)
Definition promote (slots : list nat) (s : server) : server :=
  let c := sv_cache s in
  mkServer (mkCache (kv c) (fun l => Bk.promote_hybrid_state slots (states c l))) (sv_ptrs s) (sv_bufs s).

(** What the scheduler does to the model. *)
Inductive event : Type :=
| Pass (mb : ModelWorkerBatch)
| Promote (slots : list nat).

Definition run_event (block_size : nat) (e : event) (s : server) : res server :=
  match e with
  | Pass mb => (let! '(s, _) := forward_pass block_size mb s in Ok s)%py
  | Promote slots => Ok (promote slots s)
  end.

Fixpoint run_events (block_size : nat) (es : list event) (s : server) : res server :=
  match es with
  | [] => Ok s
  | e :: es => (let! s := run_event block_size e s in run_events block_size es s)%py
  end.

End Pass.
Arguments server : clear implicits.

End MD.
