(* ===== verification/ServedModelFacts.v ===== *)
(** Facts about the served model of [ServedModel]: positions, and one layer of a pass,
    over the final tokens of a request or over any others. *)
From stdpp Require Import base list strings.
From Stdlib Require Import ZArith QArith Lia Ring FunctionalExtensionality.
From S2P Require Import Prelude Denoise Sampling Tensor Moe MoeKernel FusedExperts ServedMoe LinearAttention HybridAttention.
From S2P Require Import HybridKernel KernelFacts KernelDriver Backend Decoder DecoderFacts ServedLayer.
From S2P Require Import ExtendKernel ExtendFacts ExtendProps TritonBackend TritonProps SoftmaxLayer ServedModel.
Local Open Scope nat_scope.

Module MF.
Import HK EK TB MD.

(** ** Positions *)

Lemma sum_loop lens n : n <= length lens -> foldl (fun s i => s + nth i lens 0) 0 (seq 0 n) = sum_list (take n lens).
Proof.
  induction n as [|n IH]; intros Hn; [done|]. rewrite seq_S, foldl_app, IH, EF.sum_take_S by lia. done.
Qed.

Lemma start_loc_offsets sched garbage plens lens : (forall l, sched l ≡ₚ l) ->
  snd (compute_position_triton sched garbage plens lens) = offsets lens.
Proof.
  intros Hs. unfold compute_position_triton, offsets. simpl. apply map_ext_in. intros r Hr%in_seq.
  rewrite (launch_write (compute_start_kernel lens) (fun r x => x =? r)
    (fun r _ _ => sum_list (take r lens)) (fun r => r < length lens)) with (i := r); try done.
  - intros i m x Hi. unfold compute_start_kernel. destruct (x =? i); [|done]. by apply sum_loop, Nat.lt_le_incl.
  - rewrite Hs. apply NoDup_seq.
  - intros i. rewrite Hs, list_elem_of_In, in_seq. lia.
  - rewrite Hs. apply list_elem_of_In, in_seq. lia.
  - apply Nat.eqb_refl.
  - intros i x Hi ->%Nat.eqb_eq ->%Nat.eqb_eq. done.
Qed.

(** Entry [j] of segment [r] of a concatenation. *)
Lemma nth_concat_segment {T} (ls : list (list T)) r j (d : T) : r < length ls -> j < length (nth r ls []) ->
  nth (sum_list (take r (map length ls)) + j) (concat ls) d = nth j (nth r ls []) d.
Proof.
  revert r. induction ls as [|l ls IH]; intros r Hr Hj; [simpl in Hr; lia|]. destruct r as [|r]; simpl in *.
  - by rewrite app_nth1.
  - rewrite app_nth2 by lia. rewrite <- IH by (done || lia). f_equal. lia.
Qed.

(** The fused kernel computes the positions and offsets of the PyTorch version. *)
Lemma positions_fused sched garbage plens lens r j : (forall l, sched l ≡ₚ l) -> length plens = length lens ->
  r < length lens -> j < nth r lens 0 ->
  let '(positions, start_loc) := compute_position_triton sched garbage plens lens in
  positions (sum_list (take r lens) + j) = nth (sum_list (take r lens) + j) (fst (compute_position_torch plens lens)) 0 /\
  positions (sum_list (take r lens) + j) = nth r plens 0 + j /\
  start_loc = snd (compute_position_torch plens lens).
Proof.
  intros Hs Hl Hr Hj.
  pose proof (start_loc_offsets sched garbage plens lens Hs) as Hst. destruct (compute_position_triton _ _ _ _) as [pos st] eqn:E.
  simpl in Hst. subst st. injection E as <- _.
  assert (Hp : launch (compute_position_kernel plens lens (length plens =? length lens)) (sched (seq 0 (length lens))) garbage
    (sum_list (take r lens) + j) = nth r plens 0 + j).
  { apply (EP.segments_launch lens (fun r j => nth r plens 0 + j)); [|by rewrite Hs|done|done].
    intros i m x Hi. unfold compute_position_kernel. rewrite EP.copy_chunks_spec, sum_loop, Hl, Nat.eqb_refl by lia. done. }
  split; [|split; [exact Hp|]].
  - rewrite Hp. unfold compute_position_torch. cbn [fst]. set (ls := zip_with _ plens lens).
    assert (Hls : length ls = length lens) by (unfold ls; rewrite length_zip_with; lia).
    assert (Hm : map length ls = lens).
    { apply list_eq. intros i. unfold ls. rewrite list_lookup_fmap, lookup_zip_with.
      destruct (lens !! i) as [y|] eqn:Ey; [|by destruct (plens !! i)].
      destruct (lookup_lt_is_Some_2 plens i) as [x Ex]; [apply lookup_lt_Some in Ey; lia|]. rewrite Ex. simpl. by rewrite length_seq. }
    assert (En : nth r ls [] = seq (nth r plens 0) (nth r lens 0)).
    { destruct (lookup_lt_is_Some_2 plens r ltac:(lia)) as [x Ex], (lookup_lt_is_Some_2 lens r Hr) as [y Ey].
      rewrite (nth_lookup_Some ls r [] (seq x y)), (nth_lookup_Some plens r 0 x), (nth_lookup_Some lens r 0 y); try done.
      unfold ls. by rewrite lookup_zip_with, Ex, Ey. }
    pose proof (nth_concat_segment ls r j 0) as Hc. rewrite Hm, En in Hc. rewrite Hc by (rewrite ?length_seq; lia).
    by rewrite seq_nth.
  - destruct lens as [|l lens]; [simpl in Hr; lia|]. rewrite <- Bk.cumsum_offsets by (simpl; lia).
    unfold compute_position_torch, py_splice. cbn [snd length replicate take app]. simpl.
    rewrite drop_ge; [by rewrite app_nil_r|]. rewrite length_replicate.
    unfold Bk.cumsum. rewrite length_map, length_seq, length_take. simpl. lia.
Qed.

Lemma dllm_positions_at bs offs r t : r < length offs -> t < bs -> nth (r * bs + t) (dllm_positions bs offs) 0 = nth r offs 0 + t.
Proof.
  intros Hr Ht. unfold dllm_positions. set (ls := map _ offs).
  assert (Hm : map length ls = replicate (length offs) bs).
  { unfold ls. rewrite map_map. rewrite (map_ext _ (fun _ => bs)) by (intros; apply length_seq).
    clear. by induction offs as [|o offs IH]; [|simpl; f_equal]. }
  destruct (lookup_lt_is_Some_2 offs r Hr) as [o Ho].
  assert (En : nth r ls [] = seq (nth r offs 0) bs).
  { rewrite (nth_lookup_Some offs r 0 o Ho). apply nth_lookup_Some. unfold ls. by rewrite list_lookup_fmap, Ho. }
  pose proof (nth_concat_segment ls r t 0) as Hc. rewrite Hm, En, take_replicate, Nat.min_l, sum_list_replicate in Hc by lia.
  rewrite Hc; [by rewrite seq_nth|unfold ls; by rewrite length_map|by rewrite length_seq].
Qed.

(** ** The hybrid layer *)

Section Hybrid.
Context {R : Type} {HO : ScalarOps R} {sle : R -> R -> Prop} {HL : ScalarLaws R sle}.
Context {HN : NetOps R} {HLg : LogOps R}.
Local Open Scope sc_scope.
Import SX.

Variable A : SL.attention R.
#[local] Abbreviation C := (SL.hybrid_core A).
#[local] Abbreviation bs := (block_size C).

(** The projections see the first entries of a hidden state only. *)
Lemma qkv_veq x y : veq (SL.hidden_size A) x y -> SL.qkv A x = SL.qkv A y.
Proof.
  intros E. apply functional_extensionality. intros o. unfold SL.qkv. by rewrite (linear_veq (SL.hidden_size A) _ x y).
Qed.

Section Request.
Variables (sched : list (nat * nat) -> list (nat * nat)) (slot N n : nat) (hs : list (vec R)) (lens idx : list nat)
  (positions : nat -> nat) (batch : nat -> vec R) (r : nat).
#[local] Abbreviation hrow := (fun t => nth t hs Moe.zero_vec).
#[local] Abbreviation at_ t := (nth r (offsets lens) 0 + t)%nat.

(** Block [n] of the request in a batch, up to what the layer reads. *)
Record at_rows : Prop := {
  ar_ok : KD.call_ok (sle := sle) C sched lens idx;
  ar_in : (r < length lens)%nat;
  ar_slot : nth r idx 0%nat = slot;
  ar_len : nth r lens 0%nat = bs;
  ar_rows : forall t, (t < bs)%nat -> veq (SL.hidden_size A) (batch (at_ t)) (hrow (n * bs + t)%nat);
  ar_positions : forall t, (t < bs)%nat -> positions (at_ t) = (n * bs + t)%nat;
}.

Lemma at_rows_block : at_rows -> Bk.at_block (sle := sle) C sched slot (SL.q3 A (fun t => t) hrow) (SL.k3 A (fun t => t) hrow) (SL.v3 A hrow) n
    (Bk.mkPass lens idx (SL.q3 A positions batch) (SL.k3 A positions batch) (SL.v3 A batch)) r.
Proof.
  intros [Hok Hin Hsl Hlen Hrows Hpos]. split; try done; intros t Ht; simpl; unfold SL.q3, SL.k3, SL.v3;
    rewrite ?Hpos, (qkv_veq _ _ (Hrows t Ht)) by done; done.
Qed.

(** The last pass over block [n]: the rows of the Hugging Face layer, and the working
    state of one more block. *)
Lemma hybrid_pass L : SL.rotary_dim (SL.rotary_emb A) mod 2 = 0%nat -> length hs = (N * bs)%nat -> (n < N)%nat -> at_rows ->
  Bk.holds C slot (SL.k3 A (fun t => t) hrow) (SL.v3 A hrow) n L ->
  exists m' out, SL.forward A sched (build_request_block_plan lens idx bs) (sum_list lens) positions batch L
    = Ok (Bk.mkLayer (Bk.committed L) m', out) /\
    (forall t o mask, (t < bs)%nat -> out (at_ t) o =
       nth (n * bs + t) (Dec.attn_forward (SL.hf_attention A) (SL.hf_rotary (SL.rotary_emb A)) 1 0 mask hs) Moe.zero_vec o) /\
    (forall slots m0, slot ∈ slots ->
       Bk.holds C slot (SL.k3 A (fun t => t) hrow) (SL.v3 A hrow) (S n) (Bk.promote_hybrid_state slots (Bk.mkLayer m0 m'))).
Proof.
  intros He Hl Hn Hr Hh. destruct (Bk.last_pass C sched slot _ _ _ n _ r L (at_rows_block Hr) Hh) as (m' & E1 & Hm).
  pose proof (KD.co_bs _ _ _ _ (ar_ok Hr)) as Hbs. exists m', (SL.output_row A (Bk.mkLayer (Bk.committed L) m')). split; [|split].
  - unfold SL.forward. simpl in E1. rewrite E1. cbn [rbind].
    destruct (Nat.eqb_spec (sum_list lens) 0) as [E0|]; [|done]. exfalso.
    pose proof (ar_len Hr) as Hlen. pose proof (ar_in Hr) as Hin.
    assert (Hel : bs ∈ lens) by (rewrite <- Hlen; apply list_elem_of_In, nth_In, Hin).
    apply elem_of_Permutation in Hel as [rest Hp]. rewrite Hp in E0. simpl in E0. lia.
  - intros t o mask Ht. assert (Htl : (n * bs + t < N * bs)%nat) by nia.
    rewrite (SL.hf_row A He mask hs N) by lia. unfold SL.output_row, Dec.dense, SL.hf_attention.
    cbn [Dec.num_heads Dec.head_dim Dec.dense_weight Dec.dense_bias]. f_equal. unfold Moe.linear. apply vsum_ext. intros i Hi. f_equal.
    assert (Hd : (0 < HK.head_dim C)%nat) by (destruct (HK.head_dim C); lia).
    destruct (Hm (i / HK.head_dim C)%nat ltac:(apply Nat.Div0.div_lt_upper_bound; lia)) as (_ & _ & Ho).
    etransitivity; [apply (Ho t (i mod HK.head_dim C)%nat Ht), Nat.mod_upper_bound; lia|].
    change bs with (Hybrid.block_size (KD.hybrid_of C)) in *.
    rewrite (Hybrid.forward_out (KD.hybrid_of C) Hbs _ (S n)) by lia. by rewrite (Hybrid.forward_out (KD.hybrid_of C) Hbs _ N) by lia.
  - intros slots m0 Hin. apply Bk.promote_holds; [done|]. intros h Hh'. by destruct (Hm h Hh') as (X & Y & _).
Qed.

End Request.
End Hybrid.

End MF.
