(* ===== verification/ServedPass.v ===== *)
(** Passes of the served model.  A pass over any tokens keeps what the layers hold of
    the earlier blocks of a request; the pass over the final tokens of its next block
    gives the rows of the Hugging Face stack and leaves the layers ready for the block
    to be promoted. *)
From stdpp Require Import base list strings.
From Stdlib Require Import ZArith QArith Lia Ring FunctionalExtensionality.
From S2P Require Import Prelude Denoise Sampling Tensor Moe MoeKernel FusedExperts ServedMoe LinearAttention HybridAttention.
From S2P Require Import HybridKernel KernelFacts KernelDriver Backend Decoder DecoderFacts ServedLayer.
From S2P Require Import ExtendKernel ExtendFacts ExtendProps TritonBackend TritonProps SoftmaxLayer ServedModel ServedModelFacts.
Local Open Scope nat_scope.

Module MP.
Import HK EK TB MD MF.

#[local] Abbreviation bs := Bk._LLADA_FAST_BLOCK_SIZE.

(** The pool index of a layer with its own buffers. *)
Lemma transfer_ok {R} (p : kv_pool R) l : l ∈ full_attention_layer_ids p -> exists i, _transfer_full_attention_id p l = Ok i.
Proof.
  intros Hin. unfold _transfer_full_attention_id. destruct (list_find_elem_of (fun i => i = l) _ l Hin eq_refl) as [[i x] ->].
  by exists i.
Qed.

Lemma transfer_inj {R} (p : kv_pool R) l l' i :
  _transfer_full_attention_id p l = Ok i -> _transfer_full_attention_id p l' = Ok i -> l = l'.
Proof.
  unfold _transfer_full_attention_id.
  destruct (list_find (fun i => i = l) _) as [[j x]|] eqn:E1; [|done]. intros [= ->].
  destruct (list_find (fun i => i = l') _) as [[j' y]|] eqn:E2; [|done]. intros [= ->].
  apply list_find_Some in E1 as (H1 & -> & _), E2 as (H2 & -> & _). congruence.
Qed.

Section Pass.
Context {R : Type} {HO : ScalarOps R} {sle : R -> R -> Prop} {HL : ScalarLaws R sle}.
Context {HN : NetOps R} {HLg : LogOps R} {HT : TopkOps R}.
Local Open Scope sc_scope.
Variables (RT : runtime R) (hid : nat) (P : SL.rope R).

(** ** What a layer needs *)

Definition attn_ok (l : nat) (A : served_attention R) : Prop :=
  match A with
  | SoftmaxServed A => SX.attn_layer_id A = l /\ l ∈ full_attn_layers RT /\ SX.hidden_size A = hid /\ SX.rotary_emb A = P /\
      (0 < SX.num_kv_heads A * SX.head_dim A)%nat
  | HybridServed A => SL.hidden_size A = hid /\ SL.rotary_emb A = P /\
      block_size (SL.hybrid_core A) = bs /\ (0 < feature_dim (SL.hybrid_core A))%nat /\ (0 < num_kv_heads (SL.hybrid_core A))%nat /\
      num_heads (SL.hybrid_core A)
        = (num_heads (SL.hybrid_core A) / num_kv_heads (SL.hybrid_core A) * num_kv_heads (SL.hybrid_core A))%nat /\
      sle (sv_eps (SL.hybrid_core A)) s1
  end.

Definition hf_attn (A : served_attention R) : Dec.attention R :=
  match A with SoftmaxServed A => SX.hf_attention A | HybridServed A => SL.hf_attention A end.

Definition mamba_slots (fb : ForwardBatch) : list nat := map (req_index_to_mamba_index RT) (req_pool_indices fb).

(** A prepared pass of one block per request. *)
Record prepared (fb : forward_batch) : Prop := {
  pr_batch : TP.batch_ok (fb_batch fb);
  pr_meta : TP.meta_ok (req_to_token RT) (fb_batch fb) (fb_metadata fb);
  pr_plan : fb_plan fb = build_request_block_plan (extend_seq_lens (fb_batch fb)) (mamba_slots (fb_batch fb)) bs;
  pr_tokens : fb_tokens fb = sum_list (extend_seq_lens (fb_batch fb));
  pr_slots : NoDup (mamba_slots (fb_batch fb));
  pr_lens : forall l, l ∈ extend_seq_lens (fb_batch fb) -> l = bs;
}.

Hypothesis (HW : TP.machine_ok (rt_machine RT)) (Hsched : forall l, rt_sched RT l ≡ₚ l) (P_even : SL.rotary_dim P mod 2 = 0%nat).

Lemma hybrid_call fb l A : prepared fb -> attn_ok l (HybridServed A) ->
  KD.call_ok (sle := sle) (SL.hybrid_core A) (rt_sched RT) (extend_seq_lens (fb_batch fb)) (mamba_slots (fb_batch fb)).
Proof.
  clear P_even. intros Hp (_ & _ & Eb & HF & Hkv & Hh & He). destruct (pr_batch _ Hp) as [B1 B2 _ _ _ _].
  split; try done; rewrite ?Eb; try (unfold Bk._LLADA_FAST_BLOCK_SIZE; lia).
  - unfold mamba_slots. rewrite length_map. congruence.
  - apply Hp.
  - intros x Hx. rewrite (pr_lens _ Hp x Hx). unfold Bk._LLADA_FAST_BLOCK_SIZE. split; [lia|done].
Qed.

Lemma tokens_some fb : prepared fb -> fb_tokens fb <> 0%nat.
Proof.
  clear P_even. intros Hp. rewrite (pr_tokens _ Hp). pose proof (TP.bt_some _ (pr_batch _ Hp)) as Hne. pose proof (pr_lens _ Hp) as Hl.
  destruct (extend_seq_lens (fb_batch fb)) as [|x l]; [done|]. rewrite (Hl x) by left. simpl. lia.
Qed.

(** ** What the layers hold of a request *)

Variables (req N : nat).
#[local] Abbreviation slot := (req_index_to_mamba_index RT req).

(** Layer [l] holds the first [n] blocks of the rows [hs]. *)
Definition holds_at (n l : nat) (A : served_attention R) (hs : list (vec R)) (c : cache R) : Prop :=
  match A with
  | SoftmaxServed A => exists i, _transfer_full_attention_id (kv c) (SX.attn_layer_id A) = Ok i /\
      SX.holds A hs (req_to_token RT) req i (n * bs)%nat (kv c)
  | HybridServed A => Bk.holds (SL.hybrid_core A) slot (SL.k3 A (fun t => t) (fun t => nth t hs Moe.zero_vec))
      (SL.v3 A (fun t => nth t hs Moe.zero_vec)) n (states c l)
  end.

(** Once the slot is promoted, the layer holds [n] blocks. *)
Definition ready_at (n l : nat) (A : served_attention R) (hs : list (vec R)) (c : cache R) : Prop :=
  forall slots, slot ∈ slots -> holds_at n l A hs (mkCache (kv c) (fun l => Bk.promote_hybrid_state slots (states c l))).

(** Nothing of layer [l] changed. *)
Definition agree (l : nat) (A : served_attention R) (c c' : cache R) : Prop :=
  match A with
  | SoftmaxServed A => full_attention_layer_ids (kv c') = full_attention_layer_ids (kv c) /\
      forall i, _transfer_full_attention_id (kv c) (SX.attn_layer_id A) = Ok i ->
        k_buffer (kv c') i = k_buffer (kv c) i /\ v_buffer (kv c') i = v_buffer (kv c) i
  | HybridServed _ => states c' l = states c l
  end.

Lemma agree_holds n l A hs c c' : agree l A c c' -> holds_at n l A hs c -> holds_at n l A hs c'.
Proof.
  destruct A as [A|A]; simpl; [|by intros ->]. intros [Ei Eb] (i & Ht & Hh). exists i.
  destruct (Eb i Ht) as [Ek Ev]. split; [unfold _transfer_full_attention_id in *; by rewrite Ei|].
  intros j Hj. rewrite Ek, Ev. by apply Hh.
Qed.

Lemma agree_ready n l A hs c c' : agree l A c c' -> ready_at n l A hs c -> ready_at n l A hs c'.
Proof.
  intros Ha Hr slots Hin. specialize (Hr slots Hin). revert Hr. apply agree_holds.
  destruct A as [A|A]; simpl in *; [exact Ha|by rewrite Ha].
Qed.

(** ** One layer of a pass *)

Definition ids_ok (c : cache R) : Prop := full_attention_layer_ids (kv c) = full_attn_layers RT.

(** The pass does not write slots of the first [n] blocks of the request. *)
Definition fresh (n : nat) (fb : ForwardBatch) : Prop :=
  forall j, (j < n * bs)%nat -> req_to_token RT req j ∉ out_cache_loc fb.

(** What a layer leaves of the others and of its own earlier blocks. *)
Record attn_kept (fb : forward_batch) (l : nat) (A : served_attention R) (c c' : cache R) : Prop := {
  ak_ids : ids_ok c';
  ak_others : forall l' A', l' <> l -> attn_ok l' A' -> agree l' A' c c';
  ak_own : forall n hs, fresh n (fb_batch fb) -> holds_at n l A hs c -> holds_at n l A hs c';
}.

Lemma saved_kept fb l A i k v c : attn_ok l (SoftmaxServed A) -> ids_ok c ->
  _transfer_full_attention_id (kv c) (SX.attn_layer_id A) = Ok i ->
  attn_kept fb l (SoftmaxServed A) c (mkCache (TP.saved i (fb_batch fb) k v (kv c)) (states c)).
Proof.
  intros (El & _) Hi Ht. split; [exact Hi| |].
  - intros l' [A'|A'] Hne HA'; [|done]. split; [done|]. intros i' Ht'. destruct HA' as (El' & _).
    assert (Hii : i' <> i) by (intros ->; pose proof (transfer_inj _ _ _ _ Ht Ht'); congruence).
    unfold TP.saved, set_buffer. simpl. by destruct (Nat.eqb_spec i' i).
  - intros n hs Hf (i' & Ht' & Hh). rewrite Ht in Ht'. injection Ht' as <-. exists i. split; [exact Ht|].
    intros j Hj. cbn [kv]. destruct (TP.saved_key (fb_batch fb) k v (kv c) i) as [-> ->].
    rewrite !TP.put_other by (by apply Hf). by apply Hh.
Qed.

Lemma states_kept fb l A m' c : ids_ok c ->
  attn_kept fb l (HybridServed A) c (mkCache (kv c) (fun l' => if (l' =? l)%nat then Bk.mkLayer (Bk.committed (states c l)) m' else states c l')).
Proof.
  intros Hi. split; [exact Hi| |].
  - intros l' [A'|A'] Hne HA'; [by split|]. simpl. by destruct (Nat.eqb_spec l' l).
  - intros n hs _ Hh. simpl in *. rewrite Nat.eqb_refl. exact Hh.
Qed.

(** Any pass. *)
Lemma quiet_attn fb l A hs c : attn_ok l A -> prepared fb -> ids_ok c ->
  exists c' out, attention_forward RT A l fb hs c = Ok (c', out) /\ attn_kept fb l A c c'.
Proof.
  clear P_even. intros HA Hp Hi. pose proof (tokens_some _ Hp) as HT0. destruct A as [A|A]; unfold attention_forward.
  - pose proof HA as (El & Hl & _). rewrite <- Hi, <- El in Hl. destruct (transfer_ok _ _ Hl) as [i Ht].
    assert (HLy : TP.layer_ok (SX.attn A) (kv c) i) by (by split).
    destruct (TP.extend_pass (rt_machine RT) (rt_backend RT) (req_to_token RT) (fb_batch fb) (fb_metadata fb) (SX.attn A) None
      (SX.q_tok A (fb_positions fb) hs) (SX.k_tok A (fb_positions fb) hs) (SX.v_tok A hs) (kv c) i HW (pr_batch _ Hp) (pr_meta _ Hp)
      HLy (fresh_out RT) ltac:(simpl; lia)) as (o' & E & _).
    unfold SX.forward. destruct (Nat.eqb_spec (fb_tokens fb) 0); [done|]. unfold hybrid_forward_extend.
    rewrite bool_decide_true by (rewrite Hi in Hl; exact Hl). rewrite E. cbn [rbind]. eexists _, _. split; [reflexivity|].
    by apply saved_kept.
  - destruct (KD.run_is_module (SL.hybrid_core A) (rt_sched RT) (extend_seq_lens (fb_batch fb)) (mamba_slots (fb_batch fb))
      (SL.q3 A (fb_positions fb) hs) (SL.k3 A (fb_positions fb) hs) (SL.v3 A hs) (Some (Bk.committed (states c l)))
      (Bk.working (states c l)) (hybrid_call _ _ _ Hp HA)) as (m' & E & _).
    unfold SL.forward. destruct (Nat.eqb_spec (fb_tokens fb) 0); [done|]. unfold Bk.forward_qkv.
    destruct HA as (_ & _ & Eb & _). rewrite Eb in E. rewrite (pr_plan _ Hp), E. cbn [rbind].
    eexists _, _. split; [reflexivity|]. by apply states_kept.
Qed.

(** Request [r] of the batch is this one, at block [n]. *)
Record final_batch (n : nat) (fb : forward_batch) (r : nat) : Prop := {
  fi_in : (r < length (extend_seq_lens (fb_batch fb)))%nat;
  fi_req : nth r (req_pool_indices (fb_batch fb)) 0%nat = req;
  fi_prefix : nth r (extend_prefix_lens (fb_batch fb)) 0%nat = (n * bs)%nat;
  fi_positions : forall t, (t < bs)%nat ->
    fb_positions fb (sum_list (take r (extend_seq_lens (fb_batch fb))) + t)%nat = (n * bs + t)%nat;
  fi_slots : forall t, (t < bs)%nat ->
    nth (sum_list (take r (extend_seq_lens (fb_batch fb))) + t) (out_cache_loc (fb_batch fb)) 0%nat
    = req_to_token RT req (n * bs + t)%nat;
  fi_fresh : fresh n (fb_batch fb);
}.

Lemma final_len n fb r : prepared fb -> final_batch n fb r -> nth r (extend_seq_lens (fb_batch fb)) 0%nat = bs.
Proof. intros Hp Hf. apply (pr_lens _ Hp), list_elem_of_In, nth_In, Hf. Qed.

(** The rows of the request in the batch are those of its block. *)
Definition block_rows (n : nat) (fb : forward_batch) (r : nat) (x : rows R) (hs : list (vec R)) : Prop :=
  forall t, (t < bs)%nat -> SX.veq hid (x (sum_list (take r (extend_seq_lens (fb_batch fb))) + t)%nat) (nth (n * bs + t) hs Moe.zero_vec).

Section Final.
Variables (n : nat) (fb : forward_batch) (r : nat) (x : rows R) (hs : list (vec R)).
Hypothesis (Hp : prepared fb) (Hf : final_batch n fb r) (Hx : block_rows n fb r x hs)
  (Hlen : length hs = (N * bs)%nat) (Hn : (n < N)%nat).

Lemma softmax_serves l A : attn_ok l (SoftmaxServed A) ->
  SX.serves A bs hs (req_to_token RT) req n (fb_batch fb) (fb_positions fb) x r.
Proof.
  intros (_ & _ & Eh & _). split; try apply Hf; [apply Hp|by apply (final_len n)|].
  intros t Ht. rewrite Eh. by apply Hx.
Qed.

Lemma hybrid_serves l A : attn_ok l (HybridServed A) ->
  at_rows (sle := sle) A (rt_sched RT) slot n hs (extend_seq_lens (fb_batch fb)) (mamba_slots (fb_batch fb)) (fb_positions fb) x r.
Proof.
  intros HA. pose proof HA as (Eh & _ & Eb & _). pose proof (fi_in _ _ _ Hf) as Hin.
  pose proof (KD.nth_offsets _ _ Hin) as Eo.
  split; rewrite ?Eo, ?Eb; [by apply (hybrid_call fb l)|done| |by apply (final_len n)| |apply Hf].
  - destruct (pr_batch _ Hp) as [_ B2 _ _ _ _]. destruct (lookup_lt_is_Some_2 (req_pool_indices (fb_batch fb)) r ltac:(lia)) as [q Hq].
    apply nth_lookup_Some. unfold mamba_slots. rewrite list_lookup_fmap, Hq. simpl.
    by rewrite <- (fi_req _ _ _ Hf), (nth_lookup_Some _ _ _ _ Hq).
  - intros t Ht. rewrite Eh. by apply Hx.
Qed.

(** The pass over the block. *)
Lemma final_attn l A c : attn_ok l A -> ids_ok c -> holds_at n l A hs c -> exists c' out,
  attention_forward RT A l fb x c = Ok (c', out) /\ attn_kept fb l A c c' /\ ready_at (S n) l A hs c' /\
  block_rows n fb r out (DecFacts.attn_row (SL.hf_rotary P) bs (hf_attn A) hs).
Proof.
  intros HA Hi Hh. destruct A as [A|A]; unfold attention_forward.
  - pose proof HA as (El & Hl & Eh & EP & Hkv). destruct Hh as (i & Ht & Hh). pose proof P_even as He. rewrite <- EP in He.
    assert (HLy : TP.layer_ok (SX.attn A) (kv c) i) by (by split). pose proof (pr_tokens _ Hp) as ET.
    destruct (SX.served_softmax_pass A He Hkv bs hs ltac:(unfold Bk._LLADA_FAST_BLOCK_SIZE; lia) (rt_machine RT) (rt_backend RT)
      (req_to_token RT) req n (fb_batch fb) (fb_metadata fb) (fb_positions fb) x r (kv c) i (softmax_serves l A HA) (pr_meta _ Hp)
      (full_attn_layers RT) (fresh_out RT) N HW HLy ltac:(by rewrite El) Hlen Hn Hh) as (out & E & Ho & Hh').
    rewrite ET, E. cbn [rbind]. eexists _, out. split; [reflexivity|]. split; [by apply saved_kept|]. split.
    + intros slots _. exists i. by split.
    + intros t Ht' d Hd. rewrite Ho by done. by rewrite EP.
  - pose proof HA as (Eh & EP & Eb & _). pose proof P_even as He. rewrite <- EP in He. simpl in Hh.
    destruct (hybrid_pass A (rt_sched RT) slot N n hs _ _ _ x r (states c l) He ltac:(by rewrite Eb) Hn (hybrid_serves l A HA) Hh)
      as (m' & out & E & Ho & Hr).
    rewrite Eb, <- (pr_plan _ Hp), <- (pr_tokens _ Hp) in E. rewrite E. cbn [rbind].
    eexists _, out. split; [reflexivity|]. split; [by apply states_kept|]. split.
    + intros slots Hin. simpl. rewrite Nat.eqb_refl. by apply Hr.
    + intros t Ht d Hd. rewrite <- (KD.nth_offsets _ _ (fi_in _ _ _ Hf)). rewrite Eb in Ho. rewrite (Ho t d (Dec.block_mask bs) Ht). by rewrite EP.
Qed.

End Final.

End Pass.
End MP.
