(* ===== verification/ServedStack.v ===== *)
(** The stack of blocks of the served model against the stack of the Hugging Face
    model, through an interface to the feed-forward blocks. *)
From stdpp Require Import base list strings.
From Stdlib Require Import ZArith QArith Lia Ring FunctionalExtensionality.
From S2P Require Import Prelude Denoise Sampling Tensor Moe MoeKernel FusedExperts ServedMoe LinearAttention HybridAttention.
From S2P Require Import HybridKernel KernelFacts KernelDriver Backend Decoder DecoderFacts ServedLayer.
From S2P Require Import ExtendKernel ExtendFacts ExtendProps TritonBackend TritonProps SoftmaxLayer ServedModel ServedModelFacts ServedPass.
Local Open Scope nat_scope.

Module MS.
Import HK EK TB MD MF MP.

#[local] Abbreviation bs := Bk._LLADA_FAST_BLOCK_SIZE.

Section Stack.
Context {R : Type} {HO : ScalarOps R} {sle : R -> R -> Prop} {HL : ScalarLaws R sle}.
Context {HN : NetOps R} {HLg : LogOps R} {HT : TopkOps R}.
Local Open Scope sc_scope.
Add Ring stack_ring : s_ring.
Variables (RT : runtime R) (hid : nat) (P : SL.rope R).
#[local] Abbreviation veq := (SX.veq hid).

(** What the feed-forward blocks promise: a served block loaded from a block of the
    Hugging Face model returns [served_row] of every row. *)
Class FfnServed (ffn_is : served_mlp R -> Dec.ffn R -> Prop) (served_row : Dec.ffn R -> vec R -> vec R) : Prop := {
  ffn_pass : forall F' F T hs, ffn_is F' F ->
    exists out, mlp_forward RT hid F' T hs = Ok out /\ forall t, (t < T)%nat -> veq (out t) (served_row F (hs t));
  ffn_veq : forall F' F x y, ffn_is F' F -> veq x y -> veq (served_row F x) (served_row F y);
}.

Context (ffn_is : served_mlp R -> Dec.ffn R -> Prop) (served_row : Dec.ffn R -> vec R -> vec R) {FS : FfnServed ffn_is served_row}.

(** Block [l] is loaded from the layer [L]. *)
Record block_is (l : nat) (B : block R) (L : Dec.layer R) : Prop := {
  bi_attn : attn_ok (sle := sle) RT hid P l (attention B);
  bi_hf : Dec.l_attn L = hf_attn (attention B);
  bi_in : Dec.input_layernorm L = input_layernorm B /\ Dec.nm_size (input_layernorm B) = hid;
  bi_post : Dec.post_attention_layernorm L = post_attention_layernorm B /\ Dec.nm_size (post_attention_layernorm B) = hid;
  bi_ffn : ffn_is (mlp B) (Dec.l_ffn L);
}.

(** ** The reference stack *)

(** A layer of the Hugging Face model with [f] for its feed-forward rows. *)
Definition layer_with (f : Dec.ffn R -> vec R -> vec R) (L : Dec.layer R) (row : list (vec R)) : list (vec R) :=
  let h1 := zip_with Dec.vadd row (DecFacts.attn_row (SL.hf_rotary P) bs (Dec.l_attn L) (DecFacts.normed L row)) in
  zip_with Dec.vadd h1 (map (f (Dec.l_ffn L)) (map (Dec.norm_forward (Dec.post_attention_layernorm L)) h1)).

Definition stack (f : Dec.ffn R -> vec R -> vec R) (Ls : list (Dec.layer R)) (row : list (vec R)) : list (vec R) :=
  foldl (fun r L => layer_with f L r) row Ls.

Lemma hf_attn_ok l A : attn_ok (sle := sle) RT hid P l A -> DecFacts.attn_ok bs (hf_attn A).
Proof.
  destruct A as [A|A]; [done|]. intros (_ & _ & Eb & _). unfold DecFacts.attn_ok. simpl. unfold KD.hybrid_of. simpl. rewrite Eb.
  split; [unfold Bk._LLADA_FAST_BLOCK_SIZE; lia|]. exists 1%nat. lia.
Qed.

Lemma attn_row_len l B L row : block_is l B L ->
  length (DecFacts.attn_row (SL.hf_rotary P) bs (Dec.l_attn L) (DecFacts.normed L row)) = length row.
Proof.
  intros HB. rewrite (bi_hf _ _ _ HB). rewrite DecFacts.attn_row_length by (by apply (hf_attn_ok l), HB). apply length_map.
Qed.

Lemma layer_with_length f l B L row : block_is l B L -> length (layer_with f L row) = length row.
Proof. intros HB. unfold layer_with. rewrite length_zip_with, !length_map, length_zip_with, (attn_row_len l B) by done. lia. Qed.

(** ** Rows of a batch *)

(** What runs through the blocks: hidden states and residual together. *)
Definition stream (hidden_states : rows R) (residual : option (rows R)) : rows R :=
  match residual with None => hidden_states | Some r => fun t d => hidden_states t d + r t d end.

Lemma norm_veq (Nm : Dec.rms_norm R) x y : Dec.nm_size Nm = hid -> veq x y -> veq (SL.rmsnorm_native Nm x) (Dec.norm_forward Nm y).
Proof.
  intros En E d Hd. rewrite SL.rmsnorm_is_hf. unfold Dec.norm_forward. rewrite E by done.
  rewrite En, (vsum_ext hid (fun i => x i * x i) (fun i => y i * y i)) by (intros i Hi; by rewrite E). done.
Qed.

Variables (req N n : nat) (fb : forward_batch) (r : nat).
#[local] Abbreviation at_rows x xs := (block_rows hid n fb r x xs).

Lemma nth_in_rows (xs : list (vec R)) t : length xs = (N * bs)%nat -> (n < N)%nat -> (t < bs)%nat -> (n * bs + t < length xs)%nat.
Proof. intros -> Hn Ht. nia. Qed.

Lemma nth_zip_add (xs ys : list (vec R)) k : length ys = length xs -> (k < length xs)%nat ->
  nth k (zip_with Dec.vadd xs ys) Moe.zero_vec = Dec.vadd (nth k xs Moe.zero_vec) (nth k ys Moe.zero_vec).
Proof.
  intros Hl Hk. destruct (lookup_lt_is_Some_2 xs k Hk) as [x Hx], (lookup_lt_is_Some_2 ys k ltac:(lia)) as [y Hy].
  rewrite (nth_lookup_Some _ _ _ (Dec.vadd x y)) by (by rewrite lookup_zip_with, Hx, Hy).
  by rewrite (nth_lookup_Some _ _ _ _ Hx), (nth_lookup_Some _ _ _ _ Hy).
Qed.

Lemma nth_rows_map (f : vec R -> vec R) (xs : list (vec R)) k : (k < length xs)%nat ->
  nth k (map f xs) Moe.zero_vec = f (nth k xs Moe.zero_vec).
Proof.
  intros Hk. destruct (lookup_lt_is_Some_2 xs k Hk) as [x Hx].
  by rewrite (nth_lookup_Some _ _ _ (f x)), (nth_lookup_Some _ _ _ _ Hx) by (by rewrite list_lookup_fmap, Hx).
Qed.

Lemma rows_norm (Nm : Dec.rms_norm R) x xs : Dec.nm_size Nm = hid -> length xs = (N * bs)%nat -> (n < N)%nat ->
  at_rows x xs -> at_rows (fun t => SL.rmsnorm_native Nm (x t)) (map (Dec.norm_forward Nm) xs).
Proof.
  intros En Hl Hn Hx t Ht. rewrite nth_rows_map by (by apply nth_in_rows). apply norm_veq; [done|]. by apply Hx.
Qed.

Lemma rows_add x y xs ys : length ys = length xs -> length xs = (N * bs)%nat -> (n < N)%nat ->
  at_rows x xs -> at_rows y ys -> at_rows (fun t d => y t d + x t d) (zip_with Dec.vadd xs ys).
Proof.
  intros Hl Hl' Hn Hx Hy t Ht d Hd. rewrite nth_zip_add by (done || by apply nth_in_rows). unfold Dec.vadd.
  rewrite (Hx t Ht d Hd), (Hy t Ht d Hd). ring.
Qed.

(** ** One block *)

Hypothesis (HW : TP.machine_ok (rt_machine RT)) (Hsched : forall l, rt_sched RT l ≡ₚ l) (P_even : SL.rotary_dim P mod 2 = 0%nat)
  (Hp : prepared RT fb).
#[local] Abbreviation kept := (attn_kept (sle := sle) RT hid P req fb).

Lemma prepared_attn Nm hs res : prepare_attn Nm (fb_tokens fb) hs res
  = (fun t => SL.rmsnorm_native Nm (stream hs res t), stream hs res).
Proof.
  unfold prepare_attn. destruct (Nat.eqb_spec (fb_tokens fb) 0) as [E|_]; [by destruct (tokens_some RT fb Hp)|]. by destruct res.
Qed.

Lemma prepared_mlp Nm hs res : prepare_mlp Nm (fb_tokens fb) hs res = add_norm Nm hs res.
Proof.
  unfold prepare_mlp. destruct (Nat.eqb_spec (fb_tokens fb) 0) as [E|_]; [by destruct (tokens_some RT fb Hp)|done].
Qed.

(** Any pass through a block. *)
Lemma quiet_block l B L hs res c : block_is l B L -> ids_ok RT c ->
  exists c' hs' res', block_forward RT hid B l fb hs res c = Ok (c', hs', res') /\ kept l (attention B) c c'.
Proof.
  intros HB Hi. unfold block_forward. rewrite prepared_attn.
  destruct (quiet_attn RT hid P HW Hsched req fb l (attention B) (fun t => SL.rmsnorm_native (input_layernorm B) (stream hs res t)) c
    (bi_attn _ _ _ HB) Hp Hi) as (c' & out & -> & Hk). cbn [rbind]. rewrite prepared_mlp. unfold add_norm.
  destruct (ffn_pass (mlp B) (Dec.l_ffn L) (fb_tokens fb)
    (fun t => SL.rmsnorm_native (post_attention_layernorm B) (fun d => out t d + stream hs res t d)) (bi_ffn _ _ _ HB)) as (y & Ey & _).
  rewrite Ey. cbn [rbind]. by eexists _, _, _.
Qed.

Hypothesis (Hf : final_batch RT req n fb r) (Hn : (n < N)%nat).

Lemma token_in t : (t < bs)%nat -> (sum_list (take r (extend_seq_lens (fb_batch fb))) + t < fb_tokens fb)%nat.
Proof.
  intros Ht. rewrite (pr_tokens _ _ Hp), <- (TP.bt_loc _ (pr_batch _ _ Hp)). apply TP.token_of_row; [apply Hp|apply Hf|].
  by rewrite (final_len RT req n fb r Hp Hf).
Qed.

(** The pass over the final tokens. *)
Lemma final_block l B L hs res c xs : block_is l B L -> ids_ok RT c -> length xs = (N * bs)%nat ->
  at_rows (stream hs res) xs -> holds_at RT req n l (attention B) (DecFacts.normed L xs) c ->
  exists c' hs' res', block_forward RT hid B l fb hs res c = Ok (c', hs', res') /\ kept l (attention B) c c' /\
    ready_at RT req (S n) l (attention B) (DecFacts.normed L xs) c' /\
    at_rows (stream hs' (Some res')) (layer_with served_row L xs).
Proof.
  intros HB Hi Hl Hx Hh. destruct (bi_in _ _ _ HB) as [Ein Esz], (bi_post _ _ _ HB) as [Epo Esz'].
  unfold block_forward. rewrite prepared_attn.
  assert (Hxn : at_rows (fun t => SL.rmsnorm_native (input_layernorm B) (stream hs res t)) (DecFacts.normed L xs)).
  { unfold DecFacts.normed. rewrite Ein. by apply rows_norm. }
  assert (Hln : length (DecFacts.normed L xs) = (N * bs)%nat) by (unfold DecFacts.normed; by rewrite length_map).
  destruct (final_attn RT hid P HW Hsched P_even req N n fb r _ _ Hp Hf Hxn Hln Hn l (attention B) c (bi_attn _ _ _ HB) Hi Hh)
    as (c' & out & -> & Hk & Hr & Ho). cbn [rbind]. rewrite prepared_mlp. unfold add_norm.
  rewrite <- (bi_hf _ _ _ HB) in Ho. pose proof (attn_row_len l B L xs HB) as Hal.
  pose proof (rows_add _ _ _ _ Hal Hl Hn Hx Ho) as Hh1. set (h1 := zip_with _ xs _) in Hh1.
  assert (Hl1 : length h1 = (N * bs)%nat) by (unfold h1; rewrite length_zip_with; lia).
  pose proof (rows_norm _ _ _ Esz' Hl1 Hn Hh1) as Hn1. rewrite <- Epo in Hn1.
  destruct (ffn_pass (mlp B) (Dec.l_ffn L) (fb_tokens fb)
    (fun t => SL.rmsnorm_native (post_attention_layernorm B) (fun d => out t d + stream hs res t d)) (bi_ffn _ _ _ HB)) as (y & Ey & Hy).
  rewrite Ey. cbn [rbind]. eexists _, y, _. split; [reflexivity|]. split; [done|]. split; [done|].
  unfold layer_with. fold h1. apply rows_add; [by rewrite !length_map|done|done|done|].
  intros t Ht d Hd. rewrite nth_rows_map by (rewrite length_map; by apply nth_in_rows).
  rewrite (Hy _ (token_in t Ht) d Hd). apply (ffn_veq (mlp B)); [apply HB| |done]. specialize (Hn1 t Ht). rewrite Epo in *. exact Hn1.
Qed.

(** ** All blocks *)

Variables (Bs : list (block R)) (Ls : list (Dec.layer R)) (xs0 : list (vec R)).

(** The blocks are loaded from the layers. *)
Definition blocks_are : Prop := length Bs = length Ls /\
  forall l B L, Bs !! l = Some B -> Ls !! l = Some L -> block_is l B L.

(** The rows that layer [l] reads. *)
Definition layer_rows (l : nat) (L : Dec.layer R) : list (vec R) := DecFacts.normed L (stack served_row (take l Ls) xs0).

(** All layers hold the first [m] blocks of the request. *)
Definition all_hold (m : nat) (c : cache R) : Prop := ids_ok RT c /\
  forall l B L, Bs !! l = Some B -> Ls !! l = Some L -> holds_at RT req m l (attention B) (layer_rows l L) c.

Hypothesis (Hbs : blocks_are) (Hl0 : length xs0 = (N * bs)%nat).

Lemma stack_snoc l L : Ls !! l = Some L ->
  stack served_row (take (S l) Ls) xs0 = layer_with served_row L (stack served_row (take l Ls) xs0).
Proof. intros HLl. unfold stack. by rewrite (take_S_r _ _ _ HLl), foldl_app. Qed.

Lemma block_at l B : Bs !! l = Some B -> exists L, Ls !! l = Some L /\ block_is l B L.
Proof.
  clear Hf Hn Hp P_even Hl0. destruct Hbs as [He Hb]. intros HB. destruct (lookup_lt_is_Some_2 Ls l) as [L HLl].
  { apply lookup_lt_Some in HB. lia. }
  exists L. split; [done|]. by apply Hb.
Qed.

Lemma layer_rows_length l : (l <= length Ls)%nat -> length (stack served_row (take l Ls) xs0) = (N * bs)%nat.
Proof.
  clear Hf Hn Hp P_even. induction l as [|l IH]; intros Hl; [done|]. destruct (lookup_lt_is_Some_2 Ls l ltac:(lia)) as [L HLl].
  destruct Hbs as [He Hb]. destruct (lookup_lt_is_Some_2 Bs l ltac:(lia)) as [B HB].
  rewrite (stack_snoc l L HLl), (layer_with_length _ l B) by (by apply Hb). apply IH. lia.
Qed.

(** Any pass keeps the blocks that its slots avoid. *)
Lemma quiet_blocks m l Bs' hs res c : drop l Bs = Bs' -> fresh RT req m (fb_batch fb) -> all_hold m c ->
  exists c' hs' res', run_blocks RT hid l Bs' fb hs res c = Ok (c', hs', res') /\ all_hold m c'.
Proof.
  clear Hf. intros Hd Hfr. revert l hs res c Hd. induction Bs' as [|B Bs' IH]; intros l hs res c Hd [Hi Hh]; [by eexists _, _, _|].
  assert (HB : Bs !! l = Some B) by (rewrite <- (Nat.add_0_r l), <- lookup_drop, Hd; done).
  assert (Hd' : drop (S l) Bs = Bs') by (rewrite <- Nat.add_1_r, <- drop_drop, Hd; done).
  destruct (block_at l B HB) as (L & HLl & HbL). destruct (quiet_block l B L hs res c HbL Hi) as (c1 & hs1 & res1 & E & Hk).
  cbn [run_blocks]. rewrite E. cbn [rbind]. apply IH; [done|]. split; [apply Hk|].
  intros l' B' L' HB' HL'. specialize (Hh l' B' L' HB' HL'). destruct (decide (l' = l)) as [->|Hne].
  - rewrite HB in HB'. injection HB' as <-. by apply (ak_own _ _ _ _ _ _ _ _ _ Hk).
  - revert Hh. apply agree_holds, (ak_others _ _ _ _ _ _ _ _ _ Hk); [done|]. by apply (bi_attn _ _ _ (proj2 Hbs l' B' L' HB' HL')).
Qed.

(** In the pass over the final tokens the layers before [l] are ready, the others
    still hold [n] blocks. *)
Definition half (l : nat) (c : cache R) : Prop := ids_ok RT c /\
  forall l' B L, Bs !! l' = Some B -> Ls !! l' = Some L ->
    if (l' <? l)%nat then ready_at RT req (S n) l' (attention B) (layer_rows l' L) c
    else holds_at RT req n l' (attention B) (layer_rows l' L) c.

Lemma half_step l B L c c' : Bs !! l = Some B -> Ls !! l = Some L -> half l c -> kept l (attention B) c c' ->
  ready_at RT req (S n) l (attention B) (layer_rows l L) c' -> half (S l) c'.
Proof.
  clear Hf Hn. intros HB HLl [Hi Hh] Hk Hr. split; [apply Hk|]. intros l' B' L' HB' HL'. specialize (Hh l' B' L' HB' HL').
  destruct (decide (l' = l)) as [->|Hne].
  - rewrite HB in HB'. rewrite HLl in HL'. injection HB' as <-. injection HL' as <-. by destruct (Nat.ltb_spec l (S l)); [|lia].
  - pose proof (ak_others _ _ _ _ _ _ _ _ _ Hk l' (attention B') Hne (bi_attn _ _ _ (proj2 Hbs l' B' L' HB' HL'))) as Ha.
    destruct (Nat.ltb_spec l' l), (Nat.ltb_spec l' (S l)); try lia; revert Hh; [by apply agree_ready|by apply agree_holds].
Qed.

Lemma final_blocks l Bs' hs res c : drop l Bs = Bs' -> (l <= length Bs)%nat -> half l c ->
  at_rows (stream hs res) (stack served_row (take l Ls) xs0) ->
  exists c' hs' res', run_blocks RT hid l Bs' fb hs res c = Ok (c', hs', res') /\ half (length Bs) c' /\
    at_rows (stream hs' res') (stack served_row Ls xs0).
Proof.
  revert l hs res c. induction Bs' as [|B Bs' IH]; intros l hs res c Hd Hlb Hh Hx.
  - assert (El : l = length Bs) by (apply (f_equal length) in Hd; rewrite length_drop in Hd; simpl in Hd; lia).
    exists c, hs, res. split; [done|]. rewrite <- El. split; [done|]. rewrite El in Hx. destruct Hbs as [He _]. by rewrite He, firstn_all in Hx.
  - assert (HB : Bs !! l = Some B) by (rewrite <- (Nat.add_0_r l), <- lookup_drop, Hd; done).
    assert (Hd' : drop (S l) Bs = Bs') by (rewrite <- Nat.add_1_r, <- drop_drop, Hd; done).
    pose proof (lookup_lt_Some _ _ _ HB) as Hlt. destruct (block_at l B HB) as (L & HLl & HbL).
    pose proof (proj2 Hh l B L HB HLl) as Hown. destruct (Nat.ltb_spec l l); [lia|].
    pose proof (layer_rows_length l ltac:(destruct Hbs; lia)) as Hlen.
    destruct (final_block l B L hs res c _ HbL (proj1 Hh) Hlen Hx Hown) as (c1 & hs1 & res1 & E & Hk & Hr & Hx1).
    cbn [run_blocks]. rewrite E. cbn [rbind]. apply IH; [done|lia|by apply (half_step l B L c)|]. by rewrite (stack_snoc l L HLl).
Qed.

End Stack.
End MS.
