(* ===== verification/ServedModelProps.v ===== *)
(** Serving a request with the model of [ServedModel]: any number of passes over any
    tokens, block after block, against one forward pass of the Hugging Face model
    over the whole sequence. *)
From stdpp Require Import base list strings.
From Stdlib Require Import ZArith QArith Lia Ring FunctionalExtensionality.
From S2P Require Import Prelude Denoise Sampling Tensor Moe MoeKernel FusedExperts ServedMoe LinearAttention HybridAttention.
From S2P Require Import HybridKernel KernelFacts KernelDriver Backend Decoder DecoderFacts ServedLayer.
From S2P Require Import ExtendKernel ExtendFacts ExtendProps TritonBackend TritonProps SoftmaxLayer ServedModel ServedModelFacts ServedPass ServedStack.
Local Open Scope nat_scope.

Module MR.
Import HK EK TB MD MF MP MS.

#[local] Abbreviation bs := Bk._LLADA_FAST_BLOCK_SIZE.

(** A batch of the scheduler: one block of every request. *)
Record batch_fits (max_bs : nat) (slots : list nat) (mb : ModelWorkerBatch) : Prop := {
  bf_prefix : length (extend_prefix_lens (mb_batch mb)) = length (req_pool_indices (mb_batch mb));
  bf_lens : length (extend_seq_lens (mb_batch mb)) = length (req_pool_indices (mb_batch mb));
  bf_offsets : length (dllm_block_offsets mb) = length (req_pool_indices (mb_batch mb));
  bf_loc : length (out_cache_loc (mb_batch mb)) = sum_list (extend_seq_lens (mb_batch mb));
  bf_nodup : NoDup (out_cache_loc (mb_batch mb));
  bf_some : extend_seq_lens (mb_batch mb) <> [];
  bf_slots : NoDup slots;
  bf_blocks : forall l, l ∈ extend_seq_lens (mb_batch mb) -> l = bs;
  bf_max : length (req_pool_indices (mb_batch mb)) <= max_bs;
}.

Lemma sum_take_blocks lens r : (forall l, l ∈ lens -> l = bs) -> r < length lens -> sum_list (take r lens) = r * bs.
Proof.
  intros Hl Hr. assert (El : lens = replicate (length lens) bs) by (symmetry; apply replicate_as_elem_of; by split).
  rewrite El, take_replicate, Nat.min_l by lia. apply sum_list_replicate.
Qed.

Section Serve.
Context {R : Type} {HO : ScalarOps R} {sle : R -> R -> Prop} {HL : ScalarLaws R sle}.
Context {HN : NetOps R} {HLg : LogOps R} {HT : TopkOps R}.
Local Open Scope sc_scope.
Variables (RT : runtime R) (M : model R) (P : SL.rope R) (max_bs : nat).
#[local] Abbreviation hid := (embed_dim M).
Context (ffn_is : served_mlp R -> Dec.ffn R -> Prop) (served_row : Dec.ffn R -> vec R -> vec R)
  {FS : FfnServed RT hid ffn_is served_row}.
Variables (Ls : list (Dec.layer R)) (req N : nat) (ids : list Z).
#[local] Abbreviation slot := (req_index_to_mamba_index RT req).
#[local] Abbreviation xs0 := (map (word_embeddings M) ids).

Record runtime_ok : Prop := {
  ro_machine : TP.machine_ok (rt_machine RT);
  ro_sched : forall l, rt_sched RT l ≡ₚ l;
  ro_even : SL.rotary_dim P mod 2 = 0%nat;
  ro_blocks : blocks_are (sle := sle) RT hid P ffn_is (layers M) Ls;
  ro_norm : Dec.nm_size (norm M) = hid;
  ro_ids : length ids = (N * bs)%nat;
}.

(** The server between passes. *)
Record server_ok (m : nat) (s : server R) : Prop := {
  so_ptrs : TP.ptrs_ok max_bs (sv_ptrs s);
  so_bufs : Bk.buffers_ok max_bs (sv_bufs s);
  so_hold : all_hold RT P served_row req (layers M) Ls xs0 m (sv_cache s);
}.

Definition slots_of (mb : ModelWorkerBatch) : list nat := mamba_slots RT (mb_batch mb).

(** The batch may be any, as long as it leaves the slots of the first [m] blocks. *)
Definition quiet (m : nat) (e : event) : Prop :=
  match e with
  | Pass mb => batch_fits max_bs (slots_of mb) mb /\ fresh RT req m (mb_batch mb)
  | Promote slots => slot ∉ slots
  end.

(** Request [r] of the batch is this one, with the final tokens of block [n]. *)
Record final (n : nat) (mb : ModelWorkerBatch) (r : nat) : Prop := {
  fn_fits : batch_fits max_bs (slots_of mb) mb;
  fn_in : (r < length (req_pool_indices (mb_batch mb)))%nat;
  fn_req : nth r (req_pool_indices (mb_batch mb)) 0%nat = req;
  fn_prefix : nth r (extend_prefix_lens (mb_batch mb)) 0%nat = (n * bs)%nat;
  fn_offset : nth r (dllm_block_offsets mb) 0%nat = (n * bs)%nat;
  fn_slots : forall t, (t < bs)%nat -> nth (r * bs + t) (out_cache_loc (mb_batch mb)) 0%nat = req_to_token RT req (n * bs + t)%nat;
  fn_fresh : fresh RT req n (mb_batch mb);
  fn_tokens : forall t, (t < bs)%nat -> input_ids mb (r * bs + t)%nat = nth (n * bs + t) ids 0%Z;
}.

Hypothesis ok : runtime_ok.

(** ** Metadata *)

(** The batch with its start offsets. *)
Definition started (mb : ModelWorkerBatch) : ForwardBatch :=
  mkFB (req_pool_indices (mb_batch mb)) (extend_prefix_lens (mb_batch mb)) (extend_seq_lens (mb_batch mb))
    (Some (offsets (extend_seq_lens (mb_batch mb)))) (out_cache_loc (mb_batch mb)).

Lemma pass_prepared mb s m : batch_fits max_bs (slots_of mb) mb -> server_ok m s ->
  exists md pl ptrs bufs, let fb := mkForward (started mb) md pl (sum_list (extend_seq_lens (mb_batch mb)))
      (fun t => nth t (dllm_positions bs (dllm_block_offsets mb)) 0%nat) in
    forward_pass RT M bs mb s = (let! '(c, logits) := forward RT M (input_ids mb) fb (sv_cache s) in
                                 Ok (mkServer c ptrs bufs, logits))%py /\
    TP.ptrs_ok max_bs ptrs /\ Bk.buffers_ok max_bs bufs /\ prepared RT fb.
Proof.
  intros [F1 F2 F3 F4 F5 F6 F7 F8 F9] Hs. pose proof (TP.mc_1 _ (ro_machine ok)) as H1.
  destruct (TP.metadata_ok (rt_machine RT) (req_to_token RT) (started mb) (sv_ptrs s) max_bs H1 (so_ptrs _ _ Hs) F6 F1 F2 F9)
    as (md & ptrs & E & Hp & Hm).
  pose proof (Bk.metadata_plan max_bs (sv_bufs s) (slots_of mb) (extend_seq_lens (mb_batch mb)) (extend_start_loc (started mb))
    (Some (extend_seq_lens (mb_batch mb))) (so_bufs _ _ Hs) ltac:(lia) ltac:(unfold slots_of, mamba_slots; rewrite length_map; lia)
    ltac:(intros l Hl; rewrite (F8 l Hl); unfold Bk._LLADA_FAST_BLOCK_SIZE; lia) ltac:(by right) ltac:(by right)) as Hpl.
  pose proof (start_loc_offsets _ (garbage (rt_machine RT)) (extend_prefix_lens (mb_batch mb)) (extend_seq_lens (mb_batch mb)) H1) as Hst.
  unfold forward_pass. destruct (compute_position_triton _ _ _ _) as [st loc]. simpl in Hst. subst loc. fold (started mb).
  unfold hybrid_init_forward_metadata. rewrite E. cbn [rbind].
  change (map _ (req_pool_indices (started mb))) with (slots_of mb). change (extend_seq_lens (started mb)) with (extend_seq_lens (mb_batch mb)).
  destruct (Bk.init_forward_metadata _ _ _ _ _) as [pl bufs]. destruct Hpl as (-> & Hb & _).
  eexists md, _, ptrs, bufs. split; [reflexivity|]. split; [done|]. split; [done|].
  split; [|exact Hm|reflexivity|done|exact F7|exact F8]. split; simpl; [lia|done|done|done|by right|done].
Qed.

(** ** Passes *)

Lemma quiet_pass m mb s : batch_fits max_bs (slots_of mb) mb -> fresh RT req m (mb_batch mb) -> server_ok m s ->
  exists s' logits, forward_pass RT M bs mb s = Ok (s', logits) /\ server_ok m s'.
Proof.
  intros Hb Hf Hs. destruct (pass_prepared mb s m Hb Hs) as (md & pl & ptrs & bufs & E & Hp & Hbu & Hpr).
  cbv zeta in E. rewrite E. set (fb := mkForward _ _ _ _ _) in *. unfold forward, model_forward.
  destruct (quiet_blocks (sle := sle) RT hid P ffn_is served_row req fb (ro_machine ok) (ro_sched ok) Hpr (layers M) Ls xs0 (ro_blocks ok)
    m 0 (layers M) (fun t => word_embeddings M (input_ids mb t)) None (sv_cache s) eq_refl Hf (so_hold _ _ Hs)) as (c' & hs' & res' & E' & Hh).
  rewrite E'. cbn [rbind]. eexists _, _. split; [reflexivity|]. by split.
Qed.

(** The head of the Hugging Face model on the rows of a sequence. *)
Definition head_rows (xs : list (vec R)) : list (list R) :=
  map (fun x => map (Moe.linear hid (lm_head M) (Dec.norm_forward (norm M) x)) (seq 0 (vocab_size M))) xs.

Lemma final_prepared n mb r md pl : final n mb r ->
  final_batch RT req n (mkForward (started mb) md pl (sum_list (extend_seq_lens (mb_batch mb)))
    (fun t => nth t (dllm_positions bs (dllm_block_offsets mb)) 0%nat)) r.
Proof.
  clear ok. intros [[F1 F2 F3 F4 F5 F6 F7 F8 F9] Hin Hreq Hpre Hoff Hsl Hfr _].
  assert (Hin' : (r < length (extend_seq_lens (mb_batch mb)))%nat) by lia.
  split; cbn [fb_batch started extend_seq_lens req_pool_indices extend_prefix_lens fb_positions out_cache_loc]; try done.
  - intros t Ht. rewrite (sum_take_blocks _ r F8 Hin'), dllm_positions_at by lia. by rewrite Hoff.
  - intros t Ht. rewrite (sum_take_blocks _ r F8 Hin'). by apply Hsl.
Qed.

(** The pass over the final tokens of block [n]. *)
Lemma final_pass n mb r s : (n < N)%nat -> final n mb r -> server_ok n s ->
  exists s' logits, forward_pass RT M bs mb s = Ok (s', logits) /\
    (forall slots, slot ∈ slots -> server_ok (S n) (promote slots s')) /\
    forall t, (t < bs)%nat -> logits (r * bs + t)%nat = nth (n * bs + t) (head_rows (stack P served_row Ls xs0)) [].
Proof.
  intros Hn Hfn Hs. pose proof (fn_fits _ _ _ Hfn) as Hb.
  destruct (pass_prepared mb s n Hb Hs) as (md & pl & ptrs & bufs & E & Hp & Hbu & Hpr).
  cbv zeta in E. rewrite E. pose proof (final_prepared n mb r md pl Hfn) as Hfb. set (fb := mkForward _ _ _ _ _) in *.
  assert (Hin : (r < length (extend_seq_lens (mb_batch mb)))%nat) by (rewrite (bf_lens _ _ _ Hb); apply Hfn).
  pose proof (sum_take_blocks _ r (bf_blocks _ _ _ Hb) Hin) as Eat.
  assert (Hl0 : length xs0 = (N * bs)%nat) by (rewrite length_map; apply ok).
  assert (Hx : block_rows hid n fb r (stream (fun t => word_embeddings M (input_ids mb t)) None) (stack P served_row (take 0 Ls) xs0)).
  { intros t Ht d Hd. change (extend_seq_lens (fb_batch fb)) with (extend_seq_lens (mb_batch mb)). simpl. rewrite Eat, (fn_tokens _ _ _ Hfn t Ht).
    assert (Hlt : (n * bs + t < length ids)%nat) by (rewrite (ro_ids ok); nia). destruct (lookup_lt_is_Some_2 ids _ Hlt) as [z Hz].
    rewrite (nth_lookup_Some _ _ _ _ Hz). by rewrite (nth_lookup_Some _ _ _ (word_embeddings M z)) by (by rewrite list_lookup_fmap, Hz). }
  assert (Hh : half RT P served_row req n (layers M) Ls xs0 0 (sv_cache s)) by (split; [apply Hs|]; intros; by apply (so_hold _ _ Hs)).
  destruct (final_blocks (sle := sle) RT hid P ffn_is served_row req N n fb r (ro_machine ok) (ro_sched ok) (ro_even ok) Hpr Hfb Hn (layers M) Ls xs0
    (ro_blocks ok) Hl0 0 (layers M) _ None (sv_cache s) eq_refl ltac:(lia) Hh Hx) as (c' & hs' & res' & E' & [Hi' Hh'] & Hx').
  unfold forward, model_forward. rewrite E'. cbn [rbind]. eexists _, _. split; [reflexivity|]. split.
  - intros slots Hin'. split; [done|done|]. split; [done|]. intros l B L HB HLl. specialize (Hh' l B L HB HLl).
    destruct (Nat.ltb_spec l (length (layers M))); [by apply Hh'|]. apply lookup_lt_Some in HB. lia.
  - intros t Ht. assert (Hlen : (n * bs + t < length (stack P served_row Ls xs0))%nat).
    { pose proof (layer_rows_length (sle := sle) RT hid P ffn_is served_row N (layers M) Ls xs0 (ro_blocks ok) Hl0 (length Ls) ltac:(lia)) as Hll.
      rewrite firstn_all in Hll. rewrite Hll. nia. }
    destruct (lookup_lt_is_Some_2 _ _ Hlen) as [x Ex]. unfold head_rows.
    erewrite (nth_lookup_Some (map _ _)) by (rewrite list_lookup_fmap, Ex; reflexivity). apply map_ext. intros o. apply SX.linear_veq.
    specialize (Hx' t Ht). change (extend_seq_lens (fb_batch fb)) with (extend_seq_lens (mb_batch mb)) in Hx'. rewrite Eat, (nth_lookup_Some _ _ _ _ Ex) in Hx'.
    pose proof (norm_veq hid (norm M) _ _ (ro_norm ok) Hx') as Hv. by destruct res'.
Qed.

(** ** Serving *)

(** Promoting other slots. *)
Lemma other_promoted m slots s : slot ∉ slots -> server_ok m s -> server_ok m (promote slots s).
Proof.
  clear ok. intros Hs [H1 H2 [Hi Hh]]. split; [done|done|]. split; [done|]. intros l B L HB HLl. specialize (Hh l B L HB HLl).
  destruct (attention B) as [A|A]; [exact Hh|]. simpl in *. intros h Hlt. simpl.
  destruct (existsb (Nat.eqb slot) slots) eqn:Ex; [|by apply Hh].
  exfalso. apply Hs. apply existsb_exists in Ex as (x & Hx & ->%Nat.eqb_eq). by apply list_elem_of_In.
Qed.

Lemma quiet_events m es s : Forall (quiet m) es -> server_ok m s -> exists s', run_events RT M bs es s = Ok s' /\ server_ok m s'.
Proof.
  intros Hq. revert s. induction Hq as [|e es He Hq IH]; intros s Hs; [by exists s|]. cbn [run_events].
  destruct e as [mb|slots]; cbn [run_event].
  - destruct He as [Hb Hf]. destruct (quiet_pass m mb s Hb Hf Hs) as (s1 & logits & -> & Hs1). cbn [rbind]. by apply IH.
  - cbn [rbind]. by apply IH, other_promoted.
Qed.

Lemma model_events_app es es' s :
  run_events RT M bs (es ++ es') s = (let! s := run_events RT M bs es s in run_events RT M bs es' s)%py.
Proof.
  clear. revert s. induction es as [|e es IH]; intros s; [done|]. simpl. destruct (run_event RT M bs e s) as [s1|]; simpl; [apply IH|done].
Qed.

(** [n] blocks of the request: each ends with a pass over its final tokens, after
    which its state is promoted. *)
Inductive rounds : nat -> list event -> Prop :=
| rounds_0 : rounds 0 []
| rounds_S n es pre mb r slots :
    rounds n es -> Forall (quiet n) pre -> final n mb r -> slot ∈ slots ->
    rounds (S n) (es ++ pre ++ [Pass mb; Promote slots]).

Lemma rounds_ok n es s : (n <= N)%nat -> rounds n es -> server_ok 0 s -> exists s', run_events RT M bs es s = Ok s' /\ server_ok n s'.
Proof.
  intros Hn Hr H0. induction Hr as [|n es pre mb r slots Hr IH Hq Hf Hs]; [by exists s|].
  destruct IH as (s1 & E1 & H1); [lia|]. rewrite model_events_app, E1. cbn [rbind].
  destruct (quiet_events n pre s1 Hq H1) as (s2 & E2 & H2). rewrite model_events_app, E2. cbn [rbind run_events run_event].
  destruct (final_pass n mb r s2 ltac:(lia) Hf H2) as (s3 & logits & -> & Hp & _). cbn [rbind]. eexists. split; [reflexivity|]. by apply Hp.
Qed.

(** The logits of the last pass over block [n]. *)
Lemma served_logits n es pre mb r s : (n < N)%nat -> server_ok 0 s -> rounds n es -> Forall (quiet n) pre -> final n mb r ->
  exists s1 s2 logits, run_events RT M bs (es ++ pre) s = Ok s1 /\ forward_pass RT M bs mb s1 = Ok (s2, logits) /\
    forall t, (t < bs)%nat -> logits (r * bs + t)%nat = nth (n * bs + t) (head_rows (stack P served_row Ls xs0)) [].
Proof.
  intros Hn H0 Hr Hq Hf. destruct (rounds_ok n es s ltac:(lia) Hr H0) as (s1 & E1 & H1).
  destruct (quiet_events n pre s1 Hq H1) as (s2 & E2 & H2). destruct (final_pass n mb r s2 Hn Hf H2) as (s3 & logits & E3 & _ & Hl).
  exists s2, s3, logits. split; [by rewrite model_events_app, E1|]. by split.
Qed.

End Serve.
End MR.
