(* ===== verification/ServedModelThm.v ===== *)
(** The served model computes the Hugging Face model, over the real numbers: the
    feed-forward blocks of [ServedMoe] discharge the interface of [ServedStack]. *)
From stdpp Require Import base list strings.
From Stdlib Require Import ZArith QArith Qreals Reals Lra Lia Ring FunctionalExtensionality.
From S2P Require Import Prelude Denoise Sampling Tensor RealOps Moe MoeKernel MoeConfig FusedExperts ServedMoe ServedMoeProps ServedMoeThm.
From S2P Require Import LinearAttention HybridAttention HybridKernel KernelFacts KernelDriver Backend Decoder DecoderFacts ServedLayer.
From S2P Require Import ExtendKernel ExtendFacts ExtendProps TritonBackend TritonProps SoftmaxLayer.
From S2P Require Import ServedModel ServedModelFacts ServedPass ServedStack ServedModelProps.
Local Open Scope nat_scope.

Module MT.
Import HK EK TB MD MF MP MS MR SM SMP SMT.

#[local] Abbreviation bs := Bk._LLADA_FAST_BLOCK_SIZE.

(** ** Rows that agree on their first entries *)

Section Veq.
Context {R : Type} {HO : ScalarOps R} {sle : R -> R -> Prop} {HL : ScalarLaws R sle} `{TopkOps R}.
Local Open Scope sc_scope.
#[local] Abbreviation veq := (SX.veq (R := R)).

Lemma mlp_veq (T : Moe.mlp R) x y : veq (Moe.hidden_size T) x y -> Moe.mlp_forward T x = Moe.mlp_forward T y.
Proof.
  intros E. apply functional_extensionality. intros d. unfold Moe.mlp_forward. apply SX.linear_veq. intros i _.
  by rewrite !(SX.linear_veq (Moe.hidden_size T) _ x y).
Qed.

Lemma gate_logits_veq (G : Moe.gate R) x y : veq (Moe.gating_dim G) x y -> Moe.gate_logits G x = Moe.gate_logits G y.
Proof. intros E. unfold Moe.gate_logits. apply map_ext. intros e. by apply SX.linear_veq. Qed.

Lemma gate_veq (G : Moe.gate R) x y : veq (Moe.gating_dim G) x y ->
  Moe.gate_forward G x = Moe.gate_forward G y /\ forall idx, score_sum G x idx = score_sum G y idx.
Proof.
  intros E. pose proof (gate_logits_veq G x y E) as El.
  unfold Moe.gate_forward, score_sum, Moe.scores_for_routing, Moe.gate_scores. by rewrite El.
Qed.

Lemma moe_veq `{DenoiseOps R} `{!TopkLaws R} hid (G : Moe.gate R) experts x y : Moe.gating_dim G = hid ->
  Forall (fun T => Moe.hidden_size T = hid) experts -> Moe.gate_ok G -> length experts = Moe.num_experts G -> veq hid x y ->
  Moe.moe_ref G experts None x = Moe.moe_ref G experts None y.
Proof.
  intros Eg He Hg Hlen E. rewrite <- Eg in E. pose proof (proj1 (gate_veq G x y E)) as Ef. unfold Moe.moe_ref. rewrite Ef.
  destruct (Moe.gate_spec G Hg y) as (idx & w & lg & -> & _ & _ & F & _). cbn [rbind]. f_equal. unfold Moe.mixture. f_equal.
  apply map_ext_in. intros e Hin%list_elem_of_In. rewrite Forall_forall in F. specialize (F e Hin). unfold Moe.expert.
  destruct (lookup_lt_is_Some_2 experts e ltac:(lia)) as [T HT]. rewrite HT. apply mlp_veq.
  rewrite Forall_forall in He. by rewrite (He T (list_elem_of_lookup_2 _ _ _ HT)), <- Eg.
Qed.

End Veq.

(** ** The feed-forward blocks *)

Section Real.
Import Reals RealSample.
Context {HN : NetOps R} {HLg : LogOps R} {HA : ArgsortOps} {HAL : ArgsortLaws}.
Local Open Scope R_scope.

(** The row of a served block: the routed part is that of the Hugging Face model
    times [1 + 1e-20 / S], [S] the sum of the chosen scores. *)
Definition served_row (F : Dec.ffn R) (x : vec R) : vec R :=
  match F with
  | Dec.DenseMlp T => Moe.mlp_forward T x
  | Dec.SparseMoe G experts shared =>
    match Moe.moe_ref G experts None x, Moe.gate_forward G x with
    | Ok y, Ok (idx, _, _) => fun d => plus_shared shared x d (y d * (1 + Q2R (1 # 100000000000000000000) / score_sum G x idx))
    | _, _ => x
    end
  end.

(** A served block is loaded from a block of the Hugging Face model. *)
Definition ffn_is (hid : nat) (F' : MD.served_mlp R) (F : Dec.ffn R) : Prop :=
  match F', F with
  | MlpServed T, Dec.DenseMlp D => shared_loaded hid T D
  | MoeServed B, Dec.SparseMoe G experts shared => Moe.gate_ok G /\ (1 < Moe.top_k G)%nat /\ FE.wH (blk_weights B) = hid /\
      exists c, matches c B G experts shared
  | _, _ => False
  end.

(** The library kernels of the experts behave. *)
Record kernels_ok (RT : runtime R) : Prop := {
  ke_topk : UnsortedLaws (MD.topk_unsorted RT);
  ke_gates : gate_kernel_laws (MD.gate_kernels RT);
  ke_aiter : use_aiter (MD.gate_kernels RT) = false;
  ke_world : FE.world_ok (moe_world RT);
}.

Section Ffn.
Variables (RT : runtime R) (hid : nat).
Hypothesis KO : kernels_ok RT.

Lemma matches_dims c B G experts shared : matches c B G experts shared -> FE.wH (blk_weights B) = hid ->
  Moe.gating_dim G = hid /\ length experts = Moe.num_experts G /\ Forall (fun T => Moe.hidden_size T = hid) experts /\
  (forall T, shared = Some T -> Moe.hidden_size T = hid).
Proof.
  clear KO. intros Hm Hh. split; [by rewrite <- (ma_H _ _ _ _ _ Hm)|]. split; [apply Hm|]. split.
  - apply Forall_lookup. intros e T HT. rewrite (el_h _ _ _ (ma_experts _ _ _ _ _ Hm e T HT)). done.
  - intros T ->. pose proof (ma_shared _ _ _ _ _ Hm) as [_ Hs]. by rewrite (sl_h _ _ _ Hs).
Qed.

Lemma served_row_veq F' F x y : ffn_is hid F' F -> SX.veq hid x y -> SX.veq hid (served_row F x) (served_row F y).
Proof.
  intros HF E. destruct F' as [T|B], F as [D|G experts shared]; try done; simpl in *.
  - intros d Hd. by rewrite (mlp_veq D x y) by (by rewrite (sl_h _ _ _ HF)).
  - destruct HF as (Hg & Hk & Hh & c & Hm). destruct (matches_dims c B G experts shared Hm Hh) as (Eg & El & He & Hsh).
    rewrite (moe_veq hid G experts x y) by done. rewrite <- Eg in E. destruct (gate_veq G x y E) as [-> Es]. rewrite Eg in E.
    destruct (Moe.moe_ref G experts None y); [|done]. destruct (Moe.gate_forward G y) as [[[idx w] lg]|]; [|done].
    intros d Hd. rewrite Es. unfold plus_shared. destruct shared as [T|]; [|done]. by rewrite (mlp_veq T x y) by (by rewrite (Hsh T eq_refl)).
Qed.

#[export] Instance ffn_served : FfnServed RT hid (ffn_is hid) served_row.
Proof.
  split; [|apply served_row_veq]. intros F' F T hs HF. pose proof HF as HF'.
  destruct F' as [S|B], F as [D|G experts shared]; try done; simpl in HF |- *.
  - eexists. split; [reflexivity|]. intros t Ht d Hd. by apply smlp_mlp.
  - destruct HF as (Hg & Hk & Hh & c & Hm). destruct KO as [K1 K2 K3 K4].
    set (hidden := fun a => hs (a / hid)%nat (a mod hid)%nat).
    destruct (served_moe_is_hf c B G experts shared (MD.topk_unsorted RT) (MD.gate_kernels RT) (moe_world RT) T hidden (fresh_cache RT) Hm Hg Hk
      K1 K2 K3 K4) as (out & hm & -> & Hout). cbn [rbind]. eexists. split; [reflexivity|]. intros t Ht d Hd.
    rewrite Hh in Hout. destruct (Hout t d Ht Hd) as (y & idx & w & lg & Ey & Eg & _ & Eo). rewrite Eo.
    assert (Ex : SX.veq hid (row_of B hidden t) (hs t)).
    { intros e He. unfold row_of, hidden. rewrite Hh. rewrite Nat.div_add_l, Nat.div_small by lia.
      by rewrite Nat.add_0_r, Nat.add_comm, Nat.Div0.mod_add, Nat.mod_small. }
    pose proof (served_row_veq (MoeServed B) (Dec.SparseMoe G experts shared) _ _ HF' Ex d Hd) as Er.
    etransitivity; [|exact Er]. unfold served_row. by rewrite Ey, Eg.
Qed.

End Ffn.
(** ** The model *)

Section Model.
Variables (RT : runtime R) (M : model R) (HM : Dec.model R) (P : SL.rope R).
#[local] Abbreviation hid := (embed_dim M).

(** The served model is loaded from the Hugging Face model. *)
Record model_is : Prop := {
  mi_hidden : Dec.m_hidden HM = hid;
  mi_vocab : Dec.vocab_size HM = vocab_size M;
  mi_embeddings : Dec.word_embeddings HM = word_embeddings M;
  mi_blocks : blocks_are (sle := Rle) RT hid P (ffn_is hid) (layers M) (Dec.layers HM);
  mi_norm : Dec.m_norm HM = norm M /\ Dec.nm_size (norm M) = hid;
  mi_rotary : Dec.m_rotary HM = SL.hf_rotary P /\ SL.rotary_dim P mod 2 = 0%nat;
  mi_head : Dec.lm_head HM = lm_head M;
}.

(** The device runs every program of a grid once. *)
Record device_ok : Prop := {
  de_machine : TP.machine_ok (rt_machine RT);
  de_sched : forall l, rt_sched RT l ≡ₚ l;
  de_kernels : kernels_ok RT;
}.

(** A server that has just admitted the request: its slot has a zero state. *)
Record admitted (max_bs req : nat) (s : server R) : Prop := {
  ad_ptrs : TP.ptrs_ok max_bs (sv_ptrs s);
  ad_bufs : Bk.buffers_ok max_bs (sv_bufs s);
  ad_ids : ids_ok RT (sv_cache s);
  ad_S : forall l h f d, Bk.committed (states (sv_cache s) l) (CS (req_index_to_mamba_index RT req) h f d) = 0;
  ad_Z : forall l h f, Bk.committed (states (sv_cache s) l) (CZ (req_index_to_mamba_index RT req) h f) = 0;
}.

Lemma admitted_ok max_bs req ids s : model_is -> admitted max_bs req s ->
  server_ok RT M P max_bs served_row (Dec.layers HM) req ids 0 s.
Proof.
  intros Hm [A1 A2 A3 A4 A5]. split; [done|done|]. split; [done|]. intros l B L HB HLl.
  pose proof (bi_attn _ _ _ _ _ _ _ (proj2 (mi_blocks Hm) l B L HB HLl)) as HA'.
  destruct (attention B) as [A|A].
  - destruct HA' as (El & Hin & _). rewrite <- A3, <- El in Hin. destruct (transfer_ok _ _ Hin) as [i Hi].
    exists i. split; [done|]. intros j Hj. lia.
  - intros h Hh. split; intros; [apply A4|apply A5].
Qed.

(** The Hugging Face model, one sequence. *)
Lemma hf_logits N ids : model_is -> (0 < N)%nat -> length ids = (N * bs)%nat ->
  Dec.model_forward HM bs [ids] = Ok [head_rows M (stack P DecFacts.ffn_row (Dec.layers HM) (map (word_embeddings M) ids))].
Proof.
  intros Hm HN0 Hl. unfold Dec.model_forward. rewrite (proj1 (mi_rotary Hm)).
  rewrite (DecFacts.run_layers_rows (SL.hf_rotary P) bs (Dec.layers HM) (Dec.embed HM [ids]) (N * bs)%nat).
  - cbn [rbind]. unfold Dec.head, Dec.embed, head_rows. rewrite (mi_hidden Hm), (mi_vocab Hm), (mi_embeddings Hm), (proj1 (mi_norm Hm)), (mi_head Hm).
    done.
  - apply Forall_lookup. intros l L HLl. destruct (mi_blocks Hm) as [He Hb].
    destruct (lookup_lt_is_Some_2 (layers M) l ltac:(apply lookup_lt_Some in HLl; lia)) as [B HB]. specialize (Hb l B L HB HLl). split.
    + rewrite (bi_hf _ _ _ _ _ _ _ Hb). by apply (hf_attn_ok (sle := Rle) RT hid P l), Hb.
    + pose proof (bi_ffn _ _ _ _ _ _ _ Hb) as HF. destruct (mlp B) as [T|MB], (Dec.l_ffn L) as [D|G experts shared]; try done.
      destruct HF as (Hg & Hk & _ & c & Hma). split; [done|]. split; [apply Hma|lia].
  - apply Forall_singleton. by rewrite length_map.
  - unfold Bk._LLADA_FAST_BLOCK_SIZE. lia.
  - done.
Qed.

End Model.

(** C6. The served model computes the Hugging Face model.  The model is loaded from
    a Hugging Face model: softmax and hybrid attention layers, dense and sparse
    feed-forward blocks in any order.  A request is admitted with a zero state; its
    earlier blocks were denoised by any number of passes over any tokens, beside any
    other requests, and committed.  Then the passes succeed, and the pass over the
    final tokens of its next block, from the block offsets of the batch through the
    metadata of the backends, the kernels of all layers and the residual stream to
    the head, gives at its rows the logits at these positions of one forward pass
    over the whole sequence of [N] blocks under the block mask, whatever the blocks
    behind it hold.  It holds of every denoising pass too: [ids] may hold at the block
    the tokens that the pass sees, masks included.  [stack] is that forward pass with the row function of the
    feed-forward blocks for a parameter: the Hugging Face model is its value at
    [ffn_row]; the server's [served_row] is the same function on dense blocks, and on
    sparse ones scales the routed part by [1 + 1e-20 / S].  The blocks have the 32
    tokens of the backend, the routing normalises its weights and chooses more than one
    expert, the gate kernels route as documented, and one rank holds the model. *)
Theorem served_model_is_hf (RT : runtime R) (M : model R) (HM : Dec.model R) (P : SL.rope R) (max_bs req N n : nat) (ids : list Z)
    (es pre : list event) (mb : ModelWorkerBatch) (r : nat) (s : server R) :
  model_is RT M HM P -> device_ok RT -> length ids = (N * bs)%nat -> (n < N)%nat -> admitted RT max_bs req s ->
  rounds RT max_bs req ids n es -> Forall (quiet RT max_bs req n) pre -> final RT max_bs req ids n mb r ->
  exists s1 s2 logits, run_events RT M bs (es ++ pre) s = Ok s1 /\ forward_pass RT M bs mb s1 = Ok (s2, logits) /\
    let xs := map (word_embeddings M) ids in
    (forall t, (t < bs)%nat -> logits (r * bs + t)%nat = nth (n * bs + t) (head_rows M (stack P served_row (Dec.layers HM) xs)) []) /\
    Dec.model_forward HM bs [ids] = Ok [head_rows M (stack P DecFacts.ffn_row (Dec.layers HM) xs)].
Proof.
  intros Hm [D1 D2 D3] Hl Hn Ha Hr Hq Hf. pose proof (ffn_served RT (embed_dim M) D3) as FS.
  assert (ok : runtime_ok (sle := Rle) RT M P (ffn_is (embed_dim M)) (Dec.layers HM) N ids) by (split; try done; apply Hm).
  destruct (served_logits (sle := Rle) RT M P max_bs (ffn_is (embed_dim M)) served_row (Dec.layers HM) req N ids ok n es pre mb r s Hn
    (admitted_ok RT M HM P max_bs req ids s Hm Ha) Hr Hq Hf) as (s1 & s2 & logits & E1 & E2 & E3).
  exists s1, s2, logits. split; [done|]. split; [done|]. split; [done|]. apply (hf_logits RT M HM P N); [done|lia|done].
Qed.

End Real.

(** ** A concrete model *)

Module Demo.
Export Reals RealSample EP.Example_.

Definition ones : mat R := fun _ _ => 1%R.
Definition zeros : vec R := fun _ => 0%R.
Definition rope0 : SL.rope R := SL.mkRope 0 10000%R.
Definition unit_norm : Dec.rms_norm R := Dec.mkNorm 2 (fun _ => 1%R) 1%R.

(** Layer 0 is softmax and dense, layer 1 hybrid and sparse; the hidden size is two. *)
Definition soft : SX.attention R := SX.mkAttention 2 1 1 2 ones zeros None None ones zeros rope0 0.
Definition hyb_core : served R := mkServed 1 1 false 2 1 32 (/ 10)%R 1%R 1 (fun _ _ _ => 1%R) (fun _ => 0%R).
Definition hyb : SL.attention R := SL.mkAttention 2 hyb_core ones zeros None None ones zeros rope0.

Definition dense_mlp : SM.served_mlp R := mkSMlp 1 ones ones.
Definition hf_mlp : Moe.mlp R := Moe.mkMlp 2 1 ones ones ones FE.silu.
Definition router : Moe.gate R := Moe.mkGate 2 2 1 1 2 ones 1%R zeros.
Definition moe_conf : moe_config R := mkMoeConfig 2 true "silu" 1 1 2 1%R (Some "sigmoid"%string) (Some 0%nat).
Definition sparse : moe_block R :=
  SM.mkBlock (mkTopK 2 true (Some 1) (Some 1) true (Some [0%R; 0%R]) false (Some 1%R) false "softmax") ones
    (FE.mkWeights 2 2 2 (fun _ => ones) (fun _ => ones)) (Some 0%nat) dense_mlp 1%R.

Definition demo_model : model R := MD.mkModel 2 2 (fun z _ => IZR z)
  [MD.mkBlock unit_norm (SoftmaxServed soft) unit_norm (MlpServed dense_mlp);
   MD.mkBlock unit_norm (HybridServed hyb) unit_norm (MoeServed sparse)] unit_norm ones.

Definition demo_hf : Dec.model R := Dec.mkModel 2 2 (fun z _ => IZR z)
  [Dec.mkLayer (SX.hf_attention soft) (Dec.DenseMlp hf_mlp) unit_norm unit_norm;
   Dec.mkLayer (SL.hf_attention hyb) (Dec.SparseMoe router [hf_mlp; hf_mlp] None) unit_norm unit_norm]
  unit_norm (SL.hf_rotary rope0) ones.

Definition demo_runtime : runtime R :=
  mkRuntime (mkMachine (EK.Cuda 9 0) (fun l => l) (fun l => l) (fun _ => 0)) (mkBackend false false) [0] (fun l => l)
    t_topk SMT.Demo.gates SMT.Demo.machine (fun _ => 0%R) (fun _ => 0%R) (fun _ j => j) S.

(** The first block of a request, alone in its batch. *)
Definition demo_batch : ModelWorkerBatch := mkBatch (mkFB [3] [0] [32] None (seq 0 32)) [0] (fun _ => 5%Z).

Definition demo_server : server R :=
  mkServer (mkCache (mkPool [0] (fun _ _ _ _ => 0%R) (fun _ _ _ _ => 0%R)) (fun _ => Bk.mkLayer (fun _ => 0%R) (fun _ => 0%R)))
    (init_ptrs 4) (Bk.init_buffers 4).

Lemma demo_matches : matches moe_conf sparse router [hf_mlp; hf_mlp] None.
Proof.
  split; try reflexivity. intros e T HT. destruct e as [|[|e]]; [injection HT as <-|injection HT as <-|done]; split; done.
Qed.

Lemma demo_is : model_is demo_runtime demo_model demo_hf rope0.
Proof.
  split; try done. split; [done|]. intros l B L HB HLl.
  destruct l as [|[|l]]; [injection HB as <-; injection HLl as <-|injection HB as <-; injection HLl as <-|done]; split; try done.
  - split; [done|]. split; [left|]. split; [done|]. split; [done|]. simpl. lia.
  - repeat (split; [first [reflexivity | simpl; lia]|]). simpl. lra.
  - split; [split; simpl; (lia || done)|]. split; [simpl; lia|]. split; [done|]. exists moe_conf. exact demo_matches.
Qed.

Lemma demo_device : device_ok demo_runtime.
Proof. split; [by split|done|]. split; [exact SMT.Demo.sorted_unsorted|exact SMT.Demo.gates_ok|done|exact SMT.Demo.machine_ok]. Qed.

Lemma demo_admitted : admitted demo_runtime 4 3 demo_server.
Proof. split; [apply TP.init_ptrs_ok|apply Bk.init_buffers_ok|done|done|done]. Qed.

Lemma demo_final : final demo_runtime 4 3 (replicate 32 5%Z) 0 demo_batch 0.
Proof.
  split; try done; try (simpl; lia).
  - split; try done; try (simpl; lia).
    + apply NoDup_seq.
    + apply NoDup_singleton.
    + intros l Hl%list_elem_of_singleton. done.
  - intros t Ht. cbn [demo_batch mb_batch out_cache_loc]. rewrite seq_nth; [done|exact Ht].
  - intros j Hj. lia.
  - intros t Ht. symmetry. apply nth_repeat_lt || apply nth_lookup_Some, lookup_replicate_2. exact Ht.
Qed.

End Demo.
Import Demo.

Lemma served_model_is_hf_witness : exists s2 logits,
  forward_pass demo_runtime demo_model 32 demo_batch demo_server = Ok (s2, logits) /\
  logits 7 = nth 7 (head_rows demo_model (stack rope0 served_row (Dec.layers demo_hf) (replicate 32 (fun _ => IZR 5)))) [].
Proof.
  destruct (served_model_is_hf (HA := Moe.Example_.argsort_ops) (HAL := Moe.Example_.argsort_laws) demo_runtime demo_model demo_hf rope0 4 3 1 0 (replicate 32 5%Z) [] [] demo_batch 0 demo_server
    demo_is demo_device eq_refl (Nat.lt_0_1) demo_admitted (rounds_0 _ _ _ _) (Forall_nil_2 _) demo_final)
    as (s1 & s2 & logits & E1 & E2 & Hl & _).
  injection E1 as <-. exists s2, logits. split; [exact E2|]. apply (Hl 7). unfold Bk._LLADA_FAST_BLOCK_SIZE. lia.
Defined.

End MT.
