(* ===== verification/ServedDecode.v ===== *)
(** Decoding on the served model: an algorithm that keeps the promise of
    [BatchAlgorithm] runs on the served model, turn after turn, and every pass it makes
    sees the logits of one pass over the request's whole sequence. *)
From stdpp Require Import base list strings.
From Stdlib Require Import ZArith QArith Qreals Reals Lra Lia FunctionalExtensionality.
From S2P Require Import Prelude DllmReq Denoise JointThreshold LowConfidence SoloDecode Sampling Tensor RealOps Moe MoeKernel FusedExperts ServedMoe ServedMoeProps.
From S2P Require Import LinearAttention HybridAttention HybridKernel KernelFacts KernelDriver Backend Decoder DecoderFacts ServedLayer.
From S2P Require Import ExtendKernel ExtendFacts ExtendProps TritonBackend TritonProps SoftmaxLayer.
From S2P Require Import ServedModel ServedModelFacts ServedPass ServedStack ServedModelProps ServedModelThm.
Local Open Scope nat_scope.

Module SD.
Import Solo.

(** ** The blocks before the last *)

Section Prefix.
Import HK EK TB MD MF MP MS MR.
Context {R : Type} {HO : ScalarOps R} {sle : R -> R -> Prop} {HL : ScalarLaws R sle}.
Context {HN : NetOps R} {HLg : LogOps R} {HT : TopkOps R}.
#[local] Abbreviation bs := Bk._LLADA_FAST_BLOCK_SIZE.
Variables (RT : runtime R) (P : SL.rope R) (f : Dec.ffn R -> vec R -> vec R) (m : nat).

Lemma block_pos : 0 < bs.
Proof. unfold Bk._LLADA_FAST_BLOCK_SIZE. lia. Qed.

(** The stack is block-causal. *)
Lemma layer_with_take L pre cur : DecFacts.attn_ok bs (Dec.l_attn L) -> length pre = m * bs -> length cur = bs ->
  take (m * bs) (layer_with P f L (pre ++ cur)) = layer_with P f L pre.
Proof.
  intros Hok Hp Hc. unfold layer_with, DecFacts.normed.
  assert (Et : take (m * bs) (zip_with Dec.vadd (pre ++ cur)
      (DecFacts.attn_row (SL.hf_rotary P) bs (Dec.l_attn L) (map (Dec.norm_forward (Dec.input_layernorm L)) (pre ++ cur))))
    = zip_with Dec.vadd pre (DecFacts.attn_row (SL.hf_rotary P) bs (Dec.l_attn L) (map (Dec.norm_forward (Dec.input_layernorm L)) pre))).
  { rewrite zip_with_take, map_app. rewrite (DecFacts.attn_take (SL.hf_rotary P) bs block_pos _ m) by (done || by rewrite length_map).
    by rewrite take_app_length' by done. }
  rewrite zip_with_take, !firstn_map, Et. done.
Qed.

Lemma length_layer_with L hs : DecFacts.attn_ok bs (Dec.l_attn L) -> length (layer_with P f L hs) = length hs.
Proof.
  intros Hok. unfold layer_with. rewrite length_zip_with, !length_map, length_zip_with, DecFacts.attn_row_length by done.
  unfold DecFacts.normed. rewrite length_map. lia.
Qed.

Lemma stack_length Ls hs : Forall (fun L => DecFacts.attn_ok bs (Dec.l_attn L)) Ls -> length (stack P f Ls hs) = length hs.
Proof.
  intros HLs. revert hs. induction HLs as [|L Ls Hok HLs IH]; intros hs; [done|]. cbn [stack foldl].
  etransitivity; [apply IH|by apply length_layer_with].
Qed.

Lemma stack_take Ls pre cur : Forall (fun L => DecFacts.attn_ok bs (Dec.l_attn L)) Ls -> length pre = m * bs -> length cur = bs ->
  take (m * bs) (stack P f Ls (pre ++ cur)) = stack P f Ls pre.
Proof.
  intros HLs. revert pre cur. induction HLs as [|L Ls Hok HLs IH]; intros pre cur Hp Hc.
  { cbn [stack foldl]. by rewrite take_app_length' by done. }
  pose proof (layer_with_take L pre cur Hok Hp Hc) as Et. cbn [stack foldl].
  rewrite <- (take_drop (m * bs) (layer_with P f L (pre ++ cur))), Et. apply IH; [by rewrite length_layer_with|].
  rewrite length_drop, length_layer_with, length_app by done. lia.
Qed.

(** What a layer holds of [m] blocks depends on their rows only. *)
Lemma holds_ext hid req l A hs hs' c : attn_ok (sle := sle) RT hid P l A ->
  (forall j, j < m * bs -> nth j hs Moe.zero_vec = nth j hs' Moe.zero_vec) ->
  holds_at RT req m l A hs c -> holds_at RT req m l A hs' c.
Proof.
  intros HA E. destruct A as [A|A]; simpl.
  - intros (i & Ht & Hh). exists i. split; [done|]. intros j Hj. rewrite <- E by done. by apply Hh.
  - destruct HA as (_ & _ & Eb & _). intros Hh h Hlt. destruct (Hh h Hlt) as [HS HZ]. rewrite <- Eb in E. split.
    + intros ft d Hf Hd. rewrite HS by done. apply vsum_ext. intros j Hj. unfold SL.k3, SL.v3. by rewrite (E j Hj).
    + intros ft Hf. rewrite HZ by done. apply vsum_ext. intros j Hj. unfold SL.k3. by rewrite (E j Hj).
Qed.

End Prefix.
(** ** The served model as the runner of the algorithm *)

Section Runner.
Import HK EK TB MD MF MP MS MR.
Context {R : Type} {HO : ScalarOps R} {sle : R -> R -> Prop} {HL : ScalarLaws R sle}.
Context {HN : NetOps R} {HLg : LogOps R} {HT : TopkOps R}.
#[local] Abbreviation bs := Bk._LLADA_FAST_BLOCK_SIZE.
Variables (RT : runtime R) (M : model R) (P : SL.rope R) (max_bs : nat).
Context (ffn_is : served_mlp R -> Dec.ffn R -> Prop) (served_row : Dec.ffn R -> vec R -> vec R)
  {FS : FfnServed RT (embed_dim M) ffn_is served_row}.
Variables (Ls : list (Dec.layer R)) (req : nat).
#[local] Abbreviation slot := (req_index_to_mamba_index RT req).

(** [model_runner.forward] on the tensors of a batch.  Its state is the server, or the
    exception of the first pass that raised: no later pass runs then, the exception is
    what the algorithm leaves, and [run_turn] raises it.  No code reads the flag that a
    denoising pass sets, so every pass writes the caches. *)
Definition served_runner (b : ForwardBatch) (offs : list nat) : runner (res (server R)) R := fun rs ids _ =>
  match (let! s := rs in forward_pass RT M bs (mkBatch b offs (fun t => nth t ids 0%Z)) s)%py with
  | Ok (s', logits) => (Ok s', mkOut (map logits (seq 0 (length ids))) false)
  | Raise e => (Raise e, mkOut (replicate (length ids) []) false)
  end.

#[export] Instance served_shape b offs : RunnerShape (served_runner b offs).
Proof.
  intros s ids skip. unfold served_runner. destruct (rbind s _) as [[s' logits]|]; cbn.
  - by rewrite length_map, length_seq.
  - by rewrite length_replicate.
Qed.

(** Logits of a block behind a prefix in one pass over both. *)
Definition block_logits (pre b : list Z) : list (list R) :=
  drop (length pre) (head_rows M (stack P served_row Ls (map (word_embeddings M) (pre ++ b)))).

Record machine_fits : Prop := {
  mf_machine : TP.machine_ok (rt_machine RT);
  mf_sched : forall l, rt_sched RT l ≡ₚ l;
  mf_even : SL.rotary_dim P mod 2 = 0;
  mf_blocks : blocks_are (sle := sle) RT (embed_dim M) P ffn_is (layers M) Ls;
  mf_norm : Dec.nm_size (norm M) = embed_dim M;
}.

(** Request [r] of the batch is this one, at block [n]. *)
Record seated (n : nat) (b : ForwardBatch) (offs : list nat) (r : nat) : Prop := {
  se_fits : batch_fits max_bs (mamba_slots RT b) (mkBatch b offs (fun _ => 0%Z));
  se_in : r < length (req_pool_indices b);
  se_req : nth r (req_pool_indices b) 0 = req;
  se_prefix : nth r (extend_prefix_lens b) 0 = n * bs;
  se_offset : nth r offs 0 = n * bs;
  se_slots : forall t, t < bs -> nth (r * bs + t) (out_cache_loc b) 0 = req_to_token RT req (n * bs + t);
  se_fresh : fresh RT req n b;
}.

Hypothesis Hmf : machine_fits.

Lemma layers_attn_ok k : Forall (fun L => DecFacts.attn_ok bs (Dec.l_attn L)) (take k Ls).
Proof.
  apply Forall_take, Forall_lookup. intros l L HLl. destruct (mf_blocks Hmf) as [He Hb].
  destruct (lookup_lt_is_Some_2 (layers M) l ltac:(apply lookup_lt_Some in HLl; lia)) as [B HB]. specialize (Hb l B L HB HLl).
  rewrite (bi_hf _ _ _ _ _ _ _ Hb). by apply (hf_attn_ok (sle := sle) RT (embed_dim M) P l), Hb.
Qed.

#[local] Abbreviation ok_at ids n s := (server_ok RT M P max_bs served_row Ls req ids n s).

(** The server knows the committed blocks only. *)
Lemma ok_prefix n pre cur s : length pre = n * bs -> length cur = bs -> ok_at (pre ++ cur) n s <-> ok_at pre n s.
Proof.
  intros Hp Hc.
  assert (E : forall l L j, j < n * bs ->
    nth j (layer_rows P served_row Ls (map (word_embeddings M) (pre ++ cur)) l L) Moe.zero_vec
    = nth j (layer_rows P served_row Ls (map (word_embeddings M) pre) l L) Moe.zero_vec).
  { intros l L j Hj. rewrite map_app.
    pose proof (stack_take P served_row n (take l Ls) (map (word_embeddings M) pre) (map (word_embeddings M) cur) (layers_attn_ok l)
      ltac:(by rewrite length_map) ltac:(by rewrite length_map)) as Et.
    assert (Hl : length (stack P served_row (take l Ls) (map (word_embeddings M) pre ++ map (word_embeddings M) cur)) = n * bs + bs)
      by (rewrite stack_length by apply layers_attn_ok; rewrite length_app, !length_map; lia).
    unfold layer_rows, DecFacts.normed. rewrite <- Et.
    rewrite !nth_rows_map by (rewrite ?length_take, Hl; lia). f_equal.
    rewrite <- (take_drop (n * bs) (stack _ _ _ (_ ++ _))) at 1. rewrite app_nth1; [done|]. rewrite length_take, Hl. lia. }
  split; intros [H1 H2 [Hi Hh]]; (split; [done|done|]); (split; [done|]); intros l B L HB HLl;
    (eapply holds_ext; [apply (bi_attn _ _ _ _ _ _ _ (proj2 (mf_blocks Hmf) l B L HB HLl))| |by apply Hh]).
  - by intros j Hj; apply E.
  - by intros j Hj; symmetry; apply E.
Qed.

Lemma runtime_of n ids : length ids = n * bs -> runtime_ok (sle := sle) RT M P ffn_is Ls n ids.
Proof. intros Hl. destruct Hmf. by split. Qed.

Lemma nth_blk k ids t : t < bs -> k * bs + bs <= length ids -> nth t (blk bs k ids) 0%Z = nth (k * bs + t) ids 0%Z.
Proof.
  intros Ht Hk. destruct (lookup_lt_is_Some_2 ids (k * bs + t) ltac:(lia)) as [z Hz].
  rewrite (nth_lookup_Some _ _ _ _ Hz). apply nth_lookup_Some. by rewrite lookup_blk.
Qed.

Lemma seated_final n b offs r pre ids : seated n b offs r -> length pre = n * bs -> length ids = length (req_pool_indices b) * bs ->
  final RT max_bs req (pre ++ blk bs r ids) n (mkBatch b offs (fun t => nth t ids 0%Z)) r.
Proof.
  intros [S1 S2 S3 S4 S5 S6 S7] Hp Hl. split; try done; [destruct S1; by split|].
  intros t Ht. cbn [input_ids]. rewrite app_nth2 by lia. rewrite <- nth_blk by (done || nia). f_equal. lia.
Qed.

Lemma length_block_logits pre b : length (block_logits pre b) = length b.
Proof.
  unfold block_logits, head_rows. rewrite length_drop, length_map, stack_length, length_map, length_app.
  - lia.
  - rewrite <- (firstn_all Ls). apply layers_attn_ok.
Qed.

(** One pass, with any tokens in the block. *)
Lemma runner_step n b offs r pre s ids skip : seated n b offs r -> length pre = n * bs -> ok_at pre n s ->
  length ids = length (req_pool_indices b) * bs ->
  exists s' out, served_runner b offs (Ok s) ids skip = (Ok s', out) /\
  ok_at pre n s' /\ blk bs r (full_logits out) = block_logits pre (blk bs r ids) /\
  forall slots, slot ∈ slots -> ok_at (pre ++ blk bs r ids) (S n) (promote slots s').
Proof.
  intros Hse Hp Hs Hl. set (cur := blk bs r ids). pose proof (se_in _ _ _ _ Hse) as Hin.
  assert (Hc : length cur = bs) by (by apply (length_blk bs (length (req_pool_indices b)))).
  assert (Hpc : length (pre ++ cur) = S n * bs) by (rewrite length_app, Hp, Hc; lia).
  set (mb := mkBatch b offs (fun t => nth t ids 0%Z)). pose proof (runtime_of (S n) (pre ++ cur) Hpc) as ok.
  assert (Hs' : ok_at (pre ++ cur) n s) by (by apply ok_prefix).
  pose proof (seated_final n b offs r pre ids Hse Hp Hl) as Hf.
  destruct (final_pass (sle := sle) RT M P max_bs ffn_is served_row Ls req (S n) (pre ++ cur) ok n mb r s ltac:(lia) Hf Hs')
    as (s' & logits & E & Hpr & Hlog).
  destruct (quiet_pass (sle := sle) RT M P max_bs ffn_is served_row Ls req (S n) (pre ++ cur) ok n mb s (fn_fits _ _ _ _ _ _ _ Hf)
    (se_fresh _ _ _ _ Hse) Hs') as (s'' & logits' & E' & Hq). rewrite E in E'. injection E' as <- <-.
  unfold served_runner. fold mb. cbn [rbind]. rewrite E. eexists s', _. split; [reflexivity|]. split; [by apply (ok_prefix n pre cur)|]. cbn [full_logits].
  split; [|exact Hpr].
  apply list_eq_same_length with (n := bs).
  - by rewrite length_block_logits.
  - apply (length_blk bs (length (req_pool_indices b))); [by rewrite length_map, length_seq|done].
  - intros t x y Ht Hx Hy. rewrite lookup_blk, list_lookup_fmap, lookup_seq_lt in Hx by nia. cbn in Hx. injection Hx as <-.
    rewrite (Hlog t Ht). unfold block_logits in Hy. rewrite lookup_drop, Hp in Hy. by apply nth_lookup_Some.
Qed.

(** ** A turn: the algorithm on the batch, then the promotion *)

Variable run : method R.
Context {HD : DenoiseOps R} {BA : BatchAlgorithm bs run}.

(** What the algorithm makes of a block behind a prefix with the logits of one pass
    over both. *)
Definition decode (pre b : list Z) : res (decode_result unit R) := run unit (solo_runner (block_logits pre)) tt 1 b.

(** No pass has raised, and the server holds the blocks before. *)
Definition works (pre : list Z) (n : nat) (rs : res (server R)) : Prop := exists s, rs = Ok s /\ ok_at pre n s.

Lemma decode_turn n b offs r pre s ids : seated n b offs r -> length pre = n * bs -> ok_at pre n s ->
  length ids = length (req_pool_indices b) * bs ->
  exists out s' ref, run _ (served_runner b offs) (Ok s) (length (req_pool_indices b)) ids = Ok out /\ r_kv out = Ok s' /\
    decode pre (blk bs r ids) = Ok ref /\ nth r (r_next out) [] = nth 0 (r_next ref) [] /\
    r_ids ref = blk bs r (r_ids out) /\ length (r_ids ref) = bs /\
    forall slots, slot ∈ slots -> ok_at (pre ++ r_ids ref) (S n) (promote slots s').
Proof.
  intros Hse Hp Hs Hl. pose proof (se_in _ _ _ _ Hse) as Hin.
  assert (Hi : isolates bs (served_runner b offs) (length (req_pool_indices b)) r (works pre n) (block_logits pre)).
  { split; [split; [apply block_pos|apply _|]|done|apply length_block_logits|]; intros rs ids' skip (s' & -> & Hs') Hl';
      destruct (runner_step n b offs r pre s' ids' skip Hse Hp Hs' Hl') as (s2 & fo & -> & H1 & H2 & _); [by exists s2|done]. }
  destruct (ba_keeps _ _ _ (Ok s) ids (is_keeps _ _ _ _ _ _ Hi) ltac:(by exists s) Hl) as (out & rs & E & Hlen & (s1 & -> & Hs1) & Ek).
  destruct (ba_solo _ _ _ _ _ (Ok s) ids out Hi ltac:(by exists s) Hl E) as (ref & Er & Ei & En).
  destruct (runner_step n b offs r pre s1 (r_ids out) false Hse Hp Hs1 Hlen) as (s2 & fo & E2 & _ & _ & Hpr). rewrite E2 in Ek.
  exists out, s2, ref. repeat (split; [done|]). split; [rewrite Ei; by apply (length_blk bs (length (req_pool_indices b)))|].
  intros slots Hsl. rewrite Ei. by apply Hpr.
Qed.

(** ** Many turns *)

(** What the event loop does to the model: the algorithm on a batch, and the promotion
    of requests that enter their next block. *)
Inductive turn : Type :=
| Decode (b : ForwardBatch) (offs : list nat) (ids : list Z)
| Promoted (slots : list nat).

Definition run_turn (t : turn) (s : server R) : res (server R) :=
  match t with
  | Decode b offs ids =>
    (let! out := run _ (served_runner b offs) (Ok s) (length (req_pool_indices b)) ids in r_kv out)%py
  | Promoted slots => Ok (promote slots s)
  end.

Fixpoint run_turns (ts : list turn) (s : server R) : res (server R) :=
  match ts with [] => Ok s | t :: ts => (let! s := run_turn t s in run_turns ts s)%py end.

Lemma run_turns_app ts ts' s : run_turns (ts ++ ts') s = (let! s := run_turns ts s in run_turns ts' s)%py.
Proof. clear. revert s. induction ts as [|t ts IH]; intros s; [done|]. simpl. destruct (run_turn t s); simpl; [apply IH|done]. Qed.

(** Turns that leave the first [n] blocks of the request alone. *)
Definition quiet_turn (n : nat) (t : turn) : Prop :=
  match t with
  | Decode b offs ids => batch_fits max_bs (mamba_slots RT b) (mkBatch b offs (fun _ => 0%Z)) /\ fresh RT req n b /\
      length ids = length (req_pool_indices b) * bs
  | Promoted slots => slot ∉ slots
  end.

Lemma quiet_turns n pre ts s : length pre = n * bs -> Forall (quiet_turn n) ts -> ok_at pre n s ->
  exists s', run_turns ts s = Ok s' /\ ok_at pre n s'.
Proof.
  intros Hp Hq. revert s. induction Hq as [|t ts Ht Hq IH]; intros s Hs; [by exists s|]. cbn [run_turns].
  destruct t as [b offs ids|slots]; cbn [run_turn].
  - destruct Ht as (Hb & Hf & Hl).
    destruct (ba_invariant bs run (served_runner b offs) (length (req_pool_indices b)) (works pre n) (Ok s) ids)
      as (out & -> & (s1 & Ek & Hs')); [|by exists s|done|cbn [rbind]; rewrite Ek; cbn [rbind]; by apply IH].
    split; [apply block_pos|apply _|]. intros rs ids' skip (s' & -> & Hs1) Hl'. unfold served_runner. cbn [rbind].
    destruct (quiet_pass (sle := sle) RT M P max_bs ffn_is served_row Ls req n pre (runtime_of n pre Hp) n
      (mkBatch b offs (fun t => nth t ids' 0%Z)) s' ltac:(destruct Hb; by split) Hf Hs1) as (s2 & logits & -> & Hs2). by exists s2.
  - cbn [rbind]. apply IH. by apply other_promoted.
Qed.

(** The request over its blocks, each given as it enters its turn. *)
Inductive turns : list (list Z) -> list turn -> Prop :=
| turns_0 : turns [] []
| turns_S bls ts q b offs r ids slots :
    turns bls ts -> Forall (quiet_turn (length bls)) q -> seated (length bls) b offs r ->
    length ids = length (req_pool_indices b) * bs -> slot ∈ slots ->
    turns (bls ++ [blk bs r ids]) (ts ++ q ++ [Decode b offs ids; Promoted slots]).

(** The same blocks one after the other, each decoded behind the ones before. *)
Fixpoint decode_blocks (pre : list Z) (bls : list (list Z)) : res (list Z) :=
  match bls with
  | [] => Ok pre
  | b :: bls => (let! out := decode pre b in decode_blocks (pre ++ r_ids out) bls)%py
  end.

Lemma decode_blocks_snoc pre bls b :
  decode_blocks pre (bls ++ [b]) = (let! p := decode_blocks pre bls in let! out := decode p b in Ok (p ++ r_ids out))%py.
Proof.
  clear. revert pre. induction bls as [|x bls IH]; intros pre; cbn [app decode_blocks rbind].
  - by destruct (decode pre b).
  - destruct (decode pre x); cbn [rbind]; [apply IH|done].
Qed.

Lemma turns_ok bls ts s : turns bls ts -> ok_at [] 0 s -> exists s' pre, run_turns ts s = Ok s' /\
  decode_blocks [] bls = Ok pre /\ length pre = length bls * bs /\ ok_at pre (length bls) s'.
Proof.
  intros Ht H0. induction Ht as [|bls ts q b offs r ids slots Ht IH Hq Hse Hl Hsl]; [by exists s, []|].
  destruct IH as (s1 & pre & E1 & E2 & Hp & H1). rewrite run_turns_app, E1. cbn [rbind].
  destruct (quiet_turns _ pre q s1 Hp Hq H1) as (s2 & E3 & H2). rewrite run_turns_app, E3. cbn [rbind run_turns run_turn].
  destruct (decode_turn (length bls) b offs r pre s2 ids Hse Hp H2 Hl) as (out & s3 & ref & E4 & Ek & E5 & _ & _ & Hr & Hpr).
  rewrite E4. cbn [rbind]. rewrite Ek. cbn [rbind]. eexists _, (pre ++ r_ids ref). split; [reflexivity|]. rewrite decode_blocks_snoc, E2. cbn [rbind]. rewrite E5.
  split; [done|]. rewrite !length_app, Hp, Hr. cbn [length]. split; [lia|]. replace (length bls + 1) with (S (length bls)) by lia. by apply Hpr.
Qed.

(** The answer of the next turn. *)
Lemma served_answer bls ts q b offs r ids s : turns bls ts -> Forall (quiet_turn (length bls)) q -> seated (length bls) b offs r ->
  length ids = length (req_pool_indices b) * bs -> ok_at [] 0 s ->
  exists s1 out s2 pre ref, run_turns (ts ++ q) s = Ok s1 /\
    run _ (served_runner b offs) (Ok s1) (length (req_pool_indices b)) ids = Ok out /\ r_kv out = Ok s2 /\
    decode_blocks [] bls = Ok pre /\ length pre = length bls * bs /\ decode pre (blk bs r ids) = Ok ref /\
    nth r (r_next out) [] = nth 0 (r_next ref) [] /\ blk bs r (r_ids out) = r_ids ref.
Proof.
  intros Ht Hq Hse Hl H0. destruct (turns_ok bls ts s Ht H0) as (s1 & pre & E1 & E2 & Hp & H1).
  destruct (quiet_turns _ pre q s1 Hp Hq H1) as (s2 & E3 & H2).
  destruct (decode_turn (length bls) b offs r pre s2 ids Hse Hp H2 Hl) as (out & s3 & ref & E4 & Ek & E5 & E6 & E7 & _).
  exists s2, out, s3, pre, ref. rewrite run_turns_app, E1. cbn [rbind]. by rewrite E7.
Qed.

End Runner.

(** ** Over the real numbers *)

Section Real.
Import Reals RealSample Config HK EK TB MD MF MP MS MR.
Context {HN : NetOps R} {HLg : LogOps R}.
#[local] Abbreviation bs := Bk._LLADA_FAST_BLOCK_SIZE.

Lemma machine_of RT M HM P : MT.model_is RT M HM P -> MT.device_ok RT ->
  machine_fits (sle := Rle) RT M P (MT.ffn_is (embed_dim M)) (Dec.layers HM).
Proof. intros Hm [D1 D2 D3]. split; try done; apply Hm. Qed.

(** C31. Decoding on the served model is decoding on whole passes, block by block, for
    the algorithm that the configuration selects, [JointThreshold] or [LowConfidence].  A
    request is admitted with a zero state.  In each turn the algorithm denoises the block
    of every request of a batch on the served model, each pass on what the passes before
    it left in the caches, the state slots and the tokens; when a request enters its next
    block its state is promoted.  Turns of other requests come between, with promotions of
    their own.  Then no pass of any turn raises ([served_runner] keeps the exception of a
    pass that does), and the algorithm on the next batch, all of whose passes return too,
    gives the request exactly the answer and leaves exactly the tokens that [decode] gives on its block
    alone, where every logit is read off one pass of the stack over the request's whole
    sequence so far: its earlier blocks as [decode] left them and the current tokens of
    its block.  Neither the other requests, nor the batching, nor the caches show.
    [served_row] is the feed-forward block of the server, as in the refinement of the
    whole model. *)
Theorem served_decoding (RT : runtime R) (M : model R) (HM : Dec.model R) (P : SL.rope R) (config : DllmConfig R) (cls : algo_class)
    (max_bs req : nat) (bls : list (list Z)) (ts q : list turn) (b : ForwardBatch) (offs : list nat) (r : nat) (ids : list Z)
    (s : server R) :
  MT.model_is RT M HM P -> MT.device_ok RT -> get_algorithm config = Ok cls -> Config.block_size config = bs -> MT.admitted RT max_bs req s ->
  turns RT max_bs req bls ts -> Forall (quiet_turn RT max_bs req (length bls)) q -> seated RT max_bs req (length bls) b offs r ->
  length ids = length (req_pool_indices b) * bs ->
  let run := run_configured config in
  exists s1 out s2 pre ref, run_turns RT M run (ts ++ q) s = Ok s1 /\
    run _ (served_runner RT M b offs) (Ok s1) (length (req_pool_indices b)) ids = Ok out /\ r_kv out = Ok s2 /\
    decode_blocks M P MT.served_row (Dec.layers HM) run [] bls = Ok pre /\ length pre = length bls * bs /\
    decode M P MT.served_row (Dec.layers HM) run pre (blk bs r ids) = Ok ref /\
    nth r (r_next out) [] = nth 0 (r_next ref) [] /\ blk bs r (r_ids out) = r_ids ref.
Proof.
  intros Hm Hd Hc Hb Ha Ht Hq Hse Hl. pose proof (MT.ffn_served RT (embed_dim M) (MT.de_kernels _ Hd)) as FS.
  pose proof (configured_batch config cls Hc) as BA. rewrite Hb in BA.
  by apply (served_answer (sle := Rle) RT M P max_bs (MT.ffn_is (embed_dim M)) MT.served_row (Dec.layers HM) req
    (machine_of RT M HM P Hm Hd) (run_configured config) bls ts q b offs r ids s), (MT.admitted_ok RT M HM P max_bs req [] s).
Qed.

End Real.

(** ** A concrete run *)

Module Demo.
Export MT.Demo Config.

Definition joint : DllmConfig R :=
  {| algorithm := "JointThreshold"; cfg_algorithm_config := empty_algorithm_config; Config.block_size := 32; mask_id := 1; max_running_requests := 1 |}.
Definition masks : list Z := replicate 32 1%Z.

(** The request alone at its block [n]. *)
Definition batch_at (n : nat) : TB.ForwardBatch := TB.mkFB [3] [n * 32] [32] None (seq (n * 32) 32).
Definition first_turns : list turn := [Decode (batch_at 0) [0] masks; Promoted [4]].

Lemma seated_at n : seated demo_runtime 4 3 n (batch_at n) [n * 32] 0.
Proof.
  split; try done; try (simpl; lia).
  - split; try done; try (simpl; lia).
    + apply NoDup_seq.
    + apply NoDup_singleton.
    + intros l Hl%list_elem_of_singleton. done.
  - intros t Ht. cbn [batch_at TB.out_cache_loc]. by rewrite seq_nth.
  - intros j Hj Hin%elem_of_seq. cbn in Hin. unfold Bk._LLADA_FAST_BLOCK_SIZE in Hj. lia.
Qed.

Lemma first_turns_ok : turns demo_runtime 4 3 [masks] first_turns.
Proof. apply (turns_S demo_runtime 4 3 [] [] [] (batch_at 0) [0] 0 masks [4]); [apply turns_0|done|apply seated_at|done|left]. Qed.

End Demo.
Import Demo.

(** The second block of a request whose first one was decoded and promoted. *)
Lemma served_decoding_witness : exists s1 out s2 pre ref,
  run_turns demo_runtime demo_model (run_configured joint) first_turns demo_server = Ok s1 /\
  run_configured joint _ (served_runner demo_runtime demo_model (batch_at 1) [32]) (Ok s1) 1 masks = Ok out /\ r_kv out = Ok s2 /\ length pre = 32 /\
  decode demo_model rope0 MT.served_row (Dec.layers demo_hf) (run_configured joint) pre masks = Ok ref /\
  nth 0 (r_next out) [] = nth 0 (r_next ref) [].
Proof.
  destruct (served_decoding demo_runtime demo_model demo_hf rope0 joint JointThresholdCls 4 3
    [masks] first_turns [] (batch_at 1) [32] 0 masks demo_server demo_is demo_device eq_refl eq_refl demo_admitted first_turns_ok
    (Forall_nil_2 _) (seated_at 1) eq_refl) as (s1 & out & s2 & pre & ref & E1 & E2 & Ek & _ & Hp & E3 & E4 & _).
  rewrite app_nil_r in E1. exists s1, out, s2, pre, ref. split; [exact E1|]. split; [exact E2|]. split; [exact Ek|]. split; [exact Hp|]. split; [exact E3|exact E4].
Defined.

End SD.
