(* ===== verification/ServerArgs.v ===== *)
(** The server arguments of diffusion inference: [ServerArgs._handle_dllm_inference]
    of [sglang/srt/server_args.py], which turns off what the diffusion scheduler does
    not support before the server starts. *)
From stdpp Require Import base list strings.
From Stdlib Require Import ZArith Lia.
From S2P Require Import Prelude DllmReq.
Local Open Scope nat_scope.

Module Args.

Inductive platform : Type := Hip | Npu | Other.

(** The arguments that the handler reads and writes; the diffusion arguments are those
    of [DllmConfig.from_server_args]. *)
Record server_args : Type := mkArgs {
  dllm : Config.ServerArgs;
  disable_cuda_graph : bool;
  attention_backend : option string;
  disable_overlap_schedule : bool;
  disable_radix_cache : bool;
  page_size : nat;
  enable_hierarchical_cache : bool;
  enable_lmcache : bool;
  pp_size : nat;
  enable_lora : bool;
}.

Definition is_backend (name : string) (backend : option string) : bool := bool_decide (backend = Some name).

(** CUDA graphs and the attention backend for the platform. *)
Definition choose_backend (pl : platform) (disable_cuda_graph : bool) (backend : option string) : bool * option string :=
  match pl with
  | Hip => (true, if is_backend "triton" backend || is_backend "aiter" backend then backend else Some "triton"%string)
  | Npu => (disable_cuda_graph, if is_backend "ascend" backend then backend else Some "ascend"%string)
  | Other => (disable_cuda_graph, if disable_cuda_graph then backend
                                  else if is_backend "flashinfer" backend then backend else Some "flashinfer"%string)
  end.

(** [_handle_dllm_inference]; [from_server_args] may raise, and so does the remainder
    by a block size of zero. *)
Definition _handle_dllm_inference {Sc} (pl : platform) (architectures : list string) (yaml_load : string -> Config.algorithm_config Sc)
    (a : server_args) : res server_args :=
  match Config.sa_dllm_algorithm (dllm a) with
  | None => Ok a
  | Some _ =>
    let '(graph, backend) := choose_backend pl (disable_cuda_graph a) (attention_backend a) in
    let pp := if negb (1 <? pp_size a) then 1 else pp_size a in
    let rest page hier lm := mkArgs (dllm a) graph backend true (disable_radix_cache a) page hier lm pp false in
    if disable_radix_cache a then Ok (rest (page_size a) (enable_hierarchical_cache a) (enable_lmcache a))
    else
      (let! config := Config.from_server_args architectures yaml_load (dllm a) in
       match config with
       | None => Raise AttributeError
       | Some c =>
         if Config.block_size c =? 0 then Raise ZeroDivisionError
         else Ok (rest (if page_size a mod Config.block_size c =? 0 then page_size a else Config.block_size c) false false)
       end)%py
  end.

(** ** What the handler leaves *)

Section Handled.
Context {Sc : Type} (pl : platform) (architectures : list string) (yaml_load : string -> Config.algorithm_config Sc).
#[local] Abbreviation handle := (_handle_dllm_inference pl architectures yaml_load).

(** Settings fit for diffusion: no overlap, no adapters, no host caches beside the
    radix cache, and pages that hold whole blocks. *)
Record fits (a : server_args) : Prop := {
  ft_overlap : disable_overlap_schedule a = true;
  ft_lora : enable_lora a = false;
  ft_graph : pl = Hip -> disable_cuda_graph a = true;
  ft_backend : pl = Other -> disable_cuda_graph a = false -> attention_backend a = Some "flashinfer"%string;
  ft_caches : disable_radix_cache a = false -> enable_hierarchical_cache a = false /\ enable_lmcache a = false;
  ft_pages : disable_radix_cache a = false ->
    exists c, Config.from_server_args architectures yaml_load (dllm a) = Ok (Some c) /\ page_size a mod Config.block_size c = 0;
}.

Lemma choose_backend_fits graph backend graph' backend' : choose_backend pl graph backend = (graph', backend') ->
  choose_backend pl graph' backend' = (graph', backend') /\ (pl = Hip -> graph' = true) /\
  (pl = Other -> graph' = false -> backend' = Some "flashinfer"%string).
Proof.
  unfold choose_backend, is_backend. destruct pl; intros [= <- <-].
  - split; [|done]. repeat case_bool_decide; simpl in *; try done; congruence.
  - split; [|done]. repeat case_bool_decide; simpl in *; try done; congruence.
  - destruct graph; [done|]. split; [repeat case_bool_decide; simpl in *; try done; congruence|].
    split; [done|]. intros _ _. by case_bool_decide.
Qed.

(** The handler leaves settings that fit, and running it again changes nothing. *)
Lemma handled_fits a b : is_Some (Config.sa_dllm_algorithm (dllm a)) -> handle a = Ok b -> fits b /\ handle b = Ok b.
Proof.
  intros [alg Ha]. unfold _handle_dllm_inference. rewrite Ha.
  destruct (choose_backend pl _ _) as [graph backend] eqn:Ec. destruct (choose_backend_fits _ _ _ _ Ec) as (E1 & E2 & E3).
  assert (Epp : (if negb (1 <? (if negb (1 <? pp_size a) then 1 else pp_size a)) then 1 else (if negb (1 <? pp_size a) then 1 else pp_size a))
    = if negb (1 <? pp_size a) then 1 else pp_size a) by (by destruct (Nat.ltb_spec 1 (pp_size a)) as [H|H]; simpl; [apply Nat.ltb_lt in H; rewrite H|]).
  destruct (disable_radix_cache a) eqn:Er.
  - intros [= <-]. split; [by split; simpl|]. simpl. rewrite Ha, E1. by rewrite Epp.
  - destruct (Config.from_server_args _ _ _) as [[c|]|] eqn:Ef; [|done..]. cbn [rbind].
    destruct (Nat.eqb_spec (Config.block_size c) 0) as [|Hb]; [done|]. intros [= <-].
    assert (Ep : (if page_size a mod Config.block_size c =? 0 then page_size a else Config.block_size c) mod Config.block_size c = 0)
      by (destruct (Nat.eqb_spec (page_size a mod Config.block_size c) 0); [done|by apply Nat.Div0.mod_same]).
    split; [split; simpl; try done; intros _; by exists c|].
    simpl. rewrite Ha, E1, Ef. cbn [rbind]. destruct (Nat.eqb_spec (Config.block_size c) 0); [done|]. by rewrite Epp, Ep.
Qed.

(** Pipeline parallelism is left as it is: [pp_size] is never lowered. *)
Lemma pipeline_kept a b : 1 <= pp_size a -> handle a = Ok b -> pp_size b = pp_size a.
Proof.
  intros Hp. assert (Epp : (if negb (1 <? pp_size a) then 1 else pp_size a) = pp_size a)
    by (destruct (Nat.ltb_spec 1 (pp_size a)); simpl; lia).
  unfold _handle_dllm_inference. destruct (Config.sa_dllm_algorithm _); [|congruence].
  destruct (choose_backend _ _ _). rewrite Epp. destruct (disable_radix_cache a); [by intros [= <-]|].
  destruct (Config.from_server_args _ _ _) as [[c|]|]; [|done..]. cbn [rbind]. destruct (_ =? 0); [done|]. by intros [= <-].
Qed.

End Handled.
End Args.
