(* ===== verification/LayerPlan.v ===== *)
(** Which layers are hybrid: [build_config] of [scripts/prepare_model.py] writes
    the plan of the adapter into the served configuration, and
    [LLaDAFastConfigAdapter] ([sglang/srt/configs/llada_fast.py]) and the
    constructor of [LLaDAFastForCausalLM] read it, for the state pools and for
    the layers they replace. *)
From Stdlib Require Import ZArith Lia.
From stdpp Require Import base list strings.
From S2P Require Import Prelude.
Local Open Scope nat_scope.

Module Plan.

(** [adapter_config.json]. *)
Record spec : Type := mkSpec {
  architecture : string;
  linear_layers : list Z;
  sp_feature_dim : nat;
  sp_share_hedgehog_kv_groups : bool;
  sp_block_size : nat;
  lora_r : Z;
  lora_alpha : Z;
}.

(** The attributes of a configuration that the hybrid model reads; [None] where
    an attribute is absent. *)
Record config : Type := mkConfig {
  num_hidden_layers : nat;
  num_attention_heads : nat;
  num_key_value_heads : option nat;
  head_dim : option nat;
  hidden_size : nat;
  architectures : option (list string);
  layers_block_type : option (list string);
  use_block_softmax_hybrid : bool;
  feature_dim : option nat;
  share_hedgehog_kv_groups : bool;
  block_size : option nat;
  llada_hybrid_lora_rank : option Z;
  llada_hybrid_lora_alpha : option Z;
}.

(** [l[i] = v] with Python's negative indices. *)
Definition py_setitem {A} (i : Z) (v : A) (l : list A) : res (list A) :=
  let n := Z.of_nat (length l) in
  if ((- n <=? i) && (i <? n))%Z then Ok (<[Z.to_nat (if (i <? 0)%Z then i + n else i)%Z := v]> l)
  else Raise IndexError.

Fixpoint set_hybrid (idx : list Z) (types : list string) : res (list string) :=
  match idx with
  | [] => Ok types
  | i :: idx => (let! types := py_setitem i "hybrid"%string types in set_hybrid idx types)%py
  end.

Definition build_config (base : config) (S : spec) : res config :=
  (let! types := set_hybrid (linear_layers S) (replicate (num_hidden_layers base) "attention"%string) in
   Ok (mkConfig (num_hidden_layers base) (num_attention_heads base) (num_key_value_heads base) (head_dim base)
         (hidden_size base) (Some [architecture S]) (Some types) true (Some (sp_feature_dim S))
         (sp_share_hedgehog_kv_groups S) (Some (sp_block_size S)) (Some (lora_r S)) (Some (lora_alpha S))))%py.

Definition LLADA_FAST_HYBRID_TYPES : list string :=
  ["hybrid"; "hybrid_linear"; "block_softmax_linear_hybrid"]%string.

Definition is_hybrid (t : string) : bool := bool_decide (t ∈ LLADA_FAST_HYBRID_TYPES).

Definition _is_llada_fast_config (C : config) : bool :=
  use_block_softmax_hybrid C && bool_decide ("LLaDAFastForCausalLM"%string ∈ default [] (architectures C)).

Definition block_types (C : config) : list string :=
  default (replicate (num_hidden_layers C) "attention"%string) (layers_block_type C).

(** [[i for i, t in enumerate(l) if p t]] *)
Definition indices (p : string -> bool) (l : list string) : list nat :=
  omap (fun it : nat * string => if p (snd it) then Some (fst it) else None) (zip (seq 0 (length l)) l).

Definition full_attention_layer_ids (C : config) : list nat := indices (fun t => negb (is_hybrid t)) (block_types C).
Definition kv_full_attention_layer_ids (C : config) : list nat := full_attention_layer_ids C.
Definition hybrid_attention_layer_ids (C : config) : list nat := indices is_hybrid (block_types C).

(** Shapes of the state of one slot and layer. *)
Record state_shape : Type := mkShape { conv : list (list nat); temporal : list nat; state_layers : list nat }.

Definition mamba2_cache_params (tp : nat) (C : config) : res state_shape :=
  let num_heads := num_attention_heads C in
  let num_kv_heads := default num_heads (num_key_value_heads C) in
  let dim := match head_dim C with Some (S d) => S d | _ => hidden_size C / num_heads end in
  match feature_dim C with
  | None => Raise AttributeError
  | Some f =>
    let state_heads := if share_hedgehog_kv_groups C then num_kv_heads else num_heads in
    let h_local := state_heads / tp in
    let z_shape := [h_local * 2 * f; 1] in
    Ok (mkShape [z_shape; z_shape] [2; h_local; 2 * f; dim] (hybrid_attention_layer_ids C))
  end.

(** The layers [__init__] replaces, of those this pipeline stage holds. *)
Fixpoint swap_layers (types : list string) (layers : list nat) : res (list nat) :=
  match layers with
  | [] => Ok []
  | i :: layers =>
    match types !! i with
    | None => Raise IndexError
    | Some t =>
      (let! rest := swap_layers types layers in Ok (if is_hybrid t then i :: rest else rest))%py
    end
  end.

Definition swapped (C : config) (start_layer end_layer : nat) : res (list nat) :=
  swap_layers (block_types C) (seq start_layer (end_layer - start_layer)).

(** ** The plan *)

Lemma indices_spec p l i : i ∈ indices p l <-> exists t, l !! i = Some t /\ p t = true.
Proof.
  unfold indices. rewrite list_elem_of_omap. split.
  - intros ([j t] & Hin & E). simpl in E. destruct (p t) eqn:Ep; [|done]. injection E as ->.
    apply list_elem_of_lookup in Hin as (k & Hk). apply lookup_zip_with_Some in Hk as (a & b & [= -> ->] & Ha & Hb).
    apply lookup_seq in Ha as [-> _]. by exists b.
  - intros (t & Ht & Ep). exists (i, t). simpl. rewrite Ep. split; [|done].
    apply list_elem_of_lookup. exists i. apply lookup_zip_with_Some. exists i, t. split; [done|]. split; [|done].
    apply lookup_seq. split; [done|]. by eapply lookup_lt_Some.
Qed.

(** The layer an index of the plan names. *)
Definition layer_of (n : nat) (z : Z) : nat := Z.to_nat (if (z <? 0)%Z then z + Z.of_nat n else z)%Z.

Definition in_range (n : nat) (z : Z) : Prop := (- Z.of_nat n <= z < Z.of_nat n)%Z.

Lemma set_hybrid_spec idx types : Forall (in_range (length types)) idx ->
  exists out, set_hybrid idx types = Ok out /\ length out = length types /\
    forall i, i < length types ->
      out !! i = if bool_decide (i ∈ map (layer_of (length types)) idx) then Some "hybrid"%string else types !! i.
Proof.
  revert types. induction idx as [|z idx IH]; intros types Hr.
  { exists types. split; [done|]. split; [done|]. intros i _. by rewrite bool_decide_false by apply not_elem_of_nil. }
  apply Forall_cons in Hr as [[H1 H2] Hr]. cbn [set_hybrid]. unfold py_setitem.
  rewrite (proj2 (Z.leb_le _ _) H1), (proj2 (Z.ltb_lt _ _) H2). cbn [andb rbind].
  change (Z.to_nat (if (z <? 0)%Z then z + Z.of_nat (length types) else z)%Z) with (layer_of (length types) z).
  set (t1 := <[layer_of (length types) z := "hybrid"%string]> types).
  assert (El : length t1 = length types) by apply length_insert. rewrite <- El in Hr.
  destruct (IH t1 Hr) as (out & E & Hlen & Hout). rewrite El in *. exists out. split; [done|]. split; [done|].
  intros i Hi. rewrite Hout by done. cbn [map]. destruct (decide (i ∈ map (layer_of (length types)) idx)) as [Hin|Hin].
  - rewrite !bool_decide_true; [done|by right|done].
  - rewrite (bool_decide_false (i ∈ map _ idx)) by done. unfold t1.
    destruct (decide (i = layer_of (length types) z)) as [->|Hne].
    + rewrite list_lookup_insert_eq by done. by rewrite bool_decide_true by (by left).
    + rewrite list_lookup_insert_ne by done. rewrite bool_decide_false; [done|].
      by rewrite not_elem_of_cons.
Qed.

Lemma swap_spec types layers : Forall (fun i => i < length types) layers ->
  exists out, swap_layers types layers = Ok out /\
    forall i, i ∈ out <-> i ∈ layers /\ exists t, types !! i = Some t /\ is_hybrid t = true.
Proof.
  induction 1 as [|i layers Hi _ (out & E & Hout)]; cbn [swap_layers].
  { exists []. split; [done|]. intros i. split; [by intros ?%elem_of_nil|]. by intros [?%elem_of_nil _]. }
  destruct (lookup_lt_is_Some_2 types i Hi) as [t Ht]. rewrite Ht, E. cbn [rbind].
  eexists. split; [done|]. intros j. rewrite (elem_of_cons layers). destruct (is_hybrid t) eqn:Eh.
  - rewrite elem_of_cons, Hout. split; [intros [->|[Hj Hx]]; [split; [by left|by exists t]|split; [by right|done]]|].
    intros [[->|Hj] Hx]; [by left|by right].
  - rewrite Hout. split; [intros [Hj Hx]; split; [by right|done]|]. intros [[->|Hj] Hx]; [|done].
    destruct Hx as (t' & Ht' & Hh). congruence.
Qed.

(** The served configuration follows the adapter: every plan whose layers exist
    is accepted, the hybrid layers are exactly the planned ones, the key-value
    cache serves exactly the others, the state pool has the hybrid layers, and a
    pipeline stage replaces exactly its own hybrid layers. *)
Lemma plan_is_served (base : config) (S : spec) (start_layer end_layer : nat) :
  Forall (in_range (num_hidden_layers base)) (linear_layers S) -> end_layer <= num_hidden_layers base ->
  exists C out, build_config base S = Ok C /\ swapped C start_layer end_layer = Ok out /\
    (forall i, i ∈ hybrid_attention_layer_ids C <->
       i < num_hidden_layers base /\ i ∈ map (layer_of (num_hidden_layers base)) (linear_layers S)) /\
    (forall i, i ∈ kv_full_attention_layer_ids C <->
       i < num_hidden_layers base /\ i ∉ hybrid_attention_layer_ids C) /\
    (forall i, i ∈ out <-> start_layer <= i < end_layer /\ i ∈ hybrid_attention_layer_ids C).
Proof.
  intros Hr He. unfold build_config. set (n := num_hidden_layers base) in *.
  destruct (set_hybrid_spec (linear_layers S) (replicate n "attention"%string)) as (types & E & Hlen & Ht).
  { by rewrite length_replicate. }
  rewrite E. cbn [rbind]. rewrite length_replicate in *. unfold swapped, hybrid_attention_layer_ids,
    kv_full_attention_layer_ids, full_attention_layer_ids, block_types. cbn [layers_block_type default].
  destruct (swap_spec types (seq start_layer (end_layer - start_layer))) as (out & Eo & Hout).
  { apply Forall_forall. intros i Hi%elem_of_seq. lia. }
  do 2 eexists. split; [done|]. cbn [layers_block_type default]. split; [exact Eo|].
  assert (Hh : forall i, i ∈ indices is_hybrid types <-> i < n /\ i ∈ map (layer_of n) (linear_layers S)).
  { intros i. rewrite indices_spec. split.
    - intros (t & Hi & Hb). assert (i < n) by (rewrite <- Hlen; by eapply lookup_lt_Some). split; [done|].
      rewrite Ht in Hi by done. case_bool_decide; [done|]. rewrite lookup_replicate_2 in Hi by done.
      by injection Hi as <-.
    - intros [Hi Hin]. exists "hybrid"%string. by rewrite Ht, bool_decide_true by done. }
  split; [exact Hh|]. split.
  - intros i. rewrite !indices_spec. split.
    + intros (t & Hi & Hb). split; [rewrite <- Hlen; by eapply lookup_lt_Some|].
      intros (t' & Hi' & Hb'). simplify_eq. by rewrite Hb' in Hb.
    + intros [Hi Hn]. destruct (lookup_lt_is_Some_2 types i) as [t Hti]; [lia|]. exists t. split; [done|].
      destruct (is_hybrid t) eqn:Eh; [|done]. exfalso. apply Hn. by exists t.
  - intros i. rewrite Hout, elem_of_seq, indices_spec. naive_solver lia.
Qed.

End Plan.
